(* ===== verification/_CoqProject ===== *)
-Q . S2P
Prelude.v
Identity.v
PhysicalRoot.v
Authority.v
Mutation.v
Transition.v
Capacity.v
Supervisor.v
Candidate.v
Observer.v
Verification.v
Registry.v
Activation.v
ProjectAuthority.v
Slices.v
Float.v
Text.v
Domain.v
Classification.v
TextLines.v
ConfigExtract.v
MarkdownExtract.v
TomlExtract.v
KeyWalk.v
JsonExtract.v
YamlExtract.v
Disambiguation.v
CiYaml.v
Graph.v
Trigram.v
LiveIndex.v
SearchScope.v
SymbolSearch.v
TextSearch.v
RankSignals.v
FileSearch.v
References.v
Dependents.v
QualifiedUsages.v
Query.v
Snapshot.v
BatchCommit.v
Governor.v
CanonicalJson.v
Repeat.v
Idempotency.v
Auth.v
RustPrefix.v
Structural.v
ConfigFiles.v
BatchEdit.v
BatchStaging.v
BatchAnswer.v
Rename.v
