(* ===== verification/Prelude.v ===== *)
(** * Verification of SymForge

    SymForge (src/) keeps a live index of source trees and serves queries and edits
    from it to coding agents.  This library models its core modules and proves what
    they promise: the lifecycle modules that decide which query may see which
    generation of the index and which thread may write under which directory
    (src/src/index_lifecycle/, src/src/lifecycle_identity.rs); the index structures that
    answer searches (src/src/live_index/, src/src/domain/); the safety of edits and
    retries (src/src/edit_safety/, src/src/idempotency.rs); and the gates in front of
    the server (src/src/sidecar/governor.rs, src/src/server/).

    ** The parts and how they interact

    Identities are minted from process-wide counters ([Identity]).  A source's phase,
    mutation epoch and outstanding permits are one [SourceRuntime] ([Authority]); a
    grant freezes the source and becomes a permit pinned to a directory lease
    ([PhysicalRoot], [Mutation]); the source returns through one ordered transition
    ([Transition]).  Beside it, an observation lane turns file changes into isolated
    candidates: a supervisor owns attempts ([Supervisor]), the capacity ledger pays for
    builds ([Capacity]), a candidate commits at one point ([Candidate]), and an
    accumulator and an observer slot make sure no change is lost ([Observer]).  The
    project source authority composes all of these behind two mutexes
    ([ProjectAuthority]).  Projects are admitted and stopped by a registry
    ([Registry]), kept current by rolling verification ([Verification]), and the whole
    process moves from the legacy to the preventive mode by one cut ([Activation]).
    Queries read through leases ([Query]); a restart reads seeds that may have to be
    quarantined ([Snapshot]).

    The index itself holds parsed files: symbols and references ([Domain]).  A file is
    admitted by its language, size and content ([Classification]).  A configuration file is
    cut into symbols by an extractor ([ConfigExtract] for .env files, [MarkdownExtract],
    [TomlExtract], [JsonExtract], [YamlExtract] with [CiYaml]) and its symbols can be edited
    ([ConfigFiles]).  A parsed file enters the live
    index, whose derived tables move with every update ([LiveIndex]).  A name's
    references are read from those tables ([References]), and so are the files that depend on
    a file, through re-exports ([Dependents]); a use that the parser gives no
    reference for is found by a scan of the text ([QualifiedUsages]); a rename plans its
    edits from both ([Rename]).  A text search goes through trigram postings ([Trigram])
    and reads the lines of the candidates ([TextSearch]); symbols are searched by name or
    browsed ([SymbolSearch]), files by their path ([FileSearch], ordered by the signals of
    [RankSignals]), all within a scope and a noise policy ([SearchScope]).  A symbol named
    by a caller is resolved by a cascade of matchers ([Disambiguation]); calls become a graph whose
    inbound edges give the impact of a change ([Graph], over [Domain] and
    [Disambiguation]).  An edit of one symbol splices its file ([Structural]; where a Rust item
    begins, [RustPrefix]); many edits
    are checked against each other, staged from the end of each file ([BatchEdit]) and
    committed under ordered locks with a rollback ([BatchCommit]); a retried request is recognised by the hash
    of its canonical JSON ([CanonicalJson]) and answered from a replay store
    ([Idempotency]); a body that was already served is marked as a repeat ([Repeat]).  Tool
    calls pass a governor of permits and a read-write gate
    ([Governor]); HTTP requests pass origin, authority and bearer gates backed by a
    key store ([Auth]).

    ** Files

    - [Prelude]: results, panics, the state monad [Proc], 64-bit arithmetic,
      never-reused counters, sums over finite maps, tactics and hints.
    - [Identity] (lifecycle_identity.rs): [Process] holds every static counter and the
      shared revocation cells; [fetch_add], [fresh], [of_normalized], receipts,
      refusals.  Identities never collide; the argument hash is not FNV-1a.
    - [PhysicalRoot] (physical_root.rs): the lease, [resolve_beneath],
      [stage_replacement_with_policy], [staged_commit], [verify_replacement_beneath].
      The operating system is the class [CapStd]; [MapFs] is an instance, a file system
      as a finite map.  Resolution is confined and link-free; a replacement is atomic.
    - [Authority] (authority.rs): [SourceRuntime] and [request_mutation_grant].  When a
      grant is issued and what it does, no restore without an install, no replay.
    - [Mutation] (mutation.rs): the drain signal and the permit.  The accepted calls of
      a permit form one protocol; a dropped permit always drains; revoking a root stops
      a permit in flight.
    - [Transition] (transition.rs): [apply] does exactly Freeze, Drain, Install, or
      nothing.
    - [Capacity] (capacity.rs): the ledger of owners, grants and permits.  Conservation
      of bytes over every run, and the root limits.
    - [Supervisor] (supervisor.rs): attempts and the exactly-once ledgers.
    - [Candidate] (candidate.rs): build, prepare, commit.  One publication per attempt,
      completeness, reservations returned (proved against the ledger of [Capacity]).
    - [Observer] (observer.rs): the accumulator refines a reference that keeps
      everything; a handoff delivers everything.
    - [Verification] (verification.rs): passes, deadlines, latches, the scheduler.
    - [Registry] (registry.rs): admission, installation, stops, tombstones.
    - [Activation] (activation.rs, the mode machine).
    - [ProjectAuthority] (activation.rs, the write lane and the observation lane): at
      most one writer and no reader while it writes, every writer returns the source or is
      recovered, every admission commits, in every interleaving.
    - [Query] (query.rs): the selection, the strict lease and its finalization.  A
      finalized lease was current at that instant; a protected source did not change at all
      while it was open.
    - [Snapshot] (snapshot.rs): restore on every branch, quarantine, rollback exactly
      once.
    - [Slices], [Text]: what the code uses of Rust's slices and strings, as lists and
      byte lists: sorting, deduplication, binary search, grouping into maps; splitting,
      stripping, trimming.
    - [Domain] (domain/index.rs): symbols and references.  The line sweep finds for
      every line the symbol the single-line scan finds.
    - [Classification] (domain/index.rs): languages by extension, support targets, the
      class of a path, the admission tier of a file and the reason reported for it.
      The extension tables agree; ordinary text is never called binary; the reported
      reason is the one the decision took.
    - [TextLines], [ConfigExtract], [MarkdownExtract], [TomlExtract], [KeyWalk],
      [JsonExtract], [YamlExtract], [CiYaml] (parsing/config_extractors/): numbered lines and
      positions, key paths and their escapes, the extractors, the facts of workflows.  The interface [LawfulExtractor] is what each of them promises; the
      symbols of a .env file are its assignments, the sections of a Markdown file are the
      headings that its scan recognises and nest, the searches of the TOML walk are exact, the normalisation of JSON
      keeps every position, the symbols of JSON and YAML files contain what is below them.
    - [ConfigFiles] (parsing/mod.rs): the branches of the parser for text and configuration,
      proved against the interface and composed with [LiveIndex] and [Structural].
    - [LiveIndex] (store.rs): the files, the path, reverse and trigram tables, the
      manifest of refused paths.  The tables never drift from the files, a removed file
      leaves nothing behind, no path is both served and refused.
    - [Float]: binary32 and binary64 arithmetic and the order of scores, over the
      standard library's specification of floats.
    - [SearchScope], [SymbolSearch], [TextSearch] (search.rs): scopes and noise; the symbol
      search finds exactly what matches, the best first; a text search reports what a scan
      of every file reports, and its counts add up; the structural search reports the
      error of the pattern.
    - [RankSignals], [FileSearch] (rank_signals.rs, query.rs): what the passes of a file search
      find, each once, which is more than the predicate for catalogued files describes; catalogued files come last and,
      without coupling, the passes are in order; a hint resolves only to a path that is
      there; the fusion with frecency keeps every hit.
    - [References] (query.rs, find_references_for_name): of the references that pass the
      filters, exactly the matching ones are reported.
    - [Dependents] (query.rs, find_dependents_for_file and the implementations view): the
      dependents of a file are exactly the files that import or use it by the rules of the
      lookup, directly or through a chain of re-exports.
    - [QualifiedUsages] (qualified_usages.rs): the byte scan for [Type::] paths ends, and
      everything it reports is the identifier at its offset, next to [::].
    - [Rename] (rename.rs): a file is rewritten at exactly the planned ranges; what is
      planned is what is written.
    - [Disambiguation] (disambiguation.rs): the selector cascade and its outcome,
      qualified references, the innermost owner of a method.
    - [Trigram] (trigram.rs): the index maintained through any sequence of updates
      answers as a scan of the files does; the persisted form is read back and a
      damaged one is refused or safe.
    - [Graph] (graph.rs): the projection does not depend on the order of the files, a
      call links only a unique target, the inbound search terminates in order of
      distance, and the blast radius is exactly the set of callers within the depth
      with shortest chains as evidence.
    - [RustPrefix] (parsing/languages/rust.rs, insertion_prefix_start): the walk over the
      attributes and doc comments above a Rust item; the tree of tree-sitter is the class
      [RustTrees].
    - [Structural] (structural.rs): the splices of one symbol.  A deletion removes exactly
      the ranges it announces, an edit within a body replaces exactly the targeted
      matches, a replacement leaves the rest of the file as it was.
    - [BatchCommit] (batch_commit.rs): a batch is complete, or rolled back, or accounts
      for what it could not restore; it looks before it writes (a change between the look
      and the write is lost); batches do not deadlock.
    - [BatchEdit], [BatchStaging], [BatchAnswer] (protocol/edit.rs): a batch of edits.  The
      overlap checks and the order give every edit the text it was resolved for; a batch
      that answers has made all its edits at once; one that refuses has changed nothing or
      says so.  Examples show accepted batches where this fails.
    - [CanonicalJson], [Idempotency] (idempotency.rs): equal requests have equal
      frames; at most one process is told to execute, unless a record was moved away and its
      directory cannot be examined; a finished record is final.
    - [Repeat] (protocol/repeat.rs): a repeat notice counts serves with equal evidence and
      equal digests since the last clear; the tracker is bounded; a notice only appends.
    - [Governor] (governor.rs): heavy requests run alone, up to blocking work of dropped
      calls; permits are conserved.
    - [Auth] (auth.rs, api_keys.rs, serve.rs): a routable server has a key and checks
      it; a text authenticates exactly when it is the live secret of an active key.

    ** How the code is modelled

    A Rust [Result] is [Result]; a call that may panic returns an [Outcome], and
    [Panic] ends the run of the operation.  An integer is an [N] at its width with
    wrap-around written out ([u64_add]): the release profile sets no overflow checks,
    and [debug_assert!] is compiled out.  An owned value is passed and returned; a
    value shared through an [Arc] lives in a store ([Process], [Signals], [Pools], the
    registry's heap) and its holders keep the key.  [Drop] is a function called where
    the value goes out of scope.

    A method that holds its mutex for its whole body is one step, so a sequence of
    steps is an interleaving of threads; a method that takes two locks in turn is two
    steps.  Runs are inductive relations, and the invariants are proved by induction
    on them.  A poisoned mutex is not modelled: the code expects every lock, so a
    poisoned one panics its caller.

    A [&str] is the list of its bytes; a [HashMap] is a [gmap] where its order cannot
    be seen and a list of entries in arbitrary order where the code iterates over it.
    A sort is the stable insertion of [Slices]: Rust's sort is stable, and a stable sort by
    a total preorder has one result.  A score is an IEEE float.
    Futures and processes are runs of events, one per await point or file system call,
    with crashes and drops as events of their own.

    What is not source of this repository is a parameter: the operating system
    ([CapStd], and the outcome of opening or observing a directory as an argument), the
    path hash of the standard hasher, injected closures, SHA-256, serde_json's codec,
    Unicode lower case ([CaseTables]), tree-sitter's trees ([RustTrees]), the parser of HTTP authorities, the regex, glob and
    Aho-Corasick crates ([TextMatchers]), ast-grep's compiler and matcher, the parsers of toml_edit, serde_json and serde-saphyr, the codecs and
    digests of [RepeatEnv], the routing of an edit to a worktree and the content policy of
    [BatchEdit].  Where a theorem depends on one of them, the law is
    a hypothesis and its witness instantiates the parameter.

    Fuel appears where the code loops on a queue or a string: the breadth-first
    searches of [Graph] carry [bfs_fuel], one step per seed and inbound edge and one more, and
    the theorems state the result of the search itself, so the fuel is proved enough; the
    re-export hops of [Dependents] carry one step per file and one more, in the same way;
    the loops over strings carry the length of the string (the searches of [TomlExtract] one
    more, each round leaves a line; those of [YamlExtract] are proved to return the same with
    more rounds; the scan of an array in [JsonExtract] has no bound in the code, so its rounds
    are an argument and running out of them is a result), the scan for qualified
    uses the length of the line (an identifier is not empty, so each round moves on).  The search for a free
    temporary name recurses on [MAX_TEMP_ATTEMPTS], which is 16 in the code too.
    Theorems about long runs carry the bound that keeps a 64-bit counter from wrapping.

    ** Not modelled

    The read-only probes and the durable root-file protocol of physical_root.rs; the
    process map of authorities and the runtime handle of activation.rs; runtime.rs,
    process_runtime.rs, adapters.rs, public_api.rs and the embedding facade, which
    route requests; the publication, loading, persistence and the remaining query views of the
    live index; the post-image bindings of the replay store; parsing with grammars (third
    party) and the extraction of symbols from their trees, discovery,
    the protocol's handlers other than the batch edit, and their text rendering, the watcher (operating-system
    notifications), knowledge, analytics and the command line.

    Next, in this order: the process map of authorities, the dark runtime, the
    batch insertion, the capability policy. *)

From Stdlib Require Import Lia.
From stdpp Require Import base gmap sets list strings numbers option.

#[global] Set Default Goal Selector "!".

(** ** Results and panics

    A Rust [Result<A, E>] is [Result A E].  A call that may panic returns an
    [Outcome]; [Panic] ends the run of the operation. *)

Inductive Result (A E : Type) : Type :=
| Ok (a : A)
| Err (e : E).

Arguments Ok {A E} a.
Arguments Err {A E} e.

#[global] Instance Result_eq_dec `{EqDecision A} `{EqDecision E} :
  EqDecision (Result A E).
Proof. solve_decision. Defined.

Inductive Outcome (A : Type) : Type :=
| Done (a : A)
| Panic.

Arguments Done {A} a.
Arguments Panic {A}.

#[global] Instance Outcome_ret : MRet Outcome := λ A a, Done a.
#[global] Instance Outcome_bind : MBind Outcome := λ A B k m,
  match m with Done a => k a | Panic => Panic end.

Lemma Outcome_bind_Done {A B} (m : Outcome A) (k : A → Outcome B) r :
  m ≫= k = Done r ↔ ∃ a, m = Done a ∧ k a = Done r.
Proof. destruct m; unfold mbind, Outcome_bind; naive_solver. Qed.

(** ** A state monad whose computations may panic

    [Proc S A] threads a state [S] through a computation: the process-wide
    static counters, or a component's own store. *)

Definition Proc (S A : Type) : Type := S → Outcome (A * S).

#[global] Instance Proc_ret {S} : MRet (Proc S) := λ A a s, Done (a, s).

#[global] Instance Proc_bind {S} : MBind (Proc S) := λ A B k m s,
  match m s with
  | Done (a, s') => k a s'
  | Panic => Panic
  end.

Definition panic {S A} : Proc S A := λ _, Panic.

Lemma Proc_bind_Done {S A B} (m : Proc S A) (k : A → Proc S B) s r :
  (m ≫= k) s = Done r ↔ ∃ a s', m s = Done (a, s') ∧ k a s' = Done r.
Proof.
  unfold mbind, Proc_bind. destruct (m s) as [[a s']|] eqn:E; [|naive_solver].
  split; [eauto|]. intros (a' & s'' & ? & ?). by simplify_eq.
Qed.

Lemma Proc_ret_Done {S A} (a : A) (s : S) r :
  (mret a : Proc S A) s = Done r ↔ r = (a, s).
Proof. unfold mret, Proc_ret. naive_solver. Qed.

(** ** Machine-width unsigned integers

    A [u64] is an [N]; the release profile of the crate wraps on overflow
    (Cargo.toml sets no [overflow-checks]), so an unchecked addition is
    [u64_add].  [saturating_sub] is [N.sub], which truncates at zero. *)

Definition u64_modulus : N := 18446744073709551616.
Definition in_u64 (x : N) : Prop := (x < u64_modulus)%N.
Definition u64_add (a b : N) : N := ((a + b) mod u64_modulus)%N.
Definition u64_mul (a b : N) : N := ((a * b) mod u64_modulus)%N.
Definition saturating_sub (a b : N) : N := (a - b)%N.

Lemma u64_add_small a b :
  (a + b < u64_modulus)%N → u64_add a b = (a + b)%N.
Proof. intros. unfold u64_add. by apply N.mod_small. Qed.

Lemma u64_add_in a b : in_u64 (u64_add a b).
Proof. unfold in_u64, u64_add. by apply N.mod_lt. Qed.

Lemma u64_mul_in a b : in_u64 (u64_mul a b).
Proof. unfold in_u64, u64_mul. by apply N.mod_lt. Qed.

(** ** Never-reused counters

    A counter [c] that hands out [c] and moves to [c + 1 mod 2^64], and whose
    zero value is refused, has handed out only values [below] it. *)

Definition below (c i : N) : Prop := c = 0%N ∨ (i < c)%N.

Lemma below_fresh c i : c ≠ 0%N → below c i → i ≠ c.
Proof. unfold below. lia. Qed.

Lemma below_step c i : in_u64 c → below c i → c ≠ 0%N → below (u64_add c 1) i.
Proof.
  unfold below, in_u64. intros Hc Hb Hz.
  destruct (decide (c + 1 = u64_modulus)%N) as [E|E].
  - left. unfold u64_add. rewrite E. reflexivity.
  - right. rewrite u64_add_small by lia. lia.
Qed.

Lemma below_self c : in_u64 c → below (u64_add c 1) c.
Proof.
  unfold below, in_u64. intros Hc.
  destruct (decide (c + 1 = u64_modulus)%N) as [E|E].
  - left. unfold u64_add. rewrite E. reflexivity.
  - right. rewrite u64_add_small by lia. lia.
Qed.

(** ** Sums over finite maps *)

Definition map_sum {K A} `{Countable K} (f : K → A → N) (m : gmap K A) : N :=
  map_fold (λ k a acc, (f k a + acc)%N) 0%N m.

Section map_sum.
Context {K A : Type} `{Countable K}.
Implicit Types (f g : K → A → N) (m : gmap K A).

Lemma map_sum_empty f : map_sum f ∅ = 0%N.
Proof. apply map_fold_empty. Qed.

Lemma map_sum_insert f m k a :
  m !! k = None → map_sum f (<[k := a]> m) = (f k a + map_sum f m)%N.
Proof. intros Hk. unfold map_sum. rewrite map_fold_insert_L; [done| |done]. intros; lia. Qed.

Lemma map_sum_delete f m k a :
  m !! k = Some a → map_sum f m = (f k a + map_sum f (delete k m))%N.
Proof.
  intros Hk. rewrite <-(insert_delete_id m k a Hk) at 1.
  rewrite map_sum_insert; [done|]. apply lookup_delete_eq.
Qed.

Lemma map_sum_update f m k a b :
  m !! k = Some a →
  (map_sum f (<[k := b]> m) + f k a = map_sum f m + f k b)%N.
Proof.
  intros Hk. rewrite (map_sum_delete f m k a Hk).
  rewrite <-insert_delete_eq, map_sum_insert by apply lookup_delete_eq. lia.
Qed.

Lemma map_sum_ext f g m :
  (∀ k a, m !! k = Some a → f k a = g k a) → map_sum f m = map_sum g m.
Proof.
  induction m as [|k a m Hk IH] using map_ind; intros Hfg.
  - by rewrite !map_sum_empty.
  - rewrite !map_sum_insert by done. rewrite (Hfg k a) by apply lookup_insert_eq.
    rewrite IH; [done|]. intros k' a' Hk'. apply Hfg.
    rewrite lookup_insert_ne; [done|]. intros ->. congruence.
Qed.

Lemma map_sum_zero f m : (∀ k a, m !! k = Some a → f k a = 0%N) → map_sum f m = 0%N.
Proof.
  intros Hf. rewrite (map_sum_ext f (λ _ _, 0%N)) by done.
  induction m as [|k a m Hk IH] using map_ind; [apply map_sum_empty|].
  rewrite map_sum_insert, IH; [done| |done]. intros k' a' Hk'. apply (Hf k').
  rewrite lookup_insert_ne; [done|]. intros ->. congruence.
Qed.

Lemma map_sum_lookup_le f m k a : m !! k = Some a → (f k a ≤ map_sum f m)%N.
Proof. intros Hk. rewrite (map_sum_delete f m k a Hk). lia. Qed.

Lemma map_sum_add f g m : map_sum (λ k a, f k a + g k a)%N m = (map_sum f m + map_sum g m)%N.
Proof.
  induction m as [|k a m Hk IH] using map_ind; [by rewrite !map_sum_empty|].
  rewrite !map_sum_insert, IH by done. lia.
Qed.

Lemma map_sum_mono f g m :
  (∀ k a, m !! k = Some a → (f k a ≤ g k a)%N) → (map_sum f m ≤ map_sum g m)%N.
Proof.
  induction m as [|k a m Hk IH] using map_ind; intros Hfg; [by rewrite !map_sum_empty|].
  rewrite !map_sum_insert by done. apply N.add_le_mono.
  - apply Hfg. apply lookup_insert_eq.
  - apply IH. intros k' a' Hk'. apply Hfg. rewrite lookup_insert_ne; [done|].
    intros ->. congruence.
Qed.

(** A sum with one summand. *)
Lemma map_sum_single m k a n :
  m !! k = Some a → map_sum (λ k' _, if decide (k' = k) then n else 0%N) m = n.
Proof.
  intros Hk. rewrite (map_sum_delete _ _ _ _ Hk). rewrite decide_True by done.
  rewrite map_sum_zero; [lia|]. intros k' a' [Hne _]%lookup_delete_Some.
  by rewrite decide_False.
Qed.
End map_sum.

(** Sums over two maps, entry by entry. *)
Lemma map_sum_le_entries {K A B} `{Countable K} (f : K → A → N) (g : K → B → N)
    (m : gmap K A) (m' : gmap K B) :
  (∀ k a, m !! k = Some a → f k a ≤ match m' !! k with Some b => g k b | None => 0 end)%N →
  (map_sum f m ≤ map_sum g m')%N.
Proof.
  revert m'. induction m as [|k a m Hk IH] using map_ind; intros m' Hle.
  { rewrite map_sum_empty. lia. }
  rewrite map_sum_insert by done. pose proof (Hle k a (lookup_insert_eq m k a)) as Hka.
  assert (Hrest : (map_sum f m ≤ map_sum g (delete k m'))%N).
  { apply IH. intros k' a' Hk'. assert (k ≠ k') as Hne by (intros ->; congruence).
    rewrite lookup_delete_ne by done. apply Hle. by rewrite lookup_insert_ne. }
  destruct (m' !! k) as [b|] eqn:E.
  - rewrite (map_sum_delete g m' k b E). lia.
  - rewrite delete_id in Hrest by done. lia.
Qed.

Lemma map_sum_swap {K1 A1 K2 A2} `{Countable K1} `{Countable K2}
    (f : K1 → A1 → K2 → A2 → N) (m1 : gmap K1 A1) (m2 : gmap K2 A2) :
  map_sum (λ k1 a1, map_sum (f k1 a1) m2) m1
  = map_sum (λ k2 a2, map_sum (λ k1 a1, f k1 a1 k2 a2) m1) m2.
Proof.
  induction m1 as [|k a m Hk IH] using map_ind.
  - rewrite map_sum_empty. symmetry. apply map_sum_zero. intros. apply map_sum_empty.
  - rewrite map_sum_insert, IH, <-map_sum_add by done. apply map_sum_ext.
    intros k2 a2 _. by rewrite map_sum_insert.
Qed.

(** [retain] keeps a list whose elements all pass. *)
Lemma filter_keep {A} (P : A → Prop) `{∀ x, Decision (P x)} (l : list A) :
  (∀ x, x ∈ l → P x) → filter P l = l.
Proof.
  induction l as [|x l IH]; intros Hl; [done|]. rewrite filter_cons_True, IH; [done| |].
  - intros y Hy. apply Hl. by apply list_elem_of_further.
  - apply Hl. apply list_elem_of_here.
Qed.

(** [get_mut] on a present and on an absent key. *)
Lemma alter_present {K A} `{Countable K} (f : A → A) (m : gmap K A) k a :
  m !! k = Some a → alter f k m = <[k := f a]> m.
Proof.
  intros Hk. apply map_eq. intros j. destruct (decide (j = k)) as [->|Hne].
  - by rewrite lookup_alter_eq, lookup_insert_eq, Hk.
  - by rewrite lookup_alter_ne, lookup_insert_ne by done.
Qed.

Lemma alter_absent {K A} `{Countable K} (f : A → A) (m : gmap K A) k :
  m !! k = None → alter f k m = m.
Proof.
  intros Hk. apply map_eq. intros j. destruct (decide (j = k)) as [->|Hne].
  - by rewrite lookup_alter_eq, Hk.
  - by rewrite lookup_alter_ne by done.
Qed.

(** ** Development tactics and hints *)

Create HintDb lifecycle.
#[export] Hint Resolve u64_add_in u64_mul_in below_self : lifecycle.

(** Run through the binds of a computation that ended in [Done]. *)
Ltac proc_inv :=
  repeat match goal with
  | H : (_ ≫= _) _ = Done _ |- _ =>
      apply Proc_bind_Done in H; destruct H as (? & ? & ? & H)
  | H : mret _ _ = Done _ |- _ => apply Proc_ret_Done in H
  | H : Proc_ret _ _ _ = Done _ |- _ => apply Proc_ret_Done in H
  end; simplify_eq/=.

(** Split every [match] the hypothesis is stuck on. *)
Ltac cases_in H :=
  repeat (match type of H with
          | context [match ?x with _ => _ end] => destruct x eqn:?
          end; simplify_eq/=; try done).
