(* ===== verification/Identity.v ===== *)
(** * Identities, operation receipts and refusals

    Models src/src/lifecycle_identity.rs: the one process-wide identity counter
    and the newtypes minted from it, the closed operation vocabulary, the
    canonical argument hash, operation receipts, typed refusals and the
    generation authority.

    The process-wide statics of the lifecycle modules are kept together in
    [Process]: every [static AtomicU64] is one [StaticCounter], and the
    [Arc<AtomicBool>] revocation cells that clones of a binding or a lease share
    are the sets [revoked_bindings] and [revoked_leases], keyed by the identity
    the cell is created with ([BindingAuthority::bind] and
    [PhysicalRootLease::take] create cell and identity together, and every
    clone keeps both). *)

From Stdlib Require Import Lia NArith.
From stdpp Require Import base gmap sets list strings numbers option.
From S2P Require Import Prelude.

#[local] Open Scope N_scope.

(** ** The process-wide statics *)

Inductive StaticCounter : Type :=
| NEXT_IDENTITY
| NEXT_OWNER
| NEXT_POOL
| NEXT_SLOT
| NEXT_ROOT
| NEXT_TEMP
| NEXT_RECEIPT
| NEXT_RANKING_SNAPSHOT
| NEXT_TABLE_IDENTITY
| NEXT_MACHINE_IDENTITY.

#[global] Instance StaticCounter_eq_dec : EqDecision StaticCounter.
Proof. solve_decision. Defined.

Record Process := mkProcess {
  statics : StaticCounter → N;
  revoked_bindings : gset N;
  revoked_leases : gset N
}.

Definition initial_process : Process := mkProcess (λ _, 1) ∅ ∅.

Definition set_static (k : StaticCounter) (v : N) (p : Process) : Process :=
  mkProcess (λ k', if decide (k' = k) then v else statics p k')
            (revoked_bindings p) (revoked_leases p).

(** [AtomicU64::fetch_add(1)]: the old value, and the counter moves on,
    wrapping at the width. *)
Definition fetch_add (k : StaticCounter) : Proc Process N := λ p,
  Done (statics p k, set_static k (u64_add (statics p k) 1) p).

(** [NonZeroU64::new(raw).expect(..)] on a fetched value. *)
Definition fresh_nonzero (k : StaticCounter) : Proc Process N :=
  raw ← fetch_add k;
  if decide (raw = 0) then panic else mret raw.

Definition next_identity : Proc Process N := fresh_nonzero NEXT_IDENTITY.

(** ** The identity newtypes

    [identity_newtype!] declares one distinct type per kind over the shared
    counter; the kind is the phantom index here. *)

Inductive IdentityKind : Type :=
| KBinding | KObserverToken | KCandidate | KGeneration | KPublication | KSnapshot
| KAuthority | KProvenance | KOperation | KEvaluation | KWorktreeScan
| KProducingRuntime.

Record Identity (k : IdentityKind) : Type := mkIdentity { raw_for_render : N }.
Arguments mkIdentity {k} _.
Arguments raw_for_render {k} _.

#[global] Instance Identity_eq_dec k : EqDecision (Identity k).
Proof. solve_decision. Defined.

#[global] Instance Identity_countable k : Countable (Identity k).
Proof. apply (inj_countable' raw_for_render mkIdentity). by intros []. Defined.

Abbreviation BindingIdentity := (Identity KBinding).
Abbreviation ObserverToken := (Identity KObserverToken).
Abbreviation CandidateIdentity := (Identity KCandidate).
Abbreviation GenerationIdentity := (Identity KGeneration).
Abbreviation PublicationIdentity := (Identity KPublication).
Abbreviation SnapshotIdentity := (Identity KSnapshot).
Abbreviation AuthorityIdentity := (Identity KAuthority).
Abbreviation OperationIdentity := (Identity KOperation).

Definition fresh (k : IdentityKind) : Proc Process (Identity k) :=
  raw ← next_identity; mret (mkIdentity raw).

(** ** The closed operation vocabulary *)

Inductive OperationKind : Type :=
| AcquireRuntime | CloseSource | OpenEmbeddedSource | RefreshSource
| SearchSymbols | SearchText | ShutdownRuntime | IndexCensus | SearchKnowledge.

#[global] Instance OperationKind_eq_dec : EqDecision OperationKind.
Proof. solve_decision. Defined.

Definition OperationKind_ALL : list OperationKind :=
  [AcquireRuntime; CloseSource; OpenEmbeddedSource; RefreshSource; SearchSymbols;
   SearchText; ShutdownRuntime; IndexCensus; SearchKnowledge].

Definition kind_name (k : OperationKind) : string :=
  match k with
  | AcquireRuntime => "AcquireRuntime"
  | CloseSource => "CloseSource"
  | OpenEmbeddedSource => "OpenEmbeddedSource"
  | RefreshSource => "RefreshSource"
  | SearchSymbols => "SearchSymbols"
  | SearchText => "SearchText"
  | ShutdownRuntime => "ShutdownRuntime"
  | IndexCensus => "IndexCensus"
  | SearchKnowledge => "SearchKnowledge"
  end.

(** [str::as_bytes]. *)
Definition as_bytes (s : string) : list N :=
  map Ascii.N_of_ascii (String.list_ascii_of_string s).

(** ** The canonical argument hash *)

Definition argument_hash_multiplier : N := 0x1000000001b3.

Definition argument_hash_step (hash byte : N) : N :=
  u64_mul (N.lxor hash byte) argument_hash_multiplier.

Definition of_normalized (bytes : list N) : N :=
  fold_left argument_hash_step bytes 0xcbf29ce484222325.

(** ** Operation receipts *)

Record OperationReceipt := mkOperationReceipt {
  receipt_identity : OperationIdentity;
  operation_kind : OperationKind;
  schema_version : N;
  canonical_argument_hash : N
}.

Definition SCHEMA_VERSION : N := 1.

Definition normalized (kind : OperationKind) (arguments : list N)
  : Proc Process OperationReceipt :=
  identity ← fresh KOperation;
  mret (mkOperationReceipt identity kind SCHEMA_VERSION (of_normalized arguments)).

Definition for_dark_refusal (kind : OperationKind) : Proc Process OperationReceipt :=
  normalized kind (as_bytes (kind_name kind)).

(** ** Refusals *)

Inductive SourceRefusalKind : Type :=
| AdmissionUnavailable | InvalidSelection | SelectionUnavailable | SourceUnavailable.

Inductive RetryAdvice : Type := Automatic | Never | OnEvent | Operator.

Definition RetryAdvice_ALL : list RetryAdvice := [Automatic; Never; OnEvent; Operator].

Record SourceRefusal := mkSourceRefusal {
  refusal_kind : SourceRefusalKind;
  refusal_operation : OperationReceipt;
  refusal_retry : RetryAdvice;
  evidence_identity : option AuthorityIdentity
}.

Definition SourceRefusal_for_runtime (kind : SourceRefusalKind)
    (operation : OperationReceipt) (retry : RetryAdvice)
    (evidence : option AuthorityIdentity) : SourceRefusal :=
  mkSourceRefusal kind operation retry evidence.

(** ** The generation authority *)

Record GenerationAuthority := mkGenerationAuthority {
  ga_identity : AuthorityIdentity;
  ga_generation : GenerationIdentity;
  ga_physical_root : string
}.

Definition GenerationAuthority_captured (identity : AuthorityIdentity)
    (generation : GenerationIdentity) (physical_root : string) : GenerationAuthority :=
  mkGenerationAuthority identity generation physical_root.

Definition proves_generation_absence (g : GenerationAuthority) : bool := true.
Definition proves_repository_absence (g : GenerationAuthority) : bool := false.

(** ** Monotonic positions *)

Definition ObservationTime_fresh : Proc Process N := next_identity.

Record ObserverEpoch := mkObserverEpoch { epoch_raw : N }.
Definition ObserverEpoch_initial : ObserverEpoch := mkObserverEpoch 0.
Definition ObserverEpoch_advanced (e : ObserverEpoch) : ObserverEpoch :=
  mkObserverEpoch (u64_add (epoch_raw e) 1).

Record InvalidationSequence := mkInvalidationSequence { sequence_raw : N }.
Definition InvalidationSequence_initial : InvalidationSequence :=
  mkInvalidationSequence 0.
Definition InvalidationSequence_advanced (s : InvalidationSequence)
  : InvalidationSequence :=
  mkInvalidationSequence (u64_add (sequence_raw s) 1).

(** ** Facts about minting

    [wf_statics] is the width invariant of every counter; [minted_below] says
    what one mint does to values that were handed out before. *)

Definition wf_statics (p : Process) : Prop := ∀ k, in_u64 (statics p k).

Lemma initial_wf_statics : wf_statics initial_process.
Proof. intros k. done. Qed.

Lemma statics_set_eq k v p : statics (set_static k v p) k = v.
Proof. unfold set_static; simpl. by rewrite decide_True. Qed.

Lemma statics_set_ne k k' v p : k' ≠ k → statics (set_static k v p) k' = statics p k'.
Proof. intros. unfold set_static; simpl. by rewrite decide_False. Qed.

Lemma set_static_wf k v p : wf_statics p → in_u64 v → wf_statics (set_static k v p).
Proof.
  intros Hp Hv k'. destruct (decide (k' = k)) as [->|];
    [by rewrite statics_set_eq | by rewrite statics_set_ne].
Qed.

Lemma fetch_add_Done k p r p' :
  fetch_add k p = Done (r, p') ↔
  r = statics p k ∧ p' = set_static k (u64_add (statics p k) 1) p.
Proof. unfold fetch_add. naive_solver. Qed.

Lemma fresh_nonzero_Done k p r p' :
  fresh_nonzero k p = Done (r, p') ↔
  r = statics p k ∧ r ≠ 0 ∧ p' = set_static k (u64_add (statics p k) 1) p.
Proof.
  unfold fresh_nonzero. rewrite Proc_bind_Done. split.
  - intros (a & s & [-> ->]%fetch_add_Done & H). case_decide; [done|].
    apply Proc_ret_Done in H. by simplify_eq.
  - intros (-> & ? & ->). eexists _, _. split; [by apply fetch_add_Done|].
    by rewrite decide_False.
Qed.

Lemma fresh_nonzero_total k p :
  statics p k ≠ 0 →
  fresh_nonzero k p = Done (statics p k, set_static k (u64_add (statics p k) 1) p).
Proof. intros Hz. apply fresh_nonzero_Done. auto. Qed.

Lemma fresh_Done {k} p (i : Identity k) p' :
  fresh k p = Done (i, p') ↔
  raw_for_render i = statics p NEXT_IDENTITY ∧ statics p NEXT_IDENTITY ≠ 0 ∧
  p' = set_static NEXT_IDENTITY (u64_add (statics p NEXT_IDENTITY) 1) p.
Proof.
  unfold fresh, next_identity. rewrite Proc_bind_Done. split.
  - intros (a & s & (-> & Hz & ->)%fresh_nonzero_Done & Hr).
    apply Proc_ret_Done in Hr. by simplify_eq.
  - intros (Hi & Hz & ->). eexists _, _. split; [by apply fresh_nonzero_total|].
    destruct i; simpl in *. by subst.
Qed.

Lemma fresh_total k p :
  statics p NEXT_IDENTITY ≠ 0 →
  fresh k p = Done (mkIdentity (statics p NEXT_IDENTITY),
                    set_static NEXT_IDENTITY (u64_add (statics p NEXT_IDENTITY) 1) p).
Proof. intros Hz. apply fresh_Done. auto. Qed.

Lemma fresh_nonzero_minted k p r p' :
  wf_statics p → fresh_nonzero k p = Done (r, p') →
  wf_statics p' ∧ below (statics p' k) r ∧
  (∀ i, below (statics p k) i → i ≠ r ∧ below (statics p' k) i) ∧
  (∀ k', k' ≠ k → statics p' k' = statics p k') ∧
  revoked_bindings p' = revoked_bindings p ∧ revoked_leases p' = revoked_leases p.
Proof.
  intros Hwf (-> & Hz & ->)%fresh_nonzero_Done.
  rewrite statics_set_eq. repeat split; auto using set_static_wf with lifecycle.
  - by eapply below_fresh.
  - by apply below_step.
  - intros k' Hk. by apply statics_set_ne.
Qed.

#[export] Hint Resolve initial_wf_statics set_static_wf : lifecycle.

(** ** One identity space for every kind *)

(** Mint one identity of each kind listed and keep the raw values. *)
Fixpoint mint_all (ks : list IdentityKind) : Proc Process (list N) :=
  match ks with
  | [] => mret []
  | k :: ks =>
      i ← fresh k;
      raws ← mint_all ks;
      mret (raw_for_render i :: raws)
  end.

Lemma mint_all_raws ks p raws p' :
  wf_statics p → mint_all ks p = Done (raws, p') →
  NoDup raws ∧ length raws = length ks ∧
  (∀ i, below (statics p NEXT_IDENTITY) i → i ∉ raws) ∧ 0 ∉ raws.
Proof.
  revert p raws p'. induction ks as [|k ks IH]; intros p raws p' Hwf H; simpl in H.
  - apply Proc_ret_Done in H. simplify_eq.
    repeat split; try constructor; intros; apply not_elem_of_nil.
  - apply Proc_bind_Done in H as (i & s & Hi & H).
    apply Proc_bind_Done in H as (raws' & s' & Hrest & H).
    apply Proc_ret_Done in H. simplify_eq/=.
    apply fresh_Done in Hi as (Hraw & Hz & ->).
    specialize (IH _ _ _ (set_static_wf _ _ _ Hwf (u64_add_in _ _)) Hrest)
      as (Hnd & Hlen & Hout & H0).
    rewrite statics_set_eq in Hout. rewrite Hraw. repeat split.
    + constructor; [|done]. apply Hout. by apply below_self.
    + simpl. congruence.
    + intros j Hj. apply not_elem_of_cons. split.
      * by eapply below_fresh.
      * apply Hout. by apply below_step.
    + apply not_elem_of_cons. split; [congruence|done].
Qed.

Lemma mint_all_total ks p :
  wf_statics p → statics p NEXT_IDENTITY ≠ 0 →
  statics p NEXT_IDENTITY + N.of_nat (length ks) ≤ u64_modulus →
  ∃ raws p', mint_all ks p = Done (raws, p').
Proof.
  revert p. induction ks as [|k ks IH]; intros p Hwf Hz Hle; cbn [mint_all].
  { eexists _, _. reflexivity. }
  unfold mbind, Proc_bind at 1. rewrite fresh_total by done.
  set (p1 := set_static _ _ p).
  destruct (decide (ks = [])) as [->|Hne]; [eexists _, _; reflexivity|].
  assert (0 < length ks)%nat by (destruct ks; [done|simpl; lia]).
  simpl in Hle.
  assert (statics p1 NEXT_IDENTITY = statics p NEXT_IDENTITY + 1) as Hnext.
  { unfold p1. rewrite statics_set_eq, u64_add_small by lia. done. }
  destruct (IH p1) as (raws & p' & Hr);
    [unfold p1; auto with lifecycle | lia | lia |].
  unfold Proc_bind. rewrite Hr. eexists _, _. reflexivity.
Qed.

(** Every identity of every kind comes from one space.  Minting any list of
    kinds from a running process either panics at the exhausted counter or
    yields pairwise distinct, nonzero raw values that also avoid everything the
    counter handed out before; and it does not panic while the counter has room
    for the list. *)
Theorem identities_never_collide ks p :
  wf_statics p → statics p NEXT_IDENTITY ≠ 0 →
  statics p NEXT_IDENTITY + N.of_nat (length ks) ≤ u64_modulus →
  ∃ raws p', mint_all ks p = Done (raws, p') ∧ NoDup raws ∧
    length raws = length ks ∧ 0 ∉ raws ∧
    ∀ i, below (statics p NEXT_IDENTITY) i → i ∉ raws.
Proof.
  intros Hwf Hz Hle. destruct (mint_all_total ks p Hwf Hz Hle) as (raws & p' & H).
  destruct (mint_all_raws _ _ _ _ Hwf H) as (? & ? & ? & ?). eauto 10.
Qed.

Lemma identities_never_collide_witness :
  ∃ raws p', mint_all [KBinding; KGeneration; KOperation] initial_process
             = Done (raws, p') ∧ NoDup raws ∧ length raws = 3%nat.
Proof.
  destruct (identities_never_collide [KBinding; KGeneration; KOperation]
              initial_process) as (raws & p' & ? & ? & ? & ? & ?).
  - apply initial_wf_statics.
  - done.
  - done.
  - exists raws, p'. auto.
Defined.

(** ** The argument hash *)

Definition argument_hash_inverse : N := 13001286669926045051.

Lemma lxor_in_u64 a b : in_u64 a → in_u64 b → in_u64 (N.lxor a b).
Proof.
  unfold in_u64. intros Ha Hb.
  destruct (decide (N.lxor a b = 0)) as [->|Hx]; [done|].
  change u64_modulus with (2 ^ 64) in *. apply N.log2_lt_pow2; [lia|].
  eapply N.le_lt_trans; [apply N.log2_lxor|].
  apply N.max_lub_lt.
  - destruct (decide (a = 0)) as [->|]; [done|]. apply N.log2_lt_pow2; lia.
  - destruct (decide (b = 0)) as [->|]; [done|]. apply N.log2_lt_pow2; lia.
Qed.

Lemma argument_hash_mul_inverse x :
  in_u64 x → u64_mul (u64_mul x argument_hash_multiplier) argument_hash_inverse = x.
Proof.
  intros Hx. unfold u64_mul. rewrite N.Div0.mul_mod_idemp_l, <-N.mul_assoc.
  rewrite <-N.Div0.mul_mod_idemp_r.
  replace ((argument_hash_multiplier * argument_hash_inverse) mod u64_modulus) with 1
    by (vm_compute; reflexivity).
  rewrite N.mul_1_r. by apply N.mod_small.
Qed.

Lemma argument_hash_step_inj h1 b1 h2 b2 :
  in_u64 h1 → in_u64 b1 → in_u64 h2 → in_u64 b2 →
  argument_hash_step h1 b1 = argument_hash_step h2 b2 → N.lxor h1 b1 = N.lxor h2 b2.
Proof.
  unfold argument_hash_step. intros ? ? ? ? H.
  rewrite <-(argument_hash_mul_inverse (N.lxor h1 b1)) by auto using lxor_in_u64.
  by rewrite H, argument_hash_mul_inverse by auto using lxor_in_u64.
Qed.

Lemma lxor_cancel_l a b c : N.lxor a b = N.lxor a c → b = c.
Proof.
  intros H. apply (f_equal (N.lxor a)) in H.
  by rewrite <-!N.lxor_assoc, N.lxor_nilpotent, !N.lxor_0_l in H.
Qed.

Lemma argument_hash_fold_inj suffix h1 h2 :
  in_u64 h1 → in_u64 h2 → Forall in_u64 suffix →
  fold_left argument_hash_step suffix h1 = fold_left argument_hash_step suffix h2 →
  h1 = h2.
Proof.
  revert h1 h2. induction suffix as [|b suffix IH]; intros h1 h2 H1 H2 Hs H; [done|].
  apply Forall_cons_1 in Hs as [Hb Hs]. simpl in H.
  apply IH in H; try apply u64_mul_in; [|done].
  apply argument_hash_step_inj in H; [|done..].
  rewrite !(N.lxor_comm _ b) in H. by eapply lxor_cancel_l.
Qed.

Lemma argument_hash_fold_in bytes h :
  in_u64 h → in_u64 (fold_left argument_hash_step bytes h).
Proof.
  revert h. induction bytes as [|b bytes IH]; intros h Hh; [done|].
  simpl. apply IH. apply u64_mul_in.
Qed.

(** The canonical argument hash separates requests that differ in one byte:
    two normalized argument strings with a common prefix and a common suffix
    around one differing byte never share a hash. *)
Theorem argument_hash_single_byte prefix suffix b1 b2 :
  Forall (λ b, b < 256) prefix → Forall (λ b, b < 256) suffix →
  b1 < 256 → b2 < 256 → b1 ≠ b2 →
  of_normalized (prefix ++ b1 :: suffix) ≠ of_normalized (prefix ++ b2 :: suffix).
Proof.
  intros Hp Hs H1 H2 Hne H. apply Hne. unfold of_normalized in H.
  rewrite !fold_left_app in H. simpl in H.
  assert (∀ b, b < 256 → in_u64 b) as Hb by (unfold in_u64, u64_modulus; lia).
  apply argument_hash_fold_inj in H; try apply u64_mul_in.
  - apply argument_hash_step_inj in H; auto; try (by apply argument_hash_fold_in).
    by eapply lxor_cancel_l.
  - eapply Forall_impl; [exact Hb|exact Hs].
Qed.

Lemma argument_hash_single_byte_witness :
  of_normalized ([102; 111] ++ 111 :: [33]) ≠ of_normalized ([102; 111] ++ 112 :: [33]).
Proof. apply argument_hash_single_byte; repeat constructor; lia. Defined.

(** The published 64-bit FNV-1a parameters. *)
Definition FNV_OFFSET : N := 14695981039346656037.
Definition FNV_PRIME : N := 1099511628211.

(** The FNV-1a hash the comment of [of_normalized] names, with the published
    64-bit prime. *)
Definition fnv1a (bytes : list N) : N :=
  fold_left (λ hash byte, u64_mul (N.lxor hash byte) FNV_PRIME) bytes FNV_OFFSET.

(** The canonical argument hash is not FNV-1a.  Its multiplier is
    0x1000000001b3, one hexadecimal digit longer than the FNV prime
    0x100000001b3, so already on the one-byte request "a" it disagrees with the
    published FNV-1a vector 0xaf63dc4c8601ec8c. *)
Theorem argument_hash_is_not_fnv1a :
  argument_hash_multiplier ≠ FNV_PRIME ∧
  fnv1a (as_bytes "a") = 0xaf63dc4c8601ec8c ∧
  of_normalized (as_bytes "a") ≠ fnv1a (as_bytes "a").
Proof. repeat split; by vm_compute. Qed.
