(* ===== verification/PhysicalRoot.v ===== *)
(** * Physical-root leases and two-phase replacement

    Models the lease and the destructive write path of
    src/src/index_lifecycle/physical_root.rs: taking, parking, reopening and
    revoking a lease; resolving a relative path beneath it; staging a
    replacement under a temporary name and committing it by rename.

    The operating system is reached through the [cap-std] crate, which is not
    part of the repository.  Its calls are the operations of the class
    [CapStd]; what the write path relies on is stated by [CapStdLaws], and
    [MapFs] at the end of the file is a concrete instance. *)

From Stdlib Require Import Lia NArith.
From stdpp Require Import base gmap sets list strings numbers option pretty.
From S2P Require Import Prelude Identity.

#[local] Open Scope N_scope.

(** ** Identities, paths and refusals *)

Record PhysicalRootIdentity := mkPhysicalRootIdentity { as_u64 : N }.

#[global] Instance PhysicalRootIdentity_eq_dec : EqDecision PhysicalRootIdentity.
Proof. solve_decision. Defined.

Definition PhysicalRootIdentity_fresh : Proc Process PhysicalRootIdentity :=
  raw ← fresh_nonzero NEXT_ROOT; mret (mkPhysicalRootIdentity raw).

Definition from_stored (raw : N) : option PhysicalRootIdentity :=
  if decide (raw = 0) then None else Some (mkPhysicalRootIdentity raw).

(** The directory object observed at a path or behind an opened handle. *)
Record PhysicalRootAnchor := mkAnchor { dev : N; ino : N }.

#[global] Instance PhysicalRootAnchor_eq_dec : EqDecision PhysicalRootAnchor.
Proof. solve_decision. Defined.

(** [u64::to_le_bytes]. *)
Fixpoint le_bytes (n : nat) (x : N) : list N :=
  match n with O => [] | S n => (x mod 256) :: le_bytes n (x / 256) end.

Definition stable_key (a : PhysicalRootAnchor) : list N :=
  le_bytes 8 (dev a) ++ le_bytes 8 (ino a).

(** [std::path::Component]; [Path::components] of the standard library yields
    the list. *)
Inductive Component : Type :=
| Normal (part : string)
| CurDir
| ParentDir
| RootDir
| Prefix (prefix : string).

#[global] Instance Component_eq_dec : EqDecision Component.
Proof. solve_decision. Defined.

(** An absolute path: the leased root's spelling and the parts beneath it. *)
Abbreviation AbsPath := (string * list string)%type.

Inductive RootRefusal : Type :=
| LeaseRevoked
| EscapesRoot (requested : list Component)
| LinkComponent (component : AbsPath)
| Unreadable (path : AbsPath) (message : string).

(** ** The directory capability *)

Inductive MetadataResult : Type :=
| MetaSymlink
| MetaOther
| MetaNotFound
| MetaError (message : string).

Inductive OpenError : Type :=
| AlreadyExists
| OpenFailed (message : string).

Class CapStd (FS Dir File : Type) := {
  os_symlink_metadata : FS → Dir → list string → MetadataResult;
  os_try_clone : FS → Dir → Result Dir string;
  os_create_dir_all : FS → Dir → list string → Result unit string * FS;
  os_create_new : FS → Dir → list string → bool → Result File OpenError * FS;
  os_protect_owner_only : FS → File → Result unit string * FS;
  os_write_all : FS → File → list N → Result unit string * FS;
  os_sync_all : FS → File → Result unit string * FS;
  os_remove_file : FS → Dir → list string → Result unit string * FS;
  os_rename : FS → Dir → list string → list string → Result unit string * FS;
  os_verify_owner_only : FS → Dir → list string → Result unit string;
  os_read : FS → Dir → list string → Result (list N) string
}.

Section PhysicalRoot.
Context {FS Dir File : Type} {OS : CapStd FS Dir File}.

Record PhysicalRootLease := mkLease {
  lease_identity : PhysicalRootIdentity;
  lease_root : string;
  lease_dir : option Dir
}.

(** [opened] is what [Dir::open_ambient_dir(&root, ..).ok()] returned. *)
Definition lease_take (root : string) (opened : option Dir)
  : Proc Process PhysicalRootLease :=
  identity ← PhysicalRootIdentity_fresh;
  mret (mkLease identity root opened).

Definition parked (lease : PhysicalRootLease) : PhysicalRootLease :=
  mkLease (lease_identity lease) (lease_root lease) None.

Definition reopened (lease : PhysicalRootLease) (opened : option Dir) : PhysicalRootLease :=
  mkLease (lease_identity lease) (lease_root lease) opened.

Definition lease_is_live (p : Process) (lease : PhysicalRootLease) : bool :=
  bool_decide (as_u64 (lease_identity lease) ∉ revoked_leases p).

Definition lease_revoke (lease : PhysicalRootLease) (p : Process) : Process :=
  mkProcess (statics p) (revoked_bindings p)
            ({[as_u64 (lease_identity lease)]} ∪ revoked_leases p).

Definition capability_message : string :=
  "the leased root could not be opened as a directory capability".

Definition capability (p : Process) (lease : PhysicalRootLease) : Result Dir RootRefusal :=
  if negb (lease_is_live p lease) then Err LeaseRevoked
  else match lease_dir lease with
       | Some dir => Ok dir
       | None => Err (Unreadable (lease_root lease, []) capability_message)
       end.

(** [anchor] is what the opened handle's metadata reported, [None] when it could not
    be read. *)
Definition take_matching_anchor (root : string) (opened : option Dir)
    (anchor expected : option PhysicalRootAnchor)
  : Proc Process (Result PhysicalRootLease RootRefusal) :=
  lease ← lease_take root opened;
  ((λ p, match capability p lease with
         | Err e => Done (Err e, p)
         | Ok _ =>
             if decide (expected = None ∨ anchor ≠ expected) then Done (Err LeaseRevoked, p)
             else Done (Ok lease, p)
         end) : Proc Process (Result PhysicalRootLease RootRefusal)).

(** ** Resolution *)

Record ResolvedTarget := mkResolvedTarget {
  target_parent : AbsPath;
  target_leaf : string;
  target_relative : list string
}.

Definition target_path (t : ResolvedTarget) : AbsPath :=
  (fst (target_parent t), snd (target_parent t) ++ [target_leaf t]).

(** The component loop: [None] when a component escapes. *)
Fixpoint normal_components (relative : list Component) : option (list string) :=
  match relative with
  | [] => Some []
  | Normal part :: rest => cons part <$> normal_components rest
  | CurDir :: rest => normal_components rest
  | ParentDir :: _ | RootDir :: _ | Prefix _ :: _ => None
  end.

(** [split_last]. *)
Definition split_last (l : list string) : option (string * list string) :=
  match reverse l with
  | [] => None
  | leaf :: parents => Some (leaf, reverse parents)
  end.

(** The ancestor walk through the capability. *)
Fixpoint walk_parents (fs : FS) (dir : Dir) (root : string) (walked parents : list string)
  : Result (list string) RootRefusal :=
  match parents with
  | [] => Ok walked
  | part :: rest =>
      let walked := walked ++ [part] in
      match os_symlink_metadata fs dir walked with
      | MetaSymlink => Err (LinkComponent (root, walked))
      | MetaOther | MetaNotFound => walk_parents fs dir root walked rest
      | MetaError message => Err (Unreadable (root, walked) message)
      end
  end.

Definition resolve_beneath (p : Process) (fs : FS) (lease : PhysicalRootLease)
    (relative : list Component) : Result ResolvedTarget RootRefusal :=
  match capability p lease with
  | Err e => Err e
  | Ok dir =>
      match normal_components relative with
      | None => Err (EscapesRoot relative)
      | Some components =>
          match split_last components with
          | None => Err (EscapesRoot relative)
          | Some (leaf, parents) =>
              match walk_parents fs dir (lease_root lease) [] parents with
              | Err e => Err e
              | Ok walked =>
                  Ok (mkResolvedTarget (lease_root lease, walked) leaf (walked ++ [leaf]))
              end
          end
      end
  end.

Definition refuse_link_relative (p : Process) (fs : FS) (lease : PhysicalRootLease)
    (relative : list string) : Result unit RootRefusal :=
  match capability p lease with
  | Err e => Err e
  | Ok dir =>
      match os_symlink_metadata fs dir relative with
      | MetaSymlink => Err (LinkComponent (lease_root lease, relative))
      | MetaOther | MetaNotFound => Ok tt
      | MetaError message => Err (Unreadable (lease_root lease, relative) message)
      end
  end.

(** ** Receipts and staged replacements *)

Inductive ReplacementStep : Type := TempCreated | Replaced | DelegatedVerified.

Record WriteReceipt := mkWriteReceipt {
  receipt_steps : list ReplacementStep;
  receipt_target : AbsPath;
  receipt_lease : PhysicalRootIdentity
}.

Record StagedReplacement := mkStaged {
  staged_temp_relative : list string;
  staged_temp_path : AbsPath;
  staged_target_relative : list string;
  staged_target : AbsPath;
  staged_lease : PhysicalRootIdentity;
  staged_dir : Dir;
  staged_steps : list ReplacementStep;
  staged_owner_only : bool
}.

Definition MAX_TEMP_ATTEMPTS : nat := 16.

(** The temporary's file name: the leaf, the process id, the [NEXT_TEMP] draw and
    the attempt. *)
Definition temp_name (leaf : string) (pid draw : N) (attempt : nat) : string :=
  leaf +:+ (".symforge-tmp-" +:+ pretty pid +:+ "-" +:+ pretty draw +:+ "-"
            +:+ pretty (N.of_nat attempt)).

(** The bounded loop over temporary names: the first name nobody occupies. *)
Fixpoint open_temp (fuel attempt : nat) (pid : N) (dir : Dir) (root : string)
    (parent : list string) (leaf : string) (owner_only : bool) (p : Process) (fs : FS)
  : Result (option (list string * File)) RootRefusal * Process * FS :=
  match fuel with
  | O => (Ok None, p, fs)
  | S fuel =>
      let draw := statics p NEXT_TEMP in
      let p := set_static NEXT_TEMP (u64_add draw 1) p in
      let candidate := parent ++ [temp_name leaf pid draw attempt] in
      match os_create_new fs dir candidate owner_only with
      | (Ok handle, fs) => (Ok (Some (candidate, handle)), p, fs)
      | (Err AlreadyExists, fs) =>
          open_temp fuel (S attempt) pid dir root parent leaf owner_only p fs
      | (Err (OpenFailed message), fs) =>
          (Err (Unreadable (root, candidate) message), p, fs)
      end
  end.

Definition no_temp_message : string :=
  "no unused temporary name was available beneath the leased root".

(** Fill an opened temporary; a failure removes it again. *)
Definition fill_temp (fs : FS) (dir : Dir) (root : string) (temp : list string)
    (handle : File) (contents : list N) (owner_only : bool)
  : Result unit RootRefusal * FS :=
  let '(protected, fs) :=
    if owner_only then os_protect_owner_only fs handle else (Ok tt, fs) in
  match protected with
  | Err message => (Err (Unreadable (root, temp) message), snd (os_remove_file fs dir temp))
  | Ok _ =>
      let '(written, fs) :=
        match os_write_all fs handle contents with
        | (Ok _, fs) => os_sync_all fs handle
        | (Err e, fs) => (Err e, fs)
        end in
      match written with
      | Err message =>
          (Err (Unreadable (root, temp) message), snd (os_remove_file fs dir temp))
      | Ok _ => (Ok tt, fs)
      end
  end.

Definition stage_replacement_with_policy (pid : N) (p : Process) (fs : FS)
    (lease : PhysicalRootLease) (relative : list Component) (contents : list N)
    (owner_only : bool) : Result StagedReplacement RootRefusal * Process * FS :=
  match resolve_beneath p fs lease relative with
  | Err e => (Err e, p, fs)
  | Ok target =>
  match refuse_link_relative p fs lease (target_relative target) with
  | Err e => (Err e, p, fs)
  | Ok _ =>
  match capability p lease with
  | Err e => (Err e, p, fs)
  | Ok dir =>
  match os_try_clone fs dir with
  | Err message => (Err (Unreadable (lease_root lease, []) message), p, fs)
  | Ok cloned =>
  let parent := snd (target_parent target) in
  let '(made, fs) :=
    match parent with
    | [] => (Ok tt, fs)
    | _ => os_create_dir_all fs dir parent
    end in
  match made with
  | Err message => (Err (Unreadable (target_parent target) message), p, fs)
  | Ok _ =>
  let '(opened, p, fs) :=
    open_temp MAX_TEMP_ATTEMPTS 0 pid dir (lease_root lease) parent
              (target_leaf target) owner_only p fs in
  match opened with
  | Err e => (Err e, p, fs)
  | Ok None => (Err (Unreadable (target_parent target) no_temp_message), p, fs)
  | Ok (Some (temp, handle)) =>
  match fill_temp fs dir (lease_root lease) temp handle contents owner_only with
  | (Err e, fs) => (Err e, p, fs)
  | (Ok _, fs) =>
      (Ok (mkStaged temp (lease_root lease, temp) (target_relative target)
                    (target_path target) (lease_identity lease) cloned
                    [TempCreated] owner_only), p, fs)
  end end end end end end end.

Definition stage_replacement (pid : N) (p : Process) (fs : FS)
    (lease : PhysicalRootLease) (relative : list Component) (contents : list N)
  : Result StagedReplacement RootRefusal * Process * FS :=
  stage_replacement_with_policy pid p fs lease relative contents false.

(** [Drop for StagedReplacement]. *)
Definition staged_drop (fs : FS) (staged : StagedReplacement) : FS :=
  match staged_temp_relative staged with
  | [] => fs
  | temp => snd (os_remove_file fs (staged_dir staged) temp)
  end.

(** [StagedReplacement::commit]; the staged value is consumed, so every refusal
    drops it. *)
Definition staged_commit (p : Process) (fs : FS) (staged : StagedReplacement)
  : Result WriteReceipt RootRefusal * FS :=
  if bool_decide (as_u64 (staged_lease staged) ∈ revoked_leases p)
  then (Err LeaseRevoked, staged_drop fs staged)
  else
    match os_rename fs (staged_dir staged) (staged_temp_relative staged)
                    (staged_target_relative staged) with
    | (Err message, fs) =>
        let fs := snd (os_remove_file fs (staged_dir staged)
                                      (staged_temp_relative staged)) in
        (Err (Unreadable (staged_target staged) message), staged_drop fs staged)
    | (Ok _, fs) =>
        match (if staged_owner_only staged
               then os_verify_owner_only fs (staged_dir staged)
                                         (staged_target_relative staged)
               else Ok tt) with
        | Err message =>
            (Err (Unreadable (staged_target staged) message), staged_drop fs staged)
        | Ok _ =>
            (Ok (mkWriteReceipt (staged_steps staged ++ [Replaced])
                                (staged_target staged) (staged_lease staged)), fs)
        end
    end.

Definition replace_with_policy (pid : N) (p : Process) (fs : FS)
    (lease : PhysicalRootLease) (relative : list Component) (contents : list N)
    (owner_only : bool) : Result WriteReceipt RootRefusal * Process * FS :=
  match stage_replacement_with_policy pid p fs lease relative contents owner_only with
  | (Err e, p, fs) => (Err e, p, fs)
  | (Ok staged, p, fs) => let '(r, fs) := staged_commit p fs staged in (r, p, fs)
  end.

Definition replace_beneath (pid : N) (p : Process) (fs : FS)
    (lease : PhysicalRootLease) (relative : list Component) (contents : list N)
  : Result WriteReceipt RootRefusal * Process * FS :=
  replace_with_policy pid p fs lease relative contents false.

Definition replace_owner_only_beneath (pid : N) (p : Process) (fs : FS)
    (lease : PhysicalRootLease) (relative : list Component) (contents : list N)
  : Result WriteReceipt RootRefusal * Process * FS :=
  replace_with_policy pid p fs lease relative contents true.

Definition verify_replacement_beneath (p : Process) (fs : FS)
    (lease : PhysicalRootLease) (relative : list Component) (expected : list N)
  : Result (option WriteReceipt) RootRefusal :=
  match resolve_beneath p fs lease relative with
  | Err e => Err e
  | Ok target =>
  match refuse_link_relative p fs lease (target_relative target) with
  | Err e => Err e
  | Ok _ =>
  match capability p lease with
  | Err e => Err e
  | Ok dir =>
  match os_read fs dir (target_relative target) with
  | Err message => Err (Unreadable (target_path target) message)
  | Ok observed =>
      if decide (observed ≠ expected) then Ok None
      else Ok (Some (mkWriteReceipt [DelegatedVerified] (target_path target)
                                    (lease_identity lease)))
  end end end end.

End PhysicalRoot.

Arguments PhysicalRootLease Dir : clear implicits.
Arguments StagedReplacement Dir : clear implicits.

(** ** Resolution never leaves the root *)

Definition is_plain (c : Component) : Prop :=
  match c with Normal _ | CurDir => True | _ => False end.

Lemma normal_components_plain relative parts :
  normal_components relative = Some parts → Forall is_plain relative.
Proof.
  revert parts. induction relative as [|c rest IH]; intros parts H; [constructor|].
  destruct c; simpl in H; try done; (constructor; [done|]); [|by eauto].
  destruct (normal_components rest); [by eauto|done].
Qed.

Lemma split_last_app l leaf parents :
  split_last l = Some (leaf, parents) → l = parents ++ [leaf].
Proof.
  unfold split_last. destruct (reverse l) as [|x xs] eqn:E; [done|].
  intros H. simplify_eq. apply (f_equal reverse) in E.
  by rewrite reverse_involutive, reverse_cons in E.
Qed.

Section Resolution.
Context {FS Dir File : Type} {OS : CapStd FS Dir File}.

Lemma walk_parents_app (fs : FS) (dir : Dir) root walked parents result :
  walk_parents fs dir root walked parents = Ok result → result = walked ++ parents.
Proof.
  revert walked. induction parents as [|part rest IH]; intros walked H; simpl in H.
  - simplify_eq. by rewrite app_nil_r.
  - assert (result = (walked ++ [part]) ++ rest) as ->.
    { case_match; naive_solver. }
    by rewrite <-app_assoc.
Qed.

Lemma resolve_beneath_inv p (fs : FS) (lease : PhysicalRootLease Dir) relative t :
  resolve_beneath p fs lease relative = Ok t →
  ∃ dir, capability p lease = Ok dir ∧
    normal_components relative = Some (target_relative t) ∧
    target_relative t = snd (target_parent t) ++ [target_leaf t] ∧
    fst (target_parent t) = lease_root lease.
Proof.
  unfold resolve_beneath. intros H.
  destruct (capability p lease) as [dir|]; [|done]. exists dir. split; [done|].
  destruct (normal_components relative) as [cs|] eqn:Hn; [|done].
  destruct (split_last cs) as [[leaf parents]|] eqn:Hs; [|done].
  destruct (walk_parents _ _ _ _ _) as [walked|] eqn:Hw; [|done].
  simplify_eq/=. apply walk_parents_app in Hw. simpl in Hw. subst.
  apply split_last_app in Hs. by subst.
Qed.

(** A resolved target stays beneath the leased root.  Resolution succeeds
    only on a live lease and only for a path made of normal parts (and [.]); the
    resolved path is exactly those parts, is not the root itself, and has no
    [..], root or prefix component left that could climb out. *)
Theorem resolve_beneath_confined p (fs : FS) (lease : PhysicalRootLease Dir) relative t :
  resolve_beneath p fs lease relative = Ok t →
  lease_is_live p lease = true ∧
  Forall is_plain relative ∧
  normal_components relative = Some (target_relative t) ∧
  target_relative t ≠ [] ∧
  target_path t = (lease_root lease, target_relative t).
Proof.
  intros H. apply resolve_beneath_inv in H as (dir & Hc & Hn & Hr & Hroot).
  repeat split.
  - unfold capability in Hc. destruct (lease_is_live p lease); done.
  - by eapply normal_components_plain.
  - done.
  - rewrite Hr. by destruct (snd (target_parent t)).
  - unfold target_path. by rewrite Hroot, Hr.
Qed.

(** A revoked lease refuses every resolution. *)
Lemma resolve_beneath_revoked p (fs : FS) (lease : PhysicalRootLease Dir) relative :
  lease_is_live p lease = false → resolve_beneath p fs lease relative = Err LeaseRevoked.
Proof. intros H. unfold resolve_beneath, capability. by rewrite H. Qed.

Lemma lease_revoke_not_live (p : Process) (lease lease' : PhysicalRootLease Dir) :
  lease_identity lease' = lease_identity lease →
  lease_is_live (lease_revoke lease p) lease' = false.
Proof.
  intros H. unfold lease_is_live, lease_revoke. simpl. rewrite H.
  apply bool_decide_eq_false. set_solver.
Qed.

Lemma replace_with_policy_revoked pid p (fs : FS) (lease : PhysicalRootLease Dir)
    relative contents owner_only :
  lease_is_live p lease = false →
  replace_with_policy pid p fs lease relative contents owner_only
  = (Err LeaseRevoked, p, fs).
Proof.
  intros H. unfold replace_with_policy, stage_replacement_with_policy.
  by rewrite resolve_beneath_revoked.
Qed.
End Resolution.

(** ** Two-phase replacement is atomic for the target *)

Definition file_at {FS Dir File} `{CapStd FS Dir File} (fs : FS) (dir : Dir)
    (path : list string) : option (list N) :=
  match os_read fs dir path with Ok bytes => Some bytes | Err _ => None end.

(** What the write path relies on of the capability calls: distinct names of one
    directory name distinct files; [create_new] creates an empty file; a
    completed write leaves the bytes; a rename moves a file over its target and
    a failed one moves nothing; a cloned handle is the same directory. *)
Class CapStdLaws (FS Dir File : Type) {OS : CapStd FS Dir File} := {
  file_path : File → list string;
  try_clone_same : ∀ (fs : FS) (d d' : Dir), os_try_clone fs d = Ok d' → d' = d;
  create_dir_all_frame : ∀ (fs : FS) (d : Dir) q path,
    file_at (snd (os_create_dir_all fs d q)) d path = file_at fs d path;
  create_new_frame : ∀ (fs : FS) (d : Dir) parent x y o,
    x ≠ y →
    file_at (snd (os_create_new fs d (parent ++ [x]) o)) d (parent ++ [y])
    = file_at fs d (parent ++ [y]);
  create_new_ok : ∀ (fs fs' : FS) (d : Dir) path o f,
    os_create_new fs d path o = (Ok f, fs') →
    file_path f = path ∧ file_at fs' d path = Some [];
  protect_frame : ∀ (fs : FS) (d : Dir) (f : File) path,
    file_at (snd (os_protect_owner_only fs f)) d path = file_at fs d path;
  write_all_frame : ∀ (fs : FS) (d : Dir) (f : File) b parent x y,
    file_path f = parent ++ [x] → x ≠ y →
    file_at (snd (os_write_all fs f b)) d (parent ++ [y]) = file_at fs d (parent ++ [y]);
  write_all_ok : ∀ (fs fs' : FS) (d : Dir) (f : File) b,
    file_at fs d (file_path f) = Some [] → os_write_all fs f b = (Ok tt, fs') →
    file_at fs' d (file_path f) = Some b;
  sync_all_frame : ∀ (fs : FS) (d : Dir) (f : File) path,
    file_at (snd (os_sync_all fs f)) d path = file_at fs d path;
  remove_file_frame : ∀ (fs : FS) (d : Dir) parent x y,
    x ≠ y →
    file_at (snd (os_remove_file fs d (parent ++ [x]))) d (parent ++ [y])
    = file_at fs d (parent ++ [y]);
  rename_ok : ∀ (fs fs' : FS) (d : Dir) a b,
    os_rename fs d a b = (Ok tt, fs') → file_at fs' d b = file_at fs d a;
  rename_err : ∀ (fs fs' : FS) (d : Dir) a b e path,
    os_rename fs d a b = (Err e, fs') → file_at fs' d path = file_at fs d path
}.

Lemma append_suffix_ne (leaf suffix : string) : suffix ≠ "" → leaf +:+ suffix ≠ leaf.
Proof.
  intros Hs. induction leaf as [|c leaf IH]; simpl; [done|].
  intros H. injection H as H. by apply IH.
Qed.

Lemma temp_name_ne leaf pid draw attempt : temp_name leaf pid draw attempt ≠ leaf.
Proof. apply append_suffix_ne. done. Qed.

Section Atomicity.
Context {FS Dir File : Type} {OS : CapStd FS Dir File} {L : CapStdLaws FS Dir File}.

Lemma open_temp_frame fuel attempt pid (dir : Dir) root parent leaf o p (fs : FS) r p' fs' :
  open_temp fuel attempt pid dir root parent leaf o p fs = (r, p', fs') →
  file_at fs' dir (parent ++ [leaf]) = file_at fs dir (parent ++ [leaf]) ∧
  revoked_leases p' = revoked_leases p ∧
  (∀ temp f, r = Ok (Some (temp, f)) →
     ∃ x, temp = parent ++ [x] ∧ x ≠ leaf ∧ file_path f = temp ∧
          file_at fs' dir temp = Some []).
Proof.
  revert attempt p fs. induction fuel as [|fuel IH]; intros attempt p fs H; simpl in H.
  { simplify_eq. done. }
  set (x := temp_name leaf pid (statics p NEXT_TEMP) attempt) in H.
  assert (x ≠ leaf) as Hx by apply temp_name_ne.
  pose proof (create_new_frame fs dir parent x leaf o Hx) as Hf.
  destruct (os_create_new fs dir (parent ++ [x]) o) as [[f|[|m]] fs1] eqn:E; simpl in Hf.
  - simplify_eq. split; [done|]. split; [done|]. intros temp g Heq. simplify_eq.
    apply create_new_ok in E as [? ?]. eauto.
  - apply IH in H as (H1 & H2 & H3). rewrite H1. auto.
  - simplify_eq. done.
Qed.

Lemma fill_temp_frame (fs : FS) (dir : Dir) root parent x leaf (f : File) b o r fs' :
  x ≠ leaf → file_path f = parent ++ [x] → file_at fs dir (parent ++ [x]) = Some [] →
  fill_temp fs dir root (parent ++ [x]) f b o = (r, fs') →
  file_at fs' dir (parent ++ [leaf]) = file_at fs dir (parent ++ [leaf]) ∧
  (r = Ok tt → file_at fs' dir (parent ++ [x]) = Some b).
Proof.
  intros Hx Hp Hempty H. unfold fill_temp in H.
  set (pr := if o then os_protect_owner_only fs f else (Ok tt, fs)) in H.
  assert (∀ path, file_at (snd pr) dir path = file_at fs dir path) as Hpr.
  { intros path. unfold pr. destruct o; [apply protect_frame|done]. }
  destruct pr as [prot fs1]; simpl in Hpr. destruct prot as [u|m].
  2:{ simplify_eq. by rewrite remove_file_frame, Hpr by done. }
  pose proof (write_all_frame fs1 dir f b parent x leaf Hp Hx) as Hw.
  destruct (os_write_all fs1 f b) as [[[]|m] fs2] eqn:E; simpl in Hw.
  2:{ simplify_eq. by rewrite remove_file_frame, Hw, Hpr by done. }
  pose proof (sync_all_frame fs2 dir f) as Hs.
  destruct (os_sync_all fs2 f) as [[[]|m] fs3]; simpl in Hs; simplify_eq.
  - rewrite !Hs, Hw, Hpr. split; [done|]. intros _. rewrite <-Hp.
    eapply write_all_ok; [|exact E]. by rewrite Hpr, Hp.
  - rewrite remove_file_frame, Hs, Hw, Hpr by done. done.
Qed.

Lemma stage_frame pid p (fs : FS) (lease : PhysicalRootLease Dir) relative b o t dir r p' fs' :
  resolve_beneath p fs lease relative = Ok t → capability p lease = Ok dir →
  stage_replacement_with_policy pid p fs lease relative b o = (r, p', fs') →
  file_at fs' dir (target_relative t) = file_at fs dir (target_relative t) ∧
  revoked_leases p' = revoked_leases p ∧
  (∀ staged, r = Ok staged →
     staged_dir staged = dir ∧ staged_target_relative staged = target_relative t ∧
     staged_lease staged = lease_identity lease ∧ staged_steps staged = [TempCreated] ∧
     staged_owner_only staged = o ∧
     ∃ x, staged_temp_relative staged = snd (target_parent t) ++ [x] ∧
          x ≠ target_leaf t ∧ file_at fs' dir (staged_temp_relative staged) = Some b).
Proof.
  intros Ht Hc H. unfold stage_replacement_with_policy in H. rewrite Ht, Hc in H.
  apply resolve_beneath_inv in Ht as (_ & _ & _ & Hr & _). rewrite Hr.
  destruct (refuse_link_relative _ _ _ _); [|by simplify_eq].
  destruct (os_try_clone fs dir) as [d'|] eqn:Hcl; [|by simplify_eq].
  apply try_clone_same in Hcl as ->.
  destruct (match snd (target_parent t) with [] => _ | _ => _ end) as [made fs1] eqn:Em.
  assert (∀ path, file_at fs1 dir path = file_at fs dir path) as H1.
  { intros path. destruct (snd (target_parent t)) as [|y ys]; [by simplify_eq|].
    pose proof (create_dir_all_frame fs dir (y :: ys) path) as Hf.
    by rewrite Em in Hf. }
  destruct made as [u|m]; [|simplify_eq; by rewrite H1].
  destruct (open_temp _ _ _ _ _ _ _ _ _ _) as [[opened p1] fs2] eqn:Eo.
  apply open_temp_frame in Eo as (H2 & Hrev & Hopen). rewrite H1 in H2.
  destruct opened as [[[temp f]|]|e]; [|by simplify_eq..].
  destruct (Hopen temp f eq_refl) as (x & -> & Hx & Hfp & Hempty).
  destruct (fill_temp _ _ _ _ _ _ _) as [filled fs3] eqn:Ef.
  apply (fill_temp_frame _ _ _ _ _ (target_leaf t)) in Ef as [H3 H4]; [|done..].
  destruct filled as [[]|e]; simplify_eq; (split; [congruence|]; split; [done|]);
    intros staged Hs; simplify_eq/=.
  repeat split; auto. eauto.
Qed.

Lemma staged_commit_frame p (fs : FS) (staged : StagedReplacement Dir) parent x leaf r fs' :
  staged_temp_relative staged = parent ++ [x] →
  staged_target_relative staged = parent ++ [leaf] → x ≠ leaf →
  staged_owner_only staged = false →
  staged_commit p fs staged = (r, fs') →
  match r with
  | Ok receipt =>
      file_at fs' (staged_dir staged) (parent ++ [leaf])
      = file_at fs (staged_dir staged) (parent ++ [x]) ∧
      receipt_lease receipt = staged_lease staged ∧
      receipt_steps receipt = staged_steps staged ++ [Replaced] ∧
      as_u64 (staged_lease staged) ∉ revoked_leases p
  | Err _ =>
      file_at fs' (staged_dir staged) (parent ++ [leaf])
      = file_at fs (staged_dir staged) (parent ++ [leaf])
  end.
Proof.
  intros Ht Htr Hx Ho H. unfold staged_commit in H. rewrite Ho in H.
  assert (∀ fs0, file_at (staged_drop fs0 staged) (staged_dir staged) (parent ++ [leaf])
                 = file_at fs0 (staged_dir staged) (parent ++ [leaf])) as Hd.
  { intros fs0. unfold staged_drop. rewrite Ht.
    destruct (parent ++ [x]) as [|y ys] eqn:E; [done|]. rewrite <-E.
    by apply remove_file_frame. }
  case_bool_decide as Hrev; [simplify_eq; apply Hd|].
  destruct (os_rename _ _ _ _) as [[[]|m] fs1] eqn:E; simplify_eq.
  - apply rename_ok in E. rewrite Htr, Ht in E. auto.
  - rewrite Hd, Ht, remove_file_frame by done. by eapply rename_err.
Qed.

(** Replacing a file beneath a lease is all or nothing for the target.  On a
    target that resolves, [replace_beneath] either reports success with a receipt
    naming this lease, the steps TempCreated then Replaced, and the target
    holding exactly the new contents; or it refuses and the target's bytes are
    what they were. *)
Theorem replace_beneath_atomic pid p (fs : FS) (lease : PhysicalRootLease Dir)
    relative contents t dir r p' fs' :
  resolve_beneath p fs lease relative = Ok t → capability p lease = Ok dir →
  replace_beneath pid p fs lease relative contents = (r, p', fs') →
  match r with
  | Ok receipt =>
      file_at fs' dir (target_relative t) = Some contents ∧
      receipt_lease receipt = lease_identity lease ∧
      receipt_steps receipt = [TempCreated; Replaced]
  | Err _ => file_at fs' dir (target_relative t) = file_at fs dir (target_relative t)
  end.
Proof.
  intros Ht Hc H. unfold replace_beneath, replace_with_policy in H.
  destruct (stage_replacement_with_policy _ _ _ _ _ _ _) as [[staged p1] fs1] eqn:Es.
  pose proof (stage_frame _ _ _ _ _ _ _ _ _ _ _ _ Ht Hc Es) as (H1 & _ & Hst).
  destruct staged as [staged|e]; [|by simplify_eq].
  destruct (Hst staged eq_refl) as (Hdir & Htr & Hl & Hsteps & Ho & x & Htemp & Hx & Hb).
  apply resolve_beneath_inv in Ht as (_ & _ & _ & Hr & _).
  rewrite Hr in *.
  destruct (staged_commit p1 fs1 staged) as [r' fs2] eqn:Ec. simplify_eq.
  pose proof (staged_commit_frame _ _ _ _ _ _ _ _ Htemp Htr Hx Ho Ec) as Hcm.
  destruct r as [receipt|e].
  - destruct Hcm as (E & -> & -> & _). rewrite E, <-Htemp, Hb, Hsteps, Hl. done.
  - by rewrite Hcm, H1.
Qed.

(** A stage outlived by its lease never lands.  Once the lease a replacement
    was staged under is revoked, committing the stage refuses with LeaseRevoked
    and leaves the target's bytes untouched. *)
Theorem staged_commit_after_revocation pid p (fs : FS) (lease : PhysicalRootLease Dir)
    relative contents owner_only t dir staged p1 fs1 :
  resolve_beneath p fs lease relative = Ok t → capability p lease = Ok dir →
  stage_replacement_with_policy pid p fs lease relative contents owner_only
    = (Ok staged, p1, fs1) →
  ∃ fs2, staged_commit (lease_revoke lease p1) fs1 staged = (Err LeaseRevoked, fs2) ∧
         file_at fs2 dir (target_relative t) = file_at fs dir (target_relative t).
Proof.
  intros Ht Hc Hs. pose proof (stage_frame _ _ _ _ _ _ _ _ _ _ _ _ Ht Hc Hs) as (H1 & _ & Hst).
  destruct (Hst staged eq_refl) as (Hdir & _ & Hl & _ & _ & x & Htemp & Hx & _).
  apply resolve_beneath_inv in Ht as (_ & _ & _ & Hr & _).
  exists (staged_drop fs1 staged). unfold staged_commit.
  rewrite bool_decide_true by (rewrite Hl; unfold lease_revoke; simpl; set_solver).
  split; [done|]. rewrite <-H1, Hr. unfold staged_drop. rewrite Htemp, Hdir.
  destruct (snd (target_parent t) ++ [x]) as [|y ys] eqn:E; [done|]. rewrite <-E.
  by apply remove_file_frame.
Qed.
End Atomicity.

(** ** A concrete capability: files in a finite map *)

Module MapFs.

Abbreviation FS := (gmap (list string) (list N)).

#[export] Instance map_cap_std : CapStd FS unit (list string) := {|
  os_symlink_metadata fs _ path :=
    match fs !! path with Some _ => MetaOther | None => MetaNotFound end;
  os_try_clone _ d := Ok d;
  os_create_dir_all fs _ _ := (Ok tt, fs);
  os_create_new fs _ path _ :=
    match fs !! path with
    | Some _ => (Err AlreadyExists, fs)
    | None => (Ok path, <[path := []]> fs)
    end;
  os_protect_owner_only fs _ := (Ok tt, fs);
  os_write_all fs f b := (Ok tt, <[f := b]> fs);
  os_sync_all fs _ := (Ok tt, fs);
  os_remove_file fs _ path := (Ok tt, delete path fs);
  os_rename fs _ a b :=
    match fs !! a with
    | Some bytes => (Ok tt, <[b := bytes]> (delete a fs))
    | None => (Err "not found", fs)
    end;
  os_verify_owner_only _ _ _ := Ok tt;
  os_read fs _ path := match fs !! path with Some b => Ok b | None => Err "not found" end
|}.

Lemma file_at_lookup (fs : FS) path : file_at fs tt path = fs !! path.
Proof. unfold file_at. simpl. by destruct (fs !! path). Qed.

Lemma sibling_ne (parent : list string) x y : x ≠ y → parent ++ [x] ≠ parent ++ [y].
Proof. intros Hne H. apply app_inj_2 in H as [_ H]; [congruence|done]. Qed.

#[export, refine] Instance map_laws : CapStdLaws FS unit (list string) :=
  {| file_path f := f |}.
Proof.
  - by intros fs [] [] _.
  - intros fs [] q path. done.
  - intros fs [] parent x y o Hxy. rewrite !file_at_lookup. simpl.
    destruct (fs !! (parent ++ [x])); [done|]. simpl.
    by rewrite lookup_insert_ne by auto using sibling_ne.
  - intros fs fs' [] path o f. rewrite file_at_lookup. simpl. intros H.
    destruct (fs !! path); simplify_eq. split; [done|]. by rewrite lookup_insert_eq.
  - intros fs [] f path. done.
  - intros fs [] f b parent x y -> Hxy. rewrite !file_at_lookup. simpl.
    by rewrite lookup_insert_ne by auto using sibling_ne.
  - intros fs fs' [] f b _ H. rewrite file_at_lookup. simpl in H. simplify_eq.
    by rewrite lookup_insert_eq.
  - intros fs [] f path. done.
  - intros fs [] parent x y Hxy. rewrite !file_at_lookup. simpl.
    by rewrite lookup_delete_ne by auto using sibling_ne.
  - intros fs fs' [] a b H. rewrite !file_at_lookup. simpl in H.
    destruct (fs !! a); simplify_eq. by rewrite lookup_insert_eq.
  - intros fs fs' [] a b e path H. rewrite !file_at_lookup. simpl in H.
    destruct (fs !! a); by simplify_eq.
Defined.

(** A root holding [src/lib.rs], and an open lease on it. *)
Definition sample_fs : FS := {[ ["src"; "lib.rs"] := [1; 2; 3] ]}.
Definition sample_lease : PhysicalRootLease unit :=
  mkLease (mkPhysicalRootIdentity 1) "/repo" (Some tt).
Definition sample_path : list Component := [CurDir; Normal "src"; Normal "lib.rs"].
Definition sample_target : ResolvedTarget :=
  mkResolvedTarget ("/repo", ["src"]) "lib.rs" ["src"; "lib.rs"].

End MapFs.

Lemma resolve_beneath_confined_witness :
  lease_is_live initial_process MapFs.sample_lease = true ∧
  Forall is_plain MapFs.sample_path ∧
  normal_components MapFs.sample_path = Some ["src"; "lib.rs"] ∧
  ["src"; "lib.rs"] ≠ [] ∧
  target_path MapFs.sample_target = ("/repo", ["src"; "lib.rs"]).
Proof.
  apply (resolve_beneath_confined (OS := MapFs.map_cap_std) initial_process
           MapFs.sample_fs MapFs.sample_lease MapFs.sample_path MapFs.sample_target).
  vm_compute. reflexivity.
Defined.

Definition sample_replaced :=
  replace_beneath (OS := MapFs.map_cap_std) 77 initial_process MapFs.sample_fs MapFs.sample_lease
                  MapFs.sample_path [9; 9].

Lemma replace_beneath_atomic_witness :
  ∃ receipt, fst (fst sample_replaced) = Ok receipt ∧
    file_at (H := MapFs.map_cap_std) (snd sample_replaced) tt ["src"; "lib.rs"] = Some [9; 9].
Proof.
  pose proof (replace_beneath_atomic (L := MapFs.map_laws) 77 initial_process MapFs.sample_fs
                MapFs.sample_lease MapFs.sample_path [9; 9] MapFs.sample_target tt
                (fst (fst sample_replaced)) (snd (fst sample_replaced))
                (snd sample_replaced)) as H.
  assert (∃ receipt, fst (fst sample_replaced) = Ok receipt) as [receipt E]
    by (eexists; vm_compute; reflexivity).
  rewrite E in H. exists receipt. split; [done|].
  apply H; [vm_compute; reflexivity|vm_compute; reflexivity|].
  rewrite <-E, <-!surjective_pairing. reflexivity.
Defined.

Definition sample_staged :=
  stage_replacement_with_policy (OS := MapFs.map_cap_std) 77 initial_process MapFs.sample_fs MapFs.sample_lease
                                MapFs.sample_path [9; 9] false.

Lemma staged_commit_after_revocation_witness :
  ∃ staged p1 fs1 fs2, sample_staged = (Ok staged, p1, fs1) ∧
    staged_commit (OS := MapFs.map_cap_std) (lease_revoke MapFs.sample_lease p1) fs1 staged
      = (Err LeaseRevoked, fs2) ∧
    file_at (H := MapFs.map_cap_std) fs2 tt ["src"; "lib.rs"] = Some [1; 2; 3].
Proof.
  assert (∃ staged p1 fs1, sample_staged = (Ok staged, p1, fs1))
    as (staged & p1 & fs1 & E) by (unfold sample_staged; eexists _, _, _; reflexivity).
  destruct (staged_commit_after_revocation (L := MapFs.map_laws) 77 initial_process MapFs.sample_fs
              MapFs.sample_lease MapFs.sample_path [9; 9] false MapFs.sample_target tt
              staged p1 fs1) as (fs2 & H1 & H2).
  - vm_compute. reflexivity.
  - vm_compute. reflexivity.
  - exact E.
  - exists staged, p1, fs1, fs2. split; [exact E|]. split; [exact H1|].
    transitivity (file_at (H := MapFs.map_cap_std) MapFs.sample_fs tt ["src"; "lib.rs"]); [exact H2|].
    vm_compute. reflexivity.
Defined.
