(* ===== verification/Authority.v ===== *)
(** * Whole mutation authority of one source

    Models src/src/index_lifecycle/authority.rs: bindings and their shared
    revocation, candidate and mutation authorities, the outstanding-permit
    record, and [SourceRuntime], the sole owner of one source's phase, mutation
    epoch and grant count. *)

From Stdlib Require Import Lia NArith.
From stdpp Require Import base gmap sets list strings numbers option relations.
From S2P Require Import Prelude Identity PhysicalRoot.

#[local] Open Scope N_scope.

(** ** Epochs and bindings *)

Record MutationEpoch := mkMutationEpoch { epoch_get : N }.

Definition MutationEpoch_initial : MutationEpoch := mkMutationEpoch 0.
Definition MutationEpoch_advanced (e : MutationEpoch) : MutationEpoch :=
  mkMutationEpoch (u64_add (epoch_get e) 1).

(** The [revoked] cell that clones share is [revoked_bindings] of the process,
    keyed by the binding identity. *)
Record BindingAuthority := mkBinding {
  binding_identity : BindingIdentity;
  physical_root : PhysicalRootIdentity
}.

#[global] Instance BindingAuthority_eq_dec : EqDecision BindingAuthority.
Proof. solve_decision. Defined.

Definition bind (root : PhysicalRootIdentity) : Proc Process BindingAuthority :=
  identity ← fresh KBinding; mret (mkBinding identity root).

Definition binding_revoke (b : BindingAuthority) (p : Process) : Process :=
  mkProcess (statics p)
            ({[raw_for_render (binding_identity b)]} ∪ revoked_bindings p)
            (revoked_leases p).

Definition binding_is_live (p : Process) (b : BindingAuthority) : bool :=
  bool_decide (raw_for_render (binding_identity b) ∉ revoked_bindings p).

Record CandidateAuthority := mkCandidateAuthority {
  candidate_identity : CandidateIdentity;
  candidate_binding : BindingAuthority;
  candidate_observer_cut : ObserverToken
}.

Definition candidate_open (binding : BindingAuthority) (observer_cut : ObserverToken)
  : Proc Process CandidateAuthority :=
  identity ← fresh KCandidate; mret (mkCandidateAuthority identity binding observer_cut).

(** ** Mutation authority *)

Record MutationAuthority := mkMutationAuthority {
  authority_generation : GenerationIdentity;
  authority_binding : BindingAuthority;
  authority_epoch : MutationEpoch;
  authority_publication : PublicationIdentity
}.

Record NonCurrentPublicationProof := mkNonCurrentProof {
  proof_publication : PublicationIdentity;
  proof_epoch : MutationEpoch
}.

Record CurrentMutationGrantAuthority := mkGrant {
  grant_authority : MutationAuthority;
  grant_published_non_current : NonCurrentPublicationProof
}.

Definition into_parts (g : CurrentMutationGrantAuthority)
  : MutationAuthority * NonCurrentPublicationProof :=
  (grant_authority g, grant_published_non_current g).

Record CurrentPublication := mkCurrentPublication {
  publication : PublicationIdentity;
  generation : GenerationIdentity;
  publication_binding : BindingAuthority;
  observer_cut : ObserverToken
}.

Definition promote (binding : BindingAuthority) (cut : ObserverToken)
  : Proc Process CurrentPublication :=
  pub ← fresh KPublication;
  gen ← fresh KGeneration;
  mret (mkCurrentPublication pub gen binding cut).

(** ** Grant inputs *)

Inductive MutationGrantInput : Type :=
| LiveCurrent (presented : PublicationIdentity)
| Candidate (candidate : CandidateIdentity)
| Snapshot (snapshot : SnapshotIdentity)
| RetainedGeneration (retained : GenerationIdentity)
| StalePublication (stale : PublicationIdentity).

Inductive Provenance : Type :=
| FromLiveCurrent | FromCandidate | FromSnapshot | FromRetainedGeneration
| FromStalePublication.

Definition provenance (input : MutationGrantInput) : Provenance :=
  match input with
  | LiveCurrent _ => FromLiveCurrent
  | Candidate _ => FromCandidate
  | Snapshot _ => FromSnapshot
  | RetainedGeneration _ => FromRetainedGeneration
  | StalePublication _ => FromStalePublication
  end.

(** ** Phases *)

Inductive PhaseName : Type :=
| PhaseLoading | PhaseCurrent | PhaseRefreshing | PhaseBlocked | PhaseStopping.

#[global] Instance PhaseName_eq_dec : EqDecision PhaseName.
Proof. solve_decision. Defined.

Inductive ObserverPhase : Type :=
| Absent
| Active (token : ObserverToken)
| Draining (token : ObserverToken)
| ObserverFree (handoff : ObserverToken).

Definition observer_token (o : ObserverPhase) : option ObserverToken :=
  match o with
  | Active token | Draining token => Some token
  | Absent | ObserverFree _ => None
  end.

Inductive NonCurrentWork : Type :=
| Dirty
| WaitingForCapacity
| Building (candidate : CandidateIdentity)
| Verifying (candidate : CandidateIdentity)
| RetryWait (attempt : N).

Record ActivePermits := mkActivePermits {
  outstanding : list PublicationIdentity;
  ever_recorded : bool
}.

Definition no_permits : ActivePermits := mkActivePermits [] false.

Definition permits_record (grant : PublicationIdentity) (a : ActivePermits) : ActivePermits :=
  mkActivePermits
    (if decide (grant ∈ outstanding a) then outstanding a
     else outstanding a ++ [grant]) true.

Definition permits_retire (grant : PublicationIdentity) (a : ActivePermits)
  : bool * ActivePermits :=
  let kept := filter (λ entry, entry ≠ grant) (outstanding a) in
  (negb (length kept =? length (outstanding a))%nat,
   mkActivePermits kept (ever_recorded a)).

Definition is_drained (a : ActivePermits) : bool :=
  match outstanding a with [] => true | _ => false end.

Definition permits_len (a : ActivePermits) : nat := length (outstanding a).

Inductive BlockedCause : Type :=
| VerificationFailed | ObserverUnavailable | CapacityRefused.

Record RevocationResidency := mkResidency { residency_charge : PublicationIdentity }.

Definition RevocationResidency_committed : Proc Process RevocationResidency :=
  charge ← fresh KPublication; mret (mkResidency charge).

Inductive SourcePhase : Type :=
| Loading (binding : BindingAuthority) (observer : ObserverPhase) (work : NonCurrentWork)
| Current (current : CurrentPublication)
| Refreshing (retained : GenerationIdentity) (binding : BindingAuthority)
    (publication : PublicationIdentity) (observer : ObserverPhase)
    (permits : ActivePermits) (work : NonCurrentWork)
| Blocked (binding : BindingAuthority) (observer : ObserverPhase)
    (retained : option GenerationIdentity) (cause : BlockedCause)
| Stopping (retained : option GenerationIdentity)
    (residency : option RevocationResidency).

Definition phase_name (s : SourcePhase) : PhaseName :=
  match s with
  | Loading _ _ _ => PhaseLoading
  | Current _ => PhaseCurrent
  | Refreshing _ _ _ _ _ _ => PhaseRefreshing
  | Blocked _ _ _ _ => PhaseBlocked
  | Stopping _ _ => PhaseStopping
  end.

Inductive AuthorityRefusal : Type :=
| PhaseNotCurrent (phase : PhaseName)
| ProvenanceNotLiveCurrent (provenance : Provenance)
| PublicationIdentityMismatch (presented live : PublicationIdentity)
| PhysicalRootReplaced
| PermitAlreadyTerminal
| SideEffectAlreadyInFlight
| WholeAuthorityMismatch
| BindingRevoked (binding : BindingIdentity)
| OutstandingPermit.

(** [From<RootRefusal> for AuthorityRefusal]. *)
Definition authority_refusal_of_root (r : RootRefusal) : AuthorityRefusal :=
  PhysicalRootReplaced.

(** ** The source runtime *)

Record SourceRuntime := mkSourceRuntime {
  phase : SourcePhase;
  mutation_epoch : MutationEpoch;
  grants_issued : N
}.

Definition runtime_loading (binding : BindingAuthority) : SourceRuntime :=
  mkSourceRuntime (Loading binding Absent Dirty) MutationEpoch_initial 0.

Definition runtime_current (current : CurrentPublication) : SourceRuntime :=
  mkSourceRuntime (Current current) MutationEpoch_initial 0.

Definition runtime_refreshing (binding : BindingAuthority) (retained : GenerationIdentity)
  : Proc Process SourceRuntime :=
  pub ← fresh KPublication;
  mret (mkSourceRuntime (Refreshing retained binding pub Absent no_permits Dirty)
                        MutationEpoch_initial 0).

Definition runtime_blocked (binding : BindingAuthority)
    (retained : option GenerationIdentity) : SourceRuntime :=
  mkSourceRuntime (Blocked binding Absent retained VerificationFailed)
                  MutationEpoch_initial 0.

Definition runtime_stopping (retained : option GenerationIdentity)
    (residency : option RevocationResidency) : SourceRuntime :=
  mkSourceRuntime (Stopping retained residency) MutationEpoch_initial 0.

Definition observer_phase (rt : SourceRuntime) : ObserverPhase :=
  match phase rt with
  | Current current => Active (observer_cut current)
  | Loading _ observer _ | Refreshing _ _ _ observer _ _ | Blocked _ observer _ _ => observer
  | Stopping _ _ => Absent
  end.

Definition work (rt : SourceRuntime) : option NonCurrentWork :=
  match phase rt with
  | Loading _ _ w | Refreshing _ _ _ _ _ w => Some w
  | Current _ | Blocked _ _ _ _ | Stopping _ _ => None
  end.

Definition active_permits (rt : SourceRuntime) : ActivePermits :=
  match phase rt with
  | Refreshing _ _ _ _ permits _ => permits
  | _ => no_permits
  end.

Definition committed_revocation_residency (rt : SourceRuntime)
  : option RevocationResidency :=
  match phase rt with Stopping _ residency => residency | _ => None end.

Definition phase_of (rt : SourceRuntime) : PhaseName := phase_name (phase rt).

Definition retained_generation (rt : SourceRuntime) : option GenerationIdentity :=
  match phase rt with
  | Loading _ _ _ => None
  | Current current => Some (generation current)
  | Refreshing retained _ _ _ _ _ => Some retained
  | Blocked _ _ retained _ | Stopping retained _ => retained
  end.

Definition queryable_generation (rt : SourceRuntime) : option GenerationIdentity :=
  match phase rt with
  | Current current => Some (generation current)
  | Refreshing retained _ _ _ permits _ =>
      if ever_recorded permits then None else Some retained
  | Loading _ _ _ | Blocked _ _ _ _ | Stopping _ _ => None
  end.

Definition is_queryable (rt : SourceRuntime) : bool :=
  match queryable_generation rt with Some _ => true | None => false end.

Definition retained_binding (rt : SourceRuntime) : option BindingAuthority :=
  match phase rt with
  | Current current => Some (publication_binding current)
  | Refreshing _ binding _ _ _ _ | Loading binding _ _ | Blocked binding _ _ _ =>
      Some binding
  | Stopping _ _ => None
  end.

Definition blocked_cause (rt : SourceRuntime) : option BlockedCause :=
  match phase rt with Blocked _ _ _ cause => Some cause | _ => None end.

Definition live_publication (rt : SourceRuntime) : option CurrentPublication :=
  match phase rt with Current current => Some current | _ => None end.

Definition published_identity (rt : SourceRuntime) : option PublicationIdentity :=
  match phase rt with
  | Current current => Some (publication current)
  | Refreshing _ _ pub _ _ _ => Some pub
  | Loading _ _ _ | Blocked _ _ _ _ | Stopping _ _ => None
  end.

Definition set_phase (rt : SourceRuntime) (s : SourcePhase) : SourceRuntime :=
  mkSourceRuntime s (mutation_epoch rt) (grants_issued rt).

Definition freeze (rt : SourceRuntime)
  : Proc Process (option PublicationIdentity * SourceRuntime) :=
  let publish retained binding observer permits w :=
    pub ← fresh KPublication;
    mret (Some pub,
          mkSourceRuntime (Refreshing retained binding pub observer permits w)
                          (MutationEpoch_advanced (mutation_epoch rt))
                          (grants_issued rt)) in
  match phase rt with
  | Current current =>
      publish (generation current) (publication_binding current)
              (Active (observer_cut current)) no_permits Dirty
  | Refreshing retained binding _ observer permits w =>
      publish retained binding observer permits w
  | Loading _ _ _ | Blocked _ _ _ _ | Stopping _ _ => mret (None, rt)
  end.

Definition record_permit (grant : PublicationIdentity) (rt : SourceRuntime)
  : bool * SourceRuntime :=
  match phase rt with
  | Refreshing retained binding pub observer permits w =>
      (true, set_phase rt (Refreshing retained binding pub observer
                                      (permits_record grant permits) w))
  | _ => (false, rt)
  end.

Definition retire_permit (grant : PublicationIdentity) (rt : SourceRuntime)
  : bool * SourceRuntime :=
  match phase rt with
  | Refreshing retained binding pub observer permits w =>
      let '(retired, permits) := permits_retire grant permits in
      (retired, set_phase rt (Refreshing retained binding pub observer permits w))
  | _ => (false, rt)
  end.

Definition set_work (next : NonCurrentWork) (rt : SourceRuntime) : bool * SourceRuntime :=
  match phase rt with
  | Loading binding observer _ => (true, set_phase rt (Loading binding observer next))
  | Refreshing retained binding pub observer permits _ =>
      (true, set_phase rt (Refreshing retained binding pub observer permits next))
  | _ => (false, rt)
  end.

Definition set_observer_phase (next : ObserverPhase) (rt : SourceRuntime)
  : bool * SourceRuntime :=
  match phase rt with
  | Loading binding _ w => (true, set_phase rt (Loading binding next w))
  | Refreshing retained binding pub _ permits w =>
      (true, set_phase rt (Refreshing retained binding pub next permits w))
  | Blocked binding _ retained cause =>
      (true, set_phase rt (Blocked binding next retained cause))
  | _ => (false, rt)
  end.

Definition install (current : CurrentPublication) (rt : SourceRuntime) : SourceRuntime :=
  set_phase rt (Current current).

Definition request_mutation_grant (input : MutationGrantInput) (rt : SourceRuntime)
  : Proc Process (Result CurrentMutationGrantAuthority AuthorityRefusal * SourceRuntime) :=
  match phase rt with
  | Current live =>
      match input with
      | LiveCurrent presented =>
          if decide (presented ≠ publication live)
          then mret (Err (PublicationIdentityMismatch presented (publication live)), rt)
          else
            '(frozen, rt) ← freeze rt;
            match frozen with
            | None => panic
            | Some pub =>
                let rt := snd (record_permit pub rt) in
                let epoch := mutation_epoch rt in
                let rt := mkSourceRuntime (phase rt) epoch (u64_add (grants_issued rt) 1) in
                mret (Ok (mkGrant (mkMutationAuthority (generation live)
                                     (publication_binding live) epoch (publication live))
                                  (mkNonCurrentProof pub epoch)), rt)
            end
      | other => mret (Err (ProvenanceNotLiveCurrent (provenance other)), rt)
      end
  | other => mret (Err (PhaseNotCurrent (phase_name other)), rt)
  end.

(** ** Freezing *)

Definition freezable (s : SourcePhase) : option (GenerationIdentity * BindingAuthority *
    ObserverPhase * ActivePermits * NonCurrentWork) :=
  match s with
  | Current c =>
      Some (generation c, publication_binding c, Active (observer_cut c), no_permits, Dirty)
  | Refreshing retained binding _ observer permits w =>
      Some (retained, binding, observer, permits, w)
  | _ => None
  end.

Lemma freeze_None rt p : freezable (phase rt) = None → freeze rt p = Done ((None, rt), p).
Proof. unfold freezable, freeze. by destruct (phase rt). Qed.

Lemma freeze_Some rt p retained binding observer permits w :
  freezable (phase rt) = Some (retained, binding, observer, permits, w) →
  statics p NEXT_IDENTITY ≠ 0 →
  let pub := mkIdentity (statics p NEXT_IDENTITY) in
  freeze rt p = Done ((Some pub,
    mkSourceRuntime (Refreshing retained binding pub observer permits w)
      (MutationEpoch_advanced (mutation_epoch rt)) (grants_issued rt)),
    set_static NEXT_IDENTITY (u64_add (statics p NEXT_IDENTITY) 1) p).
Proof.
  intros Hf Hz. unfold freezable, freeze in *.
  destruct (phase rt); simplify_eq; unfold mbind, Proc_bind;
    by rewrite fresh_total.
Qed.

Lemma freeze_panics rt p :
  freezable (phase rt) ≠ None → statics p NEXT_IDENTITY = 0 → freeze rt p = Panic.
Proof.
  intros Hf Hz. unfold freezable, freeze in *.
  assert (fresh KPublication p = Panic) as Hp.
  { unfold fresh, next_identity, fresh_nonzero, mbind, Proc_bind, fetch_add.
    by rewrite Hz. }
  destruct (phase rt); try done; unfold mbind, Proc_bind; by rewrite Hp.
Qed.

Lemma freeze_Done rt p o rt' p' :
  freeze rt p = Done ((o, rt'), p') →
  (freezable (phase rt) = None ∧ o = None ∧ rt' = rt ∧ p' = p) ∨
  (∃ retained binding observer permits w,
     freezable (phase rt) = Some (retained, binding, observer, permits, w) ∧
     statics p NEXT_IDENTITY ≠ 0 ∧
     o = Some (mkIdentity (statics p NEXT_IDENTITY)) ∧
     rt' = mkSourceRuntime
             (Refreshing retained binding (mkIdentity (statics p NEXT_IDENTITY))
                         observer permits w)
             (MutationEpoch_advanced (mutation_epoch rt)) (grants_issued rt) ∧
     p' = set_static NEXT_IDENTITY (u64_add (statics p NEXT_IDENTITY) 1) p).
Proof.
  intros H.
  destruct (freezable (phase rt)) as [[[[[retained binding] observer] permits] w]|] eqn:Hf.
  - right. destruct (decide (statics p NEXT_IDENTITY = 0)) as [Hz|Hz].
    + rewrite freeze_panics in H; [done| |done]. by rewrite Hf.
    + rewrite (freeze_Some _ _ _ _ _ _ _ Hf Hz) in H. simplify_eq.
      by eexists _, _, _, _, _.
  - left. rewrite freeze_None in H by done. by simplify_eq.
Qed.

(** ** Granting *)

Lemma request_refused_Done input rt p :
  (∀ live, phase rt = Current live → input ≠ LiveCurrent (publication live)) →
  ∃ e, request_mutation_grant input rt p = Done ((Err e, rt), p) ∧
    match phase rt with
    | Current live =>
        match input with
        | LiveCurrent presented => e = PublicationIdentityMismatch presented (publication live)
        | other => e = ProvenanceNotLiveCurrent (provenance other)
        end
    | other => e = PhaseNotCurrent (phase_name other)
    end.
Proof.
  intros H. unfold request_mutation_grant.
  destruct (phase rt) as [|live| | |]; eauto.
  destruct input as [presented| | | |]; eauto.
  specialize (H live eq_refl). rewrite decide_True by congruence. eauto.
Qed.

Definition granted_runtime (live : CurrentPublication) (rt : SourceRuntime) (pub : PublicationIdentity)
  : SourceRuntime :=
  mkSourceRuntime
    (Refreshing (generation live) (publication_binding live) pub
       (Active (observer_cut live)) (mkActivePermits [pub] true) Dirty)
    (MutationEpoch_advanced (mutation_epoch rt)) (u64_add (grants_issued rt) 1).

Lemma request_accepted_Done live rt p :
  phase rt = Current live → statics p NEXT_IDENTITY ≠ 0 →
  let pub := mkIdentity (statics p NEXT_IDENTITY) in
  request_mutation_grant (LiveCurrent (publication live)) rt p =
  Done ((Ok (mkGrant
      (mkMutationAuthority (generation live) (publication_binding live)
         (MutationEpoch_advanced (mutation_epoch rt)) (publication live))
      (mkNonCurrentProof pub (MutationEpoch_advanced (mutation_epoch rt)))),
    granted_runtime live rt pub),
    set_static NEXT_IDENTITY (u64_add (statics p NEXT_IDENTITY) 1) p).
Proof.
  intros Hc Hz pub. unfold request_mutation_grant. rewrite Hc.
  rewrite decide_False by (intros H; by apply H).
  unfold mbind, Proc_bind.
  rewrite (freeze_Some rt p _ _ _ _ _ (f_equal freezable Hc) Hz). reflexivity.
Qed.

(** The presented input names the live [Current] publication exactly. *)
Definition names_live (input : MutationGrantInput) (rt : SourceRuntime) : Prop :=
  ∃ live, phase rt = Current live ∧ input = LiveCurrent (publication live).

#[global] Instance names_live_dec input rt : Decision (names_live input rt).
Proof.
  destruct (phase rt) as [|live| | |] eqn:Hp;
    try (right; intros (? & ? & ?); congruence).
  destruct input as [presented| | | |]; try (right; intros (? & ? & ?); congruence).
  destruct (decide (presented = publication live)) as [->|Hne].
  - left. by exists live.
  - right. intros (live' & ? & ?). simplify_eq. congruence.
Defined.

Lemma request_Done input rt p r rt' p' :
  request_mutation_grant input rt p = Done ((r, rt'), p') →
  (∃ e, r = Err e ∧ rt' = rt ∧ p' = p) ∨
  (∃ live g, r = Ok g ∧ phase rt = Current live ∧
     input = LiveCurrent (publication live) ∧ statics p NEXT_IDENTITY ≠ 0 ∧
     rt' = granted_runtime live rt (mkIdentity (statics p NEXT_IDENTITY)) ∧
     proof_publication (grant_published_non_current g)
       = mkIdentity (statics p NEXT_IDENTITY) ∧
     grant_authority g = mkMutationAuthority (generation live) (publication_binding live)
       (mutation_epoch rt') (publication live) ∧
     p' = set_static NEXT_IDENTITY (u64_add (statics p NEXT_IDENTITY) 1) p).
Proof.
  intros H.
  destruct (decide (names_live input rt)) as [(live & Hc & ->)|Hno].
  - destruct (decide (statics p NEXT_IDENTITY = 0)) as [Hz|Hz].
    + unfold request_mutation_grant in H. rewrite Hc in H.
      rewrite decide_False in H by (intros Hx; by apply Hx).
      unfold mbind, Proc_bind in H. rewrite freeze_panics in H; [done| |done]. by rewrite Hc.
    + right. rewrite (request_accepted_Done live rt p Hc Hz) in H. simplify_eq.
      eexists live, _. repeat split; auto.
  - left. destruct (request_refused_Done input rt p) as (e & He & _).
    { intros live Hc ->. apply Hno. by exists live. }
    rewrite He in H. simplify_eq. eauto.
Qed.

(** C1: a mutation grant is issued exactly when the caller names the live Current
    publication.  Then the source has already left Current: no generation is
    queryable, the granted permit is outstanding, the epoch and the grant count
    have advanced, and the grant carries the whole authority of the publication
    it consumed.  In every other case the request is refused and leaves no trace:
    phase, epoch, grant count and the identity counter are unchanged. *)
Theorem mutation_grant_spec input rt p :
  statics p NEXT_IDENTITY ≠ 0 →
  match decide (names_live input rt) with
  | left _ => ∃ live g rt' p',
      request_mutation_grant input rt p = Done ((Ok g, rt'), p') ∧
      live_publication rt = Some live ∧
      queryable_generation rt' = None ∧
      outstanding (active_permits rt')
        = [proof_publication (grant_published_non_current g)] ∧
      mutation_epoch rt' = MutationEpoch_advanced (mutation_epoch rt) ∧
      grants_issued rt' = u64_add (grants_issued rt) 1 ∧
      grant_authority g = mkMutationAuthority (generation live)
        (publication_binding live) (mutation_epoch rt') (publication live) ∧
      published_identity rt' = Some (proof_publication (grant_published_non_current g))
  | right _ => ∃ e, request_mutation_grant input rt p = Done ((Err e, rt), p)
  end.
Proof.
  intros Hz. destruct (decide (names_live input rt)) as [(live & Hc & ->)|Hno].
  - eexists live, _, _, _. split; [by apply request_accepted_Done|].
    unfold live_publication. by rewrite Hc.
  - destruct (request_refused_Done input rt p) as (e & He & _); [|eauto].
    intros live Hc ->. apply Hno. by exists live.
Qed.

Definition sample_binding : BindingAuthority :=
  mkBinding (mkIdentity 1) (mkPhysicalRootIdentity 1).
Definition sample_current : CurrentPublication :=
  mkCurrentPublication (mkIdentity 3) (mkIdentity 4) sample_binding (mkIdentity 2).
Definition sample_process : Process := set_static NEXT_IDENTITY 5 initial_process.

Lemma mutation_grant_spec_witness :
  ∃ g rt' p',
    request_mutation_grant (LiveCurrent (mkIdentity 3)) (runtime_current sample_current)
      sample_process = Done ((Ok g, rt'), p') ∧ queryable_generation rt' = None.
Proof.
  pose proof (mutation_grant_spec (LiveCurrent (mkIdentity 3))
                (runtime_current sample_current) sample_process) as H.
  destruct (decide _) as [_|Hno] in H.
  - destruct H as (live & g & rt' & p' & H1 & _ & H2 & _); [vm_compute; congruence|].
    exists g, rt', p'. split; [exact H1|exact H2].
  - exfalso. apply Hno. by exists sample_current.
Defined.

(** ** Sequences of runtime operations

    [quiet_step] is every public mutator except [install]; [source_step] adds
    the installation of a freshly promoted publication. *)

Inductive quiet_step : SourceRuntime * Process → SourceRuntime * Process → Prop :=
| quiet_freeze rt p o rt' p' :
    freeze rt p = Done ((o, rt'), p') → quiet_step (rt, p) (rt', p')
| quiet_record rt p grant : quiet_step (rt, p) (snd (record_permit grant rt), p)
| quiet_retire rt p grant : quiet_step (rt, p) (snd (retire_permit grant rt), p)
| quiet_work rt p w : quiet_step (rt, p) (snd (set_work w rt), p)
| quiet_observer rt p o : quiet_step (rt, p) (snd (set_observer_phase o rt), p)
| quiet_request rt p input r rt' p' :
    request_mutation_grant input rt p = Done ((r, rt'), p') →
    quiet_step (rt, p) (rt', p').

Inductive source_step : SourceRuntime * Process → SourceRuntime * Process → Prop :=
| step_quiet s s' : quiet_step s s' → source_step s s'
| step_install rt p binding cut current p' :
    promote binding cut p = Done (current, p') →
    source_step (rt, p) (install current rt, p').

(** A write was authorized against the freeze this source stands on. *)
Definition write_latched (rt : SourceRuntime) : Prop :=
  ∃ retained binding pub observer permits w,
    phase rt = Refreshing retained binding pub observer permits w ∧
    ever_recorded permits = true.

Lemma write_latched_not_queryable rt : write_latched rt → queryable_generation rt = None.
Proof.
  intros (? & ? & ? & ? & permits & ? & H & He). unfold queryable_generation.
  by rewrite H, He.
Qed.

Lemma quiet_step_latched rt p rt' p' :
  quiet_step (rt, p) (rt', p') → write_latched rt → write_latched rt'.
Proof.
  intros Hstep (retained & binding & pub & observer & permits & w & Hp & He).
  inversion Hstep as [? ? o ? ? Hf|? ? g|? ? g|? ? w'|? ? o|? ? input r ? ? Hr]; subst.
  - apply freeze_Done in Hf as [(? & ? & -> & ?)|(r & b & ob & pe & w' & Hf & ? & ? & -> & ?)].
    + by eexists _, _, _, _, _, _.
    + rewrite Hp in Hf. simplify_eq/=. by eexists _, _, _, _, _, _.
  - unfold record_permit. rewrite Hp. by eexists _, _, _, _, _, _.
  - unfold retire_permit. rewrite Hp. simpl. by eexists _, _, _, _, _, _.
  - unfold set_work. rewrite Hp. by eexists _, _, _, _, _, _.
  - unfold set_observer_phase. rewrite Hp. by eexists _, _, _, _, _, _.
  - apply request_Done in Hr as [(? & ? & -> & ?)|(live & ? & ? & Hc & ?)].
    + by eexists _, _, _, _, _, _.
    + congruence.
Qed.

(** No terminal path restores the prior publication (FR-043).  Once a permit
    has been recorded against a freeze, no sequence of freezes, re-freezes,
    permit retirements, work or observer updates and grant requests makes the
    source queryable again; only installing a successor can. *)
Theorem no_restore_without_install rt p rt' p' :
  write_latched rt → rtc quiet_step (rt, p) (rt', p') →
  queryable_generation rt' = None ∧ write_latched rt'.
Proof.
  intros Hl Hs. assert (write_latched rt') as Hl'.
  { revert Hl. change rt' with (fst (rt', p')). change rt with (fst (rt, p)).
    induction Hs as [|[rt1 p1] [rt2 p2] s3 H1 H2 IH]; [done|].
    intros Hl. apply IH. by eapply quiet_step_latched. }
  split; [by apply write_latched_not_queryable|done].
Qed.

Definition sample_granted : SourceRuntime :=
  granted_runtime sample_current (runtime_current sample_current) (mkIdentity 5).

Lemma no_restore_without_install_witness :
  queryable_generation (snd (retire_permit (mkIdentity 5) sample_granted)) = None ∧
  is_drained (active_permits (snd (retire_permit (mkIdentity 5) sample_granted))) = true.
Proof.
  split; [|vm_compute; reflexivity].
  apply (no_restore_without_install sample_granted sample_process _ sample_process).
  - by eexists _, _, _, _, _, _.
  - apply rtc_once, quiet_retire.
Defined.

(** ** Publications are never granted twice *)

Definition live_id (rt : SourceRuntime) : option N :=
  raw_for_render ∘ publication <$> live_publication rt.

(** Everything published so far lies below the identity counter, and [x] can no
    longer be the live publication. *)
Definition retired_id (x : N) (s : SourceRuntime * Process) : Prop :=
  wf_statics (snd s) ∧ below (statics (snd s) NEXT_IDENTITY) x ∧ live_id (fst s) ≠ Some x.

Lemma retired_id_mint x rt rt' p :
  retired_id x (rt, p) → statics p NEXT_IDENTITY ≠ 0 → live_id rt' ≠ Some x →
  retired_id x (rt', set_static NEXT_IDENTITY (u64_add (statics p NEXT_IDENTITY) 1) p).
Proof.
  intros (Hwf & Hb & Hl) Hz Hl'. simpl in *. repeat split; simpl; auto with lifecycle.
  change (below (statics (set_static NEXT_IDENTITY (u64_add (statics p NEXT_IDENTITY) 1) p)
                         NEXT_IDENTITY) x).
  rewrite statics_set_eq. by apply below_step.
Qed.

Lemma promote_Done b cut p c p' :
  promote b cut p = Done (c, p') →
  statics p NEXT_IDENTITY ≠ 0 ∧ u64_add (statics p NEXT_IDENTITY) 1 ≠ 0 ∧
  raw_for_render (publication c) = statics p NEXT_IDENTITY ∧
  publication_binding c = b ∧ observer_cut c = cut ∧
  p' = set_static NEXT_IDENTITY (u64_add (u64_add (statics p NEXT_IDENTITY) 1) 1)
         (set_static NEXT_IDENTITY (u64_add (statics p NEXT_IDENTITY) 1) p).
Proof.
  unfold promote. intros H.
  apply Proc_bind_Done in H as (pub & p1 & (Hpub & Hz & ->)%fresh_Done & H).
  apply Proc_bind_Done in H as (gen & p2 & (Hgen & Hz2 & ->)%fresh_Done & H).
  apply Proc_ret_Done in H. rewrite statics_set_eq in *.
  injection H as -> ->. repeat split; auto.
Qed.

Lemma quiet_step_live_id rt p rt' p' x :
  quiet_step (rt, p) (rt', p') → live_id rt ≠ Some x → live_id rt' ≠ Some x.
Proof.
  unfold live_id, live_publication.
  intros Hstep Hl. inversion Hstep as [? ? o ? ? Hf|? ? g|? ? g|? ? w'|? ? o|? ? input r ? ? Hr];
    subst.
  - apply freeze_Done in Hf as [(? & ? & -> & ?)|(r & b & ob & pe & w' & Hf & ? & ? & -> & ?)];
      done.
  - unfold record_permit. destruct (phase rt) eqn:E; simpl; try rewrite E; done.
  - unfold retire_permit. destruct (phase rt) eqn:E; simpl; try rewrite E; done.
  - unfold set_work. destruct (phase rt) eqn:E; simpl; try rewrite E; done.
  - unfold set_observer_phase. destruct (phase rt) eqn:E; simpl; try rewrite E; done.
  - apply request_Done in Hr as [(? & ? & -> & ?)|(live & ? & ? & Hc & ? & ? & -> & ?)]; done.
Qed.

Lemma quiet_step_process rt p rt' p' :
  quiet_step (rt, p) (rt', p') →
  p' = p ∨ (statics p NEXT_IDENTITY ≠ 0 ∧
            p' = set_static NEXT_IDENTITY (u64_add (statics p NEXT_IDENTITY) 1) p).
Proof.
  intros Hstep. inversion Hstep as [? ? o ? ? Hf| | | | |? ? input r ? ? Hr]; subst; auto.
  - apply freeze_Done in Hf as [(? & ? & -> & ?)|(r & b & ob & pe & w' & Hf & ? & ? & -> & ?)];
      auto.
  - apply request_Done in Hr as [(? & ? & -> & ?)|(live & ? & ? & Hc & ? & ? & -> & ? & ? & ?)];
      auto.
Qed.

Lemma source_step_retired x s s' : source_step s s' → retired_id x s → retired_id x s'.
Proof.
  intros Hstep Hr. destruct Hstep as [[rt p] [rt' p'] Hq|rt p b cut c p' Hpr].
  - pose proof (quiet_step_live_id _ _ _ _ x Hq (proj2 (proj2 Hr))) as Hl.
    destruct (quiet_step_process _ _ _ _ Hq) as [->|[Hz ->]].
    + destruct Hr as (? & ? & ?). by repeat split.
    + by eapply retired_id_mint.
  - apply promote_Done in Hpr as (Hz & Hz2 & Hpub & _ & _ & ->).
    assert (live_id (install c rt) ≠ Some x) as Hl.
    { unfold live_id, install. simpl. destruct Hr as (_ & Hb & _). simpl in Hb.
      intros H. simplify_eq/=. apply below_fresh in Hb; [congruence|done]. }
    pose proof (retired_id_mint x rt rt p Hr Hz (proj2 (proj2 Hr))) as Hr1.
    pose proof (retired_id_mint x rt (install c rt) _ Hr1) as Hr2.
    rewrite statics_set_eq in Hr2. auto.
Qed.

(** C23: authority cannot be replayed.  After a grant has consumed a publication whose
    identity the process minted, no sequence of runtime operations, installs of fresh
    successors included, ever makes that publication live again, so every later request
    naming it is refused.  An install takes what [promote] mints; minting panics when the
    counter is used up, so an identity is never minted twice. *)
Theorem consumed_publication_never_granted rt p live g rt1 p1 rt2 p2 :
  wf_statics p → live_publication rt = Some live →
  below (statics p NEXT_IDENTITY) (raw_for_render (publication live)) →
  request_mutation_grant (LiveCurrent (publication live)) rt p = Done ((Ok g, rt1), p1) →
  rtc source_step (rt1, p1) (rt2, p2) →
  ∃ e, request_mutation_grant (LiveCurrent (publication live)) rt2 p2
       = Done ((Err e, rt2), p2).
Proof.
  intros Hwf Hlive Hb Hreq Hs.
  assert (retired_id (raw_for_render (publication live)) (rt2, p2)) as (_ & _ & Hne).
  { assert (retired_id (raw_for_render (publication live)) (rt1, p1)) as Hr.
    { apply request_Done in Hreq as [(? & ? & ?)|(c & ? & ? & Hc & Hn & Hz & -> & _ & _ & ->)];
        [done|].
      split; [|split]; simpl; auto with lifecycle.
      change (below (statics (set_static NEXT_IDENTITY
        (u64_add (statics p NEXT_IDENTITY) 1) p) NEXT_IDENTITY)
        (raw_for_render (publication live))).
      rewrite statics_set_eq. by apply below_step. }
    revert Hr. induction Hs as [|s1 s2 s3 H1 H2 IH]; [done|].
    intros Hr. apply IH. by eapply source_step_retired. }
  destruct (request_refused_Done (LiveCurrent (publication live)) rt2 p2) as (e & He & _);
    [|eauto].
  intros live2 Hc Heq. simplify_eq. apply Hne. unfold live_id, live_publication.
  simpl. rewrite Hc. simpl. congruence.
Qed.

Lemma consumed_publication_never_granted_witness :
  ∃ e, request_mutation_grant (LiveCurrent (mkIdentity 3)) sample_granted
         (set_static NEXT_IDENTITY 6 sample_process)
       = Done ((Err e, sample_granted), set_static NEXT_IDENTITY 6 sample_process).
Proof.
  eapply (consumed_publication_never_granted (runtime_current sample_current) sample_process
            sample_current).
  - unfold sample_process. by apply set_static_wf; [apply initial_wf_statics|].
  - reflexivity.
  - right. by vm_compute.
  - apply (request_accepted_Done sample_current); [reflexivity|by vm_compute].
  - apply rtc_refl.
Defined.
