(* ===== verification/Mutation.v ===== *)
(** * Source mutation permits

    Models src/src/index_lifecycle/mutation.rs: the drain signal a source
    watches, and the permit that pins a grant to a physical-root lease and moves
    through Granted, InFlight and Terminal.

    A [PermitDrainSignal] is shared through an [Arc]: the cells live in a store
    of signals and a permit holds the key of its cell.  The permit itself is
    owned, so its methods take and return it. *)

From Stdlib Require Import Lia NArith.
From stdpp Require Import base gmap sets list strings numbers option relations.
From S2P Require Import Prelude Identity PhysicalRoot Authority.

#[local] Open Scope N_scope.

(** ** The drain signal *)

Inductive Termination : Type := Committed | NoSideEffect | Drained.

#[global] Instance Termination_eq_dec : EqDecision Termination.
Proof. solve_decision. Defined.

Inductive PermitState : Type :=
| Granted
| InFlight
| Terminal (termination : Termination).

#[global] Instance PermitState_eq_dec : EqDecision PermitState.
Proof. solve_decision. Defined.

Record PermitDrainSignal := mkDrainSignal {
  armed : bool;
  ended : bool;
  termination : option Termination
}.

Definition PermitDrainSignal_new : PermitDrainSignal := mkDrainSignal false false None.

Definition has_ended (s : PermitDrainSignal) : bool := negb (armed s) || ended s.

Definition arm (s : PermitDrainSignal) : PermitDrainSignal :=
  mkDrainSignal true (ended s) (termination s).

Definition record (t : Termination) (s : PermitDrainSignal) : PermitDrainSignal :=
  match termination s with
  | None => mkDrainSignal (armed s) true (Some t)
  | Some _ => s
  end.

(** The allocated signals; a key never written holds a new signal. *)
Abbreviation Signals := (gmap N PermitDrainSignal).

Definition signal_at (d : N) (signals : Signals) : PermitDrainSignal :=
  default PermitDrainSignal_new (signals !! d).

Definition on_signal (d : N) (f : PermitDrainSignal → PermitDrainSignal)
    (signals : Signals) : Signals :=
  <[d := f (signal_at d signals)]> signals.

Record RefreshTicket := mkRefreshTicket {
  ticket_epoch : MutationEpoch;
  ticket_termination : Termination
}.

(** ** Permits *)

Section Permits.
Context {FS Dir File : Type} {OS : CapStd FS Dir File}.

Record SourceMutationPermit := mkPermit {
  permit_authority : MutationAuthority;
  permit_published_non_current : NonCurrentPublicationProof;
  permit_lease : PhysicalRootLease Dir;
  permit_state : PermitState;
  permit_drain : N
}.

Definition with_state (permit : SourceMutationPermit) (s : PermitState)
  : SourceMutationPermit :=
  mkPermit (permit_authority permit) (permit_published_non_current permit)
           (permit_lease permit) s (permit_drain permit).

Definition permit_grant (p : Process) (grant : CurrentMutationGrantAuthority)
    (lease : PhysicalRootLease Dir) (drain : N) (signals : Signals)
  : Result SourceMutationPermit AuthorityRefusal * Signals :=
  let '(authority, published_non_current) := into_parts grant in
  if decide (physical_root (authority_binding authority) ≠ lease_identity lease)
  then (Err WholeAuthorityMismatch, signals)
  else if negb (binding_is_live p (authority_binding authority))
  then (Err (BindingRevoked (binding_identity (authority_binding authority))), signals)
  else if negb (lease_is_live p lease)
  then (Err PhysicalRootReplaced, signals)
  else (Ok (mkPermit authority published_non_current lease Granted drain),
        on_signal drain arm signals).

(** [map_err(AuthorityRefusal::from)]. *)
Definition map_root_err {A} (r : Result A RootRefusal) : Result A AuthorityRefusal :=
  match r with Ok a => Ok a | Err e => Err (authority_refusal_of_root e) end.

Definition permit_replace_beneath (pid : N) (p : Process) (fs : FS)
    (permit : SourceMutationPermit) (relative : list Component) (contents : list N)
  : Result WriteReceipt AuthorityRefusal * Process * FS :=
  if decide (permit_state permit ≠ InFlight) then (Err PermitAlreadyTerminal, p, fs)
  else let '(r, p, fs) := replace_beneath pid p fs (permit_lease permit) relative contents in
       (map_root_err r, p, fs).

Definition permit_replace_owner_only_beneath (pid : N) (p : Process) (fs : FS)
    (permit : SourceMutationPermit) (relative : list Component) (contents : list N)
  : Result WriteReceipt AuthorityRefusal * Process * FS :=
  if decide (permit_state permit ≠ InFlight) then (Err PermitAlreadyTerminal, p, fs)
  else let '(r, p, fs) :=
         replace_owner_only_beneath pid p fs (permit_lease permit) relative contents in
       (map_root_err r, p, fs).

Definition attest_delegated_beneath (p : Process) (fs : FS)
    (permit : SourceMutationPermit) (relative : list Component) (expected : list N)
  : Result (option WriteReceipt) AuthorityRefusal :=
  if decide (permit_state permit ≠ InFlight) then Err PermitAlreadyTerminal
  else map_root_err
         (verify_replacement_beneath p fs (permit_lease permit) relative expected).

Definition is_terminal (permit : SourceMutationPermit) : bool :=
  match permit_state permit with Terminal _ => true | _ => false end.

Definition start_side_effect (p : Process) (permit : SourceMutationPermit)
  : Result unit AuthorityRefusal * SourceMutationPermit :=
  match permit_state permit with
  | Terminal _ => (Err PermitAlreadyTerminal, permit)
  | InFlight => (Err SideEffectAlreadyInFlight, permit)
  | Granted =>
      if negb (lease_is_live p (permit_lease permit))
      then (Err PhysicalRootReplaced, permit)
      else (Ok tt, with_state permit InFlight)
  end.

Definition finish (t : Termination) (permit : SourceMutationPermit) (signals : Signals)
  : Result RefreshTicket AuthorityRefusal * SourceMutationPermit * Signals :=
  (Ok (mkRefreshTicket (authority_epoch (permit_authority permit)) t),
   with_state permit (Terminal t),
   on_signal (permit_drain permit) (record t) signals).

Definition commit (receipt : WriteReceipt) (permit : SourceMutationPermit)
    (signals : Signals)
  : Result RefreshTicket AuthorityRefusal * SourceMutationPermit * Signals :=
  if decide (permit_state permit ≠ InFlight)
  then (Err PermitAlreadyTerminal, permit, signals)
  else if decide (receipt_lease receipt ≠ lease_identity (permit_lease permit))
  then (Err WholeAuthorityMismatch, permit, signals)
  else finish Committed permit signals.

Definition no_side_effect (permit : SourceMutationPermit) (signals : Signals)
  : Result RefreshTicket AuthorityRefusal * SourceMutationPermit * Signals :=
  match permit_state permit with
  | Terminal _ => (Err PermitAlreadyTerminal, permit, signals)
  | InFlight => (Err SideEffectAlreadyInFlight, permit, signals)
  | Granted => finish NoSideEffect permit signals
  end.

(** [Drop for SourceMutationPermit]. *)
Definition permit_drop (permit : SourceMutationPermit) (signals : Signals) : Signals :=
  if is_terminal permit then signals
  else on_signal (permit_drain permit) (record Drained) signals.

End Permits.

Arguments SourceMutationPermit Dir : clear implicits.

(** ** Signals *)

Lemma signal_at_on d f (signals : Signals) :
  signal_at d (on_signal d f signals) = f (signal_at d signals).
Proof. unfold signal_at, on_signal. by rewrite lookup_insert_eq. Qed.

Lemma signal_at_on_ne d d' f (signals : Signals) :
  d' ≠ d → signal_at d' (on_signal d f signals) = signal_at d' signals.
Proof. intros. unfold signal_at, on_signal. by rewrite lookup_insert_ne. Qed.

(** ** Receipts name the lease that wrote *)

Section Receipts.
Context {FS Dir File : Type} {OS : CapStd FS Dir File}.

Lemma stage_lease pid p (fs : FS) (lease : PhysicalRootLease Dir) relative b o staged p' fs' :
  stage_replacement_with_policy pid p fs lease relative b o = (Ok staged, p', fs') →
  staged_lease staged = lease_identity lease.
Proof.
  unfold stage_replacement_with_policy. intros H.
  repeat (match type of H with
          | context [let '(_, _) := ?x in _] => destruct x eqn:?
          | context [match ?x with _ => _ end] => destruct x eqn:?
          end; simplify_eq); done.
Qed.

Lemma replace_with_policy_receipt pid p (fs : FS) (lease : PhysicalRootLease Dir)
    relative b o receipt p' fs' :
  replace_with_policy pid p fs lease relative b o = (Ok receipt, p', fs') →
  receipt_lease receipt = lease_identity lease ∧ lease_is_live p lease = true.
Proof.
  intros H. destruct (lease_is_live p lease) eqn:Hl.
  2:{ by rewrite replace_with_policy_revoked in H by done. }
  split; [|done]. unfold replace_with_policy in H.
  destruct (stage_replacement_with_policy _ _ _ _ _ _ _) as [[[staged|e] p1] fs1] eqn:Es;
    [|done].
  apply stage_lease in Es. rewrite <-Es.
  destruct (staged_commit p1 fs1 staged) as [r fs2] eqn:Ec. simplify_eq.
  unfold staged_commit in Ec. cases_in Ec.
Qed.

Lemma verify_receipt p (fs : FS) (lease : PhysicalRootLease Dir) relative b receipt :
  verify_replacement_beneath p fs lease relative b = Ok (Some receipt) →
  receipt_lease receipt = lease_identity lease ∧ lease_is_live p lease = true.
Proof.
  intros H. destruct (lease_is_live p lease) eqn:Hl.
  - unfold verify_replacement_beneath in H. split; [|done]. cases_in H.
  - unfold verify_replacement_beneath in H. by rewrite resolve_beneath_revoked in H.
Qed.
End Receipts.

(** ** The permit protocol

    A run of one permit: each step is one method call, made against whatever
    process and file-system state the environment has reached by then.  The
    label is what the call accepted; a refused call has no label. *)

Inductive PermitEvent : Type :=
| EvStart
| EvWrite (receipt : WriteReceipt)
| EvCommit (receipt : WriteReceipt) (ticket : RefreshTicket)
| EvNoSideEffect (ticket : RefreshTicket).

Section Protocol.
Context {FS Dir File : Type} {OS : CapStd FS Dir File}.
Implicit Types (permit : SourceMutationPermit Dir) (signals : Signals).

Definition call_event {A} (ev : A → PermitEvent) (r : Result A AuthorityRefusal)
  : list PermitEvent :=
  match r with Ok a => [ev a] | Err _ => [] end.

Definition attest_event (r : Result (option WriteReceipt) AuthorityRefusal)
  : list PermitEvent :=
  match r with Ok (Some receipt) => [EvWrite receipt] | _ => [] end.

Inductive permit_step :
  SourceMutationPermit Dir * Signals → list PermitEvent →
  SourceMutationPermit Dir * Signals → Prop :=
| step_start permit signals p r permit' :
    start_side_effect p permit = (r, permit') →
    permit_step (permit, signals) (call_event (λ _, EvStart) r) (permit', signals)
| step_replace permit signals pid p (fs : FS) relative contents r p' fs' :
    permit_replace_beneath pid p fs permit relative contents = (r, p', fs') →
    permit_step (permit, signals) (call_event EvWrite r) (permit, signals)
| step_replace_owner_only permit signals pid p (fs : FS) relative contents r p' fs' :
    permit_replace_owner_only_beneath pid p fs permit relative contents = (r, p', fs') →
    permit_step (permit, signals) (call_event EvWrite r) (permit, signals)
| step_attest permit signals p (fs : FS) relative expected :
    permit_step (permit, signals)
      (attest_event (attest_delegated_beneath p fs permit relative expected))
      (permit, signals)
| step_commit permit signals receipt r permit' signals' :
    commit receipt permit signals = (r, permit', signals') →
    permit_step (permit, signals) (call_event (EvCommit receipt) r) (permit', signals')
| step_no_side_effect permit signals r permit' signals' :
    no_side_effect permit signals = (r, permit', signals') →
    permit_step (permit, signals) (call_event EvNoSideEffect r) (permit', signals').

Inductive permit_run :
  SourceMutationPermit Dir * Signals → list PermitEvent →
  SourceMutationPermit Dir * Signals → Prop :=
| run_nil s : permit_run s [] s
| run_snoc s1 evs s2 ev s3 :
    permit_run s1 evs s2 → permit_step s2 ev s3 → permit_run s1 (evs ++ ev) s3.

(** A write event whose receipt names [root]. *)
Definition write_under (root : PhysicalRootIdentity) (ev : PermitEvent) : Prop :=
  match ev with EvWrite receipt => receipt_lease receipt = root | _ => False end.

(** The protocol, as the language of accepted events and the state they lead
    to: nothing, a single refusal to write, or a start, writes under one root and
    possibly a commit of a receipt of that root. *)
Definition protocol (root : PhysicalRootIdentity) (epoch : MutationEpoch)
    (evs : list PermitEvent) (s : PermitState) : Prop :=
  match s with
  | Granted => evs = []
  | InFlight => ∃ writes, evs = EvStart :: writes ∧ Forall (write_under root) writes
  | Terminal NoSideEffect => evs = [EvNoSideEffect (mkRefreshTicket epoch NoSideEffect)]
  | Terminal Committed => ∃ writes receipt,
      evs = EvStart :: writes ++ [EvCommit receipt (mkRefreshTicket epoch Committed)] ∧
      Forall (write_under root) writes ∧ receipt_lease receipt = root
  | Terminal Drained => False
  end.

(** What every state of a run keeps: the pinned authority and cell, the protocol,
    and the drain signal saying exactly what the state says. *)
Definition run_inv (permit0 : SourceMutationPermit Dir) (signals0 : Signals)
    (evs : list PermitEvent) (s : SourceMutationPermit Dir * Signals) : Prop :=
  let '(permit, signals) := s in
  permit_authority permit = permit_authority permit0 ∧
  permit_lease permit = permit_lease permit0 ∧
  permit_drain permit = permit_drain permit0 ∧
  protocol (lease_identity (permit_lease permit0))
           (authority_epoch (permit_authority permit0)) evs (permit_state permit) ∧
  signal_at (permit_drain permit0) signals =
    match permit_state permit with
    | Terminal t => mkDrainSignal true true (Some t)
    | _ => mkDrainSignal true false None
    end ∧
  ∀ d, d ≠ permit_drain permit0 → signal_at d signals = signal_at d signals0.

Lemma permit_write_event permit evs receipt root epoch :
  permit_state permit = InFlight → receipt_lease receipt = root →
  protocol root epoch evs (permit_state permit) →
  protocol root epoch (evs ++ [EvWrite receipt]) (permit_state permit).
Proof.
  intros -> Hr (writes & -> & Hw). exists (writes ++ [EvWrite receipt]).
  split; [done|]. apply Forall_app. split; [done|]. by constructor.
Qed.

Lemma permit_step_inv permit0 signals0 evs s ev s' :
  permit_step s ev s' → run_inv permit0 signals0 evs s → run_inv permit0 signals0 (evs ++ ev) s'.
Proof.
  intros Hstep. destruct Hstep as
    [permit signals p r permit' H|permit signals pid p fs rel b r p' fs' H
    |permit signals pid p fs rel b r p' fs' H|permit signals p fs rel b
    |permit signals receipt r permit' signals' H|permit signals r permit' signals' H];
    intros (Ha & Hl & Hd & Hp & Hs & Ho).
  - unfold start_side_effect in H. destruct (permit_state permit) eqn:E; rewrite ?E in *;
      [destruct (negb _)|..]; simplify_eq/=; rewrite ?app_nil_r; repeat split; rewrite ?E; auto.
    { done. }
    by exists [].
  - unfold permit_replace_beneath, replace_beneath in H. case_decide as E; simplify_eq/=.
    { rewrite app_nil_r. by repeat split. }
    destruct (replace_with_policy _ _ _ _ _ _ _) as [[[receipt|e] p1] fs1] eqn:Er;
      simplify_eq/=; rewrite ?app_nil_r; repeat split; auto.
    apply replace_with_policy_receipt in Er as [Er _]. try apply dec_stable in E.
    apply permit_write_event; [done|congruence|done].
  - unfold permit_replace_owner_only_beneath, replace_owner_only_beneath in H.
    case_decide as E; simplify_eq/=.
    { rewrite app_nil_r. by repeat split. }
    destruct (replace_with_policy _ _ _ _ _ _ _) as [[[receipt|e] p1] fs1] eqn:Er;
      simplify_eq/=; rewrite ?app_nil_r; repeat split; auto.
    apply replace_with_policy_receipt in Er as [Er _]. try apply dec_stable in E.
    apply permit_write_event; [done|congruence|done].
  - unfold attest_delegated_beneath. case_decide as E; simpl.
    { rewrite app_nil_r. by repeat split. }
    destruct (verify_replacement_beneath _ _ _ _ _) as [[receipt|]|e] eqn:Er; simpl;
      rewrite ?app_nil_r; repeat split; auto.
    apply verify_receipt in Er as [Er _]. try apply dec_stable in E.
    apply permit_write_event; [done|congruence|done].
  - unfold commit, finish in H. case_decide as E; [simplify_eq/=; rewrite app_nil_r; by repeat split|].
    try apply dec_stable in E. rewrite E in *.
    case_decide as Er; simplify_eq/=; [rewrite app_nil_r; repeat split; rewrite ?E; auto|].
    try apply dec_stable in Er. destruct Hp as (writes & -> & Hw).
    repeat split; auto; simpl.
    + exists writes, receipt. rewrite Ha. repeat split; auto. congruence.
    + by rewrite Hd, signal_at_on, Hs.
    + intros d Hne. rewrite signal_at_on_ne by congruence. auto.
  - unfold no_side_effect, finish in H. destruct (permit_state permit) eqn:E;
      rewrite ?E in *; simplify_eq/=;
      rewrite ?app_nil_r; repeat split; rewrite ?E; auto; simpl.
    + by rewrite Ha.
    + by rewrite Hd, signal_at_on, Hs.
    + intros d Hne. rewrite signal_at_on_ne by congruence. auto.
Qed.

Lemma permit_run_inv permit0 signals0 s evs s' :
  permit_run s evs s' → run_inv permit0 signals0 [] s → run_inv permit0 signals0 evs s'.
Proof.
  induction 1 as [|s1 evs s2 ev s3 H IH Hs]; [done|]. intros. eapply permit_step_inv; eauto.
Qed.

(** What a grant requires: the whole authority, not one field of it. *)
Lemma permit_grant_Ok p g (lease : PhysicalRootLease Dir) d signals permit signals' :
  permit_grant p g lease d signals = (Ok permit, signals') ↔
  physical_root (authority_binding (grant_authority g)) = lease_identity lease ∧
  binding_is_live p (authority_binding (grant_authority g)) = true ∧
  lease_is_live p lease = true ∧
  permit = mkPermit (grant_authority g) (grant_published_non_current g) lease Granted d ∧
  signals' = on_signal d arm signals.
Proof.
  unfold permit_grant, into_parts. split.
  - intros H. case_decide as E; [done|]. try apply dec_stable in E.
    destruct (binding_is_live _ _), (lease_is_live _ _); simplify_eq/=. auto.
  - intros (E & -> & -> & -> & ->). by rewrite decide_False by auto.
Qed.

Lemma permit_grant_inv p g (lease : PhysicalRootLease Dir) d signals permit signals' :
  signal_at d signals = PermitDrainSignal_new →
  permit_grant p g lease d signals = (Ok permit, signals') →
  run_inv permit signals [] (permit, signals').
Proof.
  intros Hd (E & _ & _ & -> & ->)%permit_grant_Ok. repeat split; simpl.
  - by rewrite signal_at_on, Hd.
  - intros d' Hne. by rewrite signal_at_on_ne.
Qed.
End Protocol.

Section Permit_properties.
Context {FS Dir File : Type} {OS : CapStd FS Dir File}.

(** C2: the permit protocol.  Whatever a holder calls on a granted permit, in any
    order and against any environment, the accepted calls are: nothing; or one
    [no_side_effect]; or a start, then writes and attestations whose receipts all
    name the pinned root, then possibly one commit of a receipt of that same root.
    The state says which, the ticket carries the epoch of the grant, and the pinned
    authority and lease never change. *)
Theorem permit_protocol p g (lease : PhysicalRootLease Dir) d signals permit signals'
    evs permit' signals'' :
  signal_at d signals = PermitDrainSignal_new →
  permit_grant p g lease d signals = (Ok permit, signals') →
  permit_run (OS := OS) (permit, signals') evs (permit', signals'') →
  protocol (lease_identity lease) (authority_epoch (grant_authority g)) evs
           (permit_state permit') ∧
  permit_authority permit' = grant_authority g ∧ permit_lease permit' = lease.
Proof.
  intros Hd Hg Hr. eapply permit_run_inv in Hr; [|by eapply permit_grant_inv].
  apply permit_grant_Ok in Hg as (_ & _ & _ & -> & _).
  destruct Hr as (Ha & Hl & _ & Hp & _). auto.
Qed.

(** A permit ends exactly once and always tells its source.  Before the drop
    the signal is ended exactly when the permit is terminal; after the drop it is
    ended in every case, with the termination the permit reached, or [Drained]
    when it reached none; no other permit's signal is touched. *)
Theorem permit_drop_always_drains p g (lease : PhysicalRootLease Dir) d signals permit
    signals' evs permit' signals'' :
  signal_at d signals = PermitDrainSignal_new →
  permit_grant p g lease d signals = (Ok permit, signals') →
  permit_run (OS := OS) (permit, signals') evs (permit', signals'') →
  has_ended (signal_at d signals'') = is_terminal permit' ∧
  has_ended (signal_at d (permit_drop permit' signals'')) = true ∧
  termination (signal_at d (permit_drop permit' signals'')) =
    Some (match permit_state permit' with Terminal t => t | _ => Drained end) ∧
  ∀ d', d' ≠ d → signal_at d' (permit_drop permit' signals'') = signal_at d' signals.
Proof.
  intros Hd Hg Hr. eapply permit_run_inv in Hr; [|by eapply permit_grant_inv].
  apply permit_grant_Ok in Hg as (_ & _ & _ & -> & _).
  destruct Hr as (_ & _ & Hdr & _ & Hs & Ho). simpl in *.
  unfold is_terminal, permit_drop, is_terminal. rewrite Hdr, Hs.
  destruct (permit_state permit') as [| |t]; rewrite ?signal_at_on, Hs; repeat split;
    intros d' Hne; rewrite ?signal_at_on_ne by done; auto.
Qed.

(** A permit needs the whole authority.  A grant becomes a permit exactly when
    its binding names the lease's root and neither the binding nor the lease has
    been revoked; any clone revoked elsewhere counts, since clones share the
    cell.  A refusal arms nothing. *)
Theorem permit_grant_whole_authority p g (lease : PhysicalRootLease Dir) d signals :
  match permit_grant p g lease d signals with
  | (Ok permit, signals') =>
      physical_root (authority_binding (grant_authority g)) = lease_identity lease ∧
      raw_for_render (binding_identity (authority_binding (grant_authority g)))
        ∉ revoked_bindings p ∧
      as_u64 (lease_identity lease) ∉ revoked_leases p ∧
      permit_state permit = Granted ∧ signals' = on_signal d arm signals
  | (Err _, signals') =>
      signals' = signals ∧
      (physical_root (authority_binding (grant_authority g)) ≠ lease_identity lease ∨
       raw_for_render (binding_identity (authority_binding (grant_authority g)))
         ∈ revoked_bindings p ∨
       as_u64 (lease_identity lease) ∈ revoked_leases p)
  end.
Proof.
  unfold permit_grant, into_parts, binding_is_live, lease_is_live.
  case_decide as E; [auto|]. try apply dec_stable in E.
  case_bool_decide as Hb; simpl. 2:{ split; [done|]. right; left. exact Hb. }
  case_bool_decide as Hl; simpl; [auto|].
  split; [done|]. right; right. exact Hl.
Qed.

(** Revoking the root stops a permit mid-flight.  Once the lease, or any other
    handle on the same root identity, is revoked, the permit can neither start its
    side effect nor write nor attest through the lease; the file system and every
    signal are untouched. *)
Theorem revoked_root_stops_permit pid p (fs : FS) (permit : SourceMutationPermit Dir)
    (handle : PhysicalRootLease Dir) relative contents :
  lease_identity handle = lease_identity (permit_lease permit) →
  let p' := lease_revoke handle p in
  (∃ e, start_side_effect p' permit = (Err e, permit)) ∧
  (∃ e, permit_replace_beneath pid p' fs permit relative contents = (Err e, p', fs)) ∧
  (∃ e, permit_replace_owner_only_beneath pid p' fs permit relative contents
        = (Err e, p', fs)) ∧
  (∃ e, attest_delegated_beneath p' fs permit relative contents = Err e).
Proof.
  intros Hid p'. assert (lease_is_live p' (permit_lease permit) = false) as Hl
    by (by apply lease_revoke_not_live).
  unfold start_side_effect, permit_replace_beneath, permit_replace_owner_only_beneath,
    replace_beneath, replace_owner_only_beneath, attest_delegated_beneath,
    verify_replacement_beneath.
  rewrite !replace_with_policy_revoked, resolve_beneath_revoked, Hl by done.
  repeat split; [destruct (permit_state permit); eauto|case_decide; eauto..].
Qed.
End Permit_properties.

(** ** A permit on the sample root *)

Definition sample_grant : CurrentMutationGrantAuthority :=
  mkGrant (mkMutationAuthority (mkIdentity 4) sample_binding
             (MutationEpoch_advanced MutationEpoch_initial) (mkIdentity 3))
          (mkNonCurrentProof (mkIdentity 5) (MutationEpoch_advanced MutationEpoch_initial)).

Definition sample_permit : SourceMutationPermit unit :=
  mkPermit (grant_authority sample_grant) (grant_published_non_current sample_grant)
           MapFs.sample_lease Granted 7.

Definition sample_signals : Signals := on_signal 7 arm ∅.

Lemma sample_permit_granted :
  permit_grant sample_process sample_grant MapFs.sample_lease 7 ∅
  = (Ok sample_permit, sample_signals).
Proof. vm_compute. reflexivity. Qed.

Definition sample_write_receipt : WriteReceipt :=
  mkWriteReceipt [TempCreated; Replaced] ("/repo", ["src"; "lib.rs"])
                 (mkPhysicalRootIdentity 1).

Definition sample_committed_events : list PermitEvent :=
  [EvStart; EvWrite sample_write_receipt;
   EvCommit sample_write_receipt
     (mkRefreshTicket (MutationEpoch_advanced MutationEpoch_initial) Committed)].

(** The run that starts, replaces [src/lib.rs] and commits. *)
Lemma sample_permit_run :
  permit_run (OS := MapFs.map_cap_std) (sample_permit, sample_signals)
    sample_committed_events
    (with_state sample_permit (Terminal Committed),
     on_signal 7 (record Committed) sample_signals).
Proof.
  apply (run_snoc _ [EvStart; EvWrite sample_write_receipt]
           (with_state sample_permit InFlight, sample_signals) [_]).
  2:{ by eapply (step_commit _ _ sample_write_receipt (Ok _)). }
  apply (run_snoc _ [EvStart] (with_state sample_permit InFlight, sample_signals) [_]).
  2:{ eapply (step_replace _ _ 77 initial_process MapFs.sample_fs MapFs.sample_path [9; 9]
                (Ok sample_write_receipt)). vm_compute. reflexivity. }
  apply (run_snoc _ [] (sample_permit, sample_signals) [_]); [apply run_nil|].
  by apply (step_start _ _ initial_process (Ok tt)).
Qed.

Lemma permit_protocol_witness :
  protocol (mkPhysicalRootIdentity 1) (MutationEpoch_advanced MutationEpoch_initial)
    sample_committed_events (Terminal Committed).
Proof.
  refine (proj1 (permit_protocol (OS := MapFs.map_cap_std) sample_process sample_grant
    MapFs.sample_lease 7 ∅ sample_permit sample_signals sample_committed_events
    (with_state sample_permit (Terminal Committed))
    (on_signal 7 (record Committed) sample_signals) _ _ _)).
  - reflexivity.
  - apply sample_permit_granted.
  - apply sample_permit_run.
Defined.

Lemma permit_drop_always_drains_witness :
  termination (signal_at 7 (permit_drop sample_permit sample_signals)) = Some Drained ∧
  has_ended (signal_at 7 sample_signals) = false.
Proof.
  destruct (permit_drop_always_drains (OS := MapFs.map_cap_std) sample_process sample_grant
              MapFs.sample_lease 7 ∅ sample_permit sample_signals [] sample_permit
              sample_signals) as (H1 & H2 & H3 & H4).
  - reflexivity.
  - apply sample_permit_granted.
  - apply run_nil.
  - split; [exact H3|exact H1].
Defined.

Lemma revoked_root_stops_permit_witness :
  ∃ e, start_side_effect (lease_revoke MapFs.sample_lease sample_process) sample_permit
       = (Err e, sample_permit).
Proof.
  apply (revoked_root_stops_permit (OS := MapFs.map_cap_std) 77 sample_process
           MapFs.sample_fs sample_permit MapFs.sample_lease MapFs.sample_path [9]).
  reflexivity.
Defined.
