(* ===== verification/Transition.v ===== *)
(** * Freeze, Drain, Install

    Models src/src/index_lifecycle/transition.rs: the one ordered path that
    reload, rebind and physical-root replacement share. *)

From Stdlib Require Import Lia NArith.
From stdpp Require Import base gmap sets list strings numbers option relations.
From S2P Require Import Prelude Identity PhysicalRoot Authority Mutation.

#[local] Open Scope N_scope.

Inductive TransitionKind : Type := Reload | Rebind | PhysicalRootReplacement.

Inductive TransitionStep : Type := Freeze | Drain | Install.

Record TransitionReceipt := mkTransitionReceipt {
  transition_kind : TransitionKind;
  transition_steps : list TransitionStep
}.

Section Transition.
Context {Dir : Type}.

(** [outstanding] is read through a shared reference twice; another holder of the
    signal may act between the reads, so the two observations are separate
    arguments. *)
Definition apply (kind : TransitionKind) (outgoing : PhysicalRootLease Dir)
    (incoming : BindingAuthority) (observer_cut : ObserverToken)
    (outstanding outstanding' : PermitDrainSignal) (runtime : SourceRuntime)
  : Proc Process (Result TransitionReceipt AuthorityRefusal * SourceRuntime) :=
  if negb (has_ended outstanding) || negb (is_drained (active_permits runtime))
  then mret (Err OutstandingPermit, runtime)
  else
    '(frozen, runtime) ← freeze runtime;
    match frozen with
    | None => mret (Err (PhaseNotCurrent (phase_of runtime)), runtime)
    | Some _ =>
        if negb (has_ended outstanding') || negb (is_drained (active_permits runtime))
        then mret (Err OutstandingPermit, runtime)
        else
          _ ← (λ p, Done (tt, lease_revoke outgoing p)) : Proc Process unit;
          current ← promote incoming observer_cut;
          mret (Ok (mkTransitionReceipt kind [Freeze; Drain; Install]),
                install current runtime)
    end.

Implicit Types (outgoing : PhysicalRootLease Dir).

Lemma freezable_active_permits rt r b o permits w :
  freezable (phase rt) = Some (r, b, o, permits, w) → active_permits rt = permits.
Proof. unfold freezable, active_permits. destruct (phase rt); naive_solver. Qed.

Lemma apply_installs kind outgoing incoming cut signal rt p :
  has_ended signal = true → is_drained (active_permits rt) = true →
  freezable (phase rt) ≠ None →
  statics p NEXT_IDENTITY ≠ 0 → statics p NEXT_IDENTITY + 3 ≤ u64_modulus →
  ∃ current rt' p',
    apply kind outgoing incoming cut signal signal rt p
      = Done ((Ok (mkTransitionReceipt kind [Freeze; Drain; Install]), rt'), p') ∧
    live_publication rt' = Some current ∧
    publication_binding current = incoming ∧ observer_cut current = cut ∧
    statics p NEXT_IDENTITY < raw_for_render (publication current) ∧
    mutation_epoch rt' = MutationEpoch_advanced (mutation_epoch rt) ∧
    grants_issued rt' = grants_issued rt ∧
    revoked_leases p' = {[as_u64 (lease_identity outgoing)]} ∪ revoked_leases p ∧
    revoked_bindings p' = revoked_bindings p ∧
    statics p' NEXT_IDENTITY = u64_add (statics p NEXT_IDENTITY + 2) 1.
Proof.
  intros Hs Hd Hf Hz Hroom.
  destruct (freezable (phase rt)) as [[[[[r b] o] permits] w]|] eqn:E; [|done].
  pose proof (freezable_active_permits _ _ _ _ _ _ E) as Hp.
  unfold apply. rewrite Hs, Hd. simpl. unfold mbind, Proc_bind.
  rewrite (freeze_Some _ _ _ _ _ _ _ E Hz). simpl.
  rewrite Hp in Hd. unfold active_permits. simpl. rewrite Hd. simpl.
  set (p1 := lease_revoke outgoing (set_static NEXT_IDENTITY _ p)).
  assert (statics p1 NEXT_IDENTITY = statics p NEXT_IDENTITY + 1) as E1.
  { unfold p1. simpl. apply u64_add_small. lia. }
  unfold promote, mbind, Proc_bind.
  rewrite fresh_total by lia.
  set (p2 := set_static NEXT_IDENTITY (u64_add (statics p1 NEXT_IDENTITY) 1) p1).
  assert (statics p2 NEXT_IDENTITY = statics p NEXT_IDENTITY + 2) as E2.
  { unfold p2. rewrite statics_set_eq, E1, u64_add_small; lia. }
  rewrite (fresh_total KGeneration) by lia.
  eexists _, _, _. split; [reflexivity|]. simpl. unfold p1 in E1. simpl in E1. rewrite E1.
  repeat split; simpl; [lia|]. unfold p2 in E2. rewrite statics_set_eq in E2. simpl in E2.
  by rewrite E1 in E2; rewrite E2.
Qed.

(** A transition that can proceed does exactly Freeze, Drain, Install.  On a
    drained source with a publication to freeze, it succeeds: the epoch advances
    once and is not rewound, the source is Current at a fresh publication of the
    incoming binding and cut, the outgoing root is revoked for every handle on it
    and no other root or binding is. *)
Theorem transition_installs kind outgoing incoming cut signal rt p :
  has_ended signal = true → is_drained (active_permits rt) = true →
  freezable (phase rt) ≠ None →
  statics p NEXT_IDENTITY ≠ 0 → statics p NEXT_IDENTITY + 3 ≤ u64_modulus →
  ∃ current rt' p',
    apply kind outgoing incoming cut signal signal rt p
      = Done ((Ok (mkTransitionReceipt kind [Freeze; Drain; Install]), rt'), p') ∧
    live_publication rt' = Some current ∧
    publication_binding current = incoming ∧ observer_cut current = cut ∧
    statics p NEXT_IDENTITY < raw_for_render (publication current) ∧
    mutation_epoch rt' = MutationEpoch_advanced (mutation_epoch rt) ∧
    grants_issued rt' = grants_issued rt ∧
    revoked_leases p' = {[as_u64 (lease_identity outgoing)]} ∪ revoked_leases p ∧
    revoked_bindings p' = revoked_bindings p.
Proof.
  intros Hs Hd Hf Hz Hroom.
  destruct (apply_installs kind outgoing incoming cut signal rt p)
    as (c & rt' & p' & H); [done..|].
  exists c, rt', p'. tauto.
Qed.

(** A refused transition leaves no trace.  When the source still has a permit
    outstanding, the signal has not ended, or the phase has no publication to
    freeze, the transition refuses with the source, the identity counter and every
    revocation cell unchanged; in particular a Stopping source is not resurrected. *)
Theorem transition_refusal_leaves_no_trace kind outgoing incoming cut signal rt p :
  has_ended signal = false ∨ is_drained (active_permits rt) = false ∨
    freezable (phase rt) = None →
  ∃ e, apply kind outgoing incoming cut signal signal rt p = Done ((Err e, rt), p).
Proof.
  intros H. unfold apply.
  destruct (has_ended signal), (is_drained (active_permits rt)); simpl; eauto.
  destruct H as [|[|Hf]]; [done|done|].
  unfold mbind, Proc_bind. rewrite freeze_None by done. eauto.
Qed.

(** The second drain observation can only fail on the signal.  If the
    transition gets past its first check and still refuses with OutstandingPermit,
    then another holder armed the signal between the two reads: the source itself
    cannot have gained a permit, and the outgoing root is still live. *)
Theorem transition_late_refusal kind outgoing incoming cut s1 s2 rt p rt' p' :
  has_ended s1 = true → is_drained (active_permits rt) = true →
  apply kind outgoing incoming cut s1 s2 rt p = Done ((Err OutstandingPermit, rt'), p') →
  has_ended s2 = false ∧ armed s2 = true ∧ is_drained (active_permits rt') = true ∧
  revoked_leases p' = revoked_leases p ∧ live_publication rt' = None.
Proof.
  intros Hs Hd H. unfold apply in H. rewrite Hs, Hd in H. simpl in H.
  apply Proc_bind_Done in H as ([o rt1] & p1 & Hf & H).
  apply freeze_Done in Hf as [(E & -> & -> & ->)|(r & b & ob & permits & w & E & Hz & -> & -> & ->)].
  { apply Proc_ret_Done in H. done. }
  pose proof (freezable_active_permits _ _ _ _ _ _ E) as Hp. rewrite Hp in Hd.
  unfold active_permits in H. simpl in H. rewrite Hd in H. destruct (has_ended s2) eqn:E2; simpl in H.
  - apply Proc_bind_Done in H as ([] & p2 & _ & H).
    apply Proc_bind_Done in H as (c & p3 & _ & H). apply Proc_ret_Done in H. done.
  - apply Proc_ret_Done in H. simplify_eq/=. unfold has_ended in E2.
    destruct (armed s2); [auto|done].
Qed.
End Transition.

Lemma transition_installs_witness :
  ∃ current rt' p',
    apply PhysicalRootReplacement MapFs.sample_lease sample_binding (mkIdentity 9)
      PermitDrainSignal_new PermitDrainSignal_new (runtime_current sample_current)
      sample_process
    = Done ((Ok (mkTransitionReceipt PhysicalRootReplacement [Freeze; Drain; Install]),
             rt'), p') ∧
    live_publication rt' = Some current ∧ 1 ∈ revoked_leases p'.
Proof.
  destruct (transition_installs PhysicalRootReplacement MapFs.sample_lease sample_binding
              (mkIdentity 9) PermitDrainSignal_new (runtime_current sample_current)
              sample_process)
    as (c & rt' & p' & H1 & H2 & _ & _ & _ & _ & _ & H3 & _);
    [reflexivity|reflexivity|done|vm_compute; congruence|by vm_compute|].
  exists c, rt', p'. split; [exact H1|]. split; [exact H2|]. rewrite H3. set_solver.
Defined.

Lemma transition_refusal_leaves_no_trace_witness :
  ∃ e, apply Reload MapFs.sample_lease sample_binding (mkIdentity 9) PermitDrainSignal_new
         PermitDrainSignal_new (runtime_stopping None None) sample_process
       = Done ((Err e, runtime_stopping None None), sample_process).
Proof. apply transition_refusal_leaves_no_trace. right; right. reflexivity. Defined.

Lemma transition_late_refusal_witness :
  ∃ rt' p', apply Reload MapFs.sample_lease sample_binding (mkIdentity 9)
      PermitDrainSignal_new (arm PermitDrainSignal_new) (runtime_current sample_current)
      sample_process = Done ((Err OutstandingPermit, rt'), p') ∧
    live_publication rt' = None.
Proof.
  eexists _, _. split; [reflexivity|].
  apply (transition_late_refusal Reload MapFs.sample_lease sample_binding (mkIdentity 9)
           PermitDrainSignal_new (arm PermitDrainSignal_new) (runtime_current sample_current)
           sample_process _ (set_static NEXT_IDENTITY 6 sample_process)); reflexivity.
Defined.
