(* ===== verification/Capacity.v ===== *)
(** * Hierarchical capacity accounting

    Models src/src/index_lifecycle/capacity.rs: owner rows, the ledger, and the
    grants and permits that hold a charge until they are dropped.

    A [ProcessCapacityPool] is shared through an [Arc]; the pools live in a store
    keyed by the pool identity, which is what a grant's or a permit's [ledger]
    handle is here.  Grants and permits are owned values: consuming one is the
    caller giving it up, and an operation that drops one performs its [Drop]. *)

From Stdlib Require Import Lia NArith.
From stdpp Require Import base gmap sets list strings numbers option relations.
From S2P Require Import Prelude Identity.

#[local] Open Scope N_scope.

Record OwnerIdentity := mkOwner { owner_raw : N }.

#[global] Instance OwnerIdentity_eq_dec : EqDecision OwnerIdentity.
Proof. solve_decision. Defined.

#[global] Instance OwnerIdentity_countable : Countable OwnerIdentity.
Proof. apply (inj_countable' owner_raw mkOwner). by intros []. Defined.

Definition OwnerIdentity_fresh : Proc Process OwnerIdentity :=
  raw ← fresh_nonzero NEXT_OWNER; mret (mkOwner raw).

Record PoolIdentity := mkPoolIdentity { pool_raw : N }.

#[global] Instance PoolIdentity_eq_dec : EqDecision PoolIdentity.
Proof. solve_decision. Defined.

#[global] Instance PoolIdentity_countable : Countable PoolIdentity.
Proof. apply (inj_countable' pool_raw mkPoolIdentity). by intros []. Defined.

Definition PoolIdentity_fresh : Proc Process PoolIdentity :=
  raw ← fresh_nonzero NEXT_POOL; mret (mkPoolIdentity raw).

Inductive CapacityRefusal : Type :=
| Exhausted (requested available : N)
| ExceedsParent (requested available : N)
| HasChildren (children : nat)
| UnknownOwner
| ForeignGrant.

Record OwnerRow := mkOwnerRow {
  limit : N;
  row_charged : N;
  row_outstanding : gmap PublicationIdentity N;
  parent : option OwnerIdentity
}.

Record ProcessCapacityPool := mkPool {
  rows : gmap OwnerIdentity OwnerRow;
  unknown_refunds : N
}.

Record CapacityGrant := mkCapacityGrant {
  cgrant_owner : OwnerIdentity;
  cgrant_bytes : N;
  cgrant_charge : PublicationIdentity;
  cgrant_pool : PoolIdentity;
  cgrant_ledger : PoolIdentity;
  redeemed : bool
}.

Record CapacityPermit := mkCapacityPermit {
  cpermit_owner : OwnerIdentity;
  cpermit_bytes : N;
  cpermit_charge : PublicationIdentity;
  cpermit_ledger : PoolIdentity;
  refunded : bool
}.

Abbreviation Pools := (gmap PoolIdentity ProcessCapacityPool).

(** ** Operations of one ledger *)

Definition pool_default : ProcessCapacityPool := mkPool ∅ 0.

Definition pool_new (pools : Pools) : Proc Process (PoolIdentity * Pools) :=
  identity ← PoolIdentity_fresh;
  mret (identity, <[identity := pool_default]> pools).

Definition with_rows (pool : ProcessCapacityPool) (r : gmap OwnerIdentity OwnerRow)
  : ProcessCapacityPool := mkPool r (unknown_refunds pool).

Definition headroom (row : OwnerRow) : N := saturating_sub (limit row) (row_charged row).

Definition root (lim : N) (pool : ProcessCapacityPool)
  : Proc Process (OwnerIdentity * ProcessCapacityPool) :=
  identity ← OwnerIdentity_fresh;
  mret (identity, with_rows pool (<[identity := mkOwnerRow lim 0 ∅ None]> (rows pool))).

Definition charge_row (amount : N) (row : OwnerRow) : OwnerRow :=
  mkOwnerRow (limit row) (u64_add (row_charged row) amount) (row_outstanding row)
             (parent row).

Definition child (par : OwnerIdentity) (lim : N) (pool : ProcessCapacityPool)
  : Proc Process (Result OwnerIdentity CapacityRefusal * ProcessCapacityPool) :=
  let available := default 0 (headroom <$> rows pool !! par) in
  if decide (available < lim) then mret (Err (ExceedsParent lim available), pool)
  else
    let rows' := alter (charge_row lim) par (rows pool) in
    identity ← OwnerIdentity_fresh;
    mret (Ok identity,
          with_rows pool (<[identity := mkOwnerRow lim 0 ∅ (Some par)]> rows')).

Definition reserve (self : PoolIdentity) (owner : OwnerIdentity) (bytes : N)
    (pool : ProcessCapacityPool)
  : Proc Process (Result CapacityGrant CapacityRefusal * ProcessCapacityPool) :=
  match rows pool !! owner with
  | None => mret (Err UnknownOwner, pool)
  | Some row =>
      let available := headroom row in
      if decide (available < bytes) then mret (Err (Exhausted bytes available), pool)
      else
        charge ← fresh KPublication;
        let row := mkOwnerRow (limit row) (u64_add (row_charged row) bytes)
                     (<[charge := bytes]> (row_outstanding row)) (parent row) in
        mret (Ok (mkCapacityGrant owner bytes charge self self false),
              with_rows pool (<[owner := row]> (rows pool)))
  end.

Definition charged (pool : ProcessCapacityPool) (owner : OwnerIdentity) : N :=
  default 0 (row_charged <$> rows pool !! owner).

Definition available (pool : ProcessCapacityPool) (owner : OwnerIdentity) : N :=
  default 0 (headroom <$> rows pool !! owner).

Definition outstanding_charges (pool : ProcessCapacityPool) (owner : OwnerIdentity) : nat :=
  default 0%nat ((λ row, size (row_outstanding row)) <$> rows pool !! owner).

(** How many rows name [owner] as their parent. *)
Definition count_children (owner : OwnerIdentity) (r : gmap OwnerIdentity OwnerRow) : nat :=
  size (filter (λ kv, parent (snd kv) = Some owner) r).

Definition release_owner (owner : OwnerIdentity) (pool : ProcessCapacityPool)
  : Result N CapacityRefusal * ProcessCapacityPool :=
  match rows pool !! owner with
  | None => (Err UnknownOwner, pool)
  | Some row =>
      if decide (row_outstanding row ≠ ∅) then (Err (Exhausted 0 (headroom row)), pool)
      else
        let children := count_children owner (rows pool) in
        if decide (0 < children)%nat then (Err (HasChildren children), pool)
        else
          match parent row with
          | Some par =>
              match rows pool !! par with
              | None => (Err UnknownOwner, pool)
              | Some _ =>
                  (Ok (limit row),
                   with_rows pool
                     (alter (λ r, mkOwnerRow (limit r)
                                    (saturating_sub (row_charged r) (limit row))
                                    (row_outstanding r) (parent r))
                            par (delete owner (rows pool))))
              end
          | None => (Ok (limit row), with_rows pool (delete owner (rows pool)))
          end
  end.

(** The [bytes] argument of [refund] only feeds a [debug_assert_eq!], which the
    release profile compiles out. *)
Definition refund (owner : OwnerIdentity) (charge : PublicationIdentity)
    (pool : ProcessCapacityPool) : N * ProcessCapacityPool :=
  let unknown := mkPool (rows pool) (u64_add (unknown_refunds pool) 1) in
  match rows pool !! owner with
  | None => (0, unknown)
  | Some row =>
      match row_outstanding row !! charge with
      | Some recorded =>
          (recorded,
           with_rows pool
             (<[owner := mkOwnerRow (limit row)
                           (saturating_sub (row_charged row) recorded)
                           (delete charge (row_outstanding row)) (parent row)]>
                (rows pool)))
      | None => (0, unknown)
      end
  end.

(** ** Grants and permits *)

(** A refund through an [Arc] handle on a ledger of the store. *)
Definition refund_at (ledger : PoolIdentity) (owner : OwnerIdentity)
    (charge : PublicationIdentity) (pools : Pools) : N * Pools :=
  match pools !! ledger with
  | None => (0, pools)
  | Some pool => let '(n, pool) := refund owner charge pool in (n, <[ledger := pool]> pools)
  end.

(** [Drop for CapacityGrant]. *)
Definition cgrant_drop (grant : CapacityGrant) (pools : Pools) : Pools :=
  if redeemed grant then pools
  else snd (refund_at (cgrant_ledger grant) (cgrant_owner grant) (cgrant_charge grant) pools).

(** [Drop for CapacityPermit]. *)
Definition cpermit_drop (permit : CapacityPermit) (pools : Pools) : Pools :=
  if refunded permit then pools
  else snd (refund_at (cpermit_ledger permit) (cpermit_owner permit)
                      (cpermit_charge permit) pools).

(** [CapacityPermit::release]: the refund, then the drop of a refunded permit. *)
Definition release (permit : CapacityPermit) (pools : Pools) : N * Pools :=
  let '(n, pools) := refund_at (cpermit_ledger permit) (cpermit_owner permit)
                               (cpermit_charge permit) pools in
  let permit := mkCapacityPermit (cpermit_owner permit) (cpermit_bytes permit)
                  (cpermit_charge permit) (cpermit_ledger permit) true in
  (n, cpermit_drop permit pools).

(** [redeem] consumes the grant: a refused one is dropped un-redeemed, an
    accepted one is dropped redeemed. *)
Definition redeem (self : PoolIdentity) (grant : CapacityGrant) (pools : Pools)
  : Result CapacityPermit CapacityRefusal * Pools :=
  if decide (cgrant_pool grant ≠ self) then (Err ForeignGrant, cgrant_drop grant pools)
  else
    let grant := mkCapacityGrant (cgrant_owner grant) (cgrant_bytes grant)
                   (cgrant_charge grant) (cgrant_pool grant) (cgrant_ledger grant) true in
    (Ok (mkCapacityPermit (cgrant_owner grant) (cgrant_bytes grant) (cgrant_charge grant)
                          self false),
     cgrant_drop grant pools).

(** ** The ledger invariant *)

Definition total (m : gmap PublicationIdentity N) : N := map_sum (λ _ n, n) m.

(** The limits promised to the children of [o]. *)
Definition child_limits (o : OwnerIdentity) (r : gmap OwnerIdentity OwnerRow) : N :=
  map_sum (λ _ row, if decide (parent row = Some o) then limit row else 0) r.

(** Row [o]: what is charged is what is outstanding plus what was promised, and
    it fits the limit; a row whose parent this ledger does not have promises
    nothing. *)
Record row_ok (next : N) (r : gmap OwnerIdentity OwnerRow) (o : OwnerIdentity)
    (row : OwnerRow) : Prop := mk_row_ok {
  row_conserved : row_charged row = total (row_outstanding row) + child_limits o r;
  row_bounded : row_charged row ≤ limit row;
  row_width : in_u64 (limit row);
  row_below : below next (owner_raw o);
  row_orphan : ∀ par, parent row = Some par → r !! par = None → limit row = 0
}.

Definition rows_ok (next : N) (r : gmap OwnerIdentity OwnerRow) : Prop :=
  ∀ o row, r !! o = Some row → row_ok next r o row.

Definition pool_ok (next : N) (pool : ProcessCapacityPool) : Prop :=
  rows_ok next (rows pool) ∧ unknown_refunds pool = 0.

Lemma child_limits_insert o k row r :
  r !! k = None →
  child_limits o (<[k := row]> r)
  = (if decide (parent row = Some o) then limit row else 0) + child_limits o r.
Proof. intros. unfold child_limits. by rewrite map_sum_insert. Qed.

Lemma child_limits_update o k row row' r :
  r !! k = Some row → limit row' = limit row → parent row' = parent row →
  child_limits o (<[k := row']> r) = child_limits o r.
Proof.
  intros Hk Hl Hp. unfold child_limits.
  pose proof (map_sum_update (λ _ row, if decide (parent row = Some o) then limit row else 0)
                r k row row' Hk) as H. simpl in H. rewrite Hl, Hp in H. lia.
Qed.

Lemma child_limits_delete o k row r :
  r !! k = Some row →
  child_limits o r
  = (if decide (parent row = Some o) then limit row else 0) + child_limits o (delete k r).
Proof. intros. unfold child_limits. by erewrite map_sum_delete. Qed.

(** Nothing is promised on behalf of an owner the ledger does not have. *)
Lemma child_limits_absent next o r : rows_ok next r → r !! o = None → child_limits o r = 0.
Proof.
  intros Hok Ho. apply map_sum_zero. intros k row Hk. case_decide; [|done].
  by eapply row_orphan; [apply Hok|..].
Qed.

Lemma rows_ok_weaken next next' r :
  (∀ i, below next i → below next' i) → rows_ok next r → rows_ok next' r.
Proof. intros Hn Hr o row Ho. destruct (Hr o row Ho). by constructor; auto. Qed.

(** Changing what a row has charged, by as much as what it has outstanding. *)
Lemma rows_ok_update next r o row row' :
  rows_ok next r → r !! o = Some row → limit row' = limit row → parent row' = parent row →
  row_charged row' + total (row_outstanding row)
    = row_charged row + total (row_outstanding row') →
  row_charged row' ≤ limit row →
  rows_ok next (<[o := row']> r).
Proof.
  intros Hr Ho Hl Hp Hc Hle k krow Hk.
  assert (∀ q, child_limits q (<[o := row']> r) = child_limits q r) as Hcl.
  { intros q. by eapply child_limits_update. }
  destruct (Hr o row Ho) as [Hcons Hb Hw Hbel Horph].
  destruct (decide (k = o)) as [->|Hne].
  - rewrite lookup_insert_eq in Hk. simplify_eq. constructor; rewrite ?Hcl, ?Hl; auto; try lia.
    intros par Hpar Hnone. apply (Horph par); [congruence|].
    apply lookup_insert_None in Hnone as [? ?]. done.
  - rewrite lookup_insert_ne in Hk by done. destruct (Hr k krow Hk) as [H1 H2 H3 H4 H5].
    constructor; rewrite ?Hcl; auto. intros par Hpar Hnone.
    apply lookup_insert_None in Hnone as [? ?]. eauto.
Qed.

(** A fresh row with nothing outstanding and nothing charged. *)
Lemma rows_ok_insert next r o lim par :
  rows_ok next r → r !! o = None → in_u64 lim → below next (owner_raw o) →
  (∀ q, par = Some q → lim = 0) →
  rows_ok next (<[o := mkOwnerRow lim 0 ∅ par]> r).
Proof.
  intros Hr Ho Hw Hb Hz k krow Hk.
  assert (∀ q, child_limits q (<[o := mkOwnerRow lim 0 ∅ par]> r) = child_limits q r) as Hcl.
  { intros q. rewrite child_limits_insert by done. simpl. case_decide; [|done].
    by rewrite (Hz q). }
  destruct (decide (k = o)) as [->|Hne].
  - rewrite lookup_insert_eq in Hk. simplify_eq. constructor; rewrite ?Hcl; simpl; auto; try lia.
    { rewrite (child_limits_absent next) by done. unfold total. by rewrite map_sum_empty. }
    intros q Hq _. by apply (Hz q).
  - rewrite lookup_insert_ne in Hk by done. destruct (Hr k krow Hk) as [H1 H2 H3 H4 H5].
    constructor; rewrite ?Hcl; auto. intros q Hq Hnone.
    apply lookup_insert_None in Hnone as [? ?]. eauto.
Qed.

(** A fresh child row, its limit charged to its parent. *)
Lemma rows_ok_insert_child next r o lim par prow :
  rows_ok next r → r !! o = None → r !! par = Some prow → below next (owner_raw o) →
  row_charged prow + lim ≤ limit prow →
  rows_ok next (<[o := mkOwnerRow lim 0 ∅ (Some par)]>
                  (<[par := charge_row lim prow]> r)).
Proof.
  intros Hr Ho Hpar Hb Hle k krow Hk.
  assert (o ≠ par) as Hop by congruence.
  destruct (Hr par prow Hpar) as [P1 P2 P3 P4 P5].
  assert (∀ q, child_limits q (<[o := mkOwnerRow lim 0 ∅ (Some par)]>
                  (<[par := charge_row lim prow]> r))
               = (if decide (q = par) then lim else 0) + child_limits q r) as Hcl.
  { intros q. rewrite child_limits_insert by (by rewrite lookup_insert_ne).
    rewrite (child_limits_update q par prow) by done. simpl.
    do 2 case_decide; congruence || done. }
  assert (∀ q, (<[o := mkOwnerRow lim 0 ∅ (Some par)]> (<[par := charge_row lim prow]> r))
                 !! q = None → r !! q = None ∧ q ≠ par) as Hnone.
  { intros q [[? ?]%lookup_insert_None ?]%lookup_insert_None. auto. }
  destruct (decide (k = o)) as [->|Hne]; [|destruct (decide (k = par)) as [->|Hnp]].
  - rewrite lookup_insert_eq in Hk. simplify_eq. constructor; rewrite ?Hcl; simpl; auto.
    + rewrite decide_False by done. rewrite (child_limits_absent next) by done.
      unfold total. by rewrite map_sum_empty.
    + lia.
    + unfold in_u64 in *. lia.
    + intros q Hq Hn. simplify_eq. by apply Hnone in Hn as [? ?].
  - rewrite lookup_insert_ne, lookup_insert_eq in Hk by done. simplify_eq.
    unfold in_u64 in P3. constructor; rewrite ?Hcl; simpl; auto.
    + rewrite u64_add_small by lia. rewrite decide_True by done. lia.
    + rewrite u64_add_small by lia. done.
    + intros q Hq Hn. apply Hnone in Hn as [? ?]. eauto.
  - rewrite !lookup_insert_ne in Hk by done. destruct (Hr k krow Hk) as [H1 H2 H3 H4 H5].
    constructor; rewrite ?Hcl; auto.
    + by rewrite decide_False.
    + intros q Hq Hn. apply Hnone in Hn as [? ?]. eauto.
Qed.

Lemma count_children_zero o r :
  count_children o r = 0%nat → ∀ k row, r !! k = Some row → parent row ≠ Some o.
Proof.
  intros H k row Hk Hp. apply map_size_empty_inv in H.
  assert (filter (λ kv, parent (snd kv) = Some o) r !! k = Some row) as Hf.
  { by apply map_lookup_filter_Some. }
  rewrite H in Hf. done.
Qed.

(** Removing a childless row with nothing outstanding and returning its limit to
    its parent. *)
Lemma rows_ok_release next r o row par prow :
  rows_ok next r → r !! o = Some row → row_outstanding row = ∅ →
  count_children o r = 0%nat → parent row = Some par → r !! par = Some prow →
  rows_ok next
    (<[par := mkOwnerRow (limit prow) (row_charged prow - limit row)
                (row_outstanding prow) (parent prow)]> (delete o r)).
Proof.
  intros Hr Ho Hout Hcount Hpar Hp k krow Hk.
  assert (par ≠ o) as Hne.
  { intros ->. exact (count_children_zero _ _ Hcount _ _ Ho Hpar). }
  assert (∀ q, (if decide (par = q) then limit row else 0)
    + child_limits q (<[par := mkOwnerRow (limit prow) (row_charged prow - limit row)
                (row_outstanding prow) (parent prow)]> (delete o r)) = child_limits q r)
    as Hcl.
  { intros q. rewrite (child_limits_update q par prow), (child_limits_delete q o row r);
      [rewrite Hpar|done|by rewrite lookup_delete_ne|done|done].
    do 2 case_decide; congruence || done. }
  assert (∀ q krow, r !! k = Some krow → parent krow = Some q →
    <[par := mkOwnerRow (limit prow) (row_charged prow - limit row)
                (row_outstanding prow) (parent prow)]> (delete o r) !! q = None →
    limit krow = 0) as Horph.
  { intros q krow' Hk' Hq [Hn Hq']%lookup_insert_None.
    apply lookup_delete_None in Hn as [->|Hn].
    - by apply (count_children_zero _ _ Hcount _ _ Hk') in Hq.
    - by eapply (row_orphan _ _ _ _ (Hr _ _ Hk')). }
  specialize (Hcl k).
  destruct (decide (k = par)) as [->|Hkp].
  - rewrite lookup_insert_eq in Hk. simplify_eq. destruct (Hr par prow Hp) as [H1 H2 H3 H4 H5].
    rewrite decide_True in Hcl by done. constructor; simpl; auto; try lia.
    intros q Hq Hn. by eapply (Horph q prow).
  - rewrite lookup_insert_ne in Hk by done.
    apply lookup_delete_Some in Hk as [Hko Hk]. destruct (Hr k krow Hk) as [H1 H2 H3 H4 H5].
    rewrite decide_False in Hcl by done. constructor; auto; try lia.
    intros q Hq Hn. by eapply Horph.
Qed.

Lemma rows_ok_release_root next r o row :
  rows_ok next r → r !! o = Some row → count_children o r = 0%nat → parent row = None →
  rows_ok next (delete o r).
Proof.
  intros Hr Ho Hcount Hpar k krow [Hko Hk]%lookup_delete_Some.
  destruct (Hr k krow Hk) as [H1 H2 H3 H4 H5]. constructor; auto.
  - rewrite H1. f_equal. rewrite (child_limits_delete k o row r Ho), Hpar.
    by rewrite decide_False by done.
  - intros q Hq Hn. apply lookup_delete_None in Hn as [->|Hn]; [|eauto].
    by apply (count_children_zero _ _ Hcount _ _ Hk) in Hq.
Qed.

(** Each ledger operation keeps the ledger; a panic of an exhausted counter is
    not an outcome to preserve. *)
Lemma OwnerIdentity_fresh_Done p o p' :
  OwnerIdentity_fresh p = Done (o, p') →
  fresh_nonzero NEXT_OWNER p = Done (owner_raw o, p').
Proof.
  unfold OwnerIdentity_fresh. intros H.
  apply Proc_bind_Done in H as (raw & s & H & Hr). apply Proc_ret_Done in Hr.
  by simplify_eq.
Qed.

Lemma rows_fresh next r o :
  next ≠ 0 → rows_ok next r → owner_raw o = next → r !! o = None.
Proof.
  intros Hz Hr Ho. destruct (r !! o) as [row|] eqn:E; [|done].
  pose proof (row_below _ _ _ _ (Hr o row E)) as Hb. apply below_fresh in Hb; congruence.
Qed.

Lemma mint_owner p o p' pool :
  wf_statics p → OwnerIdentity_fresh p = Done (o, p') →
  pool_ok (statics p NEXT_OWNER) pool →
  pool_ok (statics p' NEXT_OWNER) pool ∧ rows pool !! o = None ∧
  below (statics p' NEXT_OWNER) (owner_raw o).
Proof.
  intros Hwf H [Hr Hu]. apply OwnerIdentity_fresh_Done in H.
  pose proof H as (Ho & Hz & _)%fresh_nonzero_Done.
  apply fresh_nonzero_minted in H as (_ & Hb & Hmono & _); [|done].
  split; [|split; [eapply rows_fresh; [|exact Hr|exact Ho]; congruence|done]].
  split; [|done]. eapply rows_ok_weaken; [|done]. intros i Hi. by apply Hmono.
Qed.

Lemma root_ok lim pool p o pool' p' :
  wf_statics p → in_u64 lim → pool_ok (statics p NEXT_OWNER) pool →
  root lim pool p = Done ((o, pool'), p') →
  pool_ok (statics p' NEXT_OWNER) pool'.
Proof.
  intros Hwf Hw Hok H. unfold root in H.
  apply Proc_bind_Done in H as (o' & p1 & Hf & H). apply Proc_ret_Done in H. simplify_eq.
  destruct (mint_owner _ _ _ _ Hwf Hf Hok) as ([Hr Hu] & Hnone & Hb).
  split; [|done]. simpl. apply rows_ok_insert; auto. done.
Qed.

Lemma child_ok par lim pool p res pool' p' :
  wf_statics p → in_u64 lim → pool_ok (statics p NEXT_OWNER) pool →
  child par lim pool p = Done ((res, pool'), p') →
  pool_ok (statics p' NEXT_OWNER) pool'.
Proof.
  intros Hwf Hw Hok H. unfold child in H.
  case_decide as Hle; [apply Proc_ret_Done in H; by simplify_eq|].
  apply Proc_bind_Done in H as (o' & p1 & Hf & H). apply Proc_ret_Done in H. simplify_eq.
  destruct (mint_owner _ _ _ _ Hwf Hf Hok) as ([Hr Hu] & Hnone & Hb).
  split; [|done]. simpl. destruct (rows pool !! par) as [prow|] eqn:Hp; simpl in Hle.
  - rewrite (alter_present _ _ _ _ Hp). apply (rows_ok_insert_child _ _ _ _ _ _ Hr); auto.
    destruct (Hr _ _ Hp). unfold headroom, saturating_sub in Hle. lia.
  - rewrite (alter_absent _ _ _ Hp). apply rows_ok_insert; auto. intros. lia.
Qed.

Lemma total_insert m c n : m !! c = None → total (<[c := n]> m) = n + total m.
Proof. intros. unfold total. by rewrite map_sum_insert. Qed.

Lemma total_delete m c n : m !! c = Some n → total m = n + total (delete c m).
Proof. intros. unfold total. by erewrite map_sum_delete. Qed.

Lemma release_owner_ok next o pool :
  pool_ok next pool → pool_ok next (snd (release_owner o pool)).
Proof.
  intros [Hr Hu]. unfold release_owner.
  destruct (rows pool !! o) as [row|] eqn:Ho; [|done].
  case_decide as Hout; [done|].
  case_decide as Hc; [done|]. assert (count_children o (rows pool) = 0%nat) as Hc' by lia.
  destruct (parent row) as [par|] eqn:Hp.
  - destruct (rows pool !! par) as [prow|] eqn:Hpar; [|done]. split; [|done]. simpl.
    rewrite (alter_present _ _ _ prow).
    + by apply (rows_ok_release _ _ _ row).
    + rewrite lookup_delete_ne; [done|]. intros ->.
      exact (count_children_zero _ _ Hc' _ _ Ho Hp).
  - split; [|done]. by eapply rows_ok_release_root.
Qed.

(** ** Runs over shared ledgers

    The world holds the process counters, the ledgers, and the grants and permits
    that are alive, by the charge they name.  A step is one public call, the drop
    of a held value, or an identity minted elsewhere in the process. *)

Inductive Token : Type :=
| HeldGrant (g : CapacityGrant)
| HeldPermit (p : CapacityPermit).

Definition token_place (t : Token) : PoolIdentity * OwnerIdentity :=
  match t with
  | HeldGrant g => (cgrant_ledger g, cgrant_owner g)
  | HeldPermit p => (cpermit_ledger p, cpermit_owner p)
  end.

Definition token_bytes (t : Token) : N :=
  match t with HeldGrant g => cgrant_bytes g | HeldPermit p => cpermit_bytes p end.

Definition token_charge (t : Token) : PublicationIdentity :=
  match t with HeldGrant g => cgrant_charge g | HeldPermit p => cpermit_charge p end.

(** A held value still owns its refund, and a grant's pool is its ledger. *)
Definition token_live (t : Token) : Prop :=
  match t with
  | HeldGrant g => redeemed g = false ∧ cgrant_pool g = cgrant_ledger g
  | HeldPermit p => refunded p = false
  end.

Definition token_drop (t : Token) (pools : Pools) : Pools :=
  match t with HeldGrant g => cgrant_drop g pools | HeldPermit p => cpermit_drop p pools end.

Record CapacityWorld := mkWorld {
  cw_process : Process;
  cw_pools : Pools;
  cw_held : gmap PublicationIdentity Token
}.

Definition capacity_start (p : Process) : CapacityWorld := mkWorld p ∅ ∅.

Inductive capacity_step : CapacityWorld → CapacityWorld → Prop :=
| cap_mint p pools held k (i : Identity k) p' :
    fresh k p = Done (i, p') →
    capacity_step (mkWorld p pools held) (mkWorld p' pools held)
| cap_new p pools held i pools' p' :
    pool_new pools p = Done ((i, pools'), p') →
    capacity_step (mkWorld p pools held) (mkWorld p' pools' held)
| cap_root p pools held i pool lim o pool' p' :
    pools !! i = Some pool → in_u64 lim → root lim pool p = Done ((o, pool'), p') →
    capacity_step (mkWorld p pools held) (mkWorld p' (<[i := pool']> pools) held)
| cap_child p pools held i pool par lim r pool' p' :
    pools !! i = Some pool → in_u64 lim → child par lim pool p = Done ((r, pool'), p') →
    capacity_step (mkWorld p pools held) (mkWorld p' (<[i := pool']> pools) held)
| cap_reserve p pools held i pool owner bytes r pool' p' :
    pools !! i = Some pool → reserve i owner bytes pool p = Done ((r, pool'), p') →
    capacity_step (mkWorld p pools held)
      (mkWorld p' (<[i := pool']> pools)
        (match r with Ok g => <[cgrant_charge g := HeldGrant g]> held | Err _ => held end))
| cap_redeem p pools held self c g r pools' :
    held !! c = Some (HeldGrant g) → redeem self g pools = (r, pools') →
    capacity_step (mkWorld p pools held)
      (mkWorld p pools'
        (match r with Ok pm => <[c := HeldPermit pm]> held | Err _ => delete c held end))
| cap_drop p pools held c t :
    held !! c = Some t →
    capacity_step (mkWorld p pools held) (mkWorld p (token_drop t pools) (delete c held))
| cap_release p pools held c pm n pools' :
    held !! c = Some (HeldPermit pm) → release pm pools = (n, pools') →
    capacity_step (mkWorld p pools held) (mkWorld p pools' (delete c held))
| cap_release_owner p pools held i pool owner :
    pools !! i = Some pool →
    capacity_step (mkWorld p pools held)
      (mkWorld p (<[i := snd (release_owner owner pool)]> pools) held).

(** What the ledgers record for a charge, and what the live holders say. *)
Definition recorded (pools : Pools) (i : PoolIdentity) (o : OwnerIdentity)
    (c : PublicationIdentity) : option N :=
  pool ← pools !! i; row ← rows pool !! o; row_outstanding row !! c.

Definition held_at (held : gmap PublicationIdentity Token) (i : PoolIdentity)
    (o : OwnerIdentity) (c : PublicationIdentity) : option N :=
  t ← held !! c; if decide (token_place t = (i, o)) then Some (token_bytes t) else None.

Record world_ok (w : CapacityWorld) : Prop := mk_world_ok {
  ok_statics : wf_statics (cw_process w);
  ok_pools : ∀ i pool, cw_pools w !! i = Some pool →
    pool_ok (statics (cw_process w) NEXT_OWNER) pool ∧
    below (statics (cw_process w) NEXT_POOL) (pool_raw i);
  ok_held : ∀ c t, cw_held w !! c = Some t →
    token_charge t = c ∧ token_live t ∧
    below (statics (cw_process w) NEXT_IDENTITY) (raw_for_render c);
  ok_agree : ∀ i o c, recorded (cw_pools w) i o c = held_at (cw_held w) i o c
}.

(** A recorded charge can be refunded: the ledger stays sound and only that
    charge disappears. *)
Lemma refund_recorded next pool o row c n :
  pool_ok next pool → rows pool !! o = Some row → row_outstanding row !! c = Some n →
  ∃ pool', refund o c pool = (n, pool') ∧ pool_ok next pool' ∧
    rows pool' = <[o := mkOwnerRow (limit row) (row_charged row - n)
                          (delete c (row_outstanding row)) (parent row)]> (rows pool).
Proof.
  intros [Hr Hu] Ho Hc. unfold refund. rewrite Ho, Hc. eexists. split; [done|].
  split; [|done]. split; [|done]. simpl.
  pose proof (total_delete _ _ _ Hc) as Ht. destruct (Hr o row Ho) as [H1 H2 H3 H4 H5].
  unfold saturating_sub. apply (rows_ok_update _ _ _ row); simpl; auto; lia.
Qed.

Lemma recorded_update pools i pool pool' o row' j o' c :
  pools !! i = Some pool → rows pool' = <[o := row']> (rows pool) →
  recorded (<[i := pool']> pools) j o' c
  = if decide ((j, o') = (i, o)) then row_outstanding row' !! c else recorded pools j o' c.
Proof.
  intros Hi Hrows. unfold recorded. destruct (decide (j = i)) as [->|Hji].
  - rewrite lookup_insert_eq, Hi. simpl. rewrite Hrows.
    destruct (decide (o' = o)) as [->|Hoo].
    + by rewrite lookup_insert_eq, decide_True.
    + rewrite lookup_insert_ne by done. by rewrite decide_False by congruence.
  - rewrite lookup_insert_ne by done. by rewrite decide_False by congruence.
Qed.

Lemma recorded_same pools i pool pool' j o' c :
  pools !! i = Some pool →
  (∀ o, row_outstanding <$> rows pool' !! o = row_outstanding <$> rows pool !! o
        ∨ (rows pool !! o = None ∧ row_outstanding <$> rows pool' !! o = Some ∅)
        ∨ (row_outstanding <$> rows pool !! o = Some ∅ ∧ rows pool' !! o = None)) →
  recorded (<[i := pool']> pools) j o' c = recorded pools j o' c.
Proof.
  intros Hi Hrows. unfold recorded. destruct (decide (j = i)) as [->|Hji].
  2:{ by rewrite lookup_insert_ne. }
  rewrite lookup_insert_eq, Hi. simpl.
  destruct (Hrows o') as [H|[[H1 H2]|[H1 H2]]].
  - destruct (rows pool' !! o') as [r1|], (rows pool !! o') as [r2|]; simplify_eq/=; congruence.
  - rewrite H1. destruct (rows pool' !! o') as [r1|]; simplify_eq/=. by rewrite H2, lookup_empty.
  - rewrite H2. destruct (rows pool !! o') as [r1|]; simplify_eq/=. by rewrite H1, lookup_empty.
Qed.

Lemma refund_at_recorded p pools held c t :
  world_ok (mkWorld p pools held) → held !! c = Some t →
  ∃ pools', refund_at (fst (token_place t)) (snd (token_place t)) c pools
            = (token_bytes t, pools') ∧
            world_ok (mkWorld p pools' (delete c held)).
Proof.
  intros [Hst Hp Hh Ha] Hc. simpl in *.
  set (i := fst (token_place t)). set (o := snd (token_place t)).
  pose proof (Ha i o c) as Hrec. unfold held_at in Hrec. rewrite Hc in Hrec. simpl in Hrec.
  rewrite decide_True in Hrec by (apply surjective_pairing).
  unfold recorded in Hrec. apply bind_Some in Hrec as (pool & Hi & Hrec).
  apply bind_Some in Hrec as (row & Ho & Hrow).
  destruct (Hp i pool Hi) as [Hok Hb].
  destruct (refund_recorded _ _ _ _ _ _ Hok Ho Hrow) as (pool' & Href & Hok' & Hrows).
  exists (<[i := pool']> pools). unfold refund_at. rewrite Hi, Href. split; [done|].
  constructor; simpl; auto.
  - intros j pj Hj. destruct (decide (j = i)) as [->|Hne].
    + rewrite lookup_insert_eq in Hj. by simplify_eq.
    + rewrite lookup_insert_ne in Hj by done. auto.
  - intros c' t' [Hne Hc']%lookup_delete_Some. auto.
  - intros j o' c'. rewrite (recorded_update _ _ _ _ _ _ _ _ _ Hi Hrows), Ha. simpl.
    unfold held_at. destruct (decide (c' = c)) as [->|Hcc].
    + rewrite !lookup_delete_eq, Hc. simpl. case_decide as Hj; [done|].
      rewrite decide_False; [done|]. unfold i, o in Hj. rewrite <-surjective_pairing in Hj.
      congruence.
    + rewrite !lookup_delete_ne by done. case_decide as Hj; [|done].
      simplify_eq. specialize (Ha i o c'). unfold recorded in Ha.
      rewrite Hi in Ha. simpl in Ha. rewrite Ho in Ha. exact Ha.
Qed.

(** Every counter only moves forward, and stays in its width. *)
Definition advances (p p' : Process) : Prop :=
  wf_statics p → wf_statics p' ∧ ∀ k i, below (statics p k) i → below (statics p' k) i.

Lemma advances_refl p : advances p p.
Proof. intros H. auto. Qed.

Lemma advances_mint k p r p' : fresh_nonzero k p = Done (r, p') → advances p p'.
Proof.
  intros H Hwf. destruct (fresh_nonzero_minted _ _ _ _ Hwf H) as (Hwf' & _ & Hm & Ho & _).
  split; [done|]. intros k' i Hi. destruct (decide (k' = k)) as [->|Hne].
  - by apply Hm.
  - by rewrite Ho.
Qed.

Lemma advances_fresh k p (i : Identity k) p' : fresh k p = Done (i, p') → advances p p'.
Proof.
  unfold fresh, next_identity. intros H. apply Proc_bind_Done in H as (r & s & H & Hr).
  apply Proc_ret_Done in Hr. simplify_eq. by eapply advances_mint.
Qed.

Lemma advances_owner p o p' : OwnerIdentity_fresh p = Done (o, p') → advances p p'.
Proof. intros H%OwnerIdentity_fresh_Done. by eapply advances_mint. Qed.

Lemma pool_ok_weaken p p' pool :
  wf_statics p → advances p p' →
  pool_ok (statics p NEXT_OWNER) pool → pool_ok (statics p' NEXT_OWNER) pool.
Proof.
  intros Hwf [_ Hm]%(λ H, H Hwf) [Hr Hu]. split; [|done].
  eapply rows_ok_weaken; [|done]. intros i. apply Hm.
Qed.

(** One ledger changes, no charge does. *)
Lemma world_ok_pool p pools held p' i pool pool' :
  world_ok (mkWorld p pools held) → pools !! i = Some pool → advances p p' →
  pool_ok (statics p' NEXT_OWNER) pool' →
  (∀ j o c, recorded (<[i := pool']> pools) j o c = recorded pools j o c) →
  world_ok (mkWorld p' (<[i := pool']> pools) held).
Proof.
  intros [Hst Hp Hh Ha] Hi Hadv Hok Hrec. simpl in *.
  pose proof (Hadv Hst) as [Hst' Hm]. constructor; simpl; auto.
  - intros j pj Hj. destruct (decide (j = i)) as [->|Hne].
    + rewrite lookup_insert_eq in Hj. simplify_eq. split; [done|]. apply Hm. by eapply Hp.
    + rewrite lookup_insert_ne in Hj by done. destruct (Hp _ _ Hj).
      split; [by apply (pool_ok_weaken p)|by apply Hm].
  - intros c t Hc. destruct (Hh c t Hc) as (? & ? & ?). auto.
  - intros j o c. by rewrite Hrec.
Qed.

Lemma root_outstanding lim pool p o pool' p' :
  root lim pool p = Done ((o, pool'), p') → rows pool !! o = None →
  ∀ q, row_outstanding <$> rows pool' !! q = row_outstanding <$> rows pool !! q
       ∨ (rows pool !! q = None ∧ row_outstanding <$> rows pool' !! q = Some ∅)
       ∨ (row_outstanding <$> rows pool !! q = Some ∅ ∧ rows pool' !! q = None).
Proof.
  unfold root. intros H Hnone q. apply Proc_bind_Done in H as (o' & p1 & Hf & H).
  apply Proc_ret_Done in H. simplify_eq/=. destruct (decide (q = o')) as [->|Hne].
  - rewrite lookup_insert_eq. auto.
  - rewrite lookup_insert_ne by done. auto.
Qed.

Lemma world_ok_root p pools held i pool lim o pool' p' :
  world_ok (mkWorld p pools held) → pools !! i = Some pool → in_u64 lim →
  root lim pool p = Done ((o, pool'), p') →
  world_ok (mkWorld p' (<[i := pool']> pools) held).
Proof.
  intros Hw Hi Hl H. pose proof Hw as [Hst Hp _ _]. simpl in *.
  destruct (Hp _ _ Hi) as [Hok _]. pose proof H as H'. unfold root in H'.
  apply Proc_bind_Done in H' as (o' & p1 & Hf & H'). apply Proc_ret_Done in H'. simplify_eq.
  destruct (mint_owner _ _ _ _ Hst Hf Hok) as (_ & Hnone & _).
  eapply world_ok_pool; eauto using advances_owner, root_ok.
  intros j q c. eapply recorded_same; [done|]. by eapply root_outstanding.
Qed.

Lemma world_ok_child p pools held i pool par lim r pool' p' :
  world_ok (mkWorld p pools held) → pools !! i = Some pool → in_u64 lim →
  child par lim pool p = Done ((r, pool'), p') →
  world_ok (mkWorld p' (<[i := pool']> pools) held).
Proof.
  intros Hw Hi Hl H. pose proof Hw as [Hst Hp _ _]. simpl in *.
  destruct (Hp _ _ Hi) as [Hok _]. pose proof (child_ok _ _ _ _ _ _ _ Hst Hl Hok H) as Hok'.
  unfold child in H. case_decide; [apply Proc_ret_Done in H; simplify_eq|].
  { rewrite insert_id by done. done. }
  apply Proc_bind_Done in H as (o & p1 & Hf & H). apply Proc_ret_Done in H. simplify_eq.
  destruct (mint_owner _ _ _ _ Hst Hf Hok) as (_ & Hnone & _).
  eapply world_ok_pool; eauto using advances_owner.
  intros j q c. eapply recorded_same; [done|]. intros o'. simpl.
  destruct (decide (o' = o)) as [->|Hne]; [rewrite lookup_insert_eq; auto|].
  rewrite lookup_insert_ne by done. left. destruct (decide (o' = par)) as [->|Hnp].
  - rewrite lookup_alter_eq. by destruct (rows pool !! par).
  - by rewrite lookup_alter_ne.
Qed.

Lemma world_ok_release_owner p pools held i pool o :
  world_ok (mkWorld p pools held) → pools !! i = Some pool →
  world_ok (mkWorld p (<[i := snd (release_owner o pool)]> pools) held).
Proof.
  intros Hw Hi. pose proof Hw as [Hst Hp _ _]. simpl in *. destruct (Hp _ _ Hi) as [Hok _].
  eapply world_ok_pool; eauto using advances_refl, release_owner_ok.
  intros j q c. eapply recorded_same; [done|]. intros o'.
  unfold release_owner. destruct (rows pool !! o) as [row|] eqn:Ho; [|auto].
  case_decide as Hout; [auto|]. case_decide; [auto|].
  assert (row_outstanding <$> rows pool !! o = Some ∅) as Hempty.
  { rewrite Ho. simpl. f_equal. exact Hout. }
  destruct (parent row) as [par|].
  - destruct (rows pool !! par) eqn:Hpar; [|auto]. simpl.
    destruct (decide (o' = par)) as [->|Hnp].
    + rewrite lookup_alter_eq. destruct (decide (par = o)) as [->|Hne].
      * rewrite lookup_delete_eq. auto.
      * rewrite lookup_delete_ne by done. left. by destruct (rows pool !! par).
    + rewrite lookup_alter_ne by done. destruct (decide (o' = o)) as [->|Hne].
      * rewrite lookup_delete_eq. auto.
      * rewrite lookup_delete_ne by done. auto.
  - simpl. destruct (decide (o' = o)) as [->|Hne].
    + rewrite lookup_delete_eq. auto.
    + rewrite lookup_delete_ne by done. auto.
Qed.

Lemma world_ok_reserve p pools held i pool o bytes r pool' p' :
  world_ok (mkWorld p pools held) → pools !! i = Some pool →
  reserve i o bytes pool p = Done ((r, pool'), p') →
  world_ok (mkWorld p' (<[i := pool']> pools)
    (match r with Ok g => <[cgrant_charge g := HeldGrant g]> held | Err _ => held end)).
Proof.
  intros Hw Hi H. pose proof Hw as [Hst Hp Hh Ha]. simpl in *.
  destruct (Hp _ _ Hi) as [[Hr Hu] Hb]. unfold reserve in H.
  destruct (rows pool !! o) as [row|] eqn:Ho.
  2:{ apply Proc_ret_Done in H. simplify_eq. by rewrite insert_id. }
  case_decide as Hle. { apply Proc_ret_Done in H. simplify_eq. by rewrite insert_id. }
  apply Proc_bind_Done in H as (c & p1 & Hf & H). apply Proc_ret_Done in H. simplify_eq. simpl.
  pose proof (advances_fresh _ _ _ _ Hf) as Hadv. destruct (Hadv Hst) as [Hst' Hm].
  apply fresh_Done in Hf as (Hc & Hz & ->).
  assert (held !! c = None) as Hnone.
  { destruct (held !! c) as [t|] eqn:E; [|done]. destruct (Hh _ _ E) as (_ & _ & Hbel).
    apply below_fresh in Hbel; congruence. }
  assert (row_outstanding row !! c = None) as Hfree.
  { specialize (Ha i o c). unfold recorded, held_at in Ha. rewrite Hi, Hnone in Ha.
    simpl in Ha. rewrite Ho in Ha. exact Ha. }
  pose proof (Hr o row Ho) as [H1 H2 H3 H4 H5]. unfold in_u64 in H3.
  unfold headroom, saturating_sub in Hle.
  assert (rows_ok (statics p NEXT_OWNER)
    (<[o := mkOwnerRow (limit row) (u64_add (row_charged row) bytes)
              (<[c := bytes]> (row_outstanding row)) (parent row)]> (rows pool))) as Hr'.
  { apply (rows_ok_update _ _ _ row); simpl; auto; rewrite ?total_insert by done;
      rewrite u64_add_small by lia; lia. }
  constructor; simpl; auto.
  - intros j pj Hj. destruct (decide (j = i)) as [->|Hne].
    + rewrite lookup_insert_eq in Hj. simplify_eq. split; [by split|]. by apply (Hm NEXT_POOL).
    + rewrite lookup_insert_ne in Hj by done. destruct (Hp _ _ Hj).
      split; [by apply (pool_ok_weaken p)|by apply (Hm NEXT_POOL)].
  - intros c' t Hc'. destruct (decide (c' = c)) as [->|Hne].
    + rewrite lookup_insert_eq in Hc'. simplify_eq. simpl. repeat split.
      rewrite Hc. by apply below_self.
    + rewrite lookup_insert_ne in Hc' by done. destruct (Hh _ _ Hc') as (? & ? & ?).
      repeat split; auto. by apply (Hm NEXT_IDENTITY).
  - intros j o' c'. erewrite recorded_update; [|done|done]. simpl. unfold held_at.
    destruct (decide (c' = c)) as [->|Hne].
    + rewrite !lookup_insert_eq. simpl. case_decide as Hj.
      * simplify_eq. by rewrite decide_True.
      * rewrite decide_False by congruence. rewrite Ha. unfold held_at. by rewrite Hnone.
    + rewrite !lookup_insert_ne by done. case_decide as Hj; [|apply Ha].
      simplify_eq. specialize (Ha i o c'). unfold recorded in Ha. rewrite Hi in Ha.
      simpl in Ha. rewrite Ho in Ha. exact Ha.
Qed.

Lemma token_drop_refunds t pools :
  token_live t →
  token_drop t pools
  = snd (refund_at (fst (token_place t)) (snd (token_place t)) (token_charge t) pools).
Proof.
  destruct t as [g|pm]; simpl; unfold cgrant_drop, cpermit_drop.
  - by intros [-> _].
  - by intros ->.
Qed.

Lemma world_ok_drop p pools held c t :
  world_ok (mkWorld p pools held) → held !! c = Some t →
  world_ok (mkWorld p (token_drop t pools) (delete c held)).
Proof.
  intros Hw Hc. destruct (ok_held _ Hw c t Hc) as (<- & Hl & _).
  destruct (refund_at_recorded _ _ _ _ _ Hw Hc) as (pools' & Href & Hok).
  by rewrite token_drop_refunds, Href.
Qed.

Lemma world_ok_redeem p pools held self c g r pools' :
  world_ok (mkWorld p pools held) → held !! c = Some (HeldGrant g) →
  redeem self g pools = (r, pools') →
  world_ok (mkWorld p pools'
    (match r with Ok pm => <[c := HeldPermit pm]> held | Err _ => delete c held end)).
Proof.
  intros Hw Hc H. pose proof (ok_held _ Hw _ _ Hc) as (Hch & [Hl Hpool] & Hb). simpl in *.
  unfold redeem in H. case_decide as Hself; simplify_eq/=.
  - by apply (world_ok_drop _ _ _ _ _ Hw Hc).
  - destruct Hw as [Hst Hp Hh Ha]. simpl in *.
    unfold cgrant_drop. simpl. constructor; simpl; auto.
    + intros c' t' Hc'. destruct (decide (c' = cgrant_charge g)) as [->|Hne].
      * rewrite lookup_insert_eq in Hc'. by simplify_eq/=.
      * rewrite lookup_insert_ne in Hc' by done. auto.
    + intros i o c'. rewrite Ha. unfold held_at.
      destruct (decide (c' = cgrant_charge g)) as [->|Hne].
      * rewrite lookup_insert_eq, Hc. simpl. by rewrite Hpool.
      * by rewrite lookup_insert_ne.
Qed.

Lemma world_ok_release p pools held c pm n pools' :
  world_ok (mkWorld p pools held) → held !! c = Some (HeldPermit pm) →
  release pm pools = (n, pools') →
  n = cpermit_bytes pm ∧ world_ok (mkWorld p pools' (delete c held)).
Proof.
  intros Hw Hc H. pose proof (ok_held _ Hw _ _ Hc) as (Hch & Hl & _). simpl in Hch. subst c.
  destruct (refund_at_recorded _ _ _ _ _ Hw Hc) as (pools1 & Href & Hok).
  unfold release in H. simpl in Href. rewrite Href in H. unfold cpermit_drop in H.
  by simplify_eq/=.
Qed.

Lemma capacity_step_ok w w' : capacity_step w w' → world_ok w → world_ok w'.
Proof.
  intros Hstep Hw. destruct Hstep as
    [p pools held k i p' H|p pools held i pools' p' H|p pools held i pool lim o pool' p' Hi Hl H
    |p pools held i pool par lim r pool' p' Hi Hl H|p pools held i pool o bytes r pool' p' Hi H
    |p pools held self c g r pools' Hc H|p pools held c t Hc
    |p pools held c pm n pools' Hc H|p pools held i pool o Hi].
  - apply advances_fresh in H. destruct Hw as [Hst Hp Hh Ha]. simpl in *.
    destruct (H Hst) as [Hst' Hm]. constructor; simpl; auto.
    + intros j pj Hj. destruct (Hp _ _ Hj). split; [by apply (pool_ok_weaken p)|auto].
    + intros c t Hc. destruct (Hh _ _ Hc) as (? & ? & ?). auto.
  - unfold pool_new, PoolIdentity_fresh in H.
    apply Proc_bind_Done in H as (j & p1 & Hf & H). apply Proc_ret_Done in H.
    apply Proc_bind_Done in Hf as (raw & p2 & Hf & Hr). apply Proc_ret_Done in Hr.
    simplify_eq. pose proof (advances_mint _ _ _ _ Hf) as Hadv.
    destruct Hw as [Hst Hp Hh Ha]. simpl in *. destruct (Hadv Hst) as [Hst' Hm].
    destruct (fresh_nonzero_minted _ _ _ _ Hst Hf) as (_ & Hb & Hfr & _).
    assert (pools !! mkPoolIdentity raw = None) as Hnone.
    { destruct (pools !! mkPoolIdentity raw) eqn:E; [|done].
      destruct (Hp _ _ E) as [_ Hbel]. by apply Hfr in Hbel as [? _]. }
    constructor; simpl; auto.
    + intros j pj Hj. destruct (decide (j = mkPoolIdentity raw)) as [->|Hne].
      * rewrite lookup_insert_eq in Hj. simplify_eq. split; [|done].
        split; [|done]. intros o row Ho. simpl in Ho. by rewrite lookup_empty in Ho.
      * rewrite lookup_insert_ne in Hj by done. destruct (Hp _ _ Hj).
        split; [by apply (pool_ok_weaken p)|auto].
    + intros c t Hc. destruct (Hh _ _ Hc) as (? & ? & ?). auto.
    + intros j o c. rewrite <-Ha. unfold recorded.
      destruct (decide (j = mkPoolIdentity raw)) as [->|Hne].
      * rewrite lookup_insert_eq, Hnone. simpl. by rewrite lookup_empty.
      * by rewrite lookup_insert_ne.
  - by eapply world_ok_root.
  - by eapply world_ok_child.
  - by eapply world_ok_reserve.
  - by eapply world_ok_redeem.
  - by eapply world_ok_drop.
  - by eapply world_ok_release.
  - by eapply world_ok_release_owner.
Qed.

Lemma capacity_run_ok w w' : rtc capacity_step w w' → world_ok w → world_ok w'.
Proof. induction 1; eauto using capacity_step_ok. Qed.

Lemma capacity_start_ok p : wf_statics p → world_ok (capacity_start p).
Proof. intros Hwf. by constructor; simpl. Qed.

(** C3: conservation.  In every state reachable by any sequence of calls, drops and
    foreign mints, every owner row of every ledger has charged exactly what its
    live grants and permits hold plus the limits promised to its children, and
    that fits its limit and its width; a charge is recorded exactly when one live
    value holds it, with that value's bytes; and no refund ever named a charge the
    ledger did not have. *)
Theorem capacity_conservation p p' pools held :
  wf_statics p →
  rtc capacity_step (capacity_start p) (mkWorld p' pools held) →
  (∀ i pool, pools !! i = Some pool →
     unknown_refunds pool = 0 ∧
     ∀ o row, rows pool !! o = Some row →
       row_charged row = total (row_outstanding row) + child_limits o (rows pool) ∧
       row_charged row ≤ limit row ∧ limit row < u64_modulus) ∧
  (∀ i o c, recorded pools i o c = held_at held i o c).
Proof.
  intros Hwf Hrun. eapply capacity_run_ok in Hrun; [|by apply capacity_start_ok].
  destruct Hrun as [Hst Hp Hh Ha]. split; [|done]. intros i pool Hi.
  destruct (Hp _ _ Hi) as [[Hr Hu] _]. split; [done|]. intros o row Ho.
  by destruct (Hr o row Ho).
Qed.

(** The limits of the root owners of a ledger. *)
Definition root_limits (r : gmap OwnerIdentity OwnerRow) : N :=
  map_sum (λ _ row, match parent row with None => limit row | Some _ => 0 end) r.

(** The limits of the owners backed by another. *)
Definition backed_limits (r : gmap OwnerIdentity OwnerRow) : N :=
  map_sum (λ _ row, match parent row with None => 0 | Some _ => limit row end) r.

(** Everything held by live grants and permits of a ledger. *)
Definition held_total (r : gmap OwnerIdentity OwnerRow) : N :=
  map_sum (λ _ row, total (row_outstanding row)) r.

Lemma promised_limits next r :
  rows_ok next r → backed_limits r = map_sum (λ o _, child_limits o r) r.
Proof.
  intros Hr. unfold child_limits.
  rewrite (map_sum_swap (λ o _ (_ : OwnerIdentity) row,
             if decide (parent row = Some o) then limit row else 0) r r).
  apply map_sum_ext. intros k row Hk. destruct (parent row) as [par|] eqn:Hp.
  - destruct (r !! par) as [prow|] eqn:Hpar.
    + rewrite <-(map_sum_single r par prow (limit row) Hpar) at 1. apply map_sum_ext.
      intros o a _. do 2 case_decide; congruence || done.
    + rewrite (row_orphan _ _ _ _ (Hr _ _ Hk) par Hp Hpar). symmetry.
      apply map_sum_zero. intros. by case_decide.
  - symmetry. apply map_sum_zero. intros. by rewrite decide_False.
Qed.

Lemma held_within_roots next r : rows_ok next r → held_total r ≤ root_limits r.
Proof.
  intros Hr. apply (N.add_le_mono_r _ _ (backed_limits r)).
  transitivity (map_sum (λ _ row, row_charged row) r).
  - rewrite (promised_limits _ _ Hr). unfold held_total. rewrite <-map_sum_add.
    apply N.eq_le_incl, map_sum_ext. intros o row Ho. symmetry. apply (Hr _ _ Ho).
  - unfold root_limits, backed_limits. rewrite <-map_sum_add. apply map_sum_mono.
    intros o row Ho. pose proof (row_bounded _ _ _ _ (Hr _ _ Ho)).
    destruct (parent row); lia.
Qed.

(** The hierarchy is sound.  In every reachable state, however deep the tree of
    owners, the bytes that live grants and permits hold in a ledger never exceed
    the limits of its root owners. *)
Theorem capacity_within_root_limits p p' pools held i pool :
  wf_statics p →
  rtc capacity_step (capacity_start p) (mkWorld p' pools held) →
  pools !! i = Some pool → held_total (rows pool) ≤ root_limits (rows pool).
Proof.
  intros Hwf Hrun Hi. eapply capacity_run_ok in Hrun; [|by apply capacity_start_ok].
  destruct (ok_pools _ Hrun _ _ Hi) as [[Hr _] _]. by eapply held_within_roots.
Qed.

(** An owner of a stranger can be created and then never released.  Asking for a
    zero-byte child of an owner the ledger does not have succeeds, because the
    missing parent counts as having no headroom rather than as unknown; the row it
    creates is refused by [release_owner] with UnknownOwner, although [reserve] on
    the same missing owner would have said UnknownOwner at once. *)
Theorem zero_child_of_unknown_parent par pool p :
  rows pool !! par = None → wf_statics p → statics p NEXT_OWNER ≠ 0 →
  owner_raw par ≠ statics p NEXT_OWNER →
  pool_ok (statics p NEXT_OWNER) pool →
  (∀ k row, rows pool !! k = Some row → parent row ≠ Some (mkOwner (statics p NEXT_OWNER))) →
  ∃ o pool' p',
    child par 0 pool p = Done ((Ok o, pool'), p') ∧
    release_owner o pool' = (Err UnknownOwner, pool') ∧
    ∀ self, reserve self par 0 pool p = Done ((Err UnknownOwner, pool), p).
Proof.
  intros Hpar Hwf Hz Hne Hok Hnc. unfold child, reserve. rewrite Hpar. simpl.
  unfold mbind, Proc_bind, OwnerIdentity_fresh, mbind, Proc_bind.
  rewrite fresh_nonzero_total by done.
  set (o := mkOwner (statics p NEXT_OWNER)).
  assert (rows pool !! o = None) as Hnone by (by eapply rows_fresh; [..|apply Hok|]).
  eexists o, _, _. split; [reflexivity|]. split; [|done].
  unfold release_owner. simpl. rewrite lookup_insert_eq. simpl.
  rewrite alter_absent by done.
  assert (count_children o (<[o := mkOwnerRow 0 0 ∅ (Some par)]> (rows pool)) = 0%nat) as Hc.
  { unfold count_children. apply map_size_empty_iff, map_empty. intros k.
    apply map_lookup_filter_None. right. intros row Hk.
    destruct (decide (k = o)) as [->|Hko]; simpl.
    - rewrite lookup_insert_eq in Hk. simplify_eq/=. intros Heq. by simplify_eq.
    - rewrite lookup_insert_ne in Hk by done. by eapply Hnc. }
  rewrite Hc. simpl. rewrite lookup_insert_ne, Hpar; [done|].
  unfold o. intros Heq. apply Hne. by rewrite <-Heq.
Qed.

(** ** A sample run: a root of 100 bytes, a child of 40, and 30 reserved from it *)

Lemma sample_capacity_run :
  ∃ p' pools held pool,
    rtc capacity_step (capacity_start initial_process) (mkWorld p' pools held) ∧
    pools !! mkPoolIdentity 1 = Some pool ∧
    rows pool !! mkOwner 1 = Some (mkOwnerRow 100 40 ∅ None) ∧
    rows pool !! mkOwner 2
      = Some (mkOwnerRow 40 30 {[mkIdentity 1 := 30]} (Some (mkOwner 1))).
Proof.
  eexists _, _, _, _. split.
  - eapply rtc_l; [eapply cap_new; vm_compute; reflexivity|].
    eapply rtc_l; [eapply (cap_root _ _ _ (mkPoolIdentity 1) _ 100); vm_compute; reflexivity|].
    eapply rtc_l; [eapply (cap_child _ _ _ (mkPoolIdentity 1) _ (mkOwner 1) 40); vm_compute; reflexivity|].
    apply rtc_once.
    eapply (cap_reserve _ _ _ (mkPoolIdentity 1) _ (mkOwner 2) 30); vm_compute; reflexivity.
  - split; [|split]; vm_compute; reflexivity.
Qed.

Lemma capacity_conservation_witness :
  ∃ pool, unknown_refunds pool = 0 ∧
    rows pool !! mkOwner 1 = Some (mkOwnerRow 100 40 ∅ None) ∧
    40 = total ∅ + child_limits (mkOwner 1) (rows pool).
Proof.
  destruct sample_capacity_run as (p' & pools & held & pool & Hrun & Hi & H1 & H2).
  destruct (capacity_conservation initial_process p' pools held) as [Hc _];
    [apply initial_wf_statics|exact Hrun|].
  destruct (Hc _ _ Hi) as [Hu Hrows]. destruct (Hrows _ _ H1) as (E & _ & _).
  exists pool. split; [exact Hu|]. split; [exact H1|exact E].
Defined.

Lemma capacity_within_root_limits_witness :
  ∃ pool, rows pool !! mkOwner 1 = Some (mkOwnerRow 100 40 ∅ None) ∧
    held_total (rows pool) ≤ root_limits (rows pool).
Proof.
  destruct sample_capacity_run as (p' & pools & held & pool & Hrun & Hi & H1 & H2).
  exists pool. split; [exact H1|].
  apply (capacity_within_root_limits initial_process p' pools held (mkPoolIdentity 1));
    [apply initial_wf_statics|exact Hrun|exact Hi].
Defined.

Lemma zero_child_of_unknown_parent_witness :
  ∃ o pool' p', child (mkOwner 7) 0 pool_default initial_process
                = Done ((Ok o, pool'), p') ∧
    release_owner o pool' = (Err UnknownOwner, pool').
Proof.
  destruct (zero_child_of_unknown_parent (mkOwner 7) pool_default initial_process)
    as (o & pool' & p' & H1 & H2 & _);
    [reflexivity|apply initial_wf_statics|done|done|by split|done|].
  exists o, pool', p'. split; [exact H1|exact H2].
Defined.
