(* ===== verification/Supervisor.v ===== *)
(** * The per-source supervisor

    Models src/src/index_lifecycle/supervisor.rs: attempt ownership, the
    exactly-once diagnostics ledger, the committed ledger and retry triggers.

    The shared [Arc<Mutex<SupervisorState>>] is one state; every method holds the
    lock for its whole body, so methods are functions on the state and an
    interleaving of holders is a sequence of them. *)

From Stdlib Require Import Lia NArith.
From stdpp Require Import base gmap sets list strings numbers option relations.
From S2P Require Import Prelude.

#[local] Open Scope N_scope.

Inductive ClassifiedFailure : Type :=
| FUnreadable
| FUnstableDuringRead
| FAbortedCircuitBreaker
| FParseFailed
| FUnknownOrdering
| FTruncatedRequiredDerivation
| FPartialParse.

#[global] Instance ClassifiedFailure_eq_dec : EqDecision ClassifiedFailure.
Proof. solve_decision. Defined.

Definition ClassifiedFailure_ALL : list ClassifiedFailure :=
  [FUnreadable; FUnstableDuringRead; FAbortedCircuitBreaker; FParseFailed;
   FUnknownOrdering; FTruncatedRequiredDerivation; FPartialParse].

Inductive AttemptDisposition : Type :=
| ACommitted
| ADiscarded (cause : ClassifiedFailure)
| ACancelled
| ASuperseded
| APanicked.

#[global] Instance AttemptDisposition_eq_dec : EqDecision AttemptDisposition.
Proof. solve_decision. Defined.

Record AttemptId := mkAttemptId { attempt_raw : N }.

#[global] Instance AttemptId_eq_dec : EqDecision AttemptId.
Proof. solve_decision. Defined.

#[global] Instance AttemptId_countable : Countable AttemptId.
Proof. apply (inj_countable' attempt_raw mkAttemptId). by intros []. Defined.

Record AttemptRecord := mkAttemptRecord {
  record_id : AttemptId;
  disposition : AttemptDisposition
}.

Definition MAX_ATTEMPT_RECORDS : nat := 64.

Record SupervisorState := mkSupervisor {
  next_attempt : N;
  live : list AttemptId;
  superseded : gset AttemptId;
  terminal : gset AttemptId;
  records : list AttemptRecord;
  committed : N
}.

(** [SupervisorState::default], which [SourceSupervisor::new] wraps. *)
Definition supervisor_new : SupervisorState := mkSupervisor 0 [] ∅ ∅ [] 0.

Definition mint (s : SupervisorState) : AttemptId * SupervisorState :=
  let id := mkAttemptId (next_attempt s) in
  (id, mkSupervisor (u64_add (next_attempt s) 1) (live s ++ [id]) (superseded s)
                    (terminal s) (records s) (committed s)).

(** [push], and [remove(0)] when the bound is exceeded. *)
Definition push_record (r : AttemptRecord) (rs : list AttemptRecord) : list AttemptRecord :=
  let rs := rs ++ [r] in
  if decide (MAX_ATTEMPT_RECORDS < length rs)%nat then tail rs else rs.

Definition terminal_row (id : AttemptId) (d : AttemptDisposition) (s : SupervisorState)
  : bool * SupervisorState :=
  if decide (id ∈ terminal s) then (false, s)
  else (true,
        mkSupervisor (next_attempt s) (filter (λ l, l ≠ id) (live s)) (superseded s)
                     ({[id]} ∪ terminal s) (push_record (mkAttemptRecord id d) (records s))
                     (committed s)).

Definition is_superseded (s : SupervisorState) (id : AttemptId) : bool :=
  bool_decide (id ∈ superseded s).

Definition is_terminal_attempt (s : SupervisorState) (id : AttemptId) : bool :=
  bool_decide (id ∈ terminal s).

Definition record_commit (id : AttemptId) (s : SupervisorState) : SupervisorState :=
  let '(ended, s) := terminal_row id ACommitted s in
  if ended
  then mkSupervisor (next_attempt s) (live s) (superseded s) (terminal s) (records s)
                    (u64_add (committed s) 1)
  else s.

Definition record_discard (id : AttemptId) (cause : ClassifiedFailure)
    (s : SupervisorState) : SupervisorState :=
  snd (terminal_row id (ADiscarded cause) s).

Definition record_panic (id : AttemptId) (s : SupervisorState) : SupervisorState :=
  snd (terminal_row id APanicked s).

Definition begin_attempt (s : SupervisorState) : AttemptId * SupervisorState := mint s.

Definition supersede (id : AttemptId) (s : SupervisorState) : SupervisorState :=
  mkSupervisor (next_attempt s) (live s) ({[id]} ∪ superseded s) (terminal s)
               (records s) (committed s).

Definition retry_trigger (cause : ClassifiedFailure) (s : SupervisorState)
  : AttemptId * SupervisorState :=
  let s :=
    match last (live s) with
    | Some newest => record_discard newest cause (supersede newest s)
    | None => s
    end in
  let stales := live s in
  let s := mkSupervisor (next_attempt s) [] (superseded s) (terminal s) (records s)
                        (committed s) in
  let s := foldl (λ s stale, snd (terminal_row stale ASuperseded (supersede stale s)))
                 s stales in
  mint s.

(** [LoadAttempt::cancel]. *)
Definition cancel (id : AttemptId) (s : SupervisorState) : SupervisorState :=
  snd (terminal_row id ACancelled s).

(** ** The ledgers

    [history] is the whole sequence of terminal rows, of which the state keeps
    the newest 64. *)

Definition is_commit (r : AttemptRecord) : Prop := disposition r = ACommitted.

#[global] Instance is_commit_dec r : Decision (is_commit r).
Proof. unfold is_commit. apply _. Defined.

Definition commits (h : list AttemptRecord) : N := N.of_nat (length (filter is_commit h)).

Definition newest_records (h : list AttemptRecord) : list AttemptRecord :=
  drop (length h - MAX_ATTEMPT_RECORDS) h.

Record ledger (h : list AttemptRecord) (s : SupervisorState) : Prop := mk_ledger {
  ledger_once : NoDup (record_id <$> h);
  ledger_terminal : terminal s = list_to_set (record_id <$> h);
  ledger_newest : records s = newest_records h;
  ledger_live_once : NoDup (live s);
  ledger_live : ∀ id, id ∈ live s → id ∉ terminal s;
  ledger_minted : ∀ id, attempt_raw id < next_attempt s ↔ id ∈ live s ∨ id ∈ terminal s;
  ledger_superseded : superseded s ⊆ terminal s
}.

Lemma newest_snoc h r : newest_records (h ++ [r]) = push_record r (newest_records h).
Proof.
  unfold newest_records, push_record. rewrite !length_app, length_drop. simpl.
  unfold MAX_ATTEMPT_RECORDS. case_decide as Hd.
  - set (k := (length h - 64)%nat) in *.
    replace (length h + 1 - 64)%nat with (k + 1)%nat by lia.
    rewrite drop_app_le by lia.
    assert (drop (k + 1) h = drop 1 (drop k h)) as -> by (by rewrite drop_drop).
    destruct (drop k h) as [|x l] eqn:E; [|done].
    apply (f_equal length) in E. rewrite length_drop in E. simpl in E. lia.
  - replace (length h + 1 - 64)%nat with 0%nat by lia.
    replace (length h - 64)%nat with 0%nat by lia. by rewrite !drop_0.
Qed.

Lemma newest_bounded h : (length (newest_records h) ≤ MAX_ATTEMPT_RECORDS)%nat.
Proof. unfold newest_records. rewrite length_drop. lia. Qed.

Lemma ledger_terminal_row h id d s :
  ledger h s → id ∉ terminal s → attempt_raw id < next_attempt s →
  ledger (h ++ [mkAttemptRecord id d]) (snd (terminal_row id d s)).
Proof.
  intros [H1 H2 H3 H4 H5 H6 H7] Hid Hm. unfold terminal_row. rewrite decide_False by done.
  constructor; simpl.
  - rewrite fmap_app. apply NoDup_app. split; [done|]. split; [|apply NoDup_singleton].
    intros x Hx ->%list_elem_of_singleton. rewrite H2 in Hid. set_solver.
  - rewrite H2, fmap_app, list_to_set_app_L. set_solver.
  - by rewrite H3, newest_snoc.
  - by apply NoDup_filter.
  - intros x [Hx Hl]%list_elem_of_filter. specialize (H5 x Hl). set_solver.
  - intros x. rewrite H6, list_elem_of_filter, elem_of_union, elem_of_singleton.
    destruct (decide (x = id)) as [->|]; [|naive_solver].
    split; [auto|]. intros _. by apply H6.
  - set_solver.
Qed.

Lemma ledger_mint h s :
  ledger h s → next_attempt s + 1 < u64_modulus → ledger h (snd (mint s)).
Proof.
  intros [H1 H2 H3 H4 H5 H6 H7] Hr. unfold mint. simpl.
  assert (mkAttemptId (next_attempt s) ∉ terminal s ∧ mkAttemptId (next_attempt s) ∉ live s)
    as [Hnt Hnl].
  { assert (¬ (mkAttemptId (next_attempt s) ∈ live s ∨ mkAttemptId (next_attempt s) ∈ terminal s))
      as Hn by (rewrite <-H6; simpl; lia). tauto. }
  constructor; simpl; auto.
  - apply NoDup_app. split; [done|]. split; [|apply NoDup_singleton].
    intros x Hx ->%list_elem_of_singleton. done.
  - intros x [Hx| ->%list_elem_of_singleton]%elem_of_app; auto.
  - intros [x]. rewrite u64_add_small by done. rewrite elem_of_app, list_elem_of_singleton.
    specialize (H6 (mkAttemptId x)). simpl in *.
    destruct (decide (x = next_attempt s)) as [->|Hne]; [split; [auto|lia]|].
    assert (mkAttemptId x ≠ mkAttemptId (next_attempt s)) by congruence.
    split; [intros; destruct H6 as [H6 _]; destruct H6; [lia|auto..]|].
    intros [[?|?]|?]; [|done|]; assert (x < next_attempt s) by (apply H6; auto); lia.
Qed.

Definition set_live (l : list AttemptId) (s : SupervisorState) : SupervisorState :=
  mkSupervisor (next_attempt s) l (superseded s) (terminal s) (records s) (committed s).

Lemma ledger_supersede_row h id d s :
  ledger h s → id ∉ terminal s → attempt_raw id < next_attempt s →
  ledger (h ++ [mkAttemptRecord id d]) (snd (terminal_row id d (supersede id s))).
Proof.
  intros Hl Hid Hm. destruct (ledger_terminal_row h id d s Hl Hid Hm) as [H1 H2 H3 H4 H5 H6 H7].
  unfold terminal_row in *. simpl. rewrite !decide_False in * by done. simpl in *.
  constructor; auto. simpl. set_solver.
Qed.

Definition superseded_rows (ids : list AttemptId) : list AttemptRecord :=
  (λ id, mkAttemptRecord id ASuperseded) <$> ids.

(** The loop of [retry_trigger] over the attempts taken out of [live]. *)
Lemma ledger_supersede_all stales : ∀ h s,
  ledger h (set_live stales s) →
  let s' := foldl (λ s stale, snd (terminal_row stale ASuperseded (supersede stale s)))
                  (set_live [] s) stales in
  ledger (h ++ superseded_rows stales) s' ∧ next_attempt s' = next_attempt s ∧
  live s' = [] ∧ committed s' = committed s ∧
  superseded s' = list_to_set stales ∪ superseded s.
Proof.
  induction stales as [|x rest IH]; intros h s Hl; simpl.
  { rewrite app_nil_r. repeat split; try apply Hl. set_solver. }
  pose proof (ledger_live _ _ Hl x (list_elem_of_here _ _)) as Hx. simpl in Hx.
  assert (attempt_raw x < next_attempt s) as Hm.
  { apply (ledger_minted _ _ Hl). left. simpl. set_solver. }
  pose proof (ledger_supersede_row h x ASuperseded (set_live (x :: rest) s) Hl Hx Hm) as Hl'.
  set (s1 := snd (terminal_row x ASuperseded (supersede x s))).
  assert (snd (terminal_row x ASuperseded (supersede x (set_live [] s))) = set_live [] s1) as E1.
  { unfold s1, terminal_row. simpl. by rewrite !decide_False. }
  assert (snd (terminal_row x ASuperseded (supersede x (set_live (x :: rest) s)))
          = set_live rest s1) as E2.
  { unfold s1, terminal_row. simpl. rewrite !decide_False by done. unfold set_live. simpl.
    f_equal. pose proof (ledger_live_once _ _ Hl) as Hnd. simpl in Hnd.
    apply NoDup_cons in Hnd as [Hnx Hnd]. rewrite filter_cons_False by tauto.
    apply filter_keep. intros y Hy ->. done. }
  rewrite E2 in Hl'. destruct (IH _ _ Hl') as (H1 & H2 & H3 & H4 & H5). rewrite E1.
  rewrite <-app_assoc in H1. split; [exact H1|]. rewrite H2, H3, H4, H5.
  unfold s1, terminal_row. simpl. rewrite !decide_False by done. simpl.
  repeat split. set_solver.
Qed.

(** The rows a retry trigger adds: the newest live attempt with the cause, every
    other live attempt as superseded. *)
Definition retry_rows (cause : ClassifiedFailure) (l : list AttemptId) : list AttemptRecord :=
  match last l with
  | None => []
  | Some newest => mkAttemptRecord newest (ADiscarded cause)
                   :: superseded_rows (filter (λ x, x ≠ newest) l)
  end.

Lemma retry_trigger_spec h cause s :
  ledger h s → next_attempt s + 1 < u64_modulus →
  let '(id, s') := retry_trigger cause s in
  id = mkAttemptId (next_attempt s) ∧ ledger (h ++ retry_rows cause (live s)) s' ∧
  live s' = [id] ∧ committed s' = committed s ∧ next_attempt s' = next_attempt s + 1 ∧
  superseded s' = list_to_set (live s) ∪ superseded s.
Proof.
  intros Hl Hr. unfold retry_trigger, retry_rows.
  destruct (last (live s)) as [newest|] eqn:Elast.
  - assert (newest ∈ live s) as Hin by (by apply last_Some_elem_of).
    pose proof (ledger_live _ _ Hl _ Hin) as Hnt.
    assert (attempt_raw newest < next_attempt s) as Hm by (apply (ledger_minted _ _ Hl); auto).
    pose proof (ledger_supersede_row h newest (ADiscarded cause) s Hl Hnt Hm) as Hl1.
    unfold record_discard. set (s1 := snd (terminal_row newest _ (supersede newest s))) in *.
    assert (live s1 = filter (λ x, x ≠ newest) (live s) ∧ next_attempt s1 = next_attempt s ∧
            committed s1 = committed s ∧ superseded s1 = {[newest]} ∪ superseded s)
      as (E1 & E2 & E3 & E4).
    { unfold s1, terminal_row. simpl. by rewrite decide_False. }
    assert (set_live (live s1) s1 = s1) as Es by (by destruct s1).
    rewrite <-Es in Hl1. apply ledger_supersede_all in Hl1 as (H1 & H2 & H3 & H4 & H5).
    change (mkSupervisor _ [] _ _ _ _) with (set_live [] s1).
    set (s2 := foldl _ _ _) in *.
    destruct (mint s2) as [id s'] eqn:Emint.
    pose proof (ledger_mint _ s2 H1) as Hl2. rewrite H2, E2, Emint in Hl2.
    unfold mint in Emint. injection Emint as <- <-. simpl in *.
    rewrite H2, H3, H4, H5, E1, E2, E3, E4. rewrite <-app_assoc, E1 in Hl2.
    rewrite u64_add_small by done.
    rewrite H2, H3, H4, H5, E1, E2, E3, E4, u64_add_small in Hl2 by done.
    split; [done|]. split; [auto|]. repeat split. apply set_eq. intros x.
    rewrite !elem_of_union, !elem_of_list_to_set, list_elem_of_filter, elem_of_singleton.
    destruct (decide (x = newest)) as [->|]; naive_solver.
  - apply last_None in Elast. rewrite Elast. simpl. rewrite app_nil_r.
    pose proof (ledger_mint _ _ Hl Hr) as Hl'. unfold mint in *. simpl in *.
    rewrite Elast in Hl'. simpl in Hl'. rewrite u64_add_small in * by done.
    split; [done|]. split; [exact Hl'|]. repeat split. set_solver.
Qed.

(** One locked transition, on behalf of any holder of a minted attempt. *)
Inductive supervisor_step : SupervisorState → SupervisorState → Prop :=
| sup_begin s : supervisor_step s (snd (begin_attempt s))
| sup_retry s cause : supervisor_step s (snd (retry_trigger cause s))
| sup_commit s id :
    attempt_raw id < next_attempt s → supervisor_step s (record_commit id s)
| sup_discard s id cause :
    attempt_raw id < next_attempt s → supervisor_step s (record_discard id cause s)
| sup_panic s id :
    attempt_raw id < next_attempt s → supervisor_step s (record_panic id s)
| sup_cancel s id :
    attempt_raw id < next_attempt s → supervisor_step s (cancel id s).

(** The ledgers after [n] transitions, with the whole history [h]. *)
Definition supervisor_inv (n : nat) (h : list AttemptRecord) (s : SupervisorState) : Prop :=
  ledger h s ∧ committed s = commits h ∧ next_attempt s ≤ N.of_nat n ∧
  committed s ≤ N.of_nat n.

Lemma commits_app h1 h2 : commits (h1 ++ h2) = commits h1 + commits h2.
Proof. unfold commits. rewrite filter_app, length_app. lia. Qed.

Lemma commits_superseded ids : commits (superseded_rows ids) = 0.
Proof. induction ids as [|x ids IH]; [done|]. exact IH. Qed.

Lemma commits_retry cause l : commits (retry_rows cause l) = 0.
Proof. unfold retry_rows. destruct (last l); [|done]. exact (commits_superseded _). Qed.

(** A terminal event that is not a commit. *)
Lemma supervisor_row_inv n h id d s :
  supervisor_inv n h s → attempt_raw id < next_attempt s → d ≠ ACommitted →
  ∃ rows, supervisor_inv n (h ++ rows) (snd (terminal_row id d s)).
Proof.
  intros (Hl & Hc & Hn & Hcn) Hid Hd.
  destruct (decide (id ∈ terminal s)) as [Ht|Ht].
  - exists []. rewrite app_nil_r. unfold terminal_row. rewrite decide_True by done.
    by split.
  - exists [mkAttemptRecord id d]. split; [by apply ledger_terminal_row|].
    unfold terminal_row. rewrite decide_False by done. simpl. rewrite commits_app.
    assert (commits [mkAttemptRecord id d] = 0) as ->.
    { unfold commits. by rewrite filter_cons_False. }
    split; [lia|]. done.
Qed.

(** The commit of an attempt that has not ended. *)
Lemma supervisor_commit_inv n h id s :
  supervisor_inv n h s → N.of_nat n + 1 < u64_modulus →
  attempt_raw id < next_attempt s → id ∉ terminal s →
  supervisor_inv (S n) (h ++ [mkAttemptRecord id ACommitted]) (record_commit id s).
Proof.
  intros (Hl & Hc & Hna & Hcn) Hn Hid Ht. unfold record_commit.
  pose proof (ledger_terminal_row h id ACommitted s Hl Ht Hid) as Hl'.
  unfold terminal_row in *. rewrite decide_False in * by done. simpl in *.
  split; [destruct Hl'; by constructor|]. simpl.
  rewrite u64_add_small by lia. rewrite commits_app.
  change (commits [mkAttemptRecord id ACommitted]) with 1. repeat split; lia.
Qed.

Lemma supervisor_step_inv n h s s' :
  supervisor_step s s' → N.of_nat n + 1 < u64_modulus → supervisor_inv n h s →
  ∃ rows, supervisor_inv (S n) (h ++ rows) s'.
Proof.
  assert (∀ rows s', supervisor_inv n (h ++ rows) s' → supervisor_inv (S n) (h ++ rows) s')
    as Hweak.
  { intros rows s'' (? & ? & ? & ?). repeat split; try done; lia || apply H. }
  intros Hstep Hn Hinv. pose proof Hinv as (Hl & Hc & Hna & Hcn).
  destruct Hstep as [s|s cause|s id Hid|s id cause Hid|s id Hid|s id Hid].
  - exists []. rewrite app_nil_r. split; [apply ledger_mint; [done|lia]|].
    simpl. rewrite u64_add_small by lia. repeat split; [done|lia|lia].
  - exists (retry_rows cause (live s)).
    pose proof (retry_trigger_spec h cause s Hl ltac:(lia)) as H.
    destruct (retry_trigger cause s) as [id s']. destruct H as (_ & H1 & _ & H3 & H4 & _).
    simpl. split; [done|]. rewrite H3, H4, commits_app, commits_retry. repeat split; lia.
  - destruct (decide (id ∈ terminal s)) as [Ht|Ht].
    + unfold record_commit, terminal_row. rewrite decide_True by done. exists [].
      rewrite app_nil_r. specialize (Hweak [] s). rewrite app_nil_r in Hweak. auto.
    + exists [mkAttemptRecord id ACommitted]. by apply supervisor_commit_inv.
  - destruct (supervisor_row_inv n h id (ADiscarded cause) s Hinv Hid) as [rows H]; [done|].
    eauto.
  - destruct (supervisor_row_inv n h id APanicked s Hinv Hid) as [rows H]; [done|]. eauto.
  - destruct (supervisor_row_inv n h id ACancelled s Hinv Hid) as [rows H]; [done|]. eauto.
Qed.

Lemma supervisor_run_inv n s :
  nsteps supervisor_step n supervisor_new s → N.of_nat n < u64_modulus →
  ∃ h, supervisor_inv n h s.
Proof.
  revert s. induction n as [|n IH]; intros s Hs Hn.
  - inversion Hs; subst. exists []. repeat split; simpl; try constructor; try lia; try set_solver.
  - apply nsteps_inv_r in Hs as (s1 & H1 & H2).
    destruct (IH s1 H1) as [h Hh]; [lia|].
    destruct (supervisor_step_inv n h s1 s H2) as [rows H]; [lia|done|eauto].
Qed.

Lemma supervisor_step_terminal s s' :
  supervisor_step s s' → terminal s ⊆ terminal s' .
Proof.
  assert (∀ id d s, terminal s ⊆ terminal (snd (terminal_row id d s))) as Hrow.
  { intros id d s0. unfold terminal_row. case_decide; [done|]. simpl. set_solver. }
  assert (∀ l s, terminal s ⊆ terminal (foldl (λ s stale,
            snd (terminal_row stale ASuperseded (supersede stale s))) s l)) as Hfold.
  { induction l as [|x l IH]; intros s0; simpl; [done|].
    etransitivity; [|apply IH]. apply (Hrow x ASuperseded (supersede x s0)). }
  intros Hstep. destruct Hstep as [s|s cause|s id _|s id cause _|s id _|s id _]; try apply Hrow.
  - done.
  - unfold retry_trigger, mint. simpl. etransitivity; [|apply Hfold]. simpl.
    destruct (last (live s)) as [newest|]; [|done].
    apply (Hrow newest (ADiscarded cause) (supersede newest s)).
  - unfold record_commit. pose proof (Hrow id ACommitted s) as H.
    by destruct (terminal_row id ACommitted s) as [[] s1].
Qed.

(** C22: every attempt ends exactly once.  After any sequence of fewer than 2^64
    transitions by any holders there is one history of terminal rows with at most
    one row per attempt, such that the terminal set is exactly the attempts with a
    row, every minted attempt is live or terminal and never both, the diagnostics
    ledger is the newest 64 rows of it, the committed count is the number of its
    committed rows, and every superseded attempt has ended. *)
Theorem supervisor_ledgers_agree n s :
  nsteps supervisor_step n supervisor_new s → N.of_nat n < u64_modulus →
  ∃ h, NoDup (record_id <$> h) ∧
    terminal s = list_to_set (record_id <$> h) ∧
    (∀ id, attempt_raw id < next_attempt s ↔ id ∈ live s ∨ id ∈ terminal s) ∧
    (∀ id, id ∈ live s → id ∉ terminal s) ∧
    records s = newest_records h ∧ (length (records s) ≤ 64)%nat ∧
    committed s = commits h ∧ superseded s ⊆ terminal s.
Proof.
  intros Hs Hn. destruct (supervisor_run_inv n s Hs Hn) as (h & [H1 H2 H3 H4 H5 H6 H7] & Hc & _).
  exists h. repeat split; auto; try apply H6. rewrite H3. apply newest_bounded.
Qed.

(** A retry trigger supersedes every attempt in flight.  In any reachable state
    it mints one fresh attempt, which is then the only live one; the newest live
    attempt is recorded with the cause and the others as superseded, in order; and
    whatever happens later, a commit by any attempt that was live before the
    trigger changes nothing. *)
Theorem retry_trigger_supersedes n s cause id s' id0 s'' :
  nsteps supervisor_step n supervisor_new s → N.of_nat n + 1 < u64_modulus →
  retry_trigger cause s = (id, s') → id0 ∈ live s → rtc supervisor_step s' s'' →
  live s' = [id] ∧ attempt_raw id = next_attempt s ∧ committed s' = committed s ∧
  (∃ h, records s = newest_records h ∧
        records s' = newest_records (h ++ retry_rows cause (live s))) ∧
  record_commit id0 s'' = s''.
Proof.
  intros Hs Hn Hr Hin Hrun.
  destruct (supervisor_run_inv n s Hs ltac:(lia)) as (h & Hl & _ & Hna & _).
  pose proof (retry_trigger_spec h cause s Hl ltac:(lia)) as H. rewrite Hr in H.
  destruct H as (-> & Hl' & Hlive & Hcm & _ & Hsup).
  split; [done|]. split; [done|]. split; [done|]. split.
  { exists h. split; [apply Hl|apply Hl']. }
  assert (id0 ∈ terminal s') as Ht.
  { apply (ledger_superseded _ _ Hl'). rewrite Hsup. set_solver. }
  assert (id0 ∈ terminal s'') as Ht'.
  { clear -Hrun Ht. induction Hrun as [|a b c Hab Hbc IH]; [done|]. apply IH.
    by apply (supervisor_step_terminal a b). }
  unfold record_commit, terminal_row. by rewrite decide_True.
Qed.

(** ** A sample run: two attempts begun, then a retry *)

Definition sample_supervisor : SupervisorState :=
  snd (begin_attempt (snd (begin_attempt supervisor_new))).

Lemma sample_supervisor_run : nsteps supervisor_step 2 supervisor_new sample_supervisor.
Proof. eapply nsteps_l; [apply sup_begin|]. apply nsteps_once, sup_begin. Qed.

Lemma supervisor_ledgers_agree_witness :
  ∃ h, terminal sample_supervisor = list_to_set (record_id <$> h) ∧
       committed sample_supervisor = commits h.
Proof.
  destruct (supervisor_ledgers_agree 2 sample_supervisor sample_supervisor_run)
    as (h & _ & H1 & _ & _ & _ & _ & H2 & _); [done|].
  exists h. split; [exact H1|exact H2].
Defined.

Lemma retry_trigger_supersedes_witness :
  live (snd (retry_trigger FUnreadable sample_supervisor)) = [mkAttemptId 2] ∧
  record_commit (mkAttemptId 0) (snd (retry_trigger FUnreadable sample_supervisor))
  = snd (retry_trigger FUnreadable sample_supervisor).
Proof.
  destruct (retry_trigger_supersedes 2 sample_supervisor FUnreadable (mkAttemptId 2)
              (snd (retry_trigger FUnreadable sample_supervisor)) (mkAttemptId 0)
              (snd (retry_trigger FUnreadable sample_supervisor)))
    as (H1 & _ & _ & _ & H2).
  - apply sample_supervisor_run.
  - done.
  - vm_compute. reflexivity.
  - vm_compute. constructor.
  - apply rtc_refl.
  - split; [exact H1|exact H2].
Defined.
