(* ===== verification/Candidate.v ===== *)
(** * Isolated candidates and their single commit point

    Models src/src/index_lifecycle/candidate.rs: building a candidate beside the
    store under a capacity reservation, and committing it into the project
    artifact root through the supervisor.

    The paths and metadata reasons a candidate carries are only moved and cloned
    by this module, so they are type parameters.  The injected [derive] closure
    is a state-passing function that may panic. *)

From Stdlib Require Import Lia NArith.
From stdpp Require Import base gmap sets list strings numbers option relations.
From S2P Require Import Prelude Identity Capacity Supervisor.

#[local] Open Scope N_scope.

Record SourceId := mkSourceId { source_raw : N }.

#[global] Instance SourceId_eq_dec : EqDecision SourceId.
Proof. solve_decision. Defined.

#[global] Instance SourceId_countable : Countable SourceId.
Proof. apply (inj_countable' source_raw mkSourceId). by intros []. Defined.

Record SourceContentToken := mkContentToken { token_raw : N }.

#[global] Instance SourceContentToken_eq_dec : EqDecision SourceContentToken.
Proof. solve_decision. Defined.

Inductive ArtifactKind : Type := Catalog | Symbols | References | Outline.

#[global] Instance ArtifactKind_eq_dec : EqDecision ArtifactKind.
Proof. solve_decision. Defined.

Definition ArtifactKind_REQUIRED : list ArtifactKind :=
  [Catalog; Symbols; References; Outline].

Inductive PromotionRefusal : Type :=
| Failure (cause : ClassifiedFailure)
| CapabilityCannotAuthorize
| PSuperseded
| AttemptAlreadyTerminal
| SameSourceDrift (expected found : option SourceContentToken)
| EpochIsNotAuthority
| PPanicked.

Section Candidate.
Context {CatalogPath MetadataOnlyReason : Type}.

Inductive SourceObservation : Type :=
| Content (path : CatalogPath) (token : SourceContentToken) (bytes : N)
| MetadataOnly (path : CatalogPath) (reason : MetadataOnlyReason)
| Failed (cause : ClassifiedFailure).

Record CandidateSource := mkCandidateSource {
  cs_id : SourceId;
  observation : SourceObservation
}.

Inductive EntryDisposition : Type :=
| Indexed (content_stamp : N)
| EntryMetadataOnly (reason : MetadataOnlyReason).

Record ManifestEntry := mkManifestEntry {
  entry_path : CatalogPath;
  entry_disposition : EntryDisposition
}.

Record SourceArtifacts := mkSourceArtifacts {
  art_token : SourceContentToken;
  art_manifest : list ManifestEntry;
  artifacts : list (ArtifactKind * N)
}.

(** [ProjectArtifacts], the value behind the root's [Arc]. *)
Abbreviation ProjectArtifacts := (gmap SourceId SourceArtifacts).

Record DeltaSpec := mkDeltaSpec {
  changed : SourceId;
  expected : option SourceContentToken
}.

Inductive BuildOutcome : Type :=
| Ready (built : ProjectArtifacts) (delta : option DeltaSpec)
| Classified (cause : ClassifiedFailure)
| BuildPanicked.

Record IsolatedCandidate := mkCandidate {
  outcome : BuildOutcome;
  cand_attempt : AttemptId;
  cand_permit : CapacityPermit
}.

(** [Iterator::sum::<u64>] wraps in the release profile. *)
Definition observed_bytes (source : CandidateSource) : N :=
  match observation source with Content _ _ bytes => bytes | _ => 0 end.

Definition reserved_bytes (sources : list CandidateSource) : N :=
  N.max (foldl u64_add 0 (observed_bytes <$> sources)) 1.

(** The required kinds, each stamped with its offset. *)
Definition stamp_artifacts (stamp : N) : list (ArtifactKind * N) :=
  imap (λ offset kind, (kind, u64_add stamp (N.of_nat offset))) ArtifactKind_REQUIRED.

Section Build.
Context {D : Type} (derive : CandidateSource → D → option N * D).

Fixpoint build_loop (sources : list CandidateSource) (built : ProjectArtifacts) (d : D)
  : BuildOutcome * D :=
  match sources with
  | [] => (Ready built None, d)
  | source :: rest =>
      match observation source with
      | Failed cause => (Classified cause, d)
      | Content path token _ =>
          match derive source d with
          | (None, d) => (BuildPanicked, d)
          | (Some stamp, d) =>
              build_loop rest
                (<[cs_id source := mkSourceArtifacts token
                     [mkManifestEntry path (Indexed stamp)] (stamp_artifacts stamp)]> built) d
          end
      | MetadataOnly path reason =>
          build_loop rest
            (<[cs_id source := mkSourceArtifacts (mkContentToken 0)
                 [mkManifestEntry path (EntryMetadataOnly reason)] []]> built) d
      end
  end.

Definition build_sources (sources : list CandidateSource) (d : D) : BuildOutcome * D :=
  build_loop sources ∅ d.

(** [pool.redeem(pool.reserve(owner, ..)?)?] on the pool behind [self]. *)
Definition reserve_and_redeem (self : PoolIdentity) (owner : OwnerIdentity) (bytes : N)
    (pools : Pools) : Proc Process (Result CapacityPermit CapacityRefusal * Pools) :=
  match pools !! self with
  | None => mret (Err UnknownOwner, pools)
  | Some pool =>
      '(r, pool) ← reserve self owner bytes pool;
      let pools := <[self := pool]> pools in
      match r with
      | Err e => mret (Err e, pools)
      | Ok grant => mret (redeem self grant pools)
      end
  end.

Definition prepare_full (self : PoolIdentity) (owner : OwnerIdentity) (attempt : AttemptId)
    (sources : list CandidateSource) (d : D) (pools : Pools)
  : Proc Process (Result IsolatedCandidate CapacityRefusal * D * Pools) :=
  '(r, pools) ← reserve_and_redeem self owner (reserved_bytes sources) pools;
  match r with
  | Err e => mret (Err e, d, pools)
  | Ok permit =>
      let '(outcome, d) := build_sources sources d in
      mret (Ok (mkCandidate outcome attempt permit), d, pools)
  end.

Definition prepare_delta (self : PoolIdentity) (owner : OwnerIdentity) (attempt : AttemptId)
    (source : CandidateSource) (expect : option SourceContentToken) (d : D) (pools : Pools)
  : Proc Process (Result IsolatedCandidate CapacityRefusal * D * Pools) :=
  '(r, pools) ← reserve_and_redeem self owner (reserved_bytes [source]) pools;
  match r with
  | Err e => mret (Err e, d, pools)
  | Ok permit =>
      let '(outcome, d) := build_sources [source] d in
      let outcome :=
        match outcome with
        | Ready built _ => Ready built (Some (mkDeltaSpec (cs_id source) expect))
        | terminal => terminal
        end in
      mret (Ok (mkCandidate outcome attempt permit), d, pools)
  end.
End Build.

Definition classified_failure (c : IsolatedCandidate) : option ClassifiedFailure :=
  match outcome c with Classified cause => Some cause | _ => None end.

Definition publish_claiming_epoch_only (epoch : N) : PromotionRefusal := EpochIsNotAuthority.

(** [IsolatedCandidate::commit].  The candidate is consumed: every path drops its
    permit.  [Panic] is the [expect] on the changed source. *)
Definition candidate_commit (c : IsolatedCandidate) (sup : SupervisorState)
    (root : ProjectArtifacts) (pools : Pools)
  : Outcome (Result ProjectArtifacts PromotionRefusal * SupervisorState *
             ProjectArtifacts * Pools) :=
  let pools := cpermit_drop (cand_permit c) pools in
  if is_superseded sup (cand_attempt c) then Done (Err PSuperseded, sup, root, pools)
  else if is_terminal_attempt sup (cand_attempt c)
  then Done (Err AttemptAlreadyTerminal, sup, root, pools)
  else
    match outcome c with
    | Classified cause =>
        Done (Err (Failure cause), record_discard (cand_attempt c) cause sup, root, pools)
    | BuildPanicked =>
        Done (Err PPanicked, record_panic (cand_attempt c) sup, root, pools)
    | Ready built None =>
        Done (Ok built, record_commit (cand_attempt c) sup, built, pools)
    | Ready built (Some spec) =>
        let found := art_token <$> root !! changed spec in
        if decide (found ≠ expected spec)
        then Done (Err (SameSourceDrift (expected spec) found), sup, root, pools)
        else
          match built !! changed spec with
          | None => Panic
          | Some arts =>
              let next := <[changed spec := arts]> root in
              Done (Ok next, record_commit (cand_attempt c) sup, next, pools)
          end
    end.

(** [promote_partial_with_capability]: consumes the candidate, publishes nothing. *)
Definition promote_partial_with_capability (c : IsolatedCandidate) (pools : Pools)
  : PromotionRefusal * Pools :=
  (CapabilityCannotAuthorize, cpermit_drop (cand_permit c) pools).

End Candidate.

Arguments CandidateSource : clear implicits.
Arguments IsolatedCandidate : clear implicits.
Arguments SourceArtifacts : clear implicits.
Arguments BuildOutcome : clear implicits.

Section Candidate_properties.
Context {CatalogPath MetadataOnlyReason : Type}.
Abbreviation Source := (CandidateSource CatalogPath MetadataOnlyReason).
Abbreviation Cand := (IsolatedCandidate CatalogPath MetadataOnlyReason).
Abbreviation Project := (gmap SourceId (SourceArtifacts CatalogPath MetadataOnlyReason)).
Implicit Types (c : Cand) (r built : Project).

(** ** Building *)

(** What a promoted source must carry for its observation. *)
Definition complete_for (source : Source) (arts : SourceArtifacts CatalogPath MetadataOnlyReason)
  : Prop :=
  match observation source with
  | Failed _ => False
  | Content path token _ =>
      art_token arts = token ∧ fst <$> artifacts arts = ArtifactKind_REQUIRED ∧
      ∃ stamp, art_manifest arts = [mkManifestEntry path (Indexed stamp)]
  | MetadataOnly path reason =>
      artifacts arts = [] ∧ art_manifest arts = [mkManifestEntry path (EntryMetadataOnly reason)]
  end.

Section Build_lemmas.
Context {D : Type} (derive : Source → D → option N * D).

Lemma build_loop_ready sources : ∀ built d built' delta d',
  build_loop derive sources built d = (Ready built' delta, d') →
  delta = None ∧ Forall (λ s, ∀ cause, observation s ≠ Failed cause) sources ∧
  (∀ id, id ∉ cs_id <$> sources → built' !! id = built !! id) ∧
  (NoDup (cs_id <$> sources) →
   ∀ s, s ∈ sources → ∃ arts, built' !! cs_id s = Some arts ∧ complete_for s arts).
Proof.
  induction sources as [|s rest IH]; intros built d built' delta d' H; simpl in H.
  { simplify_eq. repeat split; [constructor|]. intros _ s Hs. set_solver. }
  assert (∃ arts d1, build_loop derive rest (<[cs_id s := arts]> built) d1
                     = (Ready built' delta, d') ∧ complete_for s arts ∧
                     ∀ cause, observation s ≠ Failed cause) as (arts & d1 & Hb & Hc & Hnf).
  { unfold complete_for. destruct (observation s); [|by eauto 10|done].
    destruct (derive s d) as [[stamp|] d1]; [|done].
    eexists _, _. split; [exact H|]. simpl. eauto 10. }
  destruct (IH _ _ _ _ _ Hb) as (-> & Hall & Hout & Hin).
  split; [done|]. split; [by constructor|]. split.
  - intros id Hid. apply not_elem_of_cons in Hid as [Hne Hid]. rewrite Hout by done.
    by rewrite lookup_insert_ne.
  - intros Hnd x Hx. simpl in Hnd. apply NoDup_cons in Hnd as [Hns Hnd].
    apply elem_of_cons in Hx as [->|Hx]; [|by apply Hin].
    exists arts. rewrite Hout by done. by rewrite lookup_insert_eq.
Qed.
End Build_lemmas.

(** A candidate that is Ready is complete.  If a build over distinct sources is
    Ready then no observation failed, and every source is present with exactly the
    path it was observed at: content with its token and all four required
    artifact kinds in order, a metadata-only source with none. *)
Theorem build_sources_complete {D} (derive : Source → D → option N * D) sources d built
    delta d' :
  build_sources derive sources d = (Ready built delta, d') → NoDup (cs_id <$> sources) →
  (∀ s, s ∈ sources → ∃ arts, built !! cs_id s = Some arts ∧ complete_for s arts) ∧
  (∀ id, id ∉ cs_id <$> sources → built !! id = None) ∧
  ∀ s cause, s ∈ sources → observation s ≠ Failed cause.
Proof.
  intros H Hnd. apply build_loop_ready in H as (_ & Hall & Hout & Hin).
  split; [auto|]. split.
  - intros id Hid. by rewrite Hout, lookup_empty.
  - intros s cause Hs. rewrite Forall_forall in Hall. by apply Hall.
Qed.

(** ** Committing *)

(** A delta candidate carries the source it changes. *)
Definition delta_built c : Prop :=
  match outcome c with
  | Ready built (Some spec) => is_Some (built !! changed spec)
  | _ => True
  end.

Lemma prepare_full_delta_built {D} (derive : Source → D → option N * D) self owner attempt
    sources d pools p c d' pools' p' :
  prepare_full derive self owner attempt sources d pools p = Done ((Ok c, d', pools'), p') →
  delta_built c ∧ cand_attempt c = attempt.
Proof.
  unfold prepare_full. intros H. apply Proc_bind_Done in H as ([r pools1] & p1 & _ & H).
  destruct r as [permit|e]; [|by apply Proc_ret_Done in H].
  destruct (build_sources derive sources d) as [o d1] eqn:Eb.
  apply Proc_ret_Done in H. simplify_eq. unfold delta_built. simpl. split; [|done].
  destruct o as [built [spec|]| |]; try done.
  by apply build_loop_ready in Eb as (? & _).
Qed.

Lemma prepare_delta_delta_built {D} (derive : Source → D → option N * D) self owner attempt
    source expect d pools p c d' pools' p' :
  prepare_delta derive self owner attempt source expect d pools p
    = Done ((Ok c, d', pools'), p') →
  delta_built c ∧ cand_attempt c = attempt.
Proof.
  unfold prepare_delta. intros H. apply Proc_bind_Done in H as ([r pools1] & p1 & _ & H).
  destruct r as [permit|e]; [|by apply Proc_ret_Done in H].
  destruct (build_sources derive [source] d) as [o d1] eqn:Eb.
  apply Proc_ret_Done in H. simplify_eq. unfold delta_built. simpl. split; [|done].
  destruct o as [built delta| |]; try done. simpl.
  apply build_loop_ready in Eb as (_ & _ & _ & Hin).
  destruct (Hin (NoDup_singleton _) source) as (arts & Ha & _); [set_solver|by exists arts].
Qed.

(** What a commit that publishes has checked and does. *)
Definition published c r next : Prop :=
  ∃ built delta, outcome c = Ready built delta ∧
    match delta with
    | None => next = built
    | Some spec =>
        art_token <$> r !! changed spec = expected spec ∧
        ∃ arts, built !! changed spec = Some arts ∧ next = <[changed spec := arts]> r
    end.

Lemma candidate_commit_cases c sup r pools :
  delta_built c →
  ∃ res sup' r', candidate_commit c sup r pools
    = Done (res, sup', r', cpermit_drop (cand_permit c) pools) ∧
    match res with
    | Ok next => r' = next ∧ published c r next ∧ sup' = record_commit (cand_attempt c) sup ∧
        cand_attempt c ∉ superseded sup ∧ cand_attempt c ∉ terminal sup
    | Err e => r' = r ∧
        (sup' = sup ∨ (∃ cause, sup' = record_discard (cand_attempt c) cause sup) ∨
         sup' = record_panic (cand_attempt c) sup)
    end.
Proof.
  intros Hd. unfold candidate_commit, is_superseded, is_terminal_attempt.
  case_bool_decide as Hs; [eexists _, _, _; split; [reflexivity|]; simpl; eauto|].
  case_bool_decide as Ht; [eexists _, _, _; split; [reflexivity|]; simpl; eauto|].
  unfold delta_built, published in *. destruct (outcome c) as [built [spec|]|cause|] eqn:E.
  - case_decide as Hf; [eexists _, _, _; split; [reflexivity|]; simpl; eauto|].
    destruct Hd as [arts Ha]. rewrite Ha.
    eexists _, _, _. split; [done|]. simpl. split; [done|]. split; [|auto].
    eexists _, _. split; [done|]. split; [|by eauto]. done.
  - eexists _, _, _. split; [done|]. simpl. split; [done|]. split; [|auto]. by exists built, None.
  - eexists _, _, _; split; [reflexivity|]; simpl; eauto.
  - eexists _, _, _; split; [reflexivity|]; simpl; eauto.
Qed.

(** The single commit point.  Committing a prepared candidate never panics and
    always gives its reservation back.  If it publishes, its attempt was neither
    superseded nor ended and is now recorded committed; a full candidate becomes
    the root, and a delta matched the live token of the one source it changes and
    leaves every sibling of the latest root as it was.  If it refuses, the root is
    untouched and no attempt is newly committed. *)
Theorem candidate_commit_point c sup r pools :
  delta_built c →
  ∃ res sup' r', candidate_commit c sup r pools
      = Done (res, sup', r', cpermit_drop (cand_permit c) pools) ∧
    match res with
    | Ok next =>
        r' = next ∧ sup' = record_commit (cand_attempt c) sup ∧
        cand_attempt c ∉ superseded sup ∧ cand_attempt c ∉ terminal sup ∧
        ∃ built delta, outcome c = Ready built delta ∧
          match delta with
          | None => next = built
          | Some spec =>
              art_token <$> r !! changed spec = expected spec ∧
              next !! changed spec = built !! changed spec ∧
              ∀ id, id ≠ changed spec → next !! id = r !! id
          end
    | Err _ => r' = r ∧ committed sup' = committed sup
    end.
Proof.
  intros Hd. destruct (candidate_commit_cases c sup r pools Hd) as (res & sup' & r' & H & Hres).
  exists res, sup', r'. split; [done|]. destruct res as [next|e].
  - destruct Hres as (-> & (built & delta & E & Hp) & -> & Hs & Ht). repeat split; auto.
    exists built, delta. split; [done|]. destruct delta as [spec|]; [|done].
    destruct Hp as (Htok & arts & Ha & ->). split; [done|]. split.
    + by rewrite lookup_insert_eq.
    + intros id Hid. by rewrite lookup_insert_ne.
  - destruct Hres as (-> & Hsup). split; [done|].
    unfold record_discard, record_panic, terminal_row in Hsup.
    destruct Hsup as [->|[[cause ->]| ->]]; [done|by case_decide..].
Qed.

(** Deltas to different sources do not lose each other's work.  If two delta
    candidates for different sources would each commit on the same root, then
    committing them one after the other, in either order, publishes both changes,
    and the final roots are equal. *)
Theorem disjoint_deltas_commute c1 c2 built1 spec1 built2 spec2 r a1 a2 :
  outcome c1 = Ready built1 (Some spec1) → outcome c2 = Ready built2 (Some spec2) →
  changed spec1 ≠ changed spec2 →
  published c1 r a1 → published c2 r a2 →
  ∃ next, published c2 a1 next ∧ published c1 a2 next ∧
    next !! changed spec1 = built1 !! changed spec1 ∧
    next !! changed spec2 = built2 !! changed spec2.
Proof.
  intros E1 E2 Hne (b1 & d1 & E1' & H1) (b2 & d2 & E2' & H2).
  rewrite E1 in E1'. rewrite E2 in E2'. injection E1' as <- <-. injection E2' as <- <-.
  destruct H1 as (T1 & arts1 & A1 & ->). destruct H2 as (T2 & arts2 & A2 & ->).
  exists (<[changed spec2 := arts2]> (<[changed spec1 := arts1]> r)). repeat split.
  - exists built2, (Some spec2). split; [done|]. rewrite lookup_insert_ne by done. eauto.
  - exists built1, (Some spec1). split; [done|]. rewrite lookup_insert_ne by done.
    split; [done|]. exists arts1. split; [done|]. by rewrite insert_insert_ne.
  - by rewrite lookup_insert_ne, lookup_insert_eq.
  - by rewrite lookup_insert_eq.
Qed.

(** ** Interleaved candidates

    Any number of candidates over one supervisor and one root; [pubs] is the
    sequence of publications so far. *)

Inductive candidate_step :
  SupervisorState * Project * list (AttemptId * Project) →
  SupervisorState * Project * list (AttemptId * Project) → Prop :=
| cand_begin sup r pubs :
    candidate_step (sup, r, pubs) (snd (begin_attempt sup), r, pubs)
| cand_retry sup r pubs cause :
    candidate_step (sup, r, pubs) (snd (retry_trigger cause sup), r, pubs)
| cand_cancel sup r pubs id :
    attempt_raw id < next_attempt sup → candidate_step (sup, r, pubs) (cancel id sup, r, pubs)
| cand_commit sup r pubs c pools res sup' r' pools' :
    delta_built c → attempt_raw (cand_attempt c) < next_attempt sup →
    candidate_commit c sup r pools = Done (res, sup', r', pools') →
    candidate_step (sup, r, pubs)
      (sup', r', match res with Ok next => pubs ++ [(cand_attempt c, next)] | Err _ => pubs end).

(** The publications are exactly the committed rows, and the root is the last. *)
Definition publications_inv (n : nat)
    (w : SupervisorState * Project * list (AttemptId * Project)) : Prop :=
  let '(sup, r, pubs) := w in
  ∃ h, supervisor_inv n h sup ∧ pubs.*1 = record_id <$> filter is_commit h ∧
       r = default ∅ (snd <$> last pubs).

Lemma commits_zero h : commits h = 0 → filter is_commit h = [].
Proof. unfold commits. intros H. apply nil_length_inv. lia. Qed.

Lemma quiet_publications n sup sup' r pubs :
  supervisor_step sup sup' → committed sup' = committed sup → N.of_nat n + 1 < u64_modulus →
  publications_inv n (sup, r, pubs) → publications_inv (S n) (sup', r, pubs).
Proof.
  intros Hstep Hc Hn (h & Hinv & Hp & Hr).
  destruct (supervisor_step_inv n h sup sup' Hstep Hn Hinv) as [rows Hinv'].
  exists (h ++ rows). split; [done|]. split; [|done].
  destruct Hinv as (_ & Hc1 & _), Hinv' as (_ & Hc2 & _). rewrite commits_app in Hc2.
  rewrite filter_app, (commits_zero rows) by lia. by rewrite app_nil_r.
Qed.

Lemma candidate_step_inv n w w' :
  candidate_step w w' → N.of_nat n + 1 < u64_modulus →
  publications_inv n w → publications_inv (S n) w'.
Proof.
  intros Hstep Hn Hinv. destruct Hstep as
    [sup r pubs|sup r pubs cause|sup r pubs id Hid|sup r pubs c pools res sup' r' pools' Hd Hid H].
  - eapply quiet_publications; eauto using sup_begin.
  - eapply quiet_publications; eauto using sup_retry.
    destruct Hinv as (h & (Hl & _ & Hna & _) & _).
    pose proof (retry_trigger_spec h cause sup Hl ltac:(lia)) as Hs.
    destruct (retry_trigger cause sup). naive_solver.
  - eapply quiet_publications; eauto using sup_cancel.
    unfold cancel, terminal_row. by case_decide.
  - destruct (candidate_commit_cases c sup r pools Hd) as (res1 & sup1 & r1 & H1 & Hres).
    rewrite H in H1. simplify_eq. destruct res1 as [next|e].
    + destruct Hres as (-> & _ & -> & _ & Ht). destruct Hinv as (h & Hinv & Hp & Hr).
      eexists. split; [by apply supervisor_commit_inv|].
      rewrite fmap_app, filter_app, fmap_app, Hp, last_snoc. done.
    + destruct Hres as (-> & [->|[[cause ->]| ->]]).
      * destruct Hinv as (h & (Hl & Hc & Hna & Hcn) & Hp). exists h. split; [|done].
        repeat split; try done; try apply Hl; lia.
      * eapply quiet_publications; eauto using sup_discard.
        unfold record_discard, terminal_row. by case_decide.
      * eapply quiet_publications; eauto using sup_panic.
        unfold record_panic, terminal_row. by case_decide.
Qed.

Lemma candidate_run_inv n w :
  nsteps candidate_step n (supervisor_new, ∅, []) w → N.of_nat n < u64_modulus →
  publications_inv n w.
Proof.
  revert w. induction n as [|n IH]; intros w Hs Hn.
  - inversion Hs; subst. destruct (supervisor_run_inv 0 supervisor_new) as [h Hh];
      [constructor|lia|].
    exists h. split; [done|]. destruct Hh as (_ & Hc & _). simpl in Hc.
    by rewrite (commits_zero h).
  - apply nsteps_inv_r in Hs as (w1 & H1 & H2). eapply candidate_step_inv; [done|lia|].
    apply IH; [done|lia].
Qed.

(** C4: one publication per attempt.  However many candidates race on one source,
    with retries and cancellations in between, every attempt publishes at most
    once, the committed count is the number of publications, every publishing
    attempt has ended, and the root is always the last publication. *)
Theorem one_publication_per_attempt n sup r pubs :
  nsteps candidate_step n (supervisor_new, ∅, []) (sup, r, pubs) →
  N.of_nat n < u64_modulus →
  NoDup pubs.*1 ∧ committed sup = N.of_nat (length pubs) ∧
  (∀ id, id ∈ pubs.*1 → id ∈ terminal sup) ∧ r = default ∅ (snd <$> last pubs).
Proof.
  intros Hs Hn. destruct (candidate_run_inv n _ Hs Hn) as (h & (Hl & Hc & _) & Hp & Hr).
  rewrite <-(length_fmap fst pubs), Hp, length_fmap. split; [|split; [done|split; [|done]]].
  - eapply sublist_NoDup; [apply Hl|]. apply fmap_sublist, sublist_filter.
  - intros id Hid. rewrite (ledger_terminal _ _ Hl), elem_of_list_to_set.
    apply list_elem_of_fmap in Hid as (row & -> & [_ Hrow]%list_elem_of_filter).
    apply list_elem_of_fmap. eauto.
Qed.
End Candidate_properties.

(** ** Reservations

    Preparing and ending a candidate are runs of the capacity ledger, so its
    conservation theorem covers them. *)

Lemma reserve_and_redeem_run self owner bytes pools p held r pools' p' :
  world_ok (mkWorld p pools held) →
  reserve_and_redeem self owner bytes pools p = Done ((r, pools'), p') →
  rtc capacity_step (mkWorld p pools held)
    (mkWorld p' pools'
      (match r with Ok pm => <[cpermit_charge pm := HeldPermit pm]> held | Err _ => held end)) ∧
  (∀ pm, r = Ok pm → cpermit_bytes pm = bytes ∧ held !! cpermit_charge pm = None).
Proof.
  intros Hw H. unfold reserve_and_redeem in H. destruct (pools !! self) as [pool|] eqn:Hi.
  2:{ apply Proc_ret_Done in H. simplify_eq. split; [apply rtc_refl|done]. }
  apply Proc_bind_Done in H as ([rr pool'] & p1 & Hres & H).
  pose proof (cap_reserve p pools held self pool owner bytes rr pool' p1 Hi Hres) as Hstep.
  destruct rr as [g|e]; [|apply Proc_ret_Done in H; simplify_eq; split; [by apply rtc_once|done]].
  apply Proc_ret_Done in H.
  assert (cgrant_pool g = self ∧ cgrant_bytes g = bytes ∧ held !! cgrant_charge g = None)
    as (Eg & Eb & Hnone).
  { unfold reserve in Hres. destruct (rows pool !! owner); [|by apply Proc_ret_Done in Hres].
    case_decide; [by apply Proc_ret_Done in Hres|].
    apply Proc_bind_Done in Hres as (ch & p2 & Hf & Hres). apply Proc_ret_Done in Hres.
    simplify_eq. split; [done|]. split; [done|]. simpl.
    destruct (held !! ch) as [t|] eqn:E; [|done].
    apply fresh_Done in Hf as (Hch & Hz & _).
    destruct (ok_held _ Hw _ _ E) as (_ & _ & Hb). apply below_fresh in Hb; [|done].
    simpl in Hb. congruence. }
  destruct (redeem self g (<[self := pool']> pools)) as [rr pools1] eqn:Hred.
  pose proof (cap_redeem p1 (<[self := pool']> pools)
    (<[cgrant_charge g := HeldGrant g]> held) self (cgrant_charge g) g rr pools1
    (lookup_insert_eq _ _ _) Hred) as Hstep2.
  unfold redeem in Hred. rewrite decide_False in Hred by auto. simplify_eq/=.
  rewrite insert_insert_eq in Hstep2. split; [|by intros pm [= <-]].
  eapply rtc_l; [exact Hstep|]. by apply rtc_once.
Qed.

(** A candidate's reservation lives exactly as long as the candidate.  From a
    sound ledger, preparing a full candidate is a run of the ledger that leaves one
    live permit for exactly the reserved bytes, or leaves the held permits as they
    were; committing the candidate, whatever its outcome, is a run that ends with
    the permits held before it was prepared. *)
Theorem candidate_reservation_returned {CatalogPath MetadataOnlyReason D : Type}
    (derive : CandidateSource CatalogPath MetadataOnlyReason → D → option N * D)
    self owner attempt sources d pools p held r d' pools' p' :
  world_ok (mkWorld p pools held) →
  prepare_full derive self owner attempt sources d pools p = Done ((r, d', pools'), p') →
  match r with
  | Err _ => rtc capacity_step (mkWorld p pools held) (mkWorld p' pools' held)
  | Ok c =>
      let held' := <[cpermit_charge (cand_permit c) := HeldPermit (cand_permit c)]> held in
      cpermit_bytes (cand_permit c) = reserved_bytes sources ∧
      rtc capacity_step (mkWorld p pools held) (mkWorld p' pools' held') ∧
      ∀ sup root, ∃ res sup' root' pools'',
        candidate_commit c sup root pools' = Done (res, sup', root', pools'') ∧
        capacity_step (mkWorld p' pools' held') (mkWorld p' pools'' held)
  end.
Proof.
  intros Hw H. assert (∀ c, r = Ok c → delta_built c) as Hd.
  { intros c ->. by eapply prepare_full_delta_built. }
  unfold prepare_full in H. apply Proc_bind_Done in H as ([rr pools1] & p1 & Hr & H).
  apply (reserve_and_redeem_run _ _ _ _ _ held) in Hr as [Hrun Hpm]; [|done].
  destruct rr as [pm|e]; [|apply Proc_ret_Done in H; by simplify_eq].
  destruct (build_sources derive sources d) as [o d1]. apply Proc_ret_Done in H. simplify_eq.
  simpl. destruct (Hpm pm eq_refl) as [Hb Hnone]. split; [done|]. split; [done|].
  intros sup root.
  destruct (candidate_commit_cases _ sup root pools1 (Hd _ eq_refl)) as (res & sup' & r' & Hc & _).
  eexists _, _, _, _. split; [exact Hc|]. simpl.
  pose proof (cap_drop p1 pools1 (<[cpermit_charge pm := HeldPermit pm]> held)
                (cpermit_charge pm) (HeldPermit pm) (lookup_insert_eq _ _ _)) as Hs.
  by rewrite delete_insert_id in Hs.
Qed.

(** ** Sample candidates: paths are numbers, the closure stamps with its state *)

Definition sample_source (id tok bytes : N) : CandidateSource N unit :=
  mkCandidateSource (mkSourceId id) (Content id (mkContentToken tok) bytes).

Definition sample_derive (s : CandidateSource N unit) (d : N) : option N * N :=
  (Some (d * 10), d + 1).

Definition sample_sources : list (CandidateSource N unit) :=
  [sample_source 1 11 30; mkCandidateSource (mkSourceId 2) (MetadataOnly 2 tt)].

Definition sample_built := fst (build_sources sample_derive sample_sources 1).

Definition sample_candidate_permit : CapacityPermit :=
  mkCapacityPermit (mkOwner 1) 30 (mkIdentity 1) (mkPoolIdentity 1) false.

Definition sample_full : IsolatedCandidate N unit :=
  mkCandidate sample_built (mkAttemptId 0) sample_candidate_permit.

(** A delta that retokens source [id] from [tok] to [tok']. *)
Definition sample_delta (attempt id tok tok' : N) : IsolatedCandidate N unit :=
  mkCandidate
    (Ready {[mkSourceId id := mkSourceArtifacts (mkContentToken tok') [] []]}
           (Some (mkDeltaSpec (mkSourceId id) (Some (mkContentToken tok)))))
    (mkAttemptId attempt) sample_candidate_permit.

Definition sample_root : gmap SourceId (SourceArtifacts N unit) :=
  {[mkSourceId 1 := mkSourceArtifacts (mkContentToken 11) [] [];
    mkSourceId 2 := mkSourceArtifacts (mkContentToken 22) [] []]}.

Lemma build_sources_complete_witness :
  ∃ built, sample_built = Ready built None ∧
    ∃ arts, built !! mkSourceId 1 = Some arts ∧
      complete_for (sample_source 1 11 30) arts.
Proof.
  assert (∃ built, sample_built = Ready built None) as [built E]
    by (eexists; vm_compute; reflexivity).
  exists built. split; [exact E|].
  destruct (build_sources_complete sample_derive sample_sources 1 built None 2) as [H _].
  - rewrite (surjective_pairing (build_sources _ _ _)). f_equal. exact E.
  - apply (bool_decide_unpack _). vm_compute. exact I.
  - apply (H (sample_source 1 11 30)). left.
Defined.

Lemma candidate_commit_point_witness :
  ∃ res sup' r', candidate_commit (sample_delta 0 1 11 12) sample_supervisor sample_root ∅
      = Done (res, sup', r', ∅) ∧ r' !! mkSourceId 2 = sample_root !! mkSourceId 2.
Proof.
  destruct (candidate_commit_point (sample_delta 0 1 11 12) sample_supervisor sample_root ∅)
    as (res & sup' & r' & H & Hres); [vm_compute; by eexists|].
  exists res, sup', r'. split; [exact H|]. destruct res as [next|e].
  - destruct Hres as (-> & _ & _ & _ & built & delta & E & Hd).
    unfold sample_delta in E. simpl in E. injection E as <- <-. destruct Hd as (_ & _ & Hd).
    apply Hd. simpl. intros Heq. discriminate Heq.
  - destruct Hres as [-> _]. reflexivity.
Defined.

Lemma disjoint_deltas_commute_witness :
  ∃ next, published (sample_delta 1 2 22 23)
            (<[mkSourceId 1 := mkSourceArtifacts (mkContentToken 12) [] []]> sample_root) next.
Proof.
  destruct (disjoint_deltas_commute (sample_delta 0 1 11 12) (sample_delta 1 2 22 23)
    {[mkSourceId 1 := mkSourceArtifacts (mkContentToken 12) [] []]}
    (mkDeltaSpec (mkSourceId 1) (Some (mkContentToken 11)))
    {[mkSourceId 2 := mkSourceArtifacts (mkContentToken 23) [] []]}
    (mkDeltaSpec (mkSourceId 2) (Some (mkContentToken 22))) sample_root
    (<[mkSourceId 1 := mkSourceArtifacts (mkContentToken 12) [] []]> sample_root)
    (<[mkSourceId 2 := mkSourceArtifacts (mkContentToken 23) [] []]> sample_root))
    as (next & H & _).
  - reflexivity.
  - reflexivity.
  - discriminate.
  - eexists _, _. split; [reflexivity|]. split; [reflexivity|]. eexists. by split.
  - eexists _, _. split; [reflexivity|]. split; [reflexivity|]. eexists. by split.
  - exists next. exact H.
Defined.

Lemma sample_candidate_run :
  ∃ sup r next, nsteps candidate_step 2 (supervisor_new, ∅, [])
                  (sup, r, [(mkAttemptId 0, next : gmap SourceId (SourceArtifacts N unit))]).
Proof.
  eexists _, _, _. eapply nsteps_l; [apply cand_begin|]. apply nsteps_once.
  eapply (cand_commit _ _ [] sample_full ∅ (Ok _)); [done|done|]. vm_compute. reflexivity.
Qed.

Lemma one_publication_per_attempt_witness :
  ∃ sup r next, committed sup = 1 ∧ mkAttemptId 0 ∈ terminal sup ∧
    r = default ∅ (snd <$> last [(mkAttemptId 0, next : gmap SourceId (SourceArtifacts N unit))]).
Proof.
  destruct sample_candidate_run as (sup & r & next & H).
  destruct (one_publication_per_attempt 2 sup r _ H) as (_ & H1 & H2 & H3); [done|].
  exists sup, r, next. split; [exact H1|]. split; [|exact H3]. apply H2. simpl. left.
Defined.

Lemma candidate_reservation_returned_witness :
  ∃ c d' pools' p',
    prepare_full sample_derive (mkPoolIdentity 1) (mkOwner 1) (mkAttemptId 0) sample_sources 1
      {[mkPoolIdentity 1 := mkPool {[mkOwner 1 := mkOwnerRow 100 0 ∅ None]} 0]}
      (set_static NEXT_POOL 2 (set_static NEXT_OWNER 2 initial_process))
    = Done ((Ok c, d', pools'), p') ∧ cpermit_bytes (cand_permit c) = 30.
Proof.
  eexists _, _, _, _. split; [vm_compute; reflexivity|].
  refine (proj1 (candidate_reservation_returned sample_derive (mkPoolIdentity 1) (mkOwner 1)
    (mkAttemptId 0) sample_sources 1
    {[mkPoolIdentity 1 := mkPool {[mkOwner 1 := mkOwnerRow 100 0 ∅ None]} 0]}
    (set_static NEXT_POOL 2 (set_static NEXT_OWNER 2 initial_process)) ∅ (Ok _) _ _ _ _ _)).
  2:{ vm_compute. reflexivity. }
  constructor; simpl.
  - repeat apply set_static_wf; auto with lifecycle; done.
  - intros i pool [<- <-]%lookup_singleton_Some. split; [|right; done]. split; [|done].
    intros o row Ho. simpl in Ho. apply lookup_singleton_Some in Ho as [<- <-]. constructor; simpl; try done. by right.
  - intros c t Hc. by rewrite lookup_empty in Hc.
  - intros i o c. unfold recorded, held_at. rewrite lookup_empty. simpl.
    destruct (decide (i = mkPoolIdentity 1)) as [->|Hi].
    + rewrite lookup_singleton_eq. simpl. destruct (decide (o = mkOwner 1)) as [->|Ho].
      * rewrite lookup_singleton_eq. simpl. by rewrite lookup_empty.
      * by rewrite lookup_singleton_ne.
    + by rewrite lookup_singleton_ne.
Defined.
