(* ===== verification/Observer.v ===== *)
(** * The observer accumulator and handoff

    Models src/src/index_lifecycle/observer.rs: the bounded coalescing
    accumulator with its latch, monotonic cuts, and the observer slot with its
    drain-before-successor handoff.

    The injected [derive] closure is [Some stamp] when it returns and [None] when
    it unwinds. *)

From Stdlib Require Import Lia NArith.
From stdpp Require Import base gmap sets list strings numbers option relations.
From S2P Require Import Prelude.

#[local] Open Scope N_scope.

Record CutToken := mkCutToken { cut_raw : N }.

Inductive LatchCause : Type := Gap | ScopeDirtyLatch | CapacityExhausted | HandoffBarrier.

#[global] Instance LatchCause_eq_dec : EqDecision LatchCause.
Proof. solve_decision. Defined.

Inductive CutKind : Type :=
| Incremental (invalidations : gmap N N)
| FullBaseline (cause : LatchCause).

Record ObservationCut := mkCut {
  cut_token : CutToken;
  cut_kind : CutKind
}.

Record CoalescingAccumulator := mkAccumulator {
  bound : nat;
  pending : gmap N N;
  latch : option LatchCause;
  next_token : N
}.

Definition accumulator_new (b : nat) : CoalescingAccumulator := mkAccumulator b ∅ None 1.

(** [Option::get_or_insert]. *)
Definition get_or_insert (cause : LatchCause) (l : option LatchCause) : option LatchCause :=
  match l with Some c => Some c | None => Some cause end.

Definition with_latch (cause : LatchCause) (a : CoalescingAccumulator)
  : CoalescingAccumulator :=
  mkAccumulator (bound a) (pending a) (get_or_insert cause (latch a)) (next_token a).

(** [observe]; the flag says whether the call unwound. *)
Definition observe (source : N) (derive : option N) (a : CoalescingAccumulator)
  : bool * CoalescingAccumulator :=
  if decide (pending a !! source = None ∧ (bound a ≤ size (pending a))%nat)
  then (false, with_latch CapacityExhausted a)
  else
    match derive with
    | None => (true, with_latch ScopeDirtyLatch a)
    | Some stamp =>
        (false, mkAccumulator (bound a) (<[source := stamp]> (pending a)) (latch a)
                              (next_token a))
    end.

Definition report_gap : CoalescingAccumulator → CoalescingAccumulator := with_latch Gap.

Definition latch_handoff_barrier : CoalescingAccumulator → CoalescingAccumulator :=
  with_latch HandoffBarrier.

Definition latch_scope_dirty : CoalescingAccumulator → CoalescingAccumulator :=
  with_latch ScopeDirtyLatch.

Definition cut (a : CoalescingAccumulator) : ObservationCut * CoalescingAccumulator :=
  let token := mkCutToken (next_token a) in
  let kind := match latch a with
              | Some cause => FullBaseline cause
              | None => Incremental (pending a)
              end in
  (mkCut token kind, mkAccumulator (bound a) ∅ None (u64_add (next_token a) 1)).

(** ** The observer slot *)

Record ObserverId := mkObserverId { observer_raw : N }.

#[global] Instance ObserverId_eq_dec : EqDecision ObserverId.
Proof. solve_decision. Defined.

Inductive HandoffRefusal : Type :=
| PredecessorStillDraining (undelivered : nat)
| NoHandoffInProgress
| HandoffAlreadyInProgress (bound_successor : ObserverId)
| NotTheActiveObserver (producer : ObserverId).

Record ObserverSlot := mkSlot {
  active : ObserverId;
  undelivered : list (ObserverId * ObservationCut);
  pending_successor : option ObserverId
}.

Definition slot_new (first : ObserverId) : ObserverSlot := mkSlot first [] None.

Definition queue_undelivered (producer : ObserverId) (c : ObservationCut) (s : ObserverSlot)
  : Result unit HandoffRefusal * ObserverSlot :=
  if decide (producer ≠ active s) then (Err (NotTheActiveObserver producer), s)
  else (Ok tt, mkSlot (active s) (undelivered s ++ [(producer, c)]) (pending_successor s)).

Definition begin_handoff (successor : ObserverId) (s : ObserverSlot)
  : Result unit HandoffRefusal * ObserverSlot :=
  match pending_successor s with
  | Some bound_successor => (Err (HandoffAlreadyInProgress bound_successor), s)
  | None => (Ok tt, mkSlot (active s) (undelivered s) (Some successor))
  end.

Definition deliver_pending (s : ObserverSlot) : list ObservationCut * ObserverSlot :=
  (snd <$> undelivered s, mkSlot (active s) [] (pending_successor s)).

Definition complete_handoff (s : ObserverSlot)
  : Result CutKind HandoffRefusal * ObserverSlot :=
  match pending_successor s with
  | None => (Err NoHandoffInProgress, s)
  | Some successor =>
      match undelivered s with
      | [] => (Ok (FullBaseline HandoffBarrier), mkSlot successor [] None)
      | _ => (Err (PredecessorStillDraining (length (undelivered s))), s)
      end
  end.

(** ** The accumulator against its specification

    Between two cuts the accumulator sees a sequence of events; the reference
    keeps everything: the first reason a rescan is needed, and the newest stamp of
    every source. *)

Inductive AccEvent : Type :=
| EvObserve (source : N) (derive : option N)
| EvGap
| EvHandoff
| EvDirty.

Definition acc_event (e : AccEvent) (a : CoalescingAccumulator) : CoalescingAccumulator :=
  match e with
  | EvObserve source derive => snd (observe source derive a)
  | EvGap => report_gap a
  | EvHandoff => latch_handoff_barrier a
  | EvDirty => latch_scope_dirty a
  end.

Definition acc_run (evs : list AccEvent) (a : CoalescingAccumulator)
  : CoalescingAccumulator := foldl (λ a e, acc_event e a) a evs.

(** The newest stamp of every source whose derivation returned. *)
Definition newest_stamps (evs : list AccEvent) : gmap N N :=
  foldl (λ m e, match e with EvObserve s (Some x) => <[s := x]> m | _ => m end) ∅ evs.

(** The sources observed at all. *)
Definition observed_sources (evs : list AccEvent) : gset N :=
  list_to_set (omap (λ e, match e with EvObserve s _ => Some s | _ => None end) evs).

Definition clean_event (e : AccEvent) : Prop :=
  match e with EvObserve _ (Some _) => True | _ => False end.

#[global] Instance clean_event_dec e : Decision (clean_event e).
Proof. destruct e as [? []| | |]; apply _. Defined.

Lemma newest_stamps_snoc evs e :
  newest_stamps (evs ++ [e]) =
  match e with EvObserve s (Some x) => <[s := x]> (newest_stamps evs) | _ => newest_stamps evs end.
Proof. unfold newest_stamps. by rewrite foldl_app. Qed.

Lemma acc_run_snoc evs e a : acc_run (evs ++ [e]) a = acc_event e (acc_run evs a).
Proof. unfold acc_run. by rewrite foldl_app. Qed.

Lemma get_or_insert_Some cause l : get_or_insert cause l ≠ None.
Proof. by destruct l. Qed.

(** A goal about an accumulator that has just been latched. *)
Local Ltac latched :=
  unfold report_gap, latch_handoff_barrier, latch_scope_dirty, with_latch; simpl;
  repeat split; try done; try tauto;
  intros; try match goal with
  | H : get_or_insert _ _ = None |- _ => by apply get_or_insert_Some in H
  end; try tauto.

(** The distinct sources that returned a stamp are sources that were observed. *)
Lemma newest_stamps_dom evs : Forall clean_event evs → dom (newest_stamps evs) = observed_sources evs.
Proof.
  induction evs as [|e evs IH] using rev_ind; intros Hc; [done|].
  apply Forall_app in Hc as [Hc He]. rewrite newest_stamps_snoc.
  unfold observed_sources in *. rewrite omap_app, list_to_set_app_L, <-IH by done.
  apply Forall_cons_1 in He as [He _]. destruct e as [s [x|]| | |]; try done.
  rewrite dom_insert_L. simpl. set_solver.
Qed.

(** The accumulator's state after [evs] on a drained accumulator. *)
Lemma acc_run_state evs b t :
  let a := acc_run evs (mkAccumulator b ∅ None t) in
  bound a = b ∧ next_token a = t ∧ (size (pending a) ≤ b)%nat ∧
  (latch a = None ↔ Forall clean_event evs ∧ (size (newest_stamps evs) ≤ b)%nat) ∧
  (latch a = None → pending a = newest_stamps evs).
Proof.
  induction evs as [|e evs IH] using rev_ind.
  { simpl. unfold newest_stamps. simpl. rewrite map_size_empty. repeat split; auto with lia. }
  simpl in *. rewrite acc_run_snoc, newest_stamps_snoc, Forall_app, Forall_singleton.
  set (a := acc_run evs _) in *. destruct IH as (Hb & Ht & Hsz & Hl & Hp).
  destruct e as [s [x|]| | |]; simpl.
  2:{ unfold observe. case_decide; latched. }
  2-4: latched.
  unfold observe. case_decide as Hfull; simpl.
  - latched. exfalso.
    match goal with H : (Forall _ _ ∧ _) ∧ _ |- _ => destruct H as [[Hc _] Hle] end.
    destruct Hfull as [Hnone Hge].
    assert (size (newest_stamps evs) ≤ size (<[s := x]> (newest_stamps evs)))%nat as Hmono.
    { rewrite map_size_insert. destruct (newest_stamps evs !! s); simpl; lia. }
    assert (pending a = newest_stamps evs) as Hpe by (apply Hp, Hl; split; [done|lia]).
    rewrite <-Hpe in Hle.
    rewrite map_size_insert_None in Hle by done. lia.
  - assert (size (<[s := x]> (pending a)) ≤ b)%nat as Hsz'.
    { rewrite map_size_insert. destruct (pending a !! s) eqn:E; simpl; [done|].
      apply Decidable.not_and in Hfull; [|unfold Decidable.decidable; destruct (pending a !! s); auto].
      destruct Hfull; [done|lia]. }
    repeat split; try done.
    + by apply Hl.
    + by rewrite <-Hp.
    + intros [[Hc _] Hle]. apply Hl. split; [done|]. etransitivity; [|exact Hle].
      rewrite map_size_insert. destruct (newest_stamps evs !! s); simpl; lia.
    + intros H0. by rewrite Hp.
Qed.

(** C38: no observation is lost between cuts.  After any events on a drained
    accumulator, the next cut is incremental exactly when every derivation
    returned, nothing latched and the distinct sources fit the bound; then it
    carries the newest stamp of every source observed and of no other.  In every
    other case it is a full baseline.  Either way the accumulator is drained and
    stays within its bound. *)
Theorem accumulator_loses_nothing evs b t :
  let a := acc_run evs (mkAccumulator b ∅ None t) in
  let '(c, a') := cut a in
  (size (pending a) ≤ b)%nat ∧ a' = mkAccumulator b ∅ None (u64_add t 1) ∧
  cut_token c = mkCutToken t ∧
  match cut_kind c with
  | Incremental invalidations =>
      invalidations = newest_stamps evs ∧ dom invalidations = observed_sources evs ∧
      Forall clean_event evs ∧ (size invalidations ≤ b)%nat
  | FullBaseline _ => ¬ (Forall clean_event evs ∧ (size (newest_stamps evs) ≤ b)%nat)
  end.
Proof.
  pose proof (acc_run_state evs b t) as (Hb & Ht & Hsz & Hl & Hp).
  intros a. fold a in Hb, Ht, Hsz, Hl, Hp. unfold cut. rewrite Hb, Ht.
  split; [done|]. split; [done|]. split; [done|]. simpl.
  destruct (latch a) as [cause|] eqn:E.
  - intros H. apply Hl in H. done.
  - destruct (proj1 Hl eq_refl) as [Hc Hle]. rewrite Hp by done.
    split; [done|]. split; [by apply newest_stamps_dom|done].
Qed.

(** A stream of events with the cuts taken in between. *)
Fixpoint cut_stream (batches : list (list AccEvent)) (a : CoalescingAccumulator)
  : list ObservationCut :=
  match batches with
  | [] => []
  | evs :: rest => let '(c, a) := cut (acc_run evs a) in c :: cut_stream rest a
  end.

Lemma cut_after evs b t :
  cut (acc_run evs (mkAccumulator b ∅ None t)) =
  (fst (cut (acc_run evs (mkAccumulator b ∅ None t))), mkAccumulator b ∅ None (u64_add t 1)) ∧
  cut_token (fst (cut (acc_run evs (mkAccumulator b ∅ None t)))) = mkCutToken t.
Proof.
  pose proof (acc_run_state evs b t) as (Hb & Ht & _). unfold cut. simpl. by rewrite Hb, Ht.
Qed.

Lemma cut_stream_from batches b : ∀ k,
  N.of_nat (k + length batches) + 1 < u64_modulus →
  cut_stream batches (mkAccumulator b ∅ None (N.of_nat k + 1)) =
  imap (λ j evs, fst (cut (acc_run evs (mkAccumulator b ∅ None (N.of_nat (k + j) + 1)))))
       batches ∧
  (λ c, cut_raw (cut_token c)) <$>
    cut_stream batches (mkAccumulator b ∅ None (N.of_nat k + 1))
  = (λ j, N.of_nat j + 1) <$> seq k (length batches).
Proof.
  induction batches as [|evs rest IH]; intros k Hk; [done|].
  rewrite imap_cons. cbn [cut_stream length seq] in *.
  destruct (cut_after evs b (N.of_nat k + 1)) as [E1 E2]. rewrite E1.
  assert (u64_add (N.of_nat k + 1) 1 = N.of_nat (S k) + 1) as ->.
  { rewrite u64_add_small by lia. lia. }
  destruct (IH (S k)) as [H1 H2]; [lia|].
  rewrite !fmap_cons, H2, E2. split; [|done]. f_equal; [by rewrite Nat.add_0_r|].
  rewrite H1. apply imap_ext. intros j x _. simpl. by rewrite Nat.add_succ_r.
Qed.

(** Cut tokens are strictly monotonic, gap or no gap.  The cuts of any stream
    of fewer than 2^64 - 1 batches carry the tokens 1, 2, 3, ... in order, and the
    events after one cut never influence an earlier one: the k-th cut is a function
    of the k-th batch alone. *)
Theorem cut_tokens_monotonic batches b :
  N.of_nat (length batches) + 1 < u64_modulus →
  cut_stream batches (accumulator_new b) =
  imap (λ k evs, fst (cut (acc_run evs (mkAccumulator b ∅ None (N.of_nat k + 1))))) batches ∧
  (λ c, cut_raw (cut_token c)) <$> cut_stream batches (accumulator_new b)
  = (λ k, N.of_nat k + 1) <$> seq 0 (length batches).
Proof. intros Hn. by apply (cut_stream_from batches b 0). Qed.

Lemma cut_tokens_monotonic_witness :
  (λ c, cut_raw (cut_token c)) <$>
    cut_stream [[EvObserve 1 (Some 5)]; [EvGap]; []] (accumulator_new 2) = [1; 2; 3].
Proof. by destruct (cut_tokens_monotonic [[EvObserve 1 (Some 5)]; [EvGap]; []] 2). Defined.

(** ** The slot

    A run of the slot, with the cuts that were accepted and the cuts that were
    delivered. *)

Inductive slot_step :
  ObserverSlot * list ObservationCut * list ObservationCut →
  ObserverSlot * list ObservationCut * list ObservationCut → Prop :=
| slot_queue s accepted delivered producer c r s' :
    queue_undelivered producer c s = (r, s') →
    slot_step (s, accepted, delivered)
      (s', match r with Ok _ => accepted ++ [c] | Err _ => accepted end, delivered)
| slot_begin s accepted delivered successor r s' :
    begin_handoff successor s = (r, s') →
    slot_step (s, accepted, delivered) (s', accepted, delivered)
| slot_deliver s accepted delivered cuts s' :
    deliver_pending s = (cuts, s') →
    slot_step (s, accepted, delivered) (s', accepted, delivered ++ cuts)
| slot_complete s accepted delivered r s' :
    complete_handoff s = (r, s') →
    slot_step (s, accepted, delivered) (s', accepted, delivered).

Definition slot_inv (w : ObserverSlot * list ObservationCut * list ObservationCut) : Prop :=
  let '(s, accepted, delivered) := w in
  accepted = delivered ++ (snd <$> undelivered s) ∧
  Forall (λ pc, fst pc = active s) (undelivered s).

Lemma slot_step_inv w w' : slot_step w w' → slot_inv w → slot_inv w'.
Proof.
  intros Hstep. destruct Hstep as [s acc del producer c r s' H|s acc del succ r s' H
    |s acc del cuts s' H|s acc del r s' H]; intros [Ha Hf]; unfold slot_inv in *.
  - unfold queue_undelivered in H. case_decide as E; simplify_eq/=; [done|].
    split; [by rewrite fmap_app, app_assoc|]. apply Forall_app. split; [done|]. by constructor.
  - unfold begin_handoff in H. by destruct (pending_successor s); simplify_eq/=.
  - unfold deliver_pending in H. simplify_eq/=. by rewrite app_nil_r.
  - unfold complete_handoff in H. destruct (pending_successor s); [|by simplify_eq].
    destruct (undelivered s) eqn:E; simplify_eq/=; rewrite ?E; [|done].
    by split.
Qed.


