(* ===== verification/Verification.v ===== *)
(** * Rolling verification

    Models src/src/index_lifecycle/verification.rs: sealed scope receipts, the
    work bound, rolling passes, the pass scheduler and the verifier with its
    fixed deadline and overdue latch.

    Instants and durations are milliseconds; the additions the code makes on
    [u64] instants are [u64_add]. *)

From Stdlib Require Import Lia NArith.
From stdpp Require Import base gmap sets list strings numbers option relations.
From S2P Require Import Prelude Identity.

#[local] Open Scope N_scope.

Definition DEFAULT_MAX_VERIFICATION_BYTES : N := 17179869184.
Definition DEFAULT_MAX_VERIFICATION_ENTRIES : N := 200000.
Definition DEFAULT_MAX_COMPLETE_VERIFICATION_PASS : N := 720 * 1000.
Definition RESERVED_VERIFICATION_BYTES_PER_SECOND : N := 33554432.
Definition RESERVED_VERIFICATION_ENTRIES_PER_SECOND : N := 1000.
Definition MAX_CURRENT_UNVERIFIED_AGE : N := 900 * 1000.

Record MonotonicInstant := mkInstant { millis : N }.

Definition instant_plus (i : MonotonicInstant) (delta : N) : MonotonicInstant :=
  mkInstant (u64_add (millis i) delta).

Definition age_millis : N := MAX_CURRENT_UNVERIFIED_AGE.

Record PolicyVersion := mkPolicy { policy_raw : N }.

#[global] Instance PolicyVersion_eq_dec : EqDecision PolicyVersion.
Proof. solve_decision. Defined.

Record VerificationScopeReceiptId := mkReceiptId { receipt_raw : N }.

#[global] Instance VerificationScopeReceiptId_eq_dec : EqDecision VerificationScopeReceiptId.
Proof. solve_decision. Defined.

Inductive NonCurrentCause : Type := CauseOverdueLatched | ReservationLost | CausePolicyMismatch.

#[global] Instance NonCurrentCause_eq_dec : EqDecision NonCurrentCause.
Proof. solve_decision. Defined.

Inductive VerificationRefusal : Type :=
| OverdueLatched
| NotWholeScope (missing extra mismatched : nat)
| ProofFenced
| WorkBeyondCaps
| PolicyMismatch
| FeasibilityNotForThisScope
| NonCurrent (cause : NonCurrentCause)
| ScopeDirty.

Record VerificationScopeReceipt := mkScopeReceipt {
  receipt_id : VerificationScopeReceiptId;
  receipt_policy : PolicyVersion;
  entries : gmap N N
}.

Definition seal (policy : PolicyVersion) (es : gmap N N)
  : Proc Process VerificationScopeReceipt :=
  raw ← fetch_add NEXT_RECEIPT;
  mret (mkScopeReceipt (mkReceiptId raw) policy es).

Record VerificationWorkBound := mkWorkBound {
  scope_receipt : VerificationScopeReceiptId;
  work_bound : N
}.

(** [u64::div_ceil]. *)
Definition div_ceil (a b : N) : N := if decide (a mod b = 0) then a / b else a / b + 1.

Definition for_scope (receipt : VerificationScopeReceipt) (bytes ents : N)
  : Result VerificationWorkBound VerificationRefusal :=
  if decide (DEFAULT_MAX_VERIFICATION_BYTES < bytes ∨ DEFAULT_MAX_VERIFICATION_ENTRIES < ents)
  then Err WorkBeyondCaps
  else
    let seconds := u64_add (div_ceil bytes RESERVED_VERIFICATION_BYTES_PER_SECOND)
                           (div_ceil ents RESERVED_VERIFICATION_ENTRIES_PER_SECOND) in
    Ok (mkWorkBound (receipt_id receipt) (seconds * 1000)).

Record VerificationFeasibilityReceipt := mkFeasibility { feasibility_work : VerificationWorkBound }.

Definition feasibility_reserve (work : VerificationWorkBound)
  : VerificationFeasibilityReceipt := mkFeasibility work.

Definition feasibility_scope (f : VerificationFeasibilityReceipt)
  : VerificationScopeReceiptId := scope_receipt (feasibility_work f).

Record VerificationRecord := mkVerificationRecord { vrecord_receipt : VerificationScopeReceiptId }.

Record RollingPass := mkPass {
  pass_receipt : VerificationScopeReceiptId;
  pass_scope : gmap N N;
  verified : gmap N N
}.

(** [BTreeMap::extend]: later values win. *)
Definition verify_chunk (observed : gmap N N) (pass : RollingPass)
  : Result unit VerificationRefusal * RollingPass :=
  (Ok tt, mkPass (pass_receipt pass) (pass_scope pass) (observed ∪ verified pass)).

Definition remaining (pass : RollingPass) : gset N :=
  dom (pass_scope pass) ∖ dom (verified pass).

(** [is_some_and(|seen| seen != stamp)]. *)
Definition seen_differs (seen : option N) (stamp : N) : bool :=
  match seen with Some x => negb (x =? stamp) | None => false end.

Definition complete (pass : RollingPass) : Result VerificationRecord VerificationRefusal :=
  let missing := size (filter (λ kv, verified pass !! fst kv = None) (pass_scope pass)) in
  let extra := size (filter (λ kv, pass_scope pass !! fst kv = None) (verified pass)) in
  let mismatched :=
    size (filter (λ kv, seen_differs (verified pass !! fst kv) (snd kv) = true)
                 (pass_scope pass)) in
  if decide (0 < missing + extra + mismatched)%nat
  then Err (NotWholeScope missing extra mismatched)
  else Ok (mkVerificationRecord (pass_receipt pass)).

(** ** The scheduler *)

Definition scheduler_register (pass_id : N) (queue : list N) : list N := queue ++ [pass_id].

Definition next_grant (queue : list N) : option N * list N :=
  match queue with
  | [] => (None, [])
  | granted :: rest => (Some granted, rest ++ [granted])
  end.

(** ** The verifier *)

Record RollingVerifier := mkVerifier {
  receipt : VerificationScopeReceipt;
  feasibility : VerificationFeasibilityReceipt;
  verified_at : MonotonicInstant;
  non_current : option NonCurrentCause;
  scope_dirty : bool
}.

Definition verifier_promote (r : VerificationScopeReceipt) (f : VerificationFeasibilityReceipt)
    (now : MonotonicInstant) : Result RollingVerifier VerificationRefusal :=
  if decide (feasibility_scope f ≠ receipt_id r) then Err FeasibilityNotForThisScope
  else Ok (mkVerifier r f now None false).

Definition with_non_current (c : option NonCurrentCause) (v : RollingVerifier)
  : RollingVerifier :=
  mkVerifier (receipt v) (feasibility v) (verified_at v) c (scope_dirty v).

(** Latch a policy mismatch without relabelling a latched cause. *)
Definition latch_policy_mismatch (v : RollingVerifier) : RollingVerifier :=
  match non_current v with
  | None => with_non_current (Some CausePolicyMismatch) v
  | Some _ => v
  end.

Definition begin_pass (policy : PolicyVersion) (v : RollingVerifier)
  : Result RollingPass VerificationRefusal * RollingVerifier :=
  if decide (policy ≠ receipt_policy (receipt v))
  then (Err PolicyMismatch, latch_policy_mismatch v)
  else
    match non_current v with
    | None | Some CauseOverdueLatched =>
        (Ok (mkPass (receipt_id (receipt v)) (entries (receipt v)) ∅), v)
    | Some cause => (Err (NonCurrent cause), v)
    end.

Definition deadline (v : RollingVerifier) : N := u64_add (millis (verified_at v)) age_millis.

Definition is_current (now : MonotonicInstant) (v : RollingVerifier) : bool :=
  match non_current v with None => millis now <? deadline v | Some _ => false end.

Definition acquire_strict (now : MonotonicInstant) (v : RollingVerifier)
  : Result unit VerificationRefusal * RollingVerifier :=
  match non_current v with
  | Some CauseOverdueLatched => (Err OverdueLatched, v)
  | Some cause => (Err (NonCurrent cause), v)
  | None =>
      if decide (deadline v ≤ millis now)
      then (Err OverdueLatched, with_non_current (Some CauseOverdueLatched) v)
      else (Ok tt, v)
  end.

Definition advance (record : VerificationRecord) (now : MonotonicInstant)
    (v : RollingVerifier) : Result unit VerificationRefusal * RollingVerifier :=
  if decide (vrecord_receipt record ≠ receipt_id (receipt v)) then (Err ProofFenced, v)
  else if scope_dirty v then (Err ScopeDirty, v)
  else
    match non_current v with
    | None | Some CauseOverdueLatched =>
        (Ok tt, mkVerifier (receipt v) (feasibility v) now None (scope_dirty v))
    | Some cause => (Err (NonCurrent cause), v)
    end.

Definition refresh_scope (r : VerificationScopeReceipt) (v : RollingVerifier)
  : Result unit VerificationRefusal * RollingVerifier :=
  if decide (receipt_policy r ≠ receipt_policy (receipt v))
  then (Err PolicyMismatch, latch_policy_mismatch v)
  else (Ok tt, mkVerifier r (feasibility v) (verified_at v) (non_current v) false).

Definition observe_rewrite (entry stamp : N) (v : RollingVerifier) : RollingVerifier :=
  match entries (receipt v) !! entry with
  | Some sealed =>
      if decide (sealed = stamp) then v
      else mkVerifier (receipt v) (feasibility v) (verified_at v) (non_current v) true
  | None => mkVerifier (receipt v) (feasibility v) (verified_at v) (non_current v) true
  end.

Definition reservation_lost (v : RollingVerifier) : RollingVerifier :=
  with_non_current (Some ReservationLost) v.

Definition re_scout (r : VerificationScopeReceipt) (f : VerificationFeasibilityReceipt)
    (now : MonotonicInstant) (v : RollingVerifier)
  : Result unit VerificationRefusal * RollingVerifier :=
  if decide (feasibility_scope f ≠ receipt_id r) then (Err FeasibilityNotForThisScope, v)
  else (Ok tt, mkVerifier r f now None false).

(** ** Passes *)

Lemma filter_size_zero (P : N * N → Prop) `{∀ x, Decision (P x)} (m : gmap N N) :
  size (filter P m) = 0%nat ↔ ∀ k x, m !! k = Some x → ¬ P (k, x).
Proof.
  rewrite map_size_empty_iff. split.
  - intros Hm k x Hk HP. assert (filter P m !! k = Some x) as Hf
      by (by apply map_lookup_filter_Some). by rewrite Hm, lookup_empty in Hf.
  - intros Hm. apply map_empty. intros k. apply map_lookup_filter_None. right. auto.
Qed.

(** Only the exact sealed scope completes.  A pass produces a record exactly
    when what it verified is the sealed scope itself: nothing missing, nothing
    extra, every stamp identical; the record names the receipt the pass was begun
    under.  Otherwise the refusal counts what is wrong, and it is not nothing. *)
Theorem complete_iff_exact_scope pass :
  match complete pass with
  | Ok record =>
      verified pass = pass_scope pass ∧ vrecord_receipt record = pass_receipt pass
  | Err (NotWholeScope missing extra mismatched) =>
      verified pass ≠ pass_scope pass ∧ (0 < missing + extra + mismatched)%nat
  | Err _ => False
  end.
Proof.
  unfold complete. case_decide as Hd.
  - split; [|done]. intros E. rewrite E in Hd.
    assert (∀ P `{∀ x, Decision (P x)}, (∀ k x, pass_scope pass !! k = Some x → ¬ P (k, x)) →
            size (filter P (pass_scope pass)) = 0%nat) as Hz.
    { intros P HP H. by apply filter_size_zero. }
    rewrite !Hz in Hd; [lia| |]; simpl; intros k x Hk; rewrite Hk; [|done].
    simpl. by rewrite N.eqb_refl.
  - split; [|done].
    assert (size (filter (λ kv, verified pass !! fst kv = None) (pass_scope pass)) = 0%nat ∧
      size (filter (λ kv, pass_scope pass !! fst kv = None) (verified pass)) = 0%nat ∧
      size (filter (λ kv, seen_differs (verified pass !! fst kv) (snd kv) = true)
                 (pass_scope pass)) = 0%nat) as (H1 & H2 & H3) by lia.
    rewrite filter_size_zero in H1, H2, H3. simpl in *. apply map_eq. intros k.
    destruct (pass_scope pass !! k) as [x|] eqn:E.
    + specialize (H1 _ _ E). specialize (H3 _ _ E).
      destruct (verified pass !! k) as [y|]; [|done]. simpl in H3.
      apply not_true_iff_false, negb_false_iff, N.eqb_eq in H3. congruence.
    + destruct (verified pass !! k) as [y|] eqn:Ey; [|done]. by specialize (H2 _ _ Ey).
Qed.

(** An admitted scope can always be verified in time.  Work within the caps is
    admitted with a bound, computed for that receipt, of at most 712 seconds: below
    the 720-second ceiling of a pass and the 900-second deadline, without
    overflow; work beyond the caps is refused. *)
Theorem work_bound_affordable r bytes ents :
  match for_scope r bytes ents with
  | Ok w =>
      bytes ≤ DEFAULT_MAX_VERIFICATION_BYTES ∧ ents ≤ DEFAULT_MAX_VERIFICATION_ENTRIES ∧
      scope_receipt w = receipt_id r ∧ work_bound w ≤ 712 * 1000 ∧
      bytes * 1000 ≤ RESERVED_VERIFICATION_BYTES_PER_SECOND * work_bound w ∧
      ents * 1000 ≤ RESERVED_VERIFICATION_ENTRIES_PER_SECOND * work_bound w ∧
      work_bound w < DEFAULT_MAX_COMPLETE_VERIFICATION_PASS ∧ work_bound w < age_millis
  | Err e =>
      e = WorkBeyondCaps ∧
      (DEFAULT_MAX_VERIFICATION_BYTES < bytes ∨ DEFAULT_MAX_VERIFICATION_ENTRIES < ents)
  end.
Proof.
  unfold for_scope. case_decide as Hd; [done|].
  assert (∀ a b c, 0 < b → a ≤ b * c → div_ceil a b ≤ c ∧ a ≤ b * div_ceil a b) as Hdiv.
  { intros a b c Hb Ha. unfold div_ceil. pose proof (N.div_mod a b ltac:(lia)) as E.
    pose proof (N.mod_lt a b ltac:(lia)). set (q := a / b) in *. set (m := a mod b) in *.
    case_decide; split; nia. }
  unfold DEFAULT_MAX_VERIFICATION_BYTES, DEFAULT_MAX_VERIFICATION_ENTRIES,
    DEFAULT_MAX_COMPLETE_VERIFICATION_PASS, age_millis, MAX_CURRENT_UNVERIFIED_AGE in *.
  destruct (Hdiv bytes RESERVED_VERIFICATION_BYTES_PER_SECOND 512) as [B1 B2];
    [done|unfold RESERVED_VERIFICATION_BYTES_PER_SECOND; lia|].
  destruct (Hdiv ents RESERVED_VERIFICATION_ENTRIES_PER_SECOND 200) as [E1 E2];
    [done|unfold RESERVED_VERIFICATION_ENTRIES_PER_SECOND; lia|].
  simpl. rewrite u64_add_small by (unfold u64_modulus; lia).
  repeat split; lia || nia.
Qed.

(** ** Runs of one verifier

    The world holds the process counters, every receipt sealed so far, the
    verifier, the passes and records alive, the clock, and the proofs the verifier
    has accepted, newest first.  A record is kept with the entries its pass had
    verified. *)

Inductive Proof : Type :=
| Scouted (at_ : N)
| Verified (at_ : N) (id : VerificationScopeReceiptId) (checked : gmap N N).

Definition proof_time (x : Proof) : N :=
  match x with Scouted t | Verified t _ _ => t end.

Record VerifierWorld := mkVWorld {
  vw_process : Process;
  vw_sealed : gmap N VerificationScopeReceipt;
  vw_verifier : RollingVerifier;
  vw_passes : list RollingPass;
  vw_records : list (VerificationRecord * gmap N N);
  vw_clock : N;
  vw_proofs : list Proof
}.

Definition with_verifier (v : RollingVerifier) (w : VerifierWorld) : VerifierWorld :=
  mkVWorld (vw_process w) (vw_sealed w) v (vw_passes w) (vw_records w) (vw_clock w)
           (vw_proofs w).

(** Steps other than the re-scout. *)
Inductive verifier_step : VerifierWorld → VerifierWorld → Prop :=
| v_tick w t : vw_clock w ≤ t →
    verifier_step w (mkVWorld (vw_process w) (vw_sealed w) (vw_verifier w) (vw_passes w)
                              (vw_records w) t (vw_proofs w))
| v_seal w policy es r p' :
    seal policy es (vw_process w) = Done (r, p') →
    statics (vw_process w) NEXT_RECEIPT + 1 < u64_modulus →
    verifier_step w (mkVWorld p' (<[receipt_raw (receipt_id r) := r]> (vw_sealed w))
                       (vw_verifier w) (vw_passes w) (vw_records w) (vw_clock w)
                       (vw_proofs w))
| v_begin w policy r v' :
    begin_pass policy (vw_verifier w) = (r, v') →
    verifier_step w
      (mkVWorld (vw_process w) (vw_sealed w) v'
         (match r with Ok pass => pass :: vw_passes w | Err _ => vw_passes w end)
         (vw_records w) (vw_clock w) (vw_proofs w))
| v_chunk w ps1 pass ps2 observed r pass' :
    vw_passes w = ps1 ++ pass :: ps2 → verify_chunk observed pass = (r, pass') →
    verifier_step w
      (mkVWorld (vw_process w) (vw_sealed w) (vw_verifier w) (ps1 ++ pass' :: ps2)
                (vw_records w) (vw_clock w) (vw_proofs w))
| v_complete w ps1 pass ps2 r :
    vw_passes w = ps1 ++ pass :: ps2 → complete pass = r →
    verifier_step w
      (mkVWorld (vw_process w) (vw_sealed w) (vw_verifier w) (ps1 ++ ps2)
         (match r with
          | Ok record => (record, verified pass) :: vw_records w
          | Err _ => vw_records w
          end) (vw_clock w) (vw_proofs w))
| v_advance w rs1 record checked rs2 r v' :
    vw_records w = rs1 ++ (record, checked) :: rs2 →
    advance record (mkInstant (vw_clock w)) (vw_verifier w) = (r, v') →
    verifier_step w
      (mkVWorld (vw_process w) (vw_sealed w) v' (vw_passes w) (rs1 ++ rs2) (vw_clock w)
         (match r with
          | Ok _ => Verified (vw_clock w) (vrecord_receipt record) checked :: vw_proofs w
          | Err _ => vw_proofs w
          end))
| v_acquire w r v' :
    acquire_strict (mkInstant (vw_clock w)) (vw_verifier w) = (r, v') →
    verifier_step w (with_verifier v' w)
| v_refresh w sealed r v' :
    vw_sealed w !! receipt_raw (receipt_id sealed) = Some sealed →
    refresh_scope sealed (vw_verifier w) = (r, v') →
    verifier_step w (with_verifier v' w)
| v_rewrite w entry stamp :
    verifier_step w (with_verifier (observe_rewrite entry stamp (vw_verifier w)) w)
| v_lost w : verifier_step w (with_verifier (reservation_lost (vw_verifier w)) w).

Inductive scout_step : VerifierWorld → VerifierWorld → Prop :=
| v_scout w sealed f r v' :
    vw_sealed w !! receipt_raw (receipt_id sealed) = Some sealed →
    re_scout sealed f (mkInstant (vw_clock w)) (vw_verifier w) = (r, v') →
    scout_step w
      (mkVWorld (vw_process w) (vw_sealed w) v' (vw_passes w) (vw_records w) (vw_clock w)
         (match r with Ok _ => Scouted (vw_clock w) :: vw_proofs w | Err _ => vw_proofs w end)).

Definition any_step (w w' : VerifierWorld) : Prop := verifier_step w w' ∨ scout_step w w'.

(** A verifier promoted at [now] with a receipt it sealed. *)
Definition promoted (w : VerifierWorld) : Prop :=
  ∃ r f, verifier_promote r f (mkInstant (vw_clock w)) = Ok (vw_verifier w) ∧
    vw_sealed w = {[receipt_raw (receipt_id r) := r]} ∧
    receipt_raw (receipt_id r) < statics (vw_process w) NEXT_RECEIPT ∧
    vw_passes w = [] ∧ vw_records w = [] ∧ vw_proofs w = [Scouted (vw_clock w)].

Record world_inv (w : VerifierWorld) : Prop := mk_world_inv {
  inv_sealed_below : ∀ k r, vw_sealed w !! k = Some r → k < statics (vw_process w) NEXT_RECEIPT;
  inv_receipt : vw_sealed w !! receipt_raw (receipt_id (receipt (vw_verifier w)))
                = Some (receipt (vw_verifier w));
  inv_passes : ∀ pass, pass ∈ vw_passes w →
    ∃ r, vw_sealed w !! receipt_raw (pass_receipt pass) = Some r ∧ entries r = pass_scope pass;
  inv_records : ∀ record checked, (record, checked) ∈ vw_records w →
    ∃ r, vw_sealed w !! receipt_raw (vrecord_receipt record) = Some r ∧ entries r = checked;
  inv_proofs : ∀ t id checked, Verified t id checked ∈ vw_proofs w →
    ∃ r, vw_sealed w !! receipt_raw id = Some r ∧ entries r = checked;
  inv_last : ∃ x rest, vw_proofs w = x :: rest ∧
    proof_time x = millis (verified_at (vw_verifier w));
  inv_times : ∀ x, x ∈ vw_proofs w → proof_time x ≤ vw_clock w
}.

Lemma promoted_inv w : promoted w → world_inv w.
Proof.
  intros (r & f & Hp & Hs & Hb & Hpa & Hre & Hpr). unfold verifier_promote in Hp.
  case_decide; [done|]. injection Hp as Hv.
  constructor; rewrite ?Hs, ?Hpa, ?Hre, ?Hpr, <-?Hv; simpl.
  - intros k r' [<- <-]%lookup_singleton_Some. done.
  - by rewrite lookup_singleton_eq.
  - intros pass Hin. set_solver.
  - intros rec c Hin. set_solver.
  - intros t id c Hin. set_solver.
  - by eexists _, _.
  - intros x ->%list_elem_of_singleton. done.
Qed.

(** What the verifier keeps across the operations that accept no proof: its
    receipt stays sealed and its time stays put. *)
Lemma world_inv_verifier w v' :
  world_inv w →
  vw_sealed w !! receipt_raw (receipt_id (receipt v')) = Some (receipt v') →
  verified_at v' = verified_at (vw_verifier w) → world_inv (with_verifier v' w).
Proof. intros [H1 H2 H3 H4 H5 H6 H7] Hr Ht. constructor; simpl; auto. by rewrite Ht. Qed.

Lemma latch_policy_mismatch_same v :
  receipt (latch_policy_mismatch v) = receipt v ∧
  verified_at (latch_policy_mismatch v) = verified_at v.
Proof. unfold latch_policy_mismatch. by destruct (non_current v). Qed.

Lemma begin_pass_same policy v r v' :
  begin_pass policy v = (r, v') →
  receipt v' = receipt v ∧ verified_at v' = verified_at v ∧
  ∀ pass, r = Ok pass →
    pass_receipt pass = receipt_id (receipt v) ∧ pass_scope pass = entries (receipt v).
Proof.
  unfold begin_pass. intros H. case_decide.
  - simplify_eq. destruct (latch_policy_mismatch_same v). done.
  - destruct (non_current v) as [[]|]; simplify_eq; split; try done; split; try done;
      intros pass Hp; by simplify_eq.
Qed.

Lemma refresh_scope_same s v r v' :
  refresh_scope s v = (r, v') →
  verified_at v' = verified_at v ∧ (receipt v' = receipt v ∨ receipt v' = s).
Proof.
  unfold refresh_scope. intros H. case_decide; simplify_eq; [|by auto].
  destruct (latch_policy_mismatch_same v). auto.
Qed.

Lemma advance_cases record now v r v' :
  advance record now v = (r, v') →
  (∃ e, r = Err e ∧ v' = v) ∨
  (r = Ok tt ∧ vrecord_receipt record = receipt_id (receipt v) ∧ scope_dirty v = false ∧
   (non_current v = None ∨ non_current v = Some CauseOverdueLatched) ∧
   v' = mkVerifier (receipt v) (feasibility v) now None false).
Proof.
  unfold advance. intros H. case_decide as Hid; [simplify_eq; eauto|].
  destruct (scope_dirty v) eqn:Hd; [simplify_eq; eauto|].
  destruct (non_current v) as [[]|]; simplify_eq; eauto; right; auto 10.
Qed.

Lemma acquire_strict_same now v r v' :
  acquire_strict now v = (r, v') → receipt v' = receipt v ∧ verified_at v' = verified_at v.
Proof.
  unfold acquire_strict. intros H.
  destruct (non_current v) as [[]|]; [..|case_decide]; by simplify_eq.
Qed.

Lemma seal_world_inv w policy es r p' :
  seal policy es (vw_process w) = Done (r, p') →
  statics (vw_process w) NEXT_RECEIPT + 1 < u64_modulus → world_inv w →
  vw_sealed w !! receipt_raw (receipt_id r) = None ∧
  ∀ k x, <[receipt_raw (receipt_id r) := r]> (vw_sealed w) !! k = Some x →
         k < statics p' NEXT_RECEIPT.
Proof.
  unfold seal. intros H Hr [H1 _ _ _ _ _ _].
  apply Proc_bind_Done in H as (raw & p1 & [-> ->]%fetch_add_Done & H).
  apply Proc_ret_Done in H. injection H as -> ->. cbn [receipt_id receipt_raw].
  rewrite statics_set_eq, u64_add_small by done. split.
  - destruct (vw_sealed w !! _) eqn:E; [|done]. apply H1 in E. lia.
  - intros k x [[<- _]|[_ Hk]]%lookup_insert_Some; [lia|]. apply H1 in Hk. lia.
Qed.

Lemma verifier_step_inv w w' : any_step w w' → world_inv w → world_inv w'.
Proof.
  intros Hstep Hinv. pose proof Hinv as [H1 H2 H3 H4 H5 H6 H7].
  destruct Hstep as [Hstep|Hstep]; [destruct Hstep as
    [w t Ht|w policy es r p' Hs Hroom|w policy r v' Hb|w ps1 pass ps2 ob r pass' Hp Hc
    |w ps1 pass ps2 r Hp Hc|w rs1 record checked rs2 r v' Hr Ha|w r v' Ha|w sealed r v' Hse Hr
    |w entry stamp|w]|destruct Hstep as [w sealed f r v' Hse Hr]].
  - constructor; simpl; auto. intros x Hx. specialize (H7 x Hx). lia.
  - destruct (seal_world_inv _ _ _ _ _ Hs Hroom Hinv) as [Hfresh Hbelow].
    assert (∀ k x, vw_sealed w !! k = Some x →
      <[receipt_raw (receipt_id r) := r]> (vw_sealed w) !! k = Some x) as Hmono.
    { intros k x Hk. rewrite lookup_insert_ne; [done|]. intros <-. congruence. }
    constructor; simpl; auto.
    + intros pass Hin. destruct (H3 _ Hin) as (x & ? & ?). eauto.
    + intros rec c Hin. destruct (H4 _ _ Hin) as (x & ? & ?). eauto.
    + intros t i c Hin. destruct (H5 _ _ _ Hin) as (x & ? & ?). eauto.
  - apply begin_pass_same in Hb as (Er & Et & Hok). constructor; simpl; rewrite ?Er, ?Et; auto.
    intros pass Hin. destruct r as [pass0|e]; [|auto].
    apply elem_of_cons in Hin as [->|Hin]; [|auto]. destruct (Hok _ eq_refl) as [-> ->]. eauto.
  - rewrite Hp in H3. unfold verify_chunk in Hc. injection Hc as <- <-.
    constructor; simpl; auto.
    intros x Hx. rewrite elem_of_app, elem_of_cons in Hx. destruct Hx as [Hx|[->|Hx]];
      [apply H3; set_solver|apply (H3 pass); set_solver|apply H3; set_solver].
  - rewrite Hp in H3. constructor; simpl; auto.
    + intros x Hx. apply H3. set_solver.
    + intros rec c Hin. pose proof (complete_iff_exact_scope pass) as Hex. rewrite Hc in Hex.
      destruct r as [record|e]; [|auto]. apply elem_of_cons in Hin as [Hin|Hin]; [|auto].
      simplify_eq. destruct Hex as [-> ->]. apply (H3 pass). set_solver.
  - destruct (H4 record checked) as (sc & Hsc & Hent); [rewrite Hr; set_solver|].
    assert (∀ rec c, (rec, c) ∈ rs1 ++ rs2 → (rec, c) ∈ vw_records w) as Hsub
      by (rewrite Hr; set_solver).
    apply advance_cases in Ha as [(e & -> & ->)|(-> & _ & _ & _ & ->)];
      constructor; simpl; auto.
    + intros t i c [Hin|Hin]%elem_of_cons; [|eauto]. injection Hin as -> -> ->. eauto.
    + by eexists _, _.
    + intros x [->|Hx]%elem_of_cons; [done|auto].
  - apply acquire_strict_same in Ha as [Er Et]. apply world_inv_verifier; auto. by rewrite Er.
  - apply refresh_scope_same in Hr as (Et & [Er|Er]); apply world_inv_verifier; auto; by rewrite Er.
  - unfold observe_rewrite. destruct (entries _ !! entry); [case_decide|];
      by apply world_inv_verifier.
  - by apply world_inv_verifier.
  - unfold re_scout in Hr. case_decide; simplify_eq; [by constructor|].
    constructor; simpl; auto.
    + intros t i c [?|Hin]%elem_of_cons; [done|eauto].
    + by eexists _, _.
    + intros x [->|Hx]%elem_of_cons; [done|auto].
Qed.

(** A strict lease always rests on a proof less than fifteen minutes old.  In
    any run from a promotion, whatever passes, records, refreshes and re-scouts
    happened and however late, a strict acquisition succeeds only if some accepted
    proof is younger than 900 seconds at that instant, and if that proof is a
    verification then what it checked is exactly the scope sealed in its receipt. *)
Theorem strict_lease_within_deadline w0 w v' :
  promoted w0 → rtc any_step w0 w → vw_clock w + age_millis < u64_modulus →
  acquire_strict (mkInstant (vw_clock w)) (vw_verifier w) = (Ok tt, v') →
  v' = vw_verifier w ∧
  ∃ x, x ∈ vw_proofs w ∧ proof_time x ≤ vw_clock w < proof_time x + 900000 ∧
    match x with
    | Scouted _ => True
    | Verified _ id checked =>
        ∃ r, vw_sealed w !! receipt_raw id = Some r ∧ entries r = checked
    end.
Proof.
  intros Hp Hrun Hroom Ha. apply promoted_inv in Hp.
  assert (world_inv w) as [_ _ _ _ H5 (x & rest & Hx & Ht) H7].
  { clear -Hp Hrun. induction Hrun; eauto using verifier_step_inv. }
  assert (x ∈ vw_proofs w) as Hin by (rewrite Hx; apply list_elem_of_here).
  pose proof (H7 x Hin) as Hle. unfold acquire_strict in Ha.
  destruct (non_current _) as [[]|]; try done. case_decide as Hd; simplify_eq.
  split; [done|]. exists x. split; [done|]. split.
  - simpl in Hd. unfold deadline in Hd. rewrite <-Ht, u64_add_small in Hd by lia.
    unfold age_millis, MAX_CURRENT_UNVERIFIED_AGE in Hd. lia.
  - destruct x as [t|t id checked]; [done|]. by eapply H5.
Qed.

Definition lost_or_mismatched (v : RollingVerifier) : Prop :=
  ∃ c, non_current v = Some c ∧ c ≠ CauseOverdueLatched.

Lemma latch_keeps v : lost_or_mismatched v → lost_or_mismatched (latch_policy_mismatch v).
Proof. intros (c & Hc & ?). unfold latch_policy_mismatch. rewrite Hc. by exists c. Qed.

Lemma verifier_step_lost w w' :
  verifier_step w w' → lost_or_mismatched (vw_verifier w) → lost_or_mismatched (vw_verifier w').
Proof.
  intros Hstep Hl. pose proof Hl as (c & Hc & Hne). destruct Hstep as
    [w t Ht|w policy es r p' Hs Hroom|w policy r v' Hb|w ps1 pass ps2 ob r pass' Hp Hcx
    |w ps1 pass ps2 r Hp Hcx|w rs1 record checked rs2 r v' Hr Ha|w r v' Ha|w sealed r v' Hse Hr
    |w entry stamp|w]; simpl; try done.
  - unfold begin_pass in Hb. case_decide; [simplify_eq; by apply latch_keeps|].
    rewrite Hc in Hb. by destruct c; simplify_eq.
  - apply advance_cases in Ha as [(e & -> & ->)|(_ & _ & _ & [H|H] & _)]; [done|congruence..].
  - unfold acquire_strict in Ha. rewrite Hc in Ha. by destruct c; simplify_eq.
  - unfold refresh_scope in Hr. case_decide; simplify_eq; [by apply latch_keeps|]. by exists c.
  - unfold observe_rewrite. destruct (entries _ !! entry); [case_decide|]; by exists c.
  - by exists ReservationLost.
Qed.

(** Only a re-scout recovers.  Once a verifier has lost its reservation or met a
    foreign policy, no sequence of passes, chunks, complete records, refreshes or
    ticks makes it current again or lets a strict acquisition succeed, at any
    instant. *)
Theorem only_rescout_recovers w w' :
  lost_or_mismatched (vw_verifier w) → rtc verifier_step w w' →
  (∀ now, is_current now (vw_verifier w') = false) ∧
  ∀ now, ∃ c, acquire_strict now (vw_verifier w') = (Err (NonCurrent c), vw_verifier w').
Proof.
  intros Hl Hrun. assert (lost_or_mismatched (vw_verifier w')) as (c & Hc & Hne).
  { induction Hrun; eauto using verifier_step_lost. }
  unfold is_current, acquire_strict. rewrite Hc. split; [done|].
  intros now. exists c. by destruct c.
Qed.

(** ** The scheduler is fair *)

Fixpoint grants (n : nat) (queue : list N) : list (option N) * list N :=
  match n with
  | O => ([], queue)
  | S n => let '(g, queue) := next_grant queue in
           let '(gs, queue) := grants n queue in (g :: gs, queue)
  end.

Lemma grants_prefix l1 l2 : grants (length l1) (l1 ++ l2) = (Some <$> l1, l2 ++ l1).
Proof.
  revert l2. induction l1 as [|x l1 IH]; intros l2; simpl; [by rewrite app_nil_r|].
  by rewrite <-(app_assoc l1 l2 [x]), IH, <-app_assoc.
Qed.

(** No pass starves.  From any queue of registered passes, any number of whole
    rounds grants each pass once per round, in registration order, and leaves the
    queue as it was; in particular every registered pass is granted within every
    window of as many grants as there are passes. *)
Theorem scheduler_strict_rotation queue rounds :
  grants (rounds * length queue) queue
  = (concat (replicate rounds (Some <$> queue)), queue).
Proof.
  assert (∀ n m q, grants (n + m) q
    = let '(g1, q1) := grants n q in let '(g2, q2) := grants m q1 in (g1 ++ g2, q2)) as Happ.
  { induction n as [|n IH]; intros m q; simpl; [by destruct (grants m q)|].
    destruct (next_grant q) as [g q1]. rewrite IH. destruct (grants n q1) as [g1 q2].
    by destruct (grants m q2). }
  induction rounds as [|k IH]; [done|]. simpl. rewrite Happ.
  pose proof (grants_prefix queue []) as H. rewrite app_nil_r in H. rewrite H. simpl.
  by rewrite IH.
Qed.

(** ** Two gaps of the proof chain *)

(** A record does not carry when its pass ran.  A record completed before the
    deadline and kept back is accepted at any later instant: it clears the overdue
    latch and restarts the full fifteen minutes from the moment it is presented,
    although nothing was verified since. *)
Theorem old_record_clears_overdue_latch v record late :
  vrecord_receipt record = receipt_id (receipt v) → scope_dirty v = false →
  non_current v = None → deadline v ≤ millis late → millis late + age_millis < u64_modulus →
  let v1 := snd (acquire_strict late v) in
  non_current v1 = Some CauseOverdueLatched ∧
  fst (advance record late v1) = Ok tt ∧
  ∀ now, millis now < millis late + age_millis →
    is_current now (snd (advance record late v1)) = true.
Proof.
  intros Hid Hd Hn Hl Hroom. unfold acquire_strict. rewrite Hn, decide_True by done. simpl.
  split; [done|]. unfold advance. simpl. rewrite Hid, Hd.
  rewrite decide_False by auto. split; [done|]. intros now Hnow.
  unfold is_current. simpl. apply N.ltb_lt. unfold deadline. simpl.
  by rewrite u64_add_small.
Qed.

(** Refreshing the scope leaves the feasibility of the old one.  Promotion and
    re-scout insist that the work bound was computed for the installed receipt;
    refresh_scope installs a new receipt and keeps the old reservation, so a scope
    of any size becomes current on a bound computed for another. *)
Theorem refresh_scope_keeps_foreign_feasibility r v :
  receipt_policy r = receipt_policy (receipt v) → receipt_id r ≠ receipt_id (receipt v) →
  feasibility_scope (feasibility v) = receipt_id (receipt v) → non_current v = None →
  let v1 := snd (refresh_scope r v) in
  fst (refresh_scope r v) = Ok tt ∧ receipt v1 = r ∧
  feasibility_scope (feasibility v1) ≠ receipt_id (receipt v1) ∧
  (∀ now, is_current now v1 = is_current now v) ∧
  ∀ now, verifier_promote r (feasibility v1) now = Err FeasibilityNotForThisScope.
Proof.
  intros Hpol Hid Hf Hn. unfold refresh_scope. rewrite decide_False by auto. simpl.
  split; [done|]. split; [done|]. split; [congruence|]. split.
  - intros now. unfold is_current. by rewrite Hn.
  - intros now. unfold verifier_promote. by rewrite decide_True by congruence.
Qed.

(** ** A sample verifier *)

Definition sample_receipt (id : N) : VerificationScopeReceipt :=
  mkScopeReceipt (mkReceiptId id) (mkPolicy 1) {[10 := 100; 11 := 110]}.

Definition sample_feasibility : VerificationFeasibilityReceipt :=
  mkFeasibility (mkWorkBound (mkReceiptId 1) 1000).

Definition sample_verifier (t : N) : RollingVerifier :=
  mkVerifier (sample_receipt 1) sample_feasibility (mkInstant t) None false.

Definition sample_world (t : N) : VerifierWorld :=
  mkVWorld (set_static NEXT_RECEIPT 2 initial_process) {[1 := sample_receipt 1]}
           (sample_verifier 5000) [] [] t [Scouted 5000].

Lemma strict_lease_within_deadline_witness :
  ∃ x, x ∈ [Scouted 5000] ∧ proof_time x ≤ 904999 < proof_time x + 900000.
Proof.
  destruct (strict_lease_within_deadline (sample_world 5000) (sample_world 904999)
              (sample_verifier 5000)) as (_ & x & H1 & H2 & _).
  - exists (sample_receipt 1), sample_feasibility. repeat split.
  - apply rtc_once. left. apply (v_tick (sample_world 5000)). by vm_compute.
  - by vm_compute.
  - vm_compute. reflexivity.
  - exists x. split; [exact H1|exact H2].
Defined.

Lemma only_rescout_recovers_witness :
  ∃ c, acquire_strict (mkInstant 5001) (reservation_lost (sample_verifier 5000))
       = (Err (NonCurrent c), reservation_lost (sample_verifier 5000)).
Proof.
  destruct (only_rescout_recovers
              (with_verifier (reservation_lost (sample_verifier 5000)) (sample_world 5000))
              (with_verifier (reservation_lost (sample_verifier 5000)) (sample_world 5000)))
    as [_ H].
  - by exists ReservationLost.
  - apply rtc_refl.
  - apply (H (mkInstant 5001)).
Defined.

Lemma old_record_clears_overdue_latch_witness :
  is_current (mkInstant 999999)
    (snd (advance (mkVerificationRecord (mkReceiptId 1)) (mkInstant 999999)
      (snd (acquire_strict (mkInstant 999999) (sample_verifier 5000))))) = true.
Proof.
  destruct (old_record_clears_overdue_latch (sample_verifier 5000)
              (mkVerificationRecord (mkReceiptId 1)) (mkInstant 999999)) as (_ & _ & H);
    [reflexivity|reflexivity|reflexivity|by vm_compute|by vm_compute|].
  apply H. by vm_compute.
Defined.

Lemma refresh_scope_keeps_foreign_feasibility_witness :
  feasibility_scope (feasibility (snd (refresh_scope (sample_receipt 2) (sample_verifier 5000))))
  ≠ receipt_id (receipt (snd (refresh_scope (sample_receipt 2) (sample_verifier 5000)))).
Proof.
  apply (refresh_scope_keeps_foreign_feasibility (sample_receipt 2) (sample_verifier 5000));
    [reflexivity|discriminate|reflexivity|reflexivity].
Defined.
