(* ===== verification/Registry.v ===== *)
(** * The project registry

    Models src/src/index_lifecycle/registry.rs: single-flight admission, live
    slots, stopping and non-revivable tombstones.

    A [LiveProjectSlot] is shared through [Arc]s; its cell lives in a heap keyed by
    the slot identity it is created under, with its strong count.  The registry
    mutex is held for the whole of every method, so a method is one step.  A handle
    that a caller holds is a slot identity; dropping one lowers the strong count. *)

From Stdlib Require Import Lia NArith.
From stdpp Require Import base gmap sets list strings numbers option relations.
From S2P Require Import Prelude Identity PhysicalRoot Authority Capacity.

#[local] Open Scope N_scope.

Record SlotIdentity := mkSlotIdentity { slot_raw : N }.

#[global] Instance SlotIdentity_eq_dec : EqDecision SlotIdentity.
Proof. solve_decision. Defined.

#[global] Instance SlotIdentity_countable : Countable SlotIdentity.
Proof. apply (inj_countable' slot_raw mkSlotIdentity). by intros []. Defined.

Definition SlotIdentity_fresh : Proc Process SlotIdentity :=
  raw ← fresh_nonzero NEXT_SLOT; mret (mkSlotIdentity raw).

Record ProjectKey := mkProjectKey { key_str : string }.

#[global] Instance ProjectKey_eq_dec : EqDecision ProjectKey.
Proof. solve_decision. Defined.

#[global] Instance ProjectKey_countable : Countable ProjectKey.
Proof. apply (inj_countable' key_str mkProjectKey). by intros []. Defined.

Inductive StatePlacement : Type := ProjectLocal | UserLocal | MemoryOnly.

#[global] Instance StatePlacement_eq_dec : EqDecision StatePlacement.
Proof. solve_decision. Defined.

Inductive RootProtection : Type := NormalRoot | Protected.

#[global] Instance RootProtection_eq_dec : EqDecision RootProtection.
Proof. solve_decision. Defined.

Inductive RegistryRefusal : Type :=
| Tombstoned (slot : SlotIdentity)
| NotAdmitted
| ProtectedWithoutAuthorization
| StillPending
| RootMismatch (joined presented : PhysicalRootIdentity)
| PlacementMismatch (joined presented : StatePlacement).

Record PendingProjectAdmission := mkPending {
  pending_slot : SlotIdentity;
  pending_key : ProjectKey;
  pending_binding : BindingAuthority;
  pending_placement : StatePlacement;
  joiners : N
}.

Inductive AdmissionJoin : Type := CreatedPending | JoinedPending | JoinedLive.

Record AdmissionAttempt := mkAttempt {
  attempt_slot : SlotIdentity;
  join : AdmissionJoin
}.

Definition cleanup_candidate (a : AdmissionAttempt) : bool :=
  match join a with CreatedPending | JoinedPending => true | JoinedLive => false end.

Record LiveProjectSlot := mkLiveSlot {
  live_slot : SlotIdentity;
  live_key : ProjectKey;
  live_binding : BindingAuthority;
  live_placement : StatePlacement;
  live_owner : option OwnerIdentity;
  revoked : bool
}.

(** The [Arc] cell: the slot and its strong count. *)
Record SlotCell := mkCell { cell_slot : LiveProjectSlot; strong_count : nat }.

Inductive Occupancy : Type :=
| Pending (p : PendingProjectAdmission)
| Live (slot : SlotIdentity).

#[global] Instance PendingProjectAdmission_eq_dec : EqDecision PendingProjectAdmission.
Proof. solve_decision. Defined.

#[global] Instance Occupancy_eq_dec : EqDecision Occupancy.
Proof. solve_decision. Defined.

Record RegistryState := mkRegistry {
  keys : gmap ProjectKey Occupancy;
  tombstones : gmap SlotIdentity ProjectKey;
  heap : gmap SlotIdentity SlotCell
}.

Definition registry_new : RegistryState := mkRegistry ∅ ∅ ∅.

(** ** Reads of a slot handle *)

Definition slot_is_live (s : LiveProjectSlot) : bool := negb (revoked s).

Definition slot_binding (s : LiveProjectSlot) : Result BindingAuthority RegistryRefusal :=
  if slot_is_live s then Ok (live_binding s) else Err (Tombstoned (live_slot s)).

Definition capacity_owner (s : LiveProjectSlot)
  : Result (option OwnerIdentity) RegistryRefusal :=
  if slot_is_live s then Ok (live_owner s) else Err (Tombstoned (live_slot s)).

(** [with_live_write_scope]: the operation runs only under a live binding. *)
Definition with_live_write_scope {S R} (operation : S → R * S) (s : LiveProjectSlot) (st : S)
  : Result R RegistryRefusal * S :=
  match slot_binding s with
  | Err e => (Err e, st)
  | Ok _ => let '(r, st) := operation st in (Ok r, st)
  end.

Definition revoked_slot (s : LiveProjectSlot) : LiveProjectSlot :=
  mkLiveSlot (live_slot s) (live_key s) (live_binding s) (live_placement s)
             (live_owner s) true.

(** [LiveProjectSlot::revoke]: the binding, then the handle. *)
Definition slot_revoke (c : SlotCell) (p : Process) : SlotCell * Process :=
  (mkCell (revoked_slot (cell_slot c)) (strong_count c),
   binding_revoke (live_binding (cell_slot c)) p).

(** [Arc::clone] and the drop of one handle. *)
Definition arc_clone (s : SlotIdentity) (r : RegistryState) : RegistryState :=
  mkRegistry (keys r) (tombstones r)
    (alter (λ c, mkCell (cell_slot c) (S (strong_count c))) s (heap r)).

Definition arc_drop (s : SlotIdentity) (r : RegistryState) : RegistryState :=
  mkRegistry (keys r) (tombstones r)
    (alter (λ c, mkCell (cell_slot c) (pred (strong_count c))) s (heap r)).

(** ** Registry methods *)

(** The joining rule, the same on both occupancies. *)
Definition join_check (joined_binding binding : BindingAuthority)
    (joined_placement placement : StatePlacement) : option RegistryRefusal :=
  if decide (physical_root joined_binding ≠ physical_root binding)
  then Some (RootMismatch (physical_root joined_binding) (physical_root binding))
  else if decide (joined_placement ≠ placement)
  then Some (PlacementMismatch joined_placement placement)
  else None.

Definition with_key (k : ProjectKey) (o : Occupancy) (r : RegistryState) : RegistryState :=
  mkRegistry (<[k := o]> (keys r)) (tombstones r) (heap r).

Definition admit_with_outcome (key : ProjectKey) (binding : BindingAuthority)
    (protection : RootProtection) (authorized : bool) (placement : StatePlacement)
    (r : RegistryState)
  : Proc Process (Result AdmissionAttempt RegistryRefusal * RegistryState) :=
  if bool_decide (protection = Protected) && negb authorized
  then mret (Err ProtectedWithoutAuthorization, r)
  else if bool_decide (protection = Protected) && bool_decide (placement = ProjectLocal)
  then mret (Err ProtectedWithoutAuthorization, r)
  else
    match keys r !! key with
    | Some (Pending pending) =>
        match join_check (pending_binding pending) binding (pending_placement pending)
                         placement with
        | Some e => mret (Err e, r)
        | None =>
            let pending := mkPending (pending_slot pending) (pending_key pending)
                             (pending_binding pending) (pending_placement pending)
                             (u64_add (joiners pending) 1) in
            mret (Ok (mkAttempt (pending_slot pending) JoinedPending),
                  with_key key (Pending pending) r)
        end
    | Some (Live s) =>
        match heap r !! s with
        | None => panic
        | Some c =>
            match join_check (live_binding (cell_slot c)) binding
                             (live_placement (cell_slot c)) placement with
            | Some e => mret (Err e, r)
            | None => mret (Ok (mkAttempt (live_slot (cell_slot c)) JoinedLive), r)
            end
        end
    | None =>
        slot ← SlotIdentity_fresh;
        mret (Ok (mkAttempt slot CreatedPending),
              with_key key (Pending (mkPending slot key binding placement 1)) r)
    end.

Definition registry_admit (key : ProjectKey) (binding : BindingAuthority)
    (protection : RootProtection) (authorized : bool) (placement : StatePlacement)
    (r : RegistryState) : Proc Process (Result SlotIdentity RegistryRefusal * RegistryState) :=
  '(res, r) ← admit_with_outcome key binding protection authorized placement r;
  mret (match res with Ok a => Ok (attempt_slot a) | Err e => Err e end, r).

Definition pending_joiners (key : ProjectKey) (r : RegistryState) : option N :=
  match keys r !! key with Some (Pending p) => Some (joiners p) | _ => None end.

(** [install]; the handle returned is one strong reference besides the
    registry's. *)
Definition registry_install (key : ProjectKey) (owner : option OwnerIdentity)
    (r : RegistryState) : Result SlotIdentity RegistryRefusal * RegistryState :=
  match keys r !! key with
  | Some (Pending pending) =>
      let live := mkLiveSlot (pending_slot pending) (pending_key pending)
                    (pending_binding pending) (pending_placement pending) owner false in
      (Ok (pending_slot pending),
       mkRegistry (<[pending_key pending := Live (pending_slot pending)]>
                     (delete key (keys r)))
                  (tombstones r)
                  (<[pending_slot pending := mkCell live 2]> (heap r)))
  | Some (Live s) => (Err NotAdmitted, with_key key (Live s)
                       (mkRegistry (delete key (keys r)) (tombstones r) (heap r)))
  | None => (Err NotAdmitted, r)
  end.

Definition registry_cancel (key : ProjectKey) (r : RegistryState)
  : Result SlotIdentity RegistryRefusal * RegistryState :=
  match keys r !! key with
  | Some (Pending pending) =>
      (Ok (pending_slot pending),
       mkRegistry (delete key (keys r))
                  (<[pending_slot pending := pending_key pending]> (tombstones r)) (heap r))
  | Some (Live s) => (Err NotAdmitted, with_key key (Live s)
                       (mkRegistry (delete key (keys r)) (tombstones r) (heap r)))
  | None => (Err NotAdmitted, r)
  end.

(** The common tail of the two stops: remove, revoke, record the tombstone, and
    drop the registry's own reference. *)
Definition retire (key : ProjectKey) (s : SlotIdentity) (c : SlotCell) (r : RegistryState)
    (p : Process) : Result SlotIdentity RegistryRefusal * RegistryState * Process :=
  let '(c, p) := slot_revoke c p in
  (Ok (live_slot (cell_slot c)),
   arc_drop s (mkRegistry (delete key (keys r))
     (<[live_slot (cell_slot c) := live_key (cell_slot c)]> (tombstones r))
     (<[s := c]> (heap r))), p).

Definition stop (key : ProjectKey) (r : RegistryState) (p : Process)
  : Outcome (Result SlotIdentity RegistryRefusal * RegistryState * Process) :=
  match keys r !! key with
  | Some (Live s) =>
      match heap r !! s with
      | None => Panic
      | Some c => Done (retire key s c r p)
      end
  | Some (Pending pending) =>
      Done (Err NotAdmitted, with_key key (Pending pending)
              (mkRegistry (delete key (keys r)) (tombstones r) (heap r)), p)
  | None => Done (Err NotAdmitted, r, p)
  end.

Definition stop_if_unheld (key : ProjectKey) (slot : SlotIdentity) (r : RegistryState)
    (p : Process)
  : Outcome (Result SlotIdentity RegistryRefusal * RegistryState * Process) :=
  match keys r !! key with
  | Some (Live s) =>
      match heap r !! s with
      | None => Panic
      | Some c =>
          if decide (live_slot (cell_slot c) = slot)
          then if decide (1 < strong_count c)%nat then Done (Err StillPending, r, p)
               else Done (retire key s c r p)
          else Done (Err NotAdmitted, r, p)
      end
  | Some (Pending _) => Done (Err StillPending, r, p)
  | None => Done (Err NotAdmitted, r, p)
  end.

Definition registry_is_current (key : ProjectKey) (slot : SlotIdentity) (r : RegistryState)
  : bool :=
  match tombstones r !! slot with
  | Some _ => false
  | None =>
      match keys r !! key with
      | Some (Live s) =>
          match heap r !! s with
          | Some c => bool_decide (live_slot (cell_slot c) = slot)
          | None => false
          end
      | _ => false
      end
  end.

Definition is_tombstoned (slot : SlotIdentity) (r : RegistryState) : bool :=
  match tombstones r !! slot with Some _ => true | None => false end.

(** [live] clones the [Arc] for the caller. *)
Definition registry_live (key : ProjectKey) (r : RegistryState)
  : Result SlotIdentity RegistryRefusal * RegistryState :=
  match keys r !! key with
  | Some (Live s) => (Ok s, arc_clone s r)
  | Some (Pending _) => (Err StillPending, r)
  | None => (Err NotAdmitted, r)
  end.

Definition tombstone_count (r : RegistryState) : nat := size (tombstones r).

(** ** The registry invariant *)

Record registry_ok (r : RegistryState) (p : Process) : Prop := mk_registry_ok {
  reg_wf : wf_statics p;
  reg_pending : ∀ k a, keys r !! k = Some (Pending a) →
    pending_key a = k ∧ below (statics p NEXT_SLOT) (slot_raw (pending_slot a)) ∧
    heap r !! pending_slot a = None ∧ tombstones r !! pending_slot a = None;
  reg_pending_inj : ∀ k1 k2 a1 a2, keys r !! k1 = Some (Pending a1) →
    keys r !! k2 = Some (Pending a2) → pending_slot a1 = pending_slot a2 → k1 = k2;
  reg_live : ∀ k s, keys r !! k = Some (Live s) →
    ∃ c, heap r !! s = Some c ∧ live_key (cell_slot c) = k ∧ tombstones r !! s = None ∧
         revoked (cell_slot c) = false ∧ (1 ≤ strong_count c)%nat;
  reg_heap : ∀ s c, heap r !! s = Some c →
    live_slot (cell_slot c) = s ∧ below (statics p NEXT_SLOT) (slot_raw s) ∧
    (keys r !! live_key (cell_slot c) = Some (Live s) ∨
     (revoked (cell_slot c) = true ∧ is_Some (tombstones r !! s) ∧
      raw_for_render (binding_identity (live_binding (cell_slot c))) ∈ revoked_bindings p));
  reg_tomb : ∀ s k, tombstones r !! s = Some k → below (statics p NEXT_SLOT) (slot_raw s)
}.

(** The process moves on: counters advance and revocations are never undone. *)
Definition process_advances (p p' : Process) : Prop :=
  advances p p' ∧ revoked_bindings p ⊆ revoked_bindings p'.

Lemma process_advances_refl p : process_advances p p.
Proof. split; [apply advances_refl|done]. Qed.

Lemma registry_ok_process r p p' :
  registry_ok r p → process_advances p p' → registry_ok r p'.
Proof.
  intros [H1 H2 H3 H4 H5 H6] [Ha Hb]. destruct (Ha H1) as [Hwf Hm]. constructor; auto.
  - intros k a Hk. destruct (H2 k a Hk) as (? & ? & ? & ?). auto.
  - intros s c Hs. destruct (H5 s c Hs) as (? & ? & [?|(? & ? & ?)]); auto 10.
  - intros s k Hs. eauto.
Qed.

(** Changing only the strong count of a cell, keeping the registry's own. *)
Lemma registry_ok_count r p s c n :
  registry_ok r p → heap r !! s = Some c →
  (keys r !! live_key (cell_slot c) = Some (Live s) → (1 ≤ n)%nat) →
  registry_ok (mkRegistry (keys r) (tombstones r) (<[s := mkCell (cell_slot c) n]> (heap r))) p.
Proof.
  intros [H1 H2 H3 H4 H5 H6] Hs Hn. constructor; simpl; auto.
  - intros k a Hk. destruct (H2 k a Hk) as (? & ? & ? & ?). rewrite lookup_insert_ne; auto.
    intros ->. congruence.
  - intros k s' Hk. destruct (H4 k s' Hk) as (c' & Hc' & Hkey & Ht & Hr & Hst).
    destruct (decide (s' = s)) as [->|Hne].
    + simplify_eq. eexists. rewrite lookup_insert_eq. split; [done|]. simpl. auto.
    + exists c'. rewrite lookup_insert_ne by done. auto.
  - intros s' c' Hc'. destruct (decide (s' = s)) as [->|Hne].
    + rewrite lookup_insert_eq in Hc'. simplify_eq. simpl. auto.
    + rewrite lookup_insert_ne in Hc' by done. auto.
Qed.

Lemma slot_fresh_Done p s p' :
  SlotIdentity_fresh p = Done (s, p') → fresh_nonzero NEXT_SLOT p = Done (slot_raw s, p').
Proof.
  unfold SlotIdentity_fresh. intros H. apply Proc_bind_Done in H as (raw & q & H & Hr).
  apply Proc_ret_Done in Hr. by simplify_eq.
Qed.

Lemma fresh_process_advances k p raw p' :
  fresh_nonzero k p = Done (raw, p') → process_advances p p'.
Proof.
  intros H. split; [by eapply advances_mint|]. apply fresh_nonzero_Done in H as (_ & _ & ->).
  done.
Qed.

(** A fresh pending admission under an unoccupied key. *)
Lemma registry_ok_created r p p' key binding placement s :
  registry_ok r p → keys r !! key = None → SlotIdentity_fresh p = Done (s, p') →
  registry_ok (with_key key (Pending (mkPending s key binding placement 1)) r) p' ∧
  tombstones r !! s = None ∧ heap r !! s = None.
Proof.
  intros Hok Hkey Hf%slot_fresh_Done.
  pose proof (registry_ok_process _ _ _ Hok (fresh_process_advances _ _ _ _ Hf)) as Hok'.
  pose proof Hok as [H1 H2 _ H4 H5 H6].
  destruct (fresh_nonzero_minted _ _ _ _ H1 Hf) as (_ & Hb & Hfr & _).
  assert (tombstones r !! s = None) as Ht.
  { destruct (tombstones r !! s) eqn:E; [|done]. apply H6, Hfr in E as [? _]. done. }
  assert (heap r !! s = None) as Hh.
  { destruct (heap r !! s) eqn:E; [|done]. destruct (H5 _ _ E) as (_ & E' & _).
    apply Hfr in E' as [? _]. done. }
  assert (∀ k a, keys r !! k = Some (Pending a) → pending_slot a ≠ s) as Hns.
  { intros k a Hk Heq. destruct (H2 _ _ Hk) as (_ & E & _). rewrite Heq in E.
    apply Hfr in E as [? _]. done. }
  split; [|done]. destruct Hok' as [G1 G2 G3 G4 G5 G6]. unfold with_key. constructor; simpl; auto.
  - intros k a [[<- [= <-]]|[_ Hk]]%lookup_insert_Some; [done|]. eauto.
  - intros k1 k2 a1 a2 [[<- [= <-]]|[? Hk1]]%lookup_insert_Some
      [[<- [= <-]]|[? Hk2]]%lookup_insert_Some Heq; simpl in *; auto.
    + by destruct (Hns _ _ Hk2).
    + by destruct (Hns _ _ Hk1).
    + eauto.
  - intros k s' [[<- ?]|[_ Hk]]%lookup_insert_Some; [done|]. eauto.
  - intros s' c Hc. destruct (G5 _ _ Hc) as (? & ? & [Hl|?]); [|auto].
    split; [done|]. split; [done|]. left. rewrite lookup_insert_ne; [done|]. intros Heq. congruence.
Qed.

(** Replacing a pending admission by one that differs only in its joiners. *)
Lemma registry_ok_joined r p key a n :
  registry_ok r p → keys r !! key = Some (Pending a) →
  registry_ok (with_key key (Pending (mkPending (pending_slot a) (pending_key a)
    (pending_binding a) (pending_placement a) n)) r) p.
Proof.
  intros [H1 H2 H3 H4 H5 H6] Hkey. unfold with_key. constructor; simpl; auto.
  - intros k b [[<- [= <-]]|[_ Hk]]%lookup_insert_Some; [exact (H2 _ _ Hkey)|]. eauto.
  - intros k1 k2 a1 a2 [[<- [= <-]]|[? Hk1]]%lookup_insert_Some
      [[<- [= <-]]|[? Hk2]]%lookup_insert_Some Heq; simpl in *; eauto.
  - intros k s' [[<- ?]|[_ Hk]]%lookup_insert_Some; [done|]. eauto.
  - intros s' c Hc. destruct (H5 _ _ Hc) as (? & ? & [Hl|?]); [|auto].
    split; [done|]. split; [done|]. left. rewrite lookup_insert_ne; [done|]. intros Heq. congruence.
Qed.

Lemma admit_ok key binding protection authorized placement r p res r' p' :
  registry_ok r p →
  admit_with_outcome key binding protection authorized placement r p = Done ((res, r'), p') →
  registry_ok r' p' ∧ process_advances p p' ∧ tombstones r' = tombstones r.
Proof.
  intros Hok H. unfold admit_with_outcome in H.
  destruct (_ && _); [apply Proc_ret_Done in H; simplify_eq; auto using process_advances_refl|].
  destruct (_ && _); [apply Proc_ret_Done in H; simplify_eq; auto using process_advances_refl|].
  destruct (keys r !! key) as [[a|s]|] eqn:Hkey.
  - destruct (join_check _ _ _ _); apply Proc_ret_Done in H; simplify_eq;
      auto using process_advances_refl, registry_ok_joined.
  - destruct (heap r !! s); [|done].
    destruct (join_check _ _ _ _); apply Proc_ret_Done in H; simplify_eq;
      auto using process_advances_refl.
  - apply Proc_bind_Done in H as (s & p1 & Hf & H). apply Proc_ret_Done in H. simplify_eq.
    split; [by eapply registry_ok_created|]. split; [|done].
    by eapply fresh_process_advances, slot_fresh_Done.
Qed.

Lemma reinsert_id key o r :
  keys r !! key = Some o →
  with_key key o (mkRegistry (delete key (keys r)) (tombstones r) (heap r)) = r.
Proof.
  intros Hk. unfold with_key. simpl. rewrite insert_delete_eq, insert_id by done. by destruct r.
Qed.

Lemma install_ok key owner r p :
  registry_ok r p → registry_ok (snd (registry_install key owner r)) p.
Proof.
  intros Hok. unfold registry_install. destruct (keys r !! key) as [[a|s]|] eqn:Hkey; simpl;
    [|by rewrite reinsert_id|done].
  destruct Hok as [H1 H2 H3 H4 H5 H6]. destruct (H2 _ _ Hkey) as (-> & Hb & Hh & Ht).
  rewrite insert_delete_eq. constructor; simpl; auto.
  - intros k b [[? ?]|[Hne Hk]]%lookup_insert_Some; [done|].
    destruct (H2 _ _ Hk) as (? & ? & ? & ?). rewrite lookup_insert_ne; auto.
    intros Heq. apply Hne. eauto.
  - intros k1 k2 a1 a2 [[? ?]|[? Hk1]]%lookup_insert_Some [[? ?]|[? Hk2]]%lookup_insert_Some Heq;
      [done..|]. eauto.
  - intros k s [[<- [= <-]]|[Hne Hk]]%lookup_insert_Some.
    + eexists. rewrite lookup_insert_eq. split; [done|]. simpl. auto.
    + destruct (H4 _ _ Hk) as (c & Hc & ?). exists c. rewrite lookup_insert_ne; [done|]. congruence.
  - intros s c [[<- <-]|[Hne Hc]]%lookup_insert_Some; simpl.
    + rewrite lookup_insert_eq. auto.
    + destruct (H5 _ _ Hc) as (? & ? & [Hl|?]); [|auto]. split; [done|]. split; [done|].
      left. rewrite lookup_insert_ne; [done|]. intros Heq. congruence.
Qed.

Lemma cancel_ok key r p : registry_ok r p → registry_ok (snd (registry_cancel key r)) p.
Proof.
  intros Hok. unfold registry_cancel. destruct (keys r !! key) as [[a|s]|] eqn:Hkey; simpl;
    [|by rewrite reinsert_id|done].
  destruct Hok as [H1 H2 H3 H4 H5 H6]. destruct (H2 _ _ Hkey) as (-> & Hb & Hh & Ht).
  constructor; simpl; auto.
  - intros k b [Hne Hk]%lookup_delete_Some. destruct (H2 _ _ Hk) as (? & ? & ? & ?).
    rewrite lookup_insert_ne; auto. intros Heq. apply Hne. eauto.
  - intros k1 k2 a1 a2 [_ Hk1]%lookup_delete_Some [_ Hk2]%lookup_delete_Some. eauto.
  - intros k s [Hne Hk]%lookup_delete_Some. destruct (H4 _ _ Hk) as (c & Hc & ? & ? & ?).
    exists c. rewrite lookup_insert_ne; [done|]. congruence.
  - intros s c Hc. destruct (H5 _ _ Hc) as (? & ? & [Hl|(? & ? & ?)]); split; auto; split; auto.
    + left. rewrite lookup_delete_ne; [done|]. congruence.
    + right. rewrite lookup_insert_ne; [done|]. congruence.
  - intros s k [[<- _]|[_ Hk]]%lookup_insert_Some; [done|]. eauto.
Qed.

Lemma retire_ok key s c r p res r' p' :
  registry_ok r p → keys r !! key = Some (Live s) → heap r !! s = Some c →
  retire key s c r p = (res, r', p') →
  registry_ok r' p' ∧ res = Ok s ∧ tombstones r' = <[s := key]> (tombstones r) ∧
  process_advances p p'.
Proof.
  intros Hok Hkey Hs H. unfold retire, slot_revoke, arc_drop in H. injection H as <- <- <-.
  pose proof Hok as [H1 H2 H3 H4 H5 H6]. destruct (H4 _ _ Hkey) as (c' & Hc' & Hk' & Ht & Hr & Hst).
  rewrite Hs in Hc'. injection Hc' as <-. destruct (H5 _ _ Hs) as (Hls & Hb & _). simpl.
  rewrite (alter_present _ _ _ _ (lookup_insert_eq _ _ _)), insert_insert_eq, Hls, Hk'.
  split; [|split; [done|split; [done|split; [intros ?; split; auto|simpl; set_solver]]]].
  constructor; simpl; auto.
  - intros k b [Hne Hk]%lookup_delete_Some. destruct (H2 _ _ Hk) as (? & ? & ? & ?).
    rewrite !lookup_insert_ne by congruence. auto.
  - intros k1 k2 a1 a2 [_ Hk1]%lookup_delete_Some [_ Hk2]%lookup_delete_Some. eauto.
  - intros k s' [Hne Hk]%lookup_delete_Some. destruct (H4 _ _ Hk) as (c'' & Hc & ? & ? & ?).
    assert (s' ≠ s) by congruence. exists c''. by rewrite !lookup_insert_ne by done.
  - intros s' c'' [[<- <-]|[Hne Hc]]%lookup_insert_Some; simpl.
    + split; [done|]. split; [done|]. right. rewrite lookup_insert_eq. split; [done|].
      split; [by eexists|]. set_solver.
    + destruct (H5 _ _ Hc) as (? & ? & [Hl|(? & ? & ?)]); split; auto; split; auto.
      * left. rewrite lookup_delete_ne; [done|]. congruence.
      * right. rewrite lookup_insert_ne by done. set_solver.
  - intros s' k [[<- _]|[_ Hk]]%lookup_insert_Some; [done|]. eauto.
Qed.

(** ** Runs of the registry *)

Inductive registry_step : RegistryState * Process → RegistryState * Process → Prop :=
| reg_admit r p key binding protection authorized placement res r' p' :
    admit_with_outcome key binding protection authorized placement r p
      = Done ((res, r'), p') →
    registry_step (r, p) (r', p')
| reg_install r p key owner :
    registry_step (r, p) (snd (registry_install key owner r), p)
| reg_cancel r p key : registry_step (r, p) (snd (registry_cancel key r), p)
| reg_stop r p key res r' p' :
    stop key r p = Done (res, r', p') → registry_step (r, p) (r', p')
| reg_stop_if_unheld r p key slot res r' p' :
    stop_if_unheld key slot r p = Done (res, r', p') → registry_step (r, p) (r', p')
| reg_get r p key : registry_step (r, p) (snd (registry_live key r), p)
| reg_drop r p s c :
    heap r !! s = Some c →
    ((if decide (keys r !! live_key (cell_slot c) = Some (Live s)) then 1 else 0)
       < strong_count c)%nat →
    registry_step (r, p) (arc_drop s r, p)
| reg_process r p p' : process_advances p p' → registry_step (r, p) (r, p').

Lemma registry_step_ok r p r' p' :
  registry_step (r, p) (r', p') → registry_ok r p →
  registry_ok r' p' ∧ process_advances p p' ∧ tombstones r ⊆ tombstones r'.
Proof.
  intros Hstep Hok. inversion Hstep as
    [? ? key b prot auth pl res ? ? H|? ? key owner|? ? key|? ? key res ? ? H
    |? ? key slot res ? ? H|? ? key|? ? s c Hs Hn|? ? ? Hp]; subst.
  - apply admit_ok in H as (H1 & H2 & ->); auto.
  - split; [by apply install_ok|]. split; [apply process_advances_refl|].
    unfold registry_install. by destruct (keys r !! key) as [[]|].
  - split; [by apply cancel_ok|]. split; [apply process_advances_refl|].
    unfold registry_cancel. destruct (keys r !! key) as [[a|]|] eqn:E; try done. simpl.
    apply insert_subseteq. by apply (reg_pending _ _ Hok _ _ E).
  - unfold stop in H. destruct (keys r !! key) as [[a|s]|] eqn:Hkey.
    + rewrite reinsert_id in H by done. simplify_eq. auto using process_advances_refl.
    + destruct (heap r !! s) as [c|] eqn:Hs; [|done].
      assert (retire key s c r p = (res, r', p')) as Hret by congruence.
      destruct (retire_ok _ _ _ _ _ _ _ _ Hok Hkey Hs Hret) as (G1 & _ & -> & G2).
      split; [done|]. split; [done|]. apply insert_subseteq.
      by destruct (reg_live _ _ Hok _ _ Hkey) as (? & ? & ? & ? & ?).
    + simplify_eq. auto using process_advances_refl.
  - unfold stop_if_unheld in H. destruct (keys r !! key) as [[a|s]|] eqn:Hkey.
    + simplify_eq. auto using process_advances_refl.
    + destruct (heap r !! s) as [c|] eqn:Hs; [|done].
      case_decide; [case_decide|]; [simplify_eq; auto using process_advances_refl| |
        simplify_eq; auto using process_advances_refl].
      assert (retire key s c r p = (res, r', p')) as Hret by congruence.
      destruct (retire_ok _ _ _ _ _ _ _ _ Hok Hkey Hs Hret) as (G1 & _ & -> & G2).
      split; [done|]. split; [done|]. apply insert_subseteq.
      by destruct (reg_live _ _ Hok _ _ Hkey) as (? & ? & ? & ? & ?).
    + simplify_eq. auto using process_advances_refl.
  - unfold registry_live. destruct (keys r !! key) as [[a|s]|] eqn:Hkey; simpl;
      [auto using process_advances_refl| |auto using process_advances_refl].
    split; [|auto using process_advances_refl].
    destruct (reg_live _ _ Hok _ _ Hkey) as (c & Hc & _). unfold arc_clone.
    rewrite (alter_present _ _ _ _ Hc). apply registry_ok_count; auto. intros; lia.
  - split; [|auto using process_advances_refl]. unfold arc_drop.
    rewrite (alter_present _ _ _ _ Hs). apply registry_ok_count; auto. intros Hl.
    rewrite decide_True in Hn by done. lia.
  - split; [by eapply registry_ok_process|auto].
Qed.

Lemma registry_run_ok s s' :
  rtc registry_step s s' → registry_ok (fst s) (snd s) →
  registry_ok (fst s') (snd s') ∧ tombstones (fst s) ⊆ tombstones (fst s').
Proof.
  induction 1 as [|[r1 p1] [r2 p2] s3 H1 H2 IH]; intros Hok; [done|].
  destruct (registry_step_ok _ _ _ _ H1 Hok) as (Hok' & _ & Hsub).
  destruct (IH Hok') as [? ?]. split; [done|]. by etransitivity.
Qed.

Lemma registry_new_ok p : wf_statics p → registry_ok registry_new p.
Proof. intros Hwf. by constructor. Qed.

(** C9: a retired slot never serves again.  Once an identity has a tombstone, then
    after any further sequence of admissions, installs, cancels, stops, handle
    clones and drops, it still has it; no key is current under that identity, also
    after the key is reopened; and any handle on it that survived refuses its
    binding and its capacity owner, refuses to run a write, and carries a binding
    that is revoked for every clone. *)
Theorem tombstones_never_revive p0 r p s k r' p' :
  wf_statics p0 → rtc registry_step (registry_new, p0) (r, p) →
  tombstones r !! s = Some k → rtc registry_step (r, p) (r', p') →
  tombstones r' !! s = Some k ∧
  (∀ key, registry_is_current key s r' = false) ∧
  (∀ key, keys r' !! key ≠ Some (Live s)) ∧
  ∀ c, heap r' !! s = Some c →
    slot_binding (cell_slot c) = Err (Tombstoned s) ∧
    capacity_owner (cell_slot c) = Err (Tombstoned s) ∧
    binding_is_live p' (live_binding (cell_slot c)) = false ∧
    ∀ S R (op : S → R * S) st,
      with_live_write_scope op (cell_slot c) st = (Err (Tombstoned s), st).
Proof.
  intros Hwf Hrun Ht Hrun'.
  destruct (registry_run_ok _ _ Hrun) as [Hok _]; [by apply registry_new_ok|].
  destruct (registry_run_ok _ _ Hrun' Hok) as [Hok' Hsub]. simpl in *.
  assert (tombstones r' !! s = Some k) as Ht' by (by eapply lookup_weaken).
  assert (∀ key, keys r' !! key ≠ Some (Live s)) as Hnl.
  { intros key Hk. destruct (reg_live _ _ Hok' _ _ Hk) as (? & ? & ? & ? & ?). congruence. }
  split; [done|]. split; [by intros key; unfold registry_is_current; rewrite Ht'|].
  split; [done|]. intros c Hc.
  destruct (reg_heap _ _ Hok' _ _ Hc) as (Hs & _ & [Hl|(Hr & _ & Hb)]); [by destruct (Hnl _ Hl)|].
  unfold slot_binding, capacity_owner, with_live_write_scope, slot_binding, slot_is_live,
    binding_is_live. rewrite Hr, Hs. simpl. repeat split.
  apply bool_decide_eq_false. intros Hn. by apply Hn.
Qed.

(** Admission is single-flight.  In any reachable registry, opening a key that is
    pending or live, on the same root and with the same placement, joins the slot
    already there and creates nothing; on another root or placement it is refused
    and nothing changes; and opening a free key creates one pending admission under
    an identity that no slot, tombstone or handle has ever had. *)
Theorem admission_single_flight p0 r p key binding placement :
  wf_statics p0 → rtc registry_step (registry_new, p0) (r, p) →
  statics p NEXT_SLOT ≠ 0 →
  match keys r !! key with
  | None => ∃ s r' p',
      admit_with_outcome key binding NormalRoot true placement r p
        = Done ((Ok (mkAttempt s CreatedPending), r'), p') ∧
      keys r' = <[key := Pending (mkPending s key binding placement 1)]> (keys r) ∧
      tombstones r !! s = None ∧ heap r !! s = None
  | Some o => ∃ slot b pl,
      match o with
      | Pending a => slot = pending_slot a ∧ b = pending_binding a ∧ pl = pending_placement a
      | Live s => ∃ c, heap r !! s = Some c ∧ slot = s ∧ b = live_binding (cell_slot c) ∧
                       pl = live_placement (cell_slot c)
      end ∧
      if decide (physical_root b = physical_root binding ∧ pl = placement)
      then ∃ j r', admit_with_outcome key binding NormalRoot true placement r p
             = Done ((Ok (mkAttempt slot j), r'), p) ∧ cleanup_candidate (mkAttempt slot j)
             = match o with Pending _ => true | Live _ => false end ∧
             heap r' = heap r ∧ tombstones r' = tombstones r
      else ∃ e, admit_with_outcome key binding NormalRoot true placement r p
             = Done ((Err e, r), p)
  end.
Proof.
  intros Hwf Hrun Hz. destruct (registry_run_ok _ _ Hrun) as [Hok _];
    [by apply registry_new_ok|]. simpl in Hok.
  unfold admit_with_outcome. simpl. destruct (keys r !! key) as [[a|s]|] eqn:Hkey.
  - eexists _, _, _. split; [done|]. unfold join_check. case_decide as Hd.
    + destruct Hd as [-> ->]. rewrite !decide_False by auto. by eexists _, _.
    + case_decide; [by eexists|]. case_decide; [by eexists|]. by destruct Hd.
  - destruct (reg_live _ _ Hok _ _ Hkey) as (c & Hc & _).
    destruct (reg_heap _ _ Hok _ _ Hc) as (Hs & _).
    eexists s, _, _. split; [by exists c|]. rewrite Hc. unfold join_check. case_decide as Hd.
    + destruct Hd as [-> ->]. rewrite !decide_False by auto. rewrite Hs. by eexists _, _.
    + case_decide; [by eexists|]. case_decide; [by eexists|]. by destruct Hd.
  - unfold mbind, Proc_bind.
    assert (SlotIdentity_fresh p = Done (mkSlotIdentity (statics p NEXT_SLOT),
      set_static NEXT_SLOT (u64_add (statics p NEXT_SLOT) 1) p)) as Hf.
    { unfold SlotIdentity_fresh, mbind, Proc_bind. by rewrite fresh_nonzero_total. }
    rewrite Hf. destruct (registry_ok_created _ _ _ key binding placement _ Hok Hkey Hf)
      as (_ & Ht & Hh). by eexists _, _, _.
Qed.

(** A slot somebody holds is not stopped by cleanup.  In any reachable registry,
    [stop_if_unheld] retires a slot exactly when its key is live under that
    identity and the registry's is the only reference left; it then revokes the
    binding and records the tombstone.  In every other case registry, heap and
    process are unchanged. *)
Theorem stop_if_unheld_spec p0 r p key slot :
  wf_statics p0 → rtc registry_step (registry_new, p0) (r, p) →
  ∃ res r' p', stop_if_unheld key slot r p = Done (res, r', p') ∧
    match res with
    | Ok s => s = slot ∧ keys r !! key = Some (Live slot) ∧
        (∃ c, heap r !! slot = Some c ∧ strong_count c = 1%nat ∧
              raw_for_render (binding_identity (live_binding (cell_slot c)))
                ∈ revoked_bindings p') ∧
        keys r' = delete key (keys r) ∧ tombstones r' = <[slot := key]> (tombstones r)
    | Err _ => r' = r ∧ p' = p ∧
        (keys r !! key = Some (Live slot) → ∃ c, heap r !! slot = Some c ∧
           (1 < strong_count c)%nat)
    end.
Proof.
  intros Hwf Hrun. destruct (registry_run_ok _ _ Hrun) as [Hok _];
    [by apply registry_new_ok|]. simpl in Hok.
  unfold stop_if_unheld. destruct (keys r !! key) as [[a|s]|] eqn:Hkey;
    [by eexists _, _, _| |by eexists _, _, _].
  destruct (reg_live _ _ Hok _ _ Hkey) as (c & Hc & _ & _ & _ & Hst). rewrite Hc.
  destruct (reg_heap _ _ Hok _ _ Hc) as (Hs & _). rewrite Hs.
  case_decide as Heq; [subst slot; case_decide as Hn|].
  - eexists _, _, _. split; [done|]. simpl. split; [done|]. split; [done|]. intros _. exists c. auto.
  - destruct (retire key s c r p) as [[res r'] p'] eqn:Hret. eexists _, _, _. split; [done|].
    pose proof (retire_ok _ _ _ _ _ _ _ _ Hok Hkey Hc Hret) as (_ & -> & Ht & _).
    unfold retire, slot_revoke, arc_drop in Hret. injection Hret as _ <- <-.
    split; [done|]. split; [done|]. split; [|split; [done|exact Ht]].
    exists c. split; [done|]. split; [lia|]. simpl. set_solver.
  - eexists _, _, _. split; [done|]. simpl. split; [done|]. split; [done|]. congruence.
Qed.

(** ** A sample registry *)

Definition sample_key : ProjectKey := mkProjectKey "repo".

(** Admit, install (the caller keeps a handle), stop. *)
Lemma sample_registry_run :
  ∃ r p, rtc registry_step (registry_new, initial_process) (r, p) ∧
    tombstones r !! mkSlotIdentity 1 = Some sample_key ∧
    is_Some (heap r !! mkSlotIdentity 1).
Proof.
  eexists _, _. split.
  - eapply rtc_l; [eapply (reg_admit _ _ sample_key sample_binding NormalRoot true UserLocal);
                   vm_compute; reflexivity|].
    eapply rtc_l; [apply (reg_install _ _ sample_key None)|].
    apply rtc_once. eapply (reg_stop _ _ sample_key). vm_compute. reflexivity.
  - split; [vm_compute; reflexivity|]. vm_compute. by eexists.
Qed.

Lemma tombstones_never_revive_witness :
  ∃ r p c, rtc registry_step (registry_new, initial_process) (r, p) ∧
    heap r !! mkSlotIdentity 1 = Some c ∧
    slot_binding (cell_slot c) = Err (Tombstoned (mkSlotIdentity 1)).
Proof.
  destruct sample_registry_run as (r & p & Hrun & Ht & c & Hc).
  exists r, p, c. split; [exact Hrun|]. split; [exact Hc|].
  destruct (tombstones_never_revive initial_process r p (mkSlotIdentity 1) sample_key r p)
    as (_ & _ & _ & H); [apply initial_wf_statics|exact Hrun|exact Ht|apply rtc_refl|].
  apply (H c Hc).
Defined.

Lemma admission_single_flight_witness :
  ∃ s r' p', admit_with_outcome sample_key sample_binding NormalRoot true UserLocal
               registry_new initial_process
             = Done ((Ok (mkAttempt s CreatedPending), r'), p').
Proof.
  destruct (admission_single_flight initial_process registry_new initial_process sample_key
              sample_binding UserLocal) as (s & r' & p' & H & _);
    [apply initial_wf_statics|apply rtc_refl|done|].
  exists s, r', p'. exact H.
Defined.

Lemma stop_if_unheld_spec_witness :
  ∃ res r' p', stop_if_unheld sample_key (mkSlotIdentity 1) registry_new initial_process
               = Done (res, r', p') ∧ r' = registry_new.
Proof.
  destruct (stop_if_unheld_spec initial_process registry_new initial_process sample_key
              (mkSlotIdentity 1)) as (res & r' & p' & H & Hres);
    [apply initial_wf_statics|apply rtc_refl|].
  exists res, r', p'. split; [exact H|]. destruct res as [s|e].
  - destruct Hres as (_ & Hk & _). by vm_compute in Hk.
  - by destruct Hres.
Defined.
