(* ===== verification/Activation.v ===== *)
(** * The activation cut

    Models the mode machine of src/src/index_lifecycle/activation.rs:
    [LegacyOpen -> LegacyClosing -> PreventiveV1Open], the nine lanes that register
    before the legacy gate closes, and the non-clonable registration tokens whose
    consumption is the evidence that a lane drained. *)

From Stdlib Require Import Lia NArith.
From stdpp Require Import base gmap sets list strings numbers option relations.
From S2P Require Import Prelude Identity.

#[local] Open Scope N_scope.

(** ** The mode machine *)

Inductive ActivationMode : Type := LegacyOpen | LegacyClosing | PreventiveV1Open.

#[global] Instance ActivationMode_eq_dec : EqDecision ActivationMode.
Proof. solve_decision. Defined.

Inductive RegisteredLane : Type :=
| ToolQuery | ResourceQuery | PromptQuery | Cache | Ccr | Retrieval | Sidecar | Hook
| Finalization.

#[global] Instance RegisteredLane_eq_dec : EqDecision RegisteredLane.
Proof. solve_decision. Defined.

Definition RegisteredLane_ALL : list RegisteredLane :=
  [ToolQuery; ResourceQuery; PromptQuery; Cache; Ccr; Retrieval; Sidecar; Hook; Finalization].

Inductive ActivationRefusal : Type :=
| LaneAlreadyRegistered (lane : RegisteredLane)
| LanesUnregistered (lanes : list RegisteredLane)
| LanesUndrained (lanes : list RegisteredLane)
| WrongMode (expected actual : ActivationMode)
| ForeignRegistration.

Record LaneRegistration := mkRegistration { machine : N; lane : RegisteredLane }.

(** [mode] is the atomic byte; the lane table is two [BTreeSet]s, which iterate in
    the declaration order of the lanes, that of [ALL]. *)
Record ActivationCut := mkActivationCut {
  machine_identity : N;
  mode_byte : N;
  registered : list RegisteredLane;
  drained : list RegisteredLane
}.

Definition MODE_LEGACY_OPEN : N := 0.
Definition MODE_LEGACY_CLOSING : N := 1.
Definition MODE_PREVENTIVE_V1_OPEN : N := 2.

Definition mode_of (raw : N) : ActivationMode :=
  if decide (raw = MODE_LEGACY_OPEN) then LegacyOpen
  else if decide (raw = MODE_LEGACY_CLOSING) then LegacyClosing
  else PreventiveV1Open.

Definition activation_new : Proc Process ActivationCut :=
  identity ← fetch_add NEXT_MACHINE_IDENTITY;
  mret (mkActivationCut identity MODE_LEGACY_OPEN [] []).

Definition mode (m : ActivationCut) : ActivationMode := mode_of (mode_byte m).

(** [BTreeSet::insert]. *)
Definition insert_lane (l : RegisteredLane) (s : list RegisteredLane) : list RegisteredLane :=
  if decide (l ∈ s) then s else s ++ [l].

Definition register_lane (l : RegisteredLane) (m : ActivationCut)
  : Result LaneRegistration ActivationRefusal * ActivationCut :=
  let actual := mode m in
  if decide (actual ≠ LegacyOpen) then (Err (WrongMode LegacyOpen actual), m)
  else if decide (l ∈ registered m) then (Err (LaneAlreadyRegistered l), m)
  else (Ok (mkRegistration (machine_identity m) l),
        mkActivationCut (machine_identity m) (mode_byte m) (insert_lane l (registered m))
                        (drained m)).

Definition begin_closing (m : ActivationCut) : Result unit ActivationRefusal * ActivationCut :=
  let actual := mode m in
  if decide (actual ≠ LegacyOpen) then (Err (WrongMode LegacyOpen actual), m)
  else
    match filter (λ l, l ∉ registered m) RegisteredLane_ALL with
    | [] => (Ok tt, mkActivationCut (machine_identity m) MODE_LEGACY_CLOSING (registered m)
                                    (drained m))
    | missing => (Err (LanesUnregistered missing), m)
    end.

Definition confirm_drained (r : LaneRegistration) (m : ActivationCut)
  : Result unit ActivationRefusal * ActivationCut :=
  if decide (machine r ≠ machine_identity m) then (Err ForeignRegistration, m)
  else
    let actual := mode m in
    if decide (actual ≠ LegacyClosing) then (Err (WrongMode LegacyClosing actual), m)
    else (Ok tt, mkActivationCut (machine_identity m) (mode_byte m) (registered m)
                                 (insert_lane (lane r) (drained m))).

Definition open_preventive (m : ActivationCut)
  : Result unit ActivationRefusal * ActivationCut :=
  let actual := mode m in
  if decide (actual ≠ LegacyClosing) then (Err (WrongMode LegacyClosing actual), m)
  else
    match filter (λ l, l ∈ registered m ∧ l ∉ drained m) RegisteredLane_ALL with
    | [] => (Ok tt, mkActivationCut (machine_identity m) MODE_PREVENTIVE_V1_OPEN
                                    (registered m) (drained m))
    | undrained => (Err (LanesUndrained undrained), m)
    end.

#[local] Arguments mode_of : simpl never.

(** ** Runs of the machine

    The state of a run is the machine and the registration tokens its lane owners
    still hold.  A token is not [Clone]: a confirmation consumes it whatever the
    machine answers.  A token of another machine can be presented at any time. *)

Inductive CutEvent : Type :=
| EvRegistered (l : RegisteredLane)
| EvClosing
| EvDrained (l : RegisteredLane)
| EvOpened.

Abbreviation CutState := (ActivationCut * list LaneRegistration)%type.

Definition ok_event {A} (ev : A → CutEvent) (r : Result A ActivationRefusal)
  : list CutEvent :=
  match r with Ok a => [ev a] | Err _ => [] end.

Inductive cut_step : CutState → list CutEvent → CutState → Prop :=
| cut_register m tokens l r m' :
    register_lane l m = (Ok r, m') →
    cut_step (m, tokens) [EvRegistered l] (m', tokens ++ [r])
| cut_register_refused m tokens l e m' :
    register_lane l m = (Err e, m') → cut_step (m, tokens) [] (m', tokens)
| cut_close m tokens r m' :
    begin_closing m = (r, m') →
    cut_step (m, tokens) (ok_event (λ _, EvClosing) r) (m', tokens)
| cut_confirm m before token after r m' :
    confirm_drained token m = (r, m') →
    cut_step (m, before ++ token :: after) (ok_event (λ _, EvDrained (lane token)) r)
             (m', before ++ after)
| cut_confirm_foreign m tokens token r m' :
    machine token ≠ machine_identity m → confirm_drained token m = (r, m') →
    cut_step (m, tokens) [] (m', tokens)
| cut_open m tokens r m' :
    open_preventive m = (r, m') →
    cut_step (m, tokens) (ok_event (λ _, EvOpened) r) (m', tokens).

Inductive cut_run : CutState → list CutEvent → CutState → Prop :=
| cut_nil s : cut_run s [] s
| cut_snoc s1 evs s2 ev s3 :
    cut_run s1 evs s2 → cut_step s2 ev s3 → cut_run s1 (evs ++ ev) s3.

(** What has happened so far, read off the machine. *)
Definition cut_trace (m : ActivationCut) : list CutEvent :=
  (EvRegistered <$> registered m) ++
  match mode m with
  | LegacyOpen => []
  | LegacyClosing => EvClosing :: (EvDrained <$> drained m)
  | PreventiveV1Open => EvClosing :: (EvDrained <$> drained m) ++ [EvOpened]
  end.

Definition complete_set (ls : list RegisteredLane) : Prop := ∀ l, l ∈ ls.

Record cut_inv (evs : list CutEvent) (s : CutState) : Prop := mk_cut_inv {
  inv_trace : evs = cut_trace (fst s);
  inv_registered : NoDup (registered (fst s));
  inv_drained : NoDup (drained (fst s));
  inv_open : mode (fst s) = LegacyOpen → drained (fst s) = [];
  inv_closing : mode (fst s) ≠ LegacyOpen → complete_set (registered (fst s));
  inv_preventive : mode (fst s) = PreventiveV1Open → complete_set (drained (fst s));
  inv_tokens : Forall (λ r, machine r = machine_identity (fst s) ∧
                            lane r ∈ registered (fst s) ∧ lane r ∉ drained (fst s)) (snd s);
  inv_tokens_once : NoDup (lane <$> snd s)
}.

Lemma all_lanes l : l ∈ RegisteredLane_ALL.
Proof. unfold RegisteredLane_ALL. destruct l; set_solver. Qed.

Lemma insert_lane_new l ls : l ∉ ls → insert_lane l ls = ls ++ [l].
Proof. intros. unfold insert_lane. by rewrite decide_False. Qed.

Lemma filter_nil_none {A} (P : A → Prop) `{∀ x, Decision (P x)} (ls : list A) x :
  filter P ls = [] → x ∈ ls → ¬ P x.
Proof. intros Hf Hx HP. assert (x ∈ filter P ls) as Hin by (by apply list_elem_of_filter).
  rewrite Hf in Hin. by apply elem_of_nil in Hin. Qed.

(** What an accepted transition has checked and does. *)
Lemma register_lane_Ok l m r m' :
  register_lane l m = (Ok r, m') →
  mode m = LegacyOpen ∧ l ∉ registered m ∧ r = mkRegistration (machine_identity m) l ∧
  m' = mkActivationCut (machine_identity m) (mode_byte m) (registered m ++ [l]) (drained m).
Proof.
  unfold register_lane. intros H. case_decide as E1; [done|]. case_decide as E2; [done|].
  try apply dec_stable in E1. rewrite insert_lane_new in H by done. by simplify_eq.
Qed.

Lemma register_lane_Err l m e m' : register_lane l m = (Err e, m') → m' = m.
Proof. unfold register_lane. intros H. by repeat case_decide; simplify_eq. Qed.

Lemma begin_closing_cases m r m' :
  begin_closing m = (r, m') →
  (∃ e, r = Err e ∧ m' = m) ∨
  (r = Ok tt ∧ mode m = LegacyOpen ∧ complete_set (registered m) ∧
   m' = mkActivationCut (machine_identity m) MODE_LEGACY_CLOSING (registered m) (drained m)).
Proof.
  unfold begin_closing. intros H. case_decide as E1; [simplify_eq; eauto|].
  try apply dec_stable in E1.
  destruct (filter _ _) as [|x xs] eqn:Ef; simplify_eq; [|eauto].
  right. repeat split; auto. intros l.
  apply dec_stable. by apply (filter_nil_none _ _ l Ef), all_lanes.
Qed.

Lemma confirm_drained_cases token m r m' :
  confirm_drained token m = (r, m') →
  (∃ e, r = Err e ∧ m' = m ∧ (machine token ≠ machine_identity m ∨ mode m ≠ LegacyClosing)) ∨
  (r = Ok tt ∧ machine token = machine_identity m ∧ mode m = LegacyClosing ∧
   m' = mkActivationCut (machine_identity m) (mode_byte m) (registered m)
          (insert_lane (lane token) (drained m))).
Proof.
  unfold confirm_drained. intros H. case_decide as E1; [simplify_eq; eauto 10|].
  try apply dec_stable in E1. case_decide as E2; [simplify_eq; eauto 10|].
  try apply dec_stable in E2. simplify_eq. auto.
Qed.

Lemma open_preventive_cases m r m' :
  open_preventive m = (r, m') →
  (∃ e, r = Err e ∧ m' = m) ∨
  (r = Ok tt ∧ mode m = LegacyClosing ∧ (∀ l, l ∈ registered m → l ∈ drained m) ∧
   m' = mkActivationCut (machine_identity m) MODE_PREVENTIVE_V1_OPEN (registered m)
          (drained m)).
Proof.
  unfold open_preventive. intros H. case_decide as E1; [simplify_eq; eauto|].
  try apply dec_stable in E1.
  destruct (filter _ _) as [|x xs] eqn:Ef; simplify_eq; [|eauto].
  right. repeat split; auto. intros l Hl.
  pose proof (filter_nil_none _ _ l Ef (all_lanes l)) as Hn. apply dec_stable. tauto.
Qed.

Lemma cut_inv_confirm evs m before token after r m' :
  cut_inv evs (m, before ++ token :: after) → confirm_drained token m = (r, m') →
  cut_inv (evs ++ ok_event (λ _, EvDrained (lane token)) r) (m', before ++ after).
Proof.
  intros [Ht Hr Hd Ho Hc Hp Hk Hn] H. simpl in *.
  rewrite fmap_app in Hn. simpl in Hn.
  apply NoDup_app in Hn as (Hn1 & Hn2 & [Hn3 Hn4]%NoDup_cons).
  apply Forall_app in Hk as [Hk1 [(Htm & Htr & Htd) Hk2]%Forall_cons].
  assert (lane token ∉ lane <$> before ++ after) as Hout.
  { rewrite fmap_app, elem_of_app. intros [Hx|Hx]; [|done].
    by apply (Hn2 _ Hx), list_elem_of_here. }
  assert (NoDup (lane <$> before ++ after)) as Hnd.
  { rewrite fmap_app. apply NoDup_app. repeat split; [done| |done].
    intros x Hx Hx'. apply (Hn2 x Hx). by apply list_elem_of_further. }
  apply confirm_drained_cases in H as [(e & -> & -> & _)|(-> & _ & Hm & ->)].
  - rewrite app_nil_r. constructor; simpl; auto. by apply Forall_app.
  - rewrite insert_lane_new by done. unfold mode in *. constructor; simpl; auto.
    + rewrite Ht. unfold cut_trace, mode. simpl. rewrite Hm, fmap_app, <-!app_assoc. done.
    + apply NoDup_app. split; [done|]. split; [|apply NoDup_singleton]. set_solver.
    + intros Hx. unfold mode in Hx. simpl in Hx. congruence.
    + intros Hx. unfold mode in Hx. simpl in Hx. congruence.
    + apply Forall_forall. intros t Hin.
      assert (lane t ≠ lane token) as Hne
        by (intros Heq; apply Hout; rewrite <-Heq; apply list_elem_of_fmap; eauto).
      apply elem_of_app in Hin as Hin'.
      assert (machine t = machine_identity m ∧ lane t ∈ registered m ∧ lane t ∉ drained m)
        as (? & ? & ?).
      { rewrite Forall_forall in Hk1, Hk2. destruct Hin'; [by apply Hk1|by apply Hk2]. }
      repeat split; auto. rewrite elem_of_app, list_elem_of_singleton. tauto.
Qed.

Lemma cut_inv_register evs m tokens l r m' :
  cut_inv evs (m, tokens) → register_lane l m = (Ok r, m') →
  cut_inv (evs ++ [EvRegistered l]) (m', tokens ++ [r]).
Proof.
  intros [Ht Hr Hd Ho Hc Hp Hk Hn] H. simpl in *.
  apply register_lane_Ok in H as (Hm & Hl & -> & ->).
  unfold mode in *. constructor; simpl; auto.
  - rewrite Ht. unfold cut_trace, mode. simpl. by rewrite Hm, fmap_app, !app_nil_r.
  - apply NoDup_app. split; [done|]. split; [|apply NoDup_singleton]. set_solver.
  - intros Hx. unfold mode in Hx. simpl in Hx. congruence.
  - apply Forall_app. split.
    + eapply Forall_impl; [exact Hk|]. simpl. intros t (? & ? & ?). set_solver.
    + apply Forall_singleton. simpl. rewrite Ho by done. set_solver.
  - rewrite fmap_app. apply NoDup_app. split; [done|]. split; [|apply NoDup_singleton].
    simpl. intros x (t & -> & Hin)%list_elem_of_fmap Hx%list_elem_of_singleton.
    rewrite Forall_forall in Hk. apply Hk in Hin as (_ & Hin & _). by rewrite Hx in Hin.
Qed.

Lemma cut_step_inv evs s ev s' : cut_inv evs s → cut_step s ev s' → cut_inv (evs ++ ev) s'.
Proof.
  intros Hi Hs. destruct Hs as [m tokens l r m' H|m tokens l e m' H|m tokens r m' H
    |m before token after r m' H|m tokens token r m' Hf H|m tokens r m' H].
  - by eapply cut_inv_register.
  - apply register_lane_Err in H as ->. by rewrite app_nil_r.
  - apply begin_closing_cases in H as [(e & -> & ->)|(-> & Hm & Hall & ->)];
      [by rewrite app_nil_r|].
    destruct Hi as [Ht Hr Hd Ho Hc Hp Hk Hn]. simpl in *.
    constructor; simpl; auto; try done.
    rewrite Ht. unfold cut_trace. rewrite Hm. simpl. by rewrite Ho, app_nil_r by done.
  - by eapply cut_inv_confirm.
  - apply confirm_drained_cases in H as [(e & -> & -> & _)|(_ & ? & _)]; [|done].
    by rewrite app_nil_r.
  - apply open_preventive_cases in H as [(e & -> & ->)|(-> & Hm & Hall & ->)];
      [by rewrite app_nil_r|].
    destruct Hi as [Ht Hr Hd Ho Hc Hp Hk Hn]. simpl in *.
    assert (complete_set (registered m)) as Hreg by (apply Hc; congruence).
    constructor; simpl; auto; try done.
    + rewrite Ht. unfold cut_trace. rewrite Hm. simpl. by rewrite <-app_assoc.
    + intros _ l. apply Hall, Hreg.
Qed.

Lemma cut_run_inv m evs s :
  mode m = LegacyOpen → registered m = [] → drained m = [] →
  cut_run (m, []) evs s → cut_inv evs s.
Proof.
  intros Hm Hr Hd Hrun. remember (m, []) as s0 eqn:E0.
  induction Hrun as [s|s1 evs s2 ev s3 Hrun IH Hs].
  - subst s. constructor; simpl; rewrite ?Hr, ?Hd; try constructor; try done.
    + unfold cut_trace. by rewrite Hr, Hm.
    + congruence.
  - eapply cut_step_inv; [by apply IH|exact Hs].
Qed.

Lemma complete_perm ls : NoDup ls → complete_set ls → ls ≡ₚ RegisteredLane_ALL.
Proof.
  intros Hn Hc. apply NoDup_Permutation; [done| |].
  - by apply (bool_decide_unpack _).
  - intros l. split; intros _; [apply all_lanes|apply Hc].
Qed.

(** C20: the preventive mode opens only after the whole protocol.  In every
    interleaving of lane registrations, confirmations, foreign tokens and
    transition attempts that reaches PreventiveV1Open, the accepted calls are
    exactly: every lane registered once, then one close of the legacy gate, then
    every lane drained once by its own token, then one opening. *)
Theorem preventive_opens_after_full_drain p cut p' evs m tokens :
  activation_new p = Done (cut, p') → cut_run (cut, []) evs (m, tokens) →
  mode m = PreventiveV1Open →
  ∃ regs drains, evs = (EvRegistered <$> regs) ++ EvClosing :: (EvDrained <$> drains) ++ [EvOpened]
    ∧ regs ≡ₚ RegisteredLane_ALL ∧ drains ≡ₚ RegisteredLane_ALL.
Proof.
  intros Hnew Hrun Hm. unfold activation_new in Hnew.
  apply Proc_bind_Done in Hnew as (i & p1 & _ & [= -> ->]%Proc_ret_Done).
  apply cut_run_inv in Hrun as [Ht Hr Hd Ho Hc Hp Hk Hn]; [|done..]. simpl in *.
  exists (registered m), (drained m). split; [|split].
  - rewrite Ht. unfold cut_trace. by rewrite Hm.
  - apply complete_perm; [done|]. apply Hc. congruence.
  - apply complete_perm; [done|]. by apply Hp.
Qed.

(** ** Stranding *)

(** [l] is registered, has not drained, and nobody holds its token. *)
Definition lane_lost (l : RegisteredLane) (s : CutState) : Prop :=
  l ∈ registered (fst s) ∧ l ∉ drained (fst s) ∧ mode (fst s) ≠ PreventiveV1Open ∧
  ∀ r, r ∈ snd s → machine r = machine_identity (fst s) → lane r ≠ l.

Lemma cut_step_lost l s ev s' : cut_step s ev s' → lane_lost l s → lane_lost l s'.
Proof.
  intros Hs (Hr & Hd & Hm & Hk). destruct Hs as [m tokens l' r m' H|m tokens l' e m' H
    |m tokens r m' H|m before token after r m' H|m tokens token r m' Hf H|m tokens r m' H];
    simpl in *.
  - apply register_lane_Ok in H as (Hm' & Hl & -> & ->). repeat split; simpl; auto.
    + set_solver.
    + intros r [Hin| ->%list_elem_of_singleton]%elem_of_app; [by apply Hk|].
      simpl. intros _ ->. done.
  - by apply register_lane_Err in H as ->.
  - apply begin_closing_cases in H as [(e & -> & ->)|(-> & _ & _ & ->)]; by repeat split.
  - assert (∀ r, r ∈ before ++ after → machine r = machine_identity m → lane r ≠ l) as Hk'.
    { intros t Hin. apply Hk. rewrite elem_of_app, elem_of_cons in *. tauto. }
    apply confirm_drained_cases in H as [(e & -> & -> & _)|(-> & Hmt & Hmode & ->)];
      [by repeat split|].
    repeat split; simpl; auto. unfold insert_lane. case_decide; [done|].
    rewrite elem_of_app, list_elem_of_singleton. intros [?| ->]; [done|].
    apply (Hk token); [set_solver|done|done].
  - by apply confirm_drained_cases in H as [(e & -> & -> & _)|(_ & ? & _)].
  - apply open_preventive_cases in H as [(e & -> & ->)|(-> & _ & Hall & ->)];
      [by repeat split|]. by apply Hall in Hr.
Qed.

Lemma cut_run_lost l s evs s' : cut_run s evs s' → lane_lost l s → lane_lost l s'.
Proof. induction 1; [done|]. intros Hl. eapply cut_step_lost; eauto. Qed.

(** A mis-sequenced confirmation fails loudly and for good.  A token confirmed
    before the drain window opens is refused with WrongMode, is consumed, and from
    then on no sequence of calls ever opens the preventive mode: every attempt to
    open is refused. *)
Theorem premature_confirmation_strands p cut p' evs m before token after :
  activation_new p = Done (cut, p') → cut_run (cut, []) evs (m, before ++ token :: after) →
  mode m = LegacyOpen →
  confirm_drained token m = (Err (WrongMode LegacyClosing LegacyOpen), m) ∧
  ∀ evs' m' tokens', cut_run (m, before ++ after) evs' (m', tokens') →
    mode m' ≠ PreventiveV1Open ∧ ∃ e, open_preventive m' = (Err e, m').
Proof.
  intros Hnew Hrun Hm. unfold activation_new in Hnew.
  apply Proc_bind_Done in Hnew as (i & p1 & _ & [= -> ->]%Proc_ret_Done).
  apply cut_run_inv in Hrun as [Ht Hr Hd Ho Hc Hp Hk Hn]; [|done..]. simpl in *.
  assert (machine token = machine_identity m ∧ lane token ∈ registered m ∧
          lane token ∉ drained m) as (Htm & Htr & Htd).
  { rewrite Forall_forall in Hk. apply Hk. set_solver. }
  split.
  { unfold confirm_drained. rewrite decide_False by (intros Hx; by apply Hx).
    rewrite Hm. by rewrite decide_True. }
  intros evs' m' tokens' Hrun'.
  apply (cut_run_lost (lane token)) in Hrun' as (Hr' & Hd' & Hm' & _).
  - split; [done|]. simpl in *.
    destruct (open_preventive m') as [r m''] eqn:E.
    apply open_preventive_cases in E as [(e & -> & ->)|(_ & _ & Hall & _)]; [eauto|].
    by apply Hall in Hr'.
  - repeat split; simpl; auto; [congruence|]. intros t Hin _ Heq.
    rewrite fmap_app in Hn. simpl in Hn. apply NoDup_app in Hn as (_ & Hn2 & [Hn3 _]%NoDup_cons).
    apply elem_of_app in Hin as [Hin|Hin].
    + apply (Hn2 (lane t)); [apply list_elem_of_fmap; eauto|]. rewrite Heq. set_solver.
    + apply Hn3. rewrite <-Heq. apply list_elem_of_fmap. eauto.
Qed.

(** ** A run *)

Definition sample_cut (byte : N) (regs drains : list RegisteredLane) : ActivationCut :=
  mkActivationCut 1 byte regs drains.
Definition sample_tokens (ls : list RegisteredLane) : list LaneRegistration :=
  mkRegistration 1 <$> ls.

Lemma sample_register n :
  (n ≤ 9)%nat →
  cut_run (sample_cut 0 [] [], [])
    (EvRegistered <$> take n RegisteredLane_ALL)
    (sample_cut 0 (take n RegisteredLane_ALL) [], sample_tokens (take n RegisteredLane_ALL)).
Proof.
  intros Hn. induction n as [|n IH]; [constructor|].
  assert (∃ l, RegisteredLane_ALL !! n = Some l) as [l Hl]
    by (apply lookup_lt_is_Some; simpl; lia).
  rewrite (take_S_r _ _ _ Hl). unfold sample_tokens. rewrite !fmap_app.
  eapply cut_snoc; [apply IH; lia|]. apply cut_register.
  do 9 (destruct n as [|n]; [by vm_compute in Hl; simplify_eq; vm_compute|]).
  exfalso. lia.
Qed.

Lemma sample_drain n :
  (n ≤ 9)%nat →
  cut_run (sample_cut 0 [] [], [])
    ((EvRegistered <$> RegisteredLane_ALL) ++ EvClosing :: (EvDrained <$> take n RegisteredLane_ALL))
    (sample_cut 1 RegisteredLane_ALL (take n RegisteredLane_ALL),
     sample_tokens (drop n RegisteredLane_ALL)).
Proof.
  intros Hn. induction n as [|n IH].
  - eapply cut_snoc; [apply (sample_register 9); lia|].
    by apply (cut_close _ _ (Ok tt)).
  - assert (∃ l, RegisteredLane_ALL !! n = Some l) as [l Hl]
      by (apply lookup_lt_is_Some; simpl; lia).
    rewrite (take_S_r _ _ _ Hl), fmap_app, app_comm_cons, app_assoc.
    eapply cut_snoc; [apply IH; lia|].
    rewrite (drop_S _ _ _ Hl). unfold sample_tokens. rewrite fmap_cons.
    apply (cut_confirm _ [] (mkRegistration 1 l) _ (Ok tt)).
    do 9 (destruct n as [|n]; [by vm_compute in Hl; simplify_eq; vm_compute|]).
    exfalso. lia.
Qed.

Lemma preventive_opens_after_full_drain_witness :
  ∃ regs drains : list RegisteredLane,
    (EvRegistered <$> RegisteredLane_ALL) ++ EvClosing ::
      (EvDrained <$> RegisteredLane_ALL) ++ [EvOpened]
    = (EvRegistered <$> regs) ++ EvClosing :: (EvDrained <$> drains) ++ [EvOpened] ∧
    regs ≡ₚ RegisteredLane_ALL ∧ drains ≡ₚ RegisteredLane_ALL.
Proof.
  apply (preventive_opens_after_full_drain initial_process (sample_cut 0 [] [])
           (set_static NEXT_MACHINE_IDENTITY 2 initial_process) _
           (sample_cut 2 RegisteredLane_ALL RegisteredLane_ALL) []).
  - reflexivity.
  - rewrite app_comm_cons, app_assoc. eapply cut_snoc; [apply (sample_drain 9); lia|].
    by apply (cut_open _ _ (Ok tt)).
  - reflexivity.
Defined.

Lemma premature_confirmation_strands_witness :
  confirm_drained (mkRegistration 1 Cache)
    (sample_cut 0 [ToolQuery; ResourceQuery; PromptQuery; Cache] [])
  = (Err (WrongMode LegacyClosing LegacyOpen),
     sample_cut 0 [ToolQuery; ResourceQuery; PromptQuery; Cache] []).
Proof.
  refine (proj1 (premature_confirmation_strands initial_process (sample_cut 0 [] [])
    (set_static NEXT_MACHINE_IDENTITY 2 initial_process) _ _
    (sample_tokens [ToolQuery; ResourceQuery; PromptQuery]) _ [] _ _ _)).
  - reflexivity.
  - apply (sample_register 4). lia.
  - reflexivity.
Defined.
