(* ===== verification/ProjectAuthority.v ===== *)
(** * The project source authority

    Models the write-lane bridge and the observation lane of
    src/src/index_lifecycle/activation.rs: [ProjectSourceAuthority], which composes
    the other components into its observation lane (observer slot, accumulator,
    supervisors, candidates, capacity) and its write lane (grant, permit, return to
    Current).

    The authority has two mutexes.  Each locked section is one function here, and
    the return to Current, which takes the lane lock and then the inner lock, is two:
    [return_cut] and [return_install].  The hash of a relative path
    ([DefaultHasher]) and the operating system are parameters. *)

From Stdlib Require Import Lia NArith.
From stdpp Require Import base gmap sets list strings numbers option relations.
From S2P Require Import Prelude Identity PhysicalRoot Authority Mutation Transition Capacity.
From S2P Require Import Supervisor Candidate Observer.

#[local] Open Scope N_scope.

(** ** The source authority *)

Definition OBSERVATION_ACCUMULATOR_BOUND : nat := 4096.
Definition OBSERVATION_CAPACITY_BYTES : N := 2 ^ 30.

(** [domain::index::CatalogPath]. *)
Record CatalogPath := mkCatalogPath {
  public_id : string;
  normalized_utf8 : option string
}.

Record ObservationLane := mkLane {
  lane_slot : ObserverSlot;
  active_token : ObserverToken;
  accumulator : CoalescingAccumulator;
  supervisors : gmap N SupervisorState;
  artifact_root : gmap SourceId (SourceArtifacts CatalogPath unit);
  lane_pool : PoolIdentity;
  lane_owner : OwnerIdentity;
  next_observer : N;
  next_stamp : N;
  last_reconcile_cut : option ObservationCut
}.

Section Bridge.
Context {FS Dir File : Type} {OS : CapStd FS Dir File}.
Context (observation_source_id : string → N).

Record AuthorityInner := mkInner {
  runtime : SourceRuntime;
  inner_lease : PhysicalRootLease Dir;
  outstanding_signal : N
}.

(** The process-wide state the authority reaches through [Arc]s. *)
Record Shared := mkShared {
  sh_process : Process;
  sh_signals : Signals;
  sh_pools : Pools
}.

Record ProjectSourceAuthority := mkSourceAuthority {
  auth_root : string;
  admission_root : PhysicalRootIdentity;
  physical_anchor : option PhysicalRootAnchor;
  path_absent_pending : bool;
  auth_inner : AuthorityInner;
  auth_lane : ObservationLane
}.

Record WriteAuthority := mkWriteAuthority {
  write_permit : option (SourceMutationPermit Dir);
  frozen_publication : PublicationIdentity
}.

Definition on_process {A} (m : Proc Process A) : Proc Shared A := λ s,
  match m (sh_process s) with
  | Done (a, p) => Done (a, mkShared p (sh_signals s) (sh_pools s))
  | Panic => Panic
  end.

(** [Arc::new(PermitDrainSignal::new())]: a cell nobody holds. *)
Definition next_key (signals : Signals) : N :=
  map_fold (λ k _ acc, N.max (k + 1) acc) 0 signals.

Definition signal_new : Proc Shared N := λ s,
  let d := next_key (sh_signals s) in
  Done (d, mkShared (sh_process s) (<[d := PermitDrainSignal_new]> (sh_signals s)) (sh_pools s)).

(** [opened] and [anchor] are what opening and observing the root returned. *)
Definition for_root (root : string) (opened : option Dir)
    (anchor : option PhysicalRootAnchor)
  : Proc Shared ProjectSourceAuthority :=
  lease ← on_process (lease_take root opened);
  let lease := parked lease in
  binding ← on_process (bind (lease_identity lease));
  seed_token ← on_process (fresh KObserverToken);
  publication ← on_process (promote binding seed_token);
  '(pool, owner) ← ((λ s,
     match pool_new (sh_pools s) (sh_process s) with
     | Panic => Panic
     | Done ((pool, pools), p) =>
         match pools !! pool with
         | None => Panic
         | Some pl =>
             match Capacity.root OBSERVATION_CAPACITY_BYTES pl p with
             | Panic => Panic
             | Done ((owner, pl), p) =>
                 Done ((pool, owner), mkShared p (sh_signals s) (<[pool := pl]> pools))
             end
         end
     end) : Proc Shared (PoolIdentity * OwnerIdentity));
  outstanding ← signal_new;
  mret (mkSourceAuthority root (lease_identity lease) anchor false
          (mkInner (runtime_current publication) lease outstanding)
          (mkLane (slot_new (mkObserverId 1)) seed_token
             (accumulator_new OBSERVATION_ACCUMULATOR_BOUND) ∅ ∅ pool owner 1 0 None)).

(** ** The observation lane *)

Definition set_accumulator (a : CoalescingAccumulator) (l : ObservationLane)
  : ObservationLane :=
  mkLane (lane_slot l) (active_token l) a (supervisors l) (artifact_root l) (lane_pool l)
         (lane_owner l) (next_observer l) (next_stamp l) (last_reconcile_cut l).

Definition register_observer (l : ObservationLane)
  : Proc Process (ObserverId * ObservationLane) :=
  let next := u64_add (next_observer l) 1 in
  let successor := mkObserverId next in
  match begin_handoff successor (lane_slot l) with
  | (Err _, _) => panic
  | (Ok _, slot) =>
      let '(_, slot) := deliver_pending slot in
      match complete_handoff slot with
      | (Err _, _) => panic
      | (Ok _, slot) =>
          token ← fresh KObserverToken;
          mret (successor,
                mkLane slot token (latch_handoff_barrier (accumulator l)) (supervisors l)
                       (artifact_root l) (lane_pool l) (lane_owner l) next (next_stamp l)
                       (last_reconcile_cut l))
      end
  end.

Definition active_observer (l : ObservationLane) : ObserverId := active (lane_slot l).

Definition dark_source (source_raw stamp : N) (relative : string)
  : CandidateSource CatalogPath unit :=
  mkCandidateSource (mkSourceId source_raw)
    (Content (mkCatalogPath relative (Some relative)) (mkContentToken stamp) 1).

Definition observe_admission_locked (relative : string) (l : ObservationLane)
    (pools : Pools) : Proc Process (ObservationLane * Pools) := λ p,
  let source_raw := observation_source_id relative in
  let stamp := u64_add (next_stamp l) 1 in
  let sup := default supervisor_new (supervisors l !! source_raw) in
  let '(attempt, sup) := begin_attempt sup in
  let expect := art_token <$> artifact_root l !! mkSourceId source_raw in
  match prepare_delta (λ _ d, (Some stamp, d)) (lane_pool l) (lane_owner l) attempt
          (dark_source source_raw stamp relative) expect tt pools p with
  | Panic => Panic
  | Done ((prepared, _, pools), p) =>
      let finish sup root acc pools :=
        Done ((mkLane (lane_slot l) (active_token l) acc
                 (<[source_raw := sup]> (supervisors l)) root (lane_pool l) (lane_owner l)
                 (next_observer l) stamp (last_reconcile_cut l), pools), p) in
      match prepared with
      | Err _ => finish sup (artifact_root l) (report_gap (accumulator l)) pools
      | Ok candidate =>
          match candidate_commit candidate sup (artifact_root l) pools with
          | Panic => Panic
          | Done (Ok _, sup, root, pools) =>
              finish sup root (snd (observe source_raw (Some stamp) (accumulator l))) pools
          | Done (Err _, sup, root, pools) =>
              finish sup root (report_gap (accumulator l)) pools
          end
      end
  end.

(** The incarnation check of every observation entry point. *)
Definition if_active (observer : ObserverId) (l : ObservationLane) {A}
    (go : Proc Process (ObservationLane * A)) (st : A)
  : Proc Process (Result unit ObserverId * ObservationLane * A) :=
  if decide (active (lane_slot l) ≠ observer)
  then mret (Err (active (lane_slot l)), l, st)
  else '(l, st) ← go; mret (Ok tt, l, st).

Definition observe_admission (observer : ObserverId) (relative : string)
    (l : ObservationLane) (pools : Pools)
  : Proc Process (Result unit ObserverId * ObservationLane * Pools) :=
  if_active observer l (observe_admission_locked relative l pools) pools.

Definition observe_removal_active (relative : string) (l : ObservationLane)
  : ObservationLane :=
  let stamp := u64_add (next_stamp l) 1 in
  mkLane (lane_slot l) (active_token l)
    (snd (observe (observation_source_id relative) (Some stamp) (accumulator l)))
    (supervisors l) (artifact_root l) (lane_pool l) (lane_owner l) (next_observer l) stamp
    (last_reconcile_cut l).

Definition observe_removal (observer : ObserverId) (relative : string) (l : ObservationLane)
  : Result unit ObserverId * ObservationLane :=
  if decide (active (lane_slot l) ≠ observer) then (Err (active (lane_slot l)), l)
  else (Ok tt, observe_removal_active relative l).

Definition lane_report_gap (observer : ObserverId) (l : ObservationLane)
  : Result unit ObserverId * ObservationLane :=
  if decide (active (lane_slot l) ≠ observer) then (Err (active (lane_slot l)), l)
  else (Ok tt, set_accumulator (report_gap (accumulator l)) l).

Definition observe_admission_active (relative : string) (l : ObservationLane) (pools : Pools)
  : Proc Process (ObservationLane * Pools) := observe_admission_locked relative l pools.

Definition observation_capacity_ledger (l : ObservationLane) (pools : Pools)
  : N * N * nat * N :=
  let pool := default pool_default (pools !! lane_pool l) in
  (charged pool (lane_owner l), OBSERVATION_CAPACITY_BYTES,
   outstanding_charges pool (lane_owner l), unknown_refunds pool).

Definition retained_observation_artifacts (l : ObservationLane) : nat * N :=
  (size (artifact_root l), N.of_nat (size (artifact_root l))).

Definition committed_observations (relative : string) (l : ObservationLane) : N :=
  default 0 (committed <$> supervisors l !! observation_source_id relative).

(** ** The write lane *)

Definition with_runtime (rt : SourceRuntime) (i : AuthorityInner) : AuthorityInner :=
  mkInner rt (inner_lease i) (outstanding_signal i).

Definition authority_is_current (i : AuthorityInner) : bool :=
  match live_publication (runtime i) with Some _ => true | None => false end.

Definition current_publication (i : AuthorityInner) : option PublicationIdentity :=
  publication <$> live_publication (runtime i).

Definition authority_grants_issued (i : AuthorityInner) : N := grants_issued (runtime i).

Definition admission_binding (a : ProjectSourceAuthority) : Proc Process BindingAuthority :=
  bind (admission_root a).

Definition revoke_for_replacement (i : AuthorityInner) (p : Process) : Process :=
  lease_revoke (inner_lease i) p.

(** The read lane.  [read] is the bounded read the caller runs on the lease;
    [opened] and [anchor] are what opening the root and its handle returned. *)
Definition with_anchored_read {R} (a : ProjectSourceAuthority)
    (expected : option PublicationIdentity) (opened : option Dir)
    (anchor : option PhysicalRootAnchor)
    (read : PhysicalRootLease Dir → Result R RootRefusal)
  : Proc Process (Result R AuthorityRefusal) := λ p,
  let rt := runtime (auth_inner a) in
  let go :=
    (lease ← take_matching_anchor (auth_root a) opened anchor (physical_anchor a);
     match lease with
     | Err e => mret (Err (authority_refusal_of_root e))
     | Ok lease => mret (map_root_err (read lease))
     end) p in
  if negb (lease_is_live p (inner_lease (auth_inner a)))
  then Done (Err PhysicalRootReplaced, p)
  else if decide (phase_of rt = PhaseBlocked ∨ phase_of rt = PhaseStopping)
  then Done (Err (PhaseNotCurrent (phase_of rt)), p)
  else
    match expected with
    | None => go
    | Some expected =>
        match live_publication rt with
        | None => Done (Err (PhaseNotCurrent (phase_of rt)), p)
        | Some presented =>
            if decide (publication presented ≠ expected)
            then Done (Err (PublicationIdentityMismatch expected (publication presented)), p)
            else go
        end
    end.

(** The tail of the acquire: the grant, a fresh signal, the reopened lease and the
    permit.  [opened] is what reopening the parked lease's directory returned. *)
Definition acquire_go (presented : PublicationIdentity) (opened : option Dir)
    (i : AuthorityInner)
  : Proc Shared (Result WriteAuthority AuthorityRefusal * AuthorityInner) :=
  '(granted, rt) ← on_process (request_mutation_grant (LiveCurrent presented) (runtime i));
  let i := with_runtime rt i in
  match granted with
  | Err e => mret (Err e, i)
  | Ok grant =>
      let frozen := proof_publication (grant_published_non_current grant) in
      drain ← signal_new;
      ((λ s,
        let live_lease := reopened (inner_lease i) opened in
        let '(permit, signals) :=
          permit_grant (sh_process s) grant live_lease drain (sh_signals s) in
        let s := mkShared (sh_process s) signals (sh_pools s) in
        match permit with
        | Err e => Done ((Err e, i), s)
        | Ok permit =>
            Done ((Ok (mkWriteAuthority (Some permit) frozen),
                   mkInner (runtime i) live_lease drain), s)
        end) : Proc Shared (Result WriteAuthority AuthorityRefusal * AuthorityInner))
  end.

Definition acquire_write_if_publication (expected : option PublicationIdentity)
    (opened : option Dir) (i : AuthorityInner)
  : Proc Shared (Result WriteAuthority AuthorityRefusal * AuthorityInner) :=
  match live_publication (runtime i) with
  | None => mret (Err (PhaseNotCurrent (phase_of (runtime i))), i)
  | Some live =>
      let presented := publication live in
      match expected with
      | Some e =>
          if decide (e ≠ presented)
          then mret (Err (PublicationIdentityMismatch e presented), i)
          else acquire_go presented opened i
      | None => acquire_go presented opened i
      end
  end.

Definition acquire_write (opened : option Dir) (i : AuthorityInner)
  : Proc Shared (Result WriteAuthority AuthorityRefusal * AuthorityInner) :=
  acquire_write_if_publication None opened i.

Definition acquire_write_expected (expected : PublicationIdentity) (opened : option Dir)
    (i : AuthorityInner)
  : Proc Shared (Result WriteAuthority AuthorityRefusal * AuthorityInner) :=
  acquire_write_if_publication (Some expected) opened i.

(** The lane-locked half of [return_to_current]. *)
Definition return_cut (l : ObservationLane) : ObserverToken * ObservationLane :=
  let '(c, acc) := cut (accumulator l) in
  (active_token l,
   mkLane (lane_slot l) (active_token l) acc (supervisors l) (artifact_root l) (lane_pool l)
          (lane_owner l) (next_observer l) (next_stamp l) (Some c)).

(** The inner-locked half.  [opened] is what taking the new lease opened; it is
    parked at once. *)
Definition return_install (root : string) (frozen : PublicationIdentity)
    (observer_cut : ObserverToken) (opened : option Dir) (i : AuthorityInner)
  : Proc Shared (Result unit AuthorityRefusal * AuthorityInner) := λ s,
  let rt := snd (retire_permit frozen (runtime i)) in
  let outstanding := signal_at (outstanding_signal i) (sh_signals s) in
  (new_lease ← on_process (lease_take root opened);
   let new_lease := parked new_lease in
   incoming ← on_process (bind (lease_identity new_lease));
   '(r, rt) ← on_process (apply Reload (inner_lease i) incoming observer_cut outstanding
                                outstanding rt);
   match r with
   | Err e => mret (Err e, with_runtime rt i)
   | Ok _ => mret (Ok tt, mkInner rt new_lease (outstanding_signal i))
   end) s.

(** The lane half of [recover_stranded]: latch the scope dirty, under its own
    lock. *)
Definition recover_latch (l : ObservationLane) : ObservationLane :=
  set_accumulator (latch_scope_dirty (accumulator l)) l.

(** The two halves run by one thread, with nobody between the locks. *)
Definition return_to_current (root : string) (frozen : PublicationIdentity)
    (opened : option Dir) (i : AuthorityInner) (l : ObservationLane)
  : Proc Shared (Result unit AuthorityRefusal * AuthorityInner * ObservationLane) :=
  let '(observer_cut, l) := return_cut l in
  '(r, i) ← return_install root frozen observer_cut opened i;
  mret (r, i, l).

Definition recover_stranded (root : string) (frozen : PublicationIdentity)
    (opened : option Dir) (i : AuthorityInner) (l : ObservationLane)
  : Proc Shared (Result unit AuthorityRefusal * AuthorityInner * ObservationLane) :=
  return_to_current root frozen opened i (recover_latch l).

Definition reconcile_returned (root : string) (frozen : PublicationIdentity)
    (ticket : RefreshTicket) (opened : option Dir) (i : AuthorityInner) (l : ObservationLane)
  : Proc Shared (Result RefreshTicket AuthorityRefusal * AuthorityInner * ObservationLane) :=
  '(r, i, l) ← return_to_current root frozen opened i l;
  match r with
  | Err e => mret (Err e, i, l)
  | Ok _ => mret (Ok ticket, i, l)
  end.

(** ** Writing *)

(** The start shared by every write: a side effect already in flight goes on. *)
Definition begin_delegated (p : Process) (permit : SourceMutationPermit Dir)
  : Result unit AuthorityRefusal * SourceMutationPermit Dir :=
  match start_side_effect p permit with
  | (Ok _, permit) => (Ok tt, permit)
  | (Err SideEffectAlreadyInFlight, permit) => (Ok tt, permit)
  | (Err e, permit) => (Err e, permit)
  end.

(** [write] and [write_owner_only]; [Panic] is the [expect] on a taken permit. *)
Definition write_with (owner_only : bool) (pid : N) (fs : FS) (relative : list Component)
    (contents : list N) (w : WriteAuthority) (p : Process)
  : Outcome (Result WriteReceipt AuthorityRefusal * WriteAuthority * Process * FS) :=
  match write_permit w with
  | None => Panic
  | Some permit =>
      match begin_delegated p permit with
      | (Err e, permit) =>
          Done (Err e, mkWriteAuthority (Some permit) (frozen_publication w), p, fs)
      | (Ok _, permit) =>
          let '(r, p, fs) :=
            if owner_only
            then permit_replace_owner_only_beneath pid p fs permit relative contents
            else permit_replace_beneath pid p fs permit relative contents in
          Done (r, mkWriteAuthority (Some permit) (frozen_publication w), p, fs)
      end
  end.

Definition write := write_with false.
Definition write_owner_only := write_with true.

Definition attest_delegated (fs : FS) (relative : list Component) (expected : list N)
    (w : WriteAuthority) (p : Process)
  : Outcome (Result (option WriteReceipt) AuthorityRefusal) :=
  match write_permit w with
  | None => Panic
  | Some permit => Done (attest_delegated_beneath p fs permit relative expected)
  end.

(** The permit half of a finish: commit or declare, and on success take and drop
    the permit.  A refusal leaves the permit in place for the drop recovery. *)
Definition finish_permit
    (terminate : SourceMutationPermit Dir → Signals →
       Result RefreshTicket AuthorityRefusal * SourceMutationPermit Dir * Signals)
    (w : WriteAuthority) (signals : Signals)
  : Outcome (Result RefreshTicket AuthorityRefusal * WriteAuthority * Signals) :=
  match write_permit w with
  | None => Panic
  | Some permit =>
      match terminate permit signals with
      | (Err e, permit, signals) =>
          Done (Err e, mkWriteAuthority (Some permit) (frozen_publication w), signals)
      | (Ok ticket, permit, signals) =>
          Done (Ok ticket, mkWriteAuthority None (frozen_publication w),
                permit_drop permit signals)
      end
  end.

(** The permit half of [Drop for WriteAuthority]: [true] when the recovery lane
    runs. *)
Definition write_drop (w : WriteAuthority) (signals : Signals) : bool * Signals :=
  match write_permit w with
  | None => (false, signals)
  | Some permit => (true, permit_drop permit signals)
  end.

(** [Drop for WriteAuthority]; the outcome of the recovery is discarded. *)
Definition drop_write (root : string) (opened : option Dir) (w : WriteAuthority)
    (i : AuthorityInner) (l : ObservationLane)
  : Proc Shared (AuthorityInner * ObservationLane) := λ s,
  let '(recovers, signals) := write_drop w (sh_signals s) in
  let s := mkShared (sh_process s) signals (sh_pools s) in
  if recovers then
    ('(_, i, l) ← recover_stranded root (frozen_publication w) opened i l; mret (i, l)) s
  else Done ((i, l), s).

(** A finish consumes the authority: after the permit half it reconciles, or returns
    the refusal and drops the authority with its permit still in place. *)
Definition finish_with
    (terminate : SourceMutationPermit Dir → Signals →
       Result RefreshTicket AuthorityRefusal * SourceMutationPermit Dir * Signals)
    (root : string) (opened : option Dir) (w : WriteAuthority) (i : AuthorityInner)
    (l : ObservationLane)
  : Proc Shared (Result RefreshTicket AuthorityRefusal * AuthorityInner * ObservationLane) :=
  λ s,
  match finish_permit terminate w (sh_signals s) with
  | Panic => Panic
  | Done (Ok ticket, w, signals) =>
      reconcile_returned root (frozen_publication w) ticket opened i l
        (mkShared (sh_process s) signals (sh_pools s))
  | Done (Err e, w, signals) =>
      ('(i, l) ← drop_write root opened w i l; mret (Err e, i, l))
        (mkShared (sh_process s) signals (sh_pools s))
  end.

Definition finish_committed (receipt : WriteReceipt) := finish_with (commit receipt).
Definition finish_no_side_effect := finish_with no_side_effect.

End Bridge.


Arguments AuthorityInner Dir : clear implicits.
Arguments WriteAuthority Dir : clear implicits.
Arguments ProjectSourceAuthority Dir : clear implicits.

(** ** Interleavings of one authority

    A writer is a thread that owns a [WriteAuthority] or is inside one of the locked
    sections that follow it; [Latching] and [Returning] are the two places between
    locks of the drop recovery and of the return.  Everything else that happens in the
    process (the observation lane, other authorities, the replacement of the root) may
    change the process state and the lane in any way, and allocates signals, but
    reaches neither this authority's inner state nor its signal. *)

Section Interleaving.
Context {FS Dir File : Type} {OS : CapStd FS Dir File}.
Implicit Types (i : AuthorityInner Dir) (w : WriteAuthority Dir) (sh : Shared).

Inductive Writer : Type :=
| Holding (w : WriteAuthority Dir)
| Latching (frozen : PublicationIdentity)
| Returning (frozen : PublicationIdentity)
| Installing (frozen : PublicationIdentity) (token : ObserverToken).

Record System := mkSystem {
  shared : Shared;
  inner : AuthorityInner Dir;
  lane_state : ObservationLane;
  writers : gmap N Writer
}.

Definition set_process (p : Process) (sh : Shared) : Shared :=
  mkShared p (sh_signals sh) (sh_pools sh).
Definition set_signals (signals : Signals) (sh : Shared) : Shared :=
  mkShared (sh_process sh) signals (sh_pools sh).

(** The two ways a permit is terminated by its owner. *)
Inductive finishes : (SourceMutationPermit Dir → Signals →
    Result RefreshTicket AuthorityRefusal * SourceMutationPermit Dir * Signals) → Prop :=
| finishes_commit receipt : finishes (commit receipt)
| finishes_no_side_effect : finishes no_side_effect.

Inductive sys_step (root : string) : System → System → Prop :=
| sys_acquire sh i l ws k expected opened w i' sh' :
    ws !! k = None →
    acquire_write_if_publication expected opened i sh = Done ((Ok w, i'), sh') →
    sys_step root (mkSystem sh i l ws) (mkSystem sh' i' l (<[k := Holding w]> ws))
| sys_acquire_refused sh i l ws expected opened e i' sh' :
    acquire_write_if_publication expected opened i sh = Done ((Err e, i'), sh') →
    sys_step root (mkSystem sh i l ws) (mkSystem sh' i' l ws)
| sys_write sh i l ws k w owner_only pid (fs : FS) relative contents r w' p' fs' :
    ws !! k = Some (Holding w) →
    write_with owner_only pid fs relative contents w (sh_process sh)
      = Done (r, w', p', fs') →
    sys_step root (mkSystem sh i l ws)
      (mkSystem (set_process p' sh) i l (<[k := Holding w']> ws))
| sys_begin_delegated sh i l ws k w permit r permit' :
    ws !! k = Some (Holding w) → write_permit w = Some permit →
    begin_delegated (sh_process sh) permit = (r, permit') →
    sys_step root (mkSystem sh i l ws)
      (mkSystem sh i l
         (<[k := Holding (mkWriteAuthority (Some permit') (frozen_publication w))]> ws))
| sys_finish sh i l ws k w terminate ticket w' signals' :
    ws !! k = Some (Holding w) → finishes terminate →
    finish_permit terminate w (sh_signals sh) = Done (Ok ticket, w', signals') →
    sys_step root (mkSystem sh i l ws)
      (mkSystem (set_signals signals' sh) i l (<[k := Returning (frozen_publication w')]> ws))
| sys_finish_refused sh i l ws k w terminate e w' signals' recovers signals'' :
    ws !! k = Some (Holding w) → finishes terminate →
    finish_permit terminate w (sh_signals sh) = Done (Err e, w', signals') →
    write_drop w' signals' = (recovers, signals'') →
    sys_step root (mkSystem sh i l ws)
      (mkSystem (set_signals signals'' sh) i l
         (if recovers then <[k := Latching (frozen_publication w')]> ws else delete k ws))
| sys_drop sh i l ws k w recovers signals' :
    ws !! k = Some (Holding w) → write_drop w (sh_signals sh) = (recovers, signals') →
    sys_step root (mkSystem sh i l ws)
      (mkSystem (set_signals signals' sh) i l
         (if recovers then <[k := Latching (frozen_publication w)]> ws else delete k ws))
| sys_latch sh i l ws k frozen :
    ws !! k = Some (Latching frozen) →
    sys_step root (mkSystem sh i l ws)
      (mkSystem sh i (recover_latch l) (<[k := Returning frozen]> ws))
| sys_cut sh i l ws k frozen token l' :
    ws !! k = Some (Returning frozen) → return_cut l = (token, l') →
    sys_step root (mkSystem sh i l ws) (mkSystem sh i l' (<[k := Installing frozen token]> ws))
| sys_install sh i l ws k frozen token opened r i' sh' :
    ws !! k = Some (Installing frozen token) →
    return_install root frozen token opened i sh = Done ((r, i'), sh') →
    sys_step root (mkSystem sh i l ws) (mkSystem sh' i' l (delete k ws))
| sys_environment sh i l ws sh' l' :
    sh_signals sh ⊆ sh_signals sh' →
    sys_step root (mkSystem sh i l ws) (mkSystem sh' i l' ws).

(** ** The invariant *)

Definition writer_frozen (st : Writer) : PublicationIdentity :=
  match st with
  | Holding w => frozen_publication w
  | Latching frozen | Returning frozen | Installing frozen _ => frozen
  end.

(** The source is frozen under exactly the permit [f]. *)
Definition frozen_under (f : PublicationIdentity) (rt : SourceRuntime) : Prop :=
  ∃ retained binding pub observer todo,
    phase rt = Refreshing retained binding pub observer (mkActivePermits [f] true) todo.

(** The writer's permit is live and owns the signal, or the signal has ended. *)
Definition writer_signal (st : Writer) (d : N) (sig : PermitDrainSignal) : Prop :=
  match st with
  | Holding w => ∃ permit, write_permit w = Some permit ∧ is_terminal permit = false ∧
      permit_drain permit = d ∧ sig = mkDrainSignal true false None
  | _ => has_ended sig = true
  end.

Inductive source_inv (s : System) : Prop :=
| Idle live sig :
    writers s = ∅ → phase (runtime (inner s)) = Current live →
    physical_root (publication_binding live) = lease_identity (inner_lease (inner s)) →
    sh_signals (shared s) !! outstanding_signal (inner s) = Some sig →
    has_ended sig = true → source_inv s
| Busy k st sig :
    writers s = {[k := st]} → frozen_under (writer_frozen st) (runtime (inner s)) →
    sh_signals (shared s) !! outstanding_signal (inner s) = Some sig →
    writer_signal st (outstanding_signal (inner s)) sig → source_inv s
| Stranded f :
    writers s = ∅ → frozen_under f (runtime (inner s)) → source_inv s.

(** ** Acquiring *)

Lemma on_process_Done {A} (m : Proc Process A) sh a sh' :
  on_process m sh = Done (a, sh') →
  ∃ p', m (sh_process sh) = Done (a, p') ∧ sh' = set_process p' sh.
Proof.
  unfold on_process. intros H. destruct (m (sh_process sh)) as [[a' p']|]; simplify_eq. eauto.
Qed.

Lemma next_key_above (signals : Signals) k :
  is_Some (signals !! k) → k < next_key signals.
Proof.
  unfold next_key. revert k. induction signals as [|j sig m Hj IH] using map_ind.
  { intros k [? Hk]. by rewrite lookup_empty in Hk. }
  intros k Hk. rewrite map_fold_insert_L; [| |done].
  2:{ intros; lia. }
  destruct (decide (k = j)) as [->|Hne]; [lia|].
  rewrite lookup_insert_ne in Hk by done. apply IH in Hk. lia.
Qed.

Lemma next_key_fresh (signals : Signals) : signals !! next_key signals = None.
Proof.
  apply eq_None_not_Some. intros H%next_key_above. lia.
Qed.

(** An acquire refuses without a trace, or it freezes the source under a fresh
    permit; then the caller gets the permit, unless the lease or its binding has been
    revoked or does not match. *)
Lemma acquire_Done expected opened i sh r i' sh' :
  acquire_write_if_publication expected opened i sh = Done ((r, i'), sh') →
  (∃ e, r = Err e ∧ i' = i ∧ sh' = sh) ∨
  ∃ live pub, phase (runtime i) = Current live ∧
    runtime i' = granted_runtime live (runtime i) pub ∧
    lease_identity (inner_lease i') = lease_identity (inner_lease i) ∧
    ((∃ e, r = Err e ∧
        (physical_root (publication_binding live) ≠ lease_identity (inner_lease i) ∨
         binding_is_live (sh_process sh) (publication_binding live) = false ∨
         lease_is_live (sh_process sh) (inner_lease i) = false)) ∨
     (∃ permit, r = Ok (mkWriteAuthority (Some permit) pub) ∧ permit_state permit = Granted ∧
        permit_drain permit = outstanding_signal i' ∧
        sh_signals sh' !! outstanding_signal i' = Some (mkDrainSignal true false None))).
Proof.
  intros H. unfold acquire_write_if_publication in H.
  assert (∀ live, live_publication (runtime i) = Some live → phase (runtime i) = Current live)
    as Hlive by (unfold live_publication; intros live; destruct (phase (runtime i)); naive_solver).
  destruct (live_publication (runtime i)) as [live|]; [|apply Proc_ret_Done in H; naive_solver].
  specialize (Hlive live eq_refl).
  assert (acquire_go (publication live) opened i sh = Done ((r, i'), sh') ∨
          ∃ e, r = Err e ∧ i' = i ∧ sh' = sh) as [Hgo|Hno]; [| |by left].
  { destruct expected as [e|]; [case_decide|]; [|by left..].
    right. apply Proc_ret_Done in H. naive_solver. }
  clear H. unfold acquire_go in Hgo.
  apply Proc_bind_Done in Hgo as ([granted rt] & sh1 & H1 & Hgo).
  apply on_process_Done in H1 as (p1 & H1 & ->).
  apply request_Done in H1 as [(e & -> & -> & ->)|(c & g & -> & Hc & _ & Hz & -> & Hpub & Hau & ->)].
  { apply Proc_ret_Done in Hgo. injection Hgo as -> -> ->. left. exists e.
    by destruct i, sh. }
  right. assert (c = live) as -> by congruence.
  exists live, (mkIdentity (statics (sh_process sh) NEXT_IDENTITY)).
  apply Proc_bind_Done in Hgo as (d & sh2 & Hd & Hgo).
  unfold signal_new in Hd. injection Hd as Hd <-. simpl in Hd.
  set (p1 := set_static _ _ _) in Hgo.
  assert (binding_is_live p1 = binding_is_live (sh_process sh) ∧
          lease_is_live p1 = lease_is_live (Dir := Dir) (sh_process sh)) as [Hb Hl] by done.
  unfold permit_grant, into_parts in Hgo. rewrite Hau in Hgo. cbn -[p1 u64_add] in Hgo.
  rewrite Hb in Hgo. rewrite Hl in Hgo.
  change (lease_is_live (sh_process sh) (reopened (inner_lease i) opened))
    with (lease_is_live (sh_process sh) (inner_lease i)) in Hgo.
  split; [done|].
  case_decide as E1; [|destruct (binding_is_live _ _) eqn:E2; simpl in Hgo;
    [destruct (lease_is_live (sh_process sh) (inner_lease i)) eqn:E3; simpl in Hgo|]];
    injection Hgo as <- <- <-; (split; [done|split; [done|]]); eauto 10.
  right. eexists. split; [by rewrite Hpub|]. split; [done|]. split; [done|].
  simpl. unfold on_signal, signal_at. rewrite Hd, lookup_insert_eq. by rewrite lookup_insert_eq.
Qed.

(** ** Returning *)

Lemma frozen_retire f rt :
  frozen_under f rt →
  let rt' := snd (retire_permit f rt) in
  freezable (phase rt') ≠ None ∧ is_drained (active_permits rt') = true.
Proof.
  intros (retained & b & pub & o & todo & Hp). unfold retire_permit, active_permits.
  rewrite Hp. unfold permits_retire. cbn [outstanding ever_recorded].
  rewrite filter_cons_False by (intros Hx; by apply Hx). done.
Qed.

Lemma apply_drained_Done kind (outgoing : PhysicalRootLease Dir) incoming token sig rt p r rt' p' :
  has_ended sig = true → is_drained (active_permits rt) = true →
  freezable (phase rt) ≠ None →
  apply kind outgoing incoming token sig sig rt p = Done ((r, rt'), p') →
  r = Ok (mkTransitionReceipt kind [Freeze; Drain; Install]) ∧
  ∃ live, phase rt' = Current live ∧ publication_binding live = incoming ∧
    observer_cut live = token.
Proof.
  intros Hs Hd Hf H. unfold apply in H. rewrite Hs, Hd in H. simpl in H.
  apply Proc_bind_Done in H as ([o rt1] & p1 & Hz & H).
  apply freeze_Done in Hz as [(E & _)|(rr & b & ob & permits & todo & E & Hz & -> & -> & ->)];
    [done|].
  pose proof (freezable_active_permits _ _ _ _ _ _ E) as Hp. rewrite Hp in Hd.
  unfold active_permits in H. simpl in H. rewrite Hd in H. simpl in H.
  apply Proc_bind_Done in H as ([] & p2 & _ & H).
  apply Proc_bind_Done in H as (c & p3 & Hc & H). apply Proc_ret_Done in H.
  injection H as -> -> ->. split; [done|]. exists c.
  apply promote_Done in Hc as (_ & _ & _ & Hb & Hcut & _). by split.
Qed.

Lemma lease_take_total root (opened : option Dir) p :
  statics p NEXT_ROOT ≠ 0 →
  lease_take root opened p
  = Done (mkLease (mkPhysicalRootIdentity (statics p NEXT_ROOT)) root opened,
          set_static NEXT_ROOT (u64_add (statics p NEXT_ROOT) 1) p).
Proof.
  intros Hz. unfold lease_take, PhysicalRootIdentity_fresh, mbind, Proc_bind.
  by rewrite fresh_nonzero_total.
Qed.

(** A return on a source frozen under its permit, with the signal ended, always
    installs. *)
Lemma return_install_Done root f token opened i sh r i' sh' sig :
  frozen_under f (runtime i) → sh_signals sh !! outstanding_signal i = Some sig →
  has_ended sig = true →
  return_install root f token opened i sh = Done ((r, i'), sh') →
  r = Ok tt ∧ sh_signals sh' = sh_signals sh ∧ outstanding_signal i' = outstanding_signal i ∧
  ∃ live, phase (runtime i') = Current live ∧ observer_cut live = token ∧
    physical_root (publication_binding live) = lease_identity (inner_lease i').
Proof.
  intros Hf Hsig He H. apply frozen_retire in Hf as [Hfz Hdr]. unfold return_install in H.
  unfold signal_at in H. rewrite Hsig in H. simpl in H.
  apply Proc_bind_Done in H as (lease & sh1 & (p1 & H1 & ->)%on_process_Done & H).
  apply Proc_bind_Done in H as (b & sh2 & (p2 & H2 & ->)%on_process_Done & H).
  apply Proc_bind_Done in H as ([r1 rt1] & sh3 & (p3 & H3 & ->)%on_process_Done & H).
  apply apply_drained_Done in H3 as (-> & live & Hl & Hb & Hc); [|done..].
  apply Proc_ret_Done in H. injection H as -> -> ->.
  split; [done|]. split; [done|]. split; [done|]. exists live. split; [done|].
  split; [done|]. rewrite Hb. unfold bind in H2.
  apply Proc_bind_Done in H2 as (id & p4 & _ & H2). apply Proc_ret_Done in H2.
  by injection H2 as -> _.
Qed.

(** ** The invariant is kept *)

Lemma source_inv_env sh sh' i l l' ws :
  sh_signals sh ⊆ sh_signals sh' → source_inv (mkSystem sh i l ws) →
  source_inv (mkSystem sh' i l' ws).
Proof.
  intros Hsub [live sig Hw Hp Hr Hs He|k st sig Hw Hf Hs Hst|f Hw Hf]; simpl in *.
  - eapply Idle; simpl; eauto using lookup_weaken.
  - eapply Busy; simpl; eauto using lookup_weaken.
  - by eapply Stranded.
Qed.

(** The one writer there is. *)
Lemma source_inv_writer sh i l ws k st :
  source_inv (mkSystem sh i l ws) → ws !! k = Some st →
  ws = {[k := st]} ∧ frozen_under (writer_frozen st) (runtime i) ∧
  ∃ sig, sh_signals sh !! outstanding_signal i = Some sig ∧
    writer_signal st (outstanding_signal i) sig.
Proof.
  intros Hinv Hk. destruct Hinv as [live sig Hw|k' st' sig Hw Hf Hs Hst|f Hw]; simpl in *; subst.
  - by rewrite lookup_empty in Hk.
  - apply lookup_singleton_Some in Hk as [-> ->]. eauto.
  - by rewrite lookup_empty in Hk.
Qed.

(** A writer moves to another stage of the same permit. *)
Lemma source_inv_move sh i l ws k st st' sh' l' sig' :
  source_inv (mkSystem sh i l ws) → ws !! k = Some st →
  writer_frozen st' = writer_frozen st →
  sh_signals sh' !! outstanding_signal i = Some sig' →
  writer_signal st' (outstanding_signal i) sig' →
  source_inv (mkSystem sh' i l' (<[k := st']> ws)).
Proof.
  intros Hinv Hk Hfr Hs Hst.
  destruct (source_inv_writer _ _ _ _ _ _ Hinv Hk) as (-> & Hf & _).
  apply (Busy _ k st' sig'); simpl; [by rewrite insert_singleton_eq| |done|done].
  by rewrite Hfr.
Qed.

(** ** Permits in the hands of a writer *)

Lemma begin_delegated_keeps p (permit : SourceMutationPermit Dir) r permit' :
  begin_delegated p permit = (r, permit') → is_terminal permit = false →
  is_terminal permit' = false ∧ permit_drain permit' = permit_drain permit.
Proof.
  unfold begin_delegated, start_side_effect, is_terminal. intros H Ht.
  destruct (permit_state permit) eqn:E; [destruct (negb _)|..]; simplify_eq/=;
    rewrite ?E; done.
Qed.

Lemma write_with_keeps owner_only pid (fs : FS) relative contents w p r w' p' fs' d sig :
  write_with owner_only pid fs relative contents w p = Done (r, w', p', fs') →
  writer_signal (Holding w) d sig →
  writer_signal (Holding w') d sig ∧ frozen_publication w' = frozen_publication w.
Proof.
  unfold write_with. intros H (permit & Hw & Ht & Hd & Hs). rewrite Hw in H.
  destruct (begin_delegated p permit) as [[u|e] permit'] eqn:Eb;
    apply begin_delegated_keeps in Eb as [Ht' Hd']; try done.
  - destruct (if owner_only then _ else _) as [[? ?] ?]. simplify_eq/=.
    split; [|done]. exists permit'. split; [done|]. split; [done|]. split; [congruence|done].
  - simplify_eq/=. split; [|done]. exists permit'. split; [done|]. split; [done|].
    split; [congruence|done].
Qed.

Lemma drop_ends (permit : SourceMutationPermit Dir) (signals : Signals) d :
  is_terminal permit = false → permit_drain permit = d →
  signals !! d = Some (mkDrainSignal true false None) →
  permit_drop permit signals !! d = Some (mkDrainSignal true true (Some Drained)).
Proof.
  intros Ht Hd Hs. unfold permit_drop, on_signal, signal_at. rewrite Ht, Hd, Hs.
  by rewrite lookup_insert_eq.
Qed.

Lemma finish_permit_keeps terminate w (signals : Signals) r w' signals' d :
  finishes terminate → finish_permit terminate w signals = Done (r, w', signals') →
  writer_signal (Holding w) d (mkDrainSignal true false None) →
  signals !! d = Some (mkDrainSignal true false None) →
  frozen_publication w' = frozen_publication w ∧
  match r with
  | Ok _ => ∃ t, signals' !! d = Some (mkDrainSignal true true (Some t))
  | Err _ => w' = w ∧ signals' = signals
  end.
Proof.
  intros Hf H (permit & Hw & Ht & Hd & _) Hs. unfold finish_permit in H. rewrite Hw in H.
  assert (∀ t, permit_drop (with_state permit (Terminal t)) (on_signal d (record t) signals) !! d
               = Some (mkDrainSignal true true (Some t))) as Hend.
  { intros t. unfold permit_drop. simpl. unfold on_signal, signal_at. rewrite Hs.
    by rewrite lookup_insert_eq. }
  destruct Hf as [receipt|]; [unfold commit in H; repeat case_decide|
    unfold no_side_effect in H; destruct (permit_state permit)]; unfold finish in H;
    rewrite ?Hd in H; injection H as <- <- <-; eauto;
    (split; [done|split; [|done]]); destruct w; simpl in *; congruence.
Qed.

Lemma write_drop_ends w (signals : Signals) d recovers signals' :
  write_drop w signals = (recovers, signals') →
  writer_signal (Holding w) d (mkDrainSignal true false None) →
  signals !! d = Some (mkDrainSignal true false None) →
  recovers = true ∧ signals' !! d = Some (mkDrainSignal true true (Some Drained)).
Proof.
  unfold write_drop. intros H (permit & Hw & Ht & Hd & _) Hs. rewrite Hw in H.
  injection H as <- <-. split; [done|]. by apply drop_ends.
Qed.

(** ** The invariant is preserved *)

Lemma source_inv_acquire sh i l ws expected opened r i' sh' :
  acquire_write_if_publication expected opened i sh = Done ((r, i'), sh') →
  source_inv (mkSystem sh i l ws) →
  match r with
  | Ok w => ∀ k, source_inv (mkSystem sh' i' l (<[k := Holding w]> ws))
  | Err _ => source_inv (mkSystem sh' i' l ws)
  end.
Proof.
  intros H Hinv. apply acquire_Done in H as [(e & -> & -> & ->)|(live & pub & Hc & Hrt & Hl & H)];
    [done|].
  assert (ws = ∅) as ->.
  { destruct Hinv as [live' sig Hw|k st sig Hw (? & ? & ? & ? & ? & Hf)|f Hw]; simpl in *;
      [done|congruence|done]. }
  assert (frozen_under pub (runtime i')) as Hf.
  { rewrite Hrt. by eexists _, _, _, _, _. }
  destruct H as [(e & -> & _)|(permit & -> & Hst & Hd & Hs)].
  - by eapply Stranded.
  - intros k. eapply (Busy _ k); simpl; [apply insert_empty|done|exact Hs|].
    exists permit. split; [done|]. split; [|done]. unfold is_terminal. by rewrite Hst.
Qed.

Lemma source_inv_install sh i l ws k frozen token root opened r i' sh' :
  ws !! k = Some (Installing frozen token) →
  return_install root frozen token opened i sh = Done ((r, i'), sh') →
  source_inv (mkSystem sh i l ws) → source_inv (mkSystem sh' i' l (delete k ws)).
Proof.
  intros Hk H Hinv.
  destruct (source_inv_writer _ _ _ _ _ _ Hinv Hk) as (-> & Hf & sig & Hs & He).
  destruct (return_install_Done _ _ _ _ _ _ _ _ _ _ Hf Hs He H)
    as (-> & Hsig & Ho & live & Hl & _ & Hr).
  apply (Idle _ live sig); simpl; auto.
  - apply delete_singleton_eq.
  - by rewrite Hsig, Ho.
Qed.

Lemma sys_step_inv root s s' : sys_step root s s' → source_inv s → source_inv s'.
Proof.
  intros Hstep Hinv. destruct Hstep as
    [sh i l ws k expected opened w i' sh' Hk H|sh i l ws expected opened e i' sh' H
    |sh i l ws k w oo pid fs rel b r w' p' fs' Hk H|sh i l ws k w permit r permit' Hk Hw H
    |sh i l ws k w terminate ticket w' signals' Hk Hfin H
    |sh i l ws k w terminate e w' signals' rec signals'' Hk Hfin H Hdrop
    |sh i l ws k w rec signals' Hk Hdrop|sh i l ws k frozen Hk|sh i l ws k frozen token l' Hk H
    |sh i l ws k frozen token opened r i' sh' Hk H|sh i l ws sh' l' Hsub].
  - by apply (source_inv_acquire _ _ _ _ _ _ _ _ _ H Hinv).
  - by apply (source_inv_acquire _ _ _ _ _ _ _ _ _ H Hinv).
  - destruct (source_inv_writer _ _ _ _ _ _ Hinv Hk) as (_ & _ & sig & Hs & Hst).
    destruct (write_with_keeps _ _ _ _ _ _ _ _ _ _ _ _ _ H Hst) as [Hst' Hfr].
    by eapply source_inv_move.
  - destruct (source_inv_writer _ _ _ _ _ _ Hinv Hk) as (_ & _ & sig & Hs & pm & Hpm & Ht & Hd & Hsig).
    assert (pm = permit) as -> by congruence.
    apply begin_delegated_keeps in H as [Ht' Hd']; [|done].
    eapply source_inv_move; [exact Hinv|exact Hk|done|exact Hs|].
    exists permit'. split; [done|]. split; [done|]. split; [congruence|done].
  - destruct (source_inv_writer _ _ _ _ _ _ Hinv Hk) as (_ & _ & sig & Hs & Hst).
    pose proof Hst as (_ & _ & _ & _ & ->).
    destruct (finish_permit_keeps _ _ _ _ _ _ _ Hfin H Hst Hs) as [Hfr [t Hend]].
    by eapply source_inv_move.
  - destruct (source_inv_writer _ _ _ _ _ _ Hinv Hk) as (_ & _ & sig & Hs & Hst).
    pose proof Hst as (_ & _ & _ & _ & ->).
    destruct (finish_permit_keeps _ _ _ _ _ _ _ Hfin H Hst Hs) as (Hfr & -> & ->).
    destruct (write_drop_ends _ _ _ _ _ Hdrop Hst Hs) as [-> Hend].
    by eapply source_inv_move.
  - destruct (source_inv_writer _ _ _ _ _ _ Hinv Hk) as (_ & _ & sig & Hs & Hst).
    pose proof Hst as (_ & _ & _ & _ & ->).
    destruct (write_drop_ends _ _ _ _ _ Hdrop Hst Hs) as [-> Hend].
    by eapply source_inv_move.
  - destruct (source_inv_writer _ _ _ _ _ _ Hinv Hk) as (_ & _ & sig & Hs & Hst).
    by eapply source_inv_move.
  - destruct (source_inv_writer _ _ _ _ _ _ Hinv Hk) as (_ & _ & sig & Hs & Hst).
    by eapply source_inv_move.
  - by eapply source_inv_install.
  - by eapply source_inv_env.
Qed.

Lemma for_root_inv root opened anchor sh (a : ProjectSourceAuthority Dir) sh' :
  for_root root opened anchor sh = Done (a, sh') →
  auth_root a = root ∧ source_inv (mkSystem sh' (auth_inner a) (auth_lane a) ∅).
Proof.
  intros H. unfold for_root in H.
  apply Proc_bind_Done in H as (lease & sh1 & _ & H).
  apply Proc_bind_Done in H as (b & sh2 & (p2 & Hb & _)%on_process_Done & H).
  apply Proc_bind_Done in H as (seed & sh3 & _ & H).
  apply Proc_bind_Done in H as (pub & sh4 & (p4 & Hp & _)%on_process_Done & H).
  apply Proc_bind_Done in H as ([pool owner] & sh5 & _ & H).
  apply Proc_bind_Done in H as (d & sh6 & Hd & H). apply Proc_ret_Done in H.
  injection H as -> ->. split; [done|].
  unfold signal_new in Hd. injection Hd as <- <-.
  apply (Idle _ pub PermitDrainSignal_new); simpl; try done; [|apply lookup_insert_eq].
  apply promote_Done in Hp as (_ & _ & _ & Hpb & _). rewrite Hpb.
  unfold bind in Hb. apply Proc_bind_Done in Hb as (id & p & _ & Hb).
  apply Proc_ret_Done in Hb. by injection Hb as -> _.
Qed.

Lemma reachable_inv root opened anchor sh (a : ProjectSourceAuthority Dir) sh' s :
  for_root root opened anchor sh = Done (a, sh') →
  rtc (sys_step root) (mkSystem sh' (auth_inner a) (auth_lane a) ∅) s → source_inv s.
Proof.
  intros [_ H]%for_root_inv Hs. revert H.
  induction Hs as [|s1 s2 s3 H1 H2 IH]; [done|]. intros H. by apply IH, (sys_step_inv root s1).
Qed.

Lemma frozen_not_queryable f rt :
  frozen_under f rt →
  queryable_generation rt = None ∧ live_publication rt = None ∧ phase_of rt = PhaseRefreshing.
Proof.
  intros (? & ? & ? & ? & ? & H). unfold queryable_generation, live_publication, phase_of.
  by rewrite H.
Qed.

Lemma frozen_acquire_refused f i expected opened sh :
  frozen_under f (runtime i) →
  acquire_write_if_publication expected opened i sh
  = Done ((Err (PhaseNotCurrent PhaseRefreshing), i), sh).
Proof.
  intros (_ & Hl & Hp)%frozen_not_queryable. unfold acquire_write_if_publication.
  by rewrite Hl, Hp.
Qed.

(** C5: one writer, and no reader while it writes.  In every interleaving of writers
    with each other, the observation lane, root replacement and the rest of the
    process, at most one thread holds a write authority or is returning one.  As long
    as there is one, the source has no queryable generation and no live publication,
    its permit's signal has not ended before the permit has, and every other acquire
    is refused without a trace. *)
Theorem one_writer_no_reader root opened anchor sh (a : ProjectSourceAuthority Dir) sh' s k st :
  for_root root opened anchor sh = Done (a, sh') →
  rtc (sys_step root) (mkSystem sh' (auth_inner a) (auth_lane a) ∅) s →
  writers s !! k = Some st →
  writers s = {[k := st]} ∧
  queryable_generation (runtime (inner s)) = None ∧
  live_publication (runtime (inner s)) = None ∧
  outstanding (active_permits (runtime (inner s))) = [writer_frozen st] ∧
  has_ended (signal_at (outstanding_signal (inner s)) (sh_signals (shared s)))
    = match st with Holding _ => false | _ => true end ∧
  ∀ expected reopened_dir,
    acquire_write_if_publication expected reopened_dir (inner s) (shared s)
    = Done ((Err (PhaseNotCurrent PhaseRefreshing), inner s), shared s).
Proof.
  intros Hnew Hrun Hk. pose proof (reachable_inv _ _ _ _ _ _ _ Hnew Hrun) as Hinv.
  destruct s as [shs i l ws]. simpl in *.
  destruct (source_inv_writer _ _ _ _ _ _ Hinv Hk) as (Hws & Hf & sig & Hs & Hst).
  pose proof (frozen_not_queryable _ _ Hf) as (Hq & Hl & _).
  split; [done|]. split; [done|]. split; [done|]. split.
  { destruct Hf as (? & ? & ? & ? & ? & Hp). unfold active_permits. by rewrite Hp. }
  split; [|intros; by eapply frozen_acquire_refused].
  unfold signal_at. rewrite Hs. simpl. destruct st; simpl in *; try done.
  by destruct Hst as (? & _ & _ & _ & ->).
Qed.

(** ** Progress *)

(** Everything revoked so far was minted by the process. *)
Definition revocations_minted (p : Process) : Prop :=
  (∀ x, x ∈ revoked_leases p → x < statics p NEXT_ROOT) ∧
  (∀ x, x ∈ revoked_bindings p → x < statics p NEXT_IDENTITY).

(** Neither counter is about to wrap. *)
Definition counters_ready (p : Process) : Prop :=
  0 < statics p NEXT_ROOT ∧ statics p NEXT_ROOT + 1 < u64_modulus ∧
  0 < statics p NEXT_IDENTITY ∧ statics p NEXT_IDENTITY + 5 < u64_modulus.

Lemma return_install_total root f token opened i sh sig :
  frozen_under f (runtime i) → sh_signals sh !! outstanding_signal i = Some sig →
  has_ended sig = true → counters_ready (sh_process sh) →
  revocations_minted (sh_process sh) →
  as_u64 (lease_identity (inner_lease i)) < statics (sh_process sh) NEXT_ROOT →
  ∃ live i' sh', return_install root f token opened i sh = Done ((Ok tt, i'), sh') ∧
    phase (runtime i') = Current live ∧ observer_cut live = token ∧
    statics (sh_process sh) NEXT_IDENTITY ≤ raw_for_render (publication live) ∧
    physical_root (publication_binding live) = lease_identity (inner_lease i') ∧
    lease_is_live (sh_process sh') (inner_lease i') = true ∧
    binding_is_live (sh_process sh') (publication_binding live) = true ∧
    lease_is_live (sh_process sh') (inner_lease i) = false ∧
    statics (sh_process sh') NEXT_IDENTITY ≠ 0.
Proof.
  intros Hf Hsig He (Hr0 & Hr & Hi0 & Hi) [Hml Hmb] Hout.
  apply frozen_retire in Hf as [Hfz Hdr]. unfold return_install, signal_at. rewrite Hsig.
  cbn [default]. unfold mbind, Proc_bind, on_process. rewrite lease_take_total by lia.
  set (p1 := set_static NEXT_ROOT _ _). unfold bind, mbind, Proc_bind. cbn [sh_process].
  assert (statics p1 NEXT_IDENTITY = statics (sh_process sh) NEXT_IDENTITY) as E1 by done.
  rewrite fresh_total by lia. cbn [mret Proc_ret].
  set (p2 := set_static NEXT_IDENTITY _ p1).
  assert (statics p2 NEXT_IDENTITY = statics (sh_process sh) NEXT_IDENTITY + 1) as E2
    by (unfold p2; rewrite statics_set_eq, E1; apply u64_add_small; lia).
  set (new := parked _). set (b := mkBinding _ (lease_identity new)).
  destruct (apply_installs Reload (inner_lease i) b token sig
              (snd (retire_permit f (runtime i))) p2)
    as (live & rt' & p3 & Ha & Hl & Hb & Hc & Hpub & _ & _ & Hrl & Hrb & Hst); [done..|lia|lia|].
  cbn [sh_process]. unfold id. rewrite Ha.
  exists live, (mkInner rt' new (outstanding_signal i)), (mkShared p3 (sh_signals sh) (sh_pools sh)).
  split; [done|]. simpl. split.
  { unfold live_publication in Hl. destruct (phase rt'); naive_solver. }
  split; [done|]. split; [lia|]. split; [by rewrite Hb|].
  unfold lease_is_live, binding_is_live. rewrite Hrl, Hrb, Hb.
  change (revoked_leases p2) with (revoked_leases (sh_process sh)).
  change (revoked_bindings p2) with (revoked_bindings (sh_process sh)).
  change (as_u64 (lease_identity new)) with (statics (sh_process sh) NEXT_ROOT).
  change (raw_for_render (binding_identity b)) with (statics (sh_process sh) NEXT_IDENTITY).
  repeat split.
  - apply bool_decide_eq_true. rewrite elem_of_union, elem_of_singleton.
    intros [Hx|Hx%Hml]; lia.
  - apply bool_decide_eq_true. intros Hx%Hmb. lia.
  - apply bool_decide_eq_false. set_solver.
  - rewrite Hst, E2, u64_add_small; lia.
Qed.

Lemma acquire_total expected opened i sh live :
  phase (runtime i) = Current live →
  physical_root (publication_binding live) = lease_identity (inner_lease i) →
  lease_is_live (sh_process sh) (inner_lease i) = true →
  binding_is_live (sh_process sh) (publication_binding live) = true →
  statics (sh_process sh) NEXT_IDENTITY ≠ 0 →
  expected = None ∨ expected = Some (publication live) →
  ∃ w i' sh', acquire_write_if_publication expected opened i sh = Done ((Ok w, i'), sh').
Proof.
  intros Hc Hr Hl Hb Hz He. unfold acquire_write_if_publication, live_publication. rewrite Hc.
  assert (∃ w i' sh', acquire_go (publication live) opened i sh = Done ((Ok w, i'), sh')) as Hgo.
  { unfold acquire_go, mbind, Proc_bind, on_process.
    rewrite (request_accepted_Done live) by done. cbn [signal_new sh_process sh_signals sh_pools].
    unfold signal_new, permit_grant, into_parts.
    cbn [grant_authority authority_binding grant_published_non_current sh_process sh_signals].
    rewrite decide_False by (rewrite Hr; intros Hx; by apply Hx).
    unfold binding_is_live, lease_is_live in *. 
    cbn [revoked_bindings revoked_leases set_static reopened lease_identity with_runtime inner_lease].
    rewrite Hb, Hl. simpl. eauto. }
  destruct He as [->| ->]; [done|].
  rewrite decide_False by (intros Hx; by apply Hx). done.
Qed.

(** Nothing in the process stands in the way of new identities. *)
Definition able (s : System) : Prop :=
  counters_ready (sh_process (shared s)) ∧ revocations_minted (sh_process (shared s)) ∧
  as_u64 (lease_identity (inner_lease (inner s))) < statics (sh_process (shared s)) NEXT_ROOT.

(** The second half of a return succeeds here: the source is Current at a fresh publication under
    [token], the outgoing lease is retired, and the next acquire is granted. *)
Definition returned (root : string) (f : PublicationIdentity) (token : ObserverToken) (s : System) : Prop :=
  ∀ opened, ∃ live i' sh',
    return_install root f token opened (inner s) (shared s) = Done ((Ok tt, i'), sh') ∧
    live_publication (runtime i') = Some live ∧ observer_cut live = token ∧
    statics (sh_process (shared s)) NEXT_IDENTITY ≤ raw_for_render (publication live) ∧
    lease_is_live (sh_process sh') (inner_lease (inner s)) = false ∧
    ∀ reopened_dir, ∃ w i2 sh2, acquire_write reopened_dir i' sh' = Done ((Ok w, i2), sh2).

Lemma installing_returns root k f token s :
  source_inv s → writers s !! k = Some (Installing f token) → able s → returned root f token s.
Proof.
  intros Hinv Hk (Hc & Hm & Hout) opened. destruct s as [shs i l ws]. simpl in *.
  destruct (source_inv_writer _ _ _ _ _ _ Hinv Hk) as (_ & Hf & sig & Hs & He).
  destruct (return_install_total root f token opened i shs sig)
    as (live & i' & sh'' & H & Hp & Ht & Hpub & Hr & Hl & Hb & Hold & Hz); [done..|].
  exists live, i', sh''. split; [done|]. split; [unfold live_publication; by rewrite Hp|].
  split; [done|]. split; [done|]. split; [done|]. intros d.
  apply (acquire_total _ _ _ _ live); auto.
Qed.

(** Every writer returns the source.  Whatever happened in between, the return
    of a writer never refuses: it installs a fresh publication of a fresh root lease
    carrying the cut's observer token, retires the outgoing lease, and leaves a
    source on which the next acquire succeeds. *)
Theorem writer_always_returns root opened0 anchor sh (a : ProjectSourceAuthority Dir) sh' s
    k frozen token opened :
  for_root root opened0 anchor sh = Done (a, sh') →
  rtc (sys_step root) (mkSystem sh' (auth_inner a) (auth_lane a) ∅) s →
  writers s !! k = Some (Installing frozen token) →
  counters_ready (sh_process (shared s)) → revocations_minted (sh_process (shared s)) →
  as_u64 (lease_identity (inner_lease (inner s))) < statics (sh_process (shared s)) NEXT_ROOT →
  ∃ live i' sh'',
    return_install root frozen token opened (inner s) (shared s) = Done ((Ok tt, i'), sh'') ∧
    live_publication (runtime i') = Some live ∧ observer_cut live = token ∧
    statics (sh_process (shared s)) NEXT_IDENTITY ≤ raw_for_render (publication live) ∧
    lease_is_live (sh_process sh'') (inner_lease (inner s)) = false ∧
    ∀ reopened_dir, ∃ w i2 sh2,
      acquire_write reopened_dir i' sh'' = Done ((Ok w, i2), sh2).
Proof.
  intros Hnew Hrun Hk Hc Hm Hout. apply (installing_returns root k); [|done|done]. by eapply reachable_inv.
Qed.

Lemma recover_stranded_total root f opened i l sh sig :
  frozen_under f (runtime i) → sh_signals sh !! outstanding_signal i = Some sig →
  has_ended sig = true → counters_ready (sh_process sh) →
  revocations_minted (sh_process sh) →
  as_u64 (lease_identity (inner_lease i)) < statics (sh_process sh) NEXT_ROOT →
  ∃ live i' l' sh' token cause,
    recover_stranded root f opened i l sh = Done ((Ok tt, i', l'), sh') ∧
    live_publication (runtime i') = Some live ∧ observer_cut live = active_token l ∧
    statics (sh_process sh) NEXT_IDENTITY ≤ raw_for_render (publication live) ∧
    last_reconcile_cut l' = Some (mkCut token (FullBaseline cause)).
Proof.
  intros Hf Hs He Hc Hm Hout.
  destruct (return_install_total root f (active_token l) opened i sh sig)
    as (live & i' & sh' & H & Hp & Ht & Hpub & _); [done..|].
  assert (∃ cause, latch (latch_scope_dirty (accumulator l)) = Some cause) as [cause Hcause].
  { simpl. destruct (latch (accumulator l)); simpl; eauto. }
  eexists live, i', _, sh', _, cause. split.
  { unfold recover_stranded, return_to_current, return_cut, recover_latch, set_accumulator, cut.
    cbn [accumulator active_token]. rewrite Hcause. unfold mbind, Proc_bind.
    rewrite H. reflexivity. }
  split; [unfold live_publication; by rewrite Hp|]. split; [done|]. split; [done|reflexivity].
Qed.

Lemma drop_write_total root opened w i l sh :
  writer_signal (Holding w) (outstanding_signal i) (mkDrainSignal true false None) →
  sh_signals sh !! outstanding_signal i = Some (mkDrainSignal true false None) →
  frozen_under (frozen_publication w) (runtime i) → counters_ready (sh_process sh) →
  revocations_minted (sh_process sh) →
  as_u64 (lease_identity (inner_lease i)) < statics (sh_process sh) NEXT_ROOT →
  ∃ live i' l' sh' token cause,
    drop_write root opened w i l sh = Done ((i', l'), sh') ∧
    live_publication (runtime i') = Some live ∧ observer_cut live = active_token l ∧
    statics (sh_process sh) NEXT_IDENTITY ≤ raw_for_render (publication live) ∧
    last_reconcile_cut l' = Some (mkCut token (FullBaseline cause)).
Proof.
  intros Hst Hs Hf Hc Hm Hout. unfold drop_write.
  destruct (write_drop w (sh_signals sh)) as [rec signals] eqn:Ed.
  destruct (write_drop_ends _ _ _ _ _ Ed Hst Hs) as [-> Hend].
  destruct (recover_stranded_total root (frozen_publication w) opened i l
              (set_signals signals sh) (mkDrainSignal true true (Some Drained)))
    as (live & i' & l' & sh' & token & cause & H & Hrest); [done..|].
  exists live, i', l', sh', token, cause. split; [|done].
  unfold set_signals in H. unfold mbind, Proc_bind. by rewrite H.
Qed.

(** The whole of a drop by one thread, when nobody takes the locks of the lane or of the
    source between its halves: the return is under the token of the observer that was
    active when it began, and consumes a full baseline. *)
Theorem uninterrupted_drop_recovers root opened0 anchor sh (a : ProjectSourceAuthority Dir) sh' s
    k w opened :
  for_root root opened0 anchor sh = Done (a, sh') →
  rtc (sys_step root) (mkSystem sh' (auth_inner a) (auth_lane a) ∅) s →
  writers s !! k = Some (Holding w) →
  counters_ready (sh_process (shared s)) → revocations_minted (sh_process (shared s)) →
  as_u64 (lease_identity (inner_lease (inner s))) < statics (sh_process (shared s)) NEXT_ROOT →
  ∃ live i' l' sh'' token cause,
    drop_write root opened w (inner s) (lane_state s) (shared s) = Done ((i', l'), sh'') ∧
    live_publication (runtime i') = Some live ∧
    observer_cut live = active_token (lane_state s) ∧
    statics (sh_process (shared s)) NEXT_IDENTITY ≤ raw_for_render (publication live) ∧
    last_reconcile_cut l' = Some (mkCut token (FullBaseline cause)).
Proof.
  intros Hnew Hrun Hk Hc Hm Hout. pose proof (reachable_inv _ _ _ _ _ _ _ Hnew Hrun) as Hinv.
  destruct s as [shs i l ws]. simpl in *.
  destruct (source_inv_writer _ _ _ _ _ _ Hinv Hk) as (_ & Hf & sig & Hs & Hst).
  pose proof Hst as (_ & _ & _ & _ & ->). by apply drop_write_total.
Qed.

(** The whole of a finish, under the same condition. *)
Theorem uninterrupted_finish_returns root opened0 anchor sh (a : ProjectSourceAuthority Dir) sh' s
    k w terminate opened :
  for_root root opened0 anchor sh = Done (a, sh') →
  rtc (sys_step root) (mkSystem sh' (auth_inner a) (auth_lane a) ∅) s →
  writers s !! k = Some (Holding w) → finishes terminate →
  counters_ready (sh_process (shared s)) → revocations_minted (sh_process (shared s)) →
  as_u64 (lease_identity (inner_lease (inner s))) < statics (sh_process (shared s)) NEXT_ROOT →
  ∃ r live i' l' sh'',
    finish_with terminate root opened w (inner s) (lane_state s) (shared s)
      = Done ((r, i', l'), sh'') ∧
    live_publication (runtime i') = Some live ∧
    observer_cut live = active_token (lane_state s) ∧
    statics (sh_process (shared s)) NEXT_IDENTITY ≤ raw_for_render (publication live) ∧
    match r with
    | Ok _ => last_reconcile_cut l' = Some (fst (cut (accumulator (lane_state s))))
    | Err _ => ∃ token cause, last_reconcile_cut l' = Some (mkCut token (FullBaseline cause))
    end.
Proof.
  intros Hnew Hrun Hk Hfin Hc Hm Hout. pose proof (reachable_inv _ _ _ _ _ _ _ Hnew Hrun) as Hinv.
  destruct s as [shs i l ws]. simpl in *.
  destruct (source_inv_writer _ _ _ _ _ _ Hinv Hk) as (_ & Hf & sig & Hs & Hst).
  pose proof Hst as (permit & Hw & _ & _ & ->). unfold finish_with.
  destruct (finish_permit terminate w (sh_signals shs)) as [[[r w'] signals]|] eqn:Ef.
  2:{ exfalso. unfold finish_permit in Ef. rewrite Hw in Ef.
      by destruct (terminate permit (sh_signals shs)) as [[[]]]. }
  destruct (finish_permit_keeps _ _ _ _ _ _ _ Hfin Ef Hst Hs) as [Hfr Hr].
  destruct r as [ticket|e].
  - destruct Hr as [t Hend].
    destruct (return_install_total root (frozen_publication w') (active_token l) opened i
                (mkShared (sh_process shs) signals (sh_pools shs))
                (mkDrainSignal true true (Some t)))
      as (live & i' & sh'' & H & Hp & Ht & Hpub & _); [by rewrite Hfr|done..|].
    destruct (cut (accumulator l)) as [c acc] eqn:Ecut.
    eexists (Ok ticket), live, i', _, sh''. split.
    { unfold reconcile_returned, return_to_current, return_cut. rewrite Ecut.
      unfold mbind, Proc_bind. rewrite H. reflexivity. }
    split; [unfold live_publication; by rewrite Hp|]. split; [done|]. split; [done|].
    unfold cut in Ecut. by injection Ecut as <- <-.
  - destruct Hr as [-> ->].
    destruct (drop_write_total root opened w i l
                (mkShared (sh_process shs) (sh_signals shs) (sh_pools shs)))
      as (live & i' & l' & sh'' & token & cause & H & Hl & Hcut & Hpub & Hlast); [done..|].
    exists (Err e), live, i', l', sh''. split; [unfold mbind, Proc_bind; by rewrite H|].
    split; [done|]. split; [done|]. split; [done|]. by exists token, cause.
Qed.

(** ** Returning, interleaved

    The return takes the lane lock, releases it, and takes the lock of the source; other
    threads run in between.  So what it promises is stated for each of its halves, at any
    later state in which the thread has come to it. *)

(** Whenever thread [k] comes to the first half, it takes the token of the observer active
    at that moment and records the cut; a dirty lane is cut to a full baseline.  Whenever it
    then comes to the second half, this succeeds, with the token taken before. *)
Definition will_return (root : string) (k : N) (f : PublicationIdentity) (s : System) : Prop :=
  ∀ s2, rtc (sys_step root) s s2 → writers s2 !! k = Some (Returning f) →
  let token := active_token (lane_state s2) in
  ∃ l', return_cut (lane_state s2) = (token, l') ∧
    last_reconcile_cut l' = Some (fst (cut (accumulator (lane_state s2)))) ∧
    (∀ cause, latch (accumulator (lane_state s2)) = Some cause →
      ∃ seq, last_reconcile_cut l' = Some (mkCut seq (FullBaseline cause))) ∧
    ∀ s3, rtc (sys_step root) (mkSystem (shared s2) (inner s2) l' (<[k := Installing f token]> (writers s2))) s3 →
      writers s3 !! k = Some (Installing f token) → able s3 → returned root f token s3.

(** Whenever thread [k] comes to the recovery of its drop, it leaves the lane dirty, and
    will return. *)
Definition will_recover (root : string) (k : N) (f : PublicationIdentity) (s : System) : Prop :=
  ∀ s2, rtc (sys_step root) s s2 → writers s2 !! k = Some (Latching f) →
  let s3 := mkSystem (shared s2) (inner s2) (recover_latch (lane_state s2)) (<[k := Returning f]> (writers s2)) in
  sys_step root s2 s3 ∧ latch (accumulator (lane_state s3)) ≠ None ∧ will_return root k f s3.

Lemma source_inv_rtc root s s' : rtc (sys_step root) s s' → source_inv s → source_inv s'.
Proof. induction 1 as [|s1 s2 s3 H1 _ IH]; [done|]. intros H. by apply IH, (sys_step_inv root s1). Qed.

Lemma inv_will_return root k f s : source_inv s → will_return root k f s.
Proof.
  intros Hinv s2 Hr Hk. apply source_inv_rtc in Hr; [|done]. destruct s2 as [shs i l ws].
  cbn [shared inner lane_state writers] in *. unfold return_cut. destruct (cut (accumulator l)) as [c acc] eqn:Ec.
  eexists. split; [reflexivity|]. split; [reflexivity|]. split.
  { intros cause Hl. unfold cut in Ec. rewrite Hl in Ec. injection Ec as <- _. by eexists. }
  intros s3 H3 Hk3 Ha. apply (installing_returns root k); [|done|done].
  eapply source_inv_rtc; [exact H3|]. apply (sys_step_inv root (mkSystem shs i l ws)); [|done].
  apply (sys_cut _ _ _ _ _ k f); [done|]. unfold return_cut. by rewrite Ec.
Qed.

Lemma inv_will_recover root k f s : source_inv s → will_recover root k f s.
Proof.
  intros Hinv s2 Hr Hk. apply source_inv_rtc in Hr; [|done]. simpl. destruct s2 as [shs i l ws]. simpl in *.
  assert (sys_step root (mkSystem shs i l ws) (mkSystem shs i (recover_latch l) (<[k := Returning f]> ws))) as Hstep
    by (by apply sys_latch).
  split; [done|]. split; [by destruct (latch (accumulator l))|]. by apply inv_will_return, (sys_step_inv root _ _ Hstep).
Qed.

(** A drop of a held authority: the step and what follows it. *)
Lemma drop_steps root s k w :
  source_inv s → writers s !! k = Some (Holding w) →
  ∃ signals, write_drop w (sh_signals (shared s)) = (true, signals) ∧
    let s1 := mkSystem (set_signals signals (shared s)) (inner s) (lane_state s)
                (<[k := Latching (frozen_publication w)]> (writers s)) in
    sys_step root s s1 ∧ will_recover root k (frozen_publication w) s1.
Proof.
  intros Hinv Hk. destruct s as [shs i l ws]. simpl in *.
  destruct (source_inv_writer _ _ _ _ _ _ Hinv Hk) as (_ & Hf & sig & Hs & Hst). pose proof Hst as (_ & _ & _ & _ & ->).
  destruct (write_drop w (sh_signals shs)) as [rec signals] eqn:Ed.
  destruct (write_drop_ends _ _ _ _ _ Ed Hst Hs) as [-> Hend]. exists signals. split; [done|].
  assert (sys_step root (mkSystem shs i l ws)
    (mkSystem (set_signals signals shs) i l (<[k := Latching (frozen_publication w)]> ws))) as Hstep
    by (by apply (sys_drop _ _ _ _ _ k w true)).
  split; [done|]. by apply inv_will_recover, (sys_step_inv root _ _ Hstep).
Qed.

(** C7: a dropped write is recovered, not stranded.  In any reachable state, dropping a write
    authority whose permit is live ends the permit and starts the recovery.  Other threads
    may run before each of its three locked sections; whenever the thread comes to one, this
    holds: the first leaves the lane dirty; the second takes the token of the observer then
    active and records the cut, which is a full baseline if the lane is still dirty, so that
    whatever the write left on disk is rescanned; the third installs a fresh publication
    under that token, retires the outgoing lease, and leaves a source on which the next
    acquire is granted.  The third needs that the process counters are not used up and that
    everything revoked was minted.  An observer registered between the second and the third
    section has a newer token than the one installed ([return_carries_superseded_token]). *)
Theorem dropped_write_recovers root opened0 anchor sh (a : ProjectSourceAuthority Dir) sh' s k w :
  for_root root opened0 anchor sh = Done (a, sh') →
  rtc (sys_step root) (mkSystem sh' (auth_inner a) (auth_lane a) ∅) s →
  writers s !! k = Some (Holding w) →
  ∃ signals, write_drop w (sh_signals (shared s)) = (true, signals) ∧
    let s1 := mkSystem (set_signals signals (shared s)) (inner s) (lane_state s)
                (<[k := Latching (frozen_publication w)]> (writers s)) in
    sys_step root s s1 ∧ will_recover root k (frozen_publication w) s1.
Proof.
  intros Hnew Hrun Hk. apply drop_steps; [|done]. by eapply reachable_inv.
Qed.

(** C6: a finished write always returns the source.  In any reachable state, committing a
    receipt or declaring that nothing was written does not panic.  If the permit accepts, the
    permit ends and the return starts.  Other threads may run before each of its two locked
    sections; whenever the thread comes to one, this holds: the first takes the token of the
    observer then active and records the cut of the lane; the second installs a fresh
    publication under that token, retires the outgoing lease, and leaves a source on which
    the next acquire is granted.  If the permit refuses, the authority is dropped with its
    permit in place, and its recovery marks the lane dirty first and then returns in the same
    way.  The last section needs that the process counters are not used up and that
    everything revoked was minted.  An observer registered between the two sections has a
    newer token than the one installed ([return_carries_superseded_token]). *)
Theorem finished_write_returns root opened0 anchor sh (a : ProjectSourceAuthority Dir) sh' s k w terminate :
  for_root root opened0 anchor sh = Done (a, sh') →
  rtc (sys_step root) (mkSystem sh' (auth_inner a) (auth_lane a) ∅) s →
  writers s !! k = Some (Holding w) → finishes terminate →
  let f := frozen_publication w in
  let after signals st := mkSystem (set_signals signals (shared s)) (inner s) (lane_state s) (<[k := st]> (writers s)) in
  ∃ r w' signals, finish_permit terminate w (sh_signals (shared s)) = Done (r, w', signals) ∧
  match r with
  | Ok _ => write_permit w' = None ∧ sys_step root s (after signals (Returning f)) ∧
      will_return root k f (after signals (Returning f))
  | Err _ => ∃ signals', write_drop w' signals = (true, signals') ∧
      sys_step root s (after signals' (Latching f)) ∧ will_recover root k f (after signals' (Latching f))
  end.
Proof.
  intros Hnew Hrun Hk Hfin. simpl. pose proof (reachable_inv _ _ _ _ _ _ _ Hnew Hrun) as Hinv.
  destruct s as [shs i l ws]. simpl in *.
  destruct (source_inv_writer _ _ _ _ _ _ Hinv Hk) as (_ & Hf & sig & Hs & Hst).
  pose proof Hst as (permit & Hw & _ & _ & ->).
  destruct (finish_permit terminate w (sh_signals shs)) as [[[r w'] signals]|] eqn:Ef.
  2:{ exfalso. unfold finish_permit in Ef. rewrite Hw in Ef.
      by destruct (terminate permit (sh_signals shs)) as [[[]]]. }
  exists r, w', signals. split; [done|].
  destruct (finish_permit_keeps _ _ _ _ _ _ _ Hfin Ef Hst Hs) as [Hfr Hr]. destruct r as [ticket|e].
  - assert (write_permit w' = None) as Hn.
    { unfold finish_permit in Ef. rewrite Hw in Ef. destruct (terminate permit (sh_signals shs)) as [[[]]]; by simplify_eq. }
    assert (sys_step root (mkSystem shs i l ws)
      (mkSystem (set_signals signals shs) i l (<[k := Returning (frozen_publication w)]> ws))) as Hstep
      by (rewrite <-Hfr; by apply (sys_finish _ _ _ _ _ k w terminate ticket)).
    split; [done|]. split; [done|]. by apply inv_will_return, (sys_step_inv root _ _ Hstep).
  - destruct Hr as [-> ->]. destruct (drop_steps root _ k w Hinv Hk) as (signals' & Hd & Hstep & Hrec).
    exists signals'. split; [done|]. split; [exact Hstep|exact Hrec].
Qed.

(** ** A revoked lease *)

Lemma stranded_step root f s s' :
  sys_step root s s' → writers s = ∅ → frozen_under f (runtime (inner s)) →
  writers s' = ∅ ∧ inner s' = inner s.
Proof.
  intros Hstep Hw Hf. destruct Hstep as
    [sh i l ws k expected opened w i' sh' Hk H|sh i l ws expected opened e i' sh' H
    |? ? ? ? ? ? ? ? ? ? ? ? ? ? ? Hk|? ? ? ? ? ? ? ? ? Hk|? ? ? ? ? ? ? ? ? ? Hk
    |? ? ? ? ? ? ? ? ? ? ? ? Hk|? ? ? ? ? ? ? ? Hk|? ? ? ? ? ? Hk|? ? ? ? ? ? ? ? Hk
    |? ? ? ? ? ? ? ? ? ? ? Hk|]; simpl in *; subst;
    try (by rewrite lookup_empty in Hk); try done.
  - by rewrite (frozen_acquire_refused f) in H.
  - rewrite (frozen_acquire_refused f) in H by done. by simplify_eq.
Qed.

(** An acquire on a revoked lease strands the source.  When the root of an idle
    source has been revoked (root replacement), an acquire is refused, but only
    after the grant has frozen the source and recorded its permit; nobody owns that
    permit, so no sequence of steps ever brings the source back: every later acquire
    is refused and no generation is queryable. *)
Theorem acquire_after_revocation_strands root opened i l sh live :
  phase (runtime i) = Current live →
  physical_root (publication_binding live) = lease_identity (inner_lease i) →
  binding_is_live (sh_process sh) (publication_binding live) = true →
  statics (sh_process sh) NEXT_IDENTITY ≠ 0 →
  ∃ i' sh',
    acquire_write opened i (set_process (revoke_for_replacement i (sh_process sh)) sh)
      = Done ((Err PhysicalRootReplaced, i'), sh') ∧
    length (outstanding (active_permits (runtime i'))) = 1%nat ∧
    ∀ s, rtc (sys_step root) (mkSystem sh' i' l ∅) s →
      inner s = i' ∧ writers s = ∅ ∧ queryable_generation (runtime (inner s)) = None ∧
      ∀ expected d, acquire_write_if_publication expected d (inner s) (shared s)
        = Done ((Err (PhaseNotCurrent PhaseRefreshing), inner s), shared s).
Proof.
  intros Hc Hr Hb Hz.
  set (p := revoke_for_replacement i (sh_process sh)).
  assert (lease_is_live p (inner_lease i) = false) as Hl by (by apply lease_revoke_not_live).
  eexists _, _. split.
  { unfold acquire_write, acquire_write_if_publication, live_publication. rewrite Hc.
    unfold acquire_go, mbind, Proc_bind, on_process.
    rewrite (request_accepted_Done live) by done. unfold signal_new, permit_grant, into_parts.
    cbn [grant_authority authority_binding grant_published_non_current sh_process sh_signals
         set_process].
    rewrite decide_False by (rewrite Hr; intros Hx; by apply Hx).
    unfold binding_is_live, lease_is_live in *.
    cbn [revoked_bindings revoked_leases set_static reopened lease_identity with_runtime
         inner_lease].
    change (revoked_bindings p) with (revoked_bindings (sh_process sh)).
    rewrite Hb, Hl. simpl. reflexivity. }
  split; [done|]. intros s Hs.
  set (i' := with_runtime _ i) in *.
  assert (frozen_under (mkIdentity (statics p NEXT_IDENTITY)) (runtime i')) as Hf
    by (by eexists _, _, _, _, _).
  assert (inner s = i' ∧ writers s = ∅) as [-> Hw].
  { clear - Hs Hf. remember (mkSystem _ i' l ∅) as s0 eqn:E0.
    assert (inner s0 = i' ∧ writers s0 = ∅) as H0 by (by subst). clear E0.
    induction Hs as [|s1 s2 s3 H1 H2 IH]; [done|]. destruct H0 as [Hi Hw].
    apply (stranded_step root (mkIdentity (statics p NEXT_IDENTITY))) in H1 as [Hw' Hi'];
      [|done|by rewrite Hi]. apply IH. split; congruence. }
  split; [done|]. split; [done|]. split; [by apply (frozen_not_queryable _ _ Hf)|].
  intros. by eapply frozen_acquire_refused.
Qed.

(** A return can publish a superseded observer.  The observer token of a return
    is read under the lane lock and installed under the inner lock; a registration
    that runs between the two leaves the installed publication carrying the
    predecessor's token, not the active incarnation's. *)
Theorem return_carries_superseded_token root frozen opened i l sh l1 token observer l2 p2 r i' sh'
    sig :
  wf_statics (sh_process sh) →
  below (statics (sh_process sh) NEXT_IDENTITY) (raw_for_render (active_token l)) →
  frozen_under frozen (runtime i) → sh_signals sh !! outstanding_signal i = Some sig →
  has_ended sig = true →
  return_cut l = (token, l1) →
  register_observer l1 (sh_process sh) = Done ((observer, l2), p2) →
  return_install root frozen token opened i (set_process p2 sh) = Done ((r, i'), sh') →
  r = Ok tt ∧ ∃ live, live_publication (runtime i') = Some live ∧
    observer_cut live = active_token l ∧ observer_cut live ≠ active_token l2.
Proof.
  intros Hwf Hb Hf Hs He Hcut Hreg Hins. unfold return_cut in Hcut.
  destruct (cut (accumulator l)) as [c acc]. injection Hcut as <- <-.
  apply (return_install_Done _ _ _ _ _ _ _ _ _ sig) in Hins
    as (-> & _ & _ & live & Hl & Hc & _); [|done..].
  split; [done|]. exists live. split; [unfold live_publication; by rewrite Hl|].
  split; [done|]. rewrite Hc. unfold register_observer in Hreg.
  destruct (begin_handoff _ _) as [[?|?] s1]; [|done].
  destruct (deliver_pending s1) as [? s2].
  destruct (complete_handoff s2) as [[?|?] s3]; [|done].
  apply Proc_bind_Done in Hreg as (tok & p3 & (Htok & Hz & _)%fresh_Done & H).
  apply Proc_ret_Done in H. injection H as _ -> _. simpl. intros Heq.
  apply (below_fresh _ _ Hz Hb). by rewrite Heq, Htok.
Qed.
End Interleaving.

(** ** The observation lane *)

Section Observation.
Context (observation_source_id : string → N).
Implicit Types (l : ObservationLane) (pools : Pools) (p : Process).

Abbreviation admit_active := (observe_admission_active observation_source_id).

(** A supervisor no attempt of which was ever retried, with at most [n] attempts. *)
Record sup_ok (n : N) (sup : SupervisorState) : Prop := mk_sup_ok {
  sup_superseded : superseded sup = ∅;
  sup_terminal : ∀ id, id ∈ terminal sup → attempt_raw id < next_attempt sup;
  sup_committed : committed sup ≤ next_attempt sup;
  sup_attempts : next_attempt sup ≤ n
}.

(** The lane's owner row as it was created. *)
Definition idle_row : OwnerRow := mkOwnerRow OBSERVATION_CAPACITY_BYTES 0 ∅ None.

Record lane_ok (l : ObservationLane) (pools : Pools) : Prop := mk_lane_ok {
  lane_row : ∃ pl, pools !! lane_pool l = Some pl ∧ rows pl !! lane_owner l = Some idle_row;
  lane_sups : ∀ raw sup, supervisors l !! raw = Some sup → sup_ok (next_stamp l) sup;
  lane_settled : pending_successor (lane_slot l) = None
}.

(** A reservation on an idle row, and its drop, leave the pools as they were. *)
Lemma reserve_and_drop (self : PoolIdentity) (owner : OwnerIdentity) bytes pl pools p :
  pools !! self = Some pl → rows pl !! owner = Some idle_row →
  0 < bytes ≤ OBSERVATION_CAPACITY_BYTES → statics p NEXT_IDENTITY ≠ 0 →
  ∃ pm pools' p', reserve_and_redeem self owner bytes pools p = Done ((Ok pm, pools'), p') ∧
    cpermit_drop pm pools' = pools.
Proof.
  intros Hpl Hrow Hb Hz. unfold reserve_and_redeem. rewrite Hpl.
  unfold mbind, Proc_bind, reserve. rewrite Hrow. unfold headroom, saturating_sub.
  rewrite decide_False by (simpl; unfold OBSERVATION_CAPACITY_BYTES in *; lia).
  unfold mbind, Proc_bind. rewrite fresh_total by done. cbn [mret Proc_ret].
  unfold redeem. cbn [cgrant_pool]. rewrite decide_False by (intros Hx; by apply Hx).
  eexists _, _, _. split; [reflexivity|]. unfold cgrant_drop, cpermit_drop, refund_at.
  cbn [redeemed refunded cpermit_ledger cpermit_owner cpermit_charge].
  rewrite lookup_insert_eq. unfold refund, with_rows.
  cbn [rows cgrant_owner cgrant_charge]. rewrite lookup_insert_eq.
  cbn [row_outstanding]. rewrite lookup_insert_eq. cbn [snd limit row_charged parent].
  rewrite insert_insert_eq, insert_insert_eq, delete_insert_id by done.
  replace (saturating_sub _ _) with 0.
  - change (mkOwnerRow _ 0 _ _) with idle_row. rewrite (insert_id _ _ _ Hrow).
    destruct pl. apply insert_id. exact Hpl.
  - unfold saturating_sub. rewrite u64_add_small; [simpl; lia|].
    unfold u64_modulus, OBSERVATION_CAPACITY_BYTES in *. simpl. lia.
Qed.

Lemma sup_ok_mono n n' sup : n ≤ n' → sup_ok n sup → sup_ok n' sup.
Proof. intros Hn [H1 H2 H3 H4]. constructor; auto. lia. Qed.

Lemma sup_ok_default l pools raw :
  lane_ok l pools → sup_ok (next_stamp l) (default supervisor_new (supervisors l !! raw)).
Proof.
  intros [_ H _]. destruct (supervisors l !! raw) as [sup|] eqn:E; simpl; [eauto|].
  constructor; simpl; [done|set_solver|lia|lia].
Qed.

(** A fresh attempt of such a supervisor can always be recorded committed. *)
Lemma sup_ok_commit n sup :
  sup_ok n sup → n + 1 < u64_modulus →
  let '(attempt, sup1) := begin_attempt sup in
  is_superseded sup1 attempt = false ∧ is_terminal_attempt sup1 attempt = false ∧
  sup_ok (n + 1) (record_commit attempt sup1) ∧
  committed (record_commit attempt sup1) = committed sup + 1.
Proof.
  intros [Hs Ht Hc Hn] Hroom. unfold begin_attempt, mint, is_superseded, is_terminal_attempt.
  cbn [superseded terminal].
  assert (mkAttemptId (next_attempt sup) ∉ terminal sup) as Hnt.
  { intros Hx%Ht. simpl in Hx. lia. }
  rewrite Hs. split; [by apply bool_decide_eq_false, not_elem_of_empty|].
  split; [by apply bool_decide_eq_false|].
  unfold record_commit, terminal_row. cbn [terminal]. rewrite decide_False by done.
  cbn [committed next_attempt superseded terminal].
  rewrite (u64_add_small (committed sup)), (u64_add_small (next_attempt sup)) by lia.
  split; [|done]. constructor; cbn [committed next_attempt superseded terminal]; auto; try lia.
  intros id [->%elem_of_singleton|Hid%Ht]%elem_of_union; simpl; lia.
Qed.

(** What one admission does to a lane. *)
Definition admitted (relative : string) (l l' : ObservationLane) : Prop :=
  let raw := observation_source_id relative in
  let stamp := next_stamp l + 1 in
  next_stamp l' = stamp ∧
  (∃ arts, artifact_root l' = <[mkSourceId raw := arts]> (artifact_root l) ∧
     art_token arts = mkContentToken stamp ∧ fst <$> artifacts arts = ArtifactKind_REQUIRED) ∧
  (∃ sup, supervisors l' = <[raw := sup]> (supervisors l) ∧ sup_ok stamp sup ∧
     committed sup = default 0 (committed <$> supervisors l !! raw) + 1) ∧
  accumulator l' = snd (observe raw (Some stamp) (accumulator l)) ∧
  lane_slot l' = lane_slot l ∧ lane_pool l' = lane_pool l ∧ lane_owner l' = lane_owner l ∧
  active_token l' = active_token l ∧ next_observer l' = next_observer l.

Lemma admission_commits relative l pools p :
  lane_ok l pools → next_stamp l + 1 < u64_modulus → statics p NEXT_IDENTITY ≠ 0 →
  ∃ l' p', admit_active relative l pools p = Done ((l', pools), p') ∧
    admitted relative l l'.
Proof.
  intros Hok Hroom Hz. pose proof Hok as [(pl & Hpl & Hrow) _ _].
  unfold observe_admission_active, observe_admission_locked.
  set (raw := observation_source_id relative). rewrite u64_add_small by done.
  set (stamp := next_stamp l + 1).
  pose proof (sup_ok_default l pools raw Hok) as Hsup.
  set (sup := default supervisor_new (supervisors l !! raw)) in *.
  pose proof (sup_ok_commit _ _ Hsup Hroom) as Hc.
  destruct (begin_attempt sup) as [attempt sup1].
  destruct Hc as (Hns & Hnt & Hsup' & Hcom).
  destruct (reserve_and_drop (lane_pool l) (lane_owner l) 1 pl pools p Hpl Hrow)
    as (pm & pools1 & p1 & Hres & Hdrop); [unfold OBSERVATION_CAPACITY_BYTES; lia|done|].
  unfold prepare_delta, mbind, Proc_bind.
  change (reserved_bytes [dark_source raw stamp relative]) with 1. rewrite Hres.
  cbn [build_sources build_loop dark_source observation cs_id mret Proc_ret].
  unfold candidate_commit. cbn [cand_permit cand_attempt outcome changed expected].
  rewrite Hns, Hnt. rewrite decide_False by (intros Hx; by apply Hx).
  rewrite lookup_insert_eq, Hdrop. eexists _, _. split; [reflexivity|].
  unfold admitted. cbn [next_stamp artifact_root supervisors accumulator lane_slot lane_pool
    lane_owner active_token next_observer].
  split; [done|]. split; [by eexists|]. split; [|done].
  exists (record_commit attempt sup1). split; [done|]. split; [done|]. rewrite Hcom.
  subst sup raw. clear. by destruct (supervisors l !! observation_source_id relative).
Qed.

(** ** Every interleaving of the lane

    The lane-locked sections of the authority, in any order and by any observer; in
    between, the rest of the process changes the process state and every pool but the
    lane's own. *)

Abbreviation LaneWorld := (ObservationLane * Pools * Process)%type.

Inductive lane_step : LaneWorld → LaneWorld → Prop :=
| lane_admission l pools p observer relative r l' pools' p' :
    observe_admission observation_source_id observer relative l pools p
      = Done ((r, l', pools'), p') →
    lane_step (l, pools, p) (l', pools', p')
| lane_admission_active l pools p relative l' pools' p' :
    admit_active relative l pools p = Done ((l', pools'), p') →
    lane_step (l, pools, p) (l', pools', p')
| lane_removal l pools p observer relative :
    lane_step (l, pools, p)
      (snd (observe_removal observation_source_id observer relative l), pools, p)
| lane_removal_active l pools p relative :
    lane_step (l, pools, p)
      (observe_removal_active observation_source_id relative l, pools, p)
| lane_gap l pools p observer :
    lane_step (l, pools, p) (snd (lane_report_gap observer l), pools, p)
| lane_register l pools p observer l' p' :
    register_observer l p = Done ((observer, l'), p') →
    lane_step (l, pools, p) (l', pools, p')
| lane_return l pools p : lane_step (l, pools, p) (snd (return_cut l), pools, p)
| lane_recover l pools p : lane_step (l, pools, p) (recover_latch l, pools, p)
| lane_environment l pools p pools' p' :
    pools' !! lane_pool l = pools !! lane_pool l →
    lane_step (l, pools, p) (l, pools', p').

Definition lane_inv (n : nat) (s : LaneWorld) : Prop :=
  let '(l, pools, _) := s in lane_ok l pools ∧ next_stamp l ≤ N.of_nat n.

Lemma lane_ok_frame l l' pools :
  lane_pool l' = lane_pool l → lane_owner l' = lane_owner l →
  supervisors l' = supervisors l → next_stamp l ≤ next_stamp l' →
  pending_successor (lane_slot l') = None → lane_ok l pools → lane_ok l' pools.
Proof.
  intros Hp Ho Hs Hn Hpend [Hrow Hsup _]. constructor; [by rewrite Hp, Ho| |done].
  rewrite Hs. intros raw sup Hin%Hsup. by eapply sup_ok_mono.
Qed.

Lemma lane_ok_admitted relative l l' pools :
  lane_ok l pools → admitted relative l l' → lane_ok l' pools.
Proof.
  intros [Hrow Hsup Hpend] (Hn & _ & (sup & Hs & Hok & _) & _ & Hslot & Hp & Ho & _).
  constructor; [by rewrite Hp, Ho| |by rewrite Hslot].
  rewrite Hs, Hn. intros raw sup' [[<- <-]|[_ Hin%Hsup]]%lookup_insert_Some; [done|].
  eapply sup_ok_mono; [|done]. lia.
Qed.

Lemma admission_inv n relative l pools p l' pools' p' :
  lane_inv n (l, pools, p) → N.of_nat n + 1 < u64_modulus →
  admit_active relative l pools p = Done ((l', pools'), p') →
  lane_inv (S n) (l', pools', p').
Proof.
  intros [Hok Hn] Hroom H. destruct (decide (statics p NEXT_IDENTITY = 0)) as [Hz|Hz].
  - exfalso. pose proof Hok as [(pl & Hpl & Hrow) _ _].
    unfold observe_admission_active, observe_admission_locked in H.
    destruct (begin_attempt _) as [attempt sup1].
    unfold prepare_delta, mbind, Proc_bind, reserve_and_redeem in H. rewrite Hpl in H.
    unfold mbind, Proc_bind, reserve in H. rewrite Hrow in H. unfold headroom in H.
    rewrite decide_False in H by (vm_compute; congruence).
    unfold mbind, Proc_bind, fresh, next_identity, fresh_nonzero, mbind, Proc_bind, fetch_add in H.
    rewrite Hz in H. done.
  - destruct (admission_commits relative l pools p) as (l1 & p1 & H1 & Ha); [done|lia|done|].
    rewrite H in H1. injection H1 as <- <- <-.
    split; [by eapply lane_ok_admitted|]. destruct Ha as (-> & _). lia.
Qed.

Lemma register_observer_Done l p observer l' p' :
  register_observer l p = Done ((observer, l'), p') →
  lane_pool l' = lane_pool l ∧ lane_owner l' = lane_owner l ∧
  supervisors l' = supervisors l ∧ next_stamp l' = next_stamp l ∧
  pending_successor (lane_slot l') = None ∧ active (lane_slot l') = observer.
Proof.
  unfold register_observer, begin_handoff, deliver_pending, complete_handoff. intros H.
  destruct (pending_successor (lane_slot l)); [done|]. simpl in H.
  apply Proc_bind_Done in H as (tok & p1 & _ & H). apply Proc_ret_Done in H.
  by injection H as -> -> ->.
Qed.

#[local] Arguments N.add : simpl never.
#[local] Arguments u64_add : simpl never.

Lemma lane_step_inv n s s' :
  lane_step s s' → N.of_nat n + 1 < u64_modulus → lane_inv n s → lane_inv (S n) s'.
Proof.
  intros Hstep Hroom Hinv. destruct Hstep as
    [l pools p o relative r l' pools' p' H|l pools p relative l' pools' p' H
    |l pools p o relative|l pools p relative|l pools p o|l pools p o l' p' H
    |l pools p|l pools p|l pools p pools' p' Hp].
  - unfold observe_admission, if_active in H. case_decide.
    + apply Proc_ret_Done in H. injection H as -> -> -> ->. destruct Hinv as [? ?].
      split; [done|lia].
    + apply Proc_bind_Done in H as ([l1 pools1] & p1 & H & Hr). apply Proc_ret_Done in Hr.
      injection Hr as -> -> -> ->. by eapply admission_inv.
  - by eapply admission_inv.
  - destruct Hinv as [Hok Hn]. unfold observe_removal. case_decide; [split; [done|simpl; lia]|].
    simpl. rewrite u64_add_small by lia. split; [|lia].
    apply (lane_ok_frame l); [..|exact Hok]; simpl; try done; [rewrite u64_add_small; lia|apply Hok].
  - destruct Hinv as [Hok Hn]. simpl. rewrite u64_add_small by lia. split; [|lia].
    apply (lane_ok_frame l); [..|exact Hok]; simpl; try done; [rewrite u64_add_small; lia|apply Hok].
  - destruct Hinv as [Hok Hn]. unfold lane_report_gap. case_decide; (split; [|simpl; lia]); [done|].
    apply (lane_ok_frame l); [..|exact Hok]; simpl; try done. apply Hok.
  - destruct Hinv as [Hok Hn]. apply register_observer_Done in H as (Hp & Ho & Hs & Hst & Hpe & _).
    split; [|rewrite Hst; lia]. eapply lane_ok_frame; [done..| |done|done]. by rewrite Hst.
  - destruct Hinv as [Hok Hn]. split; [|simpl; lia].
    apply (lane_ok_frame l); [..|exact Hok]; simpl; try done. apply Hok.
  - destruct Hinv as [Hok Hn]. split; [|simpl; lia].
    apply (lane_ok_frame l); [..|exact Hok]; simpl; try done. apply Hok.
  - destruct Hinv as [[Hrow Hsup Hpe] Hn]. split; [|lia]. constructor; [by rewrite Hp|done|done].
Qed.

Lemma for_root_lane {Dir : Type} root opened anchor sh (a : ProjectSourceAuthority Dir) sh' :
  for_root root opened anchor sh = Done (a, sh') →
  lane_inv 0 (auth_lane a, sh_pools sh', sh_process sh').
Proof.
  intros H. unfold for_root in H.
  apply Proc_bind_Done in H as (lease & sh1 & _ & H).
  apply Proc_bind_Done in H as (b & sh2 & _ & H).
  apply Proc_bind_Done in H as (seed & sh3 & _ & H).
  apply Proc_bind_Done in H as (pub & sh4 & _ & H).
  apply Proc_bind_Done in H as ([pool owner] & sh5 & Hpool & H).
  apply Proc_bind_Done in H as (d & sh6 & Hd & H). apply Proc_ret_Done in H.
  injection H as -> ->. unfold signal_new in Hd. injection Hd as <- <-.
  destruct (pool_new (sh_pools sh4) (sh_process sh4)) as [[[pool' pools] p1]|]; [|done].
  destruct (pools !! pool') as [pl|]; [|done].
  destruct (Capacity.root OBSERVATION_CAPACITY_BYTES pl p1) as [[[owner' pl'] p2]|] eqn:Er;
    [|done].
  injection Hpool as <- <- <-. simpl.
  unfold Capacity.root in Er. apply Proc_bind_Done in Er as (o & p3 & _ & Er).
  apply Proc_ret_Done in Er. injection Er as -> -> ->.
  split; [|simpl; lia]. constructor; simpl; [|set_solver|done].
  eexists. split; [apply lookup_insert_eq|]. apply lookup_insert_eq.
Qed.

Lemma lane_run_inv {Dir : Type} root opened anchor sh (a : ProjectSourceAuthority Dir) sh' n s :
  for_root root opened anchor sh = Done (a, sh') →
  nsteps lane_step n (auth_lane a, sh_pools sh', sh_process sh') s →
  N.of_nat n < u64_modulus → lane_inv n s.
Proof.
  intros Hnew. revert s. induction n as [|n IH]; intros s Hs Hn.
  - inversion Hs; subst. by eapply for_root_lane.
  - apply nsteps_inv_r in Hs as (s1 & H1 & H2). eapply lane_step_inv; [done|lia|].
    apply IH; [done|lia].
Qed.

(** C8: no admission is lost and no capacity leaks.  After any run of the observation
    lane of fewer than 2^64 - 1 steps (admissions, removals, gaps, observer
    handoffs, returns, recoveries, and anything else in the process), the next
    admission commits: the source gets the new token and every required artifact,
    its siblings are untouched, its committed count grows by one, the accumulator
    observes the change instead of a gap, and the capacity ledger is back at zero
    charged with nothing outstanding. *)
Theorem admission_always_commits {Dir : Type} root opened anchor sh
    (a : ProjectSourceAuthority Dir) sh' n l pools p relative :
  for_root root opened anchor sh = Done (a, sh') →
  nsteps lane_step n (auth_lane a, sh_pools sh', sh_process sh') (l, pools, p) →
  N.of_nat n + 1 < u64_modulus → statics p NEXT_IDENTITY ≠ 0 →
  let raw := observation_source_id relative in
  ∃ l' p', admit_active relative l pools p = Done ((l', pools), p') ∧
    (∃ arts, artifact_root l' = <[mkSourceId raw := arts]> (artifact_root l) ∧
       art_token arts = mkContentToken (next_stamp l + 1) ∧
       fst <$> artifacts arts = ArtifactKind_REQUIRED) ∧
    committed_observations observation_source_id relative l'
      = committed_observations observation_source_id relative l + 1 ∧
    accumulator l' = snd (observe raw (Some (next_stamp l + 1)) (accumulator l)) ∧
    ∃ unknown, observation_capacity_ledger l' pools
      = (0, OBSERVATION_CAPACITY_BYTES, 0%nat, unknown).
Proof.
  intros Hnew Hs Hn Hz raw. apply (lane_run_inv _ _ _ _ _ _ _ _ Hnew) in Hs as [Hok Hst]; [|lia].
  destruct (admission_commits relative l pools p) as (l' & p' & H & Ha); [done|lia|done|].
  pose proof (lane_ok_admitted _ _ _ _ Hok Ha) as [(pl & Hpl & Hrow) _ _].
  exists l', p'. split; [done|].
  destruct Ha as (_ & Harts & (sup & Hs' & _ & Hcom) & Hacc & _). split; [done|]. split.
  { unfold committed_observations. rewrite Hs', lookup_insert_eq. done. }
  split; [done|]. unfold observation_capacity_ledger. rewrite Hpl. cbn [default].
  exists (unknown_refunds pl). unfold id, charged, outstanding_charges. rewrite Hrow. done.
Qed.
End Observation.

(** ** A concrete authority

    The authority of one root in a fresh process, a writer that acquires it, and the
    same writer after it has dropped its authority and cut the lane. *)

Definition sample_shared : Shared := mkShared initial_process ∅ ∅.
Definition sample_for_root : Outcome (ProjectSourceAuthority unit * Shared) :=
  for_root "/repo" (Some tt) None sample_shared.

(** Enough of the counters is left and nothing unknown has been revoked. *)
Definition process_ready (p : Process) (lease : PhysicalRootLease unit) : bool :=
  bool_decide (0 < statics p NEXT_ROOT ∧ statics p NEXT_ROOT + 1 < u64_modulus ∧
               0 < statics p NEXT_IDENTITY ∧ statics p NEXT_IDENTITY + 5 < u64_modulus) &&
  bool_decide (revoked_leases p = ∅ ∧ revoked_bindings p = ∅ ∧
               as_u64 (lease_identity lease) < statics p NEXT_ROOT).

Lemma process_ready_spec p lease :
  process_ready p lease = true →
  counters_ready p ∧ revocations_minted p ∧ as_u64 (lease_identity lease) < statics p NEXT_ROOT.
Proof.
  unfold process_ready. intros [H1 H2]%andb_prop.
  apply bool_decide_eq_true in H1, H2. destruct H2 as (Hl & Hb & Hid).
  split; [exact H1|]. split; [|exact Hid]. unfold revocations_minted. rewrite Hl, Hb.
  split; intros x Hx; by apply elem_of_empty in Hx.
Qed.

Definition sample_writes : bool :=
  match sample_for_root with
  | Panic => false
  | Done (a, sh) =>
      match acquire_write (Some tt) (auth_inner a) sh with
      | Done ((Ok w, i), sh) =>
          process_ready (sh_process sh) (inner_lease i) && fst (write_drop w (sh_signals sh))
      | _ => false
      end
  end.

Lemma sample_writer :
  ∃ a sh w i sh', sample_for_root = Done (a, sh) ∧
    acquire_write (Some tt) (auth_inner a) sh = Done ((Ok w, i), sh') ∧
    process_ready (sh_process sh') (inner_lease i) = true ∧
    fst (write_drop w (sh_signals sh')) = true.
Proof.
  assert (sample_writes = true) as H by (vm_compute; reflexivity). unfold sample_writes in H.
  destruct sample_for_root as [[a sh]|] eqn:E1; [|done].
  destruct (acquire_write (Some tt) (auth_inner a) sh) as [[[[w|e] i] sh']|] eqn:E2; [|done..].
  apply andb_prop in H as [H1 H2]. by exists a, sh, w, i, sh'.
Qed.

Lemma sample_holding_run (a : ProjectSourceAuthority unit) sh w i sh' :
  acquire_write (Some tt) (auth_inner a) sh = Done ((Ok w, i), sh') →
  rtc (sys_step (OS := MapFs.map_cap_std) "/repo")
    (mkSystem sh (auth_inner a) (auth_lane a) ∅)
    (mkSystem sh' i (auth_lane a) {[0 := Holding w]}).
Proof.
  intros H. rewrite <-insert_empty. apply rtc_once.
  by eapply (sys_acquire _ _ _ _ _ 0 None).
Qed.

Lemma one_writer_no_reader_witness :
  ∃ (i : AuthorityInner unit) sh, queryable_generation (runtime i) = None ∧
    ∀ expected d, acquire_write_if_publication expected d i sh
      = Done ((Err (PhaseNotCurrent PhaseRefreshing), i), sh).
Proof.
  destruct sample_writer as (a & sh & w & i & sh' & H1 & H2 & _). exists i, sh'.
  destruct (one_writer_no_reader (OS := MapFs.map_cap_std) "/repo" (Some tt) None sample_shared
              a sh _ 0 (Holding w) H1 (sample_holding_run _ _ _ _ _ H2))
    as (_ & H3 & _ & _ & _ & H4).
  - apply lookup_singleton_eq.
  - split; [exact H3|exact H4].
Defined.

Lemma writer_always_returns_witness :
  ∃ live (i i' : AuthorityInner unit) frozen token sh sh',
    return_install "/repo" frozen token (Some tt) i sh = Done ((Ok tt, i'), sh') ∧
    live_publication (runtime i') = Some live ∧ observer_cut live = token.
Proof.
  destruct sample_writer as (a & sh & w & i & sh' & H1 & H2 & H3 & H4).
  destruct (write_drop w (sh_signals sh')) as [r signals] eqn:Ed. simpl in H4. subst r.
  destruct (process_ready_spec _ _ H3) as (Hc & Hm & Hid).
  destruct (return_cut (recover_latch (auth_lane a))) as [token l'] eqn:Ec.
  destruct (writer_always_returns (OS := MapFs.map_cap_std) "/repo" (Some tt) None sample_shared
    a sh (mkSystem (set_signals signals sh') i l'
            {[0 := Installing (frozen_publication w) token]})
    0 (frozen_publication w) token (Some tt) H1)
    as (live & i' & sh'' & H5 & H6 & H7 & _).
  - etrans; [by apply (sample_holding_run _ _ _ _ _ H2)|].
    eapply rtc_l; [eapply (sys_drop _ _ _ _ _ 0 w true signals);
                   [apply lookup_singleton_eq|exact Ed]|].
    eapply rtc_l; [eapply (sys_latch _ _ _ _ _ 0); apply lookup_insert_eq|].
    eapply rtc_l; [eapply (sys_cut _ _ _ _ _ 0); [apply lookup_insert_eq|exact Ec]|].
    rewrite !insert_insert_eq, insert_singleton_eq. apply rtc_refl.
  - apply lookup_singleton_eq.
  - exact Hc.
  - exact Hm.
  - exact Hid.
  - exists live, i, i', (frozen_publication w), token, (set_signals signals sh'), sh''.
    split; [exact H5|]. split; [exact H6|exact H7].
Defined.

(** A writer drops its authority and recovers; the cut is a full baseline. *)
Lemma dropped_write_recovers_witness :
  ∃ (w : WriteAuthority unit) signals signals' (s3 : System (Dir := unit)) token l',
    write_drop w signals = (true, signals') ∧ writers s3 = {[0 := Installing (frozen_publication w) token]} ∧
    (∃ seq cause, last_reconcile_cut l' = Some (mkCut seq (FullBaseline cause))) ∧ lane_state s3 = l' ∧
    returned "/repo" (frozen_publication w) token s3.
Proof.
  destruct sample_writer as (a & sh & w & i & sh' & H1 & H2 & H3 & H4).
  destruct (process_ready_spec _ _ H3) as (Hc & Hm & Hid).
  destruct (dropped_write_recovers (OS := MapFs.map_cap_std) "/repo" (Some tt) None sample_shared
    a sh (mkSystem sh' i (auth_lane a) {[0 := Holding w]}) 0 w H1
    (sample_holding_run _ _ _ _ _ H2) (lookup_singleton_eq _ _)) as (signals & Hd & Hstep & Hrec).
  cbn [shared inner lane_state writers] in *. rewrite insert_singleton_eq in Hrec.
  destruct (Hrec _ (rtc_refl _ _) (lookup_singleton_eq _ _)) as (_ & Hl & Hret).
  cbn [shared inner lane_state writers] in *. rewrite insert_singleton_eq in Hret.
  destruct (Hret _ (rtc_refl _ _) (lookup_singleton_eq _ _)) as (l' & Hcut & _ & Hbase & Hins).
  cbn [shared inner lane_state writers] in *. rewrite insert_singleton_eq in Hins.
  destruct (latch (accumulator (recover_latch (auth_lane a)))) as [cause|] eqn:El; [|by exfalso; apply Hl].
  destruct (Hbase cause eq_refl) as [seq Hseq].
  exists w, (sh_signals sh'), signals. eexists. exists (active_token (recover_latch (auth_lane a))), l'.
  split; [exact Hd|]. split; [|split; [by exists seq, cause|split]].
  3: { apply (Hins _ (rtc_refl _ _) (lookup_singleton_eq _ _)). split; [exact Hc|]. split; [exact Hm|exact Hid]. }
  - reflexivity.
  - reflexivity.
Defined.

Lemma finished_write_returns_witness :
  ∃ (w : WriteAuthority unit) signals r w' signals' (s3 : System (Dir := unit)) token,
    finish_permit no_side_effect w signals = Done (Ok r, w', signals') ∧
    writers s3 = {[0 := Installing (frozen_publication w) token]} ∧
    returned "/repo" (frozen_publication w) token s3.
Proof.
  destruct sample_writer as (a & sh & w & i & sh' & H1 & H2 & H3 & H4).
  destruct (process_ready_spec _ _ H3) as (Hc & Hm & Hid).
  destruct (finished_write_returns (OS := MapFs.map_cap_std) "/repo" (Some tt) None sample_shared
    a sh (mkSystem sh' i (auth_lane a) {[0 := Holding w]}) 0 w no_side_effect H1
    (sample_holding_run _ _ _ _ _ H2) (lookup_singleton_eq _ _) finishes_no_side_effect)
    as ([r|e] & w' & signals & Hf & Hrest).
  - destruct Hrest as (_ & _ & Hret). cbn [shared inner lane_state writers] in *. rewrite insert_singleton_eq in Hret.
    destruct (Hret _ (rtc_refl _ _) (lookup_singleton_eq _ _)) as (l' & Hcut & _ & _ & Hins).
    cbn [shared inner lane_state writers] in *. rewrite insert_singleton_eq in Hins.
    exists w, (sh_signals sh'), r, w', signals. eexists. exists (active_token (auth_lane a)). split; [exact Hf|].
    split; [|apply (Hins _ (rtc_refl _ _) (lookup_singleton_eq _ _)); split; [exact Hc|split; [exact Hm|exact Hid]]].
    reflexivity.
  - exfalso. apply acquire_Done in H2 as [(? & [=] & _)|(? & ? & _ & _ & _ & [(? & [=] & _)|(permit & Hw & Hp & _)])].
    injection Hw as ->. unfold finish_permit, no_side_effect in Hf. cbn [shared write_permit] in Hf.
    rewrite Hp in Hf. discriminate Hf.
Defined.

Definition sample_idle_inner : AuthorityInner unit :=
  mkInner (runtime_current sample_current) (parked MapFs.sample_lease) 0.
Definition sample_idle_shared : Shared :=
  mkShared sample_process {[0 := PermitDrainSignal_new]} ∅.
Definition sample_lane : ObservationLane :=
  mkLane (slot_new (mkObserverId 1)) (mkIdentity 2)
    (accumulator_new OBSERVATION_ACCUMULATOR_BOUND) ∅ ∅ (mkPoolIdentity 1) (mkOwner 1) 1 0 None.

Lemma acquire_after_revocation_strands_witness :
  ∃ (i' : AuthorityInner unit) sh',
    acquire_write (Some tt) sample_idle_inner
      (set_process (revoke_for_replacement sample_idle_inner sample_process)
                   sample_idle_shared)
    = Done ((Err PhysicalRootReplaced, i'), sh') ∧
    length (outstanding (active_permits (runtime i'))) = 1%nat.
Proof.
  destruct (acquire_after_revocation_strands (OS := MapFs.map_cap_std) "/repo" (Some tt)
              sample_idle_inner sample_lane sample_idle_shared sample_current)
    as (i' & sh' & H1 & H2 & _).
  - reflexivity.
  - reflexivity.
  - reflexivity.
  - vm_compute. congruence.
  - exists i', sh'. split; [exact H1|exact H2].
Defined.

Definition sample_frozen_inner : AuthorityInner unit :=
  mkInner sample_granted MapFs.sample_lease 0.

Lemma return_carries_superseded_token_witness :
  ∃ (l2 : ObservationLane) (i' : AuthorityInner unit) live,
    live_publication (runtime i') = Some live ∧ observer_cut live = mkIdentity 2 ∧
    observer_cut live ≠ active_token l2.
Proof.
  set (sh := mkShared (set_static NEXT_IDENTITY 6 initial_process)
                      {[0 := mkDrainSignal true true (Some Committed)]} ∅).
  destruct (return_cut sample_lane) as [token l1] eqn:Ec.
  assert (∃ o l2 p2, register_observer l1 (sh_process sh) = Done ((o, l2), p2) ∧
    ∃ r i' sh', return_install "/repo" (mkIdentity 5) token (Some tt) sample_frozen_inner
      (set_process p2 sh) = Done ((r, i'), sh')) as (o & l2 & p2 & H1 & r & i' & sh' & H2).
  { unfold return_cut in Ec. simpl in Ec. injection Ec as <- <-.
    eexists _, _, _. split; [reflexivity|].
    destruct (return_install _ _ _ _ _ _) as [[[r i'] sh']|] eqn:E; [eauto|].
    vm_compute in E. discriminate. }
  destruct (return_carries_superseded_token "/repo" (mkIdentity 5) (Some tt)
              sample_frozen_inner sample_lane sh l1 token o l2 p2 r i' sh'
              (mkDrainSignal true true (Some Committed))) as (_ & live & H3 & H4 & H5).
  - apply set_static_wf; [apply initial_wf_statics|reflexivity].
  - right. reflexivity.
  - by eexists _, _, _, _, _.
  - reflexivity.
  - reflexivity.
  - exact Ec.
  - exact H1.
  - exact H2.
  - exists l2, i', live. split; [exact H3|]. split; [exact H4|exact H5].
Defined.

(** The first admission after the authority is created. *)
Lemma admission_always_commits_witness :
  ∃ (a : ProjectSourceAuthority unit) sh l' p',
    sample_for_root = Done (a, sh) ∧
    observe_admission_active (λ _, 7) "src/lib.rs" (auth_lane a) (sh_pools sh) (sh_process sh)
      = Done ((l', sh_pools sh), p') ∧
    committed_observations (λ _, 7) "src/lib.rs" l'
      = committed_observations (λ _, 7) "src/lib.rs" (auth_lane a) + 1.
Proof.
  assert (match sample_for_root with
          | Done (a, sh) => negb (statics (sh_process sh) NEXT_IDENTITY =? 0)
          | Panic => false
          end = true) as H by (vm_compute; reflexivity).
  destruct sample_for_root as [[a sh]|] eqn:E; [|discriminate].
  destruct (admission_always_commits (λ _, 7) "/repo" (Some tt) None sample_shared a sh 0
              (auth_lane a) (sh_pools sh) (sh_process sh) "src/lib.rs" E)
    as (l' & p' & H1 & _ & H2 & _).
  - constructor.
  - vm_compute. reflexivity.
  - apply N.eqb_neq. by destruct (statics _ _ =? 0).
  - exists a, sh, l', p'. split; [reflexivity|]. split; [exact H1|exact H2].
Defined.
