(* ===== verification/Slices.v ===== *)
(** * Rust's slices and bytes

    What the pure parts of the program use of the standard library: bytes and their
    ASCII case, [slice::binary_search] (the halving loop of the standard library, on
    strictly sorted slices), [Vec::dedup], [sort_by_key] and the iteration of a
    [BTreeMap] in key order.  [binary_search_spec] is what every sorted posting list
    relies on; [pair_hash_inj] is what two digests of the program share. *)

From Stdlib Require Import Lia Strings.Byte.
From stdpp Require Import base gmap sets list strings numbers option sorting.
From S2P Require Import Prelude.

#[global] Set Default Goal Selector "!".

(** ** Bytes *)

#[global] Instance byte_eq_dec : EqDecision byte := Byte.byte_eq_dec.

#[global] Program Instance byte_countable : Countable byte :=
  inj_countable Byte.to_N Byte.of_N _.
Next Obligation. intros b. apply Byte.of_to_N. Qed.

Definition in_range (lo hi : N) (b : byte) : bool :=
  (lo <=? Byte.to_N b)%N && (Byte.to_N b <=? hi)%N.

Definition shift_byte (f : N → N) (b : byte) : byte := default b (Byte.of_N (f (Byte.to_N b))).

(** [u8::to_ascii_lowercase]. *)
Definition to_ascii_lowercase (b : byte) : byte :=
  if in_range 65 90 b then shift_byte (λ n, n + 32)%N b else b.

Definition lowercase (l : list byte) : list byte := to_ascii_lowercase <$> l.

Lemma to_ascii_lowercase_idemp b :
  to_ascii_lowercase (to_ascii_lowercase b) = to_ascii_lowercase b.
Proof. by destruct b. Qed.

Lemma lowercase_idemp l : lowercase (lowercase l) = lowercase l.
Proof.
  unfold lowercase. rewrite <-list_fmap_compose. apply list_fmap_ext.
  intros i b _. apply to_ascii_lowercase_idemp.
Qed.

Lemma length_lowercase l : length (lowercase l) = length l.
Proof. apply length_fmap. Qed.

(** ** Lexicographic order

    The order that Rust derives on slices, strings and paths from that of their elements. *)

Fixpoint lex_leb {A} (R : relation A) `{!EqDecision A, !RelDecision R} (a b : list A) : bool :=
  match a, b with
  | [], _ => true
  | _ :: _, [] => false
  | x :: a, y :: b => if decide (x = y) then lex_leb R a b else bool_decide (R x y)
  end.

Definition lex_le {A} (R : relation A) `{!EqDecision A, !RelDecision R} (a b : list A) : Prop :=
  lex_leb R a b = true.

#[global] Instance lex_le_dec {A} (R : relation A) `{!EqDecision A, !RelDecision R} : RelDecision (lex_le R).
Proof. unfold lex_le. intros a b. apply _. Defined.

Section lex.
Context {A} (R : relation A) `{!EqDecision A, !RelDecision R, !PartialOrder R, !Total R}.

Lemma lex_le_cons x a y b :
  lex_le R (x :: a) (y :: b) ↔ (x = y ∧ lex_le R a b) ∨ (x ≠ y ∧ R x y).
Proof.
  unfold lex_le. simpl. case_decide; [naive_solver|]. rewrite bool_decide_eq_true. naive_solver.
Qed.

#[global] Instance lex_le_trans : Transitive (lex_le R).
Proof.
  intros a. induction a as [|x a IH]; intros [|y b] [|z c]; try done.
  rewrite !lex_le_cons. intros [[-> H1]|[Hn H1]] [[-> H2]|[Hm H2]]; [left|right|right|].
  - split; [done|by eapply IH].
  - done.
  - done.
  - destruct (decide (x = z)) as [->|Hxz]; [|right; split; [done|by etrans]].
    destruct Hn. by apply (anti_symm R).
Qed.

#[global] Instance lex_le_total : Total (lex_le R).
Proof.
  intros a. induction a as [|x a IH]; intros [|y b]; [by left|by left|by right|].
  rewrite !lex_le_cons. destruct (decide (x = y)) as [->|Hne]; [destruct (IH b); auto|].
  destruct (total R x y); [left|right]; right; auto.
Qed.

#[global] Instance lex_le_antisymm : AntiSymm (=) (lex_le R).
Proof.
  intros a. induction a as [|x a IH]; intros [|y b]; try done.
  rewrite !lex_le_cons. intros [[-> H1]|[Hn H1]] [[? H2]|[Hm H2]]; try done.
  - f_equal. by apply IH.
  - destruct Hn. by apply (anti_symm R).
Qed.

#[global] Instance lex_le_po : PartialOrder (lex_le R).
Proof.
  split; [split|]; [|apply _|apply _]. intros a. destruct (total (lex_le R) a a); done.
Qed.
End lex.

(** ** Binary search

    [binary_search] halves the window [[base, base + size)] until one element is left,
    then compares it.  Rust's [Ok(pos)] is [Found pos], [Err(pos)] is [Absent pos]. *)

Inductive SearchResult := Found (pos : nat) | Absent (pos : nat).

Definition is_found (r : SearchResult) : bool :=
  match r with Found _ => true | Absent _ => false end.

Section search.
Context {A} (lt : relation A) `{!RelDecision lt, !StrictOrder lt, !Trichotomy lt, !EqDecision A, !Inhabited A}.
Implicit Types (l : list A) (x y : A).

Fixpoint search_loop (fuel : nat) (l : list A) (x : A) (base size : nat) : option nat :=
  match fuel with
  | 0 => None
  | S fuel =>
      if 1 <? size then
        let half := size / 2 in
        let mid := base + half in
        let base' := if bool_decide (lt x (l !!! mid)) then base else mid in
        search_loop fuel l x base' (size - half)
      else Some base
  end.

Definition binary_search_by (l : list A) (x : A) : SearchResult :=
  match l with
  | [] => Absent 0
  | _ :: _ =>
      let base := default 0 (search_loop (length l) l x 0 (length l)) in
      let y := l !!! base in
      if decide (y = x) then Found base
      else Absent (if bool_decide (lt y x) then S base else base)
  end.

Lemma sorted_lookup l i j x y :
  StronglySorted lt l → l !! i = Some x → l !! j = Some y → i < j → lt x y.
Proof.
  intros Hs. revert i j. induction Hs as [|z l _ IH Hz]; intros i j; [done|].
  destruct i as [|i], j as [|j]; simpl; intros Hi Hj Hlt; [lia| |lia|apply (IH i j); by try lia].
  simplify_eq. rewrite Forall_forall in Hz. apply Hz. by eapply list_elem_of_lookup_2.
Qed.

Lemma sorted_nodup l : StronglySorted lt l → NoDup l.
Proof.
  induction 1 as [|x l _ IH Hx]; constructor; [|done].
  intros Hin. rewrite Forall_forall in Hx. by destruct (irreflexivity lt x (Hx x Hin)).
Qed.

(** Two sorted slices with the same elements are equal. *)
Lemma sorted_ext l k : StronglySorted lt l → StronglySorted lt k → (∀ x, x ∈ l ↔ x ∈ k) → l = k.
Proof.
  intros Hl. revert k. induction Hl as [|x l Hl IH Hx]; intros k Hk E.
  { destruct k as [|y k]; [done|]. destruct (not_elem_of_nil y). apply E. by left. }
  destruct Hk as [|y k Hk Hy]; [destruct (not_elem_of_nil x); apply E; by left|].
  rewrite Forall_forall in Hx, Hy.
  assert (x = y) as ->.
  { pose proof (proj1 (E x) ltac:(left)) as [->|Hxk]%elem_of_cons; [done|].
    pose proof (proj2 (E y) ltac:(left)) as [->|Hyl]%elem_of_cons; [done|].
    destruct (irreflexivity lt x). etrans; [by apply Hx|by apply Hy]. }
  f_equal. apply IH; [done|]. intros z. specialize (E z). rewrite !elem_of_cons in E.
  split; intros Hz; destruct E as [E1 E2].
  - destruct E1 as [->|?]; [by right| |done]. destruct (irreflexivity lt y). by apply Hx.
  - destruct E2 as [->|?]; [by right| |done]. destruct (irreflexivity lt y). by apply Hy.
Qed.

Lemma lookup_total_Some l i : i < length l → l !! i = Some (l !!! i).
Proof. intros Hi. by apply list_lookup_lookup_total_lt. Qed.

(** The loop needs no more rounds than the slice is long, and ends on the last element
    that is not greater than [x], or on the first element. *)
Lemma search_loop_spec fuel l x base size :
  StronglySorted lt l → 1 ≤ size → size ≤ fuel → base + size ≤ length l →
  (base = 0 ∨ ¬ lt x (l !!! base)) →
  (∀ j y, l !! j = Some y → base + size ≤ j → lt x y) →
  ∃ b, search_loop fuel l x base size = Some b ∧ b < length l ∧
    (b = 0 ∨ ¬ lt x (l !!! b)) ∧ (∀ j y, l !! j = Some y → b < j → lt x y).
Proof.
  intros Hs. revert base size. induction fuel as [|fuel IH]; intros base size H1 Hf Hb Hlo Hhi; [lia|].
  cbn [search_loop]. destruct (Nat.ltb_spec 1 size) as [Hgt|Hle].
  2: { exists base. split_and!; [done|lia|done|]. intros j y Hj Hlt. apply (Hhi j y Hj). lia. }
  assert (Hhalf : size / 2 < size) by (apply Nat.div_lt; lia).
  assert (1 ≤ size / 2) by (apply Nat.div_le_lower_bound; lia).
  cbv zeta. assert (Hmid : l !! (base + size / 2) = Some (l !!! (base + size / 2)))
    by (apply lookup_total_Some; lia).
  case_bool_decide as Hx; apply IH; try lia; try done; [|by right|].
  - intros j y Hj Hle. destruct (decide (j = base + size / 2)) as [->|Hne].
    { rewrite Hmid in Hj. by simplify_eq. }
    assert (2 * (size / 2) ≤ size) by apply Nat.Div0.mul_div_le.
    etrans; [done|]. eapply (sorted_lookup l _ _ _ _ Hs Hmid Hj). lia.
  - intros j y Hj Hle. apply (Hhi j y Hj). lia.
Qed.

(** On a strictly sorted slice: [Found] at the element's position, or [Absent] at the
    place that keeps the slice sorted. *)
Lemma binary_search_by_spec l x :
  StronglySorted lt l →
  match binary_search_by l x with
  | Found pos => l !! pos = Some x
  | Absent pos =>
      pos ≤ length l ∧ (∀ j y, l !! j = Some y → j < pos → lt y x) ∧
      (∀ j y, l !! j = Some y → pos ≤ j → lt x y)
  end.
Proof.
  intros Hs. unfold binary_search_by. destruct l as [|a l'].
  { split_and!; [simpl; lia|..]; intros j y Hj; by rewrite lookup_nil in Hj. }
  remember (a :: l') as l eqn:El.
  assert (Hlen : 1 ≤ length l) by (rewrite El; simpl; lia). clear El a l'.
  destruct (search_loop_spec (length l) l x 0 (length l)) as (b & -> & Hb & Hlo & Hhi);
    [done|done|done|done|by left|intros j y Hj%lookup_lt_Some; lia|]. simpl.
  pose proof (lookup_total_Some l b Hb) as Hlb.
  case_decide as Hne; [by rewrite <-Hne|].
  case_bool_decide as Hlt; split_and!; try lia.
  - intros j y Hj Hjb. destruct (decide (j = b)) as [->|]; [congruence|].
    etrans; [|exact Hlt]. eapply (sorted_lookup l j b _ _ Hs Hj Hlb). lia.
  - intros j y Hj Hjb. apply (Hhi j y Hj). lia.
  - destruct Hlo as [->|Hlo]; [intros; lia|]. destruct (trichotomy lt (l !!! b) x) as [?|[?|?]]; done.
  - intros j y Hj Hjb. destruct (decide (j = b)) as [->|]; [|apply (Hhi j y Hj); lia].
    rewrite Hlb in Hj. simplify_eq. destruct (trichotomy lt (l !!! b) x) as [?|[?|?]]; done.
Qed.

Lemma binary_search_by_found l x :
  StronglySorted lt l → is_found (binary_search_by l x) = true ↔ x ∈ l.
Proof.
  intros Hs. pose proof (binary_search_by_spec l x Hs) as H. destruct (binary_search_by l x) as [p|p]; simpl.
  - split; [intros _; by eapply list_elem_of_lookup_2|done].
  - split; [done|]. intros (j & Hj)%list_elem_of_lookup_1. destruct H as (_ & Hl & Hr).
    destruct (irreflexivity lt x). destruct (decide (j < p)); [eapply Hl|eapply Hr]; eauto; lia.
Qed.

(** ** Insertion and removal at a searched position *)

(** [Vec::insert] and [Vec::remove] at a position in range. *)
Definition vec_insert (i : nat) (x : A) (l : list A) : list A := take i l ++ x :: drop i l.
Definition vec_remove (i : nat) (l : list A) : list A := take i l ++ drop (S i) l.

Lemma vec_insert_by_sorted l x pos :
  StronglySorted lt l → binary_search_by l x = Absent pos → StronglySorted lt (vec_insert pos x l).
Proof.
  intros Hs Hb. pose proof (binary_search_by_spec l x Hs) as H. rewrite Hb in H.
  destruct H as (Hp & Hl & Hr). unfold vec_insert.
  rewrite <-(take_drop pos l) in Hs. apply StronglySorted_app in Hs as (Hmid & H1 & H2).
  apply StronglySorted_app_2; [|done|constructor; [done|]].
  - intros a b Ha [->|Hb']%elem_of_cons; [|by apply Hmid].
    apply list_elem_of_lookup_1 in Ha as (j & Hj).
    pose proof (lookup_lt_Some _ _ _ Hj) as Hlt. rewrite length_take in Hlt.
    rewrite lookup_take_lt in Hj by lia. apply (Hl j a Hj). lia.
  - apply Forall_forall. intros b (j & Hj)%list_elem_of_lookup_1.
    rewrite lookup_drop in Hj. apply (Hr _ b Hj). lia.
Qed.

Lemma elem_of_vec_insert l x y i :
  y ∈ vec_insert i x l ↔ y = x ∨ y ∈ l.
Proof.
  unfold vec_insert. rewrite <-(take_drop i l) at 3. rewrite !elem_of_app, elem_of_cons. tauto.
Qed.

Lemma vec_remove_by_sorted l i : StronglySorted lt l → StronglySorted lt (vec_remove i l).
Proof.
  intros Hs. unfold vec_remove. rewrite <-(take_drop i l) in Hs.
  apply StronglySorted_app in Hs as (Hmid & H1 & H2).
  rewrite <-Nat.add_1_r, <-drop_drop.
  assert (Hsub : drop 1 (drop i l) ⊆ drop i l).
  { intros z Hz. rewrite <-(take_drop 1 (drop i l)). apply elem_of_app. by right. }
  apply StronglySorted_app_2; [|done|].
  - intros a b Ha Hb. apply Hmid; [done|by apply Hsub].
  - destruct (drop i l) as [|b k]; [done|]. simpl. rewrite drop_0. by apply StronglySorted_inv in H2 as [? _].
Qed.

Lemma elem_of_vec_remove_by l x y pos :
  StronglySorted lt l → l !! pos = Some x → y ∈ vec_remove pos l ↔ y ∈ l ∧ y ≠ x.
Proof.
  intros Hs Hp. pose proof (sorted_nodup l Hs) as Hnd.
  pose proof (take_drop_middle l pos x Hp) as E. unfold vec_remove.
  rewrite <-E in Hnd. rewrite <-E at 3.
  apply NoDup_app in Hnd as (_ & Hd & [Hx _]%NoDup_cons).
  rewrite !elem_of_app, elem_of_cons. split; [|naive_solver].
  intros [Hy|Hy]; (split; [tauto|intros ->]); [|done].
  apply (Hd x Hy). apply list_elem_of_here.
Qed.
End search.

(** Numbers. *)

#[global] Instance N_lt_trichotomy : Trichotomy N.lt.
Proof. intros x y. unfold strict. lia. Qed.

Lemma nth_lookup_Some l i : i < length l → l !! i = Some (nth i l 0%N).
Proof. intros Hi. rewrite nth_lookup. by destruct (lookup_lt_is_Some_2 l i Hi) as [y ->]. Qed.

Definition binary_search (l : list N) (x : N) : SearchResult := binary_search_by N.lt l x.

Notation strictly_sorted := (StronglySorted N.lt).

Lemma strictly_sorted_lookup l i j x y :
  strictly_sorted l → l !! i = Some x → l !! j = Some y → i < j → (x < y)%N.
Proof. apply sorted_lookup. Qed.

Lemma strictly_sorted_nodup l : strictly_sorted l → NoDup l.
Proof. apply sorted_nodup. apply _. Qed.

Lemma binary_search_spec l x :
  strictly_sorted l →
  match binary_search l x with
  | Found pos => l !! pos = Some x
  | Absent pos =>
      pos ≤ length l ∧ (∀ j y, l !! j = Some y → j < pos → (y < x)%N) ∧
      (∀ j y, l !! j = Some y → pos ≤ j → (x < y)%N)
  end.
Proof. apply (binary_search_by_spec N.lt). Qed.

Lemma binary_search_found l x :
  strictly_sorted l → is_found (binary_search l x) = true ↔ x ∈ l.
Proof. apply (binary_search_by_found N.lt). Qed.

Lemma vec_insert_sorted l x pos :
  strictly_sorted l → binary_search l x = Absent pos → strictly_sorted (vec_insert pos x l).
Proof. apply (vec_insert_by_sorted N.lt). Qed.

Lemma vec_remove_sorted l i : strictly_sorted l → strictly_sorted (vec_remove i l).
Proof. apply vec_remove_by_sorted. Qed.

Lemma elem_of_vec_remove (l : list N) x y pos :
  strictly_sorted l → l !! pos = Some x → y ∈ vec_remove pos l ↔ y ∈ l ∧ y ≠ x.
Proof. apply elem_of_vec_remove_by. apply _. Qed.

(** ** Deduplication and sorting *)

(** [Vec::dedup] drops an element equal to the one kept before it. *)
Fixpoint dedup_from {A} `{EqDecision A} (prev : A) (l : list A) : list A :=
  match l with
  | [] => []
  | x :: l => if decide (x = prev) then dedup_from prev l else x :: dedup_from x l
  end.

Definition dedup {A} `{EqDecision A} (l : list A) : list A :=
  match l with [] => [] | x :: l => x :: dedup_from x l end.

Section dedup.
Context {A} (R : relation A) `{!EqDecision A}.

Lemma elem_of_dedup (l : list A) y : y ∈ dedup l ↔ y ∈ l.
Proof.
  assert (H : ∀ l prev, y ∈ prev :: dedup_from prev l ↔ y ∈ prev :: l).
  { clear l. intros l. induction l as [|x l IH]; intros prev; simpl; [done|].
    case_decide as E; [subst; rewrite (IH prev), !elem_of_cons; tauto|].
    rewrite elem_of_cons, (IH x), !elem_of_cons. tauto. }
  destruct l; [done|]. apply H.
Qed.

Lemma dedup_sorted (l : list A) : StronglySorted R l → StronglySorted R (dedup l).
Proof.
  assert (H : ∀ l prev, StronglySorted R (prev :: l) → StronglySorted R (prev :: dedup_from prev l)).
  { clear l. intros l. induction l as [|x l IH]; intros prev Hs; simpl; [done|].
    apply StronglySorted_inv in Hs as [Hs Hp]. pose proof Hs as [Hl Hx]%StronglySorted_inv.
    apply Forall_cons in Hp as [Hpx Hpl]. case_decide as E; [subst; by apply IH|].
    constructor; [by apply IH|]. rewrite Forall_forall in Hpl. apply Forall_forall. intros y Hy.
    assert (Hy' : y ∈ x :: l) by (by apply (elem_of_dedup (x :: l))).
    apply elem_of_cons in Hy' as [->|Hy']; auto. }
  destruct l; [done|]. apply H.
Qed.

Lemma dedup_nodup `{!AntiSymm (=) R} (l : list A) : StronglySorted R l → NoDup (dedup l).
Proof.
  assert (H : ∀ l prev, StronglySorted R (prev :: l) → NoDup (prev :: dedup_from prev l)).
  { clear l. intros l. induction l as [|x l IH]; intros prev Hs; simpl; [apply NoDup_singleton|].
    apply StronglySorted_inv in Hs as [Hs Hp]. pose proof Hs as [Hl Hx]%StronglySorted_inv.
    apply Forall_cons in Hp as [Hpx Hpl]. rewrite Forall_forall in Hpl, Hx.
    case_decide as E; [subst; apply IH; constructor; [done|by apply Forall_forall]|].
    apply NoDup_cons. split; [|by apply IH]. intros Hy.
    assert (Hy' : prev ∈ x :: l) by (by apply (elem_of_dedup (x :: l))).
    apply elem_of_cons in Hy' as [->|Hy']; [done|]. apply E. apply (anti_symm R); auto. }
  destruct l; [constructor|]. apply H.
Qed.
End dedup.

(** ** Sorting

    [sort_by], [sort_by_key] and [sort] are stable: an element is placed before the first
    one that it is not greater than, and the earlier of two equal elements is placed last.
    The standard library merges runs; a stable sort by a total preorder has one result. *)

Section sort.
Context {A : Type} (R : relation A) `{∀ x y, Decision (R x y)}.

Fixpoint insert_by (x : A) (l : list A) : list A :=
  match l with
  | [] => [x]
  | y :: l' => if decide (R x y) then x :: l else y :: insert_by x l'
  end.

Definition sort_by (l : list A) : list A := foldr insert_by [] l.

Lemma insert_by_Permutation x l : insert_by x l ≡ₚ x :: l.
Proof.
  induction l as [|y l IH]; simpl; [done|]. case_decide; [done|]. rewrite IH. apply Permutation_swap.
Qed.

Lemma sort_by_Permutation l : sort_by l ≡ₚ l.
Proof. induction l as [|x l IH]; simpl; [done|]. by rewrite insert_by_Permutation, IH. Qed.

Lemma StronglySorted_sort_by `{!Transitive R, !Total R} l : StronglySorted R (sort_by l).
Proof.
  assert (∀ x k, StronglySorted R k → StronglySorted R (insert_by x k)) as Hi.
  { intros x k Hk. induction Hk as [|y k Hk IH Hy]; simpl; [by repeat constructor|]. case_decide as E.
    - constructor; [by constructor|]. constructor; [done|]. eapply Forall_impl; [exact Hy|]. intros z. by apply transitivity.
    - constructor; [done|]. rewrite insert_by_Permutation. constructor; [|done]. by apply total_not in E. }
  induction l as [|x l IH]; simpl; [constructor|by apply Hi].
Qed.

(** A slice that is sorted already is left alone. *)
Lemma sort_by_sorted l : StronglySorted R l → sort_by l = l.
Proof.
  induction 1 as [|x l Hl IH Hx]; simpl; [done|]. rewrite IH. destruct Hx as [|y l Hy _]; simpl; [done|].
  by rewrite decide_True.
Qed.
End sort.

Lemma StronglySorted_weaken {A} (R Q : relation A) l : (∀ x y, R x y → Q x y) → StronglySorted R l → StronglySorted Q l.
Proof. intros HRQ. induction 1 as [|x l Hl IH Hx]; constructor; [done|]. eapply Forall_impl; [exact Hx|]. auto. Qed.

(** Two comparisons that agree on the elements sort alike. *)
Lemma sort_by_ext {A} (R Q : relation A) `{∀ x y, Decision (R x y)} `{∀ x y, Decision (Q x y)} l :
  (∀ x y, x ∈ l → y ∈ l → R x y ↔ Q x y) → sort_by R l = sort_by Q l.
Proof.
  induction l as [|x l IH]; simpl; intros E; [done|]. rewrite IH by (intros; apply E; by right).
  assert (∀ y, y ∈ sort_by Q l → R x y ↔ Q x y) as Ex.
  { intros y Hy. apply E; [left|right]. by rewrite (sort_by_Permutation Q) in Hy. }
  clear -Ex. induction (sort_by Q l) as [|y k IH]; simpl; [done|].
  rewrite (decide_ext (R x y) (Q x y)) by (apply Ex; left). case_decide; [done|]. f_equal.
  apply IH. intros z Hz. apply Ex. by right.
Qed.

(** The result does not depend on the order of the slice when ties are equal elements. *)
Lemma sort_by_unique {A} (R : relation A) `{∀ x y, Decision (R x y)} `{!Transitive R, !Total R} (l1 l2 : list A) :
  (∀ x y, x ∈ l1 → y ∈ l2 → R x y → R y x → x = y) → l1 ≡ₚ l2 → sort_by R l1 = sort_by R l2.
Proof.
  intros Hanti Hp. apply (StronglySorted_unique_strong R).
  - intros x y. rewrite !sort_by_Permutation. apply Hanti.
  - by apply StronglySorted_sort_by.
  - by apply StronglySorted_sort_by.
  - by rewrite !sort_by_Permutation.
Qed.

(** [sort_unstable] on [u64]: equal elements are indistinguishable. *)
Definition sort_unstable (l : list N) : list N := sort_by N.le l.

#[local] Instance N_le_trans : Transitive N.le := N.le_trans.
#[local] Instance N_le_total : Total N.le.
Proof. intros x y. lia. Qed.

#[local] Instance N_le_antisymm : AntiSymm (=) N.le.
Proof. intros x y. lia. Qed.

Lemma sort_dedup_spec l :
  strictly_sorted (dedup (sort_unstable l)) ∧ (∀ y, y ∈ dedup (sort_unstable l) ↔ y ∈ l).
Proof.
  unfold sort_unstable. pose proof (StronglySorted_sort_by N.le l) as Hs. split.
  - pose proof (dedup_nodup N.le _ Hs) as Hnd. apply (dedup_sorted N.le) in Hs.
    induction Hs as [|x k Hs IH Hx]; [constructor|]. apply NoDup_cons in Hnd as [Hn Hnd].
    constructor; [by apply IH|]. rewrite Forall_forall in Hx. apply Forall_forall. intros y Hy.
    specialize (Hx y Hy). assert (x ≠ y) by (by intros ->). lia.
  - intros y. by rewrite elem_of_dedup, sort_by_Permutation.
Qed.

(** Sorting and deduplicating forget the order they started from. *)
Lemma sort_dedup_Permutation {A} (R : relation A) `{!RelDecision R, !Transitive R, !Total R, !EqDecision A}
    (l1 l2 : list A) :
  (∀ x y, x ∈ l1 → y ∈ l2 → R x y → R y x → x = y) → l1 ≡ₚ l2 →
  dedup (sort_by R l1) = dedup (sort_by R l2).
Proof.
  intros Hanti Hp. f_equal. by apply sort_by_unique.
Qed.

(** ** Comparisons in turn: [Ordering::then_with] *)

Definition then_le {A B} (f : A → B) (R : relation B) (Q : relation A) (a b : A) : Prop :=
  (f a = f b ∧ Q a b) ∨ (f a ≠ f b ∧ R (f a) (f b)).

Section then_le.
Context {A B} (f : A → B) (R : relation B) (Q : relation A).

#[global] Instance then_le_dec `{!EqDecision B, !RelDecision R, !RelDecision Q} : RelDecision (then_le f R Q).
Proof. unfold then_le. intros a b. apply _. Defined.

#[global] Instance then_le_trans `{!Transitive R, !AntiSymm (=) R, !Transitive Q} `{!EqDecision B} :
  Transitive (then_le f R Q).
Proof.
  intros a b c [[E H]|[E H]] [[E' H']|[E' H']]; unfold then_le.
  - left. split; [congruence|by etrans].
  - right. rewrite E. done.
  - right. rewrite <-E'. done.
  - destruct (decide (f a = f c)) as [Eac|]; [|right; split; [done|by etrans]].
    destruct E. apply (anti_symm R); [done|]. by rewrite Eac.
Qed.

#[global] Instance then_le_total `{!Total R, !Total Q, !EqDecision B} : Total (then_le f R Q).
Proof.
  intros a b. unfold then_le. destruct (decide (f a = f b)) as [E|E].
  - destruct (total Q a b); auto.
  - destruct (total R (f a) (f b)); [left|right]; right; auto.
Qed.

(** Two elements that compare equal agree on the key and by the next comparison. *)
Lemma then_le_both a b : AntiSymm (=) R →
  then_le f R Q a b → then_le f R Q b a → f a = f b ∧ Q a b ∧ Q b a.
Proof.
  intros Ha [[E H]|[E H]] [[E' H']|[E' H']]; [done|done|done|].
  destruct E. by apply (anti_symm R).
Qed.
End then_le.

(** The last comparison of a chain. *)
Definition by_key {A B} (f : A → B) (R : relation B) (a b : A) : Prop := R (f a) (f b).

#[global] Instance by_key_dec {A B} (f : A → B) (R : relation B) `{!RelDecision R} : RelDecision (by_key f R).
Proof. unfold by_key. intros a b. apply _. Defined.
#[global] Instance by_key_trans {A B} (f : A → B) (R : relation B) `{!Transitive R} : Transitive (by_key f R).
Proof. unfold by_key. intros a b c. apply transitivity. Qed.
#[global] Instance by_key_total {A B} (f : A → B) (R : relation B) `{!Total R} : Total (by_key f R).
Proof. unfold by_key. intros a b. apply (total R). Qed.

(** [b.cmp(a)]: the greater number first. *)
Definition nat_ge (a b : nat) : Prop := b ≤ a.
#[global] Instance nat_ge_dec : RelDecision nat_ge.
Proof. unfold nat_ge. intros a b. apply _. Defined.
#[global] Instance nat_ge_trans : Transitive nat_ge.
Proof. unfold nat_ge. intros a b c. lia. Qed.
#[global] Instance nat_ge_antisymm : AntiSymm (=) nat_ge.
Proof. unfold nat_ge. intros a b. lia. Qed.
#[global] Instance nat_ge_total : Total nat_ge.
Proof. unfold nat_ge. intros a b. lia. Qed.

(** [retain(|x| seen.insert(key(x)))]: the first element of every key. *)
Fixpoint retain_first {A K} `{EqDecision K} (key : A → K) (seen : list K) (l : list A) : list A :=
  match l with
  | [] => []
  | x :: l =>
      if decide (key x ∈ seen) then retain_first key seen l
      else x :: retain_first key (key x :: seen) l
  end.

Section retain_first.
Context {A K : Type} `{EqDecision K} (key : A → K).

Lemma retain_first_fresh seen l x : x ∈ retain_first key seen l → key x ∉ seen ∧ x ∈ l.
Proof.
  revert seen. induction l as [|y l IH]; simpl; intros seen Hx; [by apply not_elem_of_nil in Hx|].
  case_decide; [apply IH in Hx; set_solver|]. apply elem_of_cons in Hx as [->|Hx]; [set_solver|].
  apply IH in Hx. set_solver.
Qed.

Lemma retain_first_nodup seen l : NoDup (key <$> retain_first key seen l).
Proof.
  revert seen. induction l as [|x l IH]; simpl; intros seen; [constructor|]. case_decide; [done|]. simpl.
  constructor; [|done]. intros (y & Ey & Hy)%list_elem_of_fmap. apply retain_first_fresh in Hy as [Hn _]. set_solver.
Qed.

Lemma retain_first_keys seen l k : k ∈ key <$> l → k ∈ seen ∨ k ∈ key <$> retain_first key seen l.
Proof.
  revert seen. induction l as [|x l IH]; simpl; intros seen Hk; [by apply not_elem_of_nil in Hk|].
  apply elem_of_cons in Hk as [->|Hk].
  - case_decide; [by left|]. right. left.
  - case_decide; [by apply IH|]. simpl. destruct (IH (key x :: seen) Hk) as [H1|H1]; set_solver.
Qed.

Lemma retain_first_sorted R seen l : StronglySorted R l → StronglySorted R (retain_first key seen l).
Proof.
  intros Hl. revert seen. induction Hl as [|x l Hl IH Hx]; simpl; intros seen; [constructor|]. case_decide; [done|].
  constructor; [done|]. rewrite Forall_forall in *. intros y [_ Hy]%retain_first_fresh. auto.
Qed.
End retain_first.

(** ** Grouping: [entry(k).or_default().push(v)] for each pair *)

Definition push_entry {K V} `{Countable K} (m : gmap K (list V)) (e : K * V) : gmap K (list V) :=
  <[e.1 := default [] (m !! e.1) ++ [e.2]]> m.

Definition group {K V} `{Countable K} (l : list (K * V)) : gmap K (list V) := fold_left push_entry l ∅.

Definition group_of {K V} `{Countable K} (k : K) (l : list (K * V)) : list V :=
  snd <$> filter (λ e : K * V, e.1 = k) l.

Lemma group_lookup {K V} `{Countable K} (l : list (K * V)) k :
  group l !! k = match group_of k l with [] => None | vs => Some vs end.
Proof.
  unfold group, group_of. induction l as [|[k' v] l IH] using rev_ind; [done|].
  rewrite fold_left_app, list.filter_app, fmap_app. simpl. unfold push_entry at 1. simpl.
  destruct (decide (k' = k)) as [->|Hne].
  - rewrite lookup_insert_eq, IH, filter_cons_True, filter_nil by done. simpl.
    by destruct (snd <$> filter (λ e : K * V, e.1 = k) l).
  - rewrite lookup_insert_ne, IH, filter_cons_False, filter_nil by done. simpl. by rewrite app_nil_r.
Qed.

Lemma elem_of_group_of {K V} `{Countable K} (l : list (K * V)) k v : v ∈ group_of k l ↔ (k, v) ∈ l.
Proof.
  unfold group_of. rewrite list_elem_of_fmap. setoid_rewrite list_elem_of_filter. split.
  - intros ([k' v'] & -> & <- & Hin). done.
  - intros Hin. by exists (k, v).
Qed.

(** [sort_by_key] on pairs whose key is the first component; the sort is stable. *)
Definition key_le {A} (a b : N * A) : Prop := (a.1 ≤ b.1)%N.
#[global] Instance key_le_dec {A} (a b : N * A) : Decision (key_le a b).
Proof. unfold key_le. apply _. Defined.

Definition sort_by_key {A} (l : list (N * A)) : list (N * A) := sort_by key_le l.

Lemma sorted_entries {A} (l : list (N * A)) : sort_by_key l ≡ₚ l.
Proof. apply sort_by_Permutation. Qed.

(** A [BTreeMap] is a finite map that iterates in ascending key order. *)
Definition btree_iter {A} (m : gmap N A) : list (N * A) := sort_by_key (map_to_list m).

Lemma elem_of_btree_iter {A} (m : gmap N A) k a : (k, a) ∈ btree_iter m ↔ m !! k = Some a.
Proof. unfold btree_iter. by rewrite sorted_entries, elem_of_map_to_list. Qed.

Lemma btree_iter_nodup {A} (m : gmap N A) : NoDup (btree_iter m).*1.
Proof. unfold btree_iter. rewrite sorted_entries. apply NoDup_fst_map_to_list. Qed.

#[local] Instance key_le_trans {A} : Transitive (@key_le A).
Proof. intros x y z. unfold key_le. lia. Qed.
#[local] Instance key_le_total {A} : Total (@key_le A).
Proof. intros x y. unfold key_le. lia. Qed.

(** The keys come out strictly ascending, so they depend on the domain alone. *)
Lemma btree_iter_keys {A B} (m1 : gmap N A) (m2 : gmap N B) :
  dom m1 = dom m2 → (btree_iter m1).*1 = (btree_iter m2).*1.
Proof.
  intros Hd.
  assert (Hs : ∀ {C} (m : gmap N C), StronglySorted N.le (btree_iter m).*1).
  { intros C m. pose proof (StronglySorted_sort_by key_le (map_to_list m)) as Hs.
    unfold btree_iter, sort_by_key. induction Hs as [|x l _ IH Hx]; [constructor|].
    constructor; [done|]. apply Forall_fmap. eapply Forall_impl; [exact Hx|]. done. }
  apply (StronglySorted_unique N.le); [apply Hs|apply Hs|].
  apply NoDup_Permutation; [apply btree_iter_nodup..|]. intros k.
  assert (Hk : ∀ {C} (m : gmap N C), k ∈ (btree_iter m).*1 ↔ k ∈ dom m).
  { intros C m. rewrite list_elem_of_fmap, elem_of_dom. split.
    - intros ([k' a] & -> & Hin%elem_of_btree_iter). by exists a.
    - intros [a Ha]. exists (k, a). by rewrite elem_of_btree_iter. }
  by rewrite !Hk, Hd.
Qed.

(** ** A multiply-add fold over pairs

    query.rs and snapshot.rs hash a sequence of pairs by the same fold. *)

Definition pair_hash_multiplier : N := 0x100000001b3.
Definition pair_hash_inverse : N := 14886173955864302971.
Definition pair_hash_offset : N := 0xcbf29ce484222325.

Definition pair_hash_step (acc : N) (entry : N * N) : N :=
  u64_add (u64_mul (u64_add (u64_mul acc pair_hash_multiplier) entry.1) pair_hash_multiplier) entry.2.

Definition pair_hash (entries : list (N * N)) : N :=
  fold_left pair_hash_step entries pair_hash_offset.

Lemma pair_hash_mul_inj x y :
  in_u64 x → in_u64 y → u64_mul x pair_hash_multiplier = u64_mul y pair_hash_multiplier → x = y.
Proof.
  assert (Hinv : ∀ z, in_u64 z → u64_mul (u64_mul z pair_hash_multiplier) pair_hash_inverse = z).
  { intros z Hz. unfold u64_mul. rewrite N.Div0.mul_mod_idemp_l, <-N.mul_assoc.
    rewrite <-N.Div0.mul_mod_idemp_r.
    replace ((pair_hash_multiplier * pair_hash_inverse) mod u64_modulus)%N with 1%N
      by (vm_compute; reflexivity).
    rewrite N.mul_1_r. by apply N.mod_small. }
  intros Hx Hy E. by rewrite <-(Hinv x Hx), E, Hinv.
Qed.

Lemma u64_add_inj_l a b c : in_u64 b → in_u64 c → u64_add a b = u64_add a c → b = c.
Proof.
  unfold in_u64, u64_add, u64_modulus. intros Hb Hc E.
  pose proof (N.div_mod' (a + b) 18446744073709551616). pose proof (N.div_mod' (a + c) 18446744073709551616).
  rewrite E in *. nia.
Qed.

Lemma u64_add_inj_r a b c : in_u64 a → in_u64 b → u64_add a c = u64_add b c → a = b.
Proof.
  intros Ha Hb E. apply (u64_add_inj_l c); [done|done|]. unfold u64_add in *.
  by rewrite !(N.add_comm c).
Qed.

Definition pair_in_u64 (e : N * N) : Prop := in_u64 e.1 ∧ in_u64 e.2.

Lemma pair_hash_step_in acc e : in_u64 (pair_hash_step acc e).
Proof. apply u64_add_in. Qed.

Lemma pair_hash_step_inj_acc a b e :
  in_u64 a → in_u64 b → pair_hash_step a e = pair_hash_step b e → a = b.
Proof.
  unfold pair_hash_step. intros Ha Hb E.
  apply u64_add_inj_r, pair_hash_mul_inj, u64_add_inj_r, pair_hash_mul_inj in E;
    auto with lifecycle.
Qed.

Lemma pair_hash_fold_inj_acc es a b :
  in_u64 a → in_u64 b → fold_left pair_hash_step es a = fold_left pair_hash_step es b → a = b.
Proof.
  revert a b. induction es as [|e es IH]; intros a b Ha Hb E; [done|]. simpl in E.
  apply IH in E; [|apply pair_hash_step_in..]. by eapply pair_hash_step_inj_acc.
Qed.

Lemma pair_hash_fold_in es a : in_u64 a → in_u64 (fold_left pair_hash_step es a).
Proof.
  revert a. induction es as [|e es IH]; intros a Ha; [done|]. simpl. apply IH, pair_hash_step_in.
Qed.

(** Replacing one half of one pair always changes the hash. *)
Lemma pair_hash_inj pre post e e' :
  pair_in_u64 e → pair_in_u64 e' → e.1 = e'.1 ∨ e.2 = e'.2 →
  pair_hash (pre ++ e :: post) = pair_hash (pre ++ e' :: post) → e = e'.
Proof.
  intros [He1 He2] [He1' He2'] Hor E. unfold pair_hash in E. rewrite !fold_left_app in E. simpl in E.
  apply pair_hash_fold_inj_acc in E; [|apply pair_hash_step_in..].
  destruct e as [x y], e' as [x' y']. simpl in *. unfold pair_hash_step in E. simpl in E.
  destruct Hor as [<-|<-]; f_equal.
  - by apply u64_add_inj_l in E.
  - apply u64_add_inj_r, pair_hash_mul_inj, u64_add_inj_l in E; auto with lifecycle.
Qed.

(** The iteration read off the keys. *)
Lemma btree_iter_by_keys (m : gmap N N) :
  btree_iter m = (λ k, (k, default 0%N (m !! k))) <$> (btree_iter m).*1.
Proof.
  rewrite <-list_fmap_compose.
  assert (H : ∀ x, x ∈ btree_iter m → x = ((λ k, (k, default 0%N (m !! k))) ∘ fst) x).
  { intros [k a] Ha%elem_of_btree_iter. simpl. by rewrite Ha. }
  induction (btree_iter m) as [|x l IH]; [done|]. rewrite fmap_cons, <-IH.
  - f_equal. apply H. apply list_elem_of_here.
  - intros y Hy. apply H. by right.
Qed.

(** Updating a present key changes one pair of the iteration, in place. *)
Lemma btree_iter_update (m : gmap N N) k a b :
  m !! k = Some a →
  ∃ pre post, btree_iter m = pre ++ (k, a) :: post ∧ btree_iter (<[k := b]> m) = pre ++ (k, b) :: post.
Proof.
  intros Hk. assert (Hd : dom (<[k := b]> m) = dom m).
  { rewrite dom_insert_L. apply elem_of_dom_2 in Hk. set_solver. }
  rewrite (btree_iter_by_keys m), (btree_iter_by_keys (<[k := b]> m)), (btree_iter_keys _ _ Hd).
  pose proof (btree_iter_nodup m) as Hnd. apply elem_of_btree_iter in Hk as Hin.
  apply (list_elem_of_fmap_2 fst) in Hin. simpl in Hin.
  apply list_elem_of_split in Hin as (pre & post & E). rewrite E in *.
  apply NoDup_app in Hnd as (_ & Hpre & [Hpost _]%NoDup_cons).
  set (f := λ k, (k, default 0%N (m !! k))).
  set (f' := λ k', (k', default 0%N (<[k := b]> m !! k'))).
  assert (Hf : ∀ l : list N, k ∉ l → f' <$> l = f <$> l).
  { intros l Hl. apply list_fmap_ext. intros i x Hx. unfold f, f'.
    rewrite lookup_insert_ne; [done|]. intros ->. apply Hl. by eapply list_elem_of_lookup_2. }
  exists (f <$> pre), (f <$> post). rewrite !fmap_app, !fmap_cons, !Hf.
  - unfold f at 2, f'. rewrite Hk, lookup_insert_eq. done.
  - done.
  - intros Hin. apply (Hpre _ Hin). apply list_elem_of_here.
Qed.
