(* ===== verification/Float.v ===== *)
(** * Rust's floating-point numbers

    [f32] and [f64] as the binary formats of the Standard Library's [SpecFloat], which
    computes with exact integers and rounds to nearest even as the hardware does.  A
    literal such as [0.30] is the correctly rounded quotient of two small integers.

    [partial_cmp] is not an order in the presence of a NaN.  The lemmas of this file say
    when a stable sort by a float is well defined: when no key is a NaN, a comparison by
    [partial_cmp] is a comparison of ranks. *)

From Stdlib Require Import Lia ZArith Floats.SpecFloat.
From stdpp Require Import base list numbers option sorting.
From S2P Require Import Prelude.

#[global] Set Default Goal Selector "!".

Notation float := spec_float.

#[global] Instance float_eq_dec : EqDecision float.
Proof. solve_decision. Defined.

(** ** Operations *)

Record FloatFormat := mkFormat { prec : Z; emax : Z }.

Definition binary32 : FloatFormat := mkFormat 24 128.
Definition binary64 : FloatFormat := mkFormat 53 1024.

Section format.
Context (F : FloatFormat).

(** [n as f32] and [n as f64]. *)
Definition of_int (n : Z) : float := binary_normalize (prec F) (emax F) n 0 false.
(** A decimal literal, as a fraction of integers that are exact in the format. *)
Definition literal (num den : Z) : float := SFdiv (prec F) (emax F) (of_int num) (of_int den).
Definition fadd : float → float → float := SFadd (prec F) (emax F).
Definition fmul : float → float → float := SFmul (prec F) (emax F).
Definition fdiv : float → float → float := SFdiv (prec F) (emax F).
Definition fsub : float → float → float := SFsub (prec F) (emax F).
End format.

Definition fzero : float := S754_zero false.
Definition is_nan (x : float) : bool := match x with S754_nan => true | _ => false end.
Definition partial_cmp : float → float → option comparison := SFcompare.

Definition is_finite (x : float) : bool := match x with S754_zero _ | S754_finite _ _ _ => true | _ => false end.
Definition flt (x y : float) : bool := bool_decide (partial_cmp x y = Some Lt).

(** [f64::from] on an [f32]. *)
Definition widen (x : float) : float :=
  match x with
  | S754_finite s m e => binary_normalize (prec binary64) (emax binary64) (cond_Zopp s (Zpos m)) e s
  | _ => x
  end.

(** [max], [min] return the other operand when one is a NaN; [clamp] keeps a NaN. *)
Definition fmax (x y : float) : float :=
  if is_nan x then y else if is_nan y then x
  else if decide (partial_cmp x y = Some Lt) then y else x.
Definition fmin (x y : float) : float :=
  if is_nan x then y else if is_nan y then x
  else if decide (partial_cmp x y = Some Gt) then y else x.
Definition clamp (lo hi x : float) : float :=
  if decide (partial_cmp x lo = Some Lt) then lo
  else if decide (partial_cmp x hi = Some Gt) then hi else x.

(** [a.partial_cmp(b).unwrap_or(Ordering::Equal)]. *)
Definition cmp_or_equal (x y : float) : comparison := default Eq (partial_cmp x y).

(** ** Ranks *)

Definition lex (c d : comparison) : comparison := match c with Eq => d | _ => c end.

(** Sign class, exponent and mantissa, negated below zero. *)
Definition rank (x : float) : Z * Z * Z :=
  match x with
  | S754_nan => (3, 0, 0)
  | S754_infinity true => (-2, 0, 0)
  | S754_infinity false => (2, 0, 0)
  | S754_zero _ => (0, 0, 0)
  | S754_finite true m e => (-1, - e, Zneg m)
  | S754_finite false m e => (1, e, Zpos m)
  end%Z.

Definition rank_cmp (a b : Z * Z * Z) : comparison :=
  lex (Z.compare a.1.1 b.1.1) (lex (Z.compare a.1.2 b.1.2) (Z.compare a.2 b.2)).

Lemma partial_cmp_rank x y :
  is_nan x = false → is_nan y = false → partial_cmp x y = Some (rank_cmp (rank x) (rank y)).
Proof.
  unfold rank_cmp, partial_cmp. destruct x as [[]|[]| |[] m1 e1], y as [[]|[]| |[] m2 e2]; try done;
    intros _ _; simpl; f_equal.
  - rewrite (Z.compare_opp e1 e2), (Z.compare_antisym e1 e2). unfold Pos.compare. by destruct (e1 ?= e2)%Z.
  - unfold Pos.compare. by destruct (e1 ?= e2)%Z.
Qed.

Lemma rank_cmp_spec a b :
  match rank_cmp a b with
  | Eq => a = b
  | Lt => (a.1.1 < b.1.1 ∨ a.1.1 = b.1.1 ∧ (a.1.2 < b.1.2 ∨ a.1.2 = b.1.2 ∧ a.2 < b.2))%Z
  | Gt => (b.1.1 < a.1.1 ∨ b.1.1 = a.1.1 ∧ (b.1.2 < a.1.2 ∨ b.1.2 = a.1.2 ∧ b.2 < a.2))%Z
  end.
Proof.
  destruct a as [[a b'] c], b as [[a2 b2] c2]. unfold rank_cmp. simpl.
  destruct (Z.compare_spec a a2); simpl; [|lia..].
  destruct (Z.compare_spec b' b2); simpl; [|lia..].
  destruct (Z.compare_spec c c2); simpl; [by subst|lia..].
Qed.

(** [b] does not come before [a] when the greater key comes first. *)
Definition key_ge (r s : Z * Z * Z) : Prop := rank_cmp s r ≠ Gt.
Definition rank_ge (x y : float) : Prop := key_ge (rank x) (rank y).

#[global] Instance key_ge_dec : RelDecision key_ge.
Proof. unfold key_ge. intros r s. apply _. Defined.
#[global] Instance key_ge_total : Total key_ge.
Proof.
  intros r s. unfold key_ge. pose proof (rank_cmp_spec s r) as H1. pose proof (rank_cmp_spec r s) as H2.
  destruct (rank_cmp s r), (rank_cmp r s); auto. lia.
Qed.
#[global] Instance key_ge_trans : Transitive key_ge.
Proof.
  intros x y z. unfold key_ge. pose proof (rank_cmp_spec y x) as H1.
  pose proof (rank_cmp_spec z y) as H2. pose proof (rank_cmp_spec z x) as H3.
  destruct (rank_cmp z x); [done..|].
  destruct (rank_cmp y x), (rank_cmp z y); subst; try done; lia.
Qed.
#[global] Instance key_ge_antisymm : AntiSymm (=) key_ge.
Proof.
  intros x y. unfold key_ge. pose proof (rank_cmp_spec y x) as H1. pose proof (rank_cmp_spec x y) as H2.
  destruct (rank_cmp y x), (rank_cmp x y); try done. lia.
Qed.

#[global] Instance rank_ge_dec x y : Decision (rank_ge x y).
Proof. unfold rank_ge. apply _. Defined.
#[global] Instance rank_ge_total : Total rank_ge.
Proof. intros x y. unfold rank_ge. apply (total key_ge). Qed.
#[global] Instance rank_ge_trans : Transitive rank_ge.
Proof. intros x y z. unfold rank_ge. apply transitivity. Qed.

Lemma cmp_or_equal_rank x y :
  is_nan x = false → is_nan y = false → cmp_or_equal x y = rank_cmp (rank x) (rank y).
Proof. intros Hx Hy. unfold cmp_or_equal. by rewrite partial_cmp_rank. Qed.

(** ** Results that are numbers *)

Section rounding.
Context (F : FloatFormat).

Lemma shr_1_nonneg r : (0 ≤ shr_m r)%Z → (0 ≤ shr_m (shr_1 r))%Z.
Proof. destruct r as [[|[]|] ? ?]; simpl; lia. Qed.

Lemma shr_fexp_nonneg m e loc : (0 ≤ m)%Z → (0 ≤ shr_m (shr_fexp (prec F) (emax F) m e loc).1)%Z.
Proof.
  intros Hm. unfold shr_fexp, shr.
  assert (0 ≤ shr_m (shr_record_of_loc m loc))%Z as H0 by (by destruct loc as [|[]]).
  destruct (fexp _ _ _ - e)%Z as [|n|]; [done| |done]. simpl. revert H0. generalize (shr_record_of_loc m loc). intros r Hr.
  revert r Hr. induction n as [n IH|n IH|]; intros r Hr; simpl; auto using shr_1_nonneg.
Qed.

Lemma round_nearest_even_nonneg m loc : (0 ≤ m)%Z → (0 ≤ round_nearest_even m loc)%Z.
Proof. unfold round_nearest_even. intros. repeat case_match; lia. Qed.

Lemma binary_round_aux_number s m e loc : (0 ≤ m)%Z → is_nan (binary_round_aux (prec F) (emax F) s m e loc) = false.
Proof.
  intros Hm. unfold binary_round_aux. pose proof (shr_fexp_nonneg m e loc Hm) as H1.
  destruct (shr_fexp _ _ m e loc) as [r1 e1]. simpl in H1.
  pose proof (shr_fexp_nonneg (round_nearest_even (shr_m r1) (loc_of_shr_record r1)) e1 loc_Exact
                (round_nearest_even_nonneg _ _ H1)) as H2.
  destruct (shr_fexp _ _ _ e1 loc_Exact) as [r2 e2]. simpl in H2.
  destruct (shr_m r2) eqn:E; [done| |lia]. by case_match.
Qed.

Lemma binary_round_number s m e : is_nan (binary_round (prec F) (emax F) s m e) = false.
Proof. unfold binary_round. case_match. by apply binary_round_aux_number. Qed.

Lemma binary_normalize_number m e s : is_nan (binary_normalize (prec F) (emax F) m e s) = false.
Proof. unfold binary_normalize. destruct m; [done|apply binary_round_number..]. Qed.

Lemma fmul_number x y : is_finite x = true → is_finite y = true → is_nan (fmul F x y) = false.
Proof.
  intros Hx Hy. destruct x, y; try done. apply binary_round_aux_number. lia.
Qed.

Lemma fadd_number x y : is_finite x = true → is_nan y = false → is_nan (fadd F x y) = false.
Proof.
  intros Hx Hy. destruct x as [[]| | |], y as [[]| | |]; try done. apply binary_normalize_number.
Qed.
End rounding.
