(* ===== verification/Text.v ===== *)
(** * Rust's string slices

    A [&str] is its UTF-8 bytes.  The searches and splits of the standard library work on
    the bytes, because a pattern that is valid UTF-8 only matches at character
    boundaries; trimming strips the encodings of the characters that Unicode calls white
    space.  Strings are ordered by their bytes. *)

From Stdlib Require Import Lia Strings.Byte Wf_nat.
From stdpp Require Import base gmap sets list strings numbers option sorting.
From S2P Require Import Prelude Slices.

#[global] Set Default Goal Selector "!".

Definition bs (s : string) : list byte := String.list_byte_of_string s.

(** ** Order *)

Definition byte_le (a b : byte) : Prop := (Byte.to_N a ≤ Byte.to_N b)%N.

#[global] Instance byte_le_dec : RelDecision byte_le.
Proof. unfold byte_le. intros a b. apply _. Defined.
#[global] Instance byte_le_total : Total byte_le.
Proof. intros a b. unfold byte_le. lia. Qed.

Lemma byte_to_N_inj a b : Byte.to_N a = Byte.to_N b → a = b.
Proof. intros E. apply (f_equal Byte.of_N) in E. rewrite !Byte.of_to_N in E. congruence. Qed.

#[global] Instance byte_le_po : PartialOrder byte_le.
Proof.
  unfold byte_le. split; [split|].
  - intros a. lia.
  - intros a b c. lia.
  - intros a b ? ?. apply byte_to_N_inj. lia.
Qed.

Notation str_le := (lex_le byte_le).

Definition str_lt (a b : list byte) : Prop := str_le a b ∧ a ≠ b.

#[global] Instance str_lt_dec : RelDecision str_lt.
Proof. unfold str_lt. intros a b. apply _. Defined.
#[global] Instance str_lt_strict : StrictOrder str_lt.
Proof.
  unfold str_lt. split; [intros a [_ ?]; done|]. intros a b c [H1 N1] [H2 N2].
  split; [by etrans|]. intros ->. apply N1. by apply (anti_symm str_le).
Qed.
#[global] Instance str_lt_trichotomy : Trichotomy str_lt.
Proof.
  unfold str_lt. intros a b. destruct (decide (a = b)) as [|Hne]; [auto|].
  destruct (total str_le a b); [left|right; right]; split; done || congruence.
Qed.

(** ** Prefixes and suffixes *)

Fixpoint strip_prefix (p s : list byte) : option (list byte) :=
  match p, s with
  | [], _ => Some s
  | a :: p, b :: s => if decide (a = b) then strip_prefix p s else None
  | _ :: _, [] => None
  end.

Definition strip_suffix (p s : list byte) : option (list byte) :=
  reverse <$> strip_prefix (reverse p) (reverse s).

Definition starts_with (p s : list byte) : bool := bool_decide (is_Some (strip_prefix p s)).
Definition ends_with (p s : list byte) : bool := bool_decide (is_Some (strip_suffix p s)).

Lemma strip_prefix_Some p s r : strip_prefix p s = Some r ↔ s = p ++ r.
Proof.
  revert s. induction p as [|a p IH]; intros s; simpl; [naive_solver|].
  destruct s as [|b s]; [naive_solver|]. case_decide as E; [subst; rewrite IH; naive_solver|naive_solver].
Qed.

Lemma strip_suffix_Some p s r : strip_suffix p s = Some r ↔ s = r ++ p.
Proof.
  unfold strip_suffix. rewrite fmap_Some. split.
  - intros (r' & E%strip_prefix_Some & ->). apply (f_equal reverse) in E.
    by rewrite reverse_involutive, reverse_app, reverse_involutive in E.
  - intros ->. exists (reverse r). by rewrite strip_prefix_Some, reverse_app, reverse_involutive.
Qed.

Lemma starts_with_true p s : starts_with p s = true ↔ ∃ r, s = p ++ r.
Proof.
  unfold starts_with. rewrite bool_decide_eq_true. unfold is_Some. by setoid_rewrite strip_prefix_Some.
Qed.

Lemma ends_with_true p s : ends_with p s = true ↔ ∃ r, s = r ++ p.
Proof.
  unfold ends_with. rewrite bool_decide_eq_true. unfold is_Some. by setoid_rewrite strip_suffix_Some.
Qed.

(** ** Searching *)

(** [find]: the first position at which [pat] matches. *)
Fixpoint find_str (pat s : list byte) : option nat :=
  if starts_with pat s then Some 0
  else match s with [] => None | _ :: s => S <$> find_str pat s end.

(** [rfind]: the last one. *)
Fixpoint rfind_str (pat s : list byte) : option nat :=
  match (match s with [] => None | _ :: s => rfind_str pat s end) with
  | Some i => Some (S i)
  | None => if starts_with pat s then Some 0 else None
  end.

Definition split_once (pat s : list byte) : option (list byte * list byte) :=
  i ← find_str pat s; Some (take i s, drop (i + length pat) s).

Definition rsplit_once (pat s : list byte) : option (list byte * list byte) :=
  i ← rfind_str pat s; Some (take i s, drop (i + length pat) s).

(** [rsplit(pat).next()]: what follows the last match, or everything. *)
Definition rsplit_last (pat s : list byte) : list byte :=
  match rsplit_once pat s with Some (_, r) => r | None => s end.

(** [split(pat).next()]: what precedes the first match, or everything. *)
Definition split_first (pat s : list byte) : list byte :=
  match split_once pat s with Some (l, _) => l | None => s end.

(** [split] at every byte that satisfies a predicate. *)
Fixpoint split_bytes (f : byte → bool) (s : list byte) : list (list byte) :=
  match s with
  | [] => [[]]
  | b :: s =>
      if f b then [] :: split_bytes f s
      else match split_bytes f s with [] => [[b]] | l :: ls => (b :: l) :: ls end
  end.

(** ** White space *)

(** The encodings of the characters with the property [White_Space]. *)
Definition whitespace_chars : list (list byte) :=
  [[x09]; [x0a]; [x0b]; [x0c]; [x0d]; [x20]; [xc2; x85]; [xc2; xa0]; [xe1; x9a; x80];
   [xe2; x80; x80]; [xe2; x80; x81]; [xe2; x80; x82]; [xe2; x80; x83]; [xe2; x80; x84]; [xe2; x80; x85];
   [xe2; x80; x86]; [xe2; x80; x87]; [xe2; x80; x88]; [xe2; x80; x89]; [xe2; x80; x8a]; [xe2; x80; xa8];
   [xe2; x80; xa9]; [xe2; x80; xaf]; [xe2; x81; x9f]; [xe3; x80; x80]].

Definition strip_one (cs : list (list byte)) (s : list byte) : option (list byte) :=
  head (omap (λ c, strip_prefix c s) cs).

Fixpoint trim_loop (fuel : nat) (cs : list (list byte)) (s : list byte) : list byte :=
  match fuel with
  | 0 => s
  | S fuel => match strip_one cs s with Some r => trim_loop fuel cs r | None => s end
  end.

Definition trim_start (s : list byte) : list byte := trim_loop (length s) whitespace_chars s.
Definition trim_end (s : list byte) : list byte :=
  reverse (trim_loop (length s) (reverse <$> whitespace_chars) (reverse s)).
Definition trim (s : list byte) : list byte := trim_start (trim_end s).

(** Trimming stops only where no white space is left to strip. *)
Lemma strip_one_shorter cs s r : [] ∉ cs → strip_one cs s = Some r → length r < length s.
Proof.
  unfold strip_one. intros Hn Hh.
  assert (Hin : r ∈ omap (λ c, strip_prefix c s) cs) by (destruct (omap _ cs); simplify_eq/=; left).
  apply list_elem_of_omap in Hin as (c & Hc & Hr%strip_prefix_Some). subst s. rewrite length_app.
  destruct c; [done|simpl; lia].
Qed.

Lemma trim_loop_done fuel cs s :
  [] ∉ cs → length s ≤ fuel → strip_one cs (trim_loop fuel cs s) = None.
Proof.
  intros Hn. revert s. induction fuel as [|fuel IH]; intros s Hlen; simpl.
  - destruct s; [|simpl in Hlen; lia]. destruct (strip_one cs []) as [r|] eqn:E; [|done].
    apply strip_one_shorter in E; [simpl in E; lia|done].
  - destruct (strip_one cs s) as [r|] eqn:E; [|done]. apply IH.
    apply strip_one_shorter in E; [lia|done].
Qed.

Lemma trim_start_done s : strip_one whitespace_chars (trim_start s) = None.
Proof. apply trim_loop_done; [|done]. apply (bool_decide_eq_true_1 _). vm_compute. reflexivity. Qed.

Lemma strip_one_None cs s : strip_one cs s = None ↔ ∀ c, c ∈ cs → strip_prefix c s = None.
Proof.
  unfold strip_one. induction cs as [|c cs IH]; simpl; [split; [by intros _ c ?%elem_of_nil|done]|].
  destruct (strip_prefix c s) as [r|] eqn:E; simpl.
  - split; [done|]. intros H. specialize (H c ltac:(left)). congruence.
  - rewrite IH. split; [|intros H d ?; apply H; by right]. intros H d [->|?]%elem_of_cons; auto.
Qed.

Lemma trim_loop_suffix fuel cs s : ∃ pre, s = pre ++ trim_loop fuel cs s.
Proof.
  revert s. induction fuel as [|fuel IH]; intros s; simpl; [by exists []|].
  destruct (strip_one cs s) as [r|] eqn:E; [|by exists []]. unfold strip_one in E.
  assert (Hin : r ∈ omap (λ c, strip_prefix c s) cs) by (destruct (omap _ cs); simplify_eq/=; left).
  apply list_elem_of_omap in Hin as (c & _ & ->%strip_prefix_Some).
  destruct (IH r) as [pre E']. exists (c ++ pre). by rewrite <-app_assoc, <-E'.
Qed.

Lemma trim_loop_id fuel cs s : strip_one cs s = None → trim_loop fuel cs s = s.
Proof. intros H. destruct fuel; simpl; [done|]. by rewrite H. Qed.

Lemma trim_idemp s : trim (trim s) = trim s.
Proof.
  assert (Hend : strip_one (reverse <$> whitespace_chars) (reverse (trim s)) = None).
  { assert (He : strip_one (reverse <$> whitespace_chars) (reverse (trim_end s)) = None).
    { unfold trim_end. rewrite reverse_involutive. apply trim_loop_done; [|by rewrite length_reverse].
      apply (bool_decide_eq_true_1 _). vm_compute. reflexivity. }
    apply strip_one_None. intros c Hc. destruct (strip_prefix c (reverse (trim s))) as [r|] eqn:E; [|done].
    apply strip_prefix_Some in E. destruct (trim_loop_suffix (length (trim_end s)) whitespace_chars (trim_end s)) as [pre Ep].
    fold (trim_start (trim_end s)) in Ep. fold (trim s) in Ep.
    apply (f_equal reverse) in Ep. rewrite reverse_app, E, <-app_assoc in Ep.
    rewrite strip_one_None in He. specialize (He c Hc). rewrite Ep in He.
    rewrite (proj2 (strip_prefix_Some c _ _) eq_refl) in He. done. }
  assert (E : trim_end (trim s) = trim s).
  { unfold trim_end. rewrite (trim_loop_id _ _ _ Hend). apply reverse_involutive. }
  unfold trim at 1. rewrite E. unfold trim_start. apply trim_loop_id. apply trim_start_done.
Qed.

(** [trim_start_matches] and [trim_end_matches] of one ASCII character. *)
Fixpoint trim_start_matches (c : byte) (s : list byte) : list byte :=
  match s with
  | b :: rest => if decide (b = c) then trim_start_matches c rest else s
  | [] => []
  end.
Definition trim_end_matches (c : byte) (s : list byte) : list byte := reverse (trim_start_matches c (reverse s)).

(** [is_ascii_whitespace]: space, tab, line feed, form feed, carriage return. *)
Definition is_ascii_whitespace (b : byte) : bool :=
  bool_decide (b ∈ [x20; x09; x0a; x0c; x0d]).

(** [rposition]: the last index of an element that satisfies a predicate. *)
Fixpoint rposition (f : byte → bool) (s : list byte) : option nat :=
  match s with
  | [] => None
  | b :: s =>
      match rposition f s with
      | Some i => Some (S i)
      | None => if f b then Some 0 else None
      end
  end.

Fixpoint position (f : byte → bool) (s : list byte) : option nat :=
  match s with
  | [] => None
  | b :: s => if f b then Some 0 else S <$> position f s
  end.

(** [slice::join] and [Vec::join]. *)
Fixpoint join (sep : list byte) (l : list (list byte)) : list byte :=
  match l with
  | [] => []
  | [x] => x
  | x :: l => x ++ sep ++ join sep l
  end.

(** ** UTF-8 *)

Definition is_continuation : byte → bool := in_range 128 191.

(** [str::from_utf8] accepts exactly these byte strings. *)
Fixpoint valid_utf8 (s : list byte) : bool :=
  match s with
  | [] => true
  | b0 :: s0 =>
      if in_range 0 127 b0 then valid_utf8 s0 else
      match s0 with
      | [] => false
      | b1 :: s1 =>
          if in_range 194 223 b0 then is_continuation b1 && valid_utf8 s1 else
          match s1 with
          | [] => false
          | b2 :: s2 =>
              if in_range 224 239 b0 then
                (if decide (b0 = xe0) then in_range 160 191 b1
                 else if decide (b0 = xed) then in_range 128 159 b1 else is_continuation b1)
                && is_continuation b2 && valid_utf8 s2
              else
              match s2 with
              | [] => false
              | b3 :: s3 =>
                  in_range 240 244 b0
                  && (if decide (b0 = xf0) then in_range 144 191 b1
                      else if decide (b0 = xf4) then in_range 128 143 b1 else is_continuation b1)
                  && is_continuation b2 && is_continuation b3 && valid_utf8 s3
              end
          end
      end
  end.

Definition from_utf8 (s : list byte) : option (list byte) := if valid_utf8 s then Some s else None.

Definition is_char_boundary (s : list byte) (n : nat) : bool :=
  bool_decide (n = 0 ∨ n = length s)
  || match s !! n with Some b => negb (is_continuation b) | None => false end.

(** [chars().take(n)]. *)
Fixpoint take_chars (n : nat) (s : list byte) : list byte :=
  match s with
  | [] => []
  | b :: rest =>
      if is_continuation b then b :: take_chars n rest
      else match n with 0 => [] | S n => b :: take_chars n rest end
  end.

(** [chars().count()], and the offset of character [n] that [char_indices().nth(n)] yields. *)
Definition count_chars (s : list byte) : nat := length (filter (λ b, is_continuation b = false) s).
Fixpoint char_offset (n : nat) (s : list byte) : option nat :=
  match s with
  | [] => None
  | b :: rest =>
      if is_continuation b then S <$> char_offset n rest
      else match n with 0 => Some 0 | S n => S <$> char_offset n rest end
  end.

(** [&s[..n]] on a string panics inside a character; on bytes only past the end. *)
Definition str_prefix (s : list byte) (n : nat) : Outcome (list byte) :=
  if is_char_boundary s n then Done (take n s) else Panic.
Definition slice_to (s : list byte) (n : nat) : Outcome (list byte) :=
  if decide (n ≤ length s) then Done (take n s) else Panic.

(** ** Lines *)

Definition is_newline (b : byte) : bool := bool_decide (b = x0a).
Definition strip_cr (s : list byte) : list byte := default s (strip_suffix [x0d] s).

Fixpoint lines_of (parts : list (list byte)) : list (list byte) :=
  match parts with
  | [] => []
  | [l] => if decide (l = []) then [] else [l]
  | l :: parts => strip_cr l :: lines_of parts
  end.

(** [str::lines]. *)
Definition lines (s : list byte) : list (list byte) := lines_of (split_bytes is_newline s).

(** ** Matches

    [match_indices]: the leftmost matches that do not overlap; the empty pattern matches at
    every character boundary. *)
Fixpoint match_loop (fuel pos : nat) (pat s : list byte) : list nat :=
  match fuel with
  | 0 => []
  | S fuel =>
      match find_str pat s with
      | Some i => (pos + i) :: match_loop fuel (pos + i + length pat) pat (drop (i + length pat) s)
      | None => []
      end
  end.

Definition match_indices (pat s : list byte) : list nat :=
  if decide (pat = []) then filter (λ n, Is_true (is_char_boundary s n)) (seq 0 (S (length s)))
  else match_loop (S (length s)) 0 pat s.

(** [replace] and [replacen]: the given matches of a pattern of length [n] are replaced. *)
Fixpoint replace_at (last : nat) (ms : list nat) (n : nat) (to s : list byte) : list byte :=
  match ms with
  | [] => drop last s
  | m :: ms => take (m - last) (drop last s) ++ to ++ replace_at (m + n) ms n to s
  end.

(** ** Facts *)

Lemma find_str_bound pat s i : find_str pat s = Some i → i + length pat ≤ length s.
Proof.
  revert i. induction s as [|b s IH]; intros i; simpl.
  - destruct (starts_with pat []) eqn:E; [|done]. intros [= <-]. apply starts_with_true in E as [r E].
    apply (f_equal length) in E. rewrite length_app in E. simpl in E. lia.
  - destruct (starts_with pat (b :: s)) eqn:E.
    + intros [= <-]. apply starts_with_true in E as [r E]. apply (f_equal length) in E.
      rewrite length_app in E. simpl in E. lia.
    + intros (k & Hk & ->)%fmap_Some. specialize (IH k Hk). lia.
Qed.

Lemma find_str_Some pat s i :
  find_str pat s = Some i → s = take i s ++ pat ++ drop (i + length pat) s ∧ find_str pat (take i s) = None ∨
  find_str pat s = Some i ∧ pat = [].
Proof.
  destruct (decide (pat = [])) as [->|Hp]; [by right|]. intros H. left. revert i H.
  induction s as [|b s IH]; intros i; simpl.
  - destruct (starts_with pat []) eqn:E; [|done]. apply starts_with_true in E as [r E].
    symmetry in E. apply app_eq_nil in E as [-> _]. done.
  - destruct (starts_with pat (b :: s)) eqn:E.
    + intros [= <-]. apply starts_with_true in E as [r E]. simpl. split.
      * rewrite E at 1. f_equal. rewrite E, drop_app_length. done.
      * destruct (starts_with pat []) eqn:E'; [|done]. apply starts_with_true in E' as [r' E'].
        symmetry in E'. by apply app_eq_nil in E' as [-> _].
    + intros (k & Hk & ->)%fmap_Some. destruct (IH k Hk) as [H1 H2]. simpl. split; [by f_equal|].
      destruct (starts_with pat (b :: take k s)) eqn:E'; [|by rewrite H2].
      apply starts_with_true in E' as [r E']. assert (Hc : starts_with pat (b :: s) = true); [|congruence].
      apply starts_with_true. exists (r ++ drop k s). rewrite app_assoc, <-E'. simpl. by rewrite take_drop.
Qed.

Lemma join_cons2 sep a b ps : join sep (a :: b :: ps) = a ++ sep ++ join sep (b :: ps).
Proof. done. Qed.

Lemma join_app pat ps1 ps2 :
  ps1 ≠ [] → ps2 ≠ [] → join pat (ps1 ++ ps2) = join pat ps1 ++ pat ++ join pat ps2.
Proof.
  intros Hn1 Hn2. induction ps1 as [|a [|b ps1] IH]; [done| |].
  - by destruct ps2.
  - change ((a :: b :: ps1) ++ ps2) with (a :: b :: (ps1 ++ ps2)). rewrite !join_cons2.
    change (b :: ps1 ++ ps2) with ((b :: ps1) ++ ps2). rewrite IH by done. by rewrite <-!app_assoc.
Qed.

Lemma split_bytes_nonempty f s : split_bytes f s ≠ [].
Proof. destruct s as [|b s]; simpl; [done|]. destruct (f b); [done|]. by destruct (split_bytes f s). Qed.

(** Splitting at a byte and joining with it gives the string back. *)
Lemma join_split c s : join [c] (split_bytes (λ b, bool_decide (b = c)) s) = s.
Proof.
  induction s as [|b s IH]; [done|]. cbn [split_bytes]. pose proof (split_bytes_nonempty (λ b, bool_decide (b = c)) s) as Hn.
  case_bool_decide as E.
  - subst b. destruct (split_bytes _ s) as [|l ls]; [done|]. by rewrite join_cons2, IH.
  - destruct (split_bytes _ s) as [|l ls]; [done|]. destruct ls as [|k ls]; [simpl in *; by rewrite IH|].
    rewrite join_cons2 in *. by rewrite <-IH.
Qed.

Lemma split_bytes_clean f s : Forall (Forall (λ b, f b = false)) (split_bytes f s).
Proof.
  induction s as [|b s IH]; simpl; [by repeat constructor|]. destruct (f b) eqn:E; [by constructor|].
  destruct (split_bytes f s) as [|l ls]; [by repeat constructor|]. apply Forall_cons in IH as [Hl Hls].
  constructor; [by constructor|done].
Qed.

(** [String::from_utf8_lossy]: each maximal invalid piece becomes U+FFFD. *)
Definition replacement_char : list byte := [xef; xbf; xbd].

Definition second_of_three (b0 b1 : byte) : bool :=
  if decide (b0 = xe0) then in_range 160 191 b1
  else if decide (b0 = xed) then in_range 128 159 b1 else is_continuation b1.

Definition second_of_four (b0 b1 : byte) : bool :=
  if decide (b0 = xf0) then in_range 144 191 b1
  else if decide (b0 = xf4) then in_range 128 143 b1 else is_continuation b1.

Fixpoint from_utf8_lossy (s : list byte) : list byte :=
  match s with
  | [] => []
  | b0 :: s0 =>
      if in_range 0 127 b0 then b0 :: from_utf8_lossy s0
      else if in_range 194 223 b0 then
        match s0 with
        | b1 :: s1 =>
            if is_continuation b1 then b0 :: b1 :: from_utf8_lossy s1
            else replacement_char ++ from_utf8_lossy s0
        | [] => replacement_char
        end
      else if in_range 224 239 b0 then
        match s0 with
        | b1 :: s1 =>
            if second_of_three b0 b1 then
              match s1 with
              | b2 :: s2 =>
                  if is_continuation b2 then b0 :: b1 :: b2 :: from_utf8_lossy s2
                  else replacement_char ++ from_utf8_lossy s1
              | [] => replacement_char
              end
            else replacement_char ++ from_utf8_lossy s0
        | [] => replacement_char
        end
      else if in_range 240 244 b0 then
        match s0 with
        | b1 :: s1 =>
            if second_of_four b0 b1 then
              match s1 with
              | b2 :: s2 =>
                  if is_continuation b2 then
                    match s2 with
                    | b3 :: s3 =>
                        if is_continuation b3 then b0 :: b1 :: b2 :: b3 :: from_utf8_lossy s3
                        else replacement_char ++ from_utf8_lossy s2
                    | [] => replacement_char
                    end
                  else replacement_char ++ from_utf8_lossy s1
              | [] => replacement_char
              end
            else replacement_char ++ from_utf8_lossy s0
        | [] => replacement_char
        end
      else replacement_char ++ from_utf8_lossy s0
  end.

(** [floor_char_boundary] and [ceil_char_boundary]. *)
Fixpoint floor_char_boundary (s : list byte) (n : nat) : nat :=
  if is_char_boundary s n then n else match n with 0 => 0 | S m => floor_char_boundary s m end.
Definition ceil_char_boundary (s : list byte) (n : nat) : nat :=
  n + default 0 (head (filter (λ k, Is_true (is_char_boundary s (n + k))) (seq 0 4))).

(** ** ASCII text survives a lossy decoding *)

Definition ascii_byte (b : byte) : Prop := in_range 0 127 b = true.

Lemma in_range_not_ascii lo hi b : (128 ≤ lo)%N → in_range lo hi b = true → ¬ ascii_byte b.
Proof. unfold ascii_byte, in_range. rewrite !andb_true_iff, !N.leb_le. lia. Qed.

Lemma continuation_byte_not_ascii b : is_continuation b = true → ¬ ascii_byte b.
Proof. apply in_range_not_ascii. lia. Qed.
Lemma second_of_three_not_ascii b0 b1 : second_of_three b0 b1 = true → ¬ ascii_byte b1.
Proof. unfold second_of_three, is_continuation. repeat case_decide; apply in_range_not_ascii; lia. Qed.
Lemma second_of_four_not_ascii b0 b1 : second_of_four b0 b1 = true → ¬ ascii_byte b1.
Proof. unfold second_of_four, is_continuation. repeat case_decide; apply in_range_not_ascii; lia. Qed.

#[local] Ltac lossy_piece :=
  let close := split_and!; [done|done|done|done|right; first [assumption|repeat (constructor; [by eauto using continuation_byte_not_ascii, second_of_three_not_ascii, second_of_four_not_ascii|]); constructor]] in
  match goal with
  | |- ∃ _ _ _, ?s = _ ∧ _ ∧ _ ∧ replacement_char = _ ∧ _ => exists replacement_char, s, []; close
  | |- ∃ _ _ _, ?b :: ?r = _ ∧ _ ∧ _ ∧ replacement_char ++ from_utf8_lossy ?r = _ ∧ _ => exists replacement_char, [b], r; close
  | |- ∃ _ _ _, ?a :: ?b :: ?r = _ ∧ _ ∧ _ ∧ replacement_char ++ from_utf8_lossy ?r = _ ∧ _ =>
      exists replacement_char, [a; b], r; close
  | |- ∃ _ _ _, ?a :: ?b :: ?c :: ?r = _ ∧ _ ∧ _ ∧ replacement_char ++ from_utf8_lossy ?r = _ ∧ _ =>
      exists replacement_char, [a; b; c], r; close
  | |- ∃ _ _ _, ?a :: ?b :: ?r = _ ∧ _ ∧ _ ∧ ?a :: ?b :: from_utf8_lossy ?r = _ ∧ _ => exists [a; b], [a; b], r; close
  | |- ∃ _ _ _, ?a :: ?b :: ?c :: ?r = _ ∧ _ ∧ _ ∧ ?a :: ?b :: ?c :: from_utf8_lossy ?r = _ ∧ _ =>
      exists [a; b; c], [a; b; c], r; close
  | |- ∃ _ _ _, ?a :: ?b :: ?c :: ?d :: ?r = _ ∧ _ ∧ _ ∧ ?a :: ?b :: ?c :: ?d :: from_utf8_lossy ?r = _ ∧ _ =>
      exists [a; b; c; d], [a; b; c; d], r; close
  end.

(** One step of the decoder keeps an ASCII byte, or gives bytes that are not ASCII. *)
Lemma lossy_step s : s ≠ [] →
  ∃ c d s', s = d ++ s' ∧ d ≠ [] ∧ c ≠ [] ∧ from_utf8_lossy s = c ++ from_utf8_lossy s' ∧
    ((∃ b, c = [b] ∧ d = [b]) ∨ Forall (λ b, ¬ ascii_byte b) c).
Proof.
  destruct s as [|b0 s0]; [done|]. intros _. cbn [from_utf8_lossy].
  destruct (in_range 0 127 b0) eqn:E0; [exists [b0], [b0], s0; split_and!; [done|done|done|done|left; eauto]|].
  assert (¬ ascii_byte b0) as H0 by (unfold ascii_byte; congruence).
  assert (Forall (λ b, ¬ ascii_byte b) replacement_char) as Hr by (repeat (constructor; [by vm_compute|]); constructor).
  repeat case_match; subst; try done; lossy_piece.
Qed.

Lemma ascii_lowercase b : ascii_byte (to_ascii_lowercase b) → ascii_byte b.
Proof. unfold ascii_byte. destruct b; vm_compute; done. Qed.

Lemma lossy_prefix t s r :
  Forall ascii_byte t → lowercase (from_utf8_lossy s) = t ++ r → ∃ r', lowercase s = t ++ r'.
Proof.
  revert s. induction t as [|a t IH]; intros s Ht E; [by exists (lowercase s)|]. apply Forall_cons in Ht as [Ha Ht].
  destruct s as [|b s]; [done|]. cbn [from_utf8_lossy] in E. destruct (in_range 0 127 b) eqn:Eb.
  - simpl in E. injection E as Ea E. destruct (IH s Ht E) as [r' Er]. exists r'. simpl. by rewrite Ea, Er.
  - exfalso. destruct (lossy_step (b :: s)) as (c & d & s' & Es & Hd & Hne & El & Hc); [done|].
    cbn [from_utf8_lossy] in El. rewrite Eb in El. rewrite El in E. destruct Hc as [(b' & -> & ->)|Hc].
    + simpl in Es. injection Es as <- <-. unfold lowercase in E. rewrite fmap_app in E. simpl in E.
      injection E as Ea _. rewrite <-Ea in Ha. apply ascii_lowercase in Ha. unfold ascii_byte in Ha. congruence.
    + destruct c as [|b' c]; [done|]. simpl in E. injection E as Ea _. rewrite <-Ea in Ha.
      apply ascii_lowercase in Ha. by apply Forall_cons in Hc as [Hc _].
Qed.

Lemma app_shorter {A} (c x u y : list A) :
  c ++ x = u ++ y → (∃ u', u = c ++ u' ∧ x = u' ++ y) ∨ (∃ b c', c = u ++ b :: c' ∧ b :: c' ++ x = y).
Proof.
  revert u. induction c as [|a c IH]; intros [|b u]; simpl; intros E.
  - left. by exists [].
  - left. by exists (b :: u).
  - right. by exists a, c.
  - injection E as <- E. destruct (IH u E) as [(u' & -> & ->)|(b & c' & -> & <-)]; [left|right]; eauto.
Qed.

(** An ASCII text that occurs in the decoded bytes, in any case, occurs in the bytes. *)
Lemma lossy_occurs t s u r :
  t ≠ [] → Forall ascii_byte t → lowercase (from_utf8_lossy s) = u ++ t ++ r →
  ∃ u' r', lowercase s = u' ++ t ++ r'.
Proof.
  intros Hne Ht. revert u. induction s as [s IH] using (induction_ltof1 _ (@length byte)). unfold ltof in IH. intros u E.
  destruct (decide (s = [])) as [->|Hs].
  { destruct u; [|done]. destruct t; done. }
  destruct (lossy_step s Hs) as (c & d & s' & Es & Hd & Hc0 & El & Hc). rewrite El in E. unfold lowercase in E.
  rewrite fmap_app in E. apply app_shorter in E as [(u' & -> & E)|(b & c' & Ec & E)].
  - destruct (IH s') with (u := u') as (v & r' & Er); [|exact E|].
    + rewrite Es, length_app. destruct d; simpl; [done|lia].
    + exists (lowercase d ++ v), r'. rewrite Es. unfold lowercase at 1. rewrite fmap_app. unfold lowercase in Er. 
      by rewrite Er, <-app_assoc.
  - destruct t as [|a t]; [done|]. simpl in E. injection E as <- E.
    assert (Hb : b ∈ to_ascii_lowercase <$> c) by (rewrite Ec; set_solver).
    apply list_elem_of_fmap in Hb as (b' & -> & Hb'). apply Forall_cons in Ht as [Ha Ht].
    apply ascii_lowercase in Ha. destruct Hc as [(b'' & -> & ->)|Hc]; [|rewrite Forall_forall in Hc; by destruct (Hc b')].
    destruct u as [|]; [|by destruct u]. simpl in Ec. injection Ec as _ <-. apply list_elem_of_singleton in Hb' as <-.
    destruct (lossy_prefix t s' r Ht E) as [r' Er]. exists [], r'. rewrite Es. unfold lowercase in *. simpl.
    f_equal. exact Er.
Qed.

Lemma lossy_ascii s : Forall ascii_byte s → from_utf8_lossy s = s.
Proof.
  induction 1 as [|b s Hb Hs IH]; [done|]. cbn [from_utf8_lossy]. unfold ascii_byte in Hb. by rewrite Hb, IH.
Qed.

(** ** A line is a piece of the text *)

Lemma split_bytes_piece f s x : x ∈ split_bytes f s → ∃ u v, s = u ++ x ++ v.
Proof.
  revert x. induction s as [|b s IH]; simpl; intros x Hx.
  { apply list_elem_of_singleton in Hx as ->. by exists [], []. }
  destruct (f b).
  - apply elem_of_cons in Hx as [->|Hx]; [by exists [], (b :: s)|]. destruct (IH x Hx) as (u & v & E).
    exists (b :: u), v. by rewrite E.
  - destruct (split_bytes f s) as [|p ps] eqn:Ep; [by destruct (split_bytes_nonempty f s)|].
    apply elem_of_cons in Hx as [->|Hx].
    + (* the first piece starts the text *)
      assert (∃ v, s = p ++ v) as [v ->]; [|by exists [], v].
      clear -Ep. revert p ps Ep. induction s as [|a s IHs]; simpl; intros p ps Ep; [injection Ep as <- <-; by exists []|].
      destruct (f a); [injection Ep as <- <-; by exists (a :: s)|].
      destruct (split_bytes f s) as [|q qs]; [injection Ep as <- <-; by exists s|].
      injection Ep as <- <-. destruct (IHs q qs eq_refl) as [v ->]. by exists v.
    + destruct (IH x) as (u & v & E); [by right|]. exists (b :: u), v. by rewrite E.
Qed.

Lemma lines_piece s x : x ∈ lines s → ∃ u v, s = u ++ x ++ v.
Proof.
  unfold lines. intros Hx. assert (∃ y, y ∈ split_bytes is_newline s ∧ ∃ w, y = x ++ w) as (y & Hy & w & ->).
  { induction (split_bytes is_newline s) as [|p [|q ps] IH]; simpl in Hx; [by apply not_elem_of_nil in Hx| |].
    - case_decide; [by apply not_elem_of_nil in Hx|]. apply list_elem_of_singleton in Hx as ->. exists p.
      split; [left|]. exists []. by rewrite app_nil_r.
    - apply elem_of_cons in Hx as [->|Hx].
      + exists p. split; [left|]. unfold strip_cr. destruct (strip_suffix [x0d] p) as [p'|] eqn:E; simpl.
        * apply strip_suffix_Some in E. by exists [x0d].
        * exists []. by rewrite app_nil_r.
      + destruct (IH Hx) as (y & Hy & Hw). exists y. split; [by right|done]. }
  destruct (split_bytes_piece _ _ _ Hy) as (u & v & ->). exists u, (w ++ v). by rewrite <-!app_assoc.
Qed.
