(* ===== verification/Domain.v ===== *)
(** * Symbols and references (domain/index.rs)

    The records that the parsers produce and that the index, the call graph and the
    structural edits work on, with the two ways of finding the definition that encloses a
    line.  [find_enclosing_symbol] scans all symbols; [find_enclosing_symbols] sweeps the
    lines in ascending order with a heap.  The theorem of this file is that they agree.

    A [u32] is an [N]; a [BinaryHeap] is the list of its elements from the greatest down. *)

From Stdlib Require Import Lia Strings.Byte.
From stdpp Require Import base gmap sets list strings numbers option sorting.
From S2P Require Import Prelude Slices.

#[global] Set Default Goal Selector "!".

(** ** Data *)

Inductive LanguageId :=
| Rust | Python | JavaScript | TypeScript | Go | Java | C | Cpp | CSharp | Ruby | Php | Swift
| Kotlin | Dart | Perl | Elixir | Json | Toml | Yaml | Markdown | Text | Env | Html | Css | Scss.

Inductive SymbolKind :=
| Function | Method | Class_ | Struct | Enum | Interface | Module_ | Constant | Variable_ | Type_
| Trait | Impl | Other | Key | Section_ | MacroGenerated.

Inductive ReferenceKind := Call | Import_ | TypeUsage | MacroUse | Implements | ValueUse.

#[global] Instance LanguageId_eq_dec : EqDecision LanguageId.
Proof. solve_decision. Defined.
#[global] Instance SymbolKind_eq_dec : EqDecision SymbolKind.
Proof. solve_decision. Defined.
#[global] Instance ReferenceKind_eq_dec : EqDecision ReferenceKind.
Proof. solve_decision. Defined.

(** [kind as u8]. *)
Definition kind_code (k : SymbolKind) : N :=
  match k with
  | Function => 0 | Method => 1 | Class_ => 2 | Struct => 3 | Enum => 4 | Interface => 5
  | Module_ => 6 | Constant => 7 | Variable_ => 8 | Type_ => 9 | Trait => 10 | Impl => 11
  | Other => 12 | Key => 13 | Section_ => 14 | MacroGenerated => 15
  end.

Definition code_kind (n : N) : SymbolKind :=
  match n with
  | 0 => Function | 1 => Method | 2 => Class_ | 3 => Struct | 4 => Enum | 5 => Interface
  | 6 => Module_ | 7 => Constant | 8 => Variable_ | 9 => Type_ | 10 => Trait | 11 => Impl
  | 12 => Other | 13 => Key | 14 => Section_ | _ => MacroGenerated
  end%N.

#[global] Instance kind_code_inj : Inj (=) (=) kind_code.
Proof. intros x y E. assert (code_kind (kind_code x) = code_kind (kind_code y)) by congruence. by destruct x, y. Qed.

#[global] Instance SymbolKind_countable : Countable SymbolKind.
Proof. apply (inj_countable' kind_code code_kind). by intros []. Defined.

Definition language_code (l : LanguageId) : nat :=
  match l with
  | Rust => 0 | Python => 1 | JavaScript => 2 | TypeScript => 3 | Go => 4 | Java => 5 | C => 6
  | Cpp => 7 | CSharp => 8 | Ruby => 9 | Php => 10 | Swift => 11 | Kotlin => 12 | Dart => 13
  | Perl => 14 | Elixir => 15 | Json => 16 | Toml => 17 | Yaml => 18 | Markdown => 19 | Text => 20
  | Env => 21 | Html => 22 | Css => 23 | Scss => 24
  end.
Definition code_language (n : nat) : LanguageId :=
  match n with
  | 0 => Rust | 1 => Python | 2 => JavaScript | 3 => TypeScript | 4 => Go | 5 => Java | 6 => C
  | 7 => Cpp | 8 => CSharp | 9 => Ruby | 10 => Php | 11 => Swift | 12 => Kotlin | 13 => Dart
  | 14 => Perl | 15 => Elixir | 16 => Json | 17 => Toml | 18 => Yaml | 19 => Markdown | 20 => Text
  | 21 => Env | 22 => Html | 23 => Css | _ => Scss
  end.

#[global] Instance LanguageId_countable : Countable LanguageId.
Proof. apply (inj_countable' language_code code_language). by intros []. Defined.

Notation str := (list byte).

Record SymbolRecord := mkSymbol {
  s_name : str;
  s_kind : SymbolKind;
  s_depth : N;
  s_sort_order : N;
  s_byte_range : N * N;
  s_line_range : N * N;
  s_doc_byte_range : option (N * N);
  s_item_byte_range : option (N * N);
}.

Record ReferenceRecord := mkReference {
  r_name : str;
  r_qualified_name : option str;
  r_kind : ReferenceKind;
  r_byte_range : N * N;
  r_line_range : N * N;
  r_enclosing_symbol_index : option N;
}.

Definition effective_start (s : SymbolRecord) : N :=
  match s_doc_byte_range s with Some (start, _) => start | None => (s_byte_range s).1 end.

Definition item_start (s : SymbolRecord) : N :=
  match s_item_byte_range s with Some (start, _) => start | None => effective_start s end.
Definition item_end (s : SymbolRecord) : N :=
  match s_item_byte_range s with Some (_, e) => e | None => (s_byte_range s).2 end.
Definition item_range (s : SymbolRecord) : N * N := (item_start s, item_end s).

(** ** The enclosing symbol of a line *)

Definition u32_modulus : N := 4294967296.
Definition as_u32 (n : nat) : N := N.of_nat n mod u32_modulus.
Definition u32_add (a b : N) : N := (a + b) mod u32_modulus.
Definition u32_sub (a b : N) : N := (a + u32_modulus - b) mod u32_modulus.

Fixpoint enclosing_scan (symbols : list SymbolRecord) (idx : nat) (ref_line : N) (best : option (N * N)) :
    option (N * N) :=
  match symbols with
  | [] => best
  | sym :: rest =>
      let '(start, end_) := s_line_range sym in
      let best :=
        if (start <=? ref_line)%N && (ref_line <=? end_)%N then
          match best with
          | None => Some (start, as_u32 idx)
          | Some (best_start, _) => if (best_start <? start)%N then Some (start, as_u32 idx) else best
          end
        else best in
      enclosing_scan rest (S idx) ref_line best
  end.

Definition find_enclosing_symbol (symbols : list SymbolRecord) (ref_line : N) : option N :=
  snd <$> enclosing_scan symbols 0 ref_line None.

(** ** The sweep *)

(** An entry [(start, Reverse(idx), end)] of the heap, and the order of the tuple. *)
Record HeapEntry := mkHeapEntry { he_start : N; he_idx : N; he_end : N }.

Definition heap_lt (a b : HeapEntry) : bool :=
  (he_start a <? he_start b)%N
  || ((he_start a =? he_start b)%N
      && ((he_idx b <? he_idx a)%N
          || ((he_idx a =? he_idx b)%N && (he_end a <? he_end b)%N))).

(** [push]; [peek] is the head of the list and [pop] its tail. *)
Fixpoint heap_push (x : HeapEntry) (h : list HeapEntry) : list HeapEntry :=
  match h with
  | [] => [x]
  | y :: h' => if heap_lt x y then y :: heap_push x h' else x :: h
  end.

Definition line_start (symbols : list SymbolRecord) (idx : nat) : N :=
  match symbols !! idx with Some s => (s_line_range s).1 | None => 0%N end.
Definition line_end (symbols : list SymbolRecord) (idx : nat) : N :=
  match symbols !! idx with Some s => (s_line_range s).2 | None => 0%N end.

(** [sort_by_key] on indices. *)
Definition by_key_le (key : nat → N) (i j : nat) : Prop := (key i ≤ key j)%N.
#[global] Instance by_key_le_dec key : RelDecision (by_key_le key).
Proof. unfold by_key_le. intros i j. apply _. Defined.
Definition sort_indices (key : nat → N) (n : nat) : list nat := sort_by (by_key_le key) (seq 0 n).

(** The first inner loop: [rest] is [by_start[next..]]. *)
Fixpoint push_started (symbols : list SymbolRecord) (line : N) (rest : list nat) (started : list HeapEntry) :
    list nat * list HeapEntry :=
  match rest with
  | [] => ([], started)
  | idx :: rest' =>
      if (line_start symbols idx <=? line)%N then
        push_started symbols line rest'
          (heap_push (mkHeapEntry (line_start symbols idx) (as_u32 idx) (line_end symbols idx)) started)
      else (rest, started)
  end.

(** The second inner loop. *)
Fixpoint pop_ended (line : N) (started : list HeapEntry) : list HeapEntry :=
  match started with
  | [] => []
  | e :: started' => if (he_end e <? line)%N then pop_ended line started' else started
  end.

Fixpoint sweep (symbols : list SymbolRecord) (lines : list N) (by_line : list nat) (rest : list nat)
    (started : list HeapEntry) (enclosing : list (option N)) : list (option N) :=
  match by_line with
  | [] => enclosing
  | at_ :: by_line =>
      let line := nth at_ lines 0%N in
      let '(rest, started) := push_started symbols line rest started in
      let started := pop_ended line started in
      sweep symbols lines by_line rest started (<[at_ := he_idx <$> head started]> enclosing)
  end.

Definition find_enclosing_symbols (symbols : list SymbolRecord) (lines : list N) : list (option N) :=
  let by_start := sort_indices (line_start symbols) (length symbols) in
  let by_line := sort_indices (λ i, nth i lines 0%N) (length lines) in
  sweep symbols lines by_line by_start [] (replicate (length lines) None).

(** ** Both find the innermost symbol *)

Section enclosing.
Context (symbols : list SymbolRecord).
Hypothesis Hu32 : (N.of_nat (length symbols) ≤ u32_modulus)%N.

Definition encloses (line : N) (i : nat) : Prop :=
  i < length symbols ∧ (line_start symbols i ≤ line)%N ∧ (line ≤ line_end symbols i)%N.

(** [i] starts last among the first [n] symbols around [line], and first among those. *)
Definition innermost_of (n : nat) (line : N) (i : nat) : Prop :=
  i < n ∧ encloses line i ∧ ∀ j, j < n → encloses line j →
    (line_start symbols j < line_start symbols i)%N ∨ (line_start symbols j = line_start symbols i ∧ i ≤ j).

Definition innermost (line : N) (r : option N) : Prop :=
  match r with
  | None => ∀ i, ¬ encloses line i
  | Some k => ∃ i, k = N.of_nat i ∧ innermost_of (length symbols) line i
  end.

Lemma as_u32_small i : i < length symbols → as_u32 i = N.of_nat i.
Proof. intros Hi. unfold as_u32. apply N.mod_small. lia. Qed.

Lemma innermost_unique line r r' : innermost line r → innermost line r' → r = r'.
Proof.
  destruct r as [k|], r' as [k'|]; simpl; [| | |done].
  - intros (i & -> & Hi & Ei & Mi) (j & -> & Hj & Ej & Mj). do 2 f_equal.
    destruct (Mi j Hj Ej), (Mj i Hi Ei); lia.
  - intros (i & _ & _ & Ei & _) H. by destruct (H i).
  - intros H (i & _ & _ & Ei & _). by destruct (H i).
Qed.

Lemma line_range_at i s :
  symbols !! i = Some s → line_start symbols i = (s_line_range s).1 ∧ line_end symbols i = (s_line_range s).2.
Proof. intros H. unfold line_start, line_end. by rewrite H. Qed.

Definition best_ok (n : nat) (line : N) (best : option (N * N)) : Prop :=
  match best with
  | None => ∀ i, i < n → ¬ encloses line i
  | Some (s, k) => ∃ i, k = N.of_nat i ∧ s = line_start symbols i ∧ innermost_of n line i
  end.

Lemma best_ok_skip n line best : best_ok n line best → ¬ encloses line n → best_ok (S n) line best.
Proof.
  intros H Hn. destruct best as [[s k]|]; simpl in *.
  - destruct H as (i & -> & -> & Hi & Ei & M). exists i. split_and!; [done|done|]. split; [lia|]. split; [done|].
    intros j Hj Ej. apply M; [|done]. destruct (decide (j = n)) as [->|]; [done|lia].
  - intros i Hi Ei. destruct (decide (i = n)) as [->|]; [done|]. apply (H i); [lia|done].
Qed.

Lemma enclosing_scan_ok line rest n best :
  drop n symbols = rest → best_ok n line best →
  best_ok (length symbols) line (enclosing_scan rest n line best).
Proof.
  revert n best. induction rest as [|sym rest IH]; intros n best Hd Hb; simpl.
  { apply (f_equal length) in Hd. rewrite length_drop in Hd. simpl in Hd.
    destruct best as [[s k]|]; simpl in *.
    - destruct Hb as (i & -> & -> & Hi & Ei & M). exists i. split_and!; [done|done|]. split; [apply Ei|].
      split; [done|]. intros j Hj Ej. apply M; [lia|done].
    - intros i Hi. apply Hb. lia. }
  assert (Hn : symbols !! n = Some sym).
  { rewrite <-(Nat.add_0_r n), <-lookup_drop, Hd. done. }
  pose proof (lookup_lt_Some _ _ _ Hn) as Hlt. destruct (line_range_at n sym Hn) as [Hs He].
  destruct (s_line_range sym) as [start end_]. simpl in Hs, He.
  apply IH. { by rewrite <-Nat.add_1_r, <-drop_drop, Hd. }
  destruct ((start <=? line)%N && (line <=? end_)%N) eqn:Ein.
  2:{ apply best_ok_skip; [done|]. unfold encloses. rewrite Hs, He. intros (_ & ? & ?).
      apply andb_false_iff in Ein as [?%N.leb_gt|?%N.leb_gt]; lia. }
  apply andb_true_iff in Ein as [Hle%N.leb_le Hle'%N.leb_le].
  assert (En : encloses line n) by (unfold encloses; rewrite Hs, He; done).
  destruct best as [[bs k]|]; simpl in Hb.
  - destruct Hb as (i & -> & -> & Hi & Ei & M). destruct (N.ltb_spec (line_start symbols i) start) as [Hlt'|Hge].
    + exists n. rewrite as_u32_small by done. split_and!; [done|done|]. split; [lia|]. split; [done|].
      intros j Hj Ej. destruct (decide (j = n)) as [->|]; [right; lia|]. left.
      destruct (M j); [lia|done|lia|lia].
    + exists i. split_and!; [done|done|]. split; [lia|]. split; [done|].
      intros j Hj Ej. destruct (decide (j = n)) as [->|]; [|apply M; [lia|done]]. rewrite Hs. lia.
  - exists n. rewrite as_u32_small by done. split_and!; [done|done|]. split; [lia|]. split; [done|].
    intros j Hj Ej. destruct (decide (j = n)) as [->|]; [right; lia|]. destruct (Hb j); [lia|done].
Qed.

Lemma find_enclosing_symbol_innermost line : innermost line (find_enclosing_symbol symbols line).
Proof.
  unfold find_enclosing_symbol.
  pose proof (enclosing_scan_ok line symbols 0 None eq_refl) as H. simpl in H.
  destruct (enclosing_scan symbols 0 line None) as [[s k]|]; simpl in *.
  - destruct H as (i & -> & _ & Hi); [lia|]. by exists i.
  - intros i Ei. apply (H ltac:(lia) i); [apply Ei|done].
Qed.

Definition entry_of (i : nat) : HeapEntry :=
  mkHeapEntry (line_start symbols i) (as_u32 i) (line_end symbols i).

(** The heap is the list from the greatest entry down. *)
Definition heap_ge (a b : HeapEntry) : Prop := heap_lt a b = false.

Lemma heap_push_elem x h y : y ∈ heap_push x h ↔ y = x ∨ y ∈ h.
Proof.
  induction h as [|z h IH]; simpl; [set_solver|]. destruct (heap_lt x z); rewrite !elem_of_cons; [rewrite IH|]; tauto.
Qed.

Lemma heap_lt_asym a b : heap_lt a b = true → heap_lt b a = false.
Proof.
  unfold heap_lt. rewrite orb_true_iff, andb_true_iff, orb_true_iff, andb_true_iff.
  rewrite orb_false_iff, andb_false_iff, orb_false_iff, andb_false_iff.
  rewrite !N.ltb_lt, !N.ltb_ge, !N.eqb_eq, !N.eqb_neq. lia.
Qed.

Lemma heap_ge_trans a b c : heap_ge a b → heap_ge b c → heap_ge a c.
Proof.
  unfold heap_ge, heap_lt.
  rewrite !orb_false_iff, !andb_false_iff, !orb_false_iff, !andb_false_iff.
  rewrite !N.ltb_ge, !N.eqb_neq. lia.
Qed.

Lemma heap_push_sorted x h : StronglySorted heap_ge h → StronglySorted heap_ge (heap_push x h).
Proof.
  induction h as [|y h IH]; simpl; intros Hs; [repeat constructor|].
  apply StronglySorted_inv in Hs as [Hs Hy]. rewrite Forall_forall in Hy.
  destruct (heap_lt x y) eqn:E.
  - constructor; [auto|]. apply Forall_forall. intros z [->|Hz]%heap_push_elem; [by apply heap_lt_asym|auto].
  - constructor; [constructor; [done|by apply Forall_forall]|]. apply Forall_forall.
    intros z [->|Hz]%elem_of_cons; [done|]. eapply heap_ge_trans; [exact E|auto].
Qed.

(** What the sweep knows at [line]: [rest] are the symbols that have not started, and a
    symbol that has started is in the heap unless it has ended. *)
Record sweep_inv (line : N) (rest : list nat) (started : list HeapEntry) : Prop := {
  sw_sorted : StronglySorted heap_ge started;
  sw_entries : ∀ e, e ∈ started → ∃ i, i < length symbols ∧ e = entry_of i ∧ (line_start symbols i ≤ line)%N;
  sw_rest : StronglySorted (by_key_le (line_start symbols)) rest;
  sw_covers : ∀ i, i < length symbols → i ∈ rest ∨ entry_of i ∈ started ∨ (line_end symbols i < line)%N;
  sw_bound : ∀ i, i ∈ rest → i < length symbols;
}.

Lemma push_started_inv line line' rest started :
  sweep_inv line rest started → (line ≤ line')%N →
  let '(rest', started') := push_started symbols line' rest started in
  sweep_inv line' rest' started' ∧ ∀ i, i ∈ rest' → (line' < line_start symbols i)%N.
Proof.
  intros [Hs He Hr Hc Hb] Hle.
  assert (Hinv : sweep_inv line' rest started).
  { constructor; [done| |done| |done].
    - intros e (i & Hi & -> & ?)%He. exists i. split_and!; [done|done|lia].
    - intros i [?|[?|?]]%Hc; [by left|by right; left|right; right; lia]. }
  clear Hs He Hr Hc Hb. revert started Hinv. induction rest as [|idx rest IH]; intros started [Hs He Hr Hc Hb]; simpl.
  { split; [done|]. by intros i ?%elem_of_nil. }
  apply StronglySorted_inv in Hr as [Hr Hi]. rewrite Forall_forall in Hi.
  destruct (N.leb_spec (line_start symbols idx) line') as [Hst|Hst].
  - apply IH. constructor.
    + by apply heap_push_sorted.
    + intros e [->|?]%heap_push_elem; [|auto]. exists idx. split_and!; [apply Hb; left|done|done].
    + done.
    + intros i Hlt. destruct (Hc i Hlt) as [[->|?]%elem_of_cons|[?|?]]; [right; left|left|right; left|by right; right].
      * apply heap_push_elem. by left.
      * done.
      * apply heap_push_elem. by right.
    + intros i ?. apply Hb. by right.
  - split; [constructor; [done|done| |done|done]|].
    + constructor; [done|by apply Forall_forall].
    + intros i [->|Hin]%elem_of_cons; [done|]. specialize (Hi i Hin). unfold by_key_le in Hi. lia.
Qed.

Lemma pop_ended_inv line rest started :
  sweep_inv line rest started → sweep_inv line rest (pop_ended line started).
Proof.
  intros H. induction started as [|e started IH]; simpl; [done|].
  destruct (N.ltb_spec (he_end e) line) as [Hlt|]; [|done]. apply IH. destruct H as [Hs He Hr Hc Hb].
  apply StronglySorted_inv in Hs as [Hs _].
  constructor; [done| |done| |done].
  - intros e' ?. apply He. by right.
  - intros i [?|[[E|?]%elem_of_cons|?]]%Hc; [by left| |by right; left|by right; right].
    right; right. rewrite <-E in Hlt. done.
Qed.

(** The top of the heap is then the innermost symbol. *)
Lemma heap_top_innermost line rest started :
  sweep_inv line rest started → (∀ i, i ∈ rest → (line < line_start symbols i)%N) →
  innermost line (he_idx <$> head (pop_ended line started)).
Proof.
  intros H Hrest. apply pop_ended_inv in H as [Hs He Hr Hc Hb].
  assert (Hall : ∀ i, encloses line i → entry_of i ∈ pop_ended line started).
  { intros i (Hlt & Hst & Hen). destruct (Hc i Hlt) as [Hin|[?|?]]; [|done|lia].
    specialize (Hrest i Hin). lia. }
  destruct (pop_ended line started) as [|e h] eqn:Ep; simpl.
  { intros i Hi%Hall. by apply elem_of_nil in Hi. }
  destruct (He e) as (i & Hi & -> & Hst); [left|]. exists i. simpl. split; [by apply as_u32_small|].
  assert (Hen : (line ≤ line_end symbols i)%N).
  { clear -Ep. revert Ep. induction started as [|x started IH]; simpl; [done|].
    destruct (N.ltb_spec (he_end x) line); [done|]. intros [= -> _]. done. }
  split; [done|]. split; [done|]. intros j Hj Ej%Hall. apply elem_of_cons in Ej as [Ej|Ej].
  - right. injection Ej. rewrite !as_u32_small by done. intros. lia.
  - apply StronglySorted_inv in Hs as [_ Hs]. rewrite Forall_forall in Hs. specialize (Hs _ Ej).
    unfold heap_ge, heap_lt in Hs. simpl in Hs. rewrite !as_u32_small in Hs by done.
    rewrite orb_false_iff, andb_false_iff, orb_false_iff in Hs.
    rewrite !N.ltb_ge, N.eqb_neq in Hs. lia.
Qed.

#[local] Instance by_key_le_trans key : Transitive (by_key_le key).
Proof. intros x y z. unfold by_key_le. lia. Qed.
#[local] Instance by_key_le_total key : Total (by_key_le key).
Proof. intros x y. unfold by_key_le. lia. Qed.

Lemma sweep_spec lines by_line rest started enclosing line :
  sweep_inv line rest started → StronglySorted (by_key_le (λ i, nth i lines 0%N)) by_line →
  (∀ i, i ∈ by_line → (line ≤ nth i lines 0)%N) → NoDup by_line →
  (∀ i, i ∈ by_line → i < length enclosing) →
  ∀ i, sweep symbols lines by_line rest started enclosing !! i =
    if decide (i ∈ by_line) then Some (find_enclosing_symbol symbols (nth i lines 0%N)) else enclosing !! i.
Proof.
  revert rest started enclosing line. induction by_line as [|at_ by_line IH];
    intros rest started enclosing line Hinv Hsort Hge Hnd Hlen i; cbn [sweep].
  { by rewrite decide_False by (by intros ?%elem_of_nil). }
  apply StronglySorted_inv in Hsort as [Hsort Hat]. rewrite Forall_forall in Hat.
  apply NoDup_cons in Hnd as [Hnotin Hnd].
  pose proof (push_started_inv line (nth at_ lines 0%N) rest started Hinv ltac:(apply Hge; left)) as Hp.
  destruct (push_started symbols (nth at_ lines 0%N) rest started) as [rest' started'].
  destruct Hp as [Hinv' Hrest'].
  rewrite (IH _ _ _ (nth at_ lines 0%N)); [|by apply pop_ended_inv|done|done|done|].
  2:{ intros j ?. rewrite length_insert. apply Hlen. by right. }
  rewrite (innermost_unique _ _ _ (heap_top_innermost _ _ _ Hinv' Hrest')
    (find_enclosing_symbol_innermost (nth at_ lines 0%N))).
  destruct (decide (i = at_)) as [->|Hne].
  - rewrite decide_False by done. rewrite decide_True by left.
    rewrite list_lookup_insert_eq; [done|]. apply Hlen. left.
  - rewrite list_lookup_insert_ne by done. destruct (decide (i ∈ by_line)).
    + rewrite decide_True; [done|by right].
    + rewrite decide_False; [done|]. by intros [?|?]%elem_of_cons.
Qed.

Lemma sort_indices_elem key n i : i ∈ sort_indices key n ↔ i < n.
Proof. unfold sort_indices. rewrite (sort_by_Permutation (by_key_le key)), elem_of_seq. lia. Qed.

Lemma sweep_agrees lines : find_enclosing_symbols symbols lines = find_enclosing_symbol symbols <$> lines.
Proof.
  apply list_eq. intros i. unfold find_enclosing_symbols.
  rewrite (sweep_spec _ _ _ _ _ 0%N).
  - rewrite list_lookup_fmap. destruct (decide (i < length lines)) as [Hlt|Hge].
    + rewrite decide_True by (by apply sort_indices_elem).
      by rewrite (nth_lookup_Some lines i Hlt).
    + rewrite decide_False by (by rewrite sort_indices_elem).
      rewrite !lookup_ge_None_2; [done|lia|rewrite length_replicate; lia].
  - constructor.
    + constructor.
    + by intros e ?%elem_of_nil.
    + apply StronglySorted_sort_by; apply _.
    + intros j Hj. left. by apply sort_indices_elem.
    + intros j. by rewrite sort_indices_elem.
  - apply StronglySorted_sort_by; apply _.
  - intros j _. lia.
  - unfold sort_indices. rewrite sort_by_Permutation. apply NoDup_seq.
  - intros j. rewrite sort_indices_elem, length_replicate. done.
Qed.
End enclosing.

(** C33: the sweep over sorted lines with its heap finds for every line exactly the symbol
    that the scan of all symbols finds - the enclosing one that starts last, and of those
    the first - in whatever order the lines are asked for, repeated lines included. *)
Theorem enclosing_sweep_is_scan symbols lines :
  (N.of_nat (length symbols) ≤ u32_modulus)%N →
  find_enclosing_symbols symbols lines = find_enclosing_symbol symbols <$> lines.
Proof. intros Hu32. by apply sweep_agrees. Qed.

Definition demo_symbol (start end_ : N) : SymbolRecord :=
  mkSymbol [] Function 0 0 (start, end_) (start, end_) None None.

Lemma enclosing_sweep_is_scan_witness :
  find_enclosing_symbols [demo_symbol 0 9; demo_symbol 2 5; demo_symbol 2 3; demo_symbol 7 7] [8; 4; 3; 4; 12; 7]%N
    = [Some 0; Some 1; Some 1; Some 1; None; Some 3]%N.
Proof.
  rewrite (enclosing_sweep_is_scan
    [demo_symbol 0 9; demo_symbol 2 5; demo_symbol 2 3; demo_symbol 7 7] [8; 4; 3; 4; 12; 7]%N).
  - reflexivity.
  - vm_compute. discriminate.
Defined.
