(* ===== verification/Classification.v ===== *)
(** * What kind of file a path is (domain/index.rs, discovery/mod.rs)

    Every file that the index meets is classified before it is read: by its language, by
    the lanes it feeds (code, knowledge or both), by whether it is a test, vendored or
    generated, and by the admission tier that its path, size and first bytes earn.  The
    manifest keeps the outcome as a [FileDisposition]; older responses project it back to
    an [AdmissionDecision].

    The theorems: the two tables between languages and extensions agree; the size tiers of
    admission; a text file that is cut in the middle of a character is not taken for
    binary; the projection of a disposition reports what admission decided.

    [str::to_lowercase] follows the Unicode tables, which are a parameter here
    ([CaseTables]); [to_ascii_lowercase] is [lowercase].  A [Path] is a Unix path. *)

From Stdlib Require Import Lia Strings.Byte.
From stdpp Require Import base gmap sets list strings numbers option sorting pretty.
From S2P Require Import Prelude Slices Text Domain.

#[global] Set Default Goal Selector "!".

(** [str::to_lowercase]. *)
Class CaseTables := to_lowercase : str → str.

Definition one_of (names : list string) (s : str) : bool := existsb (λ n, bool_decide (s = bs n)) names.

(** ** Paths *)

Definition is_separator (b : byte) : bool := bool_decide (b = x2f ∨ b = x5c).

(** [rsplit(['/', '\\']).next()]. *)
Definition last_segment (path : str) : str :=
  default [] (head (reverse (split_bytes is_separator path))).

Definition is_slash (b : byte) : bool := bool_decide (b = x2f).

(** The [Normal] and [ParentDir] components of a Unix [Path]. *)
Definition path_components (path : str) : list str :=
  filter (λ c, c ≠ [] ∧ c ≠ bs ".") (split_bytes is_slash path).

Definition file_name (path : str) : option str :=
  match reverse (path_components path) with
  | [] => None
  | c :: _ => if decide (c = bs "..") then None else Some c
  end.

Definition path_extension (path : str) : option str :=
  name ← file_name path;
  match rsplit_once (bs ".") name with
  | Some ([], _) | None => None
  | Some (_, ext) => Some ext
  end.

(** ** Languages *)

Definition language_name (l : LanguageId) : string :=
  match l with
  | Rust => "rust" | Python => "python" | JavaScript => "javascript" | TypeScript => "typescript"
  | Go => "go" | Java => "java" | C => "c" | Cpp => "cpp" | CSharp => "csharp" | Ruby => "ruby"
  | Php => "php" | Swift => "swift" | Kotlin => "kotlin" | Dart => "dart" | Perl => "perl"
  | Elixir => "elixir" | Json => "json" | Toml => "toml" | Yaml => "yaml" | Markdown => "markdown"
  | Text => "text" | Env => "env" | Html => "html" | Css => "css" | Scss => "scss"
  end%string.

Definition from_extension (ext : str) : option LanguageId :=
  let e := lowercase ext in
  if one_of ["rs"] e then Some Rust
  else if one_of ["py"] e then Some Python
  else if one_of ["js"; "jsx"; "cjs"; "mjs"] e then Some JavaScript
  else if one_of ["ts"; "tsx"] e then Some TypeScript
  else if one_of ["go"] e then Some Go
  else if one_of ["java"] e then Some Java
  else if one_of ["c"; "h"] e then Some C
  else if one_of ["cpp"; "cxx"; "cc"; "hpp"; "hxx"; "hh"] e then Some Cpp
  else if one_of ["cs"] e then Some CSharp
  else if one_of ["rb"] e then Some Ruby
  else if one_of ["php"] e then Some Php
  else if one_of ["swift"] e then Some Swift
  else if one_of ["dart"] e then Some Dart
  else if one_of ["kt"; "kts"] e then Some Kotlin
  else if one_of ["pl"; "pm"] e then Some Perl
  else if one_of ["ex"; "exs"] e then Some Elixir
  else if one_of ["json"] e then Some Json
  else if one_of ["toml"] e then Some Toml
  else if one_of ["yaml"; "yml"] e then Some Yaml
  else if one_of ["md"; "mdx"] e then Some Markdown
  else if one_of ["txt"; "text"; "rst"; "adoc"; "asciidoc"; "org"; "ini"; "conf"; "properties"; "xml"; "json5"] e
    then Some Text
  else if one_of ["env"] e then Some Env
  else if one_of ["html"] e then Some Html
  else if one_of ["css"] e then Some Css
  else if one_of ["scss"] e then Some Scss
  else None.

Definition text_basenames : list string :=
  ["readme"; "changelog"; "license"; "notice"; "agents"; "claude"; "contributing"; "security"; "governance";
   ".gitignore"; ".gitattributes"; ".editorconfig"].

Definition from_path (relative_path : str) : option LanguageId :=
  let basename := lowercase (last_segment relative_path) in
  if bool_decide (basename = bs ".env") || starts_with (bs ".env.") basename then Some Env
  else if one_of text_basenames basename then Some Text
  else '(_, extension) ← rsplit_once (bs ".") basename; from_extension extension.

Definition is_code_language (l : LanguageId) : bool :=
  match l with
  | Json | Toml | Yaml | Markdown | Text | Env | Html | Css | Scss => false
  | _ => true
  end.

Definition extension_is (ext : string) (relative_path : str) : bool :=
  match rsplit_once (bs ".") (last_segment relative_path) with
  | Some (_, e) => bool_decide (lowercase e = bs ext)
  | None => false
  end.
Definition is_tsx_path : str → bool := extension_is "tsx".
Definition is_c_header_path : str → bool := extension_is "h".

Definition extensions (l : LanguageId) : list string :=
  match l with
  | Rust => ["rs"] | Python => ["py"] | JavaScript => ["js"; "jsx"; "cjs"; "mjs"]
  | TypeScript => ["ts"; "tsx"] | Go => ["go"] | Java => ["java"] | C => ["c"; "h"]
  | Cpp => ["cpp"; "cxx"; "cc"; "hpp"; "hxx"; "hh"] | CSharp => ["cs"] | Ruby => ["rb"]
  | Php => ["php"] | Swift => ["swift"] | Kotlin => ["kt"; "kts"] | Dart => ["dart"]
  | Perl => ["pl"; "pm"] | Elixir => ["ex"; "exs"] | Json => ["json"] | Toml => ["toml"]
  | Yaml => ["yaml"; "yml"] | Markdown => ["md"; "mdx"]
  | Text => ["txt"; "text"; "rst"; "adoc"; "asciidoc"; "org"; "ini"; "conf"; "properties"; "xml"; "json5"]
  | Env => ["env"] | Html => ["html"] | Css => ["css"] | Scss => ["scss"]
  end%string.

Inductive SupportTier := QualityFocus | Broader | Unsupported.

Definition support_tier (l : LanguageId) : SupportTier :=
  match l with Rust | Python | JavaScript | TypeScript | Go => QualityFocus | _ => Broader end.

(** parsing/config_extractors/mod.rs. *)
Definition is_config_language (l : LanguageId) : bool :=
  match l with Json | Toml | Yaml | Markdown | Env => true | _ => false end.

(** ** Index targets *)

Inductive IndexTargets := CodeOnly | KnowledgeOnly | CodeAndKnowledge.

#[global] Instance IndexTargets_eq_dec : EqDecision IndexTargets.
Proof. solve_decision. Defined.

Definition is_dual_target_text_path (relative_path : str) : bool :=
  let basename := lowercase (last_segment relative_path) in
  match rsplit_once (bs ".") basename with
  | Some (_, ext) => one_of ["ini"; "conf"; "properties"; "xml"; "json5"] ext
  | None => false
  end
  || one_of [".gitignore"; ".gitattributes"; ".editorconfig"; "dockerfile"] basename.

Definition targets_for_path (relative_path : str) (language : option LanguageId) : IndexTargets :=
  match language with
  | Some Markdown => KnowledgeOnly
  | Some (Json | Toml | Yaml | Env) => CodeAndKnowledge
  | Some Text => if is_dual_target_text_path relative_path then CodeAndKnowledge else KnowledgeOnly
  | None => KnowledgeOnly
  | Some _ => CodeOnly
  end.

Definition includes_code (t : IndexTargets) : bool :=
  match t with CodeOnly | CodeAndKnowledge => true | KnowledgeOnly => false end.
Definition includes_knowledge (t : IndexTargets) : bool :=
  match t with KnowledgeOnly | CodeAndKnowledge => true | CodeOnly => false end.

(** ** Tests, vendored and generated code *)

Inductive FileClass := ClassCode | ClassText | ClassBinary.

#[global] Instance FileClass_eq_dec : EqDecision FileClass.
Proof. solve_decision. Defined.

Definition VENDOR_PATH_SEGMENTS : list string :=
  ["vendor"; "third_party"; "third-party"; "node_modules"; ".venv"; "venv"; "site-packages"; "pods";
   "bower_components"; "deps"; "extern"; "externals"].
Definition GENERATED_PATH_SEGMENTS : list string :=
  ["dist"; "generated"; "__generated__"; "generated-sources"].
Definition TEST_PATH_SEGMENTS : list string :=
  ["tests"; "test"; "__tests__"; "spec"; "test_data"; "testdata"; "fixtures"; "__fixtures__"; "__snapshots__"].

Record FileClassification := mkClassification {
  fc_class : FileClass;
  is_generated : bool;
  is_test : bool;
  is_vendor : bool;
  is_config : bool;
}.

#[global] Instance FileClassification_eq_dec : EqDecision FileClassification.
Proof. solve_decision. Defined.

(** [replace('\\', "/")]. *)
Definition forward_slashes (path : str) : str := (λ b, if decide (b = x5c) then x2f else b) <$> path.

Definition segments_of (lower : str) : list str := filter (λ s, s ≠ []) (split_bytes is_slash lower).

Definition contains_str (pat s : str) : bool := bool_decide (is_Some (find_str pat s)).

Definition for_code_path (relative_path : str) : FileClassification :=
  let lower := lowercase (forward_slashes relative_path) in
  let segments := segments_of lower in
  let basename := default [] (head (reverse segments)) in
  let stem := match rsplit_once (bs ".") basename with Some (name, _) => name | None => basename end in
  let test :=
    existsb (one_of TEST_PATH_SEGMENTS) segments
    || one_of ["test"; "tests"; "testutil"; "testutils"] stem
    || starts_with (bs "test_") stem || ends_with (bs "_test") stem || ends_with (bs ".test") stem
    || ends_with (bs "_spec") stem || ends_with (bs ".spec") stem in
  let vendor := existsb (one_of VENDOR_PATH_SEGMENTS) segments in
  let generated :=
    existsb (one_of GENERATED_PATH_SEGMENTS) segments
    || contains_str (bs ".generated.") basename || contains_str (bs ".gen.") basename
    || ends_with (bs ".g.dart") basename || ends_with (bs ".pb.go") basename
    || ends_with (bs ".designer.cs") basename || ends_with (bs ".min.js") basename
    || ends_with (bs ".min.css") basename || ends_with (bs ".map") basename in
  let ext := match rsplit_once (bs ".") basename with Some (_, e) => e | None => [] end in
  mkClassification ClassCode generated test vendor (one_of ["json"; "toml"; "yaml"; "yml"; "md"; "env"] ext).

Definition for_indexed_path (relative_path : str) (targets : IndexTargets) : FileClassification :=
  let c := for_code_path relative_path in
  mkClassification (if decide (targets = KnowledgeOnly) then ClassText else ClassCode)
    (is_generated c) (is_test c) (is_vendor c) (bool_decide (targets = CodeAndKnowledge)).

(** ** Parse status *)

Inductive FileOutcome :=
| Processed
| OutcomePartial (warning : str)
| OutcomeFailed (error : str).

Inductive ParseStatus := Parsed | PartialParse | ParseFailed.

#[global] Instance ParseStatus_eq_dec : EqDecision ParseStatus.
Proof. solve_decision. Defined.

Definition from_operational_outcome (outcome : FileOutcome) : ParseStatus :=
  match outcome with
  | Processed => Parsed
  | OutcomePartial _ => PartialParse
  | OutcomeFailed _ => ParseFailed
  end.

Definition aggregate_for_targets (targets : IndexTargets) (code knowledge : option ParseStatus) : ParseStatus :=
  match targets with
  | CodeOnly => default ParseFailed code
  | KnowledgeOnly => default ParseFailed knowledge
  | CodeAndKnowledge =>
      let selected := [default ParseFailed code; default ParseFailed knowledge] in
      if forallb (λ s, bool_decide (s = Parsed)) selected then Parsed
      else if forallb (λ s, bool_decide (s = ParseFailed)) selected then ParseFailed
      else PartialParse
  end.

(** ** Dispositions and admission *)

Inductive MetadataOnlyReason :=
| Lockfile
| BinaryFile
| OversizedData
| GeneratedOrVendor
| SensitivePath (rule_id : str)
| SensitiveContent (rule_ids : list str) (finding_count : N)
| LfsPointerFile (declared_oid : option str) (declared_size : option N)
| UnsupportedPathEncoding
| PathMetadataTooLarge
| UndecodableText.

Inductive HardSkipReason := ArtifactType | PerFileCeiling.
Inductive AccessStage := Metadata | Probe | FullRead.
Inductive AccessErrorKind := NotFound | PermissionDenied | InvalidData | ResourceExhausted | OtherError.

Inductive FileDisposition :=
| Indexed (targets : IndexTargets) (parse_status : ParseStatus)
| MetadataOnly (reason : MetadataOnlyReason)
| HardSkip (reason : HardSkipReason)
| UnreadableFile (stage : AccessStage) (kind : AccessErrorKind)
| UnstableDuringRead
| AbortedCircuitBreaker.

Record CatalogPath := mkCatalogPath { public_id : str; normalized_utf8 : option str }.

Record CatalogEntry := mkCatalogEntry {
  ce_path : CatalogPath;
  ce_size : N;
  ce_language : option LanguageId;
  ce_classification : FileClassification;
  ce_disposition : FileDisposition;
  ce_content_hash : option str;
}.

Definition scouted_catalog_path (p : CatalogPath) : str := default (public_id p) (normalized_utf8 p).

Inductive AdmissionTier := TierNormal | TierMetadataOnly | TierHardSkip.

Inductive SkipReason :=
| SizeCeiling | DenylistedExtension | SizeThreshold | BinaryContent | DependencyLockfile | Untracked
| UnsupportedLanguage | GeneratedOutput | PolicyWithheld | UnsupportedTextEncoding | UnsupportedPath
| LfsPointer | Unreadable.

#[global] Instance AdmissionTier_eq_dec : EqDecision AdmissionTier.
Proof. solve_decision. Defined.
#[global] Instance SkipReason_eq_dec : EqDecision SkipReason.
Proof. solve_decision. Defined.

Record AdmissionDecision := mkDecision { d_tier : AdmissionTier; d_reason : option SkipReason }.

Definition normal : AdmissionDecision := mkDecision TierNormal None.
Definition skip (tier : AdmissionTier) (reason : SkipReason) : AdmissionDecision := mkDecision tier (Some reason).

Definition HARD_SKIP_BYTES : N := 100 * 1024 * 1024.
Definition METADATA_ONLY_BYTES : N := 1024 * 1024.
Definition METADATA_ONLY_CODE_BYTES : N := 4 * 1024 * 1024.
Definition BINARY_SNIFF_BYTES : nat := 8192.

Definition DENYLISTED_EXTENSIONS : list string :=
  ["safetensors"; "ckpt"; "pt"; "onnx"; "gguf"; "pth"; "vmdk"; "iso"; "img"; "qcow2"; "tar"; "gz"; "zip"; "7z";
   "rar"; "bz2"; "xz"; "zst"; "db"; "sqlite"; "sqlite3"; "mdb"; "mp3"; "mp4"; "wav"; "avi"; "mov"; "mkv"; "png";
   "jpg"; "jpeg"; "gif"; "bmp"; "ico"; "woff"; "woff2"; "ttf"; "eot"; "bin"; "exe"; "dll"; "so"; "dylib"; "class"].

Definition LOCKFILE_BASENAMES : list string :=
  ["package-lock.json"; "npm-shrinkwrap.json"; "yarn.lock"; "pnpm-lock.yaml"; "bun.lock"; "Cargo.lock";
   "composer.lock"; "Gemfile.lock"; "poetry.lock"; "uv.lock"; "Pipfile.lock"; "flake.lock"; "packages.lock.json";
   "go.sum"].

Definition is_dependency_lockfile (path : str) : bool :=
  match file_name path with Some name => one_of LOCKFILE_BASENAMES name | None => false end.

(** The state of [str::from_utf8] at the end of a window: valid, an error at a character
    that the end of the window cuts off ([error_len() = None]), or another error. *)
Inductive Utf8Status := Utf8Valid | Utf8CutOff | Utf8Invalid.

Fixpoint utf8_status (s : list byte) : Utf8Status :=
  match s with
  | [] => Utf8Valid
  | b0 :: s0 =>
      if in_range 0 127 b0 then utf8_status s0
      else if in_range 194 223 b0 then
        match s0 with
        | [] => Utf8CutOff
        | b1 :: s1 => if is_continuation b1 then utf8_status s1 else Utf8Invalid
        end
      else if in_range 224 239 b0 then
        match s0 with
        | [] => Utf8CutOff
        | b1 :: s1 =>
            if second_of_three b0 b1 then
              match s1 with
              | [] => Utf8CutOff
              | b2 :: s2 => if is_continuation b2 then utf8_status s2 else Utf8Invalid
              end
            else Utf8Invalid
        end
      else if in_range 240 244 b0 then
        match s0 with
        | [] => Utf8CutOff
        | b1 :: s1 =>
            if second_of_four b0 b1 then
              match s1 with
              | [] => Utf8CutOff
              | b2 :: s2 =>
                  if is_continuation b2 then
                    match s2 with
                    | [] => Utf8CutOff
                    | b3 :: s3 => if is_continuation b3 then utf8_status s3 else Utf8Invalid
                    end
                  else Utf8Invalid
              end
            else Utf8Invalid
        end
      else Utf8Invalid
  end.

Definition is_control (b : byte) : bool := in_range 1 8 b || in_range 14 31 b || in_range 127 127 b.

(** The ratio of control bytes is a quotient of two integers below 8193, compared with the
    double next to 0.30: it is above exactly when ten times the count is above three times
    the length, because two such quotients that differ do so by far more than a rounding. *)
Definition is_binary_content_sample (content : list byte) (file_size : N) : bool :=
  if decide (content = []) then false
  else
    let check_len := Nat.min (length content) BINARY_SNIFF_BYTES in
    let window := take check_len content in
    if existsb (λ b, bool_decide (b = x00)) window then true
    else if match utf8_status window with
            | Utf8Valid => false
            | Utf8CutOff => negb (N.of_nat check_len <? file_size)%N
            | Utf8Invalid => true
            end then true
    else 3 * length window <? 10 * length (filter (λ b, Is_true (is_control b)) window).

Definition is_generated_output_dir_name (name : str) : bool :=
  let n := lowercase name in
  one_of ["dist"; "build"; "out"; "output"; "cache"; ".cache"; "generated"] n
  || ends_with (bs "-out") n || ends_with (bs "-output") n.

Definition unsupported_language_decision (d : AdmissionDecision) : AdmissionDecision :=
  if decide (d_tier d = TierNormal) then skip TierMetadataOnly UnsupportedLanguage else d.

Section Admission.
Context `{CaseTables}.

Definition is_denylisted_extension (ext : str) : bool := one_of DENYLISTED_EXTENSIONS (to_lowercase ext).

Definition path_admission_reason (path : str) (size : N) : option MetadataOnlyReason :=
  if is_dependency_lockfile path then Some Lockfile
  else if match path_extension path with Some ext => is_denylisted_extension ext | None => false end
  then Some GeneratedOrVendor
  else
    let code := l ← (ext ← path_extension path; from_extension ext); if is_code_language l then Some l else None in
    let size_threshold := match code with Some _ => METADATA_ONLY_CODE_BYTES | None => METADATA_ONLY_BYTES end in
    if (size_threshold <? size)%N then Some OversizedData else None.

Definition classify_admission (path : str) (file_size : N) (content_sample : option (list byte)) : AdmissionDecision :=
  if (HARD_SKIP_BYTES <? file_size)%N then skip TierHardSkip SizeCeiling
  else match path_admission_reason path file_size with
       | Some reason =>
           skip TierMetadataOnly
             (match reason with
              | Lockfile => DependencyLockfile
              | OversizedData => SizeThreshold
              | _ => DenylistedExtension
              end)
       | None =>
           if match content_sample with Some content => is_binary_content_sample content file_size | None => false end
           then skip TierMetadataOnly BinaryContent
           else normal
       end.

(** live_index/store.rs: the disposition of a decision, and the decision a disposition is
    reported as. *)
Definition disposition_from_admission (d : AdmissionDecision) : FileDisposition :=
  match d_tier d with
  | TierHardSkip => HardSkip (if decide (d_reason d = Some SizeCeiling) then PerFileCeiling else ArtifactType)
  | TierMetadataOnly =>
      MetadataOnly
        (match d_reason d with
         | Some DependencyLockfile => Lockfile
         | Some BinaryContent => BinaryFile
         | Some SizeThreshold => OversizedData
         | Some (DenylistedExtension | GeneratedOutput | Untracked) => GeneratedOrVendor
         | Some SizeCeiling => OversizedData
         | Some (UnsupportedTextEncoding | PolicyWithheld | LfsPointer | UnsupportedPath | Unreadable) => UndecodableText
         | Some UnsupportedLanguage | None => UndecodableText
         end)
  | TierNormal => MetadataOnly UndecodableText
  end.

(** The components of [Path::parent]. *)
Definition parent_components (path : str) : list str :=
  match reverse (path_components path) with [] => [] | _ :: rest => reverse rest end.

Definition compatibility_admission_decision (entry : CatalogEntry) : option AdmissionDecision :=
  match ce_disposition entry with
  | Indexed _ _ => None
  | MetadataOnly reason =>
      Some (skip TierMetadataOnly
        (match reason with
         | Lockfile => DependencyLockfile
         | BinaryFile => BinaryContent
         | OversizedData => SizeThreshold
         | GeneratedOrVendor =>
             let path := scouted_catalog_path (ce_path entry) in
             let admission := classify_admission path (ce_size entry) None in
             if decide (d_reason admission = Some DenylistedExtension) then DenylistedExtension
             else if is_generated (ce_classification entry) || is_vendor (ce_classification entry)
                     || existsb is_generated_output_dir_name (parent_components path)
             then GeneratedOutput
             else Untracked
         | SensitivePath _ | SensitiveContent _ _ => PolicyWithheld
         | LfsPointerFile _ _ => LfsPointer
         | UnsupportedPathEncoding | PathMetadataTooLarge => UnsupportedPath
         | UndecodableText => UnsupportedTextEncoding
         end))
  | HardSkip reason =>
      Some (skip TierHardSkip (match reason with PerFileCeiling => SizeCeiling | ArtifactType => DenylistedExtension end))
  | UnreadableFile _ _ | UnstableDuringRead | AbortedCircuitBreaker => Some (skip TierMetadataOnly Unreadable)
  end.

End Admission.

(** ** Indexed files (live_index/store.rs) *)

Record ParseDiagnostic := mkDiagnostic {
  pd_parser : str;
  pd_message : str;
  pd_line : option N;
  pd_column : option N;
  pd_byte_span : option (N * N);
  pd_fallback_used : bool;
}.

(** The per-file status of the index, with the diagnostic text. *)
Inductive FileParse :=
| FileParsed
| FilePartial (warning : str)
| FileFailed (error : str).

(** The alias map is the list of its entries. *)
Record IndexedFile := mkIndexedFile {
  f_relative_path : str;
  f_language : LanguageId;
  f_classification : FileClassification;
  f_content : list byte;
  f_symbols : list SymbolRecord;
  f_parse_status : FileParse;
  f_parse_diagnostic : option ParseDiagnostic;
  f_byte_len : N;
  f_content_hash : str;
  f_references : list ReferenceRecord;
  f_alias_map : list (str * str);
  f_mtime_secs : N;
}.

(** A file that parsed without remarks, for examples. *)
Definition parsed_file (language : LanguageId) (content : list byte) (symbols : list SymbolRecord)
    (references : list ReferenceRecord) : IndexedFile :=
  mkIndexedFile [] language (for_code_path []) content symbols FileParsed None (N.of_nat (length content)) []
    references [] 0.

(** ** The language tables *)

Lemma contains_str_true pat s : contains_str pat s = true ↔ ∃ before after, s = before ++ pat ++ after.
Proof.
  unfold contains_str. rewrite bool_decide_eq_true. split.
  - intros [i Hi]. revert i Hi. induction s as [|b s IH]; simpl; intros i Hi;
      destruct (starts_with pat _) eqn:E; try done.
    1,2: apply starts_with_true in E as [r E]; by exists [], r.
    apply fmap_Some in Hi as (k & Hk & ->). destruct (IH k Hk) as (u & v & ->). by exists (b :: u), v.
  - intros (u & v & ->). induction u as [|b u IH]; simpl.
    + assert (starts_with pat (pat ++ v) = true) as E by (apply starts_with_true; eauto).
      destruct (pat ++ v); simpl; by rewrite E.
    + destruct (starts_with pat _); [done|]. by rewrite fmap_is_Some.
Qed.

Lemma one_of_spec names s : one_of names s = true ↔ s ∈ bs <$> names.
Proof.
  unfold one_of. rewrite existsb_exists, list_elem_of_fmap. split.
  - intros (n & Hn%list_elem_of_In & E%bool_decide_eq_true). by exists n.
  - intros (n & E & Hn). exists n. split; [by apply list_elem_of_In|]. by apply bool_decide_eq_true.
Qed.

(** The two tables of a language agree.  [from_extension] recognises an extension, in
    whatever case it is written, as a language exactly when the lower-case extension is one
    of that language's [extensions]; no extension belongs to two languages. *)
Theorem extension_tables_agree ext l :
  from_extension ext = Some l ↔ lowercase ext ∈ bs <$> extensions l.
Proof.
  unfold from_extension. split.
  - repeat (case_match; [intros ?; simplify_eq; by apply one_of_spec|]). done.
  - rewrite list_elem_of_fmap. intros (n & -> & Hn). destruct l; simpl in Hn;
      repeat (apply elem_of_cons in Hn as [->|Hn]; [vm_compute; reflexivity|]); by apply elem_of_nil in Hn.
Qed.

(** ** Text that is cut off *)

Lemma utf8_status_cut s : valid_utf8 s = true → ∀ k, utf8_status (take k s) ≠ Utf8Invalid.
Proof.
  remember (length s) as n eqn:En. revert s En. induction n as [n IH] using lt_wf_ind; intros s En Hv k.
  assert (Hrec : ∀ t j, length t < n → valid_utf8 t = true → utf8_status (take j t) ≠ Utf8Invalid)
    by (intros t j Ht Hvt; by eapply (IH (length t))). clear IH.
  destruct s as [|b0 s0]; [by rewrite take_nil|]. destruct k as [|k]; [done|]. simpl in *.
  destruct (in_range 0 127 b0); [apply Hrec; [lia|done]|].
  destruct s0 as [|b1 s1]; [done|]. destruct (in_range 194 223 b0) eqn:E2.
  { apply andb_true_iff in Hv as [H1 Hv]. destruct k as [|k]; [done|]. simpl in *. rewrite H1.
    apply Hrec; [lia|done]. }
  destruct s1 as [|b2 s2]; [done|]. destruct (in_range 224 239 b0) eqn:E3.
  { apply andb_true_iff in Hv as [[H1 H2]%andb_true_iff Hv]. destruct k as [|k]; [done|]. simpl in *.
    unfold second_of_three. rewrite H1. destruct k as [|k]; [done|]. simpl. rewrite H2. apply Hrec; [lia|done]. }
  destruct s2 as [|b3 s3]; [done|].
  apply andb_true_iff in Hv as [[[[H0 H1]%andb_true_iff H2]%andb_true_iff H3]%andb_true_iff Hv].
  rewrite H0. destruct k as [|k]; [done|]. simpl in *. unfold second_of_four. rewrite H1.
  destruct k as [|k]; [done|]. simpl. rewrite H2. destruct k as [|k]; [done|]. simpl. rewrite H3.
  apply Hrec; [lia|done].
Qed.

Lemma utf8_status_whole s : valid_utf8 s = true → utf8_status s = Utf8Valid.
Proof.
  remember (length s) as n eqn:En. revert s En. induction n as [n IH] using lt_wf_ind; intros s En Hv.
  assert (Hrec : ∀ t, length t < n → valid_utf8 t = true → utf8_status t = Utf8Valid)
    by (intros t Ht Hvt; by eapply (IH (length t))). clear IH.
  destruct s as [|b0 s0]; [done|]. simpl in *. destruct (in_range 0 127 b0); [apply Hrec; [lia|done]|].
  destruct s0 as [|b1 s1]; [done|]. destruct (in_range 194 223 b0) eqn:E2.
  { apply andb_true_iff in Hv as [-> Hv]. apply Hrec; [simpl in *; lia|done]. }
  destruct s1 as [|b2 s2]; [done|]. destruct (in_range 224 239 b0) eqn:E3.
  { apply andb_true_iff in Hv as [[H1 ->]%andb_true_iff Hv]. unfold second_of_three. rewrite H1.
    apply Hrec; [simpl in *; lia|done]. }
  destruct s2 as [|b3 s3]; [done|].
  apply andb_true_iff in Hv as [[[[-> H1]%andb_true_iff ->]%andb_true_iff ->]%andb_true_iff Hv].
  unfold second_of_four. rewrite H1. apply Hrec; [simpl in *; lia|done].
Qed.

(** The window that the binary sniff looks at when a file is sampled. *)
Definition sniffed (sample : list byte) : list byte := take BINARY_SNIFF_BYTES sample.

(** A text file is not taken for binary because of where its sample ends.  Whatever
    prefix of a valid UTF-8 file is sampled, the sniff calls it binary only for the bytes
    it saw: a NUL, or control characters that are more than three tenths of them.  The cut
    may fall inside a character. *)
Theorem sampled_text_not_binary content k :
  valid_utf8 content = true → k ≤ length content →
  is_binary_content_sample (take k content) (N.of_nat (length content)) = true ↔
  x00 ∈ sniffed (take k content) ∨
  3 * length (sniffed (take k content)) <
    10 * length (filter (λ b, Is_true (is_control b)) (sniffed (take k content))).
Proof.
  intros Hv Hk. unfold is_binary_content_sample, sniffed. case_decide as E0.
  { rewrite E0. simpl. split; [done|]. intros [?%elem_of_nil|?]; [done|simpl in *; lia]. }
  assert (Ew : take (Nat.min (length (take k content)) BINARY_SNIFF_BYTES) (take k content) =
               take BINARY_SNIFF_BYTES (take k content)).
  { destruct (decide (length (take k content) ≤ BINARY_SNIFF_BYTES)).
    - rewrite Nat.min_l by done. rewrite !(take_ge (take k content)); done || lia.
    - rewrite Nat.min_r by lia. done. }
  rewrite Ew. set (w := take BINARY_SNIFF_BYTES (take k content)).
  destruct (existsb _ w) eqn:En.
  { split; [intros _; left|done]. apply existsb_exists in En as (b & Hb%list_elem_of_In & ->%bool_decide_eq_true). done. }
  assert (Hn : x00 ∉ w).
  { intros Hin. apply not_true_iff_false in En. apply En, existsb_exists. exists x00.
    split; [by apply list_elem_of_In|by apply bool_decide_eq_true]. }
  assert (Es : match utf8_status w with
               | Utf8Valid => false
               | Utf8CutOff => negb (N.of_nat (Nat.min (length (take k content)) BINARY_SNIFF_BYTES) <? N.of_nat (length content))%N
               | Utf8Invalid => true
               end = false).
  { destruct (decide (length content ≤ Nat.min (length (take k content)) BINARY_SNIFF_BYTES)) as [Hle|Hlt].
    - assert (w = content) as ->; [|by rewrite utf8_status_whole].
      unfold w. rewrite length_take in Hle. rewrite !take_ge; [done|lia|rewrite length_take; lia].
    - pose proof (utf8_status_cut content Hv (Nat.min BINARY_SNIFF_BYTES k)) as Hc.
      unfold w. rewrite take_take. destruct (utf8_status _); [done| |done].
      apply negb_false_iff, N.ltb_lt. lia. }
  rewrite Es. rewrite Nat.ltb_lt. tauto.
Qed.

(** ** Reported and decided *)

(** The response projected from the manifest gives back what admission decided.  A file
    whose path, size and sample were not admitted is catalogued with the disposition of
    that decision, and [compatibility_admission_decision] then reports the same tier and
    the same reason; an indexed file is never reported as skipped. *)
Theorem reported_reason_is_decided `{CaseTables} path size sample entry :
  scouted_catalog_path (ce_path entry) = path → ce_size entry = size →
  let d := classify_admission path size sample in
  d_tier d ≠ TierNormal → ce_disposition entry = disposition_from_admission d →
  compatibility_admission_decision entry = Some d.
Proof.
  intros Ep Es d Hd Ed. unfold compatibility_admission_decision. rewrite Ed, Ep, Es. clear Ed.
  subst d. unfold classify_admission in *. destruct (HARD_SKIP_BYTES <? size)%N eqn:Eh; [done|].
  destruct (path_admission_reason path size) as [reason|] eqn:Er; [|].
  2: { destruct sample as [content|]; [destruct (is_binary_content_sample content size)|]; simpl in *; done. }
  unfold path_admission_reason in Er. repeat case_match; simplify_eq; done.
Qed.

(** ** Witnesses *)

Definition demo_text : list byte := [x61; xe2; x94; x80; x62].

Lemma sampled_text_not_binary_witness :
  valid_utf8 demo_text = true ∧ utf8_status (take 2 demo_text) = Utf8CutOff ∧
  (is_binary_content_sample (take 2 demo_text) 5 = true ↔
   x00 ∈ sniffed (take 2 demo_text) ∨
   3 * length (sniffed (take 2 demo_text)) < 10 * length (filter (λ b, Is_true (is_control b)) (sniffed (take 2 demo_text)))) ∧
  is_binary_content_sample (take 2 demo_text) 5 = false.
Proof.
  split_and!; [vm_compute; reflexivity|vm_compute; reflexivity| |vm_compute; reflexivity].
  apply (sampled_text_not_binary demo_text 2); [vm_compute; reflexivity|simpl; lia].
Defined.

#[local] Instance ascii_tables : CaseTables := lowercase.

Definition demo_entry : CatalogEntry :=
  mkCatalogEntry (mkCatalogPath [] (Some (bs "assets/logo.PNG"))) 10 None (for_code_path (bs "assets/logo.PNG"))
    (disposition_from_admission (classify_admission (bs "assets/logo.PNG") 10 None)) None.

Lemma reported_reason_is_decided_witness :
  d_tier (classify_admission (bs "assets/logo.PNG") 10 None) ≠ TierNormal ∧
  classify_admission (bs "assets/logo.PNG") 10 None = skip TierMetadataOnly DenylistedExtension ∧
  compatibility_admission_decision demo_entry = Some (classify_admission (bs "assets/logo.PNG") 10 None).
Proof.
  split_and!; [vm_compute; discriminate|vm_compute; reflexivity|].
  apply (reported_reason_is_decided (bs "assets/logo.PNG") 10 None demo_entry);
    [reflexivity|reflexivity|vm_compute; discriminate|reflexivity].
Defined.
