(* ===== verification/TextLines.v ===== *)
(** * Lines of a byte string

    The extractors walk a file line by line and report byte offsets.  [number_lines] gives
    every piece between two line feeds its number and its offset; [is_line] says what that
    means for the content, without a loop.  The table of line starts and the lookup of a line
    in it (parsing/config_extractors/mod.rs) are related to it. *)

From Stdlib Require Import Lia Strings.Byte.
From stdpp Require Import base gmap list strings numbers option sorting.
From S2P Require Import Prelude Slices Text Domain.

#[local] Open Scope nat_scope.

(** ** The numbered lines *)

Fixpoint number_lines (i o : nat) (ps : list str) : list (nat * nat * str) :=
  match ps with
  | [] => []
  | p :: ps => (i, o, p) :: number_lines (S i) (o + length p + 1) ps
  end.

Definition newlines (s : list byte) : nat := length (filter (λ b, is_newline b = true) s).

(** [p] is line [i] of [content] and starts at offset [o]. *)
Definition is_line (content : list byte) (i o : nat) (p : str) : Prop :=
  ∃ pre post, content = pre ++ p ++ post ∧ o = length pre ∧ i = newlines pre ∧
    (pre = [] ∨ ∃ u, pre = u ++ [x0a]) ∧ x0a ∉ p ∧ (post = [] ∨ ∃ v, post = x0a :: v).

Definition text_lines (content : list byte) : list (nat * nat * str) :=
  number_lines 0 0 (split_bytes is_newline content).

Lemma is_newline_true b : is_newline b = true ↔ b = x0a.
Proof. apply bool_decide_eq_true. Qed.

Lemma newlines_app a b : newlines (a ++ b) = newlines a + newlines b.
Proof. unfold newlines. by rewrite filter_app, length_app. Qed.

Lemma newlines_step b s : newlines (b :: s) = (if is_newline b then 1 else 0) + newlines s.
Proof. unfold newlines. rewrite filter_cons. destruct (is_newline b); [|done]. by rewrite decide_True by done. Qed.

Lemma newlines_clean s : x0a ∉ s → newlines s = 0.
Proof.
  induction s as [|b s IH]; [done|]. rewrite not_elem_of_cons, newlines_step. intros [Hb Hs].
  rewrite (IH Hs). destruct (is_newline b) eqn:E; [|done]. apply is_newline_true in E. congruence.
Qed.

Lemma number_lines_shift ps i o x :
  x ∈ number_lines i o ps ↔ ∃ i' o' p, (i', o', p) ∈ number_lines 0 0 ps ∧ x = (i + i', o + o', p).
Proof.
  revert i o x. induction ps as [|q ps IH]; intros i o x; cbn [number_lines].
  { split; [by intros ?%elem_of_nil|]. by intros (? & ? & ? & ?%elem_of_nil & _). }
  rewrite elem_of_cons, IH. setoid_rewrite elem_of_cons. setoid_rewrite (IH 1). split.
  - intros [->|(i' & o' & p & H & ->)].
    + exists 0, 0, q. split; [by left|]. f_equal; [f_equal; lia].
    + exists (1 + i'), (0 + length q + 1 + o'), p. split; [right; eauto|]. f_equal; [f_equal; lia].
  - intros (i' & o' & p & [[= -> -> ->]|(i1 & o1 & p1 & H & [= -> -> ->])] & ->).
    + left. f_equal; [f_equal; lia].
    + right. exists i1, o1, p1. split; [done|]. f_equal; [f_equal; lia].
Qed.

Lemma is_line_newline s i o p :
  is_line (x0a :: s) i o p ↔ (i = 0 ∧ o = 0 ∧ p = []) ∨ ∃ i' o', i = S i' ∧ o = S o' ∧ is_line s i' o' p.
Proof.
  split.
  - intros (pre & post & E & -> & -> & Hpre & Hp & Hpost). destruct pre as [|a pre].
    { left. destruct p as [|b p]; [done|]. injection E as <- _. by apply not_elem_of_cons in Hp as [??]. }
    injection E as <- E. right. exists (newlines pre), (length pre). split; [by rewrite newlines_step|].
    split; [done|]. exists pre, post. repeat split; try done.
    destruct Hpre as [?|[[|? u] Hu]]; [done| |]; injection Hu as ->; [by left|right; eauto].
  - intros [(-> & -> & ->)|(i' & o' & -> & -> & pre & post & -> & -> & -> & Hpre & Hp & Hpost)].
    + exists [], (x0a :: s). repeat split; [by left|apply not_elem_of_nil|right; eauto].
    + exists (x0a :: pre), post. repeat split; try done.
      right. destruct Hpre as [->|[u ->]]; [by exists []|by exists (x0a :: u)].
Qed.

Lemma is_line_other b s i o p :
  b ≠ x0a →
  is_line (b :: s) i o p ↔
  (i = 0 ∧ o = 0 ∧ ∃ q, p = b :: q ∧ is_line s 0 0 q) ∨ (o ≠ 0 ∧ ∃ o', o' ≠ 0 ∧ o = S o' ∧ is_line s i o' p).
Proof.
  intros Hb. split.
  - intros (pre & post & E & -> & -> & Hpre & Hp & Hpost). destruct pre as [|a pre].
    + left. destruct p as [|c p]; simpl in E.
      { destruct Hpost as [->|[v ->]]; simplify_eq. }
      injection E as <- E. apply not_elem_of_cons in Hp as [_ Hp]. do 2 (split; [done|]). exists p. split; [done|].
      exists [], post. repeat split; try done.
    + injection E as <- E. right. split; [done|]. destruct Hpre as [?|[u Hu]]; [done|].
      destruct u as [|a u]; injection Hu as ? Hu; [done|]. subst a pre. exists (length (u ++ [x0a])).
      split; [rewrite length_app; simpl; lia|]. split; [done|]. exists (u ++ [x0a]), post. repeat split; eauto.
      rewrite newlines_step. destruct (is_newline b) eqn:Eb; [|done]. by apply is_newline_true in Eb.
  - intros [(-> & -> & q & -> & pre & post & -> & Ho & Hi & Hpre & Hp & Hpost)|
            (_ & o' & Ho' & -> & pre & post & -> & -> & -> & Hpre & Hp & Hpost)].
    + destruct pre; [|done]. exists [], post. repeat split; [by left|apply not_elem_of_cons; auto|done].
    + exists (b :: pre), post. repeat split; try done.
      * rewrite newlines_step. destruct (is_newline b) eqn:Eb; [|done]. by apply is_newline_true in Eb.
      * right. destruct Hpre as [->|[u ->]]; [done|]. by exists (b :: u).
Qed.

Lemma elem_of_text_lines content i o p : (i, o, p) ∈ text_lines content ↔ is_line content i o p.
Proof.
  unfold text_lines. revert i o p. induction content as [|b s IH]; intros i o p; cbn [split_bytes].
  { cbn [number_lines]. rewrite list_elem_of_singleton. split.
    - intros [= -> -> ->]. exists [], []. repeat split; [by left|apply not_elem_of_nil|by left].
    - intros (pre & post & E & -> & -> & _). symmetry in E. apply app_eq_nil in E as [-> [-> _]%app_eq_nil]. done. }
  destruct (is_newline b) eqn:Eb.
  - apply is_newline_true in Eb as ->. rewrite is_line_newline. cbn [number_lines].
    rewrite elem_of_cons, number_lines_shift. setoid_rewrite IH. split.
    + intros [[= -> -> ->]|(i' & o' & q & H & [= -> -> ->])]; [by left|]. right. exists i', o'. eauto.
    + intros [(-> & -> & ->)|(i' & o' & -> & -> & H)]; [by left|]. right. exists i', o', p. split; [done|]. done.
  - assert (b ≠ x0a) as Hb by (intros ->; done). rewrite is_line_other by done.
    destruct (split_bytes is_newline s) as [|l ls] eqn:Es; [by apply split_bytes_nonempty in Es|].
    cbn [number_lines length] in *. setoid_rewrite elem_of_cons in IH.
    rewrite elem_of_cons, number_lines_shift. split.
    + intros [[= -> -> ->]|(i' & o' & q & H & [= -> -> ->])].
      * left. do 2 (split; [done|]). exists l. split; [done|]. apply IH. by left.
      * right. split; [lia|]. exists (length l + 1 + o'). split; [lia|]. split; [lia|]. apply IH. right.
        apply number_lines_shift. exists i', o', q. split; [done|]. do 2 f_equal.
    + intros [(-> & -> & q & -> & [[= ->]|H]%IH)|(_ & o' & Ho' & -> & [[= -> -> ->]|H]%IH)].
      * by left.
      * apply number_lines_shift in H as (? & ? & ? & _ & [= ? ? ?]).
      * done.
      * right. apply number_lines_shift in H as (i' & o1 & q & H & [= -> -> ->]). exists i', o1, q. split; [done|].
        do 2 f_equal.
Qed.

(** ** Every offset is on one line *)

Lemma number_lines_lookup ps i o k x : number_lines i o ps !! k = Some x → x.1.1 = i + k.
Proof.
  revert i o k. induction ps as [|p ps IH]; intros i o [|k]; cbn; [done|done|intros [= <-]; cbn; lia|].
  intros H%IH. lia.
Qed.

Lemma text_lines_lookup content i o p : is_line content i o p → text_lines content !! i = Some (i, o, p).
Proof.
  intros H%elem_of_text_lines. apply list_elem_of_lookup in H as [k Hk].
  pose proof (number_lines_lookup _ _ _ _ _ Hk) as E. cbn in E. by subst k.
Qed.

Lemma is_line_inside content i o p : is_line content i o p → o + length p ≤ length content.
Proof. intros (pre & post & -> & -> & _). rewrite !length_app. lia. Qed.

(** The offsets on line [i] are those after [i] line feeds. *)
Lemma is_line_newlines content i o p k :
  is_line content i o p → o ≤ k ≤ o + length p → newlines (take k content) = i.
Proof.
  intros (pre & post & -> & -> & -> & _ & Hp & _) Hk.
  rewrite take_app, take_ge by lia. rewrite newlines_app, take_app_le by lia.
  rewrite (newlines_clean (take _ p)); [lia|]. intros H. apply Hp. rewrite <-(take_drop (k - length pre) p). apply elem_of_app. by left.
Qed.

Lemma line_of_offset content k :
  k ≤ length content → ∃ i o p, is_line content i o p ∧ o ≤ k ≤ o + length p.
Proof.
  revert k. induction content as [|b s IH]; intros k Hk.
  { exists 0, 0, []. split; [apply elem_of_text_lines; left|simpl in *; lia]. }
  destruct (decide (b = x0a)) as [->|Hb].
  - destruct k as [|k]; [exists 0, 0, []; split; [apply is_line_newline; by left|simpl; lia]|].
    destruct (IH k) as (i & o & p & H & Ho); [simpl in Hk; lia|]. exists (S i), (S o), p.
    split; [apply is_line_newline; right; eauto|lia].
  - destruct (IH (pred k)) as (i & o & p & H & Ho); [simpl in Hk; lia|].
    destruct o as [|o].
    + assert (i = 0) as -> by (destruct H as (pre & ? & _ & E & -> & _); by destruct pre).
      exists 0, 0, (b :: p). split; [|simpl; lia]. apply is_line_other; [done|]. left. eauto.
    + destruct k as [|k]; [simpl in Ho; lia|]. exists i, (S (S o)), p. split; [|simpl in Ho; lia].
      apply is_line_other; [done|]. right. split; [done|]. exists (S o). done.
Qed.

(** Two lines do not overlap: their order is the order of their offsets. *)
Lemma is_line_before content i o p i' o' p' :
  is_line content i o p → is_line content i' o' p' → i < i' → o + length p < o'.
Proof.
  intros H H' Hi. destruct (decide (o + length p < o')) as [|Hn]; [done|].
  pose proof (is_line_newlines _ _ _ _ o' H') as E'. pose proof (is_line_newlines _ _ _ _ o' H) as E.
  assert (¬ o ≤ o') as Ho by (intros ?; specialize (E ltac:(lia)); specialize (E' ltac:(lia)); lia).
  pose proof (is_line_newlines _ _ _ _ o H ltac:(lia)) as Eo. specialize (E' ltac:(lia)).
  assert (newlines (take o' content) ≤ newlines (take o content)); [|lia].
  replace (take o content) with (take o' content ++ take (o - o') (drop o' content)).
  2: { rewrite take_drop_commute. replace (o' + (o - o')) with o by lia.
       rewrite <-(take_drop o' (take o content)) at 2. rewrite take_take. by replace (o' `min` o) with o' by lia. }
  rewrite newlines_app. lia.
Qed.

(** ** The table of line starts *)

Definition build_line_starts_from (i : nat) (content : list byte) : list N :=
  omap (λ e, if is_newline e.2 then Some (as_u32 (e.1 + 1)) else None) (imap (λ k b, (i + k, b)) content).

Definition build_line_starts (content : list byte) : list N := 0%N :: build_line_starts_from 0 content.

Definition byte_to_line (line_starts : list N) (offset : N) : N :=
  match binary_search line_starts offset with
  | Found idx => as_u32 idx
  | Absent idx => as_u32 (idx - 1)
  end.

Lemma build_line_starts_from_cons i b s :
  build_line_starts_from i (b :: s) =
  (if is_newline b then [as_u32 (i + 1)] else []) ++ build_line_starts_from (S i) s.
Proof.
  unfold build_line_starts_from. cbn. rewrite Nat.add_0_r. rewrite (imap_ext _ (λ k b, (S i + k, b))).
  - by destruct (is_newline b).
  - intros k x _. cbn. f_equal. lia.
Qed.

Lemma number_lines_starts content i o :
  (λ x, as_u32 x.1.2) <$> number_lines i o (split_bytes is_newline content) =
  as_u32 o :: build_line_starts_from o content.
Proof.
  revert i o. induction content as [|b s IH]; intros i o; [done|]. rewrite build_line_starts_from_cons.
  cbn [split_bytes]. destruct (is_newline b).
  - cbn. rewrite IH. cbn. rewrite Nat.add_0_r, Nat.add_1_r. done.
  - specialize (IH i (S o)). destruct (split_bytes is_newline s) as [|l ls] eqn:Es; [by apply split_bytes_nonempty in Es|].
    cbn in IH |- *. injection IH as IH. rewrite <-IH. do 2 f_equal. f_equal. lia.
Qed.

Lemma line_starts_lines content : build_line_starts content = (λ x, as_u32 x.1.2) <$> text_lines content.
Proof. unfold text_lines. rewrite number_lines_starts. done. Qed.

Lemma line_starts_lookup content i o p :
  is_line content i o p → build_line_starts content !! i = Some (as_u32 o).
Proof. intros H%text_lines_lookup. by rewrite line_starts_lines, list_lookup_fmap, H. Qed.

(** ** From an offset to its line *)

(** A file below 4 GiB, so that no offset is truncated. *)
Definition fits_u32 (content : list byte) : Prop := (N.of_nat (length content) < u32_modulus)%N.

Lemma as_u32_fits n : (N.of_nat n < u32_modulus)%N → as_u32 n = N.of_nat n.
Proof. apply N.mod_small. Qed.

Lemma newlines_length s : newlines s ≤ length s.
Proof. unfold newlines. apply length_filter. Qed.

Lemma text_lines_sorted content i j x y :
  text_lines content !! i = Some x → text_lines content !! j = Some y → i < j → x.1.2 < y.1.2.
Proof.
  intros Hx Hy Hij. pose proof (number_lines_lookup _ _ _ _ _ Hx) as Ex. pose proof (number_lines_lookup _ _ _ _ _ Hy) as Ey.
  apply list_elem_of_lookup_2 in Hx, Hy. destruct x as [[ix ox] px], y as [[iy oy] py].
  apply elem_of_text_lines in Hx, Hy. cbn in *. subst. pose proof (is_line_before _ _ _ _ _ _ _ Hx Hy Hij). lia.
Qed.

Lemma StronglySorted_lookup {A} (R : relation A) l :
  (∀ i j x y, l !! i = Some x → l !! j = Some y → i < j → R x y) → StronglySorted R l.
Proof.
  induction l as [|a l IH]; intros H; constructor.
  - apply IH. intros i j x y Hx Hy Hij. apply (H (S i) (S j)); [done|done|lia].
  - apply Forall_lookup. intros i x Hx. apply (H 0 (S i)); [done|done|lia].
Qed.

Lemma line_starts_sorted content : fits_u32 content → strictly_sorted (build_line_starts content).
Proof.
  intros Hf. rewrite line_starts_lines. apply StronglySorted_lookup. intros i j x y Hx Hy Hij.
  apply list_lookup_fmap_Some in Hx as ([[ix ox] px] & -> & Hx), Hy as ([[iy oy] py] & -> & Hy).
  pose proof (text_lines_sorted _ _ _ _ _ Hx Hy Hij) as Hlt. cbn in Hlt |- *.
  apply list_elem_of_lookup_2, elem_of_text_lines, is_line_inside in Hx, Hy. unfold fits_u32 in Hf.
  rewrite !as_u32_fits by lia. lia.
Qed.

Lemma byte_to_line_is_line content i o p k :
  fits_u32 content → is_line content i o p → o ≤ k ≤ o + length p →
  byte_to_line (build_line_starts content) (N.of_nat k) = N.of_nat i.
Proof.
  intros Hf Hl Hk. pose proof (is_line_inside _ _ _ _ Hl) as Hin. pose proof (line_starts_lookup _ _ _ _ Hl) as Ho.
  assert (as_u32 o = N.of_nat o) as Eo by (apply as_u32_fits; unfold fits_u32 in Hf; lia).
  assert (i ≤ length content) as Hi by (rewrite <-(is_line_newlines _ _ _ _ _ Hl Hk); rewrite newlines_length, length_take; lia).
  pose proof (line_starts_sorted _ Hf) as Hs.
  assert (∀ j y, build_line_starts content !! j = Some y → (y ≤ N.of_nat k)%N → j ≤ i) as Hafter.
  { intros j y Hj Hy. destruct (decide (j ≤ i)) as [|Hn]; [done|]. exfalso.
    rewrite line_starts_lines in Hj. apply list_lookup_fmap_Some in Hj as ([[ij oj] pj] & -> & Hj).
    pose proof (number_lines_lookup _ _ _ _ _ Hj) as Ej. apply list_elem_of_lookup_2, elem_of_text_lines in Hj.
    cbn in Ej, Hy. subst ij. pose proof (is_line_inside _ _ _ _ Hj). unfold fits_u32 in Hf. rewrite as_u32_fits in Hy by lia.
    pose proof (is_line_before _ _ _ _ _ _ _ Hl Hj ltac:(lia)). lia. }
  unfold byte_to_line, fits_u32 in *. pose proof (binary_search_spec _ (N.of_nat k) Hs) as Hb.
  destruct (binary_search _ _) as [idx|idx].
  - pose proof (Hafter idx _ Hb ltac:(lia)) as Hle. destruct (decide (idx = i)) as [->|]; [apply as_u32_fits; lia|].
    pose proof (strictly_sorted_lookup _ _ _ _ _ Hs Hb Ho ltac:(lia)). lia.
  - destruct Hb as (Hlen & Hlo & Hhi).
    assert (i < idx) as Hidx by (destruct (decide (i < idx)); [done|]; pose proof (Hhi _ _ Ho ltac:(lia)); lia).
    destruct (lookup_lt_is_Some_2 (build_line_starts content) (idx - 1)) as [y Hy]; [lia|].
    pose proof (Hlo _ _ Hy ltac:(lia)). pose proof (Hafter _ _ Hy ltac:(lia)).
    rewrite as_u32_fits by lia. lia.
Qed.

(** ** The position of a diagnostic *)

Definition is_cr (b : byte) : bool := bool_decide (b = x0d).

Definition byte_offset_to_line_column (content : list byte) (byte_offset : nat) : N * N :=
  let capped := byte_offset `min` length content in
  let prefix := take capped content in
  let line := u32_add (as_u32 (length (filter (λ b, is_newline b = true) prefix))) 1 in
  let line_start := from_option S 0 (rposition is_newline prefix) in
  let column := u32_add (as_u32 (length (filter (λ b, is_cr b = false) (take (capped - line_start) (drop line_start content))))) 1 in
  (line, column).

Lemma rposition_last s t f : f t = true → ∀ u, Forall (λ b, f b = false) u → rposition f (s ++ t :: u) = Some (length s).
Proof.
  intros Ht u Hu. induction s as [|b s IH]; cbn.
  - assert (rposition f u = None) as ->; [|by rewrite Ht]. induction Hu as [|b u Hb Hu IH]; [done|]. cbn. by rewrite IH, Hb.
  - by rewrite IH.
Qed.

Lemma rposition_none f u : Forall (λ b, f b = false) u → rposition f u = None.
Proof. induction 1 as [|b u Hb Hu IH]; [done|]. cbn. by rewrite IH, Hb. Qed.

Lemma not_newline_Forall p : x0a ∉ p → Forall (λ b, is_newline b = false) p.
Proof. intros H. apply Forall_forall. intros b Hb. apply bool_decide_eq_false. by intros ->. Qed.

(** The position reported for an offset is the number of its line and, in it, the number of
    bytes other than carriage returns before the offset, both from one. *)
Lemma byte_offset_to_line_column_is_line content i o p k :
  fits_u32 content → is_line content i o p → o ≤ k ≤ o + length p →
  byte_offset_to_line_column content k =
  (u32_add (N.of_nat i) 1, u32_add (N.of_nat (length (filter (λ b, is_cr b = false) (take (k - o) p)))) 1).
Proof.
  intros Hf Hl Hk. pose proof (is_line_newlines _ _ _ _ _ Hl Hk) as Hn. pose proof (is_line_inside _ _ _ _ Hl) as Hin.
  unfold byte_offset_to_line_column, fits_u32 in *. replace (k `min` length content) with k by lia.
  fold (newlines (take k content)). rewrite Hn.
  assert (from_option S 0 (rposition is_newline (take k content)) = o) as ->.
  { destruct Hl as (pre & post & -> & -> & _ & Hpre & Hp & _).
    assert (Forall (λ b, is_newline b = false) (take (k - length pre) p)) as Hc by (by apply Forall_take, not_newline_Forall).
    rewrite take_app, take_ge, take_app_le by lia. destruct Hpre as [->|[u ->]].
    - rewrite (rposition_none is_newline) by done. done.
    - rewrite <-app_assoc. cbn [app]. rewrite (rposition_last _ _ is_newline) by done. rewrite length_app. cbn. lia. }
  assert (take (k - o) (drop o content) = take (k - o) p) as ->.
  { destruct Hl as (pre & post & -> & -> & _). rewrite drop_app_length, take_app_le by lia. done. }
  assert (i ≤ length content) by (rewrite <-Hn, newlines_length, length_take; lia).
  pose proof (length_filter (λ b, is_cr b = false) (take (k - o) p)) as Hlf. rewrite length_take in Hlf.
  rewrite !as_u32_fits by lia. done.
Qed.
