(* ===== verification/ConfigExtract.v ===== *)
(** * Configuration extractors

    Models src/src/parsing/config_extractors/mod.rs and env.rs: the result of an extraction,
    the capability of a language for edits, key paths and their escapes, positions of
    diagnostics, and the extractor of [.env] files.  [LawfulExtractor] is what an extractor
    promises to the parser (parsing/mod.rs): it returns, and every symbol lies inside the file
    and is numbered in order.  The extractors of Markdown and TOML have files of their own. *)

From Stdlib Require Import Lia Strings.Byte.
From stdpp Require Import base gmap list strings numbers option sorting pretty.
From S2P Require Import Prelude Slices Text Domain Classification TextLines.

#[local] Open Scope nat_scope.

Definition MAX_DEPTH : N := 6.

(** ** Capabilities and results *)

Inductive EditCapability := IndexOnly | TextEditSafe | StructuralEditSafe.

#[global] Instance EditCapability_eq_dec : EqDecision EditCapability.
Proof. solve_decision. Defined.

Inductive ExtractionOutcome :=
| ExtractOk
| ExtractPartial (d : ParseDiagnostic)
| ExtractFailed (d : ParseDiagnostic).

Record ExtractionResult := mkExtraction {
  x_symbols : list SymbolRecord;
  x_outcome : ExtractionOutcome;
}.

Definition edit_capability_for (language : LanguageId) : option EditCapability :=
  match language with
  | Json => Some TextEditSafe
  | Toml => Some StructuralEditSafe
  | Yaml => Some TextEditSafe
  | Markdown => Some TextEditSafe
  | Env => Some StructuralEditSafe
  | _ => None
  end.

Definition edit_capability_for_language (language : LanguageId) : option EditCapability :=
  match edit_capability_for language with
  | Some cap => Some cap
  | None =>
      match language with
      | Html | Css | Scss => Some TextEditSafe
      | _ => None
      end
  end.

(** protocol/edit_tools.rs: the labels and the suggestion of the warning, if there is one. *)
Definition edit_capability_label (capability : EditCapability) : str :=
  match capability with
  | IndexOnly => bs "index-only"
  | TextEditSafe => bs "text-edit-safe"
  | StructuralEditSafe => bs "structural-edit-safe"
  end.

Definition check_edit_capability (language : LanguageId) (required : EditCapability) : option (str * str * str) :=
  match edit_capability_for_language language with
  | Some cap =>
      let allowed :=
        match required with
        | IndexOnly => false
        | TextEditSafe => bool_decide (cap = TextEditSafe ∨ cap = StructuralEditSafe)
        | StructuralEditSafe => bool_decide (cap = StructuralEditSafe)
        end in
      if allowed then None
      else
        let suggestion :=
          match required with
          | StructuralEditSafe => bs "use edit_within_symbol for scoped text replacements, or the built-in Edit tool for raw text edits."
          | TextEditSafe => bs "use the built-in Edit tool for raw text edits in this file type."
          | IndexOnly => bs "inspect the file with read-only tools or use the built-in Edit tool for raw text edits."
          end in
        Some (edit_capability_label required, edit_capability_label cap, suggestion)
  | None => None
  end.

(** ** Diagnostics *)

Definition parse_diagnostic (parser message : str) (line column : option N) (byte_span : option (N * N))
    (fallback_used : bool) : ParseDiagnostic :=
  mkDiagnostic parser message line column byte_span fallback_used.

Definition parse_diagnostic_from_span (parser message : str) (content : list byte) (span : option (nat * nat))
    (fallback_used : bool) : ParseDiagnostic :=
  let byte_span :=
    (λ range : nat * nat,
       let start := range.1 `min` length content in
       let stop := (range.2 `min` length content) `max` start in
       (as_u32 start, as_u32 stop)) <$> span in
  let '(line, column) :=
    match byte_span with
    | Some (start, _) =>
        let '(line, column) := byte_offset_to_line_column content (N.to_nat start) in (Some line, Some column)
    | None => (None, None)
    end in
  parse_diagnostic parser message line column byte_span fallback_used.

Definition optional_u32 (value : nat) : option N :=
  if decide (value = 0) then None
  else if decide (N.of_nat value < u32_modulus)%N then Some (N.of_nat value) else None.

Definition location_display (d : ParseDiagnostic) : option str :=
  match pd_line d, pd_column d with
  | Some line, Some column => Some (bs "line " ++ bs (pretty line) ++ bs ", column " ++ bs (pretty column))
  | Some line, None => Some (bs "line " ++ bs (pretty line))
  | None, Some column => Some (bs "column " ++ bs (pretty column))
  | None, None => None
  end.

Definition summary (d : ParseDiagnostic) : str :=
  pd_parser d ++ bs ": " ++ pd_message d
  ++ match location_display d with Some location => bs " (" ++ location ++ bs ")" | None => [] end
  ++ if pd_fallback_used d then bs " [fallback symbol extraction used]" else [].

(** [Utf8Error]: where the text stops being UTF-8, and how many bytes are wrong there if more
    text cannot repair it.  [next!] runs out of bytes with [None]. *)
Fixpoint utf8_error (at_ : nat) (s : list byte) : option (nat * option nat) :=
  match s with
  | [] => None
  | b0 :: s0 =>
      if in_range 0 127 b0 then utf8_error (at_ + 1) s0
      else if in_range 194 223 b0 then
        match s0 with
        | [] => Some (at_, None)
        | b1 :: s1 => if is_continuation b1 then utf8_error (at_ + 2) s1 else Some (at_, Some 1)
        end
      else if in_range 224 239 b0 then
        match s0 with
        | [] => Some (at_, None)
        | b1 :: s1 =>
            if second_of_three b0 b1 then
              match s1 with
              | [] => Some (at_, None)
              | b2 :: s2 => if is_continuation b2 then utf8_error (at_ + 3) s2 else Some (at_, Some 2)
              end
            else Some (at_, Some 1)
        end
      else if in_range 240 244 b0 then
        match s0 with
        | [] => Some (at_, None)
        | b1 :: s1 =>
            if second_of_four b0 b1 then
              match s1 with
              | [] => Some (at_, None)
              | b2 :: s2 =>
                  if is_continuation b2 then
                    match s2 with
                    | [] => Some (at_, None)
                    | b3 :: s3 => if is_continuation b3 then utf8_error (at_ + 4) s3 else Some (at_, Some 3)
                    end
                  else Some (at_, Some 2)
              end
            else Some (at_, Some 1)
        end
      else Some (at_, Some 1)
  end.

Definition utf8_error_display (e : nat * option nat) : str :=
  match e.2 with
  | Some n => bs "invalid utf-8 sequence of " ++ bs (pretty n) ++ bs " bytes from index " ++ bs (pretty e.1)
  | None => bs "incomplete utf-8 byte sequence from index " ++ bs (pretty e.1)
  end.

(** ** Key paths *)

Definition escape_byte (b : byte) : list byte :=
  if decide (b = "~"%byte) then bs "~0"
  else if decide (b = "."%byte) then bs "~1"
  else if decide (b = "["%byte) then bs "~2"
  else if decide (b = "]"%byte) then bs "~3"
  else [b].

Definition escape_key_segment (raw : str) : str := raw ≫= escape_byte.

Definition join_key_path (parent child : str) : str :=
  let escaped := escape_key_segment child in
  if decide (parent = []) then escaped else parent ++ bs "." ++ escaped.

Definition join_array_index (parent : str) (index : nat) : str :=
  parent ++ bs "[" ++ bs (pretty index) ++ bs "]".

(** toml_ext.rs. *)
Fixpoint unescape_key_path (s : str) : str :=
  match s with
  | [] => []
  | c :: rest =>
      if decide (c = "~"%byte) then
        match rest with
        | "0"%byte :: rest => "~"%byte :: unescape_key_path rest
        | "1"%byte :: rest => "."%byte :: unescape_key_path rest
        | "2"%byte :: rest => "["%byte :: unescape_key_path rest
        | "3"%byte :: rest => "]"%byte :: unescape_key_path rest
        | _ => c :: unescape_key_path rest
        end
      else c :: unescape_key_path rest
  end.

(** ** The extractor of [.env] files *)

Definition env_symbol (name : str) (sort_order : N) (line_idx : N) (byte_range : N * N) : SymbolRecord :=
  mkSymbol name Variable_ 0 sort_order byte_range (line_idx, line_idx) None (Some byte_range).

(** One round of the loop; [line_starts[line_idx]] panics out of range. *)
Definition env_line (line_starts : list N) (line_idx : nat) (line : str) (st : list SymbolRecord * N) :
    Outcome (list SymbolRecord * N) :=
  let '(symbols, sort_order) := st in
  let trimmed := trim_end line in
  if bool_decide (trimmed = []) || starts_with (bs "#") trimmed then Done (symbols, sort_order)
  else
    match find_str (bs "=") trimmed with
    | None => Done (symbols, sort_order)
    | Some eq_pos =>
        let key := trim (take eq_pos trimmed) in
        if decide (key = []) then Done (symbols, sort_order)
        else
          match line_starts !! line_idx with
          | None => Panic
          | Some line_start =>
              let line_byte_len := as_u32 (length trimmed) in
              let line_end := u32_add line_start line_byte_len in
              Done (symbols ++ [env_symbol key sort_order (as_u32 line_idx) (line_start, line_end)],
                    u32_add sort_order 1)
          end
    end.

Fixpoint env_lines (line_starts : list N) (line_idx : nat) (ls : list str) (st : list SymbolRecord * N) :
    Outcome (list SymbolRecord * N) :=
  match ls with
  | [] => Done st
  | line :: ls => st ← env_line line_starts line_idx line st; env_lines line_starts (S line_idx) ls st
  end.

Definition env_extract (content : list byte) : Outcome ExtractionResult :=
  match utf8_error 0 content with
  | Some e =>
      Done (mkExtraction []
        (ExtractFailed (parse_diagnostic (bs "utf-8") (bs "Invalid UTF-8: " ++ utf8_error_display e) None None None false)))
  | None =>
      let line_starts := build_line_starts content in
      st ← env_lines line_starts 0 (lines content) ([], 0%N);
      Done (mkExtraction st.1 ExtractOk)
  end.

(** ** Errors of UTF-8 *)

Lemma utf8_error_None k s : length s ≤ k → ∀ n, utf8_error n s = None ↔ valid_utf8 s = true.
Proof.
  revert s. induction k as [|k IH]; intros s Hk n; [by destruct s; [|simpl in Hk; lia]|].
  destruct s as [|b0 s0]; [done|]. simpl in Hk. cbn [utf8_error valid_utf8].
  destruct (in_range 0 127 b0); [apply IH; lia|]. destruct s0 as [|b1 s1]; [by repeat case_match|]. simpl in Hk.
  destruct (in_range 194 223 b0); [destruct (is_continuation b1); [apply IH; lia|done]|].
  destruct s1 as [|b2 s2]; [by repeat case_match|]. simpl in Hk. fold (second_of_three b0 b1) (second_of_four b0 b1).
  destruct (in_range 224 239 b0).
  { destruct (second_of_three b0 b1), (is_continuation b2); cbn; [apply IH; lia|done..]. }
  destruct s2 as [|b3 s3]; [by repeat case_match|]. simpl in Hk.
  destruct (in_range 240 244 b0), (second_of_four b0 b1), (is_continuation b2), (is_continuation b3); cbn;
    [apply IH; lia|done..].
Qed.

Lemma utf8_valid s : valid_utf8 s = true → utf8_error 0 s = None.
Proof. by apply (utf8_error_None (length s)). Qed.

(** ** Key paths can be read back *)

Definition plain (b : byte) : Prop := b ∉ ["."%byte; "["%byte; "]"%byte].

Lemma escape_byte_plain b : Forall plain (escape_byte b).
Proof.
  unfold escape_byte, plain. repeat case_decide; apply Forall_forall; intros c Hc;
    try (by revert c Hc; apply Forall_forall; repeat constructor; apply (bool_decide_eq_true_1 _); vm_compute).
  apply list_elem_of_singleton in Hc as ->. rewrite !not_elem_of_cons. repeat split; [done..|apply not_elem_of_nil].
Qed.

Lemma escape_plain raw : Forall plain (escape_key_segment raw).
Proof.
  unfold escape_key_segment. induction raw as [|b raw IH]; [constructor|]. rewrite bind_cons.
  apply Forall_app. split; [apply escape_byte_plain|exact IH].
Qed.

Lemma unescape_plain c rest : c ≠ "~"%byte → unescape_key_path (c :: rest) = c :: unescape_key_path rest.
Proof. intros Hc. cbn [unescape_key_path]. by rewrite decide_False. Qed.

Lemma unescape_escape_app raw rest : unescape_key_path (escape_key_segment raw ++ rest) = raw ++ unescape_key_path rest.
Proof.
  unfold escape_key_segment. induction raw as [|b raw IH]; [done|]. rewrite bind_cons, <-app_assoc.
  unfold escape_byte at 1. repeat case_decide; subst; cbn [app bs String.list_byte_of_string] in *.
  all: try (cbn; rewrite decide_True by done; by rewrite IH).
  rewrite unescape_plain by done. by rewrite IH.
Qed.

Lemma unescape_escape raw : unescape_key_path (escape_key_segment raw) = raw.
Proof. pose proof (unescape_escape_app raw []) as E. by rewrite !app_nil_r in E. Qed.

Lemma escape_nil raw : escape_key_segment raw = [] → raw = [].
Proof. intros E. rewrite <-(unescape_escape raw), E. done. Qed.

(** A path is built from keys and array indices. *)
Inductive Segment := KeySegment (key : str) | IndexSegment (index : nat).

Definition extend_path (path : str) (s : Segment) : str :=
  match s with
  | KeySegment key => join_key_path path key
  | IndexSegment index => join_array_index path index
  end.

Definition key_path (segments : list Segment) : str := fold_left extend_path segments [].

Definition render (s : Segment) : str :=
  match s with
  | KeySegment key => "."%byte :: escape_key_segment key
  | IndexSegment index => "["%byte :: bs (pretty index) ++ bs "]"
  end.

Lemma bs_inj s t : bs s = bs t → s = t.
Proof.
  unfold bs. intros E. rewrite <-(String.string_of_list_byte_of_string s), <-(String.string_of_list_byte_of_string t).
  by rewrite E.
Qed.

Lemma bs_String c s : bs (String c s) = Ascii.byte_of_ascii c :: bs s.
Proof. done. Qed.

Lemma pretty_char_plain x : plain (Ascii.byte_of_ascii (pretty_N_char x)).
Proof.
  unfold pretty_N_char, plain. repeat case_match; apply (bool_decide_eq_true_1 _); vm_compute; reflexivity.
Qed.

Lemma pretty_plain (n : nat) : Forall plain (bs (pretty n)).
Proof.
  assert (∀ x s, Forall plain (bs s) → Forall plain (bs (pretty_N_go x s))) as H.
  { intros x. induction (N.lt_wf_0 x) as [x _ IH]. intros s Hs. destruct (decide (x = 0)%N) as [->|].
    - by rewrite pretty_N_go_0.
    - rewrite pretty_N_go_step by lia. apply IH; [apply N.div_lt; lia|]. rewrite bs_String.
      constructor; [apply pretty_char_plain|done]. }
  unfold pretty, pretty_nat, pretty, pretty_N. case_decide; [|apply H; constructor].
  repeat constructor. apply (bool_decide_eq_true_1 _). vm_compute. reflexivity.
Qed.

Lemma plain_cut a b x y :
  Forall plain a → Forall plain b → (∀ c, head x = Some c → ¬ plain c) → (∀ c, head y = Some c → ¬ plain c) →
  a ++ x = b ++ y → a = b ∧ x = y.
Proof.
  intros Ha. revert b. induction Ha as [|c a Hc Ha IH]; intros b Hb Hx Hy E.
  - destruct b as [|d b]; [done|]. cbn in E. subst x. apply Forall_cons in Hb as [Hd _]. by destruct (Hx d).
  - destruct b as [|d b]; cbn in E.
    + subst y. by destruct (Hy c).
    + injection E as -> E. apply Forall_cons in Hb as [_ Hb]. by destruct (IH b Hb Hx Hy E) as [-> ->].
Qed.

Lemma extend_path_app path ss : path ≠ [] → fold_left extend_path ss path = path ++ (ss ≫= render).
Proof.
  revert path. induction ss as [|s ss IH]; intros path Hp; [by rewrite app_nil_r|]. cbn [fold_left]. rewrite bind_cons.
  assert (extend_path path s = path ++ render s) as ->.
  { destruct s; cbn; [unfold join_key_path; by rewrite decide_False|done]. }
  rewrite IH; [by rewrite app_assoc|]. by destruct path.
Qed.

Lemma render_head ss c : head (ss ≫= render) = Some c → ¬ plain c.
Proof.
  unfold plain. destruct ss as [|[] ss]; cbn; [done| |]; intros [= <-] H; apply H; set_solver.
Qed.

Lemma render_inj ss : ∀ ss', ss ≫= render = ss' ≫= render → ss = ss'.
Proof.
  induction ss as [|s ss IH]; intros [|s' ss'] E; [done|by destruct s'|by destruct s|].
  rewrite !bind_cons in E. destruct s as [k|i], s' as [k'|i']; cbn in E; try done; injection E as E.
  - apply plain_cut in E as [Ek ->%IH]; [|apply escape_plain|apply escape_plain|apply render_head|apply render_head].
    do 2 f_equal. rewrite <-(unescape_escape k), <-(unescape_escape k'). by rewrite Ek.
  - rewrite <-!app_assoc in E.
    apply plain_cut in E as [Ei Er]; [|apply pretty_plain|apply pretty_plain| |];
      [|intros c [= <-] H; apply H; set_solver..].
    apply bs_inj in Ei. apply (inj pretty) in Ei as ->. injection Er as ->%IH. done.
Qed.

(** The key paths of a configuration file identify its entries: two different sequences
    of keys and array indices, each beginning with a key that is not empty, have different
    paths, whatever characters the keys hold. *)
Theorem key_paths_are_distinct key ss key' ss' :
  key ≠ [] → key' ≠ [] →
  key_path (KeySegment key :: ss) = key_path (KeySegment key' :: ss') → key = key' ∧ ss = ss'.
Proof.
  intros Hk Hk'. unfold key_path. cbn [fold_left extend_path]. unfold join_key_path. rewrite !decide_True by done.
  rewrite !extend_path_app by (intros ?%escape_nil; done).
  intros [Ek Es%render_inj]%plain_cut; [|apply escape_plain|apply escape_plain|apply render_head|apply render_head].
  split; [|done]. rewrite <-(unescape_escape key), <-(unescape_escape key'). by rewrite Ek.
Qed.

Lemma key_paths_are_distinct_witness :
  bs "a.b" ≠ [] ∧ bs "a" ≠ [] ∧
  key_path [KeySegment (bs "a.b"); IndexSegment 0] ≠ key_path [KeySegment (bs "a"); KeySegment (bs "b[0]")].
Proof.
  split; [done|]. split; [done|]. intros E. by destruct (key_paths_are_distinct _ _ _ _ ltac:(done) ltac:(done) E).
Defined.

(** An empty first key is lost: the entry [a] of the table named by the empty key has the path
    of the entry [a] of the document. *)
Theorem empty_key_loses_its_segment :
  key_path [KeySegment []; KeySegment (bs "a")] = key_path [KeySegment (bs "a")].
Proof. reflexivity. Qed.

(** ** What an extractor promises

    It returns, and its symbols are numbered in order and lie inside the file. *)

Definition in_content (content : list byte) (s : SymbolRecord) : Prop :=
  ((s_byte_range s).1 ≤ (s_byte_range s).2)%N ∧ ((s_byte_range s).2 ≤ N.of_nat (length content))%N ∧
  s_item_byte_range s = Some (s_byte_range s) ∧ s_doc_byte_range s = None.
#[global] Arguments in_content content s /.

Class LawfulExtractor (extract : list byte → Outcome ExtractionResult) : Prop := {
  extractor_returns content : fits_u32 content → ∃ r, extract content = Done r;
  extractor_inside content r k s :
    fits_u32 content → extract content = Done r → x_symbols r !! k = Some s →
    in_content content s ∧ s_sort_order s = as_u32 k;
}.

Lemma u32_add_as n m : u32_add (as_u32 n) (as_u32 m) = as_u32 (n + m).
Proof. unfold u32_add, as_u32. rewrite Nat2N.inj_add. rewrite <-N.Div0.add_mod. done. Qed.

(** The symbols so far and the number of the next one. *)
Definition numbered (content : list byte) (symbols : list SymbolRecord) (next : N) : Prop :=
  next = as_u32 (length symbols) ∧
  ∀ k s, symbols !! k = Some s → in_content content s ∧ s_sort_order s = as_u32 k.

Lemma numbered_nil content : numbered content [] 0.
Proof. split; [done|]. intros k s H. by rewrite lookup_nil in H. Qed.

Lemma numbered_push content symbols next s :
  numbered content symbols next → in_content content s → s_sort_order s = next → numbered content (symbols ++ [s]) (u32_add next 1).
Proof.
  intros [-> Hs] Hin Ho. split.
  - rewrite length_app. cbn. change 1%N with (as_u32 1) at 1. by rewrite u32_add_as.
  - intros k s' [Hk|[Hk Hl]]%lookup_app_Some; [by apply Hs|]. apply list_lookup_singleton_Some in Hl as [Ek <-].
    split; [done|]. rewrite Ho. f_equal. lia.
Qed.

(** ** Assignments of a [.env] file *)

(** [text] assigns to [name]: it is not a comment and [name] is what precedes its first
    equals sign, without the white space around it. *)
Definition assigns (text name : str) : Prop :=
  head text ≠ Some "#"%byte ∧ name ≠ [] ∧
  ∃ before value, text = before ++ "="%byte :: value ∧ "="%byte ∉ before ∧ trim before = name.

Definition assigned_name (text : str) : option str :=
  if bool_decide (text = []) || starts_with (bs "#") text then None
  else match find_str (bs "=") text with
       | None => None
       | Some eq_pos => let key := trim (take eq_pos text) in if decide (key = []) then None else Some key
       end.

Lemma trim_end_cr r : trim_end (r ++ [x0d]) = trim_end r.
Proof.
  unfold trim_end. rewrite reverse_app, length_app. cbn [length]. rewrite Nat.add_1_r. reflexivity.
Qed.

Lemma trim_end_strip_cr l : trim_end (strip_cr l) = trim_end l.
Proof.
  unfold strip_cr. destruct (strip_suffix [x0d] l) as [r|] eqn:E; [|done]. apply strip_suffix_Some in E as ->. cbn.
  by rewrite trim_end_cr.
Qed.

Lemma trim_end_prefix s : ∃ w, s = trim_end s ++ w.
Proof.
  unfold trim_end. destruct (trim_loop_suffix (length s) (reverse <$> whitespace_chars) (reverse s)) as [pre E].
  exists (reverse pre). rewrite <-reverse_app, <-E. by rewrite reverse_involutive.
Qed.

Lemma starts_with_byte c s : starts_with [c] s = true ↔ head s = Some c.
Proof.
  rewrite starts_with_true. split; [by intros [r ->]|]. destruct s as [|b s]; [done|]. intros [= ->]. by exists s.
Qed.

Lemma find_byte c s i : find_str [c] s = Some i → c ∉ take i s ∧ ∃ v, s = take i s ++ c :: v.
Proof.
  revert i. induction s as [|b s IH]; intros i; cbn [find_str]; destruct (starts_with [c] _) eqn:E.
  - by apply starts_with_byte in E.
  - done.
  - apply starts_with_byte in E as [= ->]. intros [= <-]. split; [apply not_elem_of_nil|]. by exists s.
  - intros (j & Hj & ->)%fmap_Some. destruct (IH j Hj) as [Hc [v Ev]]. cbn. split; [|exists v; by rewrite <-Ev].
    apply not_elem_of_cons. split; [|done]. intros ->. rewrite (proj2 (starts_with_byte b (b :: s))) in E; done.
Qed.

Lemma find_byte_first c u v : c ∉ u → find_str [c] (u ++ c :: v) = Some (length u).
Proof.
  induction u as [|b u IH]; cbn [app find_str length]; intros Hc.
  - by rewrite (proj2 (starts_with_byte c (c :: v))).
  - apply not_elem_of_cons in Hc as [Hb Hc]. rewrite (IH Hc). destruct (starts_with [c] (b :: u ++ c :: v)) eqn:E; [|done].
    by apply starts_with_byte in E as [= ->].
Qed.

Lemma assigned_name_spec text name : assigned_name text = Some name ↔ assigns text name.
Proof.
  unfold assigned_name, assigns. split.
  - destruct (bool_decide (text = []) || starts_with (bs "#") text) eqn:E; [done|]. apply orb_false_elim in E as [_ Eh].
    destruct (find_str (bs "=") text) as [i|] eqn:Ef; [|done]. case_decide as Hk; [done|]. intros [= <-].
    apply find_byte in Ef as [Hc [v Ev]]. split; [|split; [done|eauto]]. intros Hh%(starts_with_byte "#"%byte).
    change (bs "#") with ["#"%byte] in Eh. congruence.
  - intros (Hh & Hn & u & v & -> & Hu & Ht). change (bs "=") with ["="%byte]. rewrite find_byte_first by done.
    rewrite take_app_length, Ht, decide_False by done.
    assert (starts_with (bs "#") (u ++ "="%byte :: v) = false) as ->.
    { apply not_true_is_false. by rewrite (starts_with_byte "#"%byte). }
    by rewrite bool_decide_eq_false_2 by (by destruct u).
Qed.

(** *** The loop *)

(** The symbols of the numbered lines, in order. *)
Fixpoint env_symbols (k : nat) (ls : list (nat * nat * str)) : list SymbolRecord :=
  match ls with
  | [] => []
  | (i, o, p) :: ls =>
      match assigned_name (trim_end p) with
      | Some name => env_symbol name (as_u32 k) (as_u32 i) (as_u32 o, u32_add (as_u32 o) (as_u32 (length (trim_end p))))
                     :: env_symbols (S k) ls
      | None => env_symbols k ls
      end
  end.

Lemma env_line_spec starts i o p symbols k :
  starts !! i = Some (as_u32 o) →
  env_line starts i p (symbols, as_u32 k) =
  match assigned_name (trim_end p) with
  | Some name =>
      Done (symbols ++ [env_symbol name (as_u32 k) (as_u32 i) (as_u32 o, u32_add (as_u32 o) (as_u32 (length (trim_end p))))],
            as_u32 (S k))
  | None => Done (symbols, as_u32 k)
  end.
Proof.
  intros Ho. unfold env_line, assigned_name. destruct (_ || _); [done|]. destruct (find_str (bs "=") (trim_end p)); [|done].
  case_decide; [done|]. rewrite Ho. change 1%N with (as_u32 1). by rewrite (u32_add_as k 1), Nat.add_1_r.
Qed.

Lemma env_lines_spec starts ps i o symbols k :
  (∀ x, x ∈ number_lines i o ps → starts !! x.1.1 = Some (as_u32 x.1.2)) →
  ∃ m, env_lines starts i (lines_of ps) (symbols, as_u32 k) = Done (symbols ++ env_symbols k (number_lines i o ps), m).
Proof.
  revert i o symbols k. induction ps as [|p ps IH]; intros i o symbols k Hs; [exists (as_u32 k); by rewrite app_nil_r|].
  assert (starts !! i = Some (as_u32 o)) as Hi by (apply (Hs (i, o, p)); left).
  assert (∀ x, x ∈ number_lines (S i) (o + length p + 1) ps → starts !! x.1.1 = Some (as_u32 x.1.2)) as Hs'
    by (intros x Hx; apply Hs; by right).
  assert (∃ m, (st ← env_line starts i (strip_cr p) (symbols, as_u32 k); env_lines starts (S i) (lines_of ps) st) =
               Done (symbols ++ env_symbols k (number_lines i o (p :: ps)), m)) as [m Hm].
  { rewrite (env_line_spec _ _ _ _ _ _ Hi), trim_end_strip_cr. cbn [number_lines env_symbols].
    destruct (assigned_name (trim_end p)) as [name|]; cbn [mbind Outcome_bind].
    - destruct (IH (S i) (o + length p + 1) (symbols ++ [env_symbol name (as_u32 k) (as_u32 i) (as_u32 o, u32_add (as_u32 o) (as_u32 (length (trim_end p))))]) (S k) Hs') as [m Hm].
      exists m. rewrite Hm. by rewrite <-app_assoc.
    - apply IH, Hs'. }
  destruct ps as [|q ps]; [|exists m; exact Hm]. cbn [lines_of] in *. exists m. case_decide as Hp.
  - subst p. exact Hm.
  - rewrite <-Hm. cbn [env_lines]. by rewrite !(env_line_spec _ _ _ _ _ _ Hi), trim_end_strip_cr.
Qed.

Lemma env_extract_valid content :
  valid_utf8 content = true → env_extract content = Done (mkExtraction (env_symbols 0 (text_lines content)) ExtractOk).
Proof.
  intros Hv. unfold env_extract. rewrite (utf8_valid _ Hv). unfold lines, text_lines.
  destruct (env_lines_spec (build_line_starts content) (split_bytes is_newline content) 0 0 [] 0) as [m Hm].
  - intros [[i o] p] Hx. apply (line_starts_lookup content i o p). by apply elem_of_text_lines.
  - change (as_u32 0) with 0%N in Hm. by rewrite Hm.
Qed.

Lemma env_symbols_lookup k ls j s :
  env_symbols k ls !! j = Some s →
  ∃ i o p name, (i, o, p) ∈ ls ∧ assigned_name (trim_end p) = Some name ∧
    s = env_symbol name (as_u32 (k + j)) (as_u32 i) (as_u32 o, u32_add (as_u32 o) (as_u32 (length (trim_end p)))).
Proof.
  revert k j. induction ls as [|[[i o] p] ls IH]; intros k j; cbn [env_symbols]; [done|].
  destruct (assigned_name (trim_end p)) as [name|] eqn:E.
  - destruct j as [|j]; cbn.
    + intros [= <-]. exists i, o, p, name. rewrite Nat.add_0_r. repeat split; [left|done].
    + intros (i' & o' & p' & name' & H & E' & ->)%IH. exists i', o', p', name'.
      rewrite Nat.add_succ_r. repeat split; [by right|done].
  - intros (i' & o' & p' & name' & H & E' & ->)%IH. exists i', o', p', name'. repeat split; [by right|done].
Qed.

Lemma env_symbols_complete k ls i o p name :
  (i, o, p) ∈ ls → assigned_name (trim_end p) = Some name →
  ∃ n, env_symbol name (as_u32 n) (as_u32 i) (as_u32 o, u32_add (as_u32 o) (as_u32 (length (trim_end p)))) ∈ env_symbols k ls.
Proof.
  intros H E. revert k. induction ls as [|x ls IH]; intros k; [by apply elem_of_nil in H|].
  apply elem_of_cons in H as [<-|H].
  - exists k. cbn [env_symbols]. rewrite E. left.
  - destruct x as [[i' o'] p']. cbn [env_symbols]. destruct (assigned_name (trim_end p')); [|by apply IH].
    destruct (IH H (S k)) as [n Hn]. exists n. by right.
Qed.

Lemma length_env_symbols k ls : length (env_symbols k ls) ≤ length ls.
Proof.
  revert k. induction ls as [|[[i o] p] ls IH]; intros k; cbn [env_symbols length]; [lia|].
  destruct (assigned_name (trim_end p)); cbn [length]; [pose proof (IH (S k))|pose proof (IH k)]; lia.
Qed.

Lemma length_trim_end s : length (trim_end s) ≤ length s.
Proof. destruct (trim_end_prefix s) as [w E]. rewrite E at 2. rewrite length_app. lia. Qed.

Section fitting.
  Context (content : list byte) (Hf : fits_u32 content).

Lemma text_lines_index i : i < length (text_lines content) → i ≤ length content.
Proof.
  intros [[[i' o] p] Hx]%lookup_lt_is_Some_2. pose proof (number_lines_lookup _ _ _ _ _ Hx) as Ei. cbn in Ei. subst i'.
  apply list_elem_of_lookup_2, elem_of_text_lines in Hx. pose proof (is_line_inside _ _ _ _ Hx).
  rewrite <-(is_line_newlines _ _ _ _ o Hx ltac:(lia)), newlines_length, length_take. lia.
Qed.

Lemma env_range i o p :
  is_line content i o p →
  as_u32 i = N.of_nat i ∧ as_u32 o = N.of_nat o ∧
  u32_add (as_u32 o) (as_u32 (length (trim_end p))) = N.of_nat (o + length (trim_end p)).
Proof using Hf.
  intros H. pose proof (is_line_inside _ _ _ _ H) as Hin. pose proof (length_trim_end p) as Hp.
  pose proof (text_lines_index i ltac:(eapply lookup_lt_Some, text_lines_lookup, H)) as Hi.
  unfold fits_u32 in Hf. rewrite u32_add_as. rewrite !as_u32_fits by lia. done.
Qed.

Lemma env_symbol_at j s :
  env_symbols 0 (text_lines content) !! j = Some s →
  ∃ i o p, is_line content i o p ∧ assigns (trim_end p) (s_name s) ∧
    s = env_symbol (s_name s) (N.of_nat j) (N.of_nat i) (N.of_nat o, N.of_nat (o + length (trim_end p))).
Proof using Hf.
  intros H. pose proof (lookup_lt_Some _ _ _ H) as Hj. pose proof (length_env_symbols 0 (text_lines content)) as Hl.
  apply env_symbols_lookup in H as (i & o & p & name & H & E & ->). apply elem_of_text_lines in H.
  exists i, o, p. split; [done|]. split; [by apply assigned_name_spec|]. destruct (env_range _ _ _ H) as (-> & Eo & ->).
  rewrite Eo, as_u32_fits; [done|]. pose proof (text_lines_index j ltac:(lia)). unfold fits_u32 in Hf. lia.
Qed.

Lemma env_symbols_increasing : StronglySorted (λ a b, (s_line_range a).2 < (s_line_range b).1)%N (env_symbols 0 (text_lines content)).
Proof using Hf.
  assert (∀ ls k, (∀ x, x ∈ ls → is_line content x.1.1 x.1.2 x.2) → StronglySorted (λ x y, x.1.1 < y.1.1) ls →
    StronglySorted (λ a b, (s_line_range a).2 < (s_line_range b).1)%N (env_symbols k ls)) as H.
  { induction ls as [|[[i o] p] ls IH]; intros k Hl Hs; [constructor|]. apply StronglySorted_inv in Hs as [Hs Hh].
    cbn [env_symbols]. assert (∀ x, x ∈ ls → is_line content x.1.1 x.1.2 x.2) as Hl' by (intros x Hx; apply Hl; by right).
    destruct (assigned_name (trim_end p)); [|by apply IH]. constructor; [by apply IH|]. apply Forall_lookup.
    intros j s (i' & o' & p' & name & Hx & _ & ->)%env_symbols_lookup. rewrite Forall_forall in Hh. specialize (Hh _ Hx).
    apply Hl' in Hx. specialize (Hl (i, o, p) ltac:(left)). cbn in *.
    destruct (env_range _ _ _ Hx) as (-> & _), (env_range _ _ _ Hl) as (-> & _). lia. }
  apply H; [intros [[i o] p] Hx; by apply elem_of_text_lines|]. apply StronglySorted_lookup. intros i j x y Hx Hy Hij.
  apply number_lines_lookup in Hx, Hy. lia.
Qed.
End fitting.

(** The symbols of a [.env] file are its assignments: for a file below 4 GiB that is
    UTF-8, the extractor returns without a panic, its symbols are numbered and in the order
    of their lines, and there is a symbol exactly for every line that is not a comment and has
    a name before its first equals sign; its byte range is that line without the white space
    at its end. *)
Theorem env_symbols_are_the_assignments content :
  valid_utf8 content = true → fits_u32 content →
  ∃ symbols, env_extract content = Done (mkExtraction symbols ExtractOk) ∧
    (∀ k s, symbols !! k = Some s → s_sort_order s = N.of_nat k) ∧
    StronglySorted (λ a b, (s_line_range a).2 < (s_line_range b).1)%N symbols ∧
    ∀ name i o stop,
      (∃ k, env_symbol name (N.of_nat k) (N.of_nat i) (N.of_nat o, N.of_nat stop) ∈ symbols) ↔
      ∃ line, is_line content i o line ∧ assigns (trim_end line) name ∧ stop = o + length (trim_end line).
Proof.
  intros Hv Hf. exists (env_symbols 0 (text_lines content)). split; [by apply env_extract_valid|].
  split; [|split; [by apply env_symbols_increasing|]].
  { intros k s H. apply env_symbol_at in H as (i & o & p & _ & _ & E); [by rewrite E|done]. }
  intros name i o stop. split.
  - intros [k [j H]%list_elem_of_lookup]. apply env_symbol_at in H as (i' & o' & p & Hl & Ha & E); [|done].
    assert (i = i' ∧ o = o' ∧ stop = o' + length (trim_end p)) as (-> & -> & ->) by (injection E; lia). eauto.
  - intros (p & Hl & Ha%assigned_name_spec & ->). apply elem_of_text_lines in Hl as Hx.
    destruct (env_symbols_complete 0 _ _ _ _ _ Hx Ha) as [n Hn]. destruct (env_range _ Hf _ _ _ Hl) as (Ei & Eo & Es).
    rewrite Ei, Es, Eo in Hn. exists (N.to_nat (as_u32 n)). by rewrite N2Nat.id.
Qed.

#[global] Instance env_lawful : LawfulExtractor env_extract.
Proof.
  assert (∀ content, env_extract content = Done (mkExtraction (env_symbols 0 (text_lines content)) ExtractOk) ∨
                     ∃ d, env_extract content = Done (mkExtraction [] (ExtractFailed d))) as Hcases.
  { intros content. destruct (valid_utf8 content) eqn:Hv; [left; by apply env_extract_valid|right].
    unfold env_extract. destruct (utf8_error 0 content) eqn:E; [by eexists|].
    apply (utf8_error_None (length content)) in E; [congruence|done]. }
  split.
  - intros content _. destruct (Hcases content) as [->|[d ->]]; by eexists.
  - intros content r k s Hf Hr Hs. destruct (Hcases content) as [E|[d E]]; rewrite E in Hr; injection Hr as <-; [|done].
    apply env_symbols_lookup in Hs as Hs'. destruct Hs' as (i & o & p & name & Hl%elem_of_text_lines & _ & ->).
    destruct (env_range _ Hf _ _ _ Hl) as (_ & Eo & Er). rewrite Er, Eo. apply is_line_inside in Hl.
    pose proof (length_trim_end p). cbn. split; [|done]. split; [lia|]. split; [lia|done].
Qed.

(** A comment that is indented is not recognised: [trim_end] leaves its leading white space,
    so the line does not start with a number sign, and the comment becomes a variable. *)
Theorem indented_comment_is_a_variable :
  env_extract (bs "  # OLD=1") =
  Done (mkExtraction [env_symbol (bs "# OLD") 0 0 (0, 9)%N] ExtractOk).
Proof. vm_compute. reflexivity. Qed.

Lemma env_symbols_are_the_assignments_witness :
  ∃ symbols, env_extract (bs "A=1") = Done (mkExtraction symbols ExtractOk) ∧
    ∃ k, env_symbol (bs "A") (N.of_nat k) 0 (0, 3)%N ∈ symbols.
Proof.
  destruct (env_symbols_are_the_assignments (bs "A=1")) as (symbols & E & _ & _ & H); [reflexivity|reflexivity|].
  exists symbols. split; [exact E|]. apply (H (bs "A") 0 0 3). exists (bs "A=1"). split.
  - apply elem_of_text_lines. vm_compute. left.
  - split; [|reflexivity]. apply assigned_name_spec. vm_compute. reflexivity.
Defined.
