(* ===== verification/MarkdownExtract.v ===== *)
(** * The extractor of Markdown sections

    Models src/src/parsing/config_extractors/markdown.rs: the lines after the front matter,
    the headings outside fenced code, and the sections they open.  The text is decoded by
    [decode_searchable_text] of src/src/knowledge/mod.rs. *)

From Stdlib Require Import Lia Strings.Byte.
From stdpp Require Import base gmap list strings numbers option sorting pretty.
From S2P Require Import Prelude Slices Text Domain Classification TextLines ConfigExtract.

#[local] Open Scope nat_scope.

(** [take_while(|b| b == c).count()]. *)
Fixpoint count_leading (c : byte) (s : list byte) : nat :=
  match s with
  | b :: s => if decide (b = c) then S (count_leading c s) else 0
  | [] => 0
  end.

(** The text, and the length of the byte order mark before it. *)
Definition UTF8_BOM : list byte := [xef; xbb; xbf].

Definition decode_searchable_text (bytes : list byte) : option (str * nat) :=
  let '(text_bytes, leading_bytes) :=
    match strip_prefix UTF8_BOM bytes with Some without_bom => (without_bom, length UTF8_BOM) | None => (bytes, 0) end in
  text ← from_utf8 text_bytes; Some (text, leading_bytes).

(** ** Fences and headings of one line *)

Definition parse_code_fence (line : str) : option (byte * nat * bool) :=
  let leading_spaces := count_leading " "%byte line in
  if decide (3 < leading_spaces) then None
  else
    let trimmed := drop leading_spaces line in
    fence_char ← match head trimmed with
                 | Some "`"%byte => Some "`"%byte
                 | Some "~"%byte => Some "~"%byte
                 | _ => None
                 end;
    let run_length := count_leading fence_char trimmed in
    if decide (run_length < 3) then None
    else
      let info := drop run_length trimmed in
      Some (fence_char, run_length, bool_decide (trim info = [])).

Definition strip_closing_hashes (title : str) : str :=
  let closing_hashes := count_leading "#"%byte (reverse title) in
  if decide (0 < closing_hashes) then
    let before := length title - closing_hashes in
    if bool_decide (before = 0) || from_option is_ascii_whitespace false (title !! (before - 1))
    then trim_end (take before title) else title
  else title.

(** The level and the title of an ATX heading. *)
Definition atx_heading (line : str) : option (N * str) :=
  let leading_spaces := count_leading " "%byte line in
  let trimmed := drop (leading_spaces `min` length line) line in
  if bool_decide (leading_spaces ≤ 3) && starts_with (bs "#") trimmed then
    let hashes := count_leading "#"%byte trimmed in
    if decide (hashes ≤ 6) then
      let rest := drop hashes trimmed in
      if bool_decide (rest = []) || bool_decide (head rest = Some " "%byte) || bool_decide (head rest = Some x09)
      then Some (as_u32 hashes, strip_closing_hashes (trim rest)) else None
    else None
  else None.

Definition setext_level (line : str) : option N :=
  let leading_spaces := count_leading " "%byte line in
  let trimmed := drop (leading_spaces `min` length line) line in
  let underline := trim_end trimmed in
  let all_of (c : byte) := bool_decide (leading_spaces ≤ 3) && negb (bool_decide (underline = []))
                           && forallb (λ b, bool_decide (b = c)) underline in
  if all_of "="%byte then Some 1%N else if all_of "-"%byte then Some 2%N else None.

(** ** The lines after the front matter *)

Definition delimiter : str := bs "---".

(** After the opening line: the lines that follow the closing one and their offset. *)
Fixpoint close_frontmatter (raw : list str) (byte_offset : nat) : option (list str * nat) :=
  match raw with
  | [] => None
  | l :: raw =>
      let line_bytes := length l + 1 in
      if decide (strip_cr l = delimiter) then Some (raw, byte_offset + line_bytes)
      else close_frontmatter raw (byte_offset + line_bytes)
  end.

Definition skip_frontmatter (raw : list str) (byte_offset : nat) : option (list str * nat) :=
  match raw with
  | l :: rest => if decide (strip_cr l = delimiter) then close_frontmatter rest (byte_offset + (length l + 1))
                 else Some (raw, byte_offset)
  | [] => Some (raw, byte_offset)
  end.

Fixpoint collect_lines (newline_at_end : bool) (raw : list str) (byte_offset : nat) : list (nat * str) :=
  match raw with
  | [] => []
  | l :: rest =>
      let after := byte_offset + length l in
      (byte_offset, strip_cr l) ::
      collect_lines newline_at_end rest (if negb (bool_decide (rest = [])) || newline_at_end then after + 1 else after)
  end.

(** ** The headings of a file *)

Record HeaderInfo := mkHeader {
  h_level : N;
  h_text : str;
  h_byte_start : nat;
  h_line_index : nat;
}.

(** [in_fence] after a line, if the line is a fence. *)
Definition fence_step (fence : byte * nat * bool) (in_fence : option (byte * nat)) : option (byte * nat) :=
  let '(fence_char, fence_len, info_empty) := fence in
  match in_fence with
  | None => Some (fence_char, fence_len)
  | Some (open_char, open_len) =>
      if bool_decide (fence_char = open_char) && bool_decide (open_len ≤ fence_len) && info_empty then None
      else in_fence
  end.

(** The heading that an underline on line [li] makes of the line before it. *)
Definition setext_heading (lines : list (nat * str)) (li : nat) (line : str) (headers : list HeaderInfo) :
    Outcome (option HeaderInfo) :=
  match setext_level line with
  | Some level =>
      if decide (0 < li) then
        match lines !! (li - 1) with
        | None => Panic
        | Some (title_byte_start, title_line) =>
            let title := trim title_line in
            let prior_is_heading := existsb (λ h, bool_decide (h_line_index h = li - 1)) headers in
            Done (if negb (bool_decide (title = [])) && negb prior_is_heading
                     && bool_decide (parse_code_fence title_line = None) && negb (starts_with (bs "#") title)
                  then Some (mkHeader level title title_byte_start (li - 1)) else None)
        end
      else Done None
  | None => Done None
  end.

Definition header_line (lines : list (nat * str)) (li : nat) (byte_off : nat) (line : str)
    (st : list HeaderInfo * option (byte * nat)) : Outcome (list HeaderInfo * option (byte * nat)) :=
  let '(headers, in_fence) := st in
  match parse_code_fence line with
  | Some fence => Done (headers, fence_step fence in_fence)
  | None =>
      match in_fence with
      | Some _ => Done (headers, in_fence)
      | None =>
          match atx_heading line with
          | Some (level, title) => Done (headers ++ [mkHeader level title byte_off li], in_fence)
          | None =>
              found ← setext_heading lines li line headers;
              Done (headers ++ option_list found, in_fence)
          end
      end
  end.

Fixpoint header_lines (lines : list (nat * str)) (li : nat) (rest : list (nat * str))
    (st : list HeaderInfo * option (byte * nat)) : Outcome (list HeaderInfo * option (byte * nat)) :=
  match rest with
  | [] => Done st
  | (byte_off, line) :: rest =>
      st ← header_line lines li byte_off line st; header_lines lines (S li) rest st
  end.

(** ** The sections *)

(** The stack of open sections, the innermost first. *)
Fixpoint pop_sections (level : N) (stack : list (N * str)) : list (N * str) :=
  match stack with
  | (l, _) :: rest => if decide (level ≤ l)%N then pop_sections level rest else stack
  | [] => []
  end.

Definition base_path (stack : list (N * str)) (segment : str) : str :=
  if decide (stack = []) then segment else join (bs ".") (reverse stack.*2) ++ bs "." ++ segment.

Definition section_name (base : str) (count : N) : str :=
  if decide (count = 1%N) then base else base ++ bs "#" ++ bs (pretty count).

Definition next_section (level : N) (later : list HeaderInfo) : option HeaderInfo :=
  head (filter (λ h, (h_level h ≤ level)%N) later).

Definition section_symbol (name : str) (hi : nat) (header : HeaderInfo) (later : list HeaderInfo)
    (total_bytes : N) (line_count : nat) : SymbolRecord :=
  let next := next_section (h_level header) later in
  let byte_end := from_option (λ h, as_u32 (h_byte_start h)) total_bytes next in
  let byte_range := (as_u32 (h_byte_start header), byte_end) in
  let line_end := from_option (λ h, as_u32 (h_line_index h)) (as_u32 line_count) next in
  mkSymbol name Section_ (u32_sub (h_level header) 1) (as_u32 hi) byte_range
           (as_u32 (h_line_index header), line_end) None (Some byte_range).

Fixpoint build_sections (total_bytes : N) (line_count hi : nat) (headers : list HeaderInfo)
    (stack : list (N * str)) (seen_paths : gmap str N) : list SymbolRecord :=
  match headers with
  | [] => []
  | header :: later =>
      let stack := pop_sections (h_level header) stack in
      let segment := h_text header in
      let base := base_path stack segment in
      let count := u32_add (default 0%N (seen_paths !! base)) 1 in
      section_symbol (section_name base count) hi header later total_bytes line_count
      :: build_sections total_bytes line_count (S hi) later ((h_level header, segment) :: stack) (<[base := count]> seen_paths)
  end.

Definition markdown_extract (content : list byte) : Outcome ExtractionResult :=
  match decode_searchable_text content with
  | None => Done (mkExtraction [] (ExtractFailed (parse_diagnostic (bs "utf-8") (bs "Invalid UTF-8") None None None false)))
  | Some (text, leading_bytes) =>
      if decide (text = []) then Done (mkExtraction [] ExtractOk)
      else
        match skip_frontmatter (split_bytes is_newline text) leading_bytes with
        | None => Done (mkExtraction [] ExtractOk)
        | Some (raw, byte_offset) =>
            let lines := collect_lines (ends_with [x0a] text) raw byte_offset in
            st ← header_lines lines 0 lines ([], None);
            let headers := st.1 in
            if decide (headers = []) then Done (mkExtraction [] ExtractOk)
            else Done (mkExtraction (build_sections (as_u32 (length content)) (length lines) 0 headers [] ∅) ExtractOk)
        end
  end.

(** ** Examples of the test suite *)

Definition section_view (r : Outcome ExtractionResult) : list (str * N * (N * N) * (N * N)) :=
  match r with
  | Done r => (λ s, (s_name s, s_depth s, s_byte_range s, s_line_range s)) <$> x_symbols r
  | Panic => []
  end.

Example bom_and_crlf :
  section_view (markdown_extract
    ([xef; xbb; xbf] ++ bs "preface" ++ [x0d; x0a] ++ bs "# Section" ++ [x0d; x0a] ++ bs "line " ++ [xce; xb1] ++ [x0d; x0a]
     ++ bs "## Child" ++ [x0d; x0a] ++ bs "last")) =
  [(bs "Section", 0, (12, 46), (1, 5)); (bs "Section.Child", 1, (32, 46), (3, 5))]%N.
Proof. vm_compute. reflexivity. Qed.

(** ** Which lines are headings *)

Section headings.
  Context (ls : list (nat * str)).

(** The fence that is open before a line. *)
Definition fence_after (st : option (byte * nat)) (l : nat * str) : option (byte * nat) :=
  match parse_code_fence l.2 with Some fence => fence_step fence st | None => st end.
Definition fence_at (li : nat) : option (byte * nat) := fold_left fence_after (take li ls) None.

(** Line [li] is neither code nor a fence. *)
Definition is_text (li : nat) (l : str) : Prop := fence_at li = None ∧ parse_code_fence l = None.

(** [h] is an ATX heading. *)
Definition atx_at (h : HeaderInfo) : Prop :=
  ∃ l, ls !! h_line_index h = Some (h_byte_start h, l) ∧ is_text (h_line_index h) l ∧
       atx_heading l = Some (h_level h, h_text h).

(** [h] is a line of text that the next line underlines. *)
Definition setext_at (h : HeaderInfo) : Prop :=
  ∃ l o u, ls !! h_line_index h = Some (h_byte_start h, l) ∧ ls !! S (h_line_index h) = Some (o, u) ∧
    is_text (S (h_line_index h)) u ∧ atx_heading u = None ∧ setext_level u = Some (h_level h) ∧
    parse_code_fence l = None ∧ atx_heading l = None ∧
    h_text h = trim l ∧ h_text h ≠ [] ∧ starts_with (bs "#") (h_text h) = false.

Definition known (li : nat) (h : HeaderInfo) : Prop :=
  (atx_at h ∧ h_line_index h < li) ∨ (setext_at h ∧ S (h_line_index h) < li).

Definition before (a b : HeaderInfo) : Prop := h_line_index a < h_line_index b.

Definition scanned (li : nat) (st : list HeaderInfo * option (byte * nat)) : Prop :=
  st.2 = fence_at li ∧ StronglySorted before st.1 ∧ ∀ h, h ∈ st.1 ↔ known li h.

Lemma fence_at_S li x : ls !! li = Some x → fence_at (S li) = fence_after (fence_at li) x.
Proof. intros Hx. unfold fence_at. erewrite take_S_r by done. by rewrite fold_left_app. Qed.

Lemma known_lt li h : known li h → h_line_index h < li.
Proof. intros [[_ ?]|[_ ?]]; lia. Qed.

Lemma atx_at_unique h h' : atx_at h → atx_at h' → h_line_index h = h_line_index h' → h = h'.
Proof.
  destruct h as [lv t o i], h' as [lv' t' o' i']. cbn. intros (l & Hl & _ & E) (l' & Hl' & _ & E') ->. cbn in *.
  rewrite Hl in Hl'. injection Hl' as -> ->. rewrite E in E'. by injection E' as -> ->.
Qed.

(** A line that is not a heading by itself adds nothing but what it underlines. *)
Lemma known_S li h : known (S li) h ↔ known li h ∨ (atx_at h ∧ h_line_index h = li) ∨ (setext_at h ∧ S (h_line_index h) = li).
Proof.
  unfold known. split.
  - intros [[Ha Hi]|[Hs Hi]].
    + destruct (decide (h_line_index h = li)); [auto|]. left. left. split; [done|lia].
    + destruct (decide (S (h_line_index h) = li)); [auto|]. left. right. split; [done|lia].
  - intros [[[Ha ?]|[? ?]]|[[? ?]|[? ?]]]; [left|right|left|right]; (split; [done|lia]).
Qed.

Lemma scanned_skip li x st :
  ls !! li = Some x → scanned li st → (∀ l, x.2 = l → ¬ is_text li l) →
  scanned (S li) (st.1, fence_after st.2 x).
Proof.
  intros Hx (Hf & Hs & Hh) Hn. split; [cbn; by rewrite (fence_at_S _ _ Hx), Hf|]. split; [done|]. intros h. cbn.
  rewrite Hh, known_S. split; [auto|]. intros [?|[[(l & Hl & Ht & _) <-]|[(l & o & u & _ & Hu & Ht & _) <-]]]; [done| |].
  - rewrite Hx in Hl. injection Hl as ->. by destruct (Hn l eq_refl).
  - rewrite Hx in Hu. injection Hu as ->. by destruct (Hn u eq_refl).
Qed.

Lemma StronglySorted_snoc {A} (R : relation A) l x : StronglySorted R l → Forall (λ y, R y x) l → StronglySorted R (l ++ [x]).
Proof.
  induction 1 as [|a l Hs IH Ha]; cbn; intros Hx; [repeat constructor|]. apply Forall_cons in Hx as [Hax Hx].
  constructor; [by apply IH|]. apply Forall_app. auto.
Qed.

Lemma scanned_atx li o l level title headers :
  ls !! li = Some (o, l) → scanned li (headers, None) → parse_code_fence l = None → atx_heading l = Some (level, title) →
  scanned (S li) (headers ++ [mkHeader level title o li], None).
Proof.
  intros Hx (Hf & Hs & Hh) Hc Ha. cbn in *.
  assert (atx_at (mkHeader level title o li)) as Hat by (exists l; repeat split; auto).
  split; [cbn; rewrite (fence_at_S _ _ Hx), <-Hf; unfold fence_after; cbn; by rewrite Hc|]. split; cbn.
  - apply StronglySorted_snoc; [done|]. apply Forall_forall. intros h ?%Hh%known_lt. done.
  - intros h. rewrite elem_of_app, list_elem_of_singleton, Hh, known_S. split.
    + intros [?| ->]; [by left|]. right. left. split; [exact Hat|done].
    + intros [?|[[H Hi]|[H Hi]]]; [by left|right; by eapply atx_at_unique|]. exfalso.
      destruct H as (l' & o' & u & _ & Hu & _ & Hn & _). rewrite Hi, Hx in Hu. congruence.
Qed.

(** Only an ATX heading on the line before is already known. *)
Lemma prior_is_heading li o l headers :
  0 < li → ls !! (li - 1) = Some (o, l) → is_text (li - 1) l → scanned li (headers, None) →
  existsb (λ h, bool_decide (h_line_index h = li - 1)) headers = bool_decide (is_Some (atx_heading l)).
Proof.
  intros Hli Hl Ht (_ & _ & Hh). cbn in Hh. apply eq_true_iff_eq. rewrite existsb_exists, bool_decide_eq_true. split.
  - intros (h & Hin & Hi%bool_decide_eq_true). apply list_elem_of_In, Hh in Hin as [[(l' & Hl' & _ & E) _]|[_ ?]]; [|lia].
    rewrite Hi, Hl in Hl'. injection Hl' as _ <-. by eexists.
  - intros [[level title] E]. exists (mkHeader level title o (li - 1)). split; [|by apply bool_decide_eq_true].
    apply list_elem_of_In, Hh. left. split; [|cbn; lia]. exists l. auto.
Qed.

Lemma setext_heading_spec li o' line headers :
  ls !! li = Some (o', line) → scanned li (headers, None) → is_text li line → atx_heading line = None →
  ∃ found, setext_heading ls li line headers = Done found ∧ ∀ h, found = Some h ↔ setext_at h ∧ S (h_line_index h) = li.
Proof.
  intros Hx Hsc Ht Ha. unfold setext_heading. destruct (setext_level line) as [level|] eqn:El.
  2: { exists None. split; [done|]. intros h. split; [done|]. intros [(l & o & u & _ & Hu & _ & _ & E & _) Hi].
       rewrite Hi, Hx in Hu. congruence. }
  case_decide as Hli.
  2: { exists None. split; [done|]. intros h. split; [done|]. intros [_ Hi]. lia. }
  destruct (lookup_lt_is_Some_2 ls (li - 1)) as [[o l] Hl]; [apply lookup_lt_Some in Hx; lia|]. rewrite Hl.
  eexists. split; [done|]. intros h.
  assert (S (h_line_index h) = li → h_line_index h = li - 1) as Hpred by lia.
  destruct (decide (parse_code_fence l = None)) as [Hc|Hc].
  2: { rewrite (bool_decide_eq_false_2 (_ = None)), andb_false_r by done. split; [done|].
       intros [(l' & ? & ? & Hl' & _ & _ & _ & _ & Hc' & _) Hi%Hpred]. rewrite Hi, Hl in Hl'. congruence. }
  assert (is_text (li - 1) l) as Htl.
  { split; [|done]. destruct Ht as [Hf _]. replace li with (S (li - 1)) in Hf by lia.
    rewrite (fence_at_S _ _ Hl) in Hf. unfold fence_after in Hf. cbn in Hf. by rewrite Hc in Hf. }
  rewrite (prior_is_heading li o l headers Hli Hl Htl Hsc). rewrite (bool_decide_eq_true_2 (_ = None)), andb_true_r by done.
  split.
  - destruct (_ && _ && _) eqn:E; [|done]. intros [= <-]. cbn. split; [|lia].
    rewrite !andb_true_iff, !negb_true_iff, !bool_decide_eq_false in E. destruct E as [[En Ep] Es].
    exists l, o', line. cbn. replace (S (li - 1)) with li by lia. apply eq_None_not_Some in Ep. auto 20.
  - intros [(l' & o1 & u & Hl' & Hu & _ & _ & Es & _ & Ea & Et & En & Eh) Hi].
    rewrite Hi, Hx in Hu. injection Hu as <- <-. rewrite (Hpred Hi), Hl in Hl'. injection Hl' as -> <-.
    rewrite (bool_decide_eq_false_2 (trim l = [])) by congruence.
    rewrite (bool_decide_eq_false_2 (is_Some _)) by (by rewrite Ea; intros [? [=]]).
    rewrite <-Et, Eh. cbn. f_equal. destruct h as [lv t s i]. cbn in *. f_equal; [congruence|lia].
Qed.

Lemma header_line_scanned li o line st :
  ls !! li = Some (o, line) → scanned li st → ∃ st', header_line ls li o line st = Done st' ∧ scanned (S li) st'.
Proof.
  intros Hx Hsc. destruct st as [headers in_fence]. pose proof Hsc as (Hf & Hs & Hh). cbn in Hf, Hs, Hh. unfold header_line.
  destruct (parse_code_fence line) as [fence|] eqn:Ec.
  { eexists. split; [done|]. pose proof (scanned_skip _ _ _ Hx Hsc) as H. unfold fence_after in H. cbn in H. rewrite Ec in H.
    apply H. intros l <- [_ ?]. congruence. }
  destruct in_fence as [open|].
  { eexists. split; [done|]. pose proof (scanned_skip _ _ _ Hx Hsc) as H. unfold fence_after in H. cbn in H. rewrite Ec in H.
    apply H. intros l <- [? _]. congruence. }
  destruct (atx_heading line) as [[level title]|] eqn:Ea.
  { eexists. split; [done|]. by eapply scanned_atx. }
  destruct (setext_heading_spec li o line headers Hx Hsc) as (found & -> & Hfound); [by split|done|].
  eexists. split; [done|]. split; [cbn; rewrite (fence_at_S _ _ Hx), <-Hf; unfold fence_after; cbn; by rewrite Ec|]. cbn.
  assert (∀ h, h ∈ option_list found ↔ setext_at h ∧ S (h_line_index h) = li) as Hfound'.
  { intros h. rewrite <-Hfound. destruct found; cbn; [rewrite list_elem_of_singleton; naive_solver|].
    split; [by intros ?%elem_of_nil|done]. }
  split.
  - destruct found as [h|]; cbn; [|by rewrite app_nil_r]. apply StronglySorted_snoc; [done|]. apply Forall_forall.
    intros h' Hk%Hh. unfold before. destruct (Hfound h) as [[Hse Hi] _]; [done|].
    destruct Hk as [[Hat Hlt]|[_ Hlt]]; [|lia]. destruct (decide (h_line_index h' = h_line_index h)) as [E|]; [|lia].
    destruct Hat as (l & Hl & _ & E1), Hse as (l' & ? & ? & Hl' & _ & _ & _ & _ & _ & E2 & _). rewrite E, Hl' in Hl. congruence.
  - intros h. rewrite elem_of_app, Hh, Hfound', known_S. split; [tauto|]. intros [?|[[Hat Hi]|?]]; [by left| |by right].
    destruct Hat as (l & Hl & _ & E). rewrite Hi, Hx in Hl. congruence.
Qed.

Lemma header_lines_scanned rest li st :
  drop li ls = rest → scanned li st → ∃ st', header_lines ls li rest st = Done st' ∧ scanned (length ls) st'.
Proof.
  revert li st. induction rest as [|[o line] rest IH]; intros li st Hd Hsc; cbn [header_lines].
  - exists st. split; [done|]. assert (length ls ≤ li) as Hle.
    { apply (f_equal length) in Hd. rewrite length_drop in Hd. cbn in Hd. lia. }
    destruct Hsc as (Hf & Hs & Hh). split; [|split; [done|]].
    + rewrite Hf. unfold fence_at. by rewrite !take_ge by lia.
    + intros h. rewrite Hh. unfold known. split; (intros [[H ?]|[H ?]]; [left|right]); (split; [done|]); try lia.
      * destruct H as (l & ?%lookup_lt_Some & _). done.
      * destruct H as (l & o & u & _ & ?%lookup_lt_Some & _). done.
  - assert (ls !! li = Some (o, line)) as Hx by (by rewrite <-(Nat.add_0_r li), <-lookup_drop, Hd).
    destruct (header_line_scanned _ _ _ _ Hx Hsc) as (st' & -> & Hsc'). cbn. apply IH; [|done].
    rewrite <-Nat.add_1_r, <-drop_drop, Hd. done.
Qed.

Lemma header_lines_spec : ∃ st, header_lines ls 0 ls ([], None) = Done st ∧ StronglySorted before st.1 ∧
  ∀ h, h ∈ st.1 ↔ atx_at h ∨ setext_at h.
Proof.
  destruct (header_lines_scanned ls 0 ([], None)) as (st & E & _ & Hs & Hh); [done| |].
  { split; [done|]. split; [constructor|]. intros h. cbn. split; [by intros ?%elem_of_nil|]. intros ?%known_lt. lia. }
  exists st. split; [done|]. split; [done|]. intros h. rewrite Hh. unfold known. split; [tauto|]. intros [H|H].
  - left. split; [done|]. by destruct H as (l & ?%lookup_lt_Some & _).
  - right. split; [done|]. by destruct H as (l & o & u & _ & ?%lookup_lt_Some & _).
Qed.
End headings.

(** ** The lines are lines of the text *)

Definition markdown_lines (content : list byte) : option (list (nat * str)) :=
  '(text, leading_bytes) ← decode_searchable_text content;
  '(raw, byte_offset) ← skip_frontmatter (split_bytes is_newline text) leading_bytes;
  Some (collect_lines (ends_with [x0a] text) raw byte_offset).

Lemma collect_lines_number e ps i o : collect_lines e ps o = (λ x, (x.1.2, strip_cr x.2)) <$> number_lines i o ps.
Proof.
  revert i o. induction ps as [|p ps IH]; intros i o; [done|]. cbn. f_equal. destruct ps as [|q ps]; [done|].
  cbn [bool_decide negb]. rewrite bool_decide_eq_false_2 by done. apply IH.
Qed.

Lemma close_frontmatter_spec ps o ps' o' i :
  close_frontmatter ps o = Some (ps', o') → ∃ n, number_lines (i + n) o' ps' = drop n (number_lines i o ps).
Proof.
  revert o i. induction ps as [|p ps IH]; intros o i; cbn; [done|]. case_decide.
  - intros [= <- <-]. exists 1. cbn. rewrite Nat.add_1_r, drop_0. f_equal; lia.
  - intros [n Hn]%(IH _ (S i)). exists (S n). cbn. rewrite Nat.add_succ_r. cbn in Hn. rewrite Hn. repeat (f_equal; try lia).
Qed.

Lemma skip_frontmatter_spec ps o ps' o' i :
  skip_frontmatter ps o = Some (ps', o') → ∃ n, number_lines (i + n) o' ps' = drop n (number_lines i o ps).
Proof.
  unfold skip_frontmatter. destruct ps as [|p ps]; [|case_decide].
  - intros [= <- <-]. exists 0. by rewrite Nat.add_0_r.
  - intros [n Hn]%(close_frontmatter_spec _ _ _ _ (S i)). exists (S n). cbn. rewrite Nat.add_succ_r. cbn in Hn. rewrite Hn.
    repeat (f_equal; try lia).
  - intros [= <- <-]. exists 0. by rewrite Nat.add_0_r.
Qed.

Lemma decode_content content text leading : decode_searchable_text content = Some (text, leading) → length content = leading + length text.
Proof.
  unfold decode_searchable_text. destruct (strip_prefix UTF8_BOM content) as [r|] eqn:E.
  - apply strip_prefix_Some in E as ->. unfold from_utf8. destruct (valid_utf8 r); cbn; [|done]. intros [= <- <-]. done.
  - unfold from_utf8. destruct (valid_utf8 content); cbn; [|done]. intros [= <- <-]. done.
Qed.

(** A numbered line of the extractor is a line of the text, its offset counted in the file. *)
Lemma markdown_line content ls :
  markdown_lines content = Some ls →
  ∃ text leading n, length content = leading + length text ∧
    ∀ li o l, ls !! li = Some (o, l) → ∃ o' p, o = leading + o' ∧ l = strip_cr p ∧ is_line text (n + li) o' p.
Proof.
  unfold markdown_lines. destruct (decode_searchable_text content) as [[text leading]|] eqn:Ed; [|done]. cbn.
  destruct (skip_frontmatter _ _) as [[raw off]|] eqn:Es; [|done]. cbn. intros [= <-].
  destruct (skip_frontmatter_spec _ _ _ _ 0 Es) as [n Hn]. exists text, leading, n.
  split; [by apply decode_content|]. intros li o l. rewrite (collect_lines_number _ _ (0 + n)), Hn.
  intros ([[i o1] p] & [= -> ->] & Hl)%list_lookup_fmap_Some. rewrite lookup_drop in Hl.
  pose proof (number_lines_lookup _ _ _ _ _ Hl) as Ei. apply list_elem_of_lookup_2 in Hl.
  apply number_lines_shift in Hl as (i' & o' & q & Hl & [= -> -> ->]). apply elem_of_text_lines in Hl. cbn in Ei.
  exists o', q. by replace (n + li) with i' by lia.
Qed.

Lemma markdown_lines_order content ls i j oi li oj lj :
  markdown_lines content = Some ls → ls !! i = Some (oi, li) → ls !! j = Some (oj, lj) → i < j → oi < oj.
Proof.
  intros H Hi Hj Hij. apply markdown_line in H as (text & leading & n & _ & H).
  destruct (H _ _ _ Hi) as (o1 & p1 & -> & _ & H1), (H _ _ _ Hj) as (o2 & p2 & -> & _ & H2).
  pose proof (is_line_before _ _ _ _ _ _ _ H1 H2 ltac:(lia)). lia.
Qed.

Lemma markdown_lines_inside content ls i o l :
  markdown_lines content = Some ls → ls !! i = Some (o, l) → i ≤ length content ∧ o ≤ length content.
Proof.
  intros H Hi. apply markdown_line in H as (text & leading & n & E & H). destruct (H _ _ _ Hi) as (o1 & p & -> & _ & H1).
  pose proof (is_line_inside _ _ _ _ H1) as Hin. pose proof (is_line_newlines _ _ _ _ o1 H1 ltac:(lia)) as Hn.
  pose proof (newlines_length (take o1 text)) as Hl. rewrite length_take in Hl. lia.
Qed.

(** ** The sections of the headings *)

Lemma build_sections_lookup tb lc hi hs stack seen k h :
  hs !! k = Some h →
  ∃ name, build_sections tb lc hi hs stack seen !! k = Some (section_symbol name (hi + k) h (drop (S k) hs) tb lc).
Proof.
  revert hi stack seen k. induction hs as [|h' hs IH]; intros hi stack seen k Hk; [done|]. cbn [build_sections].
  destruct k as [|k].
  - injection Hk as ->. eexists. rewrite Nat.add_0_r. done.
  - cbn in Hk |- *. rewrite Nat.add_succ_r. apply (IH (S hi)), Hk.
Qed.

Lemma length_build_sections tb lc hi hs stack seen : length (build_sections tb lc hi hs stack seen) = length hs.
Proof. revert hi stack seen. induction hs as [|h hs IH]; intros; cbn; [done|]. by rewrite IH. Qed.

(** The extractor returns the sections of the headings of its lines. *)
Lemma markdown_extract_sections content :
  ∃ r, markdown_extract content = Done r ∧
    (x_symbols r = [] ∨
     ∃ ls headers, markdown_lines content = Some ls ∧ StronglySorted before headers ∧
       (∀ h, h ∈ headers ↔ atx_at ls h ∨ setext_at ls h) ∧
       x_symbols r = build_sections (as_u32 (length content)) (length ls) 0 headers [] ∅).
Proof.
  unfold markdown_extract, markdown_lines. destruct (decode_searchable_text content) as [[text leading]|]; [|eexists; split; [done|by left]].
  case_decide; [eexists; split; [done|by left]|]. cbn.
  destruct (skip_frontmatter _ _) as [[raw off]|]; [|eexists; split; [done|by left]]. cbn.
  destruct (header_lines_spec (collect_lines (ends_with [x0a] text) raw off)) as (st & -> & Hs & Hh). cbn.
  case_decide; [eexists; split; [done|by left]|]. eexists. split; [done|]. right. eauto 10.
Qed.

(** ** Sections nest *)

Section sections.
  Context (content : list byte) (ls : list (nat * str)) (headers : list HeaderInfo).
  Context (Hf : fits_u32 content) (Hls : markdown_lines content = Some ls).
  Context (Hsorted : StronglySorted before headers) (Hh : ∀ h, h ∈ headers ↔ atx_at ls h ∨ setext_at ls h).

Lemma header_on_line h : h ∈ headers → ∃ l, ls !! h_line_index h = Some (h_byte_start h, l).
Proof using Hh. intros [(l & ? & _)|(l & ? & ? & ? & _)]%Hh; eauto. Qed.

Lemma header_inside h : h ∈ headers → h_byte_start h ≤ length content.
Proof using Hh Hls. intros [l Hl]%header_on_line. by eapply markdown_lines_inside. Qed.

Lemma header_u32 h : h ∈ headers → as_u32 (h_byte_start h) = N.of_nat (h_byte_start h).
Proof using Hh Hls Hf. intros H%header_inside. apply as_u32_fits. unfold fits_u32 in Hf. lia. Qed.

Lemma headers_lookup_order i j hi hj :
  headers !! i = Some hi → headers !! j = Some hj → i < j → h_byte_start hi < h_byte_start hj.
Proof using Hh Hls Hsorted.
  intros Hi Hj Hij. pose proof (sorted_lookup before _ _ _ _ _ Hsorted Hi Hj Hij) as Hb.
  apply list_elem_of_lookup_2 in Hi, Hj. apply header_on_line in Hi as [li Hi], Hj as [lj Hj].
  by eapply markdown_lines_order.
Qed.

(** Where a section ends: at the next heading of its level or above, or at the end. *)
Lemma next_section_spec level k :
  match next_section level (drop k headers) with
  | Some h => ∃ m, k ≤ m ∧ headers !! m = Some h ∧ (h_level h ≤ level)%N ∧
                   ∀ n g, k ≤ n < m → headers !! n = Some g → (level < h_level g)%N
  | None => ∀ n g, k ≤ n → headers !! n = Some g → (level < h_level g)%N
  end.
Proof using.
  unfold next_section. remember (drop k headers) as later eqn:El. revert k El. clear.
  induction later as [|h later IH]; intros k El; cbn.
  - intros n g Hn Hg. assert (drop k headers !! (n - k) = Some g) as H by (rewrite lookup_drop; by replace (k + (n - k)) with n by lia).
    by rewrite <-El in H.
  - assert (headers !! k = Some h) as Hk by (by rewrite <-(Nat.add_0_r k), <-lookup_drop, <-El).
    destruct (decide (h_level h ≤ level)%N) as [Hle|Hgt]; cbn.
    + exists k. repeat split; [lia|done|done|]. intros n g ?. lia.
    + specialize (IH (S k)). rewrite <-Nat.add_1_r, <-drop_drop, <-El in IH. specialize (IH eq_refl). cbn in IH.
      destruct (head _) as [h'|].
      * destruct IH as (m & Hm & Hm' & Hlv & Hb). exists m. repeat split; [lia|done|done|]. intros n g Hn Hg.
        destruct (decide (n = k)) as [->|]; [rewrite Hk in Hg; injection Hg as <-; lia|]. apply (Hb n); [lia|done].
      * intros n g Hn Hg. destruct (decide (n = k)) as [->|]; [rewrite Hk in Hg; injection Hg as <-; lia|]. apply (IH n); [lia|done].
Qed.

Lemma header_index k h : headers !! k = Some h → k ≤ h_line_index h.
Proof using Hsorted.
  revert h. induction k as [|k IH]; intros h Hk; [lia|].
  destruct (lookup_lt_is_Some_2 headers k) as [g Hg]; [apply lookup_lt_Some in Hk; lia|].
  pose proof (sorted_lookup before _ _ _ _ _ Hsorted Hg Hk ltac:(lia)) as Hb. unfold before in Hb. pose proof (IH _ Hg). lia.
Qed.

Definition section_end (k : nat) (h : HeaderInfo) : nat :=
  from_option h_byte_start (length content) (next_section (h_level h) (drop (S k) headers)).

Lemma section_end_bound k h m g :
  headers !! m = Some g → k < m → (h_level g ≤ h_level h)%N → section_end k h ≤ h_byte_start g.
Proof using Hh Hls Hsorted.
  intros Hm Hk Hl. unfold section_end. pose proof (next_section_spec (h_level h) (S k)) as Hn.
  destruct (next_section _ _) as [g'|]; cbn.
  - destruct Hn as (m' & Hm' & Hg' & _ & Hb). destruct (decide (m < m')) as [Hlt|].
    { specialize (Hb m g ltac:(lia) Hm). lia. }
    destruct (decide (m = m')) as [->|]; [rewrite Hm in Hg'; by injection Hg' as ->|].
    pose proof (headers_lookup_order _ _ _ _ Hg' Hm ltac:(lia)). lia.
  - specialize (Hn m g ltac:(lia) Hm). lia.
Qed.

Lemma section_end_after k h m g :
  headers !! k = Some h → headers !! m = Some g → (∀ n g, k < n ≤ m → headers !! n = Some g → (h_level h < h_level g)%N) →
  h_byte_start g ≤ section_end k h ∧ (k < m → section_end m g ≤ section_end k h) ∧ section_end k h ≤ length content.
Proof using Hh Hls Hsorted.
  intros Hk Hm Hb. pose proof (next_section_spec (h_level h) (S k)) as Hn.
  assert (section_end k h = from_option h_byte_start (length content) (next_section (h_level h) (drop (S k) headers))) as Ek by done.
  destruct (next_section (h_level h) (drop (S k) headers)) as [g'|]; cbn in Ek; rewrite Ek.
  - destruct Hn as (m' & Hm' & Hg' & Hl & Hn). assert (m < m') as Hlt.
    { destruct (decide (m < m')); [done|]. specialize (Hb m' g' ltac:(lia) Hg'). lia. }
    pose proof (headers_lookup_order _ _ _ _ Hm Hg' Hlt). split; [lia|].
    split; [|by apply list_elem_of_lookup_2, header_inside in Hg'].
    intros Hkm. apply (section_end_bound m g m' g'); [done|lia|]. specialize (Hb m g ltac:(lia) Hm). lia.
  - split; [by apply list_elem_of_lookup_2, header_inside in Hm|]. split; [|done]. intros _. unfold section_end.
    pose proof (next_section_spec (h_level g) (S m)) as Hn'. destruct (next_section (h_level g) _) as [g''|]; cbn; [|done].
    destruct Hn' as (? & _ & ?%list_elem_of_lookup_2%header_inside & _). done.
Qed.

Lemma section_range name k h :
  headers !! k = Some h →
  s_byte_range (section_symbol name k h (drop (S k) headers) (as_u32 (length content)) (length ls)) =
  (N.of_nat (h_byte_start h), N.of_nat (section_end k h)).
Proof using Hh Hls Hf.
  intros Hk. unfold section_symbol, section_end. cbn. rewrite header_u32 by (by eapply list_elem_of_lookup_2). f_equal.
  pose proof (next_section_spec (h_level h) (S k)) as Hn. destruct (next_section _ _) as [g|]; cbn; [|by apply as_u32_fits].
  destruct Hn as (? & _ & ?%list_elem_of_lookup_2 & _). by apply header_u32.
Qed.

Lemma header_level h : h ∈ headers → (1 ≤ h_level h < u32_modulus)%N.
Proof using Hh.
  intros [(l & _ & _ & E)|(l & o & u & _ & _ & _ & _ & E & _)]%Hh.
  - unfold atx_heading in E. destruct (_ && _) eqn:Es; [|done]. apply andb_true_iff in Es as [_ Es]. case_decide as H6; [|done].
    destruct (_ || _ || _); [|done]. injection E as E _. rewrite <-E. apply (starts_with_byte "#"%byte) in Es.
    assert (0 < count_leading "#"%byte (drop (count_leading " "%byte l `min` length l) l)) as Hpos.
    { destruct (drop _ l) as [|c r]; [done|]. injection Es as ->. cbn [count_leading]. rewrite decide_True by done. lia. }
    assert (N.of_nat (count_leading "#"%byte (drop (count_leading " "%byte l `min` length l) l)) < u32_modulus)%N as Hlt
      by (apply (N.le_lt_trans _ 6); [lia|done]).
    rewrite as_u32_fits by done. split; [lia|done].
  - unfold setext_level in E. assert (h_level h = 1 ∨ h_level h = 2)%N as [-> | ->]; [|done..].
    destruct (_ && _); [injection E as E; by left|]. destruct (_ && _); [injection E as E; by right|done].
Qed.

Lemma section_depth h : h ∈ headers → u32_sub (h_level h) 1 = (h_level h - 1)%N.
Proof using Hh.
  intros [H1 H2]%header_level. unfold u32_sub. replace (h_level h + u32_modulus - 1)%N with (h_level h - 1 + 1 * u32_modulus)%N by lia.
  rewrite N.Div0.mod_add. apply N.mod_small. lia.
Qed.
End sections.

(** C21: markdown sections nest: for every file below 4 GiB the extractor returns, and of two
    sections in order the later either lies inside the earlier one, when every heading from the
    earlier to it is deeper, or begins at or after its end, when some heading from there to it
    is not deeper. *)
Theorem markdown_sections_nest content :
  fits_u32 content →
  ∃ r, markdown_extract content = Done r ∧
    ∀ i j a b, x_symbols r !! i = Some a → x_symbols r !! j = Some b → i < j →
      ((s_byte_range a).1 < (s_byte_range b).1)%N ∧
      (((s_byte_range b).2 ≤ (s_byte_range a).2 ∧
        ∀ k c, (i < k ≤ j)%nat → x_symbols r !! k = Some c → s_depth a < s_depth c) ∨
       ((s_byte_range a).2 ≤ (s_byte_range b).1 ∧
        ∃ k c, (i < k ≤ j)%nat ∧ x_symbols r !! k = Some c ∧ s_depth c ≤ s_depth a))%N.
Proof.
  intros Hf. destruct (markdown_extract_sections content) as (r & E & Hr). exists r. split; [done|].
  destruct Hr as [->|(ls & headers & Hls & Hs & Hh & ->)]; [done|].
  assert (∀ k s, build_sections (as_u32 (length content)) (length ls) 0 headers [] ∅ !! k = Some s →
    ∃ h, headers !! k = Some h ∧ s_byte_range s = (N.of_nat (h_byte_start h), N.of_nat (section_end content headers k h)) ∧
         s_depth s = (h_level h - 1)%N ∧ (1 ≤ h_level h)%N) as Hsym.
  { intros k s Hk. destruct (lookup_lt_is_Some_2 headers k) as [h Hkh].
    { apply lookup_lt_Some in Hk. by rewrite length_build_sections in Hk. }
    exists h. split; [done|]. destruct (build_sections_lookup (as_u32 (length content)) (length ls) 0 _ [] ∅ _ _ Hkh) as [name Hn].
    rewrite Hk in Hn. injection Hn as ->. rewrite (section_range content ls headers Hf Hls Hh) by done. split; [done|].
    apply list_elem_of_lookup_2 in Hkh. split; [by apply (section_depth ls headers Hh)|by apply (header_level ls headers Hh)]. }
  intros i j a b Ha Hb Hij. destruct (Hsym _ _ Ha) as (h & Hi & -> & Ed & _), (Hsym _ _ Hb) as (g & Hj & -> & _ & _). cbn.
  split; [pose proof (headers_lookup_order content ls headers Hls Hs Hh _ _ _ _ Hi Hj Hij); lia|].
  assert ((∃ m c, i < m ≤ j ∧ headers !! m = Some c ∧ (h_level c ≤ h_level h)%N) ∨
          ∀ n c, i < n ≤ j → headers !! n = Some c → (h_level h < h_level c)%N) as [(m & c & Hm & Hc & Hl)|Hdeep].
  { pose proof (next_section_spec headers (h_level h) (S i)) as Hn.
    destruct (next_section _ _) as [c|]; [|right; intros n c ? ?; apply (Hn n); [lia|done]].
    destruct Hn as (m & Hm & Hc & Hl & Hn). destruct (decide (m ≤ j)); [left; exists m, c; split; [lia|done]|].
    right. intros n' c' ? ?. apply (Hn n'); [lia|done]. }
  - right. pose proof (section_end_bound content ls headers Hls Hs Hh i h m c Hc ltac:(lia) Hl) as He.
    assert (h_byte_start c ≤ h_byte_start g).
    { destruct (decide (m = j)) as [->|]; [rewrite Hj in Hc; by injection Hc as ->|].
      pose proof (headers_lookup_order content ls headers Hls Hs Hh _ _ _ _ Hc Hj ltac:(lia)). lia. }
    split; [lia|]. destruct (lookup_lt_is_Some_2 (build_sections (as_u32 (length content)) (length ls) 0 headers [] ∅) m) as [s Hs'].
    { rewrite length_build_sections. by eapply lookup_lt_Some. }
    exists m, s. split; [done|]. split; [done|]. destruct (Hsym _ _ Hs') as (c' & Hc' & _ & -> & _).
    rewrite Hc in Hc'. injection Hc' as <-. lia.
  - left. destruct (section_end_after content ls headers Hls Hs Hh i h j g Hi Hj Hdeep) as (_ & He & _).
    split; [specialize (He Hij); lia|]. intros k c Hk (c' & Hc' & _ & -> & _)%Hsym. specialize (Hdeep k c' Hk Hc').
    apply list_elem_of_lookup_2 in Hi. pose proof (header_level ls headers Hh h Hi). lia.
Qed.

(** The sections of a Markdown file are its headings: with the lines after the front
    matter, the extractor returns one section for each ATX heading outside what [parse_code_fence] takes
    for fenced code and for
    each line of text that is underlined, in the order of the lines, at the offset of its line
    and one level above its number. *)
Theorem markdown_sections_are_the_headings content ls :
  fits_u32 content → markdown_lines content = Some ls →
  ∃ symbols headers, markdown_extract content = Done (mkExtraction symbols ExtractOk) ∧
    StronglySorted before headers ∧ (∀ h, h ∈ headers ↔ atx_at ls h ∨ setext_at ls h) ∧
    Forall2 (λ s h, s_kind s = Section_ ∧ s_depth s = (h_level h - 1)%N ∧
                    (s_byte_range s).1 = N.of_nat (h_byte_start h) ∧ (s_line_range s).1 = N.of_nat (h_line_index h))
            symbols headers.
Proof.
  intros Hf Hls. unfold markdown_extract. pose proof Hls as Hls'. unfold markdown_lines in Hls'.
  destruct (decode_searchable_text content) as [[text leading]|]; [|done]. cbn in Hls'.
  destruct (skip_frontmatter _ _) as [[raw off]|] eqn:Es; [|done]. cbn in Hls'. injection Hls' as Hls'.
  destruct (header_lines_spec ls) as (st & E & Hs & Hh). case_decide as Ht.
  { exists [], []. split; [done|]. split; [constructor|]. split; [|constructor]. intros h. split; [by intros ?%elem_of_nil|].
    rewrite <-Hh. subst text. vm_compute in Es. injection Es as <- <-. rewrite <-Hls' in E. vm_compute in E.
    by injection E as <-. }
  cbn [mbind Outcome_bind]. rewrite Hls', E. cbn.
  assert (st.1 = [] ∨ st.1 ≠ []) as Hempty by (destruct st.1; auto). destruct Hempty as [Hst|Hst].
  { exists [], []. rewrite decide_True by done. split; [done|]. rewrite Hst in Hs, Hh. auto. }
  rewrite decide_False by done. eexists _, st.1. split; [done|]. split; [done|]. split; [done|].
  apply Forall2_same_length_lookup_2; [apply length_build_sections|]. intros k s h Hk Hkh.
  destruct (build_sections_lookup (as_u32 (length content)) (length ls) 0 _ [] ∅ _ _ Hkh) as [name Hn].
  rewrite Hk in Hn. injection Hn as ->. apply list_elem_of_lookup_2 in Hkh as Hin. cbn.
  rewrite (section_depth ls st.1 Hh) by done. rewrite (header_u32 content ls st.1 Hf Hls Hh) by done.
  repeat split. destruct (header_on_line ls st.1 Hh h Hin) as [l Hl].
  apply as_u32_fits. unfold fits_u32 in Hf. destruct (markdown_lines_inside _ _ _ _ _ Hls Hl). lia.
Qed.

#[global] Instance markdown_lawful : LawfulExtractor markdown_extract.
Proof.
  split; [intros content _; destruct (markdown_extract_sections content) as (r & -> & _); by exists r|].
  intros content r k s Hf Hr Hk. destruct (markdown_extract_sections content) as (r' & E & H). rewrite Hr in E. injection E as <-.
  destruct H as [H|(ls & headers & Hls & Hs & Hh & H)]; rewrite H in Hk; [done|].
  destruct (lookup_lt_is_Some_2 headers k) as [h Hkh].
  { apply lookup_lt_Some in Hk. by rewrite length_build_sections in Hk. }
  destruct (build_sections_lookup (as_u32 (length content)) (length ls) 0 _ [] ∅ _ _ Hkh) as [name Hn].
  rewrite Hk in Hn. injection Hn as ->. pose proof (section_range content ls headers Hf Hls Hh name k h Hkh) as Er.
  destruct (section_end_after content ls headers Hls Hs Hh k h k h) as (H1 & _ & H2); [done|done|intros; lia|].
  split; [|done]. unfold in_content. split; [rewrite Er; cbn; lia|]. split; [rewrite Er; cbn; lia|done].
Qed.

(** ** Names of sections *)

Definition hash : byte := "#"%byte.

Lemma section_name_inj base n base' n' :
  hash ∉ base → hash ∉ base' → section_name base n = section_name base' n' → base = base' ∧ n = n'.
Proof.
  assert (∀ (a b x y : str), hash ∉ a → hash ∉ b → (x = [] ∨ ∃ v, x = hash :: v) → (y = [] ∨ ∃ v, y = hash :: v) → a ++ x = b ++ y → a = b ∧ x = y) as Hcut.
  { induction a as [|c a IH]; intros [|d b] x y Ha Hb Hx Hy E; [done| | |]; cbn in E.
    - subst x. apply not_elem_of_cons in Hb as [? _]. by destruct Hx as [?|[v [= -> ?]]].
    - subst y. apply not_elem_of_cons in Ha as [? _]. by destruct Hy as [?|[v [= -> ?]]].
    - injection E as -> E. apply not_elem_of_cons in Ha as [_ Ha], Hb as [_ Hb]. by destruct (IH b x y) as [-> ->]. }
  assert (∀ b m, ∃ x, section_name b m = b ++ x ∧ (x = [] ∨ ∃ v, x = hash :: v) ∧ (x = [] ↔ m = 1%N) ∧
                      (m ≠ 1%N → x = hash :: bs (pretty m))) as Hform.
  { intros b m. unfold section_name. case_decide as Hm.
    - exists []. rewrite app_nil_r. split; [done|]. split; [by left|]. split; [tauto|done].
    - exists (hash :: bs (pretty m)). split; [done|]. split; [eauto|]. split; [|done]. split; [done|]. congruence. }
  intros Hb Hb' E. destruct (Hform base n) as (x & Ex & Hx & Hx1 & Hxn), (Hform base' n') as (y & Ey & Hy & Hy1 & Hyn).
  rewrite Ex, Ey in E. apply Hcut in E as [-> ->]; [|done..]. split; [done|].
  destruct (decide (n = 1%N)) as [H1|H1]; [symmetry; rewrite H1; apply Hy1, Hx1, H1|].
  destruct (decide (n' = 1%N)) as [H2|H2]; [by apply Hy1, Hx1 in H2|].
  rewrite (Hxn H1) in Hyn. specialize (Hyn H2). injection Hyn as E%bs_inj. by apply (inj pretty) in E.
Qed.

Lemma base_path_clean stack segment :
  hash ∉ segment → Forall (λ x, hash ∉ x.2) stack → hash ∉ base_path stack segment.
Proof.
  intros Hs Hst. unfold base_path. case_decide; [done|].
  assert (hash ∉ join (bs ".") (reverse stack.*2)) as Hj.
  { assert (Forall (λ p : str, hash ∉ p) (reverse stack.*2)) as Hr.
    { apply Forall_reverse, Forall_fmap. exact Hst. }
    induction Hr as [|p ps Hp Hps IH]; [apply not_elem_of_nil|]. destruct ps as [|q ps]; [done|].
    rewrite join_cons2. rewrite !not_elem_of_app. split; [done|]. split; [|done].
    apply (bool_decide_eq_true_1 _). vm_compute. reflexivity. }
  rewrite !not_elem_of_app. split; [done|]. split; [|done]. apply (bool_decide_eq_true_1 _). vm_compute. reflexivity.
Qed.

Lemma pop_sections_incl level stack : pop_sections level stack ⊆ stack.
Proof. induction stack as [|[l t] stack IH]; cbn; [done|]. case_decide; [|done]. set_solver. Qed.

(** Every name of the sections to come is counted past what its path has seen. *)
Lemma build_sections_names tb lc hi hs stack seen :
  Forall (λ h, hash ∉ h_text h) hs → Forall (λ x, hash ∉ x.2) stack →
  (∀ b n, seen !! b = Some n → (n + N.of_nat (length hs) < u32_modulus)%N) → (N.of_nat (length hs) < u32_modulus)%N →
  NoDup (s_name <$> build_sections tb lc hi hs stack seen) ∧
  ∀ name, name ∈ s_name <$> build_sections tb lc hi hs stack seen →
    ∃ b n, name = section_name b n ∧ hash ∉ b ∧ (default 0 (seen !! b) < n)%N.
Proof.
  revert hi stack seen. induction hs as [|h hs IH]; intros hi stack seen Hh Hst Hn Hl; cbn [build_sections].
  { split; [constructor|]. by intros name ?%elem_of_nil. }
  apply Forall_cons in Hh as [Hh Hhs]. set (stack' := pop_sections (h_level h) stack).
  assert (Forall (λ x, hash ∉ x.2) stack') as Hst'.
  { apply Forall_forall. intros x Hx. rewrite Forall_forall in Hst. apply Hst. by eapply pop_sections_incl. }
  set (base := base_path stack' (h_text h)). assert (hash ∉ base) as Hbase by (by apply base_path_clean).
  cbn [length] in Hn, Hl.
  assert (default 0 (seen !! base) + N.of_nat (S (length hs)) < u32_modulus)%N as Hroom.
  { destruct (seen !! base) as [n|] eqn:E; cbn; [by eapply Hn|done]. }
  assert (u32_add (default 0 (seen !! base)) 1 = default 0 (seen !! base) + 1)%N as Ec by (apply N.mod_small; lia).
  rewrite Ec. destruct (IH (S hi) ((h_level h, h_text h) :: stack') (<[base := (default 0 (seen !! base) + 1)%N]> seen)) as [Hnd Hnames];
    [done|by constructor| |lia|].
  { intros b n. rewrite lookup_insert. case_decide; [intros [= <-]; lia|]. intros Hseen%Hn. lia. }
  rewrite fmap_cons. cbn [s_name section_symbol]. split.
  - constructor; [|done]. intros (b & n & E & Hb & Hlt)%Hnames. apply section_name_inj in E as [<- <-]; [|done|done].
    rewrite lookup_insert, decide_True in Hlt by done. cbn in Hlt. lia.
  - intros name [->|H]%elem_of_cons; [exists base, (default 0 (seen !! base) + 1)%N; split; [done|]; split; [done|lia]|].
    apply Hnames in H as (b & n & -> & Hb & Hlt). exists b, n. split; [done|]. split; [done|].
    rewrite lookup_insert in Hlt. case_decide; [subst b; cbn in Hlt; lia|done].
Qed.

(** A section can be named: when no heading of a Markdown file below 4 GiB contains a
    number sign, no two of its sections have the same name, however often a title repeats. *)
Theorem section_names_are_unique content ls r :
  (N.of_nat (S (length content)) < u32_modulus)%N → markdown_lines content = Some ls →
  (∀ h, atx_at ls h ∨ setext_at ls h → hash ∉ h_text h) →
  markdown_extract content = Done r → NoDup (s_name <$> x_symbols r).
Proof.
  intros Hf Hls Hclean Hr. destruct (markdown_extract_sections content) as (r' & E & H). rewrite Hr in E. injection E as <-.
  destruct H as [->|(ls' & headers & Hls' & Hs & Hh & ->)]; [constructor|]. rewrite Hls in Hls'. injection Hls' as <-.
  apply build_sections_names.
  - apply Forall_forall. intros h Hin. by apply Hclean, Hh.
  - constructor.
  - intros b n. by rewrite lookup_empty.
  - destruct (decide (headers = [])) as [->|Hne]; [done|]. assert (length headers ≤ S (length content)); [|lia].
    assert (0 < length headers) by (destruct headers; [done|cbn; lia]).
    destruct (lookup_lt_is_Some_2 headers (length headers - 1)) as [h Hk]; [lia|].
    pose proof (header_index headers Hs _ _ Hk) as Hi. apply list_elem_of_lookup_2 in Hk.
    destruct (header_on_line ls headers Hh h Hk) as [l Hl]. destruct (markdown_lines_inside _ _ _ _ _ Hls Hl). lia.
Qed.

(** ** What the extractor gets wrong *)

Definition line_feed : list byte := [x0a].

(** A title that ends like a counter takes the name of a repeated title. *)
Theorem counted_title_collides :
  (section_view (markdown_extract (bs "# A" ++ line_feed ++ bs "# A" ++ line_feed ++ bs "# A#2"))).*1.*1.*1 =
  [bs "A"; bs "A#2"; bs "A#2"].
Proof. vm_compute. reflexivity. Qed.

(** Lines are counted after the front matter, so the heading on line 3 is reported on line 0. *)
Theorem frontmatter_shifts_lines :
  section_view (markdown_extract (bs "---" ++ line_feed ++ bs "t: 1" ++ line_feed ++ bs "---" ++ line_feed ++ bs "# H")) =
  [(bs "H", 0, (13, 16), (0, 1))]%N.
Proof. vm_compute. reflexivity. Qed.

(** The underline of a heading is underlined again by a thematic break: only the title's own
    line is tested for being a heading, so the underline becomes a section. *)
Theorem underline_becomes_a_section :
  (section_view (markdown_extract (bs "Title" ++ line_feed ++ bs "===" ++ line_feed ++ bs "---"))).*1.*1.*1 =
  [bs "Title"; bs "Title.==="].
Proof. vm_compute. reflexivity. Qed.

(** A line of inline code that starts with three backticks opens a fence, although the info
    string of a backtick fence has no backticks: the headings below it are lost. *)
Theorem inline_code_opens_a_fence :
  section_view (markdown_extract (bs "```x``` is code" ++ line_feed ++ bs "# Lost")) = [].
Proof. vm_compute. reflexivity. Qed.

(** ** Witnesses *)

Definition demo_markdown : list byte := bs "# A" ++ line_feed ++ bs "## B" ++ line_feed ++ bs "# A".
Definition demo_lines : list (nat * str) := [(0, bs "# A"); (4, bs "## B"); (9, bs "# A")].

Lemma markdown_sections_nest_witness :
  fits_u32 demo_markdown ∧ ∃ r, markdown_extract demo_markdown = Done r ∧ length (x_symbols r) = 3.
Proof.
  assert (fits_u32 demo_markdown) as Hf by (vm_compute; reflexivity). split; [exact Hf|].
  destruct (markdown_sections_nest demo_markdown Hf) as (r & E & _). exists r. split; [exact E|].
  vm_compute in E. injection E as <-. reflexivity.
Defined.

Lemma markdown_sections_are_the_headings_witness :
  markdown_lines demo_markdown = Some demo_lines ∧
  ∃ symbols (headers : list HeaderInfo), markdown_extract demo_markdown = Done (mkExtraction symbols ExtractOk) ∧
    ∀ h, h ∈ headers ↔ atx_at demo_lines h ∨ setext_at demo_lines h.
Proof.
  assert (markdown_lines demo_markdown = Some demo_lines) as E by (vm_compute; reflexivity). split; [exact E|].
  destruct (markdown_sections_are_the_headings demo_markdown demo_lines) as (symbols & headers & H1 & _ & H2 & _);
    [vm_compute; reflexivity|exact E|]. exists symbols, headers. split; [exact H1|exact H2].
Defined.

Lemma demo_titles h : atx_at demo_lines h ∨ setext_at demo_lines h → hash ∉ h_text h.
Proof.
  assert (∃ st, header_lines demo_lines 0 demo_lines ([], None) = Done st ∧ Forall (λ h, hash ∉ h_text h) st.1) as (st & E & Hf).
  { eexists. split; [vm_compute; reflexivity|]. repeat constructor; apply (bool_decide_eq_true_1 _); vm_compute; reflexivity. }
  intros H. destruct (header_lines_spec demo_lines) as (st' & E' & _ & Hh). rewrite E in E'. injection E' as <-.
  apply Hh in H. rewrite Forall_forall in Hf. by apply Hf.
Qed.

Lemma section_names_are_unique_witness :
  ∃ r, markdown_extract demo_markdown = Done r ∧ NoDup (s_name <$> x_symbols r).
Proof.
  eexists. split; [vm_compute; reflexivity|].
  apply (section_names_are_unique demo_markdown demo_lines); [vm_compute; reflexivity..|exact demo_titles|vm_compute; reflexivity].
Defined.
