(* ===== verification/TomlExtract.v ===== *)
(** * The extractor of TOML keys

    Models src/src/parsing/config_extractors/toml_ext.rs: the walk over a parsed document, the
    searches for the bytes of a key or of a header, and the scan by lines of a file that
    toml_edit rejects.  toml_edit's parser is a parameter; [Item] and [Value] are what the walk
    reads of its document. *)

From Stdlib Require Import Lia Strings.Byte.
From stdpp Require Import base gmap list strings numbers option sorting pretty.
From S2P Require Import Prelude Slices Text Domain Classification TextLines ConfigExtract.

#[local] Open Scope nat_scope.

(** ** Documents *)

Inductive Value :=
| PlainValue
| InlineTable (entries : list (str * Value)).

Inductive Item :=
| ItemNone
| ItemValue (v : Value)
| ItemTable (entries : list (str * Item))
| ItemArrayOfTables (tables : list (list (str * Item))).

(** ** Bytes of a line *)

Definition is_blank (b : byte) : bool := bool_decide (b = " "%byte) || bool_decide (b = x09).

Definition trim_leading_whitespace (s : list byte) : list byte :=
  drop (default (length s) (position (λ b, negb (is_blank b)) s)) s.

Definition trim_trailing_whitespace (s : list byte) : list byte :=
  take (from_option S 0 (rposition (λ b, negb (is_blank b)) s)) s.

(** The first offset after the line that starts at [i]. *)
Definition line_end (bytes : list byte) (i : nat) : nat :=
  match position is_newline (drop i bytes) with
  | Some p => i + p + 1
  | None => length bytes
  end.

Definition line_bytes (bytes : list byte) (i : nat) : list byte := take (line_end bytes i - i) (drop i bytes).

Definition follows_key (after : list byte) : bool :=
  match head after with
  | Some b => bool_decide (b = " "%byte) || bool_decide (b = x09) || bool_decide (b = "="%byte)
  | None => false
  end.

Definition line_starts_with_key (line key : list byte) : bool :=
  if bool_decide (length key ≤ length line) && starts_with key line && follows_key (drop (length key) line) then true
  else if decide (head line = Some x22) then
    let expected_len := 1 + length key + 1 in
    if bool_decide (expected_len ≤ length line) && starts_with key (drop 1 line)
       && bool_decide (line !! (1 + length key) = Some x22)
    then follows_key (drop expected_len line)
    else false
  else false.

(** ** Searches

    [while i < len] over the lines from [i]; each round moves past a line, so one round per
    byte is enough. *)
Fixpoint find_line (fuel : nat) (bytes : list byte) (ok : list byte → bool) (count i : nat) : nat * nat :=
  match fuel with
  | 0 => (0, 0)
  | S fuel =>
      if decide (i < length bytes) then
        let line := trim_leading_whitespace (line_bytes bytes i) in
        if ok line then
          match count with
          | 0 => (i, line_end bytes i `min` length bytes)
          | S count => find_line fuel bytes ok count (line_end bytes i)
          end
        else find_line fuel bytes ok count (line_end bytes i)
      else (0, 0)
  end.

Definition key_line (key : str) (trimmed : list byte) : bool :=
  negb (starts_with (bs "#") trimmed) && negb (starts_with (bs "[") trimmed) && line_starts_with_key trimmed key.

Definition find_key_value_bytes (bytes : list byte) (key : str) (search_from : nat) : nat * nat :=
  find_line (S (length bytes)) bytes (key_line key) 0 search_from.

Definition find_header_pattern (bytes pattern : list byte) : nat * nat :=
  find_line (S (length bytes)) bytes (starts_with pattern) 0 0.

Definition find_table_header_bytes (bytes : list byte) (key_path : str) : nat * nat :=
  find_header_pattern bytes (bs "[" ++ unescape_key_path key_path ++ bs "]").

Definition find_array_table_header_bytes (bytes : list byte) (key_path : str) (index : nat) : nat * nat :=
  find_line (S (length bytes)) bytes (starts_with (bs "[[" ++ unescape_key_path key_path ++ bs "]]")) index 0.

(** ** Symbols *)

Definition make_symbol (name : str) (depth : N) (byte_start byte_end : nat) (sort_order : N) (line_starts : list N) :
    SymbolRecord :=
  let start_line := byte_to_line line_starts (as_u32 byte_start) in
  let end_line := byte_to_line line_starts (as_u32 (byte_end - 1)) in
  let byte_range := (as_u32 byte_start, as_u32 byte_end) in
  mkSymbol name Key depth sort_order byte_range (start_line, end_line) None (Some byte_range).

(** ** The walk over a document

    The walker holds the symbols and the next number; [search_from] is a variable of each
    table's walk. *)
Section walk.
  Context (raw : list byte) (line_starts : list N).

Definition Walker : Type := list SymbolRecord * N.

Definition push_symbol (w : Walker) (key_path : str) (depth : N) (range : nat * nat) : Walker :=
  (w.1 ++ [make_symbol key_path depth range.1 range.2 w.2 line_starts], u32_add w.2 1).

(** A value: its line, then the keys of an inline table. *)
Fixpoint walk_value (v : Value) (raw_key key_path : str) (depth : N) (w : Walker) (search_from : nat) : Walker * nat :=
  let range := find_key_value_bytes raw raw_key search_from in
  let search_from := if decide (search_from < range.2) then range.2 else search_from in
  let w := push_symbol w key_path depth range in
  match v with
  | PlainValue => (w, search_from)
  | InlineTable entries =>
      if decide (depth + 1 < MAX_DEPTH)%N then
        (fix go (entries : list (str * Value)) (w : Walker) (search_from : nat) : Walker * nat :=
           match entries with
           | [] => (w, search_from)
           | (k, v) :: entries =>
               let '(w, search_from) := walk_value v k (join_key_path key_path k) (depth + 1) w search_from in
               go entries w search_from
           end) entries w search_from
      else (w, search_from)
  end.

(** [walk_table] is the inner loop over [entries]; it starts from offset 0. *)
Fixpoint walk_item (item : Item) (raw_key key_path : str) (depth : N) (w : Walker) (search_from : nat) : Walker * nat :=
  let walk_table :=
    fix walk_entries (entries : list (str * Item)) (parent_path : str) (depth : N) (w : Walker) (search_from : nat) : Walker :=
      match entries with
      | [] => w
      | (key, item) :: entries =>
          let '(w, search_from) := walk_item item key (join_key_path parent_path key) depth w search_from in
          walk_entries entries parent_path depth w search_from
      end in
  match item with
  | ItemNone => (w, search_from)
  | ItemValue v => walk_value v raw_key key_path depth w search_from
  | ItemTable entries =>
      let w := push_symbol w key_path depth (find_table_header_bytes raw key_path) in
      (if decide (depth + 1 < MAX_DEPTH)%N then walk_table entries key_path (depth + 1)%N w 0 else w, search_from)
  | ItemArrayOfTables tables =>
      ((fix walk_tables (tables : list (list (str * Item))) (i : nat) (w : Walker) : Walker :=
          match tables with
          | [] => w
          | entries :: tables =>
              let indexed_path := join_array_index key_path i in
              let w := push_symbol w indexed_path depth (find_array_table_header_bytes raw key_path i) in
              let w := if decide (depth + 1 < MAX_DEPTH)%N then walk_table entries indexed_path (depth + 1)%N w 0 else w in
              walk_tables tables (S i) w
          end) tables 0 w, search_from)
  end.

Fixpoint walk_entries (entries : list (str * Item)) (parent_path : str) (depth : N) (w : Walker) (search_from : nat) : Walker :=
  match entries with
  | [] => w
  | (key, item) :: entries =>
      let '(w, search_from) := walk_item item key (join_key_path parent_path key) depth w search_from in
      walk_entries entries parent_path depth w search_from
  end.

Definition walk_table (entries : list (str * Item)) (parent_path : str) (depth : N) (w : Walker) : Walker :=
  if decide (MAX_DEPTH ≤ depth)%N then w else walk_entries entries parent_path depth w 0.
End walk.

(** ** The scan by lines *)

Definition extract_bracket_content (line : list byte) (double : bool) : option str :=
  let open := if double then bs "[[" else bs "[" in
  let close := if double then bs "]]" else bs "]" in
  if starts_with open line then
    close_pos ← find_str close (drop (length open) line);
    s ← from_utf8 (take close_pos (drop (length open) line));
    if decide (trim s = []) then None else Some (trim s)
  else None.

(** [trim_matches] of one ASCII character. *)
Definition trim_matches (c : byte) (s : str) : str := trim_end_matches c (trim_start_matches c s).

(** The first equals sign outside double quotes: [in_string] and [escape] are the flags. *)
Fixpoint equals_outside (i : nat) (in_string escape : bool) (line : list byte) : option nat :=
  match line with
  | [] => None
  | b :: rest =>
      if escape then equals_outside (S i) in_string false rest
      else if bool_decide (b = x5c) && in_string then equals_outside (S i) in_string true rest
      else if decide (b = x22) then equals_outside (S i) (negb in_string) false rest
      else if negb in_string && bool_decide (b = "="%byte) then Some i
      else equals_outside (S i) in_string false rest
  end.

Definition extract_key_from_line (line : list byte) : option str :=
  i ← equals_outside 0 false false line;
  key ← from_utf8 (trim_trailing_whitespace (take i line));
  let key := trim_matches "'"%byte (trim_matches x22 (trim key)) in
  if decide (key = []) then None else Some key.

Record LineScan := mkScan {
  ls_symbols : list SymbolRecord;
  ls_sort_order : N;
  ls_current_section : str;
  ls_depth_offset : N;
}.

Section line_scan.
  Context (bytes : list byte) (line_starts : list N).

Definition scan_symbol (name : str) (depth : N) (start stop : nat) (st : LineScan) : LineScan :=
  mkScan (ls_symbols st ++ [make_symbol name depth start stop (ls_sort_order st) line_starts])
         (u32_add (ls_sort_order st) 1) (ls_current_section st) (ls_depth_offset st).

Definition scan_header (section : option str) (start stop : nat) (st : LineScan) : LineScan :=
  match section with
  | Some section =>
      let depth_offset := as_u32 (length (match_indices (bs ".") section)) in
      scan_symbol section depth_offset start stop (mkScan (ls_symbols st) (ls_sort_order st) section depth_offset)
  | None => st
  end.

Definition scan_line (start : nat) (st : LineScan) : LineScan :=
  let stop := line_end bytes start in
  let trimmed := trim_leading_whitespace (line_bytes bytes start) in
  if bool_decide (trimmed = []) || starts_with (bs "#") trimmed then st
  else if starts_with (bs "[[") trimmed then scan_header (extract_bracket_content trimmed true) start stop st
  else if starts_with (bs "[") trimmed then scan_header (extract_bracket_content trimmed false) start stop st
  else
    match extract_key_from_line trimmed with
    | Some key =>
        let key_path := if decide (ls_current_section st = []) then key else join_key_path (ls_current_section st) key in
        let d := u32_add (ls_depth_offset st) 1 in
        if decide (d < MAX_DEPTH)%N then scan_symbol key_path d start stop st else st
    | None => st
    end.

Fixpoint scan_lines (fuel : nat) (i : nat) (st : LineScan) : LineScan :=
  match fuel with
  | 0 => st
  | S fuel => if decide (i < length bytes) then scan_lines fuel (line_end bytes i) (scan_line i st) else st
  end.

Definition line_scan : list SymbolRecord := ls_symbols (scan_lines (length bytes) 0 (mkScan [] 0 [] 0)).
End line_scan.

(** ** The extractor *)

Record TomlError := mkTomlError { te_message : str; te_span : option (nat * nat) }.

Definition toml_extract (parse : str → Result (list (str * Item)) TomlError) (content : list byte) : Outcome ExtractionResult :=
  match utf8_error 0 content with
  | Some e => Done (mkExtraction [] (ExtractFailed (parse_diagnostic (bs "utf-8") (utf8_error_display e) None None None false)))
  | None =>
      if decide (trim content = []) then Done (mkExtraction [] ExtractOk)
      else
        let line_starts := build_line_starts content in
        match parse content with
        | Ok doc => Done (mkExtraction (walk_table content line_starts doc [] 0 ([], 0%N)).1 ExtractOk)
        | Err parse_err =>
            let symbols := line_scan content line_starts in
            let diagnostic :=
              parse_diagnostic_from_span (bs "toml_edit") (te_message parse_err) content (te_span parse_err)
                (negb (bool_decide (symbols = []))) in
            Done (mkExtraction symbols (if decide (symbols = []) then ExtractFailed diagnostic else ExtractPartial diagnostic))
        end
  end.

(** ** Lines *)

Lemma position_spec f s :
  match position f s with
  | Some i => ∃ u b v, s = u ++ b :: v ∧ length u = i ∧ f b = true ∧ Forall (λ b, f b = false) u
  | None => Forall (λ b, f b = false) s
  end.
Proof.
  induction s as [|b s IH]; cbn; [constructor|]. destruct (f b) eqn:E; [exists [], b, s; done|].
  destruct (position f s) as [i|]; cbn; [|by constructor]. destruct IH as (u & c & v & -> & <- & Hc & Hu).
  exists (b :: u), c, v. repeat split; [done|by constructor].
Qed.

(** A search moves from the start of a line to the start of the next one. *)
Lemma line_end_is_line bytes k i p :
  is_line bytes k i p → i < length bytes →
  line_end bytes i = (i + length p + 1) `min` length bytes ∧
  line_bytes bytes i = p ++ (if decide (i + length p < length bytes) then [x0a] else []) ∧
  (line_end bytes i < length bytes → ∃ q, is_line bytes (S k) (line_end bytes i) q).
Proof.
  intros (pre & post & E & -> & -> & Hpre & Hp & Hpost) Hi.
  assert (drop (length pre) bytes = p ++ post) as Ed by (by rewrite E, drop_app_length).
  assert (length bytes = length pre + length p + length post) as El by (rewrite E, !length_app; lia).
  unfold line_bytes, line_end. rewrite Ed. destruct Hpost as [->|[v ->]].
  - rewrite app_nil_r in *. assert (position is_newline p = None) as ->.
    { pose proof (position_spec is_newline p) as H. destruct (position is_newline p) as [i|]; [|done].
      destruct H as (u & b & w & -> & _ & Hb%is_newline_true & _). destruct Hp. subst b. apply elem_of_app. right. left. }
    cbn in El. rewrite decide_False by lia. split; [lia|]. split; [rewrite take_ge, app_nil_r by lia; done|lia].
  - assert (position is_newline (p ++ x0a :: v) = Some (length p)) as ->.
    { pose proof (position_spec is_newline (p ++ x0a :: v)) as H. destruct (position is_newline (p ++ x0a :: v)) as [i|].
      - destruct H as (u & b & w & Eu & <- & ->%is_newline_true & Hu). f_equal.
        assert (x0a ∉ u) as Hu' by (intros Hin; rewrite Forall_forall in Hu; by specialize (Hu _ Hin)).
        clear -Eu Hp Hu'. revert u Eu Hu'. induction p as [|c p IH]; intros [|d u] Eu Hu'; cbn in *; simplify_eq; [done| | |].
        + by apply not_elem_of_cons in Hu' as [??].
        + by apply not_elem_of_cons in Hp as [??].
        + f_equal. apply not_elem_of_cons in Hp as [_ Hp], Hu' as [_ Hu']. by apply IH.
      - rewrite Forall_app, Forall_cons in H. by destruct H as (_ & ? & _). }
    cbn in El. rewrite decide_True by lia. split; [lia|]. split.
    + replace (length pre + length p + 1 - length pre) with (length (p ++ [x0a])) by (rewrite length_app; cbn; lia).
      replace (p ++ x0a :: v) with ((p ++ [x0a]) ++ v) by (by rewrite <-app_assoc). by rewrite take_app_length.
    + intros _. destruct (line_of_offset bytes (length pre + length p + 1)) as (i' & o' & q & Hq & Ho'); [lia|].
      assert (o' = length pre + length p + 1 ∧ i' = S (newlines pre)) as [-> ->]; [|by exists q].
      assert (newlines (take (length pre + length p + 1) bytes) = S (newlines pre)) as En.
      { rewrite E. replace (pre ++ p ++ x0a :: v) with ((pre ++ p ++ [x0a]) ++ v) by (by rewrite <-!app_assoc).
        rewrite take_app_length' by (rewrite !length_app; cbn; lia).
        rewrite !newlines_app, (newlines_clean p) by done. change (newlines [x0a]) with 1. lia. }
      rewrite (is_line_newlines _ _ _ _ _ Hq Ho') in En. split; [|done]. subst i'.
      assert (is_line bytes (newlines pre) (length pre) p) as Hl by (exists pre, (x0a :: v); eauto 10).
      pose proof (is_line_before _ _ _ _ _ _ _ Hl Hq ltac:(lia)). lia.
Qed.

(** A search starts at a line or at the end. *)
Definition at_line (bytes : list byte) (i : nat) : Prop := length bytes ≤ i ∨ ∃ k p, is_line bytes k i p.

(** [r] is the first line at or after [i] that satisfies the test, with its line feed; or the
    empty range at 0, and there is none. *)
Definition first_line (bytes : list byte) (ok : list byte → bool) (i : nat) (r : nat * nat) : Prop :=
  (∃ k p, is_line bytes k r.1 p ∧ i ≤ r.1 < length bytes ∧ r.2 = (r.1 + length p + 1) `min` length bytes ∧
     ok (trim_leading_whitespace (line_bytes bytes r.1)) = true ∧
     ∀ k' o' p', is_line bytes k' o' p' → i ≤ o' < r.1 → ok (trim_leading_whitespace (line_bytes bytes o')) = false) ∨
  (r = (0, 0) ∧ ∀ k' o' p', is_line bytes k' o' p' → i ≤ o' < length bytes → ok (trim_leading_whitespace (line_bytes bytes o')) = false).

Lemma same_line bytes k i p k' o' p' :
  is_line bytes k i p → is_line bytes k' o' p' → i ≤ o' ≤ i + length p → o' = i.
Proof.
  intros H H' Ho. destruct (decide (k < k')) as [Hk|Hk]; [pose proof (is_line_before _ _ _ _ _ _ _ H H' Hk); lia|].
  destruct (decide (k' < k)) as [Hk'|Hk']; [pose proof (is_line_before _ _ _ _ _ _ _ H' H Hk'); lia|].
  assert (k' = k) as -> by lia. apply text_lines_lookup in H, H'. congruence.
Qed.

Lemma find_line_exact fuel bytes ok i :
  at_line bytes i → length bytes - i < fuel → first_line bytes ok i (find_line fuel bytes ok 0 i).
Proof.
  revert i. induction fuel as [|fuel IH]; intros i Hat Hfuel; [lia|]. cbn [find_line].
  case_decide as Hi; [|right; split; [done|]; intros; lia]. destruct Hat as [?|(k & p & Hl)]; [lia|].
  destruct (line_end_is_line _ _ _ _ Hl Hi) as (Ee & _ & Hnext).
  destruct (ok (trim_leading_whitespace (line_bytes bytes i))) eqn:Eok.
  - left. exists k, p. cbn. split; [done|]. split; [lia|]. split; [lia|]. split; [done|]. intros; lia.
  - assert (∀ k' o' p', is_line bytes k' o' p' → i ≤ o' < line_end bytes i →
              ok (trim_leading_whitespace (line_bytes bytes o')) = false) as Hskip.
    { intros k' o' p' Hl' Ho'. assert (o' = i) as ->; [|done]. eapply same_line; [exact Hl|exact Hl'|lia]. }
    destruct (IH (line_end bytes i)) as [(k1 & p1 & H1 & H2 & H3 & H4 & H5)|[E H5]].
    + destruct (decide (length bytes ≤ line_end bytes i)); [by left|]. right. destruct Hnext as [q Hq]; [lia|eauto].
    + lia.
    + left. exists k1, p1. split; [done|]. split; [lia|]. split; [done|]. split; [done|]. intros k' o' p' Hl' Ho'.
      destruct (decide (o' < line_end bytes i)); [by eapply Hskip; [exact Hl'|lia]|]. by eapply H5; [exact Hl'|lia].
    + right. split; [done|]. intros k' o' p' Hl' Ho'.
      destruct (decide (o' < line_end bytes i)); [by eapply Hskip; [exact Hl'|lia]|]. by eapply H5; [exact Hl'|lia].
Qed.

Lemma line_end_bound bytes i : i < length bytes → i < line_end bytes i ≤ length bytes.
Proof.
  intros Hi. unfold line_end. pose proof (position_spec is_newline (drop i bytes)) as H. destruct (position _ _) as [p|]; [|lia].
  destruct H as (u & b & v & E & <- & _). apply (f_equal length) in E. rewrite length_drop, length_app in E. cbn in E. lia.
Qed.

Lemma find_line_bound fuel bytes ok count i :
  (find_line fuel bytes ok count i).1 ≤ (find_line fuel bytes ok count i).2 ≤ length bytes.
Proof.
  revert count i. induction fuel as [|fuel IH]; intros count i; cbn [find_line]; [cbn; lia|].
  case_decide as Hi; [|cbn; lia]. destruct (ok _); [|apply IH]. destruct count; [|apply IH].
  pose proof (line_end_bound bytes i Hi). cbn. lia.
Qed.

(** The line of a key is found exactly: for a search that starts at a line or at the end,
    the walk gives a value the first line from there that begins with its key, bare or in
    double quotes, and is neither a comment nor a header, and gives it the empty range at 0
    when there is no such line; a table gets the first line that begins with its header. *)
Theorem toml_searches_are_exact bytes key path i :
  at_line bytes i →
  first_line bytes (key_line key) i (find_key_value_bytes bytes key i) ∧
  first_line bytes (starts_with (bs "[" ++ unescape_key_path path ++ bs "]")) 0 (find_table_header_bytes bytes path).
Proof.
  intros Hat. split; [apply find_line_exact; [done|lia]|]. apply find_line_exact; [|lia].
  destruct (line_of_offset bytes 0) as (k & o & p & Hl & Ho); [lia|]. right. assert (o = 0) as -> by lia. eauto.
Qed.

(** ** Every symbol lies inside the file *)

Section lawful.
  Context (content : list byte) (Hf : fits_u32 content) (line_starts : list N).

Lemma make_symbol_numbered symbols next name depth a b :
  numbered content symbols next → a ≤ b ≤ length content →
  numbered content (symbols ++ [make_symbol name depth a b next line_starts]) (u32_add next 1).
Proof using Hf.
  intros Hs Hab. apply numbered_push; [done| |done]. unfold fits_u32 in Hf. cbn. rewrite !as_u32_fits by lia.
  split; [lia|]. split; [lia|done].
Qed.

Definition walking (w : Walker) : Prop := numbered content w.1 w.2.

Lemma push_symbol_walking w path depth r : walking w → r.1 ≤ r.2 ≤ length content → walking (push_symbol line_starts w path depth r).
Proof using Hf. intros Hw Hr. by apply make_symbol_numbered. Qed.

Lemma walk_value_walking : ∀ v raw_key key_path depth w search_from,
  walking w → walking (walk_value content line_starts v raw_key key_path depth w search_from).1.
Proof using Hf.
  fix IH 1. intros v raw_key key_path depth w sf Hw. destruct v as [|entries]; cbn [walk_value].
  - apply push_symbol_walking; [done|apply find_line_bound].
  - case_decide; [|apply push_symbol_walking; [done|apply find_line_bound]].
    assert (walking (push_symbol line_starts w key_path depth (find_key_value_bytes content raw_key sf))) as Hw'
      by (apply push_symbol_walking; [done|apply find_line_bound]).
    revert Hw'. generalize (push_symbol line_starts w key_path depth (find_key_value_bytes content raw_key sf)) as w'.
    generalize (if decide (sf < (find_key_value_bytes content raw_key sf).2) then (find_key_value_bytes content raw_key sf).2 else sf) as sf'.
    clear Hw w sf. induction entries as [|[k v] entries IHe]; intros sf w Hw; [done|].
    pose proof (IH v k (join_key_path key_path k) (depth + 1)%N w sf Hw) as H1.
    destruct (walk_value content line_starts v k (join_key_path key_path k) (depth + 1)%N w sf) as [w1 sf1]. by apply IHe.
Qed.

Lemma walk_item_walking : ∀ item raw_key key_path depth w search_from,
  walking w → walking (walk_item content line_starts item raw_key key_path depth w search_from).1.
Proof using Hf.
  fix IH 1. intros item raw_key key_path depth w sf Hw.
  assert (∀ entries parent depth w sf, Forall (λ e, ∀ raw_key key_path depth w sf, walking w →
            walking (walk_item content line_starts e.2 raw_key key_path depth w sf).1) entries → walking w →
            walking (walk_entries content line_starts entries parent depth w sf)) as Htable.
  { clear. intros entries parent depth w sf He. revert w sf. induction He as [|[k i] entries Hi He IHe]; intros w sf Hw; [done|].
    cbn [walk_entries]. specialize (Hi k (join_key_path parent k) depth w sf Hw). cbn [snd] in Hi.
    destruct (walk_item content line_starts i k (join_key_path parent k) depth w sf) as [w1 sf1]. by apply IHe. }
  destruct item as [|v|entries|tables]; cbn [walk_item].
  - done.
  - by apply walk_value_walking.
  - assert (walking (push_symbol line_starts w key_path depth (find_table_header_bytes content key_path))) as Hw'
      by (apply push_symbol_walking; [done|apply find_line_bound]).
    cbn [fst]. case_decide; [|done]. apply Htable; [|done]. clear -IH. induction entries as [|[k i] entries IHe]; constructor; [|done].
    intros. by apply IH.
  - cbn [fst]. match goal with |- walking (?f tables 0 w) => enough (∀ i w, walking w → walking (f tables i w)) as H by by apply H end.
    clear w Hw sf raw_key. induction tables as [|entries tables IHt]; intros i w Hw; [done|].
    apply IHt. assert (walking (push_symbol line_starts w (join_array_index key_path i) depth (find_array_table_header_bytes content key_path i))) as Hw'
      by (apply push_symbol_walking; [done|apply find_line_bound]).
    case_decide; [|done]. apply Htable; [|done]. clear -IH. induction entries as [|[k it] entries IHe]; constructor; [|done].
    intros. by apply IH.
Qed.

Lemma scan_symbol_numbered name depth a b st :
  numbered content (ls_symbols st) (ls_sort_order st) → a ≤ b ≤ length content →
  numbered content (ls_symbols (scan_symbol line_starts name depth a b st)) (ls_sort_order (scan_symbol line_starts name depth a b st)).
Proof using Hf. intros Hs Hab. by apply make_symbol_numbered. Qed.

(** A line adds nothing or one symbol, for the whole line. *)
Lemma scan_line_cases start st :
  let st' := scan_line content line_starts start st in
  (ls_symbols st' = ls_symbols st ∧ ls_sort_order st' = ls_sort_order st) ∨
  (∃ name depth, ls_symbols st' = ls_symbols st ++ [make_symbol name depth start (line_end content start) (ls_sort_order st) line_starts] ∧
                 ls_sort_order st' = u32_add (ls_sort_order st) 1).
Proof using.
  cbn. unfold scan_line, scan_header. destruct (_ || _); [by left|].
  destruct (starts_with (bs "[[") _); [destruct (extract_bracket_content _ true); [right; eexists _, _; done|by left]|].
  destruct (starts_with (bs "[") _); [destruct (extract_bracket_content _ false); [right; eexists _, _; done|by left]|].
  destruct (extract_key_from_line _); [|by left]. destruct (decide (_ < MAX_DEPTH)%N); [right; eexists _, _; done|by left].
Qed.

(** [s] is one whole line of the file, with its line feed. *)
Definition whole_line (s : SymbolRecord) : Prop :=
  ∃ k o p, is_line content k o p ∧ o < length content ∧
    s_byte_range s = (N.of_nat o, N.of_nat ((o + length p + 1) `min` length content)).

Definition ends_before (a b : SymbolRecord) : Prop := ((s_byte_range a).2 ≤ (s_byte_range b).1)%N.

Lemma scan_lines_spec fuel i st :
  at_line content i → numbered content (ls_symbols st) (ls_sort_order st) → Forall whole_line (ls_symbols st) →
  StronglySorted ends_before (ls_symbols st) → Forall (λ s, ((s_byte_range s).2 ≤ N.of_nat i)%N) (ls_symbols st) →
  let st' := scan_lines content line_starts fuel i st in
  numbered content (ls_symbols st') (ls_sort_order st') ∧ Forall whole_line (ls_symbols st') ∧ StronglySorted ends_before (ls_symbols st').
Proof using Hf.
  revert i st. induction fuel as [|fuel IH]; intros i st Hat Hn Hw Hs Hb; cbn [scan_lines]; [done|].
  case_decide as Hi; [|done]. destruct Hat as [?|(k & p & Hl)]; [lia|].
  destruct (line_end_is_line _ _ _ _ Hl Hi) as (Ee & _ & Hnext). pose proof (line_end_bound content i Hi) as He.
  assert (at_line content (line_end content i)) as Hat'.
  { destruct (decide (length content ≤ line_end content i)); [by left|]. right. destruct Hnext as [q Hq]; [lia|eauto]. }
  assert (∀ s, ((s_byte_range s).2 ≤ N.of_nat i)%N → ((s_byte_range s).2 ≤ N.of_nat (line_end content i))%N) as Hmono by (intros; lia).
  destruct (scan_line_cases i st) as [[Es Eo]|(name & depth & Es & Eo)]; apply IH; try done; rewrite ?Es, ?Eo; try done.
  - by eapply Forall_impl.
  - apply make_symbol_numbered; [done|lia].
  - apply Forall_app. split; [done|]. constructor; [|done]. exists k, i, p. split; [done|]. split; [done|].
    unfold fits_u32 in Hf. cbn. rewrite !as_u32_fits by lia. by rewrite Ee.
  - assert (∀ l x, StronglySorted ends_before l → Forall (λ y, ends_before y x) l → StronglySorted ends_before (l ++ [x])) as Hsnoc.
    { clear. induction 1 as [|a l Hs IH Ha]; cbn; intros Hx; [repeat constructor|]. apply Forall_cons in Hx as [Hax Hx].
      constructor; [by apply IH|]. apply Forall_app. auto. }
    apply Hsnoc; [done|]. eapply Forall_impl; [exact Hb|]. intros s Hse. unfold ends_before. unfold fits_u32 in Hf.
    cbn. rewrite as_u32_fits by lia. done.
  - apply Forall_app. split; [by eapply Forall_impl|]. constructor; [|done]. unfold fits_u32 in Hf. cbn. rewrite as_u32_fits by lia. lia.
Qed.

Lemma line_scan_spec :
  (∃ n, numbered content (line_scan content line_starts) n) ∧ Forall whole_line (line_scan content line_starts) ∧
  StronglySorted ends_before (line_scan content line_starts).
Proof using Hf.
  destruct (scan_lines_spec (length content) 0 (mkScan [] 0 [] 0)) as (Hn & Hw & Hs);
    [|apply numbered_nil|constructor|constructor|constructor|].
  - destruct (line_of_offset content 0) as (k & o & p & Hl & Ho); [lia|]. right. assert (o = 0) as -> by lia. eauto.
  - split; [eexists; exact Hn|]. split; [exact Hw|exact Hs].
Qed.
End lawful.

#[global] Instance toml_lawful parse : LawfulExtractor (toml_extract parse).
Proof.
  assert (∀ content, ∃ r, toml_extract parse content = Done r ∧
     (fits_u32 content → ∃ n, numbered content (x_symbols r) n)) as Hall.
  { intros content. unfold toml_extract. destruct (utf8_error 0 content); [eexists; split; [done|]; exists 0%N; apply numbered_nil|].
    case_decide; [eexists; split; [done|]; exists 0%N; apply numbered_nil|].
    destruct (parse content) as [doc|e]; (eexists; split; [done|]); intros Hf; cbn.
    - unfold walk_table. rewrite decide_False by (unfold MAX_DEPTH; lia). eexists.
      assert (∀ es parent depth w sf, walking content w → walking content (walk_entries content (build_line_starts content) es parent depth w sf)) as Hes.
      { induction es as [|[k i] es IH]; intros parent depth w sf Hw; [done|]. cbn [walk_entries].
        pose proof (walk_item_walking content Hf (build_line_starts content) i k (join_key_path parent k) depth w sf Hw) as H1.
        destruct (walk_item _ _ i k _ depth w sf) as [w1 sf1]. by apply IH. }
      apply (Hes doc [] 0%N ([], 0%N) 0). apply numbered_nil.
    - apply (line_scan_spec content Hf). }
  split.
  - intros content _. destruct (Hall content) as (r & E & _). by exists r.
  - intros content r k s Hf Hr Hk. destruct (Hall content) as (r' & E & Hn). rewrite Hr in E. injection E as <-.
    destruct (Hn Hf) as [n [_ H]]. by apply H.
Qed.

(** A TOML file that the parser rejects is still cut into whole lines: below 4 GiB, the
    fallback returns symbols that are whole lines of the file, each once and in order, so that
    no two of them overlap; and the diagnostic says so. *)
Theorem toml_fallback_is_linear parse content e :
  fits_u32 content → valid_utf8 content = true → trim content ≠ [] → parse content = Err e →
  ∃ symbols d, toml_extract parse content = Done (mkExtraction symbols (if decide (symbols = []) then ExtractFailed d else ExtractPartial d)) ∧
    Forall (whole_line content) symbols ∧ StronglySorted ends_before symbols ∧
    (pd_fallback_used d = true ↔ symbols ≠ []).
Proof.
  intros Hf Hv Ht He. unfold toml_extract. rewrite (utf8_valid _ Hv), decide_False by done. rewrite He.
  eexists _, _. split; [done|]. destruct (line_scan_spec content Hf (build_line_starts content)) as (_ & Hw & Hs).
  split; [done|]. split; [done|]. unfold parse_diagnostic_from_span, parse_diagnostic. repeat case_match; cbn;
    rewrite negb_true_iff, bool_decide_eq_false; done.
Qed.

(** ** What the walk gets wrong *)

Definition plain_document (doc : list (str * Item)) : str → Result (list (str * Item)) TomlError := λ _, Ok doc.
Definition ranges_of (r : Outcome ExtractionResult) : list (str * (N * N)) :=
  match r with Done r => (λ s, (s_name s, s_byte_range s)) <$> x_symbols r | Panic => [] end.

Definition two_tables : list byte := bs "[a]" ++ [x0a] ++ bs "name = 1" ++ [x0a] ++ bs "[b]" ++ [x0a] ++ bs "name = 2" ++ [x0a].
Definition two_tables_doc : list (str * Item) :=
  [(bs "a", ItemTable [(bs "name", ItemValue PlainValue)]); (bs "b", ItemTable [(bs "name", ItemValue PlainValue)])].

(** Every table is searched from the beginning of the file: a key of a later table has the
    range of the key of that name in an earlier one. *)
Theorem later_table_gets_earlier_line :
  ranges_of (toml_extract (plain_document two_tables_doc) two_tables) =
  [(bs "a", (0, 4)); (bs "a.name", (4, 13)); (bs "b", (13, 17)); (bs "b.name", (4, 13))]%N.
Proof. vm_compute. reflexivity. Qed.

(** A key of an inline table is searched after its own line: it has no range, or the range of a
    later line. *)
Theorem inline_key_is_searched_too_late :
  ranges_of (toml_extract (plain_document [(bs "x", ItemValue (InlineTable [(bs "y", PlainValue)])); (bs "y", ItemValue PlainValue)])
               (bs "x = { y = 1 }" ++ [x0a] ++ bs "y = 2" ++ [x0a])) =
  [(bs "x", (0, 14)); (bs "x.y", (14, 20)); (bs "y", (0, 0))]%N.
Proof. vm_compute. reflexivity. Qed.

(** A header is searched without the quotes its key needs: a table whose name has a dot is not
    found, or is taken for the nested table of that path. *)
Theorem quoted_header_is_not_found :
  ranges_of (toml_extract (plain_document [(bs "a.b", ItemTable [])]) ([x5b; x22] ++ bs "a.b" ++ [x22; x5d; x0a])) =
  [(bs "a~1b", (0, 0))]%N.
Proof. vm_compute. reflexivity. Qed.

(** ** Witnesses *)

Lemma toml_searches_are_exact_witness :
  first_line two_tables (key_line (bs "name")) 0 (4, 13).
Proof.
  destruct (toml_searches_are_exact two_tables (bs "name") [] 0) as [H _].
  - right. exists 0, (bs "[a]"). apply elem_of_text_lines. vm_compute. left.
  - exact H.
Defined.

Lemma toml_fallback_is_linear_witness :
  ∃ symbols, Forall (whole_line two_tables) symbols ∧ length symbols = 4.
Proof.
  destruct (toml_fallback_is_linear (λ _, Err (mkTomlError [] None)) two_tables (mkTomlError [] None))
    as (symbols & d & E & H & _); [vm_compute; reflexivity|vm_compute; reflexivity|by vm_compute|reflexivity|].
  exists symbols. split; [exact H|]. vm_compute in E. injection E as <-. reflexivity.
Defined.
