(* ===== verification/KeyWalk.v ===== *)
(** * Walks over the keys of a document

    The walkers of json.rs and yaml.rs (src/src/parsing/config_extractors/) push the symbols of
    a value, depth first, each with a range inside the range of its parent.  This file has the
    step they share and what a walk of that form adds to the symbols: numbered symbols inside
    the file, each containing the symbols below it. *)

From Stdlib Require Import Lia Strings.Byte.
From stdpp Require Import base gmap list strings numbers option sorting.
From S2P Require Import Prelude Slices Text Domain Classification TextLines ConfigExtract.

#[local] Open Scope nat_scope.

Definition MAX_ARRAY_ITEMS : nat := 20.

(** ** Searches in bytes *)

(** [take_while(f).count()]. *)
Fixpoint count_while (f : byte → bool) (s : list byte) : nat :=
  match s with b :: s => if f b then S (count_while f s) else 0 | [] => 0 end.

Definition find_substring (haystack needle : list byte) : option nat :=
  if decide (needle = [] ∨ length haystack < length needle) then None else find_str needle haystack.

Lemma count_while_le f s : count_while f s ≤ length s.
Proof. induction s as [|b s IH]; cbn; [lia|]. destruct (f b); lia. Qed.

Lemma position_bound f s p : position f s = Some p → p < length s.
Proof. revert p. induction s as [|b s IH]; intros p; cbn; [done|]. destruct (f b); [intros [= <-]; lia|]. intros (q & Hq%IH & ->)%fmap_Some. lia. Qed.

(** ** One symbol *)

Definition KeyWalker : Type := list SymbolRecord * N.

Definition push_key_symbol (line_starts : list N) (w : KeyWalker) (name : str) (depth : N) (byte_range : N * N) : KeyWalker :=
  let start_line := byte_to_line line_starts byte_range.1 in
  let end_line := byte_to_line line_starts (N.max (saturating_sub byte_range.2 1) byte_range.1) in
  (w.1 ++ [mkSymbol name Key depth w.2 byte_range (start_line, end_line) None (Some byte_range)], u32_add w.2 1).

(** ** Symbols contain what is below them *)

Definition within (range : N * N) (s : SymbolRecord) : Prop :=
  (range.1 ≤ (s_byte_range s).1)%N ∧ ((s_byte_range s).2 ≤ range.2)%N.

(** A symbol contains every symbol below it: those that follow it and are deeper, up to the
    first that is not. *)
Definition contains (l : list SymbolRecord) : Prop :=
  ∀ i j a b, l !! i = Some a → l !! j = Some b → i < j →
    (∀ k c, i < k ≤ j → l !! k = Some c → (s_depth a < s_depth c)%N) → within (s_byte_range a) b.

Lemma contains_nil : contains [].
Proof. intros i j a b H. by rewrite lookup_nil in H. Qed.

Lemma contains_cons a l : contains l → Forall (within (s_byte_range a)) l → contains (a :: l).
Proof.
  intros Hl Ha [|i] [|j] x y Hx Hy Hij Hd; [lia| |lia|].
  - injection Hx as <-. rewrite Forall_forall in Ha. apply Ha. by eapply list_elem_of_lookup_2.
  - apply (Hl i j x y); [done|done|lia|]. intros k c Hk Hc. apply (Hd (S k) c); [lia|done].
Qed.

Lemma contains_app l1 l2 d :
  contains l1 → contains l2 → Forall (λ s, (d ≤ s_depth s)%N) l1 → (∀ s, head l2 = Some s → (s_depth s ≤ d)%N) →
  contains (l1 ++ l2).
Proof.
  intros H1 H2 Hd Hh i j x y Hx Hy Hij Hdeep.
  apply lookup_app_Some in Hx as [Hx|[Hi Hx]], Hy as [Hy|[Hj Hy]].
  - apply (H1 i j x y Hx Hy Hij). intros k c Hk Hc. apply (Hdeep k c Hk). by apply lookup_app_l_Some.
  - exfalso. apply lookup_lt_Some in Hx as Hxi. destruct l2 as [|s l2]; [by rewrite lookup_nil in Hy|].
    specialize (Hdeep (length l1) s ltac:(lia)). rewrite lookup_app_r, Nat.sub_diag in Hdeep by lia. specialize (Hdeep eq_refl).
    specialize (Hh s eq_refl). rewrite Forall_forall in Hd. specialize (Hd x ltac:(by eapply list_elem_of_lookup_2)). lia.
  - apply lookup_lt_Some in Hy. lia.
  - apply (H2 (i - length l1) (j - length l1) x y Hx Hy ltac:(lia)). intros k c Hk Hc. apply (Hdeep (length l1 + k) c); [lia|].
    rewrite lookup_app_r by lia. by replace (length l1 + k - length l1) with k by lia.
Qed.

Section nesting.
  Context (content : list byte) (line_starts : list N).

Definition range_in (range : N * N) : Prop := (range.1 ≤ range.2)%N ∧ (range.2 ≤ N.of_nat (length content))%N.

(** [new] is what the walk of a value at [depth] in [range] adds. *)
Definition block (depth : N) (range : N * N) (new : list SymbolRecord) : Prop :=
  Forall (λ s, (depth ≤ s_depth s)%N ∧ within range s) new ∧ (∀ s, head new = Some s → s_depth s = depth) ∧ contains new.

Lemma block_nil depth range : block depth range [].
Proof. split; [constructor|]. split; [done|apply contains_nil]. Qed.

Lemma within_trans r1 r2 s : (r1.1 ≤ r2.1)%N → (r2.2 ≤ r1.2)%N → within r2 s → within r1 s.
Proof. unfold within. intros ? ? [? ?]. split; lia. Qed.

(** One member with what is below it, before the members that follow. *)
Lemma block_member depth range s below rest :
  s_depth s = depth → within range s → block (depth + 1) (s_byte_range s) below → block depth range rest →
  block depth range ((s :: below) ++ rest).
Proof.
  intros Hs Hw (Hb & _ & Hcb) (Hr & Hh & Hcr). split; [|split; [cbn; by intros ? [= <-]|]].
  - apply Forall_app. split; [|done]. constructor; [split; [lia|done]|]. eapply Forall_impl; [exact Hb|].
    intros c [Hd Hc]. split; [lia|]. destruct Hw. by eapply within_trans; [| |exact Hc].
  - apply (contains_app _ _ depth); [|done| |].
    + apply contains_cons; [done|]. eapply Forall_impl; [exact Hb|]. by intros c [_ Hc].
    + constructor; [lia|]. eapply Forall_impl; [exact Hb|]. intros c [Hd _]. lia.
    + intros c Hc. apply Hh in Hc. lia.
Qed.

(** What the walk adds to the walker. *)
Definition adds (depth : N) (range : N * N) (w w' : KeyWalker) : Prop :=
  ∃ new, w'.1 = w.1 ++ new ∧ block depth range new ∧ (numbered content w.1 w.2 → numbered content w'.1 w'.2).

Lemma adds_refl depth range w : adds depth range w w.
Proof. exists []. split; [by rewrite app_nil_r|]. split; [apply block_nil|done]. Qed.

Lemma adds_member depth range w name r w1 w2 :
  range_in r → (range.1 ≤ r.1)%N → (r.2 ≤ range.2)%N →
  adds (depth + 1) r (push_key_symbol line_starts w name depth r) w1 → adds depth range w1 w2 → adds depth range w w2.
Proof.
  intros Hr H1 H2 (below & Eb & Hb & Nb) (rest & Er & Hrest & Nr). cbn in Eb, Nb.
  match type of Eb with _ = (_ ++ [?s]) ++ _ => set (sym := s) in * end.
  exists ((sym :: below) ++ rest). split; [by rewrite Er, Eb, <-!app_assoc|]. split.
  - apply block_member; [done|done|done|done].
  - intros Hn. apply Nr, Nb. apply numbered_push; [done| |done]. destruct Hr. cbn. auto.
Qed.
End nesting.
