(* ===== verification/JsonExtract.v ===== *)
(** * The extractor of JSON keys

    Models src/src/parsing/config_extractors/json.rs: the normalisation of JSON with comments,
    the search for the bytes of a key and of its value, and the walk over the parsed value.
    serde_json's parser is a parameter; [Json] is what the walk reads of its value.

    The loop over the items of an array has no bound in the code; it is given rounds, and [None]
    means that they did not suffice. *)

From Stdlib Require Import Lia Strings.Byte.
From stdpp Require Import base gmap list strings numbers option sorting pretty.
From S2P Require Import Prelude Slices Text Domain Classification TextLines ConfigExtract KeyWalk.

#[local] Open Scope nat_scope.

Inductive Json :=
| JsonPlain
| JsonObject (members : list (str * Json))
| JsonArray (items : list Json).

#[local] Notation quote := x22.
#[local] Notation backslash := x5c.
#[local] Notation blank := " "%byte.

Definition is_json_ws (b : byte) : bool := bool_decide (b ∈ [blank; x09; x0d; x0a]).

(** ** Normalisation

    The nested loops of the code are modes of one pass: outside, in a string, in a line
    comment, in a block comment. *)

Inductive Mode := Outside | InString | InLine | InBlock.

Definition blank_leading_bom (input : list byte) : list byte :=
  if starts_with [xef; xbb; xbf] input then [blank; blank; blank] ++ drop 3 input else input.

Fixpoint strip_from (mode : Mode) (input : list byte) : list byte :=
  match input with
  | [] => []
  | b :: rest =>
      match mode with
      | Outside =>
          if decide (b = quote) then b :: strip_from InString rest
          else if decide (b = "/"%byte) then
            match rest with
            | next :: rest' =>
                if decide (next = "/"%byte) then blank :: blank :: strip_from InLine rest'
                else if decide (next = "*"%byte) then blank :: blank :: strip_from InBlock rest'
                else b :: strip_from Outside rest
            | [] => [b]
            end
          else b :: strip_from Outside rest
      | InString =>
          if decide (b = quote) then b :: strip_from Outside rest
          else if decide (b = backslash) then
            match rest with
            | c :: rest' => b :: c :: strip_from InString rest'
            | [] => [b]
            end
          else b :: strip_from InString rest
      | InLine =>
          if decide (b = x0a) then b :: strip_from Outside rest else blank :: strip_from InLine rest
      | InBlock =>
          let step := (if decide (b = x0a) then x0a else blank) :: strip_from InBlock rest in
          if decide (b = "*"%byte) then
            match rest with
            | next :: rest' => if decide (next = "/"%byte) then blank :: blank :: strip_from Outside rest' else step
            | [] => step
            end
          else step
      end
  end.

Definition strip_json_comments (input : list byte) : list byte := strip_from Outside input.

(** The next byte that is not white space closes a container. *)
Fixpoint closes_next (rest : list byte) : bool :=
  match rest with
  | [] => false
  | b :: rest => if is_json_ws b then closes_next rest else bool_decide (b = "}"%byte ∨ b = "]"%byte)
  end.

Fixpoint blank_commas (in_string : bool) (input : list byte) : list byte :=
  match input with
  | [] => []
  | b :: rest =>
      if in_string then
        if decide (b = quote) then b :: blank_commas false rest
        else if decide (b = backslash) then
          match rest with
          | c :: rest' => b :: c :: blank_commas true rest'
          | [] => [b]
          end
        else b :: blank_commas true rest
      else if decide (b = quote) then b :: blank_commas true rest
      else (if bool_decide (b = ","%byte) && closes_next rest then blank else b) :: blank_commas false rest
  end.

Definition blank_trailing_commas (input : list byte) : list byte := blank_commas false input.

Definition normalize_jsonc (input : list byte) : list byte :=
  blank_trailing_commas (strip_json_comments (blank_leading_bom input)).

(** ** Scanning values *)

Definition skip_whitespace (content : list byte) (from : nat) : nat :=
  from + count_while is_json_ws (drop from content).

(** The rest of a string after its opening quote: how many bytes up to and with the closing
    one.  [i += 2] after a backslash may pass the end, where the loop stops. *)
Fixpoint string_rest (s : list byte) : option nat :=
  match s with
  | [] => None
  | b :: rest =>
      if decide (b = backslash) then match rest with _ :: rest' => (λ n, n + 2) <$> string_rest rest' | [] => None end
      else if decide (b = quote) then Some 1
      else S <$> string_rest rest
  end.

Definition scan_string_end (content : list byte) (start : nat) : nat :=
  match string_rest (drop (start + 1) content) with
  | Some n => start + 1 + n
  | None => length content
  end.

(** [while i < content.len()]; every round moves on, so one round per byte is enough. *)
Fixpoint scan_container (fuel : nat) (content : list byte) (open close : byte) (depth : N) (i : nat) : nat :=
  match fuel with
  | 0 => length content
  | S fuel =>
      match content !! i with
      | None => length content
      | Some b =>
          if decide (b = quote) then scan_container fuel content open close depth (scan_string_end content i)
          else if decide (b = open) then scan_container fuel content open close (u32_add depth 1) (i + 1)
          else if decide (b = close) then
            let depth := u32_sub depth 1 in
            if decide (depth = 0%N) then i + 1 else scan_container fuel content open close depth (i + 1)
          else scan_container fuel content open close depth (i + 1)
      end
  end.

Definition scan_container_end (content : list byte) (start : nat) : nat :=
  let open := default x00 (content !! start) in
  let close := if decide (open = "{"%byte) then "}"%byte else "]"%byte in
  scan_container (S (length content)) content open close 0 start.

Definition ends_primitive (b : byte) : bool := bool_decide (b ∈ [","%byte; "}"%byte; "]"%byte; blank; x09; x0d; x0a]).

Definition scan_value_end (content : list byte) (start : nat) : nat :=
  match content !! start with
  | None => length content
  | Some b =>
      if decide (b = quote) then scan_string_end content start
      else if decide (b = "{"%byte ∨ b = "["%byte) then scan_container_end content start
      else start + count_while (λ b, negb (ends_primitive b)) (drop start content)
  end.

(** ** Keys *)

(** [key.replace('\\', "\\\\").replace('"', "\\\"")] between quotes. *)
Definition escape_for_key (b : byte) : list byte :=
  if decide (b = backslash) then [backslash; backslash]
  else if decide (b = quote) then [backslash; quote] else [b].

Definition key_needle (key : str) : list byte := quote :: (key ≫= escape_for_key) ++ [quote].

Definition find_key_offset (content : list byte) (key : str) (search_from stop : nat) : option nat :=
  let start := search_from `min` length content in
  let stop := stop `min` length content in
  if decide (stop ≤ start) then None
  else (λ rel, start + rel) <$> find_substring (take (stop - start) (drop start content)) (key_needle key).

Definition find_key_value_range (content : list byte) (key : str) (search_from parent_end : nat) : nat * nat :=
  let search_from := search_from `min` length content in
  let parent_end := parent_end `min` length content in
  let needle_len := length (key_needle key) in
  match find_key_offset content key search_from parent_end with
  | Some abs_key_start =>
      let after_key := abs_key_start + needle_len in
      let from := after_key `min` parent_end in
      match position (λ b, bool_decide (b = ":"%byte)) (take (parent_end - from) (drop from content)) with
      | None => (abs_key_start, from)
      | Some p =>
          let colon_pos := after_key + p in
          let value_start := skip_whitespace content (colon_pos + 1) in
          (abs_key_start, scan_value_end content value_start `min` parent_end)
      end
  | None => (search_from, parent_end)
  end.

(** ** Items of an array *)

(** The first colon outside strings, from [i]; [span] bytes are left. *)
Fixpoint find_colon (i : nat) (in_string escaped : bool) (s : list byte) : option nat :=
  match s with
  | [] => None
  | b :: rest =>
      if in_string then
        if escaped then find_colon (S i) true false rest
        else if decide (b = backslash) then find_colon (S i) true true rest
        else if decide (b = quote) then find_colon (S i) false false rest
        else find_colon (S i) true false rest
      else if decide (b = quote) then find_colon (S i) true escaped rest
      else if decide (b = ":"%byte) then Some i
      else find_colon (S i) false escaped rest
  end.

Definition find_value_start_in_range (content : list byte) (start stop : nat) : option nat :=
  if decide (stop ≤ start ∨ length content ≤ start) then None
  else Some (match find_colon start false false (take (stop - start) (drop start content)) with
             | Some i => skip_whitespace content (i + 1) `min` stop
             | None => skip_whitespace content start `min` stop
             end).

Fixpoint item_loop (rounds : nat) (content : list byte) (array_end cursor : nat) (ranges : list (N * N)) :
    option (list (N * N)) :=
  match rounds with
  | 0 => None
  | S rounds =>
      if decide (cursor < array_end) then
        let cursor := skip_whitespace content cursor in
        if bool_decide (array_end ≤ cursor) || bool_decide (content !! cursor = Some "]"%byte) then Some ranges
        else
          let item_start := cursor in
          let item_end := scan_value_end content item_start `min` array_end in
          let ranges := ranges ++ [(as_u32 item_start, as_u32 item_end)] in
          let cursor := skip_whitespace content item_end in
          let cursor := if bool_decide (cursor < array_end) && bool_decide (content !! cursor = Some ","%byte) then cursor + 1 else cursor in
          item_loop rounds content array_end cursor ranges
      else Some ranges
  end.

Definition find_array_item_ranges (rounds : nat) (content : list byte) (parent_byte_range : N * N) : option (list (N * N)) :=
  let start := N.to_nat parent_byte_range.1 in
  let stop := N.to_nat parent_byte_range.2 `min` length content in
  if decide (stop ≤ start) then Some []
  else
    match find_value_start_in_range content start stop with
    | None => Some []
    | Some value_start =>
        if bool_decide (stop ≤ value_start) || negb (bool_decide (content !! value_start = Some "["%byte)) then Some []
        else
          let array_end := scan_container_end content value_start `min` stop in
          item_loop rounds content array_end (value_start + 1) []
    end.

(** ** The walk *)

Section walk.
  Context (rounds : nat) (content : list byte) (line_starts : list N).

Definition member_le (a b : nat * (str * Json)) : Prop := a.1 ≤ b.1.
#[global] Instance member_le_dec : RelDecision member_le.
Proof. intros a b. apply le_dec. Defined.

(** The members of an object in the order of the first occurrence of their keys. *)
Definition ordered_members (members : list (str * Json)) (parent_start parent_end : nat) : list (nat * (str * Json)) :=
  sort_by member_le
    ((λ m, (default parent_start (find_key_offset content m.1 parent_start parent_end), m)) <$> members).

(** [walk_object] and [walk_array] stop below [MAX_DEPTH]; [levels] counts down with it. *)
Fixpoint walk_json (levels : nat) (v : Json) (parent_path : str) (parent_byte_range : N * N) (depth : N) (w : KeyWalker) :
    option KeyWalker :=
  match levels with
  | 0 => Some w
  | S levels =>
      let descend (v : Json) (path : str) (byte_range : N * N) (w : KeyWalker) : option KeyWalker :=
        if decide (depth + 1 < MAX_DEPTH)%N then walk_json levels v path byte_range (depth + 1) w else Some w in
      match v with
      | JsonObject members =>
          let parent_start := N.to_nat parent_byte_range.1 `min` length content in
          let parent_end := N.to_nat parent_byte_range.2 `min` length content in
          (fix go (ms : list (nat * (str * Json))) (cursor : nat) (w : KeyWalker) : option KeyWalker :=
             match ms with
             | [] => Some w
             | (_, (key, value)) :: ms =>
                 let key_path := join_key_path parent_path key in
                 let '(byte_start, byte_end) := find_key_value_range content key cursor parent_end in
                 let cursor := byte_end `max` cursor in
                 let byte_range := (as_u32 byte_start, as_u32 byte_end) in
                 w ← descend value key_path byte_range (push_key_symbol line_starts w key_path depth byte_range);
                 go ms cursor w
             end) (ordered_members members parent_start parent_end) parent_start w
      | JsonArray items =>
          item_ranges ← find_array_item_ranges rounds content parent_byte_range;
          (fix go (i : nat) (vs : list Json) (w : KeyWalker) : option KeyWalker :=
             match vs with
             | [] => Some w
             | value :: vs =>
                 if decide (MAX_ARRAY_ITEMS ≤ i) then Some w
                 else
                   let elem_path := join_array_index parent_path i in
                   let byte_range := default parent_byte_range (item_ranges !! i) in
                   w ← descend value elem_path byte_range (push_key_symbol line_starts w elem_path depth byte_range);
                   go (S i) vs w
             end) 0 items w
      | JsonPlain => Some w
      end
  end.
End walk.

Record JsonError := mkJsonError { je_message : str; je_line : nat; je_column : nat }.

Definition json_extract (rounds : nat) (parse : list byte → Result Json JsonError) (content : list byte) : option ExtractionResult :=
  let stripped := normalize_jsonc content in
  match parse stripped with
  | Err e =>
      Some (mkExtraction [] (ExtractFailed
        (parse_diagnostic (bs "serde_json") (je_message e) (optional_u32 (je_line e)) (optional_u32 (je_column e)) None false)))
  | Ok value =>
      let line_starts := build_line_starts content in
      let root_range := (0%N, as_u32 (length content)) in
      w ← walk_json rounds content line_starts 6 value [] root_range 0 ([], 0%N);
      Some (mkExtraction w.1 ExtractOk)
  end.

(** ** Normalisation keeps every offset *)

(** [out] is [inp] with some bytes other than line feeds blanked. *)
#[local] Notation blanked := (Forall2 (λ a b, b = a ∨ (b = blank ∧ a ≠ x0a))).

Lemma blanked_refl s : blanked s s.
Proof. induction s; constructor; auto. Qed.

Lemma blanked_trans a b c : blanked a b → blanked b c → blanked a c.
Proof.
  intros Hab. revert c. induction Hab as [|x y a b Hxy Hab IH]; intros c Hbc; apply Forall2_cons_inv_l in Hbc || apply Forall2_nil_inv_l in Hbc.
  - subst c. constructor.
  - destruct Hbc as (z & c' & Hyz & Hbc & ->). constructor; [|by apply IH]. destruct Hxy as [->|[-> Hx]], Hyz as [->|[-> Hy]]; auto.
Qed.

Lemma strip_blanked n mode s : length s ≤ n → blanked s (strip_from mode s).
Proof.
  revert mode s. induction n as [|n IH]; intros mode s Hn; [destruct s; [constructor|cbn in Hn; lia]|].
  destruct s as [|b s]; [constructor|]. cbn in Hn.
  assert (∀ m, blanked s (strip_from m s)) as H1 by (intros m; apply IH; lia).
  assert (∀ m c s', s = c :: s' → blanked s' (strip_from m s')) as H2 by (intros m c s' ->; apply IH; cbn in Hn; lia).
  cbn [strip_from]. destruct mode.
  - case_decide; [by constructor; [left|]|]. case_decide as Hb; [|by constructor; [left|]]. subst b.
    destruct s as [|c s']; [constructor; [by left|constructor]|]. specialize (λ m, H2 m c s' eq_refl).
    case_decide; [subst; do 2 (constructor; [by right|]); apply H2|]. case_decide; [subst; do 2 (constructor; [by right|]); apply H2|].
    constructor; [by left|done].
  - case_decide; [by constructor; [left|]|]. case_decide; [|by constructor; [left|]].
    destruct s as [|c s']; [constructor; [by left|constructor]|]. do 2 (constructor; [by left|]). by eapply H2.
  - case_decide; [by constructor; [left|]|constructor; [by right|done]].
  - assert (blanked (b :: s) ((if decide (b = x0a) then x0a else blank) :: strip_from InBlock s)) as Hstep.
    { constructor; [|done]. case_decide; [subst; by left|by right]. }
    destruct (decide (b = "*"%byte)) as [->|]; [|exact Hstep]. destruct s as [|c s']; [exact Hstep|].
    destruct (decide (c = "/"%byte)) as [->|]; [|exact Hstep].
    do 2 (constructor; [by right|]). by eapply H2.
Qed.

Lemma commas_blanked n in_string s : length s ≤ n → blanked s (blank_commas in_string s).
Proof.
  revert in_string s. induction n as [|n IH]; intros m s Hn; [destruct s; [constructor|cbn in Hn; lia]|].
  destruct s as [|b s]; [constructor|]. cbn in Hn.
  assert (∀ m, blanked s (blank_commas m s)) as H1 by (intros m'; apply IH; lia).
  cbn [blank_commas]. destruct m.
  - case_decide; [by constructor; [left|]|]. case_decide; [|by constructor; [left|]].
    destruct s as [|c s']; [constructor; [by left|constructor]|]. do 2 (constructor; [by left|]). apply IH; cbn in Hn; lia.
  - case_decide; [by constructor; [left|]|]. constructor; [|done].
    destruct (bool_decide (b = ","%byte)) eqn:E; cbn; [|by left]. apply bool_decide_eq_true in E as ->.
    destruct (closes_next s); [by right|by left].
Qed.

Lemma normalize_blanked content : blanked content (normalize_jsonc content).
Proof.
  unfold normalize_jsonc. eapply blanked_trans; [|by eapply commas_blanked]. eapply blanked_trans; [|by eapply strip_blanked].
  unfold blank_leading_bom. destruct (starts_with _ content) eqn:E; [|apply blanked_refl].
  apply starts_with_true in E as [r ->]. cbn. do 3 (constructor; [by right|]). rewrite drop_0. apply blanked_refl.
Qed.

Lemma blanked_newlines a b : blanked a b → ∀ i, build_line_starts_from i b = build_line_starts_from i a.
Proof.
  induction 1 as [|x y a b Hxy Hab IH]; intros i; [done|]. rewrite !build_line_starts_from_cons, IH. f_equal.
  destruct Hxy as [->|[-> Hx]]; [done|]. assert (is_newline x = false) as -> by (by apply bool_decide_eq_false). done.
Qed.

(** Positions survive the normalisation of JSON with comments: the normalised text has the
    length and the line starts of the file, and every byte of it is the byte of the file at
    that offset or a space, so a position reported by the parser is a position in the file. *)
Theorem normalize_keeps_positions content :
  length (normalize_jsonc content) = length content ∧
  build_line_starts (normalize_jsonc content) = build_line_starts content ∧
  ∀ i b, normalize_jsonc content !! i = Some b → content !! i = Some b ∨ (b = blank ∧ content !! i ≠ Some x0a).
Proof.
  pose proof (normalize_blanked content) as H. split; [by apply Forall2_length in H|]. split.
  - unfold build_line_starts. by rewrite (blanked_newlines _ _ H).
  - intros i b Hb. destruct (Forall2_lookup_r _ _ _ _ _ H Hb) as (a & Ha & [->|[-> Hn]]); [by left|right]. split; [done|]. congruence.
Qed.

(** ** Scans stay inside *)

Lemma skip_whitespace_bound content i : i ≤ length content → i ≤ skip_whitespace content i ≤ length content.
Proof. intros Hi. unfold skip_whitespace. pose proof (count_while_le is_json_ws (drop i content)) as H. rewrite length_drop in H. lia. Qed.

Lemma string_rest_bound n s k : length s ≤ n → string_rest s = Some k → 1 ≤ k ≤ length s.
Proof.
  revert s k. induction n as [|n IH]; intros s k Hn; [destruct s; [done|cbn in Hn; lia]|]. destruct s as [|b s]; [done|]. cbn in Hn |- *.
  case_decide.
  - destruct s as [|c s]; [done|]. cbn in Hn |- *. intros (m & Hm & ->)%fmap_Some. apply IH in Hm; lia.
  - case_decide; [intros [= <-]; lia|]. intros (m & Hm & ->)%fmap_Some. apply IH in Hm; lia.
Qed.

Lemma scan_string_end_bound content i : i < length content → i < scan_string_end content i ≤ length content.
Proof.
  intros Hi. unfold scan_string_end. destruct (string_rest _) as [k|] eqn:E; [|lia].
  apply (string_rest_bound (length content)) in E; rewrite length_drop in *; lia.
Qed.

Lemma scan_container_bound fuel content op cl depth i :
  i ≤ length content → i ≤ scan_container fuel content op cl depth i ≤ length content.
Proof.
  revert depth i. induction fuel as [|fuel IH]; intros depth i Hi; cbn [scan_container]; [lia|].
  destruct (content !! i) as [b|] eqn:Eb; [|lia]. apply lookup_lt_Some in Eb as Hlt.
  assert (∀ d, i ≤ scan_container fuel content op cl d (i + 1) ≤ length content) as Hnext
    by (intros d; pose proof (IH d (i + 1) ltac:(lia)); lia).
  case_decide.
  - pose proof (scan_string_end_bound content i Hlt). pose proof (IH depth (scan_string_end content i) ltac:(lia)). lia.
  - repeat case_decide; (apply Hnext || lia).
Qed.

Lemma scan_value_end_bound content i : i ≤ length content → i ≤ scan_value_end content i ≤ length content.
Proof.
  intros Hi. unfold scan_value_end. destruct (content !! i) as [b|] eqn:Eb; [|lia]. apply lookup_lt_Some in Eb as Hlt.
  case_decide; [pose proof (scan_string_end_bound content i Hlt); lia|]. case_decide; [by apply scan_container_bound|].
  pose proof (count_while_le (λ b, negb (ends_primitive b)) (drop i content)) as Hw. rewrite length_drop in Hw. lia.
Qed.

(** The range of a key lies between the cursor and the end of its object. *)
Lemma find_key_value_range_bound content key cursor parent_end :
  cursor ≤ parent_end ≤ length content →
  cursor ≤ (find_key_value_range content key cursor parent_end).1 ≤ (find_key_value_range content key cursor parent_end).2 ∧
  (find_key_value_range content key cursor parent_end).2 ≤ parent_end.
Proof.
  intros Hc. unfold find_key_value_range. replace (cursor `min` length content) with cursor by lia.
  replace (parent_end `min` length content) with parent_end by lia.
  destruct (find_key_offset content key cursor parent_end) as [a|] eqn:E; [|cbn; lia].
  assert (cursor ≤ a ∧ a + length (key_needle key) ≤ parent_end) as Ha.
  { unfold find_key_offset in E. rewrite !Nat.min_l in E by lia. case_decide; [done|]. apply fmap_Some in E as (rel & E & ->).
    unfold find_substring in E. case_decide; [done|]. apply find_str_bound in E. rewrite length_take, length_drop in E. lia. }
  destruct (position _ _) as [p|] eqn:Ep; cbn [fst snd]; [|lia].
  apply position_bound in Ep. rewrite length_take, length_drop in Ep.
  pose proof (skip_whitespace_bound content (a + length (key_needle key) + p + 1) ltac:(lia)) as Hs.
  pose proof (scan_value_end_bound content (skip_whitespace content (a + length (key_needle key) + p + 1)) ltac:(lia)). lia.
Qed.

(** The ranges of the items lie inside the array. *)
Lemma item_loop_bound rounds content array_end cursor ranges out lo :
  array_end ≤ length content → fits_u32 content → lo ≤ cursor →
  Forall (λ r, (N.of_nat lo ≤ r.1 ≤ r.2)%N ∧ (r.2 ≤ N.of_nat array_end)%N) ranges →
  item_loop rounds content array_end cursor ranges = Some out →
  Forall (λ r, (N.of_nat lo ≤ r.1 ≤ r.2)%N ∧ (r.2 ≤ N.of_nat array_end)%N) out.
Proof.
  intros He Hf. revert cursor ranges. induction rounds as [|rounds IH]; intros cursor ranges Hlo Hr; cbn [item_loop]; [done|].
  case_decide as Hc; [|by intros [= <-]]. pose proof (skip_whitespace_bound content cursor ltac:(lia)) as Hs.
  destruct (_ || _) eqn:E; [by intros [= <-]|]. apply orb_false_elim in E as [E%bool_decide_eq_false _].
  set (i := skip_whitespace content cursor) in *. pose proof (scan_value_end_bound content i ltac:(lia)) as Hv.
  set (e := scan_value_end content i `min` array_end) in *.
  pose proof (skip_whitespace_bound content e ltac:(lia)) as Hs'. apply IH.
  - destruct (_ && _); lia.
  - apply Forall_app. split; [done|]. constructor; [|done]. unfold fits_u32 in Hf. cbn. rewrite !as_u32_fits by lia. lia.
Qed.

Lemma find_colon_after s i a b k : find_colon i a b s = Some k → i ≤ k.
Proof.
  revert i a b. induction s as [|c s IH]; intros i a b; cbn [find_colon]; [done|].
  repeat case_match; intros Hk; try (apply IH in Hk; lia); injection Hk as <-; lia.
Qed.

Lemma value_start_after content start stop s :
  start ≤ stop →
  start ≤ match find_colon start false false s with
          | Some i => skip_whitespace content (i + 1) `min` stop
          | None => skip_whitespace content start `min` stop
          end.
Proof.
  intros Hs. destruct (find_colon _ _ _ _) as [k|] eqn:Ek; [apply find_colon_after in Ek|];
    (apply Nat.min_glb; [unfold skip_whitespace; lia|done]).
Qed.

Lemma item_ranges_inside rounds content range out :
  fits_u32 content → (range.1 ≤ range.2)%N → find_array_item_ranges rounds content range = Some out →
  Forall (λ r, (range.1 ≤ r.1 ≤ r.2)%N ∧ (r.2 ≤ range.2)%N) out.
Proof.
  intros Hf Hr. unfold find_array_item_ranges, find_value_start_in_range. case_decide as H1; [by intros [= <-]|].
  case_decide as H2; [by intros [= <-]|].
  match goal with |- context [negb (bool_decide (content !! ?v = _))] => set (vs := v) end.
  destruct (_ || _) eqn:E; [by intros [= <-]|]. apply orb_false_elim in E as [E%bool_decide_eq_false _].
  assert (N.to_nat range.1 ≤ vs) as Hvs by (apply value_start_after; lia).
  intros Hout. eapply Forall_impl; [eapply (item_loop_bound _ _ _ _ [] _ (N.to_nat range.1)); [| |  | |exact Hout]|].
  - lia.
  - done.
  - lia.
  - constructor.
  - cbn. intros r H. lia.
Qed.

(** ** Symbols of the walk nest *)

Section nesting.
  Context (rounds : nat) (content : list byte) (Hf : fits_u32 content) (line_starts : list N).

Lemma walk_json_adds levels v path range depth w w' :
  range_in content range → walk_json rounds content line_starts levels v path range depth w = Some w' → adds content depth range w w'.
Proof using Hf.
  revert v path range depth w w'. induction levels as [|levels IH]; intros v path range depth w w' Hr; cbn [walk_json].
  { intros [= <-]. apply adds_refl. }
  assert (∀ v path r w w', range_in content r →
            (if decide (depth + 1 < MAX_DEPTH)%N then walk_json rounds content line_starts levels v path r (depth + 1) w else Some w) = Some w' →
            adds content (depth + 1) r w w') as Hdescend.
  { intros v' path' r w1 w2 Hr'. case_decide; [by apply IH|]. intros [= <-]. apply adds_refl. }
  destruct v as [|members|items]; [intros [= <-]; apply adds_refl| |].
  - destruct Hr as [Hr1 Hr2]. set (ps := N.to_nat range.1 `min` length content). set (pe := N.to_nat range.2 `min` length content).
    match goal with |- ?f (ordered_members content members ps pe) ps w = _ → _ =>
      enough (∀ ms cursor w, ps ≤ cursor ≤ pe → f ms cursor w = Some w' → adds content depth range w w') as H
        by (apply H; lia) end.
    clear w. induction ms as [|[o [key value]] ms IHm]; intros cursor w Hc; [intros [= <-]; apply adds_refl|].
    pose proof (find_key_value_range_bound content key cursor pe ltac:(lia)) as Hb.
    destruct (find_key_value_range content key cursor pe) as [a b]. cbn in Hb. intros (w1 & H1 & H2)%bind_Some.
    assert (as_u32 a = N.of_nat a ∧ as_u32 b = N.of_nat b) as [Ea Eb] by (unfold fits_u32 in Hf; split; apply as_u32_fits; lia).
    rewrite Ea, Eb in *. eapply (adds_member content line_starts depth range w _ (N.of_nat a, N.of_nat b)); [split; cbn; lia|cbn; lia|cbn; lia| |].
    + eapply Hdescend; [split; cbn; lia|exact H1].
    + eapply IHm; [|exact H2]. lia.
  - intros (ranges & Hrng & H2)%bind_Some. apply item_ranges_inside in Hrng; [|done|by destruct Hr].
    match type of H2 with ?f 0 items w = _ =>
      enough (∀ i vs w, f i vs w = Some w' → adds content depth range w w') as H by (by eapply H) end.
    clear H2 w. intros i vs. revert i. induction vs as [|value vs IHv]; intros i w; [intros [= <-]; apply adds_refl|].
    cbn. destruct (decide (MAX_ARRAY_ITEMS ≤ i)); [intros [= <-]; apply adds_refl|]. intros (w1 & H1 & H2)%bind_Some.
    assert ((range.1 ≤ (default range (ranges !! i)).1)%N ∧ ((default range (ranges !! i)).2 ≤ range.2)%N ∧
            range_in content (default range (ranges !! i))) as (Hlo & Hhi & Hri).
    { destruct (ranges !! i) as [r|] eqn:Er; cbn; [|split; [lia|]; split; [lia|done]].
      rewrite Forall_lookup in Hrng. specialize (Hrng i r Er). destruct Hr. repeat split; lia. }
    eapply (adds_member content line_starts depth range w); [exact Hri|exact Hlo|exact Hhi| |by eapply IHv].
    eapply Hdescend; [exact Hri|exact H1].
Qed.
End nesting.

(** JSON symbols nest: when the extractor of a file below 4 GiB returns, its symbols lie
    inside the file and are numbered in order, and every symbol contains the symbols below it,
    so that a key is never attributed to another object. *)
Theorem json_symbols_nest rounds parse content r :
  fits_u32 content → json_extract rounds parse content = Some r →
  (∀ k s, x_symbols r !! k = Some s → in_content content s ∧ s_sort_order s = as_u32 k) ∧ contains (x_symbols r).
Proof.
  intros Hf. unfold json_extract. destruct (parse _) as [value|e].
  2: { intros [= <-]. cbn. split; [intros k s H; by rewrite lookup_nil in H|apply contains_nil]. }
  intros (w & Hw & [= <-])%bind_Some. cbn.
  assert (range_in content (0%N, as_u32 (length content))) as Hr by (rewrite as_u32_fits by done; split; cbn; lia).
  destruct (walk_json_adds rounds content Hf _ _ _ _ _ _ _ _ Hr Hw)
    as (new & E & (_ & _ & Hc) & Hn).
  cbn in E, Hn. destruct (Hn (numbered_nil content)) as [_ H]. split; [exact H|]. by rewrite E.
Qed.

(** ** When the scan of an array ends *)

Lemma skip_stops content i b : content !! skip_whitespace content i = Some b → is_json_ws b = false.
Proof.
  unfold skip_whitespace. rewrite <-lookup_drop. generalize (drop i content) as s. induction s as [|c s IH]; cbn; [done|].
  destruct (is_json_ws c) eqn:E; cbn; [done|]. by intros [= ->].
Qed.

Lemma skip_stays content i b : content !! i = Some b → is_json_ws b = false → skip_whitespace content i = i.
Proof.
  intros Hb Hw. unfold skip_whitespace. rewrite (drop_S _ _ _ Hb). cbn. rewrite Hw. lia.
Qed.

Lemma scan_value_end_progress content i b :
  content !! i = Some b → b ≠ ","%byte → b ≠ "}"%byte → b ≠ "]"%byte → is_json_ws b = false → i < scan_value_end content i.
Proof.
  intros Hb H1 H2 H3 Hw. apply lookup_lt_Some in Hb as Hlt. unfold scan_value_end. rewrite Hb.
  case_decide as Hq; [by apply scan_string_end_bound|]. case_decide as Ho.
  - unfold scan_container_end. rewrite Hb. cbn [default from_option scan_container]. rewrite Hb, decide_False by done.
    rewrite decide_True by done.
    match goal with |- _ < scan_container ?f ?c ?o ?cl ?d ?j => pose proof (scan_container_bound f c o cl d j ltac:(lia)) end. lia.
  - rewrite (drop_S _ _ _ Hb). cbn [count_while].
    assert (ends_primitive b = false) as ->; [|cbn; lia]. apply bool_decide_eq_false. apply bool_decide_eq_false in Hw.
    intros Hin. repeat (apply elem_of_cons in Hin as [Hin|Hin]; [try done; destruct Hw; subst b; set_solver|]). by apply elem_of_nil in Hin.
Qed.

Lemma scan_value_end_stays content i b :
  content !! i = Some b → b = ","%byte ∨ b = "}"%byte → scan_value_end content i = i.
Proof.
  intros Hb Hc. unfold scan_value_end. rewrite Hb, !decide_False by (destruct Hc as [->| ->]; by intros ?; destruct_or?).
  rewrite (drop_S _ _ _ Hb). cbn [count_while]. assert (ends_primitive b = true) as ->; [|cbn; lia].
  destruct Hc as [->| ->]; vm_compute; reflexivity.
Qed.

Lemma item_loop_ends rounds content array_end cursor ranges :
  array_end ≤ length content → (∀ c, cursor ≤ c < array_end → content !! c ≠ Some "}"%byte) →
  array_end - cursor < rounds → is_Some (item_loop rounds content array_end cursor ranges).
Proof.
  intros He. revert cursor ranges. induction rounds as [|rounds IH]; intros cursor ranges Hn Hr; [lia|]. cbn [item_loop].
  case_decide as Hc; [|by eexists]. pose proof (skip_whitespace_bound content cursor ltac:(lia)) as Hs.
  destruct (_ || _) eqn:E; [by eexists|]. apply orb_false_elim in E as [E%bool_decide_eq_false E2%bool_decide_eq_false].
  set (i := skip_whitespace content cursor) in *. destruct (lookup_lt_is_Some_2 content i) as [b Hb]; [lia|].
  pose proof (skip_stops _ _ _ Hb) as Hw. pose proof (scan_value_end_bound content i ltac:(lia)) as Hv.
  set (e := scan_value_end content i `min` array_end) in *. pose proof (skip_whitespace_bound content e ltac:(lia)) as Hs'.
  assert (cursor < if bool_decide (skip_whitespace content e < array_end) && bool_decide (content !! skip_whitespace content e = Some ","%byte)
                   then skip_whitespace content e + 1 else skip_whitespace content e) as Hprogress.
  { destruct (decide (b = ","%byte)) as [->|Hcomma].
    - assert (e = i) as ->.
      { unfold e. rewrite (scan_value_end_stays _ _ _ Hb) by auto. lia. }
      rewrite (skip_stays content i ","%byte Hb Hw), Hb. rewrite !bool_decide_eq_true_2 by (done || lia). cbn. lia.
    - pose proof (scan_value_end_progress content i b Hb Hcomma ltac:(intros ->; apply (Hn i); [lia|done]) ltac:(congruence) Hw).
      destruct (_ && _); lia. }
  apply IH; [|lia]. intros c Hcr. apply Hn. lia.
Qed.

(** The scan for the items of an array ends when the array holds no closing brace: one
    round per byte of the file and one more are enough, whatever else the array holds. *)
Theorem array_scan_ends content range :
  "}"%byte ∉ take (N.to_nat range.2 - N.to_nat range.1) (drop (N.to_nat range.1) content) →
  is_Some (find_array_item_ranges (S (length content)) content range).
Proof.
  intros Hno. unfold find_array_item_ranges, find_value_start_in_range. case_decide as H1; [by eexists|].
  case_decide as H2; [by eexists|].
  match goal with |- context [negb (bool_decide (content !! ?v = _))] => set (vs := v) end.
  destruct (_ || _) eqn:E; [by eexists|]. apply orb_false_elim in E as [E%bool_decide_eq_false _].
  apply item_loop_ends; [lia| |lia]. intros c Hc Hb. apply Hno.
  assert (N.to_nat range.1 ≤ vs) as Hvs by (apply value_start_after; lia).
  apply list_elem_of_lookup. exists (c - N.to_nat range.1). rewrite lookup_take_lt by lia. rewrite lookup_drop.
  by replace (N.to_nat range.1 + (c - N.to_nat range.1)) with c by lia.
Qed.

(** At a closing brace the scan does not move. *)
Lemma item_loop_stuck content array_end c :
  content !! c = Some "}"%byte → c < array_end → ∀ rounds ranges, item_loop rounds content array_end c ranges = None.
Proof.
  intros Hb Hc. induction rounds as [|rounds IH]; intros ranges; cbn [item_loop]; [done|]. rewrite decide_True by done.
  assert (skip_whitespace content c = c) as Hs by (by apply (skip_stays _ _ _ Hb)).
  assert (scan_value_end content c = c) as Hv by (apply (scan_value_end_stays _ _ _ Hb); auto).
  rewrite Hs, Hb, Hv. rewrite Nat.min_l, Hs, Hb by lia. rewrite !bool_decide_eq_false_2 by (done || lia).
  rewrite andb_false_r. apply IH.
Qed.

(** ** What the extractor gets wrong *)

Definition commented_array : list byte := bs "[1, /* } */ 2]".

(** A comment that holds a closing brace, inside an array: the parser accepts the file, but the
    scan of the raw bytes stops at the brace and adds empty items without end. *)
Theorem comment_in_array_never_ends parse :
  (∀ text, parse text = Ok (JsonArray [JsonPlain; JsonPlain])) →
  normalize_jsonc commented_array = bs "[1,         2]" ∧
  ∀ rounds, json_extract rounds parse commented_array = None.
Proof.
  intros Hp. split; [vm_compute; reflexivity|]. intros rounds. unfold json_extract. rewrite Hp. cbn [walk_json].
  assert (find_array_item_ranges rounds commented_array (0%N, as_u32 (length commented_array)) = None) as ->; [|done].
  assert (∀ r, find_array_item_ranges r commented_array (0%N, as_u32 (length commented_array)) = item_loop r commented_array 14 1 []) as ->.
  { intros r. unfold find_array_item_ranges. generalize (item_loop r) as loop. intros loop. vm_compute. reflexivity. }
  destruct rounds as [|[|rounds]]; [vm_compute; reflexivity..|].
  cbn [item_loop]. generalize (item_loop_stuck commented_array 14 7 eq_refl ltac:(lia) rounds). generalize (item_loop rounds) as loop.
  intros loop Hl. specialize (Hl [(1, 2); (4, 6)]%N). vm_compute in Hl |- *. exact Hl.
Qed.

Definition shadowed_document : list byte := [x7b; quote] ++ bs "z" ++ [quote; x3a; x5b; quote] ++ bs "y" ++ [quote; x2c; quote] ++ bs "x"
  ++ [quote; x5d; x2c; quote] ++ bs "x" ++ [quote; x3a; x31; x2c; quote] ++ bs "y" ++ [quote; x3a; x32; x7d].

(** The order of the keys is taken from the first occurrence of their text, which may be a
    value: the key [x] of {"z":["y","x"],"x":1,"y":2} is looked for after [y] and gets what is
    left of the object. *)
Theorem key_order_is_taken_from_values :
  (λ r, (λ s, (s_name s, s_byte_range s)) <$> x_symbols r) <$>
    json_extract 30 (λ _, Ok (JsonObject [(bs "x", JsonPlain); (bs "y", JsonPlain); (bs "z", JsonPlain)])) shadowed_document =
  Some [(bs "z", (1, 14)); (bs "y", (21, 26)); (bs "x", (26, 27))]%N.
Proof. vm_compute. reflexivity. Qed.

(** ** Witnesses *)

Definition demo_json : list byte := [x7b; quote] ++ bs "a" ++ [quote; x3a; x5b; x31; x2c; x32; x5d; x7d].
Definition demo_parse (text : list byte) : Result Json JsonError := Ok (JsonObject [(bs "a", JsonArray [JsonPlain; JsonPlain])]).

Lemma json_symbols_nest_witness :
  ∃ r, json_extract 13 demo_parse demo_json = Some r ∧ length (x_symbols r) = 3 ∧ contains (x_symbols r).
Proof.
  assert (fits_u32 demo_json) as Hf by (vm_compute; reflexivity). destruct (json_extract 13 demo_parse demo_json) as [r|] eqn:E.
  - exists r. split; [reflexivity|]. split.
    + vm_compute in E. injection E as <-. reflexivity.
    + exact (proj2 (json_symbols_nest 13 demo_parse demo_json r Hf E)).
  - vm_compute in E. discriminate E.
Defined.

Lemma array_scan_ends_witness : is_Some (find_array_item_ranges 12 demo_json (1, 10)%N).
Proof.
  apply (array_scan_ends demo_json (1, 10)%N). apply (bool_decide_eq_true_1 _). vm_compute. reflexivity.
Defined.
