(* ===== verification/YamlExtract.v ===== *)
(** * The extractor of YAML keys

    Models src/src/parsing/config_extractors/yaml.rs: the search for a key and for the end of
    its block, the items of a sequence and the walk over the parsed value.  [Yaml] is [Value]
    of yaml_value.rs, a number with its rendered text; serde-saphyr's parser is a parameter. *)

From Stdlib Require Import Lia Strings.Byte.
From stdpp Require Import base gmap list strings numbers option sorting.
From S2P Require Import Prelude Slices Text Domain Classification TextLines ConfigExtract KeyWalk.

#[local] Open Scope nat_scope.

Inductive Yaml :=
| YamlNull
| YamlBool (b : bool)
| YamlNumber (text : str)
| YamlString (s : str)
| YamlSequence (items : list Yaml)
| YamlMapping (entries : list (Yaml * Yaml))
| YamlTagged.

Definition yaml_key_to_string (key : Yaml) : option str :=
  match key with
  | YamlString s => Some s
  | YamlNumber n => Some n
  | YamlBool b => Some (bs (if b then "true" else "false"))
  | _ => None
  end.

(** ** Bytes *)

Definition is_indent (b : byte) : bool := bool_decide (b = " "%byte) || bool_decide (b = x09).

Definition slice (content : list byte) (a b : nat) : list byte := take (b - a) (drop a content).

(** The offset of the line feed at or after [i], or the end. *)
Definition to_line_feed (content : list byte) (i : nat) : nat :=
  i + count_while (λ b, negb (is_newline b)) (drop i content).

Definition past_line_feed (content : list byte) (i : nat) : nat :=
  let i := to_line_feed content i in if decide (i < length content) then i + 1 else i.

(** Where a line that starts at or before [i] ends, its line feed included, below [stop]. *)
Definition line_stop (content : list byte) (i stop : nat) : nat :=
  match position is_newline (slice content i stop) with Some offset => i + offset + 1 | None => stop end.

Definition yaml_key_prefix (prefix : list byte) : option (nat * bool) :=
  let indent := count_while is_indent prefix in
  match drop indent prefix with
  | [] => Some (indent, false)
  | b :: rest => if bool_decide (b = "-"%byte) && forallb is_indent rest then Some (indent, true) else None
  end.

(** Each round moves past at least one byte, so one round per byte is enough. *)
Fixpoint block_loop (fuel : nat) (content : list byte) (key_indent i : nat) : nat :=
  match fuel with
  | 0 => length content
  | S fuel =>
      if decide (i < length content) then
        let line_start := i in
        let indent := count_while is_indent (drop i content) in
        let i := i + indent in
        match content !! i with
        | None => length content
        | Some ch =>
            if decide (ch = x0a ∨ ch = x0d) then block_loop fuel content key_indent (i + 1)
            else if decide (ch = "#"%byte) then block_loop fuel content key_indent (to_line_feed content i)
            else if decide (indent ≤ key_indent) then line_start
            else block_loop fuel content key_indent (past_line_feed content i)
        end
      else length content
  end.

Definition find_block_end (content : list byte) (after_key key_indent : nat) : nat :=
  block_loop (S (length content)) content key_indent (past_line_feed content after_key).

(** ** The range of a key *)

(** The match of [needle] that begins a mapping line: its start, the end of its range, and
    where the key ends. *)
Fixpoint key_loop (fuel : nat) (content needle : list byte) (bounded_end pos : nat) : option (nat * nat * nat) :=
  match fuel with
  | 0 => None
  | S fuel =>
      if decide (pos + length needle ≤ bounded_end) then
        match find_substring (slice content pos bounded_end) needle with
        | Some rel =>
            let abs_start := pos + rel in
            let line_start := from_option S 0 (rposition is_newline (take abs_start content)) in
            let line_end := line_stop content abs_start bounded_end in
            match yaml_key_prefix (slice content line_start abs_start) with
            | Some (indent, inline_sequence_key) =>
                let key_end := abs_start + length needle in
                let range_end :=
                  if inline_sequence_key then line_end else find_block_end content key_end indent `min` bounded_end in
                Some (abs_start, range_end, key_end)
            | None => key_loop fuel content needle bounded_end (abs_start + 1)
            end
        | None => None
        end
      else None
  end.

Definition find_yaml_key_range (content : list byte) (key : str) (search_from search_end : nat) : nat * nat * nat :=
  let needle := key ++ bs ":" in
  let bounded_end := search_end `min` length content in
  match key_loop (S (length content)) content needle bounded_end search_from with
  | Some (abs_start, range_end, key_end) => (abs_start, range_end, key_end)
  | None => (search_from, bounded_end, search_from)
  end.

(** ** The items of a sequence *)

Definition is_item (rest : list byte) : bool :=
  bool_decide (head rest = Some "-"%byte)
  && match rest !! 1 with Some next => is_indent next || bool_decide (next = x0d) || bool_decide (next = x0a) | None => false end.

Definition is_blank_line (rest : list byte) : bool :=
  match head rest with None => true | Some b => bool_decide (b = "#"%byte) || bool_decide (b = x0d) || bool_decide (b = x0a) end.

(** The loop's variables: the indentation of the items, the open item, the closed ones. *)
Fixpoint sequence_loop (fuel : nat) (content : list byte) (stop cursor : nat) (item_indent current_start : option nat)
    (ranges : list (nat * nat)) : option nat * list (nat * nat) :=
  match fuel with
  | 0 => (current_start, ranges)
  | S fuel =>
      if decide (cursor < stop) then
        let line_start := cursor in
        let cursor := line_stop content cursor stop in
        let line := slice content line_start cursor in
        let indent := count_while is_indent line in
        let rest := drop indent line in
        if is_blank_line rest || negb (is_item rest)
        then sequence_loop fuel content stop cursor item_indent current_start ranges
        else
          match item_indent with
          | None => sequence_loop fuel content stop cursor (Some indent) (Some line_start) ranges
          | Some existing_indent =>
              if decide (indent = existing_indent) then
                sequence_loop fuel content stop cursor item_indent (Some line_start)
                  (match current_start with Some previous_start => ranges ++ [(previous_start, line_start)] | None => ranges end)
              else sequence_loop fuel content stop cursor item_indent current_start ranges
          end
      else (current_start, ranges)
  end.

Definition find_sequence_item_ranges (content : list byte) (parent_byte_range : N * N) : list (N * N) :=
  let start := N.to_nat parent_byte_range.1 in
  let stop := N.to_nat parent_byte_range.2 `min` length content in
  if decide (stop ≤ start) then []
  else
    let '(current_start, ranges) := sequence_loop (length content) content stop start None None [] in
    (λ r : nat * nat, (as_u32 r.1, as_u32 r.2)) <$>
      (ranges ++ match current_start with Some previous_start => [(previous_start, stop)] | None => [] end).

(** ** The walk *)

Section walk.
  Context (content : list byte) (line_starts : list N).

(** [walk_mapping] and [walk_sequence] stop below [MAX_DEPTH]; [levels] counts down with it. *)
Fixpoint walk_yaml (levels : nat) (v : Yaml) (parent_path : str) (parent_byte_range : N * N) (depth : N) (w : KeyWalker) : KeyWalker :=
  match levels with
  | 0 => w
  | S levels =>
      let descend (v : Yaml) (path : str) (byte_range : N * N) (w : KeyWalker) : KeyWalker :=
        if decide (depth + 1 < MAX_DEPTH)%N then walk_yaml levels v path byte_range (depth + 1) w else w in
      match v with
      | YamlMapping entries =>
          (fix go (es : list (Yaml * Yaml)) (search_from : nat) (w : KeyWalker) : KeyWalker :=
             match es with
             | [] => w
             | (k, v) :: es =>
                 match yaml_key_to_string k with
                 | None => go es search_from w
                 | Some key_str =>
                     let key_path := join_key_path parent_path key_str in
                     let '(byte_start, byte_end, search_from) :=
                       find_yaml_key_range content key_str search_from (N.to_nat parent_byte_range.2) in
                     let byte_range := (as_u32 byte_start, as_u32 byte_end) in
                     go es search_from (descend v key_path byte_range (push_key_symbol line_starts w key_path depth byte_range))
                 end
             end) entries (N.to_nat parent_byte_range.1) w
      | YamlSequence items =>
          let item_ranges := find_sequence_item_ranges content parent_byte_range in
          (fix go (i : nat) (vs : list Yaml) (w : KeyWalker) : KeyWalker :=
             match vs with
             | [] => w
             | v :: vs =>
                 if decide (MAX_ARRAY_ITEMS ≤ i) then w
                 else
                   let elem_path := join_array_index parent_path i in
                   let byte_range := default parent_byte_range (item_ranges !! i) in
                   go (S i) vs (descend v elem_path byte_range (push_key_symbol line_starts w elem_path depth byte_range))
             end) 0 items w
      | _ => w
      end
  end.
End walk.

(** ** Bounds *)

Lemma to_line_feed_bound content i : i ≤ length content → i ≤ to_line_feed content i ≤ length content.
Proof.
  intros Hi. unfold to_line_feed. pose proof (count_while_le (λ b, negb (is_newline b)) (drop i content)) as H.
  rewrite length_drop in H. lia.
Qed.

Lemma past_line_feed_bound content i : i ≤ length content → i ≤ past_line_feed content i ≤ length content.
Proof. intros Hi. unfold past_line_feed. pose proof (to_line_feed_bound content i Hi). case_decide; lia. Qed.

Lemma block_loop_bound fuel content key_indent i :
  i ≤ length content → i ≤ block_loop fuel content key_indent i ≤ length content.
Proof.
  revert i. induction fuel as [|fuel IH]; intros i Hi; cbn [block_loop]; [lia|]. case_decide; [|lia].
  destruct (content !! _) as [ch|] eqn:Ech; [|lia]. apply lookup_lt_Some in Ech.
  set (j := i + count_while is_indent (drop i content)) in *.
  pose proof (to_line_feed_bound content j ltac:(lia)). pose proof (past_line_feed_bound content j ltac:(lia)).
  case_decide; [pose proof (IH (j + 1) ltac:(lia)); lia|].
  case_decide; [pose proof (IH (to_line_feed content j) ltac:(lia)); lia|]. case_decide; [lia|].
  pose proof (IH (past_line_feed content j) ltac:(lia)). lia.
Qed.

Lemma find_block_end_bound content i key_indent : i ≤ length content → i ≤ find_block_end content i key_indent ≤ length content.
Proof.
  intros Hi. unfold find_block_end. pose proof (past_line_feed_bound content i Hi).
  pose proof (block_loop_bound (S (length content)) content key_indent (past_line_feed content i) ltac:(lia)). lia.
Qed.

Lemma line_stop_bound content i stop : i < stop ≤ length content → i < line_stop content i stop ≤ stop.
Proof.
  intros Hi. unfold line_stop, slice. destruct (position _ _) as [p|] eqn:E; [|lia]. apply position_bound in E.
  rewrite length_take, length_drop in E. lia.
Qed.

Lemma find_substring_bound haystack needle rel : find_substring haystack needle = Some rel → rel + length needle ≤ length haystack.
Proof. unfold find_substring. case_decide; [done|]. apply find_str_bound. Qed.

Lemma key_loop_bound fuel content needle bounded_end pos a e k :
  0 < length needle → bounded_end ≤ length content → key_loop fuel content needle bounded_end pos = Some (a, e, k) →
  pos ≤ a ≤ e ∧ e ≤ bounded_end ∧ a ≤ k ≤ bounded_end.
Proof.
  intros Hn Hb. revert pos. induction fuel as [|fuel IH]; intros pos; cbn [key_loop]; [done|]. case_decide as Hp; [|done].
  destruct (find_substring _ _) as [rel|] eqn:Er; [|done]. apply find_substring_bound in Er. unfold slice in Er.
  rewrite length_take, length_drop in Er. destruct (yaml_key_prefix _) as [[indent inl]|]; [|intros H%IH; lia]. intros [= <- <- <-].
  pose proof (line_stop_bound content (pos + rel) bounded_end ltac:(lia)).
  pose proof (find_block_end_bound content (pos + rel + length needle) indent ltac:(lia)). destruct inl; lia.
Qed.

(** The range of a key lies between the start of the search and the end of its mapping. *)
Lemma find_yaml_key_range_bound content key search_from search_end a e k :
  search_from ≤ search_end ≤ length content → find_yaml_key_range content key search_from search_end = (a, e, k) →
  search_from ≤ a ≤ e ∧ e ≤ search_end ∧ search_from ≤ k ≤ search_end.
Proof.
  intros Hs. unfold find_yaml_key_range. rewrite Nat.min_l by lia.
  destruct (key_loop _ _ _ _ _) as [[[a' e'] k']|] eqn:E; intros [= <- <- <-]; [|lia].
  apply key_loop_bound in E; [lia|rewrite length_app; cbn; lia|lia].
Qed.

Definition item_inside (lo hi : nat) (r : nat * nat) : Prop := lo ≤ r.1 ≤ r.2 ∧ r.2 ≤ hi.

Lemma sequence_loop_bound fuel content stop cursor indent current ranges lo :
  stop ≤ length content → lo ≤ cursor ≤ stop → from_option (λ c, lo ≤ c ≤ cursor) True current → Forall (item_inside lo stop) ranges →
  from_option (λ c, lo ≤ c ≤ stop) True (sequence_loop fuel content stop cursor indent current ranges).1 ∧
  Forall (item_inside lo stop) (sequence_loop fuel content stop cursor indent current ranges).2.
Proof.
  intros Hstop. revert cursor indent current ranges. induction fuel as [|fuel IH]; intros cursor indent current ranges Hc Hcur Hr;
    cbn [sequence_loop]; [split; [destruct current; cbn in *; lia|done]|].
  case_decide as Hlt; [|split; [destruct current; cbn in *; lia|done]].
  pose proof (line_stop_bound content cursor stop ltac:(lia)) as Hl.
  assert (from_option (λ c, lo ≤ c ≤ line_stop content cursor stop) True current) as Hcur' by (destruct current; cbn in *; lia).
  destruct (_ || _); [by apply IH; [lia|..]|]. destruct indent as [existing|]; [case_decide|]; apply IH; try done; try (cbn; lia).
  destruct current as [c|]; [|done]. cbn in Hcur. apply Forall_app. split; [done|]. constructor; [|done]. unfold item_inside. cbn. lia.
Qed.

Lemma sequence_ranges_inside content range :
  fits_u32 content → (range.1 ≤ range.2)%N →
  Forall (λ r, (range.1 ≤ r.1 ≤ r.2)%N ∧ (r.2 ≤ range.2)%N) (find_sequence_item_ranges content range).
Proof.
  intros Hf Hr. unfold find_sequence_item_ranges. case_decide as Hs; [constructor|].
  set (start := N.to_nat range.1) in *. set (stop := N.to_nat range.2 `min` length content) in *.
  destruct (sequence_loop_bound (length content) content stop start None None [] start) as [H1 H2];
    [lia|lia|done|constructor|]. destruct (sequence_loop _ _ _ _ _ _ _) as [current ranges]. cbn in H1, H2.
  apply Forall_fmap, Forall_app. unfold fits_u32 in Hf. split.
  - eapply Forall_impl; [exact H2|]. intros r [? ?]. cbn. rewrite !as_u32_fits by lia. lia.
  - destruct current as [c|]; [|constructor]. constructor; [|constructor]. cbn in H1 |- *. rewrite !as_u32_fits by lia. lia.
Qed.

(** ** Symbols of the walk nest *)

Section nesting.
  Context (content : list byte) (Hf : fits_u32 content) (line_starts : list N).

Lemma walk_yaml_adds levels v path range depth w :
  range_in content range → adds content depth range w (walk_yaml content line_starts levels v path range depth w).
Proof using Hf.
  revert v path range depth w. induction levels as [|levels IH]; intros v path range depth w Hr; cbn [walk_yaml]; [apply adds_refl|].
  assert (∀ v path r w, range_in content r →
            adds content (depth + 1) r w (if decide (depth + 1 < MAX_DEPTH)%N then walk_yaml content line_starts levels v path r (depth + 1) w else w))
    as Hdescend.
  { intros v' path' r w1 Hr'. case_decide; [by apply IH|apply adds_refl]. }
  destruct v as [| | | |items|entries|]; try apply adds_refl.
  - cbn zeta. pose proof (sequence_ranges_inside content range Hf (proj1 Hr)) as Hrng.
    match goal with |- adds _ _ _ _ (?f 0 items w) => enough (∀ vs i w, adds content depth range w (f i vs w)) as H by apply H end.
    clear w. induction vs as [|v vs IHv]; intros i w; [apply adds_refl|]. cbn. destruct (decide (MAX_ARRAY_ITEMS ≤ i)); [apply adds_refl|].
    assert ((range.1 ≤ (default range (find_sequence_item_ranges content range !! i)).1)%N ∧
            ((default range (find_sequence_item_ranges content range !! i)).2 ≤ range.2)%N ∧
            range_in content (default range (find_sequence_item_ranges content range !! i))) as (Hlo & Hhi & Hri).
    { destruct (find_sequence_item_ranges content range !! i) as [r|] eqn:Er; cbn; [|split; [lia|]; split; [lia|done]].
      rewrite Forall_lookup in Hrng. specialize (Hrng i r Er). destruct Hr. repeat split; lia. }
    eapply (adds_member content line_starts depth range w); [exact Hri|exact Hlo|exact Hhi|by apply Hdescend|apply IHv].
  - destruct Hr as [Hr1 Hr2].
    match goal with |- adds _ _ _ _ (?f entries ?s w) =>
      enough (∀ es sf w, N.to_nat range.1 ≤ sf ≤ N.to_nat range.2 → adds content depth range w (f es sf w)) as H by (apply H; lia) end.
    clear w. induction es as [|[k v] es IHe]; intros sf w Hsf; [apply adds_refl|].
    destruct (yaml_key_to_string k) as [key|]; [|by apply IHe].
    destruct (find_yaml_key_range content key sf (N.to_nat range.2)) as [[a e] k'] eqn:Ek.
    apply find_yaml_key_range_bound in Ek; [|lia].
    assert (as_u32 a = N.of_nat a ∧ as_u32 e = N.of_nat e) as [-> ->] by (unfold fits_u32 in Hf; split; apply as_u32_fits; lia).
    eapply (adds_member content line_starts depth range w _ (N.of_nat a, N.of_nat e)); [split; cbn; lia|cbn; lia|cbn; lia| |apply IHe; lia].
    apply Hdescend. split; cbn; lia.
Qed.
End nesting.

(** ** The rounds are enough: with more of them the loops return the same *)

Lemma sequence_loop_enough content stop : stop ≤ length content → ∀ fuel cursor indent current ranges,
  stop - cursor ≤ fuel →
  sequence_loop (S fuel) content stop cursor indent current ranges = sequence_loop fuel content stop cursor indent current ranges.
Proof.
  intros Hstop. induction fuel as [|fuel IH]; intros cursor indent current ranges Hf.
  { cbn [sequence_loop]. by rewrite decide_False by lia. }
  remember (S fuel) as f eqn:Ef. rewrite Ef at 2. cbn [sequence_loop]. case_decide as Hc; [|done]. subst f.
  pose proof (line_stop_bound content cursor stop ltac:(lia)).
  destruct (_ || _); [apply IH; lia|]. destruct indent; [case_decide|]; apply IH; lia.
Qed.

Lemma count_while_first f s b : head s = Some b → f b = true → 0 < count_while f s.
Proof. destruct s as [|c s]; [done|]. intros [= ->] Hb. cbn. rewrite Hb. lia. Qed.

Lemma to_line_feed_moves content i b : content !! i = Some b → b ≠ x0a → i < to_line_feed content i.
Proof.
  intros Hb Hn. unfold to_line_feed. assert (0 < count_while (λ b, negb (is_newline b)) (drop i content)); [|lia].
  apply (count_while_first _ _ b); [by rewrite (drop_S _ _ _ Hb)|]. apply negb_true_iff. by apply bool_decide_eq_false.
Qed.

Lemma block_loop_enough content key_indent : ∀ fuel i,
  length content - i ≤ fuel → block_loop (S fuel) content key_indent i = block_loop fuel content key_indent i.
Proof.
  induction fuel as [|fuel IH]; intros i Hf.
  { cbn [block_loop]. by rewrite decide_False by lia. }
  remember (S fuel) as f eqn:Ef. rewrite Ef at 2. cbn [block_loop]. case_decide as Hc; [|done]. subst f.
  destruct (content !! _) as [ch|] eqn:Ech; [|done]. set (j := i + count_while is_indent (drop i content)) in *.
  apply lookup_lt_Some in Ech as Hj. case_decide as Hnl; [apply IH; lia|].
  assert (ch ≠ x0a) as Hch by (intros ->; apply Hnl; by left). pose proof (to_line_feed_moves _ _ _ Ech Hch) as Hm.
  case_decide; [apply IH; lia|]. case_decide; [done|]. apply IH. unfold past_line_feed. case_decide; lia.
Qed.

Lemma key_loop_enough content needle bounded_end : ∀ fuel pos,
  S bounded_end - pos ≤ fuel → key_loop (S fuel) content needle bounded_end pos = key_loop fuel content needle bounded_end pos.
Proof.
  induction fuel as [|fuel IH]; intros pos Hf.
  { cbn [key_loop]. by rewrite decide_False by lia. }
  remember (S fuel) as f eqn:Ef. rewrite Ef at 2. cbn [key_loop]. case_decide as Hc; [|done]. subst f.
  destruct (find_substring _ _) as [rel|]; [|done]. destruct (yaml_key_prefix _) as [[indent inl]|]; [done|]. apply IH. lia.
Qed.
