(* ===== verification/Disambiguation.v ===== *)
(** * Finding the symbol that is meant (live_index/disambiguation.rs)

    A caller names a symbol, perhaps loosely, perhaps with a kind and a line.
    [resolve_symbol_selector] tries ever fuzzier ways of matching the name and takes the
    candidates of the first that has any; several candidates are told apart by the tier
    of their kind.  The same file decides which type a method belongs to, which the call
    graph uses to resolve [Type::method].

    The theorems say what each of the three outcomes of a selection means, that an exact
    name is never overruled by a fuzzy one, which qualified names refer to a symbol, and
    that the owner of a method is that of the innermost block around it. *)

From Stdlib Require Import Lia Strings.Byte.
From stdpp Require Import base gmap sets list strings numbers option sorting pretty.
From S2P Require Import Prelude Slices Text Domain Classification.

#[global] Set Default Goal Selector "!".

(** ** References to a symbol *)

Definition parse_reference_kind_filter (kind_filter : option str) : option ReferenceKind :=
  k ← kind_filter;
  if decide (k = bs "call") then Some Call
  else if decide (k = bs "import") then Some Import_
  else if decide (k = bs "type_usage") then Some TypeUsage
  else if decide (k = bs "macro_use") then Some MacroUse
  else if decide (k = bs "value_use") then Some ValueUse
  else None.

Definition separator_of (language : LanguageId) : str :=
  match language with
  | Python => bs "."
  | JavaScript | TypeScript => bs "/"
  | _ => bs "::"
  end.

Definition matches_exact_symbol_qualified_name (language : LanguageId) (qualified_name target_name : str)
    (module_path : option str) : bool :=
  let separator := separator_of language in
  match module_path with
  | None => false
  | Some module_path =>
      let full_path := module_path ++ separator ++ target_name in
      bool_decide (qualified_name = full_path)
      || match strip_suffix qualified_name full_path with
         | Some before => ends_with separator before
         | None => false
         end
  end.

Definition is_receiver_method_call (file : IndexedFile) (r : ReferenceRecord) : bool :=
  bool_decide (r_kind r = Call)
  && (let start := (r_byte_range r).1 in
      (0 <? start)%N && bool_decide (f_content file !! N.to_nat (start - 1) = Some x2e)).

Definition is_rust_receiver_method_call (reference_file : option IndexedFile) (r : ReferenceRecord) : bool :=
  match reference_file with
  | None => false
  | Some file =>
      if decide (f_language file ≠ Rust) then false else is_receiver_method_call file r
  end.

Definition matches_exact_symbol_reference (r : ReferenceRecord) (target_name : str)
    (target_language : LanguageId) (target_kind : SymbolKind) (module_path : option str)
    (reference_file : option IndexedFile) (kind_filter : option ReferenceKind) : bool :=
  if match kind_filter with Some k => negb (bool_decide (r_kind r = k)) | None => false end then false
  else if match r_qualified_name r with
          | Some q => matches_exact_symbol_qualified_name target_language q target_name module_path
          | None => false
          end then true
  else if negb (bool_decide (r_name r = target_name)) then false
  else if bool_decide (target_kind = Function) && bool_decide (target_language = Rust) then
    if bool_decide (is_Some (r_qualified_name r)) then false
    else negb (is_rust_receiver_method_call reference_file r)
  else true.

(** ** Kinds *)

(** [Display for SymbolKind]. *)
Definition kind_display (k : SymbolKind) : str :=
  bs match k with
     | Function | Method => "fn" | Class_ => "class" | Struct => "struct" | Enum => "enum"
     | Interface => "interface" | Module_ => "mod" | Constant => "const" | Variable_ => "let"
     | Type_ => "type" | Trait => "trait" | Impl => "impl" | Other => "other" | Key => "key"
     | Section_ => "section" | MacroGenerated => "macro-generated"
     end.

(** [search::kind_filter_matches]. *)
Definition kind_filter_matches (filter : str) (kind : SymbolKind) : bool :=
  bool_decide (lowercase (kind_display kind) = lowercase filter)
  || match kind with
     | Variable_ => bool_decide (lowercase filter = bs "variable")
     | Function => bool_decide (lowercase filter = bs "function")
     | Method => bool_decide (lowercase filter = bs "method")
     | Module_ => bool_decide (lowercase filter = bs "module")
     | Constant => bool_decide (lowercase filter = bs "constant")
     | _ => false
     end.

Definition kind_disambiguation_tier (k : SymbolKind) : N :=
  match k with
  | Class_ | Struct | Enum | Interface | Trait => 1
  | Module_ => 2
  | Function | Method | Impl => 3
  | _ => 4
  end.

(** ** Names *)

(** [str::replace]: the matches from the left that do not overlap. *)
Fixpoint replace_loop (fuel : nat) (from to s : str) : str :=
  match fuel with
  | 0 => s
  | S fuel =>
      match strip_prefix from s with
      | Some rest => to ++ replace_loop fuel from to rest
      | None => match s with [] => [] | b :: s => b :: replace_loop fuel from to s end
      end
  end.
Definition replace_str (from to s : str) : str := replace_loop (S (length s)) from to s.

Fixpoint take_word (s : str) : str :=
  match strip_one whitespace_chars s, s with
  | None, b :: s => b :: take_word s
  | _, _ => []
  end.

(** [split_whitespace]. *)
Fixpoint words_loop (fuel : nat) (s : str) : list str :=
  match fuel with
  | 0 => []
  | S fuel =>
      let s := trim_start s in
      match take_word s with
      | [] => []
      | w => w :: words_loop fuel (drop (length w) s)
      end
  end.
Definition split_whitespace (s : str) : list str := words_loop (S (length s)) s.

Definition normalize_symbol_name (s : str) : str :=
  let collapsed := join (bs " ") (split_whitespace s) in
  replace_str (bs ", ") (bs ",") (replace_str (bs " ,") (bs ",")
    (replace_str (bs " >") (bs ">") (replace_str (bs "< ") (bs "<") collapsed))).

Definition strip_qualification (name : str) : option str :=
  match rsplit_once (bs "::") name with
  | Some (_, bare) => Some bare
  | None => snd <$> rsplit_once (bs ".") name
  end.

Definition is_selector_prefix_match (stored query : str) : bool :=
  match strip_prefix query stored with
  | None => false
  | Some [] => true
  | Some (b :: _) => bool_decide (b ∈ [x2c; x20; x28; x7b; x09; x0a; x29])
  end.

Definition strip_swift_extension (name : str) : option str :=
  rest ← strip_prefix (bs "extension ") name;
  Some (trim (split_first (bs ":") rest)).

(** ** Selection *)

Notation Candidate := (nat * SymbolRecord)%type.

Inductive SymbolSelectorMatch :=
| Selected (idx : nat) (symbol : SymbolRecord)
| NotFound
| Ambiguous (lines : list N).

Definition accepts_kind (symbol_kind : option str) (s : SymbolRecord) : bool :=
  match symbol_kind with Some k => kind_filter_matches k (s_kind s) | None => true end.

Definition accepts_line (symbol_line : option N) (s : SymbolRecord) : bool :=
  match symbol_line with
  | Some sl => ((((s_line_range s).1 + 1) mod u32_modulus) =? sl)%N
  | None => true
  end.

Definition enumerate {A} (l : list A) : list (nat * A) := zip (seq 0 (length l)) l.

Definition match_symbols (file : IndexedFile) (name_pred : SymbolRecord → bool)
    (symbol_kind : option str) (symbol_line : option N) : list Candidate :=
  let candidates := filter (λ c : Candidate, name_pred c.2 && accepts_kind symbol_kind c.2 = true)
    (enumerate (f_symbols file)) in
  filter (λ c : Candidate, accepts_line symbol_line c.2 = true) candidates.

(** The name predicates of the six stages, a skipped stage matching nothing. *)
Definition stage_exact (name : str) (s : SymbolRecord) : bool := bool_decide (s_name s = name).
Definition stage_normalised (name : str) (s : SymbolRecord) : bool :=
  bool_decide (normalize_symbol_name name ≠ name)
  && bool_decide (normalize_symbol_name (s_name s) = normalize_symbol_name name).
Definition stage_impl (name : str) (s : SymbolRecord) : bool :=
  bool_decide (normalize_symbol_name (s_name s) = bs "impl " ++ normalize_symbol_name name).
Definition stage_unqualified (name : str) (s : SymbolRecord) : bool :=
  match strip_qualification name with Some bare => bool_decide (s_name s = bare) | None => false end.
Definition stage_selector (name : str) (s : SymbolRecord) : bool :=
  (starts_with (bs "@") name || starts_with (bs ".") name || starts_with (bs "#") name)
  && is_selector_prefix_match (s_name s) name.
Definition stage_extension (name : str) (s : SymbolRecord) : bool :=
  match strip_swift_extension name with Some t => bool_decide (s_name s = t) | None => false end.

Definition stages (name : str) : list (SymbolRecord → bool) :=
  [stage_exact name; stage_normalised name; stage_impl name; stage_unqualified name;
   stage_selector name; stage_extension name].

Fixpoint first_nonempty (file : IndexedFile) (preds : list (SymbolRecord → bool))
    (symbol_kind : option str) (symbol_line : option N) : list Candidate :=
  match preds with
  | [] => []
  | p :: preds =>
      match match_symbols file p symbol_kind symbol_line with
      | [] => first_nonempty file preds symbol_kind symbol_line
      | c => c
      end
  end.

Definition find_candidates_cascade (file : IndexedFile) (name : str) (symbol_kind : option str)
    (symbol_line : option N) : list Candidate :=
  first_nonempty file (stages name) symbol_kind symbol_line.

Definition candidate_tier (c : Candidate) : N := kind_disambiguation_tier (s_kind c.2).

Definition min_tier (cs : list Candidate) : N := foldr N.min 4%N (candidate_tier <$> cs).

Definition resolve_symbol_selector (file : IndexedFile) (name : str) (symbol_kind : option str)
    (symbol_line : option N) : SymbolSelectorMatch :=
  let candidates := find_candidates_cascade file name symbol_kind symbol_line in
  let ambiguous := Ambiguous ((λ c : Candidate, (s_line_range c.2).1) <$> candidates) in
  match candidates with
  | [] => NotFound
  | [(idx, symbol)] => Selected idx symbol
  | _ =>
      match symbol_kind with
      | None =>
          match filter (λ c, candidate_tier c = min_tier candidates) candidates with
          | [(idx, symbol)] => Selected idx symbol
          | _ => ambiguous
          end
      | Some _ => ambiguous
      end
  end.

Definition render_symbol_selector (name : str) (symbol_kind : option str) (symbol_line : option N) : str :=
  match symbol_kind, symbol_line with
  | Some k, Some l => k ++ bs " " ++ name ++ bs " at line " ++ bs (pretty l)
  | Some k, None => k ++ bs " " ++ name
  | None, Some l => name ++ bs " at line " ++ bs (pretty l)
  | None, None => name
  end.

(** ** Owners *)

Definition base_type_token (ty : str) : str :=
  let ty := trim (split_first (bs "<") ty) in
  trim (rsplit_last (bs "::") ty).

Definition container_target_type (symbol : SymbolRecord) : option str :=
  raw ← match s_kind symbol with
        | Impl =>
            let name := s_name symbol in
            Some match rsplit_once (bs " for ") name with
                 | Some (_, ty) => ty
                 | None => default name (strip_prefix (bs "impl ") name)
                 end
        | Struct | Enum | Trait | Class_ | Interface => Some (s_name symbol)
        | _ => None
        end;
  Some (base_type_token (trim raw)).

Definition symbol_belongs_to_type (file : IndexedFile) (candidate : SymbolRecord) (type_name : str) : bool :=
  let '(cand_start, cand_end) := s_line_range candidate in
  existsb (λ container,
    let '(start, end_) := s_line_range container in
    (start <=? cand_start)%N && (cand_end <=? end_)%N
    && bool_decide (container_target_type container = Some type_name)) (f_symbols file).

Fixpoint owner_scan (symbols : list SymbolRecord) (def_start_line : N) (best : option (N * str)) :
    option (N * str) :=
  match symbols with
  | [] => best
  | sym :: rest =>
      let '(start, end_) := s_line_range sym in
      let best :=
        if decide (s_kind sym ≠ Impl) then best
        else if (def_start_line <? start)%N || (end_ <? def_start_line)%N then best
        else
          match container_target_type sym with
          | None => best
          | Some owner =>
              match best with
              | Some (best_start, _) => if (start <=? best_start)%N then best else Some (start, owner)
              | None => Some (start, owner)
              end
          end in
      owner_scan rest def_start_line best
  end.

Definition enclosing_impl_owner (symbols : list SymbolRecord) (def_start_line : N) : option str :=
  snd <$> owner_scan symbols def_start_line None.

(** ** What a selection means *)

Lemma elem_of_enumerate_from {A} (l : list A) n i x :
  (i, x) ∈ zip (seq n (length l)) l ↔ n ≤ i ∧ l !! (i - n) = Some x.
Proof.
  revert n. induction l as [|y l IH]; intros n; simpl.
  { rewrite elem_of_nil. split; [done|]. intros [_ ?]. done. }
  rewrite elem_of_cons, IH. split.
  - intros [[= -> ->]|[Hle Hl]]; [by rewrite Nat.sub_diag|].
    split; [lia|]. by replace (i - n) with (S (i - S n)) by lia.
  - intros [Hle Hl]. destruct (decide (i = n)) as [->|Hne].
    + rewrite Nat.sub_diag in Hl. simplify_eq/=. by left.
    + right. split; [lia|]. by replace (i - n) with (S (i - S n)) in Hl by lia.
Qed.

Lemma elem_of_enumerate {A} (l : list A) i x : (i, x) ∈ enumerate l ↔ l !! i = Some x.
Proof. unfold enumerate. rewrite elem_of_enumerate_from, Nat.sub_0_r. split; [tauto|]. split; [lia|done]. Qed.

Lemma enumerate_nodup {A} (l : list A) : NoDup (enumerate l).
Proof.
  apply (NoDup_fmap_1 fst). unfold enumerate. rewrite fst_zip; [apply NoDup_seq|]. by rewrite length_seq.
Qed.

Lemma elem_of_match_symbols file p k l i s :
  (i, s) ∈ match_symbols file p k l ↔
  f_symbols file !! i = Some s ∧ p s = true ∧ accepts_kind k s = true ∧ accepts_line l s = true.
Proof.
  unfold match_symbols. rewrite !list_elem_of_filter, elem_of_enumerate. simpl.
  rewrite andb_true_iff. tauto.
Qed.

Lemma match_symbols_nodup file p k l : NoDup (match_symbols file p k l).
Proof. unfold match_symbols. apply NoDup_filter, NoDup_filter, enumerate_nodup. Qed.

(** The candidates are those of the first stage that has any. *)
Lemma first_nonempty_spec file preds k l :
  (first_nonempty file preds k l = [] ∧ ∀ p, p ∈ preds → match_symbols file p k l = []) ∨
  ∃ before p after, preds = before ++ p :: after ∧
    (∀ q, q ∈ before → match_symbols file q k l = []) ∧
    match_symbols file p k l ≠ [] ∧ first_nonempty file preds k l = match_symbols file p k l.
Proof.
  induction preds as [|p preds IH]; simpl; [left; split; [done|]; by intros p ?%elem_of_nil|].
  destruct (match_symbols file p k l) as [|c cs] eqn:E.
  - destruct IH as [[-> Hall]|(before & q & after & -> & Hb & Hq & ->)].
    + left. split; [done|]. intros q [->|?]%elem_of_cons; auto.
    + right. exists (p :: before), q, after. split_and!; [done| |done|done].
      intros r [->|?]%elem_of_cons; auto.
  - right. exists [], p, preds. split_and!; [done| |by rewrite E|done]. by intros q ?%elem_of_nil.
Qed.

Lemma tier_bounds k : (1 ≤ kind_disambiguation_tier k ≤ 4)%N.
Proof. destruct k; simpl; lia. Qed.

Lemma min_tier_le cs c : c ∈ cs → (min_tier cs ≤ candidate_tier c)%N.
Proof.
  unfold min_tier. induction cs as [|d cs IH]; [by intros ?%elem_of_nil|].
  rewrite fmap_cons. cbn [foldr]. intros [->|Hc]%elem_of_cons; [lia|]. specialize (IH Hc). lia.
Qed.

Lemma min_tier_reached cs : cs ≠ [] → ∃ c, c ∈ cs ∧ candidate_tier c = min_tier cs.
Proof.
  induction cs as [|d cs IH]; [done|]. intros _. destruct (decide (cs = [])) as [->|Hne].
  { exists d. split; [left|]. unfold min_tier. simpl. pose proof (tier_bounds (s_kind d.2)) as Ht.
    unfold candidate_tier. lia. }
  destruct (IH Hne) as (c & Hc & Ec). unfold min_tier in *. rewrite fmap_cons. cbn [foldr].
  destruct (N.min_spec (candidate_tier d) (foldr N.min 4%N (candidate_tier <$> cs))) as [[_ ->]|[_ ->]].
  - exists d. split; [left|done].
  - exists c. split; [by right|done].
Qed.

(** What each outcome says about the candidates. *)
Definition outcome_ok (cs : list Candidate) (symbol_kind : option str) (r : SymbolSelectorMatch) : Prop :=
  match r with
  | NotFound => cs = []
  | Selected i s => (i, s) ∈ cs ∧ ∀ c, c ∈ cs → c ≠ (i, s) →
      symbol_kind = None ∧ (kind_disambiguation_tier (s_kind s) < candidate_tier c)%N
  | Ambiguous lines => lines = (λ c : Candidate, (s_line_range c.2).1) <$> cs ∧
      ∃ c d, c ∈ cs ∧ d ∈ cs ∧ c ≠ d ∧ (symbol_kind = None →
        candidate_tier c = candidate_tier d ∧ ∀ e, e ∈ cs → (candidate_tier c ≤ candidate_tier e)%N)
  end.

Lemma two_elements {A} (x y : A) l : NoDup (x :: y :: l) → x ∈ x :: y :: l ∧ y ∈ x :: y :: l ∧ x ≠ y.
Proof. intros [Hx _]%NoDup_cons. split_and!; [left|right; left|]. intros ->. apply Hx. left. Qed.

Lemma resolve_outcome file name k l :
  outcome_ok (find_candidates_cascade file name k l) k (resolve_symbol_selector file name k l).
Proof.
  unfold resolve_symbol_selector. set (cs := find_candidates_cascade file name k l).
  assert (Hnd : NoDup cs).
  { unfold cs, find_candidates_cascade.
    destruct (first_nonempty_spec file (stages name) k l) as [[-> _]|(? & p & ? & _ & _ & _ & ->)];
      [constructor|apply match_symbols_nodup]. }
  clearbody cs. destruct cs as [|[i s] [|d cs]]; [done| |].
  { split; [left|]. intros c ->%list_elem_of_singleton. done. }
  set (all := (i, s) :: d :: cs) in *. destruct k as [k|].
  { split; [done|]. exists (i, s), d. destruct (two_elements _ _ _ Hnd) as (? & ? & ?). done. }
  set (best := filter (λ c, candidate_tier c = min_tier all) all).
  assert (Hbest : ∀ c, c ∈ best ↔ c ∈ all ∧ candidate_tier c = min_tier all).
  { intros c. unfold best. rewrite list_elem_of_filter. tauto. }
  assert (Hbnd : NoDup best) by (by apply NoDup_filter).
  clearbody best. destruct best as [|[j t] [|e rest]].
  - destruct (min_tier_reached all) as (c & Hc & Ec); [done|].
    assert (Hin : c ∈ ([] : list Candidate)) by (by apply Hbest). by apply elem_of_nil in Hin.
  - destruct (Hbest (j, t)) as [[Hj Ej] _]; [left|]. split; [done|]. intros c Hc Hne. split; [done|].
    assert (Hlt : candidate_tier c ≠ min_tier all).
    { intros E. assert (Hin : c ∈ [(j, t)]) by (by apply Hbest). by apply list_elem_of_singleton in Hin. }
    pose proof (min_tier_le all c Hc). change (kind_disambiguation_tier (s_kind t)) with (candidate_tier (j, t)). lia.
  - split; [done|]. exists (j, t), e. destruct (two_elements _ _ _ Hbnd) as (Hj & He & Hne).
    apply Hbest in Hj as [Hj Ej]. apply Hbest in He as [He Ee]. split_and!; [done..|]. intros _.
    split; [congruence|]. intros c Hc. rewrite Ej. by apply min_tier_le.
Qed.

(** The outcome of a selection, on every branch.  The candidates are the symbols that
    pass the kind and line filters and match the name in the first way of matching it
    that has any such symbol; so a name that occurs exactly is never overruled by a
    fuzzy match.  Nothing found means no way matches.  A selected symbol is the only
    candidate, or, when no kind was given, the only one of the best tier.  An ambiguity
    lists every candidate, and at least two of them are equally good. *)
Theorem selector_outcome file name symbol_kind symbol_line :
  ∃ cs, outcome_ok cs symbol_kind (resolve_symbol_selector file name symbol_kind symbol_line) ∧
  (cs = [] → ∀ p s i, p ∈ stages name → f_symbols file !! i = Some s → p s = true →
     accepts_kind symbol_kind s = true → accepts_line symbol_line s = true → False) ∧
  (cs ≠ [] → ∃ before p after, stages name = before ++ p :: after ∧
     (∀ i s, (i, s) ∈ cs ↔ f_symbols file !! i = Some s ∧ p s = true ∧
        accepts_kind symbol_kind s = true ∧ accepts_line symbol_line s = true) ∧
     ∀ q i s, q ∈ before → f_symbols file !! i = Some s → q s = true →
        accepts_kind symbol_kind s = true → accepts_line symbol_line s = true → False).
Proof.
  exists (find_candidates_cascade file name symbol_kind symbol_line). split; [apply resolve_outcome|].
  assert (Hno : ∀ p i s, match_symbols file p symbol_kind symbol_line = [] →
    f_symbols file !! i = Some s → p s = true → accepts_kind symbol_kind s = true →
    accepts_line symbol_line s = true → False).
  { intros p i s E Hi Hp Hk Hl. assert (Hin : (i, s) ∈ match_symbols file p symbol_kind symbol_line).
    { by apply elem_of_match_symbols. } rewrite E in Hin. by apply elem_of_nil in Hin. }
  unfold find_candidates_cascade.
  destruct (first_nonempty_spec file (stages name) symbol_kind symbol_line)
    as [[E Hall]|(before & p & after & Es & Hb & Hp & E)]; rewrite E.
  - split; [|done]. intros _ p s i Hp. eapply Hno. auto.
  - split; [done|]. intros _. exists before, p, after. split_and!; [done| |].
    + intros i s. apply elem_of_match_symbols.
    + intros q i s Hq. eapply Hno. auto.
Qed.

(** A qualified name refers to a symbol exactly when it is the symbol's full path or a
    suffix of it that begins right after a separator of the language: never a suffix that
    cuts a path segment, and never without a known module path. *)
Theorem qualified_name_refers language qualified_name target_name module_path :
  matches_exact_symbol_qualified_name language qualified_name target_name module_path = true ↔
  ∃ m, module_path = Some m ∧
    let full := m ++ separator_of language ++ target_name in
    (qualified_name = full ∨ ∃ before, full = before ++ separator_of language ++ qualified_name).
Proof.
  unfold matches_exact_symbol_qualified_name. destruct module_path as [m|]; [|naive_solver].
  rewrite orb_true_iff, bool_decide_eq_true. split.
  - intros H. exists m. split; [done|]. simpl. destruct H as [H|H]; [by left|right].
    destruct (strip_suffix qualified_name _) as [before|] eqn:E; [|done].
    apply strip_suffix_Some in E. apply ends_with_true in H as [r ->]. exists r. by rewrite E, <-app_assoc.
  - intros (m' & [= <-] & [H|[before H]]); [by left|right].
    rewrite (proj2 (strip_suffix_Some _ _ (before ++ separator_of language))).
    + apply ends_with_true. by eexists.
    + by rewrite H, <-app_assoc.
Qed.

(** An impl block around a line, and the innermost of them. *)
Definition impl_around (line : N) (s : SymbolRecord) : Prop :=
  s_kind s = Impl ∧ ((s_line_range s).1 ≤ line)%N ∧ (line ≤ (s_line_range s).2)%N.

Definition owner_ok (l : list SymbolRecord) (line : N) (best : option (N * str)) : Prop :=
  match best with
  | None => ∀ t, t ∈ l → ¬ impl_around line t
  | Some (start, owner) => ∃ s, s ∈ l ∧ impl_around line s ∧ (s_line_range s).1 = start ∧
      container_target_type s = Some owner ∧
      ∀ t, t ∈ l → impl_around line t → ((s_line_range t).1 ≤ start)%N
  end.

Lemma owner_ok_skip l line best s : owner_ok l line best → ¬ impl_around line s → owner_ok (l ++ [s]) line best.
Proof.
  intros H Hs. destruct best as [[start owner]|]; simpl in *.
  - destruct H as (u & Hu & ? & ? & ? & Hm). exists u. split_and!; [by apply elem_of_app; left|done..|].
    intros t [Ht|Ht]%elem_of_app; [by apply Hm|]. apply list_elem_of_singleton in Ht as ->. done.
  - intros t [Ht|Ht]%elem_of_app; [by apply H|]. by apply list_elem_of_singleton in Ht as ->.
Qed.

Lemma impl_has_target s : s_kind s = Impl → ∃ owner, container_target_type s = Some owner.
Proof. intros E. unfold container_target_type. rewrite E. simpl. by eexists. Qed.

Lemma owner_scan_ok seen symbols line best :
  owner_ok seen line best → owner_ok (seen ++ symbols) line (owner_scan symbols line best).
Proof.
  revert seen best. induction symbols as [|sym rest IH]; intros seen best H; cbn [owner_scan].
  { by rewrite app_nil_r. }
  destruct (s_line_range sym) as [start end_] eqn:El. rewrite (cons_middle sym seen rest), app_assoc. apply IH.
  case_decide as Hk; [apply owner_ok_skip; [done|]; by intros [? _]|].
  destruct ((line <? start)%N || (end_ <? line)%N) eqn:Eo.
  { apply owner_ok_skip; [done|]. intros (_ & ? & ?). rewrite El in *. simpl in *.
    apply orb_true_iff in Eo as [?%N.ltb_lt|?%N.ltb_lt]; lia. }
  apply orb_false_iff in Eo as [?%N.ltb_ge ?%N.ltb_ge].
  assert (Ha : impl_around line sym) by (unfold impl_around; rewrite El; done).
  destruct (impl_has_target sym Hk) as [owner Ho]. rewrite Ho.
  assert (Hnew : (∀ t, t ∈ seen → impl_around line t → ((s_line_range t).1 ≤ start)%N) →
    owner_ok (seen ++ [sym]) line (Some (start, owner))).
  { intros Hm. exists sym. split_and!; [apply elem_of_app; right; left|done|by rewrite El|done|].
    intros t [Ht|Ht]%elem_of_app; [by apply Hm|]. apply list_elem_of_singleton in Ht as ->. by rewrite El. }
  destruct best as [[best_start o]|]; simpl in H.
  - destruct H as (u & Hu & Hau & Hst & Ht & Hm). destruct (N.leb_spec start best_start) as [Hle|Hgt].
    + exists u. split_and!; [by apply elem_of_app; left|done..|].
      intros t [Hin|Hin]%elem_of_app; [by apply Hm|]. apply list_elem_of_singleton in Hin as ->. rewrite El. done.
    + apply Hnew. intros t Hin Hat. specialize (Hm t Hin Hat). lia.
  - apply Hnew. intros t Hin Hat. by destruct (H t).
Qed.

(** The owner of a definition is the target type of an impl block around its first
    line, and of one that starts no earlier than any other such block; there is no owner
    exactly when no impl block is around it. *)
Theorem owner_is_innermost_impl symbols line :
  match enclosing_impl_owner symbols line with
  | Some owner => ∃ s, s ∈ symbols ∧ impl_around line s ∧ container_target_type s = Some owner ∧
      ∀ t, t ∈ symbols → impl_around line t → ((s_line_range t).1 ≤ (s_line_range s).1)%N
  | None => ∀ t, t ∈ symbols → ¬ impl_around line t
  end.
Proof.
  unfold enclosing_impl_owner. pose proof (owner_scan_ok [] symbols line None) as H.
  destruct (owner_scan symbols line None) as [[start owner]|]; simpl in *.
  - destruct H as (s & ? & ? & <- & ? & ?); [by intros t ?%elem_of_nil|]. exists s. done.
  - apply H. by intros t ?%elem_of_nil.
Qed.
