(* ===== verification/CiYaml.v ===== *)
(** * Facts of continuous-integration workflows

    Models src/src/parsing/config_extractors/ci_yaml.rs, which appends facts about a GitHub
    workflow to the symbols of its YAML file, and the whole YAML extractor (yaml.rs) that calls
    it.  A fact has the range of the symbol it was read from, or of the line of a key below it.
    serde-saphyr's parser and the location of its error are parameters. *)

From Stdlib Require Import Lia Strings.Byte.
From stdpp Require Import base gmap list strings numbers option sorting pretty.
From S2P Require Import Prelude Slices Text Domain Classification TextLines ConfigExtract KeyWalk YamlExtract Disambiguation.

#[local] Open Scope nat_scope.

Definition FACT_PREFIX : str := bs "ci.workflow".
Definition MAX_FACT_VALUE_CHARS : nat := 160.

(** ** Values *)

(** The first value whose key is that string. *)
Definition mapping_get (map : list (Yaml * Yaml)) (key : str) : option Yaml :=
  head (omap (λ e, match e.1 with YamlString s => if decide (s = key) then Some e.2 else None | _ => None end) map).

Definition string_entries (map : list (Yaml * Yaml)) : list (str * Yaml) :=
  omap (λ e, match e.1 with YamlString key => Some (key, e.2) | _ => None end) map.

Definition truncate_chars (value : str) (max_chars : nat) : str :=
  let truncated := take_chars max_chars value in
  if decide (max_chars < count_chars value) then truncated ++ bs "..." else truncated.

Definition scalar_fact_value (value : Yaml) : option str :=
  value ← yaml_key_to_string value;
  let normalized := join (bs " ") (split_whitespace value) in
  if decide (normalized = []) then None else Some (truncate_chars normalized MAX_FACT_VALUE_CHARS).

Definition fact_segment (segment : str) : str := join_key_path [] segment.

Definition as_mapping (value : Yaml) : option (list (Yaml * Yaml)) :=
  match value with YamlMapping map => Some map | _ => None end.
Definition as_sequence (value : Yaml) : option (list Yaml) :=
  match value with YamlSequence sequence => Some sequence | _ => None end.

Definition is_github_actions_workflow (map : list (Yaml * Yaml)) : bool :=
  match mapping_get map (bs "jobs") with Some (YamlMapping _) => true | _ => false end
  && bool_decide (is_Some (mapping_get map (bs "on"))).

(** ** The line of a key below a symbol *)

Fixpoint child_key_loop (fuel : nat) (content needle : list byte) (stop cursor : nat) : option (N * N) :=
  match fuel with
  | 0 => None
  | S fuel =>
      if decide (cursor < stop) then
        let line_start := cursor in
        let cursor := line_stop content cursor stop in
        let line := slice content line_start cursor in
        let key_start := count_while is_indent line in
        let key_start :=
          if starts_with (bs "-") (drop key_start line)
          then key_start + 1 + count_while is_indent (drop (key_start + 1) line) else key_start in
        if starts_with needle (drop key_start line) then
          let value_end :=
            match rposition (λ b, negb (is_newline b || bool_decide (b = x0d))) line with
            | Some offset => line_start + offset + 1
            | None => line_start + key_start
            end in
          Some (as_u32 (line_start + key_start), as_u32 value_end)
        else child_key_loop fuel content needle stop cursor
      else None
  end.

Definition find_child_key_line_range (content : list byte) (parent_range : N * N) (child_key : str) : option (N * N) :=
  let stop := N.to_nat parent_range.2 `min` length content in
  child_key_loop (length content) content (child_key ++ bs ":") stop (N.to_nat parent_range.1).

(** ** The facts *)

Section facts.
  Context (content : list byte) (line_starts : list N) (spans : gmap str SymbolRecord).

Definition push_with_range (fact_name : str) (byte_range : N * N) (item_byte_range : option (N * N)) (w : KeyWalker) : KeyWalker :=
  let start_line := byte_to_line line_starts byte_range.1 in
  let end_line := byte_to_line line_starts (N.max (saturating_sub byte_range.2 1) byte_range.1) in
  (w.1 ++ [mkSymbol fact_name Key 0 w.2 byte_range (start_line, end_line) None item_byte_range], u32_add w.2 1).

Definition push_from_path (source_path fact_name : str) (w : KeyWalker) : KeyWalker :=
  match spans !! source_path with
  | None => w
  | Some source => push_with_range fact_name (s_byte_range source) (s_item_byte_range source) w
  end.

Definition push_from_child_key (parent_path child_key fact_name : str) (w : KeyWalker) : KeyWalker :=
  match spans !! parent_path with
  | None => w
  | Some parent =>
      let byte_range := default (s_byte_range parent) (find_child_key_line_range content (s_byte_range parent) child_key) in
      push_with_range fact_name byte_range (Some byte_range) w
  end.

(** [for (index, x) in xs.iter().take(MAX_ARRAY_ITEMS).enumerate()]. *)
Definition for_items {A} (f : nat → A → KeyWalker → KeyWalker) (xs : list A) (w : KeyWalker) : KeyWalker :=
  fold_left (λ w x, f x.1 x.2 w) (imap pair (take MAX_ARRAY_ITEMS xs)) w.

Definition append_trigger_facts (on_value : Yaml) (w : KeyWalker) : KeyWalker :=
  let fact (trigger : str) := FACT_PREFIX ++ bs ".trigger." ++ fact_segment trigger in
  match on_value with
  | YamlMapping triggers =>
      for_items (λ _ e, push_from_path (join_key_path (bs "on") e.1) (fact e.1)) (string_entries triggers) w
  | YamlSequence triggers =>
      for_items (λ index trigger w,
        match scalar_fact_value trigger with
        | Some trigger => push_from_path (join_array_index (bs "on") index) (fact trigger) w
        | None => w
        end) triggers w
  | _ =>
      match scalar_fact_value on_value with Some trigger => push_from_path (bs "on") (fact trigger) w | None => w end
  end.

Definition append_scalar_map_facts (map : list (Yaml * Yaml)) (source_parent fact_parent : str) (w : KeyWalker) : KeyWalker :=
  for_items (λ _ e w,
    match scalar_fact_value e.2 with
    | Some value => push_from_path (join_key_path source_parent e.1) (fact_parent ++ bs "." ++ fact_segment e.1 ++ bs "=" ++ value) w
    | None => w
    end) (string_entries map) w.

Definition append_job_scalar_or_sequence_fact (job : list (Yaml * Yaml)) (job_path job_fact key fact_key : str) (w : KeyWalker) : KeyWalker :=
  match mapping_get job key with
  | None => w
  | Some (YamlSequence values) =>
      for_items (λ index value w,
        match scalar_fact_value value with
        | Some value =>
            push_from_path (join_array_index (join_key_path job_path key) index)
              (job_fact ++ bs "." ++ fact_key ++ bs "[" ++ bs (pretty index) ++ bs "]=" ++ value) w
        | None => w
        end) values w
  | Some value =>
      match scalar_fact_value value with
      | Some value => push_from_child_key job_path key (job_fact ++ bs "." ++ fact_key ++ bs "=" ++ value) w
      | None => w
      end
  end.

(** The keys of one matrix item or of one step. *)
Definition append_child_facts (keys : list string) (map : list (Yaml * Yaml)) (path fact : str) (w : KeyWalker) : KeyWalker :=
  fold_left (λ w key,
    match mapping_get map (bs key) ≫= scalar_fact_value with
    | Some value => push_from_child_key path (bs key) (fact ++ bs "." ++ fact_segment (bs key) ++ bs "=" ++ value) w
    | None => w
    end) keys w.

Definition append_strategy_facts (job : list (Yaml * Yaml)) (job_path job_fact : str) (w : KeyWalker) : KeyWalker :=
  match mapping_get job (bs "strategy") ≫= as_mapping with
  | None => w
  | Some strategy =>
      let strategy_path := join_key_path job_path (bs "strategy") in
      let w :=
        match mapping_get strategy (bs "fail-fast") ≫= scalar_fact_value with
        | Some fail_fast => push_from_child_key strategy_path (bs "fail-fast") (job_fact ++ bs ".strategy.fail-fast=" ++ fail_fast) w
        | None => w
        end in
      match mapping_get strategy (bs "matrix") ≫= as_mapping with
      | None => w
      | Some matrix =>
          let matrix_path := join_key_path strategy_path (bs "matrix") in
          match mapping_get matrix (bs "include") ≫= as_sequence with
          | None => w
          | Some include =>
              let include_path := join_key_path matrix_path (bs "include") in
              for_items (λ index item w,
                match as_mapping item with
                | None => w
                | Some item_map =>
                    append_child_facts ["os"; "rust"; "target"; "artifact"]%string item_map (join_array_index include_path index)
                      (job_fact ++ bs ".strategy.matrix.include[" ++ bs (pretty index) ++ bs "]") w
                end) include w
          end
      end
  end.

Definition append_step_facts (job : list (Yaml * Yaml)) (job_path job_fact : str) (w : KeyWalker) : KeyWalker :=
  match mapping_get job (bs "steps") ≫= as_sequence with
  | None => w
  | Some steps =>
      let steps_path := join_key_path job_path (bs "steps") in
      for_items (λ index step w,
        match as_mapping step with
        | None => w
        | Some step_map =>
            append_child_facts ["name"; "uses"; "run"; "working-directory"]%string step_map (join_array_index steps_path index)
              (job_fact ++ bs ".step[" ++ bs (pretty index) ++ bs "]") w
        end) steps w
  end.

Definition append_job_facts (jobs : list (Yaml * Yaml)) (w : KeyWalker) : KeyWalker :=
  for_items (λ _ e w,
    match as_mapping e.2 with
    | None => w
    | Some job =>
        let job_path := join_key_path (bs "jobs") e.1 in
        let job_fact := FACT_PREFIX ++ bs ".job." ++ fact_segment e.1 in
        let w := push_from_path job_path job_fact w in
        let w := append_job_scalar_or_sequence_fact job job_path job_fact (bs "needs") (bs "needs") w in
        let w := append_job_scalar_or_sequence_fact job job_path job_fact (bs "runs-on") (bs "runs-on") w in
        let w := append_strategy_facts job job_path job_fact w in
        append_step_facts job job_path job_fact w
    end) (string_entries jobs) w.
End facts.

(** The spans are collected into a map by name, the last symbol of a name wins. *)
Definition spans_of (symbols : list SymbolRecord) : gmap str SymbolRecord :=
  list_to_map (reverse ((λ s, (s_name s, s)) <$> symbols)).

Definition append_ci_yaml_facts (content : list byte) (line_starts : list N) (root : Yaml) (w : KeyWalker) : KeyWalker :=
  match root with
  | YamlMapping root_map =>
      if is_github_actions_workflow root_map then
        let spans := spans_of w.1 in
        let w :=
          match mapping_get root_map (bs "name") ≫= scalar_fact_value with
          | Some name => push_from_path line_starts spans (bs "name") (FACT_PREFIX ++ bs ".name=" ++ name) w
          | None => w
          end in
        let w :=
          match mapping_get root_map (bs "on") with
          | Some on_value => append_trigger_facts line_starts spans on_value w
          | None => w
          end in
        let w :=
          match mapping_get root_map (bs "permissions") ≫= as_mapping with
          | Some permissions => append_scalar_map_facts line_starts spans permissions (bs "permissions") (FACT_PREFIX ++ bs ".permission") w
          | None => w
          end in
        let w :=
          match mapping_get root_map (bs "env") ≫= as_mapping with
          | Some env => append_scalar_map_facts line_starts spans env (bs "env") (FACT_PREFIX ++ bs ".env") w
          | None => w
          end in
        match mapping_get root_map (bs "jobs") ≫= as_mapping with
        | Some jobs => append_job_facts content line_starts spans jobs w
        | None => w
        end
      else w
  | _ => w
  end.

(** ** The extractor *)

Record YamlError := mkYamlError { ye_message : str; ye_location : option (nat * nat) }.

Definition yaml_extract (from_slice : list byte → Result Yaml YamlError) (content : list byte) : Outcome ExtractionResult :=
  if decide (content = []) then Done (mkExtraction [] ExtractOk)
  else
    match from_slice content with
    | Err e =>
        Done (mkExtraction [] (ExtractFailed
          (parse_diagnostic (bs "serde-saphyr") (ye_message e)
             (ye_location e ≫= λ loc, optional_u32 loc.1) (ye_location e ≫= λ loc, optional_u32 loc.2) None false)))
    | Ok value =>
        let line_starts := build_line_starts content in
        let w := walk_yaml content line_starts 6 value [] (0%N, as_u32 (length content)) 0 ([], 0%N) in
        Done (mkExtraction (append_ci_yaml_facts content line_starts value w).1 ExtractOk)
    end.

(** ** Facts are numbered symbols inside the file *)

Section appended.
  Context (content : list byte) (Hf : fits_u32 content) (line_starts : list N) (base : list SymbolRecord).

(** [w] holds the symbols it started with and facts. *)
Definition extended (w : KeyWalker) : Prop :=
  numbered content w.1 w.2 ∧ ∃ facts, w.1 = base ++ facts ∧ Forall (λ s, s_depth s = 0%N) facts.

Lemma push_with_range_extended name r w :
  range_in content r → extended w → extended (push_with_range line_starts name r (Some r) w).
Proof.
  intros [H1 H2] [Hn (facts & E & Hd)]. split.
  - apply numbered_push; [done| |done]. cbn. auto.
  - eexists. cbn. rewrite E, <-app_assoc. split; [done|]. apply Forall_app. split; [done|]. by repeat constructor.
Qed.

Lemma rposition_found (f : byte → bool) s k b : s !! k = Some b → f b = true → ∃ p, rposition f s = Some p ∧ k ≤ p < length s.
Proof.
  revert k. induction s as [|c s IH]; intros [|k] Hk Hb; cbn in *; [done|done| |].
  - injection Hk as ->. destruct (rposition f s) as [p|] eqn:E; [|rewrite Hb; exists 0; split; [done|lia]].
    exists (S p). split; [done|]. clear -E. revert p E. induction s as [|d s IH]; intros p; cbn; [done|].
    destruct (rposition f s) as [q|]; [intros [= <-]; specialize (IH q eq_refl); lia|]. destruct (f d); [intros [= <-]; lia|done].
  - destruct (IH k Hk Hb) as (p & -> & Hp). exists (S p). split; [done|lia].
Qed.

Lemma child_key_loop_bound fuel key stop cursor r :
  stop ≤ length content → child_key_loop fuel content (key ++ bs ":") stop cursor = Some r → range_in content r.
Proof using Hf.
  intros Hs. revert cursor. induction fuel as [|fuel IH]; intros cursor; cbn [child_key_loop]; [done|]. case_decide as Hc; [|done].
  pose proof (line_stop_bound content cursor stop ltac:(lia)) as Hl.
  set (line := slice content cursor (line_stop content cursor stop)). cbn zeta.
  match goal with |- context [starts_with (key ++ bs ":") (drop ?k line)] => set (ks := k) end.
  destruct (starts_with (key ++ bs ":") (drop ks line)) eqn:Es; [|by apply IH]. intros [= <-].
  assert (length line = line_stop content cursor stop - cursor) as El by (unfold line, slice; rewrite length_take, length_drop; lia).
  apply starts_with_true in Es as [rest Er]. assert (ks + length key < length line) as Hk.
  { apply (f_equal length) in Er. rewrite length_drop, !length_app in Er. cbn in Er. lia. }
  destruct (rposition_found (λ b, negb (is_newline b || bool_decide (b = x0d))) line (ks + length key) ":"%byte) as (p & -> & Hp).
  { rewrite <-lookup_drop, Er, <-app_assoc. rewrite lookup_app_r, Nat.sub_diag by lia. done. }
  { vm_compute. reflexivity. }
  unfold fits_u32 in Hf. rewrite !as_u32_fits by lia. split; cbn; lia.
Qed.

Context (spans : gmap str SymbolRecord) (Hspans : ∀ p s, spans !! p = Some s → in_content content s).

Lemma push_from_path_extended path name w : extended w → extended (push_from_path line_starts spans path name w).
Proof using Hspans.
  intros Hw. unfold push_from_path. destruct (spans !! path) as [s|] eqn:E; [|done]. apply Hspans in E as (H1 & H2 & -> & _).
  by apply push_with_range_extended.
Qed.

Lemma push_from_child_key_extended path key name w : extended w → extended (push_from_child_key content line_starts spans path key name w).
Proof using Hspans Hf.
  intros Hw. unfold push_from_child_key. destruct (spans !! path) as [s|] eqn:E; [|done]. apply Hspans in E as (H1 & H2 & _).
  apply push_with_range_extended; [|done]. unfold find_child_key_line_range.
  destruct (child_key_loop _ _ _ _ _) as [r|] eqn:El; cbn; [|done]. by eapply child_key_loop_bound; [|exact El]; lia.
Qed.

Lemma for_items_extended {A} (f : nat → A → KeyWalker → KeyWalker) xs w :
  (∀ i x w, extended w → extended (f i x w)) → extended w → extended (for_items f xs w).
Proof.
  intros Hf'. unfold for_items. generalize (imap pair (take MAX_ARRAY_ITEMS xs)) as ys. intros ys. revert w.
  induction ys as [|y ys IH]; intros w Hw; [done|]. cbn. by apply IH, Hf'.
Qed.

Lemma append_child_facts_extended keys map path fact w :
  extended w → extended (append_child_facts content line_starts spans keys map path fact w).
Proof using Hspans Hf.
  unfold append_child_facts. revert w. induction keys as [|k keys IH]; intros w Hw; [done|]. cbn. apply IH.
  case_match; [by apply push_from_child_key_extended|done].
Qed.

(** Every function that appends facts is a tree of the steps above. *)
Ltac facts :=
  repeat first
    [ assumption
    | progress intros
    | apply push_from_path_extended
    | apply push_from_child_key_extended
    | apply append_child_facts_extended
    | apply for_items_extended
    | progress cbn zeta
    | case_match ].

Lemma append_trigger_facts_extended v w : extended w → extended (append_trigger_facts line_starts spans v w).
Proof using Hspans. intros Hw. unfold append_trigger_facts. facts. Qed.

Lemma append_scalar_map_facts_extended map p f w : extended w → extended (append_scalar_map_facts line_starts spans map p f w).
Proof using Hspans. intros Hw. unfold append_scalar_map_facts. facts. Qed.

Lemma append_job_fact_extended job p f k k' w :
  extended w → extended (append_job_scalar_or_sequence_fact content line_starts spans job p f k k' w).
Proof using Hspans Hf. intros Hw. unfold append_job_scalar_or_sequence_fact. facts. Qed.

Lemma append_strategy_facts_extended job p f w : extended w → extended (append_strategy_facts content line_starts spans job p f w).
Proof using Hspans Hf. intros Hw. unfold append_strategy_facts. facts. Qed.

Lemma append_step_facts_extended job p f w : extended w → extended (append_step_facts content line_starts spans job p f w).
Proof using Hspans Hf. intros Hw. unfold append_step_facts. facts. Qed.

Lemma append_job_facts_extended jobs w : extended w → extended (append_job_facts content line_starts spans jobs w).
Proof using Hspans Hf.
  intros Hw. unfold append_job_facts. apply for_items_extended; [|done]. intros i e w1 Hw1. case_match; [|done]. cbn zeta.
  by apply append_step_facts_extended, append_strategy_facts_extended, append_job_fact_extended, append_job_fact_extended, push_from_path_extended.
Qed.
End appended.

Lemma spans_of_lookup symbols p s : spans_of symbols !! p = Some s → s ∈ symbols.
Proof.
  unfold spans_of. intros H%elem_of_list_to_map_2. apply elem_of_reverse, list_elem_of_fmap in H as (s' & [= -> ->] & H). done.
Qed.

Lemma append_ci_facts_extended content line_starts root w :
  fits_u32 content → numbered content w.1 w.2 → extended content w.1 (append_ci_yaml_facts content line_starts root w).
Proof.
  intros Hf Hn. assert (extended content w.1 w) as Hw by (split; [done|]; exists []; by rewrite app_nil_r).
  unfold append_ci_yaml_facts. destruct root as [| | | | |root_map|]; try done. destruct (is_github_actions_workflow root_map); [|done]. cbn zeta.
  assert (∀ p s, spans_of w.1 !! p = Some s → in_content content s) as Hspans.
  { intros p s Hs%spans_of_lookup. apply list_elem_of_lookup in Hs as [k Hk]. by apply Hn in Hk as [? _]. }
  repeat (case_match; try done);
    repeat first [ assumption
                 | apply append_job_facts_extended
                 | apply append_scalar_map_facts_extended
                 | apply append_trigger_facts_extended
                 | apply push_from_path_extended ].
Qed.

(** ** Every YAML file *)

Lemma contains_facts facts : Forall (λ s, s_depth s = 0%N) facts → contains facts.
Proof.
  intros Hd i j a b Ha Hb Hij Hdeep. specialize (Hdeep j b ltac:(lia) Hb). rewrite Forall_lookup in Hd. rewrite (Hd j b Hb) in Hdeep. lia.
Qed.

Lemma yaml_extract_spec from_slice content :
  ∃ r, yaml_extract from_slice content = Done r ∧
    (fits_u32 content → (∃ n, numbered content (x_symbols r) n) ∧ contains (x_symbols r)).
Proof.
  unfold yaml_extract.
  assert (∀ d, ∃ r, Done (mkExtraction [] d) = Done r ∧
            (fits_u32 content → (∃ n, numbered content (x_symbols r) n) ∧ contains (x_symbols r))) as Hempty.
  { intros d. eexists. split; [done|]. intros _. cbn. split; [exists 0%N; apply numbered_nil|apply contains_nil]. }
  case_decide; [apply Hempty|]. destruct (from_slice content) as [value|e]; [|apply Hempty].
  eexists. split; [done|]. intros Hf. cbn [x_symbols].
  assert (range_in content (0%N, as_u32 (length content))) as Hr by (rewrite as_u32_fits by done; split; cbn; lia).
  destruct (walk_yaml_adds content Hf (build_line_starts content) 6 value [] _ 0 ([], 0%N) Hr) as (new & E & (Hd & Hh & Hc) & Hn).
  revert E Hn. generalize (walk_yaml content (build_line_starts content) 6 value [] (0%N, as_u32 (length content)) 0 ([], 0%N)) as w.
  intros w E Hn. cbn [fst app] in E. specialize (Hn (numbered_nil content)).
  destruct (append_ci_facts_extended content (build_line_starts content) value w Hf Hn) as [Hn' (facts & E' & Hd')].
  split; [by eexists|]. rewrite E', E. apply (contains_app _ _ 0); [done|by apply contains_facts| |].
  - eapply Forall_impl; [exact Hd|]. by intros s [? _].
  - intros s Hs. destruct facts; [done|]. injection Hs as ->. apply Forall_cons in Hd' as [-> _]. done.
Qed.

#[global] Instance yaml_lawful from_slice : LawfulExtractor (yaml_extract from_slice).
Proof.
  split.
  - intros content _. destruct (yaml_extract_spec from_slice content) as (r & E & _). by exists r.
  - intros content r k s Hf Hr Hk. destruct (yaml_extract_spec from_slice content) as (r' & E & Hn). rewrite Hr in E. injection E as <-.
    destruct (Hn Hf) as [[n [_ H]] _]. by apply H.
Qed.

(** YAML symbols nest: for every file below 4 GiB, whatever the parser makes of it, the
    extractor returns, its symbols lie inside the file and are numbered in order, the facts of a
    workflow included, and every symbol contains the symbols below it. *)
Theorem yaml_symbols_nest from_slice content :
  fits_u32 content →
  ∃ r, yaml_extract from_slice content = Done r ∧
    (∀ k s, x_symbols r !! k = Some s → in_content content s ∧ s_sort_order s = as_u32 k) ∧ contains (x_symbols r).
Proof.
  intros Hf. destruct (yaml_extract_spec from_slice content) as (r & E & Hn). destruct (Hn Hf) as [[n [_ H]] Hc]. eauto.
Qed.

(** ** What the walk gets wrong *)

Definition yaml_ranges (r : Outcome ExtractionResult) : list (str * (N * N)) :=
  match r with Done r => (λ s, (s_name s, s_byte_range s)) <$> x_symbols r | Panic => [] end.

Definition shadowed_yaml : list byte := bs "a:" ++ [x0a] ++ bs "  b: 1" ++ [x0a] ++ bs "b: 2" ++ [x0a].
Definition shadowed_value : Yaml :=
  YamlMapping [(YamlString (bs "a"), YamlMapping [(YamlString (bs "b"), YamlNumber (bs "1"))]); (YamlString (bs "b"), YamlNumber (bs "2"))].

(** The search for the next key of a mapping goes on after the key before it, not after its
    block: a key that also occurs below the key before it gets the range of that occurrence. *)
Theorem sibling_key_binds_to_nested_key :
  yaml_ranges (yaml_extract (λ _, Ok shadowed_value) shadowed_yaml) = [(bs "a", (0, 10)); (bs "a.b", (5, 10)); (bs "b", (5, 10))]%N.
Proof. vm_compute. reflexivity. Qed.

Lemma yaml_symbols_nest_witness :
  fits_u32 shadowed_yaml ∧ ∃ r, yaml_extract (λ _, Ok shadowed_value) shadowed_yaml = Done r ∧ contains (x_symbols r) ∧ length (x_symbols r) = 3.
Proof.
  assert (fits_u32 shadowed_yaml) as Hf by (vm_compute; reflexivity). split; [exact Hf|].
  destruct (yaml_symbols_nest (λ _, Ok shadowed_value) shadowed_yaml Hf) as (r & E & _ & H). exists r. split; [exact E|]. split; [exact H|].
  vm_compute in E. injection E as <-. reflexivity.
Defined.
