(* ===== verification/Graph.v ===== *)
(** * The call graph and its blast radius (live_index/graph.rs)

    [from_index] projects an index to inbound call edges: every call reference is
    attributed to the definition around it and linked to at most one definition of the
    called name.  [inbound_bfs] and [compute_impact_with_evidence] then walk the edges
    backwards, breadth first, to a depth.

    The theorems: the blast radius is exactly the definitions whose shortest call chain to
    a changed one has at most the given length, each reported at that distance with such
    a chain, in order; the capped search is a prefix of the full one; the projection does
    not depend on the order in which a hash map yields the files; and when a call is
    linked at all, and why.

    The files come as the list in which the map yields them.  Both searches run on fuel
    that the number of seeds and edges bounds, and the theorems say that it suffices. *)

From Stdlib Require Import Lia Strings.Byte.
From stdpp Require Import base gmap sets list strings numbers option sorting.
From S2P Require Import Prelude Slices Text Domain Classification Disambiguation.

#[global] Set Default Goal Selector "!".

(** ** Nodes *)

Record SymbolId := mkId { id_path : str; id_name : str; id_kind : SymbolKind }.

#[global] Instance SymbolId_eq_dec : EqDecision SymbolId.
Proof. solve_decision. Defined.
#[global] Instance SymbolId_countable : Countable SymbolId.
Proof.
  apply (inj_countable' (λ i, (id_path i, id_name i, id_kind i)) (λ '(p, n, k), mkId p n k)). by intros [].
Defined.

(** [Ord for SymbolId]. *)
Definition kind_le (a b : SymbolId) : Prop := (kind_code (id_kind a) ≤ kind_code (id_kind b))%N.
#[global] Instance kind_le_dec : RelDecision kind_le.
Proof. unfold kind_le. intros a b. apply _. Defined.
Notation symbol_le := (then_le id_path str_le (then_le id_name str_le kind_le)).

(** ** Edges *)

Inductive ResolutionReason := UniqueName | QualifiedModule | QualifiedOwner.

Record CallEdgeEvidence := mkEvidence {
  ev_caller : SymbolId;
  ev_callee : SymbolId;
  ev_path : str;
  ev_byte_range : N * N;
  ev_line_range : N * N;
  ev_resolution : ResolutionReason;
}.

#[global] Instance ResolutionReason_eq_dec : EqDecision ResolutionReason.
Proof. solve_decision. Defined.
#[global] Instance CallEdgeEvidence_eq_dec : EqDecision CallEdgeEvidence.
Proof. solve_decision. Defined.

Record GraphProjection := mkGraph {
  in_edges : gmap SymbolId (list SymbolId);
  edge_evidence : gmap (SymbolId * SymbolId) (list CallEdgeEvidence);
  node_count : nat;
  edge_count : nat;
}.

Definition graph_language_family (l : LanguageId) : LanguageId :=
  match l with
  | JavaScript | TypeScript => JavaScript
  | C | Cpp => C
  | Java | Kotlin => Java
  | other => other
  end.

Notation Files := (list (str * IndexedFile)).

Definition index_get (files : Files) (path : str) : option IndexedFile :=
  (list_to_map files : gmap str IndexedFile) !! path.

(** ** Pass 1: definitions by language family and name *)

Definition def_entries (files : Files) : list ((LanguageId * str) * SymbolId) :=
  '(path, file) ← files;
  (λ sym, ((graph_language_family (f_language file), s_name sym), mkId path (s_name sym) (s_kind sym)))
    <$> f_symbols file.

Definition defs_by_name (files : Files) : gmap (LanguageId * str) (list SymbolId) := group (def_entries files).

(** ** Which definition an ambiguous call means *)

(** [Path::file_stem] on the components of a Unix path. *)
Definition file_stem (path : str) : option str :=
  name ← last (filter (λ c, c ≠ [] ∧ c ≠ bs ".") (split_bytes (λ b, bool_decide (b = x2f)) path));
  if decide (name = bs "..") then None
  else Some match rsplit_once (bs ".") name with
            | Some ([], _) | None => name
            | Some (before, _) => before
            end.

Definition path_matches (hint : str) (cand : SymbolId) : bool :=
  bool_decide (file_stem (id_path cand) = Some hint)
  || bool_decide (hint ∈ split_bytes (λ b, bool_decide (b = x2f ∨ b = x5c)) (id_path cand)).

(** The segment before the last [::], innermost part. *)
Definition qualifier_hint (qualified_name : option str) : option str :=
  qn ← qualified_name;
  '(module_hint, _) ← rsplit_once (bs "::") qn;
  let hint := rsplit_last (bs "::") module_hint in
  if decide (hint = []) then None else Some hint.

(** The first loop: [None] is ambiguous. *)
Fixpoint stem_scan (hint : str) (candidates : list SymbolId) (matched : option SymbolId) :
    option (option SymbolId) :=
  match candidates with
  | [] => Some matched
  | cand :: rest =>
      if path_matches hint cand then
        match matched with Some _ => None | None => stem_scan hint rest (Some cand) end
      else stem_scan hint rest matched
  end.

Definition file_owner_hits (files : Files) (hint leaf : str) (cand : SymbolId) : nat :=
  match index_get files (id_path cand) with
  | None => 0
  | Some file =>
      length (filter (λ phys, s_name phys = leaf ∧ s_kind phys = id_kind cand ∧
        enclosing_impl_owner (f_symbols file) (s_line_range phys).1 = Some hint) (f_symbols file))
  end.

(** The second loop. *)
Fixpoint owner_match (hits : SymbolId → nat) (candidates : list SymbolId) (matched : option SymbolId) :
    option SymbolId :=
  match candidates with
  | [] => matched
  | cand :: rest =>
      if decide (hits cand = 0) then owner_match hits rest matched
      else if decide (1 < hits cand) then None
      else match matched with Some _ => None | None => owner_match hits rest (Some cand) end
  end.

Definition resolve_ambiguous_callee (candidates : list SymbolId) (qualified_name : option str)
    (files : Files) : option (SymbolId * ResolutionReason) :=
  hint ← qualifier_hint qualified_name;
  match stem_scan hint candidates None with
  | None => None
  | Some (Some candidate) => Some (candidate, QualifiedModule)
  | Some None =>
      first ← head candidates;
      c ← owner_match (file_owner_hits files hint (id_name first)) candidates None;
      Some (c, QualifiedOwner)
  end.

(** ** Pass 2: one edge per call reference, at most *)

(** [min_by_key] with a pair as key: the first of the least. *)
Fixpoint min_by_key {A} (key : A → N * N) (l : list A) : option A :=
  match l with
  | [] => None
  | x :: l =>
      match min_by_key key l with
      | None => Some x
      | Some y =>
          if decide (((key y).1 < (key x).1)%N ∨ ((key y).1 = (key x).1 ∧ ((key y).2 < (key x).2)%N))
          then Some y else Some x
      end
  end.

(** The definition that a call is attributed to. *)
Definition caller_symbol (file : IndexedFile) (r : ReferenceRecord) (caller_sym : SymbolRecord) : SymbolRecord :=
  let candidates := filter (λ s, (s_line_range s).1 = (s_line_range caller_sym).1 ∧
    ((s_byte_range s).1 ≤ (r_byte_range r).1)%N ∧ ((r_byte_range r).2 ≤ (s_byte_range s).2)%N) (f_symbols file) in
  default caller_sym
    (min_by_key (λ s, (u32_sub (s_byte_range s).2 (s_byte_range s).1, s_sort_order s)) candidates).

Definition resolve_callee (files : Files) (language : LanguageId) (r : ReferenceRecord) :
    option (SymbolId * ResolutionReason) :=
  callees ← defs_by_name files !! (graph_language_family language, r_name r);
  match callees with
  | [only] => Some (only, UniqueName)
  | many => resolve_ambiguous_callee many (r_qualified_name r) files
  end.

Definition call_edge (files : Files) (path : str) (file : IndexedFile) (r : ReferenceRecord) :
    option CallEdgeEvidence :=
  if decide (r_kind r ≠ Call) then None
  else
    enc_idx ← r_enclosing_symbol_index r;
    caller_sym ← f_symbols file !! N.to_nat enc_idx;
    let caller_sym := caller_symbol file r caller_sym in
    let caller := mkId path (s_name caller_sym) (s_kind caller_sym) in
    '(callee, resolution) ← resolve_callee files (f_language file) r;
    if decide (callee = caller) then None
    else Some (mkEvidence caller callee path (r_byte_range r) (r_line_range r) resolution).

Definition call_edges (files : Files) : list CallEdgeEvidence :=
  '(path, file) ← files; omap (call_edge files path file) (f_references file).

(** ** The projection *)

Definition reason_code (r : ResolutionReason) : N :=
  match r with UniqueName => 0 | QualifiedModule => 1 | QualifiedOwner => 2 end.
Definition reason_le (a b : CallEdgeEvidence) : Prop :=
  (reason_code (ev_resolution a) ≤ reason_code (ev_resolution b))%N.
#[global] Instance reason_le_dec : RelDecision reason_le.
Proof. unfold reason_le. intros a b. apply _. Defined.

(** A tuple is compared component by component. *)
Notation evidence_le :=
  (then_le ev_path str_le
  (then_le (λ e, (ev_byte_range e).1) N.le (then_le (λ e, (ev_byte_range e).2) N.le
  (then_le (λ e, (ev_line_range e).1) N.le (then_le (λ e, (ev_line_range e).2) N.le reason_le))))).

Definition sort_dedup {A} (R : relation A) `{!RelDecision R, !EqDecision A} (l : list A) : list A :=
  dedup (sort_by R l).

Definition from_index (files : Files) : GraphProjection :=
  let edges := call_edges files in
  let in_edges := sort_dedup symbol_le <$> group ((λ e, (ev_callee e, ev_caller e)) <$> edges) in
  mkGraph in_edges
    (sort_dedup evidence_le <$> group ((λ e, ((ev_caller e, ev_callee e), e)) <$> edges))
    (length (def_entries files))
    (N.to_nat (map_sum (λ _ callers, N.of_nat (length callers)) in_edges)).

Definition canonical_edge_evidence (g : GraphProjection) (caller callee : SymbolId) : option CallEdgeEvidence :=
  edge_evidence g !! (caller, callee) ≫= head.

(** ** The capped search *)

Definition callers_of (g : GraphProjection) (node : SymbolId) : list SymbolId := default [] (in_edges g !! node).

Notation Queue := (list (SymbolId * nat)).

Definition visit (depth : nat) (s : gset SymbolId * Queue) (caller : SymbolId) : gset SymbolId * Queue :=
  if decide (caller ∈ s.1) then s else ({[caller]} ∪ s.1, s.2 ++ [(caller, S depth)]).

Fixpoint inbound_loop (fuel : nat) (g : GraphProjection) (max_depth max_nodes : nat)
    (visited : gset SymbolId) (queue : Queue) (results : Queue) : option Queue :=
  match fuel with
  | 0 => None
  | S fuel =>
      match queue with
      | [] => Some results
      | (node, depth) :: queue =>
          if max_nodes <=? length results then Some results
          else
            let results := if 0 <? depth then results ++ [(node, depth)] else results in
            if max_depth <=? depth then inbound_loop fuel g max_depth max_nodes visited queue results
            else
              let '(visited, queue) := fold_left (visit depth) (callers_of g node) (visited, queue) in
              inbound_loop fuel g max_depth max_nodes visited queue results
      end
  end.

(** Every node that is queued is a seed or a caller in some edge. *)
Definition bfs_fuel (g : GraphProjection) (seeds : nat) : nat :=
  S (seeds + length (concat (snd <$> map_to_list (in_edges g)))).

Definition inbound_bfs (g : GraphProjection) (start : SymbolId) (max_depth max_nodes : nat) : option Queue :=
  inbound_loop (bfs_fuel g 1) g max_depth max_nodes {[start]} [(start, 0)] [].

(** ** The blast radius *)

Inductive RiskTier := Critical | High | Medium | Low.

Definition risk_as_str (t : RiskTier) : str :=
  bs match t with Critical => "critical" | High => "high" | Medium => "medium" | Low => "low" end.
Definition severity_rank (t : RiskTier) : N :=
  match t with Critical => 3 | High => 2 | Medium => 1 | Low => 0 end.

Definition risk_for_hop (hop : nat) (is_entry_point : bool) : RiskTier :=
  if hop <=? 1 then if (hop =? 1) && is_entry_point then Critical else High
  else if hop =? 2 then Medium else Low.

Definition is_entry_point (id : SymbolId) : bool :=
  bool_decide (id_name id = bs "main")
  && match id_kind id with Function | Method => true | _ => false end.

Record BlastNode := mkBlast { b_symbol : SymbolId; b_hop : nat; b_risk : RiskTier }.
Record BlastNodeEvidence := mkBlastEvidence { be_node : BlastNode; be_steps : list CallEdgeEvidence }.

Record ImpactState := mkImpact {
  im_visited : gset SymbolId;
  im_queue : Queue;
  im_parent : gmap SymbolId (SymbolId * CallEdgeEvidence);
  im_best_hop : gmap SymbolId nat;
}.

Definition impact_visit (g : GraphProjection) (changed_set : gset SymbolId) (node : SymbolId) (depth : nat)
    (s : ImpactState) (caller : SymbolId) : ImpactState :=
  if decide (caller ∈ im_visited s) then s
  else
    match canonical_edge_evidence g caller node with
    | None => s
    | Some edge =>
        let hop := S depth in
        mkImpact ({[caller]} ∪ im_visited s) (im_queue s ++ [(caller, hop)])
          (<[caller := (node, edge)]> (im_parent s))
          (if decide (caller ∈ changed_set) then im_best_hop s else <[caller := hop]> (im_best_hop s))
    end.

Fixpoint impact_loop (fuel : nat) (g : GraphProjection) (changed_set : gset SymbolId) (max_depth : nat)
    (s : ImpactState) : option ImpactState :=
  match fuel with
  | 0 => None
  | S fuel =>
      match im_queue s with
      | [] => Some s
      | (node, depth) :: queue =>
          let s := mkImpact (im_visited s) queue (im_parent s) (im_best_hop s) in
          if max_depth <=? depth then impact_loop fuel g changed_set max_depth s
          else
            impact_loop fuel g changed_set max_depth
              (fold_left (impact_visit g changed_set node depth) (callers_of g node) s)
      end
  end.

(** The chain of parents of a node, up to a node without one. *)
Fixpoint chain_up (fuel : nat) (parent : gmap SymbolId (SymbolId * CallEdgeEvidence)) (current : SymbolId)
    (steps : list CallEdgeEvidence) : option (list CallEdgeEvidence) :=
  match fuel with
  | 0 => None
  | S fuel =>
      match parent !! current with
      | None => Some steps
      | Some (next, edge) => chain_up fuel parent next (steps ++ [edge])
      end
  end.

Definition impact_entry (parent : gmap SymbolId (SymbolId * CallEdgeEvidence)) (e : SymbolId * nat) :
    option BlastNodeEvidence :=
  let '(symbol, hop) := e in
  steps ← chain_up (S hop) parent symbol [];
  Some (mkBlastEvidence (mkBlast symbol hop (risk_for_hop hop (is_entry_point symbol))) (reverse steps)).

Definition symbol_key_le (a b : BlastNodeEvidence) : Prop := symbol_le (b_symbol (be_node a)) (b_symbol (be_node b)).
#[global] Instance symbol_key_le_dec : RelDecision symbol_key_le.
Proof. unfold symbol_key_le. intros a b. apply _. Defined.
Notation entry_le := (then_le (λ e, b_hop (be_node e)) Nat.le symbol_key_le).

Definition impact_start (starts : list SymbolId) : ImpactState :=
  mkImpact (list_to_set starts) ((λ s, (s, 0)) <$> starts) ∅ ∅.

Definition compute_impact_with_evidence (g : GraphProjection) (changed : list SymbolId) (max_depth : nat) :
    option (list BlastNodeEvidence) :=
  let starts := sort_dedup symbol_le changed in
  s ← impact_loop (bfs_fuel g (length starts)) g (list_to_set changed) max_depth (impact_start starts);
  entries ← mapM (impact_entry (im_parent s)) (map_to_list (im_best_hop s));
  Some (sort_by entry_le entries).

Definition compute_impact (g : GraphProjection) (changed : list SymbolId) (max_depth : nat) :
    option (list BlastNode) :=
  (λ l : list BlastNodeEvidence, be_node <$> l) <$> compute_impact_with_evidence g changed max_depth.

(** ** Distance *)

Section bfs.
Context (g : GraphProjection) (seeds : list SymbolId) (max_depth : nat).

(** [v] reaches a seed through [k] calls; its distance is the least such [k]. *)
Fixpoint reaches (k : nat) (v : SymbolId) : Prop :=
  match k with
  | 0 => v ∈ seeds
  | S k => ∃ u, reaches k u ∧ v ∈ callers_of g u
  end.

Definition distance (k : nat) (v : SymbolId) : Prop := reaches k v ∧ ∀ j, j < k → ¬ reaches j v.

(** ** Breadth-first search

    The order in which nodes leave the queue, without a cap. *)

Definition expand (node : SymbolId) (depth : nat) (s : gset SymbolId * Queue) : gset SymbolId * Queue :=
  if max_depth <=? depth then s else fold_left (visit depth) (callers_of g node) s.

Fixpoint bfs_order (fuel : nat) (visited : gset SymbolId) (queue : Queue) : option Queue :=
  match fuel with
  | 0 => None
  | S fuel =>
      match queue with
      | [] => Some []
      | (node, depth) :: queue =>
          let '(visited, queue) := expand node depth (visited, queue) in
          cons (node, depth) <$> bfs_order fuel visited queue
      end
  end.

(** [done] are the nodes taken from the queue so far, in order, the last at depth [d]. *)
Record bfs_base (d : nat) (done : Queue) (visited : gset SymbolId) (queue : Queue) : Prop := {
  bi_visited : ∀ v, v ∈ visited ↔ v ∈ (done ++ queue).*1;
  bi_nodup : NoDup (done ++ queue).*1;
  bi_done : ∀ v e, (v, e) ∈ done → e ≤ d;
  bi_queue : ∀ v e, (v, e) ∈ queue → d ≤ e ≤ S d;
  bi_sorted : StronglySorted Nat.le (done ++ queue).*2;
  bi_reaches : ∀ v e, (v, e) ∈ done ++ queue → reaches e v ∧ e ≤ max_depth;
  bi_seeds : ∀ v, v ∈ seeds → (v, 0) ∈ done ++ queue;
}.

Definition bfs_closed (done all : Queue) : Prop :=
  ∀ v e u, (v, e) ∈ done → e < max_depth → u ∈ callers_of g v → ∃ e', e' ≤ S e ∧ (u, e') ∈ all.

Definition bfs_inv (d : nat) (done : Queue) (visited : gset SymbolId) (queue : Queue) : Prop :=
  bfs_base d done visited queue ∧ bfs_closed done (done ++ queue).

Lemma sorted_snoc (l : list nat) n :
  StronglySorted Nat.le l → (∀ m, m ∈ l → m ≤ n) → StronglySorted Nat.le (l ++ [n]).
Proof.
  induction 1 as [|x l Hs IH Hx]; intros Hall; simpl; [repeat constructor|].
  constructor; [apply IH; intros m Hm; apply Hall; by right|].
  apply Forall_app. split; [done|]. apply Forall_singleton. apply Hall. left.
Qed.

Lemma bfs_depth_le d done visited queue v e :
  bfs_base d done visited queue → (v, e) ∈ done ++ queue → e ≤ S d.
Proof.
  intros H [Hin|Hin]%elem_of_app; [apply (bi_done _ _ _ _ H) in Hin; lia|].
  apply (bi_queue _ _ _ _ H) in Hin. lia.
Qed.

Lemma visit_base d done visited queue node caller :
  bfs_base d done visited queue → (node, d) ∈ done → d < max_depth → caller ∈ callers_of g node →
  let '(visited', queue') := visit d (visited, queue) caller in
  bfs_base d done visited' queue' ∧ (∃ more, queue' = queue ++ more) ∧
  ∃ e, e ≤ S d ∧ (caller, e) ∈ done ++ queue'.
Proof.
  intros H Hnode Hd Hc. unfold visit. simpl. case_decide as Hv.
  { split; [done|]. split; [exists []; by rewrite app_nil_r|]. apply (bi_visited _ _ _ _ H) in Hv.
    apply list_elem_of_fmap in Hv as ([c e] & -> & Hin). exists e. split; [|done].
    by eapply bfs_depth_le. }
  split; [|split; [by eexists|]].
  2:{ exists (S d). split; [done|]. apply elem_of_app. right. apply elem_of_app. right. left. }
  pose proof H as [H1 H2 H3 H4 H5 H6 H7]. constructor.
  - intros v. rewrite elem_of_union, elem_of_singleton, H1, !fmap_app, !elem_of_app. simpl.
    rewrite list_elem_of_singleton. tauto.
  - rewrite app_assoc, fmap_app. apply NoDup_app. split_and!; [done| |apply NoDup_singleton].
    intros v Hin ->%list_elem_of_singleton. apply Hv, H1. done.
  - done.
  - intros v e [Hin|[= -> ->]%list_elem_of_singleton]%elem_of_app; [by apply (H4 v)|lia].
  - rewrite app_assoc, fmap_app. apply sorted_snoc; [done|]. intros m Hm.
    apply list_elem_of_fmap in Hm as ([v e] & -> & Hin). by eapply bfs_depth_le.
  - intros v e. rewrite app_assoc. intros [Hin|[= -> ->]%list_elem_of_singleton]%elem_of_app; [by apply H6|].
    split; [|lia]. exists node. split; [|done]. apply H6. apply elem_of_app. by left.
  - intros v Hin. rewrite app_assoc. apply elem_of_app. left. by apply H7.
Qed.

Lemma visits_base d done node callers visited queue :
  bfs_base d done visited queue → (node, d) ∈ done → d < max_depth →
  (∀ c, c ∈ callers → c ∈ callers_of g node) →
  let '(visited', queue') := fold_left (visit d) callers (visited, queue) in
  bfs_base d done visited' queue' ∧ (∃ more, queue' = queue ++ more) ∧
  ∀ c, c ∈ callers → ∃ e, e ≤ S d ∧ (c, e) ∈ done ++ queue'.
Proof.
  intros H Hnode Hd. revert visited queue H. induction callers as [|c callers IH]; intros visited queue H Hcs; simpl.
  { split; [done|]. split; [exists []; by rewrite app_nil_r|]. by intros c ?%elem_of_nil. }
  pose proof (visit_base d done visited queue node c H Hnode Hd (Hcs c ltac:(left))) as Hv.
  destruct (visit d (visited, queue) c) as [visited1 queue1] eqn:E.
  destruct Hv as (H1 & (more1 & ->) & e & He & Hin).
  specialize (IH visited1 _ H1 ltac:(intros; apply Hcs; by right)).
  destruct (fold_left (visit d) callers (visited1, queue ++ more1)) as [visited2 queue2].
  destruct IH as (H2 & (more2 & ->) & Hall). split; [done|]. split; [exists (more1 ++ more2); by rewrite app_assoc|].
  intros c' [->|Hc']%elem_of_cons; [|by apply Hall]. exists e. split; [done|]. rewrite app_assoc.
  apply elem_of_app. by left.
Qed.

Lemma closed_mono done all all' : bfs_closed done all → all ⊆ all' → bfs_closed done all'.
Proof. intros H Hsub v e u Hv He Hu. destruct (H v e u Hv He Hu) as (e' & ? & ?). exists e'. auto. Qed.

Lemma bfs_pop d done visited node depth queue :
  bfs_inv d done visited ((node, depth) :: queue) →
  bfs_base depth (done ++ [(node, depth)]) visited queue ∧ bfs_closed done (done ++ (node, depth) :: queue).
Proof.
  intros [[H1 H2 H3 H4 H5 H6 H7] Hc]. split; [|done].
  assert (Hd : d ≤ depth ≤ S d) by (apply (H4 node); left).
  constructor; try (rewrite <-app_assoc; done).
  - intros v e [Hin|[= -> ->]%list_elem_of_singleton]%elem_of_app; [apply H3 in Hin; lia|done].
  - intros v e Hin. split; [|assert (Hin' : (v, e) ∈ (node, depth) :: queue) by (by right); apply H4 in Hin'; lia].
    rewrite fmap_app in H5. apply StronglySorted_app_1_r in H5.
    rewrite fmap_cons in H5. apply StronglySorted_inv in H5 as [_ Hf]. rewrite Forall_forall in Hf.
    apply Hf. apply list_elem_of_fmap. by exists (v, e).
Qed.

Lemma bfs_step d done visited node depth queue :
  bfs_inv d done visited ((node, depth) :: queue) →
  let '(visited', queue') := expand node depth (visited, queue) in
  bfs_inv depth (done ++ [(node, depth)]) visited' queue'.
Proof.
  intros H. apply bfs_pop in H as [Hb Hc]. unfold expand. destruct (Nat.leb_spec max_depth depth) as [Hle|Hlt].
  - split; [done|]. rewrite <-app_assoc. simpl. intros v e u [Hin|Hin]%elem_of_app; [by apply Hc|].
    apply list_elem_of_singleton in Hin as [= -> ->]. lia.
  - pose proof (visits_base depth _ node (callers_of g node) visited queue Hb) as Hv.
    destruct (fold_left (visit depth) (callers_of g node) (visited, queue)) as [visited' queue'].
    destruct Hv as (Hb' & (more & ->) & Hall); [apply elem_of_app; right; left|done|done|].
    split; [done|]. intros v e u [Hin|Hin]%elem_of_app He Hu.
    + destruct (Hc v e u Hin He Hu) as (e' & ? & Hin'). exists e'. split; [done|].
      rewrite <-app_assoc. simpl. apply elem_of_app in Hin' as [?|Hin']; apply elem_of_app; [by left|right].
      apply elem_of_cons in Hin' as [->|?]; [left|right]. apply elem_of_app. by left.
    + apply list_elem_of_singleton in Hin as [= -> ->]. by apply Hall.
Qed.

(** A node within reach is found once nothing nearer waits in the queue. *)
Lemma bfs_complete d done visited queue j :
  bfs_inv d done visited queue → j ≤ max_depth → (∀ v e, (v, e) ∈ queue → j ≤ e) →
  ∀ v, reaches j v → ∃ e, e ≤ j ∧ (v, e) ∈ done ++ queue.
Proof.
  intros [Hb Hc]. induction j as [|j IH]; intros Hj Hq v Hv; simpl in Hv.
  { exists 0. split; [done|]. by apply (bi_seeds _ _ _ _ Hb). }
  destruct Hv as (w & Hw & Hcall).
  destruct (IH ltac:(lia) ltac:(intros ? ? Hin; apply Hq in Hin; lia) w Hw) as (e & He & Hin).
  apply elem_of_app in Hin as [Hin|Hin]; [|apply Hq in Hin; lia].
  destruct (Hc w e v Hin ltac:(lia) Hcall) as (e' & ? & ?). exists e'. split; [lia|done].
Qed.

Lemma bfs_unique d done visited queue v e e' :
  bfs_base d done visited queue → (v, e) ∈ done ++ queue → (v, e') ∈ done ++ queue → e = e'.
Proof.
  intros Hb H1 H2. pose proof (bi_nodup _ _ _ _ Hb) as Hnd. revert Hnd H1 H2.
  generalize (done ++ queue). intros l. induction l as [|[u f] l IH]; [by intros _ ?%elem_of_nil|].
  rewrite fmap_cons. intros [Hn Hnd]%NoDup_cons [H1|H1]%elem_of_cons [H2|H2]%elem_of_cons; simplify_eq.
  - done.
  - destruct Hn. apply list_elem_of_fmap. by exists (u, e').
  - destruct Hn. apply list_elem_of_fmap. by exists (u, e).
  - by apply IH.
Qed.

Lemma bfs_exact d done visited queue v e :
  bfs_inv d done visited queue → (v, e) ∈ done ++ queue → distance e v ∧ e ≤ max_depth.
Proof.
  intros H Hin. pose proof H as [Hb _]. destruct (bi_reaches _ _ _ _ Hb v e Hin) as [Hr Hmax].
  split; [|done]. split; [done|]. intros j Hj Hjr.
  destruct (bfs_complete d done visited queue j H ltac:(lia)) with v as (e' & He' & Hin'); [|done|].
  - intros u f Hu. apply (bi_queue _ _ _ _ Hb) in Hu. pose proof (bfs_depth_le _ _ _ _ _ _ Hb Hin).
    lia.
  - pose proof (bfs_unique _ _ _ _ _ _ _ Hb Hin Hin'). lia.
Qed.

(** When the queue is empty, [done] lists the nodes within the depth at their distances. *)
Lemma bfs_finished d done visited v e :
  bfs_inv d done visited [] → (v, e) ∈ done ↔ distance e v ∧ e ≤ max_depth.
Proof.
  intros H. split.
  - intros Hin. apply (bfs_exact d done visited [] v e H). by rewrite app_nil_r.
  - intros [[Hr Hmin] He].
    destruct (bfs_complete d done visited [] e H He) with v as (e' & He' & Hin'); [by intros ? ? ?%elem_of_nil|done|].
    pose proof (bfs_exact _ _ _ _ _ _ H Hin') as [[Hr' _] _]. rewrite app_nil_r in Hin'.
    destruct (decide (e' = e)) as [->|Hne]; [done|]. destruct (Hmin e'); [lia|done].
Qed.

(** ** The searches end *)

Definition all_callers : list SymbolId := concat (snd <$> map_to_list (in_edges g)).

Lemma callers_of_all u v : v ∈ callers_of g u → v ∈ all_callers.
Proof.
  unfold callers_of, all_callers. destruct (in_edges g !! u) as [l|] eqn:E; simpl; [|by intros ?%elem_of_nil].
  intros Hv. apply list_elem_of_In, in_concat. exists l. rewrite <-!list_elem_of_In. split; [|done].
  apply list_elem_of_fmap. exists (u, l). split; [done|]. by apply elem_of_map_to_list.
Qed.

Lemma bfs_bound d done visited queue :
  bfs_base d done visited queue → length (done ++ queue) ≤ length seeds + length all_callers.
Proof.
  intros Hb. rewrite <-length_app, <-(length_fmap fst (done ++ queue)).
  apply submseteq_length, NoDup_submseteq; [apply (bi_nodup _ _ _ _ Hb)|].
  intros v Hv. apply list_elem_of_fmap in Hv as ([u e] & -> & Hin).
  apply (bi_reaches _ _ _ _ Hb) in Hin as [Hr _]. apply elem_of_app. destruct e as [|e]; simpl in Hr; [by left|].
  right. destruct Hr as (w & _ & Hc). by eapply callers_of_all.
Qed.

Lemma bfs_order_spec fuel d done visited queue :
  bfs_inv d done visited queue → length seeds + length all_callers < fuel + length done →
  ∃ order d' visited', bfs_order fuel visited queue = Some order ∧ bfs_inv d' (done ++ order) visited' [].
Proof.
  revert d done visited queue. induction fuel as [|fuel IH]; intros d done visited queue H Hf.
  { pose proof (bfs_bound _ _ _ _ (proj1 H)). rewrite length_app in *. lia. }
  destruct queue as [|[node depth] queue]; cbn [bfs_order].
  { exists [], d, visited. by rewrite app_nil_r. }
  pose proof (bfs_step _ _ _ _ _ _ H) as Hs.
  destruct (expand node depth (visited, queue)) as [visited1 queue1].
  destruct (IH _ _ _ _ Hs) as (order & d' & visited' & -> & Hfin); [rewrite length_app; simpl; lia|].
  exists ((node, depth) :: order), d', visited'. split; [done|]. by rewrite <-app_assoc in Hfin.
Qed.

Lemma bfs_start : NoDup seeds → bfs_inv 0 [] (list_to_set seeds) ((λ s, (s, 0)) <$> seeds).
Proof.
  intros Hnd. assert (Hfst : ((λ s : SymbolId, (s, 0)) <$> seeds).*1 = seeds).
  { rewrite <-list_fmap_compose. apply list_fmap_id. }
  split; [|by intros v e u ?%elem_of_nil]. constructor; cbn [app].
  - intros v. by rewrite elem_of_list_to_set, Hfst.
  - by rewrite Hfst.
  - by intros v e ?%elem_of_nil.
  - intros v e (s & [= -> ->] & _)%list_elem_of_fmap. lia.
  - clear Hnd Hfst. induction seeds as [|s l IH]; simpl; [constructor|]. constructor; [done|].
    apply Forall_forall. intros n _. lia.
  - intros v e (s & [= -> ->] & Hs)%list_elem_of_fmap. split; [done|lia].
  - intros v Hv. apply list_elem_of_fmap. by exists v.
Qed.

Lemma inbound_loop_order fuel max_nodes visited queue results order :
  bfs_order fuel visited queue = Some order → length results ≤ max_nodes →
  inbound_loop fuel g max_depth max_nodes visited queue results =
    Some (take max_nodes (results ++ filter (λ e, 0 < e.2) order)).
Proof.
  revert visited queue results order. induction fuel as [|fuel IH]; intros visited queue results order Ho Hlen; [done|].
  cbn [bfs_order inbound_loop] in *. destruct queue as [|[node depth] queue].
  { simplify_eq. by rewrite filter_nil, app_nil_r, take_ge. }
  unfold expand in Ho.
  destruct (Nat.leb_spec max_nodes (length results)) as [Hfull|Hroom].
  { rewrite take_app_le by lia. by rewrite take_ge by lia. }
  assert (Hcons : ∀ rest, take max_nodes
      ((if 0 <? depth then results ++ [(node, depth)] else results) ++ filter (λ e, 0 < e.2) rest) =
    take max_nodes (results ++ filter (λ e, 0 < e.2) ((node, depth) :: rest))).
  { intros rest. destruct (Nat.ltb_spec 0 depth).
    - by rewrite filter_cons_True, <-app_assoc by done.
    - by rewrite filter_cons_False by (simpl; lia). }
  assert (Hlen' : length (if 0 <? depth then results ++ [(node, depth)] else results) ≤ max_nodes).
  { destruct (0 <? depth); [rewrite length_app; simpl|]; lia. }
  destruct (max_depth <=? depth).
  - apply fmap_Some in Ho as (rest & Ho & ->). rewrite (IH _ _ _ _ Ho Hlen'). by rewrite Hcons.
  - destruct (fold_left (visit depth) (callers_of g node) (visited, queue)) as [visited1 queue1].
    apply fmap_Some in Ho as (rest & Ho & ->). rewrite (IH _ _ _ _ Ho Hlen'). by rewrite Hcons.
Qed.
End bfs.

Lemma filter_sorted_snd (l : Queue) (P : SymbolId * nat → Prop) `{!∀ x, Decision (P x)} :
  StronglySorted Nat.le l.*2 → StronglySorted Nat.le (filter P l).*2.
Proof.
  induction l as [|[v e] l IH]; [done|]. rewrite fmap_cons. intros [Hs Hx]%StronglySorted_inv.
  destruct (decide (P (v, e))) as [Hp|Hp]; [rewrite filter_cons_True by done|rewrite filter_cons_False by done; auto].
  rewrite fmap_cons. constructor; [auto|]. rewrite Forall_forall in Hx. apply Forall_forall.
  intros n (p & -> & Hp')%list_elem_of_fmap. apply list_elem_of_filter in Hp' as [_ Hp'].
  apply Hx. apply list_elem_of_fmap. by exists p.
Qed.

Lemma filter_nodup_fst (l : Queue) (P : SymbolId * nat → Prop) `{!∀ x, Decision (P x)} :
  NoDup l.*1 → NoDup (filter P l).*1.
Proof.
  induction l as [|[v e] l IH]; [done|]. rewrite fmap_cons. intros [Hn Hnd]%NoDup_cons.
  destruct (decide (P (v, e))) as [Hp|Hp]; [rewrite filter_cons_True by done|rewrite filter_cons_False by done; auto].
  rewrite fmap_cons. apply NoDup_cons. split; [|auto]. intros (p & Ep & Hp')%list_elem_of_fmap.
  apply Hn. apply list_elem_of_filter in Hp' as [_ Hp']. apply list_elem_of_fmap. by exists p.
Qed.

(** C29: the inbound search ends, on cycles too, and returns the first [max_nodes] entries
    of one complete answer: every definition whose shortest call chain to [start] has
    between one and [max_depth] calls, once, with that length, the nearest first. *)
Theorem inbound_bfs_nearest_first g start max_depth max_nodes :
  ∃ full, inbound_bfs g start max_depth max_nodes = Some (take max_nodes full) ∧
  NoDup full.*1 ∧ StronglySorted Nat.le full.*2 ∧
  ∀ v d, (v, d) ∈ full ↔ distance g [start] d v ∧ 0 < d ≤ max_depth.
Proof.
  pose proof (bfs_start g [start] max_depth (NoDup_singleton start)) as H0. simpl in H0.
  rewrite (union_empty_r_L {[start]}) in H0.
  destruct (bfs_order_spec g [start] max_depth (bfs_fuel g 1) _ _ _ _ H0) as (order & d & vis & Ho & Hfin).
  { unfold bfs_fuel, all_callers. simpl. lia. }
  exists (filter (λ e, 0 < e.2) order). unfold inbound_bfs.
  rewrite (inbound_loop_order g max_depth _ max_nodes _ _ [] order Ho ltac:(simpl; lia)). cbn [app] in *.
  pose proof (proj1 Hfin) as Hb. split_and!; [done| | |].
  - apply filter_nodup_fst. pose proof (bi_nodup _ _ _ _ _ _ _ Hb) as Hn. by rewrite app_nil_r in Hn.
  - apply filter_sorted_snd. pose proof (bi_sorted _ _ _ _ _ _ _ Hb) as Hn. by rewrite app_nil_r in Hn.
  - intros v e. rewrite list_elem_of_filter, (bfs_finished _ _ _ _ _ _ _ _ Hfin). simpl. tauto.
Qed.

(** ** The blast radius is the nodes at their distances *)

(** Every edge keeps evidence of its own. *)
Definition projection_wf (g : GraphProjection) : Prop :=
  ∀ caller callee, caller ∈ callers_of g callee →
    ∃ e, canonical_edge_evidence g caller callee = Some e ∧ ev_caller e = caller ∧ ev_callee e = callee.

(** [steps] are evidence for a chain of calls from [v] down to [u], listed from [u]. *)
Fixpoint call_chain (g : GraphProjection) (u : SymbolId) (steps : list CallEdgeEvidence) (v : SymbolId) : Prop :=
  match steps with
  | [] => u = v
  | e :: steps => ev_callee e = u ∧ ev_caller e ∈ callers_of g u ∧
      canonical_edge_evidence g (ev_caller e) u = Some e ∧ call_chain g (ev_caller e) steps v
  end.

Section impact.
Context (g : GraphProjection) (seeds changed : list SymbolId) (max_depth : nat).
Hypothesis Hwf : projection_wf g.
Hypothesis Hseeds : ∀ v, v ∈ seeds ↔ v ∈ changed.

(** What the two maps hold for the nodes seen so far. *)
Record impact_inv (all : Queue) (parent : gmap SymbolId (SymbolId * CallEdgeEvidence))
    (best : gmap SymbolId nat) : Prop := {
  ii_zero : ∀ v, (v, 0) ∈ all → parent !! v = None;
  ii_parent : ∀ v e, (v, S e) ∈ all → ∃ u edge, parent !! v = Some (u, edge) ∧ (u, e) ∈ all ∧
    v ∈ callers_of g u ∧ canonical_edge_evidence g v u = Some edge;
  ii_best : ∀ v e, best !! v = Some e ↔ (v, e) ∈ all ∧ 0 < e;
}.

Lemma impact_visit_spec d done s node caller :
  bfs_base g seeds max_depth d done (im_visited s) (im_queue s) → (node, d) ∈ done →
  caller ∈ callers_of g node → impact_inv (done ++ im_queue s) (im_parent s) (im_best_hop s) →
  let s' := impact_visit g (list_to_set changed) node d s caller in
  (im_visited s', im_queue s') = visit d (im_visited s, im_queue s) caller ∧
  impact_inv (done ++ im_queue s') (im_parent s') (im_best_hop s').
Proof.
  intros Hb Hnode Hc Hi. unfold impact_visit, visit. simpl. case_decide as Hv; [done|].
  destruct (Hwf caller node Hc) as (edge & He & Hec & Hee). rewrite He. simpl. split; [done|].
  assert (Hfresh : ∀ e, (caller, e) ∉ done ++ im_queue s).
  { intros e Hin. apply Hv, (bi_visited _ _ _ _ _ _ _ Hb), list_elem_of_fmap. by exists (caller, e). }
  rewrite decide_False.
  2:{ rewrite elem_of_list_to_set, <-Hseeds. intros Hin. apply (bi_seeds _ _ _ _ _ _ _ Hb) in Hin.
      by destruct (Hfresh 0). }
  destruct Hi as [Hz Hp Hbest]. rewrite app_assoc. constructor.
  - intros v [Hin|[=]%list_elem_of_singleton]%elem_of_app.
    rewrite lookup_insert_ne by (intros <-; by apply (Hfresh 0)). by apply Hz.
  - intros v e [Hin|[= -> ->]%list_elem_of_singleton]%elem_of_app.
    + destruct (Hp v e Hin) as (u & edge' & Hu & Hin' & ? & ?). exists u, edge'.
      rewrite lookup_insert_ne by (intros <-; by apply (Hfresh (S e))).
      split_and!; [done|apply elem_of_app; by left|done|done].
    + exists node, edge. rewrite lookup_insert_eq. split_and!; [done| |done|done].
      apply elem_of_app. left. apply elem_of_app. by left.
  - intros v e. rewrite elem_of_app, list_elem_of_singleton.
    destruct (decide (v = caller)) as [->|Hne].
    + rewrite lookup_insert_eq. split; [intros [= <-]; split; [by right|lia]|].
      intros [[Hin|[= ->]] _]; [by apply Hfresh in Hin|done].
    + rewrite lookup_insert_ne, Hbest by done. naive_solver.
Qed.

Lemma impact_visits_spec d done callers s node :
  bfs_base g seeds max_depth d done (im_visited s) (im_queue s) → (node, d) ∈ done → d < max_depth →
  (∀ c, c ∈ callers → c ∈ callers_of g node) →
  impact_inv (done ++ im_queue s) (im_parent s) (im_best_hop s) →
  let s' := fold_left (impact_visit g (list_to_set changed) node d) callers s in
  (im_visited s', im_queue s') = fold_left (visit d) callers (im_visited s, im_queue s) ∧
  impact_inv (done ++ im_queue s') (im_parent s') (im_best_hop s').
Proof.
  intros Hb Hnode Hd. revert s Hb. induction callers as [|c callers IH]; intros s Hb Hcs Hi; simpl; [done|].
  pose proof (visit_base _ _ _ _ _ _ _ node c Hb Hnode Hd (Hcs c ltac:(left))) as Hv.
  destruct (impact_visit_spec d done s node c Hb Hnode (Hcs c ltac:(left)) Hi) as [E Hi'].
  rewrite <-E in Hv |- *. destruct Hv as [Hb' _].
  apply IH; [done| |done]. intros c' ?. apply Hcs. by right.
Qed.

Lemma impact_loop_spec fuel d done s :
  bfs_inv g seeds max_depth d done (im_visited s) (im_queue s) →
  impact_inv (done ++ im_queue s) (im_parent s) (im_best_hop s) →
  length seeds + length (all_callers g) < fuel + length done →
  ∃ s' d' done', impact_loop fuel g (list_to_set changed) max_depth s = Some s' ∧
    bfs_inv g seeds max_depth d' done' (im_visited s') [] ∧ impact_inv done' (im_parent s') (im_best_hop s').
Proof.
  revert d done s. induction fuel as [|fuel IH]; intros d done s H Hi Hf.
  { pose proof (bfs_bound _ _ _ _ _ _ _ (proj1 H)). rewrite length_app in *. lia. }
  cbn [impact_loop]. destruct s as [visited [|[node depth] queue] parent best]; simpl in *.
  { exists (mkImpact visited [] parent best), d, done. rewrite app_nil_r in Hi. done. }
  pose proof (bfs_step _ _ _ _ _ _ _ _ _ H) as Hs. apply bfs_pop in H as [Hb _]. unfold expand in Hs.
  rewrite (cons_middle (node, depth)), app_assoc in Hi.
  destruct (Nat.leb_spec max_depth depth) as [Hle|Hlt].
  - apply (IH depth (done ++ [(node, depth)])); [done|done|rewrite length_app; simpl; lia].
  - destruct (impact_visits_spec depth (done ++ [(node, depth)]) (callers_of g node)
      (mkImpact visited queue parent best) node Hb) as [E Hi']; [apply elem_of_app; right; left|done|done|done|].
    simpl in E. rewrite <-E in Hs. apply (IH depth (done ++ [(node, depth)])); [done|done|].
    rewrite length_app. simpl. lia.
Qed.

Lemma chain_up_eq fuel parent v steps :
  chain_up (S fuel) parent v steps =
    match parent !! v with
    | None => Some steps
    | Some (next, edge) => chain_up fuel parent next (steps ++ [edge])
    end.
Proof. done. Qed.

(** The chain of parents of a node at depth [e] has [e] steps and ends at a seed. *)
Lemma chain_up_spec all parent best e v steps d done visited :
  bfs_inv g seeds max_depth d done visited [] → all = done → impact_inv all parent best → (v, e) ∈ all →
  ∃ chain u, chain_up (S e) parent v steps = Some (steps ++ chain) ∧ length chain = e ∧ u ∈ changed ∧
    call_chain g u (reverse chain) v.
Proof.
  intros H -> Hi. revert v steps. induction e as [|e IH]; intros v steps Hin; rewrite chain_up_eq.
  - rewrite (ii_zero _ _ _ Hi v Hin). exists [], v. rewrite app_nil_r. split_and!; [done|done| |done].
    apply Hseeds. by apply (bfs_finished _ _ _ _ _ _ _ _ H) in Hin as [[? _] _].
  - destruct (ii_parent _ _ _ Hi v e Hin) as (w & edge & Hp & Hw & Hc & Hce). rewrite Hp.
    destruct (IH w (steps ++ [edge]) Hw) as (chain & u & Hch & Hlen & Hu & Hcc).
    destruct (Hwf v w Hc) as (edge' & He' & Hev & Hee). rewrite Hce in He'. injection He' as <-.
    exists (edge :: chain), u. split_and!.
    + rewrite Hch, <-app_assoc. done.
    + simpl. by rewrite Hlen.
    + done.
    + rewrite reverse_cons. clear Hch Hlen IH Hin. revert Hcc. generalize (reverse chain). intros l.
      revert u Hu. intros u _. revert u. induction l as [|x l IHl]; intros u; simpl.
      * intros ->. rewrite Hee, Hev. done.
      * intros (? & ? & ? & Hl). split_and!; [done..|]. by apply IHl.
Qed.
End impact.

#[global] Instance kind_le_trans : Transitive kind_le.
Proof. intros a b c. unfold kind_le. lia. Qed.
#[global] Instance kind_le_total : Total kind_le.
Proof. intros a b. unfold kind_le. lia. Qed.

#[global] Instance symbol_le_antisymm : AntiSymm (=) symbol_le.
Proof.
  intros a b H1 H2. destruct (then_le_both _ _ _ _ _ _ H1 H2) as (Ep & H1' & H2').
  destruct (then_le_both _ _ _ _ _ _ H1' H2') as (En & H1'' & H2''). unfold kind_le in *.
  assert (Ek : id_kind a = id_kind b) by (apply kind_code_inj; lia).
  destruct a, b; simpl in *; congruence.
Qed.

Lemma elem_of_sort_dedup {A} (R : relation A) `{!RelDecision R, !EqDecision A} (l : list A) x :
  x ∈ sort_dedup R l ↔ x ∈ l.
Proof. unfold sort_dedup. by rewrite elem_of_dedup, sort_by_Permutation. Qed.

Lemma sort_dedup_symbols_nodup (l : list SymbolId) : NoDup (sort_dedup symbol_le l).
Proof. unfold sort_dedup. apply (dedup_nodup symbol_le), StronglySorted_sort_by; apply _. Qed.

(** The callers of a definition are those of the calls that were linked to it. *)
Lemma elem_of_callers files caller callee :
  caller ∈ callers_of (from_index files) callee ↔
  ∃ e, e ∈ call_edges files ∧ ev_caller e = caller ∧ ev_callee e = callee.
Proof.
  unfold callers_of. simpl. rewrite lookup_fmap, group_lookup.
  set (l := group_of callee _).
  assert (Hl : caller ∈ l ↔ ∃ e, e ∈ call_edges files ∧ ev_caller e = caller ∧ ev_callee e = callee).
  { unfold l. rewrite elem_of_group_of, list_elem_of_fmap. split.
    - intros (e & [= -> ->] & He). by exists e.
    - intros (e & He & <- & <-). by exists e. }
  rewrite <-Hl. clearbody l. destruct l as [|x l]; simpl; [done|]. apply elem_of_sort_dedup.
Qed.

Lemma evidence_of files caller callee :
  edge_evidence (from_index files) !! (caller, callee) =
    match filter (λ e, (ev_caller e, ev_callee e) = (caller, callee)) (call_edges files) with
    | [] => None
    | es => Some (sort_dedup evidence_le es)
    end.
Proof.
  simpl. rewrite lookup_fmap, group_lookup. unfold group_of.
  assert (E : snd <$> filter (λ e0 : (SymbolId * SymbolId) * CallEdgeEvidence, e0.1 = (caller, callee))
      ((λ e, ((ev_caller e, ev_callee e), e)) <$> call_edges files) =
    filter (λ e, (ev_caller e, ev_callee e) = (caller, callee)) (call_edges files)).
  { induction (call_edges files) as [|e l IH]; [done|]. rewrite fmap_cons.
    destruct (decide ((ev_caller e, ev_callee e) = (caller, callee))).
    - by rewrite !filter_cons_True, fmap_cons, IH by done.
    - by rewrite !filter_cons_False, IH by done. }
  rewrite E. clear E. by destruct (filter _ (call_edges files)).
Qed.

Lemma from_index_wf files : projection_wf (from_index files).
Proof.
  intros caller callee (e & He & Hcr & Hce)%elem_of_callers.
  unfold canonical_edge_evidence. rewrite evidence_of.
  set (es := filter _ _).
  assert (Hes : ∀ x, x ∈ es ↔ x ∈ call_edges files ∧ ev_caller x = caller ∧ ev_callee x = callee).
  { intros x. unfold es. rewrite list_elem_of_filter. split; [intros [[= <- <-] ?]|intros (? & <- & <-)]; done. }
  assert (Hin : e ∈ es) by (by apply Hes). clearbody es.
  destruct es as [|y es]; [by apply elem_of_nil in Hin|]. simpl.
  destruct (sort_dedup evidence_le (y :: es)) as [|x l] eqn:Es.
  { apply (elem_of_sort_dedup evidence_le) in Hin. rewrite Es in Hin. by apply elem_of_nil in Hin. }
  exists x. split; [done|]. assert (Hx : x ∈ y :: es).
  { apply (elem_of_sort_dedup evidence_le). rewrite Es. left. }
  by apply Hes in Hx as [_ ?].
Qed.

Lemma reaches_ext g seeds seeds' k v : (∀ v, v ∈ seeds ↔ v ∈ seeds') → reaches g seeds k v ↔ reaches g seeds' k v.
Proof.
  intros Hs. revert v. induction k as [|k IH]; intros v; simpl; [apply Hs|]. by setoid_rewrite IH.
Qed.

#[global] Instance symbol_key_le_trans : Transitive symbol_key_le.
Proof. intros a b c. unfold symbol_key_le. intros; by etrans. Qed.
#[global] Instance symbol_key_le_total : Total symbol_key_le.
Proof. intros a b. unfold symbol_key_le. apply (total symbol_le). Qed.

Definition entry_symbol (e : BlastNodeEvidence) : SymbolId := b_symbol (be_node e).

(** The whole computation, for any projection that keeps evidence of its edges. *)
Lemma compute_impact_spec g changed max_depth :
  projection_wf g →
  ∃ entries, compute_impact_with_evidence g changed max_depth = Some entries ∧
  StronglySorted entry_le entries ∧ NoDup (entry_symbol <$> entries) ∧
  (∀ v hop, (∃ e, e ∈ entries ∧ b_symbol (be_node e) = v ∧ b_hop (be_node e) = hop) ↔
     distance g changed hop v ∧ 0 < hop ≤ max_depth) ∧
  ∀ e, e ∈ entries →
    b_risk (be_node e) = risk_for_hop (b_hop (be_node e)) (is_entry_point (b_symbol (be_node e))) ∧
    length (be_steps e) = b_hop (be_node e) ∧
    ∃ u, u ∈ changed ∧ call_chain g u (be_steps e) (b_symbol (be_node e)).
Proof.
  intros Hwf. unfold compute_impact_with_evidence. set (starts := sort_dedup symbol_le changed).
  assert (Hs : ∀ v, v ∈ starts ↔ v ∈ changed) by (intros v; apply elem_of_sort_dedup).
  pose proof (bfs_start g starts max_depth (sort_dedup_symbols_nodup changed)) as H0.
  destruct (impact_loop_spec g starts changed max_depth Hwf Hs (bfs_fuel g (length starts)) 0 []
    (impact_start starts)) as (s & d & dn & Hl & Hb & Hi); [done| |unfold bfs_fuel, all_callers; simpl; lia|].
  { simpl. constructor.
    - intros v _. apply lookup_empty.
    - by intros v e (? & [=] & _)%list_elem_of_fmap.
    - intros v e. rewrite lookup_empty. split; [done|].
      intros [(? & [= -> ->] & _)%list_elem_of_fmap ?]. lia. }
  rewrite Hl. simpl.
  assert (Hentry : ∀ v e, (v, e) ∈ dn → ∃ u steps, u ∈ changed ∧ length steps = e ∧ call_chain g u steps v ∧
    impact_entry (im_parent s) (v, e) =
      Some (mkBlastEvidence (mkBlast v e (risk_for_hop e (is_entry_point v))) steps)).
  { intros v e Hin. destruct (chain_up_spec g starts changed max_depth Hwf Hs dn _ _ e v [] d dn _ Hb eq_refl Hi Hin)
      as (chain & u & Hch & Hlen & Hu & Hcc). exists u, (reverse chain). split_and!; [done| |done|].
    - by rewrite length_reverse.
    - unfold impact_entry. rewrite Hch. done. }
  destruct (mapM (impact_entry (im_parent s)) (map_to_list (im_best_hop s))) as [entries|] eqn:Em; simpl.
  2:{ assert (Hsome : is_Some (mapM (impact_entry (im_parent s)) (map_to_list (im_best_hop s)))).
      { apply mapM_is_Some_2, Forall_forall. intros [v e] Hin%elem_of_map_to_list.
        apply (ii_best _ _ _ _ Hi) in Hin as [Hin _]. destruct (Hentry v e Hin) as (? & ? & _ & _ & _ & E). exact (mk_is_Some _ _ E). }
      rewrite Em in Hsome. by destruct Hsome. }
  apply mapM_Some in Em. exists (sort_by entry_le entries). split; [done|].
  assert (Hin : ∀ e, e ∈ entries ↔ ∃ v hop, (v, hop) ∈ dn ∧ 0 < hop ∧ impact_entry (im_parent s) (v, hop) = Some e).
  { intros e. split.
    - intros [i Hi']%list_elem_of_lookup. eapply Forall2_lookup_r in Em as ([v hop] & Hv & He); [|done].
      apply list_elem_of_lookup_2, elem_of_map_to_list, (ii_best _ _ _ _ Hi) in Hv as [? ?]. exists v, hop. done.
    - intros (v & hop & Hd & Hpos & He).
      assert (Hm : (v, hop) ∈ map_to_list (im_best_hop s)).
      { by apply elem_of_map_to_list, (ii_best _ _ _ _ Hi). }
      apply list_elem_of_lookup in Hm as [i Hm]. eapply Forall2_lookup_l in Em as (e' & He' & E); [|done].
      rewrite He in E. simplify_eq. by eapply list_elem_of_lookup_2. }
  split_and!.
  - apply StronglySorted_sort_by; apply _.
  - rewrite (sort_by_Permutation entry_le entries).
    assert (E : entry_symbol <$> entries = (map_to_list (im_best_hop s)).*1).
    { clear -Em. induction Em as [|[v hop] e l k He _ IH]; [done|]. rewrite !fmap_cons, IH. f_equal.
      unfold impact_entry in He. apply bind_Some in He as (? & _ & [= <-]). done. }
    rewrite E. apply NoDup_fst_map_to_list.
  - intros v hop. unfold distance. setoid_rewrite <-(reaches_ext g starts changed _ _ Hs).
    assert (Hfin := bfs_finished g starts max_depth d dn _ v hop Hb). unfold distance in Hfin. split.
    + intros (e & He & <- & <-). rewrite sort_by_Permutation in He.
      apply Hin in He as (v & hop & Hd & Hpos & He). destruct (Hentry v hop Hd) as (u & steps & _ & _ & _ & E).
      rewrite He in E. simplify_eq. simpl in *. apply Hfin in Hd. tauto.
    + intros [Hdist [Hpos Hmax]]. assert (Hd : (v, hop) ∈ dn) by (by apply Hfin).
      destruct (Hentry v hop Hd) as (u & steps & _ & _ & _ & E).
      exists (mkBlastEvidence (mkBlast v hop (risk_for_hop hop (is_entry_point v))) steps). split; [|done].
      rewrite sort_by_Permutation. apply Hin. by exists v, hop.
  - intros e. rewrite sort_by_Permutation, Hin. intros (v & hop & Hd & Hpos & He).
    destruct (Hentry v hop Hd) as (u & steps & Hu & Hlen & Hcc & E). rewrite He in E. simplify_eq. simpl.
    split_and!; [done|done|]. by exists u.
Qed.

(** C16: the blast radius of a change.  On every index the computation ends, and lists each
    definition from which a changed one can be reached through at most [max_depth] calls,
    and no other, once, at the length of its shortest chain; the entry carries a chain of
    exactly that length, from a changed definition up to it, each step the evidence of
    an edge; and entries come nearest first. *)
Theorem blast_radius_exact files changed max_depth :
  let g := from_index files in
  ∃ entries, compute_impact_with_evidence g changed max_depth = Some entries ∧
  StronglySorted entry_le entries ∧ NoDup (entry_symbol <$> entries) ∧
  (∀ v hop, (∃ e, e ∈ entries ∧ b_symbol (be_node e) = v ∧ b_hop (be_node e) = hop) ↔
     distance g changed hop v ∧ 0 < hop ≤ max_depth) ∧
  ∀ e, e ∈ entries →
    b_risk (be_node e) = risk_for_hop (b_hop (be_node e)) (is_entry_point (b_symbol (be_node e))) ∧
    length (be_steps e) = b_hop (be_node e) ∧
    ∃ u, u ∈ changed ∧ call_chain g u (be_steps e) (b_symbol (be_node e)).
Proof. apply compute_impact_spec, from_index_wf. Qed.

(** ** When a call is linked *)

(** The definitions of the called name, in the caller's family of languages. *)
Definition callees_of (files : Files) (language : LanguageId) (r : ReferenceRecord) : list SymbolId :=
  group_of (graph_language_family language, r_name r) (def_entries files).

Lemma stem_scan_filter hint cands :
  stem_scan hint cands None =
    match filter (λ c, path_matches hint c = true) cands with
    | [] => Some None
    | [c] => Some (Some c)
    | _ => None
    end.
Proof.
  assert (H : ∀ l m, stem_scan hint l (Some m) =
    match filter (λ c, path_matches hint c = true) l with [] => Some (Some m) | _ => None end).
  { intros l m. induction l as [|c l IH]; [done|]. cbn [stem_scan]. destruct (path_matches hint c) eqn:E.
    - by rewrite filter_cons_True.
    - rewrite filter_cons_False by (by rewrite E). done. }
  induction cands as [|c l IH]; [done|]. cbn [stem_scan]. destruct (path_matches hint c) eqn:E.
  - rewrite filter_cons_True, H by done. by destruct (filter _ l).
  - by rewrite filter_cons_False by (by rewrite E).
Qed.

Lemma owner_match_filter hits cands :
  owner_match hits cands None =
    match filter (λ c, hits c ≠ 0) cands with
    | [c] => if decide (hits c = 1) then Some c else None
    | _ => None
    end.
Proof.
  assert (H : ∀ l m, owner_match hits l (Some m) =
    match filter (λ c, hits c ≠ 0) l with [] => Some m | _ => None end).
  { intros l m. induction l as [|c l IH]; [done|]. cbn [owner_match]. case_decide as E.
    - by rewrite filter_cons_False by (by intros ?).
    - rewrite filter_cons_True by done. by case_decide. }
  induction cands as [|c l IH]; [done|]. cbn [owner_match]. case_decide as E.
  - by rewrite filter_cons_False by (by intros ?).
  - rewrite filter_cons_True, H by done. case_decide.
    + destruct (filter _ l); [|done]. by rewrite decide_False by lia.
    + destruct (filter _ l); [|done]. by rewrite decide_True by lia.
Qed.

Lemma def_entries_name files k id : (k, id) ∈ def_entries files → id_name id = k.2.
Proof.
  unfold def_entries. intros ([path file] & Hin & _)%list_elem_of_bind.
  apply list_elem_of_fmap in Hin as (sym & [= -> ->] & _). done.
Qed.

(** The qualified resolution, as a choice of the only candidate. *)
Definition qualified_pick (hits : str → SymbolId → nat) (qualified_name : option str) (many : list SymbolId) :
    option (SymbolId * ResolutionReason) :=
  hint ← qualifier_hint qualified_name;
  match filter (λ c, path_matches hint c = true) many with
  | [c] => Some (c, QualifiedModule)
  | [] =>
      match filter (λ c, hits hint c ≠ 0) many with
      | [c] => if decide (hits hint c = 1) then Some (c, QualifiedOwner) else None
      | _ => None
      end
  | _ => None
  end.

Lemma resolve_callee_eq files language r :
  resolve_callee files language r =
    match callees_of files language r with
    | [only] => Some (only, UniqueName)
    | many => qualified_pick (λ hint, file_owner_hits files hint (r_name r)) (r_qualified_name r) many
    end.
Proof.
  unfold resolve_callee, defs_by_name. rewrite group_lookup. fold (callees_of files language r).
  assert (Hname : ∀ c, c ∈ callees_of files language r → id_name c = r_name r).
  { intros c Hc. unfold callees_of in Hc. apply elem_of_group_of, def_entries_name in Hc. done. }
  destruct (callees_of files language r) as [|x [|y l]]; cbn [mbind option_bind]; [|done|].
  { unfold qualified_pick. destruct (qualifier_hint (r_qualified_name r)); done. }
  unfold qualified_pick, resolve_ambiguous_callee. destruct (qualifier_hint (r_qualified_name r)) as [hint|]; [|done].
  cbn [mbind option_bind]. rewrite stem_scan_filter.
  destruct (filter (λ c, path_matches hint c = true) (x :: y :: l)) as [|z [|w k]]; [|done|done].
  cbn [head mbind option_bind]. rewrite owner_match_filter, (Hname x) by left.
  destruct (filter (λ c, file_owner_hits files hint (r_name r) c ≠ 0) (x :: y :: l)) as [|z [|w k]]; [done| |done].
  by case_decide.
Qed.

(** When a call is linked, and why.  It is linked to the only definition of its name in
    the caller's family of languages; or, when there is not exactly one, to the only one
    whose file or directory is its qualifier; or else, when no path matches, to the only
    one in a file where exactly one definition of that name belongs to the type that the
    qualifier names.  An ambiguous call is never linked to several definitions. *)
Theorem call_links_only_unique files language r c why :
  resolve_callee files language r = Some (c, why) ↔
  let callees := callees_of files language r in
  match why with
  | UniqueName => callees = [c]
  | QualifiedModule => length callees ≠ 1 ∧ ∃ hint, qualifier_hint (r_qualified_name r) = Some hint ∧
      filter (λ d, path_matches hint d = true) callees = [c]
  | QualifiedOwner => length callees ≠ 1 ∧ ∃ hint, qualifier_hint (r_qualified_name r) = Some hint ∧
      (∀ d, d ∈ callees → path_matches hint d = false) ∧
      filter (λ d, file_owner_hits files hint (r_name r) d ≠ 0) callees = [c] ∧
      file_owner_hits files hint (r_name r) c = 1
  end.
Proof.
  rewrite resolve_callee_eq. unfold qualified_pick. cbv zeta.
  assert (Hnone : ∀ hint l, filter (λ d, path_matches hint d = true) l = [] ↔
    ∀ d, d ∈ l → path_matches hint d = false).
  { intros hint l. split.
    - intros E d Hd. apply not_true_is_false. intros Hp.
      assert (Hin : d ∈ filter (λ d, path_matches hint d = true) l) by (by apply list_elem_of_filter).
      rewrite E in Hin. by apply elem_of_nil in Hin.
    - intros H. induction l as [|d l IH]; [done|]. rewrite filter_cons_False.
      + apply IH. intros ? ?. apply H. by right.
      + rewrite (H d); [done|left]. }
  destruct (callees_of files language r) as [|x [|y l]] eqn:El.
  2:{ destruct why; [naive_solver|..]; (split; [done|]; intros [? _]; done). }
  all: destruct (qualifier_hint (r_qualified_name r)) as [hint|]; cbn [mbind option_bind];
    [|destruct why; (split; [done|]); [done|naive_solver..]].
  - rewrite !filter_nil. destruct why; (split; [done|]); [done|naive_solver..].
  - set (many := x :: y :: l) in *.
    destruct why.
    + split; [|done]. destruct (filter _ many) as [|? [|? ?]]; [|done|done].
      destruct (filter _ many) as [|? [|? ?]]; [done| |done]. by case_decide.
    + split.
      * intros H. split; [done|]. exists hint. split; [done|].
        destruct (filter (λ d, path_matches hint d = true) many) as [|z [|w k]]; [|by simplify_eq|done].
        destruct (filter _ many) as [|? [|? ?]]; [done| |done]. by case_decide.
      * intros (_ & h & [= <-] & ->). done.
    + split.
      * intros H. split; [done|]. exists hint. split; [done|].
        destruct (filter (λ d, path_matches hint d = true) many) as [|z [|w k]] eqn:Ef; [|by simplify_eq|done].
        split; [exact (proj1 (Hnone hint many) Ef)|].
        destruct (filter (λ d, file_owner_hits files hint (r_name r) d ≠ 0) many) as [|z [|w k]]; [done| |done].
        case_decide; by simplify_eq.
      * intros (_ & h & [= <-] & Hp & -> & Hh). rewrite (proj2 (Hnone hint many) Hp). by rewrite decide_True.
Qed.

(** A definition that occurs twice among the candidates - the same name and kind twice in
    one file - is never reached through its owner, even when only one of the two belongs
    to the type named: both occurrences see the file's one match, and the second counts
    as ambiguous. *)
Theorem twin_methods_lose_owner_edge files language r c pre mid post :
  callees_of files language r = pre ++ c :: mid ++ c :: post →
  resolve_callee files language r ≠ Some (c, QualifiedOwner).
Proof.
  intros E H. rewrite resolve_callee_eq in H. unfold qualified_pick in H.
  destruct (callees_of files language r) as [|x [|y l]] eqn:El; [|by simplify_eq|].
  { destruct pre; done. }
  destruct (qualifier_hint (r_qualified_name r)) as [hint|]; [|done]. cbn [mbind option_bind] in H.
  destruct (filter (λ c, path_matches hint c = true) (x :: y :: l)) as [|? [|? ?]]; [|done|done].
  rewrite E in H.
  assert (Hlen : length (filter (λ d, file_owner_hits files hint (r_name r) d ≠ 0) (pre ++ c :: mid ++ c :: post)) = 1
    ∧ file_owner_hits files hint (r_name r) c ≠ 0).
  { destruct (filter _ _) as [|z [|w k]]; [done| |done]. case_decide; simplify_eq. split; [done|lia]. }
  destruct Hlen as [Hlen Hc].
  rewrite list.filter_app, filter_cons_True, list.filter_app, filter_cons_True in Hlen by done.
  rewrite !length_app in Hlen. simpl in Hlen. rewrite length_app in Hlen. simpl in Hlen. lia.
Qed.

(** ** The order of the files does not matter *)

Lemma pick_unique_perm {A B} (l l' : list A) (f f' : A → B) (d n : B) :
  l ≡ₚ l' → (∀ c, f c = f' c) →
  match l with [] => n | [c] => f c | _ => d end = match l' with [] => n | [c] => f' c | _ => d end.
Proof.
  intros Hp Hf. pose proof (Permutation_length Hp) as Hlen.
  destruct l as [|x [|y l]], l' as [|x' [|y' l']]; try done.
  apply Permutation_singleton_inj in Hp. by subst.
Qed.

Lemma qualified_pick_perm hits hits' qn l l' :
  l ≡ₚ l' → (∀ hint c, hits hint c = hits' hint c) → qualified_pick hits qn l = qualified_pick hits' qn l'.
Proof.
  intros Hp Hh. unfold qualified_pick. destruct (qualifier_hint qn) as [hint|]; [|done]. simpl.
  assert (Ho : match filter (λ c, hits hint c ≠ 0) l with
     | [] => None | [c] => if decide (hits hint c = 1) then Some (c, QualifiedOwner) else None | _ => None end =
     match filter (λ c, hits' hint c ≠ 0) l' with
     | [] => None | [c] => if decide (hits' hint c = 1) then Some (c, QualifiedOwner) else None | _ => None end).
  { apply pick_unique_perm; [|intros c; by rewrite Hh]. rewrite Hp.
    by rewrite (list_filter_iff _ (λ c, hits' hint c ≠ 0) l') by (intros c; by rewrite Hh). }
  rewrite Ho. apply pick_unique_perm; [by rewrite Hp|done].
Qed.

Section order.
Context (files files' : Files).
Hypothesis Hnd : NoDup files.*1.
Hypothesis Hp : files ≡ₚ files'.

Lemma index_get_perm path : index_get files path = index_get files' path.
Proof. unfold index_get. by rewrite (list_to_map_proper files files'). Qed.

Lemma callees_perm language r : callees_of files language r ≡ₚ callees_of files' language r.
Proof. unfold callees_of, group_of, def_entries. by rewrite Hp. Qed.

Lemma resolve_callee_perm language r : resolve_callee files language r = resolve_callee files' language r.
Proof.
  rewrite !resolve_callee_eq. pose proof (callees_perm language r) as Hc.
  assert (Hpick : ∀ l l', l ≡ₚ l' →
    qualified_pick (λ hint, file_owner_hits files hint (r_name r)) (r_qualified_name r) l =
    qualified_pick (λ hint, file_owner_hits files' hint (r_name r)) (r_qualified_name r) l').
  { intros l l' Hl. apply qualified_pick_perm; [done|]. intros hint c. unfold file_owner_hits.
    by rewrite index_get_perm. }
  pose proof (Permutation_length Hc).
  destruct (callees_of files language r) as [|x [|y l]], (callees_of files' language r) as [|x' [|y' l']]; try done.
  - apply Permutation_singleton_inj in Hc. by subst.
  - by apply Hpick.
Qed.

Lemma call_edges_perm : call_edges files ≡ₚ call_edges files'.
Proof.
  assert (E : call_edges files = ('(path, file) ← files; omap (call_edge files' path file) (f_references file))).
  { unfold call_edges. apply list_bind_ext; [|done]. intros [path file].
    apply list_omap_ext, Forall_Forall2_diag, Forall_forall. intros r _. unfold call_edge.
    by rewrite resolve_callee_perm. }
  rewrite E. unfold call_edges. by rewrite Hp.
Qed.

Lemma group_perm {K V} `{Countable K} (R : relation V) `{!RelDecision R, !EqDecision V, !Transitive R, !Total R}
    (l l' : list (K * V)) :
  (∀ k x y, (k, x) ∈ l → (k, y) ∈ l' → R x y → R y x → x = y) → l ≡ₚ l' →
  sort_dedup R <$> group l = sort_dedup R <$> group l'.
Proof.
  intros Hanti Hl. apply map_eq. intros k. rewrite !lookup_fmap, !group_lookup.
  assert (Hk : group_of k l ≡ₚ group_of k l') by (unfold group_of; by rewrite Hl).
  assert (E : sort_dedup R (group_of k l) = sort_dedup R (group_of k l')).
  { apply (sort_dedup_Permutation R); [|done]. intros x y. rewrite !elem_of_group_of. apply Hanti. }
  pose proof (Permutation_length Hk). destruct (group_of k l), (group_of k l'); try done. simpl. by rewrite E.
Qed.
End order.

#[global] Instance reason_le_trans : Transitive reason_le.
Proof. intros a b c. unfold reason_le. lia. Qed.
#[global] Instance reason_le_total : Total reason_le.
Proof. intros a b. unfold reason_le. lia. Qed.
#[global] Instance N_le_po : PartialOrder N.le.
Proof. split; [split|]; intros ?; lia. Qed.
#[global] Instance N_le_total' : Total N.le.
Proof. intros a b. lia. Qed.

Lemma evidence_le_both a b :
  ev_caller a = ev_caller b → ev_callee a = ev_callee b → evidence_le a b → evidence_le b a → a = b.
Proof.
  intros Ec Ee H1 H2.
  destruct (then_le_both _ _ _ _ _ _ H1 H2) as (E1 & H1a & H2a).
  destruct (then_le_both _ _ _ _ _ _ H1a H2a) as (E2 & H1b & H2b).
  destruct (then_le_both _ _ _ _ _ _ H1b H2b) as (E3 & H1c & H2c).
  destruct (then_le_both _ _ _ _ _ _ H1c H2c) as (E4 & H1d & H2d).
  destruct (then_le_both _ _ _ _ _ _ H1d H2d) as (E5 & H1e & H2e).
  unfold reason_le in *.
  assert (E6 : ev_resolution a = ev_resolution b) by (destruct (ev_resolution a), (ev_resolution b); simpl in *; lia || done).
  destruct a as [? ? ? [] [] ?], b as [? ? ? [] [] ?]. simpl in *. congruence.
Qed.

(** The projection does not depend on the order in which the files of the index are
    visited: edges, evidence and counts are the same for every order, because lists are
    sorted and deduplicated and every choice among candidates is of a unique one.  So the
    blast radius of a change is reproducible although the index is a hash map. *)
Theorem projection_order_independent files files' :
  NoDup files.*1 → files ≡ₚ files' → from_index files = from_index files'.
Proof.
  intros Hnd Hp. pose proof (call_edges_perm files files' Hnd Hp) as He.
  assert (Hin : sort_dedup symbol_le <$> group ((λ e, (ev_callee e, ev_caller e)) <$> call_edges files) =
    sort_dedup symbol_le <$> group ((λ e, (ev_callee e, ev_caller e)) <$> call_edges files')).
  { apply (group_perm symbol_le); [|by rewrite He]. intros k x y _ _. apply (anti_symm symbol_le). }
  assert (Hev : sort_dedup evidence_le <$> group ((λ e, ((ev_caller e, ev_callee e), e)) <$> call_edges files) =
    sort_dedup evidence_le <$> group ((λ e, ((ev_caller e, ev_callee e), e)) <$> call_edges files')).
  { apply (group_perm evidence_le); [|by rewrite He]. intros k x y Hx Hy.
    apply list_elem_of_fmap in Hx as (e & [= -> ->] & _). apply list_elem_of_fmap in Hy as (e' & [= ? ? ->] & _).
    by apply evidence_le_both. }
  assert (Hn : length (def_entries files) = length (def_entries files')).
  { apply Permutation_length. unfold def_entries. by rewrite Hp. }
  unfold from_index. by rewrite Hin, Hev, Hn.
Qed.

(** ** Witnesses *)

Definition demo_fn (name : string) (start end_ : N) : SymbolRecord :=
  mkSymbol (bs name) Function 0 0 (start * 10, end_ * 10 + 9)%N (start, end_) None None.
Definition demo_method (name : string) (start end_ : N) : SymbolRecord :=
  mkSymbol (bs name) Method 1 0 (start * 10, end_ * 10 + 9)%N (start, end_) None None.
Definition demo_impl (name : string) (start end_ : N) : SymbolRecord :=
  mkSymbol (bs name) Impl 0 0 (start * 10, end_ * 10 + 9)%N (start, end_) None None.
Definition demo_call (name : string) (qualified : option str) (line : N) (enclosing : N) : ReferenceRecord :=
  mkReference (bs name) qualified Call (line * 10 + 1, line * 10 + 5)%N (line, line) (Some enclosing).

(** [main] calls [run], [run] calls [core] and [main]: a cycle above [core]. *)
Definition demo_index : Files :=
  [(bs "lib.rs", parsed_file Rust [] [demo_fn "core" 0 0] []);
   (bs "a.rs", parsed_file Rust [] [demo_fn "run" 0 3] [demo_call "core" None 1 0; demo_call "main" None 2 0]);
   (bs "main.rs", parsed_file Rust [] [demo_fn "main" 0 2] [demo_call "run" None 1 0])].

Definition demo_id (path name : string) : SymbolId := mkId (bs path) (bs name) Function.

Lemma demo_impact :
  (λ l : list BlastNode, (λ b, (b_symbol b, b_hop b)) <$> l) <$>
    compute_impact (from_index demo_index) [demo_id "lib.rs" "core"] 5 =
  Some [(demo_id "a.rs" "run", 1); (demo_id "main.rs" "main", 2)].
Proof. vm_compute. reflexivity. Qed.

Lemma projection_order_independent_witness :
  from_index demo_index = from_index (reverse demo_index).
Proof.
  apply (projection_order_independent demo_index (reverse demo_index)).
  - apply (bool_decide_eq_true_1 _). vm_compute. reflexivity.
  - symmetry. apply reverse_Permutation.
Defined.

(** Two types with a method of the same name in one file, and a qualified call of one. *)
Definition twin_index : Files :=
  [(bs "lib.rs", parsed_file Rust []
     [demo_impl "impl A" 0 2; demo_method "run" 1 1; demo_impl "impl B" 3 5; demo_method "run" 4 4] []);
   (bs "main.rs", parsed_file Rust [] [demo_fn "main" 0 2] [demo_call "run" (Some (bs "A::run")) 1 0])].
Definition twin_call : ReferenceRecord := demo_call "run" (Some (bs "A::run")) 1 0.
Definition twin_method : SymbolId := mkId (bs "lib.rs") (bs "run") Method.

Lemma twin_methods_lose_owner_edge_witness :
  file_owner_hits twin_index (bs "A") (bs "run") twin_method = 1 ∧
  resolve_callee twin_index Rust twin_call ≠ Some (twin_method, QualifiedOwner) ∧
  edge_count (from_index twin_index) = 0.
Proof.
  split_and!; [vm_compute; reflexivity| |vm_compute; reflexivity].
  apply (twin_methods_lose_owner_edge twin_index Rust twin_call twin_method [] [] []).
  vm_compute. reflexivity.
Defined.
