(* ===== verification/Trigram.v ===== *)
(** * The trigram index (live_index/trigram.rs)

    [TrigramIndex] maps every three-byte window of the lowercased files to the sorted
    list of the files that contain it.  [search] intersects the posting lists of the
    query's windows and checks the surviving files byte by byte.  [Faithful idx docs]
    says that the index describes exactly the contents [docs]; every operation that
    changes the index preserves it for the changed contents, [search] on a faithful
    index finds what a linear scan finds, and the persisted form is read back to the
    same index.

    A file is its content: the index reads nothing else of an [IndexedFile].  A
    [HashMap] is a finite map; where the order in which the code iterates over it is
    visible in the result (file ids of a fresh build, the order of a linear scan), the
    iteration is an argument that permutes the map.  A [HashSet] is iterated in the
    order of [elements]: [search_candidates] shows that the order does not matter. *)

From Stdlib Require Import Lia Strings.Byte.
From stdpp Require Import base gmap sets list strings numbers option sorting.
From S2P Require Import Prelude Slices Text.

#[global] Set Default Goal Selector "!".

Notation Bytes := (list byte).
Notation Tri := (byte * byte * byte)%type.
Notation Path := (list byte).
Notation Files := (gmap Path Bytes).

(** ** Data *)

Record TrigramIndex := mkTrigramIndex {
  tg_map : gmap Tri (list N);
  id_to_path : gmap N Path;
  path_to_id : gmap Path N;
  next_id : N;
}.

Record PersistedTrigramIndex := mkPersisted {
  p_next_id : N;
  p_paths : list (N * Path);
  p_postings : list (N * list N);
}.

#[global] Instance TrigramIndex_eq_dec : EqDecision TrigramIndex.
Proof. solve_decision. Defined.

Definition set_map (idx : TrigramIndex) (m : gmap Tri (list N)) : TrigramIndex :=
  mkTrigramIndex m (id_to_path idx) (path_to_id idx) (next_id idx).

(** ** Trigrams of a content *)

(** [slice::windows(3)]. *)
Fixpoint windows3 (l : Bytes) : list Tri :=
  match l with
  | a :: ((b :: c :: _) as tl) => (a, b, c) :: windows3 tl
  | _ => []
  end.

Definition extract_trigrams (bytes : Bytes) : gset Tri :=
  if length bytes <? 3 then ∅ else list_to_set (windows3 bytes).

Definition trigrams_of (content : Bytes) : gset Tri := extract_trigrams (lowercase content).

(** The two nested loops: some start [i] at which every byte [j] of the needle matches. *)
Definition matches_at (haystack needle_lower : Bytes) (i : nat) : bool :=
  forallb (λ j,
    bool_decide (to_ascii_lowercase <$> (haystack !! (i + j)) = needle_lower !! j))
    (seq 0 (length needle_lower)).

Definition contains_bytes_ci (haystack needle_lower : Bytes) : bool :=
  match needle_lower with
  | [] => true
  | _ :: _ =>
      if length haystack <? length needle_lower then false
      else existsb (matches_at haystack needle_lower)
             (seq 0 (S (length haystack - length needle_lower)))
  end.

(** ** Packed keys *)

Definition pack_trigram (t : Tri) : N :=
  let '(a, b, c) := t in
  N.lor (N.lor (Byte.to_N a) (N.shiftl (Byte.to_N b) 8)) (N.shiftl (Byte.to_N c) 16).

(** The cast [as u8] keeps the low eight bits. *)
Definition as_u8 (n : N) : option byte := Byte.of_N (N.land n 255).

Definition unpack_trigram (key : N) : option Tri :=
  if (0xFFFFFF <? key)%N then None
  else
    a ← as_u8 key;
    b ← as_u8 (N.shiftr key 8);
    c ← as_u8 (N.shiftr key 16);
    Some (a, b, c).

(** ** Posting lists *)

Definition insert_sorted (l : list N) (id : N) : list N :=
  match binary_search l id with
  | Found _ => l
  | Absent pos => vec_insert pos id l
  end.

(** [map.entry(tg).or_default()], then [insert_sorted]. *)
Definition post (id : N) (tg : Tri) (m : gmap Tri (list N)) : gmap Tri (list N) :=
  <[tg := insert_sorted (default [] (m !! tg)) id]> m.

Definition remove_id (tg : Tri) (id : N) (m : gmap Tri (list N)) : gmap Tri (list N) :=
  match m !! tg with
  | Some l =>
      match binary_search l id with
      | Found pos =>
          match vec_remove pos l with
          | [] => delete tg m
          | l' => <[tg := l']> m
          end
      | Absent _ => m
      end
  | None => m
  end.

(** [map.retain]: the closure first removes the id, then drops an empty list. *)
Definition retain_without (id : N) (l : list N) : option (list N) :=
  match (match binary_search l id with Found pos => vec_remove pos l | Absent _ => l end) with
  | [] => None
  | l' => Some l'
  end.

Definition remove_id_everywhere (id : N) (idx : TrigramIndex) : TrigramIndex :=
  set_map idx (omap (retain_without id) (tg_map idx)).

(** ** The index *)

Definition trigram_new : TrigramIndex := mkTrigramIndex ∅ ∅ ∅ 0.

Definition get_or_alloc_id (path : Path) (idx : TrigramIndex) : N * TrigramIndex :=
  match path_to_id idx !! path with
  | Some id => (id, idx)
  | None =>
      let id := next_id idx in
      (id, mkTrigramIndex (tg_map idx) (<[id := path]> (id_to_path idx))
             (<[path := id]> (path_to_id idx)) (u64_add id 1))
  end.

Definition insert_file (path : Path) (content : Bytes) (idx : TrigramIndex) : TrigramIndex :=
  let '(file_id, idx) := get_or_alloc_id path idx in
  set_map idx (foldr (post file_id) (tg_map idx) (elements (trigrams_of content))).

Definition update_file (path : Path) (old : option Bytes) (content : Bytes)
    (idx : TrigramIndex) : TrigramIndex :=
  match path_to_id idx !! path with
  | None => insert_file path content idx
  | Some file_id =>
      match old with
      | None => insert_file path content (remove_id_everywhere file_id idx)
      | Some old =>
          let old := trigrams_of old in
          let new := trigrams_of content in
          let m := foldr (λ tg, remove_id tg file_id) (tg_map idx) (elements (old ∖ new)) in
          set_map idx (foldr (post file_id) m (elements (new ∖ old)))
      end
  end.

Definition remove_file (path : Path) (content : option Bytes) (idx : TrigramIndex) : TrigramIndex :=
  match path_to_id idx !! path with
  | None => idx
  | Some id =>
      let idx := mkTrigramIndex (tg_map idx) (delete id (id_to_path idx))
                   (delete path (path_to_id idx)) (next_id idx) in
      match content with
      | Some content =>
          set_map idx
            (foldr (λ tg, remove_id tg id) (tg_map idx) (elements (trigrams_of content)))
      | None => remove_id_everywhere id idx
      end
  end.

(** [build_from_files]: ids in iteration order, postings appended, then every list is
    sorted and deduplicated.  [file_id] of the second loop counts the shards. *)
Definition alloc_all (order : list (Path * Bytes)) (idx : TrigramIndex) : TrigramIndex :=
  fold_left (λ idx '(path, _), (get_or_alloc_id path idx).2) order idx.

Definition push_id (file_id : N) (tg : Tri) (m : gmap Tri (list N)) : gmap Tri (list N) :=
  <[tg := default [] (m !! tg) ++ [file_id]]> m.

Fixpoint append_postings (file_id : N) (contents : list Bytes) (m : gmap Tri (list N)) :
    gmap Tri (list N) :=
  match contents with
  | [] => m
  | c :: cs =>
      append_postings (file_id + 1) cs (foldr (push_id file_id) m (elements (trigrams_of c)))
  end.

Definition build_from_files (order : list (Path * Bytes)) : TrigramIndex :=
  let idx := alloc_all order trigram_new in
  let m := append_postings 0 (order.*2) (tg_map idx) in
  set_map idx ((λ l, dedup (sort_unstable l)) <$> m).

(** ** Search *)

Definition linear_scan_lower (query_lower : Bytes) (order : list (Path * Bytes)) : list Path :=
  omap (λ '(path, content),
    if contains_bytes_ci content query_lower then Some path else None) order.

(** The retain loop; [None] is the early return of an empty intersection. *)
Fixpoint intersect (candidates : list N) (lists : list (list N)) : option (list N) :=
  match lists with
  | [] => Some candidates
  | l :: ls =>
      let candidates := filter (λ id, is_found (binary_search l id) = true) candidates in
      match candidates with
      | [] => None
      | _ => intersect candidates ls
      end
  end.

Definition no_longer (a b : list N) : Prop := length a ≤ length b.
#[global] Instance no_longer_dec a b : Decision (no_longer a b).
Proof. unfold no_longer. apply _. Defined.

Definition sort_by_len (lists : list (list N)) : list (list N) := sort_by no_longer lists.

Definition verify_candidate (idx : TrigramIndex) (files : Files) (query_lower : Bytes) (id : N) :
    option Path :=
  path ← id_to_path idx !! id;
  content ← files !! path;
  if contains_bytes_ci content query_lower then Some path else None.

Definition search (idx : TrigramIndex) (query : Bytes) (files : Files)
    (order : list (Path * Bytes)) : list Path :=
  match query with
  | [] => []
  | _ :: _ =>
      let query_lower := lowercase query in
      if length query_lower <? 3 then linear_scan_lower query_lower order
      else
        let posting_lists :=
          omap (λ t, tg_map idx !! t) (elements (extract_trigrams query_lower)) in
        match sort_by_len posting_lists with
        | [] => []
        | shortest :: rest =>
            match intersect shortest rest with
            | None => []
            | Some candidates => omap (verify_candidate idx files query_lower) candidates
            end
        end
  end.

(** ** The persisted form *)

Definition to_persisted (idx : TrigramIndex) : PersistedTrigramIndex :=
  mkPersisted (next_id idx) (sort_by_key (map_to_list (id_to_path idx)))
    (sort_by_key ((λ '(t, ids), (pack_trigram t, ids)) <$> map_to_list (tg_map idx))).

Fixpoint load_paths (bound : N) (paths : list (N * Path)) (id_to_path : gmap N Path)
    (path_to_id : gmap Path N) : option (gmap N Path * gmap Path N) :=
  match paths with
  | [] => Some (id_to_path, path_to_id)
  | (id, path) :: paths =>
      if (bound <=? id)%N then None
      else if bool_decide (is_Some (path_to_id !! path)) then None
      else if bool_decide (is_Some (id_to_path !! id)) then None
      else load_paths bound paths (<[id := path]> id_to_path) (<[path := id]> path_to_id)
  end.

(** [ids.windows(2).any(|pair| pair[0] >= pair[1])]. *)
Fixpoint unsorted_pair (ids : list N) : bool :=
  match ids with
  | a :: ((b :: _) as tl) => (b <=? a)%N || unsorted_pair tl
  | _ => false
  end.

Fixpoint load_postings (known : gmap N Path) (postings : list (N * list N))
    (m : gmap Tri (list N)) : option (gmap Tri (list N)) :=
  match postings with
  | [] => Some m
  | (key, ids) :: postings =>
      tg ← unpack_trigram key;
      if unsorted_pair ids then None
      else if existsb (λ id, negb (bool_decide (is_Some (known !! id)))) ids then None
      else if bool_decide (is_Some (m !! tg)) then None
      else load_postings known postings (<[tg := ids]> m)
  end.

Definition from_persisted (p : PersistedTrigramIndex) : option TrigramIndex :=
  '(id_to_path, path_to_id) ← load_paths (p_next_id p) (p_paths p) ∅ ∅;
  m ← load_postings id_to_path (p_postings p) ∅;
  Some (mkTrigramIndex m id_to_path path_to_id (p_next_id p)).

Definition covers_files (idx : TrigramIndex) (files : Files) : bool :=
  if negb (size (path_to_id idx) =? size files)
     || existsb (λ '(path, _), negb (bool_decide (is_Some (path_to_id idx !! path))))
          (map_to_list files)
  then false
  else
    let needs_postings := existsb (λ '(_, c), 3 <=? length c) (map_to_list files) in
    negb needs_postings || negb (bool_decide (tg_map idx = ∅)).

Definition posting_count (idx : TrigramIndex) : nat :=
  sum_list_with (λ '(_, ids), length ids) (map_to_list (tg_map idx)).

Definition persisted_posting_count (p : PersistedTrigramIndex) : nat :=
  sum_list_with (λ '(_, ids), length ids) (p_postings p).

(** ** Trigrams and containment *)

(** [needle] occurs in [content] up to ASCII case: what [search] promises to decide. *)
Definition occurs_ci (content needle : Bytes) : Prop :=
  ∃ pre suf, lowercase content = pre ++ lowercase needle ++ suf.

Lemma windows3_short l : length l < 3 → windows3 l = [].
Proof. destruct l as [|a [|b [|c l]]]; simpl; try done; lia. Qed.

Lemma elem_of_windows3 l a b c :
  (a, b, c) ∈ windows3 l ↔ ∃ pre suf, l = pre ++ a :: b :: c :: suf.
Proof.
  split.
  - induction l as [|x [|y [|z l]] IH]; simpl; try by intros ?%not_elem_of_nil.
    intros [?|H]%elem_of_cons; [simplify_eq; by exists [], l|].
    destruct (IH H) as (pre & suf & ->). by exists (x :: pre), suf.
  - intros (pre & suf & ->). induction pre as [|x pre IH]; simpl; [apply list_elem_of_here|].
    destruct pre as [|y [|z pre]]; simpl in *; by right.
Qed.

Lemma elem_of_extract t l : t ∈ extract_trigrams l ↔ t ∈ windows3 l.
Proof.
  unfold extract_trigrams. destruct (Nat.ltb_spec (length l) 3) as [Hlt|_].
  - rewrite windows3_short by done. set_solver.
  - by rewrite elem_of_list_to_set.
Qed.

(** Every window of a needle that occurs is a window of the content. *)
Lemma occurs_trigrams content needle :
  occurs_ci content needle → extract_trigrams (lowercase needle) ⊆ trigrams_of content.
Proof.
  intros (pre & suf & E) [[a b] c]. unfold trigrams_of. rewrite !elem_of_extract, !elem_of_windows3.
  intros (p & s & En). exists (pre ++ p), (s ++ suf). rewrite E, En. by rewrite <-!(assoc_L (++)).
Qed.

Lemma matches_at_spec h n i :
  i + length n ≤ length h → matches_at h n i = true ↔ take (length n) (drop i (lowercase h)) = n.
Proof.
  intros Hlen. unfold matches_at. rewrite forallb_forall. setoid_rewrite bool_decide_eq_true. split.
  - intros H. apply list_eq. intros j. destruct (decide (j < length n)) as [Hj|Hj].
    + rewrite lookup_take_lt, lookup_drop by done. unfold lowercase.
      rewrite list_lookup_fmap. apply H, in_seq. lia.
    + by rewrite !lookup_ge_None_2 by (rewrite ?length_take; lia).
  - intros E j Hj%in_seq. pose proof (f_equal (.!! j) E) as Ej. cbv beta in Ej.
    rewrite lookup_take_lt, lookup_drop in Ej by lia. unfold lowercase in Ej.
    by rewrite list_lookup_fmap in Ej.
Qed.

Lemma contains_bytes_ci_spec content needle :
  contains_bytes_ci content (lowercase needle) = true ↔ occurs_ci content needle.
Proof.
  unfold occurs_ci. destruct needle as [|b needle].
  { simpl. split; [|done]. intros _. by exists [], (lowercase content). }
  set (n := lowercase (b :: needle)).
  assert (Hc : contains_bytes_ci content n = if length content <? length n then false
    else existsb (matches_at content n) (seq 0 (S (length content - length n)))) by done.
  rewrite Hc. destruct (Nat.ltb_spec (length content) (length n)) as [Hlt|Hge].
  - split; [done|]. intros (pre & suf & E). apply (f_equal length) in E.
    rewrite !length_app, length_lowercase in E. lia.
  - rewrite existsb_exists. split.
    + intros (i & Hi%in_seq & Hm%matches_at_spec); [|lia].
      exists (take i (lowercase content)), (drop (length n) (drop i (lowercase content))).
      rewrite <-Hm at 1. by rewrite !take_drop.
    + intros (pre & suf & E). pose proof (f_equal length E) as El.
      rewrite !length_app, length_lowercase in El. exists (length pre).
      split; [apply in_seq; lia|]. apply matches_at_spec; [lia|].
      rewrite E, drop_app_length. apply take_app_length.
Qed.

(** ** Posting maps *)

Definition posted (m : gmap Tri (list N)) (t : Tri) : list N := default [] (m !! t).
Definition sorted_map (m : gmap Tri (list N)) : Prop :=
  ∀ t l, m !! t = Some l → strictly_sorted l.

Lemma posted_sorted m t : sorted_map m → strictly_sorted (posted m t).
Proof. intros Hm. unfold posted. destruct (m !! t) eqn:E; simpl; [by eapply Hm|constructor]. Qed.

Lemma posted_insert m t l t' :
  posted (<[t := l]> m) t' = if decide (t' = t) then l else posted m t'.
Proof.
  unfold posted. destruct (decide (t' = t)) as [->|Hne].
  - by rewrite lookup_insert_eq.
  - by rewrite lookup_insert_ne.
Qed.

Lemma posted_delete m t t' :
  posted (delete t m) t' = if decide (t' = t) then [] else posted m t'.
Proof.
  unfold posted. destruct (decide (t' = t)) as [->|Hne].
  - by rewrite lookup_delete_eq.
  - by rewrite lookup_delete_ne.
Qed.

Lemma sorted_map_insert m t l : sorted_map m → strictly_sorted l → sorted_map (<[t := l]> m).
Proof. intros Hm Hl t' l' [[<- <-]|[_ H]]%lookup_insert_Some; [done|by eapply Hm]. Qed.

Lemma insert_sorted_spec l id :
  strictly_sorted l →
  strictly_sorted (insert_sorted l id) ∧ (∀ i, i ∈ insert_sorted l id ↔ i = id ∨ i ∈ l).
Proof.
  intros Hs. unfold insert_sorted. destruct (binary_search l id) as [p|p] eqn:E.
  - split; [done|]. intros i. split; [tauto|]. intros [->|?]; [|done].
    apply binary_search_found; [done|]. by rewrite E.
  - split; [by apply vec_insert_sorted|]. intros i. apply elem_of_vec_insert.
Qed.

Lemma post_spec id tg m :
  sorted_map m → sorted_map (post id tg m) ∧
  ∀ t i, i ∈ posted (post id tg m) t ↔ (t = tg ∧ i = id) ∨ i ∈ posted m t.
Proof.
  intros Hm. destruct (insert_sorted_spec (posted m tg) id) as [Hs He]; [by apply posted_sorted|].
  split; [by apply sorted_map_insert|]. intros t i. unfold post. rewrite posted_insert.
  destruct (decide (t = tg)) as [->|]; [rewrite He|]; naive_solver.
Qed.

Lemma post_all id ts m :
  sorted_map m → sorted_map (foldr (post id) m ts) ∧
  ∀ t i, i ∈ posted (foldr (post id) m ts) t ↔ (t ∈ ts ∧ i = id) ∨ i ∈ posted m t.
Proof.
  intros Hm. induction ts as [|tg ts [Hs IH]]; simpl.
  { split; [done|]. intros t i. set_solver. }
  destruct (post_spec id tg _ Hs) as [Hs' He]. split; [done|]. intros t i.
  rewrite He, IH, elem_of_cons. tauto.
Qed.

Lemma without_spec id l :
  strictly_sorted l →
  let l' := match binary_search l id with Found pos => vec_remove pos l | Absent _ => l end in
  strictly_sorted l' ∧ ∀ i, i ∈ l' ↔ i ∈ l ∧ i ≠ id.
Proof.
  intros Hs. simpl. pose proof (binary_search_spec l id Hs) as Hb.
  destruct (binary_search l id) as [p|p] eqn:E.
  - split; [by apply vec_remove_sorted|]. intros i. by apply elem_of_vec_remove.
  - split; [done|]. intros i. split; [|tauto]. intros Hi. split; [done|]. intros ->.
    apply (binary_search_found l id Hs) in Hi. by rewrite E in Hi.
Qed.

Lemma remove_id_spec id tg m :
  sorted_map m → sorted_map (remove_id tg id m) ∧
  ∀ t i, i ∈ posted (remove_id tg id m) t ↔ i ∈ posted m t ∧ ¬ (t = tg ∧ i = id).
Proof.
  intros Hm. unfold remove_id. destruct (m !! tg) as [l|] eqn:El.
  2: { split; [done|]. intros t i. split; [|tauto]. intros Hi. split; [done|]. intros [-> ->].
       unfold posted in Hi. rewrite El in Hi. by apply not_elem_of_nil in Hi. }
  assert (Ep : posted m tg = l) by (unfold posted; by rewrite El).
  pose proof (without_spec id l (Hm _ _ El)) as Hw. simpl in Hw.
  destruct (binary_search l id) as [p|p].
  2: { split; [done|]. intros t i. split; [|tauto]. intros Hi. split; [done|]. intros [-> ->].
       rewrite Ep in Hi. apply Hw in Hi. tauto. }
  destruct Hw as [Hs He]. destruct (vec_remove p l) as [|x k] eqn:Ev.
  - split; [intros t l' [_ H]%lookup_delete_Some; by eapply Hm|]. intros t i. rewrite posted_delete.
    destruct (decide (t = tg)) as [->|]; [rewrite Ep, He|]; naive_solver.
  - split; [by apply sorted_map_insert|]. intros t i. rewrite posted_insert.
    destruct (decide (t = tg)) as [->|]; [rewrite Ep, He|]; naive_solver.
Qed.

Lemma remove_all id ts m :
  sorted_map m → sorted_map (foldr (λ tg, remove_id tg id) m ts) ∧
  ∀ t i, i ∈ posted (foldr (λ tg, remove_id tg id) m ts) t ↔
    i ∈ posted m t ∧ ¬ (t ∈ ts ∧ i = id).
Proof.
  intros Hm. induction ts as [|tg ts [Hs IH]]; simpl.
  { split; [done|]. intros t i. set_solver. }
  destruct (remove_id_spec id tg _ Hs) as [Hs' He]. split; [done|]. intros t i.
  rewrite He, IH, elem_of_cons. tauto.
Qed.

Lemma retain_spec id m :
  sorted_map m → sorted_map (omap (retain_without id) m) ∧
  ∀ t i, i ∈ posted (omap (retain_without id) m) t ↔ i ∈ posted m t ∧ i ≠ id.
Proof.
  intros Hm. split.
  - intros t l (l0 & Hr & H0)%lookup_omap_Some. unfold retain_without in Hr.
    destruct (without_spec id l0 (Hm _ _ H0)) as [Hs _]. cases_in Hr.
  - intros t i. unfold posted. rewrite lookup_omap. destruct (m !! t) as [l|] eqn:El; simpl; [|set_solver].
    destruct (without_spec id l (Hm _ _ El)) as [_ He]. unfold retain_without.
    destruct (match binary_search l id with Found _ => _ | Absent _ => _ end); simpl; apply He.
Qed.

(** ** The invariant *)

Record index_wf (idx : TrigramIndex) : Prop := {
  wf_sorted : sorted_map (tg_map idx);
  wf_bij : ∀ p i, path_to_id idx !! p = Some i ↔ id_to_path idx !! i = Some p;
  wf_bound : ∀ i p, id_to_path idx !! i = Some p → (i < next_id idx)%N;
  wf_known : ∀ t i, i ∈ posted (tg_map idx) t → is_Some (id_to_path idx !! i);
}.

(** The index of the paths of [docs] other than [path], whose own id, if it has one, is
    on no list: the state in which [insert_file] is called. *)
Record Cleared (path : Path) (idx : TrigramIndex) (docs : Files) : Prop := {
  cl_wf : index_wf idx;
  cl_paths : ∀ p, p ≠ path → is_Some (path_to_id idx !! p) ↔ is_Some (docs !! p);
  cl_posted : ∀ p i c t, p ≠ path → id_to_path idx !! i = Some p → docs !! p = Some c →
    i ∈ posted (tg_map idx) t ↔ t ∈ trigrams_of c;
  cl_clear : ∀ i t, id_to_path idx !! i = Some path → i ∉ posted (tg_map idx) t;
}.

Record Faithful (idx : TrigramIndex) (docs : Files) : Prop := {
  ff_wf : index_wf idx;
  ff_paths : ∀ p, is_Some (path_to_id idx !! p) ↔ is_Some (docs !! p);
  ff_posted : ∀ p i c t, id_to_path idx !! i = Some p → docs !! p = Some c →
    i ∈ posted (tg_map idx) t ↔ t ∈ trigrams_of c;
}.

Definition room (idx : TrigramIndex) : Prop := (next_id idx + 1 < u64_modulus)%N.

Lemma wf_set_map idx m :
  index_wf idx → sorted_map m →
  (∀ t i, i ∈ posted m t → is_Some (id_to_path idx !! i)) → index_wf (set_map idx m).
Proof. intros [] ??. by constructor. Qed.

Lemma wf_fresh idx : index_wf idx → id_to_path idx !! next_id idx = None.
Proof.
  intros Hwf. destruct (id_to_path idx !! next_id idx) as [p|] eqn:E; [|done].
  pose proof (wf_bound _ Hwf _ _ E). lia.
Qed.

(** [get_or_alloc_id] keeps the tables inverse to each other and touches no list. *)
Lemma get_or_alloc_id_spec path idx :
  index_wf idx → room idx →
  let '(i, idx') := get_or_alloc_id path idx in
  index_wf idx' ∧ tg_map idx' = tg_map idx ∧
  id_to_path idx' = <[i := path]> (id_to_path idx) ∧
  path_to_id idx' = <[path := i]> (path_to_id idx).
Proof.
  intros Hwf Hr. unfold get_or_alloc_id. destruct (path_to_id idx !! path) as [i|] eqn:E.
  - split_and!; [done|done| |]; symmetry; apply insert_id; [by apply (wf_bij _ Hwf)|done].
  - pose proof (wf_fresh _ Hwf) as Hf. split_and!; [|done|done|done].
    unfold room in Hr. constructor; simpl.
    + apply (wf_sorted _ Hwf).
    + intros p i. pose proof (wf_bij _ Hwf p i).
      rewrite !lookup_insert_Some. split; naive_solver.
    + intros i p. rewrite u64_add_small by lia. intros [[<- _]|[_ H]]%lookup_insert_Some; [lia|].
      pose proof (wf_bound _ Hwf _ _ H). lia.
    + intros t i Hi. apply lookup_insert_is_Some'. right. by eapply wf_known.
Qed.

Lemma insert_file_faithful path content idx docs :
  Cleared path idx docs → room idx → Faithful (insert_file path content idx) (<[path := content]> docs).
Proof.
  intros Hc Hr. unfold insert_file.
  pose proof (get_or_alloc_id_spec path idx (cl_wf _ _ _ Hc) Hr) as Ha.
  destruct (get_or_alloc_id path idx) as [id idx'] eqn:Eg. destruct Ha as (Hwf & Em & Ei & Ep).
  destruct (post_all id (elements (trigrams_of content)) (tg_map idx')) as [Hs He];
    [apply (wf_sorted _ Hwf)|]. setoid_rewrite elem_of_elements in He.
  assert (Hid : id_to_path idx' !! id = Some path) by (rewrite Ei; apply lookup_insert_eq).
  assert (Hother : ∀ p i, id_to_path idx' !! i = Some p → (i = id ↔ p = path)).
  { intros p i Hi. pose proof (wf_bij _ Hwf path id). pose proof (wf_bij _ Hwf p i). naive_solver. }
  assert (Hclear : ∀ t, id ∉ posted (tg_map idx) t).
  { intros t Hi. destruct (wf_known _ (cl_wf _ _ _ Hc) _ _ Hi) as [p Hp].
    destruct (decide (p = path)) as [->|Hne]; [by apply (cl_clear _ _ _ Hc _ t Hp)|].
    apply (wf_bij _ (cl_wf _ _ _ Hc)) in Hp as Hp'.
    assert (path_to_id idx' !! p = Some id) as Hq%(wf_bij _ Hwf).
    { by rewrite Ep, lookup_insert_ne by done. }
    congruence. }
  constructor; simpl.
  - apply wf_set_map; [done|done|]. intros t i [[_ ->]|Hi]%He; [by eexists|by eapply wf_known].
  - intros p. rewrite Ep. destruct (decide (p = path)) as [->|Hne].
    + rewrite !lookup_insert_eq. split; intros _; by eexists.
    + rewrite !lookup_insert_ne by done. by apply Hc.
  - intros p i c t Hi Hd. rewrite He, Em. pose proof (Hother p i Hi).
    apply lookup_insert_Some in Hd as [[<- <-]|[Hne Hd]].
    + destruct H as [_ ->]; [|done]. pose proof (Hclear t). tauto.
    + assert (i ≠ id) by naive_solver. rewrite Ei, lookup_insert_ne in Hi by done.
      rewrite (cl_posted _ _ _ Hc p i c t) by done. tauto.
Qed.

Lemma faithful_untracked_cleared path idx docs :
  Faithful idx docs → path_to_id idx !! path = None → Cleared path idx docs.
Proof.
  intros Hf Hn. constructor; [apply Hf|intros p _; apply Hf|intros p i c t _; apply Hf|].
  intros i t Hi%(wf_bij _ (ff_wf _ _ Hf)). congruence.
Qed.

Lemma remove_everywhere_wf id idx : index_wf idx → index_wf (remove_id_everywhere id idx).
Proof.
  intros Hwf. destruct (retain_spec id (tg_map idx) (wf_sorted _ Hwf)) as [Hs He].
  apply wf_set_map; [done|done|]. intros t i [Hi _]%He. by eapply wf_known.
Qed.

Lemma remove_everywhere_cleared path id idx docs :
  Faithful idx docs → path_to_id idx !! path = Some id →
  Cleared path (remove_id_everywhere id idx) docs.
Proof.
  intros Hf Hid. pose proof (ff_wf _ _ Hf) as Hwf.
  destruct (retain_spec id (tg_map idx) (wf_sorted _ Hwf)) as [Hs He].
  constructor; [by apply remove_everywhere_wf|intros p _; apply Hf| |].
  - intros p i c t Hne Hi Hd. simpl in *. rewrite He, (ff_posted _ _ Hf p i c t Hi Hd).
    split; [tauto|]. intros ?. split; [done|]. intros ->.
    apply (wf_bij _ Hwf) in Hid. congruence.
  - intros i t Hi. simpl in *. rewrite He. apply (wf_bij _ Hwf) in Hi. naive_solver.
Qed.

(** What the caller says the index last saw of [path]: nothing, or the truth. *)
Definition truthful (old : option Bytes) (docs : Files) (path : Path) : Prop :=
  old = None ∨ old = docs !! path.

Lemma tracked_doc idx docs path id :
  Faithful idx docs → path_to_id idx !! path = Some id → ∃ c, docs !! path = Some c.
Proof. intros Hf Hid. apply (ff_paths _ _ Hf). by eexists. Qed.

Lemma other_id idx path id p i :
  index_wf idx → path_to_id idx !! path = Some id → id_to_path idx !! i = Some p →
  i = id ↔ p = path.
Proof.
  intros Hwf Hid Hi. pose proof (wf_bij _ Hwf path id). pose proof (wf_bij _ Hwf p i). naive_solver.
Qed.

Lemma update_file_faithful path old content idx docs :
  Faithful idx docs → truthful old docs path → room idx →
  Faithful (update_file path old content idx) (<[path := content]> docs).
Proof.
  intros Hf Ht Hr. unfold update_file. pose proof (ff_wf _ _ Hf) as Hwf.
  destruct (path_to_id idx !! path) as [id|] eqn:Hid.
  2: { apply insert_file_faithful; [by apply faithful_untracked_cleared|done]. }
  destruct old as [old|].
  2: { apply insert_file_faithful; [by apply remove_everywhere_cleared|done]. }
  destruct Ht as [?|Ht]; [done|].
  set (gone := elements (trigrams_of old ∖ trigrams_of content)).
  set (added := elements (trigrams_of content ∖ trigrams_of old)).
  destruct (remove_all id gone (tg_map idx) (wf_sorted _ Hwf)) as [Hs1 H1].
  destruct (post_all id added _ Hs1) as [Hs2 H2].
  apply (wf_bij _ Hwf) in Hid as Hpath.
  assert (He : ∀ t i, i ∈ posted (foldr (post id) (foldr (λ tg, remove_id tg id) (tg_map idx) gone) added) t
    ↔ if decide (i = id) then t ∈ trigrams_of content else i ∈ posted (tg_map idx) t).
  { intros t i. rewrite H2, H1. unfold gone, added. rewrite !elem_of_elements, !elem_of_difference.
    destruct (decide (i = id)) as [->|]; [|tauto].
    rewrite (ff_posted _ _ Hf path id old t Hpath) by done.
    destruct (decide (t ∈ trigrams_of old)), (decide (t ∈ trigrams_of content)); tauto. }
  constructor; simpl.
  - apply wf_set_map; [done|done|]. intros t i Hi%He. destruct (decide (i = id)) as [->|]; [by eexists|].
    by eapply wf_known.
  - intros p. rewrite (ff_paths _ _ Hf p). destruct (decide (p = path)) as [->|].
    + rewrite lookup_insert_eq, <-Ht. split; intros _; by eexists.
    + by rewrite lookup_insert_ne.
  - intros p i c t Hi Hd. rewrite He. pose proof (other_id _ _ _ p i Hwf Hid Hi).
    apply lookup_insert_Some in Hd as [[<- <-]|[Hne Hd]].
    + rewrite decide_True by tauto. done.
    + rewrite decide_False by naive_solver. by apply (ff_posted _ _ Hf p).
Qed.

Lemma remove_file_faithful path content idx docs :
  Faithful idx docs → truthful content docs path →
  Faithful (remove_file path content idx) (delete path docs).
Proof.
  intros Hf Ht. unfold remove_file. pose proof (ff_wf _ _ Hf) as Hwf.
  destruct (path_to_id idx !! path) as [id|] eqn:Hid.
  2: { rewrite delete_id; [done|]. apply eq_None_not_Some. intros Hs%(ff_paths _ _ Hf).
       rewrite Hid in Hs. by destruct Hs. }
  apply (wf_bij _ Hwf) in Hid as Hpath.
  set (m := match content with
            | Some c => foldr (λ tg, remove_id tg id) (tg_map idx) (elements (trigrams_of c))
            | None => omap (retain_without id) (tg_map idx)
            end).
  assert (Hm : sorted_map m ∧ ∀ t i, i ∈ posted m t ↔ i ∈ posted (tg_map idx) t ∧ i ≠ id).
  { unfold m. destruct content as [c|]; [|apply retain_spec, Hwf].
    destruct Ht as [?|Ht]; [done|].
    destruct (remove_all id (elements (trigrams_of c)) _ (wf_sorted _ Hwf)) as [Hs He].
    split; [done|]. intros t i. rewrite He, elem_of_elements.
    pose proof (ff_posted _ _ Hf path id c t Hpath). naive_solver. }
  destruct Hm as [Hs He].
  assert (Hgoal : Faithful (mkTrigramIndex m (delete id (id_to_path idx))
                     (delete path (path_to_id idx)) (next_id idx)) (delete path docs));
    [|by destruct content].
  constructor; [constructor|..]; simpl.
  - done.
  - intros p i. rewrite !lookup_delete_Some. pose proof (wf_bij _ Hwf p i).
    pose proof (wf_bij _ Hwf path id). split; naive_solver.
  - intros i p [_ H]%lookup_delete_Some. by eapply wf_bound.
  - intros t i [Hi Hne]%He. apply (wf_known _ Hwf) in Hi as [p Hp]. exists p.
    by apply lookup_delete_Some.
  - intros p. destruct (decide (p = path)) as [->|Hne].
    + rewrite !lookup_delete_eq. split; intros [? [=]].
    + rewrite !lookup_delete_ne by done. apply Hf.
  - intros p i c t [Hne Hi]%lookup_delete_Some [_ Hd]%lookup_delete_Some. rewrite He.
    rewrite (ff_posted _ _ Hf p i c t Hi Hd). split; [tauto|]. by intros; split.
Qed.

Lemma new_faithful : Faithful trigram_new ∅.
Proof.
  constructor; [constructor|..]; simpl.
  - by intros t l ?%lookup_empty_Some.
  - intros p i. rewrite !lookup_empty. done.
  - intros i p. by rewrite lookup_empty.
  - intros t i. unfold posted. rewrite lookup_empty. by intros ?%not_elem_of_nil.
  - intros p. by rewrite !lookup_empty.
  - intros p i c t. by rewrite lookup_empty.
Qed.

(** ** A fresh build *)

Lemma alloc_all_spec order idx :
  index_wf idx → (next_id idx + N.of_nat (length order) < u64_modulus)%N → NoDup (order.*1) →
  (∀ p, p ∈ order.*1 → path_to_id idx !! p = None) →
  let idx' := alloc_all order idx in
  index_wf idx' ∧ tg_map idx' = tg_map idx ∧
  ∀ i p, id_to_path idx' !! i = Some p ↔
    id_to_path idx !! i = Some p ∨ ∃ k, order.*1 !! k = Some p ∧ i = (next_id idx + N.of_nat k)%N.
Proof.
  revert idx. induction order as [|[path c] order IH]; intros idx Hwf Hb Hnd Hn; simpl.
  { split_and!; [done|done|]. intros i p. split; [by left|]. intros [?|(k & Hk & _)]; [done|].
    by rewrite lookup_nil in Hk. }
  simpl in Hb, Hnd. apply NoDup_cons in Hnd as [Hp Hnd].
  pose proof (get_or_alloc_id_spec path idx Hwf) as Ha. unfold room in Ha.
  unfold get_or_alloc_id in *. rewrite Hn in * by apply list_elem_of_here. simpl in *.
  destruct Ha as (Hwf' & _ & _ & _); [lia|].
  destruct (IH _ Hwf') as (Hw & Hm & Hi); simpl.
  - rewrite u64_add_small by lia. lia.
  - done.
  - intros p Hin. rewrite lookup_insert_ne; [apply Hn; by right|]. naive_solver.
  - split_and!; [done|done|]. intros i p. rewrite Hi. simpl. rewrite u64_add_small by lia.
    rewrite lookup_insert_Some. pose proof (wf_fresh _ Hwf) as Hfresh. split.
    + intros [[[<- <-]|[_ ?]]|(k & Hk & ->)].
      * right. exists 0. split; [done|lia].
      * by left.
      * right. exists (S k). split; [done|lia].
    + intros [Ho|(k & Hk & ->)]; [left; right; split; [congruence|done]|].
      destruct k as [|k]; simpl in Hk; [left; left; simplify_eq; split; [lia|done]|].
      right. exists k. split; [done|lia].
Qed.

Lemma push_all id ts m t i :
  i ∈ posted (foldr (push_id id) m ts) t ↔ (t ∈ ts ∧ i = id) ∨ i ∈ posted m t.
Proof.
  induction ts as [|tg ts IH]; simpl; [set_solver|].
  unfold push_id at 1. rewrite posted_insert. destruct (decide (t = tg)) as [->|Hne].
  - fold (posted (foldr (push_id id) m ts) tg). rewrite elem_of_app, IH, !elem_of_cons, elem_of_nil.
    tauto.
  - rewrite IH, elem_of_cons. naive_solver.
Qed.

Lemma append_postings_spec n cs m t i :
  i ∈ posted (append_postings n cs m) t ↔
  i ∈ posted m t ∨ ∃ k c, cs !! k = Some c ∧ i = (n + N.of_nat k)%N ∧ t ∈ trigrams_of c.
Proof.
  revert n m. induction cs as [|c cs IH]; intros n m; simpl.
  { split; [by left|]. intros [?|(k & c & Hk & _)]; [done|]. by rewrite lookup_nil in Hk. }
  rewrite IH, push_all, elem_of_elements. split.
  - intros [[[Ht ->]|?]|(k & c' & Hk & -> & Ht)].
    + right. exists 0, c. split_and!; [done|lia|done].
    + by left.
    + right. exists (S k), c'. split_and!; [done|lia|done].
  - intros [?|(k & c' & Hk & -> & Ht)]; [tauto|]. destruct k as [|k]; simpl in Hk.
    + simplify_eq. left; left. split; [done|lia].
    + right. exists k, c'. split_and!; [done|lia|done].
Qed.

Lemma posted_fmap f m t :
  f [] = [] → posted (f <$> m) t = f (posted m t).
Proof. intros Hf. unfold posted. rewrite lookup_fmap. by destruct (m !! t). Qed.

Lemma build_from_files_faithful files order :
  order ≡ₚ map_to_list files → (N.of_nat (length order) < u64_modulus)%N →
  Faithful (build_from_files order) files.
Proof.
  intros Ho Hb. assert (Hnd : NoDup order.*1) by (rewrite Ho; apply NoDup_fst_map_to_list).
  assert (Hfile : ∀ p c, files !! p = Some c ↔ (p, c) ∈ order)
    by (intros p c; by rewrite Ho, elem_of_map_to_list).
  destruct (alloc_all_spec order trigram_new (ff_wf _ _ new_faithful)) as (Hwf & Hm & Hi);
    [simpl; lia|done|by intros|]. cbv zeta in Hwf, Hm, Hi. simpl in Hm, Hi.
  assert (Hpost : ∀ t i, i ∈ posted (tg_map (build_from_files order)) t ↔
    ∃ k c, order.*2 !! k = Some c ∧ i = N.of_nat k ∧ t ∈ trigrams_of c).
  { intros t i. unfold build_from_files. simpl. rewrite posted_fmap by done.
    rewrite (proj2 (sort_dedup_spec _)), append_postings_spec, Hm.
    unfold posted at 1. rewrite lookup_empty. simpl. setoid_rewrite N.add_0_l. set_solver. }
  assert (Hid : ∀ i p, id_to_path (alloc_all order trigram_new) !! i = Some p ↔
    ∃ k c, order !! k = Some (p, c) ∧ i = N.of_nat k).
  { intros i p. rewrite Hi, lookup_empty. setoid_rewrite list_lookup_fmap_Some.
    split; [intros [?|(k & ([? c] & ? & Hk) & ->)]; [done|]; exists k, c; simplify_eq/=; split; [done|lia]|].
    intros (k & c & Hk & ->). right. exists k. split; [by exists (p, c)|lia]. }
  constructor.
  - apply wf_set_map; [done| |].
    + intros t l (l0 & <- & _)%lookup_fmap_Some. apply sort_dedup_spec.
    + intros t i Hti. apply Hpost in Hti as (k & c & ([p c'] & ? & Hk)%list_lookup_fmap_Some & -> & _).
      exists p. apply Hid. by exists k, c'.
  - intros p. simpl. split.
    + intros [i Hp%(wf_bij _ Hwf)%Hid]. destruct Hp as (k & c & Hk & _). exists c.
      apply Hfile. by eapply list_elem_of_lookup_2.
    + intros [c (k & Hk)%Hfile%list_elem_of_lookup_1]. exists (N.of_nat k).
      apply (wf_bij _ Hwf), Hid. by exists k, c.
  - intros p i c t (k & c' & Hk & ->)%Hid Hc. rewrite Hpost. setoid_rewrite list_lookup_fmap_Some.
    assert (c' = c) as ->.
    { apply list_elem_of_lookup_2, Hfile in Hk. congruence. }
    split; [|intros Ht; exists k, c; split_and!; [by exists (p, c)|done|done]].
    intros (k' & c' & (pc & -> & Hk') & ?%Nat2N.inj & Ht). by simplify_eq/=.
Qed.

(** ** Search *)

Definition in_all (ls : list (list N)) (i : N) : Prop := Forall (λ l, i ∈ l) ls.
#[global] Instance in_all_dec ls i : Decision (in_all ls i).
Proof. unfold in_all. apply _. Defined.

(** The loop, its early return included, keeps what is on every list. *)
Lemma intersect_spec candidates ls :
  Forall strictly_sorted ls → default [] (intersect candidates ls) = filter (in_all ls) candidates.
Proof.
  intros Hs. revert candidates. induction Hs as [|l ls Hl Hls IH]; intros cs; simpl.
  { symmetry. apply filter_keep. intros x _. apply Forall_nil. done. }
  assert (E : filter (in_all (l :: ls)) cs
    = filter (in_all ls) (filter (λ id, is_found (binary_search l id) = true) cs)).
  { rewrite list_filter_filter. apply list_filter_iff. intros i. unfold in_all.
    rewrite Forall_cons, binary_search_found by done. tauto. }
  rewrite E. destruct (filter (λ id, is_found (binary_search l id) = true) cs) as [|x k]; [done|].
  apply IH.
Qed.

(** The candidates of [search], before the byte check. *)
Definition candidates (idx : TrigramIndex) (query_lower : Bytes) : list N :=
  match sort_by_len (omap (λ t, tg_map idx !! t) (elements (extract_trigrams query_lower))) with
  | [] => []
  | shortest :: rest => default [] (intersect shortest rest)
  end.

Lemma search_long idx query files order :
  3 ≤ length query →
  search idx query files order =
    omap (verify_candidate idx files (lowercase query)) (candidates idx (lowercase query)).
Proof.
  intros Hlen. unfold search, candidates. destruct query as [|b query]; [simpl in Hlen; lia|].
  cbv zeta. rewrite length_lowercase. destruct (Nat.ltb_spec (length (b :: query)) 3); [lia|].
  destruct (sort_by_len _) as [|shortest rest]; [done|]. by destruct (intersect shortest rest).
Qed.

Lemma search_candidates idx query_lower i :
  sorted_map (tg_map idx) →
  i ∈ candidates idx query_lower ↔
    (∃ t l, t ∈ extract_trigrams query_lower ∧ tg_map idx !! t = Some l) ∧
    (∀ t l, t ∈ extract_trigrams query_lower → tg_map idx !! t = Some l → i ∈ l).
Proof.
  intros Hs. unfold candidates.
  set (ls := omap (λ t, tg_map idx !! t) (elements (extract_trigrams query_lower))).
  assert (Hls : ∀ l, l ∈ ls ↔ ∃ t, t ∈ extract_trigrams query_lower ∧ tg_map idx !! t = Some l).
  { intros l. unfold ls. rewrite list_elem_of_omap. by setoid_rewrite elem_of_elements. }
  pose proof (sort_by_Permutation no_longer ls) as Hp. unfold sort_by_len.
  destruct (sort_by no_longer ls) as [|l0 rest].
  { split; [by intros ?%not_elem_of_nil|]. intros [(t & l & Ht & Hl) _]. exfalso.
    assert (l ∈ ls) as Hin by (apply Hls; eauto). rewrite <-Hp in Hin. by apply not_elem_of_nil in Hin. }
  assert (Hin : ∀ l, l ∈ ls ↔ l = l0 ∨ l ∈ rest) by (intros l; by rewrite <-Hp, elem_of_cons).
  rewrite intersect_spec.
  2: { apply Forall_forall. intros l Hl. assert (l ∈ ls) as (t & _ & ?)%Hls by (apply Hin; by right).
       by eapply Hs. }
  rewrite list_elem_of_filter. unfold in_all. rewrite Forall_forall. split.
  - intros [Hr H0]. split.
    + assert (l0 ∈ ls) as (t & ? & ?)%Hls by (apply Hin; by left). eauto.
    + intros t l Ht Hl. assert (l ∈ ls) as [->|?]%Hin by (apply Hls; eauto); auto.
  - intros [_ H]. split.
    + intros l Hl. assert (l ∈ ls) as (t & ? & ?)%Hls by (apply Hin; by right). eauto.
    + assert (l0 ∈ ls) as (t & ? & ?)%Hls by (apply Hin; by left). eauto.
Qed.

Lemma candidates_nodup idx query_lower : sorted_map (tg_map idx) → NoDup (candidates idx query_lower).
Proof.
  intros Hs. unfold candidates.
  set (ls := omap (λ t, tg_map idx !! t) (elements (extract_trigrams query_lower))).
  assert (Hls : Forall strictly_sorted (sort_by_len ls)).
  { unfold sort_by_len. rewrite (sort_by_Permutation no_longer ls). apply Forall_forall.
    intros l (t & _ & Hl)%list_elem_of_omap. by eapply Hs. }
  destruct (sort_by_len ls) as [|l0 rest]; [constructor|]. apply Forall_cons in Hls as [H0 Hr].
  rewrite intersect_spec by done. by apply NoDup_filter, strictly_sorted_nodup.
Qed.

Lemma elem_of_scan q order p :
  p ∈ linear_scan_lower q order ↔ ∃ c, (p, c) ∈ order ∧ contains_bytes_ci c q = true.
Proof.
  unfold linear_scan_lower. rewrite list_elem_of_omap. split.
  - intros ([p' c] & Hin & H). destruct (contains_bytes_ci c q) eqn:E; simplify_eq. eauto.
  - intros (c & Hin & E). exists (p, c). by rewrite E.
Qed.

Lemma omap_nodup {A B} (f : A → option B) l :
  (∀ x y z, x ∈ l → y ∈ l → f x = Some z → f y = Some z → x = y) → NoDup l → NoDup (omap f l).
Proof.
  intros Hinj Hnd. induction Hnd as [|x l Hx Hnd IH]; simpl; [constructor|].
  destruct (f x) as [z|] eqn:E; [|apply IH; intros; apply (Hinj _ _ z); by try right].
  constructor; [|apply IH; intros; by eapply Hinj; [right|right|..]].
  intros (y & Hy & Hz)%list_elem_of_omap. apply Hx.
  rewrite (Hinj x y z); [done|apply list_elem_of_here|by right|done|done].
Qed.

Lemma scan_nodup q order : NoDup (order.*1) → NoDup (linear_scan_lower q order).
Proof.
  intros Hnd. apply omap_nodup; [|by eapply NoDup_fmap_1].
  intros [p c] [p' c'] z H1 H2 Hz Hz'.
  destruct (contains_bytes_ci c q), (contains_bytes_ci c' q); simplify_eq.
  apply (elem_of_list_to_map (M := gmap Path)) in H1, H2; [|done..]. congruence.
Qed.

Lemma verify_candidate_Some idx files q i p :
  verify_candidate idx files q i = Some p ↔
  id_to_path idx !! i = Some p ∧ ∃ c, files !! p = Some c ∧ contains_bytes_ci c q = true.
Proof.
  unfold verify_candidate. split.
  - intros H. destruct (id_to_path idx !! i) as [p'|]; simpl in H; [|done].
    destruct (files !! p') as [c|] eqn:E; simpl in H; [|done].
    destruct (contains_bytes_ci c q) eqn:Ec; simplify_eq. eauto.
  - intros (-> & c & Hc & Hq). simpl. rewrite Hc. simpl. by rewrite Hq.
Qed.

Lemma verified_nodup idx files q :
  index_wf idx → NoDup (omap (verify_candidate idx files q) (candidates idx q)).
Proof.
  intros Hwf. apply omap_nodup; [|apply candidates_nodup, Hwf]. intros i j p _ _.
  rewrite !verify_candidate_Some. intros [Hi%(wf_bij _ Hwf) _] [Hj%(wf_bij _ Hwf) _]. congruence.
Qed.

Lemma search_faithful idx query files order :
  Faithful idx files → order ≡ₚ map_to_list files → query ≠ [] →
  search idx query files order ≡ₚ linear_scan_lower (lowercase query) order.
Proof.
  intros Hf Ho Hq. pose proof (ff_wf _ _ Hf) as Hwf.
  destruct (decide (3 ≤ length query)) as [Hlen|Hlen].
  2: { unfold search. destruct query as [|b query]; [done|]. cbv zeta. rewrite length_lowercase.
       by destruct (Nat.ltb_spec (length (b :: query)) 3); [|lia]. }
  rewrite search_long by done. apply NoDup_Permutation.
  - by apply verified_nodup.
  - apply scan_nodup. rewrite Ho. apply NoDup_fst_map_to_list.
  - intros p. rewrite elem_of_scan, list_elem_of_omap. setoid_rewrite verify_candidate_Some.
    setoid_rewrite Ho. setoid_rewrite elem_of_map_to_list. split; [naive_solver|].
    intros (c & Hc & Hm). destruct (proj2 (ff_paths _ _ Hf p)) as [i Hi]; [by eexists|].
    apply (wf_bij _ Hwf) in Hi. exists i. split; [|eauto].
    pose proof Hm as Hsub. apply contains_bytes_ci_spec, occurs_trigrams in Hsub.
    assert (Hin : ∀ t, t ∈ extract_trigrams (lowercase query) → i ∈ posted (tg_map idx) t).
    { intros t Ht. by apply (ff_posted _ _ Hf p i c t Hi Hc), Hsub. }
    apply search_candidates; [apply Hwf|]. split.
    + destruct query as [|a [|b [|d query]]]; simpl in Hlen; try lia.
      set (t := (to_ascii_lowercase a, to_ascii_lowercase b, to_ascii_lowercase d)).
      assert (t ∈ extract_trigrams (lowercase (a :: b :: d :: query))) as Ht
        by (rewrite elem_of_extract; apply list_elem_of_here).
      exists t, (posted (tg_map idx) t). split; [done|]. specialize (Hin t Ht). unfold posted in *.
      destruct (tg_map idx !! t); [done|]. by apply not_elem_of_nil in Hin.
    + intros t l Ht Hl. specialize (Hin t Ht). unfold posted in Hin. by rewrite Hl in Hin.
Qed.

(** [search] on an index that describes the files finds exactly the files that a
    linear scan of their bytes finds, each once: the posting lists, their intersection
    from the shortest, the binary searches and the early returns lose and add nothing,
    and neither does a query shorter than a trigram or in another case. *)
Theorem search_equals_scan idx query files order :
  Faithful idx files → order ≡ₚ map_to_list files → query ≠ [] →
  NoDup (search idx query files order) ∧
  ∀ path, path ∈ search idx query files order ↔
    ∃ content, files !! path = Some content ∧ occurs_ci content query.
Proof.
  intros Hf Ho Hq. pose proof (search_faithful idx query files order Hf Ho Hq) as Hp. split.
  - rewrite Hp. apply scan_nodup. rewrite Ho. apply NoDup_fst_map_to_list.
  - intros p. rewrite Hp, elem_of_scan. setoid_rewrite Ho. setoid_rewrite elem_of_map_to_list.
    by setoid_rewrite contains_bytes_ci_spec.
Qed.

(** ** Packed keys *)

Lemma land_low_byte (a x : N) : (a < 256)%N → N.land (N.lor a (N.shiftl x 8)) 255 = a.
Proof.
  intros Ha. change 255%N with (N.ones 8). rewrite N.land_ones. change (2 ^ 8)%N with 256%N.
  assert (E : N.lor a (N.shiftl x 8) = (a + x * 256)%N).
  { rewrite N.shiftl_mul_pow2. change (2 ^ 8)%N with 256%N. symmetry.
    rewrite <-N.lxor_lor; [apply N.add_nocarry_lxor|]; apply N.bits_inj; intros i;
      rewrite N.land_spec, N.bits_0; change 256%N with (2 ^ 8)%N;
      (destruct (decide (i < 8)%N) as [Hi|Hi];
       [rewrite N.mul_pow2_bits_low by done; apply andb_false_r|]);
      (destruct (decide (a = 0)%N) as [->|Hz]; [by rewrite N.bits_0|]);
      rewrite N.bits_above_log2; [done| |done|];
      apply N.lt_le_trans with 8%N; try lia; apply N.log2_lt_pow2; change (2 ^ 8)%N with 256%N; lia. }
  rewrite E, N.Div0.mod_add. by apply N.mod_small.
Qed.

Lemma shiftr_high_bytes (a x : N) : (a < 256)%N → N.shiftr (N.lor a (N.shiftl x 8)) 8 = x.
Proof.
  intros Ha. rewrite N.shiftr_lor, N.shiftr_shiftl_l by done. rewrite N.sub_diag, N.shiftl_0_r.
  rewrite N.shiftr_div_pow2. change (2 ^ 8)%N with 256%N. by rewrite N.div_small.
Qed.

Lemma byte_lt_256 b : (Byte.to_N b < 256)%N.
Proof. pose proof (Byte.to_N_bounded b). lia. Qed.

Lemma as_u8_low b x : as_u8 (N.lor (Byte.to_N b) (N.shiftl x 8)) = Some b.
Proof. unfold as_u8. rewrite land_low_byte by apply byte_lt_256. apply Byte.of_to_N. Qed.

Lemma pack_trigram_nested a b c :
  pack_trigram (a, b, c) =
  N.lor (Byte.to_N a) (N.shiftl (N.lor (Byte.to_N b) (N.shiftl (N.lor (Byte.to_N c) (N.shiftl 0 8)) 8)) 8).
Proof.
  unfold pack_trigram. rewrite N.shiftl_0_l, N.lor_0_r, N.shiftl_lor, N.shiftl_shiftl.
  by rewrite N.lor_assoc.
Qed.

Lemma pack_trigram_bound t : (pack_trigram t < 2 ^ 24)%N.
Proof.
  destruct t as [[a b] c]. unfold pack_trigram.
  assert (H : ∀ x k, (x < 256 → k ≤ 16 → N.log2 (N.shiftl x k) < 24 ∨ x = 0)%N).
  { intros x k Hx Hk. destruct (decide (x = 0)%N) as [->|Hz]; [by right|left].
    rewrite N.log2_shiftl by done.
    assert (N.log2 x < 8)%N by (apply N.log2_lt_pow2; change (2 ^ 8)%N with 256%N; lia). lia. }
  pose proof (byte_lt_256 a) as Ha. pose proof (byte_lt_256 b) as Hb. pose proof (byte_lt_256 c) as Hc.
  set (n := N.lor _ _). destruct (decide (n = 0)%N) as [->|Hn]; [done|].
  apply N.log2_lt_pow2; [lia|]. unfold n. rewrite !N.log2_lor.
  pose proof (H _ 0%N Ha) as Ha'. rewrite N.shiftl_0_r in Ha'.
  specialize (H _ 8%N Hb) as Hb'. specialize (H _ 16%N Hc) as Hc'.
  assert (Hz : ∀ x k : N, x = 0%N → N.log2 (N.shiftl x k) = 0%N)
    by (intros x k ->; by rewrite N.shiftl_0_l).
  assert (N.log2 (Byte.to_N a) < 24)%N by (destruct Ha' as [?|Ea]; [lia|done|by rewrite Ea]).
  assert (N.log2 (N.shiftl (Byte.to_N b) 8) < 24)%N
    by (destruct Hb' as [?|Eb]; [lia|done|by rewrite Hz]).
  assert (N.log2 (N.shiftl (Byte.to_N c) 16) < 24)%N
    by (destruct Hc' as [?|Ec]; [lia|done|by rewrite Hz]).
  lia.
Qed.

Lemma unpack_pack t : unpack_trigram (pack_trigram t) = Some t.
Proof.
  unfold unpack_trigram. pose proof (pack_trigram_bound t) as Hb.
  destruct (N.ltb_spec 0xFFFFFF (pack_trigram t)) as [Hlt|_]; [exfalso; change (2 ^ 24)%N with 16777216%N in Hb; lia|].
  destruct t as [[a b] c]. rewrite pack_trigram_nested. 
  change 16%N with (8 + 8)%N. rewrite <-N.shiftr_shiftr.
  rewrite !shiftr_high_bytes by apply byte_lt_256. by rewrite !as_u8_low.
Qed.

Lemma pack_inj : Inj (=) (=) pack_trigram.
Proof. intros t t' E. apply (f_equal unpack_trigram) in E. rewrite !unpack_pack in E. by simplify_eq. Qed.

(** ** Reading a persisted index *)

Lemma load_paths_spec bound ps m1 m2 m1' m2' :
  load_paths bound ps m1 m2 = Some (m1', m2') →
  (∀ i p, m1' !! i = Some p ↔ m1 !! i = Some p ∨ (i, p) ∈ ps) ∧
  (∀ p i, m2' !! p = Some i ↔ m2 !! p = Some i ∨ (i, p) ∈ ps) ∧
  (∀ i p, (i, p) ∈ ps → (i < bound)%N).
Proof.
  revert m1 m2. induction ps as [|[j q] ps IH]; intros m1 m2 H; simpl in H.
  { simplify_eq. split_and!; set_solver. }
  destruct (N.leb_spec bound j) as [|Hj]; [done|]. case_bool_decide as Hq; [done|]. case_bool_decide as Hi; [done|].
  destruct (IH _ _ H) as (H1 & H2 & H3). split_and!.
  - intros i p. rewrite H1, lookup_insert_Some, elem_of_cons.
    assert (m1 !! j = None) by by apply eq_None_not_Some. split; [naive_solver|].
    intros [Hm|[[= -> ->]|?]]; [|tauto|tauto]. left; right. split; [congruence|done].
  - intros p i. rewrite H2, lookup_insert_Some, elem_of_cons.
    assert (m2 !! q = None) by by apply eq_None_not_Some. split; [naive_solver|].
    intros [Hm|[[= -> ->]|?]]; [|tauto|tauto]. left; right. split; [congruence|done].
  - intros i p [[= -> ->]|Hin]%elem_of_cons; [done|by eapply H3].
Qed.

Lemma load_paths_accepts bound ps m1 m2 :
  (∀ i p, (i, p) ∈ ps → (i < bound)%N ∧ m1 !! i = None ∧ m2 !! p = None) →
  NoDup (ps.*1) → NoDup (ps.*2) → is_Some (load_paths bound ps m1 m2).
Proof.
  revert m1 m2. induction ps as [|[j q] ps IH]; intros m1 m2 H H1 H2; simpl; [by eexists|].
  simpl in H1, H2. apply NoDup_cons in H1 as [Hj H1], H2 as [Hq H2].
  destruct (H j q) as (Hb & E1 & E2); [apply list_elem_of_here|].
  destruct (N.leb_spec bound j); [lia|]. rewrite E1, E2. simpl.
  apply IH; [|done|done]. intros i p Hin. destruct (H i p) as (? & ? & ?); [by right|].
  apply (list_elem_of_fmap_2 fst) in Hin as Hi. apply (list_elem_of_fmap_2 snd) in Hin as Hp.
  simpl in Hi, Hp. rewrite !lookup_insert_ne by (by intros ->). done.
Qed.

Lemma unsorted_pair_spec l : unsorted_pair l = false ↔ strictly_sorted l.
Proof.
  induction l as [|a [|b l] IH]; simpl; [split; [constructor|done]|split; [repeat constructor|done]|].
  rewrite orb_false_iff, IH. split.
  - intros [Hab%N.leb_gt Hs]. constructor; [done|]. constructor; [done|].
    apply StronglySorted_inv in Hs as [_ Hb]. eapply Forall_impl; [exact Hb|]. simpl. lia.
  - intros [Hs Ha]%StronglySorted_inv. apply Forall_cons in Ha as [Hab _].
    split; [by apply N.leb_gt|done].
Qed.

Lemma unknown_id_spec (known : gmap N Path) ids :
  existsb (λ id, negb (bool_decide (is_Some (known !! id)))) ids = false ↔
  ∀ i, i ∈ ids → is_Some (known !! i).
Proof.
  rewrite <-not_true_iff_false, existsb_exists. setoid_rewrite negb_true_iff.
  setoid_rewrite bool_decide_eq_false. split.
  - intros H i Hi. destruct (decide (is_Some (known !! i))) as [|Hn]; [done|].
    exfalso. apply H. exists i. by rewrite <-list_elem_of_In.
  - intros H (i & Hi%list_elem_of_In & Hn). by apply Hn, H.
Qed.

Lemma load_postings_spec known ps m m' :
  load_postings known ps m = Some m' →
  (∀ t l, m' !! t = Some l ↔
    m !! t = Some l ∨ ∃ key, (key, l) ∈ ps ∧ unpack_trigram key = Some t) ∧
  (∀ key l, (key, l) ∈ ps → strictly_sorted l ∧ ∀ i, i ∈ l → is_Some (known !! i)).
Proof.
  revert m. induction ps as [|[k ids] ps IH]; intros m H; cbn [load_postings] in H.
  { simplify_eq. split; set_solver. }
  destruct (unpack_trigram k) as [tg|] eqn:Ek; [|done]. cbn [mbind option_bind] in H.
  destruct (unsorted_pair ids) eqn:Eu; [done|]. destruct (existsb _ ids) eqn:Ex; [done|].
  case_bool_decide as Hm; [done|]. apply unsorted_pair_spec in Eu. pose proof (proj1 (unknown_id_spec _ _) Ex).
  destruct (IH _ H) as [H1 H2]. split.
  - intros t l. rewrite H1, lookup_insert_Some. setoid_rewrite elem_of_cons.
    assert (m !! tg = None) by by apply eq_None_not_Some. split.
    + intros [[[<- <-]|[_ ?]]|(key & ? & ?)]; [right; exists k; by auto|by left|right; exists key; by auto].
    + intros [Hm'|(key & [[= -> ->]|Hin] & Hk)].
      * left; right. split; [congruence|done].
      * left; left. split; [congruence|done].
      * right. eauto.
  - intros key l [[= -> ->]|Hin]%elem_of_cons; [done|by eapply H2].
Qed.

Lemma load_postings_accepts known ps m :
  (∀ key l, (key, l) ∈ ps → strictly_sorted l ∧ (∀ i, i ∈ l → is_Some (known !! i)) ∧
     ∃ t, key = pack_trigram t ∧ m !! t = None) →
  NoDup (ps.*1) → is_Some (load_postings known ps m).
Proof.
  revert m. induction ps as [|[k ids] ps IH]; intros m H Hnd; cbn [load_postings]; [by eexists|].
  simpl in Hnd. apply NoDup_cons in Hnd as [Hk Hnd].
  destruct (H k ids) as (Hs & Hi & t & -> & Ht); [apply list_elem_of_here|].
  rewrite unpack_pack. cbn [mbind option_bind].
  rewrite (proj2 (unsorted_pair_spec _) Hs), (proj2 (unknown_id_spec _ _) Hi), Ht. simpl.
  apply IH; [|done]. intros key l Hin. destruct (H key l) as (? & ? & t' & -> & ?); [by right|].
  split_and!; [done|done|]. exists t'. split; [done|]. rewrite lookup_insert_ne; [done|].
  intros ->. apply Hk. by apply (list_elem_of_fmap_2 fst) in Hin.
Qed.

Lemma from_persisted_Some p idx :
  from_persisted p = Some idx →
  load_paths (p_next_id p) (p_paths p) ∅ ∅ = Some (id_to_path idx, path_to_id idx) ∧
  load_postings (id_to_path idx) (p_postings p) ∅ = Some (tg_map idx) ∧ next_id idx = p_next_id p.
Proof.
  unfold from_persisted. intros H. destruct (load_paths _ _ _ _) as [[m1 m2]|]; [|done].
  cbn [mbind option_bind] in H. destruct (load_postings _ _ _) as [m|] eqn:E; [|done].
  cbn [mbind option_bind] in H. by simplify_eq.
Qed.

Lemma from_persisted_wf p idx : from_persisted p = Some idx → index_wf idx.
Proof.
  intros (H1 & H2 & En)%from_persisted_Some.
  apply load_paths_spec in H1 as (Hi & Hp & Hb). apply load_postings_spec in H2 as [Hm Hk].
  setoid_rewrite lookup_empty in Hi. setoid_rewrite lookup_empty in Hp. setoid_rewrite lookup_empty in Hm.
  constructor.
  - intros t l [?|(key & Hin & _)]%Hm; [done|]. by eapply Hk.
  - intros q i. rewrite Hi, Hp. naive_solver.
  - intros i q [?|Hin]%Hi; [done|]. rewrite En. by eapply Hb.
  - intros t i Hti. unfold posted in Hti. destruct (tg_map idx !! t) as [l|] eqn:E.
    2: { by apply not_elem_of_nil in Hti. }
    apply Hm in E as [?|(key & Hin & _)]; [done|]. by eapply Hk.
Qed.

Lemma persisted_accepted idx : index_wf idx → is_Some (from_persisted (to_persisted idx)).
Proof.
  intros Hwf. unfold from_persisted. cbn [to_persisted p_next_id p_paths p_postings].
  destruct (load_paths_accepts (next_id idx) (sort_by_key (map_to_list (id_to_path idx))) ∅ ∅)
    as [[m1 m2] E].
  - intros i p. rewrite sorted_entries, elem_of_map_to_list. intros Hi.
    split; [by eapply wf_bound|by rewrite !lookup_empty].
  - rewrite sorted_entries. apply NoDup_fst_map_to_list.
  - rewrite sorted_entries. apply NoDup_fmap_2_strong; [|apply NoDup_map_to_list].
    intros [i p] [j q] Hi Hj ?. simplify_eq/=. apply elem_of_map_to_list in Hi, Hj.
    apply (wf_bij _ Hwf) in Hi, Hj. congruence.
  - rewrite E. cbn [mbind option_bind]. apply load_paths_spec in E as (Hi & _ & _).
    set (ps := _ <$> map_to_list (tg_map idx)).
    destruct (load_postings_accepts m1 (sort_by_key ps) ∅) as [m Em]; [| |rewrite Em; by eexists].
    + intros key l. rewrite sorted_entries. unfold ps.
      intros ([t ids] & [= -> ->] & Ht%elem_of_map_to_list)%list_elem_of_fmap.
      split_and!; [by eapply wf_sorted| |exists t; by rewrite lookup_empty].
      intros i Hin. assert (i ∈ posted (tg_map idx) t) as [p Hp]%(wf_known _ Hwf)
        by (unfold posted; by rewrite Ht).
      exists p. apply Hi. right. by rewrite sorted_entries, elem_of_map_to_list.
    + rewrite sorted_entries. unfold ps. rewrite <-list_fmap_compose.
      apply NoDup_fmap_2_strong; [|apply NoDup_map_to_list].
      intros [t l] [t' l'] Ht Ht' E%pack_inj. simpl in E. subst t'.
      apply elem_of_map_to_list in Ht, Ht'. congruence.
Qed.

Lemma persisted_identity idx :
  index_wf idx → from_persisted (to_persisted idx) = Some idx.
Proof.
  intros Hwf. destruct (persisted_accepted idx Hwf) as [idx' E]. rewrite E. f_equal.
  apply from_persisted_Some in E as (H1 & H2 & En).
  apply load_paths_spec in H1 as (Hi & Hp & _). apply load_postings_spec in H2 as [Hm _].
  setoid_rewrite lookup_empty in Hi. setoid_rewrite lookup_empty in Hp. setoid_rewrite lookup_empty in Hm.
  setoid_rewrite sorted_entries in Hi. setoid_rewrite sorted_entries in Hp. setoid_rewrite sorted_entries in Hm.
  setoid_rewrite elem_of_map_to_list in Hi. setoid_rewrite elem_of_map_to_list in Hp.
  destruct idx as [m i2p p2i n], idx' as [m' i2p' p2i' n']. simpl in *. subst n'. f_equal.
  - apply map_eq. intros t. apply option_eq. intros l. rewrite Hm. split.
    + intros [?|(key & ([t' ids] & [= -> ->] & Ht%elem_of_map_to_list)%list_elem_of_fmap & Hk)]; [done|].
      rewrite unpack_pack in Hk. by simplify_eq.
    + intros Ht. right. exists (pack_trigram t). split; [|apply unpack_pack].
      apply list_elem_of_fmap. exists (t, l). by rewrite elem_of_map_to_list.
  - apply map_eq. intros i. apply option_eq. intros p. rewrite Hi. naive_solver.
  - apply map_eq. intros p. apply option_eq. intros i. rewrite Hp.
    pose proof (wf_bij _ Hwf p i). simpl in *. naive_solver.
Qed.

(** ** A maintained index *)

Inductive TrigramOp :=
| OpUpdate (path : Path) (old : option Bytes) (content : Bytes)
| OpRemove (path : Path) (content : option Bytes)
| OpReload.

(** One maintenance call; [OpReload] writes the index to a snapshot and restores it. *)
Definition apply_op (op : TrigramOp) (idx : TrigramIndex) : TrigramIndex :=
  match op with
  | OpUpdate path old content => update_file path old content idx
  | OpRemove path content => remove_file path content idx
  | OpReload => default idx (from_persisted (to_persisted idx))
  end.

Definition apply_docs (op : TrigramOp) (docs : Files) : Files :=
  match op with
  | OpUpdate path _ content => <[path := content]> docs
  | OpRemove path _ => delete path docs
  | OpReload => docs
  end.

Definition op_truthful (op : TrigramOp) (docs : Files) : Prop :=
  match op with
  | OpUpdate path old _ => truthful old docs path
  | OpRemove path content => truthful content docs path
  | OpReload => True
  end.

Fixpoint ops_truthful (ops : list TrigramOp) (docs : Files) : Prop :=
  match ops with
  | [] => True
  | op :: ops => op_truthful op docs ∧ ops_truthful ops (apply_docs op docs)
  end.

Definition run_ops (ops : list TrigramOp) (idx : TrigramIndex) : TrigramIndex :=
  fold_left (λ idx op, apply_op op idx) ops idx.
Definition run_docs (ops : list TrigramOp) (docs : Files) : Files :=
  fold_left (λ docs op, apply_docs op docs) ops docs.

Lemma alloc_next path idx :
  room idx → (next_id (get_or_alloc_id path idx).2 ≤ next_id idx + 1)%N.
Proof.
  unfold room, get_or_alloc_id. intros Hr. destruct (path_to_id idx !! path); simpl; [lia|].
  rewrite u64_add_small by lia. lia.
Qed.

Lemma insert_file_next path content idx :
  room idx → (next_id (insert_file path content idx) ≤ next_id idx + 1)%N.
Proof.
  intros Hr. unfold insert_file. pose proof (alloc_next path idx Hr).
  by destruct (get_or_alloc_id path idx).
Qed.

Lemma apply_op_next op idx docs :
  room idx → Faithful idx docs → (next_id (apply_op op idx) ≤ next_id idx + 1)%N.
Proof.
  intros Hr Hf. destruct op as [path old content|path content|]; simpl.
  - unfold update_file. destruct (path_to_id idx !! path); [destruct old|]; simpl; [lia| |].
    + by apply (insert_file_next path content (remove_id_everywhere _ idx)).
    + by apply insert_file_next.
  - unfold remove_file. destruct (path_to_id idx !! path); [destruct content|]; simpl; lia.
  - destruct (from_persisted (to_persisted idx)) as [idx'|] eqn:E; simpl; [|lia].
    apply from_persisted_Some in E as (_ & _ & ->). simpl. lia.
Qed.

Lemma apply_op_faithful op idx docs :
  Faithful idx docs → op_truthful op docs → room idx →
  Faithful (apply_op op idx) (apply_docs op docs).
Proof.
  intros Hf Ht Hr. destruct op; simpl in *.
  - by apply update_file_faithful.
  - by apply remove_file_faithful.
  - rewrite persisted_identity by apply Hf. done.
Qed.

Lemma run_ops_faithful ops idx docs :
  Faithful idx docs → ops_truthful ops docs →
  (next_id idx + N.of_nat (length ops) < u64_modulus)%N →
  Faithful (run_ops ops idx) (run_docs ops docs).
Proof.
  revert idx docs. induction ops as [|op ops IH]; intros idx docs Hf Ht Hn; [done|].
  simpl in *. destruct Ht as [Ht Hts].
  assert (room idx) as Hr by (unfold room; lia).
  apply IH; [by apply apply_op_faithful|done|].
  pose proof (apply_op_next op idx docs Hr Hf). lia.
Qed.

Lemma build_next order :
  (N.of_nat (length order) < u64_modulus)%N →
  (next_id (build_from_files order) ≤ N.of_nat (length order))%N.
Proof.
  assert (H : ∀ idx, (next_id idx + N.of_nat (length order) < u64_modulus)%N →
    (next_id (alloc_all order idx) ≤ next_id idx + N.of_nat (length order))%N).
  { induction order as [|[p c] order IH]; intros idx Hb; simpl in *; [lia|].
    assert (room idx) as Hr by (unfold room; lia). pose proof (alloc_next p idx Hr).
    pose proof (IH (get_or_alloc_id p idx).2). unfold alloc_all in *. lia. }
  intros Hb. simpl. specialize (H trigram_new). simpl in H. lia.
Qed.

(** C28: the snapshot of a well-formed index is read back, to the same index and
    with the same number of postings: the
    sorting of paths and postings, the packing of a trigram into 24 bits and the checks
    of [from_persisted] lose nothing. *)
Theorem persisted_roundtrip idx :
  index_wf idx →
  from_persisted (to_persisted idx) = Some idx ∧
  persisted_posting_count (to_persisted idx) = posting_count idx.
Proof.
  intros Hwf. split; [by apply persisted_identity|].
  unfold persisted_posting_count, posting_count, to_persisted. simpl.
  rewrite sorted_entries. clear Hwf.
  induction (map_to_list (tg_map idx)) as [|[t l] k IH]; simpl; [done|]. f_equal. apply IH.
Qed.

(** C10: an index built from the files and then kept up to date by any sequence of
    updates, removals and snapshot reloads answers a query as a linear scan of the
    files as they now are, ASCII case folded: incremental maintenance never drifts from a
    fresh build. The empty query is the exception the code makes: it finds nothing.
    Conditions: the caller passes the content last indexed, or none, with an update or a
    removal, and fewer than 2^64 files are ever numbered. *)
Theorem maintained_index_search files order ops query now :
  order ≡ₚ map_to_list files → ops_truthful ops files →
  (N.of_nat (length order + length ops) < u64_modulus)%N →
  now ≡ₚ map_to_list (run_docs ops files) →
  search (run_ops ops (build_from_files order)) query (run_docs ops files) now
    ≡ₚ if decide (query = []) then [] else linear_scan_lower (lowercase query) now.
Proof.
  intros Ho Ht Hb Hn. case_decide as Hq; [by subst query|]. apply search_faithful; [|done|done].
  pose proof (build_next order). apply run_ops_faithful; [|done|lia].
  apply build_from_files_faithful; [done|lia].
Qed.

(** C40: an index that [from_persisted] accepts has what the search path assumes: strictly
    sorted posting lists of known ids, and path tables that are inverse to each other.
    Searching it reports only files that contain the query, even when the snapshot does
    not match the files, and no file twice. *)
Theorem accepted_snapshot_safe p idx query files order :
  from_persisted p = Some idx → order ≡ₚ map_to_list files →
  index_wf idx ∧ NoDup (search idx query files order) ∧
  ∀ path, path ∈ search idx query files order →
    ∃ content, files !! path = Some content ∧ occurs_ci content query.
Proof.
  intros Hwf%from_persisted_wf Ho. split; [done|].
  destruct (decide (3 ≤ length query)) as [Hlen|Hlen].
  - rewrite search_long by done. split.
    + by apply verified_nodup.
    + intros path (i & _ & (_ & c & Hc & Hm)%verify_candidate_Some)%list_elem_of_omap.
      exists c. by rewrite <-contains_bytes_ci_spec.
  - destruct query as [|b query]; [split; [constructor|by intros path ?%not_elem_of_nil]|].
    unfold search. cbv zeta. rewrite length_lowercase.
    destruct (Nat.ltb_spec (length (b :: query)) 3) as [_|]; [|lia]. split.
    + apply scan_nodup. rewrite Ho. apply NoDup_fst_map_to_list.
    + intros path. rewrite elem_of_scan. setoid_rewrite Ho. setoid_rewrite elem_of_map_to_list.
      by setoid_rewrite contains_bytes_ci_spec.
Qed.

(** The comment on the empty case says a query trigram without postings ends the search.
    Such a trigram is only skipped: the search ends when none of the trigrams has one.
    Here [bcz] is in no file and the file with [abc] is still a candidate; the byte
    check then drops it. *)
Theorem absent_trigram_is_skipped :
  let idx := build_from_files [((bs "a.rs"), bs "abcd")] in
  let query := bs "abcz" in
  (∃ t, t ∈ extract_trigrams query ∧ tg_map idx !! t = None) ∧ candidates idx query = [0%N].
Proof.
  simpl. split; [|vm_compute; reflexivity]. exists (x62, x63, x7a). split; [|vm_compute; reflexivity].
  apply elem_of_extract. simpl. right. left.
Qed.

(** ** Witnesses *)

Definition demo_order : list (Path * Bytes) :=
  [((bs "src/a.rs"), bs "fn Parse_Header()");
   ((bs "src/b.rs"), bs "let header = 1;");
   ((bs "src/c.rs"), bs "no")].
Definition demo_files : Files := list_to_map demo_order.

Lemma demo_perm : demo_order ≡ₚ map_to_list demo_files.
Proof. symmetry. apply map_to_list_to_map. apply (bool_decide_unpack _). vm_compute. done. Qed.

Lemma demo_faithful : Faithful (build_from_files demo_order) demo_files.
Proof. apply build_from_files_faithful; [apply demo_perm|done]. Qed.

Lemma search_equals_scan_witness :
  (bs "src/b.rs") ∈ search (build_from_files demo_order) (bs "HEADER ")
                        demo_files demo_order.
Proof.
  apply (search_equals_scan _ _ _ _ demo_faithful demo_perm); [done|].
  exists (bs "let header = 1;"). split; [reflexivity|].
  exists (bs "let "), (bs "= 1;"). reflexivity.
Defined.

Lemma persisted_roundtrip_witness :
  from_persisted (to_persisted (build_from_files demo_order)) = Some (build_from_files demo_order).
Proof. apply (persisted_roundtrip _ (ff_wf _ _ demo_faithful)). Defined.

Lemma maintained_index_search_witness :
  let ops := [OpUpdate (bs "src/c.rs") None (bs "Headers");
              OpUpdate (bs "src/b.rs") (Some (bs "let header = 1;"))
                (bs "let x = 1;");
              OpReload; OpRemove (bs "src/a.rs") None] in
  let now := map_to_list (run_docs ops demo_files) in
  search (run_ops ops (build_from_files demo_order)) (bs "header")
    (run_docs ops demo_files) now
  ≡ₚ linear_scan_lower (lowercase (bs "header")) now
  ∧ linear_scan_lower (lowercase (bs "header")) now = [(bs "src/c.rs")].
Proof.
  intros ops now. split; [|vm_compute; reflexivity].
  pose proof (maintained_index_search demo_files demo_order ops (bs "header") now demo_perm) as Ht.
  rewrite decide_False in Ht by done. apply Ht; [|done|done].
  split; [by left|]. split; [right; reflexivity|]. split; [exact I|]. split; [by left|exact I].
Defined.

Definition demo_snapshot : PersistedTrigramIndex :=
  mkPersisted 2 [(0%N, (bs "a")); (1%N, (bs "b"))] [(6513249%N, [0%N; 1%N])].

(** The snapshot says that [a] contains [abc]; by now only [b] does. *)
Lemma accepted_snapshot_safe_witness :
  let files := {[(bs "a") := bs "xyz";
                 (bs "b") := bs "xabcx"]} in
  is_Some (from_persisted demo_snapshot) ∧
  ∀ idx, from_persisted demo_snapshot = Some idx →
    ∀ path, path ∈ search idx (bs "abc") files (map_to_list files) →
      ∃ content, files !! path = Some content ∧ occurs_ci content (bs "abc").
Proof.
  split; [apply (bool_decide_unpack _); vm_compute; exact I|].
  intros idx E. apply (accepted_snapshot_safe demo_snapshot idx); [exact E|done].
Defined.
