(* ===== verification/LiveIndex.v ===== *)
(** * The live index (live_index/store.rs, live_index/query.rs)

    The index holds the parsed files of a repository and, beside them, what is derived
    from them: the trigram index, the reverse index from a reference name to the places
    that use it, two path indices and the manifest.  One changed file is applied
    incrementally; a reload installs everything anew.

    The invariant [coherent] says that every derived index is exactly the one its files
    determine.  The theorems: every sequence of updates, removals, reloads and
    verifications keeps it; a lookup by name returns exactly the references that bear the
    name, an alias of it, or have it as qualifier; a restored seed stays hidden until it
    is verified.

    An [Arc<IndexedFile>] is a [Row]: its address and its value.  The order in which a
    [HashMap] is walked is an argument, [order], a permutation of its entries.  The fields
    that only time, describe or configure the index are not part of the state. *)

From Stdlib Require Import Lia Strings.Byte.
From stdpp Require Import base gmap sets list strings numbers option sorting.
From S2P Require Import Prelude Slices Text Domain Classification Trigram.

#[global] Set Default Goal Selector "!".

(** ** State *)

Record ReferenceLocation := mkLocation { loc_file_path : str; loc_reference_idx : N }.

#[global] Instance ReferenceLocation_eq_dec : EqDecision ReferenceLocation.
Proof. solve_decision. Defined.

Inductive IndexLoadSource := EmptyBootstrap | FreshLoad | SnapshotRestore.

#[global] Instance IndexLoadSource_eq_dec : EqDecision IndexLoadSource.
Proof. solve_decision. Defined.

Record SnapshotVerifyReport := mkReport {
  mismatch_count : nat;
  mismatched_paths : list str;
  report_reason : option str;
  unverified : gmap str str;
  discovery_error : option str;
}.

(** A running verification is its shared progress counters, by address. *)
Inductive SnapshotVerifyState :=
| NotNeeded
| Pending
| Running (progress : N)
| Completed (report : SnapshotVerifyReport)
| VerifyFailed (report : SnapshotVerifyReport).

Record Row := mkRow { row_arc : N; row_file : IndexedFile }.

Record LiveIndex := mkLive {
  files : gmap str Row;
  is_empty : bool;
  load_source : IndexLoadSource;
  snapshot_verify_state : SnapshotVerifyState;
  reverse_index : gmap str (list ReferenceLocation);
  files_by_basename : gmap str (list str);
  files_by_dir_component : gmap str (list str);
  trigram_index : TrigramIndex;
  manifest_entries : list CatalogEntry;
}.

Definition set_verify (v : SnapshotVerifyState) (l : LiveIndex) : LiveIndex :=
  mkLive (files l) (is_empty l) (load_source l) v (reverse_index l) (files_by_basename l)
    (files_by_dir_component l) (trigram_index l) (manifest_entries l).
Definition set_manifest (m : list CatalogEntry) (l : LiveIndex) : LiveIndex :=
  mkLive (files l) (is_empty l) (load_source l) (snapshot_verify_state l) (reverse_index l) (files_by_basename l)
    (files_by_dir_component l) (trigram_index l) m.

Definition empty_live_index : LiveIndex :=
  mkLive ∅ true EmptyBootstrap NotNeeded ∅ ∅ ∅ trigram_new [].

(** ** Files from parse results *)

Record FileProcessingResult := mkParseResult {
  pr_relative_path : str;
  pr_language : LanguageId;
  pr_classification : FileClassification;
  pr_outcome : FileOutcome;
  pr_parse_diagnostic : option ParseDiagnostic;
  pr_symbols : list SymbolRecord;
  pr_byte_len : N;
  pr_content_hash : str;
  pr_references : list ReferenceRecord;
  pr_alias_map : list (str * str);
}.

Definition with_enclosing (r : ReferenceRecord) (idx : option N) : ReferenceRecord :=
  mkReference (r_name r) (r_qualified_name r) (r_kind r) (r_byte_range r) (r_line_range r)
    (match r_enclosing_symbol_index r with Some i => Some i | None => idx end).

Definition from_parse_result (result : FileProcessingResult) (content : list byte) : IndexedFile :=
  let parse_status := match pr_outcome result with
    | Processed => FileParsed
    | OutcomePartial warning => FilePartial warning
    | OutcomeFailed error => FileFailed error
    end in
  let symbol_byte_ranges := s_byte_range <$> pr_symbols result in
  let references := filter (λ r, r_byte_range r ∉ symbol_byte_ranges) (pr_references result) in
  let lines := (λ r, (r_line_range r).1) <$> references in
  let enclosing := find_enclosing_symbols (pr_symbols result) lines in
  mkIndexedFile (pr_relative_path result) (pr_language result) (pr_classification result) content
    (pr_symbols result) parse_status (pr_parse_diagnostic result) (pr_byte_len result) (pr_content_hash result)
    (zip_with with_enclosing references enclosing) (pr_alias_map result) 0.

(** ** The reverse index *)

Definition locations_of (path : str) (f : IndexedFile) : list (str * ReferenceLocation) :=
  imap (λ i r, (r_name r, mkLocation path (as_u32 i))) (f_references f).

Definition build_reverse_index_from_files (order : list (str * Row)) : gmap str (list ReferenceLocation) :=
  group (order ≫= λ e, locations_of e.1 (row_file e.2)).

Definition drop_locations (path : str) (rev : gmap str (list ReferenceLocation)) (name : str) :
    gmap str (list ReferenceLocation) :=
  match rev !! name with
  | Some locs =>
      let locs := filter (λ loc, loc_file_path loc ≠ path) locs in
      if decide (locs = []) then delete name rev else <[name := locs]> rev
  | None => rev
  end.

Definition remove_locations (path : str) (names : list str) (rev : gmap str (list ReferenceLocation)) :
    gmap str (list ReferenceLocation) := fold_left (drop_locations path) names rev.

Definition insert_locations (path : str) (f : IndexedFile) (rev : gmap str (list ReferenceLocation)) :
    gmap str (list ReferenceLocation) := fold_left push_entry (locations_of path f) rev.

Definition reference_names (f : IndexedFile) : list str := r_name <$> f_references f.

(** ** The path indices *)

Definition basename_key (path : str) : option str := lowercase <$> file_name path.

Fixpoint first_occurrences (seen l : list str) : list str :=
  match l with
  | [] => []
  | x :: l => if decide (x ∈ seen) then first_occurrences seen l else x :: first_occurrences (x :: seen) l
  end.

Definition dir_component_keys (path : str) : list str :=
  let components := filter (λ c, c ≠ []) (split_bytes is_separator path) in
  if length components <=? 1 then []
  else
    let keys := first_occurrences [] (lowercase <$> take (length components - 1) components) in
    sort_by str_le keys.

Definition insert_sorted_unique (paths : list str) (path : str) : list str :=
  match binary_search_by str_lt paths path with
  | Found _ => paths
  | Absent pos => vec_insert pos path paths
  end.

Definition remove_sorted_path (paths : list str) (path : str) : list str :=
  match binary_search_by str_lt paths path with
  | Found pos => vec_remove pos paths
  | Absent _ => paths
  end.

Definition add_key (path : str) (idx : gmap str (list str)) (key : str) : gmap str (list str) :=
  <[key := insert_sorted_unique (default [] (idx !! key)) path]> idx.

Definition drop_key (path : str) (idx : gmap str (list str)) (key : str) : gmap str (list str) :=
  match idx !! key with
  | Some paths =>
      let paths := remove_sorted_path paths path in
      if decide (paths = []) then delete key idx else <[key := paths]> idx
  | None => idx
  end.

Definition add_keys (path : str) (keys : list str) (idx : gmap str (list str)) : gmap str (list str) :=
  fold_left (add_key path) keys idx.
Definition drop_keys (path : str) (keys : list str) (idx : gmap str (list str)) : gmap str (list str) :=
  fold_left (drop_key path) keys idx.

Definition basename_keys (path : str) : list str := option_list (basename_key path).

Definition build_path_indices_from_files (order : list (str * Row)) : gmap str (list str) * gmap str (list str) :=
  (fold_left (λ idx e, add_keys e.1 (basename_keys e.1) idx) order ∅,
   fold_left (λ idx e, add_keys e.1 (dir_component_keys e.1) idx) order ∅).

(** ** Snapshot verification *)

Definition SNAPSHOT_VERIFY_MISMATCH_PATH_LIMIT : nat := 10.

Definition from_mismatched_paths (paths : list str) : SnapshotVerifyReport :=
  let paths := dedup (sort_by str_le paths) in
  mkReport (length paths) (take SNAPSHOT_VERIFY_MISMATCH_PATH_LIMIT paths) None ∅ None.

Definition report_empty : SnapshotVerifyReport := mkReport 0 [] None ∅ None.

Definition has_mismatches (r : SnapshotVerifyReport) : bool :=
  (0 <? mismatch_count r) || bool_decide (is_Some (discovery_error r)).

Definition drop_unverified (path : str) (r : SnapshotVerifyReport) : bool * SnapshotVerifyReport :=
  match unverified r !! path with
  | None => (false, r)
  | Some _ =>
      (true, mkReport (mismatch_count r - 1) (filter (λ p, p ≠ path) (mismatched_paths r)) (report_reason r)
               (delete path (unverified r)) (discovery_error r))
  end.

Definition omitted_path_count (r : SnapshotVerifyReport) : nat := mismatch_count r - length (mismatched_paths r).

Definition release_unverified (path : str) (l : LiveIndex) : bool * LiveIndex :=
  match snapshot_verify_state l with
  | Completed report =>
      let '(released, report) := drop_unverified path report in (released, set_verify (Completed report) l)
  | _ => (false, l)
  end.

Definition unverified_since_restore (l : LiveIndex) (path : str) : option str :=
  match snapshot_verify_state l with Completed report => unverified report !! path | _ => None end.

Definition mark_snapshot_verify_running (progress : N) (l : LiveIndex) : LiveIndex :=
  if decide (load_source l = SnapshotRestore) then set_verify (Running progress) l else l.

Definition mark_snapshot_verify_completed (mismatched : list str) (l : LiveIndex) : LiveIndex :=
  if decide (load_source l = SnapshotRestore) then set_verify (Completed (from_mismatched_paths mismatched)) l else l.

(** ** Reading *)

Definition get_file (l : LiveIndex) (relative_path : str) : option IndexedFile :=
  if decide (load_source l = SnapshotRestore)
  then match snapshot_verify_state l with
       | Pending | Running _ | VerifyFailed _ => None
       | _ => row_file <$> files l !! relative_path
       end
  else row_file <$> files l !! relative_path.

Definition symbols_for_file (l : LiveIndex) (relative_path : str) : list SymbolRecord :=
  match files l !! relative_path with Some row => f_symbols (row_file row) | None => [] end.

Definition capture_shared_file (l : LiveIndex) (relative_path : str) : option IndexedFile :=
  row_file <$> files l !! relative_path.

Definition find_files_by_basename (l : LiveIndex) (basename : str) : list str :=
  default [] (files_by_basename l !! lowercase basename).
Definition find_files_by_dir_component (l : LiveIndex) (component : str) : list str :=
  default [] (files_by_dir_component l !! lowercase component).

Definition tier_counts (l : LiveIndex) : nat * nat * nat :=
  let count (f : FileDisposition → bool) := length (filter (λ e, Is_true (f (ce_disposition e))) (manifest_entries l)) in
  (if decide (manifest_entries l = []) then size (files l)
   else count (λ d, match d with Indexed _ _ => true | _ => false end),
   count (λ d, match d with MetadataOnly _ | UnreadableFile _ _ | UnstableDuringRead | AbortedCircuitBreaker => true
                          | _ => false end),
   count (λ d, match d with HardSkip _ => true | _ => false end)).

(** ** The manifest *)

Definition entry_path (e : CatalogEntry) : str := scouted_catalog_path (ce_path e).

Definition remove_manifest_entry (path : str) (l : LiveIndex) : bool * LiveIndex :=
  let kept := filter (λ e, entry_path e ≠ path) (manifest_entries l) in
  (bool_decide (length kept ≠ length (manifest_entries l)), set_manifest kept l).

Definition derived_manifest_entry (l : LiveIndex) (path : str) (file : IndexedFile) : CatalogEntry :=
  let by_language := if is_code_language (f_language file) then CodeOnly else KnowledgeOnly in
  let '(catalog_path, targets) :=
    match head (filter (λ e, entry_path e = path) (manifest_entries l)) with
    | Some entry =>
        (ce_path entry, match ce_disposition entry with Indexed targets _ => targets | _ => by_language end)
    | None => (mkCatalogPath path (Some path), by_language)
    end in
  let parse_status := match f_parse_status file with
    | FileParsed => Parsed | FilePartial _ => PartialParse | FileFailed _ => ParseFailed end in
  mkCatalogEntry catalog_path (f_byte_len file) (Some (f_language file)) (f_classification file)
    (Indexed targets parse_status) (Some (f_content_hash file)).

Section Mutation.
Context `{CaseTables}.

Definition path_le (a b : CatalogEntry) : Prop := str_le (entry_path a) (entry_path b).

#[global] Instance path_le_dec : RelDecision path_le.
Proof. unfold path_le. intros a b. apply _. Defined.

(** [sort_by_cached_key]: by the path in lower case, then by the path. *)
Definition entry_le : relation CatalogEntry :=
  then_le (λ e, to_lowercase (entry_path e)) str_le path_le.

#[global] Instance entry_le_dec : RelDecision entry_le.
Proof. unfold entry_le. apply _. Defined.

Definition sort_manifest_entries (l : LiveIndex) : LiveIndex :=
  set_manifest (sort_by entry_le (manifest_entries l)) l.

Definition upsert_manifest_entry_with_sort (entry : CatalogEntry) (sort : bool) (l : LiveIndex) : LiveIndex :=
  let path := entry_path entry in
  let l := set_manifest (filter (λ e, entry_path e ≠ path) (manifest_entries l) ++ [entry]) l in
  if sort then sort_manifest_entries l else l.

(** ** Changing one file *)

(** [arc] is the address of the new [Arc].  The code then indexes [self.files[&path]],
    which holds the file just inserted. *)
Definition update_file_with_manifest (arc : N) (path : str) (file : IndexedFile) (manifest : bool) (l : LiveIndex) :
    LiveIndex :=
  let l := snd (release_unverified path l) in
  let old_row := files l !! path in
  let old_ref_names := match old_row with Some row => reference_names (row_file row) | None => [] end in
  let had_existing := bool_decide (old_ref_names ≠ [] ∨ is_Some old_row) in
  let manifest_entry := if manifest then Some (derived_manifest_entry l path file) else None in
  let l := mkLive (<[path := mkRow arc file]> (files l)) (is_empty l) (load_source l) (snapshot_verify_state l)
             (reverse_index l) (files_by_basename l) (files_by_dir_component l) (trigram_index l)
             (manifest_entries l) in
  let l := match manifest_entry with Some entry => upsert_manifest_entry_with_sort entry true l | None => l end in
  let drop keys idx := if had_existing then drop_keys path keys idx else idx in
  mkLive (files l) false (load_source l) (snapshot_verify_state l)
    (insert_locations path file (remove_locations path old_ref_names (reverse_index l)))
    (add_keys path (basename_keys path) (drop (basename_keys path) (files_by_basename l)))
    (add_keys path (dir_component_keys path) (drop (dir_component_keys path) (files_by_dir_component l)))
    (Trigram.update_file path (f_content ∘ row_file <$> old_row) (f_content file) (trigram_index l))
    (manifest_entries l).

Definition update_file (arc : N) (path : str) (file : IndexedFile) (l : LiveIndex) : LiveIndex :=
  update_file_with_manifest arc path file true l.

Definition add_file : N → str → IndexedFile → LiveIndex → LiveIndex := update_file.

Definition remove_row (path : str) (l : LiveIndex) : bool * LiveIndex :=
  match files l !! path with
  | None => (false, l)
  | Some row =>
      (true, mkLive (delete path (files l)) (is_empty l) (load_source l) (snapshot_verify_state l)
               (remove_locations path (reference_names (row_file row)) (reverse_index l))
               (drop_keys path (basename_keys path) (files_by_basename l))
               (drop_keys path (dir_component_keys path) (files_by_dir_component l))
               (Trigram.remove_file path (Some (f_content (row_file row))) (trigram_index l))
               (manifest_entries l))
  end.

Definition remove_file (path : str) (l : LiveIndex) : bool * LiveIndex :=
  let '(released, l) := release_unverified path l in
  let '(removed_file, l) := remove_row path l in
  let '(removed_manifest, l) := remove_manifest_entry path l in
  (released || removed_file || removed_manifest, l).

(** ** Resolving a verification *)

(** A row is withheld only while it is the very row that was restored. *)
Definition resolve_row (st : bool * SnapshotVerifyReport * LiveIndex) (row : str * option Row) :
    bool * SnapshotVerifyReport * LiveIndex :=
  let '(withheld, report, l) := st in
  let '(path, restored) := row in
  match files l !! path, restored with
  | None, _ => (withheld, report, l)
  | Some current, Some restored =>
      if decide (row_arc current = row_arc restored)
      then let '(removed, l) := remove_row path l in (withheld || removed, report, l)
      else (withheld, snd (drop_unverified path report), l)
  | Some _, None => (withheld, snd (drop_unverified path report), l)
  end.

Definition resolve_snapshot_verify (report : SnapshotVerifyReport) (restored_rows : list (str * option Row))
    (l : LiveIndex) : bool * LiveIndex :=
  let '(withheld, report, l) := fold_left resolve_row restored_rows (false, report, l) in
  (withheld, set_verify (Completed report) l).

(** ** Reload *)

Record DerivedIndices := mkDerived {
  di_trigram_index : TrigramIndex;
  di_reverse_index : gmap str (list ReferenceLocation);
  di_files_by_basename : gmap str (list str);
  di_files_by_dir_component : gmap str (list str);
}.

Definition contents_of (order : list (str * Row)) : list (str * list byte) :=
  prod_map id (f_content ∘ row_file) <$> order.

(** [build_from_files_cancellable], when it is not cancelled. *)
Definition derived_from_files (order : list (str * Row)) : DerivedIndices :=
  let '(by_basename, by_dir_component) := build_path_indices_from_files order in
  mkDerived (build_from_files (contents_of order)) (build_reverse_index_from_files order) by_basename by_dir_component.

Record ReloadData := mkReload {
  rd_files : gmap str Row;
  rd_manifest_entries : list CatalogEntry;
  rd_derived : DerivedIndices;
}.

Definition apply_reload_data (data : ReloadData) (l : LiveIndex) : LiveIndex :=
  mkLive (rd_files data) false FreshLoad NotNeeded (di_reverse_index (rd_derived data))
    (di_files_by_basename (rd_derived data)) (di_files_by_dir_component (rd_derived data))
    (di_trigram_index (rd_derived data)) (rd_manifest_entries data).

Definition rebuild_reverse_index (order : list (str * Row)) (l : LiveIndex) : LiveIndex :=
  mkLive (files l) (is_empty l) (load_source l) (snapshot_verify_state l) (build_reverse_index_from_files order)
    (files_by_basename l) (files_by_dir_component l) (trigram_index l) (manifest_entries l).

Definition rebuild_path_indices (order : list (str * Row)) (l : LiveIndex) : LiveIndex :=
  let '(by_basename, by_dir_component) := build_path_indices_from_files order in
  mkLive (files l) (is_empty l) (load_source l) (snapshot_verify_state l) (reverse_index l)
    by_basename by_dir_component (trigram_index l) (manifest_entries l).

End Mutation.

(** ** Derived indices

    [holds P R idx]: the map [idx] lists under every key exactly the values that [P]
    relates to it, in a list that satisfies [R], and has no empty list. *)

Section holds.
Context {V : Type} (R : list V → Prop).

Definition listed (idx : gmap str (list V)) (k : str) : list V := default [] (idx !! k).

Definition holds (P : str → V → Prop) (idx : gmap str (list V)) : Prop :=
  ∀ k, R (listed idx k) ∧ (∀ v, v ∈ listed idx k ↔ P k v) ∧ idx !! k ≠ Some [].

Lemma holds_ext P Q idx : (∀ k v, P k v ↔ Q k v) → holds P idx → holds Q idx.
Proof. intros E Hh k. destruct (Hh k) as (H1 & H2 & H3). split_and!; [done| |done]. intros v. by rewrite H2, E. Qed.

Lemma holds_empty (P : str → V → Prop) : R [] → (∀ k v, ¬ P k v) → holds P ∅.
Proof.
  intros HR Hn k. unfold listed. rewrite lookup_empty. split_and!; [done| |done].
  intros v. split; [by intros ?%elem_of_nil|]. intros Hp. by destruct (Hn k v).
Qed.

Lemma listed_insert idx k l j : listed (<[k := l]> idx) j = if decide (j = k) then l else listed idx j.
Proof. unfold listed. case_decide as E; [subst; by rewrite lookup_insert_eq|by rewrite lookup_insert_ne]. Qed.

Lemma listed_delete idx k j : listed (delete k idx) j = if decide (j = k) then [] else listed idx j.
Proof. unfold listed. case_decide as E; [subst; by rewrite lookup_delete_eq|by rewrite lookup_delete_ne]. Qed.

(** One key gets a new list, or is removed when the list is empty. *)
Definition put (k : str) (l : list V) (idx : gmap str (list V)) : gmap str (list V) :=
  if decide (l = []) then delete k idx else <[k := l]> idx.

Lemma holds_put P Q idx k l :
  holds P idx → R l → (∀ v, v ∈ l ↔ Q k v) → (∀ j v, j ≠ k → P j v ↔ Q j v) → holds Q (put k l idx).
Proof.
  intros Hh HR Hl Hj j. destruct (Hh j) as (H1 & H2 & H3). unfold put. case_decide as E.
  - rewrite listed_delete. destruct (decide (j = k)) as [->|Hne].
    + subst l. rewrite lookup_delete_eq. done.
    + rewrite lookup_delete_ne by done. split_and!; [done| |done]. intros v. by rewrite H2, Hj.
  - rewrite listed_insert. destruct (decide (j = k)) as [->|Hne].
    + rewrite lookup_insert_eq. split_and!; [done..|]. congruence.
    + rewrite lookup_insert_ne by done. split_and!; [done| |done]. intros v. by rewrite H2, Hj.
Qed.

Lemma listed_lookup idx k : idx !! k ≠ Some [] → idx !! k = if decide (listed idx k = []) then None else Some (listed idx k).
Proof. unfold listed. destruct (idx !! k) as [l|]; simpl; intros Hn; [case_decide; congruence|done]. Qed.
End holds.

Lemma holds_unique P idx jdx :
  holds (StronglySorted str_lt) P idx → holds (StronglySorted str_lt) P jdx → idx = jdx.
Proof.
  intros Hi Hj. apply map_eq. intros k. destruct (Hi k) as (S1 & E1 & N1), (Hj k) as (S2 & E2 & N2).
  rewrite (listed_lookup idx) by done. rewrite (listed_lookup jdx) by done.
  assert (listed idx k = listed jdx k) as ->; [|done].
  eapply (sorted_ext str_lt); [done|done|]. intros v. by rewrite E1, E2.
Qed.

Lemma holds_same_elements {V} (P : str → V → Prop) idx jdx k : holds NoDup P idx → holds NoDup P jdx → listed idx k ≡ₚ listed jdx k.
Proof.
  intros Hi Hj. destruct (Hi k) as (S1 & E1 & _), (Hj k) as (S2 & E2 & _).
  apply NoDup_Permutation; [done|done|]. intros v. by rewrite E1, E2.
Qed.

(** ** The path indices *)

Notation path_index := (holds (StronglySorted str_lt)).

Lemma insert_sorted_unique_spec ps path :
  StronglySorted str_lt ps →
  StronglySorted str_lt (insert_sorted_unique ps path) ∧
  ∀ p, p ∈ insert_sorted_unique ps path ↔ p = path ∨ p ∈ ps.
Proof.
  intros Hs. unfold insert_sorted_unique. pose proof (binary_search_by_spec str_lt ps path Hs) as Hb.
  destruct (binary_search_by str_lt ps path) as [i|i] eqn:E.
  - split; [done|]. intros p. apply list_elem_of_lookup_2 in Hb. naive_solver.
  - split; [by apply (vec_insert_by_sorted str_lt)|]. intros p. apply elem_of_vec_insert.
Qed.

Lemma remove_sorted_path_spec ps path :
  StronglySorted str_lt ps →
  StronglySorted str_lt (remove_sorted_path ps path) ∧
  ∀ p, p ∈ remove_sorted_path ps path ↔ p ∈ ps ∧ p ≠ path.
Proof.
  intros Hs. unfold remove_sorted_path. pose proof (binary_search_by_spec str_lt ps path Hs) as Hb.
  destruct (binary_search_by str_lt ps path) as [i|i] eqn:E.
  - split; [by apply vec_remove_by_sorted|]. intros p. by apply (elem_of_vec_remove_by str_lt).
  - split; [done|]. intros p. split; [|tauto]. intros Hp. split; [done|]. intros ->.
    apply (binary_search_by_found str_lt ps path Hs) in Hp. by rewrite E in Hp.
Qed.

Lemma add_key_holds P idx path k :
  path_index P idx → path_index (λ j p, P j p ∨ (p = path ∧ j = k)) (add_key path idx k).
Proof.
  intros Hh. destruct (Hh k) as (Hs & He & Hn). destruct (insert_sorted_unique_spec (listed idx k) path Hs) as [Hs' He'].
  replace (add_key path idx k) with (put k (insert_sorted_unique (listed idx k) path) idx).
  { eapply holds_put; [done|done| |].
    - intros p. rewrite He', He. naive_solver.
    - intros j p Hj. naive_solver. }
  unfold put, add_key. rewrite decide_False; [done|]. intros E.
  destruct (not_elem_of_nil path). rewrite <-E. apply He'. by left.
Qed.

Lemma drop_key_holds P idx path k :
  path_index P idx → path_index (λ j p, P j p ∧ ¬ (p = path ∧ j = k)) (drop_key path idx k).
Proof.
  intros Hh. destruct (Hh k) as (Hs & He & Hn). destruct (remove_sorted_path_spec (listed idx k) path Hs) as [Hs' He'].
  replace (drop_key path idx k) with (put k (remove_sorted_path (listed idx k) path) idx).
  { eapply holds_put; [done|done| |].
    - intros p. rewrite He', He. naive_solver.
    - intros j p Hj. naive_solver. }
  unfold put, drop_key, listed. destruct (idx !! k) as [ps|] eqn:E; simpl; [done|]. by rewrite delete_id.
Qed.

Lemma add_keys_holds P idx path keys :
  path_index P idx → path_index (λ j p, P j p ∨ (p = path ∧ j ∈ keys)) (add_keys path keys idx).
Proof.
  unfold add_keys. revert P idx. induction keys as [|k keys IH]; intros P idx Hh; simpl.
  - eapply holds_ext; [|done]. intros j p. rewrite elem_of_nil. tauto.
  - eapply holds_ext; [|by apply IH, add_key_holds]. intros j p. simpl. rewrite elem_of_cons. tauto.
Qed.

Lemma drop_keys_holds P idx path keys :
  path_index P idx → path_index (λ j p, P j p ∧ ¬ (p = path ∧ j ∈ keys)) (drop_keys path keys idx).
Proof.
  unfold drop_keys. revert P idx. induction keys as [|k keys IH]; intros P idx Hh; simpl.
  - eapply holds_ext; [|done]. intros j p. rewrite elem_of_nil. tauto.
  - eapply holds_ext; [|by apply IH, drop_key_holds]. intros j p. simpl. rewrite elem_of_cons. tauto.
Qed.

(** The index of the paths of a file map under the keys of each path. *)
Definition keyed_path (keys : str → list str) (fs : gmap str Row) (k p : str) : Prop :=
  is_Some (fs !! p) ∧ k ∈ keys p.

Lemma build_keys_holds keys (order : list (str * Row)) P idx :
  path_index P idx →
  path_index (λ k p, P k p ∨ (p ∈ order.*1 ∧ k ∈ keys p)) (fold_left (λ idx e, add_keys e.1 (keys e.1) idx) order idx).
Proof.
  revert P idx. induction order as [|[p row] order IH]; intros P idx Hh; simpl.
  - eapply holds_ext; [|done]. intros k q. rewrite elem_of_nil. tauto.
  - eapply holds_ext; [|by apply IH, add_keys_holds]. intros k q. simpl. rewrite elem_of_cons. naive_solver.
Qed.

Lemma elem_of_order (order : list (str * Row)) fs p :
  order ≡ₚ map_to_list fs → p ∈ order.*1 ↔ is_Some (fs !! p).
Proof.
  intros Ho. rewrite Ho, list_elem_of_fmap. split.
  - intros ([q row] & -> & Hin%elem_of_map_to_list). by eexists.
  - intros [row Hrow]. exists (p, row). split; [done|]. by apply elem_of_map_to_list.
Qed.

Lemma build_path_index_holds keys order fs :
  order ≡ₚ map_to_list fs →
  path_index (keyed_path keys fs) (fold_left (λ idx e, add_keys e.1 (keys e.1) idx) order ∅).
Proof.
  intros Ho. eapply holds_ext; [|apply build_keys_holds, (holds_empty _ (λ _ _, False)); [constructor|tauto]].
  intros k p. unfold keyed_path. rewrite (elem_of_order order fs) by done. tauto.
Qed.

Lemma insert_path_holds keys fs idx path row :
  path_index (keyed_path keys fs) idx → path_index (keyed_path keys (<[path := row]> fs)) (add_keys path (keys path) idx).
Proof.
  intros Hh. eapply holds_ext; [|by apply add_keys_holds]. intros k p. unfold keyed_path.
  destruct (decide (p = path)) as [->|Hne].
  - rewrite lookup_insert_eq. split; [|naive_solver]. intros [[_ ?]|[_ ?]]; (split; [by eexists|done]).
  - rewrite lookup_insert_ne by done. naive_solver.
Qed.

Lemma delete_path_holds keys fs idx path :
  path_index (keyed_path keys fs) idx → path_index (keyed_path keys (delete path fs)) (drop_keys path (keys path) idx).
Proof.
  intros Hh. eapply holds_ext; [|by apply drop_keys_holds]. intros k p. unfold keyed_path.
  destruct (decide (p = path)) as [->|Hne].
  - rewrite lookup_delete_eq. split; [naive_solver|]. by intros [[? ?] _].
  - rewrite lookup_delete_ne by done. naive_solver.
Qed.

(** ** The reverse index *)

Notation rev_index := (holds NoDup).

(** A reference index is a [u32]. *)
Definition small_file (f : IndexedFile) : Prop := (N.of_nat (length (f_references f)) ≤ u32_modulus)%N.
Definition small_rows (fs : gmap str Row) : Prop := map_Forall (λ _ row, small_file (row_file row)) fs.

Definition names_reference (f : IndexedFile) (i : N) (name : str) : Prop :=
  ∃ r, f_references f !! N.to_nat i = Some r ∧ r_name r = name.

Definition located (fs : gmap str Row) (name : str) (loc : ReferenceLocation) : Prop :=
  ∃ row, fs !! loc_file_path loc = Some row ∧ names_reference (row_file row) (loc_reference_idx loc) name.

Lemma as_u32_index (f : IndexedFile) i r :
  small_file f → f_references f !! i = Some r → as_u32 i = N.of_nat i.
Proof. unfold small_file, as_u32. intros Hs Hi%lookup_lt_Some. apply N.mod_small. lia. Qed.

Lemma elem_of_locations_of path f name loc :
  small_file f →
  (name, loc) ∈ locations_of path f ↔ loc_file_path loc = path ∧ names_reference f (loc_reference_idx loc) name.
Proof.
  intros Hs. unfold locations_of, names_reference. rewrite list_elem_of_lookup.
  setoid_rewrite list_lookup_imap. split.
  - intros (i & (r & Hr & E)%fmap_Some). simplify_eq. simpl. split; [done|]. exists r.
    rewrite (as_u32_index f i r) by done. by rewrite Nat2N.id.
  - destruct loc as [p i]. simpl. intros [-> (r & Hr & <-)]. exists (N.to_nat i). rewrite Hr. simpl.
    by rewrite (as_u32_index f _ r), N2Nat.id.
Qed.

Lemma locations_of_nodup path f : small_file f → NoDup (locations_of path f).
Proof.
  intros Hs. apply NoDup_alt. intros i j x. unfold locations_of. rewrite !list_lookup_imap.
  intros (r & Hr & ->)%fmap_Some (s & Hs' & E)%fmap_Some. simplify_eq.
  rewrite (as_u32_index f i r), (as_u32_index f j s) in * by done. lia.
Qed.

Lemma push_entries_holds {V} (P : str → V → Prop) idx es :
  NoDup es → (∀ k v, (k, v) ∈ es → ¬ P k v) → rev_index P idx →
  rev_index (λ k v, P k v ∨ (k, v) ∈ es) (fold_left push_entry es idx).
Proof.
  revert P idx. induction es as [|[k v] es IH]; intros P idx Hnd Hes Hh; simpl.
  { eapply holds_ext; [|done]. intros j w. rewrite elem_of_nil. tauto. }
  apply NoDup_cons in Hnd as [Hv Hnd]. destruct (Hh k) as (Hk & He & Hn).
  replace (push_entry idx (k, v)) with (put k (listed idx k ++ [v]) idx)
    by (unfold put; rewrite decide_False; [done|by destruct (listed idx k)]).
  eapply holds_ext; [|apply (IH (λ j w, P j w ∨ (j = k ∧ w = v)) (put k (listed idx k ++ [v]) idx)); [done| |]].
  - intros j w. rewrite elem_of_cons. naive_solver.
  - intros j w Hin [Hp|[-> ->]]; [|done]. by apply (Hes j w); [right|].
  - eapply holds_put; [done| | |].
    + apply NoDup_app. split_and!; [done| |apply NoDup_singleton].
      intros w Hw ->%list_elem_of_singleton. apply He in Hw. by apply (Hes k v); [left|].
    + intros w. rewrite elem_of_app, list_elem_of_singleton, He. naive_solver.
    + intros j w Hj. naive_solver.
Qed.

Lemma drop_locations_holds P rev path name :
  rev_index P rev →
  rev_index (λ n loc, P n loc ∧ ¬ (loc_file_path loc = path ∧ n = name)) (drop_locations path rev name).
Proof.
  intros Hh. destruct (Hh name) as (Hk & He & Hn).
  replace (drop_locations path rev name)
    with (put name (filter (λ loc, loc_file_path loc ≠ path) (listed rev name)) rev).
  { eapply holds_put; [done|by apply NoDup_filter| |].
    - intros loc. rewrite list_elem_of_filter, He. naive_solver.
    - intros n loc Hj. naive_solver. }
  unfold put, drop_locations, listed. destruct (rev !! name) as [locs|] eqn:E; simpl; [done|]. by rewrite delete_id.
Qed.

Lemma remove_locations_holds P rev path names :
  rev_index P rev →
  rev_index (λ n loc, P n loc ∧ ¬ (loc_file_path loc = path ∧ n ∈ names)) (remove_locations path names rev).
Proof.
  unfold remove_locations. revert P rev. induction names as [|name names IH]; intros P rev Hh; simpl.
  - eapply holds_ext; [|done]. intros n loc. rewrite elem_of_nil. tauto.
  - eapply holds_ext; [|by apply IH, drop_locations_holds]. intros n loc. simpl. rewrite elem_of_cons. tauto.
Qed.

Lemma names_reference_names f i name : names_reference f i name → name ∈ reference_names f.
Proof.
  intros (r & Hr & <-). unfold reference_names. apply list_elem_of_fmap. exists r. split; [done|].
  by eapply list_elem_of_lookup_2.
Qed.

(** Dropping the names of the row that is there clears the path; dropping none is right
    when there is no row. *)
Definition names_at (fs : gmap str Row) (path : str) : list str :=
  match fs !! path with Some row => reference_names (row_file row) | None => [] end.

Lemma clear_locations_holds fs rev path :
  rev_index (located fs) rev →
  rev_index (located (delete path fs)) (remove_locations path (names_at fs path) rev).
Proof.
  intros Hh. eapply holds_ext; [|by apply remove_locations_holds]. intros name loc. unfold located.
  destruct (decide (loc_file_path loc = path)) as [E|Hne].
  - rewrite E, lookup_delete_eq. split; [|by intros (row & ? & _)]. intros [(row & Hrow & Hname) Hnot].
    destruct Hnot. split; [done|]. unfold names_at. rewrite Hrow. by eapply names_reference_names.
  - rewrite lookup_delete_ne by done. tauto.
Qed.

Lemma insert_locations_holds fs rev path row :
  small_file (row_file row) → rev_index (located (delete path fs)) rev →
  rev_index (located (<[path := row]> fs)) (insert_locations path (row_file row) rev).
Proof.
  intros Hs Hh. unfold insert_locations.
  eapply holds_ext; [|apply (push_entries_holds (located (delete path fs)) rev); [by apply locations_of_nodup| |exact Hh]].
  - intros name loc. simpl. rewrite elem_of_locations_of by done. unfold located.
    destruct (decide (loc_file_path loc = path)) as [E|Hne].
    + rewrite E, lookup_delete_eq, lookup_insert_eq. naive_solver.
    + rewrite lookup_delete_ne, lookup_insert_ne by done. naive_solver.
  - intros name loc [E _]%elem_of_locations_of (row' & Hrow & _); [|done]. by rewrite E, lookup_delete_eq in Hrow.
Qed.

Lemma build_reverse_index_holds order fs :
  order ≡ₚ map_to_list fs → small_rows fs → rev_index (located fs) (build_reverse_index_from_files order).
Proof.
  intros Ho Hs. assert (Hnd : NoDup order.*1) by (rewrite Ho; apply NoDup_fst_map_to_list).
  assert (Hmem : ∀ p row, (p, row) ∈ order ↔ fs !! p = Some row) by (intros; by rewrite Ho, elem_of_map_to_list).
  unfold build_reverse_index_from_files, group.
  assert (Hgen : ∀ P rev, (∀ n loc, P n loc → loc_file_path loc ∉ order.*1) → rev_index P rev →
    rev_index (λ n loc, P n loc ∨ ∃ row, (loc_file_path loc, row) ∈ order ∧
                 names_reference (row_file row) (loc_reference_idx loc) n)
      (fold_left push_entry (order ≫= λ e, locations_of e.1 (row_file e.2)) rev)).
  { assert (Hsm : Forall (λ e, small_file (row_file e.2)) order).
    { apply Forall_forall. intros [p row] Hin%Hmem. by apply (Hs p row). }
    clear Ho Hmem. induction order as [|[p row] order IH]; intros P rev HP Hh; simpl in *.
    { eapply holds_ext; [|done]. intros n loc. setoid_rewrite elem_of_nil. naive_solver. }
    apply NoDup_cons in Hnd as [Hp Hnd]. apply Forall_cons in Hsm as [Hrow Hsm]. simpl in *.
    rewrite fold_left_app. eapply holds_ext; [|apply IH; [done|done| |apply push_entries_holds; [by apply locations_of_nodup| |done]]].
    - intros n loc. simpl. rewrite elem_of_locations_of by done. setoid_rewrite elem_of_cons. split.
      + intros [[?|[<- ?]]|(row' & ? & ?)]; [tauto|right; exists row; auto|right; exists row'; auto].
      + intros [?|(row' & [E|?] & ?)]; [tauto|simplify_eq; naive_solver|right; by exists row'].
    - intros n loc [Hl%HP|Hl] Hin; [by destruct Hl; right|].
      apply elem_of_locations_of in Hl as [E _]; [|done]. by rewrite E in Hin.
    - intros n loc [E _]%elem_of_locations_of Hl%HP; [|done]. destruct Hl. rewrite E. by left. }
  eapply holds_ext; [|apply (Hgen (λ _ _, False)), holds_empty; [done|constructor|tauto]].
  intros n loc. simpl. unfold located. setoid_rewrite Hmem. naive_solver.
Qed.

(** ** Coherence *)

Definition contents (fs : gmap str Row) : Trigram.Files := f_content ∘ row_file <$> fs.

Record derived_from (fs : gmap str Row) (rev : gmap str (list ReferenceLocation)) (by_basename by_dir : gmap str (list str))
    (trigrams : TrigramIndex) : Prop := {
  co_small : small_rows fs;
  co_reverse : rev_index (located fs) rev;
  co_basename : path_index (keyed_path basename_keys fs) by_basename;
  co_dir : path_index (keyed_path dir_component_keys fs) by_dir;
  co_trigram : Faithful trigrams (contents fs);
}.

Definition coherent (l : LiveIndex) : Prop :=
  derived_from (files l) (reverse_index l) (files_by_basename l) (files_by_dir_component l) (trigram_index l).

(** The parts that [coherent] reads. *)
Definition core (l : LiveIndex) :=
  (files l, reverse_index l, files_by_basename l, files_by_dir_component l, trigram_index l).

Lemma coherent_of_core l fs rev by_basename by_dir trigrams :
  core l = (fs, rev, by_basename, by_dir, trigrams) → derived_from fs rev by_basename by_dir trigrams → coherent l.
Proof. unfold core, coherent. intros E. by injection E as -> -> -> -> ->. Qed.

Lemma coherent_core l l' : core l' = core l → coherent l → coherent l'.
Proof. apply coherent_of_core. Qed.

Lemma release_core path l : core (snd (release_unverified path l)) = core l.
Proof. unfold release_unverified. destruct (snapshot_verify_state l); try done. by destruct (drop_unverified path report). Qed.

Section runs.
Context `{CaseTables}.

Lemma upsert_core entry l : core (upsert_manifest_entry_with_sort entry true l) = core l.
Proof. done. Qed.

(** What an update leaves of the parts that [coherent] reads. *)
Lemma update_core arc path file manifest l :
  core (update_file_with_manifest arc path file manifest l) =
  (<[path := mkRow arc file]> (files l),
   insert_locations path file (remove_locations path (names_at (files l) path) (reverse_index l)),
   add_keys path (basename_keys path)
     (if files l !! path then drop_keys path (basename_keys path) (files_by_basename l) else files_by_basename l),
   add_keys path (dir_component_keys path)
     (if files l !! path then drop_keys path (dir_component_keys path) (files_by_dir_component l)
      else files_by_dir_component l),
   Trigram.update_file path (f_content ∘ row_file <$> files l !! path) (f_content file) (trigram_index l)).
Proof.
  pose proof (release_core path l) as E. unfold update_file_with_manifest, names_at.
  destruct (release_unverified path l) as [released l0]. simpl in E. unfold core in E.
  injection E as E1 E2 E3 E4 E5. cbn -[upsert_manifest_entry_with_sort]. rewrite <-E1, <-E2, <-E3, <-E4, <-E5. clear E1 E2 E3 E4 E5.
  assert (Hb : ∀ o : option Row, bool_decide ((match o with Some row => reference_names (row_file row) | None => [] end) ≠ [] ∨ is_Some o)
    = if o then true else false).
  { intros [row|]; [apply bool_decide_eq_true; right; by eexists|]. apply bool_decide_eq_false. intros [?|[? ?]]; done. }
  rewrite Hb. by destruct manifest, (files l0 !! path).
Qed.

Lemma drop_if_there keys fs idx path :
  path_index (keyed_path keys fs) idx →
  path_index (keyed_path keys (delete path fs)) (if fs !! path then drop_keys path (keys path) idx else idx).
Proof.
  intros Hh. destruct (fs !! path) as [row|] eqn:E; [by apply delete_path_holds|]. by rewrite delete_id.
Qed.

Lemma update_coherent arc path file manifest l :
  coherent l → small_file file → room (trigram_index l) →
  coherent (update_file_with_manifest arc path file manifest l).
Proof.
  intros [Hs Hr Hb Hd Ht] Hf Hroom. eapply coherent_of_core; [apply update_core|]. constructor.
  - by apply map_Forall_insert_2.
  - apply (insert_locations_holds (files l) _ path (mkRow arc file)); [done|]. by apply clear_locations_holds.
  - rewrite <-insert_delete_eq. by apply insert_path_holds, drop_if_there.
  - rewrite <-insert_delete_eq. by apply insert_path_holds, drop_if_there.
  - unfold contents. rewrite fmap_insert. apply update_file_faithful; [done| |done].
    right. by rewrite lookup_fmap.
Qed.

Lemma remove_row_core path l :
  core (snd (remove_row path l)) =
  match files l !! path with
  | None => core l
  | Some row =>
      (delete path (files l), remove_locations path (reference_names (row_file row)) (reverse_index l),
       drop_keys path (basename_keys path) (files_by_basename l),
       drop_keys path (dir_component_keys path) (files_by_dir_component l),
       Trigram.remove_file path (Some (f_content (row_file row))) (trigram_index l))
  end.
Proof. unfold remove_row. by destruct (files l !! path). Qed.

Lemma remove_row_files path l : files (snd (remove_row path l)) = delete path (files l).
Proof. unfold remove_row. destruct (files l !! path) eqn:E; simpl; [done|]. by rewrite delete_id. Qed.

Lemma remove_row_coherent path l : coherent l → coherent (snd (remove_row path l)).
Proof.
  intros Hc. pose proof (remove_row_core path l) as E. destruct (files l !! path) as [row|] eqn:Erow;
    [|by eapply coherent_core]. destruct Hc as [Hs Hr Hb Hd Ht]. eapply coherent_of_core; [exact E|]. constructor.
  - by apply map_Forall_delete.
  - pose proof (clear_locations_holds _ _ path Hr) as Hcl. unfold names_at in Hcl. by rewrite Erow in Hcl.
  - by apply delete_path_holds.
  - by apply delete_path_holds.
  - unfold contents. rewrite fmap_delete. apply remove_file_faithful; [done|]. right. by rewrite lookup_fmap, Erow.
Qed.

Lemma remove_file_core path l : core (snd (remove_file path l)) = core (snd (remove_row path l)).
Proof.
  unfold remove_file. pose proof (release_core path l) as E. destruct (release_unverified path l) as [b l0].
  simpl in E. pose proof (remove_row_core path l0) as E1. pose proof (remove_row_core path l) as E2.
  destruct (remove_row path l0) as [b1 l1]. simpl in *.
  change (core l1 = core (snd (remove_row path l))). rewrite E1, E2. unfold core in *. by injection E as -> -> -> -> ->.
Qed.

(** ** Sequences of operations *)

Inductive IndexOp :=
| OpUpdate (arc : N) (path : str) (file : IndexedFile) (manifest : bool)
| OpRemove (path : str)
| OpVerifying (progress : N)
| OpVerified (mismatched : list str)
| OpResolve (report : SnapshotVerifyReport) (restored_rows : list (str * option Row))
| OpReload (order : list (str * Row)) (fs : gmap str Row) (entries : list CatalogEntry).

Definition apply_op (op : IndexOp) (l : LiveIndex) : LiveIndex :=
  match op with
  | OpUpdate arc path file manifest => update_file_with_manifest arc path file manifest l
  | OpRemove path => snd (remove_file path l)
  | OpVerifying progress => mark_snapshot_verify_running progress l
  | OpVerified mismatched => mark_snapshot_verify_completed mismatched l
  | OpResolve report restored_rows => snd (resolve_snapshot_verify report restored_rows l)
  | OpReload order fs entries => apply_reload_data (mkReload fs entries (derived_from_files order)) l
  end.

(** What is asked of the caller: files of at most 2^32 references, and reload data whose
    indices were built by walking its own files. *)
Definition op_ok (op : IndexOp) : Prop :=
  match op with
  | OpUpdate _ _ file _ => small_file file
  | OpReload order fs _ => order ≡ₚ map_to_list fs ∧ small_rows fs
  | _ => True
  end.

(** The trigram ids that an operation can use up. *)
Definition op_cost (op : IndexOp) : N :=
  match op with OpUpdate _ _ _ _ => 1 | OpReload order _ _ => N.of_nat (length order) | _ => 0 end.

(** The files alone: what the operations mean. *)
Definition withhold (fs : gmap str Row) (row : str * option Row) : gmap str Row :=
  match fs !! row.1, row.2 with
  | Some current, Some restored => if decide (row_arc current = row_arc restored) then delete row.1 fs else fs
  | _, _ => fs
  end.

Definition apply_files (op : IndexOp) (fs : gmap str Row) : gmap str Row :=
  match op with
  | OpUpdate arc path file _ => <[path := mkRow arc file]> fs
  | OpRemove path => delete path fs
  | OpVerifying _ | OpVerified _ => fs
  | OpResolve _ restored_rows => fold_left withhold restored_rows fs
  | OpReload _ fs _ => fs
  end.

Definition run (ops : list IndexOp) (l : LiveIndex) : LiveIndex := fold_left (λ l op, apply_op op l) ops l.
Definition run_files (ops : list IndexOp) (fs : gmap str Row) : gmap str Row :=
  fold_left (λ fs op, apply_files op fs) ops fs.

Lemma remove_file_next path content idx : next_id (Trigram.remove_file path content idx) = next_id idx.
Proof. unfold Trigram.remove_file. destruct (path_to_id idx !! path); [|done]. by destruct content. Qed.

Lemma remove_row_next path l : next_id (trigram_index (snd (remove_row path l))) = next_id (trigram_index l).
Proof. unfold remove_row. destruct (files l !! path); simpl; [apply remove_file_next|done]. Qed.

Lemma resolve_rows_core rows withheld report l :
  coherent l →
  let '(_, _, l') := fold_left resolve_row rows (withheld, report, l) in
  coherent l' ∧ files l' = fold_left withhold rows (files l) ∧
  next_id (trigram_index l') = next_id (trigram_index l).
Proof.
  revert withheld report l. induction rows as [|[path restored] rows IH]; intros withheld report l Hc; [done|].
  cbn [fold_left]. unfold withhold at 2. simpl. destruct (files l !! path) as [current|] eqn:E; [|by apply IH].
  destruct restored as [restored|]; [|by apply IH]. case_decide; [|by apply IH].
  pose proof (remove_row_coherent path l Hc) as Hc'. pose proof (remove_row_files path l) as Ef.
  pose proof (remove_row_next path l) as En. destruct (remove_row path l) as [removed l']. simpl in *.
  specialize (IH (withheld || removed) report l' Hc'). rewrite Ef, En in IH. done.
Qed.

Lemma contents_of_order order fs :
  order ≡ₚ map_to_list fs → contents_of order ≡ₚ map_to_list (contents fs).
Proof. intros Ho. unfold contents_of, contents. rewrite map_to_list_fmap. by apply fmap_Permutation. Qed.

Lemma derived_coherent order fs :
  order ≡ₚ map_to_list fs → small_rows fs → (N.of_nat (length order) < u64_modulus)%N →
  let d := derived_from_files order in
  derived_from fs (di_reverse_index d) (di_files_by_basename d) (di_files_by_dir_component d) (di_trigram_index d).
Proof.
  intros Ho Hs Hb. simpl. constructor.
  - done.
  - by apply build_reverse_index_holds.
  - by apply build_path_index_holds.
  - by apply build_path_index_holds.
  - apply build_from_files_faithful; [by apply contents_of_order|]. unfold contents_of. by rewrite length_fmap.
Qed.

Lemma update_trigram arc path file manifest l :
  trigram_index (update_file_with_manifest arc path file manifest l) =
  Trigram.update_file path (f_content ∘ row_file <$> files l !! path) (f_content file) (trigram_index l).
Proof. apply (f_equal snd (update_core arc path file manifest l)). Qed.

Lemma update_files arc path file manifest l :
  files (update_file_with_manifest arc path file manifest l) = <[path := mkRow arc file]> (files l).
Proof. apply (f_equal (λ c, c.1.1.1.1) (update_core arc path file manifest l)). Qed.

(** One operation keeps coherence, does to the files what it means, and uses up no more
    trigram ids than it costs. *)
Lemma apply_op_spec op l :
  coherent l → op_ok op → (next_id (trigram_index l) + op_cost op < u64_modulus)%N →
  coherent (apply_op op l) ∧ files (apply_op op l) = apply_files op (files l) ∧
  (next_id (trigram_index (apply_op op l)) ≤ next_id (trigram_index l) + op_cost op)%N.
Proof.
  intros Hc Hok Hn. destruct op as [arc path file manifest|path|progress|mismatched|report rows|order fs entries]; cbn [op_cost op_ok] in *.
  - assert (room (trigram_index l)) by (unfold room; lia).
    split_and!; [by apply update_coherent|apply update_files|]. cbn [apply_op]. rewrite update_trigram.
    apply (Trigram.apply_op_next (Trigram.OpUpdate path _ _) _ (contents (files l))); [done|apply (co_trigram _ _ _ _ _ Hc)].
  - pose proof (remove_file_core path l) as E. cbn [apply_op].
    split_and!; [eapply coherent_core; [exact E|]; by apply remove_row_coherent| |].
    + etrans; [exact (f_equal (λ c, c.1.1.1.1) E)|apply remove_row_files].
    + pose proof (f_equal snd E) as E'. change (trigram_index (snd (remove_file path l)) = trigram_index (snd (remove_row path l))) in E'.
      rewrite E', remove_row_next. lia.
  - cbn [apply_op apply_files]. unfold mark_snapshot_verify_running. case_decide; (split_and!; [done|done|simpl; lia]).
  - cbn [apply_op apply_files]. unfold mark_snapshot_verify_completed. case_decide; (split_and!; [done|done|simpl; lia]).
  - cbn [apply_op apply_files]. unfold resolve_snapshot_verify. pose proof (resolve_rows_core rows false report l Hc) as Hr.
    destruct (fold_left resolve_row rows (false, report, l)) as [[w r] l']. destruct Hr as (Hc' & Ef & En).
    split_and!; [done|done|]. simpl. lia.
  - destruct Hok as [Ho Hs]. assert (Hb : (N.of_nat (length order) < u64_modulus)%N) by lia.
    split_and!; [by apply derived_coherent|done|]. simpl.
    pose proof (build_next (contents_of order)) as Hbn. unfold contents_of in *. rewrite !length_fmap in Hbn.
    simpl in *. specialize (Hbn Hb). lia.
Qed.

Definition total_cost (ops : list IndexOp) : N := foldr (λ op n, op_cost op + n)%N 0%N ops.

Lemma run_spec ops l :
  coherent l → Forall op_ok ops → (next_id (trigram_index l) + total_cost ops < u64_modulus)%N →
  coherent (run ops l) ∧ files (run ops l) = run_files ops (files l).
Proof.
  revert l. induction ops as [|op ops IH]; intros l Hc Hok Hn; [done|]. apply Forall_cons in Hok as [Hop Hok].
  cbn [total_cost foldr] in Hn. fold (total_cost ops) in Hn.
  destruct (apply_op_spec op l) as (Hc' & Ef & Hle); [done|done|lia|]. cbn [run run_files fold_left]. rewrite <-Ef.
  apply IH; [done|done|lia].
Qed.

Lemma empty_coherent : coherent empty_live_index.
Proof.
  constructor; simpl.
  - apply map_Forall_empty.
  - apply holds_empty; [constructor|]. intros name loc (row & Hrow & _). by rewrite lookup_empty in Hrow.
  - apply holds_empty; [constructor|]. intros k p [[? Hp] _]. by rewrite lookup_empty in Hp.
  - apply holds_empty; [constructor|]. intros k p [[? Hp] _]. by rewrite lookup_empty in Hp.
  - unfold contents. rewrite fmap_empty. apply (build_from_files_faithful ∅ []); [by rewrite map_to_list_empty|done].
Qed.

(** C17: incremental maintenance never drifts from a rebuild.  After any sequence of
    single-file updates and removals, verifications and reloads, the files are those the
    operations mean; both path indices are equal to the ones built from these files, the
    reverse index lists under every name the locations a fresh build lists, and a text
    search for a non-empty query answers as a scan of the files does.  Conditions: a file
    has at most 2^32 references, and fewer than 2^64 files are ever numbered. *)
Theorem live_index_never_drifts ops order query :
  Forall op_ok ops → (total_cost ops < u64_modulus)%N → order ≡ₚ map_to_list (run_files ops ∅) → query ≠ [] →
  let l := run ops empty_live_index in
  let d := derived_from_files order in
  files l = run_files ops ∅ ∧
  files_by_basename l = di_files_by_basename d ∧
  files_by_dir_component l = di_files_by_dir_component d ∧
  (∀ name, listed (reverse_index l) name ≡ₚ listed (di_reverse_index d) name) ∧
  search (trigram_index l) query (contents (files l)) (contents_of order)
    ≡ₚ linear_scan_lower (lowercase query) (contents_of order).
Proof.
  intros Hok Hn Ho Hq. destruct (run_spec ops empty_live_index empty_coherent Hok Hn) as [[Hs Hr Hb Hd Ht] Ef].
  simpl in Ef. cbv zeta. rewrite Ef in *. split_and!; [done| | | |].
  - eapply holds_unique; [done|by apply build_path_index_holds].
  - eapply holds_unique; [done|by apply build_path_index_holds].
  - intros name. eapply holds_same_elements; [done|by apply build_reverse_index_holds].
  - apply search_faithful; [done|by apply contents_of_order|done].
Qed.

End runs.

(** ** One file *)

Section one_file.
Context `{CaseTables}.

Lemma release_verified path l : unverified_since_restore (snd (release_unverified path l)) path = None.
Proof.
  unfold unverified_since_restore, release_unverified. destruct (snapshot_verify_state l) eqn:E; simpl; rewrite ?E; try done.
  unfold drop_unverified. destruct (unverified report !! path) eqn:Eu; simpl; [by apply lookup_delete_eq|done].
Qed.

Lemma release_manifest path l : manifest_entries (snd (release_unverified path l)) = manifest_entries l.
Proof. unfold release_unverified. destruct (snapshot_verify_state l); try done. by destruct (drop_unverified path report). Qed.

Lemma derived_entry_path l path file : entry_path (derived_manifest_entry l path file) = path.
Proof.
  unfold derived_manifest_entry. destruct (head _) as [e|] eqn:E; simpl; [|done].
  apply head_Some_elem_of in E. by apply list_elem_of_filter in E as [? _].
Qed.

Lemma update_manifest arc path file l :
  manifest_entries (update_file arc path file l) =
  sort_by entry_le (filter (λ e, entry_path e ≠ path) (manifest_entries l) ++ [derived_manifest_entry l path file]).
Proof.
  unfold update_file, update_file_with_manifest. cbv zeta. simpl. rewrite release_manifest.
  assert (derived_manifest_entry (snd (release_unverified path l)) path file = derived_manifest_entry l path file) as ->
    by (unfold derived_manifest_entry; by rewrite release_manifest).
  by rewrite derived_entry_path.
Qed.

(** An update installs one file and nothing else.  Afterwards the path holds the file
    and is no longer withheld, every other path holds what it held, and the manifest has
    for the path exactly one entry, indexed with the file's hash and status, and for the
    other paths the entries it had. *)
Theorem update_file_installs arc path file l :
  let l' := update_file arc path file l in
  capture_shared_file l' path = Some file ∧
  unverified_since_restore l' path = None ∧
  (∀ p, p ≠ path → capture_shared_file l' p = capture_shared_file l p) ∧
  filter (λ e, entry_path e = path) (manifest_entries l') = [derived_manifest_entry l path file] ∧
  filter (λ e, entry_path e ≠ path) (manifest_entries l') ≡ₚ filter (λ e, entry_path e ≠ path) (manifest_entries l) ∧
  ∃ targets, ce_disposition (derived_manifest_entry l path file) = Indexed targets
    (match f_parse_status file with FileParsed => Parsed | FilePartial _ => PartialParse | FileFailed _ => ParseFailed end).
Proof.
  cbv zeta. assert (Ef : files (update_file arc path file l) = <[path := mkRow arc file]> (files l)) by apply update_files.
  unfold capture_shared_file. rewrite Ef, lookup_insert_eq, update_manifest.
  set (others := filter (λ e, entry_path e ≠ path) (manifest_entries l)).
  assert (Hother : filter (λ e, entry_path e = path) others = []).
  { apply elem_of_nil_inv. intros e [? [? _]%list_elem_of_filter]%list_elem_of_filter. done. }
  split_and!; [done| | | | |].
  - unfold update_file, update_file_with_manifest, unverified_since_restore. cbv zeta. simpl. apply (release_verified path l).
  - intros p Hp. by rewrite lookup_insert_ne.
  - apply Permutation_singleton_r. rewrite sort_by_Permutation, filter_app, Hother. simpl.
    rewrite filter_cons_True by apply derived_entry_path. done.
  - rewrite sort_by_Permutation, filter_app, filter_cons_False by (intros Hn; apply Hn, derived_entry_path).
    rewrite app_nil_r. unfold others. rewrite list_filter_filter.
    rewrite (list_filter_iff _ (λ e, entry_path e ≠ path)); [done|tauto].
  - unfold derived_manifest_entry. destruct (head _); simpl; eauto.
Qed.
End one_file.

(** The references of a parsed file: those of the parser that are not a definition, in
    their order, each with its innermost enclosing symbol unless the parser gave one. *)
Theorem parsed_references result content :
  (N.of_nat (length (pr_symbols result)) ≤ u32_modulus)%N →
  f_references (from_parse_result result content) =
  (λ r, with_enclosing r (find_enclosing_symbol (pr_symbols result) (r_line_range r).1)) <$>
    filter (λ r, r_byte_range r ∉ s_byte_range <$> pr_symbols result) (pr_references result).
Proof.
  intros Hs. unfold from_parse_result. simpl. rewrite sweep_agrees by done.
  rewrite <-list_fmap_compose. generalize (filter (λ r, r_byte_range r ∉ s_byte_range <$> pr_symbols result) (pr_references result)).
  intros l. induction l as [|r l IH]; simpl; [done|]. f_equal. exact IH.
Qed.

(** What the index holds for a path: a row, a catalog entry, or a withheld refusal. *)
Definition holds_path (l : LiveIndex) (path : str) : Prop :=
  is_Some (files l !! path) ∨ (∃ e, e ∈ manifest_entries l ∧ entry_path e = path) ∨
  is_Some (unverified_since_restore l path).

Lemma release_result path l : fst (release_unverified path l) = true ↔ is_Some (unverified_since_restore l path).
Proof.
  unfold release_unverified, unverified_since_restore. destruct (snapshot_verify_state l); simpl;
    try (split; [done|by intros [? ?]]).
  unfold drop_unverified. destruct (unverified report !! path); simpl; split; [by eexists|done|done|by intros [? ?]].
Qed.

Lemma remove_manifest_result path l :
  fst (remove_manifest_entry path l) = true ↔ ∃ e, e ∈ manifest_entries l ∧ entry_path e = path.
Proof.
  unfold remove_manifest_entry. simpl. rewrite bool_decide_eq_true. induction (manifest_entries l) as [|e es IH]; simpl.
  { split; [done|]. intros (e & ?%elem_of_nil & _). done. }
  setoid_rewrite elem_of_cons. destruct (decide (entry_path e = path)) as [E|E].
  - rewrite filter_cons_False by tauto. split; [intros _; eauto|]. intros _.
    pose proof (length_filter (λ e, entry_path e ≠ path) es). simpl. lia.
  - rewrite filter_cons_True by done. simpl. transitivity (∃ e0, e0 ∈ es ∧ entry_path e0 = path); [|naive_solver].
    rewrite <-IH. lia.
Qed.

(** A removal forgets the path in every lane and says truthfully whether there was
    anything to forget: a row, a catalog entry, or the refusal of a withheld row.  Other
    paths keep their rows and entries. *)
Theorem remove_file_forgets path l :
  let '(removed, l') := remove_file path l in
  (removed = true ↔ holds_path l path) ∧ ¬ holds_path l' path ∧
  (∀ p, p ≠ path → files l' !! p = files l !! p) ∧
  manifest_entries l' = filter (λ e, entry_path e ≠ path) (manifest_entries l).
Proof.
  unfold remove_file. pose proof (release_core path l) as Ec. pose proof (release_result path l) as Er.
  pose proof (release_verified path l) as Ev. pose proof (release_manifest path l) as Em.
  destruct (release_unverified path l) as [released l0]. simpl in *.
  assert (Ef : files l0 = files l) by exact (f_equal (λ c, c.1.1.1.1) Ec).
  destruct (remove_row path l0) as [removed l1] eqn:Erow.
  pose proof (remove_row_files path l0) as Ef1. rewrite Erow in Ef1. simpl in Ef1.
  assert (Hrow : (removed = true ↔ is_Some (files l !! path)) ∧ manifest_entries l1 = manifest_entries l0 ∧
                 snapshot_verify_state l1 = snapshot_verify_state l0).
  { unfold remove_row in Erow. rewrite Ef in Erow. destruct (files l !! path); simplify_eq/=;
      (split_and!; [|done|done]); split; [by eexists|done|done|by intros [? ?]]. }
  destruct Hrow as (Hrem & Em1 & Es1). pose proof (remove_manifest_result path l1) as Hm. unfold holds_path.
  rewrite Em1, Em in Hm. simpl in *. rewrite Em1, Em, Ef1, Ef in *. split_and!.
  - rewrite !orb_true_iff, Hm, Hrem, Er. tauto.
  - intros [[? Hx]|[(e & [He _]%list_elem_of_filter & ?)|[? Hx]]].
    + by rewrite lookup_delete_eq in Hx.
    + done.
    + unfold unverified_since_restore in *. simpl in Hx. rewrite Es1 in Hx. congruence.
  - intros p Hp. by apply lookup_delete_ne.
  - done.
Qed.

(** ** Served or refused *)

(** The path has a row and is refused as unverified. *)
Definition clashes (fs : gmap str Row) (report : SnapshotVerifyReport) (p : str) : Prop :=
  is_Some (fs !! p) ∧ is_Some (unverified report !! p).

Lemma drop_unverified_subseteq path report : unverified (snd (drop_unverified path report)) ⊆ unverified report.
Proof. unfold drop_unverified. destruct (unverified report !! path); simpl; [apply delete_subseteq|done]. Qed.

Lemma drop_unverified_gone path report : unverified (snd (drop_unverified path report)) !! path = None.
Proof. unfold drop_unverified. destruct (unverified report !! path) eqn:E; simpl; [apply lookup_delete_eq|done]. Qed.

Lemma resolve_row_clash st row p :
  let '(_, report, l) := st in
  let '(_, report', l') := resolve_row st row in
  (clashes (files l') report' p → clashes (files l) report p) ∧ ¬ clashes (files l') report' row.1.
Proof.
  destruct st as [[w report] l], row as [path restored]. simpl.
  assert (Hdrop : (clashes (files l) (snd (drop_unverified path report)) p → clashes (files l) report p) ∧
                  ¬ clashes (files l) (snd (drop_unverified path report)) path).
  { split; [|intros [_ [? Hx]]; by rewrite drop_unverified_gone in Hx].
    intros [? [x Hx]]. split; [done|]. exists x. eapply lookup_weaken; [done|apply drop_unverified_subseteq]. }
  destruct (files l !! path) as [current|] eqn:E.
  - destruct restored as [restored|]; [case_decide|]; simpl; [|done|done].
    pose proof (remove_row_files path l) as Ef. destruct (remove_row path l) as [removed l']. simpl in *. rewrite Ef. split.
    + intros [[row Hx] ?]. split; [|done]. exists row. by apply lookup_delete_Some in Hx as [_ Hx].
    + intros [[? Hx] _]. by rewrite lookup_delete_eq in Hx.
  - simpl. split; [done|]. intros [[? Hx] _]. congruence.
Qed.

Lemma resolve_rows_clash rows st p :
  let '(_, report, l) := st in
  let '(_, report', l') := fold_left resolve_row rows st in
  clashes (files l') report' p → clashes (files l) report p ∧ p ∉ rows.*1.
Proof.
  revert st. induction rows as [|row rows IH]; intros [[w report] l]; cbn [fold_left].
  { intros ?. split; [done|]. apply not_elem_of_nil. }
  pose proof (resolve_row_clash (w, report, l) row p) as H1. pose proof (IH (resolve_row (w, report, l) row)) as H2.
  destruct (resolve_row (w, report, l) row) as [[w1 report1] l1].
  destruct (fold_left resolve_row rows (w1, report1, l1)) as [[w2 report2] l2].
  intros Hcl. destruct (H2 Hcl) as [Hcl1 Hn]. destruct H1 as [H1 H1n]. split; [by apply H1|].
  rewrite fmap_cons, elem_of_cons. intros [->|?]; done.
Qed.

Section served.
Context `{CaseTables}.

(** A resolution carries the row of every path it reports as unverified. *)
Definition resolves_its_rows (op : IndexOp) : Prop :=
  match op with
  | OpResolve report rows => ∀ p, is_Some (unverified report !! p) → p ∈ rows.*1
  | _ => True
  end.

Definition never_both (l : LiveIndex) : Prop :=
  ∀ p, ¬ (is_Some (files l !! p) ∧ is_Some (unverified_since_restore l p)).

Lemma release_subset path l p :
  is_Some (unverified_since_restore (snd (release_unverified path l)) p) → is_Some (unverified_since_restore l p).
Proof.
  unfold release_unverified, unverified_since_restore. destruct (snapshot_verify_state l) eqn:E; simpl; rewrite ?E; try done.
  pose proof (drop_unverified_subseteq path report). destruct (drop_unverified path report) as [b r]. simpl in *.
  intros [x Hx]. exists x. by eapply lookup_weaken.
Qed.

Lemma remove_row_verify path l : unverified_since_restore (snd (remove_row path l)) = unverified_since_restore l.
Proof. unfold remove_row. by destruct (files l !! path). Qed.

Lemma remove_file_verify path l p :
  unverified_since_restore (snd (remove_file path l)) p = unverified_since_restore (snd (release_unverified path l)) p.
Proof.
  unfold remove_file. destruct (release_unverified path l) as [b l0]. simpl. pose proof (remove_row_verify path l0) as E.
  destruct (remove_row path l0) as [b1 l1]. simpl in *. by rewrite <-E.
Qed.

Lemma remove_file_rows path l : files (snd (remove_file path l)) = delete path (files l).
Proof. etrans; [exact (f_equal (λ c, c.1.1.1.1) (remove_file_core path l))|apply remove_row_files]. Qed.

Lemma apply_op_never_both op l : resolves_its_rows op → never_both l → never_both (apply_op op l).
Proof.
  intros Hr Hn. destruct op as [arc path file manifest|path|progress|mismatched|report rows|order fs entries];
    cbn [apply_op resolves_its_rows] in *.
  - intros p [Hf Hu]. rewrite update_files in Hf.
    assert (Hu' : is_Some (unverified_since_restore (snd (release_unverified path l)) p)).
    { revert Hu. unfold update_file_with_manifest, unverified_since_restore. destruct manifest; done. }
    destruct (decide (p = path)) as [->|Hne].
    + rewrite release_verified in Hu'. by destruct Hu'.
    + rewrite lookup_insert_ne in Hf by done. apply (Hn p). split; [done|]. by eapply release_subset.
  - intros p [Hf Hu]. rewrite remove_file_rows in Hf. apply lookup_delete_is_Some in Hf as [_ Hf].
    apply (Hn p). split; [done|]. apply (release_subset path). by rewrite <-remove_file_verify.
  - unfold mark_snapshot_verify_running. case_decide; [|done]. intros p [_ [? Hu]]. done.
  - unfold mark_snapshot_verify_completed. case_decide; [|done]. intros p [_ [? Hu]].
    unfold unverified_since_restore in Hu. simpl in Hu. by rewrite lookup_empty in Hu.
  - unfold resolve_snapshot_verify. intros p. pose proof (resolve_rows_clash rows (false, report, l) p) as Hcl.
    destruct (fold_left resolve_row rows (false, report, l)) as [[w report'] l']. unfold unverified_since_restore. simpl.
    intros Hboth. destruct (Hcl Hboth) as [[_ Hu] Hp]. by apply Hp, Hr.
  - intros p [_ [? Hu]]. done.
Qed.

(** C32: no path is served and refused at once.  Whatever updates, removals, verifications
    and reloads come, in whatever order, a path that the index refuses as unverified has
    no row: withholding removes the row, and every way a row comes back lifts the refusal.
    The runs start from an empty index; restoring a snapshot is not one of their steps. *)
Theorem never_served_and_refused ops p :
  Forall resolves_its_rows ops →
  let l := run ops empty_live_index in
  is_Some (unverified_since_restore l p) → files l !! p = None ∧ get_file l p = None.
Proof.
  intros Hops l Hu. assert (Hn : never_both l).
  { unfold l, run. assert (Hi : never_both empty_live_index) by (intros q [_ [? Hx]]; done). revert Hi.
    generalize empty_live_index as m. clear Hu. induction Hops as [|op ops Hop _ IH]; intros m Hm; [done|].
    simpl. apply IH. by apply apply_op_never_both. }
  assert (Hf : files l !! p = None).
  { destruct (files l !! p) eqn:E; [|done]. destruct (Hn p). rewrite E. split; [by eexists|done]. }
  split; [done|]. unfold get_file. rewrite Hf. case_decide; [|done]. by destruct (snapshot_verify_state l).
Qed.
End served.

(** ** An index loaded from given rows *)

Definition reloaded (rows : list (str * Row)) (manifest : list CatalogEntry) : LiveIndex :=
  apply_reload_data (mkReload (list_to_map rows) manifest (derived_from_files rows)) empty_live_index.

Lemma reloaded_order rows manifest :
  bool_decide (NoDup rows.*1) = true → rows ≡ₚ map_to_list (files (reloaded rows manifest)).
Proof. intros Hnd%bool_decide_eq_true. symmetry. by apply map_to_list_to_map. Qed.

Lemma reloaded_coherent rows manifest :
  bool_decide (NoDup rows.*1) = true →
  forallb (λ r, N.of_nat (length (f_references (row_file r.2))) <=? u32_modulus)%N rows = true →
  (N.of_nat (length rows) < u64_modulus)%N → coherent (reloaded rows manifest).
Proof.
  intros Hnd Hs Hl. apply derived_coherent; [by apply reloaded_order| |done].
  intros p row Hp%elem_of_list_to_map_2. rewrite forallb_forall in Hs.
  apply list_elem_of_In, Hs in Hp. by apply N.leb_le in Hp.
Qed.

(** ** Witnesses *)

#[local] Instance lower_ascii : CaseTables := lowercase.

Definition example_file (content : string) (names : list string) : IndexedFile :=
  parsed_file Rust (bs content) []
    ((λ n, mkReference (bs n) None Call (0, 1)%N (0, 0)%N None) <$> names).

Definition example_rows : list (str * Row) :=
  [(bs "src/a.rs", mkRow 1 (example_file "call()" ["call"; "run"])); (bs "src/b.rs", mkRow 2 (example_file "run()" ["run"]))].

(** A load, a changed file, a new file and a removal. *)
Definition example_ops : list IndexOp :=
  [OpReload example_rows (list_to_map example_rows) [];
   OpUpdate 3 (bs "src/a.rs") (example_file "stop()" ["stop"]) true;
   OpUpdate 4 (bs "lib/c.rs") (example_file "run stop" ["run"; "stop"]) true;
   OpRemove (bs "src/b.rs")].

Lemma example_ops_ok : Forall op_ok example_ops.
Proof.
  apply Forall_cons. split; [split|do 2 (apply Forall_cons; split; [vm_compute; discriminate|]); by apply Forall_singleton].
  - symmetry. apply map_to_list_to_map. apply (bool_decide_eq_true_1 _). vm_compute. reflexivity.
  - intros p row Hp. apply elem_of_list_to_map_2 in Hp.
    repeat (apply elem_of_cons in Hp as [E|Hp]; [injection E as -> ->; vm_compute; discriminate|]).
    by apply elem_of_nil in Hp.
Qed.

Lemma live_index_never_drifts_witness :
  let l := run example_ops empty_live_index in
  let order := map_to_list (run_files example_ops ∅) in
  listed (reverse_index l) (bs "run") ≡ₚ listed (di_reverse_index (derived_from_files order)) (bs "run") ∧
  files_by_dir_component l = di_files_by_dir_component (derived_from_files order) ∧
  find_files_by_basename l (bs "C.rs") = [bs "lib/c.rs"].
Proof.
  cbv zeta. pose proof (live_index_never_drifts example_ops (map_to_list (run_files example_ops ∅)) (bs "stop")) as Ht.
  specialize (Ht example_ops_ok ltac:(vm_compute; reflexivity) ltac:(reflexivity) ltac:(discriminate)).
  cbv zeta in Ht. destruct Ht as (_ & _ & Hd & Hr & _). split_and!; [apply Hr|exact Hd|vm_compute; reflexivity].
Defined.

Definition example_restored : list (str * option Row) :=
  [(bs "src/a.rs", Some (mkRow 1 (example_file "call()" ["call"; "run"])));
   (bs "src/b.rs", Some (mkRow 2 (example_file "run()" ["run"])))].

(** Both rows could not be verified; the second was republished meanwhile. *)
Definition verify_ops : list IndexOp :=
  [OpReload example_rows (list_to_map example_rows) [];
   OpUpdate 5 (bs "src/b.rs") (example_file "run2()" []) true;
   OpResolve (mkReport 2 [bs "src/a.rs"; bs "src/b.rs"] None {[bs "src/a.rs" := bs "unreadable"; bs "src/b.rs" := bs "unreadable"]} None)
     example_restored].

Lemma never_served_and_refused_witness :
  let l := run verify_ops empty_live_index in
  files l !! bs "src/a.rs" = None ∧ unverified_since_restore l (bs "src/b.rs") = None ∧
  is_Some (capture_shared_file l (bs "src/b.rs")).
Proof.
  cbv zeta. split_and!; [|vm_compute; reflexivity|vm_compute; by eexists].
  apply (never_served_and_refused verify_ops (bs "src/a.rs")).
  - constructor; [done|]. constructor; [done|]. constructor; [|constructor].
    intros p [x Hx]. cbn [unverified] in Hx. apply lookup_insert_Some in Hx as [[<- _]|[_ [<- _]%lookup_singleton_Some]]; [by left|by right; left].
  - vm_compute. by eexists.
Defined.
