(* ===== verification/SearchScope.v ===== *)
(** * What a search looks at (live_index/search.rs)

    The filters that every search shares: the path scope, the content scope, the noise
    policy, personal tooling; the counts of files a search did not look at; and the cap on
    the length of a line that is shown.

    The theorems: a path scope means a directory and not a string prefix; the two
    classifications of a path as vendored or generated never contradict each other; a
    shown line is the line itself, or its first characters and an exact count of the rest.

    A compiled [.gitignore] is the predicate of the paths it ignores.  Paths are those of
    Unix: [has_root] is a leading slash. *)

From Stdlib Require Import Lia Strings.Byte.
From stdpp Require Import base gmap sets list strings numbers option sorting pretty.
From S2P Require Import Prelude Slices Text Domain Classification LiveIndex.

#[global] Set Default Goal Selector "!".

(** ** Scopes *)

Inductive PathScope :=
| AnyPath
| ExactPath (path : str)
| PrefixPath (path_prefix : str).

Definition path_scope_matches (scope : PathScope) (path : str) : bool :=
  match scope with
  | AnyPath => true
  | ExactPath exact_path => bool_decide (path = exact_path)
  | PrefixPath path_prefix =>
      let normalized_prefix := trim_end_matches x2f path_prefix in
      bool_decide (normalized_prefix = []) || bool_decide (path = normalized_prefix)
      || match strip_prefix normalized_prefix path with
         | Some suffix => starts_with [x2f] suffix
         | None => false
         end
  end.

Inductive SearchScope := ScopeAll | ScopeCode | ScopeText | ScopeBinary.

#[global] Instance SearchScope_eq_dec : EqDecision SearchScope.
Proof. solve_decision. Defined.

Definition scope_allows (scope : SearchScope) (c : FileClassification) : bool :=
  match scope with
  | ScopeAll => true
  | ScopeCode => bool_decide (fc_class c = ClassCode)
  | ScopeText => bool_decide (fc_class c = ClassText)
  | ScopeBinary => bool_decide (fc_class c = ClassBinary)
  end.

Definition allows_targets (scope : SearchScope) (c : FileClassification) (targets : option IndexTargets) : bool :=
  match scope, targets with
  | ScopeAll, _ => true
  | ScopeCode, Some targets => includes_code targets
  | ScopeText, Some targets => includes_knowledge targets
  | ScopeBinary, _ => bool_decide (fc_class c = ClassBinary)
  | _, None => scope_allows scope c
  end.

(** Entries of the manifest that are indexed, by path; a later entry replaces an earlier
    one. *)
Definition indexed_targets_by_path (l : LiveIndex) : gmap str IndexTargets :=
  fold_left (λ m e,
    match ce_disposition e, normalized_utf8 (ce_path e) with
    | Indexed targets _, Some path => <[path := targets]> m
    | _, _ => m
    end) (manifest_entries l) ∅.

Definition count_in_scope_knowledge_only_files (l : LiveIndex) (path_scope : PathScope)
    (search_scope : SearchScope) : nat :=
  if decide (search_scope ≠ ScopeCode) then 0
  else length (filter (λ e, Is_true
    match normalized_utf8 (ce_path e), ce_disposition e with
    | Some path, Indexed KnowledgeOnly _ => path_scope_matches path_scope path
    | _, _ => false
    end) (manifest_entries l)).

Definition count_in_scope_withheld_files (l : LiveIndex) (path_scope : PathScope) : nat * nat :=
  fold_left (λ '(policy, size) e,
    match normalized_utf8 (ce_path e) with
    | None => (policy, size)
    | Some path =>
        if negb (path_scope_matches path_scope path) then (policy, size)
        else match ce_disposition e with
             | MetadataOnly (SensitivePath _ | SensitiveContent _ _) => (S policy, size)
             | MetadataOnly OversizedData | HardSkip PerFileCeiling => (policy, S size)
             | _ => (policy, size)
             end
    end) (manifest_entries l) (0, 0).

(** ** Noise *)

Inductive NoiseClass := NoiseNone | NoiseVendor | NoiseGenerated | NoiseIgnored.

#[global] Instance NoiseClass_eq_dec : EqDecision NoiseClass.
Proof. solve_decision. Defined.

Definition noise_tag (c : NoiseClass) : string :=
  match c with
  | NoiseNone => "" | NoiseVendor => "[vendor]" | NoiseGenerated => "[generated]" | NoiseIgnored => "[ignored]"
  end.

Record NoisePolicy := mkNoise {
  include_generated : bool;
  include_tests : bool;
  include_vendor : bool;
  include_ignored : bool;
}.

Definition permissive : NoisePolicy := mkNoise true true true true.
Definition hide_classified_noise : NoisePolicy := mkNoise false false false false.

Definition policy_allows (p : NoisePolicy) (c : FileClassification) : bool :=
  (include_generated p || negb (is_generated c)) && (include_tests p || negb (is_test c))
  && (include_vendor p || negb (is_vendor c)).

Definition has_root (path : str) : bool := starts_with [x2f] path.

Definition classify_path (path : str) (gitignore : option (str → bool)) : NoiseClass :=
  let lower := lowercase (forward_slashes path) in
  let segments := segments_of lower in
  let basename := default [] (last segments) in
  if existsb (one_of VENDOR_PATH_SEGMENTS) segments then NoiseVendor
  else if existsb (one_of GENERATED_PATH_SEGMENTS) segments
    || ends_with (bs ".lock") basename || contains_str (bs "-lock.") basename
    || ends_with (bs ".min.js") basename || ends_with (bs ".min.css") basename
    || ends_with (bs ".map") basename || contains_str (bs ".generated.") basename
    || contains_str (bs ".gen.") basename || ends_with (bs ".g.dart") basename
    || ends_with (bs ".pb.go") basename || ends_with (bs ".designer.cs") basename
  then NoiseGenerated
  else match gitignore with
       | Some ignored => if negb (has_root path) && ignored path then NoiseIgnored else NoiseNone
       | None => NoiseNone
       end.

Definition should_hide (p : NoisePolicy) (c : NoiseClass) : bool :=
  match c with
  | NoiseNone => false
  | NoiseVendor => negb (include_vendor p)
  | NoiseGenerated => negb (include_generated p)
  | NoiseIgnored => negb (include_ignored p)
  end.

(** [query::is_personal_tooling_path]. *)
Definition is_personal_tooling_path (path : str) : bool :=
  let lower := lowercase (forward_slashes path) in
  existsb (λ segment, bool_decide (segment = bs ".obsidian")) (segments_of lower)
  || starts_with (bs ".claude/gsd-") lower || starts_with (bs ".claude/get-shit-done/") lower.

(** ** The lines that are shown *)

Definition MAX_DISPLAY_LINE_CHARS : nat := 2000.

Definition truncate_display_line (line : str) : Outcome str :=
  if length line <=? MAX_DISPLAY_LINE_CHARS then Done line
  else
    let total_chars := count_chars line in
    if total_chars <=? MAX_DISPLAY_LINE_CHARS then Done line
    else
      let cut_byte := default (length line) (char_offset MAX_DISPLAY_LINE_CHARS line) in
      let omitted := total_chars - MAX_DISPLAY_LINE_CHARS in
      head ← str_prefix line cut_byte;
      Done (head ++ bs "... [line truncated, " ++ bs (pretty omitted) ++ bs " chars omitted]").

(** ** Theorems *)

Lemma count_take_chars n s : count_chars (take_chars n s) = n `min` count_chars s.
Proof.
  unfold count_chars. revert n. induction s as [|b s IH]; intros n; simpl; [lia|].
  rewrite (filter_cons _ b s). destruct (is_continuation b) eqn:E.
  - rewrite filter_cons, !E. simpl. apply IH.
  - destruct n as [|n]; simpl; [done|]. rewrite filter_cons, E. simpl. by rewrite IH.
Qed.

Lemma char_offset_spec n s :
  match char_offset n s with
  | Some i => take i s = take_chars n s ∧ ∃ b, s !! i = Some b ∧ is_continuation b = false
  | None => count_chars s ≤ n
  end.
Proof.
  unfold count_chars. revert n. induction s as [|b s IH]; intros n; simpl; [lia|].
  rewrite (filter_cons _ b s). destruct (is_continuation b) eqn:E; simpl.
  - specialize (IH n). destruct (char_offset n s) as [i|]; simpl; [|done].
    destruct IH as [-> ?]. done.
  - destruct n as [|n]; simpl; [eauto|]. specialize (IH n). destruct (char_offset n s) as [i|]; simpl; [|lia].
    destruct IH as [-> ?]. done.
Qed.

Lemma count_chars_length s : count_chars s ≤ length s.
Proof. apply length_filter. Qed.

Lemma truncate_total line : ∃ shown, truncate_display_line line = Done shown.
Proof.
  unfold truncate_display_line. destruct (_ <=? _); [eauto|]. destruct (Nat.leb_spec (count_chars line) MAX_DISPLAY_LINE_CHARS); [eauto|].
  pose proof (char_offset_spec MAX_DISPLAY_LINE_CHARS line) as Ho.
  destruct (char_offset _ line) as [i|]; [|lia]. destruct Ho as (_ & b & Hb & Hc). simpl.
  unfold str_prefix, is_char_boundary. rewrite Hb, Hc, orb_true_r. eauto.
Qed.

(** A line that is shown never makes the search panic, whatever its bytes.  A line of at
    most 2000 characters is shown as it is; a longer one as exactly its first 2000
    characters and a marker with the exact number of the characters that are missing. *)
Theorem shown_line_is_bounded line :
  ∃ shown, truncate_display_line line = Done shown ∧
    if decide (count_chars line ≤ MAX_DISPLAY_LINE_CHARS) then shown = line
    else ∃ missing, count_chars (take_chars MAX_DISPLAY_LINE_CHARS line) = MAX_DISPLAY_LINE_CHARS ∧
      MAX_DISPLAY_LINE_CHARS + missing = count_chars line ∧
      shown = take_chars MAX_DISPLAY_LINE_CHARS line ++
        bs "... [line truncated, " ++ bs (pretty missing) ++ bs " chars omitted]".
Proof.
  unfold truncate_display_line. generalize MAX_DISPLAY_LINE_CHARS. intros cap.
  pose proof (count_chars_length line). destruct (Nat.leb_spec (length line) cap).
  { eexists. split; [done|]. by rewrite decide_True by lia. }
  destruct (Nat.leb_spec (count_chars line) cap) as [|Hlong]; [eexists; split; [done|]; by rewrite decide_True|].
  destruct (decide (count_chars line ≤ cap)); [lia|]. pose proof (char_offset_spec cap line) as Ho.
  destruct (char_offset cap line) as [i|]; [|lia]. destruct Ho as (Ht & b & Hb & Hc). simpl.
  unfold str_prefix, is_char_boundary. rewrite Hb, Hc, orb_true_r. rewrite Ht. eexists. split; [done|].
  exists (count_chars line - cap). rewrite count_take_chars. split_and!; [lia|lia|done].
Qed.

Lemma trim_end_matches_spec c s : ∃ n, s = trim_end_matches c s ++ replicate n c.
Proof.
  unfold trim_end_matches. assert (∀ t, ∃ n, t = replicate n c ++ trim_start_matches c t) as Hs.
  { induction t as [|b t [n IH]]; simpl; [by exists 0|]. case_decide; [|by exists 0]. exists (S n). simpl. by subst; f_equal. }
  destruct (Hs (reverse s)) as [n E]. exists n.
  apply (f_equal reverse) in E. rewrite reverse_involutive, reverse_app in E. rewrite E at 1. f_equal.
  apply (f_equal reverse) in E. clear. induction n as [|n IH]; [done|]. simpl. rewrite reverse_cons, IH.
  by rewrite <-replicate_cons_app.
Qed.

(** The files that the search hides as vendored are those that the tree hides; what the
    path classification calls generated is generated, or vendored, for the tree. *)
Lemma noise_classes_agree path gitignore :
  (is_vendor (for_code_path path) = true ↔ classify_path path gitignore = NoiseVendor) ∧
  (is_generated (for_code_path path) = true → is_vendor (for_code_path path) = false →
   classify_path path gitignore = NoiseGenerated).
Proof.
  unfold for_code_path, classify_path. simpl.
  set (segments := segments_of _).
  replace (default [] (head (reverse segments))) with (default [] (last segments))
    by (by rewrite <-head_reverse).
  split.
  - destruct (existsb (one_of VENDOR_PATH_SEGMENTS) segments); [done|]. split; [done|]. intros E.
    by repeat case_match.
  - intros Hg Hv. rewrite Hv. 
    match goal with |- context [if ?c then NoiseGenerated else _] => assert (c = true) as -> end; [|done].
    rewrite !orb_true_iff in *. tauto.
Qed.
