(* ===== verification/SymbolSearch.v ===== *)
(** * Searching symbols (live_index/search.rs, live_index/health_view.rs)

    [search_symbols_with_options] walks the files in path order, keeps the symbols in
    scope whose name contains the query, and ranks them by how well the name matches.  An
    empty query with a scope browses instead: it ranks by the number of references.

    The search reads a file that it has listed and expects it to be there, although an
    index restored from a snapshot hides its files until they are verified.  The guard in
    front of every tool, [index_state], refuses those states.

    The theorems: behind the guard the search never panics; it shows the best matches, all
    of them are accounted for, and its answer does not depend on the order of the hash
    map; browsing ranks by the references that the files really contain.

    [cb_summary] is the summary of a tripped circuit breaker, and [local_empty_reason] the
    field of that name. *)

From Stdlib Require Import Lia Strings.Byte.
From stdpp Require Import base gmap sets list strings numbers option sorting pretty.
From S2P Require Import Prelude Slices Text Domain Classification Disambiguation Trigram LiveIndex SearchScope.

#[global] Set Default Goal Selector "!".

(** ** The guard *)

Inductive IndexState :=
| StateEmpty
| StateLoading
| StateReady
| StateTripped (summary : str).

Definition failed_verify_summary (report : SnapshotVerifyReport) : str :=
  bs "snapshot verify failed (" ++ default (bs "no reason recorded") (report_reason report) ++ bs "); the "
  ++ bs (pretty (mismatch_count report))
  ++ bs " restored files stay hidden until index_folder rebuilds this project from source".

Definition index_state (local_empty_reason cb_summary : option str) (l : LiveIndex) : IndexState :=
  if is_empty l then StateEmpty
  else if decide (load_source l = EmptyBootstrap) then
    if decide (is_Some local_empty_reason) then StateEmpty else StateLoading
  else match snapshot_verify_state l with
       | Pending | Running _ => StateLoading
       | VerifyFailed report => StateTripped (failed_verify_summary report)
       | _ => match cb_summary with Some summary => StateTripped summary | None => StateReady end
       end.

(** ** Options and results *)

Inductive SymbolMatchTier := TierExact | TierPrefix | TierSubstring.

Definition tier_code (t : SymbolMatchTier) : N :=
  match t with TierExact => 0 | TierPrefix => 1 | TierSubstring => 2 end.

Record SymbolSearchHit := mkHit {
  h_tier : SymbolMatchTier;
  h_name : str;
  h_path : str;
  h_kind : str;
  h_line : N;
}.

Record SymbolSearchResult := mkSymbolResult {
  sr_file_count : nat;
  sr_hits : list SymbolSearchHit;
  sr_overflow_count : nat;
}.

Record SymbolSearchOptions := mkSymbolOptions {
  so_path_scope : PathScope;
  so_search_scope : SearchScope;
  so_result_limit : nat;
  so_noise_policy : NoisePolicy;
  so_include_personal_tooling : bool;
  so_language_filter : option LanguageId;
}.

Definition current_code_noise : NoisePolicy := mkNoise false false true false.

Definition symbol_options_for_current_code_search (result_limit : nat) : SymbolSearchOptions :=
  mkSymbolOptions AnyPath ScopeCode result_limit current_code_noise true None.

Record ScoredSymbolMatch := mkScored {
  sm_tier : SymbolMatchTier;
  sm_tiebreak : N;
  sm_name : str;
  sm_path : str;
  sm_kind : str;
  sm_line : N;
  sm_ref_count : nat;
}.

Definition browse_kind_rank (kind : str) : N :=
  if one_of ["fn"] kind then 0
  else if one_of ["class"; "struct"; "enum"; "interface"; "trait"; "union"] kind then 1
  else if one_of ["impl"] kind then 2
  else if one_of ["mod"] kind then 3
  else if one_of ["const"] kind then 4
  else if one_of ["type"; "let"] kind then 5
  else if one_of ["key"; "section"] kind then 6 else 7.

(** ** The search *)

Section search.
Context `{CaseTables}.

Definition symbol_file_in_scope (targets : gmap str IndexTargets) (options : SymbolSearchOptions) (path : str)
    (file : IndexedFile) : bool :=
  path_scope_matches (so_path_scope options) path
  && allows_targets (so_search_scope options) (f_classification file) (targets !! path)
  && policy_allows (so_noise_policy options) (f_classification file)
  && negb (negb (so_include_personal_tooling options) && is_personal_tooling_path path)
  && match so_language_filter options with
     | Some language => bool_decide (f_language file = language)
     | None => true
     end.

Definition test_module_ranges (options : SymbolSearchOptions) (file : IndexedFile) : list (N * N) :=
  if negb (include_tests (so_noise_policy options)) && negb (is_test (f_classification file))
  then s_byte_range <$> filter (λ s, s_kind s = Module_ ∧ (s_name s = bs "tests" ∨ s_name s = bs "test")) (f_symbols file)
  else [].

Definition in_test_module (ranges : list (N * N)) (sym : SymbolRecord) : bool :=
  existsb (λ '(start, end_), (start <=? (s_byte_range sym).1)%N && ((s_byte_range sym).2 <=? end_)%N) ranges.

Definition kind_passes (kind_filter : option str) (sym : SymbolRecord) : bool :=
  match kind_filter with
  | Some filter => bool_decide (lowercase filter = bs "all") || kind_filter_matches filter (s_kind sym)
  | None => true
  end.

Definition match_tier (query_lower : str) (sym : SymbolRecord) : SymbolMatchTier * N :=
  let name_lower := to_lowercase (s_name sym) in
  if decide (name_lower = query_lower) then (TierExact, 0%N)
  else if starts_with query_lower name_lower then (TierPrefix, as_u32 (length (s_name sym)))
  else (TierSubstring, as_u32 (default 0 (find_str query_lower name_lower))).

Definition is_browse (query : str) (kind_filter : option str) (options : SymbolSearchOptions) : bool :=
  bool_decide (trim query = []) &&
  (bool_decide (is_Some kind_filter) || match so_path_scope options with AnyPath => false | _ => true end).

(** The symbols of a file that are ranked, in their order. *)
Definition symbol_matches (l : LiveIndex) (query : str) (kind_filter : option str) (options : SymbolSearchOptions)
    (path : str) (file : IndexedFile) : list ScoredSymbolMatch :=
  let query_lower := to_lowercase query in
  let browse := is_browse query kind_filter options in
  let ranges := test_module_ranges options file in
  omap (λ sym,
    if in_test_module ranges sym then None
    else if negb (kind_passes kind_filter sym) then None
    else if negb browse && negb (contains_str query_lower (to_lowercase (s_name sym))) then None
    else
      let '(tier, tiebreak) := match_tier query_lower sym in
      let ref_count := if browse then length (default [] (reverse_index l !! s_name sym)) else 0 in
      Some (mkScored tier tiebreak (s_name sym) path (kind_display (s_kind sym))
              (((s_line_range sym).1 + 1) mod u32_modulus) ref_count)) (f_symbols file).

Fixpoint collect_symbol_matches (l : LiveIndex) (targets : gmap str IndexTargets) (query : str)
    (kind_filter : option str) (options : SymbolSearchOptions) (paths : list str) : Outcome (list ScoredSymbolMatch) :=
  match paths with
  | [] => Done []
  | path :: paths =>
      match get_file l path with
      | None => Panic
      | Some file =>
          rest ← collect_symbol_matches l targets query kind_filter options paths;
          Done ((if symbol_file_in_scope targets options path file
                 then symbol_matches l query kind_filter options path file else []) ++ rest)
      end
  end.

Definition browse_le : relation ScoredSymbolMatch :=
  then_le sm_ref_count nat_ge (then_le (browse_kind_rank ∘ sm_kind) N.le
    (then_le sm_path str_le (by_key sm_line N.le))).

Definition match_le : relation ScoredSymbolMatch :=
  then_le (tier_code ∘ sm_tier) N.le (then_le sm_tiebreak N.le (by_key sm_name str_le)).

Definition rank_matches (browse : bool) (matches : list ScoredSymbolMatch) : list ScoredSymbolMatch :=
  if browse then retain_first (λ m, (sm_name m, sm_kind m)) [] (sort_by browse_le matches)
  else sort_by match_le matches.

Definition hit_of (m : ScoredSymbolMatch) : SymbolSearchHit :=
  mkHit (sm_tier m) (sm_name m) (sm_path m) (sm_kind m) (sm_line m).

(** [order] is the walk over the file map. *)
Definition search_symbols_with_options (order : list (str * Row)) (l : LiveIndex) (query : str)
    (kind_filter : option str) (options : SymbolSearchOptions) : Outcome SymbolSearchResult :=
  let paths := sort_by str_le order.*1 in
  matches ← collect_symbol_matches l (indexed_targets_by_path l) query kind_filter options paths;
  let matches := rank_matches (is_browse query kind_filter options) matches in
  let hits := hit_of <$> take (so_result_limit options) matches in
  Done (mkSymbolResult (size (list_to_set (h_path <$> hits) : gset str)) hits
          (length matches - so_result_limit options)).

Definition search_symbols (order : list (str * Row)) (l : LiveIndex) (query : str) (kind_filter : option str)
    (result_limit : nat) : Outcome SymbolSearchResult :=
  search_symbols_with_options order l query kind_filter (symbol_options_for_current_code_search result_limit).

(** ** Theorems *)

Lemma ready_serves reason cb l path :
  index_state reason cb l = StateReady → get_file l path = row_file <$> files l !! path.
Proof.
  unfold index_state, get_file. intros E. destruct (is_empty l); [done|]. repeat case_decide; try done.
  by destruct (snapshot_verify_state l).
Qed.

Section spec.
Context (l : LiveIndex) (query : str) (kind_filter : option str) (options : SymbolSearchOptions).

(** What the search ranks, of one symbol: the symbol is in a file in scope, outside test
    modules, of the kind, and its name contains the query. *)
Definition wanted (m : ScoredSymbolMatch) : Prop :=
  ∃ path row sym,
    files l !! path = Some row ∧
    symbol_file_in_scope (indexed_targets_by_path l) options path (row_file row) = true ∧
    sym ∈ f_symbols (row_file row) ∧
    in_test_module (test_module_ranges options (row_file row)) sym = false ∧
    kind_passes kind_filter sym = true ∧
    (is_browse query kind_filter options = true ∨
     ∃ before after, to_lowercase (s_name sym) = before ++ to_lowercase query ++ after) ∧
    m = mkScored (match_tier (to_lowercase query) sym).1 (match_tier (to_lowercase query) sym).2 (s_name sym) path
          (kind_display (s_kind sym)) (((s_line_range sym).1 + 1) mod u32_modulus)
          (if is_browse query kind_filter options then length (default [] (reverse_index l !! s_name sym)) else 0).

Definition matches_of (order : list (str * Row)) : list ScoredSymbolMatch :=
  order ≫= λ '(path, row),
    if symbol_file_in_scope (indexed_targets_by_path l) options path (row_file row)
    then symbol_matches l query kind_filter options path (row_file row) else [].

Lemma elem_of_symbol_matches path row m :
  m ∈ symbol_matches l query kind_filter options path (row_file row) ↔
  ∃ sym, sym ∈ f_symbols (row_file row) ∧
    in_test_module (test_module_ranges options (row_file row)) sym = false ∧ kind_passes kind_filter sym = true ∧
    (is_browse query kind_filter options = true ∨
     ∃ before after, to_lowercase (s_name sym) = before ++ to_lowercase query ++ after) ∧
    m = mkScored (match_tier (to_lowercase query) sym).1 (match_tier (to_lowercase query) sym).2 (s_name sym) path
          (kind_display (s_kind sym)) (((s_line_range sym).1 + 1) mod u32_modulus)
          (if is_browse query kind_filter options then length (default [] (reverse_index l !! s_name sym)) else 0).
Proof.
  unfold symbol_matches. rewrite list_elem_of_omap. f_equiv. intros sym. setoid_rewrite <-contains_str_true.
  destruct (in_test_module _ sym), (kind_passes kind_filter sym), (is_browse query kind_filter options); simpl;
    destruct (contains_str _ _), (match_tier (to_lowercase query) sym); simpl; naive_solver.
Qed.

Lemma elem_of_matches_of order m : order ≡ₚ map_to_list (files l) → m ∈ matches_of order ↔ wanted m.
Proof.
  intros Ho. unfold matches_of, wanted. rewrite list_elem_of_bind. split.
  - intros ([path row] & Hm & Hr). rewrite Ho, elem_of_map_to_list in Hr.
    destruct (symbol_file_in_scope _ _ _ _) eqn:E; [|by apply not_elem_of_nil in Hm].
    apply elem_of_symbol_matches in Hm as (sym & ?). exists path, row, sym. tauto.
  - intros (path & row & sym & Hr & E & Hm). exists (path, row). rewrite Ho, elem_of_map_to_list, E. split; [|done].
    apply elem_of_symbol_matches. by exists sym.
Qed.

Lemma collect_Done paths order :
  (∀ path, get_file l path = row_file <$> files l !! path) →
  (∀ path row, (path, row) ∈ order → files l !! path = Some row) → paths = order.*1 →
  collect_symbol_matches l (indexed_targets_by_path l) query kind_filter options paths = Done (matches_of order).
Proof.
  intros Hget Hin ->. induction order as [|[path row] order IH]; [done|]. rewrite fmap_cons.
  cbn [collect_symbol_matches fst]. rewrite Hget, (Hin path row) by left. cbn [fmap option_fmap option_map].
  by rewrite IH by (intros; apply Hin; by right).
Qed.

Lemma sorted_order (order : list (str * Row)) :
  ∃ order', order' ≡ₚ order ∧ order'.*1 = sort_by str_le order.*1.
Proof.
  pose proof (sort_by_Permutation str_le order.*1) as Hp.
  apply Permutation_map_inv in Hp as (order' & E & Hp). exists order'. by split.
Qed.

Lemma search_Done reason cb order :
  index_state reason cb l = StateReady → order ≡ₚ map_to_list (files l) →
  ∃ order', order' ≡ₚ order ∧ order'.*1 = sort_by str_le order.*1 ∧
    collect_symbol_matches l (indexed_targets_by_path l) query kind_filter options (sort_by str_le order.*1) =
    Done (matches_of order').
Proof.
  intros Hg Ho. destruct (sorted_order order) as (order' & Hp & E). exists order'. split_and!; [done|done|].
  apply collect_Done; [intros; by eapply ready_serves| |done].
  intros path row. by rewrite Hp, Ho, elem_of_map_to_list.
Qed.

(** Behind the guard that every tool applies, a symbol search answers; it never meets a
    file that it listed and cannot read.  The answer does not depend on the order in which
    the hash map lists the files. *)
Theorem symbol_search_answers reason cb order :
  index_state reason cb l = StateReady → order ≡ₚ map_to_list (files l) →
  ∃ r, ∀ order', order' ≡ₚ order →
    search_symbols_with_options order' l query kind_filter options = Done r.
Proof.
  intros Hg Ho. destruct (search_Done reason cb order Hg Ho) as (o & _ & _ & E).
  assert (∃ r, search_symbols_with_options order l query kind_filter options = Done r) as [r Hr].
  { unfold search_symbols_with_options. rewrite E. by eexists. }
  exists r. intros order' Hp. rewrite <-Hr. unfold search_symbols_with_options.
  rewrite (sort_by_unique str_le order'.*1 order.*1); [done|intros a b _ _; apply (anti_symm str_le)|by rewrite Hp].
Qed.

(** A search by name ranks exactly the symbols in scope whose name contains the query,
    exact names first, then prefixes from the shortest, then substrings from the leftmost;
    it shows the first of them up to the limit and counts the rest. *)
Theorem symbol_search_best_first reason cb order :
  index_state reason cb l = StateReady → order ≡ₚ map_to_list (files l) →
  is_browse query kind_filter options = false →
  ∃ ranked r, search_symbols_with_options order l query kind_filter options = Done r ∧
    sr_hits r = hit_of <$> take (so_result_limit options) ranked ∧
    length (sr_hits r) + sr_overflow_count r = length ranked ∧
    StronglySorted (λ a b, tier_code (sm_tier a) < tier_code (sm_tier b) ∨
      sm_tier a = sm_tier b ∧ sm_tiebreak a ≤ sm_tiebreak b)%N ranked ∧ ∀ m, m ∈ ranked ↔ wanted m.
Proof.
  intros Hg Ho Hb. destruct (search_Done reason cb order Hg Ho) as (o & Hp & _ & E).
  exists (sort_by match_le (matches_of o)). eexists. unfold search_symbols_with_options. rewrite E, Hb. simpl.
  split_and!; [done|done| | |].
  - simpl. rewrite length_fmap, length_take. lia.
  - apply (StronglySorted_weaken match_le); [|apply StronglySorted_sort_by; apply _].
    intros a b. unfold match_le, then_le, compose. destruct (sm_tier a), (sm_tier b); simpl; naive_solver lia.
  - intros m. rewrite (sort_by_Permutation match_le). apply elem_of_matches_of. by rewrite Hp.
Qed.

(** Browsing ranks the names in scope by the number of references to them that the files
    contain, most referenced first, and shows every name and kind once. *)
Theorem browse_ranks_by_references reason cb order :
  coherent l → index_state reason cb l = StateReady → order ≡ₚ map_to_list (files l) →
  is_browse query kind_filter options = true →
  ∃ ranked r, search_symbols_with_options order l query kind_filter options = Done r ∧
    sr_hits r = hit_of <$> take (so_result_limit options) ranked ∧
    length (sr_hits r) + sr_overflow_count r = length ranked ∧
    StronglySorted (λ a b, sm_ref_count b ≤ sm_ref_count a) ranked ∧ NoDup ((λ m, (sm_name m, sm_kind m)) <$> ranked) ∧
    (∀ m, wanted m → (sm_name m, sm_kind m) ∈ (λ m, (sm_name m, sm_kind m)) <$> ranked) ∧
    ∀ m, m ∈ ranked → wanted m ∧
      ∃ refs, NoDup refs ∧ (∀ loc, loc ∈ refs ↔ located (files l) (sm_name m) loc) ∧ sm_ref_count m = length refs.
Proof.
  intros Hc Hg Ho Hb. destruct (search_Done reason cb order Hg Ho) as (o & Hp & _ & E).
  set (key m := (sm_name m, sm_kind m)).
  exists (retain_first key [] (sort_by browse_le (matches_of o))).
  eexists. unfold search_symbols_with_options. rewrite E, Hb. simpl.
  assert (∀ m, m ∈ sort_by browse_le (matches_of o) ↔ wanted m) as Hm.
  { intros m. rewrite (sort_by_Permutation browse_le). apply elem_of_matches_of. by rewrite Hp. }
  split_and!; [done|done| | | | |].
  - simpl. rewrite length_fmap, length_take. unfold key. lia.
  - apply (StronglySorted_weaken browse_le); [unfold browse_le, then_le, nat_ge; lia|].
    apply retain_first_sorted, StronglySorted_sort_by; apply _.
  - apply retain_first_nodup.
  - intros m Hw%Hm. destruct (retain_first_keys key [] (sort_by browse_le (matches_of o)) (key m)) as [Hn|]; [|by apply not_elem_of_nil in Hn|done].
    by apply list_elem_of_fmap_2.
  - intros m [_ Hw%Hm]%retain_first_fresh. split; [done|]. destruct Hw as (path & row & sym & _ & _ & _ & _ & _ & _ & ->).
    rewrite Hb. simpl. destruct (co_reverse _ _ _ _ _ Hc (s_name sym)) as (Hnd & Hl & _).
    by exists (listed (reverse_index l) (s_name sym)).
Qed.
End spec.
End search.

(** ** Witnesses *)

#[local] Instance ascii_tables : CaseTables := lowercase.

Definition demo_sym (name : string) (kind : SymbolKind) (line : N) : SymbolRecord :=
  mkSymbol (bs name) kind 0 0 (10 * line, 10 * line + 9)%N (line, line) None None.

Definition demo_call (name : string) : ReferenceRecord := mkReference (bs name) None Call (0, 3)%N (0, 0)%N None.

Definition demo_rows : list (str * Row) :=
  [(bs "src/b.rs", mkRow 1 (parsed_file Rust [] [demo_sym "reload" Function 3; demo_sym "Load" Struct 5] [demo_call "load"]));
   (bs "src/a.rs", mkRow 2 (parsed_file Rust [] [demo_sym "loader" Function 1; demo_sym "tests" Module_ 7] [demo_call "load"]))].

Definition demo_index : LiveIndex := reloaded demo_rows [].

Definition code_options : SymbolSearchOptions := symbol_options_for_current_code_search 2.

Lemma symbol_search_answers_witness :
  index_state None None demo_index = StateReady ∧
  ∃ r, search_symbols_with_options demo_rows demo_index (bs "load") None code_options = Done r ∧
    h_name <$> sr_hits r = [bs "Load"; bs "loader"] ∧ sr_overflow_count r = 1.
Proof.
  split; [reflexivity|].
  destruct (symbol_search_answers demo_index (bs "load") None code_options None None demo_rows) as [r Hr];
    [reflexivity|apply reloaded_order; vm_compute; reflexivity|].
  exists r. pose proof (Hr demo_rows ltac:(reflexivity)) as E. split; [exact E|]. vm_compute in E. injection E as <-. by split.
Defined.

Lemma symbol_search_best_first_witness :
  is_browse (bs "load") None code_options = false ∧
  ∃ ranked r, search_symbols_with_options demo_rows demo_index (bs "load") None code_options = Done r ∧
    length (sr_hits r) + sr_overflow_count r = length ranked ∧ hit_of <$> take 2 ranked = sr_hits r.
Proof.
  split; [reflexivity|].
  destruct (symbol_search_best_first demo_index (bs "load") None code_options None None demo_rows)
    as (ranked & r & E & Eh & Hl & _); [reflexivity|apply reloaded_order; vm_compute; reflexivity|reflexivity|].
  by exists ranked, r.
Defined.

Lemma browse_ranks_by_references_witness :
  is_browse [] (Some (bs "fn")) code_options = true ∧
  ∃ ranked r, search_symbols_with_options demo_rows demo_index [] (Some (bs "fn")) code_options = Done r ∧
    StronglySorted (λ a b, sm_ref_count b ≤ sm_ref_count a) ranked ∧ length (sr_hits r) + sr_overflow_count r = length ranked.
Proof.
  split; [reflexivity|].
  destruct (browse_ranks_by_references demo_index [] (Some (bs "fn")) code_options None None demo_rows)
    as (ranked & r & E & _ & Hl & Hs & _);
    [apply reloaded_coherent; vm_compute; reflexivity|reflexivity|apply reloaded_order; vm_compute; reflexivity|reflexivity|].
  by exists ranked, r.
Defined.
