(* ===== verification/TextSearch.v ===== *)
(** * Searching text (live_index/search.rs)

    [search_text_with_options] looks for terms or for a regular expression.  For terms it
    asks the trigram index for candidate files, drops those out of scope, and scans the
    lines of the rest; files hidden as noise are scanned only to count what was
    suppressed.  The hits are bounded per file and in total, optionally re-ranked, and
    shown with their context.

    The theorems: for ASCII terms the trigram index loses nothing, and the answer is the
    one a scan of every file in scope gives, whatever the order of the hash sets; every
    visible hit is shown or counted; the context around hits is exactly the lines near
    them.  Two examples show where the fast path does lose hits, and that the ranking
    puts functions below configuration keys.

    The regular expressions, the globs and the multi-pattern matcher are third-party
    crates and parameters of the model.  A [HashSet] is listed in any order. *)

From Stdlib Require Import Lia Strings.Byte ZArith.
From stdpp Require Import base gmap sets list strings numbers option sorting pretty.
From S2P Require Import Prelude Slices Float Text Domain Classification Disambiguation Trigram LiveIndex SearchScope.

#[global] Set Default Goal Selector "!".

(** ** Matchers *)

Class TextMatchers := {
  regex_build : str → bool → Result (str → bool) str;
  regex_escape : str → str;
  glob_build : str → Result (str → bool) str;
  aho_corasick : list str → bool → Result (str → bool) str;
}.

(** ** Options and results *)

(** Numbers that a caller chooses are [N] at the width of a [usize]. *)
Record TextSearchOptions := mkTextOptions {
  to_path_scope : PathScope;
  to_search_scope : SearchScope;
  to_noise_policy : NoisePolicy;
  to_include_personal_tooling : bool;
  to_language_filter : option LanguageId;
  to_total_limit : N;
  to_max_per_file : N;
  to_glob : option str;
  to_exclude_glob : option str;
  to_context : option N;
  to_case_sensitive : option bool;
  to_whole_word : bool;
  to_ranked : bool;
  to_churn_scores : option (gmap str float);
}.

Definition text_options_default : TextSearchOptions :=
  mkTextOptions AnyPath ScopeCode permissive true None 50 5 None None None None false false None.

Definition text_options_for_current_code_search : TextSearchOptions :=
  mkTextOptions AnyPath ScopeCode (mkNoise false false true false) true None 50 5 None None None None false false None.

Definition set_total_limit (n : N) (o : TextSearchOptions) : TextSearchOptions :=
  mkTextOptions (to_path_scope o) (to_search_scope o) (to_noise_policy o) (to_include_personal_tooling o)
    (to_language_filter o) n (to_max_per_file o) (to_glob o) (to_exclude_glob o) (to_context o)
    (to_case_sensitive o) (to_whole_word o) (to_ranked o) (to_churn_scores o).

Record EnclosingMatchSymbol := mkEnclosing {
  es_name : str;
  es_kind : str;
  es_line_range : N * N;
}.

Record TextLineMatch := mkLineMatch {
  tm_line_number : N;
  tm_line : str;
  tm_enclosing_symbol : option EnclosingMatchSymbol;
}.

Record TextRenderedLine := mkRendered {
  rl_line_number : N;
  rl_line : str;
  rl_is_match : bool;
}.

Inductive TextDisplayLine :=
| Separator
| DisplayLine (line : TextRenderedLine).

Record CallerEntry := mkCaller { caller_file : str; caller_symbol : str; caller_line : N }.

Record TextFileMatches := mkFileMatches {
  tf_path : str;
  tf_matches : list TextLineMatch;
  tf_rendered_lines : option (list TextDisplayLine);
  tf_callers : option (list CallerEntry);
}.

Record TextSearchResult := mkTextResult {
  tr_label : str;
  tr_total_matches : nat;
  tr_files : list TextFileMatches;
  tr_suppressed_by_noise : nat;
  tr_overflow_count : nat;
  tr_excluded_knowledge_files : nat;
  tr_withheld_policy_files : nat;
  tr_withheld_size_files : nat;
}.

Definition set_suppressed (n : nat) (r : TextSearchResult) : TextSearchResult :=
  mkTextResult (tr_label r) (tr_total_matches r) (tr_files r) n (tr_overflow_count r)
    (tr_excluded_knowledge_files r) (tr_withheld_policy_files r) (tr_withheld_size_files r).

Inductive TextSearchError :=
| EmptyRegexQuery
| EmptyQueryOrTerms
| InvalidRegex (pattern error : str)
| InvalidGlob (field pattern error : str)
| UnsupportedWholeWordRegex
| InvalidStructuralPattern (pattern error : str)
| UnsupportedStructuralLanguage (pattern sample_error : str).

Definition SUPPRESSED_TEXT_MATCH_DISPLAY_CAP : nat := 100.

(** ** Context around the hits *)

(** The windows, the last one first. *)
Definition push_window (context : N) (line_count : nat) (windows : list (N * N)) (m : TextLineMatch) : list (N * N) :=
  let start := N.max (tm_line_number m - context) 1 in
  let end_ := N.min (u64_add (tm_line_number m) context) (N.of_nat line_count) in
  match windows with
  | (first, last_end) :: rest =>
      if (start <=? u64_add last_end 1)%N then (first, N.max last_end end_) :: rest
      else (start, end_) :: windows
  | [] => [(start, end_)]
  end.

Definition context_windows (context : N) (line_count : nat) (matches : list TextLineMatch) : list (N * N) :=
  reverse (fold_left (push_window context line_count) matches []).

(** [start..=end]. *)
Definition inclusive_range (start end_ : N) : list N :=
  N.of_nat <$> seq (N.to_nat start) (N.to_nat (end_ + 1 - start)).

Definition content_lines (content : str) : list str := trim_end_matches x0d <$> lines content.

Definition render_line (content_lines : list str) (match_lines : list N) (line_number : N) : Outcome TextDisplayLine :=
  match content_lines !! N.to_nat (line_number - 1) with
  | None => Panic
  | Some line =>
      shown ← truncate_display_line line;
      Done (DisplayLine (mkRendered line_number shown (bool_decide (line_number ∈ match_lines))))
  end.

Fixpoint collect_outcomes {A} (l : list (Outcome A)) : Outcome (list A) :=
  match l with
  | [] => Done []
  | o :: l => x ← o; xs ← collect_outcomes l; Done (x :: xs)
  end.

Fixpoint render_windows (content_lines : list str) (match_lines : list N) (first : bool) (windows : list (N * N)) :
    Outcome (list TextDisplayLine) :=
  match windows with
  | [] => Done []
  | (start, end_) :: windows =>
      shown ← collect_outcomes (render_line content_lines match_lines <$> inclusive_range start end_);
      rest ← render_windows content_lines match_lines false windows;
      Done ((if first then [] else [Separator]) ++ shown ++ rest)
  end.

Definition build_context_rendered_lines (content : str) (matches : list TextLineMatch) (context : N) :
    Outcome (list TextDisplayLine) :=
  match matches with
  | [] => Done []
  | _ =>
      let ls := content_lines content in
      match ls with
      | [] => Done []
      | _ => render_windows ls (tm_line_number <$> matches) true (context_windows context (length ls) matches)
      end
  end.

(** ** Ranking *)

(** Kinds as [f32] between 0 and 1, in tenths. *)
Definition symbol_kind_priority (kind : str) : float :=
  literal binary32
    (if one_of ["function"; "method"; "async_function"; "generator"] kind then 10
     else if one_of ["class"; "struct"; "enum"; "interface"; "trait"; "union"] kind then 8
     else if one_of ["impl"; "implementation"] kind then 7
     else if one_of ["module"; "namespace"] kind then 5
     else if one_of ["constant"; "const"] kind then 4
     else if one_of ["variable"; "type"; "type_alias"] kind then 3
     else if one_of ["key"; "section"; "property"; "field"] kind then 2 else 1) 10.

Definition usize_as_f32 (n : nat) : float := of_int binary32 (Z.of_nat n).

Definition compute_importance_score (fm : TextFileMatches) (match_count_max : nat)
    (reverse : gmap str (list ReferenceLocation)) (churn_score : float) : float :=
  let match_count_norm :=
    if 0 <? match_count_max
    then fdiv binary32 (usize_as_f32 (length (tf_matches fm))) (usize_as_f32 match_count_max) else fzero in
  let syms := omap tm_enclosing_symbol (tf_matches fm) in
  let max_callers := max_list ((λ sym, length (default [] (reverse !! es_name sym))) <$> syms) in
  let caller_norm := fmin (fdiv binary32 (usize_as_f32 max_callers) (of_int binary32 20)) (of_int binary32 1) in
  let max_kind := fold_left fmax ((λ sym, symbol_kind_priority (es_kind sym)) <$> syms) fzero in
  let weighted num den x := fmul binary32 (literal binary32 num den) x in
  fadd binary32
    (fadd binary32 (fadd binary32 (weighted 3 10 match_count_norm)%Z (weighted 4 10 caller_norm)%Z)
       (weighted 15 100 churn_score)%Z)
    (weighted 15 100 max_kind)%Z.

(** [sort_by] with the score of the second file compared to that of the first. *)
Definition score_ge (score : TextFileMatches → float) (a b : TextFileMatches) : Prop :=
  cmp_or_equal (score b) (score a) ≠ Gt.
#[global] Instance score_ge_dec score : RelDecision (score_ge score).
Proof. unfold score_ge. intros a b. apply _. Defined.

(** ** Scanning the candidates *)

Definition compute_test_ranges (file : IndexedFile) : list (N * N) :=
  s_line_range <$> filter (λ s, s_name s = bs "tests" ∧ s_kind s = Module_) (f_symbols file).

Definition in_line_ranges (ranges : list (N * N)) (line : N) : bool :=
  existsb (λ '(start, end_), (start <=? line)%N && (line <=? end_)%N) ranges.

(** [max_by_key]: the last of the greatest. *)
Definition max_by_depth (best : option SymbolRecord) (s : SymbolRecord) : option SymbolRecord :=
  match best with
  | Some b => if (s_depth b <=? s_depth s)%N then Some s else best
  | None => Some s
  end.

Definition enclosing_match_symbol (file : IndexedFile) (line_idx : nat) : option EnclosingMatchSymbol :=
  (λ s, mkEnclosing (s_name s) (kind_display (s_kind s)) (s_line_range s)) <$>
  fold_left max_by_depth
    (filter (λ s, (s_line_range s).1 ≤ as_u32 line_idx ∧ as_u32 line_idx ≤ (s_line_range s).2)%N (f_symbols file)) None.

Record PathMatchBucket := mkBucket {
  pb_path : str;
  pb_visible_count : nat;
  pb_matches : list TextLineMatch;
}.

(** The loop over the lines: visible hits, suppressed hits, and the kept lines. *)
Fixpoint scan_file (is_match : str → bool) (test_ranges : list (N * N)) (max_per_file : N) (file : IndexedFile)
    (line_idx : nat) (ls : list str) (kept : nat) : Outcome (nat * nat * list TextLineMatch) :=
  match ls with
  | [] => Done (0, 0, [])
  | line :: ls =>
      let line := trim_end_matches x0d line in
      if negb (is_match line) then scan_file is_match test_ranges max_per_file file (S line_idx) ls kept
      else if in_line_ranges test_ranges (as_u32 line_idx) then
        '(visible, suppressed, matches) ← scan_file is_match test_ranges max_per_file file (S line_idx) ls kept;
        Done (visible, S suppressed, matches)
      else if (N.of_nat kept <? max_per_file)%N then
        shown ← truncate_display_line line;
        '(visible, suppressed, matches) ← scan_file is_match test_ranges max_per_file file (S line_idx) ls (S kept);
        Done (S visible, suppressed,
              mkLineMatch (N.of_nat line_idx + 1) shown (enclosing_match_symbol file line_idx) :: matches)
      else
        '(visible, suppressed, matches) ← scan_file is_match test_ranges max_per_file file (S line_idx) ls kept;
        Done (S visible, suppressed, matches)
  end.

Definition test_ranges_of (options : TextSearchOptions) (file : IndexedFile) : list (N * N) :=
  if negb (include_tests (to_noise_policy options)) && bool_decide (f_language file = Rust)
  then compute_test_ranges file else [].

Definition scan_candidate (options : TextSearchOptions) (is_match : str → bool) (file : IndexedFile) :
    Outcome (nat * nat * list TextLineMatch) :=
  scan_file is_match (test_ranges_of options file) (to_max_per_file options) file 0
    (lines (from_utf8_lossy (f_content file))) 0.

(** All candidates: suppressed hits, visible hits and the buckets. *)
Fixpoint scan_candidates (l : LiveIndex) (options : TextSearchOptions) (is_match : str → bool) (paths : list str) :
    Outcome (nat * nat * list PathMatchBucket) :=
  match paths with
  | [] => Done (0, 0, [])
  | path :: paths =>
      match get_file l path with
      | None => scan_candidates l options is_match paths
      | Some file =>
          '(visible, suppressed, matches) ← scan_candidate options is_match file;
          '(suppressed_rest, visible_rest, buckets) ← scan_candidates l options is_match paths;
          Done (suppressed + suppressed_rest, visible + visible_rest,
                if 0 <? visible then mkBucket path visible matches :: buckets else buckets)
      end
  end.

Definition bucket_le : relation PathMatchBucket := then_le pb_visible_count nat_ge (by_key pb_path str_le).

(** ** Choosing what is shown *)

Definition attach_text_match_context (l : LiveIndex) (options : TextSearchOptions) (fm : TextFileMatches) :
    Outcome TextFileMatches :=
  match to_context options, get_file l (tf_path fm) with
  | Some context, Some file =>
      rendered ← build_context_rendered_lines (from_utf8_lossy (f_content file)) (tf_matches fm) context;
      Done (mkFileMatches (tf_path fm) (tf_matches fm) (Some rendered) (tf_callers fm))
  | _, _ => Done fm
  end.

Definition RANKED_FILE_CAP : nat := 500.

Definition truncate {A} (n : N) (l : list A) : list A :=
  if (n <? N.of_nat (length l))%N then take (N.to_nat n) l else l.

(** The loop over the sorted buckets: the number of shown hits and the files. *)
Fixpoint pick_files (l : LiveIndex) (options : TextSearchOptions) (file_idx total : nat)
    (buckets : list PathMatchBucket) : Outcome (nat * list TextFileMatches) :=
  match buckets with
  | [] => Done (total, [])
  | bucket :: buckets =>
      if (if to_ranked options then RANKED_FILE_CAP <=? file_idx else (to_total_limit options <=? N.of_nat total)%N)
      then Done (total, [])
      else
        let per_file_limit :=
          if to_ranked options then to_max_per_file options
          else N.min (to_max_per_file options) (to_total_limit options - N.of_nat total) in
        if (per_file_limit =? 0)%N then Done (total, [])
        else
          let matches := truncate per_file_limit (pb_matches bucket) in
          match matches with
          | [] => pick_files l options (S file_idx) total buckets
          | _ =>
              let fm := mkFileMatches (pb_path bucket) matches None None in
              fm ← (if to_ranked options then Done fm else attach_text_match_context l options fm);
              '(total, rest) ← pick_files l options (S file_idx) (total + length matches) buckets;
              Done (total, fm :: rest)
          end
  end.

Fixpoint retain_within (remaining : N) (files : list TextFileMatches) : list TextFileMatches :=
  match files with
  | [] => []
  | f :: files =>
      if (remaining =? 0)%N then retain_within remaining files
      else
        let matches := truncate remaining (tf_matches f) in
        mkFileMatches (tf_path f) matches (tf_rendered_lines f) (tf_callers f)
          :: retain_within (remaining - N.of_nat (length matches)) files
  end.

Definition shown_matches (files : list TextFileMatches) : nat := sum_list (length ∘ tf_matches <$> files).

Definition churn_of (options : TextSearchOptions) (path : str) : float :=
  default fzero (scores ← to_churn_scores options; scores !! path).

Definition rerank (l : LiveIndex) (options : TextSearchOptions) (files : list TextFileMatches) :
    Outcome (nat * list TextFileMatches) :=
  let match_count_max := match files with [] => 1 | _ => max_list (length ∘ tf_matches <$> files) end in
  let score f := compute_importance_score f match_count_max (reverse_index l) (churn_of options (tf_path f)) in
  let files := retain_within (to_total_limit options) (sort_by (score_ge score) files) in
  files' ← collect_outcomes (attach_text_match_context l options <$> files);
  Done (shown_matches files, files').

Definition collect_text_matches (l : LiveIndex) (candidate_paths : list str) (is_match : str → bool) (label : str)
    (options : TextSearchOptions) : Outcome TextSearchResult :=
  '(suppressed, all_visible, buckets) ← scan_candidates l options is_match candidate_paths;
  '(total, files) ← pick_files l options 0 0 (sort_by bucket_le buckets);
  '(total, files) ← (if to_ranked options then rerank l options files else Done (total, files));
  let '(policy, size) := count_in_scope_withheld_files l (to_path_scope options) in
  Done (mkTextResult label total files suppressed (all_visible - total)
          (count_in_scope_knowledge_only_files l (to_path_scope options) (to_search_scope options)) policy size).

Fixpoint count_lines (is_match : str → bool) (ls : list str) (suppressed : nat) : Result nat nat :=
  match ls with
  | [] => Ok suppressed
  | line :: ls =>
      if negb (is_match (trim_end_matches x0d line)) then count_lines is_match ls suppressed
      else if SUPPRESSED_TEXT_MATCH_DISPLAY_CAP <? S suppressed
      then Err (S SUPPRESSED_TEXT_MATCH_DISPLAY_CAP)
      else count_lines is_match ls (S suppressed)
  end.

(** [Err] is the early return. *)
Fixpoint count_suppressed_loop (l : LiveIndex) (is_match : str → bool) (paths : list str) (suppressed : nat) : nat :=
  match paths with
  | [] => suppressed
  | path :: paths =>
      match get_file l path with
      | None => count_suppressed_loop l is_match paths suppressed
      | Some file =>
          match count_lines is_match (lines (from_utf8_lossy (f_content file))) suppressed with
          | Ok suppressed => count_suppressed_loop l is_match paths suppressed
          | Err capped => capped
          end
      end
  end.

Definition count_suppressed_text_matches (l : LiveIndex) (candidate_paths : list str) (is_match : str → bool) : nat :=
  count_suppressed_loop l is_match candidate_paths 0.

(** ** The search *)

Section search.
Context `{TextMatchers} `{CaseTables}.

Definition compile_text_glob (field : string) (pattern : option str) :
    Result (option (str → bool)) TextSearchError :=
  match pattern with
  | None | Some [] => Ok None
  | Some pattern =>
      match glob_build pattern with
      | Ok glob => Ok (Some glob)
      | Err error => Err (InvalidGlob (bs field) pattern error)
      end
  end.

Definition compile_text_glob_filters (options : TextSearchOptions) :
    Result (option (str → bool) * option (str → bool)) TextSearchError :=
  match compile_text_glob "glob" (to_glob options) with
  | Err e => Err e
  | Ok include =>
      match compile_text_glob "exclude_glob" (to_exclude_glob options) with
      | Err e => Err e
      | Ok exclude => Ok (include, exclude)
      end
  end.

Definition globs_match (globs : option (str → bool) * option (str → bool)) (path : str) : bool :=
  match globs.1 with Some include => include path | None => true end
  && match globs.2 with Some exclude => negb (exclude path) | None => true end.

Definition file_matches_text_base_scope (options : TextSearchOptions)
    (globs : option (str → bool) * option (str → bool)) (targets : gmap str IndexTargets)
    (path : str) (file : IndexedFile) : bool :=
  path_scope_matches (to_path_scope options) path && globs_match globs path
  && allows_targets (to_search_scope options) (f_classification file) (targets !! path)
  && match to_language_filter options with
     | Some language => bool_decide (f_language file = language)
     | None => true
     end.

Definition file_hidden_by_search_policy (options : TextSearchOptions) (path : str) (file : IndexedFile) : bool :=
  negb (policy_allows (to_noise_policy options) (f_classification file))
  || (negb (to_include_personal_tooling options) && is_personal_tooling_path path).

Definition file_matches_text_options (options : TextSearchOptions)
    (globs : option (str → bool) * option (str → bool)) (targets : gmap str IndexTargets)
    (path : str) (file : IndexedFile) : bool :=
  file_matches_text_base_scope options globs targets path file && negb (file_hidden_by_search_policy options path file).

Definition current_code_search_keeps_file (path : str) (c : FileClassification) : bool :=
  let options := text_options_for_current_code_search in
  scope_allows (to_search_scope options) c && policy_allows (to_noise_policy options) c
  && (to_include_personal_tooling options || negb (is_personal_tooling_path path)).

Definition compile_literal_whole_word_matcher (terms : list str) (case_sensitive : bool) : Outcome (str → bool) :=
  match regex_build (bs "\b(?:" ++ join (bs "|") (regex_escape <$> terms) ++ bs ")\b") (negb case_sensitive) with
  | Ok matcher => Done matcher
  | Err _ => Panic
  end.

Definition normalize_terms (query : option str) (terms : option (list str)) : list str :=
  match terms with
  | Some ((_ :: _) as raw_terms) => filter (λ t, t ≠ []) (trim <$> raw_terms)
  | _ => option_list (query ≫= λ text, let text := trim text in if decide (text = []) then None else Some text)
  end.

Definition text_label (terms : list str) : str :=
  match terms with
  | [term] => bs "'" ++ term ++ bs "'"
  | _ => bs "terms [" ++ join (bs ", ") terms ++ bs "]"
  end.

Definition is_ascii (s : str) : bool := forallb (in_range 0 127) s.

(** [line_matches], with the matchers compiled beforehand. *)
Definition literal_line_matcher (terms : list str) (case_sensitive whole_word : bool) : Outcome (str → bool) :=
  whole_word_matcher ← (if whole_word
                        then m ← compile_literal_whole_word_matcher terms case_sensitive; Done (Some m)
                        else Done None);
  multi_term ← (if (1 <? length terms) && negb whole_word && forallb is_ascii terms
                then match aho_corasick terms (negb case_sensitive) with Ok ac => Done (Some ac) | Err _ => Panic end
                else Done None);
  Done (λ line,
    match whole_word_matcher, multi_term with
    | Some matcher, _ => matcher line
    | None, Some ac => ac line
    | None, None =>
        if case_sensitive then existsb (λ term, contains_str term line) terms
        else existsb (λ term, contains_str (to_lowercase term) (to_lowercase line)) terms
    end).

(** [total_limit.saturating_mul(len)]. *)
Definition usize_max : N := u64_modulus - 1.
Definition effective_options (options : TextSearchOptions) (terms : list str) : TextSearchOptions :=
  if 1 <? length terms
  then set_total_limit (N.min usize_max (to_total_limit options * N.of_nat (length terms))) options else options.

Definition finish_text_search (l : LiveIndex) (candidate_paths suppressed_paths : list str) (is_match : str → bool)
    (label : str) (options : TextSearchOptions) : Outcome (Result TextSearchResult TextSearchError) :=
  result ← collect_text_matches l candidate_paths is_match label options;
  Done (Ok (set_suppressed
    (tr_suppressed_by_noise result + count_suppressed_text_matches l suppressed_paths is_match) result)).

(** The files of a walk in scope, visible or hidden. *)
Definition paths_in_scope (hidden : bool) (options : TextSearchOptions)
    (globs : option (str → bool) * option (str → bool)) (targets : gmap str IndexTargets)
    (walk : list (str * IndexedFile)) : list str :=
  fst <$> filter (λ '(path, file), Is_true
    (file_matches_text_base_scope options globs targets path file
     && Bool.eqb (file_hidden_by_search_policy options path file) hidden)) walk.

Definition all_files (order : list (str * Row)) : list (str * IndexedFile) := prod_map id row_file <$> order.

(** [listing] is the order in which a [HashSet] is listed. *)
Definition search_text_with_options (order : list (str * Row)) (listing : gset str → list str) (l : LiveIndex)
    (query : option str) (terms : option (list str)) (regex : bool) (options : TextSearchOptions) :
    Outcome (Result TextSearchResult TextSearchError) :=
  match compile_text_glob_filters options with
  | Err e => Done (Err e)
  | Ok globs =>
      let targets := indexed_targets_by_path l in
      let case_sensitive := default regex (to_case_sensitive options) in
      let normalized_terms := normalize_terms query terms in
      if regex then
        if to_whole_word options then Done (Err UnsupportedWholeWordRegex)
        else match default [] (trim <$> query) with
             | [] => Done (Err EmptyRegexQuery)
             | pattern =>
                 match regex_build pattern (negb case_sensitive) with
                 | Err error => Done (Err (InvalidRegex pattern error))
                 | Ok is_match =>
                     let walk := all_files order in
                     finish_text_search l (paths_in_scope false options globs targets walk)
                       (paths_in_scope true options globs targets walk) is_match (bs "regex '" ++ pattern ++ bs "'") options
                 end
             end
      else match normalized_terms with
           | [] => Done (Err EmptyQueryOrTerms)
           | _ =>
               let found := normalized_terms ≫= λ term,
                 search (trigram_index l) term (contents (files l)) (contents_of order) in
               let walk := omap (λ path, file ← get_file l path; Some (path, file)) found in
               is_match ← literal_line_matcher normalized_terms case_sensitive (to_whole_word options);
               finish_text_search l
                 (listing (list_to_set (paths_in_scope false options globs targets walk)))
                 (listing (list_to_set (paths_in_scope true options globs targets walk)))
                 is_match (text_label normalized_terms) (effective_options options normalized_terms)
           end
  end.

Definition search_text (order : list (str * Row)) (listing : gset str → list str) (l : LiveIndex)
    (query : option str) (terms : option (list str)) (regex : bool) : Outcome (Result TextSearchResult TextSearchError) :=
  search_text_with_options order listing l query terms regex text_options_for_current_code_search.
End search.

(** ** Structural search

    The pattern compiler and the matcher on syntax trees are ast-grep's. *)

Record StructuralMatch := mkStructural {
  sg_start_byte : nat;
  sg_end_byte : nat;
  sg_start_line : nat;
  sg_start_col : nat;
  sg_text : str;
  sg_captures : list (str * str);
}.

Definition capture_display (capture : str * str) : Outcome str :=
  let '(name, val) := capture in
  short ← (if 40 <? length val then head ← str_prefix val 37; Done (head ++ bs "...") else Done val);
  Done (bs "$" ++ name ++ bs "=" ++ short).

Definition structural_display (sm : StructuralMatch) : Outcome str :=
  let first_line := default (sg_text sm) (head (lines (sg_text sm))) in
  match sg_captures sm with
  | [] => Done first_line
  | captures =>
      caps ← collect_outcomes (capture_display <$> captures);
      Done (first_line ++ bs "  // " ++ join (bs ", ") caps)
  end.

(** The loop over the matches of a file: suppressed matches and the kept ones. *)
Fixpoint structural_matches (test_ranges : list (N * N)) (per_file_limit : N) (file : IndexedFile)
    (sms : list StructuralMatch) (kept : nat) : Outcome (nat * list TextLineMatch) :=
  match sms with
  | [] => Done (0, [])
  | sm :: sms =>
      let line_idx := sg_start_line sm in
      if in_line_ranges test_ranges (as_u32 line_idx) then
        '(suppressed, matches) ← structural_matches test_ranges per_file_limit file sms kept;
        Done (S suppressed, matches)
      else
        display ← structural_display sm;
        let m := mkLineMatch (N.of_nat line_idx + 1) display (enclosing_match_symbol file line_idx) in
        if (per_file_limit <=? N.of_nat (S kept))%N then Done (0, [m])
        else
          '(suppressed, matches) ← structural_matches test_ranges per_file_limit file sms (S kept);
          Done (suppressed, m :: matches)
  end.

Section structural.
Context `{TextMatchers} {Compiled : Type}.
Context (compile_pattern : str → LanguageId → bool → Result Compiled str)
        (structural_search_with_compiled : str → Compiled → list StructuralMatch).

Record StructuralState := mkStructuralState {
  ss_files : list TextFileMatches;
  ss_total : nat;
  ss_suppressed : nat;
  ss_compiled : gmap (LanguageId * bool * str) (Result Compiled str);
  ss_any_parse_succeeded : bool;
  ss_first_syntax_error : option str;
  ss_first_unsupported_error : option str;
}.

Definition structural_start : StructuralState := mkStructuralState [] 0 0 ∅ false None None.

Definition record_compile_error (e : str) (st : StructuralState) : StructuralState :=
  let keep old := match old with Some _ => old | None => Some e end in
  let syntax := starts_with (bs "invalid structural pattern") e in
  mkStructuralState (ss_files st) (ss_total st) (ss_suppressed st) (ss_compiled st) (ss_any_parse_succeeded st)
    (if syntax then keep (ss_first_syntax_error st) else ss_first_syntax_error st)
    (if syntax then ss_first_unsupported_error st else keep (ss_first_unsupported_error st)).

(** One candidate.  [entry(..).or_insert_with(..)] compiles at most once per key. *)
Definition structural_file (l : LiveIndex) (pattern : str) (options : TextSearchOptions) (path : str)
    (lang : LanguageId) (st : StructuralState) : Outcome StructuralState :=
  match get_file l path with
  | None => Done st
  | Some file =>
      let content := from_utf8_lossy (f_content file) in
      let key := (lang, is_tsx_path path, pattern) in
      let compiled := default (compile_pattern pattern lang (is_tsx_path path)) (ss_compiled st !! key) in
      let st := mkStructuralState (ss_files st) (ss_total st) (ss_suppressed st) (<[key := compiled]> (ss_compiled st))
                  (ss_any_parse_succeeded st) (ss_first_syntax_error st) (ss_first_unsupported_error st) in
      match compiled with
      | Err e => Done (record_compile_error e st)
      | Ok compiled =>
          let with_matches files total suppressed :=
            mkStructuralState files total suppressed (ss_compiled st) true (ss_first_syntax_error st)
              (ss_first_unsupported_error st) in
          match structural_search_with_compiled content compiled with
          | [] => Done (with_matches (ss_files st) (ss_total st) (ss_suppressed st))
          | sms =>
              let test_ranges :=
                if negb (include_tests (to_noise_policy options)) && bool_decide (lang = Rust)
                then compute_test_ranges file else [] in
              let per_file_limit := N.min (to_max_per_file options) (to_total_limit options - N.of_nat (ss_total st)) in
              '(suppressed, matches) ← structural_matches test_ranges per_file_limit file sms 0;
              match matches with
              | [] => Done (with_matches (ss_files st) (ss_total st) (ss_suppressed st + suppressed))
              | _ =>
                  rendered ← match to_context options with
                             | Some ctx => r ← build_context_rendered_lines content matches ctx; Done (Some r)
                             | None => Done None
                             end;
                  Done (with_matches (ss_files st ++ [mkFileMatches path matches rendered None])
                          (ss_total st + length matches) (ss_suppressed st + suppressed))
              end
          end
      end
  end.

Fixpoint structural_loop (l : LiveIndex) (pattern : str) (options : TextSearchOptions)
    (candidates : list (str * LanguageId)) (st : StructuralState) : Outcome StructuralState :=
  match candidates with
  | [] => Done st
  | (path, lang) :: candidates =>
      if (to_total_limit options <=? N.of_nat (ss_total st))%N then Done st
      else st ← structural_file l pattern options path lang st; structural_loop l pattern options candidates st
  end.

Definition structural_candidates (order : list (str * Row)) (l : LiveIndex) (options : TextSearchOptions)
    (globs : option (str → bool) * option (str → bool)) : list (str * LanguageId) :=
  sort_by (by_key fst str_le) (prod_map id f_language <$>
    filter (λ '(path, file), Is_true (file_matches_text_options options globs (indexed_targets_by_path l) path file))
      (all_files order)).

Definition search_structural_with_compiler (order : list (str * Row)) (l : LiveIndex) (pattern : str)
    (options : TextSearchOptions) : Outcome (Result TextSearchResult TextSearchError) :=
  match compile_text_glob_filters options with
  | Err e => Done (Err e)
  | Ok globs =>
      st ← structural_loop l pattern options (structural_candidates order l options globs) structural_start;
      Done match ss_any_parse_succeeded st, ss_first_syntax_error st, ss_first_unsupported_error st with
           | false, Some error, _ => Err (InvalidStructuralPattern pattern error)
           | false, None, Some sample_error => Err (UnsupportedStructuralLanguage pattern sample_error)
           | _, _, _ =>
               let '(policy, size) := count_in_scope_withheld_files l (to_path_scope options) in
               Ok (mkTextResult (bs "structural '" ++ pattern ++ bs "'") (ss_total st) (ss_files st) (ss_suppressed st) 0
                     (count_in_scope_knowledge_only_files l (to_path_scope options) (to_search_scope options)) policy size)
           end
  end.
End structural.

(** ** Showing never panics *)

Definition is_done {A} (o : Outcome A) : Prop := ∃ a, o = Done a.

Lemma collect_outcomes_done {A} (os : list (Outcome A)) : Forall is_done os → is_done (collect_outcomes os).
Proof. induction 1 as [|o os [a ->] _ [r Hr]]; [by eexists|]. simpl. rewrite Hr. by eexists. Qed.

Definition window_ok (n : nat) (w : N * N) : Prop := (1 ≤ w.1)%N ∧ (w.2 ≤ N.of_nat n)%N.

Lemma windows_ok context n ms ws :
  Forall (window_ok n) ws → Forall (window_ok n) (fold_left (push_window context n) ms ws).
Proof.
  revert ws. induction ms as [|m ms IH]; intros ws Hws; [done|]. apply IH. unfold push_window.
  assert (window_ok n (N.max (tm_line_number m - context) 1, N.min (u64_add (tm_line_number m) context) (N.of_nat n)))
    by (split; simpl; lia).
  destruct Hws as [|[first last_end] ws [Hf Hl] Hws]; [by constructor|].
  destruct (_ <=? _)%N; constructor; [|done|done|by constructor]. split; simpl in *; lia.
Qed.

Lemma elem_of_inclusive_range a b k : k ∈ inclusive_range a b ↔ (a ≤ k ≤ b)%N.
Proof.
  unfold inclusive_range. rewrite list_elem_of_fmap. split.
  - intros (i & -> & Hi%elem_of_seq). lia.
  - intros Hk. exists (N.to_nat k). rewrite elem_of_seq. lia.
Qed.

Lemma render_line_done ls ms k : (1 ≤ k ≤ N.of_nat (length ls))%N → is_done (render_line ls ms k).
Proof.
  intros Hk. unfold render_line. destruct (lookup_lt_is_Some_2 ls (N.to_nat (k - 1))) as [line ->]; [lia|].
  destruct (truncate_total line) as [shown ->]. by eexists.
Qed.

Lemma render_windows_done ls ms first ws :
  Forall (window_ok (length ls)) ws → is_done (render_windows ls ms first ws).
Proof.
  intros Hws. revert first. induction Hws as [|[a b] ws [Ha Hb] _ IH]; intros first; [by eexists|]. simpl in *.
  destruct (collect_outcomes_done (render_line ls ms <$> inclusive_range a b)) as [shown ->].
  - apply Forall_fmap, Forall_forall. intros k Hk%elem_of_inclusive_range. apply render_line_done. lia.
  - simpl. destruct (IH false) as [rest ->]. by eexists.
Qed.

Lemma build_context_done content ms context : is_done (build_context_rendered_lines content ms context).
Proof.
  unfold build_context_rendered_lines. destruct ms as [|m ms]; [by eexists|].
  destruct (content_lines content) as [|x ls] eqn:E; [by eexists|]. apply render_windows_done.
  unfold context_windows. rewrite Forall_reverse. by apply windows_ok.
Qed.

Lemma attach_done l options fm : is_done (attach_text_match_context l options fm).
Proof.
  unfold attach_text_match_context. destruct (to_context options); [|by eexists].
  destruct (get_file l (tf_path fm)); [|by eexists]. edestruct build_context_done as [r ->]. by eexists.
Qed.

Lemma pick_files_done l options i total buckets : is_done (pick_files l options i total buckets).
Proof.
  revert i total. induction buckets as [|b buckets IH]; intros i total; cbn [pick_files]; [by eexists|].
  destruct (if to_ranked options then _ else _); [by eexists|]. destruct (_ =? 0)%N; [by eexists|].
  destruct (truncate _ _) as [|m ms] eqn:Et; [apply IH|].
  assert (is_done (if to_ranked options then Done (mkFileMatches (pb_path b) (m :: ms) None None)
    else attach_text_match_context l options (mkFileMatches (pb_path b) (m :: ms) None None))) as [fm ->].
  { destruct (to_ranked options); [by eexists|apply attach_done]. }
  cbn [mbind Outcome_bind]. destruct (IH (S i) (total + length (m :: ms))) as [[t r] ->]. by eexists.
Qed.

Lemma rerank_done l options files : is_done (rerank l options files).
Proof.
  unfold rerank. edestruct (collect_outcomes_done (A := TextFileMatches)) as [r Hr]; [|rewrite Hr; by eexists].
  apply Forall_fmap, Forall_forall. intros fm _. apply attach_done.
Qed.

(** ** What a scan of one file finds *)

Lemma sum_list_cons (n : nat) ns : sum_list (n :: ns) = n + sum_list ns.
Proof. done. Qed.

Section scans.
Context (l : LiveIndex) (options : TextSearchOptions) (is_match : str → bool).

(** The hits of a file: the lines that match, with their index. *)
Definition hits_from (n : nat) (ls : list str) : list (nat * str) :=
  filter (λ h, is_match (trim_end_matches x0d h.2) = true) (zip (seq n (length ls)) ls).

Definition file_lines (file : IndexedFile) : list str := lines (from_utf8_lossy (f_content file)).
Definition hits_of (file : IndexedFile) : list (nat * str) := hits_from 0 (file_lines file).
Definition suppressed_hit (file : IndexedFile) (h : nat * str) : Prop :=
  in_line_ranges (test_ranges_of options file) (as_u32 h.1) = true.
#[global] Instance suppressed_hit_dec file h : Decision (suppressed_hit file h).
Proof. unfold suppressed_hit. apply _. Defined.
Definition visible_hits (file : IndexedFile) : list (nat * str) := filter (λ h, ¬ suppressed_hit file h) (hits_of file).
Definition hidden_hits (file : IndexedFile) : list (nat * str) := filter (suppressed_hit file) (hits_of file).

Definition shown_line (line : str) : str :=
  match truncate_display_line line with Done shown => shown | Panic => line end.

Definition line_match (file : IndexedFile) (h : nat * str) : TextLineMatch :=
  mkLineMatch (N.of_nat h.1 + 1) (shown_line (trim_end_matches x0d h.2)) (enclosing_match_symbol file h.1).

Lemma truncate_shown line : truncate_display_line line = Done (shown_line line).
Proof. unfold shown_line. by destruct (truncate_total line) as [shown ->]. Qed.

Lemma hits_from_cons n line ls :
  hits_from n (line :: ls) =
  (if is_match (trim_end_matches x0d line) then [(n, line)] else []) ++ hits_from (S n) ls.
Proof.
  unfold hits_from. simpl. rewrite filter_cons. simpl. case_decide as E; [by rewrite E|].
  by rewrite (not_true_is_false _ E).
Qed.

Lemma scan_file_spec file n ls kept :
  scan_file is_match (test_ranges_of options file) (to_max_per_file options) file n ls kept =
  let visible := filter (λ h, ¬ suppressed_hit file h) (hits_from n ls) in
  Done (length visible, length (filter (suppressed_hit file) (hits_from n ls)),
        line_match file <$> take (N.to_nat (to_max_per_file options - N.of_nat kept)) visible).
Proof.
  revert n kept. induction ls as [|line ls IH]; intros n kept; [cbv zeta; change (hits_from n []) with (@nil (nat * str)); by destruct (N.to_nat _)|].
  cbn [scan_file]. rewrite hits_from_cons. destruct (is_match (trim_end_matches x0d line)) eqn:Em; simpl; [|by rewrite IH].
  destruct (decide (suppressed_hit file (n, line))) as [Hs|Hs].
  { rewrite filter_cons_False, filter_cons_True by tauto. unfold suppressed_hit in Hs. simpl in Hs. by rewrite Hs, IH. }
  rewrite filter_cons_True, (filter_cons_False (suppressed_hit file)) by tauto.
  unfold suppressed_hit in Hs. simpl in Hs. rewrite (not_true_is_false _ Hs).
  destruct (N.ltb_spec (N.of_nat kept) (to_max_per_file options)).
  - rewrite truncate_shown. simpl. rewrite IH. simpl.
    replace (N.to_nat (to_max_per_file options - N.of_nat kept))
      with (S (N.to_nat (to_max_per_file options - N.of_nat (S kept)))) by lia. done.
  - rewrite IH. simpl. by replace (N.to_nat (to_max_per_file options - N.of_nat kept)) with 0 by lia.
Qed.

Lemma scan_candidate_spec file :
  scan_candidate options is_match file =
  Done (length (visible_hits file), length (hidden_hits file),
        line_match file <$> take (N.to_nat (to_max_per_file options)) (visible_hits file)).
Proof. unfold scan_candidate. rewrite scan_file_spec. simpl. by rewrite N.sub_0_r. Qed.

(** Per path, nothing when the file is not served. *)
Definition on_file {A} (d : A) (f : IndexedFile → A) (path : str) : A :=
  match get_file l path with Some file => f file | None => d end.

Definition bucket_of (path : str) : option PathMatchBucket :=
  on_file None (λ file, if 0 <? length (visible_hits file)
    then Some (mkBucket path (length (visible_hits file))
                 (line_match file <$> take (N.to_nat (to_max_per_file options)) (visible_hits file)))
    else None) path.

Lemma scan_candidates_spec paths :
  scan_candidates l options is_match paths =
  Done (sum_list (on_file 0 (length ∘ hidden_hits) <$> paths), sum_list (on_file 0 (length ∘ visible_hits) <$> paths),
        omap bucket_of paths).
Proof.
  induction paths as [|path paths IH]; [done|]. cbn [scan_candidates fmap list_fmap sum_list omap list_omap].
  assert (∀ A (d : A) f, on_file d f path = match get_file l path with Some file => f file | None => d end) as Hf by done.
  unfold bucket_of at 1. rewrite !Hf. destruct (get_file l path) as [file|]; [|by rewrite IH].
  rewrite scan_candidate_spec, IH. cbn [mbind Outcome_bind]. by destruct (0 <? length (visible_hits file)).
Qed.

Lemma count_lines_spec cap ls n count :
  cap = SUPPRESSED_TEXT_MATCH_DISPLAY_CAP → count ≤ cap →
  count_lines is_match ls count =
  if count + length (hits_from n ls) <=? cap then Ok (count + length (hits_from n ls)) else Err (S cap).
Proof.
  intros Ecap. revert n count. induction ls as [|line ls IH]; intros n count Hc; cbn [count_lines].
  - simpl. rewrite Nat.add_0_r. by destruct (Nat.leb_spec count cap); [|lia].
  - rewrite hits_from_cons. rewrite <-Ecap. destruct (is_match _); cbn [negb app]; [|by apply IH].
    cbn [length]. destruct (Nat.ltb_spec cap (S count)).
    + by destruct (Nat.leb_spec (count + S (length (hits_from (S n) ls))) cap); [lia|].
    + rewrite (IH (S n)) by lia. by rewrite Nat.add_succ_comm.
Qed.

Lemma count_suppressed_spec paths :
  count_suppressed_text_matches l paths is_match =
  Nat.min (S SUPPRESSED_TEXT_MATCH_DISPLAY_CAP) (sum_list (on_file 0 (length ∘ hits_of) <$> paths)).
Proof.
  unfold count_suppressed_text_matches. remember SUPPRESSED_TEXT_MATCH_DISPLAY_CAP as cap eqn:Ecap.
  assert (∀ count, count ≤ cap → count_suppressed_loop l is_match paths count =
    Nat.min (S cap) (count + sum_list (on_file 0 (length ∘ hits_of) <$> paths))) as Hl; [|by rewrite Hl by lia].
  induction paths as [|path paths IH]; intros count Hc; cbn [count_suppressed_loop].
  { replace (sum_list _) with 0 by done. lia. }
  rewrite fmap_cons, sum_list_cons. unfold on_file at 1.
  destruct (get_file l path) as [file|]; [|by rewrite IH]. cbn [compose].
  rewrite (count_lines_spec cap _ 0) by done. fold (file_lines file). fold (hits_of file).
  destruct (Nat.leb_spec (count + length (hits_of file)) cap); [|unfold compose; lia]. rewrite IH by lia.
  unfold compose. f_equal. lia.
Qed.

(** ** Only the files with hits matter, in any order *)

Definition has_hits (path : str) : bool := on_file false (λ file, 0 <? length (hits_of file)) path.

Lemma no_hits path :
  has_hits path = false →
  on_file 0 (length ∘ hidden_hits) path = 0 ∧ on_file 0 (length ∘ visible_hits) path = 0 ∧
  on_file 0 (length ∘ hits_of) path = 0 ∧ bucket_of path = None.
Proof.
  unfold has_hits, bucket_of, on_file. destruct (get_file l path) as [file|]; [|done].
  intros Hn%Nat.ltb_ge. assert (hits_of file = []) as E by (apply nil_length_inv; lia).
  assert (hidden_hits file = []) as Eh by (unfold hidden_hits; by rewrite E).
  assert (visible_hits file = []) as Ev by (unfold visible_hits; by rewrite E).
  unfold compose. by rewrite Eh, Ev, E.
Qed.

Lemma sum_with_hits (f : str → nat) paths :
  (∀ path, has_hits path = false → f path = 0) →
  sum_list (f <$> paths) = sum_list (f <$> filter (λ p, has_hits p = true) paths).
Proof.
  intros Hf. induction paths as [|path paths IH]; [done|]. rewrite fmap_cons, filter_cons. simpl. rewrite IH.
  destruct (has_hits path) eqn:E; [by rewrite decide_True|]. by rewrite decide_False, Hf.
Qed.

Lemma buckets_with_hits (paths : list str) :
  omap bucket_of paths = omap bucket_of (filter (λ p, has_hits p = true) paths).
Proof.
  induction paths as [|path paths IH]; [done|]. rewrite filter_cons. cbn [omap list_omap]. rewrite IH.
  destruct (has_hits path) eqn:E; [by rewrite decide_True|]. rewrite decide_False by done.
  destruct (no_hits path E) as (_ & _ & _ & ->). done.
Qed.

Lemma bucket_of_path path b : bucket_of path = Some b → pb_path b = path.
Proof.
  unfold bucket_of, on_file. destruct (get_file l path) as [file|]; [|done].
  destruct (0 <? _); [|done]. by intros [= <-].
Qed.

Lemma sort_buckets (paths paths' : list str) :
  omap bucket_of paths ≡ₚ omap bucket_of paths' →
  sort_by bucket_le (omap bucket_of paths) = sort_by bucket_le (omap bucket_of paths').
Proof.
  intros Hp. unfold bucket_le. apply sort_by_unique; [apply _..| |done]. intros b b' Hb Hb' H1 H2.
  apply list_elem_of_omap in Hb as (p & _ & Eb). apply list_elem_of_omap in Hb' as (p' & _ & Eb').
  destruct (then_le_both _ _ _ b b' _ H1 H2) as (_ & H3 & H4). unfold by_key in *.
  pose proof (bucket_of_path p b Eb). pose proof (bucket_of_path p' b' Eb').
  assert (p = p') as <- by (subst; by apply (anti_symm str_le)). congruence.
Qed.

Lemma finish_done paths hidden label : ∃ r, finish_text_search l paths hidden is_match label options = Done (Ok r).
Proof.
  unfold finish_text_search, collect_text_matches. rewrite scan_candidates_spec. cbn [mbind Outcome_bind].
  edestruct (pick_files_done l options 0 0) as [[total fs] ->]. cbn [mbind Outcome_bind].
  assert (is_done (if to_ranked options then rerank l options fs else Done (total, fs))) as [[total' fs'] ->].
  { destruct (to_ranked options); [apply rerank_done|by eexists]. }
  cbn [mbind Outcome_bind]. destruct (count_in_scope_withheld_files l (to_path_scope options)). by eexists.
Qed.

Lemma same_answer paths paths' hidden hidden' label :
  filter (λ p, has_hits p = true) paths ≡ₚ filter (λ p, has_hits p = true) paths' →
  filter (λ p, has_hits p = true) hidden ≡ₚ filter (λ p, has_hits p = true) hidden' →
  finish_text_search l paths hidden is_match label options = finish_text_search l paths' hidden' is_match label options.
Proof.
  intros Hp Hh. unfold finish_text_search, collect_text_matches. rewrite !scan_candidates_spec.
  rewrite !count_suppressed_spec.
  assert (∀ f : str → nat, (∀ path, has_hits path = false → f path = 0) →
    sum_list (f <$> paths) = sum_list (f <$> paths')) as Hsum.
  { intros f Hf. by rewrite (sum_with_hits f paths), (sum_with_hits f paths'), Hp by done. }
  rewrite !(Hsum (on_file _ _)) by (intros path E; apply (no_hits path E)).
  assert (sum_list (on_file 0 (length ∘ hits_of) <$> hidden) = sum_list (on_file 0 (length ∘ hits_of) <$> hidden')) as ->.
  { by rewrite (sum_with_hits _ hidden), (sum_with_hits _ hidden'), Hh by (intros path E; apply (no_hits path E)). }
  cbn [mbind Outcome_bind]. rewrite (sort_buckets paths paths'); [done|].
  by rewrite buckets_with_hits, (buckets_with_hits paths'), Hp.
Qed.
End scans.

(** ** The trigram index loses no hit *)

Section complete.
Context `{TextMatchers} `{CaseTables}.

Lemma normalized_nonempty query terms : Forall (λ t, t ≠ []) (normalize_terms query terms).
Proof.
  assert (Forall (λ t : str, t ≠ []) (option_list (query ≫= λ text,
    let text := trim text in if decide (text = []) then None else Some text))) as Hq.
  { destruct query as [q|]; simpl; [|constructor]. case_decide; simpl; [constructor|by apply Forall_singleton]. }
  unfold normalize_terms. destruct terms as [[|t ts]|]; [done| |done].
  apply Forall_forall. intros x Hx. by apply list_elem_of_filter in Hx as [? _].
Qed.

(** Every line that matches is in a file that contains one of the terms, in some case. *)
Definition prefilter_covers (l : LiveIndex) (terms : list str) (is_match : str → bool) : Prop :=
  ∀ path row line, files l !! path = Some row → line ∈ file_lines (row_file row) →
    is_match (trim_end_matches x0d line) = true → ∃ t, t ∈ terms ∧ occurs_ci (f_content (row_file row)) t.

Lemma get_file_row l path file : get_file l path = Some file → ∃ row, files l !! path = Some row ∧ row_file row = file.
Proof. unfold get_file. intros E. repeat case_match; try done; by apply fmap_Some in E as (row & ? & ->); eauto. Qed.

Lemma elem_of_paths_in_scope hidden options globs targets walk path :
  path ∈ paths_in_scope hidden options globs targets walk ↔
  ∃ file, (path, file) ∈ walk ∧ file_matches_text_base_scope options globs targets path file = true ∧
    file_hidden_by_search_policy options path file = hidden.
Proof.
  unfold paths_in_scope. rewrite list_elem_of_fmap. split.
  - intros ([p file] & -> & Hf). apply list_elem_of_filter in Hf as [Hb Hin].
    apply Is_true_true, andb_true_iff in Hb as [Hb He%eqb_prop]. eauto.
  - intros (file & Hin & Hb & <-). exists (path, file). split; [done|]. apply list_elem_of_filter. split; [|done].
    by rewrite Hb, eqb_reflx.
Qed.

Lemma has_hits_line l is_match path :
  has_hits l is_match path = true → ∃ file line, get_file l path = Some file ∧ line ∈ file_lines file ∧
    is_match (trim_end_matches x0d line) = true.
Proof.
  unfold has_hits, on_file. destruct (get_file l path) as [file|]; [|done]. intros Hn%Nat.ltb_lt.
  destruct (hits_of is_match file) as [|[i line] hs] eqn:E; [simpl in Hn; lia|].
  assert ((i, line) ∈ hits_of is_match file) as Hin by (rewrite E; left).
  apply list_elem_of_filter in Hin as [Hm Hin]. apply elem_of_zip_r in Hin. eauto.
Qed.

Lemma candidates_complete l order listing terms is_match hidden options globs targets :
  coherent l → order ≡ₚ map_to_list (files l) → (∀ X : gset str, listing X ≡ₚ elements X) →
  Forall (λ t, t ≠ []) terms → prefilter_covers l terms is_match →
  let found := terms ≫= λ term, search (trigram_index l) term (contents (files l)) (contents_of order) in
  let walk := omap (λ path, file ← get_file l path; Some (path, file)) found in
  filter (λ p, has_hits l is_match p = true)
    (listing (list_to_set (paths_in_scope hidden options globs targets walk))) ≡ₚ
  filter (λ p, has_hits l is_match p = true) (paths_in_scope hidden options globs targets (all_files order)).
Proof.
  intros Hc Ho Hl Ht Hcov found walk. apply NoDup_Permutation.
  - apply NoDup_filter. rewrite Hl. apply NoDup_elements.
  - apply NoDup_filter. unfold paths_in_scope, all_files.
    eapply sublist_NoDup; [|apply fmap_sublist, sublist_filter].
    rewrite <-list_fmap_compose. change (NoDup (fst ∘ prod_map id row_file <$> order)).
    rewrite (list_fmap_ext _ fst) by (by intros ? [] ?). rewrite Ho. apply NoDup_fst_map_to_list.
  - intros path. rewrite !list_elem_of_filter, Hl, elem_of_elements, elem_of_list_to_set, !elem_of_paths_in_scope.
    split; intros (Hh & file & Hin & Hb); (split; [done|]); exists file; (split; [|done]).
    + apply list_elem_of_omap in Hin as (p & _ & E). destruct (get_file l p) as [f|] eqn:Eg; [|done]. simplify_eq/=.
      apply get_file_row in Eg as (row & Er & <-). apply list_elem_of_fmap. exists (path, row).
      split; [done|]. by rewrite Ho, elem_of_map_to_list.
    + apply has_hits_line in Hh as (file' & line & Eg & Hline & Hm).
      apply list_elem_of_fmap in Hin as ([p row] & E & Hin). unfold prod_map, id in E. injection E as <- ->.
      rewrite Ho, elem_of_map_to_list in Hin. pose proof (get_file_row _ _ _ Eg) as (row' & Er & Ef).
      assert (row' = row) as -> by congruence. subst file'.
      apply list_elem_of_omap. exists path. rewrite Eg. split; [|done].
      destruct (Hcov path row line Er Hline Hm) as (t & Htin & Hocc). apply list_elem_of_bind. exists t. split; [|done].
      rewrite Forall_forall in Ht. rewrite (search_faithful _ t (contents (files l))); [|apply Hc| |by apply Ht].
      * apply elem_of_scan. exists (f_content (row_file row)). split; [|by apply contains_bytes_ci_spec].
        apply list_elem_of_fmap. exists (path, row). by rewrite Ho, elem_of_map_to_list.
      * unfold contents_of, contents. rewrite Ho, map_to_list_fmap. done.
Qed.
Lemma contains_ci t s : contains_str t s = true → contains_str (lowercase t) (lowercase s) = true.
Proof.
  rewrite !contains_str_true. intros (u & v & ->). exists (lowercase u), (lowercase v). unfold lowercase.
  by rewrite !fmap_app.
Qed.

(** A line of a file that contains an ASCII term in any case: so does the file. *)
Lemma line_occurs file line t :
  t ≠ [] → Forall ascii_byte t → line ∈ file_lines file →
  contains_str (lowercase t) (lowercase (trim_end_matches x0d line)) = true → occurs_ci (f_content file) t.
Proof.
  intros Hne Ht Hline Hc. apply lines_piece in Hline as (u & v & E).
  destruct (trim_end_matches_spec x0d line) as [k Ek]. apply contains_str_true in Hc as (x & y & Ec).
  unfold occurs_ci. apply (lossy_occurs (lowercase t) _ (lowercase u ++ x) (y ++ lowercase (replicate k x0d) ++ lowercase v)).
  - by destruct t.
  - unfold lowercase. apply Forall_fmap. eapply Forall_impl; [exact Ht|]. intros b Hb. simpl. unfold ascii_byte in *.
    destruct b; vm_compute in Hb |- *; done.
  - rewrite E. rewrite Ek at 1. unfold lowercase in *. rewrite !fmap_app, Ec. by rewrite <-!app_assoc.
Qed.

Context (ac_law : ∀ terms ci, ∃ f, aho_corasick terms ci = Ok f ∧ ∀ line, f line = true ↔
           ∃ t, t ∈ terms ∧ contains_str (if ci then lowercase t else t) (if ci then lowercase line else line) = true)
        (lower_law : ∀ s, Forall ascii_byte s → to_lowercase s = lowercase s).

Lemma literal_matcher_covers l terms case_sensitive :
  Forall (λ t, t ≠ [] ∧ Forall ascii_byte t) terms →
  case_sensitive = true ∨ 1 < length terms ∨
    (∀ path row, files l !! path = Some row → Forall ascii_byte (f_content (row_file row))) →
  ∃ is_match, literal_line_matcher terms case_sensitive false = Done is_match ∧ prefilter_covers l terms is_match.
Proof.
  intros Ht Hcase. unfold literal_line_matcher. cbn [mbind Outcome_bind]. rewrite Forall_forall in Ht.
  assert (∀ path row line t, files l !! path = Some row → line ∈ file_lines (row_file row) → t ∈ terms →
    contains_str (lowercase t) (lowercase (trim_end_matches x0d line)) = true →
    ∃ t, t ∈ terms ∧ occurs_ci (f_content (row_file row)) t) as Hocc.
  { intros path row line t _ Hline Hin Hc. exists t. destruct (Ht t Hin). split; [done|]. by eapply line_occurs. }
  assert (forallb is_ascii terms = true) as Hascii.
  { apply forallb_forall. intros t Hin%list_elem_of_In. apply forallb_forall. intros b Hb%list_elem_of_In.
    destruct (Ht t Hin) as [_ Ha]. rewrite Forall_forall in Ha. by apply Ha. }
  rewrite Hascii. destruct (Nat.ltb_spec 1 (length terms)) as [Hlen|Hlen]; cbn [negb andb].
  - destruct (ac_law terms (negb case_sensitive)) as (f & -> & Hf). eexists. split; [done|].
    intros path row line Hrow Hline (t & Hin & Hc)%Hf. eapply Hocc; [done..|].
    destruct case_sensitive; [by apply contains_ci|done].
  - eexists. split; [done|]. intros path row line Hrow Hline. destruct case_sensitive.
    + intros (t & Hin%list_elem_of_In & Hc)%existsb_exists. eapply Hocc; [done..|]. by apply contains_ci.
    + destruct Hcase as [|[|Hfile]]; [done|lia|]. intros (t & Hin%list_elem_of_In & Hc)%existsb_exists.
      eapply Hocc; [done..|]. specialize (Hfile path row Hrow). rewrite lower_law in Hc by (by apply Ht).
      rewrite lower_law in Hc; [done|]. unfold file_lines in Hline. rewrite lossy_ascii in Hline by done.
      apply lines_piece in Hline as (u & v & E). rewrite E in Hfile.
      apply Forall_app in Hfile as [_ Hfile]. apply Forall_app in Hfile as [Hfile _].
      destruct (trim_end_matches_spec x0d line) as [k Ek]. rewrite Ek in Hfile. by apply Forall_app in Hfile as [? _].
Qed.

(** C18: the trigram index loses no hit and adds none.  A literal search, with whole-word
    matching off, for at least one term, all terms ASCII, and with globs that compile, answers
    what a scan of every file in scope answers: the same hits, in the same order, with the
    same counts of what was suppressed or did not fit, however the hash sets are listed; and
    it does answer.  Moreover one of these holds: the search is case sensitive, or there is
    more than one term, or the files are ASCII.  The index is [coherent], an invariant of
    every run of the live index. *)
Theorem text_search_equals_scan order listing l query terms options globs :
  let ts := normalize_terms query terms in
  let case_sensitive := default false (to_case_sensitive options) in
  let in_scope hidden := paths_in_scope hidden options globs (indexed_targets_by_path l) (all_files order) in
  coherent l → order ≡ₚ map_to_list (files l) → (∀ X : gset str, listing X ≡ₚ elements X) →
  compile_text_glob_filters options = Ok globs → ts ≠ [] → to_whole_word options = false →
  Forall (Forall ascii_byte) ts →
  case_sensitive = true ∨ 1 < length ts ∨
    (∀ path row, files l !! path = Some row → Forall ascii_byte (f_content (row_file row))) →
  ∃ is_match r, literal_line_matcher ts case_sensitive false = Done is_match ∧
    search_text_with_options order listing l query terms false options = Done (Ok r) ∧
    finish_text_search l (in_scope false) (in_scope true) is_match (text_label ts) (effective_options options ts) =
      Done (Ok r).
Proof.
  intros ts case_sensitive in_scope Hc Ho Hl Hg Hts Hw Hascii Hcase.
  assert (Forall (λ t, t ≠ []) ts) as Hne by apply normalized_nonempty.
  destruct (literal_matcher_covers l ts case_sensitive) as (is_match & Em & Hcov); [|done|].
  { rewrite Forall_forall in *. naive_solver. }
  destruct (finish_done l (effective_options options ts) is_match (in_scope false) (in_scope true) (text_label ts)) as [r Hr].
  exists is_match, r. split_and!; [done| |done]. rewrite <-Hr.
  unfold search_text_with_options. rewrite Hg, Hw. fold ts. fold case_sensitive.
  destruct ts as [|t ts'] eqn:Ets; [done|]. rewrite <-Ets in *. rewrite Em. cbn [mbind Outcome_bind].
  apply same_answer; by apply candidates_complete.
Qed.
End complete.

(** ** Every hit is shown or counted *)

Section accounted.
Context (l : LiveIndex) (options : TextSearchOptions) (is_match : str → bool).

Lemma truncate_prefix {A} n (k : list A) : truncate n k `prefix_of` k ∧ (N.of_nat (length (truncate n k)) ≤ n)%N.
Proof.
  unfold truncate. destruct (N.ltb_spec n (N.of_nat (length k))); [|split; [done|lia]].
  split; [by apply prefix_take|]. rewrite length_take. lia.
Qed.

(** A file as it is shown: the first visible hits of a candidate, at most [max_per_file]. *)
Definition shows (fm : TextFileMatches) : Prop :=
  ∃ file, get_file l (tf_path fm) = Some file ∧
    tf_matches fm `prefix_of` (line_match file <$> visible_hits options is_match file) ∧
    (N.of_nat (length (tf_matches fm)) ≤ to_max_per_file options)%N.

Lemma shows_less fm fm' :
  tf_path fm = tf_path fm' → tf_matches fm `prefix_of` tf_matches fm' → shows fm' → shows fm.
Proof.
  intros Ep Hp (file & Eg & Hv & Hm). exists file. rewrite Ep. split_and!; [done|by etrans|].
  apply prefix_length in Hp. lia.
Qed.

Lemma attach_keeps fm fm' :
  attach_text_match_context l options fm = Done fm' → tf_path fm' = tf_path fm ∧ tf_matches fm' = tf_matches fm.
Proof.
  unfold attach_text_match_context. repeat case_match; try (by intros [= <-]).
  intros (r & _ & [= <-])%Outcome_bind_Done. done.
Qed.

Lemma shown_nil : shown_matches [] = 0.
Proof. done. Qed.
Lemma shown_cons fm fs : shown_matches (fm :: fs) = length (tf_matches fm) + shown_matches fs.
Proof. done. Qed.

Definition good_bucket (b : PathMatchBucket) : Prop :=
  ∃ file, get_file l (pb_path b) = Some file ∧ pb_visible_count b = length (visible_hits options is_match file) ∧
    pb_matches b = line_match file <$> take (N.to_nat (to_max_per_file options)) (visible_hits options is_match file).

Lemma pick_files_shows i total bs t fs :
  Forall good_bucket bs → pick_files l options i total bs = Done (t, fs) →
  t = total + shown_matches fs ∧ shown_matches fs ≤ sum_list (pb_visible_count <$> bs) ∧ Forall shows fs ∧
  (to_ranked options = false → (N.of_nat total ≤ to_total_limit options)%N → (N.of_nat t ≤ to_total_limit options)%N).
Proof.
  revert i total t fs. induction bs as [|b bs IH]; intros i total t fs Hbs; cbn [pick_files].
  { intros [= <- <-]. rewrite shown_nil. split_and!; [lia|lia|constructor|done]. }
  apply Forall_cons in Hbs as [Hb Hbs]. rewrite fmap_cons, sum_list_cons.
  destruct (if to_ranked options then _ else _) eqn:Estop.
  { intros [= <- <-]. rewrite shown_nil. split_and!; [lia|lia|constructor|done]. }
  set (limit := if to_ranked options then _ else _). destruct (limit =? 0)%N.
  { intros [= <- <-]. rewrite shown_nil. split_and!; [lia|lia|constructor|done]. }
  destruct (truncate_prefix limit (pb_matches b)) as [Hp Hlen].
  destruct (truncate limit (pb_matches b)) as [|m ms] eqn:Et.
  { intros E. destruct (IH _ _ _ _ Hbs E) as (-> & Hle & Hf & Hlim). split_and!; [done|lia|done|done]. }
  rewrite <-Et in *. intros (fm & Efm & E)%Outcome_bind_Done. apply Outcome_bind_Done in E as ([t' rest] & Er & [= <- <-]).
  assert (tf_path fm = pb_path b ∧ tf_matches fm = truncate limit (pb_matches b)) as [Ep Em].
  { destruct (to_ranked options); [by injection Efm as <-|]. by apply attach_keeps in Efm. }
  destruct (IH _ _ _ _ Hbs Er) as (-> & Hle & Hf & Hlim). rewrite shown_cons, Em.
  destruct Hb as (file & Eg & Ec & Ems). pose proof (prefix_length _ _ Hp) as Hpl.
  pose proof (f_equal length Ems) as Hl. rewrite length_fmap, length_take in Hl. split_and!; [lia|lia| |].
  - constructor; [|done]. exists file. rewrite Ep, Em. split_and!; [done| |].
    + etrans; [exact Hp|]. rewrite Ems, <-firstn_map. apply prefix_take.
    + lia.
  - intros Hr Ht. apply Hlim; [done|].
    assert (limit ≤ to_total_limit options - N.of_nat total)%N by (unfold limit; rewrite Hr; lia). lia.
Qed.

Lemma retain_within_spec rem fs :
  Forall shows fs →
  Forall shows (retain_within rem fs) ∧ shown_matches (retain_within rem fs) ≤ shown_matches fs ∧
  (N.of_nat (shown_matches (retain_within rem fs)) ≤ rem)%N.
Proof.
  revert rem. induction fs as [|f fs IH]; intros rem Hfs; [cbn [retain_within]; rewrite shown_nil; split_and!; [done|lia|lia]|].
  apply Forall_cons in Hfs as [Hf Hfs]. cbn [retain_within]. destruct (rem =? 0)%N.
  { destruct (IH rem Hfs) as (? & ? & ?). rewrite shown_cons. split_and!; [done|lia|lia]. }
  destruct (truncate_prefix rem (tf_matches f)) as [Hp Hlen]. set (ms := truncate rem (tf_matches f)) in *.
  destruct (IH (rem - N.of_nat (length ms))%N Hfs) as (? & ? & ?). rewrite !shown_cons. simpl.
  apply prefix_length in Hp as Hpl. split_and!; [|lia|lia]. constructor; [|done]. by eapply (shows_less _ f).
Qed.

Lemma collect_attach fs fs' :
  collect_outcomes (attach_text_match_context l options <$> fs) = Done fs' →
  Forall shows fs → Forall shows fs' ∧ shown_matches fs' = shown_matches fs.
Proof.
  revert fs'. induction fs as [|f fs IH]; intros fs'; simpl; [by intros [= <-]|].
  intros (f' & Ef & E)%Outcome_bind_Done. apply Outcome_bind_Done in E as (rest & Er & [= <-]).
  intros [Hf Hfs]%Forall_cons. destruct (IH rest Er Hfs) as [H1 H2]. apply attach_keeps in Ef as [Ep Em].
  rewrite !shown_cons, Em, H2. split; [|done]. constructor; [|done]. eapply (shows_less _ f); [done|by rewrite Em|done].
Qed.

Lemma rerank_shows fs t fs' :
  Forall shows fs → rerank l options fs = Done (t, fs') →
  t = shown_matches fs' ∧ t ≤ shown_matches fs ∧ (N.of_nat t ≤ to_total_limit options)%N ∧ Forall shows fs'.
Proof.
  intros Hfs. unfold rerank. set (score := λ f : TextFileMatches, _). intros (x & Ex & [= <- <-])%Outcome_bind_Done.
  pose proof (sort_by_Permutation (score_ge score) fs) as Hp. set (sorted := sort_by (score_ge score) fs) in *.
  destruct (retain_within_spec (to_total_limit options) sorted) as (Hr & Hle & Hlim); [by rewrite Hp|].
  destruct (collect_attach _ _ Ex Hr) as [Hx Hs]. split_and!; [done| |done|done].
  etrans; [exact Hle|]. unfold shown_matches. by rewrite Hp.
Qed.

Lemma buckets_good (paths : list str) :
  Forall good_bucket (omap (bucket_of l options is_match) paths) ∧
  sum_list (pb_visible_count <$> omap (bucket_of l options is_match) paths) ≤
    sum_list (on_file l 0 (length ∘ visible_hits options is_match) <$> paths).
Proof.
  induction paths as [|path paths [IH1 IH2]]; [done|]. rewrite fmap_cons, sum_list_cons. cbn [omap list_omap].
  assert (Eb : ∀ A (d : A) f, on_file l d f path = match get_file l path with Some file => f file | None => d end) by done.
  assert (Ebucket : bucket_of l options is_match path = on_file l None _ path) by done.
  rewrite Ebucket, !Eb. destruct (get_file l path) as [file|] eqn:E; [|by split].
  destruct (Nat.ltb_spec 0 (length (visible_hits options is_match file))); [|split; [done|etrans; [exact IH2|lia]]].
  rewrite fmap_cons, sum_list_cons. simpl. split; [|by apply Nat.add_le_mono_l]. constructor; [|done]. by exists file.
Qed.

(** C24: every visible hit of the candidates is shown or counted as overflow, never both and
    never neither, ranked or not.  The shown hits respect both limits, and of every file
    they are its first visible hits, in order. *)
Theorem text_hits_accounted paths label r :
  collect_text_matches l paths is_match label options = Done r →
  tr_total_matches r = shown_matches (tr_files r) ∧
  tr_total_matches r + tr_overflow_count r = sum_list (on_file l 0 (length ∘ visible_hits options is_match) <$> paths) ∧
  (N.of_nat (tr_total_matches r) ≤ to_total_limit options)%N ∧ Forall shows (tr_files r).
Proof.
  unfold collect_text_matches. rewrite scan_candidates_spec. cbn [mbind Outcome_bind].
  set (bs := omap (bucket_of l options is_match) paths). set (visible := sum_list (on_file l 0 (length ∘ visible_hits _ _) <$> paths)).
  assert (Forall good_bucket (sort_by bucket_le bs) ∧ sum_list (pb_visible_count <$> sort_by bucket_le bs) ≤ visible) as [Hbs Hsum].
  { rewrite (sort_by_Permutation bucket_le bs). apply buckets_good. }
  intros ([total fs] & Ep & E)%Outcome_bind_Done. apply Outcome_bind_Done in E as ([total' fs'] & Er & E).
  destruct (count_in_scope_withheld_files l (to_path_scope options)). injection E as <-. simpl.
  destruct (pick_files_shows _ _ _ _ _ Hbs Ep) as (-> & Hle & Hf & Hlim).
  destruct (to_ranked options) eqn:Erank.
  - destruct (rerank_shows _ _ _ Hf Er) as (-> & Hle' & Hlim' & Hf'). split_and!; [done|lia|done|done].
  - injection Er as <- <-. split_and!; [done|lia|apply Hlim; [done|lia]|done].
Qed.
End accounted.

(** ** The context is exactly the lines near the hits *)

Section context.
Context (context : N) (line_count : nat).

Definition near (numbers : list N) (k : N) : Prop :=
  (1 ≤ k ≤ N.of_nat line_count)%N ∧ ∃ n, n ∈ numbers ∧ (n ≤ k + context ∧ k ≤ n + context)%N.

(** The windows so far, the last one first: apart from each other, and together the lines
    near the hits so far. *)
Record windows_cover (numbers : list N) (ws : list (N * N)) : Prop := {
  wc_apart : StronglySorted (λ w v, v.2 + 1 < w.1)%N ws;
  wc_order : Forall (λ w, w.1 ≤ w.2)%N ws;
  wc_cover : ∀ k, (∃ w, w ∈ ws ∧ (w.1 ≤ k ≤ w.2)%N) ↔ near numbers k;
}.

Lemma push_window_cover numbers ws m :
  let n := tm_line_number m in
  (1 ≤ n ≤ N.of_nat line_count)%N → (n + context < u64_modulus)%N → (N.of_nat line_count + 1 < u64_modulus)%N →
  Forall (window_ok line_count) ws → (∀ w, head ws = Some w → (w.1 ≤ N.max (n - context) 1)%N) →
  windows_cover numbers ws → windows_cover (numbers ++ [n]) (push_window context line_count ws m).
Proof.
  intros n Hn Hc Hl Hok Hhead [Ha Ho Hcov]. unfold push_window. fold n. rewrite (u64_add_small n context) by done.
  set (start := N.max (n - context) 1) in *. set (stop := N.min (n + context) (N.of_nat line_count)).
  assert (∀ k, near (numbers ++ [n]) k ↔ near numbers k ∨ (start ≤ k ≤ stop)%N) as Hnear.
  { intros k. unfold near. setoid_rewrite elem_of_app. setoid_rewrite list_elem_of_singleton. split.
    - intros (Hk & n' & [Hn'| ->] & Hd); [left; eauto|right; lia].
    - intros [(Hk & n' & Hn' & Hd)|Hk]; [eauto 6|]. split; [lia|]. exists n. split; [by right|lia]. }
  destruct ws as [|[first last_end] ws].
  - constructor; [by repeat constructor|constructor; [simpl; lia|constructor]|].
    intros k. rewrite Hnear, <-Hcov. split.
    + intros (w & ->%list_elem_of_singleton & Hk). by right.
    + intros [(w & Hw & _)|Hk]; [by apply not_elem_of_nil in Hw|]. exists (start, stop). by split; [left|].
  - apply Forall_cons in Hok as [[_ Hle] Hok]. simpl in Hle. specialize (Hhead _ eq_refl). simpl in Hhead.
    rewrite (u64_add_small last_end 1) by lia. apply StronglySorted_inv in Ha as [Ha Hf]. apply Forall_cons in Ho as [Ho0 Ho].
    simpl in Ho0. destruct (N.leb_spec start (last_end + 1)).
    + constructor; [constructor; [done|exact Hf]|constructor; [simpl; lia|done]|].
      intros k. rewrite Hnear, <-Hcov. setoid_rewrite elem_of_cons. split.
      * intros (w & [->|Hw] & Hk); [|left; eauto]. simpl in Hk.
        destruct (decide (k ≤ last_end)%N); [left; exists (first, last_end); simpl; split; [by left|lia]|right; lia].
      * intros [(w & [->|Hw] & Hk)|Hk]; [|by eauto|]; (eexists; split; [by left|]); simpl in *; lia.
    + constructor; [|constructor; [simpl; lia|by constructor]|].
      * constructor; [by constructor|]. constructor; [simpl; lia|].
        eapply Forall_impl; [exact Hf|]. simpl. intros w ?. lia.
      * intros k. rewrite Hnear, <-Hcov. setoid_rewrite (elem_of_cons ((first, last_end) :: ws)). split.
        -- intros (w & [->|Hw] & Hk); [by right|left; by exists w].
        -- intros [(w & Hw & Hk)|Hk]; [by exists w; auto|]. exists (start, stop). auto.
Qed.

Lemma windows_cover_all ms seen ws :
  Forall (λ n, 1 ≤ n ≤ N.of_nat line_count ∧ n + context < u64_modulus)%N (tm_line_number <$> ms) →
  (N.of_nat line_count + 1 < u64_modulus)%N → StronglySorted N.lt (tm_line_number <$> ms) →
  Forall (window_ok line_count) ws →
  (∀ w n, head ws = Some w → n ∈ tm_line_number <$> ms → (w.1 ≤ N.max (n - context) 1)%N) →
  windows_cover seen ws →
  windows_cover (seen ++ (tm_line_number <$> ms)) (fold_left (push_window context line_count) ms ws).
Proof.
  revert seen ws. induction ms as [|m ms IH]; intros seen ws Hn Hl Hs Hok Hhead Hw; simpl; [by rewrite app_nil_r|].
  rewrite fmap_cons in Hn, Hs, Hhead. apply Forall_cons in Hn as [[Hm1 Hm2] Hn]. apply StronglySorted_inv in Hs as [Hs Hlt].
  rewrite cons_middle, app_assoc. apply IH; [done|done|done| | |].
  - by apply (windows_ok context line_count [m]).
  - intros w n Hwn Hin. assert (w.1 ≤ N.max (tm_line_number m - context) 1)%N as Hw1.
    { unfold push_window in Hwn. destruct ws as [|[a b] ws]; [by injection Hwn as <-|].
      destruct (_ <=? _)%N; injection Hwn as <-; simpl; [|lia]. apply (Hhead (a, b)); [done|left]. }
    rewrite Forall_forall in Hlt. specialize (Hlt n Hin). lia.
  - apply push_window_cover; [done|done|done|done| |done]. intros w Hw0. apply (Hhead w); [done|left].
Qed.
End context.

Definition line_numbers (shown : list TextDisplayLine) : list N :=
  omap (λ d, match d with DisplayLine r => Some (rl_line_number r) | Separator => None end) shown.

Lemma render_range ls ms ns shown :
  collect_outcomes (render_line ls ms <$> ns) = Done shown →
  line_numbers shown = ns ∧ ∀ r, DisplayLine r ∈ shown → ∃ line, ls !! N.to_nat (rl_line_number r - 1) = Some line ∧
    rl_line r = shown_line line ∧ (rl_is_match r = true ↔ rl_line_number r ∈ ms).
Proof.
  revert shown. induction ns as [|n ns IH]; intros shown; simpl.
  { intros [= <-]. split; [done|]. by intros r ?%not_elem_of_nil. }
  intros (d & Ed & E)%Outcome_bind_Done. apply Outcome_bind_Done in E as (rest & Er & [= <-]).
  destruct (IH rest Er) as [<- Hr]. unfold render_line in Ed. destruct (ls !! N.to_nat (n - 1)) as [line|] eqn:El; [|done].
  rewrite truncate_shown in Ed. injection Ed as <-. split; [done|].
  intros r [[= ->]|Hin]%elem_of_cons; [|by apply Hr]. simpl. exists line. by rewrite bool_decide_eq_true.
Qed.

Lemma render_windows_spec ls ms first ws shown :
  render_windows ls ms first ws = Done shown →
  line_numbers shown = (ws ≫= λ w, inclusive_range w.1 w.2) ∧
  ∀ r, DisplayLine r ∈ shown → ∃ line, ls !! N.to_nat (rl_line_number r - 1) = Some line ∧
    rl_line r = shown_line line ∧ (rl_is_match r = true ↔ rl_line_number r ∈ ms).
Proof.
  revert first shown. induction ws as [|[a b] ws IH]; intros first shown; simpl.
  { intros [= <-]. split; [done|]. by intros r ?%not_elem_of_nil. }
  intros (x & Ex & E)%Outcome_bind_Done. apply Outcome_bind_Done in E as (rest & Er & [= <-]).
  apply render_range in Ex as [Ex Hx]. destruct (IH _ _ Er) as [Erest Hrest]. split.
  - unfold line_numbers in *. rewrite !omap_app, Ex, Erest. by destruct first.
  - intros r [Hr|[Hr|Hr]%elem_of_app]%elem_of_app; [|by apply Hx|by apply Hrest].
    destruct first; [by apply not_elem_of_nil in Hr|]. by apply list_elem_of_singleton in Hr.
Qed.

Lemma StronglySorted_reverse {A} (R : relation A) l : StronglySorted R l → StronglySorted (λ x y, R y x) (reverse l).
Proof.
  induction 1 as [|x l Hl IH Hx]; [constructor|]. rewrite reverse_cons. apply StronglySorted_app_2; [|done|by repeat constructor].
  intros y z Hy ->%list_elem_of_singleton. rewrite elem_of_reverse in Hy. rewrite Forall_forall in Hx. by apply Hx.
Qed.

Lemma ranges_sorted ws :
  StronglySorted (λ w v, w.2 + 1 < v.1)%N ws → StronglySorted N.lt (ws ≫= λ w, inclusive_range w.1 w.2).
Proof.
  induction 1 as [|w ws Hws IH Hw]; simpl; [constructor|]. apply StronglySorted_app_2; [| |done].
  - intros x y Hx%elem_of_inclusive_range (v & Hy%elem_of_inclusive_range & Hv)%list_elem_of_bind.
    rewrite Forall_forall in Hw. specialize (Hw v Hv). simpl in Hw. lia.
  - unfold inclusive_range. generalize (N.to_nat (w.2 + 1 - w.1)). intros n. generalize (N.to_nat w.1). clear.
    induction n as [|n IH]; intros a; simpl; [constructor|]. constructor; [apply IH|]. apply Forall_fmap, Forall_forall.
    intros i Hi%elem_of_seq. simpl. lia.
Qed.

(** Around the hits of a file are shown exactly the lines at most [context] lines from
    one of them, in order and each once, with their text, and the hits are marked; windows
    that touch are merged. *)
Theorem context_is_exact content ms context shown :
  let ls := content_lines content in
  ms ≠ [] → StronglySorted N.lt (tm_line_number <$> ms) →
  Forall (λ n, 1 ≤ n ≤ N.of_nat (length ls) ∧ n + context < u64_modulus)%N (tm_line_number <$> ms) →
  (N.of_nat (length ls) + 1 < u64_modulus)%N →
  build_context_rendered_lines content ms context = Done shown →
  StronglySorted N.lt (line_numbers shown) ∧
  (∀ k, k ∈ line_numbers shown ↔ near context (length ls) (tm_line_number <$> ms) k) ∧
  ∀ r, DisplayLine r ∈ shown → ∃ line, ls !! N.to_nat (rl_line_number r - 1) = Some line ∧
    rl_line r = shown_line line ∧ (rl_is_match r = true ↔ rl_line_number r ∈ tm_line_number <$> ms).
Proof.
  intros ls Hne Hs Hn Hl. unfold build_context_rendered_lines. fold ls.
  destruct ms as [|m ms]; [done|]. destruct ls as [|x ls'] eqn:El.
  { exfalso. apply Forall_cons in Hn as [Hn _]. simpl in Hn. lia. }
  rewrite <-El in *. intros E. apply render_windows_spec in E as [E Hr].
  destruct (windows_cover_all context (length ls) (m :: ms) [] []) as [Ha Ho Hc]; [done|done|done|done|done| |].
  { constructor; [constructor|constructor|]. intros k. unfold near. split; [intros (w & Hw & _)|intros (_ & n & Hw & _)];
      by apply not_elem_of_nil in Hw. }
  rewrite E. split_and!; [| |done].
  - apply ranges_sorted. unfold context_windows. by apply StronglySorted_reverse.
  - intros k. rewrite <-Hc, list_elem_of_bind. unfold context_windows. setoid_rewrite elem_of_reverse.
    setoid_rewrite elem_of_inclusive_range. split; intros (w & H1 & H2); by exists w.
Qed.

(** ** Structural errors *)

Section structural_errors.
Context `{TextMatchers} {Compiled : Type}.
Context (compile_pattern : str → LanguageId → bool → Result Compiled str)
        (structural_search_with_compiled : str → Compiled → list StructuralMatch).
Context (l : LiveIndex) (pattern : str) (options : TextSearchOptions).

Notation run := (structural_loop compile_pattern structural_search_with_compiled l pattern options).

Definition is_syntax_error (e : str) : bool := starts_with (bs "invalid structural pattern") e.

(** The compile errors of the served candidates, in order. *)
Definition compile_errors (candidates : list (str * LanguageId)) : list str :=
  omap (λ '(path, lang), _ ← get_file l path;
    match compile_pattern pattern lang (is_tsx_path path) with Err e => Some e | Ok _ => None end) candidates.

Definition compiles (candidates : list (str * LanguageId)) : Prop :=
  ∃ path lang c, (path, lang) ∈ candidates ∧ is_Some (get_file l path) ∧
    compile_pattern pattern lang (is_tsx_path path) = Ok c.

Definition or_first (o : option str) (es : list str) : option str := match o with Some _ => o | None => head es end.

(** What the loop has recorded after some candidates, when it has not stopped early. *)
Record structural_inv (done : list (str * LanguageId)) (st : StructuralState (Compiled := Compiled)) : Prop := {
  si_cache : ∀ lang tsx p r, ss_compiled st !! (lang, tsx, p) = Some r → r = compile_pattern p lang tsx;
  si_any : ss_any_parse_succeeded st = true ↔ compiles done;
  si_syntax : ss_first_syntax_error st = head (filter (λ e, is_syntax_error e = true) (compile_errors done));
  si_unsupported : ss_first_unsupported_error st = head (filter (λ e, is_syntax_error e = false) (compile_errors done));
  si_total : ss_any_parse_succeeded st = false → ss_total st = 0;
}.

Lemma compiles_snoc done path lang :
  compiles (done ++ [(path, lang)]) ↔
  compiles done ∨ is_Some (get_file l path) ∧ ∃ c, compile_pattern pattern lang (is_tsx_path path) = Ok c.
Proof.
  unfold compiles. setoid_rewrite elem_of_app. setoid_rewrite list_elem_of_singleton. split.
  - intros (p & g & c & [Hin|[= -> ->]] & Hg & Hc); [left; eauto 7|right; eauto].
  - intros [(p & g & c & Hin & Hg & Hc)|[Hg [c Hc]]]; eauto 8.
Qed.

Lemma head_snoc (f : str → Prop) `{∀ e, Decision (f e)} es e :
  head (filter f (es ++ [e])) =
  match head (filter f es) with Some x => Some x | None => if decide (f e) then Some e else None end.
Proof.
  rewrite filter_app. destruct (filter f es) as [|x xs]; simpl; [|done]. rewrite filter_cons. by case_decide.
Qed.

Lemma structural_file_inv done path lang st st' :
  structural_inv done st →
  structural_file compile_pattern structural_search_with_compiled l pattern options path lang st = Done st' →
  structural_inv (done ++ [(path, lang)]) st'.
Proof.
  intros [Hcache Hany Hsyn Huns Htot]. unfold structural_file.
  assert (∀ r, default (compile_pattern pattern lang (is_tsx_path path)) (ss_compiled st !! (lang, is_tsx_path path, pattern)) = r →
    r = compile_pattern pattern lang (is_tsx_path path)) as Hdef.
  { intros r <-. destruct (ss_compiled st !! _) eqn:E; [|done]. simpl. by apply (Hcache lang (is_tsx_path path) pattern). }
  assert (∀ x, x = compile_pattern pattern lang (is_tsx_path path) → ∀ lang' tsx' p' r,
    <[(lang, is_tsx_path path, pattern) := x]> (ss_compiled st) !! (lang', tsx', p') = Some r →
    r = compile_pattern p' lang' tsx') as Hinsert.
  { intros x -> lang' tsx' p' r Hr.
    destruct (decide ((lang, is_tsx_path path, pattern) = (lang', tsx', p'))) as [[= <- <- <-]|Hne].
    - rewrite lookup_insert_eq in Hr. by injection Hr as <-.
    - rewrite lookup_insert_ne in Hr by done. by apply Hcache. }
  assert (Ee : compile_errors (done ++ [(path, lang)]) = compile_errors done ++
    match get_file l path with
    | Some _ => match compile_pattern pattern lang (is_tsx_path path) with Err e => [e] | Ok _ => [] end
    | None => []
    end).
  { unfold compile_errors. rewrite omap_app. f_equal. simpl. destruct (get_file l path); simpl; [|done].
    by destruct (compile_pattern _ _ _). }
  destruct (get_file l path) as [file|] eqn:Eg.
  2: { intros [= <-]. constructor; rewrite ?Ee, ?app_nil_r; try done. rewrite compiles_snoc, Eg, Hany.
       split; [by left|]. intros [|[[? ?] _]]; done. }
  destruct (default _ _) as [c|e] eqn:Ed; pose proof (Hdef _ eq_refl) as Ec; rewrite <-Ec in Ee.
  - assert (∀ files total suppressed, structural_inv (done ++ [(path, lang)])
      (mkStructuralState files total suppressed (<[(lang, is_tsx_path path, pattern) := Ok c]> (ss_compiled st)) true
         (ss_first_syntax_error st) (ss_first_unsupported_error st))) as Hok.
    { intros fs t sup. constructor; simpl; rewrite ?Ee, ?app_nil_r; try done.
      - by apply Hinsert.
      - rewrite compiles_snoc. split; [|done]. intros _. right. split; [by eexists|]. by exists c. }
    cbv zeta. destruct (structural_search_with_compiled _ c); [by intros [= <-]|].
    intros ([sup ms] & _ & E)%Outcome_bind_Done. destruct ms; [by injection E as <-|].
    apply Outcome_bind_Done in E as (r & _ & [= <-]). apply Hok.
  - intros [= <-]. constructor; simpl.
    + by apply Hinsert.
    + rewrite compiles_snoc, Hany, <-Ec. split; [by left|]. intros [|[_ [c Hc]]]; done.
    + rewrite Ee, head_snoc, <-Hsyn. unfold is_syntax_error. destruct (starts_with _ e); by destruct (ss_first_syntax_error st).
    + rewrite Ee, head_snoc, <-Huns. unfold is_syntax_error. destruct (starts_with _ e); by destruct (ss_first_unsupported_error st).
    + done.
Qed.
Lemma structural_loop_inv candidates done st st' :
  structural_inv done st → run candidates st = Done st' →
  ∃ visited rest, candidates = visited ++ rest ∧ structural_inv (done ++ visited) st' ∧
    (rest ≠ [] → (to_total_limit options ≤ N.of_nat (ss_total st'))%N).
Proof.
  revert done st. induction candidates as [|[path lang] candidates IH]; intros done st Hst; cbn [structural_loop].
  { intros [= <-]. exists [], []. split_and!; [done|by rewrite app_nil_r|done]. }
  destruct (N.leb_spec (to_total_limit options) (N.of_nat (ss_total st))).
  { intros [= <-]. exists [], ((path, lang) :: candidates). split_and!; [done|by rewrite app_nil_r|done]. }
  intros (st1 & E1 & E)%Outcome_bind_Done. apply (structural_file_inv done) in E1; [|done].
  destruct (IH _ _ E1 E) as (visited & rest & -> & Hinv & Hrest). exists ((path, lang) :: visited), rest.
  by rewrite <-app_assoc in Hinv.
Qed.

Lemma structural_start_inv : structural_inv [] structural_start.
Proof.
  constructor; simpl; try done. split; [done|]. intros (p & g & c & Hin & _). by apply not_elem_of_nil in Hin.
Qed.

(** A structural search blames the right thing.  It succeeds when the pattern compiles
    for one of the candidates, whatever the others say.  When it compiles for none, the
    first syntax error in path order is reported, and only if there is none an unsupported
    language; without candidates the answer is empty, not an error. *)
Theorem structural_error_is_right order globs res :
  compile_text_glob_filters options = Ok globs → (0 < to_total_limit options)%N →
  search_structural_with_compiler compile_pattern structural_search_with_compiled order l pattern options = Done res →
  let candidates := structural_candidates order l options globs in
  let errors := compile_errors candidates in
  (compiles candidates → ∃ r, res = Ok r) ∧
  (¬ compiles candidates →
   match head (filter (λ e, is_syntax_error e = true) errors), head (filter (λ e, is_syntax_error e = false) errors) with
   | Some e, _ => res = Err (InvalidStructuralPattern pattern e)
   | None, Some e => res = Err (UnsupportedStructuralLanguage pattern e)
   | None, None => ∃ r, res = Ok r
   end).
Proof.
  intros Hg Hlim Hres candidates errors. unfold search_structural_with_compiler in Hres. rewrite Hg in Hres.
  apply Outcome_bind_Done in Hres as (st & Hrun & [= <-]). destruct (structural_loop_inv _ _ _ _ structural_start_inv Hrun) as (visited & rest & Ec & Hinv & Hrest).
  fold candidates in Ec. simpl in Hinv. destruct Hinv as [_ Hany Hsyn Huns Htot].
  destruct (count_in_scope_withheld_files l (to_path_scope options)) as [policy size].
  destruct (ss_any_parse_succeeded st) eqn:Ea.
  - split; [by eexists|]. intros Hn. destruct Hn. destruct Hany as [Hany _].
    destruct (Hany eq_refl) as (p & g & c & Hin & Hx). exists p, g, c. rewrite Ec, elem_of_app. auto.
  - assert (rest = []) as ->.
    { destruct rest; [done|]. specialize (Hrest ltac:(done)). rewrite (Htot eq_refl) in Hrest. lia. }
    rewrite app_nil_r in Ec. subst visited. split; [intros Hc%Hany; done|]. intros _. unfold errors.
    rewrite <-Hsyn, <-Huns. destruct (ss_first_syntax_error st), (ss_first_unsupported_error st); eauto.
Qed.
End structural_errors.

(** ** Where the code does not do what it says *)

Section examples.

(** Lower case of a small alphabet: ASCII, and É to é. *)
Fixpoint demo_lower (s : str) : str :=
  match s with
  | b :: rest =>
      match b, rest with
      | xc3, x89 :: rest => xc3 :: xa9 :: demo_lower rest
      | _, _ => to_ascii_lowercase b :: demo_lower rest
      end
  | [] => []
  end.
#[local] Instance demo_tables : CaseTables := demo_lower.

Definition demo_aho (terms : list str) (ci : bool) (line : str) : bool :=
  existsb (λ t, contains_str (if ci then lowercase t else t) (if ci then lowercase line else line)) terms.
#[local] Instance demo_matchers : TextMatchers := {
  regex_build _ _ := Err [];
  regex_escape s := s;
  glob_build _ := Err [];
  aho_corasick terms ci := Ok (demo_aho terms ci);
}.

Definition demo_sym (name : string) (kind : SymbolKind) (from to : N) : SymbolRecord :=
  mkSymbol (bs name) kind 0 0 (0, 9)%N (from, to) None None.

Definition demo_rows : list (str * Row) :=
  [(bs "src/b.rs", mkRow 1 (parsed_file Rust (bs "let cafe = 1;" ++ [x0a; xc3; xa9]) [demo_sym "run" Function 0 1] []));
   (bs "src/a.rs", mkRow 2 (parsed_file Rust (bs "// Cafe" ++ [x0a] ++ bs "CAFE!") [demo_sym "tests" Module_ 1 1] []))].

Definition demo_index : LiveIndex := reloaded demo_rows [].
Definition demo_listing (X : gset str) : list str := elements X.

Lemma demo_order : demo_rows ≡ₚ map_to_list (files demo_index).
Proof. apply reloaded_order. vm_compute. reflexivity. Qed.
Lemma demo_coherent : coherent demo_index.
Proof. apply reloaded_coherent; vm_compute; reflexivity. Qed.

(** A search for a capital letter that is not ASCII ignores case in the lines, but the
    trigram index folds only ASCII: the file with the small letter is never looked at.  A
    scan of the files finds the line. *)
Theorem unicode_case_is_missed :
  (∃ r, search_text demo_rows demo_listing demo_index (Some [xc3; x89]) None false = Done (Ok r) ∧ tr_total_matches r = 0) ∧
  ∃ m r, literal_line_matcher [[xc3; x89]] false false = Done m ∧
    finish_text_search demo_index [bs "src/b.rs"; bs "src/a.rs"] [] m [] text_options_for_current_code_search = Done (Ok r) ∧
    tr_total_matches r = 1.
Proof.
  split; [eexists; split; [vm_compute; reflexivity|reflexivity]|].
  eexists _, _. split; [reflexivity|]. split; [vm_compute; reflexivity|reflexivity].
Qed.

(** The ranking looks kinds up by names that the symbols of a hit never have: a function
    is ["fn"], which falls to the last case, below a configuration key. *)
Theorem functions_rank_below_keys :
  partial_cmp (symbol_kind_priority (kind_display Function)) (symbol_kind_priority (kind_display Key)) = Some Lt ∧
  partial_cmp (symbol_kind_priority (kind_display Method)) (symbol_kind_priority (bs "method")) = Some Lt ∧
  partial_cmp (symbol_kind_priority (kind_display Module_)) (symbol_kind_priority (kind_display Section_)) = Some Lt.
Proof. vm_compute. done. Qed.

(** The gate for the default search is documented to exclude personal tooling.  The default
    options include it, and the path is never looked at. *)
Theorem personal_tooling_is_kept path c :
  current_code_search_keeps_file path c =
  scope_allows ScopeCode c && policy_allows (to_noise_policy text_options_for_current_code_search) c.
Proof. unfold current_code_search_keeps_file. simpl. by rewrite andb_true_r. Qed.

(** A capture is cut at byte 37, which may be inside a character. *)
Theorem long_capture_panics name :
  capture_display (name, replicate 36 x61 ++ [xc3; xa9] ++ replicate 4 x61) = Panic.
Proof. reflexivity. Qed.

(** ** Witnesses *)

Definition demo_options : TextSearchOptions :=
  mkTextOptions AnyPath ScopeCode (mkNoise false false true false) true None 50 5 None None (Some 1%N) (Some true) false false None.

Lemma text_search_equals_scan_witness :
  ∃ is_match r, literal_line_matcher [bs "cafe"] true false = Done is_match ∧
    search_text_with_options demo_rows demo_listing demo_index (Some (bs " cafe ")) None false demo_options = Done (Ok r) ∧
    tr_total_matches r = 1 ∧ tr_suppressed_by_noise r = 0.
Proof.
  destruct (text_search_equals_scan) with (order := demo_rows) (listing := demo_listing) (l := demo_index)
    (query := Some (bs " cafe ")) (terms := @None (list str)) (options := demo_options)
    (globs := (@None (str → bool), @None (str → bool))) as (is_match & r & Em & Es & _).
  - intros terms ci. exists (demo_aho terms ci). split; [reflexivity|]. intros line. unfold demo_aho.
    rewrite existsb_exists. setoid_rewrite list_elem_of_In. reflexivity.
  - intros s Hs. unfold to_lowercase, demo_tables. induction Hs as [|b s Hb Hs IH]; [reflexivity|].
    cbn [demo_lower]. rewrite IH. destruct b; try reflexivity; by vm_compute in Hb.
  - apply demo_coherent.
  - apply demo_order.
  - intros X. reflexivity.
  - reflexivity.
  - vm_compute. discriminate.
  - reflexivity.
  - vm_compute. repeat constructor.
  - left. reflexivity.
  - exists is_match, r. split; [exact Em|]. split; [exact Es|]. vm_compute in Es. injection Es as <-. by split.
Defined.

Lemma text_hits_accounted_witness :
  ∃ r, collect_text_matches demo_index [bs "src/a.rs"; bs "src/b.rs"] (λ line, contains_str (bs "C") line) []
         text_options_default = Done r ∧
    tr_total_matches r = 2 ∧ tr_total_matches r + tr_overflow_count r = 2.
Proof.
  eexists. split; [vm_compute; reflexivity|]. split; [reflexivity|].
  destruct (text_hits_accounted demo_index text_options_default (λ line, contains_str (bs "C") line)
    [bs "src/a.rs"; bs "src/b.rs"] [] _ ltac:(vm_compute; reflexivity)) as (_ & Hsum & _).
  rewrite Hsum. vm_compute. reflexivity.
Defined.

Lemma context_is_exact_witness :
  ∃ shown, build_context_rendered_lines (join [x0a] [bs "a"; bs "b"; bs "c"; bs "d"; bs "e"])
    [mkLineMatch 1 [] None; mkLineMatch 5 [] None] 1 = Done shown ∧
    line_numbers shown = [1; 2; 4; 5]%N ∧ StronglySorted N.lt (line_numbers shown).
Proof.
  eexists. split; [vm_compute; reflexivity|]. split; [vm_compute; reflexivity|].
  apply (context_is_exact (join [x0a] [bs "a"; bs "b"; bs "c"; bs "d"; bs "e"])
    [mkLineMatch 1 [] None; mkLineMatch 5 [] None] 1); [discriminate| | |vm_compute; reflexivity|vm_compute; reflexivity].
  - repeat constructor.
  - repeat constructor; vm_compute; first [reflexivity|discriminate].
Defined.

Lemma structural_error_is_right_witness :
  (∃ r, search_structural_with_compiler (λ p lang tsx, @Err unit str (bs "structural search not supported"))
    (λ _ _, []) demo_rows demo_index (bs "x") text_options_for_current_code_search = Done r) ∧
  ¬ compiles (λ p lang tsx, @Err unit str (bs "structural search not supported")) demo_index (bs "x")
      (structural_candidates demo_rows demo_index text_options_for_current_code_search (None, None)) ∧
  search_structural_with_compiler (λ p lang tsx, @Err unit str (bs "structural search not supported"))
    (λ _ _, []) demo_rows demo_index (bs "x") text_options_for_current_code_search =
  Done (Err (UnsupportedStructuralLanguage (bs "x") (bs "structural search not supported"))).
Proof.
  assert (¬ compiles (λ p lang tsx, @Err unit str (bs "structural search not supported")) demo_index (bs "x")
    (structural_candidates demo_rows demo_index text_options_for_current_code_search (None, None))) as Hn
    by (by intros (p & g & c & _ & _ & Hc)).
  split; [eexists; vm_compute; reflexivity|]. split; [exact Hn|].
  destruct (structural_error_is_right (λ p lang tsx, @Err unit str (bs "structural search not supported")) (λ _ _, [])
    demo_index (bs "x") text_options_for_current_code_search demo_rows (None, None)
    (Err (UnsupportedStructuralLanguage (bs "x") (bs "structural search not supported"))))
    as [_ Herr]; [reflexivity|reflexivity|vm_compute; reflexivity|].
  specialize (Herr Hn). vm_compute. reflexivity.
Defined.
End examples.
