(* ===== verification/RankSignals.v ===== *)
(** * Rank signals (live_index/rank_signals.rs)

    The order of a file search is a weighted sum of signals.  Two are registered from the
    start: how well the path matches the query, and how often the file changed together
    with an anchor.  A registered signal is its weight and its score.

    The lemmas give the score of a path on every branch; the theorem about the order is in
    [FileSearch].  Scores are [f32]; a path is a [&str]. *)

From Stdlib Require Import Lia Strings.Byte ZArith.
From stdpp Require Import base gmap sets list strings numbers option sorting.
From S2P Require Import Prelude Slices Float Text Domain Classification.

#[global] Set Default Goal Selector "!".

Notation f32 := (of_int binary32).

Definition STRONG_PATH_SCORE : float := f32 1000.
Definition BASENAME_SCORE : float := f32 100.
Definition PREFIX_SCORE : float := f32 50.
Definition LOOSE_PATH_SCORE : float := f32 10.
Definition FILE_LEVEL_CO_CHANGE_FLOOR : N := 2.
Definition CO_CHANGE_ANCHOR_CONFIDENCE_FLOOR : float := BASENAME_SCORE.

Definition CHORE_ANCHOR_FILENAMES : list string :=
  ["Cargo.lock"; "package-lock.json"; "uv.lock"; "poetry.lock"; "yarn.lock"; "pnpm-lock.yaml"; "CHANGELOG.md";
   ".release-please-manifest.json"].

Record RankCtx := mkRankCtx {
  rc_query : str;
  rc_tokens : list str;
  rc_current_file : option str;
  rc_target_path : option str;
  rc_co_change_count : option N;
  rc_co_change_weighted_score : option float;
}.

Record RankSignal := mkSignal {
  rs_name : string;
  rs_weight : float;
  rs_score : str → RankCtx → float;
}.

(** ** Paths *)

(** [query::path_has_component]. *)
Definition path_has_component (path component : str) : bool :=
  existsb (λ part, bool_decide (lowercase part = lowercase component)) (split_bytes is_slash path).

(** [Path::file_stem]. *)
Definition file_stem (path : str) : option str :=
  name ← file_name path;
  match rsplit_once (bs ".") name with
  | Some ([], _) | None => Some name
  | Some (stem, _) => Some stem
  end.

(** [trim_start_matches("./")] after [replace('\\', "/")]. *)
Definition repo_relative (s : str) : str := let s := forward_slashes s in trim_loop (length s) [bs "./"] s.

Definition is_same_repo_relative_path (a b : str) : bool := bool_decide (repo_relative a = repo_relative b).

(** The last token, and the ones before it. *)
Definition basename_token_of (tokens : list str) : str := default [] (last tokens).
Definition component_tokens_of (tokens : list str) : list str := take (length tokens - 1) tokens.

(** ** The signals *)

Definition path_match_score (path : str) (ctx : RankCtx) : float :=
  let tokens := rc_tokens ctx in
  match tokens with
  | [] => fzero
  | _ =>
      let path_lower := lowercase path in
      let query_lower := lowercase (rc_query ctx) in
      let has_path_context := contains_str [x2f] (rc_query ctx) in
      let is_exact := negb (bool_decide (query_lower = [])) && bool_decide (path_lower = query_lower) in
      let is_suffix := has_path_context && negb (bool_decide (query_lower = [])) && ends_with query_lower path_lower in
      let basename_token := basename_token_of tokens in
      let component_tokens := component_tokens_of tokens in
      let file_basename := lowercase (default [] (file_name path)) in
      let stem := lowercase (default [] (file_stem path)) in
      let scoring_the_anchor :=
        match rc_target_path ctx with Some target => is_same_repo_relative_path target path | None => false end in
      let has_basename_match :=
        negb (bool_decide (basename_token = [])) &&
        (bool_decide (file_basename = basename_token)
         || (scoring_the_anchor && (3 <=? length basename_token) && bool_decide (stem = basename_token))) in
      let has_all_components :=
        negb (bool_decide (component_tokens = [])) && forallb (path_has_component path) component_tokens in
      if is_exact || is_suffix || (has_basename_match && has_all_components) then STRONG_PATH_SCORE
      else if has_basename_match then BASENAME_SCORE
      else if (3 <=? length basename_token) && starts_with basename_token stem then PREFIX_SCORE
      else if forallb (λ token, contains_str token path_lower) tokens then LOOSE_PATH_SCORE
      else fzero
  end.

Definition is_chore_anchor_path (path : str) : bool :=
  let normalized := repo_relative path in
  let name := default normalized (last (split_bytes is_slash normalized)) in
  one_of CHORE_ANCHOR_FILENAMES name
  || match strip_prefix (bs ".github/workflows/") normalized with
     | Some workflow => ends_with (bs ".yml") workflow || ends_with (bs ".yaml") workflow
     | None => false
     end.

Definition co_change_score (path : str) (ctx : RankCtx) : float :=
  match rc_target_path ctx with
  | None => fzero
  | Some target_path =>
      if is_chore_anchor_path target_path then fzero
      else if flt (path_match_score target_path ctx) CO_CHANGE_ANCHOR_CONFIDENCE_FLOOR then fzero
      else match rc_co_change_count ctx with
           | None => fzero
           | Some count =>
               if (count <? FILE_LEVEL_CO_CHANGE_FLOOR)%N then fzero
               else match rc_co_change_weighted_score ctx with
                    | None => fzero
                    | Some weighted_score => if is_finite weighted_score && flt fzero weighted_score then weighted_score else fzero
                    end
           end
  end.

Inductive AnchorCoChangeRejection := ChoreAnchor | BelowConfidenceFloor.

Definition classify_anchor_cochange_rejection (anchor_path : str) (score : float) : option AnchorCoChangeRejection :=
  if is_chore_anchor_path anchor_path then Some ChoreAnchor
  else if flt score CO_CHANGE_ANCHOR_CONFIDENCE_FLOOR then Some BelowConfidenceFloor
  else None.

(** ** The registry *)

Definition PathMatchSignal : RankSignal := mkSignal "path_match" (f32 1) path_match_score.
Definition CoChangeSignal : RankSignal := mkSignal "co_change" (f32 1) co_change_score.

Definition default_registry : list RankSignal := [PathMatchSignal; CoChangeSignal].

Definition register (signal : RankSignal) (registry : list RankSignal) : list RankSignal := registry ++ [signal].

(** A sum of floats starts at [-0.0]. *)
Definition combine (registry : list RankSignal) (path : str) (ctx : RankCtx) : float :=
  fold_left (fadd binary32) ((λ s, fmul binary32 (rs_weight s) (rs_score s path ctx)) <$> registry)
    (SpecFloat.S754_zero true).

(** ** Lemmas *)

(** The five scores there are, from the best. *)
Definition path_scores : list float := [STRONG_PATH_SCORE; BASENAME_SCORE; PREFIX_SCORE; LOOSE_PATH_SCORE; fzero].

Lemma path_match_score_cases path ctx : path_match_score path ctx ∈ path_scores.
Proof.
  unfold path_match_score, path_scores. destruct (rc_tokens ctx); [set_solver|].
  repeat case_match; set_solver.
Qed.

(** Without an anchor the sum is the path score. *)
Lemma combine_without_anchor path ctx :
  rc_target_path ctx = None → combine default_registry path ctx = path_match_score path ctx.
Proof.
  intros E. unfold combine, default_registry, CoChangeSignal, PathMatchSignal, co_change_score. simpl. rewrite E.
  pose proof (path_match_score_cases path ctx) as Hc. unfold path_scores in Hc.
  repeat (apply elem_of_cons in Hc as [->|Hc]; [vm_compute; reflexivity|]). by apply not_elem_of_nil in Hc.
Qed.

Lemma co_change_score_finite path ctx : is_finite (co_change_score path ctx) = true.
Proof.
  unfold co_change_score. repeat case_match; try done.
  match goal with E : is_finite _ && _ = true |- _ => by apply andb_true_iff in E as [-> _] end.
Qed.

(** The sum is a number. *)
Lemma combine_number path ctx : is_nan (combine default_registry path ctx) = false.
Proof.
  unfold combine, default_registry, CoChangeSignal, PathMatchSignal. cbn [fmap list_fmap fold_left rs_weight rs_score].
  apply fadd_number; [|by apply fmul_number; [|apply co_change_score_finite]].
  pose proof (path_match_score_cases path ctx) as Hc. unfold path_scores in Hc.
  repeat (apply elem_of_cons in Hc as [->|Hc]; [vm_compute; reflexivity|]). by apply not_elem_of_nil in Hc.
Qed.
