(* ===== verification/FileSearch.v ===== *)
(** * Searching and resolving files (live_index/query.rs, live_index/search.rs)

    [search_files] finds files by their path: by an exact path or a suffix, by the file
    name, by the beginning of the file name, or by words in the path, with the files that
    were only catalogued below all others.  A resolve turns a hint into one path, or says
    why it cannot.

    The theorems: the passes find exactly the indexed paths that the combined predicate
    describes, each once; the order by weighted scores is the order of the passes, and a
    catalogued file is never above an indexed one; a hint resolves only to a path that is
    there, and to the path it names when there is one.

    The glob builder is third-party and a parameter.  [order] is the walk over the file
    map, [registry] the registered rank signals. *)

From Stdlib Require Import Lia Strings.Byte ZArith.
From stdpp Require Import base gmap sets list strings numbers option sorting.
From S2P Require Import Prelude Slices Float Text Domain Classification Trigram LiveIndex SearchScope RankSignals.

#[global] Set Default Goal Selector "!".

(** ** Queries *)

(** [while normalized.starts_with("./")], at most once per byte. *)
Definition normalize_path_query (raw : str) : str :=
  let normalized := forward_slashes (trim raw) in
  let normalized := trim_loop (length normalized) [bs "./"] normalized in
  trim_end_matches x2f (trim_start_matches x2f normalized).

(** [split] at the characters [cs], given by their bytes. *)
Fixpoint split_chars (fuel : nat) (cs : list (list byte)) (s : str) : list str :=
  match fuel with
  | 0 => [s]
  | S fuel =>
      match strip_one cs s with
      | Some rest => [] :: split_chars fuel cs rest
      | None =>
          match s with
          | [] => [[]]
          | b :: s =>
              match split_chars fuel cs s with
              | part :: parts => (b :: part) :: parts
              | [] => [[b]]
              end
          end
      end
  end.

Definition tokenize_path_query (normalized_query : str) : list str :=
  lowercase <$> filter (λ part, part ≠ [])
    (split_chars (S (length normalized_query)) ([x2f] :: whitespace_chars) normalized_query).

Definition is_vendor_path (path : str) : bool := bool_decide (classify_path path None = NoiseVendor).

(** ** Catalogued files *)

Definition skip_reason_display (r : SkipReason) : str :=
  bs match r with
     | SizeCeiling => ">100MB"
     | DenylistedExtension => "artifact"
     | SizeThreshold => "over size threshold (1MB data / 4MB code)"
     | BinaryContent => "binary"
     | DependencyLockfile => "lockfile"
     | Untracked => "untracked"
     | UnsupportedLanguage => "unsupported language"
     | PolicyWithheld => "withheld by admission policy"
     | UnsupportedTextEncoding => "undecodable text encoding"
     | UnsupportedPath => "unsupported path"
     | LfsPointer => "git-lfs pointer"
     | Unreadable => "unreadable"
     | GeneratedOutput => "untracked generated output (SYMFORGE_INDEX_GENERATED_OUTPUT=1 to index)"
     end.

Section files.
Context `{CaseTables}.

Definition metadata_only_skipped_paths (l : LiveIndex) : list (str * str) :=
  omap (λ entry,
    decision ← compatibility_admission_decision entry;
    if decide (d_tier decision = TierMetadataOnly)
    then Some (scouted_catalog_path (ce_path entry),
               default (bs "metadata only") (skip_reason_display <$> d_reason decision))
    else None) (manifest_entries l).

Definition capture_file_disposition (l : LiveIndex) (relative_path : str) : option FileDisposition :=
  let path := normalize_path_query relative_path in
  ce_disposition <$> head (filter (λ e, normalize_path_query (scouted_catalog_path (ce_path e)) = path) (manifest_entries l)).

Definition oversized_metadata_only_files (l : LiveIndex) : list (str * N) :=
  (λ e, (scouted_catalog_path (ce_path e), ce_size e)) <$>
  filter (λ e, Is_true match ce_disposition e with MetadataOnly OversizedData => true | _ => false end) (manifest_entries l).

(** [sort_by_key] on a slice of references. *)
Definition capture_shared_file_for_scope (order : list (str * Row)) (l : LiveIndex) (scope : PathScope) : option IndexedFile :=
  match scope with
  | AnyPath => None
  | ExactPath path => capture_shared_file l path
  | PrefixPath prefix =>
      path ← head (sort_by (by_key (@length byte) Nat.le) (filter (λ p, starts_with prefix p = true) order.*1));
      capture_shared_file l path
  end.

(** ** Resolving a hint *)

Inductive SearchFilesResolveView :=
| EmptyHint
| Resolved (path : str)
| ResolvedMetadataOnly (path reason : str)
| ResolveNotFound (hint : str)
| Ambiguous (hint : str) (matches : list str) (overflow_count : nat).

Definition RESOLVE_PATH_AMBIGUOUS_CAP : nat := 10.

Definition resolve_allowed (include_vendor include_personal_tooling : bool) (scope : PathScope) (path : str) : bool :=
  (include_vendor || negb (is_vendor_path path))
  && (include_personal_tooling || negb (is_personal_tooling_path path)) && path_scope_matches scope path.

(** Suffixes first, then shorter paths. *)
Definition bool_first (a b : bool) : Prop := b = true → a = true.
#[global] Instance bool_first_dec : RelDecision bool_first.
Proof. unfold bool_first. intros a b. apply _. Defined.
#[global] Instance bool_first_trans : Transitive bool_first.
Proof. unfold bool_first. intros a b c. auto. Qed.
#[global] Instance bool_first_total : Total bool_first.
Proof. unfold bool_first. intros [] []; auto. Qed.
#[global] Instance bool_first_antisymm : AntiSymm (=) bool_first.
Proof. unfold bool_first. intros [] [] H1 H2; try done; [by rewrite H2|by rewrite H1]. Qed.

(** Others first. *)
Definition bool_last (a b : bool) : Prop := bool_first b a.
#[global] Instance bool_last_dec : RelDecision bool_last.
Proof. unfold bool_last. intros a b. apply _. Defined.
#[global] Instance bool_last_trans : Transitive bool_last.
Proof. unfold bool_last. intros a b c H1 H2. by etrans. Qed.
#[global] Instance bool_last_total : Total bool_last.
Proof. unfold bool_last. intros a b. apply (total bool_first). Qed.
#[global] Instance bool_last_antisymm : AntiSymm (=) bool_last.
Proof. unfold bool_last. intros a b H1 H2. by apply (anti_symm bool_first). Qed.

Definition resolve_le (hint_lower : str) : relation str :=
  then_le (λ p, ends_with hint_lower (lowercase p)) bool_first (then_le (@length byte) Nat.le (by_key id str_le)).

Definition tier2_le : relation (str * str) := then_le (@length byte ∘ fst) Nat.le (by_key fst str_le).

Definition has_dir_component (component path : str) : bool :=
  existsb (λ part, bool_decide (part = lowercase component)) (split_bytes is_slash (lowercase path)).

(** The indexed paths for a hint, best first. *)
Definition resolve_candidates (order : list (str * Row)) (l : LiveIndex) (allowed : str → bool) (hint : str) : list str :=
  let parts := segments_of hint in
  let hint_lower := lowercase hint in
  let by_name := filter (λ p, allowed p = true) (find_files_by_basename l (basename_token_of parts)) in
  let candidates :=
    match by_name with
    | [] => filter (λ p, (allowed p && (ends_with hint_lower (lowercase p) || contains_str hint_lower (lowercase p))) = true)
              order.*1
    | _ => by_name
    end in
  let candidates :=
    fold_left (λ c component, filter (λ p, p ∈ find_files_by_dir_component l component) c)
      (component_tokens_of parts) candidates in
  dedup (sort_by (resolve_le hint_lower) candidates).

(** The catalogued paths for a hint, when no indexed path fits. *)
Definition resolve_tier2 (l : LiveIndex) (allowed : str → bool) (hint : str) : list (str * str) :=
  let parts := segments_of hint in
  let hint_lower := lowercase hint in
  let basename_lower := lowercase (basename_token_of parts) in
  let tier2 := filter (λ '(path, _), Is_true
    (let path_lower := lowercase path in
     allowed path &&
     (bool_decide (default path_lower (last (split_bytes is_slash path_lower)) = basename_lower)
      || ends_with hint_lower path_lower || contains_str hint_lower path_lower))) (metadata_only_skipped_paths l) in
  let tier2 := fold_left (λ c component, filter (λ e, has_dir_component component e.1 = true) c) (component_tokens_of parts) tier2 in
  sort_by tier2_le tier2.

Definition ambiguous (hint : str) (paths : list str) : SearchFilesResolveView :=
  Ambiguous hint (take RESOLVE_PATH_AMBIGUOUS_CAP paths) (length paths - RESOLVE_PATH_AMBIGUOUS_CAP).

Definition capture_search_files_resolve_view_with_scope (order : list (str * Row)) (l : LiveIndex) (hint : str)
    (include_vendor include_personal_tooling : bool) (scope : PathScope) : SearchFilesResolveView :=
  let hint := normalize_path_query hint in
  let allowed := resolve_allowed include_vendor include_personal_tooling scope in
  match hint with
  | [] => EmptyHint
  | _ =>
      if bool_decide (is_Some (get_file l hint)) && allowed hint then Resolved hint
      else match head (filter (λ e, (allowed e.1 && bool_decide (lowercase e.1 = lowercase hint)) = true)
                         (metadata_only_skipped_paths l)) with
           | Some (path, reason) => ResolvedMetadataOnly path reason
           | None =>
               match resolve_candidates order l allowed hint with
               | [] =>
                   match resolve_tier2 l allowed hint with
                   | [] => ResolveNotFound hint
                   | [(path, reason)] => ResolvedMetadataOnly path reason
                   | tier2 => ambiguous hint tier2.*1
                   end
               | [path] => Resolved path
               | paths => ambiguous hint paths
               end
           end
  end.

(** ** Searching *)

Inductive SearchFilesTier := TierCoChange | StrongPath | Basename | LoosePath | TierMetadata.
#[global] Instance SearchFilesTier_eq_dec : EqDecision SearchFilesTier.
Proof. solve_decision. Defined.

Definition is_metadata_only (t : SearchFilesTier) : bool := bool_decide (t = TierMetadata).

Record CouplingEvidence := mkEvidence { shared_commits : N; weighted_score : float }.

(** An anchor and the files that changed together with it. *)
Definition Coupling : Type := str * gmap str CouplingEvidence.

Record SearchFilesHit := mkFileHit {
  fh_tier : SearchFilesTier;
  fh_path : str;
  fh_coupling_score : option float;
  fh_shared_commits : option N;
  fh_metadata_reason : option str;
}.

Inductive SearchFilesView :=
| EmptyQuery
| FilesNotFound (query : str)
| FilesFound (query : str) (total_matches overflow_count : nat) (hits : list SearchFilesHit).

(** What a query says: its normal form and its tokens. *)
Record Query := mkQuery { q_text : str; q_tokens : list str }.
Definition query_of (normalized_query : str) : Query := mkQuery normalized_query (tokenize_path_query normalized_query).
Definition has_path_context (q : Query) : bool := contains_str [x2f] (q_text q).

(** [path_allowed]. *)
Definition search_allowed (include_vendor include_personal_tooling include_tests : bool) (scope : PathScope) (path : str) : bool :=
  path_scope_matches scope path && (include_vendor || negb (is_vendor_path path))
  && (include_personal_tooling || negb (is_personal_tooling_path path))
  && (include_tests || negb (is_test (for_code_path path))).

Definition exact_match (q : Query) (path : str) : bool := bool_decide (lowercase path = lowercase (q_text q)).
Definition suffix_match (q : Query) (path : str) : bool :=
  has_path_context q && ends_with (lowercase (q_text q)) (lowercase path).
Definition has_components (q : Query) (path : str) : bool :=
  forallb (path_has_component path) (component_tokens_of (q_tokens q)).
Definition prefix_match (q : Query) (path : str) : bool :=
  let token := basename_token_of (q_tokens q) in
  (3 <=? length token) && starts_with (lowercase token) (lowercase (default [] (file_stem path))).
Definition loose_match (q : Query) (path : str) : bool :=
  forallb (λ token, contains_str token (lowercase path)) (q_tokens q).
Definition basename_match (q : Query) (path : str) : bool :=
  let token := basename_token_of (q_tokens q) in
  negb (bool_decide (token = [])) && bool_decide (lowercase (default [] (file_name path)) = lowercase token).

(** [SearchFilesQueryPredicate::matches]. *)
Definition predicate_matches (q : Query) (path : str) : bool :=
  exact_match q path || suffix_match q path || (basename_match q path && has_components q path)
  || prefix_match q path || (negb (bool_decide (q_tokens q = [])) && loose_match q path).

(** *** The files a package manifest names *)

Definition SEARCH_FILES_MANIFEST_STOPWORDS : list string :=
  ["a"; "an"; "and"; "for"; "in"; "is"; "named"; "of"; "or"; "the"; "to"].

Definition PKG : str := bs "package.json".
Definition quote : byte := x22.

Definition names_path (manifest path : str) : bool :=
  let path_lower := lowercase path in
  contains_str path_lower manifest
  || contains_str ([quote] ++ bs "./" ++ path_lower ++ [quote]) manifest
  || contains_str ([quote] ++ path_lower ++ [quote]) manifest.

Definition is_js_test (path : str) : bool :=
  match file_name path with
  | None => false
  | Some name =>
      let name_lower := lowercase name in
      (starts_with (bs "test") name_lower || contains_str (bs ".test.") name_lower)
      && (ends_with (bs ".js") name_lower || ends_with (bs ".ts") name_lower || ends_with (bs ".tsx") name_lower)
  end.

Definition package_manifest_discoverable_paths (order : list (str * Row)) (l : LiveIndex) (tokens : list str)
    (allowed : str → bool) : list str :=
  match get_file l PKG with
  | None => []
  | Some pkg =>
      if negb (allowed PKG) then []
      else
        let manifest := lowercase (from_utf8_lossy (f_content pkg)) in
        let match_tokens := filter (λ t, one_of SEARCH_FILES_MANIFEST_STOPWORDS t = false) tokens in
        if length match_tokens <? 2 then []
        else if negb (forallb (λ t, contains_str t manifest) match_tokens) then []
        else
          let hits := filter (λ p, p ≠ PKG ∧ allowed p = true ∧ names_path manifest p = true) order.*1 in
          let hits :=
            if existsb (λ t, one_of ["test"; "tests"] t) tokens
            then fold_left (λ hits p, if decide (p ∈ hits) then hits else hits ++ [p])
                   (filter (λ p, (allowed p && is_js_test p) = true) order.*1) hits
            else hits in
          dedup (sort_by str_le hits)
  end.

(** *** The passes *)

Record Passes := mkPasses {
  strong_hits : list str;
  basename_only_hits : list str;
  prefix_hits : list str;
  loose_hits : list str;
}.

Definition tier1_paths (p : Passes) : list str :=
  strong_hits p ++ basename_only_hits p ++ prefix_hits p ++ loose_hits p.

Definition run_passes (order : list (str * Row)) (l : LiveIndex) (allowed : str → bool) (q : Query) : Passes :=
  let all := filter (λ p, allowed p = true) order.*1 in
  let basename_token := basename_token_of (q_tokens q) in
  let strong := filter (λ p, (exact_match q p || suffix_match q p) = true) all in
  let basename_hits :=
    if decide (basename_token = []) then []
    else filter (λ p, allowed p = true) (find_files_by_basename l basename_token) in
  let strong :=
    if decide (component_tokens_of (q_tokens q) = []) then strong
    else strong ++ filter (λ p, has_components q p = true) basename_hits in
  let strong := retain_first id [] strong in
  let basename_only := filter (λ p, p ∉ strong) basename_hits in
  let prefix := filter (λ p, prefix_match q p = true ∧ p ∉ strong ++ basename_only) all in
  let loose := filter (λ p, p ∉ strong ++ basename_only ++ prefix ∧ loose_match q p = true) all in
  let loose :=
    if decide (loose = [] ∧ has_path_context q = false ∧ 2 ≤ length (q_tokens q)
               ∧ strong = [] ∧ basename_only = [] ∧ prefix = [])
    then package_manifest_discoverable_paths order l (q_tokens q) allowed
    else loose in
  mkPasses strong basename_only prefix loose.

Definition Candidate : Type := str * SearchFilesTier * option str.

Definition metadata_hits (l : LiveIndex) (allowed : str → bool) (known : list str) (matches : str → bool) : list (str * str) :=
  filter (λ e, allowed e.1 = true ∧ e.1 ∉ known ∧ matches e.1 = true) (metadata_only_skipped_paths l).

Definition candidates_of (p : Passes) (metadata : list (str * str)) : list Candidate :=
  ((λ path, (path, StrongPath, None)) <$> strong_hits p)
  ++ ((λ path, (path, Basename, None)) <$> basename_only_hits p)
  ++ ((λ path, (path, LoosePath, None)) <$> prefix_hits p)
  ++ ((λ path, (path, LoosePath, None)) <$> loose_hits p)
  ++ ((λ '(path, reason), (path, TierMetadata, Some reason)) <$> metadata).

(** *** Ranking *)

Fixpoint shared_prefix (a b : list str) : nat :=
  match a, b with
  | x :: a, y :: b => if decide (lowercase x = lowercase y) then S (shared_prefix a b) else 0
  | _, _ => 0
  end.

Definition shared_directory_prefix_len (path_a path_b : str) : nat :=
  let parts_a := split_bytes is_slash path_a in
  let dirs_a := if 1 <? length parts_a then take (length parts_a - 1) parts_a else parts_a in
  shared_prefix dirs_a (split_bytes is_slash path_b).

Section ranking.
Context (registry : list RankSignal) (q : Query) (current_file : option str) (coupling : option Coupling).

Definition usable_search_files_coupling_evidence (path : str) : option CouplingEvidence :=
  context ← coupling;
  evidence ← context.2 !! path;
  let ctx := mkRankCtx (q_text q) (q_tokens q) current_file (Some context.1)
               (Some (shared_commits evidence)) (Some (weighted_score evidence)) in
  if flt fzero (co_change_score path ctx) then Some evidence else None.

Definition search_files_rank_score (path : str) : float :=
  let evidence := usable_search_files_coupling_evidence path in
  combine registry path
    (mkRankCtx (q_text q) (q_tokens q) current_file (fst <$> coupling)
       (shared_commits <$> evidence) (weighted_score <$> evidence)).

Definition shared_len (path : str) : nat :=
  match current_file with Some cur => shared_directory_prefix_len cur path | None => 0 end.

(** [b.partial_cmp(a).unwrap_or(Equal).then(..)]. *)
Definition score_le {A} (score : A → float) (Q : relation A) (a b : A) : Prop :=
  match cmp_or_equal (score b) (score a) with Lt => True | Eq => Q a b | Gt => False end.
#[global] Instance score_le_dec {A} (score : A → float) (Q : relation A) `{!RelDecision Q} : RelDecision (score_le score Q).
Proof. unfold score_le. intros a b. case_match; apply _. Defined.

Definition path_rank_le : relation str :=
  then_le (exact_match q) bool_first (then_le (suffix_match q) bool_first
    (then_le shared_len nat_ge (then_le (@length byte) Nat.le (by_key id str_le)))).

Definition candidate_path (c : Candidate) : str := c.1.1.
Definition candidate_tier (c : Candidate) : SearchFilesTier := c.1.2.

Definition candidate_le : relation Candidate :=
  then_le (λ c, is_metadata_only (candidate_tier c)) bool_last
    (score_le (search_files_rank_score ∘ candidate_path) (by_key candidate_path path_rank_le)).

Definition max_coupling_weight (allowed : str → bool) : float :=
  match coupling with
  | None => fzero
  | Some (_, neighbors) =>
      fold_left fmax
        (filter (λ s, (is_finite s && flt fzero s) = true)
           ((weighted_score ∘ snd) <$> filter (λ e, allowed e.1 = true) (map_to_list neighbors))) fzero
  end.

Definition hit_of (max_weight : float) (c : Candidate) : SearchFilesHit :=
  let '(path, tier, metadata_reason) := c in
  let evidence := if is_metadata_only tier then None else usable_search_files_coupling_evidence path in
  mkFileHit (match evidence with Some _ => TierCoChange | None => tier end) path
    (e ← evidence;
     if flt fzero max_weight then Some (clamp fzero (f32 1) (fdiv binary32 (weighted_score e) max_weight)) else None)
    (shared_commits <$> evidence) metadata_reason.
End ranking.

(** [filter(|(anchor, neighbors)| ..)]. *)
Definition usable_coupling (coupling : option Coupling) : option Coupling :=
  match coupling with
  | Some (anchor, neighbors) => if decide (anchor ≠ [] ∧ neighbors ≠ ∅) then coupling else None
  | None => None
  end.

Definition clamp_limit (limit : nat) : nat := 1 `max` (limit `min` 50).

Definition is_glob (query : str) : bool := contains_str (bs "*") query || contains_str (bs "?") query || contains_str (bs "[") query.

(** The answer to a query that is a glob. *)
Definition glob_view (order : list (str * Row)) (l : LiveIndex) (limit : nat) (allowed matches : str → bool) (query : str) :
    SearchFilesView :=
  let glob_hits := sort_by str_le (filter (λ p, (allowed p && matches p) = true) order.*1) in
  let metadata := sort_by (by_key fst str_le) (metadata_hits l allowed glob_hits matches) in
  let total := length glob_hits + length metadata in
  if decide (total = 0) then FilesNotFound query
  else
    let hits := (λ path, mkFileHit StrongPath path None None None) <$> take limit glob_hits in
    FilesFound query total (total - limit)
      (hits ++ ((λ '(path, reason), mkFileHit TierMetadata path None None (Some reason)) <$> take (limit - length hits) metadata)).

Definition passes_view (order : list (str * Row)) (l : LiveIndex) (registry : list RankSignal) (limit : nat)
    (current_file : option str) (coupling : option Coupling) (allowed : str → bool) (query : str) : SearchFilesView :=
  let q := query_of query in
  let passes := run_passes order l allowed q in
  let metadata := metadata_hits l allowed (tier1_paths passes) (predicate_matches q) in
  let total := length (tier1_paths passes) + length metadata in
  if decide (total = 0) then FilesNotFound query
  else
    let coupling := usable_coupling coupling in
    let ranked := sort_by (candidate_le registry q current_file coupling) (candidates_of passes metadata) in
    FilesFound query total (total - limit)
      (hit_of q current_file coupling (max_coupling_weight coupling allowed) <$> take limit ranked).

(** [build_glob] builds a matcher for a pattern, or fails. *)
Definition capture_search_files_view_with_test_filter (build_glob : str → option (str → bool)) (order : list (str * Row))
    (l : LiveIndex) (registry : list RankSignal) (query : str) (limit : nat) (current_file : option str)
    (coupling : option Coupling) (include_vendor include_personal_tooling : bool) (scope : PathScope) (include_tests : bool) :
    SearchFilesView :=
  let limit := clamp_limit limit in
  let query := normalize_path_query query in
  let allowed := search_allowed include_vendor include_personal_tooling include_tests scope in
  if decide (query = []) then EmptyQuery
  else match (if is_glob query then build_glob query else None) with
       | Some matches => glob_view order l limit allowed matches query
       | None => passes_view order l registry limit current_file coupling allowed query
       end.

Definition anchor_path_match_score (query anchor_path : str) : float :=
  let q := query_of (normalize_path_query query) in
  path_match_score anchor_path (mkRankCtx (q_text q) (q_tokens q) None (Some anchor_path) None None).

(** ** Fusion with frecency (search.rs) *)

Notation f64 := (of_int binary64).

Definition tier_path_match_score (tier : SearchFilesTier) : float :=
  match tier with
  | StrongPath => f64 1
  | Basename => literal binary64 6 10
  | LoosePath => literal binary64 3 10
  | TierCoChange | TierMetadata => fzero
  end.

Record FrecencyFusionBreakdown := mkFusion {
  ff_path_match : float;
  ff_co_change : float;
  ff_frecency_normalized : float;
  ff_combined : float;
}.

Definition score_hits_by_frecency_fusion (hits : list SearchFilesHit) (frecency_scores : gmap str float) :
    list FrecencyFusionBreakdown :=
  let max_frecency := fold_left fmax (snd <$> map_to_list frecency_scores) fzero in
  (λ hit,
    let path_match := tier_path_match_score (fh_tier hit) in
    let co_change := default fzero (widen <$> fh_coupling_score hit) in
    let raw := default fzero (frecency_scores !! fh_path hit) in
    let normalized :=
      if flt fzero max_frecency then clamp fzero (f64 1) (fdiv binary64 raw max_frecency) else fzero in
    let combined :=
      fadd binary64 (fadd binary64 (fmul binary64 (literal binary64 6 10) path_match)
                       (fmul binary64 (literal binary64 3 10) co_change))
        (fmul binary64 (literal binary64 1 10) normalized) in
    mkFusion path_match co_change normalized combined) <$> hits.

Definition fusion_le : relation (FrecencyFusionBreakdown * SearchFilesHit) :=
  then_le (is_metadata_only ∘ fh_tier ∘ snd) bool_last (score_le (ff_combined ∘ fst) (by_key (fh_path ∘ snd) str_le)).

(** The breakdowns have to be parallel to the hits; a hit beyond them is an index out of
    bounds as soon as it is compared, and the assertion that compares the lengths is
    compiled out.  Lists of other lengths are taken as that panic. *)
Definition reorder_hits_by_frecency_fusion (hits : list SearchFilesHit) (breakdowns : list FrecencyFusionBreakdown) :
    Outcome (list SearchFilesHit) :=
  if decide (length hits = length breakdowns)
  then Done (snd <$> sort_by fusion_le (zip breakdowns hits))
  else Panic.

(** ** Calls with defaults *)

Definition capture_search_files_resolve_view (order : list (str * Row)) (l : LiveIndex) (hint : str) : SearchFilesResolveView :=
  capture_search_files_resolve_view_with_scope order l hint true true AnyPath.

Definition capture_search_files_view_with_noise (build_glob : str → option (str → bool)) (order : list (str * Row))
    (l : LiveIndex) (registry : list RankSignal) (query : str) (limit : nat) (current_file : option str)
    (coupling : option Coupling) (include_vendor include_personal_tooling : bool) (scope : PathScope) : SearchFilesView :=
  capture_search_files_view_with_test_filter build_glob order l registry query limit current_file coupling
    include_vendor include_personal_tooling scope true.

Definition capture_search_files_view (build_glob : str → option (str → bool)) (order : list (str * Row)) (l : LiveIndex)
    (registry : list RankSignal) (query : str) (limit : nat) (current_file : option str) (coupling : option Coupling) :
    SearchFilesView :=
  capture_search_files_view_with_noise build_glob order l registry query limit current_file coupling true true AnyPath.
End files.

(** ** The paths there are *)

Section passes.
Context `{CaseTables}.
Context (order : list (str * Row)) (l : LiveIndex) (allowed : str → bool) (q : Query).
Context (Hc : coherent l) (Ho : order ≡ₚ map_to_list (files l)).

Definition candidate (p : str) : Prop := is_Some (files l !! p) ∧ allowed p = true.

Definition strong_match (p : str) : bool :=
  exact_match q p || suffix_match q p
  || (basename_match q p && negb (bool_decide (component_tokens_of (q_tokens q) = [])) && has_components q p).

Lemma lowercase_nil s : lowercase s = [] ↔ s = [].
Proof. by destruct s. Qed.

Lemma elem_of_find_files_by_basename p name :
  name ≠ [] →
  p ∈ find_files_by_basename l name ↔
  is_Some (files l !! p) ∧ lowercase (default [] (file_name p)) = lowercase name.
Proof.
  intros Hn. destruct Hc as [_ _ Hb _ _]. destruct (Hb (lowercase name)) as (_ & He & _).
  unfold find_files_by_basename. change (default [] (files_by_basename l !! lowercase name)) with
    (listed (files_by_basename l) (lowercase name)). rewrite He. unfold keyed_path, basename_keys, basename_key.
  destruct (file_name p) as [n|]; simpl.
  - rewrite list_elem_of_singleton. split; (intros [? E]; split; [done|exact (eq_sym E)]).
  - rewrite elem_of_nil. split; [by intros [_ ?]|]. intros [_ E]. exfalso. apply Hn, lowercase_nil. exact (eq_sym E).
Qed.

Lemma find_files_by_basename_nodup name : NoDup (find_files_by_basename l name).
Proof.
  destruct Hc as [_ _ Hb _ _]. destruct (Hb (lowercase name)) as (Hs & _ & _). by apply (sorted_nodup str_lt).
Qed.

Lemma elem_of_all p : p ∈ filter (λ p, allowed p = true) order.*1 ↔ candidate p.
Proof. unfold candidate. rewrite list_elem_of_filter, (elem_of_order order (files l)) by done. tauto. Qed.

Lemma all_nodup : NoDup (filter (λ p, allowed p = true) order.*1).
Proof. apply NoDup_filter. rewrite Ho. apply NoDup_fst_map_to_list. Qed.

Notation P := (run_passes order l allowed q).

Lemma elem_of_basename_hits p :
  p ∈ (if decide (basename_token_of (q_tokens q) = []) then []
       else filter (λ p, allowed p = true) (find_files_by_basename l (basename_token_of (q_tokens q)))) ↔
  candidate p ∧ basename_match q p = true.
Proof.
  unfold basename_match, candidate. case_decide as E.
  - rewrite bool_decide_true by done. simpl. rewrite elem_of_nil. naive_solver.
  - rewrite bool_decide_false by done. simpl. rewrite list_elem_of_filter, elem_of_find_files_by_basename, bool_decide_eq_true by done.
    tauto.
Qed.

Lemma elem_of_strong p : p ∈ strong_hits P ↔ candidate p ∧ strong_match p = true.
Proof.
  unfold run_passes. cbn [strong_hits].
  assert (∀ (x : str) k, x ∈ retain_first id [] k ↔ x ∈ k) as Hr.
  { intros x k. split; [by intros [_ ?]%retain_first_fresh|]. intros Hx.
    destruct (retain_first_keys id [] k x) as [?%elem_of_nil|Hk]; [by rewrite list_fmap_id|done|by rewrite list_fmap_id in Hk]. }
  rewrite Hr. unfold strong_match. rewrite !orb_true_iff, !andb_true_iff, negb_true_iff.
  case_decide as E.
  - rewrite list_elem_of_filter, elem_of_all, orb_true_iff, bool_decide_true by done. naive_solver.
  - rewrite elem_of_app, list_elem_of_filter, elem_of_all, list_elem_of_filter, elem_of_basename_hits, orb_true_iff, bool_decide_false by done. tauto.
Qed.

Lemma elem_of_basename_only p :
  p ∈ basename_only_hits P ↔ candidate p ∧ basename_match q p = true ∧ strong_match p = false.
Proof.
  pose proof (elem_of_strong p) as Hs. unfold run_passes in *. cbn [strong_hits basename_only_hits] in *.
  rewrite list_elem_of_filter, elem_of_basename_hits, Hs. destruct (strong_match p); naive_solver.
Qed.

Lemma elem_of_prefix p :
  p ∈ prefix_hits P ↔ candidate p ∧ prefix_match q p = true ∧ basename_match q p = false ∧ strong_match p = false.
Proof.
  pose proof (elem_of_strong p) as Hs. pose proof (elem_of_basename_only p) as Hb.
  unfold run_passes in *. cbn [strong_hits basename_only_hits prefix_hits] in *.
  rewrite list_elem_of_filter, elem_of_all, elem_of_app, Hs, Hb.
  destruct (strong_match p), (basename_match q p); naive_solver.
Qed.

(** Without the files of the package manifest. *)
Definition loose_base (P : Passes) : list str :=
  filter (λ p, p ∉ strong_hits P ++ basename_only_hits P ++ prefix_hits P ∧ loose_match q p = true)
    (filter (λ p, allowed p = true) order.*1).

Lemma elem_of_loose_base p :
  p ∈ loose_base P ↔
  candidate p ∧ loose_match q p = true ∧ prefix_match q p = false ∧ basename_match q p = false ∧ strong_match p = false.
Proof.
  unfold loose_base. rewrite list_elem_of_filter, elem_of_all, !elem_of_app, elem_of_strong, elem_of_basename_only, elem_of_prefix.
  destruct (strong_match p), (basename_match q p), (prefix_match q p); naive_solver.
Qed.

Lemma loose_hits_eq :
  loose_hits P =
    if decide (loose_base P = [] ∧ has_path_context q = false ∧ 2 ≤ length (q_tokens q)
               ∧ strong_hits P = [] ∧ basename_only_hits P = [] ∧ prefix_hits P = [])
    then package_manifest_discoverable_paths order l (q_tokens q) allowed else loose_base P.
Proof. reflexivity. Qed.

(** What the passes together look for. *)
Definition searched (p : str) : bool :=
  predicate_matches q p || basename_match q p || bool_decide (q_tokens q = []).

Lemma searched_passes p :
  searched p = strong_match p || basename_match q p || prefix_match q p || loose_match q p.
Proof.
  unfold searched, predicate_matches, strong_match, loose_match. case_bool_decide as E.
  - rewrite E. simpl. by rewrite !orb_true_r.
  - destruct (exact_match q p), (suffix_match q p), (basename_match q p), (prefix_match q p), (has_components q p),
      (bool_decide (component_tokens_of (q_tokens q) = [])); simpl; by rewrite ?orb_false_r, ?orb_true_r.
Qed.

Lemma add_missing_elements (hits ps : list str) p :
  p ∈ fold_left (λ hits p, if decide (p ∈ hits) then hits else hits ++ [p]) ps hits ↔ p ∈ hits ∨ p ∈ ps.
Proof.
  revert hits. induction ps as [|x ps IH]; intros hits; simpl; [rewrite elem_of_nil; tauto|].
  rewrite IH, elem_of_cons. case_decide; [naive_solver|]. rewrite elem_of_app, list_elem_of_singleton. tauto.
Qed.

Lemma manifest_paths_sound p :
  p ∈ package_manifest_discoverable_paths order l (q_tokens q) allowed → candidate p.
Proof.
  unfold package_manifest_discoverable_paths.
  repeat (case_match; try (by intros ?%elem_of_nil)); rewrite elem_of_dedup, sort_by_Permutation, ?add_missing_elements.
  - rewrite !list_elem_of_filter, andb_true_iff, (elem_of_order order (files l)) by done. unfold candidate. tauto.
  - rewrite list_elem_of_filter, (elem_of_order order (files l)) by done. unfold candidate. tauto.
Qed.

Lemma manifest_paths_nodup : NoDup (package_manifest_discoverable_paths order l (q_tokens q) allowed).
Proof.
  unfold package_manifest_discoverable_paths.
  repeat (case_match; try apply NoDup_nil_2); apply (dedup_nodup str_le), StronglySorted_sort_by; apply _.
Qed.

Lemma tier1_paths_cases :
  (tier1_paths P = package_manifest_discoverable_paths order l (q_tokens q) allowed ∧
     strong_hits P = [] ∧ basename_only_hits P = [] ∧ prefix_hits P = [] ∧ loose_base P = []) ∨
  (loose_hits P = loose_base P ∧
     tier1_paths P = strong_hits P ++ basename_only_hits P ++ prefix_hits P ++ loose_base P).
Proof.
  unfold tier1_paths. rewrite loose_hits_eq. case_decide as E; [left|right; done].
  destruct E as (E1 & _ & _ & E2 & E3 & E4). by rewrite E2, E3, E4.
Qed.

Lemma passes_nodup : NoDup (strong_hits P ++ basename_only_hits P ++ prefix_hits P ++ loose_base P).
Proof.
  assert (NoDup (strong_hits P)).
  { unfold run_passes. cbn [strong_hits]. rewrite <-(list_fmap_id (retain_first _ _ _)). apply retain_first_nodup. }
  assert (NoDup (basename_only_hits P)).
  { unfold run_passes. cbn [basename_only_hits]. apply NoDup_filter. case_decide; [constructor|].
    apply NoDup_filter, find_files_by_basename_nodup. }
  assert (NoDup (prefix_hits P)) by (apply NoDup_filter, all_nodup).
  assert (NoDup (loose_base P)) by (apply NoDup_filter, all_nodup).
  rewrite !NoDup_app. split_and!; try done; intros p; rewrite ?elem_of_app, ?elem_of_strong, ?elem_of_basename_only,
    ?elem_of_prefix, ?elem_of_loose_base; intuition congruence.
Qed.

Lemma tier1_paths_nodup : NoDup (tier1_paths P).
Proof.
  destruct tier1_paths_cases as [[-> _]|[_ ->]]; [apply manifest_paths_nodup|apply passes_nodup].
Qed.

Lemma elem_of_passes p :
  p ∈ strong_hits P ++ basename_only_hits P ++ prefix_hits P ++ loose_base P ↔ candidate p ∧ searched p = true.
Proof.
  rewrite !elem_of_app, elem_of_strong, elem_of_basename_only, elem_of_prefix, elem_of_loose_base, searched_passes.
  destruct (strong_match p), (basename_match q p), (prefix_match q p), (loose_match q p); intuition congruence.
Qed.
End passes.

(** ** The order *)

Lemma lowercase_idem s : lowercase (lowercase s) = lowercase s.
Proof. unfold lowercase. rewrite <-list_fmap_compose. apply list_fmap_ext. intros i b _. by destruct b. Qed.

Lemma query_tokens_lower text t : t ∈ q_tokens (query_of text) → lowercase t = t.
Proof. intros (? & -> & _)%list_elem_of_fmap. apply lowercase_idem. Qed.

Lemma basename_token_lower text : let t := basename_token_of (q_tokens (query_of text)) in lowercase t = t.
Proof.
  simpl. unfold basename_token_of. destruct (last _) as [t|] eqn:E; [|done]. simpl.
  apply (query_tokens_lower text). by eapply last_Some_elem_of.
Qed.

(** Without an anchor a file's score says which pass finds it. *)
Definition pass_score (q : Query) (p : str) : float :=
  if strong_match q p then STRONG_PATH_SCORE
  else if basename_match q p then BASENAME_SCORE
  else if prefix_match q p then PREFIX_SCORE
  else if loose_match q p then LOOSE_PATH_SCORE
  else fzero.

Lemma below_strong q a b :
  strong_match q b = true → strong_match q a = false → cmp_or_equal (pass_score q b) (pass_score q a) = Gt.
Proof. unfold pass_score. intros -> ->. by repeat case_match. Qed.

Lemma below_basename q a b :
  strong_match q b = false → basename_match q b = true → strong_match q a = false → basename_match q a = false →
  cmp_or_equal (pass_score q b) (pass_score q a) = Gt.
Proof. unfold pass_score. intros -> -> -> ->. by repeat case_match. Qed.

Lemma path_match_score_passes text ctx p :
  let q := query_of text in
  text ≠ [] → q_tokens q ≠ [] → rc_query ctx = text → rc_tokens ctx = q_tokens q → rc_target_path ctx = None →
  path_match_score p ctx = pass_score q p.
Proof.
  intros q Ht Hq Eq Et Ea. unfold path_match_score, pass_score. rewrite Et, Eq, Ea.
  pose proof (basename_token_lower text) as Hl. cbv zeta in Hl. fold q in Hl.
  unfold strong_match, exact_match, suffix_match, basename_match, prefix_match, loose_match, has_path_context, has_components.
  change (q_text q) with text. rewrite Hl. rewrite (bool_decide_false (lowercase text = [])) by (by rewrite lowercase_nil).
  destruct (q_tokens q) as [|t ts]; [done|]. simpl negb. rewrite !andb_true_r, !andb_false_l, !orb_false_r, !andb_assoc. done.
Qed.

Section order.
Context `{CaseTables}.

Lemma score_le_ranks {A} (score : A → float) (Q : relation A) a b :
  is_nan (score a) = false → is_nan (score b) = false → score_le score Q a b ↔ then_le (rank ∘ score) key_ge Q a b.
Proof.
  intros Ha Hb. unfold score_le, then_le, key_ge. simpl. rewrite cmp_or_equal_rank by done.
  pose proof (rank_cmp_spec (rank (score b)) (rank (score a))) as E.
  pose proof (rank_cmp_spec (rank (score b)) (rank (score b))) as E'.
  destruct (rank_cmp (rank (score b)) (rank (score a))) eqn:Er.
  - rewrite E in *. naive_solver.
  - split; [|done]. intros _. right. split; [|done]. intros Eab. rewrite Eab in Er. rewrite Er in E'. lia.
  - split; [done|]. intros [[Eab _]|[_ []]]; [|done]. rewrite Eab in Er. rewrite Er in E'. lia.
Qed.

Lemma rank_score_number q current_file coupling p : is_nan (search_files_rank_score default_registry q current_file coupling p) = false.
Proof. apply combine_number. Qed.

Definition candidate_ranks (q : Query) (current_file : option str) (coupling : option Coupling) : relation Candidate :=
  then_le (λ c, is_metadata_only (candidate_tier c)) bool_last
    (then_le (rank ∘ (search_files_rank_score default_registry q current_file coupling ∘ candidate_path)) key_ge
       (by_key candidate_path (path_rank_le q current_file))).

Lemma candidate_le_ranks q current_file coupling a b :
  candidate_le default_registry q current_file coupling a b ↔ candidate_ranks q current_file coupling a b.
Proof.
  unfold candidate_le, candidate_ranks, then_le at 1 2. rewrite score_le_ranks by apply rank_score_number. done.
Qed.

#[export] Instance candidate_le_trans q current_file coupling : Transitive (candidate_le default_registry q current_file coupling).
Proof. intros a b c. rewrite !candidate_le_ranks. unfold candidate_ranks, path_rank_le. apply transitivity. Qed.
#[export] Instance candidate_le_total q current_file coupling : Total (candidate_le default_registry q current_file coupling).
Proof. intros a b. rewrite !candidate_le_ranks. unfold candidate_ranks, path_rank_le. apply (total _). Qed.

(** The order of the passes; a coupled file is above them all. *)
Definition tier_rank (t : SearchFilesTier) : nat :=
  match t with TierCoChange => 0 | StrongPath => 1 | Basename => 2 | LoosePath => 3 | TierMetadata => 4 end.

Lemma elem_of_candidates P metadata c :
  c ∈ candidates_of P metadata ↔
  (candidate_tier c = StrongPath ∧ candidate_path c ∈ strong_hits P ∧ c.2 = None) ∨
  (candidate_tier c = Basename ∧ candidate_path c ∈ basename_only_hits P ∧ c.2 = None) ∨
  (candidate_tier c = LoosePath ∧ candidate_path c ∈ prefix_hits P ++ loose_hits P ∧ c.2 = None) ∨
  (candidate_tier c = TierMetadata ∧ ∃ reason, (candidate_path c, reason) ∈ metadata ∧ c.2 = Some reason).
Proof.
  destruct c as [[p t] r]. unfold candidates_of, candidate_tier, candidate_path. simpl.
  rewrite !elem_of_app, !list_elem_of_fmap. split.
  - intros [(? & ? & ?)|[(? & ? & ?)|[(? & ? & ?)|[(? & ? & ?)|([? ?] & ? & ?)]]]]; simplify_eq; naive_solver.
  - intros [(-> & ? & ->)|[(-> & ? & ->)|[(-> & [?|?] & ->)|(-> & reason & ? & ->)]]]; [naive_solver..|].
    right. right. right. right. by exists (p, reason).
Qed.
End order.

Section tiers.
Context `{CaseTables}.
Context (order : list (str * Row)) (l : LiveIndex) (allowed : str → bool) (text : str) (metadata : list (str * str)).
Context (Hc : coherent l) (Ho : order ≡ₚ map_to_list (files l)) (Ht : text ≠ []).
Notation q := (query_of text).
Notation P := (run_passes order l allowed q).

(** Which pass a candidate is from. *)
Lemma candidate_class c :
  c ∈ candidates_of P metadata →
  match candidate_tier c with
  | StrongPath => strong_match q (candidate_path c) = true
  | Basename => strong_match q (candidate_path c) = false ∧ basename_match q (candidate_path c) = true
  | LoosePath => strong_match q (candidate_path c) = false ∧ basename_match q (candidate_path c) = false
  | TierMetadata => True
  | TierCoChange => False
  end.
Proof.
  rewrite elem_of_candidates. intros [(-> & Hp & _)|[(-> & Hp & _)|[(-> & Hp & _)|(-> & _)]]]; [..|done].
  - by apply elem_of_strong in Hp as [_ ?].
  - by apply elem_of_basename_only in Hp as (_ & ? & ?).
  - apply elem_of_app in Hp as [(_ & _ & ? & ?)%elem_of_prefix|Hp]; [done..|].
    destruct (tier1_paths_cases order l allowed q) as [(E & Es & Eb & Ep & El)|[E _]].
    + assert (candidate l allowed (candidate_path c)) as Hcand.
      { apply (manifest_paths_sound order l allowed q Ho). rewrite <-E. unfold tier1_paths. by rewrite Es, Eb, Ep. }
      pose proof (elem_of_strong order l allowed q Hc Ho (candidate_path c)) as Hs.
      pose proof (elem_of_basename_only order l allowed q Hc Ho (candidate_path c)) as Hb.
      rewrite Es in Hs. rewrite Eb in Hb. rewrite elem_of_nil in Hs, Hb.
      clear -Hcand Hs Hb. destruct (strong_match q _); [tauto|]. destruct (basename_match q _); tauto.
    + rewrite E in Hp. by apply elem_of_loose_base in Hp as (_ & _ & _ & ? & ?).
Qed.

Lemma rank_score_passes current_file p :
  q_tokens q ≠ [] → search_files_rank_score default_registry q current_file None p = pass_score q p.
Proof. intros Hq. unfold search_files_rank_score. rewrite combine_without_anchor by done. by apply path_match_score_passes. Qed.

(** A query of white space has no tokens. *)
Lemma no_tokens_strong p : q_tokens q = [] → strong_match q p = exact_match q p || suffix_match q p.
Proof. intros Eq. unfold strong_match, basename_match. rewrite Eq. simpl. by rewrite orb_false_r. Qed.

Lemma no_tokens_rank current_file a b :
  q_tokens q = [] → strong_match q a = false → strong_match q b = true → ¬ path_rank_le q current_file a b.
Proof.
  intros Eq. rewrite !no_tokens_strong by done. unfold path_rank_le, then_le at 1 2, bool_first.
  destruct (exact_match q a), (suffix_match q a), (exact_match q b), (suffix_match q b); simpl; naive_solver.
Qed.

Lemma tiers_agree current_file a b :
  a ∈ candidates_of P metadata → b ∈ candidates_of P metadata →
  candidate_le default_registry q current_file None a b → tier_rank (candidate_tier a) ≤ tier_rank (candidate_tier b).
Proof.
  intros Ha%candidate_class Hb%candidate_class [[Em Hle]|[Em Hle]].
  2: { unfold bool_last, bool_first, is_metadata_only in *. destruct (candidate_tier a), (candidate_tier b); simpl in *; try lia; done. }
  revert Hle. unfold score_le. simpl.
  destruct (decide (q_tokens q = [])) as [Eq|Hq].
  - assert (∀ p, basename_match q p = false) as Hn by (intros p; unfold basename_match; by rewrite Eq).
    rewrite !Hn in *.
    assert (∀ p, search_files_rank_score default_registry q current_file None p = fzero) as Es.
    { intros p. unfold search_files_rank_score. rewrite combine_without_anchor by done. unfold path_match_score. cbn [rc_tokens]. by rewrite Eq. }
    rewrite !Es. destruct (candidate_tier a), (candidate_tier b); simpl; try lia; try done; try naive_solver.
    intros Hle. destruct Ha as [Ha _]. by destruct (no_tokens_rank current_file (candidate_path a) (candidate_path b)).
  - rewrite !rank_score_passes by done.
    destruct (candidate_tier a), (candidate_tier b); simpl; try lia; try done.
    + by rewrite below_strong by tauto.
    + by rewrite below_strong by tauto.
    + by rewrite below_basename by tauto.
Qed.
End tiers.

(** ** The answer *)

Lemma StronglySorted_take {A} (R : relation A) n k : StronglySorted R k → StronglySorted R (take n k).
Proof.
  intros Hk. revert n. induction Hk as [|x k Hk IH Hx]; intros [|n]; simpl; try constructor; [apply IH|by apply Forall_take].
Qed.

Lemma StronglySorted_fmap_on {A B} (R : relation A) (Q : relation B) (f : A → B) k :
  (∀ a b, a ∈ k → b ∈ k → R a b → Q (f a) (f b)) → StronglySorted R k → StronglySorted Q (f <$> k).
Proof.
  intros Hf Hk. induction Hk as [|x k Hk IH Hx]; simpl; constructor.
  - apply IH. intros a b Ha Hb. apply Hf; by right.
  - apply Forall_forall. intros y (z & -> & Hz)%list_elem_of_fmap. apply Hf; [by left|by right|by eapply Forall_forall].
Qed.

Lemma StronglySorted_all {A} (R : relation A) k : (∀ a b, a ∈ k → b ∈ k → R a b) → StronglySorted R k.
Proof.
  intros HR. induction k as [|x k IH]; constructor.
  - apply IH. intros a b Ha Hb. apply HR; by right.
  - apply Forall_forall. intros y Hy. apply HR; [by left|by right].
Qed.

Section answer.
Context `{CaseTables}.

Lemma candidates_length P metadata : length (candidates_of P metadata) = length (tier1_paths P) + length metadata.
Proof. unfold candidates_of, tier1_paths. rewrite !length_app, !length_fmap. lia. Qed.

Lemma passes_view_hits (R : relation SearchFilesHit) order l limit current_file coupling allowed text query total overflow hits :
  (∀ metadata a b,
     a ∈ candidates_of (run_passes order l allowed (query_of text)) metadata →
     b ∈ candidates_of (run_passes order l allowed (query_of text)) metadata →
     candidate_le default_registry (query_of text) current_file (usable_coupling coupling) a b →
     ∀ w, R (hit_of (query_of text) current_file (usable_coupling coupling) w a)
            (hit_of (query_of text) current_file (usable_coupling coupling) w b)) →
  passes_view order l default_registry limit current_file coupling allowed text = FilesFound query total overflow hits →
  query = text ∧ StronglySorted R hits ∧ length hits = limit `min` total ∧ overflow = total - limit.
Proof.
  intros HR. unfold passes_view. case_decide as E; [done|]. intros [= <- <- <- <-].
  split_and!; [done| |by rewrite length_fmap, length_take, sort_by_Permutation, candidates_length|done].
  eapply StronglySorted_fmap_on; [|apply StronglySorted_take, StronglySorted_sort_by; apply _].
  intros a b Ha%elem_of_take Hb%elem_of_take Hab. destruct Ha as (i & Ha%list_elem_of_lookup_2 & _), Hb as (j & Hb%list_elem_of_lookup_2 & _).
  rewrite sort_by_Permutation in Ha, Hb. by eapply HR.
Qed.

Lemma glob_view_hits (R : relation SearchFilesHit) order l limit allowed matches text query total overflow hits :
  (∀ a b, fh_tier a = StrongPath → fh_tier b = StrongPath ∨ fh_tier b = TierMetadata → R a b) →
  (∀ a b, fh_tier a = TierMetadata → fh_tier b = TierMetadata → R a b) →
  glob_view order l limit allowed matches text = FilesFound query total overflow hits →
  query = text ∧ StronglySorted R hits ∧ length hits = limit `min` total ∧ overflow = total - limit.
Proof.
  intros H1 H2. unfold glob_view. case_decide as E; [done|]. intros [= <- <- <- <-].
  split_and!; [done| |rewrite length_app, !length_fmap, !length_take; lia|done].
  apply StronglySorted_app. split_and!.
  - intros a b (? & -> & _)%list_elem_of_fmap ([? ?] & -> & _)%list_elem_of_fmap. apply H1; auto.
  - apply StronglySorted_all. intros a b (? & -> & _)%list_elem_of_fmap (? & -> & _)%list_elem_of_fmap. apply H1; auto.
  - apply StronglySorted_all. intros a b ([? ?] & -> & _)%list_elem_of_fmap ([? ?] & -> & _)%list_elem_of_fmap. by apply H2.
Qed.

Lemma hit_of_metadata q current_file coupling w c :
  fh_tier (hit_of q current_file coupling w c) = TierMetadata ↔ candidate_tier c = TierMetadata.
Proof.
  destruct c as [[p t] r]. unfold hit_of, candidate_tier, is_metadata_only. simpl. case_bool_decide; [done|].
  case_match; naive_solver.
Qed.

Lemma hit_of_uncoupled q current_file w c : fh_tier (hit_of q current_file None w c) = candidate_tier c.
Proof. destruct c as [[p t] r]. unfold hit_of, candidate_tier, is_metadata_only. simpl. by case_bool_decide. Qed.

Context (build_glob : str → option (str → bool)) (order : list (str * Row)) (l : LiveIndex).
Context (query : str) (limit : nat) (current_file : option str) (include_vendor include_personal_tooling include_tests : bool).
Context (scope : PathScope).

(** Whatever the coupling and the query, a file that was only catalogued is listed after
    every indexed file, the list has as many hits as the limit allows, and the overflow is
    what was found beyond it. *)
Theorem catalogued_files_rank_last coupling text total overflow hits :
  capture_search_files_view_with_test_filter build_glob order l default_registry query limit current_file coupling
    include_vendor include_personal_tooling scope include_tests = FilesFound text total overflow hits →
  StronglySorted (λ a b, fh_tier a = TierMetadata → fh_tier b = TierMetadata) hits ∧
  length hits = clamp_limit limit `min` total ∧ overflow = total - clamp_limit limit.
Proof.
  unfold capture_search_files_view_with_test_filter. case_decide as E; [done|]. case_match.
  - intros (_ & ? & ? & ?)%(glob_view_hits (λ a b, fh_tier a = TierMetadata → fh_tier b = TierMetadata)); [done|congruence|done].
  - intros (_ & ? & ? & ?)%(passes_view_hits (λ a b, fh_tier a = TierMetadata → fh_tier b = TierMetadata)); [done|].
    intros metadata a b _ _ Hab w. rewrite !hit_of_metadata. revert Hab. unfold candidate_le, then_le at 1.
    unfold bool_last, bool_first, is_metadata_only. intros Hab Ea. rewrite Ea in Hab.
    destruct (candidate_tier b); simpl in *; naive_solver.
Qed.

(** Without coupling the weighted scores keep the order of the passes: paths that match
    exactly, by suffix, or by name and directories, then files of that name, then looser
    matches, then catalogued files. *)
Theorem search_files_in_tier_order text total overflow hits :
  coherent l → order ≡ₚ map_to_list (files l) →
  capture_search_files_view_with_test_filter build_glob order l default_registry query limit current_file None
    include_vendor include_personal_tooling scope include_tests = FilesFound text total overflow hits →
  StronglySorted (λ a b, tier_rank (fh_tier a) ≤ tier_rank (fh_tier b)) hits.
Proof.
  intros Hc Ho. unfold capture_search_files_view_with_test_filter. case_decide as E; [done|]. case_match.
  - intros (_ & ? & _)%(glob_view_hits (λ a b, tier_rank (fh_tier a) ≤ tier_rank (fh_tier b))); [done| |].
    + intros x y -> [-> | ->]; simpl; lia.
    + by intros x y -> ->.
  - intros (_ & ? & _)%(passes_view_hits (λ a b, tier_rank (fh_tier a) ≤ tier_rank (fh_tier b))); [done|].
    intros metadata a b Ha Hb Hab w. simpl. rewrite !hit_of_uncoupled. by eapply tiers_agree.
Qed.
End answer.

(** The passes together find each indexed and allowed path once, and find exactly those
    that the predicate for catalogued files describes, or whose name is the last word, or
    all of them when the query has no words.  Only when there is none do they list the
    files that a package manifest names. *)
Theorem passes_find_what_is_searched order l allowed q :
  coherent l → order ≡ₚ map_to_list (files l) →
  let found p := is_Some (files l !! p) ∧ allowed p = true ∧
    (predicate_matches q p || basename_match q p || bool_decide (q_tokens q = [])) = true in
  let paths := tier1_paths (run_passes order l allowed q) in
  NoDup paths ∧ (∀ p, p ∈ paths → is_Some (files l !! p) ∧ allowed p = true) ∧
  (∀ p, found p → p ∈ paths) ∧ ((∃ p, found p) → ∀ p, p ∈ paths → found p).
Proof.
  intros Hc Ho found paths. pose proof (elem_of_passes order l allowed q Hc Ho) as He.
  assert (∀ p, candidate l allowed p ∧ searched q p = true ↔ found p) as Hf.
  { intros p. unfold candidate, searched, found. tauto. }
  split; [by apply tier1_paths_nodup|]. unfold paths.
  destruct (tier1_paths_cases order l allowed q) as [(-> & Es & Eb & Ep & El)|[_ ->]].
  - rewrite Es, Eb, Ep, El in He. setoid_rewrite elem_of_nil in He.
    split_and!; [by apply manifest_paths_sound|intros p Hp%Hf%He; done|intros [p Hp%Hf%He]; done].
  - split_and!; [intros p [? _]%He; done|intros p Hp; by apply He, Hf|intros _ p Hp; by apply Hf, He].
Qed.

(** ** Resolving *)

Section resolve.
Context `{CaseTables}.
Context (order : list (str * Row)) (l : LiveIndex) (Hc : coherent l) (Ho : order ≡ₚ map_to_list (files l)).

Lemma elem_of_find_files_by_dir_component p c :
  p ∈ find_files_by_dir_component l c ↔ is_Some (files l !! p) ∧ lowercase c ∈ dir_component_keys p.
Proof.
  destruct Hc as [_ _ _ Hd _]. destruct (Hd (lowercase c)) as (_ & He & _). apply (He p).
Qed.

Lemma fold_filters {A B} (keep : B → A → Prop) `{∀ b a, Decision (keep b a)} bs (k : list A) x :
  x ∈ fold_left (λ c b, filter (keep b) c) bs k ↔ x ∈ k ∧ Forall (λ b, keep b x) bs.
Proof.
  revert k. induction bs as [|b bs IH]; intros k; simpl; [split; [|tauto]; intros; split; [done|constructor]|].
  rewrite IH, list_elem_of_filter, Forall_cons. tauto.
Qed.

Lemma resolve_candidates_sound allowed hint p :
  p ∈ resolve_candidates order l allowed hint → is_Some (files l !! p) ∧ allowed p = true.
Proof.
  unfold resolve_candidates. rewrite elem_of_dedup, sort_by_Permutation, fold_filters. intros [Hp _]. revert Hp.
  destruct (filter _ (find_files_by_basename _ _)) as [|x xs] eqn:E.
  - rewrite list_elem_of_filter, andb_true_iff, (elem_of_order order (files l)) by done. tauto.
  - rewrite <-E, list_elem_of_filter. intros [? Hp]. split; [|done].
    destruct Hc as [_ _ Hb _ _]. destruct (Hb (lowercase (basename_token_of (segments_of hint)))) as (_ & He & _).
    by apply (He p) in Hp as [? _].
Qed.

(** A path of that name in those directories is a candidate. *)
Lemma resolve_candidates_complete allowed hint p :
  basename_token_of (segments_of hint) ≠ [] → is_Some (files l !! p) → allowed p = true →
  lowercase (default [] (file_name p)) = lowercase (basename_token_of (segments_of hint)) →
  Forall (λ c, lowercase c ∈ dir_component_keys p) (component_tokens_of (segments_of hint)) →
  p ∈ resolve_candidates order l allowed hint.
Proof.
  intros Hn Hp Ha Eb Hd. unfold resolve_candidates. rewrite elem_of_dedup, sort_by_Permutation, fold_filters. split.
  - assert (p ∈ filter (λ p, allowed p = true) (find_files_by_basename l (basename_token_of (segments_of hint)))) as Hin.
    { apply list_elem_of_filter. split; [done|]. by apply elem_of_find_files_by_basename. }
    destruct (filter _ (find_files_by_basename _ _)) as [|x xs]; [by apply elem_of_nil in Hin|done].
  - eapply Forall_impl; [exact Hd|]. intros c Hk. by apply elem_of_find_files_by_dir_component.
Qed.

Lemma resolve_tier2_sound allowed hint e :
  e ∈ resolve_tier2 l allowed hint → e ∈ metadata_only_skipped_paths l ∧ allowed e.1 = true.
Proof.
  unfold resolve_tier2. rewrite sort_by_Permutation, fold_filters. intros [Hp _]. revert Hp.
  rewrite list_elem_of_filter. destruct e as [p r]. intros [Ha%Is_true_true Hp]. split; [done|].
  by apply andb_true_iff in Ha as [? _].
Qed.

Lemma get_file_served p : is_Some (get_file l p) → is_Some (files l !! p).
Proof.
  unfold get_file. repeat case_match; try (by intros []); intros [f (row & E & _)%fmap_Some]; by eexists.
Qed.

(** The first ten of several paths, and how many more there are. *)
Lemma ambiguous_spec text paths (Q : str → Prop) :
  2 ≤ length paths → (∀ p, p ∈ paths → Q p) →
  match ambiguous text paths with
  | Ambiguous h shown overflow =>
      h = text ∧ 2 ≤ length shown ∧ length shown = (length shown + overflow) `min` 10 ∧ ∀ p, p ∈ shown → Q p
  | _ => False
  end.
Proof.
  intros Hl Hq. simpl. rewrite length_take. unfold RESOLVE_PATH_AMBIGUOUS_CAP. split_and!; [done|lia|lia|].
  intros p (i & Hp & _)%elem_of_take. apply Hq. by eapply list_elem_of_lookup_2.
Qed.
End resolve.

(** A hint resolves only to a path that is indexed or catalogued, and allowed; a hint
    that is itself the path of a readable file resolves to it; several paths are listed
    with none lost from the count; and a hint is not found only when no allowed indexed
    file has that name inside those directories. *)
Theorem resolve_is_truthful `{CaseTables} order l hint include_vendor include_personal_tooling scope :
  coherent l → order ≡ₚ map_to_list (files l) →
  let allowed := resolve_allowed include_vendor include_personal_tooling scope in
  let text := normalize_path_query hint in
  match capture_search_files_resolve_view_with_scope order l hint include_vendor include_personal_tooling scope with
  | EmptyHint => text = []
  | Resolved p => is_Some (files l !! p) ∧ allowed p = true
  | ResolvedMetadataOnly p reason => (p, reason) ∈ metadata_only_skipped_paths l ∧ allowed p = true
  | Ambiguous h paths overflow =>
      h = text ∧ 2 ≤ length paths ∧ length paths = (length paths + overflow) `min` 10 ∧
      ∀ p, p ∈ paths → allowed p = true ∧ (is_Some (files l !! p) ∨ p ∈ (metadata_only_skipped_paths l).*1)
  | ResolveNotFound h =>
      h = text ∧
      ∀ p, is_Some (files l !! p) → allowed p = true → basename_token_of (segments_of text) ≠ [] →
        lowercase (default [] (file_name p)) = lowercase (basename_token_of (segments_of text)) →
        ¬ Forall (λ c, lowercase c ∈ dir_component_keys p) (component_tokens_of (segments_of text))
  end ∧
  (is_Some (get_file l text) → text ≠ [] → allowed text = true →
   capture_search_files_resolve_view_with_scope order l hint include_vendor include_personal_tooling scope = Resolved text).
Proof.
  intros Hc Ho allowed text. unfold capture_search_files_resolve_view_with_scope. fold text.
  change (resolve_allowed include_vendor include_personal_tooling scope) with allowed.
  pose proof (resolve_candidates_sound order l Hc Ho allowed text) as Hsound.
  pose proof (resolve_candidates_complete order l Hc allowed text) as Hcomplete.
  pose proof (resolve_tier2_sound l allowed text) as Htier2.
  destruct text as [|b text'] eqn:Etext; [split; [done|by intros]|]. rewrite <-Etext in *.
  split.
  2: { intros Hg _ Ha. rewrite bool_decide_true by done. by rewrite Ha. }
  destruct (bool_decide (is_Some (get_file l text)) && allowed text) eqn:Eexact.
  { apply andb_true_iff in Eexact as [Hg%bool_decide_eq_true Ha]. split; [|done]. by eapply get_file_served. }
  destruct (head _) as [[p reason]|] eqn:Eh.
  { apply head_Some_elem_of, list_elem_of_filter in Eh as [[? _]%andb_true_iff ?]. done. }
  destruct (resolve_candidates order l allowed text) as [|p [|p2 ps]] eqn:Ec.
  - destruct (resolve_tier2 l allowed text) as [|[p r] [|e2 es]].
    + split; [done|]. intros p Hp Ha Hn Eb Hd. by eapply elem_of_nil, Hcomplete.
    + apply Htier2. by left.
    + apply ambiguous_spec; [simpl; lia|]. intros x (e & -> & He)%list_elem_of_fmap. apply Htier2 in He as [He ?].
      split; [done|]. right. by apply list_elem_of_fmap_2.
  - apply Hsound. by left.
  - apply ambiguous_spec; [simpl; lia|]. intros x Hx. apply Hsound in Hx as [? ?]. auto.
Qed.

(** ** Fusion *)

(** When no fused score is a NaN, the fusion keeps every hit, keeps the catalogued files
    last, and puts the others by falling score and equal scores by path. *)
Theorem fusion_keeps_the_floor hits breakdowns :
  length hits = length breakdowns → Forall (λ b, is_nan (ff_combined b) = false) breakdowns →
  ∃ ranked, ranked ≡ₚ zip breakdowns hits ∧ reorder_hits_by_frecency_fusion hits breakdowns = Done (snd <$> ranked) ∧
    ranked.*2 ≡ₚ hits ∧
    StronglySorted (λ a b,
      (fh_tier a.2 = TierMetadata → fh_tier b.2 = TierMetadata) ∧
      ((fh_tier a.2 = TierMetadata ↔ fh_tier b.2 = TierMetadata) →
       partial_cmp (ff_combined b.1) (ff_combined a.1) = Some Lt ∨
       partial_cmp (ff_combined b.1) (ff_combined a.1) = Some Eq ∧ str_le (fh_path a.2) (fh_path b.2))) ranked.
Proof.
  intros El Hn. unfold reorder_hits_by_frecency_fusion. rewrite decide_True by done.
  exists (sort_by fusion_le (zip breakdowns hits)). split; [apply sort_by_Permutation|]. split; [reflexivity|].
  split; [rewrite sort_by_Permutation; by rewrite snd_zip by lia|].
  pose (R := then_le (is_metadata_only ∘ fh_tier ∘ snd) bool_last
          (then_le (rank ∘ (ff_combined ∘ fst)) key_ge (by_key (fh_path ∘ snd) str_le)) :
          relation (FrecencyFusionBreakdown * SearchFilesHit)).
  assert (∀ x, x ∈ zip breakdowns hits → is_nan (ff_combined x.1) = false) as Hnum.
  { intros [b h] Hin. apply elem_of_zip_l in Hin. by eapply Forall_forall in Hn. }
  rewrite (sort_by_ext _ R).
  2: { intros x y Hx Hy. unfold fusion_le, R, then_le at 1 2. rewrite score_le_ranks by (simpl; auto). done. }
  rewrite <-(list_fmap_id (sort_by R _)). eapply StronglySorted_fmap_on; [|apply (StronglySorted_sort_by R); apply _].
  intros x y. rewrite !sort_by_Permutation. intros Hx%Hnum Hy%Hnum. unfold R, then_le, bool_last, bool_first, is_metadata_only, key_ge.
  simpl. rewrite partial_cmp_rank by done.
  pose proof (rank_cmp_spec (rank (ff_combined y.1)) (rank (ff_combined x.1))) as Hr.
  intros Hle. split.
  - destruct Hle as [[E _]|[_ Hle]]; [|by rewrite !bool_decide_eq_true in Hle].
    intros Ex. rewrite Ex in E. by destruct (fh_tier y.2).
  - intros Ht. destruct Hle as [[_ Hle]|[E _]].
    + destruct (rank_cmp _ _) eqn:Er; [right|by left|destruct Hle as [[Eab _]|[_ []]]; [|done]].
      * split; [done|]. destruct Hle as [[_ ?]|[[] _]]; done.
      * rewrite Eab in Hr. lia.
    + destruct E. by apply bool_decide_ext.
Qed.

(** ** Examples *)

#[local] Instance demo_case : CaseTables := lowercase.

Definition demo_row (n : N) : Row := mkRow n (parsed_file Rust (bs "fn main() {}") [] []).
Definition demo_rows : list (str * Row) :=
  [(bs "src/daemon.rs", demo_row 1); (bs "src/daemon_state.rs", demo_row 2); (bs "tests/daemon/daemon.rs", demo_row 3);
   (bs "docs/src/daemon/notes.rs", demo_row 4)].
Definition demo_catalogued (path : string) : CatalogEntry :=
  mkCatalogEntry (mkCatalogPath [] (Some (bs path))) 10 None (for_code_path (bs path)) (MetadataOnly OversizedData) None.
Definition demo_index : LiveIndex := reloaded demo_rows [demo_catalogued "data/daemon.rs"; demo_catalogued "docs/spare.rs"].

Lemma file_demo_order : demo_rows ≡ₚ map_to_list (files demo_index).
Proof. apply reloaded_order. vm_compute. reflexivity. Qed.
Lemma file_demo_coherent : coherent demo_index.
Proof. apply reloaded_coherent; vm_compute; reflexivity. Qed.

Definition no_glob (_ : str) : option (str → bool) := None.

Definition demo_view (query : string) (coupling : option Coupling) : SearchFilesView :=
  capture_search_files_view no_glob demo_rows demo_index default_registry (bs query) 20 None coupling.

Definition shown (v : SearchFilesView) : list (SearchFilesTier * str) :=
  match v with FilesFound _ _ _ hits => (λ h, (fh_tier h, fh_path h)) <$> hits | _ => [] end.

Example daemon_search :
  shown (demo_view "daemon.rs" None) =
    [(Basename, bs "src/daemon.rs"); (Basename, bs "tests/daemon/daemon.rs"); (TierMetadata, bs "data/daemon.rs")].
Proof. vm_compute. reflexivity. Qed.

(** The pass over indexed files lists a file of the right name in the wrong directory; the
    one predicate for catalogued files asks for the directories, so the catalogued file of
    that name is left out. *)
Theorem catalogued_files_are_matched_differently :
  shown (demo_view "tests daemon.rs" None) =
    [(StrongPath, bs "tests/daemon/daemon.rs"); (Basename, bs "src/daemon.rs")] ∧
  basename_match (query_of (bs "tests daemon.rs")) (bs "data/daemon.rs") = true ∧
  basename_match (query_of (bs "tests daemon.rs")) (bs "src/daemon.rs") = true.
Proof. vm_compute. auto. Qed.

(** A query of slashes around a space has no words, and every indexed file has them all;
    the predicate for catalogued files lists none. *)
Theorem query_without_words_lists_everything :
  length (shown (demo_view "/ /" None)) = 4 ∧
  predicate_matches (query_of (normalize_path_query (bs "/ /"))) (bs "src/daemon.rs") = false.
Proof. vm_compute. auto. Qed.

Lemma catalogued_files_rank_last_witness :
  ∃ hits, demo_view "daemon.rs" None = FilesFound (bs "daemon.rs") 3 0 hits ∧
    StronglySorted (λ a b, fh_tier a = TierMetadata → fh_tier b = TierMetadata) hits ∧ length hits = 3.
Proof.
  destruct (demo_view "daemon.rs" None) as [| |text total overflow hits] eqn:E; [by vm_compute in E..|].
  exists hits. destruct (catalogued_files_rank_last _ _ _ _ _ _ _ _ _ _ _ _ _ _ _ E) as (Hs & Hl & _).
  assert (FilesFound text total overflow hits = FilesFound (bs "daemon.rs") 3 0 hits) as E'.
  { rewrite <-E. vm_compute in E. injection E as <- <- <- <-. vm_compute. reflexivity. }
  split; [exact E'|]. split; [exact Hs|]. injection E' as -> -> ->. exact Hl.
Defined.

Lemma search_files_in_tier_order_witness :
  ∃ text total overflow hits, demo_view "tests daemon.rs" None = FilesFound text total overflow hits ∧
    StronglySorted (λ a b, tier_rank (fh_tier a) ≤ tier_rank (fh_tier b)) hits.
Proof.
  destruct (demo_view "tests daemon.rs" None) as [| |text total overflow hits] eqn:E; [by vm_compute in E..|].
  exists text, total, overflow, hits. split; [reflexivity|].
  exact (search_files_in_tier_order _ _ _ _ _ _ _ _ _ _ _ _ _ _ file_demo_coherent file_demo_order E).
Defined.

Lemma passes_find_what_is_searched_witness :
  bs "src/daemon_state.rs" ∈ tier1_paths (run_passes demo_rows demo_index (λ _, true) (query_of (bs "daemon"))).
Proof.
  destruct (passes_find_what_is_searched demo_rows demo_index (λ _, true) (query_of (bs "daemon")) file_demo_coherent file_demo_order)
    as (_ & _ & Hf & _).
  apply Hf. split; [eexists; vm_compute; reflexivity|]. split; [done|]. vm_compute. reflexivity.
Defined.

Lemma resolve_is_truthful_witness :
  capture_search_files_resolve_view demo_rows demo_index (bs "./src\daemon.rs") = Resolved (bs "src/daemon.rs").
Proof.
  destruct (resolve_is_truthful demo_rows demo_index (bs "./src\daemon.rs") true true AnyPath file_demo_coherent file_demo_order) as [_ Hr].
  apply Hr; [eexists; vm_compute; reflexivity|vm_compute; discriminate|vm_compute; reflexivity].
Defined.

Definition demo_hits : list SearchFilesHit :=
  [mkFileHit TierMetadata (bs "Cargo.lock") None None (Some (bs "lockfile")); mkFileHit LoosePath (bs "b.rs") None None None;
   mkFileHit LoosePath (bs "a.rs") None None None].

Lemma fusion_keeps_the_floor_witness :
  ∃ ranked, reorder_hits_by_frecency_fusion demo_hits (score_hits_by_frecency_fusion demo_hits {[bs "Cargo.lock" := of_int binary64 9]}) =
    Done ranked ∧ fh_path <$> ranked = [bs "a.rs"; bs "b.rs"; bs "Cargo.lock"] ∧ ranked ≡ₚ demo_hits.
Proof.
  destruct (fusion_keeps_the_floor demo_hits (score_hits_by_frecency_fusion demo_hits {[bs "Cargo.lock" := of_int binary64 9]}))
    as (ranked & _ & E & Hp & _); [reflexivity| |].
  - apply Forall_forall. intros b Hb. apply list_elem_of_In in Hb. vm_compute in Hb.
    repeat (destruct Hb as [<-|Hb]; [reflexivity|]). destruct Hb.
  - exists (snd <$> ranked). split; [exact E|]. split; [|exact Hp].
    assert (∃ r, reorder_hits_by_frecency_fusion demo_hits
      (score_hits_by_frecency_fusion demo_hits {[bs "Cargo.lock" := of_int binary64 9]}) = Done r ∧
      fh_path <$> r = [bs "a.rs"; bs "b.rs"; bs "Cargo.lock"]) as (r & E' & Hr) by (eexists; split; vm_compute; reflexivity).
    rewrite E in E'. by injection E' as ->.
Defined.
