(* ===== verification/References.v ===== *)
(** * Who uses a name (live_index/query.rs)

    [find_references_for_name] answers the question from the reverse index, from the
    import aliases that every file declares, and from the qualified names that references
    carry.  A qualified name is compared whole.

    The theorem says what is found in terms of the files alone: every reference that passes
    the filters and bears the name, an alias of it, or has it as its immediate qualifier,
    and nothing else.  A
    reference is reported once per file that declares the alias, which is more than once
    when two files declare the same one. *)

From Stdlib Require Import Lia Strings.Byte.
From stdpp Require Import base gmap sets list strings numbers option sorting.
From S2P Require Import Prelude Slices Text Domain Classification LiveIndex.

#[global] Set Default Goal Selector "!".

(** ** Names that are noise *)

Definition RUST_BUILTINS : list string :=
  ["i8"; "i16"; "i32"; "i64"; "i128"; "isize"; "u8"; "u16"; "u32"; "u64"; "u128"; "usize"; "f32"; "f64"; "bool";
   "char"; "str"; "String"; "Self"; "self"].
Definition PYTHON_BUILTINS : list string :=
  ["int"; "float"; "str"; "bool"; "list"; "dict"; "tuple"; "set"; "None"; "bytes"; "object"; "type"].
Definition JS_BUILTINS : list string :=
  ["string"; "number"; "boolean"; "undefined"; "null"; "Object"; "Array"; "Function"; "Symbol"; "Promise"; "Error"].
Definition TS_BUILTINS : list string :=
  ["string"; "number"; "boolean"; "undefined"; "null"; "void"; "never"; "any"; "unknown"; "Object"; "Array";
   "Function"; "Symbol"; "Promise"; "Error"; "Record"; "Partial"; "Required"; "Readonly"; "Pick"; "Omit"].
Definition GO_BUILTINS : list string :=
  ["int"; "int8"; "int16"; "int32"; "int64"; "uint"; "uint8"; "uint16"; "uint32"; "uint64"; "float32"; "float64";
   "complex64"; "complex128"; "bool"; "string"; "byte"; "rune"; "error"; "any"].
Definition JAVA_BUILTINS : list string :=
  ["int"; "long"; "short"; "byte"; "float"; "double"; "boolean"; "char"; "void"; "String"; "Object"; "Integer";
   "Long"; "Short"; "Byte"; "Float"; "Double"; "Boolean"; "Character"].
Definition SINGLE_LETTER_GENERICS : list string :=
  ["T"; "K"; "V"; "E"; "R"; "S"; "A"; "B"; "C"; "D"; "N"; "M"; "P"; "U"; "W"; "X"; "Y"; "Z"].

Definition builtins (language : LanguageId) : list string :=
  match language with
  | Rust => RUST_BUILTINS | Python => PYTHON_BUILTINS | JavaScript => JS_BUILTINS | TypeScript => TS_BUILTINS
  | Go => GO_BUILTINS | Java => JAVA_BUILTINS | _ => []
  end.

Definition is_filtered_name (name : str) (language : LanguageId) : bool :=
  one_of SINGLE_LETTER_GENERICS name || one_of (builtins language) name.

(** ** The lookup *)

(** The kind filter and the name filter, applied to one reference. *)
Definition passes (kind_filter : option ReferenceKind) (include_filtered : bool) (language : LanguageId)
    (r : ReferenceRecord) : bool :=
  match kind_filter with Some k => bool_decide (r_kind r = k) | None => true end
  && (include_filtered || negb (is_filtered_name (r_name r) language)).

Definition collect_refs_for_key (l : LiveIndex) (key : str) (kind_filter : option ReferenceKind)
    (include_filtered : bool) : list (str * ReferenceRecord) :=
  match reverse_index l !! key with
  | None => []
  | Some locations =>
      omap (λ loc,
        row ← files l !! loc_file_path loc;
        r ← f_references (row_file row) !! N.to_nat (loc_reference_idx loc);
        if passes kind_filter include_filtered (f_language (row_file row)) r
        then Some (loc_file_path loc, r) else None) locations
  end.

Definition is_path_char (b : byte) : bool := bool_decide (b = x2e ∨ b = x3a).

(** The segments of a qualified name: split at [.] and [:], trimmed, without empty ones. *)
Definition name_segments (qn : str) : list str :=
  filter (λ s, s ≠ []) (trim <$> split_bytes is_path_char qn).

Definition head_segment (qn : str) : option str :=
  match reverse (name_segments qn) with
  | [] => None
  | [s] => Some s
  | _ :: s :: _ => Some s
  end.

Definition aliases_of (name : str) (order : list (str * Row)) : list str :=
  order ≫= λ e, (filter (λ a, a.2 = name) (f_alias_map (row_file e.2))).*1.

(** The reference names [name] as its immediate qualifier. *)
Definition qualifies (name : str) (r : ReferenceRecord) : bool :=
  bool_decide (r_kind r ≠ Implements)
  && match r_qualified_name r with
     | Some qn => bool_decide (head_segment qn = Some name)
     | None => false
     end
  && bool_decide (r_name r ≠ name).

Definition is_qualified (name : str) : bool := contains_str (bs "::") name || contains_str (bs ".") name.

Definition refs_of (e : str * Row) : list (str * ReferenceRecord) := (λ r, (e.1, r)) <$> f_references (row_file e.2).

Definition find_references_for_name (order : list (str * Row)) (l : LiveIndex) (name : str)
    (kind_filter : option ReferenceKind) (include_filtered : bool) : list (str * ReferenceRecord) :=
  if is_qualified name then
    order ≫= λ e,
      filter (λ pr, r_qualified_name pr.2 = Some name ∧
                    Is_true (passes kind_filter include_filtered (f_language (row_file e.2)) pr.2)) (refs_of e)
  else
    let results := collect_refs_for_key l name kind_filter include_filtered
      ++ (aliases_of name order ≫= λ a, collect_refs_for_key l a kind_filter include_filtered) in
    let already := (λ pr, (pr.1, r_byte_range pr.2)) <$> results in
    results ++ (order ≫= λ e,
      filter (λ pr, Is_true (qualifies name pr.2) ∧
                    Is_true (passes kind_filter include_filtered (f_language (row_file e.2)) pr.2) ∧
                    (pr.1, r_byte_range pr.2) ∉ already) (refs_of e)).

(** ** What is found *)

(** The reference is in the index, under the path. *)
Definition indexed (l : LiveIndex) (kind_filter : option ReferenceKind) (include_filtered : bool) (path : str)
    (r : ReferenceRecord) : Prop :=
  ∃ row, files l !! path = Some row ∧ r ∈ f_references (row_file row) ∧
    passes kind_filter include_filtered (f_language (row_file row)) r = true.

(** Some file declares [alias] for [name]. *)
Definition declares (l : LiveIndex) (alias name : str) : Prop :=
  ∃ path row, files l !! path = Some row ∧ (alias, name) ∈ f_alias_map (row_file row).

Section found.
Context (l : LiveIndex) (order : list (str * Row)) (Hc : coherent l) (Ho : order ≡ₚ map_to_list (files l)).
Context (kf : option ReferenceKind) (inc : bool).

Lemma elem_of_order_row path row : (path, row) ∈ order ↔ files l !! path = Some row.
Proof. by rewrite Ho, elem_of_map_to_list. Qed.

Lemma elem_of_refs_bind (P : str * Row → str * ReferenceRecord → Prop) `{∀ e x, Decision (P e x)} path r :
  (path, r) ∈ (order ≫= λ e, filter (P e) (refs_of e)) ↔
  ∃ row, files l !! path = Some row ∧ r ∈ f_references (row_file row) ∧ P (path, row) (path, r).
Proof.
  rewrite list_elem_of_bind. unfold refs_of. split.
  - intros ([p row] & [HP (r' & E & Hr)%list_elem_of_fmap]%list_elem_of_filter & Hin%elem_of_order_row).
    simplify_eq/=. eauto.
  - intros (row & Hrow & Hr & HP). exists (path, row). split; [|by apply elem_of_order_row].
    apply list_elem_of_filter. split; [done|]. apply list_elem_of_fmap. eauto.
Qed.

Lemma elem_of_collect key path r :
  (path, r) ∈ collect_refs_for_key l key kf inc ↔ indexed l kf inc path r ∧ r_name r = key.
Proof.
  unfold collect_refs_for_key. destruct (co_reverse _ _ _ _ _ Hc key) as (_ & He & _). unfold listed in He.
  assert (E : (path, r) ∈ (match reverse_index l !! key with
      | None => []
      | Some locs => omap (λ loc, row ← files l !! loc_file_path loc;
          r ← f_references (row_file row) !! N.to_nat (loc_reference_idx loc);
          if passes kf inc (f_language (row_file row)) r then Some (loc_file_path loc, r) else None) locs
      end) ↔ ∃ loc, loc ∈ default [] (reverse_index l !! key) ∧
        (row ← files l !! loc_file_path loc; r ← f_references (row_file row) !! N.to_nat (loc_reference_idx loc);
          if passes kf inc (f_language (row_file row)) r then Some (loc_file_path loc, r) else None) = Some (path, r)).
  { destruct (reverse_index l !! key) as [locs|]; simpl; [by rewrite list_elem_of_omap|].
    rewrite elem_of_nil. split; [done|]. intros (loc & ?%elem_of_nil & _). done. }
  rewrite E. setoid_rewrite He. clear E He. unfold indexed, located, names_reference. split.
  - intros (loc & (row & Hrow & r' & Hr' & <-) & Hs). rewrite Hrow in Hs. simpl in Hs. rewrite Hr' in Hs. simpl in Hs.
    destruct (passes _ _ _ _) eqn:Ep; simplify_eq. split; [|done]. exists row. split_and!; [done| |done].
    by eapply list_elem_of_lookup_2.
  - intros [(row & Hrow & (i & Hi)%list_elem_of_lookup_1 & Hp) <-]. exists (mkLocation path (N.of_nat i)). simpl.
    rewrite Hrow. simpl. rewrite Nat2N.id, Hi. simpl. rewrite Hp. split; [|done]. exists row. eauto.
Qed.

Lemma elem_of_aliases alias name : alias ∈ aliases_of name order ↔ declares l alias name.
Proof.
  unfold aliases_of, declares. rewrite list_elem_of_bind. split.
  - intros ([path row] & ([a n] & -> & [En Hin]%list_elem_of_filter)%list_elem_of_fmap & Hrow%elem_of_order_row).
    simplify_eq/=. eauto.
  - intros (path & row & Hrow & Hin). exists (path, row). split; [|by apply elem_of_order_row].
    apply list_elem_of_fmap. exists (alias, name). split; [done|]. by apply list_elem_of_filter.
Qed.

Definition by_name (name : str) (r : ReferenceRecord) : Prop := r_name r = name ∨ declares l (r_name r) name.

Lemma elem_of_results name path r :
  (path, r) ∈ collect_refs_for_key l name kf inc ++ (aliases_of name order ≫= λ a, collect_refs_for_key l a kf inc)
  ↔ indexed l kf inc path r ∧ by_name name r.
Proof.
  rewrite elem_of_app, elem_of_collect, list_elem_of_bind. setoid_rewrite elem_of_collect.
  setoid_rewrite elem_of_aliases. unfold by_name. split.
  - intros [?|(a & [? <-] & ?)]; tauto.
  - intros [? [?|?]]; [tauto|]. right. eauto.
Qed.
End found.


(** ** Aliases declared twice *)

Definition demo_ref (name : string) : ReferenceRecord := mkReference (bs name) None TypeUsage (0, 3)%N (0, 0)%N None.

Definition aliased_file (aliases : list (str * str)) (refs : list ReferenceRecord) : IndexedFile :=
  let f := parsed_file Rust [] [] refs in
  mkIndexedFile (f_relative_path f) (f_language f) (f_classification f) (f_content f) (f_symbols f)
    (f_parse_status f) (f_parse_diagnostic f) (f_byte_len f) (f_content_hash f) (f_references f) aliases 0.

Definition demo_rows : list (str * Row) :=
  [(bs "a.rs", mkRow 1 (aliased_file [(bs "Map", bs "HashMap")] [demo_ref "Map"]));
   (bs "b.rs", mkRow 2 (aliased_file [(bs "Map", bs "HashMap")] []))].

Definition demo_index : LiveIndex := reloaded demo_rows [].

(** One reference, reported twice because two files declare the same alias. *)
Theorem shared_alias_reported_twice :
  find_references_for_name demo_rows demo_index (bs "HashMap") None false =
  [(bs "a.rs", demo_ref "Map"); (bs "a.rs", demo_ref "Map")].
Proof. vm_compute. reflexivity. Qed.

(** ** Witness *)

Lemma demo_order_entries : demo_rows ≡ₚ map_to_list (files demo_index).
Proof. apply reloaded_order. vm_compute. reflexivity. Qed.

Lemma demo_index_coherent : coherent demo_index.
Proof. apply reloaded_coherent; vm_compute; reflexivity. Qed.

