(* ===== verification/Dependents.v ===== *)
(** * Dependents of a file (live_index/query.rs, find_dependents_for_file)

    Which files depend on a file: those that import it, by its stem or by its logical
    module path, or that use its types in one declared scope; those that call its symbols
    by a qualified name; and, in Rust, those that import from a file that re-exports it,
    over at most two hops.

    The theorem says exactly which files are reported, whatever the order in which the file
    map is walked; the references shown for a file may depend on that order.  A slice of
    the target's text may stop the search with a panic.

    [order] is the walk over the file map; it is the same for every loop, since the map is
    not changed in between.  Paths are relative to the repository. *)

From Stdlib Require Import Lia Strings.Byte.
From stdpp Require Import base gmap sets list strings numbers option sorting.
From S2P Require Import Prelude Slices Text Domain Classification Disambiguation Trigram LiveIndex RankSignals.

#[global] Set Default Goal Selector "!".

(** ** Module paths *)

(** [components()] with the last one reduced to its stem. *)
Definition stem_components (path : str) : list str :=
  let components := path_components path in
  match last components with
  | Some c => match file_stem c with
              | Some stem => take (length components - 1) components ++ [stem]
              | None => components
              end
  | None => components
  end.

Definition drop_last_if (names : list string) (components : list str) : list str :=
  match last components with
  | Some c => if one_of names c then take (length components - 1) components else components
  | None => components
  end.

(** What follows [src/]: at the start of the path, or anywhere in it. *)
Definition after_src (file_path : str) : option str :=
  match path_components file_path with
  | c :: rest =>
      if decide (c = bs "src") then Some (join (bs "/") rest)
      else let normalized := forward_slashes file_path in
           i ← find_str (bs "/src/") normalized; Some (drop (i + 5) normalized)
  | [] => i ← find_str (bs "/src/") (forward_slashes file_path); Some (drop (i + 5) (forward_slashes file_path))
  end.

Definition resolve_module_path (file_path : str) (language : LanguageId) : option str :=
  match language with
  | Rust =>
      rest ← after_src file_path;
      match drop_last_if ["lib"; "main"; "mod"] (stem_components rest) with
      | [] => Some (bs "crate")
      | components => Some (bs "crate::" ++ join (bs "::") components)
      end
  | Python =>
      match drop_last_if ["__init__"] (stem_components file_path) with
      | [] => None
      | components => Some (join (bs ".") components)
      end
  | JavaScript | TypeScript =>
      match drop_last_if ["index"] (stem_components file_path) with
      | [] => None
      | components => Some (join (bs "/") components)
      end
  | _ => None
  end.

(** ** Imports *)

Definition matches_target_stem (text stem : str) : bool :=
  bool_decide (text = stem)
  || ends_with (bs "/" ++ stem) text || ends_with (bs "::" ++ stem) text || ends_with (bs "." ++ stem) text
  || contains_str (bs "/" ++ stem ++ bs "/") text || contains_str (bs "::" ++ stem ++ bs "::") text
  || starts_with (stem ++ bs "::") text || starts_with (stem ++ bs "/") text || starts_with (stem ++ bs ".") text.

Definition matches_target_module (language : LanguageId) (text : str) (module_path : option str) : bool :=
  match module_path with
  | None => false
  | Some module_path =>
      if bool_decide (text = module_path) || starts_with (module_path ++ separator_of language) text then true
      else match language, strip_prefix (bs "crate::") module_path with
           | Rust, Some tail =>
               bool_decide (text = tail) || ends_with (bs "::" ++ tail) text || contains_str (bs "::" ++ tail ++ bs "::") text
           | _, _ => false
           end
  end.

Definition import_languages_compatible (importer target : LanguageId) : bool :=
  bool_decide (importer = target)
  || match importer, target with JavaScript, TypeScript | TypeScript, JavaScript => true | _, _ => false end.

Fixpoint leading_dots (s : str) : nat :=
  match s with x2e :: s => S (leading_dots s) | _ => 0 end.

Definition is_dot (b : byte) : bool := bool_decide (b = x2e).

Definition resolve_python_relative_import (importer_path relative_text : str) : option str :=
  let dots := leading_dots relative_text in
  if decide (dots = 0) then None
  else
    let module_tail := trim_end_matches x2e (trim_start_matches x2e (drop dots relative_text)) in
    let dir := match rsplit_once (bs "/") (forward_slashes importer_path) with Some (dir, _) => dir | None => [] end in
    let package := filter (λ c, c ≠ []) (split_bytes is_slash dir) in
    let climb := dots - 1 in
    if length package <? climb then None
    else
      let package := take (length package - climb) package in
      let package :=
        if decide (module_tail = []) then package
        else package ++ filter (λ c, c ≠ []) (split_bytes is_dot module_tail) in
      match package with [] => None | _ => Some (join (bs ".") package) end.

Definition matches_target_import (importer_language target_language : LanguageId) (importer_path : str)
    (r : ReferenceRecord) (stem : str) (module_path : option str) : bool :=
  let usual :=
    matches_target_stem (r_name r) stem
    || match r_qualified_name r with
       | Some text => matches_target_stem text stem || matches_target_module target_language text module_path
       | None => false
       end
    || matches_target_module target_language (r_name r) module_path in
  if negb (bool_decide (r_kind r = Import_)) then false
  else if negb (import_languages_compatible importer_language target_language) then false
  else match importer_language, r_qualified_name r with
       | Python, Some qualified =>
           if starts_with (bs ".") qualified
           then match resolve_python_relative_import importer_path qualified with
                | Some resolved => bool_decide (module_path = Some resolved)
                | None => false
                end
           else usual
       | _, _ => usual
       end.

(** ** Re-exports *)

Definition is_pub_use_import (file : IndexedFile) (r : ReferenceRecord) : bool :=
  if negb (bool_decide (r_kind r = Import_)) then false
  else
    let start := N.to_nat (r_byte_range r).1 in
    let lookback_start := start - 30 in
    if (length (f_content file) <=? lookback_start) || (length (f_content file) <? start) then false
    else
      let prefix_str := from_utf8_lossy (take (start - lookback_start) (drop lookback_start (f_content file))) in
      let line_start := match rfind_str [x0a] prefix_str with Some i => i + 1 | None => 0 end in
      let line_prefix := trim_start (drop line_start prefix_str) in
      starts_with (bs "pub ") line_prefix || starts_with (bs "pub(") line_prefix || bool_decide (line_prefix = bs "pub").

(** What the code matches imports of a file against. *)
Definition stem_of (path : str) : str := default path (file_stem path).

Definition reexports (target_path : str) (module_path : option str) (language : LanguageId) (stem : str)
    (e : str * Row) : bool :=
  let file := row_file e.2 in
  negb (bool_decide (e.1 = target_path)) && bool_decide (f_language file = language)
  && existsb (λ r, matches_target_import (f_language file) language e.1 r stem module_path && is_pub_use_import file r)
       (f_references file).

Definition find_reexporters (order : list (str * Row)) (target_path : str) (module_path : option str)
    (language : LanguageId) (stem : str) : list str :=
  if negb (bool_decide (language = Rust)) then []
  else (filter (λ e, reexports target_path module_path language stem e = true) order).*1.

(** ** Declared scopes *)

Definition is_ascii_alphanumeric (b : byte) : bool := in_range 48 57 b || in_range 65 90 b || in_range 97 122 b.

Definition is_scope_byte (b : byte) : bool := is_ascii_alphanumeric b || bool_decide (b = x5f) || bool_decide (b = x2e).

Fixpoint take_while_b (f : byte → bool) (s : str) : str :=
  match s with b :: s => if f b then b :: take_while_b f s else [] | [] => [] end.

Definition line_scope (keyword : str) (line : str) : option str :=
  rest ← strip_prefix keyword (trim (split_first (bs "//") line));
  match take_while_b is_scope_byte (trim_start rest) with [] => None | scope => Some scope end.

Definition parse_declared_scope (content keyword : str) : option str := head (omap (line_scope keyword) (lines content)).

Definition declared_scope (file : IndexedFile) : option str :=
  match f_language file with
  | CSharp => parse_declared_scope (from_utf8_lossy (f_content file)) (bs "namespace")
  | Java => parse_declared_scope (from_utf8_lossy (f_content file)) (bs "package")
  | _ => None
  end.

(** [trim_end_matches] of a text. *)
Definition trim_end_text (pat s : str) : str := reverse (trim_loop (length s) [reverse pat] (reverse s)).

Definition imported_scope (language : LanguageId) (r : ReferenceRecord) : option str :=
  if negb (bool_decide (r_kind r = Import_)) then None
  else
    qualified_name ← r_qualified_name r;
    match language with
    | CSharp => Some qualified_name
    | Java =>
        let trimmed := trim_end_text (bs ".*") qualified_name in
        match rsplit_once (bs ".") trimmed with
        | Some (b :: scope, _) => Some (b :: scope)
        | _ => if decide (trimmed = []) then None else Some trimmed
        end
    | _ => None
    end.

Definition can_match_type_dependents (file : IndexedFile) (target_language : LanguageId) (target_scope : option str) : bool :=
  if negb (bool_decide (f_language file = target_language)) then false
  else match target_language with
       | CSharp | Java =>
           match target_scope with
           | None => true
           | Some scope =>
               bool_decide (declared_scope file = Some scope)
               || existsb (λ r, bool_decide (imported_scope (f_language file) r = Some scope)) (f_references file)
           end
       | _ => false
       end.

(** ** Exported symbols *)

Definition is_word_byte (b : byte) : bool := is_ascii_alphanumeric b || bool_decide (b = x5f).

(** The closure that looks for a pattern that no identifier continues, from one byte
    past each match. *)
Fixpoint is_word_match (pattern content : str) : bool :=
  (starts_with pattern content
   && match drop (length pattern) content with [] => true | b :: _ => negb (is_word_byte b) end)
  || match content with [] => false | _ :: rest => is_word_match pattern rest end.

Definition rust_keywords : list string := ["fn"; "struct"; "enum"; "trait"; "type"; "const"; "static"; "mod"].
Definition rust_visibilities : list string := ["pub "; "pub(crate) "; "pub(super) "; "pub(self) "].

Definition has_pub_symbol (file : IndexedFile) (name : str) : bool :=
  let content := from_utf8_lossy (f_content file) in
  match f_language file with
  | Rust =>
      existsb (λ keyword, existsb (λ vis, is_word_match (bs vis ++ bs keyword ++ bs " " ++ name) content) rust_visibilities)
        rust_keywords
  | JavaScript | TypeScript =>
      existsb (λ lead, is_word_match (bs lead ++ name) content)
        ["export { "; "export "; "export default "; "export function "; "export class "; "export const ";
         "export interface "; "export type "]
  | _ => true
  end.

(** [&s[n..]] panics past the end and inside a character. *)
Definition str_suffix (s : str) (n : nat) : Outcome str := if is_char_boundary s n then Done (drop n s) else Panic.

(** The names after each match of [pattern]; the next search starts one byte past the
    beginning of the name. *)
Fixpoint names_after (fuel : nat) (pattern content : str) (start : nat) : Outcome (list str) :=
  match fuel with
  | 0 => Done []
  | S fuel =>
      rest ← str_suffix content start;
      match find_str pattern rest with
      | None => Done []
      | Some pos =>
          let ident_start := start + pos + length pattern in
          let name := take_while_b is_word_byte (drop ident_start content) in
          names ← names_after fuel pattern content (ident_start + 1);
          Done (if decide (name = []) then names else name :: names)
      end
  end.

Fixpoint sequence {A} (l : list (Outcome (list A))) : Outcome (list A) :=
  match l with
  | [] => Done []
  | m :: l => x ← m; rest ← sequence l; Done (x ++ rest)
  end.

Definition rust_patterns : list str := bs <$> (k ← rust_keywords; (λ vis, (vis ++ k ++ " ")%string) <$> rust_visibilities).

(** As the list of its elements: the code asks only for membership. *)
Definition exported_symbol_names (file : IndexedFile) (names : list str) : Outcome (list str) :=
  let content := from_utf8_lossy (f_content file) in
  match f_language file with
  | Rust =>
      found ← sequence ((λ pattern, names_after (S (length content)) pattern content 0) <$> rust_patterns);
      Done (filter (λ n, n ∈ names) found)
  | JavaScript | TypeScript => Done (filter (λ n, has_pub_symbol file n = true) names)
  | _ => Done names
  end.

(** ** The search *)

(** What is computed once for the target. *)
Record Target := mkTarget {
  t_path : str;
  t_language : LanguageId;
  t_stem : str;
  t_module : option str;
  t_scope : option str;
  t_names : list str;
  t_exported : list str;
}.

Definition target_of (target_path : str) (file : IndexedFile) : Outcome Target :=
  let names := filter (λ n, n ≠ []) (s_name <$> f_symbols file) in
  exported ← exported_symbol_names file names;
  Done (mkTarget target_path (f_language file) (stem_of target_path)
          (resolve_module_path target_path (f_language file)) (declared_scope file) names exported).

Section search.
Context (order : list (str * Row)) (t : Target).

Definition is_exported (name : str) : bool := bool_decide (name ∈ t_names t) && bool_decide (name ∈ t_exported t).

Definition refers_exactly (r : ReferenceRecord) : bool :=
  match r_qualified_name r with
  | Some qn => matches_exact_symbol_qualified_name (t_language t) qn (r_name r) (t_module t)
  | None => false
  end.

(** The imports of a file that match a stem and a module path. *)
Definition imports_of (stem : str) (module_path : option str) (e : str * Row) : list ReferenceRecord :=
  let file := row_file e.2 in
  filter (λ r, matches_target_import (f_language file) (t_language t) e.1 r stem module_path = true) (f_references file).

Definition matching_imports : str * Row → list ReferenceRecord := imports_of (t_stem t) (t_module t).

Definition uses_symbol (imports : list ReferenceRecord) (r : ReferenceRecord) : bool :=
  negb (bool_decide (r_kind r = Import_)) && is_exported (r_name r)
  && (bool_decide (r_kind r = TypeUsage)
      || (bool_decide (r_kind r = Call)
          && (refers_exactly r
              || (bool_decide (r_qualified_name r = None)
                  && existsb (λ import, bool_decide (r_name import = r_name r)) imports)))).

(** The references that the first loop reports for a file. *)
Definition direct_refs (e : str * Row) : list ReferenceRecord :=
  let file := row_file e.2 in
  let imports := matching_imports e in
  let symbol_refs :=
    if bool_decide (t_names t ≠ []) && (can_match_type_dependents file (t_language t) (t_scope t) || bool_decide (imports ≠ []))
    then filter (λ r, uses_symbol imports r = true) (f_references file) else [] in
  match symbol_refs with [] => imports | _ => symbol_refs end.

Definition tag (e : str * Row) (refs : list ReferenceRecord) : list (str * ReferenceRecord) := (λ r, (e.1, r)) <$> refs.

Definition direct_results : list (str * ReferenceRecord) :=
  order ≫= λ e, if decide (e.1 = t_path t) then [] else tag e (direct_refs e).

(** The second loop: calls by a qualified name. *)
Definition qualified_refs (e : str * Row) : list ReferenceRecord :=
  let file := row_file e.2 in
  if negb (import_languages_compatible (f_language file) (t_language t)) then []
  else filter (λ r, bool_decide (r_kind r = Call) && refers_exactly r && is_exported (r_name r) = true) (f_references file).

Definition qualified_results (results : list (str * ReferenceRecord)) : list (str * ReferenceRecord) :=
  match t_module t with
  | None => results
  | Some _ =>
      results ++
      (order ≫= λ e, if decide (e.1 = t_path t ∨ e.1 ∈ results.*1) then [] else tag e (qualified_refs e))
  end.

(** *** Re-export chains *)

Definition transitive_refs (re_path : str) (re_file : IndexedFile) (e : str * Row) : list ReferenceRecord :=
  let imports := imports_of (stem_of re_path) (resolve_module_path re_path (f_language re_file)) e in
  match imports with
  | [] => []
  | _ =>
      let symbol_refs :=
        if bool_decide (t_names t ≠ [])
        then filter (λ r, negb (bool_decide (r_kind r = Import_)) && is_exported (r_name r) = true) (f_references (row_file e.2))
        else [] in
      match symbol_refs with [] => imports | _ => symbol_refs end
  end.

(** One file of the loop inside a hop: [already_found] and the results. *)
Definition hop_file (re_path : str) (re_file : IndexedFile) (acc : list str * list (str * ReferenceRecord)) (e : str * Row) :
    list str * list (str * ReferenceRecord) :=
  let '(found, results) := acc in
  if decide (e.1 = t_path t ∨ e.1 = re_path ∨ e.1 ∈ found) then acc
  else match transitive_refs re_path re_file e with
       | [] => acc
       | refs => (e.1 :: found, results ++ tag e refs)
       end.

(** [visited.insert] for each path, queueing the new ones. *)
Definition enqueue (depth : nat) (paths : list str) (visited : list str) : list str * list (str * nat) :=
  fold_left (λ '(visited, queued) p,
    if decide (p ∈ visited) then (visited, queued) else (p :: visited, queued ++ [(p, depth)])) paths (visited, []).

Fixpoint hops (l : gmap str Row) (fuel : nat) (queue : list (str * nat)) (visited found : list str)
    (results : list (str * ReferenceRecord)) : list (str * ReferenceRecord) :=
  match fuel with
  | 0 => results
  | S fuel =>
      match queue with
      | [] => results
      | (re_path, depth) :: queue =>
          match l !! re_path with
          | None => hops l fuel queue visited found results
          | Some row =>
              let re_file := row_file row in
              let '(found, results) := fold_left (hop_file re_path re_file) order (found, results) in
              if depth <? 2
              then
                let next := find_reexporters order re_path (resolve_module_path re_path (f_language re_file))
                              (t_language t) (stem_of re_path) in
                let '(visited, queued) := enqueue (depth + 1) next visited in
                hops l fuel (queue ++ queued) visited found results
              else hops l fuel queue visited found results
          end
      end
  end.

Definition reexport_results (l : gmap str Row) (results : list (str * ReferenceRecord)) : list (str * ReferenceRecord) :=
  if negb (bool_decide (t_language t = Rust)) then results
  else
    let seeds := find_reexporters order (t_path t) (t_module t) (t_language t) (t_stem t) in
    let '(visited, queue) := enqueue 1 seeds [t_path t] in
    hops l (S (length order)) queue visited results.*1 results.
End search.

Definition found_le : relation (str * ReferenceRecord) :=
  then_le fst str_le (then_le (λ x, (r_line_range x.2).1) N.le (by_key (λ x, (r_byte_range x.2).1) N.le)).

(** [dedup_by]: an element that the one kept before it is like is dropped. *)
Fixpoint dedup_like {A} (same : A → A → bool) (prev : A) (l : list A) : list A :=
  match l with
  | [] => []
  | x :: l => if same x prev then dedup_like same prev l else x :: dedup_like same x l
  end.

Definition same_reference (a b : str * ReferenceRecord) : bool :=
  bool_decide (a.1 = b.1) && bool_decide (r_byte_range a.2 = r_byte_range b.2).

Definition dedup_by {A} (same : A → A → bool) (l : list A) : list A :=
  match l with [] => [] | x :: l => x :: dedup_like same x l end.

Definition find_dependents_for_file (order : list (str * Row)) (l : LiveIndex) (target_path : str) :
    Outcome (list (str * ReferenceRecord)) :=
  match files l !! target_path with
  | None => Done []
  | Some row =>
      t ← target_of target_path (row_file row);
      let results := qualified_results order t (direct_results order t) in
      let results := reexport_results order t (files l) results in
      Done (dedup_by same_reference (sort_by found_le results))
  end.

(** ** Views *)

Record DependentLine := mkDependentLine {
  dl_line_number : N;
  dl_line_content : str;
  dl_kind : ReferenceKind;
  dl_name : str;
}.

Definition dependent_line (l : LiveIndex) (x : str * ReferenceRecord) : DependentLine :=
  let '(path, r) := x in
  mkDependentLine (((r_line_range r).1 + 1) mod u32_modulus)
    match get_file l path with
    | Some file => default [] (lines (from_utf8_lossy (f_content file)) !! N.to_nat (r_line_range r).1)
    | None => []
    end (r_kind r) (r_name r).

(** The [BTreeMap] of a sorted list of references: its groups in order. *)
Definition capture_find_dependents_view (order : list (str * Row)) (l : LiveIndex) (target_path : str) :
    Outcome (list (str * list DependentLine)) :=
  deps ← find_dependents_for_file order l target_path;
  Done ((λ path, (path, dependent_line l <$> filter (λ x, x.1 = path) deps)) <$> dedup (sort_by str_le deps.*1)).

(** *** Implementations *)

Record ImplementationEntry := mkImplementation {
  ie_trait_name : str;
  ie_implementor : str;
  ie_file_path : str;
  ie_line : N;
}.

Definition implementation_matches (name : str) (direction : option str) (trait_name implementor : str) : bool :=
  if decide (direction = Some (bs "trait")) then bool_decide (trait_name = name)
  else if decide (direction = Some (bs "type")) then bool_decide (implementor = name)
  else bool_decide (trait_name = name) || bool_decide (implementor = name).

Definition implementation_le : relation ImplementationEntry := then_le ie_trait_name str_le (by_key ie_implementor str_le).

Definition capture_implementations_view (order : list (str * Row)) (name : str) (direction : option str) :
    list ImplementationEntry :=
  sort_by implementation_le
    (order ≫= λ e, omap (λ r,
       match r_kind r, r_qualified_name r with
       | Implements, Some implementor =>
           if implementation_matches name direction (r_name r) implementor
           then Some (mkImplementation (r_name r) implementor e.1 (((r_line_range r).1 + 1) mod u32_modulus))
           else None
       | _, _ => None
       end) (f_references (row_file e.2))).

(** ** Which files are reported *)

Lemma dedup_like_elements {A} (same : A → A → bool) (prev : A) l x : x ∈ dedup_like same prev l → x ∈ l.
Proof.
  revert prev. induction l as [|y l IH]; simpl; intros prev Hx; [done|]. case_match; [right; by eapply IH|].
  apply elem_of_cons in Hx as [->|Hx]; [left|right; by eapply IH].
Qed.

Lemma dedup_like_keys {A K} (same : A → A → bool) (key : A → K) (prev : A) l x :
  (∀ a b, same a b = true → key a = key b) → x ∈ l → key x = key prev ∨ ∃ y, y ∈ dedup_like same prev l ∧ key y = key x.
Proof.
  intros Hs. revert prev. induction l as [|z l IH]; simpl; intros prev Hx; [by apply elem_of_nil in Hx|].
  destruct (same z prev) eqn:E.
  - apply elem_of_cons in Hx as [->|Hx]; [left; by apply Hs|by apply IH].
  - right. apply elem_of_cons in Hx as [->|Hx]; [exists z; split; [left|done]|].
    destruct (IH z Hx) as [Ek|(y & Hy & Ek)]; [exists z; split; [left|done]|exists y; split; [by right|done]].
Qed.

Lemma elem_of_dedup_by_paths l p : p ∈ (dedup_by same_reference l).*1 ↔ p ∈ l.*1.
Proof.
  destruct l as [|x l]; [done|]. unfold dedup_by. rewrite !fmap_cons, !elem_of_cons. split.
  - intros [?|(y & -> & Hy)%list_elem_of_fmap]; [by left|right]. apply list_elem_of_fmap_2. by eapply dedup_like_elements.
  - intros [?|(y & -> & Hy)%list_elem_of_fmap]; [by left|].
    destruct (dedup_like_keys same_reference fst x l y) as [->|(z & Hz & <-)]; [|done|by left|right; by apply list_elem_of_fmap_2].
    unfold same_reference. intros a b [E _]%andb_true_iff. by apply bool_decide_eq_true in E.
Qed.

Lemma elem_of_dedup_by {A} (same : A → A → bool) l x : x ∈ dedup_by same l → x ∈ l.
Proof.
  destruct l as [|y l]; [done|]. unfold dedup_by. rewrite !elem_of_cons. intros [?|?]; [by left|right; by eapply dedup_like_elements].
Qed.

Section files.
Context (order : list (str * Row)) (l : gmap str Row) (t : Target) (Ho : order ≡ₚ map_to_list l).

Lemma elem_of_walk p row : (p, row) ∈ order ↔ l !! p = Some row.
Proof. by rewrite Ho, elem_of_map_to_list. Qed.

Lemma walk_nodup : NoDup order.*1.
Proof. rewrite Ho. apply NoDup_fst_map_to_list. Qed.

Lemma elem_of_tagged (skip : str → Prop) `{∀ p, Decision (skip p)} (refs : str * Row → list ReferenceRecord) p :
  p ∈ (order ≫= λ e, if decide (skip e.1) then [] else tag e (refs e)).*1 ↔
  ∃ row, l !! p = Some row ∧ ¬ skip p ∧ refs (p, row) ≠ [].
Proof.
  rewrite list_elem_of_fmap. setoid_rewrite list_elem_of_bind. split.
  - intros ([p' r] & -> & [q row] & Hx & Hq). simpl in *. case_decide; [by apply elem_of_nil in Hx|].
    unfold tag in Hx. apply list_elem_of_fmap in Hx as (r' & [= -> ->] & Hr). exists row. split; [by apply elem_of_walk|].
    split; [done|]. intros E. rewrite E in Hr. by apply elem_of_nil in Hr.
  - intros (row & Hp & Hs & Hr). destruct (refs (p, row)) as [|r rs] eqn:E; [done|].
    exists (p, r). split; [done|]. exists (p, row). simpl. rewrite decide_False by done. rewrite E. split; [left|by apply elem_of_walk].
Qed.

Lemma elem_of_direct p :
  p ∈ (direct_results order t).*1 ↔ ∃ row, l !! p = Some row ∧ p ≠ t_path t ∧ direct_refs t (p, row) ≠ [].
Proof. pose proof (elem_of_tagged (λ q, q = t_path t) (direct_refs t) p) as E. exact E. Qed.

Lemma elem_of_qualified results p :
  p ∈ (qualified_results order t results).*1 ↔
  p ∈ results.*1 ∨ ∃ row, l !! p = Some row ∧ p ≠ t_path t ∧ t_module t ≠ None ∧ qualified_refs t (p, row) ≠ [].
Proof.
  unfold qualified_results. destruct (t_module t) as [m|]; [|naive_solver].
  pose proof (elem_of_tagged (λ q, q = t_path t ∨ q ∈ results.*1) (qualified_refs t) p) as E. cbv beta in E.
  rewrite fmap_app, elem_of_app, E. split.
  - intros [?|(row & ? & Hn & ?)]; [by left|]. right. exists row. split; [done|]. split; [tauto|done].
  - intros [?|(row & ? & ? & _ & ?)]; [by left|]. destruct (decide (p ∈ results.*1)); [by left|right].
    exists row. split; [done|]. tauto.
Qed.

(** *** One hop *)

Definition importer (r p : str) : Prop :=
  ∃ re_row row, l !! r = Some re_row ∧ l !! p = Some row ∧ p ≠ t_path t ∧ p ≠ r ∧
    transitive_refs t r (row_file re_row) (p, row) ≠ [].

Definition agree (found : list str) (results : list (str * ReferenceRecord)) : Prop := ∀ p, p ∈ found ↔ p ∈ results.*1.

Lemma hop_spec r re_row found results :
  l !! r = Some re_row → agree found results →
  let '(found', results') := fold_left (hop_file t r (row_file re_row)) order (found, results) in
  agree found' results' ∧ ∀ p, p ∈ results'.*1 ↔ p ∈ results.*1 ∨ importer r p.
Proof.
  intros Hr Ha.
  assert (∀ es found results, (∀ e, e ∈ es → e ∈ order) → agree found results →
    let '(found', results') := fold_left (hop_file t r (row_file re_row)) es (found, results) in
    agree found' results' ∧ ∀ p, p ∈ results'.*1 ↔ p ∈ results.*1 ∨
      ∃ row, (p, row) ∈ es ∧ p ≠ t_path t ∧ p ≠ r ∧ transitive_refs t r (row_file re_row) (p, row) ≠ []) as Hgen.
  { clear found results Ha. intros es. induction es as [|[q row] es IH]; intros found results Hin Ha; simpl.
    - split; [done|]. intros p. setoid_rewrite elem_of_nil. naive_solver.
    - assert (∀ found' results', agree found' results' →
        (∀ p, p ∈ results'.*1 ↔ p ∈ results.*1 ∨ p = q ∧ q ≠ t_path t ∧ q ≠ r ∧ transitive_refs t r (row_file re_row) (q, row) ≠ []) →
        let '(f, rs) := fold_left (hop_file t r (row_file re_row)) es (found', results') in
        agree f rs ∧ ∀ p, p ∈ rs.*1 ↔ p ∈ results.*1 ∨
          ∃ row', (p, row') ∈ (q, row) :: es ∧ p ≠ t_path t ∧ p ≠ r ∧ transitive_refs t r (row_file re_row) (p, row') ≠ []) as Hstep.
      { intros found' results' Ha' Hr'. specialize (IH found' results' (λ e He, Hin e (list_elem_of_further _ _ _ He)) Ha').
        destruct (fold_left _ es (found', results')) as [f rs]. destruct IH as [IH1 IH2]. split; [done|]. intros p.
        rewrite IH2, Hr'. split.
        - intros [[?|(-> & ? & ? & ?)]|(row' & ? & ?)]; [by left|right; exists row; split; [left|done]|right; exists row'; split; [by right|done]].
        - intros [?|(row' & Hx & ? & ? & ?)]; [by left; left|]. apply elem_of_cons in Hx as [[= -> ->]|Hx]; [left; right; done|].
          right. exists row'. done. }
      destruct (decide (q = t_path t ∨ q = r ∨ q ∈ found)) as [Hd|Hd].
      + apply Hstep; [done|]. intros p. split; [by left|]. intros [?|(-> & ? & ? & _)]; [done|]. apply Ha. tauto.
      + destruct (transitive_refs t r (row_file re_row) (q, row)) as [|x xs] eqn:Et.
        * apply Hstep; [done|]. intros p. split; [by left|]. intros [?|(_ & _ & _ & Hn)]; [done|congruence].
        * assert (∀ p, p ∈ (results ++ tag (q, row) (x :: xs)).*1 ↔ p ∈ results.*1 ∨ p = q) as Htag.
          { intros p. rewrite fmap_app, elem_of_app. unfold tag. split.
            - intros [?|Hx]; [by left|right]. apply list_elem_of_fmap in Hx as ([p' r'] & -> & Hy).
              by apply list_elem_of_fmap in Hy as (y & [= -> ->] & _).
            - intros [?| ->]; [by left|]. right. simpl. left. }
          apply Hstep.
          -- intros p. rewrite elem_of_cons, Htag, (Ha p). tauto.
          -- intros p. rewrite Htag. split; [|tauto]. intros [?| ->]; [by left|]. right.
             split; [done|]. split; [tauto|]. split; [tauto|done]. }
  specialize (Hgen order found results (λ e He, He) Ha).
  destruct (fold_left _ order (found, results)) as [found' results']. destruct Hgen as [H1 H2]. split; [done|].
  intros p. rewrite H2. unfold importer. setoid_rewrite elem_of_walk. naive_solver.
Qed.

(** *** The queue *)

Definition unvisited (visited : list str) : list str := filter (λ p, p ∉ visited) order.*1.

Lemma enqueue_spec depth paths visited :
  let '(visited', queued) := enqueue depth paths visited in
  (∀ p, p ∈ visited' ↔ p ∈ visited ∨ p ∈ paths) ∧ (∀ x, x ∈ queued ↔ x.2 = depth ∧ x.1 ∈ paths ∧ x.1 ∉ visited) ∧
  NoDup queued.*1.
Proof.
  unfold enqueue.
  assert (∀ (ps vis : list str) (q : list (str * nat)), NoDup q.*1 → (∀ x, x ∈ q → x.1 ∈ vis) →
    let '(vis', q') := fold_left (λ '(visited, queued) p,
      if decide (p ∈ visited) then (visited, queued) else (p :: visited, queued ++ [(p, depth)])) ps (vis, q) in
    (∀ p, p ∈ vis' ↔ p ∈ vis ∨ p ∈ ps) ∧
    (∀ x : str * nat, x ∈ q' ↔ x ∈ q ∨ x.2 = depth ∧ x.1 ∈ ps ∧ x.1 ∉ vis) ∧ NoDup q'.*1) as Hgen.
  { intros ps. induction ps as [|p ps IH]; intros vis q Hnd Hin; simpl.
    - split_and!; [intros p; rewrite elem_of_nil; tauto|intros x; rewrite elem_of_nil; tauto|done].
    - case_decide as Ed.
      + specialize (IH vis q Hnd Hin). destruct (fold_left _ ps _) as [vis' q']. destruct IH as (H1 & H2 & H3).
        split_and!; [intros x; rewrite H1, elem_of_cons; naive_solver|intros x; rewrite H2, elem_of_cons; naive_solver|done].
      + specialize (IH (p :: vis) (q ++ [(p, depth)])). destruct (fold_left _ ps _) as [vis' q']. destruct IH as (H1 & H2 & H3).
        * rewrite fmap_app. apply NoDup_app. split_and!; [done| |apply NoDup_singleton].
          intros x (y & -> & Hy)%list_elem_of_fmap Hx. simpl in Hx. apply list_elem_of_singleton in Hx. apply Ed. rewrite <-Hx. auto.
        * intros x [Hx|Hx]%elem_of_app; [right; auto|]. apply list_elem_of_singleton in Hx as ->. left.
        * split_and!; [intros x; rewrite H1, !elem_of_cons; tauto| |done].
          intros x. rewrite H2, elem_of_app, list_elem_of_singleton, !elem_of_cons. destruct x as [y d]. simpl.
          destruct (decide (y = p)) as [->|]; naive_solver. }
  specialize (Hgen paths visited [] (NoDup_nil_2) (λ x Hx, False_ind _ (proj1 (elem_of_nil x) Hx))).
  destruct (fold_left _ paths (visited, [])) as [vis' q']. destruct Hgen as (H1 & H2 & H3).
  split_and!; [done| |done]. intros x. rewrite H2, elem_of_nil. tauto.
Qed.

(** What is queued was not visited before. *)
Lemma enqueue_measure depth paths visited :
  (∀ p, p ∈ paths → p ∈ order.*1) →
  let '(visited', queued) := enqueue depth paths visited in
  length queued + length (unvisited visited') ≤ length (unvisited visited).
Proof.
  intros Hp. pose proof (enqueue_spec depth paths visited) as Hs. destruct (enqueue depth paths visited) as [vis' q].
  destruct Hs as (H1 & H2 & H3). rewrite <-(length_fmap fst q), <-length_app. apply submseteq_length, NoDup_submseteq.
  - apply NoDup_app. split_and!; [done| |apply NoDup_filter, walk_nodup].
    intros p (x & -> & Hx%H2)%list_elem_of_fmap (Hn & _)%list_elem_of_filter. apply Hn, H1. tauto.
  - intros p [(x & -> & Hx%H2)%list_elem_of_fmap|(Hn & Hin)%list_elem_of_filter]%elem_of_app; apply list_elem_of_filter.
    + split; [tauto|]. apply Hp. tauto.
    + split; [|done]. intros Hv. apply Hn, H1. by left.
Qed.

(** *** All hops *)

Definition next_of (q : str) : list str :=
  match l !! q with
  | Some row => find_reexporters order q (resolve_module_path q (f_language (row_file row))) (t_language t) (stem_of q)
  | None => []
  end.

Lemma find_reexporters_walk q m lang s p : p ∈ find_reexporters order q m lang s → p ∈ order.*1.
Proof.
  unfold find_reexporters. case_match; [by intros ?%elem_of_nil|].
  intros (x & -> & [_ Hx]%list_elem_of_filter)%list_elem_of_fmap. by apply list_elem_of_fmap_2.
Qed.

Lemma next_of_walk q p : p ∈ next_of q → p ∈ order.*1.
Proof. unfold next_of. case_match; [apply find_reexporters_walk|by intros ?%elem_of_nil]. Qed.

Definition to_visit (queue : list (str * nat)) (visited : list str) (r : str) : Prop :=
  r ∈ queue.*1 ∨ r ∉ visited ∧ ∃ q, (q, 1) ∈ queue ∧ r ∈ next_of q.

Lemma to_visit_missing q d queue visited r p :
  l !! q = None → importer r p → to_visit ((q, d) :: queue) visited r ↔ to_visit queue visited r.
Proof.
  intros El Hi. assert (r ≠ q) as Hne by (destruct Hi as (re_row & _ & Hr & _); intros ->; congruence).
  assert (next_of q = []) as Hnext by (unfold next_of; by rewrite El).
  unfold to_visit. simpl. setoid_rewrite elem_of_cons. split.
  - intros [[?|?]|(? & q' & [[= -> ->]|?] & Hn)]; [done|by left| |right; eauto].
    rewrite Hnext in Hn. by apply elem_of_nil in Hn.
  - intros [?|(? & q' & ? & ?)]; [left; by right|right; split; [done|]; exists q'; auto].
Qed.

Lemma to_visit_last q queue visited r :
  to_visit ((q, 2) :: queue) visited r ↔ r = q ∨ to_visit queue visited r.
Proof.
  unfold to_visit. simpl. setoid_rewrite elem_of_cons. split.
  - intros [[?|?]|(? & q' & [?|?] & Hn)]; [by left|right; by left|done|right; right; eauto].
  - intros [?|[?|(? & q' & ? & ?)]]; [left; by left|left; by right|right; split; [done|]; exists q'; auto].
Qed.

Lemma to_visit_first q queue visited r :
  to_visit ((q, 1) :: queue) visited r ↔
  r = q ∨ to_visit (queue ++ (enqueue 2 (next_of q) visited).2) (enqueue 2 (next_of q) visited).1 r.
Proof.
  pose proof (enqueue_spec 2 (next_of q) visited) as He.
  destruct (enqueue 2 (next_of q) visited) as [visited' queued]. destruct He as (He1 & He2 & _).
  unfold to_visit. simpl. rewrite fmap_app. setoid_rewrite elem_of_app. setoid_rewrite elem_of_cons. split.
  - intros [[?|?]|(Hv & q' & Hq' & Hn)]; [by left|right; left; by left|right].
    destruct (decide (r ∈ next_of q)) as [Hrn|Hrn].
    + left. right. apply list_elem_of_fmap. exists (r, 2). split; [done|]. by apply He2.
    + right. destruct Hq' as [[= ->]|Hq']; [done|]. split; [rewrite He1; tauto|]. exists q'. auto.
  - intros [?|[[?|(x & -> & (_ & ? & ?)%He2)%list_elem_of_fmap]|(Hv & q' & Hq' & Hn)]];
      [left; by left|left; by right| |].
    + right. split; [done|]. exists q. auto.
    + right. split; [intros ?; apply Hv, He1; by left|]. exists q'. split; [|done].
      destruct Hq' as [?|[? _]%He2]; [by right|done].
Qed.

Lemma hops_spec fuel queue visited found results :
  length queue + length (unvisited visited) < fuel → Forall (λ x, x.2 = 1 ∨ x.2 = 2) queue → agree found results →
  ∀ p, p ∈ (hops order t l fuel queue visited found results).*1 ↔
       p ∈ results.*1 ∨ ∃ r, to_visit queue visited r ∧ importer r p.
Proof.
  revert queue visited found results. induction fuel as [|fuel IH]; intros queue visited found results Hf Hd Ha p; [lia|].
  cbn [hops]. destruct queue as [|[q d] queue].
  { split; [by left|]. intros [?|(r & [Hr|(_ & q & Hq & _)] & _)]; [done|by apply elem_of_nil in Hr|by apply elem_of_nil in Hq]. }
  apply Forall_cons in Hd as [Hq Hd]. simpl in Hq, Hf.
  destruct (l !! q) as [row|] eqn:El.
  2: { rewrite IH by (done || lia). apply or_iff_compat_l. apply exist_proper. intros r.
       split; intros [? Hi]; (split; [|done]); by eapply to_visit_missing. }
  pose proof (hop_spec q row found results El Ha) as Hh.
  destruct (fold_left (hop_file t q (row_file row)) order (found, results)) as [found' results'].
  destruct Hh as [Ha' Hr'].
  assert (next_of q = find_reexporters order q (resolve_module_path q (f_language (row_file row))) (t_language t) (stem_of q)) as Hnext
    by (unfold next_of; by rewrite El).
  rewrite <-Hnext. destruct Hq as [->| ->]; simpl.
  - setoid_rewrite to_visit_first.
    pose proof (enqueue_spec 2 (next_of q) visited) as He. pose proof (enqueue_measure 2 (next_of q) visited (next_of_walk q)) as Hm.
    destruct (enqueue 2 (next_of q) visited) as [visited' queued]. destruct He as (_ & He2 & _). simpl.
    rewrite IH; [rewrite Hr'; naive_solver|rewrite length_app; lia| |done].
    apply Forall_app. split; [done|]. apply Forall_forall. intros x [-> _]%He2. by right.
  - setoid_rewrite to_visit_last. rewrite IH by (done || lia). rewrite Hr'. naive_solver.
Qed.

(** *** Reported references *)

Definition of_file (x : str * ReferenceRecord) : Prop := ∃ row, l !! x.1 = Some row ∧ x.2 ∈ f_references (row_file row).

Lemma imports_of_sound s m p row r : r ∈ imports_of t s m (p, row) → r ∈ f_references (row_file row).
Proof. unfold imports_of. by intros [_ ?]%list_elem_of_filter. Qed.

Lemma direct_refs_sound p row r : r ∈ direct_refs t (p, row) → r ∈ f_references (row_file row).
Proof.
  unfold direct_refs. destruct (if _ && _ then _ else _) as [|x xs] eqn:E; [apply imports_of_sound|].
  rewrite <-E. case_match; [by intros [_ ?]%list_elem_of_filter|by intros ?%elem_of_nil].
Qed.

Lemma qualified_refs_sound p row r : r ∈ qualified_refs t (p, row) → r ∈ f_references (row_file row).
Proof. unfold qualified_refs. case_match; [by intros ?%elem_of_nil|by intros [_ ?]%list_elem_of_filter]. Qed.

Lemma transitive_refs_sound q file p row r : r ∈ transitive_refs t q file (p, row) → r ∈ f_references (row_file row).
Proof.
  unfold transitive_refs. destruct (imports_of _ _ _ _) as [|x xs] eqn:Ei; [by intros ?%elem_of_nil|].
  destruct (if bool_decide _ then _ else _) as [|y ys] eqn:E.
  - rewrite <-Ei. apply imports_of_sound.
  - rewrite <-E. case_match; [by intros [_ ?]%list_elem_of_filter|by intros ?%elem_of_nil].
Qed.

Lemma tag_sound (refs : list ReferenceRecord) p row : l !! p = Some row → (∀ r, r ∈ refs → r ∈ f_references (row_file row)) → Forall of_file (tag (p, row) refs).
Proof. intros Hp Hr. apply Forall_forall. intros x (r & -> & H)%list_elem_of_fmap. exists row. auto. Qed.

Lemma tagged_sound (skip : str → Prop) `{∀ p, Decision (skip p)} (refs : str * Row → list ReferenceRecord) :
  (∀ p row r, r ∈ refs (p, row) → r ∈ f_references (row_file row)) →
  Forall of_file (order ≫= λ e, if decide (skip e.1) then [] else tag e (refs e)).
Proof.
  intros Hr. apply Forall_forall. intros x ([p row] & Hx & Hp%elem_of_walk)%list_elem_of_bind. simpl in Hx.
  case_decide; [by apply elem_of_nil in Hx|]. revert x Hx. apply Forall_forall, tag_sound; [done|]. apply Hr.
Qed.

Lemma hop_sound q file found results :
  Forall of_file results → Forall of_file (snd (fold_left (hop_file t q file) order (found, results))).
Proof.
  assert (∀ (es : list (str * Row)) acc, (∀ e, e ∈ es → e ∈ order) → Forall of_file (snd acc) → Forall of_file (snd (fold_left (hop_file t q file) es acc))) as Hgen.
  { intros es. induction es as [|[p row] es IH]; intros [f rs] Hin Hf; [done|]. cbn [fold_left hop_file].
    apply IH; [intros e He; apply Hin; by right|]. case_decide; [done|].
    destruct (transitive_refs t q file (p, row)) as [|x xs] eqn:E; [done|]. cbn [snd]. apply Forall_app. split; [done|].
    rewrite <-E. apply tag_sound; [apply elem_of_walk, Hin; left|]. intros r. apply transitive_refs_sound. }
  intros Hf. by apply Hgen.
Qed.

Lemma hops_sound fuel queue visited found results :
  Forall of_file results → Forall of_file (hops order t l fuel queue visited found results).
Proof.
  revert queue visited found results. induction fuel as [|fuel IH]; intros queue visited found results Hf; [done|].
  cbn [hops]. destruct queue as [|[q d] queue]; [done|]. destruct (l !! q) as [row|]; [|by apply IH].
  pose proof (hop_sound q (row_file row) found results Hf) as Hh.
  destruct (fold_left (hop_file t q (row_file row)) order (found, results)) as [found' results']. simpl in Hh.
  destruct (d <? 2); [|by apply IH]. destruct (enqueue _ _ _). by apply IH.
Qed.

Lemma results_sound : Forall of_file (reexport_results order t l (qualified_results order t (direct_results order t))).
Proof.
  assert (Forall of_file (direct_results order t)) as Hd.
  { pose proof (tagged_sound (λ q, q = t_path t) (direct_refs t) direct_refs_sound) as E. exact E. }
  assert (Forall of_file (qualified_results order t (direct_results order t))) as Hq.
  { unfold qualified_results. case_match; [|done]. apply Forall_app. split; [done|].
    pose proof (tagged_sound (λ q, q = t_path t ∨ q ∈ (direct_results order t).*1) (qualified_refs t) qualified_refs_sound) as E. exact E. }
  unfold reexport_results. case_match; [done|]. destruct (enqueue _ _ _). by apply hops_sound.
Qed.

(** *** Chains *)

Definition reexports_target (r : str) : Prop :=
  ∃ row, l !! r = Some row ∧ reexports (t_path t) (t_module t) (t_language t) (t_stem t) (r, row) = true.

Definition reexports_of (m r : str) : Prop :=
  ∃ m_row row, l !! m = Some m_row ∧ l !! r = Some row ∧
    reexports m (resolve_module_path m (f_language (row_file m_row))) (t_language t) (stem_of m) (r, row) = true.

(** A file that re-exports the target, or re-exports a file that does. *)
Definition reexport_chain (r : str) : Prop :=
  reexports_target r ∨ r ≠ t_path t ∧ ∃ m, reexports_target m ∧ reexports_of m r.

Lemma elem_of_reexporters q m s r :
  t_language t = Rust →
  r ∈ find_reexporters order q m (t_language t) s ↔ ∃ row, l !! r = Some row ∧ reexports q m (t_language t) s (r, row) = true.
Proof.
  intros Hl. unfold find_reexporters. rewrite Hl. simpl. rewrite list_elem_of_fmap. setoid_rewrite list_elem_of_filter. split.
  - intros ([p row] & -> & ? & ?%elem_of_walk). eauto.
  - intros (row & ? & ?). exists (r, row). rewrite elem_of_walk. auto.
Qed.

Lemma to_visit_chain r :
  t_language t = Rust →
  let '(visited, queue) := enqueue 1 (find_reexporters order (t_path t) (t_module t) (t_language t) (t_stem t)) [t_path t] in
  to_visit queue visited r ↔ reexport_chain r.
Proof.
  intros Hl. set (seeds := find_reexporters _ _ _ _ _).
  pose proof (enqueue_spec 1 seeds [t_path t]) as He. destruct (enqueue 1 seeds [t_path t]) as [visited queue].
  destruct He as (He1 & He2 & _).
  assert (∀ p, p ∈ seeds ↔ reexports_target p) as Hseeds by (intros p; by apply elem_of_reexporters).
  assert (∀ p, reexports_target p → p ≠ t_path t) as Hne.
  { intros p (row & _ & Hr) ->. unfold reexports in Hr. simpl in Hr. by rewrite bool_decide_true in Hr. }
  assert (∀ m, r ∈ next_of m ↔ reexports_of m r) as Hnext.
  { intros m. unfold next_of, reexports_of. destruct (l !! m) as [row|]; [|rewrite elem_of_nil; naive_solver].
    rewrite elem_of_reexporters by done. naive_solver. }
  assert (∀ p, p ∈ queue.*1 ↔ reexports_target p) as Hqueue.
  { intros p. rewrite <-Hseeds. split.
    - intros (x & -> & (_ & ? & _)%He2)%list_elem_of_fmap. done.
    - intros Hp. apply list_elem_of_fmap. exists (p, 1). split; [done|]. apply He2. split; [done|]. split; [done|].
      rewrite list_elem_of_singleton. by apply Hne, Hseeds. }
  unfold to_visit, reexport_chain. rewrite Hqueue. setoid_rewrite He1. rewrite list_elem_of_singleton, Hseeds. setoid_rewrite Hnext. split.
  - intros [?|(Hv & q & (_ & ? & _)%He2 & ?)]; [by left|]. right. split; [tauto|]. exists q. split; [by apply Hseeds|done].
  - intros [?|(Hn & m & Hm & ?)]; [by left|]. destruct (decide (r ∈ seeds)) as [Hr|Hr]; [left; by apply Hseeds|right].
    split; [rewrite <-Hseeds; tauto|]. exists m. split; [|done]. apply He2. split; [done|]. split; [by apply Hseeds|].
    rewrite list_elem_of_singleton. by apply Hne.
Qed.

Lemma elem_of_reexport_results results p :
  p ∈ (reexport_results order t l results).*1 ↔
  p ∈ results.*1 ∨ t_language t = Rust ∧ ∃ r, reexport_chain r ∧ importer r p.
Proof.
  unfold reexport_results. destruct (decide (t_language t = Rust)) as [Hl|Hl].
  2: { rewrite bool_decide_false by done. simpl. tauto. }
  rewrite bool_decide_true by done. cbn [negb].
  pose proof (λ r, to_visit_chain r Hl) as Hv.
  pose proof (enqueue_spec 1 (find_reexporters order (t_path t) (t_module t) (t_language t) (t_stem t)) [t_path t]) as He.
  pose proof (enqueue_measure 1 (find_reexporters order (t_path t) (t_module t) (t_language t) (t_stem t)) [t_path t]
    (find_reexporters_walk _ _ _ _)) as Hm.
  destruct (enqueue 1 _ _) as [visited queue]. destruct He as (_ & He2 & _).
  rewrite hops_spec; [setoid_rewrite Hv; tauto| | |done].
  - assert (length (unvisited [t_path t]) ≤ length order); [|lia].
    unfold unvisited. rewrite <-(length_fmap fst order). apply length_filter.
  - apply Forall_forall. intros x [-> _]%He2. by left.
Qed.
End files.

Lemma StronglySorted_dedup_by {A} (R : relation A) same l : StronglySorted R l → StronglySorted R (dedup_by same l).
Proof.
  assert (∀ k prev, StronglySorted R (prev :: k) → StronglySorted R (prev :: dedup_like same prev k)) as Hgen.
  { intros k. induction k as [|x k IH]; intros prev Hs; simpl; [done|].
    apply StronglySorted_inv in Hs as [Hs Hp]. pose proof Hs as [Hk Hx]%StronglySorted_inv. apply Forall_cons in Hp as [Hpx Hpk].
    case_match; [apply IH; by constructor|]. constructor; [by apply IH|]. constructor; [done|].
    apply Forall_forall. intros y Hy%dedup_like_elements. by eapply Forall_forall in Hpk. }
  destruct l; [done|]. apply Hgen.
Qed.

(** Exactly these files are reported as dependents of an indexed target on which the
    lookup does not panic: those that, by the rules of [direct_refs], import it or use its symbols in its scope, those that call its symbols by qualified
    name, and, for Rust, those that import from a file at the end of a chain of one or two
    re-exports; never the target itself.  Every reported reference is one of that file's,
    and the list is sorted.  Which files are reported does not depend on how the file map is
    walked; which of their references are, may. *)
Theorem dependents_are_exact order l target_path row t :
  order ≡ₚ map_to_list (files l) → files l !! target_path = Some row → target_of target_path (row_file row) = Done t →
  ∃ found, find_dependents_for_file order l target_path = Done found ∧
    StronglySorted found_le found ∧ Forall (of_file (files l)) found ∧
    ∀ p, p ∈ found.*1 ↔
      (∃ row, files l !! p = Some row ∧ p ≠ target_path ∧
         (direct_refs t (p, row) ≠ [] ∨ (t_module t ≠ None ∧ qualified_refs t (p, row) ≠ []))) ∨
      (t_language t = Rust ∧ ∃ r, reexport_chain (files l) t r ∧ importer (files l) t r p).
Proof.
  intros Ho El Et. unfold find_dependents_for_file. rewrite El, Et. simpl. eexists. split; [reflexivity|].
  assert (t_path t = target_path) as Ep.
  { unfold target_of in Et. destruct (exported_symbol_names _ _); [|done]. simpl in Et. by injection Et as <-. }
  split; [|split].
  - apply StronglySorted_dedup_by, StronglySorted_sort_by; unfold found_le; apply _.
  - apply Forall_forall. intros x Hx%elem_of_dedup_by. rewrite sort_by_Permutation in Hx.
    pose proof (results_sound order (files l) t Ho) as Hs. by eapply Forall_forall in Hs.
  - intros p. rewrite elem_of_dedup_by_paths, sort_by_Permutation, (elem_of_reexport_results order (files l) t Ho).
    rewrite (elem_of_qualified order (files l) t Ho), (elem_of_direct order (files l) t Ho), Ep. naive_solver.
Qed.

(** ** Examples *)

Definition import_ref (name : string) (start line : N) : ReferenceRecord :=
  mkReference (bs name) None Import_ (start, start + 9)%N (line, line) None.

Definition module_row (id : N) (content : string) (refs : list ReferenceRecord) : Row :=
  mkRow id (parsed_file Rust (bs content) [] refs).

(** [a.rs] and [b.rs] re-export [t.rs]; [user.rs] imports from both. *)
Definition chain_rows : list (str * Row) :=
  [(bs "src/t.rs", module_row 1 "fn t() {}" []);
   (bs "src/a.rs", module_row 2 "pub use crate::t;" [import_ref "crate::t" 8 0]);
   (bs "src/b.rs", module_row 3 "pub use crate::t;" [import_ref "crate::t" 8 0]);
   (bs "src/user.rs", module_row 4 "use crate::a; use crate::b;" [import_ref "crate::a" 4 0; import_ref "crate::b" 18 0])].

Definition chain_index : LiveIndex := reloaded chain_rows [].

Lemma chain_order : chain_rows ≡ₚ map_to_list (files chain_index).
Proof. apply reloaded_order. vm_compute. reflexivity. Qed.

Definition shown_for (path : str) (found : Outcome (list (str * ReferenceRecord))) : Outcome (list str) :=
  match found with Done f => Done ((λ x, r_name x.2) <$> filter (λ x, x.1 = path) f) | Panic => Panic end.

(** The walk over the file map decides which import of [user.rs] is shown. *)
Theorem shown_import_depends_on_walk :
  reverse chain_rows ≡ₚ chain_rows ∧
  shown_for (bs "src/user.rs") (find_dependents_for_file chain_rows chain_index (bs "src/t.rs")) = Done [bs "crate::a"] ∧
  shown_for (bs "src/user.rs") (find_dependents_for_file (reverse chain_rows) chain_index (bs "src/t.rs")) = Done [bs "crate::b"].
Proof. split; [apply reverse_Permutation|]. split; vm_compute; reflexivity. Qed.

(** A target with [pub fn] before a character that is not ASCII, as in a comment, or at the
    very end of the file, stops the search. *)
Definition ellipsis_file : IndexedFile := parsed_file Rust (bs "// pub fn " ++ [xe2; x80; xa6]) [] [].
Definition cut_file : IndexedFile := parsed_file Rust (bs "// pub fn ") [] [].

Theorem exported_names_panic :
  find_dependents_for_file [(bs "src/t.rs", mkRow 1 ellipsis_file)] (reloaded [(bs "src/t.rs", mkRow 1 ellipsis_file)] [])
    (bs "src/t.rs") = Panic ∧
  find_dependents_for_file [(bs "src/t.rs", mkRow 1 cut_file)] (reloaded [(bs "src/t.rs", mkRow 1 cut_file)] [])
    (bs "src/t.rs") = Panic.
Proof. split; vm_compute; reflexivity. Qed.

(** Two implementations of one trait by one name are listed in the order of the walk. *)
Definition impl_row (id : N) : Row :=
  mkRow id (parsed_file Rust [] [] [mkReference (bs "Trait") (Some (bs "Type")) Implements (0, 1)%N (0, 0)%N None]).

Theorem implementations_depend_on_walk :
  let rows := [(bs "a.rs", impl_row 1); (bs "b.rs", impl_row 2)] in
  ie_file_path <$> capture_implementations_view rows (bs "Trait") None = [bs "a.rs"; bs "b.rs"] ∧
  ie_file_path <$> capture_implementations_view (reverse rows) (bs "Trait") None = [bs "b.rs"; bs "a.rs"].
Proof. split; vm_compute; reflexivity. Qed.

Lemma dependents_are_exact_witness :
  ∃ found, find_dependents_for_file chain_rows chain_index (bs "src/t.rs") = Done found ∧ bs "src/user.rs" ∈ found.*1.
Proof.
  destruct (target_of (bs "src/t.rs") (row_file (module_row 1 "fn t() {}" []))) as [t|] eqn:Et; [|vm_compute in Et; discriminate Et].
  destruct (dependents_are_exact chain_rows chain_index (bs "src/t.rs") (module_row 1 "fn t() {}" []) t chain_order)
    as (found & Ef & _ & _ & Hp); [vm_compute; reflexivity|exact Et|].
  exists found. split; [exact Ef|]. apply Hp. right. vm_compute in Et. injection Et as <-.
  split; [reflexivity|]. exists (bs "src/a.rs"). split.
  - left. exists (module_row 2 "pub use crate::t;" [import_ref "crate::t" 8 0]). split; vm_compute; reflexivity.
  - exists (module_row 2 "pub use crate::t;" [import_ref "crate::t" 8 0]),
      (module_row 4 "use crate::a; use crate::b;" [import_ref "crate::a" 4 0; import_ref "crate::b" 18 0]).
    split; [vm_compute; reflexivity|]. split; [vm_compute; reflexivity|].
    split; [vm_compute; discriminate|]. split; [vm_compute; discriminate|]. vm_compute. discriminate.
Defined.
