(* ===== verification/QualifiedUsages.v ===== *)
(** * Qualified paths in source text (live_index/qualified_usages.rs)

    The references that the parsers extract do not cover the prefix of a path such as
    [Widget::new()].  A byte scan finds them: every place where the identifier stands next
    to [::], marked confident in code and uncertain inside comments and strings.  The scan
    goes line by line and carries two states across lines, the block comment and the raw
    string.

    The theorems: the scan of a non-empty identifier always ends; everything it reports is
    the identifier, at the reported offset, next to [::].  It is not always an identifier of
    its own, and a line comment can make the scan panic.

    A column is an index into the bytes of the line.  The slices of the code are guarded
    by [is_char_boundary] in the same condition; the one that is not, the search inside a
    line comment, may panic. *)

From Stdlib Require Import Lia Strings.Byte.
From stdpp Require Import base gmap sets list strings numbers option sorting.
From S2P Require Import Prelude Slices Text Domain.

#[global] Set Default Goal Selector "!".

Definition between (i j : nat) (s : list byte) : list byte := take (j - i) (drop i s).

Record QualifiedMatch := mkMatch {
  qm_offset : nat;
  qm_line : nat;
  qm_line_text : str;
  qm_context : str;
  qm_confident : bool;
}.

Record ScanState := mkScan { in_block_comment : bool; in_raw_string : option nat }.

Section scan.
Context (identifier : str).
Let id_len := length identifier.

Section line.
Context (line : str) (line_num line_byte_offset : nat).

Definition preceded (col : nat) : bool :=
  (2 <=? col) && is_char_boundary line (col - 2) && bool_decide (between (col - 2) col line = bs "::").

Definition followed (col : nat) : bool :=
  (col + id_len + 2 <=? length line) && is_char_boundary line (col + id_len + 2)
  && bool_decide (between (col + id_len) (col + id_len + 2) line = bs "::").

Definition identifier_at (col : nat) : bool :=
  (col + id_len <=? length line) && is_char_boundary line (col + id_len)
  && bool_decide (between col (col + id_len) line = identifier).

Definition context_at (col : nat) : str :=
  let ctx_start := floor_char_boundary line (col - 20) in
  let ctx_end := ceil_char_boundary line (Nat.min (col + id_len + 20) (length line)) in
  between ctx_start ctx_end line.

Definition match_at (col : nat) (confident : bool) : QualifiedMatch :=
  mkMatch (line_byte_offset + col) line_num line (context_at col) confident.

(** The match at a column where the identifier stands, when it is qualified. *)
Definition report (col : nat) (confident : bool) : list QualifiedMatch :=
  if preceded col || followed col then [match_at col confident] else [].

Definition uncertain_at (col : nat) : list QualifiedMatch :=
  if identifier_at col then report col false else [].

Definition has_byte (col : nat) (b : byte) : bool := bool_decide (line !! col = Some b).

Fixpoint leading_hashes (s : list byte) : nat :=
  match s with x23 :: s => S (leading_hashes s) | _ => 0 end.

(** The search inside a line comment that starts at [col]. *)
Fixpoint comment_scan (fuel col search_start : nat) (acc : list QualifiedMatch) :
    option (Outcome (list QualifiedMatch)) :=
  match fuel with
  | 0 => None
  | S fuel =>
      let rest := drop col line in
      if negb (is_char_boundary rest search_start) then Some Panic
      else match find_str identifier (drop search_start rest) with
           | None => Some (Done acc)
           | Some pos =>
               let abs_col := col + search_start + pos in
               let hits :=
                 if is_char_boundary line abs_col
                 then if preceded abs_col || (is_char_boundary line (abs_col + id_len) && followed abs_col)
                      then [match_at abs_col false] else []
                 else [] in
               comment_scan fuel col (search_start + pos + 1) (acc ++ hits)
           end
  end.

(** The inside of a string literal; the result is the column of the closing quote. *)
Fixpoint string_scan (fuel col : nat) (acc : list QualifiedMatch) : option (nat * list QualifiedMatch) :=
  match fuel with
  | 0 => None
  | S fuel =>
      if length line <=? col then Some (col, acc)
      else if has_byte col x22 then Some (col, acc)
      else if has_byte col x5c then string_scan fuel (col + 2) acc
      else if negb (is_char_boundary line col) then string_scan fuel (col + 1) acc
      else string_scan fuel (col + 1) (acc ++ uncertain_at col)
  end.

Fixpoint scan_line (fuel : nat) (st : ScanState) (col : nat) (acc : list QualifiedMatch) :
    option (Outcome (ScanState * list QualifiedMatch)) :=
  match fuel with
  | 0 => None
  | S fuel =>
      if length line <=? col then Some (Done (st, acc))
      else if negb (is_char_boundary line col) then scan_line fuel st (col + 1) acc
      else
        let hashes := leading_hashes (drop (col + 1) line) in
        let quote := col + 1 + hashes in
        if negb (in_block_comment st) && bool_decide (in_raw_string st = None) && has_byte col x72
           && has_byte quote x22
        then scan_line fuel (mkScan (in_block_comment st) (Some hashes)) (quote + 1) acc
        else match in_raw_string st with
        | Some n =>
            if has_byte col x22 && (n <=? hashes)
            then scan_line fuel (mkScan (in_block_comment st) None) (col + 1 + n) acc
            else scan_line fuel st (col + 1) (acc ++ uncertain_at col)
        | None =>
            if in_block_comment st then
              if has_byte col x2a && has_byte (col + 1) x2f
              then scan_line fuel (mkScan false None) (col + 2) acc
              else scan_line fuel st (col + 1) (acc ++ uncertain_at col)
            else if has_byte col x2f && has_byte (col + 1) x2f then
              out ← comment_scan (S (S (length line))) col 0 acc;
              Some (match out with Done acc => Done (st, acc) | Panic => Panic end)
            else if has_byte col x2f && has_byte (col + 1) x2a
            then scan_line fuel (mkScan true None) (col + 2) acc
            else if has_byte col x22 then
              '(col, acc) ← string_scan (S (length line)) (col + 1) acc;
              scan_line fuel st (col + 1) acc
            else if identifier_at col then scan_line fuel st (col + id_len) (acc ++ report col true)
            else scan_line fuel st (col + 1) acc
        end
  end.

End line.

Fixpoint scan_lines (lines : list str) (line_num line_byte_offset : nat) (st : ScanState) (acc : list QualifiedMatch) :
    option (Outcome (list QualifiedMatch)) :=
  match lines with
  | [] => Some (Done acc)
  | line :: lines =>
      out ← scan_line line line_num line_byte_offset (S (length line)) st 0 acc;
      match out with
      | Done (st, acc) => scan_lines lines (S line_num) (line_byte_offset + length line + 1) st acc
      | Panic => Some Panic
      end
  end.

(** [None] when the fuel of a line runs out, which only an empty identifier can cause. *)
Definition find_qualified_usages (source : str) : option (Outcome (list QualifiedMatch)) :=
  scan_lines (split_bytes is_newline source) 1 0 (mkScan false None) [].

(** [has_qualified_identifier_bytes], from [index]. *)
Fixpoint has_qualified_from (fuel : nat) (content : list byte) (index : nat) : bool :=
  match fuel with
  | 0 => false
  | S fuel =>
      if length content - id_len <? index then false
      else
        let end_ := index + id_len in
        if bool_decide (between index end_ content = identifier) then
          let before := (2 <=? index) && bool_decide (content !! (index - 2) = Some x3a)
                        && bool_decide (content !! (index - 1) = Some x3a) in
          let after := (end_ + 2 <=? length content) && bool_decide (content !! end_ = Some x3a)
                       && bool_decide (content !! (end_ + 1) = Some x3a) in
          if before || after then true else has_qualified_from fuel content end_
        else has_qualified_from fuel content (index + 1)
  end.

Definition has_qualified_identifier_bytes (content : list byte) : bool :=
  if bool_decide (identifier = []) || (length content <? id_len) then false
  else has_qualified_from (S (length content)) content 0.

End scan.

(** ** The files of a project *)

Record QualifiedUsage := mkUsage {
  qu_file_path : str;
  qu_byte_range : N * N;
  qu_line : N;
  qu_line_text : str;
  qu_context : str;
  qu_confident : bool;
}.

Definition usage_of (name path : str) (m : QualifiedMatch) : QualifiedUsage :=
  mkUsage path (as_u32 (qm_offset m), as_u32 (qm_offset m + length name)) (as_u32 (qm_line m)) (qm_line_text m)
    (qm_context m) (qm_confident m).

Fixpoint collect_qualified_usages (name : str) (file_contents : list (str * list byte)) :
    option (Outcome (list QualifiedUsage)) :=
  match file_contents with
  | [] => Some (Done [])
  | (path, content) :: rest =>
      if negb (has_qualified_identifier_bytes name content) then collect_qualified_usages name rest
      else match from_utf8 content with
           | None => collect_qualified_usages name rest
           | Some source =>
               found ← find_qualified_usages name source;
               more ← collect_qualified_usages name rest;
               Some (match found, more with
                     | Done found, Done more => Done ((usage_of name path <$> found) ++ more)
                     | _, _ => Panic
                     end)
           end
  end.

(** ** The scan ends *)

Section facts.
Context (identifier : str) (Hid : identifier ≠ []).

Section line.
Context (line : str) (n off : nat).

Lemma comment_scan_total fuel col start acc :
  length (drop col line) + 1 < start + fuel → 1 ≤ fuel →
  is_Some (comment_scan identifier line n off fuel col start acc).
Proof.
  revert start acc. induction fuel as [|fuel IH]; intros start acc Hf H1; [lia|]. simpl.
  destruct (is_char_boundary (drop col line) start) eqn:Eb; simpl; [|by eexists].
  destruct (find_str identifier (drop start (drop col line))) as [pos|] eqn:E; [|by eexists].
  apply find_str_bound in E. rewrite length_drop in E. assert (1 ≤ length identifier) by (destruct identifier; [done|simpl; lia]).
  apply IH; lia.
Qed.

Lemma string_scan_total fuel col acc :
  length line < col + fuel → 1 ≤ fuel → is_Some (string_scan identifier line n off fuel col acc).
Proof.
  revert col acc. induction fuel as [|fuel IH]; intros col acc Hf H1; [lia|]. simpl.
  destruct (Nat.leb_spec (length line) col) as [?|?]; [by eexists|].
  repeat (case_match; try by eexists); apply IH; lia.
Qed.

Lemma string_scan_col fuel col acc col' acc' :
  string_scan identifier line n off fuel col acc = Some (col', acc') → col ≤ col'.
Proof.
  revert col acc. induction fuel as [|fuel IH]; intros col acc; [done|]. simpl.
  repeat case_match; intros E; simplify_eq; try done; apply IH in E; lia.
Qed.

Lemma scan_line_total fuel st col acc :
  length line < col + fuel → 1 ≤ fuel → is_Some (scan_line identifier line n off fuel st col acc).
Proof.
  revert st col acc. induction fuel as [|fuel IH]; intros st col acc Hf H1; [lia|]. cbn [scan_line].
  assert (1 ≤ length identifier) by (destruct identifier; [done|simpl; lia]).
  destruct (Nat.leb_spec (length line) col) as [?|?]; [by eexists|]. cbv zeta.
  destruct (negb (is_char_boundary line col)); [apply IH; lia|].
  destruct (_ && _ && _ && _); [apply IH; lia|].
  destruct (in_raw_string st) as [k|]; [destruct (_ && _); apply IH; lia|].
  destruct (in_block_comment st); [destruct (_ && _); apply IH; lia|].
  destruct (_ && _).
  { destruct (comment_scan_total (S (S (length line))) col 0 acc) as [out ->]; [rewrite length_drop; lia|lia|].
    destruct out; by eexists. }
  destruct (_ && _); [apply IH; lia|]. destruct (has_byte line col x22).
  { destruct (string_scan_total (S (length line)) (col + 1) acc) as [[col' acc'] E]; [lia|lia|]. rewrite E. simpl.
    apply string_scan_col in E. apply IH; lia. }
  destruct (identifier_at identifier line col); apply IH; lia.
Qed.
End line.

Lemma scan_lines_total lines n off st acc : is_Some (scan_lines identifier lines n off st acc).
Proof.
  revert n off st acc. induction lines as [|line lines IH]; intros n off st acc; simpl; [by eexists|].
  destruct (scan_line_total line n off (S (length line)) st 0 acc) as [out E]; [lia|lia|]. simpl in E. rewrite E. simpl.
  destruct out as [[st' acc']|]; [apply IH|by eexists].
Qed.

(** ** What is reported *)

Definition stands_at (line : str) (col : nat) : Prop := between col (col + length identifier) line = identifier.

Definition line_match (line : str) (n off : nat) (m : QualifiedMatch) : Prop :=
  ∃ col confident, m = match_at identifier line n off col confident ∧ stands_at line col ∧
    (preceded line col = true ∨ followed identifier line col = true).

Section sound.
Context (line : str) (n off : nat) (P : QualifiedMatch → Prop) (HP : ∀ m, line_match line n off m → P m).

Lemma report_sound col confident : stands_at line col → Forall P (report identifier line n off col confident).
Proof.
  intros Hs. unfold report. destruct (_ || _) eqn:E; [|done]. apply Forall_singleton, HP.
  exists col, confident. apply orb_true_iff in E. done.
Qed.

Lemma identifier_at_stands col : identifier_at identifier line col = true → stands_at line col.
Proof. unfold identifier_at. intros [_ H]%andb_true_iff. by apply bool_decide_eq_true in H. Qed.

Lemma uncertain_sound col : Forall P (uncertain_at identifier line n off col).
Proof.
  unfold uncertain_at. destruct (identifier_at identifier line col) eqn:E; [|done]. by apply report_sound, identifier_at_stands.
Qed.

Lemma comment_scan_sound fuel col start acc acc' :
  Forall P acc → comment_scan identifier line n off fuel col start acc = Some (Done acc') → Forall P acc'.
Proof.
  revert start acc. induction fuel as [|fuel IH]; intros start acc Ha; [done|]. simpl.
  destruct (is_char_boundary (drop col line) start); simpl; [|done].
  destruct (find_str identifier (drop start (drop col line))) as [pos|] eqn:E; [|by intros [= ->]].
  apply IH. apply Forall_app. split; [done|]. destruct (is_char_boundary line (col + start + pos)); [|done].
  destruct (_ || _) eqn:Eq; [|done]. apply Forall_singleton, HP. exists (col + start + pos), false. split_and!; [done| |].
  - destruct (find_str_Some _ _ _ E) as [[Es _]|[_ ?]]; [|done]. unfold stands_at, between.
    replace (col + start + pos + length identifier - (col + start + pos)) with (length identifier) by lia.
    rewrite <-Nat.add_assoc, <-(drop_drop line), <-(drop_drop (drop col line)), Es.
    apply find_str_bound in E. rewrite !length_drop in E.
    rewrite drop_app_length' by (rewrite length_take, !length_drop; lia). by rewrite take_app_length.
  - apply orb_true_iff in Eq as [?|[_ ?]%andb_true_iff]; auto.
Qed.

Lemma string_scan_sound fuel col acc col' acc' :
  Forall P acc → string_scan identifier line n off fuel col acc = Some (col', acc') → Forall P acc'.
Proof.
  revert col acc. induction fuel as [|fuel IH]; intros col acc Ha; [done|]. simpl.
  repeat case_match; intros E; simplify_eq; try done; (eapply IH; [|exact E]); try done.
  apply Forall_app. split; [done|apply uncertain_sound].
Qed.

Lemma scan_line_sound fuel st col acc st' acc' :
  Forall P acc → scan_line identifier line n off fuel st col acc = Some (Done (st', acc')) → Forall P acc'.
Proof.
  revert st col acc. induction fuel as [|fuel IH]; intros st col acc Ha; [done|]. cbn [scan_line].
  assert (Hun : ∀ c, Forall P (acc ++ uncertain_at identifier line n off c))
    by (intros c; apply Forall_app; split; [done|apply uncertain_sound]).
  destruct (length line <=? col); [by intros [= -> ->]|]. cbv zeta.
  destruct (negb (is_char_boundary line col)); [by apply IH|].
  destruct (_ && _ && _ && _); [by apply IH|].
  destruct (in_raw_string st) as [k|]; [destruct (_ && _); by apply IH|].
  destruct (in_block_comment st); [destruct (_ && _); by apply IH|].
  destruct (_ && _).
  { destruct (comment_scan identifier line n off (S (S (length line))) col 0 acc) as [[out|]|] eqn:E; [|done|done].
    intros [= _ ->]. by eapply comment_scan_sound. }
  destruct (_ && _); [by apply IH|]. destruct (has_byte line col x22).
  { destruct (string_scan identifier line n off (S (length line)) (col + 1) acc) as [[c a]|] eqn:E; [|done].
    simpl. apply IH. by eapply string_scan_sound. }
  destruct (identifier_at identifier line col) eqn:E; apply IH; [|done].
  apply Forall_app. split; [done|]. by apply report_sound, identifier_at_stands.
Qed.
End sound.

(** The identifier stands at [offset] in the source, and [::] before or behind it. *)
Definition qualified_occurrence (source : str) (offset : nat) : Prop :=
  ∃ pre post, source = pre ++ identifier ++ post ∧ length pre = offset ∧
    ((∃ p, pre = p ++ bs "::") ∨ (∃ q, post = bs "::" ++ q)).

Lemma between_split i j s : i ≤ j → s = take i s ++ between i j s ++ drop j s.
Proof.
  intros Hij. unfold between. rewrite <-(take_drop i s) at 1. f_equal.
  rewrite <-(take_drop (j - i) (drop i s)) at 1. by rewrite drop_drop, Nat.add_comm, Nat.sub_add.
Qed.

Lemma take_between i j s : i ≤ j → take j s = take i s ++ between i j s.
Proof.
  intros Hij. unfold between. rewrite <-(take_drop i s) at 1. rewrite take_app.
  destruct (decide (i ≤ length s)).
  - rewrite length_take, Nat.min_l, (take_ge (take i s)) by (rewrite ?length_take; lia). done.
  - rewrite (drop_ge s), !take_nil, !app_nil_r by lia. apply take_ge. rewrite length_take. lia.
Qed.

Lemma line_match_occurrence pre line post n m :
  line_match line n (length pre) m → qualified_occurrence (pre ++ line ++ post) (qm_offset m).
Proof.
  intros (col & confident & -> & Hs & Hq). unfold stands_at in Hs.
  assert (Hlen : length (take col line) = col).
  { pose proof (f_equal length Hs) as Hl. unfold between in Hl. rewrite length_take, length_drop in Hl.
    assert (1 ≤ length identifier) by (destruct identifier; [done|simpl; lia]). rewrite length_take. lia. }
  pose proof (between_split col (col + length identifier) line ltac:(lia)) as El. rewrite Hs in El.
  exists (pre ++ take col line), (drop (col + length identifier) line ++ post). split_and!.
  - rewrite El at 1. by rewrite <-!app_assoc.
  - rewrite length_app. simpl. lia.
  - destruct Hq as [Hq|Hq]; [left|right].
    + unfold preceded in Hq. apply andb_true_iff in Hq as [[H2%Nat.leb_le _]%andb_true_iff Hb%bool_decide_eq_true].
      exists (pre ++ take (col - 2) line). rewrite (take_between (col - 2) col), Hb by lia. by rewrite app_assoc.
    + unfold followed in Hq. apply andb_true_iff in Hq as [_ Hb%bool_decide_eq_true].
      exists (drop (col + length identifier + 2) line ++ post). rewrite app_assoc, <-Hb. f_equal.
      unfold between. replace (col + length identifier + 2 - (col + length identifier)) with 2 by lia.
      rewrite <-(drop_drop line 2 (col + length identifier)). symmetry. apply take_drop.
Qed.

Definition line_breaks (s : list byte) : nat := length (filter (λ b, Is_true (is_newline b)) s).

Lemma line_breaks_app a b : line_breaks (a ++ b) = line_breaks a + line_breaks b.
Proof. unfold line_breaks. by rewrite filter_app, length_app. Qed.

Lemma line_breaks_clean s : Forall (λ b, is_newline b = false) s → line_breaks s = 0.
Proof.
  unfold line_breaks. induction 1 as [|b s Hb _ IH]; [done|]. rewrite filter_cons_False; [done|]. rewrite Hb. by intros [].
Qed.

(** A reported match: a qualified occurrence, with its line. *)
Definition reported (source : str) (m : QualifiedMatch) : Prop :=
  qualified_occurrence source (qm_offset m) ∧ qm_line m = S (line_breaks (take (qm_offset m) source)) ∧
  split_bytes is_newline source !! (qm_line m - 1) = Some (qm_line_text m).

Lemma stands_at_bound line col : stands_at line col → col + length identifier ≤ length line.
Proof.
  unfold stands_at, between. intros Hs%(f_equal length). rewrite length_take, length_drop in Hs.
  assert (1 ≤ length identifier) by (destruct identifier; [done|simpl; lia]). lia.
Qed.

Lemma line_match_reported pre line post m :
  Forall (λ b, is_newline b = false) line →
  split_bytes is_newline (pre ++ line ++ post) !! line_breaks pre = Some line →
  line_match line (S (line_breaks pre)) (length pre) m → reported (pre ++ line ++ post) m.
Proof.
  intros Hl Hlk Hm. split; [by eapply line_match_occurrence|]. destruct Hm as (col & confident & -> & Hs & _). simpl.
  split; [|by rewrite Nat.sub_0_r]. f_equal. apply stands_at_bound in Hs.
  rewrite take_app, Nat.add_comm, Nat.add_sub. rewrite (take_ge pre) by lia. rewrite take_app_le by lia.
  rewrite line_breaks_app, (line_breaks_clean (take col line)); [lia|by apply Forall_take].
Qed.

Lemma scan_lines_sound source done_lines lines pre st acc ms :
  split_bytes is_newline source = done_lines ++ lines → length done_lines = line_breaks pre →
  source = pre ++ join [x0a] lines → Forall (Forall (λ b, is_newline b = false)) lines → Forall (reported source) acc →
  scan_lines identifier lines (S (line_breaks pre)) (length pre) st acc = Some (Done ms) → Forall (reported source) ms.
Proof.
  revert done_lines pre st acc. induction lines as [|line lines IH]; intros done_lines pre st acc Hsp Hd Es Hcl Ha; cbn [scan_lines].
  { by intros [= <-]. }
  apply Forall_cons in Hcl as [Hline Hcl].
  set (post := match lines with [] => [] | _ => x0a :: join [x0a] lines end).
  assert (Es' : source = pre ++ line ++ post) by (rewrite Es; unfold post; destruct lines; [by rewrite app_nil_r|done]).
  assert (Hlk : split_bytes is_newline source !! line_breaks pre = Some line)
    by (rewrite Hsp, lookup_app_r, Hd, Nat.sub_diag by lia; done).
  destruct (scan_line identifier line (S (line_breaks pre)) (length pre) (S (length line)) st 0 acc) as [[[st' acc']|]|] eqn:E;
    [|done|done]. cbn [mbind option_bind].
  apply (scan_line_sound line _ _ (reported source)) in E; [|intros m Hm; rewrite Es'; rewrite Es' in Hlk; by apply line_match_reported|done].
  destruct lines as [|next lines]; [by intros [= <-]|].
  assert (Hb : line_breaks (pre ++ line ++ [x0a]) = S (line_breaks pre)).
  { rewrite !line_breaks_app, (line_breaks_clean line) by done. unfold line_breaks at 2. simpl. lia. }
  replace (length pre + length line + 1) with (length (pre ++ line ++ [x0a])) by (rewrite !length_app; simpl; lia).
  rewrite <-Hb. apply (IH (done_lines ++ [line])); [by rewrite <-app_assoc|rewrite length_app, Hb; simpl; lia| |done|done].
  rewrite Es'. unfold post. by rewrite <-!app_assoc.
Qed.
End facts.

(** The scan of a non-empty identifier always ends, and all it reports is there: at
    the offset of a match the source has the identifier, directly before or behind it
    stands [::], and the line number and the line text are those of that offset. *)
Theorem qualified_usages_sound identifier source :
  identifier ≠ [] →
  ∃ out, find_qualified_usages identifier source = Some out ∧
    ∀ ms, out = Done ms → Forall (reported identifier source) ms.
Proof.
  intros Hid. unfold find_qualified_usages.
  destruct (scan_lines_total identifier Hid (split_bytes is_newline source) 1 0 (mkScan false None) []) as [out E].
  exists out. split; [done|]. intros ms ->.
  apply (scan_lines_sound identifier Hid source [] (split_bytes is_newline source) [] (mkScan false None) []);
    [done|done|symmetry; apply join_split|apply split_bytes_clean|done|exact E].
Qed.

(** ** Examples *)

Example scan_code :
  find_qualified_usages (bs "Foo") (bs "use a::Foo; // Foo::x") =
  Some (Done [mkMatch 7 1 (bs "use a::Foo; // Foo::x") (bs "use a::Foo; // Foo::x") true;
              mkMatch 15 1 (bs "use a::Foo; // Foo::x") (bs "use a::Foo; // Foo::x") false]).
Proof. vm_compute. reflexivity. Qed.

(** The scan knows no end of an identifier: the tail of a longer name is reported, in
    code, as a use of the shorter one. *)
Theorem suffix_is_reported :
  find_qualified_usages (bs "Foo") (bs "MyFoo::new()") =
  Some (Done [mkMatch 2 1 (bs "MyFoo::new()") (bs "MyFoo::new()") true]).
Proof. vm_compute. reflexivity. Qed.

(** The search inside a line comment goes on one byte after a match, which is inside the
    character when the identifier starts with one of several bytes. *)
Theorem accented_identifier_panics :
  let name := [xc3; x89] ++ bs "tat" in
  let content := name ++ bs "::new() // " ++ name ++ bs " x" in
  valid_utf8 content = true ∧ collect_qualified_usages name [(bs "a.rs", content)] = Some Panic.
Proof. split; vm_compute; reflexivity. Qed.

Lemma qualified_usages_sound_witness :
  find_qualified_usages (bs "Foo") (bs "use a::Foo;") =
    Some (Done [mkMatch 7 1 (bs "use a::Foo;") (bs "use a::Foo;") true]) ∧
  qualified_occurrence (bs "Foo") (bs "use a::Foo;") 7.
Proof.
  assert (E : find_qualified_usages (bs "Foo") (bs "use a::Foo;") =
    Some (Done [mkMatch 7 1 (bs "use a::Foo;") (bs "use a::Foo;") true])) by (vm_compute; reflexivity).
  split; [exact E|].
  destruct (qualified_usages_sound (bs "Foo") (bs "use a::Foo;") ltac:(discriminate)) as (out & E' & Hs).
  rewrite E in E'. injection E' as <-. specialize (Hs _ eq_refl).
  apply Forall_inv in Hs. apply Hs.
Defined.
