(* ===== verification/Query.v ===== *)
(** * Strict query leases (index_lifecycle/query.rs)

    A [ProjectQueryTable] knows which sources are [Current] at which generation.  A query
    acquires a lease over an exact selection, finalizes it against the table and only
    then reads and renders.  The theorems: when a lease is issued and which refusal comes
    otherwise, what a finalized lease says of the table at that moment, that a protected
    source is current only through promotion and cannot come back under a generation a
    lease holds, and that truncating a rendering never changes its identity.

    The table identity and the ranking snapshots come from the process counters of
    [Identity].  The Rust [assert!] of [publish_current] is a [Panic]. *)

From Stdlib Require Import Lia.
From stdpp Require Import base gmap sets list strings numbers option pretty.
From S2P Require Import Prelude Identity Supervisor Candidate Slices.

#[global] Set Default Goal Selector "!".

(** ** Data

    [SourceId] is a newtype over [u64]; the table and the lease are keyed by its number. *)

Inductive SelectionRefusal :=
| EmptySelection
| MissingSource (source : N)
| DuplicateSource (source : N)
| MismatchedGeneration (source expected found : N)
| NotCurrent (source : N)
| StaleAtFinalization (source : N)
| RetargetedDuringLease
| ForeignTable
| ProtectedRootRequiresPromotion (source : N).

Definition transport_code (r : SelectionRefusal) : string :=
  match r with
  | EmptySelection => "selection_empty"
  | MissingSource _ => "selection_missing_source"
  | DuplicateSource _ => "selection_duplicate_source"
  | MismatchedGeneration _ _ _ => "selection_generation_mismatch"
  | NotCurrent _ => "source_not_current"
  | StaleAtFinalization _ => "lease_stale_at_finalization"
  | RetargetedDuringLease => "lease_retargeted"
  | ForeignTable => "lease_foreign_table"
  | ProtectedRootRequiresPromotion _ => "protected_root_requires_promotion"
  end.

Inductive OutputCoverage := Full | Truncated.

Record RenderIdentity := mkRenderIdentity {
  source_truth : gmap N N;
  cache_identity : N;
}.

Record Rendering := mkRendering {
  r_coverage : OutputCoverage;
  r_identity : RenderIdentity;
  body_len : nat;
}.

Inductive QueryOutcome := Matches (n : nat) | NoMatch.

Inductive HealthSurface := Health | HealthCompact | Status | HealthResource.

Record HealthProjection := mkHealthProjection {
  committed_generations : N;
  bounded_attempts : N;
}.

(** The [Vec] of a [SelectedAggregate]: source and expected generation, in order. *)
Definition SelectedAggregate : Type := list (N * N).

Inductive SourceState :=
| Current (generation : N)
| NonCurrent (last_generation : N).

Record ProjectQueryTable := mkTable {
  q_identity : N;
  q_sources : gmap N SourceState;
  q_protected : gset N;
  q_target_epoch : N;
}.

Record StrictSelectionLease := mkLease {
  l_table_identity : N;
  captured : gmap N N;
  ranking_snapshot : N;
  l_target_epoch : N;
}.

Record CompletedLease := mkCompleted { c_captured : gmap N N }.

(** ** The table *)

Definition table_default : Proc Process ProjectQueryTable :=
  identity ← fetch_add NEXT_TABLE_IDENTITY;
  mret (mkTable identity ∅ ∅ 0).

Definition set_state (source : N) (st : SourceState) (t : ProjectQueryTable) : ProjectQueryTable :=
  mkTable (q_identity t) (<[source := st]> (q_sources t)) (q_protected t) (q_target_epoch t).

Definition publish_current (source generation : N) (t : ProjectQueryTable) :
    Outcome ProjectQueryTable :=
  if decide (source ∈ q_protected t) then Panic
  else Done (set_state source (Current generation) t).

Definition mark_non_current (source : N) (t : ProjectQueryTable) : ProjectQueryTable :=
  let last_generation :=
    match q_sources t !! source with
    | Some (Current generation) => generation
    | Some (NonCurrent last_generation) => last_generation
    | None => 0%N
    end in
  set_state source (NonCurrent last_generation) t.

Definition declare_protected (source : N) (t : ProjectQueryTable) : ProjectQueryTable :=
  let t := mkTable (q_identity t) (q_sources t) ({[source]} ∪ q_protected t) (q_target_epoch t) in
  match q_sources t !! source with
  | Some (Current generation) => set_state source (NonCurrent generation) t
  | _ => t
  end.

Definition publish_without_promotion (source generation : N) (t : ProjectQueryTable) :
    Result unit SelectionRefusal * ProjectQueryTable :=
  if decide (source ∈ q_protected t) then (Err (ProtectedRootRequiresPromotion source), t)
  else (Ok tt, set_state source (Current generation) t).

(** The promotion and the probe are not read. *)
Definition publish_protected_from_promotion (source : N) (t : ProjectQueryTable) :
    Result unit SelectionRefusal * ProjectQueryTable :=
  let next :=
    match q_sources t !! source with
    | Some (Current generation) => u64_add generation 1
    | Some (NonCurrent last_generation) => u64_add last_generation 1
    | None => 1%N
    end in
  (Ok tt, set_state source (Current next) t).

Definition retarget (t : ProjectQueryTable) : ProjectQueryTable :=
  mkTable (q_identity t) (q_sources t) (q_protected t) (u64_add (q_target_epoch t) 1).

(** ** Leases *)

Fixpoint capture (t : ProjectQueryTable) (selection : SelectedAggregate) (acc : gmap N N) :
    Result (gmap N N) SelectionRefusal :=
  match selection with
  | [] => Ok acc
  | (source, expected) :: rest =>
      if decide (is_Some (acc !! source)) then Err (DuplicateSource source)
      else
        match q_sources t !! source with
        | None => Err (MissingSource source)
        | Some (NonCurrent _) => Err (NotCurrent source)
        | Some (Current generation) =>
            if decide (generation = expected) then capture t rest (<[source := generation]> acc)
            else Err (MismatchedGeneration source expected generation)
        end
  end.

Definition acquire_strict (t : ProjectQueryTable) (selection : SelectedAggregate) :
    Proc Process (Result StrictSelectionLease SelectionRefusal) :=
  match selection with
  | [] => mret (Err EmptySelection)
  | _ :: _ =>
      match capture t selection ∅ with
      | Err e => mret (Err e)
      | Ok captured =>
          snapshot ← fetch_add NEXT_RANKING_SNAPSHOT;
          mret (Ok (mkLease (q_identity t) captured snapshot (q_target_epoch t)))
      end
  end.

Definition health (t : ProjectQueryTable) (surface : HealthSurface) (supervisor : SupervisorState) :
    HealthProjection :=
  mkHealthProjection (committed supervisor) (N.of_nat (length (records supervisor))).

Fixpoint acquire_multi_project (selections : list (ProjectQueryTable * SelectedAggregate)) :
    Proc Process (Result (list StrictSelectionLease) SelectionRefusal) :=
  match selections with
  | [] => mret (Ok [])
  | (table, selection) :: rest =>
      first ← acquire_strict table selection;
      match first with
      | Err e => mret (Err e)
      | Ok lease =>
          others ← acquire_multi_project rest;
          match others with
          | Err e => mret (Err e)
          | Ok leases => mret (Ok (lease :: leases))
          end
      end
  end.

Definition cache_identity_of (captured : gmap N N) : N := pair_hash (btree_iter captured).

Fixpoint still_current (t : ProjectQueryTable) (entries : list (N * N)) : option N :=
  match entries with
  | [] => None
  | (source, generation) :: rest =>
      match q_sources t !! source with
      | Some (Current live) =>
          if decide (live = generation) then still_current t rest else Some source
      | _ => Some source
      end
  end.

Definition finalize (l : StrictSelectionLease) (t : ProjectQueryTable) :
    Result CompletedLease SelectionRefusal :=
  if decide (q_identity t = l_table_identity l) then
    if decide (q_target_epoch t = l_target_epoch l) then
      match still_current t (btree_iter (captured l)) with
      | Some source => Err (StaleAtFinalization source)
      | None => Ok (mkCompleted (captured l))
      end
    else Err RetargetedDuringLease
  else Err ForeignTable.

Definition query (c : CompletedLease) (needle : N) : QueryOutcome :=
  let matches := length (filter (λ generation, generation = needle) ((btree_iter (c_captured c)).*2)) in
  if decide (matches = 0) then NoMatch else Matches matches.

(** [format!("{}:{generation};", source.0)], concatenated in key order. *)
Definition full_body (captured : gmap N N) : string :=
  foldr (λ '(source, generation) s,
    (pretty source +:+ ":" +:+ pretty generation +:+ ";" +:+ s)%string) ""%string
    (btree_iter captured).

Definition render (c : CompletedLease) (max_len : nat) : Rendering :=
  let len := String.length (full_body (c_captured c)) in
  mkRendering (if decide (len ≤ max_len) then Full else Truncated)
    (mkRenderIdentity (c_captured c) (cache_identity_of (c_captured c)))
    (len `min` max_len).

(** ** When a lease is issued *)

(** Every selected source is current at the expected generation, and named once. *)
Definition exact (t : ProjectQueryTable) (selection : SelectedAggregate) : Prop :=
  NoDup selection.*1 ∧ ∀ s g, (s, g) ∈ selection → q_sources t !! s = Some (Current g).

(** The refusal that the first offending entry gets. *)
Definition refused_at (t : ProjectQueryTable) (selection : SelectedAggregate) (e : SelectionRefusal) :
    Prop :=
  match e with
  | EmptySelection => selection = []
  | _ => ∃ pre s g post, selection = pre ++ (s, g) :: post ∧ exact t pre ∧
      match e with
      | DuplicateSource s' => s' = s ∧ s ∈ pre.*1
      | MissingSource s' => s' = s ∧ s ∉ pre.*1 ∧ q_sources t !! s = None
      | NotCurrent s' => s' = s ∧ s ∉ pre.*1 ∧ ∃ n, q_sources t !! s = Some (NonCurrent n)
      | MismatchedGeneration s' expected found =>
          s' = s ∧ s ∉ pre.*1 ∧ expected = g ∧ found ≠ g ∧ q_sources t !! s = Some (Current found)
      | _ => False
      end
  end.

Lemma exact_snoc t pre s g :
  exact t pre → s ∉ pre.*1 → q_sources t !! s = Some (Current g) → exact t (pre ++ [(s, g)]).
Proof.
  intros [Hnd Hcur] Hs Hg. split.
  - rewrite fmap_app. apply NoDup_app. split_and!; [done| |apply NoDup_singleton].
    intros x Hx. simpl. rewrite list_elem_of_singleton. naive_solver.
  - intros s' g' [?|[= -> ->]%list_elem_of_singleton]%elem_of_app; [by apply Hcur|done].
Qed.

(** The loop, started after an exact prefix. *)
Lemma capture_spec t pre rest :
  exact t pre →
  match capture t rest (list_to_map pre) with
  | Ok m => exact t (pre ++ rest) ∧ m = list_to_map (pre ++ rest)
  | Err e => e ≠ EmptySelection ∧ refused_at t (pre ++ rest) e
  end.
Proof.
  revert pre. induction rest as [|[s g] rest IH]; intros pre Hex; cbn [capture].
  { by rewrite app_nil_r. }
  assert (Hin : is_Some ((list_to_map pre : gmap N N) !! s) ↔ s ∈ pre.*1).
  { split.
    - intros [x Hx%elem_of_list_to_map_2]. by apply (list_elem_of_fmap_2 fst) in Hx.
    - intros Hs. apply not_eq_None_Some. by intros ?%not_elem_of_list_to_map. }
  case_decide as Hdup; rewrite Hin in Hdup.
  { split; [done|]. exists pre, s, g, rest. done. }
  destruct (q_sources t !! s) as [[found|n]|] eqn:Es.
  - case_decide as Hg; [subst found|].
    + rewrite <-list_to_map_snoc by done.
      specialize (IH (pre ++ [(s, g)]) (exact_snoc _ _ _ _ Hex Hdup Es)).
      by rewrite <-assoc_L in IH by apply _.
    + split; [done|]. exists pre, s, g, rest. done.
  - split; [done|]. exists pre, s, g, rest. split_and!; [done..|by exists n].
  - split; [done|]. exists pre, s, g, rest. done.
Qed.

Lemma acquire_strict_spec t selection p :
  ∃ r p', acquire_strict t selection p = Done (r, p') ∧
  match r with
  | Ok l => selection ≠ [] ∧ exact t selection ∧ captured l = list_to_map selection ∧
      l_table_identity l = q_identity t ∧ l_target_epoch l = q_target_epoch t ∧
      ranking_snapshot l = statics p NEXT_RANKING_SNAPSHOT ∧
      p' = set_static NEXT_RANKING_SNAPSHOT (u64_add (statics p NEXT_RANKING_SNAPSHOT) 1) p
  | Err e => refused_at t selection e ∧ p' = p
  end.
Proof.
  unfold acquire_strict. destruct selection as [|e0 sel]; [by eexists _, _|].
  pose proof (capture_spec t [] (e0 :: sel)) as Hc. simpl app in Hc.
  change (list_to_map [] : gmap N N) with (∅ : gmap N N) in Hc.
  destruct (capture t (e0 :: sel) ∅) as [m|e].
  - destruct Hc as [Hex ->]; [by split; [constructor|intros ?? ?%not_elem_of_nil]|].
    eexists _, _. split; [reflexivity|]. simpl. done.
  - destruct Hc as [_ Hr]; [by split; [constructor|intros ?? ?%not_elem_of_nil]|].
    by eexists _, _.
Qed.

(** A strict lease is issued exactly when the selection is not empty, names no source
    twice and every source is current at the expected generation; it captures exactly
    the selection under the next ranking snapshot.  Otherwise the refusal names the first
    offending entry and its cause, and no snapshot number is used up. *)
Theorem strict_lease_exact t selection p :
  ∃ r p', acquire_strict t selection p = Done (r, p') ∧
  match r with
  | Ok l => (selection ≠ [] ∧ exact t selection) ∧ captured l = list_to_map selection ∧
      ranking_snapshot l = statics p NEXT_RANKING_SNAPSHOT
  | Err e => ¬ (selection ≠ [] ∧ exact t selection) ∧ refused_at t selection e ∧ p' = p
  end.
Proof.
  destruct (acquire_strict_spec t selection p) as (r & p' & E & H). exists r, p'. split; [done|].
  destruct r as [l|e]; [naive_solver|]. destruct H as [Hr ->]. split_and!; [|done|done].
  intros [Hne [Hnd Hcur]]. destruct e; simpl in Hr; try done;
    destruct Hr as (pre & s & g & post & -> & _ & Hm); try done;
    assert (Hs : q_sources t !! s = Some (Current g))
      by (apply Hcur, elem_of_app; right; apply list_elem_of_here);
    try naive_solver.
  rewrite fmap_app in Hnd. apply NoDup_app in Hnd as (_ & Hd & _).
  apply (Hd s); [by apply Hm|]. apply list_elem_of_here.
Qed.

(** Leases over several projects come all or not at all: success captures every
    selection exactly, under pairwise distinct ranking snapshots; a refusal is that of
    the first project that refuses. *)
Theorem multi_project_all_or_nothing selections p :
  (statics p NEXT_RANKING_SNAPSHOT + N.of_nat (length selections) < u64_modulus)%N →
  ∃ r p', acquire_multi_project selections p = Done (r, p') ∧
  match r with
  | Ok leases =>
      Forall2 (λ '(t, sel) l, sel ≠ [] ∧ exact t sel ∧ captured l = list_to_map sel) selections leases ∧
      NoDup (ranking_snapshot <$> leases)
  | Err e => ∃ pre t sel post, selections = pre ++ (t, sel) :: post ∧
      Forall (λ '(t, sel), sel ≠ [] ∧ exact t sel) pre ∧ refused_at t sel e
  end.
Proof.
  intros Hb.
  enough (∃ r p', acquire_multi_project selections p = Done (r, p') ∧
    match r with
    | Ok leases =>
        Forall2 (λ '(t, sel) l, sel ≠ [] ∧ exact t sel ∧ captured l = list_to_map sel) selections leases ∧
        NoDup (ranking_snapshot <$> leases) ∧
        Forall (λ l, (statics p NEXT_RANKING_SNAPSHOT ≤ ranking_snapshot l)%N) leases
    | Err e => ∃ pre t sel post, selections = pre ++ (t, sel) :: post ∧
        Forall (λ '(t, sel), sel ≠ [] ∧ exact t sel) pre ∧ refused_at t sel e
    end) as (r & p' & ? & ?) by (exists r, p'; split; [done|]; destruct r; naive_solver).
  revert p Hb. induction selections as [|[t sel] rest IH]; intros p Hb; cbn [acquire_multi_project].
  { eexists _, _. split; [done|]. simpl. by split_and!; constructor. }
  cbn [length] in Hb. unfold mbind, Proc_bind.
  destruct (acquire_strict_spec t sel p) as (r & p1 & -> & H1). destruct r as [l|e].
  2: { eexists _, _. split; [done|]. exists [], t, sel, rest. split_and!; [done|constructor|apply H1]. }
  destruct H1 as (Hne & Hex & Hcap & _ & _ & Hsnap & ->).
  set (p1 := set_static _ _ p). assert (Es : statics p1 NEXT_RANKING_SNAPSHOT
    = (statics p NEXT_RANKING_SNAPSHOT + 1)%N) by (simpl; by rewrite u64_add_small by lia).
  destruct (IH p1) as (r2 & p2 & -> & H2); [rewrite Es; lia|]. destruct r2 as [ls|e].
  - destruct H2 as (HF & Hnd & Hge). eexists _, _. split; [done|]. rewrite Es in Hge. split_and!.
    + by constructor.
    + simpl. constructor; [|done]. intros (l' & El & Hin)%list_elem_of_fmap.
      rewrite Forall_forall in Hge. specialize (Hge _ Hin). lia.
    + constructor; [lia|]. eapply Forall_impl; [exact Hge|]. simpl. lia.
  - destruct H2 as (pre & t' & sel' & post & -> & HF & Hr). eexists _, _. split; [done|].
    exists ((t, sel) :: pre), t', sel', post. split_and!; [done|by constructor|done].
Qed.

(** ** What happens to a table while a lease is open *)

Inductive TableOp :=
| OpPublish (source generation : N)
| OpMark (source : N)
| OpDeclare (source : N)
| OpBare (source generation : N)
| OpPromote (source : N)
| OpRetarget.

#[global] Instance TableOp_eq_dec : EqDecision TableOp.
Proof. solve_decision. Defined.

(** A panicking [publish_current] leaves the table as it was. *)
Definition apply_table_op (t : ProjectQueryTable) (op : TableOp) : ProjectQueryTable :=
  match op with
  | OpPublish s g => match publish_current s g t with Done t' => t' | Panic => t end
  | OpMark s => mark_non_current s t
  | OpDeclare s => declare_protected s t
  | OpBare s g => (publish_without_promotion s g t).2
  | OpPromote s => (publish_protected_from_promotion s t).2
  | OpRetarget => retarget t
  end.

Definition run_table (ops : list TableOp) (t : ProjectQueryTable) : ProjectQueryTable :=
  fold_left apply_table_op ops t.

Definition stamp (st : option SourceState) : N :=
  match st with
  | Some (Current g) => g
  | Some (NonCurrent g) => g
  | None => 0%N
  end.

(** The operations that reach the state of a protected source. *)
Definition touches (s : N) (op : TableOp) : Prop :=
  op = OpMark s ∨ op = OpDeclare s ∨ op = OpPromote s.

Lemma declare_sources s t :
  q_sources (declare_protected s t) !! s =
    match q_sources t !! s with Some (Current g) => Some (NonCurrent g) | st => st end.
Proof.
  unfold declare_protected. simpl. destruct (q_sources t !! s) as [[g|g]|] eqn:E; simpl;
    [apply lookup_insert_eq|done|done].
Qed.

Lemma declare_sources_ne s s' t : s ≠ s' → q_sources (declare_protected s t) !! s' = q_sources t !! s'.
Proof.
  intros Hne. unfold declare_protected. simpl. destruct (q_sources t !! s) as [[g|g]|]; simpl;
    [by apply lookup_insert_ne|done|done].
Qed.

Lemma declare_protects s t : q_protected (declare_protected s t) = {[s]} ∪ q_protected t.
Proof. unfold declare_protected. simpl. by destruct (q_sources t !! s) as [[]|]. Qed.

Lemma protected_stays s op t : s ∈ q_protected t → s ∈ q_protected (apply_table_op t op).
Proof.
  intros Hs. destruct op; simpl; try done.
  - unfold publish_current. by case_decide.
  - rewrite declare_protects. set_solver.
  - unfold publish_without_promotion. by case_decide.
Qed.

(** A protected source's state changes only by the operations that [touches] lists. *)
Lemma untouched_state s op t :
  s ∈ q_protected t → ¬ touches s op → q_sources (apply_table_op t op) !! s = q_sources t !! s.
Proof.
  intros Hs Ht. unfold touches in Ht. destruct op as [s' g|s'|s'|s' g|s'|]; simpl.
  - unfold publish_current. case_decide; [done|]. apply lookup_insert_ne. by intros ->.
  - apply lookup_insert_ne. intros ->. tauto.
  - apply declare_sources_ne. intros ->. tauto.
  - unfold publish_without_promotion. case_decide; [done|]. apply lookup_insert_ne. by intros ->.
  - apply lookup_insert_ne. intros ->. tauto.
  - done.
Qed.

Lemma touched_state s op t :
  touches s op → (stamp (q_sources t !! s) + 1 < u64_modulus)%N →
  let st := q_sources (apply_table_op t op) !! s in
  ((∀ g, st ≠ Some (Current g)) ∧ stamp st = stamp (q_sources t !! s)) ∨
  st = Some (Current (stamp (q_sources t !! s) + 1)).
Proof.
  intros [-> | [-> | ->]] Hb; simpl.
  - left. rewrite lookup_insert_eq. split; [done|]. by destruct (q_sources t !! s) as [[]|].
  - left. rewrite declare_sources. by destruct (q_sources t !! s) as [[]|].
  - right. rewrite lookup_insert_eq. destruct (q_sources t !! s) as [[g|g]|]; simpl in *; [| |done];
      by rewrite u64_add_small.
Qed.

(** A protected source that ends [Current] at the stamp it started from was never touched. *)
Lemma protected_run s ops t :
  s ∈ q_protected t → (stamp (q_sources t !! s) + N.of_nat (length ops) < u64_modulus)%N →
  let t' := run_table ops t in
  (stamp (q_sources t !! s) ≤ stamp (q_sources t' !! s))%N ∧
  ∀ g, q_sources t' !! s = Some (Current g) → g = stamp (q_sources t !! s) →
    q_sources t !! s = Some (Current g) ∧ Forall (λ op, ¬ touches s op) ops.
Proof.
  revert t. induction ops as [|op ops IH]; intros t Hs Hb; simpl; [by split; [lia|]|].
  simpl in Hb. pose proof (protected_stays s op t Hs) as Hs'.
  assert (Hd : touches s op ∨ ¬ touches s op).
  { unfold touches. destruct (decide (op = OpMark s)), (decide (op = OpDeclare s)),
      (decide (op = OpPromote s)); tauto. }
  destruct Hd as [Ht|Ht].
  - destruct (touched_state s op t Ht) as [[Hn He]|He]; [lia| |].
    + destruct (IH (apply_table_op t op) Hs') as [Hle Hcur]; [rewrite He; lia|].
      rewrite He in Hle, Hcur. split; [done|]. intros g Hg Eg.
      destruct (Hcur g Hg Eg) as [Hc _]. by destruct (Hn g).
    + destruct (IH (apply_table_op t op) Hs') as [Hle _]; [rewrite He; simpl; lia|].
      rewrite He in Hle. simpl in Hle. split; [lia|]. intros g Hg ->.
      unfold run_table in Hg, Hle. rewrite Hg in Hle. simpl in Hle. lia.
  - pose proof (untouched_state s op t Hs Ht) as He.
    destruct (IH (apply_table_op t op) Hs') as [Hle Hcur]; [rewrite He; lia|].
    rewrite He in Hle, Hcur. split; [done|]. intros g Hg Eg.
    destruct (Hcur g Hg Eg) as [Hc Hf]. split; [done|by constructor].
Qed.

(** ** Finalizing *)

Lemma still_current_None t entries :
  still_current t entries = None ↔ ∀ s g, (s, g) ∈ entries → q_sources t !! s = Some (Current g).
Proof.
  induction entries as [|[s g] rest IH]; cbn [still_current].
  { split; [intros _ ?? ?%not_elem_of_nil; done|done]. }
  setoid_rewrite elem_of_cons. destruct (q_sources t !! s) as [[live|n]|] eqn:E.
  - case_decide as Hl; [subst live; rewrite IH; naive_solver|]. split; [done|].
    intros H. specialize (H s g (or_introl eq_refl)). congruence.
  - split; [done|]. intros H. specialize (H s g (or_introl eq_refl)). congruence.
  - split; [done|]. intros H. specialize (H s g (or_introl eq_refl)). congruence.
Qed.

Definition retargets (ops : list TableOp) : nat := length (filter (λ op, op = OpRetarget) ops).

Lemma run_table_identity ops t : q_identity (run_table ops t) = q_identity t.
Proof.
  revert t. induction ops as [|op ops IH]; intros t; [done|]. simpl. unfold run_table in *. rewrite IH.
  destruct op; simpl; try done.
  - unfold publish_current. by case_decide.
  - unfold declare_protected. simpl. by destruct (q_sources t !! source) as [[]|].
  - unfold publish_without_promotion. by case_decide.
Qed.

Lemma run_table_epoch ops t :
  (q_target_epoch t + N.of_nat (length ops) < u64_modulus)%N →
  q_target_epoch (run_table ops t) = (q_target_epoch t + N.of_nat (retargets ops))%N.
Proof.
  revert t. induction ops as [|op ops IH]; intros t Hb; simpl in *; [unfold retargets; simpl; lia|].
  assert (He : q_target_epoch (apply_table_op t op)
    = (q_target_epoch t + N.of_nat (retargets [op]))%N).
  { destruct op; unfold retargets; simpl; rewrite ?N.add_0_r; try done.
    - unfold publish_current. by case_decide.
    - unfold declare_protected. simpl. by destruct (q_sources t !! source) as [[]|].
    - unfold publish_without_promotion. by case_decide.
    - apply u64_add_small. lia. }
  assert (Hr : retargets (op :: ops) = retargets [op] + retargets ops).
  { unfold retargets. by rewrite <-length_app, <-filter_app. }
  assert (retargets [op] ≤ 1) by (unfold retargets; rewrite length_filter; done).
  unfold run_table in *. rewrite IH, He, Hr; lia.
Qed.

Lemma retargets_zero ops : retargets ops = 0 ↔ OpRetarget ∉ ops.
Proof.
  unfold retargets. rewrite length_zero_iff_nil. split.
  - intros E Hin. eapply not_elem_of_nil. rewrite <-E. by apply list_elem_of_filter.
  - intros Hn. destruct (filter _ ops) as [|op k] eqn:E; [done|]. exfalso.
    assert (op ∈ filter (λ op, op = OpRetarget) ops) as [-> ?]%list_elem_of_filter
      by (rewrite E; apply list_elem_of_here). done.
Qed.

Lemma finalize_Ok l t c :
  finalize l t = Ok c ↔
  q_identity t = l_table_identity l ∧ q_target_epoch t = l_target_epoch l ∧
  (∀ s g, captured l !! s = Some g → q_sources t !! s = Some (Current g)) ∧
  c = mkCompleted (captured l).
Proof.
  assert (Hs : (∀ s g, captured l !! s = Some g → q_sources t !! s = Some (Current g)) ↔
    still_current t (btree_iter (captured l)) = None)
    by (rewrite still_current_None; by setoid_rewrite elem_of_btree_iter).
  unfold finalize. rewrite Hs. case_decide; [|naive_solver]. case_decide; [|naive_solver].
  destruct (still_current t _); naive_solver.
Qed.

Lemma exact_captured t sel s g :
  exact t sel → (list_to_map sel : gmap N N) !! s = Some g ↔ (s, g) ∈ sel.
Proof. intros [Hnd _]. symmetry. by apply elem_of_list_to_map. Qed.

Lemma finalizes_iff t sel p l p' ops :
  acquire_strict t sel p = Done (Ok l, p') →
  (q_target_epoch t + N.of_nat (length ops) < u64_modulus)%N →
  (∃ c, finalize l (run_table ops t) = Ok c) ↔ OpRetarget ∉ ops ∧ exact (run_table ops t) sel.
Proof.
  intros Ha Hb. destruct (acquire_strict_spec t sel p) as (r & p1 & E & H).
  rewrite E in Ha. simplify_eq. destruct H as (_ & Hex & Hcap & Hid & Hep & _).
  setoid_rewrite finalize_Ok. rewrite run_table_identity, run_table_epoch, Hid, Hep by done.
  rewrite Hcap. setoid_rewrite (exact_captured t sel _ _ Hex). rewrite <-retargets_zero.
  destruct Hex as [Hnd _]. unfold exact. split.
  - intros (c & _ & ? & Hcur & _). split_and!; [lia|done|done].
  - intros (Hz & _ & Hcur). eexists. split_and!; [done|lia|done|done].
Qed.

Lemma completed_captured t sel p l p' now c :
  acquire_strict t sel p = Done (Ok l, p') → finalize l now = Ok c → c_captured c = list_to_map sel.
Proof.
  intros Ha (_ & _ & _ & ->)%finalize_Ok. destruct (acquire_strict_spec t sel p) as (r & p1 & E & H).
  rewrite E in Ha. simplify_eq. simpl. tauto.
Qed.

Lemma completed_query t sel p l p' now c needle :
  acquire_strict t sel p = Done (Ok l, p') → finalize l now = Ok c →
  query c needle = NoMatch ↔ ∀ s, (s, needle) ∉ sel.
Proof.
  intros Ha Hf. pose proof (completed_captured _ _ _ _ _ _ _ Ha Hf) as Hcap.
  destruct (acquire_strict_spec t sel p) as (r & p1 & E & H). rewrite E in Ha. simplify_eq.
  destruct H as (_ & Hex & _). unfold query. rewrite Hcap. set (gs := filter _ _). case_decide as Hz.
  - split; [|done]. intros _ s Hin. apply length_zero_iff_nil in Hz. unfold gs in Hz.
    eapply not_elem_of_nil. rewrite <-Hz. apply list_elem_of_filter. split; [done|].
    apply list_elem_of_fmap. exists (s, needle). split; [done|].
    by apply elem_of_btree_iter, (exact_captured t).
  - split; [done|]. intros Hno. exfalso. apply Hz, length_zero_iff_nil.
    destruct gs as [|x k] eqn:Eg; [done|]. exfalso. unfold gs in Eg.
    assert (x ∈ filter (λ generation, generation = needle) (btree_iter (list_to_map sel : gmap N N)).*2)
      as [-> ([s g] & ? & Hin)%list_elem_of_fmap]%list_elem_of_filter
      by (rewrite Eg; apply list_elem_of_here).
    simplify_eq/=. apply elem_of_btree_iter, (exact_captured t) in Hin; [|done]. by apply (Hno s).
Qed.

(** A lease over a protected source that finalizes saw no change of it at all: had the
    source been invalidated, declared again or promoted in between, its generation would
    have moved on, because the allocator never hands out a stamp twice. *)
Lemma protected_lease_no_reuse t sel p l p' ops s g c :
  acquire_strict t sel p = Done (Ok l, p') →
  (s, g) ∈ sel → s ∈ q_protected t → (g + N.of_nat (length ops) < u64_modulus)%N →
  finalize l (run_table ops t) = Ok c →
  OpMark s ∉ ops ∧ OpDeclare s ∉ ops ∧ OpPromote s ∉ ops.
Proof.
  intros Ha Hin Hs Hb (_ & _ & Hcur & _)%finalize_Ok.
  destruct (acquire_strict_spec t sel p) as (r & p1 & E & H).
  rewrite E in Ha. simplify_eq. destruct H as (_ & Hex & Hcap & _).
  assert (Hg : q_sources t !! s = Some (Current g)) by by apply Hex.
  destruct (protected_run s ops t Hs) as [_ Hrun]; [by rewrite Hg|].
  destruct (Hrun g) as [_ Hf]; [apply Hcur; rewrite Hcap; by apply (exact_captured t)|by rewrite Hg|].
  rewrite Forall_forall in Hf. unfold touches in Hf. split_and!; intros Hop; apply (Hf _ Hop); auto.
Qed.

(** C36: a lease finalizes after any sequence of table operations if and only if the table
    was not retargeted and every selected source is current at its captured generation
    at that moment; the completed lease then answers exactly for the selection, and a
    no-match means that no selected source is at the needle.  For a protected source this
    means that it did not change at all while the lease was open: not invalidated, not
    declared again, not promoted.  For any other source only the stamp is compared: marked
    non-current and published again at the captured stamp, the lease still finalizes
    ([republished_stamp_finalizes]). *)
Theorem finalized_lease_is_current t sel p l p' ops :
  acquire_strict t sel p = Done (Ok l, p') →
  (q_target_epoch t + N.of_nat (length ops) < u64_modulus)%N →
  let now := run_table ops t in
  ((∃ c, finalize l now = Ok c) ↔ OpRetarget ∉ ops ∧ exact now sel) ∧
  ∀ c, finalize l now = Ok c →
    c_captured c = list_to_map sel ∧
    (∀ needle, query c needle = NoMatch ↔ ∀ s, (s, needle) ∉ sel) ∧
    ∀ s g, (s, g) ∈ sel → s ∈ q_protected t → (g + N.of_nat (length ops) < u64_modulus)%N →
      OpMark s ∉ ops ∧ OpDeclare s ∉ ops ∧ OpPromote s ∉ ops.
Proof.
  intros Ha Hb now. split; [by eapply finalizes_iff|]. intros c Hc. split_and!.
  - by eapply completed_captured.
  - intros needle. by eapply completed_query.
  - intros s g Hin Hs Hg. by eapply protected_lease_no_reuse.
Qed.

(** The comment on [finalize] has it refuse a lease when any captured generation went stale
    while it was open.  A source that is not protected may be marked non-current and
    published again at the same stamp in between. *)
Theorem republished_stamp_finalizes :
  ∃ t sel l p' c,
    acquire_strict t sel initial_process = Done (Ok l, p') ∧
    (∃ g, q_sources (run_table [OpMark 1] t) !! 1%N = Some (NonCurrent g)) ∧
    is_Some (match finalize l (run_table [OpMark 1] t) with Err e => Some e | Ok _ => None end) ∧
    finalize l (run_table [OpMark 1; OpPublish 1 5] t) = Ok c.
Proof.
  exists (mkTable 1 {[1%N := Current 5]} ∅ 0), [(1%N, 5%N)]. do 3 eexists. split_and!;
    [reflexivity|eexists; vm_compute; reflexivity|eexists; vm_compute; reflexivity|vm_compute; reflexivity].
Qed.

Lemma run_table_snoc ops op t : run_table (ops ++ [op]) t = apply_table_op (run_table ops t) op.
Proof. unfold run_table. by rewrite fold_left_app. Qed.

(** A protected source is current only through a promotion that came after its
    protection and after which it was neither invalidated nor declared again: no order of
    publications and declarations leaves a bare publication standing. *)
Theorem protected_current_only_by_promotion p t p' ops s g :
  table_default p = Done (t, p') →
  s ∈ q_protected (run_table ops t) → q_sources (run_table ops t) !! s = Some (Current g) →
  ∃ pre post, ops = pre ++ OpPromote s :: post ∧ s ∈ q_protected (run_table pre t) ∧
    OpMark s ∉ post ∧ OpDeclare s ∉ post.
Proof.
  intros Ht. assert (q_sources t = ∅) as Hempty by (unfold table_default in Ht; proc_inv; done).
  revert g. induction ops as [|op ops IH] using rev_ind; intros g Hs Hg.
  { simpl in Hg. by rewrite Hempty, lookup_empty in Hg. }
  rewrite run_table_snoc in Hs, Hg.
  destruct (decide (op = OpPromote s)) as [->|Hp].
  { exists ops, []. split_and!; [done|done|apply not_elem_of_nil..]. }
  assert (Hmark : op ≠ OpMark s).
  { intros ->. simpl in Hg. unfold mark_non_current in Hg. simpl in Hg. by rewrite lookup_insert_eq in Hg. }
  assert (Hdecl : op ≠ OpDeclare s).
  { intros ->. simpl in Hg. rewrite declare_sources in Hg. by destruct (q_sources _ !! s) as [[]|]. }
  assert (Hs0 : s ∈ q_protected (run_table ops t)).
  { destruct op as [s' g'|s'|s'|s' g'|s'|]; simpl in Hs; try done.
    - unfold publish_current in Hs. by case_decide.
    - rewrite declare_protects in Hs. set_solver.
    - unfold publish_without_promotion in Hs. by case_decide. }
  rewrite untouched_state in Hg; [|done|unfold touches; naive_solver].
  destruct (IH g Hs0 Hg) as (pre & post & -> & ? & ? & ?).
  exists pre, (post ++ [op]). rewrite <-assoc_L by apply _. split_and!; [done|done|set_solver|set_solver].
Qed.

(** A rendering's identity is the lease's: however short the rendering, truncation
    changes neither the sources it claims nor the cache identity, and it is reported
    exactly when the body does not fit.  The cache identity tells apart two leases over
    the same sources that differ in one generation. *)
Theorem render_identity_sound c max_len s g g' :
  c_captured c !! s = Some g → in_u64 s → in_u64 g → in_u64 g' → g ≠ g' →
  let other := mkCompleted (<[s := g']> (c_captured c)) in
  (∀ len, r_identity (render c max_len) = r_identity (render c len)) ∧
  (r_coverage (render c max_len) = Truncated ↔
     max_len < String.length (full_body (c_captured c)) ∧ body_len (render c max_len) = max_len) ∧
  cache_identity (r_identity (render c max_len)) ≠ cache_identity (r_identity (render other max_len)).
Proof.
  intros Hs Hs64 Hg Hg' Hne other. split; [done|]. split.
  - unfold render. simpl. case_decide; simpl; split; try done; try lia.
  - unfold other. simpl. unfold cache_identity_of.
    destruct (btree_iter_update (c_captured c) s g g' Hs) as (pre & post & -> & ->).
    intros E. apply pair_hash_inj in E; [|by split..|by left]. by simplify_eq.
Qed.

(** ** Witnesses *)

Definition demo_table : ProjectQueryTable :=
  mkTable 1 {[1%N := Current 5; 2%N := Current 7; 3%N := NonCurrent 4]} {[2%N]} 0.
Definition demo_selection : SelectedAggregate := [(1%N, 5%N); (2%N, 7%N)].
Definition demo_lease : StrictSelectionLease :=
  mkLease 1 {[1%N := 5%N; 2%N := 7%N]} 1 0.
Definition demo_process : Process :=
  set_static NEXT_RANKING_SNAPSHOT 2 initial_process.

Lemma demo_acquired :
  acquire_strict demo_table demo_selection initial_process = Done (Ok demo_lease, demo_process).
Proof. reflexivity. Qed.

Lemma multi_project_all_or_nothing_witness :
  ∃ r p', acquire_multi_project [(demo_table, demo_selection); (demo_table, [(3%N, 4%N)])]
    initial_process = Done (r, p') ∧ r = Err (NotCurrent 3).
Proof.
  destruct (multi_project_all_or_nothing [(demo_table, demo_selection); (demo_table, [(3%N, 4%N)])]
    initial_process) as (r & p' & E & _); [reflexivity|].
  exists r, p'. split; [exact E|]. vm_compute in E. by injection E.
Defined.

Lemma finalized_lease_is_current_witness :
  (∃ c, finalize demo_lease (run_table [OpPublish 3 9; OpMark 3] demo_table) = Ok c) ∧
  ¬ (∃ c, finalize demo_lease (run_table [OpMark 1] demo_table) = Ok c) ∧
  OpPromote 2 ∉ [OpPublish 3 9; OpMark 3].
Proof.
  split_and!.
  - apply (finalized_lease_is_current demo_table demo_selection initial_process demo_lease
      demo_process _ demo_acquired); [reflexivity|]. split; [set_solver|].
    split; [apply (bool_decide_unpack _); vm_compute; exact I|].
    intros s g [[= -> ->]|[[= -> ->]|[]%not_elem_of_nil]%elem_of_cons]%elem_of_cons; reflexivity.
  - intros [_ H]%(finalized_lease_is_current demo_table demo_selection initial_process demo_lease
      demo_process _ demo_acquired); [|reflexivity].
    destruct H as [_ H]. specialize (H 1%N 5%N ltac:(left)). vm_compute in H. discriminate H.
  - destruct (finalized_lease_is_current demo_table demo_selection initial_process demo_lease
      demo_process [OpPublish 3 9; OpMark 3] demo_acquired ltac:(reflexivity)) as [_ H].
    destruct (H (mkCompleted {[1%N := 5%N; 2%N := 7%N]}) ltac:(reflexivity)) as (_ & _ & H').
    apply (H' 2%N 7%N); [right; left| |reflexivity].
    apply (bool_decide_unpack _); vm_compute; exact I.
Defined.

Lemma protected_current_only_by_promotion_witness :
  ∃ pre post, [OpBare 1 4; OpDeclare 1; OpPromote 1] = pre ++ OpPromote 1 :: post.
Proof.
  destruct (protected_current_only_by_promotion initial_process (mkTable 1 ∅ ∅ 0)
    (set_static NEXT_TABLE_IDENTITY 2 initial_process) [OpBare 1 4; OpDeclare 1; OpPromote 1] 1 5)
    as (pre & post & E & _).
  - reflexivity.
  - apply (bool_decide_unpack _); vm_compute; exact I.
  - reflexivity.
  - exists pre, post. exact E.
Defined.

Lemma render_identity_sound_witness :
  r_coverage (render (mkCompleted {[1%N := 5%N; 2%N := 17%N]}) 3) = Truncated ∧
  String.length (full_body {[1%N := 5%N; 2%N := 17%N]}) = 9.
Proof.
  split; [|vm_compute; reflexivity].
  apply (render_identity_sound (mkCompleted {[1%N := 5%N; 2%N := 17%N]}) 3 1 5 6);
    [reflexivity|reflexivity|reflexivity|reflexivity|discriminate|].
  split; [vm_compute; repeat constructor|vm_compute; reflexivity].
Defined.
