(* ===== verification/Snapshot.v ===== *)
(** * Snapshot migration (index_lifecycle/snapshot.rs)

    A [SnapshotStore] restores from untrusted seeds.  The theorems: what every call of
    [restore] does on every branch and how often it decodes; that everything in the
    current state was proven by some restore; that a seed with one corrupted number is
    quarantined; that a quarantined seed is handed back exactly once and unchanged; and
    that no observation but that hand-back depends on a seed's opaque bytes.

    The decoder is a closure with a state of its own ([FnMut]); the proof closure is a
    function.  Both are parameters. *)

From Stdlib Require Import Lia Strings.Byte.
From stdpp Require Import base gmap sets list strings numbers option pretty.
From S2P Require Import Prelude Slices.

#[global] Set Default Goal Selector "!".
#[local] Open Scope N_scope.

(** ** Data *)

Record SnapshotSeed := mkSeed {
  seed_version : N;
  declared_len : N;
  root_digest : N;
  seed_entries : list (N * N);
  opaque_note : list byte;
}.

Definition seed_digest (entries : list (N * N)) : N := pair_hash entries.

Inductive BindingClass :=
| NormalWritable | ExplicitProtected | ReadOnly | UserLocalOnly | MemoryOnly.

#[global] Instance BindingClass_eq_dec : EqDecision BindingClass.
Proof. solve_decision. Defined.

Inductive SnapshotRefusal :=
| SeedBeyondCapacity (declared limit : N)
| CapacityExceededMidDecode (consumed limit : N)
| BindingRefusesExport (class : BindingClass)
| GitattributesRequiresMutationPermit.

Inductive RestoreOutcome :=
| Promoted (sources : nat)
| SeedRejected (unproven : nat)
| Quarantined (id : N).

Record QuarantineMetadata := mkMetadata {
  qm_id : N;
  declared_digest : N;
  computed_digest : N;
  entry_count : nat;
  opaque_len : nat;
}.

Inductive GitVisibility :=
| AlreadyTracked | UntrackedVisible | IgnoredForceAddRequired | Unavailable.

Record ExportReceipt := mkReceipt { visibility : GitVisibility }.

Definition shareability (r : ExportReceipt) : option bool :=
  match visibility r with
  | AlreadyTracked | UntrackedVisible => Some true
  | IgnoredForceAddRequired => Some false
  | Unavailable => None
  end.

Record QuarantineEntry := mkQuarantine {
  q_metadata : QuarantineMetadata;
  rollback_payload : option SnapshotSeed;
}.

Record SnapshotStore := mkStore {
  v10 : list (list byte);
  current : gmap N N;
  quarantine : list QuarantineEntry;
  next_quarantine : N;
  rebuild_required : bool;
  team_artifacts : list nat;
  diagnostics : list string;
}.

Definition store_new : SnapshotStore := mkStore [] ∅ [] 0 false [] [].

Definition v10_write (bytes : list byte) (st : SnapshotStore) : SnapshotStore :=
  mkStore (v10 st ++ [bytes]) (current st) (quarantine st) (next_quarantine st)
    (rebuild_required st) (team_artifacts st) (diagnostics st).

(** ** Restore *)

Definition digest_diagnostic (id : N) (entries opaque : nat) : string :=
  ("seed " +:+ pretty id +:+ ": digest mismatch, " +:+ pretty entries +:+ " entries, opaque "
    +:+ pretty opaque +:+ " bytes")%string.
Definition rejected_diagnostic (unproven entries : nat) : string :=
  ("seed rejected: " +:+ pretty unproven +:+ " of " +:+ pretty entries
    +:+ " entries lack current-process proof")%string.
Definition promoted_diagnostic (sources : nat) : string :=
  ("seed promoted: " +:+ pretty sources +:+ " sources")%string.

(** [decoded.into_iter().collect()] into a map: a later entry wins. *)
Definition collect (entries : list (N * N)) : gmap N N :=
  fold_left (λ m '(source, stamp), <[source := stamp]> m) entries ∅.

Definition quarantine_seed (seed : SnapshotSeed) (computed : N) (count : nat) (st : SnapshotStore) :
    SnapshotStore :=
  let id := next_quarantine st in
  mkStore (v10 st) (current st)
    (quarantine st ++
      [mkQuarantine (mkMetadata id (root_digest seed) computed count (length (opaque_note seed)))
         (Some seed)])
    (u64_add id 1) true (team_artifacts st)
    (diagnostics st ++ [digest_diagnostic id count (length (opaque_note seed))]).

Definition reject_seed (unproven count : nat) (st : SnapshotStore) : SnapshotStore :=
  mkStore (v10 st) (current st) (quarantine st) (next_quarantine st) true (team_artifacts st)
    (diagnostics st ++ [rejected_diagnostic unproven count]).

Definition promote_seed (decoded : list (N * N)) (st : SnapshotStore) : SnapshotStore :=
  mkStore (v10 st) (collect decoded) (quarantine st) (next_quarantine st) (rebuild_required st)
    (team_artifacts st) (diagnostics st ++ [promoted_diagnostic (length decoded)]).

Section restore.
Context {D : Type} (decode : N * N → D → (N * N) * D) (prove : N → N → bool).

Fixpoint decode_loop (entries : list (N * N)) (limit consumed : N) (decoded : list (N * N)) (d : D) :
    Result (list (N * N)) SnapshotRefusal * D :=
  match entries with
  | [] => (Ok decoded, d)
  | entry :: rest =>
      let consumed := u64_add consumed 16 in
      if limit <? consumed then (Err (CapacityExceededMidDecode consumed limit), d)
      else
        let '(out, d) := decode entry d in
        decode_loop rest limit consumed (decoded ++ [out]) d
  end.

Definition unproven_of (decoded : list (N * N)) : nat :=
  length (filter (λ e : N * N, prove e.1 e.2 = false) decoded).

Definition restore (seed : SnapshotSeed) (limit : N) (st : SnapshotStore) (d : D) :
    Result RestoreOutcome SnapshotRefusal * SnapshotStore * D :=
  if limit <? declared_len seed then (Err (SeedBeyondCapacity (declared_len seed) limit), st, d)
  else
    match decode_loop (seed_entries seed) limit 0 [] d with
    | (Err e, d) => (Err e, st, d)
    | (Ok decoded, d) =>
        let computed := seed_digest decoded in
        if computed =? root_digest seed then
          let unproven := unproven_of decoded in
          if (0 <? unproven)%nat then
            (Ok (SeedRejected unproven), reject_seed unproven (length decoded) st, d)
          else (Ok (Promoted (length decoded)), promote_seed decoded st, d)
        else
          (Ok (Quarantined (next_quarantine st)), quarantine_seed seed computed (length decoded) st, d)
    end.
End restore.

(** ** Rollback and export *)

(** [find] the first entry with the id, then [take] its payload. *)
Fixpoint take_payload (id : N) (entries : list QuarantineEntry) :
    option SnapshotSeed * list QuarantineEntry :=
  match entries with
  | [] => (None, [])
  | e :: rest =>
      if qm_id (q_metadata e) =? id then
        (rollback_payload e, mkQuarantine (q_metadata e) None :: rest)
      else
        let '(r, rest) := take_payload id rest in (r, e :: rest)
  end.

Definition rollback (id : N) (st : SnapshotStore) : option SnapshotSeed * SnapshotStore :=
  let '(r, entries) := take_payload id (quarantine st) in
  (r, mkStore (v10 st) (current st) entries (next_quarantine st) (rebuild_required st)
        (team_artifacts st) (diagnostics st)).

Definition export_team_artifact (binding : BindingClass) (vis : GitVisibility) (artifact : list byte)
    (st : SnapshotStore) : Result ExportReceipt SnapshotRefusal * SnapshotStore :=
  if decide (binding = NormalWritable) then
    (Ok (mkReceipt vis),
     mkStore (v10 st) (current st) (quarantine st) (next_quarantine st) (rebuild_required st)
       (team_artifacts st ++ [length artifact]) (diagnostics st))
  else (Err (BindingRefusesExport binding), st).

Definition export_with_gitattributes_change (binding : BindingClass) (vis : GitVisibility) :
    SnapshotRefusal := GitattributesRequiresMutationPermit.

Definition quarantine_metadata (st : SnapshotStore) : list QuarantineMetadata :=
  q_metadata <$> quarantine st.

(** ** What one restore does *)

Lemma unproven_zero prove decoded :
  unproven_of prove decoded = 0%nat ↔ Forall (λ e : N * N, prove e.1 e.2 = true) decoded.
Proof.
  unfold unproven_of. induction decoded as [|[s v] l IH]; [done|].
  rewrite filter_cons, Forall_cons. simpl. destruct (prove s v); simpl; [|split; [done|by intros [? _]]].
  rewrite IH. tauto.
Qed.

Section restore_reference.
Context {D : Type} (decode : N * N → D → (N * N) * D) (prove : N → N → bool).

(** Decoding without a bound, in order. *)
Fixpoint decode_all (entries : list (N * N)) (d : D) : list (N * N) * D :=
  match entries with
  | [] => ([], d)
  | e :: rest =>
      let '(out, d) := decode e d in
      let '(outs, d) := decode_all rest d in (out :: outs, d)
  end.

Definition consumption (n : nat) : N := 16 * N.of_nat n.

Lemma decode_loop_spec entries limit consumed decoded d :
  consumed ≤ limit → consumed + consumption (length entries) < u64_modulus →
  decode_loop decode entries limit consumed decoded d =
    if consumed + consumption (length entries) <=? limit then
      (Ok (decoded ++ (decode_all entries d).1), (decode_all entries d).2)
    else
      let k := (limit - consumed) / 16 in
      (Err (CapacityExceededMidDecode (consumed + 16 * (k + 1)) limit),
       (decode_all (take (N.to_nat k) entries) d).2).
Proof.
  revert consumed decoded d. induction entries as [|e entries IH]; intros consumed decoded d Hc Hb;
    cbn [decode_loop decode_all length].
  { unfold consumption. simpl. rewrite N.add_0_r. destruct (N.leb_spec consumed limit); [|lia].
    by rewrite app_nil_r. }
  assert (Hcons : consumption (S (length entries)) = 16 + consumption (length entries))
    by (unfold consumption; lia).
  cbn [length] in Hb. rewrite Hcons in *. cbv zeta. rewrite u64_add_small by lia.
  destruct (N.ltb_spec limit (consumed + 16)) as [Hlt|Hge].
  - destruct (N.leb_spec (consumed + (16 + consumption (length entries))) limit); [lia|].
    assert (Hk : (limit - consumed) / 16 = 0) by (apply N.div_small; lia). rewrite Hk. simpl.
    do 2 f_equal.
  - destruct (decode e d) as [out d1] eqn:Ed. rewrite IH by lia.
    rewrite N.add_assoc. destruct (N.leb_spec (consumed + 16 + consumption (length entries)) limit).
    + destruct (decode_all entries d1) as [outs d2]. simpl. by rewrite <-assoc_L by apply _.
    + assert (Hk : (limit - consumed) / 16 = (limit - (consumed + 16)) / 16 + 1).
      { replace (limit - consumed) with (limit - (consumed + 16) + 1 * 16) by lia.
        rewrite N.div_add by lia. done. }
      rewrite Hk. replace (N.to_nat _) with (S (N.to_nat ((limit - (consumed + 16)) / 16))) by lia.
      cbn [take decode_all]. rewrite Ed. destruct (decode_all (take _ entries) d1) eqn:Et. simpl.
      do 3 f_equal. lia.
Qed.

Lemma length_decode_all entries d : length (decode_all entries d).1 = length entries.
Proof.
  revert d. induction entries as [|e entries IH]; intros d; simpl; [done|].
  destruct (decode e d) as [o d1]. specialize (IH d1). destruct (decode_all entries d1). simpl in *.
  by rewrite IH.
Qed.

(** [restore] on every branch.  A seed that declares too much is refused before any
    decoding; one that lies about its length is aborted after exactly as many decodings
    as the limit pays for, and either refusal leaves the store untouched.  Otherwise the
    digest of the decoded entries decides about quarantine, and only a seed whose every
    entry is proven replaces the current state. *)
Theorem restore_branches seed limit st d :
  consumption (length (seed_entries seed)) < u64_modulus →
  let '(decoded, d') := decode_all (seed_entries seed) d in
  let n := length (seed_entries seed) in
  restore decode prove seed limit st d =
    if limit <? declared_len seed then (Err (SeedBeyondCapacity (declared_len seed) limit), st, d)
    else if limit <? consumption n then
      (Err (CapacityExceededMidDecode (16 * (limit / 16 + 1)) limit), st,
       (decode_all (take (N.to_nat (limit / 16)) (seed_entries seed)) d).2)
    else if negb (seed_digest decoded =? root_digest seed) then
      (Ok (Quarantined (next_quarantine st)), quarantine_seed seed (seed_digest decoded) n st, d')
    else if decide (Forall (λ e : N * N, prove e.1 e.2 = true) decoded) then
      (Ok (Promoted n), promote_seed decoded st, d')
    else (Ok (SeedRejected (unproven_of prove decoded)),
          reject_seed (unproven_of prove decoded) n st, d').
Proof.
  intros Hb. destruct (decode_all (seed_entries seed) d) as [decoded d'] eqn:Ea. cbv zeta.
  pose proof (length_decode_all (seed_entries seed) d) as Hlen. rewrite Ea in Hlen. simpl in Hlen.
  unfold restore. destruct (limit <? declared_len seed); [done|].
  rewrite decode_loop_spec by lia. rewrite N.add_0_l, N.sub_0_r, Ea. simpl app.
  destruct (N.ltb_spec limit (consumption (length (seed_entries seed)))) as [Hlt|Hge].
  - destruct (N.leb_spec (consumption (length (seed_entries seed))) limit); [lia|done].
  - destruct (N.leb_spec (consumption (length (seed_entries seed))) limit); [|lia]. rewrite Hlen.
    cbn [fst snd]. cbv zeta. destruct (seed_digest decoded =? root_digest seed); simpl; [|done].
    pose proof (unproven_zero prove decoded) as Hu.
    destruct (Nat.ltb_spec 0 (unproven_of prove decoded)) as [Hpos|Hz]; case_decide as Hf; try done.
    + apply Hu in Hf. lia.
    + destruct Hf. apply Hu. lia.
Qed.
End restore_reference.

(** ** Runs of a store *)

Inductive StoreEvent :=
| EvRestore (prove : N → N → bool) (seed : SnapshotSeed) (r : Result RestoreOutcome SnapshotRefusal)
| EvRollback (id : N) (r : option SnapshotSeed)
| EvExport (r : Result ExportReceipt SnapshotRefusal)
| EvV10 (bytes : list byte).

Inductive store_run : list StoreEvent → SnapshotStore → Prop :=
| run_new : store_run [] store_new
| run_restore tr st D (decode : N * N → D → (N * N) * D) prove seed limit d r st' d' :
    store_run tr st → restore decode prove seed limit st d = (r, st', d') →
    store_run (tr ++ [EvRestore prove seed r]) st'
| run_rollback tr st id r st' :
    store_run tr st → rollback id st = (r, st') → store_run (tr ++ [EvRollback id r]) st'
| run_export tr st binding vis artifact r st' :
    store_run tr st → export_team_artifact binding vis artifact st = (r, st') →
    store_run (tr ++ [EvExport r]) st'
| run_v10 tr st bytes : store_run tr st → store_run (tr ++ [EvV10 bytes]) (v10_write bytes st).

(** The four ways a restore ends, without the capacity arithmetic. *)
Lemma restore_cases {D} (decode : N * N → D → (N * N) * D) prove seed limit st d r st' d' :
  restore decode prove seed limit st d = (r, st', d') →
  (∃ e, r = Err e ∧ st' = st) ∨
  (∃ computed n, r = Ok (Quarantined (next_quarantine st)) ∧ st' = quarantine_seed seed computed n st ∧
     computed ≠ root_digest seed) ∨
  (∃ u n, r = Ok (SeedRejected u) ∧ st' = reject_seed u n st) ∨
  (∃ decoded, r = Ok (Promoted (length decoded)) ∧ st' = promote_seed decoded st ∧
     seed_digest decoded = root_digest seed ∧ Forall (λ e : N * N, prove e.1 e.2 = true) decoded).
Proof.
  unfold restore. intros H. destruct (limit <? declared_len seed); [naive_solver|].
  destruct (decode_loop _ _ _ _ _ _) as [[decoded|e] d1]; [|naive_solver].
  cbv zeta in H. destruct (N.eqb_spec (seed_digest decoded) (root_digest seed)) as [Hd|Hd]; [|naive_solver].
  destruct (Nat.ltb_spec 0 (unproven_of prove decoded)); [naive_solver|].
  do 3 right. exists decoded. simplify_eq. split_and!; [done|done|done|]. apply unproven_zero. lia.
Qed.

Lemma collect_lookup entries k v : collect entries !! k = Some v → (k, v) ∈ entries.
Proof.
  unfold collect.
  enough (∀ m : gmap N N, fold_left (λ m '(source, stamp), <[source:=stamp]> m) entries m !! k = Some v →
    (k, v) ∈ entries ∨ m !! k = Some v) as H by (intros [?|Hm]%H; [done|by rewrite lookup_empty in Hm]).
  induction entries as [|[s x] entries IH]; intros m H; simpl in H; [by right|].
  apply IH in H as [?|H]; [left; by right|].
  apply lookup_insert_Some in H as [[-> ->]|[_ ?]]; [left; left|by right].
Qed.

(** Whatever sequence of restores, rollbacks and exports a store goes through, every
    entry of its current state was proven by the process itself, in a restore that
    promoted: a refused, rejected or quarantined seed never reaches it. *)
Theorem current_state_proven tr st k v :
  store_run tr st → current st !! k = Some v →
  ∃ prove seed n, EvRestore prove seed (Ok (Promoted n)) ∈ tr ∧ prove k v = true.
Proof.
  intros Hrun. revert k v.
  induction Hrun as [|tr st D decode prove seed limit d r st' d' Hrun IH Hr|tr st id r st' Hrun IH Hr
    |tr st b vis a r st' Hrun IH Hr|tr st bytes Hrun IH]; intros k v Hk.
  - simpl in Hk. by rewrite lookup_empty in Hk.
  - assert (Hold : current st !! k = Some v →
      ∃ p s n, EvRestore p s (Ok (Promoted n)) ∈ tr ++ [EvRestore prove seed r] ∧ p k v = true).
    { intros (p & s & n & ? & ?)%IH. exists p, s, n. split; [apply elem_of_app; by left|done]. }
    destruct (restore_cases _ _ _ _ _ _ _ _ _ Hr)
      as [(e & -> & ->)|[(c & n & -> & -> & _)|[(u & n & -> & ->)|(dec & -> & -> & _ & Hp)]]]; auto.
    simpl in Hk. apply collect_lookup in Hk. exists prove, seed, (length dec).
    rewrite Forall_forall in Hp. split; [apply elem_of_app; right; left|by apply (Hp (k, v))].
  - unfold rollback in Hr. destruct (take_payload id (quarantine st)). simplify_eq. simpl in Hk.
    destruct (IH k v Hk) as (p & s & n & ? & ?). exists p, s, n. set_solver.
  - unfold export_team_artifact in Hr.
    assert (current st' = current st) as E by (case_decide; by simplify_eq). rewrite E in Hk.
    destruct (IH k v Hk) as (p & s & n & ? & ?). exists p, s, n. set_solver.
  - destruct (IH k v Hk) as (p & s & n & ? & ?). exists p, s, n. set_solver.
Qed.

(** The seeds quarantined under an id, and the seeds handed back for it, in order. *)
Definition quarantined_as (id : N) (ev : StoreEvent) : option SnapshotSeed :=
  match ev with
  | EvRestore _ seed (Ok (Quarantined id')) => if decide (id' = id) then Some seed else None
  | _ => None
  end.
Definition handed_as (id : N) (ev : StoreEvent) : option SnapshotSeed :=
  match ev with
  | EvRollback id' (Some seed) => if decide (id' = id) then Some seed else None
  | _ => None
  end.
Definition quarantined (id : N) (tr : list StoreEvent) : list SnapshotSeed := omap (quarantined_as id) tr.
Definition handed (id : N) (tr : list StoreEvent) : list SnapshotSeed := omap (handed_as id) tr.

Definition entry_ok (tr : list StoreEvent) (i : nat) (e : QuarantineEntry) : Prop :=
  let id := N.of_nat i in
  qm_id (q_metadata e) = id ∧ ∃ seed, quarantined id tr = [seed] ∧
  ((rollback_payload e = Some seed ∧ handed id tr = []) ∨
   (rollback_payload e = None ∧ handed id tr = [seed])).

Record store_ledger (tr : list StoreEvent) (st : SnapshotStore) : Prop := {
  sl_next : next_quarantine st = N.of_nat (length (quarantine st));
  sl_bound : (length (quarantine st) ≤ length tr)%nat;
  sl_entry : ∀ i e, quarantine st !! i = Some e → entry_ok tr i e;
  sl_absent : ∀ id, N.of_nat (length (quarantine st)) ≤ id → quarantined id tr = [] ∧ handed id tr = [];
}.

Lemma ledger_quiet tr st st' ev :
  store_ledger tr st → quarantine st' = quarantine st → next_quarantine st' = next_quarantine st →
  (∀ id, quarantined_as id ev = None ∧ handed_as id ev = None) → store_ledger (tr ++ [ev]) st'.
Proof.
  intros [H1 H2 H3 H4] Eq En Hev.
  assert (Hq : ∀ id, quarantined id (tr ++ [ev]) = quarantined id tr ∧ handed id (tr ++ [ev]) = handed id tr).
  { intros id. destruct (Hev id) as [Ea Eb]. unfold quarantined, handed.
    rewrite !omap_app. simpl. rewrite Ea, Eb. by rewrite !app_nil_r. }
  constructor; rewrite ?Eq, ?En; [done|rewrite length_app; lia| |].
  - intros i e He. destruct (H3 i e He) as (? & seed & ? & ?). split; [done|]. exists seed.
    by destruct (Hq (N.of_nat i)) as [-> ->].
  - intros id Hid. destruct (Hq id) as [-> ->]. by apply H4.
Qed.

Definition emptied (e : QuarantineEntry) : QuarantineEntry := mkQuarantine (q_metadata e) None.

(** Where the entries are numbered in order, the id is the position. *)
Lemma take_payload_spec entries off id :
  (∀ i e, entries !! i = Some e → qm_id (q_metadata e) = N.of_nat (off + i)) → N.of_nat off ≤ id →
  let i := (N.to_nat id - off)%nat in
  take_payload id entries = (entries !! i ≫= rollback_payload, alter emptied i entries).
Proof.
  revert off. induction entries as [|e entries IH]; intros off Hids Hoff; [done|].
  cbn [take_payload]. pose proof (Hids 0%nat e eq_refl) as He. rewrite Nat.add_0_r in He. rewrite He.
  cbv zeta. destruct (N.eqb_spec (N.of_nat off) id) as [<-|Hne].
  - rewrite Nat2N.id, Nat.sub_diag. done.
  - rewrite (IH (S off)).
    + replace (N.to_nat id - off)%nat with (S (N.to_nat id - S off)) by lia. done.
    + intros i x Hx. rewrite (Hids (S i) x Hx). lia.
    + lia.
Qed.

Lemma snapshot_rollback_spec tr st id :
  store_ledger tr st →
  rollback id st = (quarantine st !! N.to_nat id ≫= rollback_payload,
    mkStore (v10 st) (current st) (alter emptied (N.to_nat id) (quarantine st)) (next_quarantine st)
      (rebuild_required st) (team_artifacts st) (diagnostics st)).
Proof.
  intros Hl. unfold rollback. rewrite (take_payload_spec _ 0 id).
  - by rewrite Nat.sub_0_r.
  - intros i e He. by apply (sl_entry _ _ Hl).
  - lia.
Qed.

Lemma ledger_quarantine tr st prove seed computed n :
  N.of_nat (length (tr ++ [EvRestore prove seed (Ok (Quarantined (next_quarantine st)))])) < u64_modulus →
  store_ledger tr st →
  store_ledger (tr ++ [EvRestore prove seed (Ok (Quarantined (next_quarantine st)))])
    (quarantine_seed seed computed n st).
Proof.
  intros Hb [H1 H2 H3 H4]. set (ev := EvRestore prove seed _). rewrite length_app in Hb. simpl in Hb.
  assert (Hq : ∀ id, quarantined id (tr ++ [ev]) =
    quarantined id tr ++ (if decide (next_quarantine st = id) then [seed] else [])).
  { intros id. unfold quarantined. rewrite omap_app. simpl. by case_decide. }
  assert (Hh : ∀ id, handed id (tr ++ [ev]) = handed id tr).
  { intros id. unfold handed. rewrite omap_app. simpl. by rewrite app_nil_r. }
  constructor; simpl.
  - rewrite H1, length_app, u64_add_small by (simpl; lia). simpl. lia.
  - rewrite !length_app. simpl. lia.
  - intros i e He. unfold entry_ok. rewrite Hq, Hh, H1.
    apply lookup_snoc_Some in He as [[Hi He]|[-> <-]].
    + destruct (H3 i e He) as (? & s & -> & ?). split; [done|]. exists s.
      rewrite decide_False by lia. by rewrite app_nil_r.
    + destruct (H4 (N.of_nat (length (quarantine st)))) as [-> ->]; [lia|].
      rewrite decide_True by done. simpl. split; [done|]. exists seed. split; [done|by left].
  - rewrite length_app. simpl. intros id Hid. rewrite Hq, Hh, decide_False by lia.
    rewrite app_nil_r. apply H4. lia.
Qed.

Lemma ledger_rollback tr st id r st' :
  store_ledger tr st → rollback id st = (r, st') → store_ledger (tr ++ [EvRollback id r]) st'.
Proof.
  intros Hl Hr. rewrite (snapshot_rollback_spec tr st id Hl) in Hr. simplify_eq.
  destruct Hl as [H1 H2 H3 H4]. set (r := _ ≫= _).
  assert (Hq : ∀ j, quarantined j (tr ++ [EvRollback id r]) = quarantined j tr).
  { intros j. unfold quarantined. rewrite omap_app. simpl. by rewrite app_nil_r. }
  assert (Hh : ∀ j, handed j (tr ++ [EvRollback id r]) =
    handed j tr ++ (if decide (id = j) then option_list r else [])).
  { intros j. unfold handed. rewrite omap_app. simpl. destruct r; case_decide; done. }
  constructor; simpl; rewrite ?length_alter; [done|rewrite length_app; lia| |].
  - intros i e He. unfold entry_ok. rewrite Hq, Hh. destruct (decide (id = N.of_nat i)) as [->|Hne].
    + unfold r. rewrite Nat2N.id in *. rewrite list_lookup_alter_eq in He.
      destruct (quarantine st !! i) as [e0|] eqn:E0; simplify_eq/=.
      destruct (H3 i e0 E0) as (? & seed & -> & Hs). split; [done|]. exists seed. split; [done|].
      right. split; [done|]. destruct Hs as [[-> ->]|[-> ->]]; done.
    + rewrite app_nil_r. rewrite list_lookup_alter_ne in He by lia. by apply H3.
  - intros j Hj. rewrite Hq, Hh. destruct (H4 j Hj) as [-> ->]. split; [done|].
    destruct (decide (id = j)) as [->|]; [|done]. unfold r.
    rewrite lookup_ge_None_2 by lia. done.
Qed.

Lemma run_ledger tr st :
  store_run tr st → N.of_nat (length tr) < u64_modulus → store_ledger tr st.
Proof.
  induction 1 as [|tr st D decode prove seed limit d r st' d' Hrun IH Hr|tr st id r st' Hrun IH Hr
    |tr st b vis a r st' Hrun IH Hr|tr st bytes Hrun IH]; intros Hb.
  { constructor; simpl; try done. }
  all: assert (N.of_nat (length tr) < u64_modulus) as Hb' by (rewrite length_app in Hb; simpl in Hb; lia).
  all: specialize (IH Hb').
  - destruct (restore_cases _ _ _ _ _ _ _ _ _ Hr)
      as [(e & -> & ->)|[(c & n & -> & -> & _)|[(u & n & -> & ->)|(dec & -> & -> & _ & Hp)]]].
    + by apply (ledger_quiet tr st).
    + by apply ledger_quarantine.
    + by apply (ledger_quiet tr st).
    + by apply (ledger_quiet tr st).
  - by eapply ledger_rollback.
  - unfold export_team_artifact in Hr. apply (ledger_quiet tr st); [done|..|done]; case_decide; by simplify_eq.
  - by apply (ledger_quiet tr st).
Qed.

(** C37: a quarantined seed is preserved unchanged and handed back exactly once: the seeds
    handed back under an id are none or exactly the one seed quarantined under it, and as
    long as none was, a rollback of the id returns it. *)
Theorem rollback_exactly_once tr st id :
  store_run tr st → N.of_nat (length tr) < u64_modulus →
  (handed id tr = [] ∨ (handed id tr = quarantined id tr ∧ length (handed id tr) = 1%nat)) ∧
  ∀ seed, (rollback id st).1 = Some seed ↔ quarantined id tr = [seed] ∧ handed id tr = [].
Proof.
  intros Hrun Hb. pose proof (run_ledger tr st Hrun Hb) as Hl. rewrite (snapshot_rollback_spec tr st id Hl).
  destruct (quarantine st !! N.to_nat id) as [e|] eqn:E; simpl.
  - destruct (sl_entry _ _ Hl _ _ E) as (_ & seed & Hq & Hh). rewrite N2Nat.id in Hq, Hh.
    rewrite Hq. destruct Hh as [[-> ->]|[-> ->]]; (split; [auto|]); intros seed'; naive_solver.
  - apply lookup_ge_None in E. destruct (sl_absent _ _ Hl id) as [-> ->]; [lia|].
    split; [by left|]. naive_solver.
Qed.

(** ** Corruption and disclosure *)

Lemma decode_identity (entries : list (N * N)) : decode_all (λ e (d : unit), (e, d)) entries tt = (entries, tt).
Proof. induction entries as [|e entries IH]; simpl; [done|]. by rewrite IH. Qed.

(** A seed in which one number was changed after its digest was taken is always
    quarantined, whatever the proof closure says: the fold cannot miss a single change.
    The current state stays, a rebuild is required, and the original is retained. *)
Theorem corrupted_seed_quarantined seed pre e e' post limit prove st :
  seed_entries seed = pre ++ e' :: post → root_digest seed = seed_digest (pre ++ e :: post) →
  e ≠ e' → e.1 = e'.1 ∨ e.2 = e'.2 → pair_in_u64 e → pair_in_u64 e' →
  declared_len seed ≤ limit → consumption (length (seed_entries seed)) ≤ limit → in_u64 limit →
  let '(r, st', _) := restore (λ e (d : unit), (e, d)) prove seed limit st tt in
  r = Ok (Quarantined (next_quarantine st)) ∧ current st' = current st ∧ rebuild_required st' = true ∧
  (∃ q, last (quarantine st') = Some q ∧ rollback_payload q = Some seed).
Proof.
  intros He Hd Hne Hor H64 H64' Hdecl Hcap Hl. unfold in_u64 in Hl. unfold restore.
  destruct (N.ltb_spec limit (declared_len seed)); [lia|].
  rewrite decode_loop_spec by lia. rewrite N.add_0_l, decode_identity. simpl app.
  destruct (N.leb_spec (consumption (length (seed_entries seed))) limit); [|lia]. cbn [fst snd].
  cbv zeta. destruct (N.eqb_spec (seed_digest (seed_entries seed)) (root_digest seed)) as [Eq|_].
  - exfalso. rewrite He, Hd in Eq. symmetry in Eq. by apply pair_hash_inj in Eq.
  - split_and!; [done|done|done|]. eexists. simpl. by rewrite last_snoc.
Qed.

(** Everything a caller can read of a store: a retained payload counts as present only. *)
Definition quarantine_view (q : QuarantineEntry) : QuarantineMetadata * bool :=
  (q_metadata q, match rollback_payload q with Some _ => true | None => false end).

Definition public (st : SnapshotStore) :=
  (v10 st, current st, quarantine_view <$> quarantine st,
   (next_quarantine st, rebuild_required st, team_artifacts st, diagnostics st)).

Definition with_note (note : list byte) (seed : SnapshotSeed) : SnapshotSeed :=
  mkSeed (seed_version seed) (declared_len seed) (root_digest seed) (seed_entries seed) note.

Lemma take_payload_view id l k :
  quarantine_view <$> l = quarantine_view <$> k →
  (is_Some (take_payload id l).1 ↔ is_Some (take_payload id k).1) ∧
  quarantine_view <$> (take_payload id l).2 = quarantine_view <$> (take_payload id k).2.
Proof.
  revert k. induction l as [|e l IH]; intros [|f k] E; try discriminate E; [done|].
  rewrite !fmap_cons in E. injection E as Em Ep E. cbn [take_payload]. rewrite Em.
  destruct (qm_id (q_metadata f) =? id).
  - split; [|cbn [snd]; rewrite !fmap_cons, E; unfold quarantine_view; by simpl].
    cbn [fst].
    destruct (rollback_payload e), (rollback_payload f); try discriminate Ep; [|done].
    split; intros _; by eexists.
  - specialize (IH k E). destruct (take_payload id l) as [r l'], (take_payload id k) as [r' k'].
    cbn [fst snd] in *. destruct IH as [? E']. split; [done|]. rewrite !fmap_cons, E'.
    unfold quarantine_view. by rewrite Em, Ep.
Qed.

(** The opaque bytes of a seed stay undisclosed: if two stores look alike and two
    seeds differ only in the content of their notes, a restore returns the same result,
    makes the same decoder calls and leaves stores that look alike - metadata,
    diagnostics, current state and all - and a later rollback succeeds on both or on
    neither.  Only the seed that a rollback hands back carries the bytes. *)
Theorem opaque_note_undisclosed {D} (decode : N * N → D → (N * N) * D) prove a b seed note limit d :
  public a = public b → length note = length (opaque_note seed) →
  let '(r, a', da) := restore decode prove seed limit a d in
  let '(r', b', db) := restore decode prove (with_note note seed) limit b d in
  r = r' ∧ da = db ∧ public a' = public b' ∧
  ∀ id, (is_Some (rollback id a').1 ↔ is_Some (rollback id b').1) ∧
        public (rollback id a').2 = public (rollback id b').2.
Proof.
  intros Hp Hn.
  assert (Hroll : ∀ x y, public x = public y → ∀ id, (is_Some (rollback id x).1 ↔ is_Some (rollback id y).1) ∧
        public (rollback id x).2 = public (rollback id y).2).
  { intros x y Hxy id. unfold public in Hxy. injection Hxy as E1 E2 Hq E3 E4 E5 E6.
    destruct (take_payload_view id _ _ Hq) as [Hs Hv]. unfold rollback.
    destruct (take_payload id (quarantine x)), (take_payload id (quarantine y)). simpl in *.
    split; [done|]. unfold public. simpl. by rewrite Hv, E1, E2, E3, E4, E5, E6. }
  unfold restore. cbn [with_note declared_len seed_entries root_digest].
  destruct (limit <? declared_len seed); [by auto|].
  destruct (decode_loop decode (seed_entries seed) limit 0 [] d) as [[decoded|e] d']; [|by auto].
  cbv zeta. pose proof Hp as Hp0. unfold public in Hp0. injection Hp0 as Ev Ec Eq En Er Et Ed.
  destruct (seed_digest decoded =? root_digest seed);
    [destruct (0 <? unproven_of prove decoded)%nat|]; (split_and!; [by rewrite ?En|done| |apply Hroll]);
    unfold public, promote_seed, reject_seed, quarantine_seed; simpl;
    rewrite ?fmap_app, ?Eq, ?Ev, ?Ec, ?En, ?Er, ?Et, ?Ed, ?Hn; done.
Qed.

(** ** Witnesses *)

Definition demo_seed : SnapshotSeed :=
  mkSeed 10 32 (seed_digest [(1, 5); (2, 7)]) [(1, 5); (2, 7)] [x41; x42].
Definition demo_corrupted : SnapshotSeed :=
  mkSeed 10 32 (seed_digest [(1, 5); (2, 7)]) [(1, 5); (2, 8)] [x41; x42].
Definition plain_restore (seed : SnapshotSeed) (st : SnapshotStore) :=
  restore (λ e (d : unit), (e, d)) (λ _ _, true) seed 64 st tt.

Lemma restore_branches_witness :
  let decode := λ e (d : nat), (e, S d) in
  restore decode (λ _ _, true) demo_seed 64 store_new 0%nat
    = (Ok (Promoted 2), promote_seed [(1, 5); (2, 7)] store_new, 2%nat) ∧
  restore decode (λ _ _, true) (mkSeed 10 0 0 [(1, 5); (2, 7); (3, 9)] []) 33 store_new 0%nat
    = (Err (CapacityExceededMidDecode 48 33), store_new, 2%nat).
Proof.
  split.
  - exact (restore_branches (λ e (d : nat), (e, S d)) (λ _ _, true) demo_seed 64 store_new 0%nat
      ltac:(reflexivity)).
  - exact (restore_branches (λ e (d : nat), (e, S d)) (λ _ _, true)
      (mkSeed 10 0 0 [(1, 5); (2, 7); (3, 9)] []) 33 store_new 0%nat ltac:(reflexivity)).
Defined.

Definition demo_quarantined : SnapshotStore := (plain_restore demo_corrupted store_new).1.2.
Definition demo_store : SnapshotStore := (plain_restore demo_seed demo_quarantined).1.2.

Lemma demo_run :
  store_run [EvRestore (λ _ _, true) demo_corrupted (Ok (Quarantined 0));
             EvRestore (λ _ _, true) demo_seed (Ok (Promoted 2))] demo_store.
Proof.
  apply (run_restore [EvRestore (λ _ _, true) demo_corrupted (Ok (Quarantined 0))] demo_quarantined
    unit (λ e d, (e, d)) (λ _ _, true) demo_seed 64 tt _ _ tt); [|vm_compute; reflexivity].
  apply (run_restore [] store_new unit (λ e d, (e, d)) (λ _ _, true) demo_corrupted 64 tt _ _ tt);
    [constructor|vm_compute; reflexivity].
Qed.

Lemma current_state_proven_witness :
  ∃ prove seed n, EvRestore prove seed (Ok (Promoted n)) ∈
    [EvRestore (λ _ _, true) demo_corrupted (Ok (Quarantined 0));
     EvRestore (λ _ _, true) demo_seed (Ok (Promoted 2))] ∧ prove 2 7 = true.
Proof. apply (current_state_proven _ _ 2 7 demo_run). reflexivity. Defined.

Lemma rollback_exactly_once_witness :
  (rollback 0 demo_store).1 = Some demo_corrupted.
Proof.
  apply (rollback_exactly_once _ _ 0 demo_run); [reflexivity|]. split; reflexivity.
Defined.

Lemma corrupted_seed_quarantined_witness :
  (plain_restore demo_corrupted store_new).1.1 = Ok (Quarantined 0).
Proof.
  pose proof (corrupted_seed_quarantined demo_corrupted [(1, 5)] (2, 7) (2, 8) [] 64 (λ _ _, true) store_new
    eq_refl eq_refl ltac:(discriminate) ltac:(left; reflexivity) ltac:(split; reflexivity)
    ltac:(split; reflexivity) ltac:(discriminate) ltac:(discriminate) ltac:(reflexivity)) as H.
  unfold plain_restore. destruct (restore _ _ _ _ _ _) as [[r st'] u]. simpl. apply H.
Defined.

Lemma opaque_note_undisclosed_witness :
  public (plain_restore demo_corrupted store_new).1.2
  = public (plain_restore (with_note [x30; x31] demo_corrupted) store_new).1.2.
Proof.
  pose proof (opaque_note_undisclosed (λ e (d : unit), (e, d)) (λ _ _, true) store_new store_new
    demo_corrupted [x30; x31] 64 tt eq_refl eq_refl) as H.
  unfold plain_restore. destruct (restore _ _ demo_corrupted _ _ _) as [[r a'] da].
  destruct (restore _ _ _ _ _ _) as [[r' b'] db]. simpl. apply H.
Defined.
