(* ===== verification/BatchCommit.v ===== *)
(** * The staged batch commit (edit_safety/batch_commit.rs)

    A multi-file edit locks its targets in path order, checks that every target still
    holds its base image, writes, re-attests everything, and rolls back on any failure.
    The trait [BatchIo] is the class [BatchIo]; what its implementations promise to the
    commit when nobody else touches the files is [QuietIo].

    Three groups of theorems.  Against [QuietIo]: a commit that succeeds has written
    everything, and one that fails leaves every file as it was except those it lists as
    uncertain.  Against any [BatchIo] at all, external writers included: a rollback
    writes only where its last look saw its own image, and nothing is written before the
    whole batch was checked; a change between a look and a write is not detected.  For the locks: every batch takes its locks in
    ascending order, so batches cannot deadlock each other.

    [canonicalize] of the dunce crate is a parameter.  A path is the list of its
    components, compared component by component. *)

From Stdlib Require Import Lia Strings.Byte.
From stdpp Require Import base gmap sets list strings numbers option sorting.
From S2P Require Import Prelude Slices.

#[global] Set Default Goal Selector "!".

(** ** Paths *)

Notation PathBuf := (list string).

Abbreviation path_le := (lex_le String.le).

(** ** Data *)

Record StagedImage := mkImage {
  si_relative : PathBuf;
  si_absolute : PathBuf;
  si_original : option (list byte);
  si_replacement : list byte;
  owner_only : bool;
}.

Inductive BatchAbort :=
| Conflict (index : nat)
| PreflightUnavailable (index : nat)
| Cancelled (attempted restored : nat) (uncertain : list nat)
| WriteFailed (index : nat) (reason : string) (restored : nat) (uncertain : list nat).

(** [#[cfg(feature = "embed")]] predicates on an abort. *)
Definition no_source_write (a : BatchAbort) : bool :=
  match a with
  | Conflict _ | PreflightUnavailable _ => true
  | Cancelled 0 0 [] => true
  | _ => false
  end.

(** The uncertain list an abort carries. *)
Definition uncertain_of (a : BatchAbort) : list nat :=
  match a with
  | Cancelled _ _ u | WriteFailed _ _ _ u => u
  | _ => []
  end.

Definition rollback_uncertain (a : BatchAbort) : bool :=
  match a with
  | Cancelled _ _ (_ :: _) | WriteFailed _ _ _ (_ :: _) => true
  | _ => false
  end.

(** The trait: [W] is the implementation's own state together with the file system. *)
Class BatchIo (W Report : Type) := {
  io_matches : StagedImage → option (list byte) → W → Result bool string * W;
  io_write : StagedImage → list byte → W → Result Report string * W;
}.

Definition no_image : StagedImage := mkImage [] [] None [] false.
Definition image_at (images : list StagedImage) (index : nat) : StagedImage :=
  nth index images no_image.

(** ** Commit and rollback *)

Section commit.
Context {W Report : Type} `{!BatchIo W Report}.

(** [matches!(io.matches(image, expected), Ok(true))]. *)
Definition attests (image : StagedImage) (expected : option (list byte)) (w : W) : bool * W :=
  let '(r, w) := io_matches image expected w in
  (match r with Ok true => true | _ => false end, w).

Fixpoint rollback_loop (images : list StagedImage) (todo : list nat) (restored : nat)
    (uncertain : list nat) (w : W) : (nat * list nat) * W :=
  match todo with
  | [] => ((restored, uncertain), w)
  | index :: rest =>
      let image := image_at images index in
      let '(at_original, w) := attests image (si_original image) w in
      if at_original then rollback_loop images rest restored uncertain w
      else
        let '(at_replacement, w) := attests image (Some (si_replacement image)) w in
        if negb at_replacement then rollback_loop images rest restored (uncertain ++ [index]) w
        else
          match si_original image with
          | None => rollback_loop images rest restored (uncertain ++ [index]) w
          | Some original =>
              let '(_, w) := io_write image original w in
              let '(back, w) := attests image (Some original) w in
              if back then rollback_loop images rest (S restored) uncertain w
              else rollback_loop images rest restored (uncertain ++ [index]) w
          end
  end.

Definition rollback (images : list StagedImage) (attempted : list nat) (w : W) : (nat * list nat) * W :=
  rollback_loop images (reverse attempted) 0 [] w.

Fixpoint preflight (images : list StagedImage) (order : list (PathBuf * nat)) (w : W) :
    option BatchAbort * W :=
  match order with
  | [] => (None, w)
  | (_, index) :: rest =>
      let image := image_at images index in
      let '(r, w) := io_matches image (si_original image) w in
      match r with
      | Ok true => preflight images rest w
      | Ok false => (Some (Conflict index), w)
      | Err _ => (Some (PreflightUnavailable index), w)
      end
  end.

Definition write_failed (images : list StagedImage) (attempted : list nat) (index : nat)
    (reason : string) (w : W) : BatchAbort * W :=
  let '((restored, uncertain), w) := rollback images attempted w in
  (WriteFailed index reason restored uncertain, w).

(** The signal of another thread is read from the world at each round. *)
Fixpoint write_loop (images : list StagedImage) (order : list (PathBuf * nat))
    (cancel : option (W → bool)) (reports : list (nat * Report)) (attempted : list nat) (w : W) :
    Result (list (nat * Report) * list nat) BatchAbort * W :=
  match order with
  | [] => (Ok (reports, attempted), w)
  | (_, index) :: rest =>
      if match cancel with Some signal => signal w | None => false end then
        let '((restored, uncertain), w) := rollback images attempted w in
        (Err (Cancelled (length attempted) restored uncertain), w)
      else
        let attempted := attempted ++ [index] in
        let image := image_at images index in
        let '(r, w) := io_write image (si_replacement image) w in
        match r with
        | Ok report =>
            let '(ok, w) := attests image (Some (si_replacement image)) w in
            if negb ok then
              let '(a, w) := write_failed images attempted index "post_image_unverified" w in (Err a, w)
            else write_loop images rest cancel (reports ++ [(index, report)]) attempted w
        | Err reason =>
            let '(a, w) := write_failed images attempted index reason w in (Err a, w)
        end
  end.

Fixpoint reattest (images : list StagedImage) (order : list (PathBuf * nat)) (attempted : list nat)
    (w : W) : option BatchAbort * W :=
  match order with
  | [] => (None, w)
  | (_, index) :: rest =>
      let image := image_at images index in
      let '(ok, w) := attests image (Some (si_replacement image)) w in
      if negb ok then
        let '(a, w) := write_failed images attempted index "batch_post_image_unverified" w in (Some a, w)
      else reattest images rest attempted w
  end.

Definition commit_staged_locked (images : list StagedImage) (order : list (PathBuf * nat))
    (cancel : option (W → bool)) (w : W) : Result (list (nat * Report)) BatchAbort * W :=
  match preflight images order w with
  | (Some a, w) => (Err a, w)
  | (None, w) =>
      match write_loop images order cancel [] [] w with
      | (Err a, w) => (Err a, w)
      | (Ok (reports, attempted), w) =>
          match reattest images order attempted w with
          | (Some a, w) => (Err a, w)
          | (None, w) => (Ok reports, w)
          end
      end
  end.
End commit.

(** ** The lock order *)

Inductive CanonicalizeResult := Canonical (path : PathBuf) | CanonNotFound | CanonError.

Section locks.
Context (canonicalize : PathBuf → CanonicalizeResult).

(** [cursor] is walked upwards, so its components come deepest first; [absent] holds the
    components already passed.  [file_name] of a path that ends in [..] is [None]. *)
Fixpoint lock_key_from (cursor : PathBuf) (absent : PathBuf) : Result PathBuf unit :=
  match canonicalize (reverse cursor) with
  | Canonical path => Ok (path ++ absent)
  | CanonError => Err tt
  | CanonNotFound =>
      match cursor with
      | [] => Err tt
      | component :: parent =>
          if decide (component = ".."%string) then Err tt
          else lock_key_from parent (component :: absent)
      end
  end.

Definition canonical_lock_key (absolute : PathBuf) : Result PathBuf unit :=
  lock_key_from (reverse absolute) [].

Fixpoint keyed (index : nat) (images : list StagedImage) : Result (list (PathBuf * nat)) BatchAbort :=
  match images with
  | [] => Ok []
  | image :: rest =>
      match canonical_lock_key (si_absolute image) with
      | Err _ => Err (PreflightUnavailable index)
      | Ok path =>
          match keyed (S index) rest with
          | Err a => Err a
          | Ok order => Ok ((path, index) :: order)
          end
      end
  end.

Definition order_le (a b : PathBuf * nat) : Prop := path_le a.1 b.1.
#[global] Instance order_le_dec a b : Decision (order_le a b).
Proof. unfold order_le. apply _. Defined.

(** [order.windows(2).find(|pair| pair[0].0 == pair[1].0)]. *)
Fixpoint duplicate_pair (order : list (PathBuf * nat)) : option nat :=
  match order with
  | a :: ((b :: _) as tl) => if decide (a.1 = b.1) then Some b.2 else duplicate_pair tl
  | _ => None
  end.

Definition staged_order (images : list StagedImage) : Result (list (PathBuf * nat)) BatchAbort :=
  match keyed 0 images with
  | Err a => Err a
  | Ok order =>
      let order := sort_by order_le order in
      match duplicate_pair order with
      | Some index => Err (Conflict index)
      | None => Ok order
      end
  end.

(** The locks are the keys of the order, taken in its order; then the operation runs. *)
Definition with_staged_locks {R W} (images : list StagedImage)
    (operation : list (PathBuf * nat) → W → R * W) (w : W) : Result R BatchAbort * W :=
  match staged_order images with
  | Err a => (Err a, w)
  | Ok order => let '(r, w) := operation order w in (Ok r, w)
  end.

Definition commit_staged {W Report} `{!BatchIo W Report} (images : list StagedImage)
    (cancel : option (W → bool)) (w : W) : Result (list (nat * Report)) BatchAbort * W :=
  match with_staged_locks images (λ order w, commit_staged_locked images order cancel w) w with
  | (Ok r, w) => (r, w)
  | (Err a, w) => (Err a, w)
  end.
End locks.

(** ** What an implementation promises when nobody else writes

    [view] is what a reader of the files sees; the snapshots that a write keeps elsewhere
    (the tee) are outside it.  A failed write promises nothing about its own target. *)
Class QuietIo (W Report : Type) `{!BatchIo W Report} := {
  view : W → PathBuf → option (list byte);
  target : StagedImage → PathBuf;
  quiet_matches : ∀ image expected w r w',
    io_matches image expected w = (r, w') →
    (∀ p, view w' p = view w p) ∧ ∀ b, r = Ok b → (b = true ↔ view w (target image) = expected);
  quiet_write : ∀ image bytes w r w',
    io_write image bytes w = (r, w') →
    (∀ p, p ≠ target image → view w' p = view w p) ∧
    ∀ report, r = Ok report → view w' (target image) = Some bytes;
}.

Section quiet.
Context {W Report : Type} `{!BatchIo W Report, !QuietIo W Report}.
Context (images : list StagedImage).

Definition place (index : nat) : PathBuf := target (image_at images index).
Definition original (index : nat) : option (list byte) := si_original (image_at images index).
Definition replacement (index : nat) : list byte := si_replacement (image_at images index).
Definition apart (ids : list nat) : Prop := NoDup (place <$> ids).

Lemma attests_spec image expected w b w' :
  attests image expected w = (b, w') →
  (∀ p, view w' p = view w p) ∧ (b = true → view w (target image) = expected).
Proof.
  unfold attests. destruct (io_matches image expected w) as [r w1] eqn:E. intros [= <- <-].
  apply quiet_matches in E as [Hv Hr]. split; [done|]. destruct r as [[]|]; try done. intros _. by apply (Hr true).
Qed.

Lemma apart_cons i ids : apart (i :: ids) → (∀ j, j ∈ ids → place j ≠ place i) ∧ apart ids.
Proof.
  unfold apart. rewrite fmap_cons, NoDup_cons. intros [Hi Hnd]. split; [|done].
  intros j Hj E. apply Hi. rewrite <-E. by apply list_elem_of_fmap_2.
Qed.

Lemma rollback_loop_spec todo restored unc w r u w' :
  apart todo → rollback_loop images todo restored unc w = ((r, u), w') →
  (∀ p, p ∉ place <$> todo → view w' p = view w p) ∧
  (∀ i, i ∈ todo → i ∈ u ∨ view w' (place i) = original i) ∧
  unc ⊆ u ∧ ∀ i, i ∈ u → i ∈ unc ∨ i ∈ todo.
Proof.
  revert restored unc w. induction todo as [|i todo IH]; intros restored unc w Ha H.
  { simpl in H. simplify_eq. split_and!; [done|by intros i ?%not_elem_of_nil|done|by left]. }
  apply apart_cons in Ha as [Hi Ha]. cbn [rollback_loop] in H.
  assert (Hpi : place i ∉ place <$> todo).
  { intros (j & Ej & Hj)%list_elem_of_fmap. by apply (Hi j). }
  (* Every path through the body ends in the loop on [todo] from some world that agrees
     with [w] away from [place i]. *)
  assert (Hnext : ∃ restored' unc' w1, rollback_loop images todo restored' unc' w1 = ((r, u), w') ∧
    (∀ p, p ≠ place i → view w1 p = view w p) ∧
    ((unc' = unc ++ [i]) ∨ (unc' = unc ∧ view w1 (place i) = original i))).
  { destruct (attests (image_at images i) (si_original (image_at images i)) w) as [b0 w0] eqn:E0.
    apply attests_spec in E0 as [V0 B0]. destruct b0.
    { exists restored, unc, w0. split_and!; [done|intros; by rewrite V0|]. right. split; [done|].
      rewrite V0. by apply B0. }
    destruct (attests (image_at images i) (Some (si_replacement (image_at images i))) w0) as [b1 w1] eqn:E1.
    apply attests_spec in E1 as [V1 _].
    assert (V01 : ∀ p, view w1 p = view w p) by (intros p; by rewrite V1, V0).
    destruct b1; cbn [negb] in H; [|exists restored, (unc ++ [i]), w1; auto].
    destruct (si_original (image_at images i)) as [o|] eqn:Eo;
      [|exists restored, (unc ++ [i]), w1; auto].
    destruct (io_write (image_at images i) o w1) as [rw w2] eqn:E2. apply quiet_write in E2 as [V2 _].
    destruct (attests (image_at images i) (Some o) w2) as [b3 w3] eqn:E3.
    apply attests_spec in E3 as [V3 B3].
    assert (V03 : ∀ p, p ≠ place i → view w3 p = view w p) by (intros p Hp; by rewrite V3, V2, V01).
    destruct b3; [exists (S restored), unc, w3|exists restored, (unc ++ [i]), w3; auto].
    split_and!; [done|done|]. right. split; [done|]. unfold original. rewrite Eo, V3. by apply B3. }
  destruct Hnext as (restored' & unc' & w1 & Hrun & Hw1 & Hcase).
  destruct (IH _ _ _ Ha Hrun) as (H1 & H2 & H3 & H4). split_and!.
  - intros p Hp. rewrite fmap_cons in Hp. apply not_elem_of_cons in Hp as [Hp1 Hp2].
    rewrite (H1 p Hp2). by apply Hw1.
  - intros j [->|Hj]%elem_of_cons; [|by apply H2]. destruct Hcase as [->|[-> Hv]].
    + left. apply H3, elem_of_app. right. apply list_elem_of_here.
    + right. by rewrite (H1 _ Hpi).
  - destruct Hcase as [->|[-> _]]; [|done]. intros j Hj. apply H3, elem_of_app. by left.
  - intros j Hj. rewrite elem_of_cons. destruct (H4 j Hj) as [Hj'|?]; [|tauto].
    destruct Hcase as [->|[-> _]]; [|tauto].
    apply elem_of_app in Hj' as [?| ->%list_elem_of_singleton]; tauto.
Qed.

(** The loss a failed batch reports: all that differs from the start is listed. *)
Definition accounted (w0 w' : W) (u : list nat) : Prop :=
  ∀ p, view w' p ≠ view w0 p → ∃ i, i ∈ u ∧ place i = p.

Lemma rollback_spec attempted w0 w r u w' :
  apart attempted → (∀ i, i ∈ attempted → view w0 (place i) = original i) →
  (∀ p, p ∉ place <$> attempted → view w p = view w0 p) →
  rollback images attempted w = ((r, u), w') → accounted w0 w' u ∧ u ⊆ attempted.
Proof.
  intros Ha Ho Hw H. unfold rollback in H.
  assert (Hp : reverse attempted ≡ₚ attempted) by apply reverse_Permutation.
  apply rollback_loop_spec in H as (H1 & H2 & _ & H3); [|unfold apart; by rewrite Hp].
  setoid_rewrite Hp in H1. setoid_rewrite Hp in H2. setoid_rewrite Hp in H3. split.
  - intros p Hne. destruct (decide (p ∈ place <$> attempted)) as [Hin|Hin].
    + apply list_elem_of_fmap in Hin as (i & -> & Hi). exists i. split; [|done].
      destruct (H2 i Hi) as [?|Hv]; [done|]. destruct Hne. by rewrite Hv, Ho.
    + destruct Hne. by rewrite (H1 p Hin), (Hw p Hin).
  - intros i Hi. apply H3 in Hi as [?%not_elem_of_nil|?]; done.
Qed.

Lemma write_failed_spec attempted w0 w index reason a w' :
  apart attempted → (∀ i, i ∈ attempted → view w0 (place i) = original i) →
  (∀ p, p ∉ place <$> attempted → view w p = view w0 p) →
  write_failed images attempted index reason w = (a, w') →
  ∃ restored u, a = WriteFailed index reason restored u ∧ accounted w0 w' u ∧ u ⊆ attempted.
Proof.
  intros Ha Ho Hw. unfold write_failed. destruct (rollback images attempted w) as [[r u] w1] eqn:E.
  intros [= <- <-]. exists r, u. split; [done|]. by eapply rollback_spec.
Qed.

(** What an abort that may have written says, from the base view [w0]. *)
Definition abort_ok (w0 w' : W) (order : list nat) (a : BatchAbort) : Prop :=
  match a with
  | Conflict _ | PreflightUnavailable _ => ∀ p, view w' p = view w0 p
  | Cancelled _ _ u | WriteFailed _ _ _ u => accounted w0 w' u ∧ u ⊆ order
  end.

Lemma preflight_spec order w r w' :
  preflight images order w = (r, w') →
  (∀ p, view w' p = view w p) ∧
  match r with
  | None => ∀ i, i ∈ order.*2 → view w (place i) = original i
  | Some (Conflict i) => i ∈ order.*2 ∧ view w (place i) ≠ original i
  | Some (PreflightUnavailable i) => i ∈ order.*2
  | Some _ => False
  end.
Proof.
  revert w. induction order as [|[q i] order IH]; intros w H; cbn [preflight] in H.
  { simplify_eq. split; [done|]. by intros i ?%not_elem_of_nil. }
  destruct (io_matches (image_at images i) (si_original (image_at images i)) w) as [r0 w0] eqn:E.
  apply quiet_matches in E as [Hv Hb]. destruct r0 as [[]|e]; simplify_eq/=.
  - destruct (IH _ H) as [Hv' Hr]. split; [intros p; by rewrite Hv', Hv|].
    destruct r as [[j|j|? ? ?|? ? ? ?]|]; try done.
    + destruct Hr as [? Hr]. rewrite Hv in Hr. split; [by right|done].
    + by right.
    + intros j [->|Hj]%elem_of_cons; [by apply (Hb true)|]. rewrite <-Hv. by apply Hr.
  - split; [done|]. split; [left|]. intros Hc. by apply (Hb false) in Hc.
  - split; [done|]. left.
Qed.

Lemma write_loop_spec order cancel reports attempted w0 w r w' :
  apart (attempted ++ order.*2) →
  (∀ i, i ∈ attempted ++ order.*2 → view w0 (place i) = original i) →
  (∀ p, p ∉ place <$> attempted → view w p = view w0 p) →
  write_loop images order cancel reports attempted w = (r, w') →
  match r with
  | Ok (reports', attempted') =>
      attempted' = attempted ++ order.*2 ∧ reports'.*1 = reports.*1 ++ order.*2 ∧
      ∀ p, p ∉ place <$> attempted' → view w' p = view w0 p
  | Err a => abort_ok w0 w' (attempted ++ order.*2) a
  end.
Proof.
  revert reports attempted w. induction order as [|[q i] order IH]; intros reports attempted w Ha Ho Hw H;
    cbn [write_loop] in H.
  { simplify_eq. simpl. by rewrite !app_nil_r. }
  assert (Hpre : apart attempted) by (unfold apart in *; rewrite fmap_app in Ha; by apply NoDup_app in Ha as (? & _)).
  assert (Hopre : ∀ j, j ∈ attempted → view w0 (place j) = original j)
    by (intros j Hj; apply Ho, elem_of_app; by left).
  set (c := match cancel with Some signal => signal w | None => false end) in H. destruct c.
  { destruct (rollback images attempted w) as [[rs u] w1] eqn:E. simplify_eq.
    apply (rollback_spec attempted w0) in E as [??]; [|done..]. split; [done|]. set_solver. }
  replace (attempted ++ ((q, i) :: order).*2) with ((attempted ++ [i]) ++ order.*2) in *
    by (simpl; by rewrite <-assoc_L by apply _).
  set (att := attempted ++ [i]) in *.
  assert (Hatt : apart att) by (unfold apart in *; rewrite fmap_app in Ha; by apply NoDup_app in Ha as (? & _)).
  assert (Hoatt : ∀ j, j ∈ att → view w0 (place j) = original j)
    by (intros j Hj; apply Ho, elem_of_app; by left).
  destruct (io_write (image_at images i) (si_replacement (image_at images i)) w) as [rw w1] eqn:E1.
  apply quiet_write in E1 as [V1 _].
  assert (W1 : ∀ p, p ∉ place <$> att → view w1 p = view w0 p).
  { intros p Hp. unfold att in Hp. rewrite fmap_app, not_elem_of_app in Hp. destruct Hp as [Hp Hi].
    rewrite V1; [by apply Hw|]. intros ->. apply Hi. simpl. left. }
  assert (Hfail : ∀ w2 reason a, (∀ p, view w2 p = view w1 p) →
    write_failed images att i reason w2 = (a, w') → abort_ok w0 w' (att ++ order.*2) a).
  { intros w2 reason a Hw2 Hf. eapply (write_failed_spec att w0 w2) in Hf as (rs & u & -> & ? & ?);
      [|done|done|intros p Hp; rewrite Hw2; by apply W1]. split; [done|]. set_solver. }
  destruct rw as [report|reason].
  - destruct (attests (image_at images i) (Some (si_replacement (image_at images i))) w1) as [ok w2] eqn:E2.
    apply attests_spec in E2 as [V2 _]. destruct ok; cbn [negb] in H.
    + apply IH in H; [|done|done|intros p Hp; rewrite V2; by apply W1].
      destruct r as [[reports' attempted']|a]; [|done]. destruct H as (-> & -> & Hv).
      rewrite fmap_app. simpl. by rewrite <-assoc_L by apply _.
    + destruct (write_failed images att i "post_image_unverified" w2) as [a w3] eqn:Ef. simplify_eq.
      by eapply Hfail.
  - destruct (write_failed images att i reason w1) as [a w3] eqn:Ef. simplify_eq. by eapply Hfail.
Qed.

Lemma reattest_spec order attempted w0 w r w' :
  apart attempted → (∀ i, i ∈ attempted → view w0 (place i) = original i) →
  (∀ p, p ∉ place <$> attempted → view w p = view w0 p) →
  reattest images order attempted w = (r, w') →
  match r with
  | None => (∀ p, view w' p = view w p) ∧ ∀ i, i ∈ order.*2 → view w (place i) = Some (replacement i)
  | Some a => abort_ok w0 w' attempted a
  end.
Proof.
  intros Ha Ho. revert w. induction order as [|[q i] order IH]; intros w Hw H; cbn [reattest] in H.
  { simplify_eq. split; [done|]. by intros i ?%not_elem_of_nil. }
  destruct (attests (image_at images i) (Some (si_replacement (image_at images i))) w) as [ok w1] eqn:E.
  apply attests_spec in E as [V1 B1]. destruct ok; cbn [negb] in H.
  - apply IH in H; [|intros p Hp; rewrite V1; by apply Hw]. destruct r as [a|]; [done|].
    destruct H as [Hv Hr]. split; [intros p; by rewrite Hv, V1|].
    intros j [->|Hj]%elem_of_cons; [by apply B1|]. rewrite <-V1. by apply Hr.
  - destruct (write_failed images attempted i "batch_post_image_unverified" w1) as [a w2] eqn:Ef.
    simplify_eq. eapply (write_failed_spec attempted w0 w1) in Ef as (rs & u & -> & ? & ?);
      [|done|done|intros p Hp; rewrite V1; by apply Hw]. done.
Qed.

Lemma commit_staged_locked_spec order cancel w r w' :
  apart order.*2 → commit_staged_locked images order cancel w = (r, w') →
  match r with
  | Ok reports =>
      reports.*1 = order.*2 ∧
      (∀ i, i ∈ order.*2 → view w (place i) = original i ∧ view w' (place i) = Some (replacement i)) ∧
      ∀ p, p ∉ place <$> order.*2 → view w' p = view w p
  | Err a => abort_ok w w' order.*2 a
  end.
Proof.
  intros Ha. unfold commit_staged_locked. destruct (preflight images order w) as [r0 w0] eqn:E0.
  apply preflight_spec in E0 as [V0 H0]. destruct r0 as [a|].
  { intros [= <- <-]. by destruct a. }
  destruct (write_loop images order cancel [] [] w0) as [r1 w1] eqn:E1.
  apply (write_loop_spec order cancel [] [] w) in E1; [|done|done|done]. simpl in E1.
  destruct r1 as [[reports attempted]|a]; [|by intros [= <- <-]]. destruct E1 as (-> & Er & Hv).
  destruct (reattest images order order.*2 w1) as [r2 w2] eqn:E2.
  apply (reattest_spec order order.*2 w) in E2; [|done|done|done].
  destruct r2 as [a|]; intros [= <- <-]; [done|]. destruct E2 as [V2 H2]. split_and!; [done| |].
  - intros i Hi. split; [by apply H0|]. rewrite V2. by apply H2.
  - intros p Hp. rewrite V2. by apply Hv.
Qed.
End quiet.

(** ** The lock order *)

#[local] Instance order_le_trans : Transitive order_le.
Proof. intros x y z. unfold order_le. intros; by etrans. Qed.
#[local] Instance order_le_total : Total order_le.
Proof. intros x y. apply (total path_le). Qed.

Definition path_lt (a b : PathBuf) : Prop := path_le a b ∧ a ≠ b.

Lemma duplicate_pair_None order :
  StronglySorted order_le order → duplicate_pair order = None → StronglySorted path_lt order.*1.
Proof.
  induction order as [|[a i] order IH]; intros Hs Hd; [constructor|].
  apply StronglySorted_inv in Hs as [Hs Ha].
  assert (Hd' : duplicate_pair order = None).
  { destruct order as [|[b j] order]; [done|]. cbn [duplicate_pair] in Hd. by case_decide. }
  specialize (IH Hs Hd'). rewrite fmap_cons. simpl. constructor; [done|].
  destruct order as [|[b j] order]; [constructor|].
  cbn [duplicate_pair] in Hd. case_decide as Hab; [done|]. simpl in Hab.
  apply Forall_cons in Ha as [Hle _]. unfold order_le in Hle. simpl in Hle. rewrite fmap_cons in IH |- *.
  apply StronglySorted_inv in IH as [_ Hb]. simpl in *. constructor; [by split|].
  eapply Forall_impl; [exact Hb|]. intros c [Hbc Hne]. split; [by etrans|]. intros ->.
  apply Hab. by apply (anti_symm path_le).
Qed.

Lemma path_lt_nodup l : StronglySorted path_lt l → NoDup l.
Proof.
  induction 1 as [|x l _ IH Hx]; constructor; [|done]. intros Hin.
  rewrite Forall_forall in Hx. by destruct (Hx x Hin).
Qed.

Section lock_order.
Context (canonicalize : PathBuf → CanonicalizeResult).

Lemma keyed_spec index images order :
  keyed canonicalize index images = Ok order →
  order.*2 = seq index (length images) ∧
  ∀ k i, (k, i) ∈ order → ∃ image, images !! (i - index) = Some image ∧ index ≤ i ∧
    canonical_lock_key canonicalize (si_absolute image) = Ok k.
Proof.
  revert index order. induction images as [|image images IH]; intros index order H; simpl in H.
  { simplify_eq. split; [done|]. by intros k i ?%not_elem_of_nil. }
  destruct (canonical_lock_key canonicalize (si_absolute image)) as [path|] eqn:Ek; [|done].
  destruct (keyed canonicalize (S index) images) as [order'|] eqn:Eo; simplify_eq.
  destruct (IH _ _ Eo) as [E Hin]. split; [by rewrite fmap_cons, E|].
  intros k i [[= -> ->]|Hki]%elem_of_cons.
  - exists image. rewrite Nat.sub_diag. done.
  - destruct (Hin k i Hki) as (im & Him & Hle & Hk). exists im.
    replace (i - index) with (S (i - S index)) by lia. split_and!; [done|lia|done].
Qed.

Lemma staged_order_spec images order :
  staged_order canonicalize images = Ok order →
  StronglySorted path_lt order.*1 ∧ order.*2 ≡ₚ seq 0 (length images) ∧
  ∀ k i, (k, i) ∈ order → canonical_lock_key canonicalize (si_absolute (image_at images i)) = Ok k.
Proof.
  unfold staged_order. destruct (keyed canonicalize 0 images) as [o|] eqn:Eo; [|done].
  destruct (keyed_spec _ _ _ Eo) as [E Hk].
  pose proof (StronglySorted_sort_by order_le o) as Hs.
  pose proof (sort_by_Permutation order_le o) as Hp. cbv zeta.
  destruct (duplicate_pair (sort_by order_le o)) eqn:Ed; [done|]. intros [= <-]. split_and!.
  - by apply duplicate_pair_None.
  - by rewrite Hp, E.
  - intros k i Hin. rewrite Hp in Hin. destruct (Hk k i Hin) as (im & Him & _ & Hkey).
    rewrite Nat.sub_0_r in Him. unfold image_at. by rewrite nth_lookup, Him.
Qed.

(** Distinct keys keep the targets apart where a target's path fixes its absolute path. *)
Definition targets_by_path {W Report} `{!BatchIo W Report, !QuietIo W Report} (images : list StagedImage) :
    Prop :=
  ∀ a b, a ∈ images → b ∈ images → target a = target b → si_absolute a = si_absolute b.

Lemma staged_order_apart {W Report} `{!BatchIo W Report, !QuietIo W Report} images order :
  targets_by_path images → staged_order canonicalize images = Ok order → apart images order.*2.
Proof.
  intros Ht (Hs & Hp & Hk)%staged_order_spec. apply path_lt_nodup in Hs. unfold apart.
  rewrite <-list_fmap_compose. apply NoDup_fmap_2_strong; [|by eapply NoDup_fmap_1].
  intros [k i] [k' j] Hi Hj Epl. simpl in Epl.
  assert (Hin : ∀ q n, (q, n) ∈ order → image_at images n ∈ images).
  { intros q n Hn. apply (list_elem_of_fmap_2 snd) in Hn. rewrite Hp in Hn. simpl in Hn.
    apply elem_of_seq in Hn. unfold image_at. destruct (lookup_lt_is_Some_2 images n) as [im Him]; [lia|].
    rewrite nth_lookup, Him. simpl. by eapply list_elem_of_lookup_2. }
  assert (k = k') as <-.
  { pose proof (Hk _ _ Hi) as E1. pose proof (Hk _ _ Hj) as E2.
    rewrite (Ht _ _ (Hin _ _ Hi) (Hin _ _ Hj) Epl) in E1. congruence. }
  apply (elem_of_list_to_map (M := gmap PathBuf)) in Hi, Hj; [|done..]. congruence.
Qed.
End lock_order.

Lemma commit_staged_spec {W Report} `{!BatchIo W Report, !QuietIo W Report}
    canonicalize images cancel (w : W) r w' :
  targets_by_path images → commit_staged canonicalize images cancel w = (r, w') →
  match r with
  | Ok reports =>
      reports.*1 ≡ₚ seq 0 (length images) ∧
      (∀ image, image ∈ images →
         view w (target image) = si_original image ∧
         view w' (target image) = Some (si_replacement image)) ∧
      ∀ p, p ∉ target <$> images → view w' p = view w p
  | Err a =>
      (rollback_uncertain a = false → ∀ p, view w' p = view w p) ∧
      ∀ p, view w' p ≠ view w p →
        ∃ index image, index ∈ uncertain_of a ∧ images !! index = Some image ∧ target image = p
  end.
Proof.
  intros Ht. unfold commit_staged, with_staged_locks.
  destruct (staged_order canonicalize images) as [order|a] eqn:Eo.
  2: { intros [= <- <-]. split; done. }
  pose proof (staged_order_apart _ _ _ Ht Eo) as Ha.
  destruct (staged_order_spec _ _ _ Eo) as (_ & Hp & _).
  destruct (commit_staged_locked images order cancel w) as [r0 w0] eqn:E. intros [= -> ->].
  apply commit_staged_locked_spec in E; [|done]. destruct r as [reports|a].
  - destruct E as (Er & Hall & Hrest). split_and!; [by rewrite Er| |].
    + intros image (i & Hi)%list_elem_of_lookup_1. pose proof (lookup_lt_Some _ _ _ Hi).
      destruct (Hall i) as [H1 H2]; [rewrite Hp; apply elem_of_seq; lia|].
      unfold place, original, replacement, image_at in *. rewrite nth_lookup, Hi in *. done.
    + intros p Hn. apply Hrest. intros (i & -> & Hi)%list_elem_of_fmap. rewrite Hp in Hi.
      apply elem_of_seq in Hi. destruct (lookup_lt_is_Some_2 images i) as [im Him]; [lia|].
      apply Hn. unfold place, image_at. rewrite nth_lookup, Him. simpl.
      apply list_elem_of_fmap_2. by eapply list_elem_of_lookup_2.
  - assert (Hacc : ∀ p, view w' p ≠ view w p →
      ∃ index image, index ∈ uncertain_of a ∧ images !! index = Some image ∧ target image = p).
    { intros p Hne.
      assert (Hu : accounted images w w' (uncertain_of a) ∧ uncertain_of a ⊆ order.*2).
      { destruct a; simpl in E; try done; (split; [|apply list_subseteq_nil]); intros q Hq; by destruct Hq. }
      destruct Hu as [Hu Hsub]. destruct (Hu p Hne) as (i & Hi & <-).
      apply Hsub in Hi as Hio. rewrite Hp in Hio. apply elem_of_seq in Hio.
      destruct (lookup_lt_is_Some_2 images i) as [im Him]; [lia|].
      exists i, im. split_and!; [done|done|]. unfold place, image_at. by rewrite nth_lookup, Him. }
    split; [|done]. intros Hr p.
    assert (Hnil : uncertain_of a = []) by (by destruct a as [| |? ? []|? ? ? []]).
    destruct (decide (view w' p = view w p)) as [|Hne]; [done|]. exfalso.
    destruct (Hacc p Hne) as (i & im & Hi & _). rewrite Hnil in Hi. by apply not_elem_of_nil in Hi.
Qed.

(** C12: a staged batch on files that nobody else writes.  Success means every target held
    its base image, now holds its replacement, and no other file changed.  An abort means
    that every file that differs from the start is listed as uncertain; so an abort that
    is not [rollback_uncertain] has changed nothing at all, whether the batch conflicted,
    was cancelled between two writes, failed to write or failed to attest. *)
Theorem batch_all_or_accounted {W Report} `{!BatchIo W Report, !QuietIo W Report}
    canonicalize images cancel (w : W) r w' :
  targets_by_path images → commit_staged canonicalize images cancel w = (r, w') →
  match r with
  | Ok reports =>
      reports.*1 ≡ₚ seq 0 (length images) ∧
      (∀ image, image ∈ images →
         view w (target image) = si_original image ∧
         view w' (target image) = Some (si_replacement image)) ∧
      ∀ p, p ∉ target <$> images → view w' p = view w p
  | Err a =>
      (rollback_uncertain a = false → ∀ p, view w' p = view w p) ∧
      ∀ p, view w' p ≠ view w p →
        ∃ index image, index ∈ uncertain_of a ∧ images !! index = Some image ∧ target image = p
  end.
Proof. apply commit_staged_spec. Qed.

(** ** Any implementation, whoever else writes

    The calls the commit makes, with the answers that decide, recorded beside the
    implementation's own state. *)

Inductive Call :=
| CMatch (image : StagedImage) (expected : option (list byte)) (yes : bool)
| CWrite (image : StagedImage) (bytes : list byte).

#[global] Instance logged {W Report} `{!BatchIo W Report} : BatchIo (W * list Call) Report := {
  io_matches image expected s :=
    let '(r, w) := io_matches image expected s.1 in
    (r, (w, s.2 ++ [CMatch image expected (match r with Ok true => true | _ => false end)]));
  io_write image bytes s :=
    let '(r, w) := io_write image bytes s.1 in (r, (w, s.2 ++ [CWrite image bytes]));
}.

Section trace.
Context {W Report : Type} `{!BatchIo W Report}.
Context (images : list StagedImage) (order : list (PathBuf * nat)).

(** A forward write comes after the whole batch was checked against its base images; any
    other write puts a base image back and comes directly after the target was seen to
    hold this batch's own replacement. *)
Definition justified (before : list Call) (image : StagedImage) (bytes : list byte) : Prop :=
  (bytes = si_replacement image ∧ ∀ i, i ∈ order.*2 →
     CMatch (image_at images i) (si_original (image_at images i)) true ∈ before) ∨
  (si_original image = Some bytes ∧
     last before = Some (CMatch image (Some (si_replacement image)) true)).

Definition guarded (log : list Call) : Prop :=
  ∀ before image bytes after, log = before ++ CWrite image bytes :: after →
    justified before image bytes.

Lemma guarded_snoc log c :
  guarded log → (∀ image bytes, c = CWrite image bytes → justified log image bytes) → guarded (log ++ [c]).
Proof.
  intros Hg Hc before image bytes after E.
  destruct after as [|x after] using rev_ind.
  - apply app_inj_tail in E as [-> ->]. by apply Hc.
  - clear IHafter. rewrite app_comm_cons, (assoc_L (++)) in E. apply app_inj_tail in E as [-> _]. by eapply Hg.
Qed.

Definition extends (s s' : W * list Call) : Prop := guarded s'.2 ∧ s.2 `prefix_of` s'.2.

Lemma attests_logged image expected s b s' :
  attests image expected s = (b, s') → s'.2 = s.2 ++ [CMatch image expected b].
Proof.
  unfold attests, io_matches at 1. cbn. destruct (io_matches image expected s.1) as [r w].
  by intros [= <- <-].
Qed.

Lemma write_logged image bytes s r s' :
  io_write image bytes s = (r, s') → s'.2 = s.2 ++ [CWrite image bytes].
Proof. cbn. destruct (io_write image bytes s.1) as [r0 w]. by intros [= <- <-]. Qed.

Lemma attests_extends image expected s b s' :
  guarded s.2 → attests image expected s = (b, s') → extends s s'.
Proof.
  intros Hg E%attests_logged. unfold extends. rewrite E. split; [by apply guarded_snoc|by apply prefix_app_r].
Qed.

Lemma write_extends image bytes s r s' :
  guarded s.2 → justified s.2 image bytes → io_write image bytes s = (r, s') → extends s s'.
Proof.
  intros Hg Hj E%write_logged. unfold extends. rewrite E.
  split; [apply guarded_snoc; naive_solver|by apply prefix_app_r].
Qed.

Lemma extends_trans s1 s2 s3 : extends s1 s2 → extends s2 s3 → extends s1 s3.
Proof. intros [_ P1] [G P2]. split; [done|by etrans]. Qed.

Lemma rollback_loop_extends todo restored unc s r s' :
  guarded s.2 → rollback_loop images todo restored unc s = (r, s') → extends s s'.
Proof.
  revert restored unc s. induction todo as [|i todo IH]; intros restored unc s Hg H; cbn [rollback_loop] in H.
  { simplify_eq. by split. }
  destruct (attests _ _ s) as [b0 s0] eqn:E0. apply attests_extends in E0 as X0; [|done].
  destruct b0; [eapply extends_trans; [exact X0|eapply IH; [apply X0|exact H]]|].
  destruct (attests _ _ s0) as [b1 s1] eqn:E1. apply attests_extends in E1 as X1; [|apply X0].
  assert (X01 : extends s s1) by by eapply extends_trans.
  destruct b1; cbn [negb] in H; [|eapply extends_trans; [exact X01|eapply IH; [apply X1|exact H]]].
  destruct (si_original (image_at images i)) as [o|] eqn:Eo;
    [|eapply extends_trans; [exact X01|eapply IH; [apply X1|exact H]]].
  destruct (io_write _ _ s1) as [rw s2] eqn:E2. apply write_extends in E2 as X2; [|apply X1|].
  2: { right. split; [done|]. apply attests_logged in E1. rewrite E1. apply last_snoc. }
  destruct (attests _ _ s2) as [b3 s3] eqn:E3. apply attests_extends in E3 as X3; [|apply X2].
  assert (X03 : extends s s3) by (eapply extends_trans; [exact X01|by eapply extends_trans]).
  destruct b3; (eapply extends_trans; [exact X03|eapply IH; [apply X3|exact H]]).
Qed.

Lemma write_failed_extends attempted i reason s a s' :
  guarded s.2 → write_failed images attempted i reason s = (a, s') → extends s s'.
Proof.
  intros Hg. unfold write_failed, rollback. destruct (rollback_loop _ _ _ _ s) as [[rs u] s1] eqn:E.
  intros [= <- <-]. by eapply rollback_loop_extends.
Qed.

Lemma preflight_logged todo s r s' :
  guarded s.2 → preflight images todo s = (r, s') →
  extends s s' ∧ (r = None → ∀ i, i ∈ todo.*2 →
    CMatch (image_at images i) (si_original (image_at images i)) true ∈ s'.2) ∧
  (r ≠ None → ∀ image bytes, CWrite image bytes ∈ s'.2 → CWrite image bytes ∈ s.2).
Proof.
  revert s. induction todo as [|[q i] todo IH]; intros s Hg H; cbn [preflight] in H.
  { simplify_eq. split_and!; [by split|by intros _ i ?%not_elem_of_nil|done]. }
  cbn in H. destruct (io_matches (image_at images i) (si_original (image_at images i)) s.1) as [r0 w0].
  set (s0 := (w0, _)) in H.
  assert (X0 : extends s s0).
  { split; [by apply guarded_snoc|by apply prefix_app_r]. }
  assert (Hback : ∀ image bytes, CWrite image bytes ∈ s0.2 → CWrite image bytes ∈ s.2).
  { intros image bytes Hin. simpl in Hin. apply elem_of_app in Hin as [?|?%list_elem_of_singleton]; done. }
  destruct r0 as [[]|e].
  - destruct (IH s0) as (X & Hn & Hw); [apply X0|done|]. split_and!; [by eapply extends_trans| |naive_solver].
    intros Hr j [->|Hj]%elem_of_cons; [|by apply Hn]. destruct X as [_ Hpre].
    eapply elem_of_prefix; [|exact Hpre]. simpl. apply elem_of_app. right. left.
  - simplify_eq. by split_and!.
  - simplify_eq. by split_and!.
Qed.

Definition checked (log : list Call) : Prop :=
  ∀ i, i ∈ order.*2 → CMatch (image_at images i) (si_original (image_at images i)) true ∈ log.

Lemma write_loop_extends todo cancel reports attempted s r s' :
  guarded s.2 → checked s.2 →
  write_loop images todo cancel reports attempted s = (r, s') → extends s s'.
Proof.
  revert reports attempted s. induction todo as [|[q i] todo IH]; intros reports attempted s Hg Hc H;
    cbn [write_loop] in H.
  { simplify_eq. by split. }
  destruct (match cancel with Some signal => signal s | None => false end).
  { unfold rollback in H. destruct (rollback_loop _ _ _ _ s) as [[rs u] s1] eqn:E. simplify_eq.
    by eapply rollback_loop_extends. }
  destruct (io_write _ _ s) as [rw s1] eqn:E1. apply write_extends in E1 as X1; [|done|by left].
  destruct rw as [report|reason].
  - destruct (attests _ _ s1) as [ok s2] eqn:E2. apply attests_extends in E2 as X2; [|apply X1].
    assert (X : extends s s2) by by eapply extends_trans.
    destruct ok; cbn [negb] in H.
    + eapply extends_trans; [exact X|]. eapply IH; [apply X2| |exact H].
      intros j Hj. eapply elem_of_prefix; [by apply Hc|apply X].
    + destruct (write_failed _ _ _ _ s2) as [a s3] eqn:Ef. simplify_eq.
      eapply extends_trans; [exact X|]. by eapply write_failed_extends; [apply X2|].
  - destruct (write_failed _ _ _ _ s1) as [a s2] eqn:Ef. simplify_eq.
    eapply extends_trans; [exact X1|]. by eapply write_failed_extends; [apply X1|].
Qed.

Lemma reattest_extends todo attempted s r s' :
  guarded s.2 → reattest images todo attempted s = (r, s') → extends s s'.
Proof.
  revert s. induction todo as [|[q i] todo IH]; intros s Hg H; cbn [reattest] in H.
  { simplify_eq. by split. }
  destruct (attests _ _ s) as [ok s1] eqn:E1. apply attests_extends in E1 as X1; [|done].
  destruct ok; cbn [negb] in H.
  - eapply extends_trans; [exact X1|]. eapply IH; [apply X1|exact H].
  - destruct (write_failed _ _ _ _ s1) as [a s2] eqn:Ef. simplify_eq.
    eapply extends_trans; [exact X1|]. by eapply write_failed_extends; [apply X1|].
Qed.

(** C13: the order of looks and writes in a batch, whatever the implementation answers and
    whoever else writes the files.  A replacement is written only after every target of the
    batch was seen to hold its base image, and a base image is written back only when the
    call directly before was a look that saw this batch's own replacement.  A batch that
    aborts with a conflict or an unavailable preflight has made no write call at all.  A look
    and a write are two calls: a change that another process makes between them is
    overwritten ([change_after_the_look_is_lost]). *)
Theorem batch_looks_before_writing cancel (w : W) r w' log :
  commit_staged_locked images order cancel (w, []) = (r, (w', log)) →
  (∀ before image bytes after, log = before ++ CWrite image bytes :: after →
     justified before image bytes) ∧
  ∀ a, r = Err a → (∃ i, a = Conflict i ∨ a = PreflightUnavailable i) →
    ∀ image bytes, CWrite image bytes ∉ log.
Proof.
  unfold commit_staged_locked. destruct (preflight images order (w, [])) as [r0 s0] eqn:E0.
  apply preflight_logged in E0 as (X0 & Hn & Hw); [|by intros [] ? ? ?].
  destruct r0 as [a|]; intros H.
  { simplify_eq. split; [apply X0|]. intros _ _ _ image bytes Hin.
    by apply (Hw ltac:(done)), not_elem_of_nil in Hin. }
  specialize (Hn eq_refl). destruct (write_loop _ _ _ _ _ s0) as [r1 s1] eqn:E1.
  apply write_loop_extends in E1 as X1; [|apply X0|done].
  assert (Hlate : ∀ a, (∃ i, a = Conflict i ∨ a = PreflightUnavailable i) →
    r1 ≠ Err a ∧ ∀ (s : W * list Call) att s'', reattest images order att s ≠ (Some a, s'')).
  { intros a Ha. split.
    - clear -E1 Ha. revert E1. generalize (@nil (nat * Report)) as reports, (@nil nat) as attempted.
      revert s0. induction order as [|[q i] todo IH]; intros s0 reports attempted H ->; cbn [write_loop] in H;
        [done|].
      unfold write_failed in H. repeat case_match; simplify_eq; try naive_solver.
    - clear -Ha. induction order as [|[q i] todo IH]; intros s att s'' H; cbn [reattest] in H; [done|].
      unfold write_failed in H. repeat case_match; simplify_eq; naive_solver. }
  destruct r1 as [[reports attempted]|a].
  - destruct (reattest images order attempted s1) as [r2 s2] eqn:E2.
    apply reattest_extends in E2 as X2; [|apply X1].
    destruct r2 as [a|]; simplify_eq; (split; [apply X2|]); [|done].
    intros a' [= <-] Ha. exfalso. destruct (Hlate a Ha) as [_ Hne]. by apply (Hne _ _ _ E2).
  - simplify_eq. split; [apply X1|]. intros a' [= <-] Ha. by destruct (Hlate a Ha) as [Hne _].
Qed.
End trace.

(** ** Batches do not deadlock *)

(** One batch: the keys it locks, in order, and how many it has. *)
Record LockingBatch := mkBatch { lb_keys : list PathBuf; lb_taken : nat }.

Definition holds (b : LockingBatch) (k : PathBuf) : Prop := k ∈ take (lb_taken b) (lb_keys b).
Definition wants (b : LockingBatch) (k : PathBuf) : Prop := lb_keys b !! lb_taken b = Some k.

Lemma path_lt_trans a b c : path_lt a b → path_lt b c → path_lt a c.
Proof.
  intros [H1 N1] [H2 N2]. split; [by etrans|]. intros ->. apply N1. by apply (anti_symm path_le).
Qed.

Lemma held_below_wanted b k k' :
  StronglySorted path_lt (lb_keys b) → holds b k → wants b k' → path_lt k k'.
Proof.
  unfold holds, wants. intros Hs Hk Hw. rewrite <-(take_drop_middle _ _ _ Hw) in Hs.
  apply StronglySorted_app in Hs as (H & _). apply H; [done|left].
Qed.

(** Among wanted keys there is a greatest. *)
Lemma greatest_wanted (ks : list PathBuf) :
  ks ≠ [] → ∃ k, k ∈ ks ∧ ∀ k', k' ∈ ks → path_le k' k.
Proof.
  induction ks as [|k ks IH]; [done|]. intros _. destruct ks as [|k2 ks].
  { exists k. split; [left|]. intros k' ->%list_elem_of_singleton. by destruct (total path_le k k). }
  destruct IH as (m & Hm & Hmax); [done|]. destruct (total path_le k m) as [Hle|Hle].
  - exists m. split; [by right|]. intros k' [->|?]%elem_of_cons; auto.
  - exists k. split; [left|]. intros k' [->|Hk']%elem_of_cons; [by destruct (total path_le k k)|].
    etrans; [by apply Hmax|done].
Qed.

(** C39: concurrent batches cannot deadlock.  Each takes its locks in the order that
    [staged_order] computes; so among any batches that are still taking locks, one is not
    blocked by another of them: either its next lock is free, or a batch that already has
    all its locks, and is about to release them, holds it. *)
Theorem batches_never_deadlock canonicalize (requests : list (list StagedImage)) (waiting : list LockingBatch) :
  waiting ≠ [] →
  (∀ b, b ∈ waiting → ∃ images order, images ∈ requests ∧
     staged_order canonicalize images = Ok order ∧ lb_keys b = order.*1) →
  (∀ b, b ∈ waiting → ∃ k, wants b k) →
  ∃ b k, b ∈ waiting ∧ wants b k ∧ ∀ b', b' ∈ waiting → ¬ holds b' k.
Proof.
  intros Hne Hord Hw.
  assert (Hs : ∀ b, b ∈ waiting → StronglySorted path_lt (lb_keys b)).
  { intros b (images & order & _ & Ho & ->)%Hord. by apply staged_order_spec in Ho as [? _]. }
  set (ks := omap (λ b, lb_keys b !! lb_taken b) waiting).
  assert (Hks : ∀ k, k ∈ ks ↔ ∃ b, b ∈ waiting ∧ wants b k) by (intros k; apply list_elem_of_omap).
  destruct (greatest_wanted ks) as (k & Hk & Hmax).
  { destruct waiting as [|b l]; [done|]. destruct (Hw b) as [k Hk]; [left|]. intros Hnil.
    assert (k ∈ ks) as Hin by (apply Hks; exists b; split; [left|done]).
    rewrite Hnil in Hin. by apply not_elem_of_nil in Hin. }
  apply Hks in Hk as (b & Hb & Hbk). exists b, k. split_and!; [done|done|].
  intros b' Hb' Hh. destruct (Hw b' Hb') as [k' Hk'].
  destruct (held_below_wanted b' k k' (Hs b' Hb') Hh Hk') as [Hle Hneq]. apply Hneq.
  apply (anti_symm path_le); [done|]. apply Hmax, Hks. by exists b'.
Qed.

(** ** An implementation: files in a map, and a bound on successful writes *)

Record MapWorld := mkWorld { mw_files : gmap PathBuf (list byte); mw_writes : nat }.

#[global] Instance map_io : BatchIo MapWorld unit := {
  io_matches image expected w :=
    (Ok (bool_decide (mw_files w !! si_absolute image = expected)), w);
  io_write image bytes w :=
    match mw_writes w with
    | 0 => (Err "disk full"%string, w)
    | S n => (Ok tt, mkWorld (<[si_absolute image := bytes]> (mw_files w)) n)
    end;
}.

#[global] Program Instance map_io_quiet : QuietIo MapWorld unit := {
  view w p := mw_files w !! p;
  target := si_absolute;
}.
Next Obligation.
  intros image expected w r w' [= <- <-]. split; [done|]. intros b [= <-]. apply bool_decide_eq_true.
Qed.
Next Obligation.
  intros image bytes w r w' H. cbn in H. destruct (mw_writes w); simplify_eq/=; [done|]. split.
  - intros p Hp. by apply lookup_insert_ne.
  - intros report _. apply lookup_insert_eq.
Qed.

Definition demo_images : list StagedImage :=
  [mkImage ["b"] ["r"; "b"] (Some [x31]) [x32; x32] false;
   mkImage ["a"] ["r"; "a"] (Some [x33]) [x34] false]%string.
Definition demo_disk : gmap PathBuf (list byte) :=
  {[ ["r"; "a"] := [x33]; ["r"; "b"] := [x31]; ["r"; "c"] := [x35] ]}%string.
Definition plain_path (p : PathBuf) : CanonicalizeResult := Canonical p.

(** ** Another process between a look and a write

    The files, and what other processes write after each call of the batch. *)

Record SharedWorld := mkShared { sw_files : gmap PathBuf (list byte); sw_foreign : list (gmap PathBuf (list byte)) }.

Definition foreign_turn (w : SharedWorld) : SharedWorld :=
  match sw_foreign w with
  | [] => w
  | change :: rest => mkShared (change ∪ sw_files w) rest
  end.

#[global] Instance shared_io : BatchIo SharedWorld unit := {
  io_matches image expected w :=
    (Ok (bool_decide (sw_files w !! si_absolute image = expected)), foreign_turn w);
  io_write image bytes w :=
    (Ok tt, foreign_turn (mkShared (<[si_absolute image := bytes]> (sw_files w)) (sw_foreign w)));
}.

(** The comment at the call says that the rollback never overwrites an unexpected third
    image.  It does when another process writes between the look and the write: here the
    write of [r/b] is rolled back because its bytes were not seen, the rollback looks at
    [r/a], another process writes it, and its bytes are lost; the abort reports no
    uncertainty about it.  Forward, a change after the preflight is lost in the same way,
    and the batch succeeds. *)
Theorem change_after_the_look_is_lost :
  let third := {[ ["r"; "a"]%string := [x39] ]} in
  let broken := {[ ["r"; "b"]%string := [x38] ]} in
  let run foreign := commit_staged plain_path demo_images None (mkShared demo_disk foreign) in
  ((run [∅; third]).1 = Ok [(1, tt); (0, tt)] ∧ sw_files (run [∅; third]).2 !! ["r"; "a"]%string = Some [x34]) ∧
  ((run [∅; ∅; ∅; ∅; broken; ∅; ∅; ∅; ∅; third]).1 = Err (WriteFailed 0 "post_image_unverified" 1 [0]) ∧
   sw_files (run [∅; ∅; ∅; ∅; broken; ∅; ∅; ∅; ∅; third]).2 !! ["r"; "a"]%string = Some [x33]).
Proof. vm_compute. split; split; reflexivity. Qed.

(** ** Witnesses *)

Lemma demo_targets : targets_by_path demo_images.
Proof. by intros a b _ _ ?. Qed.

(** The second write fails; the first, of [r/a], is rolled back with the last write the
    disk takes, and then cannot be: the abort says which. *)
Lemma batch_all_or_accounted_witness :
  let run n := commit_staged plain_path demo_images None (mkWorld demo_disk n) in
  (run 5).1 = Ok [(1, tt); (0, tt)] ∧
  (run 1).1 = Err (WriteFailed 0 "disk full" 0 [1]) ∧
  (∀ p, view (run 0).2 p = view (mkWorld demo_disk 0) p).
Proof.
  split; [vm_compute; reflexivity|]. split; [vm_compute; reflexivity|].
  apply (batch_all_or_accounted plain_path demo_images None (mkWorld demo_disk 0)
    (Err (WriteFailed 1 "disk full" 0 [])) (mkWorld demo_disk 0) demo_targets); [|reflexivity].
  vm_compute. reflexivity.
Defined.

Definition demo_lock_order : list (PathBuf * nat) := [(["r"; "a"], 1); (["r"; "b"], 0)]%string.

Lemma batch_looks_before_writing_witness :
  ∃ r w' log, commit_staged_locked demo_images demo_lock_order None (mkWorld demo_disk 1, []) = (r, (w', log)) ∧
    (∃ before image bytes after, log = before ++ CWrite image bytes :: after) ∧
    ∀ before image bytes after, log = before ++ CWrite image bytes :: after →
      justified demo_images demo_lock_order before image bytes.
Proof.
  destruct (commit_staged_locked demo_images demo_lock_order None (mkWorld demo_disk 1, [])) as [r [w' log]] eqn:E.
  exists r, w', log. split; [done|]. split.
  - apply (f_equal (λ x, x.2.2)) in E. simpl in E. rewrite <-E.
    exists [CMatch (image_at demo_images 1) (Some [x33]) true; CMatch (image_at demo_images 0) (Some [x31]) true].
    eexists _, _, _. vm_compute. reflexivity.
  - apply (batch_looks_before_writing demo_images demo_lock_order None (mkWorld demo_disk 1) r w' log E).
Defined.

Lemma batches_never_deadlock_witness :
  let batch n := mkBatch [["r"; "a"]; ["r"; "b"]]%string n in
  ∃ b k, b ∈ [batch 0; batch 1] ∧ wants b k ∧ ∀ b', b' ∈ [batch 0; batch 1] → ¬ holds b' k.
Proof.
  apply (batches_never_deadlock plain_path [demo_images]); [done| |].
  - intros b Hb. exists demo_images, demo_lock_order. split_and!; [left|vm_compute; reflexivity|].
    by apply elem_of_cons in Hb as [->| ->%list_elem_of_singleton].
  - intros b Hb. apply elem_of_cons in Hb as [->|Hb].
    + by eexists.
    + apply list_elem_of_singleton in Hb as ->. by eexists.
Defined.
