(* ===== verification/Governor.v ===== *)
(** * The request governor (sidecar/governor.rs)

    Every tool call goes through one future: it registers, waits for as many semaphore
    permits as its weight costs, waits for the write gate (exclusively for a heavy tool,
    shared otherwise), executes, and cleans up.  The state below is the governor's shared
    state and, per future, how far it has come; an event is one step of one future between
    two of its suspension points, so a list of events is an interleaving.  A waiting
    future may time out at any moment: time itself is not modelled, and neither are the
    timestamps that only [snapshot] shows.

    The semaphore and the read-write lock are tokio's: a permit is granted only when
    enough are free, a writer enters an empty gate and a reader one without a writer.  In
    which order waiters are served is left open.  A future that is dropped releases its
    permit and its guard ([Drop] of the guards) and runs nothing more; work it handed to
    [spawn_blocking] goes on, and [g_orphans] records that.

    Theorems: a heavy tool executes alone, up to blocking work of dropped calls; permits are conserved and bound the executing
    requests; every submission is accounted for; the table of active requests is exact as
    long as no future is dropped, and what a dropped future leaves behind. *)

From Stdlib Require Import Lia.
From stdpp Require Import base gmap sets list strings numbers option.
From S2P Require Import Prelude.

#[global] Set Default Goal Selector "!".
#[local] Open Scope N_scope.

(** ** Weights *)

Inductive RequestPhase := Queued | Executing.

Inductive ToolWeight := Light | Medium | Heavy.

#[global] Instance RequestPhase_eq_dec : EqDecision RequestPhase.
Proof. solve_decision. Defined.
#[global] Instance ToolWeight_eq_dec : EqDecision ToolWeight.
Proof. solve_decision. Defined.

Definition permits (w : ToolWeight) : N :=
  match w with Light => 1 | Medium => 2 | Heavy => 3 end.

Definition needs_write_gate (w : ToolWeight) : bool :=
  match w with Heavy => true | _ => false end.

Definition heavy_tools : list string :=
  ["index_folder"; "batch_edit"; "batch_rename"; "batch_insert"; "replace_symbol_body";
   "edit_within_symbol"; "insert_symbol"; "delete_symbol"]%string.
Definition medium_tools : list string := ["analyze_file_impact"; "sidecar/impact"]%string.

(** The sidecar endpoints that the code lists as [Light] fall under the default too. *)
Definition classify_tool (tool_name : string) : ToolWeight :=
  if decide (tool_name ∈ heavy_tools) then Heavy
  else if decide (tool_name ∈ medium_tools) then Medium
  else Light.

Definition DEFAULT_MAX_CONCURRENCY : N := 16.

(** ** State *)

Record RequestEntry := mkEntry { e_tool : string; e_weight : ToolWeight; e_phase : RequestPhase }.

(** Where a future is suspended: waiting for permits, waiting for the gate, executing, or
    past the gate with its result decided but not yet cleaned up. *)
Inductive Pc := AwaitPermits | AwaitGate | Running | GateDropped (timed_out : bool).

#[global] Instance Pc_eq_dec : EqDecision Pc.
Proof. solve_decision. Defined.

Record Request := mkRequest { rq_weight : ToolWeight; rq_abortable : bool; rq_pc : Pc }.

Record GovernorStats := mkStats {
  total_submitted : N;
  total_completed : N;
  total_timed_out : N;
  total_queue_rejected : N;
  peak_in_flight : N;
}.

Record Governor := mkGovernor {
  g_max : N;
  g_available : N;
  g_readers : gset N;
  g_writer : option N;
  g_next_id : N;
  g_active : gmap N RequestEntry;
  g_stats : GovernorStats;
  g_requests : gmap N Request;
  g_slots : N;
  g_orphans : gset N;
}.

Definition with_config (max_concurrency : N) : Governor :=
  mkGovernor max_concurrency max_concurrency ∅ None 1 ∅ (mkStats 0 0 0 0 0) ∅ 0 ∅.

Definition governor_new : Governor := with_config DEFAULT_MAX_CONCURRENCY.

(** ** Updates of single fields *)

Definition set_requests (f : gmap N Request → gmap N Request) (g : Governor) : Governor :=
  mkGovernor (g_max g) (g_available g) (g_readers g) (g_writer g) (g_next_id g) (g_active g)
    (g_stats g) (f (g_requests g)) (g_slots g) (g_orphans g).
Definition set_available (f : N → N) (g : Governor) : Governor :=
  mkGovernor (g_max g) (f (g_available g)) (g_readers g) (g_writer g) (g_next_id g) (g_active g)
    (g_stats g) (g_requests g) (g_slots g) (g_orphans g).
Definition set_gate (r : gset N) (w : option N) (g : Governor) : Governor :=
  mkGovernor (g_max g) (g_available g) r w (g_next_id g) (g_active g)
    (g_stats g) (g_requests g) (g_slots g) (g_orphans g).
Definition set_stats (f : GovernorStats → GovernorStats) (g : Governor) : Governor :=
  mkGovernor (g_max g) (g_available g) (g_readers g) (g_writer g) (g_next_id g) (g_active g)
    (f (g_stats g)) (g_requests g) (g_slots g) (g_orphans g).
Definition set_active (f : gmap N RequestEntry → gmap N RequestEntry) (g : Governor) : Governor :=
  mkGovernor (g_max g) (g_available g) (g_readers g) (g_writer g) (g_next_id g) (f (g_active g))
    (g_stats g) (g_requests g) (g_slots g) (g_orphans g).
Definition set_slots (f : N → N) (g : Governor) : Governor :=
  mkGovernor (g_max g) (g_available g) (g_readers g) (g_writer g) (g_next_id g) (g_active g)
    (g_stats g) (g_requests g) (f (g_slots g)) (g_orphans g).
Definition set_orphans (f : gset N → gset N) (g : Governor) : Governor :=
  mkGovernor (g_max g) (g_available g) (g_readers g) (g_writer g) (g_next_id g) (g_active g)
    (g_stats g) (g_requests g) (g_slots g) (f (g_orphans g)).

Definition add_submitted (s : GovernorStats) : GovernorStats :=
  mkStats (u64_add (total_submitted s) 1) (total_completed s) (total_timed_out s)
    (total_queue_rejected s) (peak_in_flight s).
Definition add_completed (s : GovernorStats) : GovernorStats :=
  mkStats (total_submitted s) (u64_add (total_completed s) 1) (total_timed_out s)
    (total_queue_rejected s) (peak_in_flight s).
Definition add_timed_out (s : GovernorStats) : GovernorStats :=
  mkStats (total_submitted s) (total_completed s) (u64_add (total_timed_out s) 1)
    (total_queue_rejected s) (peak_in_flight s).
Definition add_rejected (s : GovernorStats) : GovernorStats :=
  mkStats (total_submitted s) (total_completed s) (total_timed_out s)
    (u64_add (total_queue_rejected s) 1) (peak_in_flight s).
Definition max_peak (n : N) (s : GovernorStats) : GovernorStats :=
  mkStats (total_submitted s) (total_completed s) (total_timed_out s)
    (total_queue_rejected s) (N.max (peak_in_flight s) n).

(** ** The steps of [execute] and [execute_non_abortable] *)

Definition remove_request (id : N) (g : Governor) : Governor := set_active (delete id) g.

(** Steps 1: the id, the submission count, the entry in the table. *)
Definition submit (tool_name : string) (abortable : bool) (g : Governor) : Governor :=
  let weight := classify_tool tool_name in
  let req_id := g_next_id g in
  mkGovernor (g_max g) (g_available g) (g_readers g) (g_writer g) (u64_add req_id 1)
    (<[req_id := mkEntry tool_name weight Queued]> (g_active g)) (add_submitted (g_stats g))
    (<[req_id := mkRequest weight abortable AwaitPermits]> (g_requests g)) (g_slots g) (g_orphans g).

Definition advance (id : N) (pc : Pc) (g : Governor) : Governor :=
  set_requests (alter (λ r, mkRequest (rq_weight r) (rq_abortable r) pc) id) g.

(** Step 2: [semaphore.acquire_many(permits_needed)]. *)
Definition acquire_permits (id : N) (g : Governor) : option Governor :=
  r ← g_requests g !! id;
  match rq_pc r with
  | AwaitPermits =>
      if permits (rq_weight r) <=? g_available g then
        Some (advance id AwaitGate (set_available (λ a, a - permits (rq_weight r)) g))
      else None
  | _ => None
  end.

Definition queue_timeout (id : N) (g : Governor) : option Governor :=
  r ← g_requests g !! id;
  match rq_pc r with
  | AwaitPermits => Some (set_stats add_rejected (set_requests (delete id) (remove_request id g)))
  | _ => None
  end.

Definition executing_count (active : gmap N RequestEntry) : N :=
  map_sum (λ _ e, if decide (e_phase e = Executing) then 1 else 0) active.

Definition transition_to_executing (id : N) (g : Governor) : Governor :=
  let active := alter (λ e, mkEntry (e_tool e) (e_weight e) Executing) id (g_active g) in
  set_stats (max_peak (executing_count active)) (set_active (λ _, active) g).

(** Step 3: [write_gate.write()] or [write_gate.read()], then the transition. *)
Definition enter_gate (id : N) (g : Governor) : option Governor :=
  r ← g_requests g !! id;
  match rq_pc r with
  | AwaitGate =>
      if needs_write_gate (rq_weight r) then
        if decide (g_readers g = ∅ ∧ g_writer g = None) then
          Some (transition_to_executing id (advance id Running (set_gate ∅ (Some id) g)))
        else None
      else
        if decide (g_writer g = None) then
          Some (transition_to_executing id (advance id Running (set_gate ({[id]} ∪ g_readers g) None g)))
        else None
  | _ => None
  end.

(** [drop(permit)]. *)
Definition release_permits (w : ToolWeight) (g : Governor) : Governor :=
  set_available (λ a, a + permits w) g.

Definition gate_timeout (id : N) (g : Governor) : option Governor :=
  r ← g_requests g !! id;
  match rq_pc r with
  | AwaitGate =>
      Some (set_stats add_rejected
        (set_requests (delete id) (release_permits (rq_weight r) (remove_request id g))))
  | _ => None
  end.

(** [drop(gate)]. *)
Definition release_gate (id : N) (w : ToolWeight) (g : Governor) : Governor :=
  if needs_write_gate w then set_gate (g_readers g) None g
  else set_gate (g_readers g ∖ {[id]}) (g_writer g) g.

(** Step 4 ends: the work is done, or, for [execute] only, its timeout elapsed. *)
Definition leave_gate (id : N) (timed_out : bool) (g : Governor) : option Governor :=
  r ← g_requests g !! id;
  match rq_pc r with
  | Running =>
      if timed_out && negb (rq_abortable r) then None
      else Some (advance id (GateDropped timed_out) (release_gate id (rq_weight r) g))
  | _ => None
  end.

(** Step 5: remove the entry, drop the permit, count the outcome. *)
Definition clean_up (id : N) (g : Governor) : option Governor :=
  r ← g_requests g !! id;
  match rq_pc r with
  | GateDropped timed_out =>
      Some (set_stats (if timed_out then add_timed_out else add_completed)
        (set_requests (delete id) (release_permits (rq_weight r) (remove_request id g))))
  | _ => None
  end.

(** The future is dropped where it is suspended.  Only the guards clean up. *)
Definition drop_future (id : N) (g : Governor) : option Governor :=
  r ← g_requests g !! id;
  let g := set_requests (delete id) g in
  match rq_pc r with
  | AwaitPermits => Some g
  | AwaitGate => Some (release_permits (rq_weight r) g)
  | Running =>
      let g := if rq_abortable r then g else set_orphans (λ o, {[id]} ∪ o) g in
      Some (release_permits (rq_weight r) (release_gate id (rq_weight r) g))
  | GateDropped _ => None
  end.

(** ** The slots of the HTTP boundary ([acquire_request_slot]) *)

Definition slot_acquired (g : Governor) : option Governor :=
  if 1 <=? g_available g then
    Some (set_slots (λ n, n + 1) (set_available (λ a, a - 1) (set_stats add_submitted g)))
  else None.

Definition slot_rejected (g : Governor) : Governor :=
  set_stats add_rejected (set_stats add_submitted g).

Definition slot_dropped (g : Governor) : option Governor :=
  if 1 <=? g_slots g then Some (set_slots (λ n, n - 1) (set_available (λ a, a + 1) g)) else None.

(** ** Runs *)

Inductive GovEvent :=
| EvSubmit (tool : string) (abortable : bool)
| EvPermits (id : N)
| EvQueueTimeout (id : N)
| EvGate (id : N)
| EvGateTimeout (id : N)
| EvLeave (id : N) (timed_out : bool)
| EvCleanUp (id : N)
| EvDrop (id : N)
| EvSlot
| EvSlotRejected
| EvSlotDropped.

Definition gov_step (ev : GovEvent) (g : Governor) : option Governor :=
  match ev with
  | EvSubmit tool abortable => Some (submit tool abortable g)
  | EvPermits id => acquire_permits id g
  | EvQueueTimeout id => queue_timeout id g
  | EvGate id => enter_gate id g
  | EvGateTimeout id => gate_timeout id g
  | EvLeave id timed_out => leave_gate id timed_out g
  | EvCleanUp id => clean_up id g
  | EvDrop id => drop_future id g
  | EvSlot => slot_acquired g
  | EvSlotRejected => Some (slot_rejected g)
  | EvSlotDropped => slot_dropped g
  end.

Fixpoint gov_run (evs : list GovEvent) (g : Governor) : option Governor :=
  match evs with
  | [] => Some g
  | ev :: evs => g' ← gov_step ev g; gov_run evs g'
  end.

(** ** Invariants *)

Definition past_semaphore (pc : Pc) : bool := match pc with AwaitPermits => false | _ => true end.
Definition past_gate (pc : Pc) : bool :=
  match pc with Running | GateDropped _ => true | _ => false end.

Definition held_by (r : Request) : N := if past_semaphore (rq_pc r) then permits (rq_weight r) else 0.
Definition held (m : gmap N Request) : N := map_sum (λ _ r, held_by r) m.

Definition is_drop (ev : GovEvent) : bool :=
  match ev with EvDrop _ => true | _ => false end.
Definition is_slot_drop (ev : GovEvent) : bool :=
  match ev with EvSlotDropped => true | _ => false end.
Definition count_events (f : GovEvent → bool) (evs : list GovEvent) : N :=
  N.of_nat (length (filter (λ ev, f ev = true) evs)).

(** Split a step into the cases in which it is enabled. *)
Ltac step_cases H :=
  unfold gov_step, acquire_permits, queue_timeout, enter_gate, gate_timeout, leave_gate, clean_up,
    drop_future, slot_acquired, slot_rejected, slot_dropped in H;
  repeat (match type of H with
          | context [?m !! ?k ≫= _] => destruct (m !! k) as [[?w ?ab ?pc]|] eqn:?; simpl in H; [|done]
          | context [match ?x with _ => _ end] => destruct x eqn:?; simpl in H; try done
          | context [if ?x then _ else _] => destruct x eqn:?; simpl in H; try done
          end);
  simplify_eq.

(** Permits are neither made nor lost. *)
Definition permits_inv (g : Governor) : Prop :=
  g_available g + held (g_requests g) + g_slots g = g_max g.

Lemma held_alter m id r f :
  m !! id = Some r → held (alter f id m) + held_by r = held m + held_by (f r).
Proof. intros Hr. rewrite (alter_present f m id r Hr). apply (map_sum_update _ _ _ _ _ Hr). Qed.

Lemma held_delete m id r : m !! id = Some r → held m = held_by r + held (delete id m).
Proof. apply map_sum_delete. Qed.

Ltac held_lia :=
  repeat match goal with
  | Hb : (_ <=? _) = true |- _ => apply N.leb_le in Hb
  end;
  try match goal with
  | Hl : ?m !! ?id = Some ?r |- context [held (alter ?f ?id ?m)] =>
      pose proof (held_alter m id r f Hl)
  | Hl : ?m !! ?id = Some ?r |- context [held (delete ?id ?m)] =>
      pose proof (held_delete m id r Hl)
  end;
  unfold held_by in *; simpl in *; lia.

Lemma permits_step ev g g' :
  (∀ id, is_Some (g_requests g !! id) → id < g_next_id g) →
  permits_inv g → gov_step ev g = Some g' → permits_inv g' ∧ g_max g' = g_max g.
Proof.
  unfold permits_inv. intros Hid Hp H. destruct ev as [tool ab| | | | | | | | | |]; simpl in H.
  { simplify_eq. simpl. split; [|done]. unfold held. rewrite map_sum_insert; [done|].
    destruct (g_requests g !! g_next_id g) eqn:E; [|done].
    specialize (Hid (g_next_id g) ltac:(by rewrite E)). lia. }
  all: step_cases H; unfold release_gate; repeat case_match; simpl; (split; [held_lia|done]).
Qed.

(** ** The write gate *)

Definition runs (heavy : bool) (o : option Request) : bool :=
  match o with
  | Some (mkRequest w _ Running) => eqb (needs_write_gate w) heavy
  | _ => false
  end.

Record gate_inv (g : Governor) : Prop := {
  gi_readers : ∀ id, id ∈ g_readers g ↔ runs false (g_requests g !! id) = true;
  gi_writer : ∀ id, g_writer g = Some id ↔ runs true (g_requests g !! id) = true;
  gi_alone : g_writer g = None ∨ g_readers g = ∅;
}.

Lemma gate_frame g g' :
  gate_inv g → g_readers g' = g_readers g → g_writer g' = g_writer g →
  (∀ b id, runs b (g_requests g' !! id) = runs b (g_requests g !! id)) → gate_inv g'.
Proof. intros [H1 H2 H3] Er Ew Hr. constructor; rewrite ?Er, ?Ew; [intros; by rewrite Hr..|done]. Qed.

Lemma runs_alter b id id' pc (m : gmap N Request) r :
  m !! id = Some r →
  runs b (alter (λ r, mkRequest (rq_weight r) (rq_abortable r) pc) id m !! id') =
    if decide (id' = id) then runs b (Some (mkRequest (rq_weight r) (rq_abortable r) pc)) else runs b (m !! id').
Proof.
  intros Hr. case_decide as E; [subst id'; by rewrite lookup_alter_eq, Hr|by rewrite lookup_alter_ne].
Qed.

Lemma runs_delete b id id' (m : gmap N Request) :
  runs b (delete id m !! id') = if decide (id' = id) then false else runs b (m !! id').
Proof. case_decide as E; [subst id'; by rewrite lookup_delete_eq|by rewrite lookup_delete_ne]. Qed.

(** Away from [Running] a request may move or leave without the gate noticing. *)
Lemma gate_frame_quiet g g' id r o :
  gate_inv g → g_requests g !! id = Some r → rq_pc r ≠ Running →
  (∀ r', o = Some r' → rq_pc r' ≠ Running) →
  g_readers g' = g_readers g → g_writer g' = g_writer g →
  g_requests g' = partial_alter (λ _, o) id (g_requests g) → gate_inv g'.
Proof.
  intros Hg Hr Hpc Ho Er Ew Em. apply (gate_frame g); [done..|]. intros b id'. rewrite Em.
  destruct (decide (id' = id)) as [->|]; [|by rewrite lookup_partial_alter_ne].
  rewrite lookup_partial_alter_eq, Hr. destruct r as [w ab pc]. simpl in Hpc.
  destruct o as [[w' ab' pc']|]; [specialize (Ho _ eq_refl); simpl in Ho|]; by destruct pc; try destruct pc'.
Qed.

Lemma alter_partial (m : gmap N Request) id r f :
  m !! id = Some r → alter f id m = partial_alter (λ _, Some (f r)) id m.
Proof. intros Hr. unfold alter, map_alter. apply partial_alter_ext. intros ? <-. by rewrite Hr. Qed.

Lemma gate_enter g id w ab m' :
  gate_inv g → g_requests g !! id = Some (mkRequest w ab AwaitGate) →
  m' = alter (λ r, mkRequest (rq_weight r) (rq_abortable r) Running) id (g_requests g) →
  (needs_write_gate w = true → g_readers g = ∅ ∧ g_writer g = None) →
  (needs_write_gate w = false → g_writer g = None) →
  ∀ g', g_requests g' = m' →
  g_readers g' = (if needs_write_gate w then ∅ else {[id]} ∪ g_readers g) →
  g_writer g' = (if needs_write_gate w then Some id else None) → gate_inv g'.
Proof.
  intros [H1 H2 H3] Hr -> Hh Hl g' Em Er Ew.
  assert (Hruns : ∀ b id', runs b (g_requests g' !! id') =
    if decide (id' = id) then eqb (needs_write_gate w) b else runs b (g_requests g !! id')).
  { intros b id'. rewrite Em, (runs_alter _ _ _ _ _ _ Hr). done. }
  destruct (needs_write_gate w) eqn:Ew'.
  - destruct Hh as [Hr0 Hw0]; [done|]. constructor; rewrite ?Er, ?Ew; [| |by right].
    + intros id'. rewrite Hruns. case_decide; [set_solver|]. rewrite <-H1, Hr0. done.
    + intros id'. rewrite Hruns. case_decide as E; [subst; naive_solver|]. rewrite <-H2, Hw0. naive_solver.
  - specialize (Hl eq_refl). constructor; rewrite ?Er, ?Ew; [| |by left].
    + intros id'. rewrite Hruns. case_decide as E; [set_solver|]. rewrite <-H1. set_solver.
    + intros id'. rewrite Hruns. case_decide as E; [subst; naive_solver|]. rewrite <-H2, Hl. done.
Qed.

Lemma gate_leave g id w ab g' :
  gate_inv g → g_requests g !! id = Some (mkRequest w ab Running) →
  (∀ b id', runs b (g_requests g' !! id') = if decide (id' = id) then false else runs b (g_requests g !! id')) →
  g_readers g' = (if needs_write_gate w then g_readers g else g_readers g ∖ {[id]}) →
  g_writer g' = (if needs_write_gate w then None else g_writer g) → gate_inv g'.
Proof.
  intros [H1 H2 H3] Hr Hruns Er Ew. destruct (needs_write_gate w) eqn:Ew'.
  - assert (Hid : g_writer g = Some id) by (apply H2; rewrite Hr; simpl; by rewrite Ew').
    assert (Hr0 : g_readers g = ∅) by (destruct H3; [congruence|done]).
    constructor; rewrite ?Er, ?Ew; [| |by left].
    + intros id'. rewrite Hruns, Hr0. case_decide; [set_solver|]. rewrite <-H1, Hr0. done.
    + intros id'. rewrite Hruns. case_decide; [done|]. rewrite <-H2, Hid. naive_solver.
  - assert (Hw0 : g_writer g = None).
    { destruct H3 as [?|Hr0]; [done|]. assert (id ∈ g_readers g) by (apply H1; rewrite Hr; simpl; by rewrite Ew').
      set_solver. }
    constructor; rewrite ?Er, ?Ew; [| |by left].
    + intros id'. rewrite Hruns. case_decide; [set_solver|]. rewrite <-H1. set_solver.
    + intros id'. rewrite Hruns. case_decide; [by rewrite Hw0|]. apply H2.
Qed.

Lemma gate_step ev g g' :
  (∀ id, is_Some (g_requests g !! id) → id < g_next_id g) →
  gate_inv g → gov_step ev g = Some g' → gate_inv g'.
Proof.
  intros Hid Hg H. destruct ev as [tool ab| | | | | | | | | |]; simpl in H.
  { simplify_eq. apply (gate_frame g); [done..|]. intros b id. simpl.
    destruct (decide (id = g_next_id g)) as [->|]; [|by rewrite lookup_insert_ne].
    rewrite lookup_insert_eq. destruct (g_requests g !! g_next_id g) eqn:E; [|done].
    specialize (Hid (g_next_id g) ltac:(by rewrite E)). lia. }
  all: step_cases H.
  all: try (by apply (gate_frame g)).
  all: try (eapply (gate_frame_quiet g _ id); [done|done|done| |done|done|done]; by intros ? [=]).
  all: try (eapply (gate_frame_quiet g _ id); [done|done|done| |done|done|by apply alter_partial];
    by intros ? [= <-]).
  1,2: eapply (gate_enter g id); [done|done|done| | |done| |]; simpl; by rewrite ?Heqb.
  - eapply (gate_leave g id); [done|done|..].
    + intros b id'. unfold release_gate. case_match; simpl; erewrite runs_alter by done; done.
    + unfold release_gate. by case_match.
    + unfold release_gate. by case_match.
  - eapply (gate_leave g id); [done|done|..].
    + intros b id'. unfold release_gate. destruct (needs_write_gate w); simpl; apply runs_delete.
    + unfold release_gate. by repeat case_match.
    + unfold release_gate. by repeat case_match.
  - eapply (gate_leave g id); [done|done|..].
    + intros b id'. unfold release_gate. destruct (needs_write_gate w); simpl; apply runs_delete.
    + unfold release_gate. by repeat case_match.
    + unfold release_gate. by repeat case_match.
Qed.

(** ** The table of active requests *)

Record table_inv (g : Governor) : Prop := {
  ti_next : ∀ id, is_Some (g_requests g !! id) ∨ is_Some (g_active g !! id) → id < g_next_id g;
  ti_entry : ∀ id r, g_requests g !! id = Some r →
    ∃ e, g_active g !! id = Some e ∧ e_weight e = rq_weight r ∧
         (e_phase e = Executing ↔ past_gate (rq_pc r) = true);
}.

(** Removing a request together with its entry. *)
Lemma table_remove g g' id :
  table_inv g → g_next_id g' = g_next_id g → g_requests g' = delete id (g_requests g) →
  g_active g' = delete id (g_active g) ∨ g_active g' = g_active g → table_inv g'.
Proof.
  intros [H1 H2] En Er Ea. constructor; rewrite ?En, ?Er.
  - intros j Hj. apply H1. destruct Hj as [[r [_ ?]%lookup_delete_Some]|Hj]; [left; by eexists|right].
    destruct Ea as [Ea|Ea]; rewrite Ea in Hj; [|done]. destruct Hj as [e [_ ?]%lookup_delete_Some]. by eexists.
  - intros j r [Hne Hr]%lookup_delete_Some. destruct (H2 j r Hr) as (e & ? & ?). exists e.
    destruct Ea as [-> | ->]; [|done]. by rewrite lookup_delete_ne.
Qed.

(** Moving a request on, with the phase of its entry. *)
Lemma table_advance g g' id r pc (fe : RequestEntry → RequestEntry) :
  table_inv g → g_requests g !! id = Some r → g_next_id g' = g_next_id g →
  g_requests g' = alter (λ r, mkRequest (rq_weight r) (rq_abortable r) pc) id (g_requests g) →
  g_active g' = alter fe id (g_active g) →
  (∀ e, e_weight (fe e) = e_weight e) →
  (∀ e, (e_phase e = Executing ↔ past_gate (rq_pc r) = true) →
     (e_phase (fe e) = Executing ↔ past_gate pc = true)) → table_inv g'.
Proof.
  intros [H1 H2] Hr En Er Ea Hw Hp. constructor; rewrite ?En, ?Er, ?Ea.
  - intros j Hj. apply H1. destruct (decide (j = id)) as [->|Hne]; [left; by eexists|].
    by rewrite !lookup_alter_ne in Hj.
  - intros j r'. destruct (decide (j = id)) as [->|Hne].
    + rewrite !lookup_alter_eq, Hr. intros [= <-]. destruct (H2 id r Hr) as (e & -> & He & Hx).
      exists (fe e). split_and!; [done|by rewrite Hw|by apply Hp].
    + rewrite !lookup_alter_ne by done. apply H2.
Qed.

Lemma alter_same (m : gmap N RequestEntry) i : alter (λ e, e) i m = m.
Proof.
  apply map_eq. intros j. destruct (decide (j = i)) as [->|]; [|by rewrite lookup_alter_ne].
  rewrite lookup_alter_eq. by destruct (m !! i).
Qed.

Lemma table_step ev g g' :
  g_next_id g + 1 < u64_modulus → table_inv g → gov_step ev g = Some g' →
  table_inv g' ∧ g_next_id g ≤ g_next_id g' ≤ g_next_id g + 1.
Proof.
  intros Hb Ht H. destruct ev as [tool ab| | | | | | | | | |]; simpl in H.
  { simplify_eq. simpl. rewrite u64_add_small by lia. split; [|lia]. destruct Ht as [H1 H2].
    constructor; simpl; rewrite ?u64_add_small by lia.
    - intros j. rewrite !lookup_insert_is_Some'. intros Hj.
      enough (j = g_next_id g ∨ j < g_next_id g) by lia. specialize (H1 j). naive_solver.
    - intros j r. destruct (decide (j = g_next_id g)) as [->|Hne].
      + rewrite !lookup_insert_eq. intros [= <-]. eexists. split; [done|]. done.
      + rewrite !lookup_insert_ne by done. apply H2. }
  all: step_cases H; (split; [|unfold release_gate; repeat case_match; simpl; lia]).
  all: try (eapply (table_remove g _ id); [done| | | ]; unfold release_gate; repeat case_match; simpl; auto; fail).
  all: try (by destruct Ht; constructor).
  - eapply (table_advance g _ id _ AwaitGate (λ e, e)); [done|done|done|done| |done|done].
    simpl. by rewrite alter_same.
  - eapply (table_advance g _ id _ Running); [done|done|done|done|done|done|done].
  - eapply (table_advance g _ id _ Running); [done|done|done|done|done|done|done].
  - eapply (table_advance g _ id _ (GateDropped timed_out) (λ e, e)); [done|done| | | |done|done];
      unfold release_gate; case_match; simpl; by rewrite ?alter_same.
Qed.

(** While no future was dropped, the table holds nothing else, and the peak is bounded. *)
Record exact_inv (g : Governor) : Prop := {
  xi_only : ∀ id, is_Some (g_active g !! id) → is_Some (g_requests g !! id);
  xi_peak : peak_in_flight (g_stats g) ≤ g_max g;
  xi_orphans : g_orphans g = ∅;
}.

Lemma executing_within g :
  permits_inv g → table_inv g → (∀ id, is_Some (g_active g !! id) → is_Some (g_requests g !! id)) →
  executing_count (g_active g) ≤ g_max g.
Proof.
  intros Hp Ht Ho. unfold permits_inv in Hp.
  enough (executing_count (g_active g) ≤ held (g_requests g)) by lia.
  apply map_sum_le_entries. intros id e He. case_decide as Hx; [|lia].
  destruct (Ho id) as [r Hr]; [by eexists|]. rewrite Hr.
  destruct (ti_entry _ Ht id r Hr) as (e' & He' & _ & Hpg). simplify_eq.
  apply Hpg in Hx. unfold held_by. destruct r as [w ab pc]. simpl in *.
  destruct pc; simpl in *; try done; destruct w; simpl; lia.
Qed.

Lemma exact_remove g g' id :
  exact_inv g → g_active g' = delete id (g_active g) → g_requests g' = delete id (g_requests g) →
  peak_in_flight (g_stats g') = peak_in_flight (g_stats g) → g_max g' = g_max g →
  g_orphans g' = g_orphans g → exact_inv g'.
Proof.
  intros [H1 H2 H3] Ea Er Ep Em Eo. constructor; rewrite ?Ea, ?Er, ?Ep, ?Em, ?Eo; [|done|done].
  intros j [e [Hne He]%lookup_delete_Some]. rewrite lookup_delete_ne by done. apply H1. by eexists.
Qed.

Lemma alter_is_Some {A} (m : gmap N A) f i j : is_Some (alter f i m !! j) ↔ is_Some (m !! j).
Proof.
  destruct (decide (j = i)) as [->|]; [|by rewrite lookup_alter_ne].
  rewrite lookup_alter_eq. apply fmap_is_Some.
Qed.

Lemma exact_step ev g g' :
  permits_inv g' → table_inv g' → is_drop ev = false → exact_inv g → gov_step ev g = Some g' →
  exact_inv g'.
Proof.
  intros Hp' Ht' Hd Hx H. pose proof Hx as [H1 H2 H3].
  destruct ev as [tool ab| | | | | | | | | |]; simpl in H; try discriminate Hd.
  { simplify_eq. constructor; simpl; [|done|done]. intros j. rewrite !lookup_insert_is_Some'.
    specialize (H1 j). naive_solver. }
  all: step_cases H.
  all: try (by apply (exact_remove g _ id)).
  all: try (by constructor).
  - constructor; simpl; [|done|done]. intros j. rewrite alter_is_Some. apply H1.
  - assert (Ho : ∀ j, is_Some (g_active (transition_to_executing id (advance id Running (set_gate ∅ (Some id) g))) !! j)
      → is_Some (g_requests (transition_to_executing id (advance id Running (set_gate ∅ (Some id) g))) !! j)).
    { intros j. simpl. rewrite !alter_is_Some. apply H1. }
    constructor; [done| |done]. pose proof (executing_within _ Hp' Ht' Ho) as Hc. simpl in *. lia.
  - set (g1 := transition_to_executing _ _) in *.
    assert (Ho : ∀ j, is_Some (g_active g1 !! j) → is_Some (g_requests g1 !! j)).
    { intros j. simpl. rewrite !alter_is_Some. apply H1. }
    constructor; [done| |done]. pose proof (executing_within _ Hp' Ht' Ho) as Hc. simpl in *. lia.
  - unfold release_gate. case_match; (constructor; simpl; [|done|done]); intros j; rewrite alter_is_Some; apply H1.
Qed.

(** ** Accounting *)

Definition stats_inv (evs : list GovEvent) (g : Governor) : Prop :=
  let s := g_stats g in
  total_submitted s = total_completed s + total_timed_out s + total_queue_rejected s
    + N.of_nat (size (g_requests g)) + g_slots g
    + count_events is_drop evs + count_events is_slot_drop evs ∧
  total_submitted s ≤ N.of_nat (length evs).

Lemma count_events_snoc f evs ev :
  count_events f (evs ++ [ev]) = count_events f evs + (if f ev then 1 else 0).
Proof.
  unfold count_events. rewrite list.filter_app, length_app, filter_cons, filter_nil.
  destruct (f ev); simpl; lia.
Qed.

Lemma size_delete_present (m : gmap N Request) id r :
  m !! id = Some r → (N.of_nat (size m) = N.of_nat (size (delete id m)) + 1)%N.
Proof.
  intros Hr. rewrite map_size_delete_Some by (by eexists). 
  assert (size m ≠ 0%nat) by (apply map_size_non_empty_iff; intros ->; by rewrite lookup_empty in Hr). lia.
Qed.

Lemma size_alter (m : gmap N Request) id f : size (alter f id m) = size m.
Proof.
  rewrite <-!size_dom. f_equal. apply dom_alter_L.
Qed.

Lemma stats_step evs ev g g' :
  N.of_nat (length evs) + 1 < u64_modulus → table_inv g →
  stats_inv evs g → gov_step ev g = Some g' → stats_inv (evs ++ [ev]) g'.
Proof.
  unfold stats_inv. rewrite !count_events_snoc, length_app. cbn [length]. intros Hb Ht [Hs Hle] H.
  destruct ev as [tool ab| | | | | | | | | |]; simpl in H.
  { simplify_eq. simpl. rewrite u64_add_small by lia. rewrite map_size_insert_None; [lia|].
    destruct (g_requests g !! g_next_id g) eqn:E; [|done].
    pose proof (ti_next _ Ht (g_next_id g) ltac:(left; by rewrite E)). lia. }
  all: step_cases H; unfold release_gate; repeat case_match; simpl in *.
  all: repeat match goal with
    | Hb : (_ <=? _) = true |- _ => apply N.leb_le in Hb
    | Hl : ?m !! ?i = Some ?r |- context [size (delete ?i ?m)] =>
        pose proof (size_delete_present m i r Hl); clear Hl
    end; rewrite ?size_alter, ?u64_add_small by lia; lia.
Qed.

(** ** Every run *)

Lemma gov_run_snoc evs ev g : gov_run (evs ++ [ev]) g = gov_run evs g ≫= gov_step ev.
Proof.
  revert g. induction evs as [|e evs IH]; intros g; simpl.
  { destruct (gov_step ev g); done. }
  destruct (gov_step e g); simpl; [apply IH|done].
Qed.

Record gov_inv (max : N) (evs : list GovEvent) (g : Governor) : Prop := {
  inv_max : g_max g = max;
  inv_permits : permits_inv g;
  inv_gate : gate_inv g;
  inv_table : table_inv g;
  inv_next : g_next_id g ≤ N.of_nat (length evs) + 1;
  inv_stats : stats_inv evs g;
  inv_exact : forallb (λ ev, negb (is_drop ev)) evs = true → exact_inv g;
}.

Lemma gov_inv_initial max : gov_inv max [] (with_config max).
Proof.
  constructor; try done.
  - unfold permits_inv. simpl. unfold held. rewrite map_sum_empty. lia.
  - constructor; simpl; [| |by left]; intros id; rewrite lookup_empty; set_solver.
  - constructor; simpl.
    + intros id [[? H]|[? H]]; by rewrite lookup_empty in H.
    + intros id r H. by rewrite lookup_empty in H.
  - intros _. constructor; simpl; [|lia|done]. intros id [? H]. by rewrite lookup_empty in H.
Qed.

Lemma gov_inv_step max evs ev g g' :
  N.of_nat (length evs) + 2 < u64_modulus →
  gov_inv max evs g → gov_step ev g = Some g' → gov_inv max (evs ++ [ev]) g'.
Proof.
  intros Hb [Hm Hp Hg Ht Hn Hs Hx] H.
  assert (Hid : ∀ id, is_Some (g_requests g !! id) → id < g_next_id g)
    by (intros id ?; apply (ti_next _ Ht); by left).
  destruct (permits_step ev g g' Hid Hp H) as [Hp' Hm'].
  destruct (table_step ev g g') as [Ht' Hn']; [lia|done|done|].
  constructor; [congruence|done|by eapply gate_step|done|rewrite length_app; simpl; lia| |].
  - apply (stats_step evs ev g); [lia|done|done|done].
  - rewrite forallb_app. intros [Hd He]%andb_true_iff. simpl in He. rewrite andb_true_r in He.
    apply (exact_step ev g); [done|done|by apply negb_true_iff|by apply Hx|done].
Qed.

Lemma gov_run_inv max evs g :
  N.of_nat (length evs) + 1 < u64_modulus →
  gov_run evs (with_config max) = Some g → gov_inv max evs g.
Proof.
  revert g. induction evs as [|ev evs IH] using rev_ind; intros g Hb H.
  { simpl in H. simplify_eq. apply gov_inv_initial. }
  rewrite length_app in Hb. simpl in Hb. rewrite gov_run_snoc in H.
  destruct (gov_run evs (with_config max)) as [g0|]; [|done]. simpl in H.
  apply (gov_inv_step max evs ev g0); [lia|apply IH; [lia|done]|done].
Qed.

Definition running (g : Governor) (id : N) (w : ToolWeight) : Prop :=
  ∃ ab, g_requests g !! id = Some (mkRequest w ab Running).

Lemma gate_alone max evs g id w id' w' :
  N.of_nat (length evs) + 1 < u64_modulus → gov_run evs (with_config max) = Some g →
  running g id w → needs_write_gate w = true → running g id' w' → id' = id.
Proof.
  intros Hb Hrun [ab Hr] Hw [ab' Hr']. apply gov_run_inv in Hrun as [_ _ [H1 H2 H3] _ _ _ _]; [|done].
  assert (Hid : g_writer g = Some id) by (apply H2; rewrite Hr; simpl; by rewrite Hw).
  destruct (needs_write_gate w') eqn:Hw'.
  - assert (g_writer g = Some id') by (apply H2; rewrite Hr'; simpl; by rewrite Hw'). congruence.
  - assert (id' ∈ g_readers g) by (apply H1; rewrite Hr'; simpl; by rewrite Hw').
    destruct H3; [congruence|set_solver].
Qed.

(** A piece of work goes on: its future runs, or it is blocking work ([spawn_blocking]) that
    outlives its future. *)
Definition at_work (g : Governor) (id : N) : Prop := (∃ w, running g id w) ∨ id ∈ g_orphans g.

Lemma orphans_step ev g g' id :
  gov_step ev g = Some g' → id ∈ g_orphans g' → id ∈ g_orphans g ∨ ev = EvDrop id.
Proof.
  intros H Hin. destruct ev as [tool ab| | | | | | | | | |]; simpl in H; [simplify_eq; by left|..];
    step_cases H; unfold release_gate, release_permits in Hin; repeat case_match; simpl in Hin;
    try (by left); apply elem_of_union in Hin as [->%elem_of_singleton|?]; auto.
Qed.

(** Work outlives its future only when the future was dropped. *)
Lemma orphans_dropped max evs g id :
  gov_run evs (with_config max) = Some g → id ∈ g_orphans g → EvDrop id ∈ evs.
Proof.
  revert g. induction evs as [|ev evs IH] using rev_ind; intros g H Hin.
  { simpl in H. simplify_eq. by apply elem_of_empty in Hin. }
  rewrite gov_run_snoc in H. destruct (gov_run evs (with_config max)) as [g0|]; [|done]. simpl in H.
  apply elem_of_app. destruct (orphans_step _ _ _ _ H Hin) as [Ho| ->]; [left; by eapply IH|right; left].
Qed.


(** Permits are conserved: what is free, what the requests past the semaphore hold and
    the slots handed out at the HTTP boundary always add up to the configured maximum.
    So the weights of the executing requests never exceed it, and when every future is
    gone and every slot returned, every permit is free again - dropped and timed-out
    futures included. *)
Theorem governor_permits_conserved max evs g :
  N.of_nat (length evs) + 1 < u64_modulus → gov_run evs (with_config max) = Some g →
  g_available g + held (g_requests g) + g_slots g = max ∧
  map_sum (λ _ r, if decide (rq_pc r = Running) then permits (rq_weight r) else 0) (g_requests g) ≤ max ∧
  (g_requests g = ∅ → g_slots g = 0 → g_available g = max).
Proof.
  intros Hb Hrun. apply gov_run_inv in Hrun as [Hm Hp _ _ _ _ _]; [|done].
  unfold permits_inv in Hp. rewrite Hm in Hp. split_and!; [done| |].
  - enough (map_sum (λ _ r, if decide (rq_pc r = Running) then permits (rq_weight r) else 0) (g_requests g)
      ≤ held (g_requests g)) by lia.
    apply map_sum_mono. intros id r _. unfold held_by. case_decide as E; [by rewrite E|lia].
  - intros He Hz. rewrite He, Hz in Hp. unfold held in Hp. rewrite map_sum_empty in Hp. lia.
Qed.

(** Every submission is accounted for: it completed, timed out or was rejected, is
    still a future or an open slot, or its future or slot was dropped.  The counters
    never drift. *)
Theorem governor_accounts_submissions max evs g :
  N.of_nat (length evs) + 1 < u64_modulus → gov_run evs (with_config max) = Some g →
  let s := g_stats g in
  total_submitted s = total_completed s + total_timed_out s + total_queue_rejected s
    + N.of_nat (size (g_requests g)) + g_slots g
    + count_events is_drop evs + count_events is_slot_drop evs.
Proof. intros Hb Hrun. apply gov_run_inv in Hrun as [_ _ _ _ _ [Hs _] _]; done. Qed.

(** As long as no future is dropped, the table that [snapshot] shows is exact: it
    lists the requests in flight and no others, each with its weight, as executing
    exactly from the gate until it is cleaned up; and the reported peak never exceeds
    the configured concurrency. *)
Theorem governor_table_exact max evs g :
  N.of_nat (length evs) + 1 < u64_modulus → gov_run evs (with_config max) = Some g →
  forallb (λ ev, negb (is_drop ev)) evs = true →
  (∀ id, is_Some (g_active g !! id) ↔ is_Some (g_requests g !! id)) ∧
  (∀ id r, g_requests g !! id = Some r → ∃ e, g_active g !! id = Some e ∧
     e_weight e = rq_weight r ∧ (e_phase e = Executing ↔ past_gate (rq_pc r) = true)) ∧
  peak_in_flight (g_stats g) ≤ max ∧ g_orphans g = ∅.
Proof.
  intros Hb Hrun Hd. apply gov_run_inv in Hrun as [Hm _ _ [_ Ht] _ _ Hx]; [|done].
  destruct (Hx Hd) as [Ho Hpk Horph]. rewrite Hm in Hpk. split_and!; [|done|done|done].
  intros id. split; [apply Ho|]. intros [r Hr]. destruct (Ht id r Hr) as (e & He & _). by exists e.
Qed.

(** ** What a dropped future leaves behind *)

Definition left_behind (g : Governor) (id : N) : Prop :=
  is_Some (g_active g !! id) ∧ g_requests g !! id = None ∧ id < g_next_id g.

Lemma left_behind_step ev g g' id :
  table_inv g → g_next_id g + 1 < u64_modulus → left_behind g id → gov_step ev g = Some g' → left_behind g' id.
Proof.
  intros Ht Hb (Ha & Hr & Hn) H. pose proof (table_step ev g g' Hb Ht H) as [_ Hn'].
  assert (Hother : ∀ j r, g_requests g !! j = Some r → id ≠ j) by (intros j r Hj ->; congruence).
  unfold left_behind. split_and!; [| |lia].
  - destruct ev as [tool ab| | | | | | | | | |]; simpl in H.
    { simplify_eq. simpl. apply lookup_insert_is_Some'. by right. }
    all: step_cases H; unfold release_gate; repeat case_match; simpl in *;
      rewrite ?alter_is_Some, ?lookup_delete_ne by (intros ->; congruence); done.
  - destruct ev as [tool ab| | | | | | | | | |]; simpl in H.
    { simplify_eq. simpl. rewrite lookup_insert_ne; [done|lia]. }
    all: step_cases H; unfold release_gate; repeat case_match; simpl in *;
      rewrite ?lookup_alter_ne, ?lookup_delete_ne by (intros ->; congruence); done.
Qed.

(** A dropped future is never cleaned up: from the moment a caller drops it - before,
    while or after waiting for the gate - its entry stays in the table of active requests
    for the life of the governor, although the request is gone and its permits are
    free. *)
Theorem dropped_request_stays_active max pre id post g :
  N.of_nat (length (pre ++ EvDrop id :: post)) + 1 < u64_modulus →
  gov_run (pre ++ EvDrop id :: post) (with_config max) = Some g →
  is_Some (g_active g !! id) ∧ g_requests g !! id = None.
Proof.
  intros Hb Hrun. enough (left_behind g id) as (? & ? & _) by done. revert g Hb Hrun.
  induction post as [|ev post IH] using rev_ind; intros g Hb Hrun.
  - rewrite gov_run_snoc in Hrun. rewrite length_app in Hb. simpl in Hb.
    destruct (gov_run pre (with_config max)) as [g0|] eqn:E; [|done]. simpl in Hrun.
    apply gov_run_inv in E as [_ _ _ Ht _ _ _]; [|lia]. unfold drop_future in Hrun.
    destruct (g_requests g0 !! id) as [[w ab pc]|] eqn:Er; [|done]. simpl in Hrun.
    destruct (ti_entry _ Ht _ _ Er) as (e & He & _). pose proof (ti_next _ Ht id ltac:(left; by eexists)).
    destruct pc; simplify_eq; unfold left_behind, release_gate; repeat case_match; simpl;
      rewrite lookup_delete_eq; (split_and!; [by eexists|done|done]).
  - rewrite app_comm_cons, (assoc_L (++)) in Hb, Hrun. rewrite gov_run_snoc in Hrun.
    rewrite length_app in Hb. simpl in Hb.
    destruct (gov_run (pre ++ EvDrop id :: post) (with_config max)) as [g0|] eqn:E; [|done]. simpl in Hrun.
    assert (Hinv := E). apply gov_run_inv in Hinv as [_ _ _ Ht Hn _ _]; [|lia].
    apply (left_behind_step ev g0); [done|lia|by apply IH; [lia|]|done].
Qed.

(** The comment on [execute_non_abortable] says that permits and the gate are kept while
    blocking work runs.  That holds for timeouts; a caller that drops the future releases
    both while the blocking work goes on: here a heavy tool still runs as an orphan and a
    reader executes beside it, and the table calls the gone request executing. *)
Definition orphan_run : list GovEvent :=
  [EvSubmit "batch_edit" false; EvPermits 1; EvGate 1; EvDrop 1;
   EvSubmit "get_symbol" false; EvPermits 2; EvGate 2].

Theorem dropped_heavy_work_overlaps :
  ∃ g, gov_run orphan_run governor_new = Some g ∧ 1 ∈ g_orphans g ∧ running g 2 Light ∧
    g_active g !! 1 = Some (mkEntry "batch_edit" Heavy Executing).
Proof.
  destruct (gov_run orphan_run governor_new) as [g|] eqn:E; [|vm_compute in E; discriminate E].
  exists g. assert (Hg : g = default governor_new (gov_run orphan_run governor_new)) by by rewrite E.
  split; [done|]. rewrite Hg. split_and!.
  - apply (bool_decide_unpack _). vm_compute. exact I.
  - exists false. vm_compute. reflexivity.
  - vm_compute. reflexivity.
Qed.

(** ** Witnesses *)

Definition quiet_run : list GovEvent :=
  [EvSubmit "search_text" true; EvSubmit "batch_rename" false; EvPermits 1; EvPermits 2; EvGate 1;
   EvSlot; EvLeave 1 false; EvGate 2].
Definition quiet_governor : Governor := default governor_new (gov_run quiet_run governor_new).

Lemma quiet_run_ends : gov_run quiet_run (with_config 16) = Some quiet_governor.
Proof. vm_compute. reflexivity. Qed.


Lemma governor_permits_conserved_witness :
  g_available quiet_governor = 11 ∧ g_available quiet_governor + held (g_requests quiet_governor) + g_slots quiet_governor = 16.
Proof.
  split; [vm_compute; reflexivity|].
  apply (governor_permits_conserved 16 quiet_run quiet_governor); [reflexivity|apply quiet_run_ends].
Defined.

Lemma governor_accounts_submissions_witness :
  let s := g_stats quiet_governor in
  total_submitted s = 3 ∧
  total_submitted s = total_completed s + total_timed_out s + total_queue_rejected s
    + N.of_nat (size (g_requests quiet_governor)) + g_slots quiet_governor
    + count_events is_drop quiet_run + count_events is_slot_drop quiet_run.
Proof.
  split; [vm_compute; reflexivity|].
  apply (governor_accounts_submissions 16 quiet_run quiet_governor); [reflexivity|apply quiet_run_ends].
Defined.

Lemma governor_table_exact_witness :
  is_Some (g_active quiet_governor !! 1) ∧ peak_in_flight (g_stats quiet_governor) ≤ 16.
Proof.
  destruct (governor_table_exact 16 quiet_run quiet_governor ltac:(reflexivity) quiet_run_ends
    ltac:(vm_compute; reflexivity)) as (H & _ & Hp & _).
  split; [|exact Hp]. apply H. vm_compute. eexists. reflexivity.
Defined.

Lemma dropped_request_stays_active_witness :
  ∃ g, gov_run orphan_run (with_config 16) = Some g ∧ is_Some (g_active g !! 1).
Proof.
  destruct (gov_run orphan_run (with_config 16)) as [g|] eqn:E; [|vm_compute in E; discriminate E].
  exists g. split; [reflexivity|].
  apply (dropped_request_stays_active 16 [EvSubmit "batch_edit" false; EvPermits 1; EvGate 1] 1
    [EvSubmit "get_symbol" false; EvPermits 2; EvGate 2] g); [reflexivity|exact E].
Defined.
