(* ===== verification/CanonicalJson.v ===== *)
(** * Canonical JSON requests (idempotency.rs, request hashing)

    A request is hashed over its canonical form: objects with their members in byte order
    of the keys, at every depth.  Two requests have the same canonical form exactly when
    they differ only in the order of object members ([canonical_iff_same]), and the framed
    bytes that are hashed determine the tool name and the canonical form
    ([request_frame_separates]): a replay can serve another request's answer only through
    a collision of the digest.

    [Value] is serde_json's; an object is its members in insertion order with unique keys.
    Its serialiser is a parameter. *)

From Stdlib Require Import Lia Strings.Byte.
From stdpp Require Import base gmap sets list strings numbers option sorting.
From S2P Require Import Prelude Slices.

#[global] Set Default Goal Selector "!".

Inductive Value :=
| JNull
| JBool (b : bool)
| JNumber (text : string)
| JString (s : string)
| JArray (items : list Value)
| JObject (members : list (string * Value)).

(** [Map::get]. *)
Fixpoint get {A} (key : string) (members : list (string * A)) : option A :=
  match members with
  | [] => None
  | (k, v) :: rest => if decide (k = key) then Some v else get key rest
  end.

Definition sort_keys (keys : list string) : list string := merge_sort String.le keys.

(** The loop over the sorted keys: a member that [get] finds is inserted. *)
Definition sorted_members {A} (members : list (string * A)) : list (string * A) :=
  omap (λ key, (λ v, (key, v)) <$> get key members) (sort_keys members.*1).

Fixpoint canonicalize_value (v : Value) : Value :=
  match v with
  | JArray items => JArray (map canonicalize_value items)
  | JObject members =>
      JObject (sorted_members (map (λ '(k, x), (k, canonicalize_value x)) members))
  | other => other
  end.

(** ** Induction over nested values *)

Section value_ind.
Context (P : Value → Prop).
Context (Hnull : P JNull) (Hbool : ∀ b, P (JBool b)) (Hnumber : ∀ n, P (JNumber n))
  (Hstring : ∀ s, P (JString s)) (Harray : ∀ items, Forall P items → P (JArray items))
  (Hobject : ∀ members, Forall (λ m, P m.2) members → P (JObject members)).

Fixpoint Value_nested_ind (v : Value) : P v :=
  match v with
  | JNull => Hnull
  | JBool b => Hbool b
  | JNumber n => Hnumber n
  | JString s => Hstring s
  | JArray items =>
      Harray items
        ((fix go l : Forall P l :=
            match l with
            | [] => Forall_nil_2 _
            | x :: l => Forall_cons_2 _ x l (Value_nested_ind x) (go l)
            end) items)
  | JObject members =>
      Hobject members
        ((fix go l : Forall (λ m, P m.2) l :=
            match l with
            | [] => Forall_nil_2 _
            | m :: l => Forall_cons_2 _ m l (Value_nested_ind m.2) (go l)
            end) members)
  end.
End value_ind.

(** ** Values up to the order of members *)

(** A value the parser can produce: no object names a key twice. *)
Inductive well_formed : Value → Prop :=
| wf_null : well_formed JNull
| wf_bool b : well_formed (JBool b)
| wf_number n : well_formed (JNumber n)
| wf_string s : well_formed (JString s)
| wf_array items : Forall well_formed items → well_formed (JArray items)
| wf_object members :
    NoDup members.*1 → Forall (λ m, well_formed m.2) members → well_formed (JObject members).

Inductive same : Value → Value → Prop :=
| same_refl v : same v v
| same_array xs ys : Forall2 same xs ys → same (JArray xs) (JArray ys)
| same_object ms ms' ns :
    ms ≡ₚ ms' → Forall2 (λ m n, m.1 = n.1 ∧ same m.2 n.2) ms' ns → same (JObject ms) (JObject ns).

(** ** Members *)

Lemma get_Some {A} (members : list (string * A)) k v :
  NoDup members.*1 → get k members = Some v ↔ (k, v) ∈ members.
Proof.
  induction members as [|[k' v'] members IH]; intros Hnd; simpl.
  { split; [done|by intros ?%not_elem_of_nil]. }
  simpl in Hnd. apply NoDup_cons in Hnd as [Hk Hnd]. rewrite elem_of_cons. case_decide as E.
  - subst k'. split; [naive_solver|]. intros [[= ->]|Hin]; [done|].
    destruct Hk. by apply (list_elem_of_fmap_2 fst) in Hin.
  - rewrite IH by done. naive_solver.
Qed.

Lemma get_permutation {A} (ms ns : list (string * A)) k :
  NoDup ms.*1 → ms ≡ₚ ns → get k ms = get k ns.
Proof.
  intros Hnd Hp. assert (Hnd' : NoDup ns.*1) by by rewrite <-Hp.
  apply option_eq. intros v. by rewrite !get_Some, Hp.
Qed.

Lemma sort_keys_permutation ks ks' : ks ≡ₚ ks' → sort_keys ks = sort_keys ks'.
Proof.
  intros Hp. unfold sort_keys. apply (StronglySorted_unique String.le).
  - apply (StronglySorted_merge_sort _).
  - apply (StronglySorted_merge_sort _).
  - by rewrite !merge_sort_Permutation.
Qed.

Lemma omap_ext_all {A B} (f g : A → option B) (l : list A) :
  (∀ x, f x = g x) → omap f l = omap g l.
Proof.
  intros H. induction l as [|x l IH]; [done|]. change (omap f (x :: l))
    with (match f x with Some y => y :: omap f l | None => omap f l end).
  rewrite H, IH. done.
Qed.

Lemma sorted_members_permutation {A} (ms ns : list (string * A)) :
  NoDup ms.*1 → ms ≡ₚ ns → sorted_members ms = sorted_members ns.
Proof.
  intros Hnd Hp. unfold sorted_members. rewrite (sort_keys_permutation ms.*1 ns.*1) by by rewrite Hp.
  apply omap_ext_all. intros k. by rewrite (get_permutation ms ns k Hnd Hp).
Qed.

(** Sorting keeps the members. *)
Lemma omap_get {A} (ms : list (string * A)) :
  NoDup ms.*1 → omap (λ key, (λ v, (key, v)) <$> get key ms) ms.*1 = ms.
Proof.
  intros Hnd.
  assert (H : ∀ ks, (∀ m, m ∈ ks → m ∈ ms) → omap (λ key, (λ v, (key, v)) <$> get key ms) ks.*1 = ks).
  { induction ks as [|[k v] ks IH]; intros Hin; [done|]. rewrite fmap_cons. simpl.
    rewrite (proj2 (get_Some ms k v Hnd)) by (apply Hin; left). simpl. f_equal. apply IH.
    intros m Hm. apply Hin. by right. }
  apply H. done.
Qed.

Lemma sorted_members_perm {A} (ms : list (string * A)) : NoDup ms.*1 → sorted_members ms ≡ₚ ms.
Proof.
  intros Hnd. rewrite <-(omap_get ms Hnd) at 2. unfold sorted_members, sort_keys.
  by rewrite merge_sort_Permutation.
Qed.

Lemma sorted_members_idemp {A} (ms : list (string * A)) :
  NoDup ms.*1 → sorted_members (sorted_members ms) = sorted_members ms.
Proof.
  intros Hnd. pose proof (sorted_members_perm ms Hnd) as Hp.
  apply sorted_members_permutation; [by rewrite Hp|done].
Qed.

Definition canon_member (m : string * Value) : string * Value := (m.1, canonicalize_value m.2).

Lemma canonicalize_object ms :
  canonicalize_value (JObject ms) = JObject (sorted_members (map canon_member ms)).
Proof. simpl. do 2 f_equal. apply map_ext. by intros [k x]. Qed.

Lemma canon_member_keys ms : (map canon_member ms).*1 = ms.*1.
Proof. induction ms as [|[k x] ms IH]; [done|]. simpl. by f_equal. Qed.

Lemma well_formed_object ms :
  well_formed (JObject ms) ↔ NoDup ms.*1 ∧ Forall (λ m, well_formed m.2) ms.
Proof. split; [inversion 1; auto|intros []; by constructor]. Qed.

Lemma well_formed_array xs : well_formed (JArray xs) ↔ Forall well_formed xs.
Proof. split; [by inversion 1|by constructor]. Qed.

(** Reordering members does not change the canonical form. *)
Lemma same_canonical v w : same v w → well_formed v → canonicalize_value v = canonicalize_value w.
Proof.
  revert w. induction v as [| | | |items IH|ms IH] using Value_nested_ind; intros w Hs Hwf;
    inversion Hs as [|xs ys HF|ms0 ms' ns Hp HF]; subst; try done.
  - apply well_formed_array in Hwf. simpl. f_equal. clear Hs.
    revert IH Hwf. induction HF as [|x y xs ys Hxy _ IHF]; [done|].
    intros [Hx IH]%Forall_cons [Hwx Hwf]%Forall_cons. simpl. f_equal; [by apply Hx|by apply IHF].
  - apply well_formed_object in Hwf as [Hnd Hwf]. rewrite !canonicalize_object. f_equal.
    assert (E : map canon_member ms' = map canon_member ns).
    { rewrite Hp in IH, Hwf. clear -IH Hwf HF. revert IH Hwf.
      induction HF as [|m n ms' ns [Hk Hmn] _ IHF]; [done|].
      intros [Hx IH]%Forall_cons [Hwx Hwf]%Forall_cons. simpl. f_equal; [|by apply IHF].
      unfold canon_member. rewrite Hk. f_equal. by apply Hx. }
    rewrite <-E. apply sorted_members_permutation; [by rewrite canon_member_keys|by rewrite Hp].
Qed.

Lemma sorted_members_inj {A} (ms ns : list (string * A)) :
  NoDup ms.*1 → NoDup ns.*1 → sorted_members ms = sorted_members ns → ms ≡ₚ ns.
Proof.
  intros Hm Hn E. rewrite <-(sorted_members_perm ms Hm), <-(sorted_members_perm ns Hn). by rewrite E.
Qed.

(** The canonical form determines the value up to that order. *)
Lemma canonical_same v w :
  well_formed v → well_formed w → canonicalize_value v = canonicalize_value w → same v w.
Proof.
  revert w. induction v as [| | | |items IH|ms IH] using Value_nested_ind; intros w Hv Hw E.
  1-4: destruct w; simpl in E; simplify_eq; constructor.
  - destruct w as [| | | |ys|]; simpl in E; try done. injection E as E.
    apply well_formed_array in Hv, Hw. constructor.
    revert ys Hw E. induction IH as [|x xs Hx _ IHF]; intros [|y ys] Hw E; try discriminate E; [constructor|].
    simpl in E. injection E as Exy E. apply Forall_cons in Hv as [Hvx Hv], Hw as [Hwy Hw].
    constructor; [by apply Hx|by apply IHF].
  - destruct w as [| | | | |ns]; try (rewrite canonicalize_object in E; discriminate E).
    rewrite !canonicalize_object in E. injection E as E.
    apply well_formed_object in Hv as [Hnd Hv], Hw as [Hnd' Hw].
    apply sorted_members_inj in E; [|by rewrite canon_member_keys..].
    symmetry in E. apply Permutation_map_inv in E as (ms' & E & Hp).
    apply (same_object _ ms'); [done|]. rewrite Hp in IH, Hv. clear -IH Hv Hw E.
    revert ns Hw E. induction IH as [|m ms' Hm _ IHF]; intros [|n ns] Hw E; try discriminate E; [constructor|].
    simpl in E. injection E as Ek Ev E. apply Forall_cons in Hv as [Hvx Hv], Hw as [Hwy Hw].
    constructor; [|by apply IHF]. split; [done|]. by apply Hm.
Qed.

(** C34: two requests have the same canonical form exactly when they differ only in the
    order of object members, at whatever depth: a retry that a client serialises in
    another order is recognised, and no two different requests are ever confused before
    hashing. *)
Theorem canonical_iff_same v w :
  well_formed v → well_formed w →
  canonicalize_value v = canonicalize_value w ↔ same v w.
Proof. intros Hv Hw. split; [by apply canonical_same|]. intros. by apply same_canonical. Qed.

(** ** The hashed frame ([RequestHash::for_tool_request]) *)

Section frame.
(** [serde_json::to_vec]. *)
Context (to_vec : Value → list byte).

Definition REQUEST_HASH_FRAME_PREFIX : list byte :=
  String.list_byte_of_string "symforge-idempotency-request-v1" ++ [x00].

Definition canonical_json_bytes (value : Value) : list byte := to_vec (canonicalize_value value).

Definition request_frame (tool_name : string) (request : Value) : list byte :=
  REQUEST_HASH_FRAME_PREFIX ++ String.list_byte_of_string tool_name ++ [x00]
    ++ canonical_json_bytes request.

(** JSON text escapes control characters, and is read back to the value it came from. *)
Context (to_vec_no_nul : ∀ v, x00 ∉ to_vec v) (to_vec_inj : Inj (=) (=) to_vec).

(** Splitting at the last separator. *)
Lemma split_last_nul (a b c d : list byte) :
  x00 ∉ b → x00 ∉ d → a ++ x00 :: b = c ++ x00 :: d → a = c ∧ b = d.
Proof.
  intros Hb Hd E. apply (f_equal reverse) in E. rewrite !reverse_app, !reverse_cons, <-!(assoc_L (++)) in E.
  simpl in E.
  assert (H : ∀ l m x y : list byte, x00 ∉ l → x00 ∉ m → l ++ x00 :: x = m ++ x00 :: y → l = m ∧ x = y).
  { induction l as [|p l IH]; intros [|q m] x y Hl Hm Eq; simplify_eq/=; [done|set_solver|set_solver|].
    destruct (IH m x y) as [-> ->]; [set_solver|set_solver|done|done]. }
  apply H in E as [E1 E2]; [|by rewrite elem_of_reverse..].
  apply (inj reverse) in E1, E2. done.
Qed.

Lemma list_byte_of_string_inj s t : String.list_byte_of_string s = String.list_byte_of_string t → s = t.
Proof.
  intros E. apply (f_equal String.string_of_list_byte) in E.
  by rewrite !String.string_of_list_byte_of_string in E.
Qed.

(** The bytes that are hashed for a tool request determine the tool and the request:
    equal frames mean the same tool name, even one with a NUL byte in it, and requests
    that differ only in member order.  So equal request hashes of different requests
    would be a collision of the digest. *)
Theorem request_frame_separates tool tool' v w :
  well_formed v → well_formed w →
  request_frame tool v = request_frame tool' w ↔ tool = tool' ∧ same v w.
Proof.
  intros Hv Hw. unfold request_frame, canonical_json_bytes. split.
  - intros E%(app_inv_head _). apply split_last_nul in E as [Et Ev]; [|done..].
    apply list_byte_of_string_inj in Et. split; [done|]. by apply canonical_same, to_vec_inj.
  - intros [-> Hs]. by rewrite (same_canonical v w Hs Hv).
Qed.
End frame.

(** ** A serialiser, and witnesses *)

Fixpoint to_tree (v : Value) : gen_tree string :=
  match v with
  | JNull => GenNode 0 []
  | JBool false => GenNode 1 []
  | JBool true => GenNode 2 []
  | JNumber n => GenNode 3 [GenLeaf n]
  | JString s => GenNode 4 [GenLeaf s]
  | JArray xs => GenNode 5 (map to_tree xs)
  | JObject ms => GenNode 6 (map (λ '(k, x), GenNode 7 [GenLeaf k; to_tree x]) ms)
  end.

Fixpoint of_tree (t : gen_tree string) : Value :=
  match t with
  | GenNode 1 _ => JBool false
  | GenNode 2 _ => JBool true
  | GenNode 3 [GenLeaf n] => JNumber n
  | GenNode 4 [GenLeaf s] => JString s
  | GenNode 5 l => JArray (map of_tree l)
  | GenNode 6 l =>
      JObject (map (λ u, match u with
                         | GenNode _ [GenLeaf k; x] => (k, of_tree x)
                         | _ => (""%string, JNull)
                         end) l)
  | _ => JNull
  end.

Lemma of_to_tree v : of_tree (to_tree v) = v.
Proof.
  induction v as [|[]| | |items IH|ms IH] using Value_nested_ind; simpl; try done; f_equal.
  - induction IH as [|x xs Hx _ IH]; simpl; [done|]. by f_equal.
  - induction IH as [|[k x] ms Hx _ IH]; simpl; [done|]. simpl in Hx. by rewrite Hx, IH.
Qed.

Fixpoint digits (p : positive) : list byte :=
  match p with
  | xH => [x32]
  | xO p => x30 :: digits p
  | xI p => x31 :: digits p
  end.

Definition demo_to_vec (v : Value) : list byte := digits (encode (to_tree v)).

Lemma demo_to_vec_no_nul v : x00 ∉ demo_to_vec v.
Proof. unfold demo_to_vec. induction (encode (to_tree v)); simpl; set_solver. Qed.

Lemma demo_to_vec_inj : Inj (=) (=) demo_to_vec.
Proof.
  intros v w E. unfold demo_to_vec in E.
  assert (H : ∀ p q, digits p = digits q → p = q).
  { induction p as [p IH|p IH|]; intros [q|q|] Eq; simpl in Eq; simplify_eq; try done;
      f_equal; by apply IH. }
  apply H in E. apply (inj encode) in E. apply (f_equal of_tree) in E. by rewrite !of_to_tree in E.
Qed.

Definition demo_request : Value :=
  JObject [("path"%string, JString "a.rs"); ("opts"%string,
    JObject [("dry"%string, JBool true); ("n"%string, JNumber "2")])].
Definition demo_reordered : Value :=
  JObject [("opts"%string, JObject [("n"%string, JNumber "2"); ("dry"%string, JBool true)]);
           ("path"%string, JString "a.rs")].

Lemma demo_requests_well_formed : well_formed demo_request ∧ well_formed demo_reordered.
Proof. split; repeat constructor; simpl; set_solver. Qed.

Lemma canonical_iff_same_witness :
  same demo_request demo_reordered.
Proof.
  apply (canonical_iff_same demo_request demo_reordered);
    [apply demo_requests_well_formed..|vm_compute; reflexivity].
Defined.

Lemma request_frame_separates_witness :
  request_frame demo_to_vec "batch_edit" demo_request
    = request_frame demo_to_vec "batch_edit" demo_reordered ∧
  request_frame demo_to_vec "batch_edit" demo_request
    ≠ request_frame demo_to_vec "batch_rename" demo_request.
Proof.
  split.
  - apply (request_frame_separates demo_to_vec demo_to_vec_no_nul demo_to_vec_inj);
      [apply demo_requests_well_formed..|].
    split; [reflexivity|]. apply canonical_same; [apply demo_requests_well_formed..|vm_compute; reflexivity].
  - intros [E _]%(request_frame_separates demo_to_vec demo_to_vec_no_nul demo_to_vec_inj);
      [discriminate E|apply demo_requests_well_formed..].
Defined.
