(* ===== verification/Repeat.v ===== *)
(** * Notices about repeated requests (protocol/repeat.rs)

    A client that sends the same read request again and again gets a notice at the third
    serve: the request was served so many times, no index change was published across
    those serves, and the text was the same.  The tracker keeps one run per request; the
    server reads the tracker's epoch before it dispatches a call and records the serve
    after it; a new incarnation of the index clears the tracker and moves the epoch, while an
    ordinary publication is only seen through the evidence that a response carries.

    The theorems: in every interleaving of calls and clears, a notice counts exactly the
    last serves of that request that started and finished since the last clear, and all of
    them had that evidence and a text of that digest; a third equal serve gets the notice unless the
    table was full; attaching a notice only appends; and the bytes that are hashed for a
    text determine its blocks.

    Serde's codecs and the digests are parameters. *)

From Stdlib Require Import Lia Strings.Byte.
From stdpp Require Import base gmap sets list strings numbers option pretty.
From S2P Require Import Prelude CanonicalJson.

#[global] Set Default Goal Selector "!".

Notation text := (list byte).
Notation bytes_of := String.list_byte_of_string.

Definition NOTICE_THRESHOLD : N := 3.
Definition REPEAT_TRACKER_MAX_ENTRIES : nat := 512.

Definition REPEAT_ELIGIBLE_TOOLS : list string :=
  ["search_symbols"; "search_text"; "get_repo_map"; "find_references"; "find_dependents"].

Definition UNBOUND_PROJECT_ID : string := "unbound".
Definition REPEAT_NOTICE_META_KEY : string := "symforge/repeat_notice".
Definition PROJECT_EVIDENCE_META_KEY : string := "symforge/project_evidence".
Definition RESULT_STATUS_META_KEY : string := "symforge/result_status".
Definition REPEAT_NOTICE_CONTRACT_VERSION : N := 2.

Definition is_repeat_eligible (tool : string) : bool := bool_decide (tool ∈ REPEAT_ELIGIBLE_TOOLS).

(** ** Lanes *)

Inductive TransportLane := LaneStdio | LaneShared.
Inductive SessionDiscriminator := Stdio | HttpInert.
#[global] Instance SessionDiscriminator_eq_dec : EqDecision SessionDiscriminator.
Proof. solve_decision. Defined.
#[global] Instance SessionDiscriminator_countable : Countable SessionDiscriminator.
Proof.
  apply (inj_countable' (λ s, match s with Stdio => true | HttpInert => false end)
           (λ b, if b : bool then Stdio else HttpInert)). by intros [].
Defined.

(** [http_parts] says whether the transport put the request's HTTP parts in the context. *)
Definition from_observations (declared : TransportLane) (http_parts : bool) : SessionDiscriminator :=
  match declared, http_parts with LaneStdio, false => Stdio | _, _ => HttpInert end.

(** ** Requests *)

Record RepeatKey := mkKey {
  k_session : SessionDiscriminator;
  k_epoch : N;
  k_tool : string;
  k_request_hash : string;
}.
#[global] Instance RepeatKey_eq_dec : EqDecision RepeatKey.
Proof. solve_decision. Defined.
#[global] Instance RepeatKey_countable : Countable RepeatKey.
Proof.
  apply (inj_countable' (λ k, (k_session k, k_epoch k, k_tool k, k_request_hash k))
           (λ p, mkKey p.1.1.1 p.1.1.2 p.1.2 p.2)). by intros [].
Defined.

Record ProjectEvidence := mkEvidence {
  pe_project_id : string;
  pe_project_name : string;
  pe_canonical_root : option string;
  pe_generation : N;
  pe_index_state : string;
  pe_load_source : string;
  pe_index_files : N;
  pe_index_symbols : N;
}.
#[global] Instance ProjectEvidence_eq_dec : EqDecision ProjectEvidence.
Proof. solve_decision. Defined.

Inductive OutcomeClass := OFound | ONotFound | OAmbiguous | OInvalidRequest | OEmptyResult | OInternalFailure.

Record RepeatNoticeView := mkView {
  rv_contract_version : N;
  rv_repeat_count : N;
  rv_tool : string;
  rv_request_hash : string;
  rv_evidence_generation : N;
}.

(** What the code relies on outside its own source: serde's codecs and SHA-256. *)
Class RepeatEnv := {
  to_vec : Value → list byte;
  digest : list byte → list byte;
  hex_digest : list byte → string;
  evidence_of_value : Value → option ProjectEvidence;
  outcome_of_value : Value → option OutcomeClass;
  view_to_value : RepeatNoticeView → Value;
}.

Section repeat.
Context `{RepeatEnv}.

(** [RequestHash::for_tool_request], which refuses an empty tool name. *)
Definition request_hash (tool : string) (request : Value) : option string :=
  if decide (tool = EmptyString) then None else Some (hex_digest (request_frame to_vec tool request)).

(** [RepeatKey::observe]; arguments are the members of a JSON object. *)
Definition key_observe (lane : SessionDiscriminator) (epoch : N) (tool : string)
    (arguments : option (list (string * Value))) : option RepeatKey :=
  if negb (bool_decide (lane = Stdio)) || negb (is_repeat_eligible tool) then None
  else if match arguments ≫= get "projects" with Some JNull | None => false | Some _ => true end then None
  else hash ← request_hash tool (JObject (default [] arguments)); Some (mkKey lane epoch tool hash).

(** ** What a serve shows *)

Inductive ContentBlock := TextBlock (t : text) | OtherBlock (kind : N).

Record CallToolResult := mkResult {
  cr_content : list ContentBlock;
  cr_is_error : option bool;
  cr_meta : option (gmap string Value);
}.

(** [u64::to_le_bytes] of a length. *)
Fixpoint to_le_bytes (n : nat) (x : N) : list byte :=
  match n with
  | 0 => []
  | S n => default x00 (Byte.of_N (x mod 256)) :: to_le_bytes n (x / 256)
  end.

Definition block_frame (b : ContentBlock) : list byte :=
  match b with
  | TextBlock t => to_le_bytes 8 (N.of_nat (length t) mod u64_modulus) ++ t
  | OtherBlock _ => []
  end.

Definition content_frame (content : list ContentBlock) : list byte := content ≫= block_frame.
Definition of_content (content : list ContentBlock) : list byte := digest (content_frame content).

Record ObservedServe := mkServe { os_evidence : ProjectEvidence; os_body_digest : list byte }.
#[global] Instance ObservedServe_eq_dec : EqDecision ObservedServe.
Proof. solve_decision. Defined.

Inductive UnobservedReason := EvidenceUnavailable | ProjectUnbound | InternalFailure | ErrorWithoutOutcomeClass.
Inductive Observation := Observed (s : ObservedServe) | Unobserved (r : UnobservedReason).

Definition observed_outcome_class (meta : option (gmap string Value)) : option OutcomeClass :=
  m ← meta; v ← m !! RESULT_STATUS_META_KEY; outcome_of_value v.

Definition from_result (result : CallToolResult) : Observation :=
  let meta := cr_meta result in
  match (m ← meta; v ← m !! PROJECT_EVIDENCE_META_KEY; evidence_of_value v) with
  | None => Unobserved EvidenceUnavailable
  | Some evidence =>
      if decide (pe_project_id evidence = UNBOUND_PROJECT_ID) then Unobserved ProjectUnbound
      else
        let observed := Observed (mkServe evidence (of_content (cr_content result))) in
        match observed_outcome_class meta with
        | Some OInternalFailure => Unobserved InternalFailure
        | Some _ => observed
        | None => if decide (cr_is_error result = Some true) then Unobserved ErrorWithoutOutcomeClass else observed
        end
  end.

(** ** Notices *)

Record RepeatNotice := mkNotice {
  rn_generation : N;
  rn_repeat_count : N;
  rn_tool : string;
  rn_request_hash : string;
}.

(** [RepeatWitness::observe]: the generation of the witnessed evidence. *)
Definition witness_observe (prior current : ObservedServe) : option N :=
  if decide (prior = current) then Some (pe_generation (os_evidence current)) else None.

Definition notice_new (generation repeat_count : N) (key : RepeatKey) : option RepeatNotice :=
  if (NOTICE_THRESHOLD <=? repeat_count)%N
  then Some (mkNotice generation repeat_count (k_tool key) (k_request_hash key)) else None.

Definition notice_text (n : RepeatNotice) : text :=
  bytes_of "Repeat notice: identical request served " ++ bytes_of (pretty (rn_repeat_count n)) ++
  bytes_of "x. Across these serves, no index change was published and the response text before this notice was unchanged. Retrying it unchanged has not produced new information.".

Definition notice_view (n : RepeatNotice) : RepeatNoticeView :=
  mkView REPEAT_NOTICE_CONTRACT_VERSION (rn_repeat_count n) (rn_tool n) (rn_request_hash n) (rn_generation n).

Definition is_text (b : ContentBlock) : bool := match b with TextBlock _ => true | _ => false end.

(** [rposition] of the last text block. *)
Fixpoint rposition (content : list ContentBlock) : option nat :=
  match content with
  | [] => None
  | b :: rest =>
      match rposition rest with
      | Some i => Some (S i)
      | None => if is_text b then Some 0 else None
      end
  end.

Definition append_text (suffix : text) (b : ContentBlock) : ContentBlock :=
  match b with TextBlock t => TextBlock (t ++ suffix) | other => other end.

Definition attach (n : RepeatNotice) (result : CallToolResult) : CallToolResult :=
  let t := notice_text n in
  mkResult
    match rposition (cr_content result) with
    | Some index => alter (append_text ([x0a; x0a] ++ t)) index (cr_content result)
    | None => cr_content result ++ [TextBlock t]
    end
    (cr_is_error result)
    (Some (<[REPEAT_NOTICE_META_KEY := view_to_value (notice_view n)]> (default ∅ (cr_meta result)))).

(** ** The tracker *)

Definition u32_max : N := 4294967295.
Definition u32_saturating_add (a b : N) : N := N.min (a + b) u32_max.

Record RepeatRun := mkRun { run_count : N; run_observed : ObservedServe }.

Record RepeatTracker := mkTracker {
  runs : gmap RepeatKey RepeatRun;
  epoch : N;
}.

Definition tracker_default : RepeatTracker := mkTracker ∅ 0.

Definition record_serve (key : RepeatKey) (observation : Observation) (t : RepeatTracker) :
    option RepeatNotice * RepeatTracker :=
  if negb (k_epoch key =? epoch t)%N then (None, t)
  else
    match observation with
    | Unobserved _ => (None, mkTracker (delete key (runs t)) (epoch t))
    | Observed current =>
        match runs t !! key with
        | Some run =>
            match witness_observe (run_observed run) current with
            | Some generation =>
                let count := u32_saturating_add (run_count run) 1 in
                (notice_new generation count key,
                 mkTracker (<[key := mkRun count (run_observed run)]> (runs t)) (epoch t))
            | None => (None, mkTracker (<[key := mkRun 1 current]> (runs t)) (epoch t))
            end
        | None =>
            let kept := if REPEAT_TRACKER_MAX_ENTRIES <=? size (runs t) then ∅ else runs t in
            (None, mkTracker (<[key := mkRun 1 current]> kept) (epoch t))
        end
    end.

Definition clear (t : RepeatTracker) : RepeatTracker := mkTracker ∅ (u64_add (epoch t) 1).

(** ** The calls of a server

    A call reads the epoch and makes its key before the dispatch, and records the serve
    and attaches the notice after it; other calls and clears come in between.  A dispatch
    that ends in a protocol error records nothing. *)

Record Server := mkServer {
  sv_tracker : RepeatTracker;
  sv_in_flight : gmap N RepeatKey;
}.

Inductive Event :=
| Begin (call : N) (declared : TransportLane) (http_parts : bool) (tool : string) (arguments : option (list (string * Value)))
| Finish (call : N) (result : CallToolResult)
| Abandon (call : N)
| Incarnation.

(** The response that a call sends. *)
Definition serve (s : Server) (e : Event) : option (N * CallToolResult * option RepeatNotice) * Server :=
  match e with
  | Begin call declared http tool arguments =>
      match key_observe (from_observations declared http) (epoch (sv_tracker s)) tool arguments with
      | Some key => (None, mkServer (sv_tracker s) (<[call := key]> (sv_in_flight s)))
      | None => (None, mkServer (sv_tracker s) (delete call (sv_in_flight s)))
      end
  | Finish call result =>
      match sv_in_flight s !! call with
      | Some key =>
          let '(notice, t) := record_serve key (from_result result) (sv_tracker s) in
          (Some (call, match notice with Some n => attach n result | None => result end, notice),
           mkServer t (delete call (sv_in_flight s)))
      | None => (Some (call, result, None), s)
      end
  | Abandon call => (None, mkServer (sv_tracker s) (delete call (sv_in_flight s)))
  | Incarnation => (None, mkServer (clear (sv_tracker s)) (sv_in_flight s))
  end.

Definition server_default : Server := mkServer tracker_default ∅.

(** ** What happened

    The history of recorded serves, the newest first, with the number of clears there had
    been when the call began and when it finished. *)

Record Entry := mkEntry {
  en_key : RepeatKey;
  en_started : nat;
  en_finished : nat;
  en_observation : Observation;
}.

Record World := mkWorld {
  w_server : Server;
  w_incarnation : nat;
  w_started : gmap N nat;
  w_history : list Entry;
}.

Definition world_default : World := mkWorld server_default 0 ∅ [].

Definition happen (w : World) (e : Event) : World :=
  let s := snd (serve (w_server w) e) in
  match e with
  | Begin call _ _ _ _ => mkWorld s (w_incarnation w) (<[call := w_incarnation w]> (w_started w)) (w_history w)
  | Finish call result =>
      mkWorld s (w_incarnation w) (w_started w)
        (match sv_in_flight (w_server w) !! call with
         | Some key =>
             mkEntry key (default 0 (w_started w !! call)) (w_incarnation w) (from_result result) :: w_history w
         | None => w_history w
         end)
  | Abandon _ => mkWorld s (w_incarnation w) (w_started w) (w_history w)
  | Incarnation => mkWorld s (S (w_incarnation w)) (w_started w) (w_history w)
  end.

Definition history_of (events : list Event) : World := fold_left happen events world_default.

(** How many serves at the head showed [o]. *)
Fixpoint trailing (o : ObservedServe) (l : list Observation) : nat :=
  match l with
  | Observed o' :: l => if decide (o' = o) then S (trailing o l) else 0
  | _ => 0
  end.

(** The run that a list of observations ends in. *)
Definition run_of (l : list Observation) : option (nat * ObservedServe) :=
  match l with Observed o :: _ => Some (trailing o l, o) | _ => None end.

Definition of_key (key : RepeatKey) (history : list Entry) : list Observation :=
  en_observation <$> filter (λ e, en_key e = key) history.

(** The requests recorded in one incarnation. *)
Definition keys_in (i : nat) (history : list Entry) : gset RepeatKey :=
  list_to_set (en_key <$> filter (λ e, en_finished e = i ∧ en_started e = i) history).
End repeat.

(** ** Notices are true *)

Section notices.
Context `{RepeatEnv}.

Lemma run_of_observed o l : run_of (Observed o :: l) = Some (S (trailing o l), o).
Proof. simpl. by rewrite decide_True. Qed.

Lemma trailing_run_of o l :
  trailing o l = match run_of l with Some (n, o') => if decide (o' = o) then n else 0 | None => 0 end.
Proof.
  destruct l as [|[o'|r] l]; [done| |done]. rewrite run_of_observed. simpl. case_decide as E; [by subst|done].
Qed.

Lemma trailing_take o l : Forall (λ x, x = Observed o) (take (trailing o l) l) ∧ trailing o l ≤ length l.
Proof.
  induction l as [|[o'|r] l [IH1 IH2]]; simpl; [by split; [constructor|]| |split; [constructor|lia]].
  case_decide as E; simpl; [subst; split; [by constructor|lia]|split; [constructor|lia]].
Qed.

Record Inv (w : World) : Prop := {
  inv_epoch : epoch (sv_tracker (w_server w)) = N.of_nat (w_incarnation w);
  inv_flight call key :
    sv_in_flight (w_server w) !! call = Some key →
    ∃ i, w_started w !! call = Some i ∧ i ≤ w_incarnation w ∧ k_epoch key = N.of_nat i ∧ k_session key = Stdio;
  inv_entry e :
    e ∈ w_history w →
    k_session (en_key e) = Stdio ∧ k_epoch (en_key e) = N.of_nat (en_started e) ∧ en_started e ≤ en_finished e ≤ w_incarnation w;
  inv_runs key run :
    runs (sv_tracker (w_server w)) !! key = Some run →
    k_epoch key = N.of_nat (w_incarnation w) ∧ key ∈ keys_in (w_incarnation w) (w_history w) ∧
    ∃ n, run_of (of_key key (w_history w)) = Some (n, run_observed run) ∧
         (1 ≤ run_count run)%N ∧ N.to_nat (run_count run) ≤ n;
  inv_complete key n o :
    size (keys_in (w_incarnation w) (w_history w)) ≤ REPEAT_TRACKER_MAX_ENTRIES →
    k_epoch key = N.of_nat (w_incarnation w) → run_of (of_key key (w_history w)) = Some (n, o) →
    runs (sv_tracker (w_server w)) !! key = Some (mkRun (N.min (N.of_nat n) u32_max) o);
}.

Lemma of_key_cons key e history :
  of_key key (e :: history) = if decide (en_key e = key) then en_observation e :: of_key key history else of_key key history.
Proof. unfold of_key. rewrite filter_cons. by case_decide. Qed.

Lemma keys_in_cons i e history :
  keys_in i (e :: history) =
    (if decide (en_finished e = i ∧ en_started e = i) then {[en_key e]} else ∅) ∪ keys_in i history.
Proof. unfold keys_in. rewrite filter_cons. case_decide; simpl; set_solver. Qed.

(** The runs after a serve, for its own request and for the others. *)
Lemma record_serve_runs key obs t key' run :
  k_epoch key = epoch t → runs (snd (record_serve key obs t)) !! key' = Some run →
  (key' ≠ key ∧ runs t !! key' = Some run) ∨
  (key' = key ∧ ∃ o, obs = Observed o ∧ run_observed run = o ∧
     match runs t !! key with
     | Some r => if decide (run_observed r = o) then run_count run = u32_saturating_add (run_count r) 1 else run_count run = 1%N
     | None => run_count run = 1%N
     end).
Proof.
  intros He. unfold record_serve. rewrite He, N.eqb_refl. simpl.
  destruct obs as [o|r]; simpl.
  2: { rewrite lookup_delete_Some. naive_solver. }
  unfold witness_observe. destruct (runs t !! key) as [r|] eqn:Er.
  - case_decide as Eo; simpl; intros [[<- <-]|[Hne Hr]]%lookup_insert_Some.
    + right. split; [done|]. exists o. by rewrite decide_True.
    + left. done.
    + right. split; [done|]. exists o. by rewrite decide_False.
    + left. done.
  - simpl. intros [[<- <-]|[Hne Hr]]%lookup_insert_Some.
    + right. split; [done|]. exists o. auto.
    + left. split; [done|]. revert Hr. case_match; [by rewrite lookup_empty|done].
Qed.

Lemma record_serve_kept key obs t key' :
  key' ≠ key → size (runs t) < REPEAT_TRACKER_MAX_ENTRIES ∨ is_Some (runs t !! key) →
  runs (snd (record_serve key obs t)) !! key' = runs t !! key'.
Proof.
  intros Hne Hs. unfold record_serve. destruct (negb _); [done|].
  destruct obs as [o|r]; [|simpl; by rewrite lookup_delete_ne].
  destruct (runs t !! key) as [r|] eqn:Er.
  - destruct (witness_observe _ _); simpl; by rewrite lookup_insert_ne.
  - cbn [snd runs]. rewrite lookup_insert_ne by done. destruct Hs as [Hs|[? ?]]; [|done].
    by rewrite (proj2 (Nat.leb_gt _ _) Hs).
Qed.

Lemma record_serve_own key o t :
  k_epoch key = epoch t →
  runs (snd (record_serve key (Observed o) t)) !! key =
    Some (mkRun match runs t !! key with
                | Some r => if decide (run_observed r = o) then u32_saturating_add (run_count r) 1 else 1%N
                | None => 1%N
                end o).
Proof.
  intros He. unfold record_serve. rewrite He, N.eqb_refl. simpl. unfold witness_observe.
  destruct (runs t !! key) as [[c o']|]; simpl; [|by rewrite lookup_insert_eq].
  case_decide as E; simpl; rewrite lookup_insert_eq; [by rewrite E|done].
Qed.

Lemma record_serve_epoch key obs t : epoch (snd (record_serve key obs t)) = epoch t.
Proof. unfold record_serve. by repeat case_match. Qed.

Lemma u32_saturating_add_run n :
  u32_saturating_add (N.min (N.of_nat n) u32_max) 1 = N.min (N.of_nat (S n)) u32_max.
Proof. unfold u32_saturating_add, u32_max. lia. Qed.

Lemma keys_in_mono i e history : keys_in i history ⊆ keys_in i (e :: history).
Proof. rewrite keys_in_cons. set_solver. Qed.

(** A serve that began in this incarnation is recorded faithfully. *)
Lemma record_inv w t key call result e :
  Inv w → t = sv_tracker (w_server w) → k_session key = Stdio → k_epoch key = N.of_nat (w_incarnation w) →
  e = mkEntry key (w_incarnation w) (w_incarnation w) (from_result result) →
  Inv (mkWorld (mkServer (snd (record_serve key (from_result result) t)) (delete call (sv_in_flight (w_server w))))
         (w_incarnation w) (w_started w) (e :: w_history w)).
Proof.
  intros [Ie If Ih Ir Ic] -> Hse Hk ->. set (t := sv_tracker (w_server w)) in *.
  assert (Hin : key ∈ keys_in (w_incarnation w) (mkEntry key (w_incarnation w) (w_incarnation w) (from_result result) :: w_history w)).
  { rewrite keys_in_cons. simpl. rewrite decide_True by done. set_solver. }
  assert (Hke : k_epoch key = epoch t) by congruence.
  split; simpl.
  - by rewrite record_serve_epoch.
  - intros c k [_ Hc]%lookup_delete_Some. by apply If.
  - intros x [->|Hx]%elem_of_cons; [simpl; split_and!; [done|done|lia|lia]|by apply Ih].
  - intros k run Hr. apply record_serve_runs in Hr as [[Hne Hr]|[-> (o & Eo & Erun & Hcount)]]; [..|done].
    + apply Ir in Hr as (? & Hin' & n & Hn & ?). split; [done|]. split; [by apply keys_in_mono|].
      exists n. rewrite of_key_cons. simpl. by rewrite decide_False.
    + split; [done|]. split; [done|]. rewrite of_key_cons. simpl. rewrite decide_True, Eo, run_of_observed, Erun by done.
      eexists. split; [done|]. rewrite trailing_run_of. destruct (runs t !! key) as [r|] eqn:Er; [|lia].
      apply Ir in Er as (_ & _ & n & -> & Hc1 & Hc2). case_decide; subst; [|lia].
      rewrite Hcount. unfold u32_saturating_add, u32_max. lia.
  - intros k n o Hs Hek. rewrite of_key_cons. simpl. case_decide as Ek.
    + subst k. destruct (from_result result) as [o'|r]; [|done]. rewrite run_of_observed. intros [= <- <-].
      rewrite record_serve_own by done. f_equal. f_equal. rewrite trailing_run_of.
      destruct (run_of (of_key key (w_history w))) as [[m o]|] eqn:Erun.
      * rewrite (Ic key m o); [|by eapply Nat.le_trans; [apply subseteq_size, keys_in_mono|]|done|done].
        simpl. case_decide; [apply u32_saturating_add_run|done].
      * destruct (runs t !! key) as [r|] eqn:Er; [|done].
        apply Ir in Er as (_ & _ & m & Em & _). congruence.
    + intros Erun. rewrite record_serve_kept; [|done|].
      * apply Ic; [|done|done]. by eapply Nat.le_trans; [apply subseteq_size, keys_in_mono|].
      * destruct (runs t !! key) as [r|] eqn:Er; [right; by eexists|left].
        assert (dom (runs t) ∪ {[key]} ⊆ keys_in (w_incarnation w)
          (mkEntry key (w_incarnation w) (w_incarnation w) (from_result result) :: w_history w)) as Hsub.
        { apply union_subseteq. split; [|set_solver]. intros k' [r Hr]%elem_of_dom. apply keys_in_mono. by apply Ir in Hr as (_ & ? & _). }
        apply subseteq_size in Hsub. rewrite size_union, size_singleton, size_dom in Hsub; [lia|].
        apply not_elem_of_dom in Er. set_solver.
Qed.

(** A serve that began before the last clear is refused. *)
Lemma stale_inv w key call i obs :
  Inv w → k_session key = Stdio → k_epoch key = N.of_nat i → i < w_incarnation w →
  Inv (mkWorld (mkServer (sv_tracker (w_server w)) (delete call (sv_in_flight (w_server w))))
         (w_incarnation w) (w_started w) (mkEntry key i (w_incarnation w) obs :: w_history w)).
Proof.
  intros [Ie If Ih Ir Ic] Hse Hk Hi.
  assert (∀ k, k_epoch k = N.of_nat (w_incarnation w) →
    of_key k (mkEntry key i (w_incarnation w) obs :: w_history w) = of_key k (w_history w)) as Hof.
  { intros k Hek. rewrite of_key_cons. simpl. rewrite decide_False; [done|]. intros <-. lia. }
  assert (keys_in (w_incarnation w) (mkEntry key i (w_incarnation w) obs :: w_history w) = keys_in (w_incarnation w) (w_history w)) as Hkeys.
  { rewrite keys_in_cons. simpl. rewrite decide_False by lia. by rewrite (left_id_L ∅ (∪)). }
  split; simpl.
  - done.
  - intros c k [_ Hc]%lookup_delete_Some. by apply If.
  - intros x [->|Hx]%elem_of_cons; [simpl; split_and!; [done|done|lia|lia]|by apply Ih].
  - intros k run Hr. rewrite Hkeys. apply Ir in Hr as (? & ? & Hr). by rewrite Hof.
  - intros k n o. rewrite Hkeys. intros Hs Hek. rewrite Hof by done. by apply Ic.
Qed.

Lemma key_observe_epoch lane i tool arguments key :
  key_observe lane i tool arguments = Some key → k_epoch key = i ∧ k_session key = Stdio.
Proof.
  unfold key_observe. destruct (bool_decide (lane = Stdio)) eqn:El; simpl; [|done]. apply bool_decide_eq_true in El.
  intros E. repeat case_match; try done; apply bind_Some in E as (? & _ & [= <-]); done.
Qed.

Lemma happen_inv w e : Inv w → (N.of_nat (S (w_incarnation w)) < u64_modulus)%N → Inv (happen w e).
Proof.
  intros Hw Hb. destruct e as [call declared http tool arguments|call result|call|]; unfold happen; simpl.
  - assert (∀ fl, (∀ c k, fl !! c = Some k →
        sv_in_flight (w_server w) !! c = Some k ∧ c ≠ call ∨ c = call ∧ k_epoch k = N.of_nat (w_incarnation w) ∧ k_session k = Stdio) →
      Inv (mkWorld (mkServer (sv_tracker (w_server w)) fl) (w_incarnation w)
             (<[call := w_incarnation w]> (w_started w)) (w_history w))) as Hgen.
    { intros fl Hfl. destruct Hw as [Ie If Ih Ir Ic]. split; simpl; [done| |done|done|done].
      intros c k [[Hc Hne]|(-> & Hc & Hse)]%Hfl; [rewrite lookup_insert_ne by done; by apply If|].
      rewrite lookup_insert_eq. eauto. }
    destruct (key_observe _ _ _ _) as [key|] eqn:Ek; apply Hgen; intros c k.
    + apply key_observe_epoch in Ek as [Ek Hse]. destruct Hw as [Ie _ _ _ _].
      intros [[<- <-]|[? ?]]%lookup_insert_Some; [right; split_and!; [done|congruence|done]|by left].
    + intros [? ?]%lookup_delete_Some. by left.
  - destruct (sv_in_flight (w_server w) !! call) as [key|] eqn:Ef; [|by destruct w as [[] ? ? ?]].
    destruct (inv_flight w Hw call key Ef) as (i & Es & Hi & Hk & Hse). rewrite Es. simpl.
    destruct (decide (i = w_incarnation w)) as [->|Hne].
    + destruct (record_serve key (from_result result) (sv_tracker (w_server w))) as [notice t] eqn:Er. simpl.
      replace t with (snd (record_serve key (from_result result) (sv_tracker (w_server w)))) by (by rewrite Er).
      by eapply record_inv.
    + assert (record_serve key (from_result result) (sv_tracker (w_server w)) = (None, sv_tracker (w_server w))) as ->.
      { unfold record_serve. rewrite (inv_epoch w Hw), Hk. by rewrite (proj2 (N.eqb_neq _ _)) by lia. }
      simpl. apply stale_inv; [done|done|done|lia].
  - destruct Hw as [Ie If Ih Ir Ic]. split; simpl; [done| |done|done|done].
    intros c k [_ Hc]%lookup_delete_Some. by apply If.
  - destruct Hw as [Ie If Ih Ir Ic]. split; simpl.
    + rewrite Ie, u64_add_small by lia. lia.
    + intros c k Hc. apply If in Hc as (i & ? & ? & ? & ?). exists i. split; [done|]. split; [lia|done].
    + intros x Hx. apply Ih in Hx as (? & ? & ?). split_and!; [done|done|lia|lia].
    + intros k run. by rewrite lookup_empty.
    + intros k n o _ Hek. assert (of_key k (w_history w) = []) as ->; [|done].
      unfold of_key. destruct (filter _ (w_history w)) as [|x xs] eqn:Ex; [done|].
      assert (x ∈ filter (λ e, en_key e = k) (w_history w)) as Hx by (rewrite Ex; left).
      apply list_elem_of_filter in Hx as [<- Hx%Ih]. lia.
Qed.

Lemma history_inv events : (N.of_nat (length events) < u64_modulus)%N → Inv (history_of events) ∧ w_incarnation (history_of events) ≤ length events.
Proof.
  unfold history_of. intros Hb.
  assert (∀ es w, Inv w → (N.of_nat (w_incarnation w + length es) < u64_modulus)%N →
    Inv (fold_left happen es w) ∧ w_incarnation (fold_left happen es w) ≤ w_incarnation w + length es) as Hgen.
  { intros es. induction es as [|e es IH]; intros w Hw Hlen; simpl in *; [split; [done|lia]|].
    assert (w_incarnation (happen w e) ≤ S (w_incarnation w)) by (destruct e; simpl; lia).
    destruct (IH (happen w e)) as [H1 H2]; [apply happen_inv; [done|lia]|lia|]. split; [done|lia]. }
  apply (Hgen events world_default); [|simpl; lia].
  split; simpl; try done. intros x Hx. by apply elem_of_nil in Hx.
Qed.

Lemma list_filter_iff_on {A} (P Q : A → Prop) `{∀ x, Decision (P x)} `{∀ x, Decision (Q x)} (l : list A) :
  (∀ x, x ∈ l → P x ↔ Q x) → filter P l = filter Q l.
Proof.
  induction l as [|x l IH]; intros E; [done|]. rewrite !filter_cons, IH by (intros; apply E; by right).
  destruct (E x) as [? ?]; [by left|]. repeat case_decide; tauto.
Qed.

(** The recorded serves of a request that began and finished in incarnation [i]. *)
Definition served (tool hash : string) (i : nat) (history : list Entry) : list Entry :=
  filter (λ e, k_tool (en_key e) = tool ∧ k_request_hash (en_key e) = hash ∧ en_started e = i ∧ en_finished e = i) history.

Lemma served_of_key w key :
  Inv w → k_session key = Stdio → k_epoch key = N.of_nat (w_incarnation w) →
  en_observation <$> served (k_tool key) (k_request_hash key) (w_incarnation w) (w_history w) = of_key key (w_history w).
Proof.
  intros Hw Hs He. unfold of_key. f_equal. apply list_filter_iff_on. intros x Hx.
  apply (inv_entry w Hw) in Hx as (Hxs & Hxe & Hx). split.
  - intros (? & ? & ? & ?). destruct (en_key x), key; simpl in *; congruence.
  - intros <-. assert (en_started x = w_incarnation w) by lia. split_and!; [done..|lia].
Qed.

Lemma finish_notice w call result c response n :
  Inv w → fst (serve (w_server w) (Finish call result)) = Some (c, response, Some n) →
  ∃ key, sv_in_flight (w_server w) !! call = Some key ∧ c = call ∧ response = attach n result ∧
    fst (record_serve key (from_result result) (sv_tracker (w_server w))) = Some n.
Proof.
  intros Hw. simpl. destruct (sv_in_flight _ !! call) as [key|]; [|done].
  destruct (record_serve _ _ _) as [notice t] eqn:Er. simpl. intros [= <- <- ->]. exists key. by rewrite Er.
Qed.

Lemma record_serve_notice key obs t n :
  fst (record_serve key obs t) = Some n →
  ∃ o run, obs = Observed o ∧ k_epoch key = epoch t ∧ runs t !! key = Some run ∧ run_observed run = o ∧
    rn_repeat_count n = u32_saturating_add (run_count run) 1 ∧ (3 ≤ rn_repeat_count n)%N ∧
    rn_tool n = k_tool key ∧ rn_request_hash n = k_request_hash key ∧ rn_generation n = pe_generation (os_evidence o).
Proof.
  unfold record_serve. destruct (k_epoch key =? epoch t)%N eqn:E; [|done]. apply N.eqb_eq in E. simpl.
  destruct obs as [o|r]; [|done]. destruct (runs t !! key) as [run|] eqn:Er; [|done].
  unfold witness_observe. case_decide as Eo; [|done]. simpl. unfold notice_new, NOTICE_THRESHOLD.
  destruct (N.leb_spec 3 (u32_saturating_add (run_count run) 1)); [|done]. intros [= <-]. simpl. eauto 12.
Qed.

(** In every interleaving of calls and clears of the tracker, a notice counts the last
    recorded serves of its request that began and finished since the last clear; there are
    that many, at least three, and each of them showed the same evidence and a text of the
    same digest. *)
Theorem notices_are_true events call result c response n :
  let w := history_of events in
  let i := w_incarnation w in
  let same := served (rn_tool n) (rn_request_hash n) i (w_history (happen w (Finish call result))) in
  (N.of_nat (length events) + 1 < u64_modulus)%N →
  fst (serve (w_server w) (Finish call result)) = Some (c, response, Some n) →
  ∃ o, from_result result = Observed o ∧ rn_generation n = pe_generation (os_evidence o) ∧
    3 ≤ N.to_nat (rn_repeat_count n) ≤ length same ∧
    Forall (λ e, en_observation e = Observed o) (take (N.to_nat (rn_repeat_count n)) same) ∧
    response = attach n result.
Proof.
  intros w i same Hb Hn. destruct (history_inv events) as [Hw Hi]; [lia|].
  apply finish_notice in Hn as (key & Ef & -> & -> & Hn); [|done].
  pose proof (record_serve_notice _ _ _ _ Hn) as (o & run & Eo & Ee & Er & Eru & Ecount & H3 & Et & Eh & Eg).
  fold w in Hw, Hi. destruct (inv_runs w Hw key run Er) as (Hk & _ & m & Hm & _ & Hle).
  assert (Hs : k_session key = Stdio) by (by destruct (inv_flight w Hw call key Ef) as (? & ? & _ & _ & ?)).
  pose proof (happen_inv w (Finish call result) Hw ltac:(lia)) as Hw'.
  assert (en_observation <$> same = of_key key (w_history (happen w (Finish call result)))) as Hsame.
  { unfold same. rewrite Et, Eh. by apply (served_of_key (happen w (Finish call result)) key). }
  assert (of_key key (w_history (happen w (Finish call result))) = Observed o :: of_key key (w_history w)) as Hof.
  { simpl. rewrite Ef, of_key_cons. simpl. by rewrite decide_True, Eo. }
  rewrite Hof in Hsame. assert (Hl : length same = S (length (of_key key (w_history w)))).
  { rewrite <-(length_fmap en_observation), Hsame. done. }
  assert (Htr : trailing o (of_key key (w_history w)) = m) by (by rewrite trailing_run_of, Hm, decide_True).
  destruct (trailing_take o (Observed o :: of_key key (w_history w))) as [Hf Hlen].
  simpl in Hf, Hlen. rewrite decide_True in Hf, Hlen by done. rewrite Htr in Hf, Hlen. simpl in Hf, Hlen.
  assert (Hc : N.to_nat (rn_repeat_count n) ≤ S m) by (rewrite Ecount; unfold u32_saturating_add, u32_max; lia).
  exists o. split_and!; [done|done|lia|lia| |done].
  change (Forall ((λ x, x = Observed o) ∘ en_observation) (take (N.to_nat (rn_repeat_count n)) same)).
  apply Forall_fmap. rewrite fmap_take, Hsame.
  destruct (N.to_nat (rn_repeat_count n)) as [|k]; [constructor|]. simpl. constructor; [done|].
  apply Forall_cons in Hf as [_ Hf]. replace (take k (of_key key (w_history w))) with (take k (take m (of_key key (w_history w)))).
  - by apply Forall_take.
  - rewrite take_take. f_equal. lia.
Qed.

Lemma record_serve_repeats key o t c :
  k_epoch key = epoch t → runs t !! key = Some (mkRun c o) → (2 ≤ c)%N →
  fst (record_serve key (Observed o) t) =
    Some (mkNotice (pe_generation (os_evidence o)) (u32_saturating_add c 1) (k_tool key) (k_request_hash key)).
Proof.
  intros He Hr Hc. unfold record_serve. rewrite He, N.eqb_refl, Hr. simpl. unfold witness_observe. rewrite decide_True by done.
  simpl. unfold notice_new, NOTICE_THRESHOLD. rewrite (proj2 (N.leb_le _ _)); [done|].
  unfold u32_saturating_add, u32_max. lia.
Qed.

(** As long as no more than 512 requests were recorded since the last index change, the
    third and every later equal serve of a request carries the notice, with the length of
    the run as its count. *)
Theorem third_serve_is_noticed events call key result o :
  let w := history_of events in
  let i := w_incarnation w in
  let before := served (k_tool key) (k_request_hash key) i (w_history w) in
  (N.of_nat (length events) + 1 < u64_modulus)%N →
  sv_in_flight (w_server w) !! call = Some key → w_started w !! call = Some i →
  size (keys_in i (w_history (happen w (Finish call result)))) ≤ 512 →
  from_result result = Observed o → 2 ≤ length before →
  Forall (λ e, en_observation e = Observed o) (take 2 before) →
  ∃ n, fst (serve (w_server w) (Finish call result)) = Some (call, attach n result, Some n) ∧
    rn_repeat_count n = N.min (N.of_nat (S (trailing o (en_observation <$> before)))) u32_max.
Proof.
  intros w i before Hb Ef Es Hsize Eo Hl Hf. destruct (history_inv events) as [Hw Hi]; [lia|]. fold w in Hw, Hi.
  destruct (inv_flight w Hw call key Ef) as (j & Ej & _ & Hk & Hse). rewrite Es in Ej. injection Ej as <-.
  unfold before in *. pose proof (served_of_key w key Hw Hse Hk) as Hsame. fold i in Hsame.
  set (same := served _ _ _ _) in *. rewrite Hsame.
  assert (2 ≤ trailing o (of_key key (w_history w)) ∧ run_of (of_key key (w_history w)) = Some (trailing o (of_key key (w_history w)), o)) as [Ht Hr].
  { rewrite <-Hsame. destruct same as [|[k1 a1 b1 o1] [|[k2 a2 b2 o2] rest]]; simpl in *; [lia|lia|].
    apply Forall_cons in Hf as [E1 [E2 _]%Forall_cons]. simpl in E1, E2. subst o1 o2. simpl. rewrite !decide_True by done. split; [lia|done]. }
  assert (runs (sv_tracker (w_server w)) !! key = Some (mkRun (N.min (N.of_nat (trailing o (of_key key (w_history w)))) u32_max) o)) as Hrun.
  { apply (inv_complete w Hw); [|done|done]. etrans; [|exact Hsize]. apply subseteq_size. simpl. rewrite Ef. apply keys_in_mono. }
  pose proof (record_serve_repeats key o (sv_tracker (w_server w)) _ ltac:(by rewrite (inv_epoch w Hw)) Hrun
    ltac:(unfold u32_max; lia)) as Hn.
  eexists. split.
  - simpl. rewrite Ef, Eo. destruct (record_serve key (Observed o) (sv_tracker (w_server w))) as [x t]. simpl in *. by rewrite Hn.
  - simpl. by rewrite u32_saturating_add_run.
Qed.

(** ** The table is bounded *)

Lemma record_serve_size key obs t :
  size (runs t) ≤ REPEAT_TRACKER_MAX_ENTRIES → size (runs (snd (record_serve key obs t))) ≤ REPEAT_TRACKER_MAX_ENTRIES.
Proof.
  intros Hs. unfold record_serve. destruct (negb _); [done|]. destruct obs as [o|r].
  2: { cbn [snd runs]. rewrite <-size_dom, dom_delete_L. etrans; [|exact Hs]. rewrite <-size_dom. apply subseteq_size. set_solver. }
  destruct (runs t !! key) as [r|] eqn:Er.
  - destruct (witness_observe _ _); cbn [snd runs]; rewrite map_size_insert_Some by eauto; done.
  - cbn [snd runs]. destruct (REPEAT_TRACKER_MAX_ENTRIES <=? size (runs t)) eqn:E.
    + rewrite map_size_insert_None, map_size_empty by apply lookup_empty. unfold REPEAT_TRACKER_MAX_ENTRIES. lia.
    + apply Nat.leb_gt in E. rewrite map_size_insert_None by done. lia.
Qed.

(** The tracker never holds more than 512 runs. *)
Theorem tracker_is_bounded events : size (runs (sv_tracker (w_server (history_of events)))) ≤ REPEAT_TRACKER_MAX_ENTRIES.
Proof.
  unfold history_of. assert (∀ es w, size (runs (sv_tracker (w_server w))) ≤ REPEAT_TRACKER_MAX_ENTRIES →
    size (runs (sv_tracker (w_server (fold_left happen es w)))) ≤ REPEAT_TRACKER_MAX_ENTRIES) as Hgen.
  { intros es. induction es as [|e es IH]; intros w Hw; [done|]. cbn [fold_left]. apply IH.
    destruct e as [call declared http tool arguments|call result|call|]; cbn [happen w_server serve].
    - by destruct (key_observe _ _ _ _).
    - destruct (sv_in_flight _ !! call) as [key|]; [|done].
      pose proof (record_serve_size key (from_result result) _ Hw) as Hs.
      by destruct (record_serve _ _ _).
    - done.
    - cbn [snd sv_tracker clear runs]. rewrite map_size_empty. unfold REPEAT_TRACKER_MAX_ENTRIES. lia. }
  apply Hgen. cbn. rewrite map_size_empty. unfold REPEAT_TRACKER_MAX_ENTRIES. lia.
Qed.

(** ** Bodies *)

Definition text_of (b : ContentBlock) : option text := match b with TextBlock t => Some t | OtherBlock _ => None end.
Definition texts (content : list ContentBlock) : list text := omap text_of content.

Lemma to_le_bytes_length n x : length (to_le_bytes n x) = n.
Proof. revert x. induction n; intros x; simpl; auto. Qed.

Lemma byte_of_N_inj x y :
  (x < 256)%N → (y < 256)%N → default x00 (Byte.of_N x) = default x00 (Byte.of_N y) → x = y.
Proof.
  intros Hx Hy. destruct (Byte.of_N x) as [a|] eqn:Ea; [|apply Byte.of_N_None_iff in Ea; lia].
  destruct (Byte.of_N y) as [b|] eqn:Eb; [|apply Byte.of_N_None_iff in Eb; lia]. simpl. intros ->.
  apply Byte.to_of_N in Ea, Eb. congruence.
Qed.

Lemma to_le_bytes_inj n x y :
  (x < 256 ^ N.of_nat n)%N → (y < 256 ^ N.of_nat n)%N → to_le_bytes n x = to_le_bytes n y → x = y.
Proof.
  revert x y. induction n as [|n IH]; intros x y Hx Hy E; [simpl in *; lia|].
  cbn [to_le_bytes] in E. injection E as E1 E2.
  apply byte_of_N_inj in E1; [|by apply N.mod_lt..].
  assert (256 ^ N.of_nat (S n) = 256 * 256 ^ N.of_nat n)%N as Ep by (rewrite Nat2N.inj_succ, N.pow_succ_r'; done).
  apply IH in E2; [|apply N.Div0.div_lt_upper_bound; lia..].
  rewrite (N.div_mod x 256), (N.div_mod y 256) by done. congruence.
Qed.

Definition fits (content : list ContentBlock) : Prop :=
  Forall (λ t : text, (N.of_nat (length t) < u64_modulus)%N) (texts content).

Lemma content_frame_texts content : content_frame content = texts content ≫= λ t, block_frame (TextBlock t).
Proof. induction content as [|[t|k] content IH]; [done| |done]; unfold content_frame in *; cbn; by rewrite IH. Qed.

(** The bytes that are hashed for a response determine its text blocks, their number and
    their limits: two responses with one frame show the same text. *)
Theorem body_frame_separates content content' :
  fits content → fits content' →
  content_frame content = content_frame content' ↔ texts content = texts content'.
Proof.
  rewrite !content_frame_texts. unfold fits. generalize (texts content) as l, (texts content') as l'. clear content content'.
  intros l l' Hl Hl'. split; [|by intros ->]. revert l' Hl'. induction l as [|t l IH]; intros l' Hl' E.
  - destruct l' as [|t' l']; [done|]. apply (f_equal length) in E. cbn [mbind list_bind block_frame] in E.
    rewrite !length_app, to_le_bytes_length in E. simpl in E. lia.
  - destruct l' as [|t' l'].
    { apply (f_equal length) in E. cbn [mbind list_bind block_frame] in E. rewrite !length_app, to_le_bytes_length in E. simpl in E. lia. }
    apply Forall_cons in Hl as [Ht Hl], Hl' as [Ht' Hl'].
    cbn [mbind list_bind block_frame] in E. rewrite <-!(assoc_L (++)) in E.
    apply app_inj_1 in E as [E1 E2]; [|by rewrite !to_le_bytes_length].
    rewrite !N.mod_small in E1 by done.
    apply to_le_bytes_inj in E1; [|done..]. apply Nat2N.inj in E1.
    apply app_inj_1 in E2 as [-> E2]; [|done]. f_equal. by apply IH.
Qed.

(** ** Attaching *)

Lemma rposition_spec content :
  match rposition content with
  | Some i => ∃ pre t post, content = pre ++ TextBlock t :: post ∧ i = length pre ∧ texts post = []
  | None => texts content = []
  end.
Proof.
  induction content as [|b content IH]; [done|]. simpl. destruct (rposition content) as [i|].
  - destruct IH as (pre & t & post & -> & -> & Hp). exists (b :: pre), t, post. auto.
  - destruct b as [t|k]; simpl; [|done]. exists [], t, content. auto.
Qed.

Lemma list_alter_middle {A} (f : A → A) pre x post : alter f (length pre) (pre ++ x :: post) = pre ++ f x :: post.
Proof. induction pre as [|y pre IH]; simpl; [done|]. by f_equal. Qed.

Lemma texts_app a b : texts (a ++ b) = texts a ++ texts b.
Proof. apply omap_app. Qed.

(** Attaching a notice only adds: the last text of the response is extended, or a text is
    added when there was none; every other block, the error flag and every other entry of
    the metadata stay as they were. *)
Theorem notice_only_appends n result :
  let after := attach n result in
  cr_is_error after = cr_is_error result ∧
  filter (λ b, text_of b = None) (cr_content after) = filter (λ b, text_of b = None) (cr_content result) ∧
  (texts (cr_content result) = [] → texts (cr_content after) = [notice_text n]) ∧
  (∀ before shown, texts (cr_content result) = before ++ [shown] →
     texts (cr_content after) = before ++ [shown ++ [x0a; x0a] ++ notice_text n]) ∧
  ∀ key, key ≠ REPEAT_NOTICE_META_KEY → (m ← cr_meta after; m !! key) = (m ← cr_meta result; m !! key).
Proof.
  intros after. unfold after, attach. cbn [cr_is_error cr_content cr_meta]. split; [done|].
  assert (∀ key, key ≠ REPEAT_NOTICE_META_KEY →
    (m ← Some (<[REPEAT_NOTICE_META_KEY := view_to_value (notice_view n)]> (default ∅ (cr_meta result))); m !! key) =
    (m ← cr_meta result; m !! key)) as Hmeta.
  { intros key Hk. simpl. rewrite lookup_insert_ne by done. by destruct (cr_meta result). }
  pose proof (rposition_spec (cr_content result)) as Hr. destruct (rposition (cr_content result)) as [i|].
  - destruct Hr as (pre & t & post & -> & -> & Hp).
    rewrite (list_alter_middle (append_text _) pre (TextBlock t) post). cbn [append_text].
    rewrite !filter_app, !filter_cons, !decide_False, !texts_app by done. cbn [texts omap list_omap text_of]. fold (texts post).
    rewrite Hp. split_and!; [done| | |done].
    + intros E. by destruct (texts pre).
    + intros before shown E. by apply app_inj_2 in E as [-> [= ->]].
  - rewrite filter_app, texts_app, Hr. split_and!; [|done|by intros [] |done].
    rewrite filter_cons_False by done. by rewrite filter_nil, (right_id_L [] (++)).
Qed.
End notices.

(** ** Examples *)

Definition demo_evidence (project : string) : ProjectEvidence := mkEvidence project "demo" None 7 "ready" "fresh" 1 1.

#[local] Instance demo_env : RepeatEnv := {
  to_vec := demo_to_vec;
  digest := id;
  hex_digest := String.string_of_list_byte;
  evidence_of_value v := match v with JString s => Some (demo_evidence s) | _ => None end;
  outcome_of_value v := match v with JString _ => Some ONotFound | _ => None end;
  view_to_value v := JString (rv_tool v);
}.

Definition demo_result (shown : string) : CallToolResult :=
  mkResult [TextBlock (bytes_of shown); OtherBlock 1] (Some false) (Some {[PROJECT_EVIDENCE_META_KEY := JString "p1"]}).

Definition demo_begin (call : N) : Event := Begin call LaneStdio false "search_text" (Some [("query"%string, JString "x")]).

(** Two serves, and a third call under way. *)
Definition demo_events : list Event :=
  [demo_begin 1; demo_begin 2; Finish 1 (demo_result "none"); Finish 2 (demo_result "none"); demo_begin 3].

Definition demo_key : RepeatKey :=
  mkKey Stdio 0 "search_text" (default EmptyString (request_hash "search_text" (JObject [("query"%string, JString "x")]))).

(** A clear between the dispatch and the answer costs the notice. *)
Example change_in_flight :
  option_map snd (fst (serve (w_server (history_of (demo_events ++ [Incarnation]))) (Finish 3 (demo_result "none")))) = Some None.
Proof. vm_compute. reflexivity. Qed.

Lemma notices_are_true_witness :
  ∃ n o, fst (serve (w_server (history_of demo_events)) (Finish 3 (demo_result "none"))) =
      Some (3%N, attach n (demo_result "none"), Some n) ∧
    from_result (demo_result "none") = Observed o ∧ rn_generation n = pe_generation (os_evidence o) ∧
    3 ≤ N.to_nat (rn_repeat_count n).
Proof.
  destruct (fst (serve (w_server (history_of demo_events)) (Finish 3 (demo_result "none")))) as [[[c response] [n|]]|] eqn:E;
    [|vm_compute in E; discriminate E..].
  destruct (notices_are_true demo_events 3 (demo_result "none") c response n) as (o & Eo & Eg & H3 & _ & Er);
    [vm_compute; reflexivity|exact E|].
  exists n, o. assert (c = 3%N) as -> by (vm_compute in E; by injection E as <- _ _). rewrite Er.
  split; [reflexivity|]. split; [exact Eo|]. split; [exact Eg|]. lia.
Defined.

Lemma third_serve_is_noticed_witness :
  ∃ n, fst (serve (w_server (history_of demo_events)) (Finish 3 (demo_result "none"))) =
      Some (3%N, attach n (demo_result "none"), Some n) ∧ rn_repeat_count n = 3%N.
Proof.
  destruct (third_serve_is_noticed demo_events 3 demo_key (demo_result "none")
    (mkServe (demo_evidence "p1") (of_content (cr_content (demo_result "none"))))) as (n & En & Ec).
  - vm_compute. reflexivity.
  - vm_compute. reflexivity.
  - vm_compute. reflexivity.
  - vm_compute. lia.
  - vm_compute. reflexivity.
  - vm_compute. lia.
  - repeat (constructor; [vm_compute; reflexivity|]). constructor.
  - exists n. split; [exact En|]. rewrite Ec. vm_compute. reflexivity.
Defined.

Lemma body_frame_separates_witness :
  content_frame [TextBlock (bytes_of "ab"); TextBlock (bytes_of "c")] ≠ content_frame [TextBlock (bytes_of "a"); TextBlock (bytes_of "bc")].
Proof.
  intros E. apply body_frame_separates in E; [vm_compute in E; discriminate E|..];
    (repeat (constructor; [vm_compute; reflexivity|]); constructor).
Defined.
