(* ===== verification/Idempotency.v ===== *)
(** * The replay store (idempotency.rs)

    A mutating tool call with an idempotency key reserves a record before it executes and
    completes it afterwards; a retry with the same key is answered from the record.  The
    store is a directory: per key hash a directory with one [record.json], published by
    renaming a staged directory into place under an exclusive [.claim] marker.

    [Reservation] models [check_or_reserve] as the file system calls it makes, so that any
    number of processes interleave, fail and crash between them: at most one of them is
    ever told to execute, unless a record was moved away and the key directory it left
    cannot be examined.  The rest of the file is the life of one record: which status
    may follow which, that a finished record is final, that only validated responses are
    stored or replayed, and that the verified lane replays only while the files still hold
    what the operation left.

    Parameters: the digest, serde_json's encoder and decoder of a record (with the law
    that a record is read back) and the clock; and the secret scanner of the knowledge
    module, over which every theorem is general. *)

From Stdlib Require Import Lia Strings.Byte.
From stdpp Require Import base gmap sets list strings numbers option.
From S2P Require Import Prelude Slices CanonicalJson.

#[global] Set Default Goal Selector "!".

(** ** Data *)

Inductive ReplayStatus := Reserved | Started | Uncertain | Completed | Failed.

#[global] Instance ReplayStatus_eq_dec : EqDecision ReplayStatus.
Proof. solve_decision. Defined.

Record PostImageTarget := mkTarget { pt_path : string; content_digest : option string }.

Record PostImageSourceBinding := mkSourceBinding {
  project_id : string;
  physical_root_key : list byte;
}.

Record LinkedPostImageSource := mkLinkedSource { ls_root : string; ls_binding : PostImageSourceBinding }.

Record PostImageReceipt := mkPostImage {
  targets : list PostImageTarget;
  pi_source : option PostImageSourceBinding;
  linked_sources : list LinkedPostImageSource;
}.

Record ReplayRecord := mkRecord {
  schema_version : N;
  rr_key_hash : string;
  rr_request_hash : string;
  rr_status : ReplayStatus;
  created_unix_millis : N;
  updated_unix_millis : N;
  response_text : option string;
  post_image : option PostImageReceipt;
}.

#[global] Instance PostImageTarget_eq_dec : EqDecision PostImageTarget.
Proof. solve_decision. Defined.
#[global] Instance PostImageSourceBinding_eq_dec : EqDecision PostImageSourceBinding.
Proof. solve_decision. Defined.
#[global] Instance LinkedPostImageSource_eq_dec : EqDecision LinkedPostImageSource.
Proof. solve_decision. Defined.
#[global] Instance PostImageReceipt_eq_dec : EqDecision PostImageReceipt.
Proof. solve_decision. Defined.
#[global] Instance ReplayRecord_eq_dec : EqDecision ReplayRecord.
Proof. solve_decision. Defined.

Definition REPLAY_RECORD_SCHEMA_VERSION : N := 1.
Definition MAX_REPLAY_RESPONSE_BYTES : nat := 1024 * 1024.

(** The variants that the modelled operations return; paths and reasons only appear in
    their messages. *)
Inductive IdempotencyError :=
| EmptyKey
| ResponseTooLarge
| UnsafeResponse
| ReceiptRequired
| InvalidTransition
| ConflictingRequest (key_hash existing incoming : string)
| IncompleteReservation (key_hash : string)
| Publishing (key_hash : string)
| CorruptRecordQuarantined
| CorruptRecord
| IoError.

Inductive ReplayDecision :=
| FirstExecution (record : ReplayRecord)
| Replay (record : ReplayRecord).

(** What the store relies on outside its own code. *)
Class ReplayEnv := {
  digest_hex : list byte → string;
  encode_record : ReplayRecord → list byte;
  decode_record : list byte → option ReplayRecord;
  decode_encode : ∀ r, decode_record (encode_record r) = Some r;
  scan_clean : string → bool;
}.

(** ** The store's directory

    [key_dirs] maps a key hash to its directory: [Some bytes] when [record.json] is in it,
    [None] when the record was moved to quarantine.  [claims] are the [.claim] markers,
    [superseding] the [.superseding] markers with their time of modification. *)
Record ReplayFs := mkFs {
  key_dirs : gmap string (option (list byte));
  claims : gmap string string;
  superseding : gmap string N;
  quarantine_files : list (list byte);
}.

Definition set_dir (key : string) (v : option (list byte)) (fs : ReplayFs) : ReplayFs :=
  mkFs (<[key := v]> (key_dirs fs)) (claims fs) (superseding fs) (quarantine_files fs).
Definition set_claims (m : gmap string string) (fs : ReplayFs) : ReplayFs :=
  mkFs (key_dirs fs) m (superseding fs) (quarantine_files fs).
Definition set_superseding (m : gmap string N) (fs : ReplayFs) : ReplayFs :=
  mkFs (key_dirs fs) (claims fs) m (quarantine_files fs).

Section store.
Context {env : ReplayEnv}.

Definition KEY_HASH_FRAME_PREFIX : list byte :=
  String.list_byte_of_string "symforge-idempotency-key-v1" ++ [x00].

(** [IdempotencyKey::new], then [key_hash]. *)
Definition key_new (raw : string) : Result string IdempotencyError :=
  if decide (raw = ""%string) then Err EmptyKey else Ok raw.
Definition key_hash (key : string) : string :=
  digest_hex (KEY_HASH_FRAME_PREFIX ++ String.list_byte_of_string key).

(** [ReplayRecord::reserved]. *)
Definition record_reserved (key_hash request_hash : string) (now : N) : ReplayRecord :=
  mkRecord REPLAY_RECORD_SCHEMA_VERSION key_hash request_hash Reserved now now None None.

Definition with_status_and_response (status : ReplayStatus) (response : option string) (now : N)
    (r : ReplayRecord) : ReplayRecord :=
  mkRecord (schema_version r) (rr_key_hash r) (rr_request_hash r) status (created_unix_millis r) now
    response (post_image r).

Definition set_post_image (receipt : PostImageReceipt) (r : ReplayRecord) : ReplayRecord :=
  mkRecord (schema_version r) (rr_key_hash r) (rr_request_hash r) (rr_status r) (created_unix_millis r)
    (updated_unix_millis r) (response_text r) (Some receipt).

(** [quarantine_record]: the record file is renamed away, unless that fails. *)
Definition quarantine_record (can_move : bool) (key : string) (bytes : list byte) (fs : ReplayFs) :
    IdempotencyError * ReplayFs :=
  if can_move then
    (CorruptRecordQuarantined,
     mkFs (<[key := None]> (key_dirs fs)) (claims fs) (superseding fs) (quarantine_files fs ++ [bytes]))
  else (CorruptRecord, fs).

Definition load_existing (can_move : bool) (key : string) (fs : ReplayFs) :
    Result ReplayRecord IdempotencyError * ReplayFs :=
  match key_dirs fs !! key with
  | None | Some None => (Err (IncompleteReservation key), fs)
  | Some (Some bytes) =>
      match decode_record bytes with
      | None => let '(e, fs) := quarantine_record can_move key bytes fs in (Err e, fs)
      | Some record =>
          if negb (schema_version record =? REPLAY_RECORD_SCHEMA_VERSION)%N then
            let '(e, fs) := quarantine_record can_move key bytes fs in (Err e, fs)
          else if decide (rr_key_hash record ≠ key) then
            let '(e, fs) := quarantine_record can_move key bytes fs in (Err e, fs)
          else (Ok record, fs)
      end
  end.

Definition ensure_same_hash (record : ReplayRecord) (incoming : string) : Result unit IdempotencyError :=
  if decide (rr_request_hash record = incoming) then Ok tt
  else Err (ConflictingRequest (rr_key_hash record) (rr_request_hash record) incoming).

(** [load_existing] followed by [ensure_same_hash]. *)
Definition load_same (can_move : bool) (key request : string) (fs : ReplayFs) :
    Result ReplayRecord IdempotencyError * ReplayFs :=
  match load_existing can_move key fs with
  | (Err e, fs) => (Err e, fs)
  | (Ok record, fs) =>
      match ensure_same_hash record request with
      | Err e => (Err e, fs)
      | Ok _ => (Ok record, fs)
      end
  end.

Definition replay_or_incomplete (can_move : bool) (key request : string) (fs : ReplayFs) :
    Result ReplayDecision IdempotencyError * ReplayFs :=
  match load_same can_move key request fs with
  | (Err e, fs) => (Err e, fs)
  | (Ok record, fs) => (Ok (Replay record), fs)
  end.

(** The probe that never reserves ([replay_if_present]). *)
Definition replay_if_present (can_move : bool) (key request : string) (fs : ReplayFs) :
    Result (option ReplayRecord) IdempotencyError * ReplayFs :=
  match key_dirs fs !! key with
  | None =>
      match claims fs !! key with
      | Some _ => (Err (Publishing key), fs)
      | None => (Ok None, fs)
      end
  | Some _ =>
      match load_same can_move key request fs with
      | (Err e, fs) => (Err e, fs)
      | (Ok record, fs) => (Ok (Some record), fs)
      end
  end.

(** ** Updating a record *)

Definition validate_replay_response (response : string) : Result unit IdempotencyError :=
  if MAX_REPLAY_RESPONSE_BYTES <? String.length response then Err ResponseTooLarge
  else if scan_clean response then Ok tt
  else Err UnsafeResponse.

Definition valid_transition (from to : ReplayStatus) : bool :=
  match from, to with
  | Reserved, (Started | Completed | Failed) => true
  | Started, (Completed | Uncertain) => true
  | _, _ => false
  end.

(** The outcomes of the file system during one update, and the clock. *)
Record UpdateChoice := mkChoice { uc_can_move : bool; uc_writes : bool; uc_now : N }.

(** [write_record_atomic]: temporary file, rename.  A failure after the rename, to sync the
    directory, is not modelled. *)
Definition write_record_atomic (writes : bool) (record : ReplayRecord) (fs : ReplayFs) :
    Result unit IdempotencyError * ReplayFs :=
  if writes then (Ok tt, set_dir (rr_key_hash record) (Some (encode_record record)) fs)
  else (Err IoError, fs).

Definition update_status_with_response (c : UpdateChoice) (key request : string) (status : ReplayStatus)
    (response : option string) (fs : ReplayFs) : Result ReplayRecord IdempotencyError * ReplayFs :=
  match match response with Some r => validate_replay_response r | None => Ok tt end with
  | Err e => (Err e, fs)
  | Ok _ =>
      match load_same (uc_can_move c) key request fs with
      | (Err e, fs) => (Err e, fs)
      | (Ok record, fs) =>
          if negb (valid_transition (rr_status record) status) then (Err InvalidTransition, fs)
          else
            let updated := with_status_and_response status response (uc_now c) record in
            match write_record_atomic (uc_writes c) updated fs with
            | (Err e, fs) => (Err e, fs)
            | (Ok _, fs) => (Ok updated, fs)
            end
      end
  end.

Definition update_status_with_receipt (c : UpdateChoice) (key request response : string)
    (receipt : PostImageReceipt) (fs : ReplayFs) : Result ReplayRecord IdempotencyError * ReplayFs :=
  match validate_replay_response response with
  | Err e => (Err e, fs)
  | Ok _ =>
      match load_same (uc_can_move c) key request fs with
      | (Err e, fs) => (Err e, fs)
      | (Ok record, fs) =>
          match rr_status record with
          | Reserved | Started =>
              let updated := set_post_image receipt
                (with_status_and_response Completed (Some response) (uc_now c) record) in
              match write_record_atomic (uc_writes c) updated fs with
              | (Err e, fs) => (Err e, fs)
              | (Ok _, fs) => (Ok updated, fs)
              end
          | _ => (Err InvalidTransition, fs)
          end
      end
  end.

(** ** The methods of [ActiveReplay] *)

Inductive ActiveCall :=
| MarkStarted
| MarkUncertain
| Complete (response : string)
| CompleteWithPostImage (response : string) (receipt : option PostImageReceipt)
| Fail_ (response : string).

Definition active_call (call : ActiveCall) (c : UpdateChoice) (key request : string) (fs : ReplayFs) :
    Result ReplayRecord IdempotencyError * ReplayFs :=
  match call with
  | MarkStarted => update_status_with_response c key request Started None fs
  | MarkUncertain => update_status_with_response c key request Uncertain None fs
  | Complete response => update_status_with_response c key request Completed (Some response) fs
  | CompleteWithPostImage response receipt =>
      match receipt with
      | Some r =>
          match targets r with
          | [] => (Err ReceiptRequired, fs)
          | _ :: _ => update_status_with_receipt c key request response r fs
          end
      | None => (Err ReceiptRequired, fs)
      end
  | Fail_ response => update_status_with_response c key request Failed (Some response) fs
  end.

(** ** Replaying *)

Definition unsafe_replay : string :=
  "Error: Idempotency replay unavailable: persisted response requires reconciliation.".
Definition reconcile_replay : string :=
  "Error: Idempotency replay unavailable: stored operation requires reconciliation.".

Definition status_debug (s : ReplayStatus) : string :=
  match s with
  | Reserved => "Reserved" | Started => "Started" | Uncertain => "Uncertain"
  | Completed => "Completed" | Failed => "Failed"
  end.

Definition replay_response (record : ReplayRecord) : string :=
  match rr_status record, response_text record with
  | (Completed | Failed), Some text =>
      match validate_replay_response text with Ok _ => text | Err _ => unsafe_replay end
  | Reserved, _ =>
      ("Error: Idempotency replay unavailable: request for key hash " +:+ rr_key_hash record
        +:+ " is still reserved.")%string
  | (Started | Uncertain), _ =>
      ("Error: Idempotency replay unavailable: request for key hash " +:+ rr_key_hash record
        +:+ " requires reconciliation.")%string
  | status, None =>
      ("Error: Idempotency replay unavailable: record for key hash " +:+ rr_key_hash record
        +:+ " has status " +:+ status_debug status +:+ " but no stored response.")%string
  end.

(** The decision of [begin_tool_replay_verified_with] about an existing record. *)
Definition verified_replay (verify : PostImageReceipt → bool) (record : ReplayRecord) : string :=
  let verified := match post_image record with Some r => verify r | None => false end in
  if decide (rr_status record = Completed) then
    if verified then replay_response record else reconcile_replay
  else reconcile_replay.

(** ** Post-images

    What a read of a path returns. *)
Inductive ReadResult := ReadOk (bytes : list byte) | ReadNotFound | ReadError.

Definition post_image_from_written_bytes (path : string) (bytes : list byte) : PostImageReceipt :=
  mkPostImage [mkTarget path (Some (digest_hex bytes))] None [].

Fixpoint capture_targets (read : string → ReadResult) (written : list string) :
    option (list PostImageTarget) :=
  match written with
  | [] => Some []
  | path :: rest =>
      match read path with
      | ReadError => None
      | ReadOk bytes => (λ l, mkTarget path (Some (digest_hex bytes)) :: l) <$> capture_targets read rest
      | ReadNotFound => (λ l, mkTarget path None :: l) <$> capture_targets read rest
      end
  end.

Definition capture_post_image (read : string → ReadResult) (written : list string) :
    option PostImageReceipt :=
  (λ l, mkPostImage l None []) <$> capture_targets read written.

Definition verify_target (read : string → ReadResult) (t : PostImageTarget) : bool :=
  match read (pt_path t) with
  | ReadOk bytes =>
      match content_digest t with
      | Some digest => bool_decide (digest = digest_hex bytes)
      | None => false
      end
  | ReadNotFound => match content_digest t with None => true | Some _ => false end
  | ReadError => false
  end.

Definition verify_post_image (read : string → ReadResult) (r : PostImageReceipt) : bool :=
  forallb (verify_target read) (targets r).

(** ** Supersede claims *)

Definition SUPERSEDE_MARKER_STALE : N := 60.

(** [create_new], or heal a stale marker without claiming. *)
Definition try_claim_supersede (key : string) (now : N) (fs : ReplayFs) : bool * ReplayFs :=
  match superseding fs !! key with
  | None => (true, set_superseding (<[key := now]> (superseding fs)) fs)
  | Some modified =>
      if (SUPERSEDE_MARKER_STALE <? now - modified)%N
      then (false, set_superseding (delete key (superseding fs)) fs)
      else (false, fs)
  end.

Definition release_supersede (key : string) (fs : ReplayFs) : ReplayFs :=
  set_superseding (delete key (superseding fs)) fs.
End store.

(** ** The life of a record *)

Section lifecycle.
Context {env : ReplayEnv}.

(** The record that a load of [key] returns: readable, of this schema, and its own. *)
Definition readable (key : string) (bytes : list byte) : option ReplayRecord :=
  r ← decode_record bytes;
  if (schema_version r =? REPLAY_RECORD_SCHEMA_VERSION)%N then
    if decide (rr_key_hash r = key) then Some r else None
  else None.

Definition stored (key : string) (fs : ReplayFs) : option ReplayRecord :=
  match key_dirs fs !! key with
  | Some (Some bytes) => readable key bytes
  | _ => None
  end.

Definition terminal (s : ReplayStatus) : Prop := s = Completed ∨ s = Failed ∨ s = Uncertain.

(** One update of a record: the identity stays, the status moves along a valid
    transition, and a response comes only validated and with a final status. *)
Definition advanced (r r' : ReplayRecord) : Prop :=
  rr_key_hash r' = rr_key_hash r ∧ rr_request_hash r' = rr_request_hash r ∧
  created_unix_millis r' = created_unix_millis r ∧ schema_version r' = schema_version r ∧
  valid_transition (rr_status r) (rr_status r') = true ∧
  (∀ t, response_text r' = Some t →
     validate_replay_response t = Ok tt ∧ (rr_status r' = Completed ∨ rr_status r' = Failed)) ∧
  (post_image r' = post_image r ∨
   rr_status r' = Completed ∧ ∃ receipt, post_image r' = Some receipt ∧ targets receipt ≠ []).

Lemma stored_set_dir k key v fs :
  stored k (set_dir key v fs) =
    if decide (k = key) then match v with Some bytes => readable key bytes | None => None end
    else stored k fs.
Proof.
  unfold stored. simpl. case_decide as E; [subst k; rewrite lookup_insert_eq; by destruct v|].
  by rewrite lookup_insert_ne.
Qed.

Lemma load_existing_spec b key fs :
  match stored key fs with
  | Some r => load_existing b key fs = (Ok r, fs)
  | None => ∃ e fs', load_existing b key fs = (Err e, fs') ∧
      (fs' = fs ∨ key_dirs fs' = <[key := None]> (key_dirs fs) ∧ is_Some (key_dirs fs !! key) ∧ claims fs' = claims fs)
  end.
Proof.
  unfold stored, load_existing. destruct (key_dirs fs !! key) as [[bytes|]|] eqn:E; [|eauto..].
  unfold readable, quarantine_record. destruct (decode_record bytes) as [r|]; simpl.
  2: { destruct b; eexists _, _; (split; [done|]); eauto. }
  destruct (schema_version r =? REPLAY_RECORD_SCHEMA_VERSION)%N; simpl.
  2: { destruct b; eexists _, _; (split; [done|]); eauto. }
  destruct (decide (rr_key_hash r = key)) as [Hk|Hk].
  - by rewrite decide_False by (intros []; done).
  - rewrite decide_True by done. destruct b; eexists _, _; (split; [done|]); eauto.
Qed.

(** A load never changes what is stored. *)
Lemma load_same_spec b key request fs r fs' :
  load_same b key request fs = (r, fs') →
  (∀ k, stored k fs' = stored k fs) ∧
  (∀ rec, r = Ok rec → fs' = fs ∧ stored key fs = Some rec ∧ rr_request_hash rec = request).
Proof.
  unfold load_same, ensure_same_hash. intros H. pose proof (load_existing_spec b key fs) as Hl.
  destruct (stored key fs) as [rec|] eqn:Es.
  - rewrite Hl in H. case_decide as Hh; simplify_eq; naive_solver.
  - destruct Hl as (e & fs1 & E & Hfs). rewrite E in H. simplify_eq. split; [|done]. intros k.
    destruct Hfs as [->|(Ed & _ & _)]; [done|]. unfold stored at 1. rewrite Ed.
    destruct (decide (k = key)) as [->|Hne]; [rewrite lookup_insert_eq; by rewrite Es|].
    by rewrite lookup_insert_ne.
Qed.

Lemma readable_encode key r :
  schema_version r = REPLAY_RECORD_SCHEMA_VERSION → rr_key_hash r = key →
  readable key (encode_record r) = Some r.
Proof.
  intros Hs Hk. unfold readable. rewrite decode_encode. simpl. rewrite Hs. simpl. by rewrite decide_True.
Qed.

Lemma stored_good key fs r :
  stored key fs = Some r → schema_version r = REPLAY_RECORD_SCHEMA_VERSION ∧ rr_key_hash r = key.
Proof.
  unfold stored, readable. intros H. destruct (key_dirs fs !! key) as [[bytes|]|]; [|done..].
  destruct (decode_record bytes) as [r0|]; simpl in H; [|done].
  destruct (N.eqb_spec (schema_version r0) REPLAY_RECORD_SCHEMA_VERSION); [|done]. by case_decide; simplify_eq.
Qed.

(** Writing an update of the stored record. *)
Lemma write_record_spec writes key rec updated fs r fs' :
  stored key fs = Some rec → rr_key_hash updated = rr_key_hash rec →
  schema_version updated = schema_version rec →
  write_record_atomic writes updated fs = (r, fs') →
  ∀ k, stored k fs' = stored k fs ∨ (k = key ∧ stored k fs' = Some updated).
Proof.
  intros Hs Hk Hv H k. destruct (stored_good _ _ _ Hs) as [Hs1 Hs2]. unfold write_record_atomic in H.
  destruct writes; injection H as <- <-; [|by left]. rewrite Hk, Hs2, stored_set_dir.
  destruct (decide (k = key)) as [E|]; [right|by left]. split; [done|]. apply readable_encode; congruence.
Qed.

Lemma active_call_step call c key request fs r fs' :
  active_call call c key request fs = (r, fs') → ∀ k,
  stored k fs' = stored k fs ∨
  ∃ rec rec', k = key ∧ stored k fs = Some rec ∧ stored k fs' = Some rec' ∧ advanced rec rec'.
Proof.
  intros H k.
  assert (Hresp : ∀ status response r0 fs0,
    update_status_with_response c key request status response fs = (r0, fs0) →
    (status = Completed ∨ status = Failed ∨ response = None) →
    stored k fs0 = stored k fs ∨
    ∃ rec rec', k = key ∧ stored k fs = Some rec ∧ stored k fs0 = Some rec' ∧ advanced rec rec').
  { intros status response r0 fs0 Hu Hst. unfold update_status_with_response in Hu.
    destruct (match response with Some x => validate_replay_response x | None => Ok tt end) as [[]|e] eqn:Ev;
      [|simplify_eq; by left].
    destruct (load_same (uc_can_move c) key request fs) as [[rec|e] fs1] eqn:El;
      destruct (load_same_spec _ _ _ _ _ _ El) as [Hk Hrec]; [|simplify_eq; left; apply Hk].
    destruct (Hrec rec eq_refl) as (-> & Hs & _).
    destruct (valid_transition (rr_status rec) status) eqn:Et; simpl in Hu; [|simplify_eq; by left].
    set (updated := with_status_and_response status response (uc_now c) rec) in Hu.
    destruct (write_record_atomic (uc_writes c) updated fs) as [[u|e] fs2] eqn:Ew; simplify_eq;
      (destruct (write_record_spec _ key rec updated fs _ _ Hs eq_refl eq_refl Ew k) as [?|[-> Hk']]; [by left|]);
      right; exists rec, updated; (split_and!; [done..|]).
    all: unfold advanced; split_and!; try done; [|by left].
    all: intros t Ht; simpl in Ht; rewrite Ht in Ev, Hst; split; [done|]; simpl;
      destruct Hst as [?|[?|?]]; [by left|by right|done]. }
  destruct call; simpl in H; try (by eapply Hresp; eauto).
  destruct receipt as [receipt|]; [|simplify_eq; by left].
  destruct (targets receipt) as [|tgt tgts] eqn:Etg; [simplify_eq; by left|].
  unfold update_status_with_receipt in H.
  destruct (validate_replay_response response) as [[]|e] eqn:Ev; [|simplify_eq; by left].
  destruct (load_same (uc_can_move c) key request fs) as [[rec|e] fs1] eqn:El;
    destruct (load_same_spec _ _ _ _ _ _ El) as [Hk Hrec]; [|simplify_eq; left; apply Hk].
  destruct (Hrec rec eq_refl) as (-> & Hs & _).
  set (updated := set_post_image receipt _) in H.
  assert (Hadv : valid_transition (rr_status rec) Completed = true → advanced rec updated).
  { intros Hv. unfold advanced. split_and!; try done.
    - intros t [= <-]. split; [done|by left].
    - right. split; [done|]. exists receipt. split; [done|]. by rewrite Etg. }
  destruct (rr_status rec); try (simplify_eq; by left);
    (destruct (write_record_atomic (uc_writes c) updated fs) as [[u|e] fs2] eqn:Ew; simplify_eq;
     (destruct (write_record_spec _ key rec updated fs _ _ Hs eq_refl eq_refl Ew k) as [?|[-> Hk']]; [by left|]);
     right; exists rec, updated; (split_and!; [done..|by apply Hadv])).
Qed.
(** Any calls on any keys, one after the other. *)
Record ReplayCall := mkCall { rc_call : ActiveCall; rc_choice : UpdateChoice; rc_key : string; rc_request : string }.

Definition run_call (fs : ReplayFs) (c : ReplayCall) : ReplayFs :=
  (active_call (rc_call c) (rc_choice c) (rc_key c) (rc_request c) fs).2.
Definition run_calls (cs : list ReplayCall) (fs : ReplayFs) : ReplayFs := fold_left run_call cs fs.

Lemma run_call_step fs c k :
  stored k (run_call fs c) = stored k fs ∨
  ∃ rec rec', stored k fs = Some rec ∧ stored k (run_call fs c) = Some rec' ∧ advanced rec rec'.
Proof.
  unfold run_call. destruct (active_call _ _ _ _ fs) as [r fs'] eqn:E.
  destruct (active_call_step _ _ _ _ _ _ _ E k) as [?|(rec & rec' & _ & ? & ? & ?)]; [by left|right; eauto].
Qed.

(** C35: a finished record is final: once it is completed, failed or uncertain, no sequence
    of calls on this or on other keys, with this or another request, whatever the file
    system answers, changes a byte of what a retry will read. *)
Theorem finished_record_final key fs rec cs :
  stored key fs = Some rec → terminal (rr_status rec) → stored key (run_calls cs fs) = Some rec.
Proof.
  revert fs. induction cs as [|c cs IH]; intros fs Hs Ht; [done|]. simpl. apply IH; [|done].
  destruct (run_call_step fs c key) as [->|(r & r' & Hr & _ & Ha)]; [done|]. exfalso.
  rewrite Hs in Hr. simplify_eq. destruct Ha as (_ & _ & _ & _ & Hv & _).
  destruct Ht as [E|[E|E]]; rewrite E in Hv; by destruct (rr_status r').
Qed.

(** What holds of a record from its reservation on. *)
Definition record_sound (reserved r : ReplayRecord) : Prop :=
  rr_key_hash r = rr_key_hash reserved ∧ rr_request_hash r = rr_request_hash reserved ∧
  created_unix_millis r = created_unix_millis reserved ∧
  (∀ t, response_text r = Some t →
     validate_replay_response t = Ok tt ∧ (rr_status r = Completed ∨ rr_status r = Failed)) ∧
  (∀ receipt, post_image r = Some receipt → rr_status r = Completed ∧ targets receipt ≠ []).

(** From its reservation on a record keeps its key, its request and its time of
    creation; a response is in it only if it passed validation and the operation has
    completed or failed, and a receipt only if it completed and names a target. *)
Theorem record_lifecycle key request now fs cs :
  stored key fs = Some (record_reserved key request now) →
  ∃ rec, stored key (run_calls cs fs) = Some rec ∧ record_sound (record_reserved key request now) rec.
Proof.
  intros Hs. set (res := record_reserved key request now) in *.
  assert (H0 : record_sound res res) by (unfold record_sound, res; simpl; naive_solver).
  revert H0 Hs. generalize res at 2 3 as rec. revert fs.
  induction cs as [|c cs IH]; intros fs rec Hr Hs; [by exists rec|]. simpl.
  destruct (run_call_step fs c key) as [E|(r & r' & E & E' & Ha)].
  - apply (IH _ rec); [done|by rewrite E].
  - apply (IH _ r'); [|done]. rewrite Hs in E. simplify_eq.
    destruct Hr as (H1 & H2 & H3 & H4 & H5). destruct Ha as (A1 & A2 & A3 & A4 & A5 & A6 & A7).
    unfold record_sound. split_and!; [congruence..|done|]. intros receipt Hp.
    destruct A7 as [A7|(? & receipt' & Hp' & ?)]; [|naive_solver].
    rewrite A7 in Hp. destruct (H5 receipt Hp) as [Hc _]. rewrite Hc in A5. by destruct (rr_status r').
Qed.

(** The verified lane never replays on trust: a stored response is returned if and only
    if the record is completed, its receipt verifies now and its text passes validation
    now; every other record - reserved, started, uncertain, failed, without a receipt, or
    with files that changed since - is answered with an error instead. *)
Theorem verified_replay_fences verify rec text :
  response_text rec = Some text → text ≠ reconcile_replay → text ≠ unsafe_replay →
  verified_replay verify rec = text ↔
    rr_status rec = Completed ∧ (∃ receipt, post_image rec = Some receipt ∧ verify receipt = true) ∧
    validate_replay_response text = Ok tt.
Proof.
  intros Ht Hr Hu. unfold verified_replay. case_decide as Ec; [|split; [congruence|by intros [? _]]].
  destruct (post_image rec) as [receipt|]; [|split; [congruence|by intros (_ & (? & ? & _) & _)]].
  destruct (verify receipt) eqn:Ev; [|split; [congruence|by intros (_ & (? & [= <-] & ?) & _); congruence]].
  unfold replay_response. rewrite Ec, Ht.
  destruct (validate_replay_response text) as [[]|e]; [|split; [congruence|by intros (_ & _ & ?)]].
  split; [|done]. intros _. split_and!; [done|eauto|done].
Qed.

(** ** Post-images *)

Definition read_digest (r : ReadResult) : option (option string) :=
  match r with
  | ReadOk bytes => Some (Some (digest_hex bytes))
  | ReadNotFound => Some None
  | ReadError => None
  end.

Lemma verify_target_spec read t :
  verify_target read t = true ↔ read_digest (read (pt_path t)) = Some (content_digest t).
Proof.
  unfold verify_target. destruct (read (pt_path t)); simpl.
  - destruct (content_digest t); [|by split]. rewrite bool_decide_eq_true. split; congruence.
  - by destruct (content_digest t).
  - by split.
Qed.

(** A captured receipt describes exactly the files it was captured from: it verifies
    against a later state of the disk if and only if every written path reads as it did -
    the same digest, or still absent - and a path that could not be read yields no
    receipt at all. *)
Theorem capture_verifies read written receipt read' :
  capture_post_image read written = Some receipt →
  verify_post_image read' receipt = true ↔
    ∀ p, p ∈ written → read_digest (read p) ≠ None ∧ read_digest (read' p) = read_digest (read p).
Proof.
  unfold capture_post_image, verify_post_image. intros (l & Hl & ->)%fmap_Some. cbn [targets].
  revert l Hl. induction written as [|p written IH]; intros l Hl; simpl in Hl.
  { simplify_eq. split; [intros _ p ?%not_elem_of_nil|]; done. }
  assert (Hcons : ∃ d l', l = mkTarget p d :: l' ∧ read_digest (read p) = Some d ∧
    capture_targets read written = Some l').
  { destruct (read p); simpl; [| |done]; apply fmap_Some in Hl as (l' & ? & ->); eauto. }
  destruct Hcons as (d & l' & -> & Hd & Hl'). simpl.
  rewrite andb_true_iff, (IH l' Hl'), verify_target_spec. simpl. setoid_rewrite elem_of_cons. split.
  - intros [E Hr] q [->|Hq]; [by rewrite Hd, E|by apply Hr].
  - intros H. split; [|auto]. destruct (H p) as [_ ->]; auto.
Qed.
End lifecycle.

(** ** Reservation by any number of processes *)

Section reservation.
Context {env : ReplayEnv}.

Abbreviation Decision_ := (Result ReplayDecision IdempotencyError).

(** Where a call of [check_or_reserve] is: about to look for the key directory, to create
    the marker (its record staged in a directory of its own), to look again, to rename,
    to remove the marker, waiting for another's publication, or returned. *)
Inductive ReservePc :=
| RCheck
| RClaim
| RPublish
| RRename
| RRelease (r : Decision_)
| RWait
| RDone (r : Decision_).

Record Reserver := mkReserver {
  rv_key : string;
  rv_request : string;
  rv_now : N;
  rv_pc : ReservePc;
}.

(** How the next call of the file system turns out: whether it succeeds, whether the
    marker is created at all (it may be created and not written), whether a corrupt record
    can be moved away, whether the wait is over, whether the key directory can be examined
    ([Path::exists] takes a failure to do so for absence), and whether its record can be
    read. *)
Record IoChoice := mkIo {
  io_ok : bool; io_created : bool; io_can_move : bool; io_expired : bool; io_stat : bool; io_read : bool;
}.

Definition record_of (t : Reserver) : ReplayRecord := record_reserved (rv_key t) (rv_request t) (rv_now t).

(** A rename of a directory succeeds onto nothing or onto an empty directory. *)
Definition renamable (key : string) (fs : ReplayFs) : bool :=
  match key_dirs fs !! key with
  | None | Some None => true
  | Some (Some _) => false
  end.

Definition reserve_step (c : IoChoice) (t : Reserver) (fs : ReplayFs) : option (ReservePc * ReplayFs) :=
  let key := rv_key t in
  let replay fs :=
    if io_read c then replay_or_incomplete (io_can_move c) key (rv_request t) fs else (Err IoError, fs) in
  let exists_dir := io_stat c && bool_decide (is_Some (key_dirs fs !! key)) in
  match rv_pc t with
  | RCheck =>
      if exists_dir then let '(r, fs) := replay fs in Some (RDone r, fs)
      else if io_ok c then Some (RClaim, fs) else Some (RDone (Err IoError), fs)
  | RClaim =>
      match claims fs !! key with
      | Some _ => Some (RWait, fs)
      | None =>
          if negb (io_created c) then Some (RDone (Err IoError), fs) else
          let fs := set_claims (<[key := rv_request t]> (claims fs)) fs in
          if io_ok c then Some (RPublish, fs) else Some (RDone (Err IoError), fs)
      end
  | RPublish =>
      if exists_dir then let '(r, fs) := replay fs in Some (RRelease r, fs) else Some (RRename, fs)
  | RRename =>
      if io_ok c && renamable key fs then
        Some (RRelease (Ok (FirstExecution (record_of t))),
              set_dir key (Some (encode_record (record_of t))) fs)
      else if exists_dir then let '(r, fs) := replay fs in Some (RRelease r, fs)
      else Some (RRelease (Err IoError), fs)
  | RRelease r =>
      Some (RDone r, if io_ok c then set_claims (delete key (claims fs)) fs else fs)
  | RWait =>
      if exists_dir then let '(r, fs) := replay fs in Some (RDone r, fs)
      else if bool_decide (claims fs !! key = None) || io_expired c
      then Some (RDone (Err (Publishing key)), fs)
      else Some (RWait, fs)
  | RDone _ => None
  end.

Record Sys := mkSys { sys_fs : ReplayFs; sys_threads : gmap nat Reserver }.

Definition set_pc (t : Reserver) (pc : ReservePc) : Reserver :=
  mkReserver (rv_key t) (rv_request t) (rv_now t) pc.

(** What is excluded: that examining a key directory fails, that a corrupt record is moved
    out of its directory, or nothing. *)
Inductive Regime := ExactStats | KeptRecords | Unrestricted.

Definition io_allowed (m : Regime) (c : IoChoice) : bool :=
  match m with
  | ExactStats => io_stat c
  | KeptRecords => negb (io_can_move c)
  | Unrestricted => true
  end.

Definition dir_allowed (m : Regime) (v : option (list byte)) : bool :=
  match m, v with KeptRecords, None => false | _, _ => true end.

(** One step of some process.  A crash forgets where the process was and leaves the files.
    An update of a record, or the move of a corrupt one, rewrites an existing key
    directory. *)
Inductive sys_step (m : Regime) : Sys → Sys → Prop :=
| sys_enter s i key request now :
    sys_threads s !! i = None →
    sys_step m s (mkSys (sys_fs s) (<[i := mkReserver key request now RCheck]> (sys_threads s)))
| sys_advance s i t c pc fs' :
    io_allowed m c = true → sys_threads s !! i = Some t → reserve_step c t (sys_fs s) = Some (pc, fs') →
    sys_step m s (mkSys fs' (<[i := set_pc t pc]> (sys_threads s)))
| sys_crash s i t :
    sys_threads s !! i = Some t → (∀ r, rv_pc t ≠ RDone r) →
    sys_step m s (mkSys (sys_fs s) (delete i (sys_threads s)))
| sys_update s key v :
    dir_allowed m v = true → is_Some (key_dirs (sys_fs s) !! key) →
    sys_step m s (mkSys (set_dir key v (sys_fs s)) (sys_threads s)).

Definition sys_init : Sys := mkSys (mkFs ∅ ∅ ∅ []) ∅.

Definition holding (pc : ReservePc) : bool :=
  match pc with RPublish | RRename | RRelease _ => true | _ => false end.
Definition won (pc : ReservePc) : bool :=
  match pc with
  | RRelease (Ok (FirstExecution _)) | RDone (Ok (FirstExecution _)) => true
  | _ => false
  end.

(** The decisions carry the thread's own record, or one of its own request. *)
Definition decision_ok (t : Reserver) : Prop :=
  match rv_pc t with
  | RRelease (Ok d) | RDone (Ok d) =>
      match d with
      | FirstExecution r => r = record_of t
      | Replay r => rr_key_hash r = rv_key t ∧ rr_request_hash r = rv_request t
      end
  | _ => True
  end.

(** No key directory is without its record. *)
Definition full_dirs (fs : ReplayFs) : Prop := ∀ k, key_dirs fs !! k ≠ Some None.

Section regime.
Context (m : Regime).

Record sys_inv (s : Sys) : Prop := {
  si_marker : ∀ i t, sys_threads s !! i = Some t → holding (rv_pc t) = true →
    is_Some (claims (sys_fs s) !! rv_key t);
  si_owner : ∀ i j t u, sys_threads s !! i = Some t → sys_threads s !! j = Some u →
    holding (rv_pc t) = true → holding (rv_pc u) = true → rv_key t = rv_key u → i = j;
  si_rename : m = ExactStats → ∀ i t, sys_threads s !! i = Some t → rv_pc t = RRename →
    key_dirs (sys_fs s) !! rv_key t = None;
  si_full : m = KeptRecords → full_dirs (sys_fs s);
  si_won : ∀ i t, sys_threads s !! i = Some t → won (rv_pc t) = true →
    is_Some (key_dirs (sys_fs s) !! rv_key t);
  si_once : ∀ i j t u, sys_threads s !! i = Some t → sys_threads s !! j = Some u →
    won (rv_pc t) = true → won (rv_pc u) = true → rv_key t = rv_key u → i = j;
  si_decision : ∀ i t, sys_threads s !! i = Some t → decision_ok t;
}.

(** A replay keeps every key directory and every marker. *)
Lemma replay_keeps b key request fs r fs' :
  replay_or_incomplete b key request fs = (r, fs') →
  claims fs' = claims fs ∧
  (∀ k, is_Some (key_dirs fs' !! k) ↔ is_Some (key_dirs fs !! k)) ∧
  ∀ d, r = Ok d → ∃ rec, d = Replay rec ∧ rr_key_hash rec = key ∧ rr_request_hash rec = request.
Proof.
  unfold replay_or_incomplete, load_same, ensure_same_hash. intros H.
  pose proof (load_existing_spec b key fs) as Hl. destruct (stored key fs) as [rec|] eqn:Es.
  - rewrite Hl in H. destruct (stored_good _ _ _ Es) as [_ Hk]. case_decide; simplify_eq.
    + split_and!; [done|done|]. intros d [= <-]. eauto.
    + done.
  - destruct Hl as (e & fs1 & E & Hfs). rewrite E in H. simplify_eq.
    destruct Hfs as [->|(Ed & Hsome & Ec)]; [done|]. split_and!; [done| |done].
    intros k. rewrite Ed, lookup_insert_is_Some'. naive_solver.
Qed.

Lemma replay_unmoved key request fs r fs' : replay_or_incomplete false key request fs = (r, fs') → fs' = fs.
Proof.
  unfold replay_or_incomplete, load_same, load_existing, quarantine_record. intros H.
  repeat case_match; by simplify_eq.
Qed.

Lemma thread_step s i t pc fs' :
  sys_inv s → sys_threads s !! i = Some t →
  (∀ k, is_Some (key_dirs (sys_fs s) !! k) → is_Some (key_dirs fs' !! k)) →
  (∀ k, is_Some (key_dirs fs' !! k) →
     is_Some (key_dirs (sys_fs s) !! k) ∨ (k = rv_key t ∧ holding (rv_pc t) = true)) →
  (∀ k, is_Some (claims (sys_fs s) !! k) →
     is_Some (claims fs' !! k) ∨ (k = rv_key t ∧ holding (rv_pc t) = true)) →
  (holding pc = true → is_Some (claims fs' !! rv_key t) ∧
     (holding (rv_pc t) = true ∨ claims (sys_fs s) !! rv_key t = None)) →
  (m = ExactStats → pc = RRename → key_dirs fs' !! rv_key t = None) →
  (m = KeptRecords → full_dirs fs') →
  (won pc = true → is_Some (key_dirs fs' !! rv_key t) ∧
     (won (rv_pc t) = true ∨ key_dirs (sys_fs s) !! rv_key t = None)) →
  decision_ok (set_pc t pc) →
  sys_inv (mkSys fs' (<[i := set_pc t pc]> (sys_threads s))).
Proof.
  intros [I1 I2 I3 If I4 I5 I6] Hi H1 H2 H3 H4 H5 Hf H6 H7.
  (* another thread that holds the marker of this thread's key excludes that this one does *)
  assert (Hfree : ∀ j u, i ≠ j → sys_threads s !! j = Some u → holding (rv_pc u) = true →
    rv_key u = rv_key t → holding (rv_pc t) = true → False).
  { intros j u Hne Hj Hu Ek Ht. apply Hne. by apply (I2 i j t u). }
  constructor; simpl.
  - intros j u [[<- <-]|[Hne Hj]]%lookup_insert_Some Hu; [by apply H4|].
    destruct (H3 (rv_key u) (I1 j u Hj Hu)) as [?|[Ek Ht]]; [done|]. exfalso. by eapply Hfree.
  - assert (Hone : ∀ j u, i ≠ j → sys_threads s !! j = Some u → holding (rv_pc u) = true →
      rv_key u = rv_key t → holding pc = true → False).
    { intros j u Hne Hj Hu Ek Hp. destruct (H4 Hp) as [_ [Ht|Hn]]; [by eapply Hfree|].
      pose proof (I1 j u Hj Hu) as Hm. rewrite Ek, Hn in Hm. by destruct Hm. }
    intros j k u v [[<- <-]|[Hne Hj]]%lookup_insert_Some [[<- <-]|[Hne' Hk]]%lookup_insert_Some Hu Hv E;
      [done|exfalso; by eapply (Hone k v)|exfalso; by eapply (Hone j u)|by eapply (I2 j k)].
  - intros Hm j u [[<- <-]|[Hne Hj]]%lookup_insert_Some Hu; [by apply H5|].
    apply eq_None_not_Some. intros Hs. apply H2 in Hs as [Hs|[Ek Ht]].
    + rewrite (I3 Hm j u Hj Hu) in Hs. by destruct Hs.
    + eapply (Hfree j u); try done. by rewrite Hu.
  - exact Hf.
  - intros j u [[<- <-]|[Hne Hj]]%lookup_insert_Some Hu; [by apply H6|]. by apply H1, (I4 j).
  - assert (Hone : ∀ j u, i ≠ j → sys_threads s !! j = Some u → won (rv_pc u) = true →
      rv_key u = rv_key t → won pc = true → False).
    { intros j u Hne Hj Hu Ek Hp. destruct (H6 Hp) as [_ [Ht|Hn]]; [apply Hne; by apply (I5 i j t u)|].
      pose proof (I4 j u Hj Hu) as Hm. rewrite Ek, Hn in Hm. by destruct Hm. }
    intros j k u v [[<- <-]|[Hne Hj]]%lookup_insert_Some [[<- <-]|[Hne' Hk]]%lookup_insert_Some Hu Hv E;
      [done|exfalso; by eapply (Hone k v)|exfalso; by eapply (Hone j u)|by eapply (I5 j k)].
  - intros j u [[<- <-]|[Hne Hj]]%lookup_insert_Some; [done|by apply (I6 j)].
Qed.

(** The steps that end in a replay, with the marker held or not. *)
Lemma replay_step_inv s i t b rd r fs' pc :
  sys_inv s → sys_threads s !! i = Some t → (m = KeptRecords → b = false) →
  (if rd : bool then replay_or_incomplete b (rv_key t) (rv_request t) (sys_fs s) else (Err IoError, sys_fs s)) = (r, fs') →
  (pc = RDone r ∨ pc = RRelease r ∧ holding (rv_pc t) = true) →
  sys_inv (mkSys fs' (<[i := set_pc t pc]> (sys_threads s))).
Proof.
  intros Hs Hi Hb Hr Hpc.
  assert (claims fs' = claims (sys_fs s) ∧
    (∀ k, is_Some (key_dirs fs' !! k) ↔ is_Some (key_dirs (sys_fs s) !! k)) ∧
    (∀ d, r = Ok d → ∃ rec, d = Replay rec ∧ rr_key_hash rec = rv_key t ∧ rr_request_hash rec = rv_request t) ∧
    (m = KeptRecords → fs' = sys_fs s)) as (Ec & Ed & Hd & Hk).
  { destruct rd; [|by simplify_eq]. destruct (replay_keeps _ _ _ _ _ _ Hr) as (? & ? & ?). split_and!; [done..|].
    intros Hm. rewrite (Hb Hm) in Hr. by eapply replay_unmoved. }
  assert (Hnw : won pc = false).
  { destruct r as [d|e]; [|by destruct Hpc as [->|[-> _]]].
    destruct (Hd d eq_refl) as (rec & -> & _). by destruct Hpc as [->|[-> _]]. }
  apply thread_step; try done.
  - intros k. by rewrite Ed.
  - intros k. rewrite Ed. by left.
  - intros k. rewrite Ec. by left.
  - intros Hh. rewrite Ec. destruct Hpc as [->|[-> Ht]]; [done|]. split; [|by left].
    by apply (si_marker _ Hs i t).
  - intros _ ->. by destruct Hpc as [?|[? _]].
  - intros Hm. rewrite (Hk Hm). by apply (si_full _ Hs).
  - congruence.
  - unfold decision_ok. simpl. destruct Hpc as [->|[-> _]]; (destruct r as [d|e]; [|done]);
      destruct (Hd d eq_refl) as (rec & -> & ? & ?); done.
Qed.

Lemma exists_dir_false key fs c :
  io_stat c && bool_decide (is_Some (key_dirs fs !! key)) = false → io_stat c = true → key_dirs fs !! key = None.
Proof. intros H E. rewrite E in H. apply bool_decide_eq_false in H. by rewrite eq_None_not_Some. Qed.

(** Under either restriction a rename that succeeds made the key directory. *)
Lemma renamed_was_absent s i t :
  m ≠ Unrestricted → sys_inv s → sys_threads s !! i = Some t → rv_pc t = RRename →
  renamable (rv_key t) (sys_fs s) = true → key_dirs (sys_fs s) !! rv_key t = None.
Proof.
  intros Hm Hs Hi Epc Hr. destruct m eqn:Em; [by apply (si_rename _ Hs Em i)| |done].
  pose proof (si_full _ Hs Em (rv_key t)) as Hf. unfold renamable in Hr.
  by destruct (key_dirs (sys_fs s) !! rv_key t) as [[]|].
Qed.

Lemma reserve_step_inv s i t c pc fs' :
  m ≠ Unrestricted → io_allowed m c = true →
  sys_inv s → sys_threads s !! i = Some t → reserve_step c t (sys_fs s) = Some (pc, fs') →
  sys_inv (mkSys fs' (<[i := set_pc t pc]> (sys_threads s))).
Proof.
  intros Hm Hc Hs Hi H. unfold reserve_step in H. pose proof (si_full _ Hs) as Hfull.
  assert (m = KeptRecords → io_can_move c = false) as Hmove.
  { intros E. unfold io_allowed in Hc. rewrite E in Hc. by apply negb_true_iff. }
  destruct (rv_pc t) as [| | | |r0| |r0] eqn:Epc; try done.
  - destruct (io_stat c && _) eqn:Ex.
    { destruct (if io_read c then _ else _) as [r fs1] eqn:Er. simplify_eq.
      eapply replay_step_inv; [done..|by left]. }
    destruct (io_ok c); simplify_eq; by apply thread_step; auto.
  - destruct (claims (sys_fs s) !! rv_key t) as [mk|] eqn:Em.
    { simplify_eq. by apply thread_step; auto. }
    assert (Hcl : ∀ k, is_Some (claims (sys_fs s) !! k) →
      is_Some (<[rv_key t := rv_request t]> (claims (sys_fs s)) !! k)).
    { intros k Hk. apply lookup_insert_is_Some'. by right. }
    destruct (io_created c); simpl in H; [|simplify_eq; by apply thread_step; auto].
    destruct (io_ok c); simplify_eq; (apply thread_step; simpl; auto; try done).
    intros _. split; [|by right]. rewrite lookup_insert_eq. by eexists.
  - destruct (io_stat c && _) eqn:Ex.
    { destruct (if io_read c then _ else _) as [r fs1] eqn:Er. simplify_eq.
      eapply replay_step_inv; [done..|]. right. by rewrite Epc. }
    simplify_eq. apply thread_step; auto; try done.
    + intros _. split; [|left; by rewrite Epc]. apply (si_marker _ Hs i t); [done|by rewrite Epc].
    + intros E _. apply (exists_dir_false _ _ c Ex). unfold io_allowed in Hc. by rewrite E in Hc.
  - destruct (io_ok c && renamable (rv_key t) (sys_fs s)) eqn:Er.
    + apply andb_true_iff in Er as [_ Er]. pose proof (renamed_was_absent s i t Hm Hs Hi Epc Er) as Hnone.
      simplify_eq. apply thread_step; simpl; try done.
      * intros k Hk. apply lookup_insert_is_Some'. by right.
      * intros k [<-|?]%lookup_insert_is_Some'; [right; by rewrite Epc|by left].
      * by left.
      * intros _. split; [|left; by rewrite Epc]. apply (si_marker _ Hs i t); [done|by rewrite Epc].
      * intros E k. simpl. rewrite lookup_insert. case_decide; [done|by apply Hfull].
      * intros _. split; [|by right]. rewrite lookup_insert_eq. by eexists.
    + destruct (io_stat c && _) eqn:Ex.
      { destruct (if io_read c then _ else _) as [r fs1] eqn:Er'. simplify_eq.
        eapply replay_step_inv; [done..|]. right. by rewrite Epc. }
      simplify_eq. apply thread_step; auto; try done.
      intros _. split; [|left; by rewrite Epc]. apply (si_marker _ Hs i t); [done|by rewrite Epc].
  - simplify_eq.
    assert (Hdec : decision_ok (set_pc t (RDone r0))).
    { pose proof (si_decision _ Hs i t Hi) as Hd. unfold decision_ok in *. rewrite Epc in Hd. simpl. done. }
    assert (Hwon : won (RDone r0) = true → is_Some (key_dirs (sys_fs s) !! rv_key t) ∧
      (won (rv_pc t) = true ∨ key_dirs (sys_fs s) !! rv_key t = None)).
    { intros Hw. assert (Hw' : won (rv_pc t) = true) by (rewrite Epc; by destruct r0 as [[]|]).
      split; [by apply (si_won _ Hs i)|by left]. }
    destruct (io_ok c); (apply thread_step; simpl; auto; try done).
    intros k Hk. destruct (decide (k = rv_key t)) as [->|Hne]; [right; by rewrite Epc|left].
    by rewrite lookup_delete_ne.
  - destruct (io_stat c && _) eqn:Ex.
    { destruct (if io_read c then _ else _) as [r fs1] eqn:Er. simplify_eq.
      eapply replay_step_inv; [done..|by left]. }
    destruct (_ || _); simplify_eq; by apply thread_step; auto.
Qed.

Lemma replay_sys_step_inv s s' : m ≠ Unrestricted → sys_inv s → sys_step m s s' → sys_inv s'.
Proof.
  intros Hm Hs Hstep. destruct Hstep as [s i key request now Hi|s i t c pc fs' Hc Hi Hr|s i t Hi _|s key v Hv Hk].
  - destruct Hs as [I1 I2 I3 If I4 I5 I6]. constructor; simpl; try done.
    + intros j u [[<- <-]|[_ Hj]]%lookup_insert_Some Hu; [done|by eapply I1].
    + intros j k u w [[<- <-]|[_ Hj]]%lookup_insert_Some [[<- <-]|[_ Hk]]%lookup_insert_Some Hu Hw E;
        [done..|by eapply I2].
    + intros E j u [[<- <-]|[_ Hj]]%lookup_insert_Some Hu; [done|by eapply I3].
    + intros j u [[<- <-]|[_ Hj]]%lookup_insert_Some Hu; [done|by eapply I4].
    + intros j k u w [[<- <-]|[_ Hj]]%lookup_insert_Some [[<- <-]|[_ Hk]]%lookup_insert_Some Hu Hw E;
        [done..|by eapply I5].
    + intros j u [[<- <-]|[_ Hj]]%lookup_insert_Some; [done|by eapply I6].
  - by eapply reserve_step_inv.
  - destruct Hs as [I1 I2 I3 If I4 I5 I6]. constructor; simpl; try done.
    + intros j u [_ Hj]%lookup_delete_Some. by eapply I1.
    + intros j k u w [_ Hj]%lookup_delete_Some [_ Hk]%lookup_delete_Some. by eapply I2.
    + intros E j u [_ Hj]%lookup_delete_Some. by eapply I3.
    + intros j u [_ Hj]%lookup_delete_Some. by eapply I4.
    + intros j k u w [_ Hj]%lookup_delete_Some [_ Hk]%lookup_delete_Some. by eapply I5.
    + intros j u [_ Hj]%lookup_delete_Some. by eapply I6.
  - destruct Hs as [I1 I2 I3 If I4 I5 I6]. constructor; simpl; try done.
    + intros E j u Hj Hu. pose proof (I3 E j u Hj Hu) as Hn. rewrite lookup_insert_ne; [done|].
      intros Ek. rewrite Ek, Hn in Hk. by destruct Hk.
    + intros E k. simpl. rewrite lookup_insert. case_decide; [|by apply If]. rewrite E in Hv. by destruct v.
    + intros j u Hj Hu. apply lookup_insert_is_Some'. right. by eapply I4.
Qed.

Lemma replay_reachable_inv s : m ≠ Unrestricted → rtc (sys_step m) sys_init s → sys_inv s.
Proof.
  intros Hm Hr. apply (rtc_ind_r (λ s, sys_inv s)) in Hr; [done| |].
  - constructor; simpl; try (intros; by rewrite lookup_empty in *). intros _ k. simpl. by rewrite lookup_empty.
  - intros ? ? _ ? ?. by eapply replay_sys_step_inv.
Qed.

Lemma reserve_step_decision c t fs pc fs' :
  decision_ok t → reserve_step c t fs = Some (pc, fs') → decision_ok (set_pc t pc).
Proof.
  assert (∀ fs1 r fs2, (if io_read c then replay_or_incomplete (io_can_move c) (rv_key t) (rv_request t) fs1
    else (Err IoError, fs1)) = (r, fs2) → decision_ok (set_pc t (RDone r)) ∧ decision_ok (set_pc t (RRelease r))) as Hreplay.
  { intros fs1 r fs2 H. destruct (io_read c); [|by simplify_eq]. destruct (replay_keeps _ _ _ _ _ _ H) as (_ & _ & Hd).
    unfold decision_ok. simpl. destruct r as [d|e]; [|done]. by destruct (Hd d eq_refl) as (rec & -> & ?). }
  intros Ht H. unfold reserve_step in H. unfold decision_ok in Ht.
  destruct (rv_pc t) eqn:Ep; repeat case_match; simplify_eq; try done; by eapply Hreplay.
Qed.

Lemma reachable_decisions s i t : rtc (sys_step m) sys_init s → sys_threads s !! i = Some t → decision_ok t.
Proof.
  intros Hr. revert i t. refine (rtc_ind_r (λ s, ∀ i t, sys_threads s !! i = Some t → decision_ok t) sys_init _ _ s Hr).
  - intros i t Hi. simpl in Hi. by rewrite lookup_empty in Hi.
  - intros s1 s2 _ Hstep IH. destruct Hstep as [s1 i key request now Hi|s1 i t c pc fs' Hc Hi Hr'|s1 i t Hi _|s1 key v Hv Hk];
      simpl; intros j u.
    + intros [[<- <-]|[_ Hj]]%lookup_insert_Some; [done|by eapply IH].
    + intros [[<- <-]|[_ Hj]]%lookup_insert_Some; [|by eapply IH]. eapply reserve_step_decision; [by eapply IH|done].
    + intros [_ Hj]%lookup_delete_Some. by eapply IH.
    + apply IH.
Qed.
End regime.

(** C11: of any number of processes that reserve the same key - interleaved call by call,
    with file system calls that fail, processes that crash between any two of them and
    records updated meanwhile - at most one is ever told that it is the first and shall
    execute, in each of two situations: examining the key directory never fails, and then
    corrupt records may also be moved away; or no record is moved out of its directory, and
    then examining the directory may also fail, which [Path::exists] reports as absence.
    With both, two processes can be told ([emptied_key_executes_again]). *)
Theorem at_most_one_first_execution m s i j t u r r' :
  m ≠ Unrestricted → rtc (sys_step m) sys_init s → sys_threads s !! i = Some t → sys_threads s !! j = Some u →
  rv_pc t = RDone (Ok (FirstExecution r)) → rv_pc u = RDone (Ok (FirstExecution r')) →
  rv_key t = rv_key u → i = j.
Proof.
  intros Hm Hr Hi Hj Ht Hu. apply replay_reachable_inv in Hr; [|done].
  apply (si_once _ _ Hr i j t u Hi Hj); [by rewrite Ht|by rewrite Hu].
Qed.

(** A process that is answered from the store is answered from a record of its own key
    and of exactly its own request; one that is told to execute holds a reservation in
    its own name. *)
Theorem reservation_answers_own_request m s i t d :
  rtc (sys_step m) sys_init s → sys_threads s !! i = Some t → rv_pc t = RDone (Ok d) →
  match d with
  | Replay r => rr_key_hash r = rv_key t ∧ rr_request_hash r = rv_request t
  | FirstExecution r => r = record_of t
  end.
Proof.
  intros Hr Hi Ht. pose proof (reachable_decisions m s i t Hr Hi) as Hd. unfold decision_ok in Hd. by rewrite Ht in Hd.
Qed.
End reservation.

(** ** An environment, and witnesses *)

Definition status_code (s : ReplayStatus) : nat :=
  match s with Reserved => 0 | Started => 1 | Uncertain => 2 | Completed => 3 | Failed => 4 end.
Definition code_status (n : nat) : ReplayStatus :=
  match n with 0 => Reserved | 1 => Started | 2 => Uncertain | 3 => Completed | _ => Failed end.

#[global] Instance ReplayStatus_countable : Countable ReplayStatus.
Proof. apply (inj_countable' status_code code_status). by intros []. Defined.
#[global] Instance PostImageTarget_countable : Countable PostImageTarget.
Proof.
  apply (inj_countable' (λ t, (pt_path t, content_digest t)) (λ p, mkTarget p.1 p.2)). by intros [].
Defined.
#[global] Instance PostImageSourceBinding_countable : Countable PostImageSourceBinding.
Proof.
  apply (inj_countable' (λ b, (project_id b, physical_root_key b)) (λ p, mkSourceBinding p.1 p.2)). by intros [].
Defined.
#[global] Instance LinkedPostImageSource_countable : Countable LinkedPostImageSource.
Proof.
  apply (inj_countable' (λ l, (ls_root l, ls_binding l)) (λ p, mkLinkedSource p.1 p.2)). by intros [].
Defined.
#[global] Instance PostImageReceipt_countable : Countable PostImageReceipt.
Proof.
  apply (inj_countable' (λ r, (targets r, pi_source r, linked_sources r))
    (λ '(a, b, c), mkPostImage a b c)). by intros [].
Defined.
#[global] Instance ReplayRecord_countable : Countable ReplayRecord.
Proof.
  apply (inj_countable'
    (λ r, (schema_version r, rr_key_hash r, rr_request_hash r, rr_status r, created_unix_millis r,
           updated_unix_millis r, response_text r, post_image r))
    (λ '(a, b, c, d, e, f, g, h), mkRecord a b c d e f g h)). by intros [].
Defined.

Fixpoint undigits (l : list byte) : option positive :=
  match l with
  | [x32] => Some xH
  | x30 :: l => xO <$> undigits l
  | x31 :: l => xI <$> undigits l
  | _ => None
  end.

Lemma undigits_digits p : undigits (digits p) = Some p.
Proof. induction p as [p IH|p IH|]; simpl; [by rewrite IH..|done]. Qed.

Lemma demo_decode (r : ReplayRecord) : (undigits (digits (encode r)) ≫= decode) = Some r.
Proof. rewrite undigits_digits. simpl. apply countable.decode_encode. Qed.

#[export] Instance demo_env : ReplayEnv := {
  digest_hex := String.string_of_list_byte;
  encode_record r := digits (encode r);
  decode_record b := undigits b ≫= decode;
  scan_clean _ := true;
  decode_encode := demo_decode;
}.

(** Events that name a thread and how its file system calls turn out. *)
Inductive SysEvent :=
| SEnter (i : nat) (key request : string) (now : N)
| SAdvance (i : nat) (c : IoChoice)
| SCrash (i : nat)
| SMoved (key : string).

Definition event_allowed (m : Regime) (ev : SysEvent) : bool :=
  match ev with
  | SAdvance _ c => io_allowed m c
  | SMoved _ => dir_allowed m None
  | _ => true
  end.

Definition sys_exec {env : ReplayEnv} (ev : SysEvent) (s : Sys) : option Sys :=
  match ev with
  | SEnter i key request now =>
      match sys_threads s !! i with
      | None => Some (mkSys (sys_fs s) (<[i := mkReserver key request now RCheck]> (sys_threads s)))
      | Some _ => None
      end
  | SAdvance i c =>
      t ← sys_threads s !! i;
      '(pc, fs') ← reserve_step c t (sys_fs s);
      Some (mkSys fs' (<[i := set_pc t pc]> (sys_threads s)))
  | SCrash i =>
      t ← sys_threads s !! i;
      match rv_pc t with
      | RDone _ => None
      | _ => Some (mkSys (sys_fs s) (delete i (sys_threads s)))
      end
  | SMoved key =>
      match key_dirs (sys_fs s) !! key with
      | Some _ => Some (mkSys (set_dir key None (sys_fs s)) (sys_threads s))
      | None => None
      end
  end.

Fixpoint sys_run {env : ReplayEnv} (evs : list SysEvent) (s : Sys) : option Sys :=
  match evs with
  | [] => Some s
  | ev :: evs => s' ← sys_exec ev s; sys_run evs s'
  end.

Lemma sys_exec_step {env : ReplayEnv} m ev s s' :
  event_allowed m ev = true → sys_exec ev s = Some s' → sys_step m s s'.
Proof.
  intros Hm. destruct ev as [i key request now|i c|i|key]; simpl.
  - destruct (sys_threads s !! i) eqn:E; [done|]. intros [= <-]. by apply sys_enter.
  - destruct (sys_threads s !! i) as [t|] eqn:E; [|done]. simpl.
    destruct (reserve_step c t (sys_fs s)) as [[pc fs']|] eqn:Er; [|done]. intros [= <-]. by eapply sys_advance.
  - destruct (sys_threads s !! i) as [t|] eqn:E; [|done]. simpl. intros H.
    destruct (rv_pc t) eqn:Ep; simplify_eq; eapply sys_crash; try done; by rewrite Ep.
  - destruct (key_dirs (sys_fs s) !! key) eqn:E; [|done]. intros [= <-]. apply sys_update; [done|by rewrite E].
Qed.

Lemma sys_run_reachable {env : ReplayEnv} m evs s s' :
  forallb (event_allowed m) evs = true → sys_run evs s = Some s' → rtc (sys_step m) s s'.
Proof.
  revert s. induction evs as [|ev evs IH]; intros s Hm H; simpl in H; [by simplify_eq|].
  simpl in Hm. apply andb_true_iff in Hm as [Hev Hm].
  destruct (sys_exec ev s) as [s1|] eqn:E; [|done]. simpl in H.
  eapply rtc_l; [by eapply sys_exec_step|by apply IH].
Qed.

(** Three processes: the first crashes on the way with its marker in place and nothing
    published, on another key; the second publishes while the third waits. *)
Definition demo_events : list SysEvent :=
  let ok := mkIo true true true false true true in
  [SEnter 0 "x" "r0" 5; SAdvance 0 ok; SAdvance 0 ok; SCrash 0;
   SEnter 1 "k" "r1" 6; SEnter 2 "k" "r1" 7; SAdvance 1 ok; SAdvance 2 ok; SAdvance 1 ok; SAdvance 2 ok;
   SAdvance 2 ok; SAdvance 1 ok; SAdvance 1 ok; SAdvance 1 ok; SAdvance 2 ok].
Definition demo_sys : Sys := default sys_init (sys_run demo_events sys_init).

Lemma demo_reachable : rtc (sys_step ExactStats) sys_init demo_sys.
Proof. apply (sys_run_reachable ExactStats demo_events); vm_compute; reflexivity. Qed.

Definition pc_of (s : Sys) (i : nat) : option ReservePc := rv_pc <$> sys_threads s !! i.

Lemma demo_outcomes :
  pc_of demo_sys 1 = Some (RDone (Ok (FirstExecution (record_reserved "k" "r1" 6)))) ∧
  pc_of demo_sys 2 = Some (RDone (Ok (Replay (record_reserved "k" "r1" 6)))).
Proof. split; vm_compute; reflexivity. Qed.

(** The record of a finished reservation is corrupt and is moved away; its key directory
    stays, empty.  A second process cannot examine the directory, takes that for absence, and
    renames its own reservation over the empty directory: both were told to execute. *)
Definition emptied_events : list SysEvent :=
  let ok := mkIo true true true false true true in
  let blind := mkIo true true true false false true in
  [SEnter 1 "k" "r1" 6; SAdvance 1 ok; SAdvance 1 ok; SAdvance 1 ok; SAdvance 1 ok; SAdvance 1 ok; SMoved "k";
   SEnter 2 "k" "r1" 7; SAdvance 2 blind; SAdvance 2 blind; SAdvance 2 blind; SAdvance 2 blind; SAdvance 2 blind].

Theorem emptied_key_executes_again :
  ∃ s, rtc (sys_step Unrestricted) sys_init s ∧
    pc_of s 1 = Some (RDone (Ok (FirstExecution (record_reserved "k" "r1" 6)))) ∧
    pc_of s 2 = Some (RDone (Ok (FirstExecution (record_reserved "k" "r1" 7)))).
Proof.
  exists (default sys_init (sys_run emptied_events sys_init)). split_and!.
  - apply (sys_run_reachable Unrestricted emptied_events); vm_compute; reflexivity.
  - vm_compute. reflexivity.
  - vm_compute. reflexivity.
Qed.

Lemma at_most_one_first_execution_witness :
  pc_of demo_sys 1 = Some (RDone (Ok (FirstExecution (record_reserved "k" "r1" 6)))) ∧
  ∀ j u r', sys_threads demo_sys !! j = Some u → rv_pc u = RDone (Ok (FirstExecution r')) →
    rv_key u = "k"%string → 1 = j.
Proof.
  split; [exact (proj1 demo_outcomes)|]. intros j u r' Hj Hu Hk.
  refine (at_most_one_first_execution ExactStats demo_sys 1 j (mkReserver "k" "r1" 6
    (RDone (Ok (FirstExecution (record_reserved "k" "r1" 6))))) u _ r' ltac:(discriminate) demo_reachable _ Hj eq_refl Hu _).
  - vm_compute. reflexivity.
  - symmetry. exact Hk.
Defined.

Lemma reservation_answers_own_request_witness :
  rr_request_hash (record_reserved "k" "r1" 6) = "r1"%string.
Proof.
  refine (proj2 (reservation_answers_own_request ExactStats demo_sys 2 (mkReserver "k" "r1" 7
    (RDone (Ok (Replay (record_reserved "k" "r1" 6))))) (Replay (record_reserved "k" "r1" 6))
    demo_reachable _ eq_refl)).
  vm_compute. reflexivity.
Defined.

Definition demo_choice : UpdateChoice := mkChoice true true 9.
Definition demo_fs : ReplayFs := sys_fs demo_sys.
Definition demo_completed : ReplayRecord :=
  mkRecord 1 "k" "r1" Completed 6 9 (Some "done"%string) None.

Lemma demo_stored : stored "k" demo_fs = Some (record_reserved "k" "r1" 6).
Proof. vm_compute. reflexivity. Qed.

Lemma finished_record_final_witness :
  stored "k" (run_calls [mkCall MarkStarted demo_choice "k" "r1"; mkCall (Fail_ "no") demo_choice "k" "r1"]
    (run_calls [mkCall (Complete "done") demo_choice "k" "r1"] demo_fs)) = Some demo_completed.
Proof.
  apply (finished_record_final "k" (run_calls [mkCall (Complete "done") demo_choice "k" "r1"] demo_fs) demo_completed).
  - vm_compute. reflexivity.
  - left. reflexivity.
Defined.

Lemma record_lifecycle_witness :
  ∃ rec, stored "k" (run_calls [mkCall (Complete "done") demo_choice "k" "r1"] demo_fs) = Some rec ∧
    record_sound (record_reserved "k" "r1" 6) rec.
Proof. exact (record_lifecycle "k" "r1" 6 demo_fs _ demo_stored). Defined.

Lemma verified_replay_fences_witness :
  verified_replay (λ _, true)
    (mkRecord 1 "k" "r1" Completed 6 9 (Some "done"%string) (Some (mkPostImage [] None []))) = "done"%string.
Proof.
  apply (verified_replay_fences (λ _, true)
    (mkRecord 1 "k" "r1" Completed 6 9 (Some "done"%string) (Some (mkPostImage [] None []))) "done");
    [reflexivity|discriminate|discriminate|].
  split; [reflexivity|]. split; [by eexists|reflexivity].
Defined.

Lemma capture_verifies_witness :
  let read := λ p : string, if decide (p = "a"%string) then ReadOk [x41] else ReadNotFound in
  verify_post_image read (mkPostImage [mkTarget "a" (Some "A"%string); mkTarget "b" None] None []) = true ∧
  verify_post_image (λ _, ReadNotFound)
    (mkPostImage [mkTarget "a" (Some "A"%string); mkTarget "b" None] None []) = false.
Proof.
  set (read := λ p : string, if decide (p = "a"%string) then ReadOk [x41] else ReadNotFound).
  split.
  - apply (capture_verifies read ["a"; "b"]%string); [vm_compute; reflexivity|].
    intros p Hp. split; [|reflexivity]. unfold read. by case_decide.
  - apply not_true_iff_false. intros H.
    refine (_ (proj1 (capture_verifies read ["a"; "b"]%string _ _ _) H)); [|vm_compute; reflexivity].
    intros H'. destruct (H' "a"%string) as [_ E]; [left|]. vm_compute in E. discriminate E.
Defined.
