(* ===== verification/Auth.v ===== *)
(** * Authentication of the operator server (server/auth.rs, server/api_keys.rs, and the
      startup checks of server/serve.rs)

    A bootstrap key given at startup, and keys minted at run time and stored as hashes,
    authenticate a request; three gates stand in front of every route: the bearer token,
    the origin of a browser, and on an open loopback server the authority of the request.

    The theorems: the constant-time comparison is equality; which requests pass the gates,
    exactly; that a server on a routable address answers nobody without a key except for
    its public assets; and that the key store implements its contract - a secret
    authenticates if and only if it is the current one of a key that is not revoked.

    Parameters: SHA-256, the texts and the parser of IP addresses, and the parser of the
    http crate for the authority of a URI.  The key table is the list of its rows; errors
    of the database itself are not modelled. *)

From Stdlib Require Import Lia Strings.Byte.
From stdpp Require Import base gmap sets list strings numbers option pretty.
From S2P Require Import Prelude Slices Text Domain.

#[global] Set Default Goal Selector "!".

(** ** Constant-time equality *)

Definition u8 (n : N) : N := N.land n 255.
Definition byte_at (l : list byte) (i : nat) : N := match l !! i with Some b => Byte.to_N b | None => 0 end.

Definition length_diff (a b : list byte) : N :=
  let len_xor := N.lxor (N.of_nat (length a)) (N.of_nat (length b)) in
  fold_left (λ diff shift, N.lor diff (u8 (N.shiftr len_xor shift))) [0; 8; 16; 24; 32; 40; 48; 56]%N 0%N.

Definition constant_time_eq (a b : list byte) : bool :=
  let n := length a `max` length b in
  let diff := fold_left (λ diff i, N.lor diff (N.lxor (byte_at a i) (byte_at b i))) (seq 0 n) (length_diff a b) in
  (diff =? 0)%N.

(** ** Addresses *)

Inductive IpAddr :=
| V4 (octets : list N)
| V6 (segments : list N).

#[global] Instance IpAddr_eq_dec : EqDecision IpAddr.
Proof. solve_decision. Defined.

Definition ip_is_loopback (ip : IpAddr) : bool :=
  match ip with
  | V4 octets => bool_decide (head octets = Some 127%N)
  | V6 segments => bool_decide (segments = [0; 0; 0; 0; 0; 0; 0; 1]%N)
  end.

(** [Ipv6Addr::to_ipv4_mapped]. *)
Definition to_ipv4_mapped (segments : list N) : option (list N) :=
  match segments with
  | [s0; s1; s2; s3; s4; s5; s6; s7] =>
      if decide ([s0; s1; s2; s3; s4; s5] = [0; 0; 0; 0; 0; 65535]%N)
      then Some [s6 / 256; s6 mod 256; s7 / 256; s7 mod 256]%N else None
  | _ => None
  end.

Definition is_loopback_addr (ip : IpAddr) : bool :=
  ip_is_loopback
    match ip with
    | V6 v6 => match to_ipv4_mapped v6 with Some v4 => V4 v4 | None => V6 v6 end
    | other => other
    end.

(** What the server uses of other libraries. *)
Class AuthEnv := {
  sha256_hex : str → str;
  ip_display : IpAddr → str;
  parse_ip : str → option IpAddr;
  parse_authority : str → option (str * option N);
}.

(** ** Configuration and startup *)

Record AuthConfig := mkAuth { api_key : option str }.

Definition requires_auth (auth : AuthConfig) (is_loopback : bool) : bool :=
  bool_decide (is_Some (api_key auth)) || negb is_loopback.

Definition auth_verify (auth : AuthConfig) (presented : str) : bool :=
  match api_key auth with
  | Some expected => constant_time_eq expected presented
  | None => false
  end.

Inductive AuthStartupError := NonLoopbackWithoutKey | InlineKeyOnNonLoopback.

Definition refuse_to_start (auth : AuthConfig) (is_loopback : bool) : Result unit AuthStartupError :=
  if negb is_loopback && bool_decide (api_key auth = None) then Err NonLoopbackWithoutKey else Ok tt.

Definition nonempty (key : option str) : option str :=
  match key with Some [] | None => None | Some k => Some k end.

(** [env] is the process environment. *)
Definition resolve_api_key (env : str → option str) (api_key api_key_env : option str) : option str :=
  match nonempty api_key with
  | Some key => Some key
  | None => var ← api_key_env; nonempty (env var)
  end.

Definition enforce_api_key_source_policy (api_key : option str) (is_loopback : bool) :
    Result unit AuthStartupError :=
  match nonempty api_key with
  | None => Ok tt
  | Some _ => if negb is_loopback then Err InlineKeyOnNonLoopback else Ok tt
  end.

(** The checks of [serve::run] before anything is bound. *)
Definition startup_auth (env : str → option str) (inline_key key_env : option str) (ip : IpAddr) :
    Result AuthConfig AuthStartupError :=
  let auth := mkAuth (resolve_api_key env inline_key key_env) in
  let is_loopback := is_loopback_addr ip in
  match enforce_api_key_source_policy inline_key is_loopback with
  | Err e => Err e
  | Ok _ =>
      match refuse_to_start auth is_loopback with
      | Err e => Err e
      | Ok _ => Ok auth
      end
  end.

(** ** The key store *)

Record KeyRow := mkRow {
  row_id : N;
  row_label : str;
  row_fingerprint : str;
  row_hash : str;
  row_created_ms : Z;
  row_rotated_ms : option Z;
  row_revoked_ms : option Z;
}.

(** The table, and the next id of its [AUTOINCREMENT] column. *)
Record KeyTable := mkTable { rows : list KeyRow; next_id : N }.

Inductive ApiKeyStore := Sqlite (t : KeyTable) | Disabled.

Inductive KeyError := StoreUnavailable | UnknownKey.

Definition i64_max : Z := 9223372036854775807.
Definition u64_to_i64 (v : N) : Z := if (Z.of_N v <=? i64_max)%Z then Z.of_N v else i64_max.
Definition i64_to_u64 (v : Z) : N := Z.to_N v.

Definition hex_digit (n : N) : byte :=
  default x30 (Byte.of_N (if (n <? 10)%N then 48 + n else 87 + n)).
Definition hex_byte (b : byte) : str := [hex_digit (Byte.to_N b / 16); hex_digit (Byte.to_N b mod 16)].

(** [blob] are the 32 bytes of [randomblob(32)]. *)
Definition generate_secret (blob : list byte) : str := bs "sf_" ++ (blob ≫= hex_byte).

Definition fingerprint_of (hash : str) : str := take 12 hash.

Definition MAX_LABEL_BYTES : nat := 128.

(** Control characters, one or two bytes in UTF-8, become a space. *)
Fixpoint replace_control (s : str) : str :=
  match s with
  | [] => []
  | xc2 :: ((b :: rest) as tail) =>
      if in_range 128 159 b then x20 :: replace_control rest else xc2 :: replace_control tail
  | b :: rest => (if in_range 0 31 b || in_range 127 127 b then x20 else b) :: replace_control rest
  end.

Definition bounded_label (raw : str) : str :=
  let trimmed := trim (replace_control raw) in
  let trimmed := if decide (trimmed = []) then bs "unnamed" else trimmed in
  if length trimmed <=? MAX_LABEL_BYTES then trimmed else take_chars MAX_LABEL_BYTES trimmed.

Section server.
Context {env : AuthEnv}.

(** A record, and the raw secret that is shown once. *)
Record MintedKey := mkMinted { minted_row : KeyRow; raw_secret : str }.

Definition mint (label : str) (blob : list byte) (now : N) (store : ApiKeyStore) :
    Result MintedKey KeyError * ApiKeyStore :=
  match store with
  | Disabled => (Err StoreUnavailable, store)
  | Sqlite t =>
      let raw := generate_secret blob in
      let hash := sha256_hex raw in
      let row := mkRow (next_id t) (bounded_label label) (fingerprint_of hash) hash (u64_to_i64 now) None None in
      (Ok (mkMinted row raw), Sqlite (mkTable (rows t ++ [row]) (next_id t + 1)))
  end.

Definition list_keys (store : ApiKeyStore) : list KeyRow :=
  match store with Disabled => [] | Sqlite t => rows t end.

(** [UPDATE ... WHERE id = ?]. *)
Definition update_row (id : N) (f : KeyRow → KeyRow) (t : KeyTable) : KeyTable :=
  mkTable ((λ r, if decide (row_id r = id) then f r else r) <$> rows t) (next_id t).

Definition find_row (id : N) (t : KeyTable) : option KeyRow := list_find (λ r, row_id r = id) (rows t) ≫= λ p, Some p.2.

Definition rotate_row (hash : str) (now : N) (r : KeyRow) : KeyRow :=
  mkRow (row_id r) (row_label r) (fingerprint_of hash) hash (row_created_ms r) (Some (u64_to_i64 now)) None.

Definition rotate (id : N) (blob : list byte) (now : N) (store : ApiKeyStore) :
    Result MintedKey KeyError * ApiKeyStore :=
  match store with
  | Disabled => (Err StoreUnavailable, store)
  | Sqlite t =>
      let raw := generate_secret blob in
      let hash := sha256_hex raw in
      let t' := update_row id (rotate_row hash now) t in
      match find_row id t' with
      | None => (Err UnknownKey, store)
      | Some row => (Ok (mkMinted row raw), Sqlite t')
      end
  end.

Definition revoke_row (now : N) (r : KeyRow) : KeyRow :=
  match row_revoked_ms r with
  | Some _ => r
  | None => mkRow (row_id r) (row_label r) (row_fingerprint r) (row_hash r) (row_created_ms r)
      (row_rotated_ms r) (Some (u64_to_i64 now))
  end.

Definition revoke (id : N) (now : N) (store : ApiKeyStore) : Result unit KeyError * ApiKeyStore :=
  match store with
  | Disabled => (Err StoreUnavailable, store)
  | Sqlite t =>
      match find_row id t with
      | None => (Err UnknownKey, store)
      | Some _ => (Ok tt, Sqlite (update_row id (revoke_row now) t))
      end
  end.

Definition active_hashes (t : KeyTable) : list str :=
  row_hash <$> filter (λ r, row_revoked_ms r = None) (rows t).

Definition store_verify (store : ApiKeyStore) (presented : str) : bool :=
  match store with
  | Disabled => false
  | Sqlite t =>
      if decide (presented = []) then false
      else
        let presented_hash := sha256_hex presented in
        fold_left (λ matched stored, if constant_time_eq stored presented_hash then true else matched)
          (active_hashes t) false
  end.

(** ** The gates *)

(** The parts of a request that the gates read.  A header that is not visible ASCII has
    no text. *)
Record Request := mkRequest {
  rq_path : str;
  rq_authorization : option (option str);
  rq_origin : option (option str);
  rq_hosts : list (option str);
  rq_uri_authority : option str;
}.

Inductive Gate := Pass | Unauthorized | Forbidden.

Record AuthLayerState := mkLayer { auth : AuthConfig; is_loopback : bool; key_store : option ApiKeyStore }.

Definition verify_token (s : AuthLayerState) (token : str) : bool :=
  if auth_verify (auth s) token then true
  else match key_store s with Some store => store_verify store token | None => false end.

Definition parse_bearer (header : str) : option str :=
  rest ← match strip_prefix (bs "Bearer ") header with
         | Some rest => Some rest
         | None =>
             '(scheme, rest) ← split_once (bs " ") header;
             if decide (lowercase scheme = lowercase (bs "bearer")) then Some rest else None
         end;
  let token := trim rest in
  if decide (token = []) then None else Some token.

Definition public_static_paths : list str :=
  [bs "/admin"; bs "/admin/"; bs "/admin/app.js"; bs "/admin/style.css"; bs "/admin/favicon.svg"; bs "/favicon.ico"].
Definition is_admin_public_static_path (path : str) : bool := bool_decide (path ∈ public_static_paths).

Definition require_bearer (s : AuthLayerState) (request : Request) : Gate :=
  if negb (requires_auth (auth s) (is_loopback s)) then Pass
  else if is_admin_public_static_path (rq_path request) then Pass
  else
    match (h ← rq_authorization request; t ← h; parse_bearer t) with
    | Some token => if verify_token s token then Pass else Unauthorized
    | None => Unauthorized
    end.

Definition display_socket (ip : IpAddr) (port : N) : str :=
  match ip with
  | V4 _ => ip_display ip ++ bs ":" ++ bs (pretty port)
  | V6 _ => bs "[" ++ ip_display ip ++ bs "]:" ++ bs (pretty port)
  end.

(** [OriginLayerState::from_bind_addr]. *)
Definition allowed_origins (ip : IpAddr) (port : N) : list str :=
  [bs "http://" ++ display_socket ip port; bs "http://" ++ ip_display ip ++ bs ":" ++ bs (pretty port)]
  ++ (if ip_is_loopback ip then
        (λ host, bs "http://" ++ host ++ bs ":" ++ bs (pretty port)) <$> [bs "localhost"; bs "127.0.0.1"; bs "[::1]"]
      else []).

Definition permits (allowed : list str) (origin : str) : bool :=
  let origin := trim origin in
  existsb (λ a, bool_decide (lowercase a = lowercase origin)) allowed.

Definition require_allowed_origin (allowed : list str) (request : Request) : Gate :=
  match rq_origin request with
  | None => Pass
  | Some (Some origin) => if permits allowed origin then Pass else Forbidden
  | Some None => Forbidden
  end.

Definition host_allow_list (bind_host : str) : list str :=
  let hosts := [bs "localhost"; bs "127.0.0.1"; bs "::1"] in
  let host := trim bind_host in
  if negb (bool_decide (host = [])) && negb (bool_decide (host ∈ hosts)) then hosts ++ [host] else hosts.

Definition is_digit (b : byte) : bool := in_range 48 57 b.

(** [port.parse::<u16>()] on digits. *)
Definition parse_u16 (s : str) : option N :=
  match s with
  | [] => None
  | _ =>
      let v := fold_left (λ acc b, acc * 10 + (Byte.to_N b - 48))%N s 0%N in
      if (v <? 65536)%N then Some v else None
  end.

Definition bracketed_ipv6 (host : str) : bool :=
  match (h ← strip_prefix (bs "[") host; h ← strip_suffix (bs "]") h; parse_ip h) with
  | Some (V6 _) => true
  | _ => false
  end.

Definition parse_http_authority (value : str) : option (str * option N) :=
  if existsb (λ b, bool_decide (b = x40 ∨ b = x2c) || is_ascii_whitespace b) value then None
  else
    '(host, port) ← parse_authority value;
    if decide (host = []) then None
    else if starts_with (bs "[") host && negb (bracketed_ipv6 host) then None
    else
      suffix ← strip_prefix host value;
      match suffix with
      | [] => Some (host, port)
      | _ =>
          digits ← strip_prefix (bs ":") suffix;
          if forallb is_digit digits then _ ← parse_u16 digits; Some (host, port) else None
      end.

Definition same_authority_host (left right : str) : bool :=
  let left := trim_end_matches x5d (trim_start_matches x5b left) in
  let right := trim_end_matches x5d (trim_start_matches x5b right) in
  match parse_ip left, parse_ip right with
  | Some l, Some r => bool_decide (l = r)
  | None, None => bool_decide (lowercase left = lowercase right)
  | _, _ => false
  end.

(** The authority of a request: at most one [Host] header, well formed, and equal to the
    authority of the URI where there is one. *)
Definition request_authority (request : Request) : option (str * option N) :=
  host ← match rq_hosts request with
         | [] => Some None
         | value :: _ => v ← value; a ← parse_http_authority v; Some (Some a)
         end;
  if 1 <? length (rq_hosts request) then None
  else
    authority ← match rq_uri_authority request with
                | None => Some None
                | Some value => a ← parse_http_authority value; Some (Some a)
                end;
    match host, authority with
    | Some h, Some a =>
        if negb (same_authority_host h.1 a.1) || negb (bool_decide (h.2 = a.2)) then None else Some a
    | _, Some a => Some a
    | Some h, None => Some h
    | None, None => None
    end.

Definition authority_is_allowed (request : Request) (allowed : list str) : bool :=
  match request_authority request with
  | Some a => existsb (λ host, same_authority_host a.1 host) allowed
  | None => false
  end.

Definition require_allowed_authority (allowed : list str) (request : Request) : Gate :=
  if authority_is_allowed request allowed then Pass else Forbidden.

(** [apply_http_gates]: the layer added last runs first. *)
Definition http_gates (s : AuthLayerState) (ip : IpAddr) (port : N) (request : Request) : Gate :=
  match require_bearer s request with
  | Pass =>
      match require_allowed_origin (allowed_origins ip port) request with
      | Pass =>
          if requires_auth (auth s) (is_loopback s) then Pass
          else require_allowed_authority (host_allow_list (ip_display ip)) request
      | refused => refused
      end
  | refused => refused
  end.
End server.

(** ** The comparison *)

Lemma fold_lor_zero {A} (f : A → N) (l : list A) init :
  fold_left (λ d x, N.lor d (f x)) l init = 0%N ↔ init = 0%N ∧ ∀ x, x ∈ l → f x = 0%N.
Proof.
  revert init. induction l as [|x l IH]; intros init; simpl.
  { split; [|tauto]. intros ->. split; [done|]. by intros x ?%elem_of_nil. }
  rewrite IH, N.lor_eq_0_iff. split.
  - intros [[-> Hx] Hl]. split; [done|]. intros y [->|?]%elem_of_cons; auto.
  - intros [-> Hl]. split_and!; [done|apply Hl; left|]. intros y ?. apply Hl. by right.
Qed.

Lemma zero_bytes (k : nat) (x : N) :
  (x < 256 ^ N.of_nat k)%N → (∀ i, i < k → ((x / 256 ^ N.of_nat i) mod 256 = 0)%N) → x = 0%N.
Proof.
  revert x. induction k as [|k IH]; intros x Hx Hb; [simpl in Hx; lia|].
  assert (H0 : (x mod 256 = 0)%N).
  { specialize (Hb 0 ltac:(lia)). simpl in Hb. by rewrite N.div_1_r in Hb. }
  assert (Hd : (x / 256 = 0)%N).
  { apply IH.
    - apply N.Div0.div_lt_upper_bound. rewrite Nat2N.inj_succ, N.pow_succ_r' in Hx. lia.
    - intros i Hi. specialize (Hb (S i) ltac:(lia)). rewrite Nat2N.inj_succ, N.pow_succ_r' in Hb.
      by rewrite <-N.Div0.div_div in Hb. }
  pose proof (N.Div0.div_mod x 256). lia.
Qed.

Lemma u8_shiftr x i : u8 (N.shiftr x (8 * N.of_nat i)) = ((x / 256 ^ N.of_nat i) mod 256)%N.
Proof.
  unfold u8. change 255%N with (N.ones 8). rewrite N.land_ones, N.shiftr_div_pow2.
  by rewrite N.pow_mul_r.
Qed.

Lemma length_diff_zero a b :
  in_u64 (N.of_nat (length a)) → in_u64 (N.of_nat (length b)) → length_diff a b = 0%N ↔ length a = length b.
Proof.
  intros Ha Hb. unfold length_diff. set (x := N.lxor _ _).
  assert (Hx : (x < 256 ^ N.of_nat 8)%N).
  { change (256 ^ N.of_nat 8)%N with (2 ^ 64)%N. unfold in_u64, u64_modulus in *.
    destruct (decide (x = 0%N)) as [->|Hne]; [done|]. apply N.log2_lt_pow2; [lia|].
    apply N.le_lt_trans with (N.log2 (N.of_nat (length a)) `max` N.log2 (N.of_nat (length b)))%N;
      [apply N.log2_lxor|].
    assert (Hlog : ∀ n, (n < 18446744073709551616)%N → (N.log2 n < 64)%N).
    { intros n Hn. destruct (decide (n = 0%N)) as [->|?]; [done|]. apply N.log2_lt_pow2; [lia|done]. }
    pose proof (Hlog _ Ha). pose proof (Hlog _ Hb). lia. }
  rewrite (fold_lor_zero (λ shift, u8 (N.shiftr x shift))). split.
  - intros [_ Hz]. assert (E : x = 0%N).
    { apply (zero_bytes 8); [done|]. intros i Hi. rewrite <-u8_shiftr. apply Hz.
      do 8 (destruct i as [|i]; [apply (bool_decide_eq_true_1 _); reflexivity|]). lia. }
    unfold x in E. apply N.lxor_eq in E. by apply Nat2N.inj in E.
  - intros E. split; [done|]. intros shift _. unfold x. by rewrite E, N.lxor_nilpotent, N.shiftr_0_l.
Qed.

Lemma constant_time_eq_spec a b :
  in_u64 (N.of_nat (length a)) → in_u64 (N.of_nat (length b)) → constant_time_eq a b = true ↔ a = b.
Proof.
  intros Ha Hb. unfold constant_time_eq. rewrite N.eqb_eq.
  rewrite (fold_lor_zero (λ i, N.lxor (byte_at a i) (byte_at b i))), length_diff_zero by done. split.
  - intros [Hlen Hz]. apply list_eq_same_length with (length b); [done|done|]. intros i x y Hi Hx Hy.
    specialize (Hz i ltac:(apply elem_of_seq; lia)). apply N.lxor_eq in Hz. unfold byte_at in Hz.
    rewrite Hx, Hy in Hz. by apply byte_to_N_inj.
  - intros ->. split; [done|]. intros i _. apply N.lxor_nilpotent.
Qed.

(** The comparison that folds every byte without a branch is equality of byte strings,
    whatever their lengths and contents: no pair that differs only in length, by a
    multiple of 256 or in trailing zeros, is taken for equal. *)
Theorem constant_time_eq_is_equality a b :
  in_u64 (N.of_nat (length a)) → in_u64 (N.of_nat (length b)) → constant_time_eq a b = true ↔ a = b.
Proof. apply constant_time_eq_spec. Qed.

Lemma constant_time_eq_is_equality_witness :
  constant_time_eq (replicate 256 x00) [] = false ∧ constant_time_eq (bs "sf_1") (bs "sf_1") = true.
Proof.
  split.
  - apply not_true_iff_false. rewrite (constant_time_eq_is_equality (replicate 256 x00) []); [done|vm_compute; reflexivity..].
  - apply (constant_time_eq_is_equality (bs "sf_1") (bs "sf_1")); [vm_compute; reflexivity..|reflexivity].
Defined.

(** ** Which requests pass *)

Section gates.
Context {env : AuthEnv}.

(** The bearer token that a request presents. *)
Definition presents (request : Request) (token : str) : Prop :=
  ∃ header, rq_authorization request = Some (Some header) ∧ parse_bearer header = Some token.

Lemma require_bearer_pass s request :
  require_bearer s request = Pass ↔
  requires_auth (auth s) (is_loopback s) = false ∨ is_admin_public_static_path (rq_path request) = true ∨
  ∃ token, presents request token ∧ verify_token s token = true.
Proof.
  unfold require_bearer, presents. destruct (requires_auth _ _); simpl; [|split; [by left|done]].
  destruct (is_admin_public_static_path _); [split; [by right; left|done]|].
  assert (Hno : (∀ token, (∃ header, rq_authorization request = Some (Some header) ∧
      parse_bearer header = Some token) → verify_token s token = true → False) →
    Unauthorized = Pass ↔ true = false ∨ false = true ∨
      ∃ token, (∃ header, rq_authorization request = Some (Some header) ∧ parse_bearer header = Some token) ∧
        verify_token s token = true).
  { intros H. split; [done|]. intros [?|[?|(token & Hp & Hv)]]; [done|done|]. by destruct (H token). }
  destruct (rq_authorization request) as [[header|]|]; simpl.
  - destruct (parse_bearer header) as [token|] eqn:E.
    + destruct (verify_token s token) eqn:Ev.
      * split; [|done]. intros _. right; right. exists token. split; [by exists header|done].
      * apply Hno. intros t (h & [= <-] & Et) Hv. congruence.
    + apply Hno. intros t (h & [= <-] & Et) Hv. congruence.
  - apply Hno. by intros t (h & [=] & _).
  - apply Hno. by intros t (h & [=] & _).
Qed.

Lemma gates_pass_iff s ip port request :
  http_gates s ip port request = Pass ↔
  (if requires_auth (auth s) (is_loopback s) then
     is_admin_public_static_path (rq_path request) = true ∨
     ∃ token, presents request token ∧ verify_token s token = true
   else authority_is_allowed request (host_allow_list (ip_display ip)) = true) ∧
  ∀ o, rq_origin request = Some o →
    ∃ origin, o = Some origin ∧ permits (allowed_origins ip port) origin = true.
Proof.
  unfold http_gates. pose proof (require_bearer_pass s request) as Hb.
  assert (Ho : require_allowed_origin (allowed_origins ip port) request = Pass ↔
    ∀ o, rq_origin request = Some o → ∃ origin, o = Some origin ∧ permits (allowed_origins ip port) origin = true).
  { unfold require_allowed_origin. destruct (rq_origin request) as [[o|]|].
    - destruct (permits _ o) eqn:E; (split; [|done || intros H]).
      + intros _ o' [= <-]. by exists o.
      + done.
      + destruct (H (Some o) eq_refl) as (? & [= <-] & ?). congruence.
    - split; [done|]. intros H. by destruct (H None eq_refl) as (? & [=] & _).
    - split; [|done]. by intros _ o [=]. }
  assert (Ha : require_allowed_authority (host_allow_list (ip_display ip)) request = Pass ↔
    authority_is_allowed request (host_allow_list (ip_display ip)) = true).
  { unfold require_allowed_authority. by destruct (authority_is_allowed _ _). }
  rewrite <-Ho. destruct (requires_auth (auth s) (is_loopback s)).
  - assert (Hb' : require_bearer s request = Pass ↔ is_admin_public_static_path (rq_path request) = true ∨
      ∃ token, presents request token ∧ verify_token s token = true).
    { rewrite Hb. split; [by intros [?|?]|by right]. }
    rewrite <-Hb'. destruct (require_bearer s request), (require_allowed_origin _ request); tauto || (split; [done|by intros []]).
  - rewrite (proj2 Hb) by (by left). rewrite <-Ha.
    destruct (require_allowed_origin _ request); tauto || (split; [done|by intros []]).
Qed.

(** The requests that reach a route are exactly these.  Where a key is required: those
    for the public assets of the admin page, and those that present a token which is the
    bootstrap key or verifies in the key store.  On an open loopback server: those whose
    authority names this host.  And in both cases only those without an origin, or with
    one of the server's own. *)
Theorem gates_admit s ip port request :
  http_gates s ip port request = Pass ↔
  (if requires_auth (auth s) (is_loopback s) then
     is_admin_public_static_path (rq_path request) = true ∨
     ∃ token, presents request token ∧ verify_token s token = true
   else authority_is_allowed request (host_allow_list (ip_display ip)) = true) ∧
  ∀ o, rq_origin request = Some o →
    ∃ origin, o = Some origin ∧ permits (allowed_origins ip port) origin = true.
Proof. apply gates_pass_iff. Qed.

Lemma nonempty_Some k key : nonempty k = Some key ↔ k = Some key ∧ key ≠ [].
Proof. destruct k as [[|b k]|]; simpl; naive_solver. Qed.

Lemma nonempty_None k : nonempty k = None ↔ k = None ∨ k = Some [].
Proof. destruct k as [[|b k]|]; simpl; naive_solver. Qed.

(** A server that starts on an address other than loopback has a key, and not one from
    its command line but from the environment; and it passes no request, except for its
    public assets, that does not present this key or one that verifies in its store.  The
    bound address and the key store play no part in this. *)
Theorem routable_server_needs_key environ inline_key key_env ip bound port store request cfg :
  startup_auth environ inline_key key_env ip = Ok cfg → is_loopback_addr ip = false →
  (∀ key, api_key cfg = Some key → in_u64 (N.of_nat (length key))) →
  (∀ token, presents request token → in_u64 (N.of_nat (length token))) →
  (inline_key = None ∨ inline_key = Some []) ∧
  ∃ var key, key_env = Some var ∧ environ var = Some key ∧ key ≠ [] ∧
    (http_gates (mkLayer cfg (is_loopback_addr ip) store) bound port request = Pass →
     is_admin_public_static_path (rq_path request) = true ∨
     ∃ token, presents request token ∧
       (token = key ∨ ∃ st, store = Some st ∧ store_verify st token = true)).
Proof.
  unfold startup_auth, enforce_api_key_source_policy, refuse_to_start. intros Hs Hl Hk Ht. rewrite Hl in *. simpl in Hs.
  destruct (nonempty inline_key) as [k|] eqn:En; [done|].
  split; [by apply nonempty_None|].
  destruct (resolve_api_key environ inline_key key_env) as [key|] eqn:Er; simpl in Hs; [|done].
  injection Hs as <-. unfold resolve_api_key in Er. rewrite En in Er.
  destruct key_env as [var|]; simpl in Er; [|done]. apply nonempty_Some in Er as [Er Hne].
  exists var, key. split_and!; [done..|]. rewrite gates_pass_iff. simpl. intros [Hb _].
  destruct Hb as [Hb|(token & Hp & Hv)]; [by left|right]. exists token. split; [done|].
  unfold verify_token, auth_verify in Hv. simpl in Hv.
  destruct (constant_time_eq key token) eqn:Ec.
  - left. symmetry. apply constant_time_eq_spec; [by apply Hk|by apply Ht|done].
  - right. destruct store as [st|]; [|done]. by exists st.
Qed.
End gates.

(** ** The key store implements its contract *)

Section keys.
Context {env : AuthEnv}.
Hypothesis Hsha : ∀ s, in_u64 (N.of_nat (length (sha256_hex s))).

Inductive KeyOp :=
| OpMint (label : str) (blob : list byte) (now : N)
| OpRotate (id : N) (blob : list byte) (now : N)
| OpRevoke (id : N) (now : N).

Definition apply_key_op (op : KeyOp) (store : ApiKeyStore) : ApiKeyStore :=
  match op with
  | OpMint label blob now => (mint label blob now store).2
  | OpRotate id blob now => (rotate id blob now store).2
  | OpRevoke id now => (revoke id now store).2
  end.

Definition run_keys (ops : list KeyOp) (store : ApiKeyStore) : ApiKeyStore :=
  fold_left (λ st op, apply_key_op op st) ops store.

(** The contract: the current secret of each key, and whether the key is active. *)
Record KeyRing := mkRing { ring : gmap N (str * bool); ring_next : N }.

Definition apply_ring_op (op : KeyOp) (k : KeyRing) : KeyRing :=
  match op with
  | OpMint _ blob _ => mkRing (<[ring_next k := (generate_secret blob, true)]> (ring k)) (ring_next k + 1)
  | OpRotate id blob _ =>
      match ring k !! id with
      | Some _ => mkRing (<[id := (generate_secret blob, true)]> (ring k)) (ring_next k)
      | None => k
      end
  | OpRevoke id _ =>
      match ring k !! id with
      | Some (secret, _) => mkRing (<[id := (secret, false)]> (ring k)) (ring_next k)
      | None => k
      end
  end.

Definition run_ring (ops : list KeyOp) (k : KeyRing) : KeyRing := fold_left (λ k op, apply_ring_op op k) ops k.

Definition empty_table : KeyTable := mkTable [] 1.
Definition empty_ring : KeyRing := mkRing ∅ 1.

(** The simulation: rows and keys correspond, by hash and by revocation. *)
Definition row_of (r : KeyRow) (e : str * bool) : Prop :=
  row_hash r = sha256_hex e.1 ∧ (row_revoked_ms r = None ↔ e.2 = true).

Record keys_sim (t : KeyTable) (k : KeyRing) : Prop := {
  ks_next : next_id t = ring_next k;
  ks_fresh : ∀ r, r ∈ rows t → (row_id r < next_id t)%N;
  ks_rows : ∀ r, r ∈ rows t → ∃ e, ring k !! row_id r = Some e ∧ row_of r e;
  ks_ring : ∀ id e, ring k !! id = Some e → ∃ r, r ∈ rows t ∧ row_id r = id ∧ row_of r e;
}.

Lemma find_row_None id t : find_row id t = None ↔ ∀ r, r ∈ rows t → row_id r ≠ id.
Proof.
  unfold find_row. destruct (list_find _ _) as [[i r]|] eqn:E; simpl.
  - split; [done|]. intros H. apply list_find_Some in E as (Hr & Hid & _).
    by destruct (H r (list_elem_of_lookup_2 _ _ _ Hr)).
  - split; [|done]. intros _. apply list_find_None in E. by rewrite Forall_forall in E.
Qed.

Lemma sim_absent t k id : keys_sim t k → (∀ r, r ∈ rows t → row_id r ≠ id) ↔ ring k !! id = None.
Proof.
  intros Hs. split.
  - intros H. apply eq_None_not_Some. intros [e He]. apply (ks_ring _ _ Hs) in He as (r & Hr & Hid & _).
    by destruct (H r Hr).
  - intros H r Hr Hid. apply (ks_rows _ _ Hs) in Hr as (e & He & _). congruence.
Qed.

Lemma elem_of_update id f t r :
  r ∈ rows (update_row id f t) ↔ ∃ r0, r0 ∈ rows t ∧ r = if decide (row_id r0 = id) then f r0 else r0.
Proof. simpl. rewrite list_elem_of_fmap. split; intros (r0 & ? & ?); exists r0; done. Qed.

Lemma update_row_absent id f t : (∀ r, r ∈ rows t → row_id r ≠ id) → update_row id f t = t.
Proof.
  intros H. destruct t as [l n]. unfold update_row. simpl in *. f_equal.
  induction l as [|r l IH]; [done|].
  rewrite fmap_cons, decide_False by (apply H; left). f_equal. apply IH. intros r' ?. apply H. by right.
Qed.

Lemma sim_update t k id f e :
  keys_sim t k → is_Some (ring k !! id) → (∀ r, row_id (f r) = row_id r) →
  (∀ r, r ∈ rows t → row_id r = id → row_of (f r) e) →
  keys_sim (update_row id f t) (mkRing (<[id := e]> (ring k)) (ring_next k)).
Proof.
  intros Hs [e0 He0] Hid Hf. constructor; cbn [next_id update_row ring ring_next].
  - apply (ks_next _ _ Hs).
  - intros r (r0 & Hr0 & ->)%elem_of_update. pose proof (ks_fresh _ _ Hs r0 Hr0).
    case_decide; [by rewrite Hid|done].
  - intros r (r0 & Hr0 & ->)%elem_of_update. case_decide as E.
    + exists e. rewrite Hid, E, lookup_insert_eq. split; [done|by apply Hf].
    + rewrite lookup_insert_ne by done. by apply (ks_rows _ _ Hs).
  - intros i e' He'. destruct (decide (i = id)) as [->|Hne].
    + rewrite lookup_insert_eq in He'. simplify_eq.
      destruct (ks_ring _ _ Hs id e0 He0) as (r & Hr & Hrid & _). exists (f r).
      split_and!; [apply elem_of_update; exists r; by rewrite decide_True|by rewrite Hid|by apply Hf].
    + rewrite lookup_insert_ne in He' by done. destruct (ks_ring _ _ Hs i e' He') as (r & Hr & Hrid & Ho).
      exists r. split_and!; [|done|done]. apply elem_of_update. exists r. by rewrite decide_False by congruence.
Qed.

Lemma sim_step t k op :
  keys_sim t k → ∃ t', apply_key_op op (Sqlite t) = Sqlite t' ∧ keys_sim t' (apply_ring_op op k).
Proof.
  intros Hs. destruct op as [label blob now|id blob now|id now]; simpl.
  - eexists. split; [done|]. pose proof (ks_next _ _ Hs) as Hn.
    assert (Hfresh : ring k !! ring_next k = None).
    { apply (sim_absent t k); [done|]. intros r Hr. apply (ks_fresh _ _ Hs) in Hr. lia. }
    constructor; simpl.
    + by rewrite Hn.
    + intros r [Hr|Hr]%elem_of_app; [apply (ks_fresh _ _ Hs) in Hr; lia|].
      apply list_elem_of_singleton in Hr as ->. simpl. lia.
    + intros r [Hr|Hr]%elem_of_app.
      * destruct (ks_rows _ _ Hs r Hr) as (e & He & Ho). exists e. split; [|done].
        rewrite lookup_insert_ne; [done|]. intros E. congruence.
      * apply list_elem_of_singleton in Hr as ->. simpl. eexists. split; [by rewrite Hn, lookup_insert_eq|]. done.
    + intros i e He. destruct (decide (i = ring_next k)) as [->|Hne].
      * rewrite lookup_insert_eq in He. simplify_eq. eexists. split; [apply elem_of_app; right; left|]. done.
      * rewrite lookup_insert_ne in He by done. destruct (ks_ring _ _ Hs i e He) as (r & Hr & ? & ?).
        exists r. split; [apply elem_of_app; by left|done].
  - destruct (find_row id (update_row id _ t)) as [r|] eqn:Ef.
    + eexists. split; [done|].
      destruct (ring k !! id) as [e0|] eqn:Er.
      * apply sim_update; [done|by rewrite Er|done|]. intros r0 _ _. done.
      * rewrite update_row_absent in Ef by (by apply (sim_absent t k)).
        assert (Hnone : find_row id t = None) by (apply find_row_None; by apply (sim_absent t k)). congruence.
    + exists t. split; [done|]. rewrite find_row_None in Ef.
      assert (Habs : ring k !! id = None).
      { apply (sim_absent t k); [done|]. intros r Hr Hid.
        apply (Ef (rotate_row (sha256_hex (generate_secret blob)) now r)); [|done].
        apply elem_of_update. exists r. by rewrite decide_True. }
      by rewrite Habs.
  - destruct (find_row id t) as [r|] eqn:Ef.
    + eexists. split; [done|]. destruct (ring k !! id) as [[secret active]|] eqn:Er.
      * apply sim_update; [done|by rewrite Er|by intros r0; unfold revoke_row; destruct (row_revoked_ms r0)|].
        intros r0 Hr0 Hid. destruct (ks_rows _ _ Hs r0 Hr0) as (e & He & Hh & _).
        rewrite Hid, Er in He. simplify_eq. unfold revoke_row, row_of. simpl in *.
        destruct (row_revoked_ms r0) eqn:Ev; simpl; (split; [done|]); [rewrite Ev|]; (split; done).
      * assert (Hnone : find_row id t = None) by (apply find_row_None; by apply (sim_absent t k)). congruence.
    + exists t. split; [done|]. rewrite find_row_None in Ef.
      rewrite (proj1 (sim_absent t k id Hs) Ef). done.
Qed.

Lemma sim_run ops t k :
  keys_sim t k → ∃ t', run_keys ops (Sqlite t) = Sqlite t' ∧ keys_sim t' (run_ring ops k).
Proof.
  revert t k. induction ops as [|op ops IH]; intros t k Hs; simpl; [by exists t|].
  destruct (sim_step t k op Hs) as (t1 & E & Hs1). unfold run_keys. simpl. rewrite E. by apply IH.
Qed.

Lemma fold_matches l x :
  fold_left (λ matched stored, if constant_time_eq stored x then true else matched) l false = true ↔
  ∃ y, y ∈ l ∧ constant_time_eq y x = true.
Proof.
  assert (H : ∀ l b, fold_left (λ matched stored, if constant_time_eq stored x then true else matched) l b = true ↔
    b = true ∨ ∃ y, y ∈ l ∧ constant_time_eq y x = true).
  { clear l. intros l. induction l as [|z l IH]; intros b; simpl.
    - split; [by left|]. intros [?|(y & ?%elem_of_nil & _)]; done.
    - rewrite IH. destruct (constant_time_eq z x) eqn:E.
      + split; [|by left]. intros _. right. exists z. split; [left|done].
      + split; (intros [?|(y & Hy & Hyx)]; [by left|right; exists y]).
        * split; [by right|done].
        * apply elem_of_cons in Hy as [->|Hy]; [congruence|done]. }
  rewrite H. split; [by intros [?|?]|by right].
Qed.

Lemma store_verify_sim t k p :
  keys_sim t k →
  store_verify (Sqlite t) p = true ↔ p ≠ [] ∧ ∃ id secret, ring k !! id = Some (secret, true) ∧
    sha256_hex secret = sha256_hex p.
Proof.
  intros Hs. unfold store_verify. case_decide as E; [split; [done|by intros []]|].
  rewrite fold_matches. split.
  - intros (h & Hh & Hc). split; [done|]. unfold active_hashes in Hh.
    apply list_elem_of_fmap in Hh as (r & -> & Hr). apply list_elem_of_filter in Hr as [Ha Hr].
    destruct (ks_rows _ _ Hs r Hr) as ([secret active] & He & Hh & Hrev). simpl in *. apply Hrev in Ha. subst active.
    exists (row_id r), secret. split; [done|]. apply constant_time_eq_spec in Hc; [congruence|rewrite Hh|]; apply Hsha.
  - intros (_ & id & secret & He & Hh). destruct (ks_ring _ _ Hs id _ He) as (r & Hr & _ & Hrh & Hrev).
    exists (row_hash r). split.
    + apply list_elem_of_fmap. exists r. split; [done|]. apply list_elem_of_filter. split; [by apply Hrev|done].
    + simpl in Hrh. apply constant_time_eq_spec; [rewrite Hrh; apply Hsha|apply Hsha|congruence].
Qed.

(** C26: the key store implements its contract.  After any sequence of minting, rotating and
    revoking, a presented text authenticates if and only if it is the current secret of a
    key that is active: not one that was rotated away, nor one of a key that is revoked,
    nor the empty text.  Unknown ids change nothing; rotating a revoked key makes it active
    again, with a new secret.  The hypothesis rules out a second
    text with the digest of the presented one. *)
Theorem keys_authenticate_iff_live ops p :
  (∀ s, sha256_hex s = sha256_hex p → s = p) →
  store_verify (run_keys ops (Sqlite empty_table)) p = true ↔
  p ≠ [] ∧ ∃ id, ring (run_ring ops empty_ring) !! id = Some (p, true).
Proof.
  intros Hcoll. destruct (sim_run ops empty_table empty_ring) as (t & -> & Hs).
  { constructor; simpl; [done|by intros r ?%elem_of_nil|by intros r ?%elem_of_nil|].
    intros id e He. by rewrite lookup_empty in He. }
  rewrite (store_verify_sim t _ p Hs). split.
  - intros (Hp & id & secret & He & Hh). split; [done|]. apply Hcoll in Hh as ->. by exists id.
  - intros (Hp & id & He). split; [done|]. by exists id, p.
Qed.
End keys.

(** ** Two divergences *)

(** A token never begins or ends with white space, so a configured key that does is never
    matched by any request: the server starts, and its own key is refused. *)
Theorem padded_key_is_never_accepted key request token :
  key ≠ trim key → presents request token →
  in_u64 (N.of_nat (length key)) → in_u64 (N.of_nat (length token)) →
  auth_verify (mkAuth (Some key)) token = false.
Proof.
  intros Hk (header & _ & Hp) Hl Hl'. unfold auth_verify. simpl. apply not_true_iff_false.
  rewrite constant_time_eq_spec by done. intros ->. apply Hk. unfold parse_bearer in Hp.
  destruct (match strip_prefix (bs "Bearer ") header with Some rest => Some rest | None => _ end) as [rest|]; [|done].
  simpl in Hp. case_decide; [done|]. injection Hp as <-. symmetry. apply trim_idemp.
Qed.

(** The bound on a label is named in bytes and counted in characters. *)
Theorem label_bound_counts_characters :
  ∃ raw, length (bounded_label raw) = 256 ∧ length (bounded_label raw) > MAX_LABEL_BYTES.
Proof.
  exists (concat (replicate 129 [xc3; xa9])). split; [vm_compute; reflexivity|].
  apply Nat.ltb_lt. vm_compute. reflexivity.
Qed.

(** ** Witnesses *)

Definition demo_secret (n : byte) : str := generate_secret (replicate 32 n).

#[export] Instance demo_auth_env : AuthEnv := {
  sha256_hex s := if decide (s = demo_secret x01) then [x31] else if decide (s = demo_secret x02) then [x32] else [];
  ip_display ip := bs "192.0.2.1";
  parse_ip _ := None;
  parse_authority _ := None;
}.

Definition demo_key_ops : list KeyOp :=
  [OpMint (bs "ci") (replicate 32 x01) 5; OpRevoke 1 6; OpRotate 1 (replicate 32 x02) 7].

Lemma demo_digest_injective s p :
  p = demo_secret x01 ∨ p = demo_secret x02 → sha256_hex s = sha256_hex p → s = p.
Proof.
  assert (E : ∀ s, sha256_hex s = if decide (s = demo_secret x01) then [x31]
    else if decide (s = demo_secret x02) then [x32] else []) by reflexivity.
  assert (Hne : demo_secret x02 ≠ demo_secret x01) by (vm_compute; discriminate).
  rewrite !E. clear E. revert Hne. generalize (demo_secret x01), (demo_secret x02).
  intros a b Hne. repeat case_decide; intros [Hp|Hp] [=]; congruence.
Qed.

Lemma keys_authenticate_iff_live_witness :
  store_verify (run_keys demo_key_ops (Sqlite empty_table)) (demo_secret x02) = true ∧
  store_verify (run_keys demo_key_ops (Sqlite empty_table)) (demo_secret x01) = false.
Proof.
  assert (Hsha : ∀ s, in_u64 (N.of_nat (length (sha256_hex s)))).
  { intros s. simpl. case_decide; [reflexivity|]. case_decide; reflexivity. }
  split.
  - apply (keys_authenticate_iff_live Hsha demo_key_ops (demo_secret x02)).
    + intros s Hs. apply demo_digest_injective; [right; reflexivity|exact Hs].
    + split; [vm_compute; discriminate|]. exists 1%N. vm_compute. reflexivity.
  - apply not_true_iff_false. intros H.
    apply (keys_authenticate_iff_live Hsha demo_key_ops (demo_secret x01)) in H.
    + destruct H as (_ & id & Hid). assert (E : ring (run_ring demo_key_ops empty_ring) = {[1%N := (demo_secret x02, true)]})
        by (vm_compute; reflexivity).
      rewrite E in Hid. apply lookup_singleton_Some in Hid as [_ [= Hs]].
    + intros s Hs. apply demo_digest_injective; [left; reflexivity|exact Hs].
Defined.

Definition demo_request (token : string) : Request :=
  mkRequest (bs "/mcp") (Some (Some (bs "bearer " ++ bs token))) None [] None.
Definition demo_environ (var : str) : option str := if decide (var = bs "KEY") then Some (bs "s3cret") else None.
Definition demo_ip : IpAddr := V4 [192; 0; 2; 1]%N.

Lemma routable_server_needs_key_witness :
  http_gates (mkLayer (mkAuth (Some (bs "s3cret"))) false None) demo_ip 8787 (demo_request "wrong") = Unauthorized ∧
  ∃ var key, Some (bs "KEY") = Some var ∧ demo_environ var = Some key ∧
    (http_gates (mkLayer (mkAuth (Some (bs "s3cret"))) false None) demo_ip 8787 (demo_request "s3cret") = Pass →
     ∃ token, presents (demo_request "s3cret") token ∧ token = key).
Proof.
  split; [vm_compute; reflexivity|].
  destruct (routable_server_needs_key demo_environ None (Some (bs "KEY")) demo_ip demo_ip 8787 None
    (demo_request "s3cret") (mkAuth (Some (bs "s3cret")))) as (_ & var & key & Hv & Hk & Hne & H).
  - vm_compute. reflexivity.
  - reflexivity.
  - intros key [= <-]. reflexivity.
  - intros token (h & [= <-] & Hp). vm_compute in Hp. injection Hp as <-. reflexivity.
  - exists var, key. split; [exact Hv|]. split; [exact Hk|]. intros Hpass.
    destruct (H Hpass) as [Hst|(token & Hp & [Ht|(st & [=] & _)])]; [vm_compute in Hst; discriminate|].
    exists token. done.
Defined.

Lemma padded_key_is_never_accepted_witness :
  auth_verify (mkAuth (Some (bs "s3cret "))) (bs "s3cret") = false.
Proof.
  apply (padded_key_is_never_accepted (bs "s3cret ") (demo_request "s3cret") (bs "s3cret")).
  - vm_compute. discriminate.
  - exists (bs "bearer s3cret"). split; reflexivity.
  - reflexivity.
  - reflexivity.
Defined.
