(* ===== verification/RustPrefix.v ===== *)
(** * Where a Rust item begins (parsing/languages/rust.rs)

    [insertion_prefix_start] finds the place above which code is inserted before a Rust
    item: the first of the attributes and outer doc comments that precede it, found in a
    fresh tree-sitter parse.  The parser and its trees are tree-sitter's and are parameters
    ([RustTrees]); the walk over the siblings, the kinds and the prefixes of comments are
    the code's.

    What the tree promises is what tree-sitter documents: a child begins no earlier than its
    parent, and a previous sibling ends before the node begins. *)

From Stdlib Require Import Lia Strings.Byte.
From stdpp Require Import base gmap sets list strings numbers option.
From S2P Require Import Prelude Slices Text Domain.

#[global] Set Default Goal Selector "!".

(** What is asked of a node of the tree. *)
Record RustNode := mkRustNode { n_kind : string; n_start : nat; n_end : nat; n_error : bool }.

(** A node with its ancestors, itself first, each with its previous named siblings, the
    nearest first. *)
Notation RustPath := (list (RustNode * list RustNode)).

Fixpoint well_nested (path : RustPath) : Prop :=
  match path with
  | [] => True
  | (node, before) :: outer =>
      Forall (λ previous, n_start previous ≤ n_end previous ≤ n_start node) before ∧
      match outer with (parent, _) :: _ => n_start parent ≤ n_start node | [] => True end ∧
      well_nested outer
  end.

Class RustTrees := {
  RustTree : Type;
  set_language : Result unit (list byte);
  parser_parse : list byte → option RustTree;
  named_descendant_for_byte_range : RustTree → nat → nat → option RustPath;
  tree_well_nested tree start stop path :
    named_descendant_for_byte_range tree start stop = Some path → well_nested path;
}.

Section prefix.
Context {trees : RustTrees}.
Notation str := (list byte).
Notation pos n := (N.to_nat n).

(** [parse_source_tree] for Rust, which has a grammar. *)
Definition parse_source_tree (source : str) : Result RustTree str :=
  match set_language with
  | Err e => Err (bs "failed to set language: " ++ e)
  | Ok _ =>
      match parser_parse source with
      | Some tree => Ok tree
      | None => Err (bs "tree-sitter parse returned None")
      end
  end.

Definition kind_in (kinds : list string) (node : RustNode) : bool := bool_decide (n_kind node ∈ kinds).

Definition is_module_level (path : RustPath) : bool :=
  match path with
  | _ :: (parent, _) :: outer =>
      if kind_in ["source_file"; "declaration_list"]%string parent then true
      else if kind_in ["expression_statement"]%string parent then
        match outer with
        | (grandparent, _) :: _ => kind_in ["source_file"; "declaration_list"]%string grandparent
        | [] => false
        end
      else false
  | _ => false
  end.

Definition ITEM_KINDS : list string :=
  ["function_item"; "macro_definition"; "struct_item"; "enum_item"; "trait_item"; "impl_item"; "const_item";
   "static_item"; "mod_item"; "type_item"].

(** The two [filter]s on the node that was found. *)
Definition is_core_item (start stop : nat) (path : RustPath) : bool :=
  match path with
  | [] => false
  | (node, _) :: _ =>
      bool_decide (n_start node = start) && bool_decide (n_end node = stop) && negb (n_error node)
      && (kind_in ITEM_KINDS node || kind_in ["macro_invocation"]%string node && is_module_level path)
  end.

(** A module-level macro call is owned by its statement. *)
Definition owner_of (path : RustPath) : RustPath :=
  match path with
  | (node, _) :: outer =>
      match outer with
      | (parent, _) :: _ =>
          if kind_in ["macro_invocation"]%string node && kind_in ["expression_statement"]%string parent
          then outer else path
      | [] => path
      end
  | [] => path
  end.

Definition outer_doc (text : str) : bool :=
  starts_with (bs "///") text && negb (starts_with (bs "////") text)
  || starts_with (bs "/**") text && negb (starts_with (bs "/***") text) && bool_decide (text ≠ bs "/**/").

(** [&source[previous.byte_range()]]. *)
Definition node_text (source : str) (node : RustNode) : Outcome str :=
  if (n_start node <=? n_end node) && is_char_boundary source (n_start node) && is_char_boundary source (n_end node)
  then Done (drop (n_start node) (take (n_end node) source)) else Panic.

Fixpoint prefix_loop (source : str) (boundary : nat) (siblings : list RustNode) : Outcome (Result nat str) :=
  match siblings with
  | [] => mret (Ok boundary)
  | previous :: siblings =>
      if n_error previous then mret (Err (bs "Cannot determine Rust insertion boundary: malformed item prefix"))
      else if kind_in ["attribute_item"]%string previous then prefix_loop source (n_start previous) siblings
      else if kind_in ["line_comment"; "block_comment"]%string previous then
        text ← node_text source previous;
        if starts_with (bs "//!") text || starts_with (bs "/*!") text then mret (Ok boundary)
        else prefix_loop source (if outer_doc text then n_start previous else boundary) siblings
      else mret (Ok boundary)
  end.

Definition insertion_prefix_start (source : str) (symbol : SymbolRecord) : Outcome (Result N str) :=
  let start := pos (s_byte_range symbol).1 in
  let stop := pos (s_byte_range symbol).2 in
  if (stop <=? start) || negb (is_char_boundary source start && is_char_boundary source stop)
  then mret (Err (bs "Cannot determine Rust insertion boundary: invalid core range"))
  else
    match parse_source_tree source with
    | Err e => mret (Err e)
    | Ok tree =>
        match named_descendant_for_byte_range tree start stop with
        | Some path =>
            if is_core_item start stop path then
              match owner_of path with
              | (owner, before) :: _ =>
                  if n_error owner
                  then mret (Err (bs "Cannot determine Rust insertion boundary: malformed owning statement"))
                  else
                    boundary ← prefix_loop source (n_start owner) before;
                    mret (match boundary with Ok b => Ok (as_u32 b) | Err e => Err e end)
              | [] => mret (Err (bs "Cannot determine Rust insertion boundary: core item no longer matches"))
              end
            else mret (Err (bs "Cannot determine Rust insertion boundary: core item no longer matches"))
        | None => mret (Err (bs "Cannot determine Rust insertion boundary: core item no longer matches"))
        end
    end.

(** ** Where the boundary lies *)

Lemma prefix_loop_le source boundary siblings top b :
  Forall (λ previous, n_start previous ≤ n_end previous ≤ top) siblings → boundary ≤ top →
  prefix_loop source boundary siblings = Done (Ok b) → b ≤ top.
Proof.
  intros Hs. revert boundary. induction Hs as [|p siblings Hp _ IH]; intros boundary Hb; simpl; [by intros [= <-]|].
  destruct (n_error p); [done|]. destruct (kind_in _ p); [apply IH; lia|].
  destruct (kind_in _ p); [|by intros [= <-]]. rewrite Outcome_bind_Done. intros (text & _ & H).
  destruct (_ || _); [by injection H as <-|]. revert H. apply IH. destruct (outer_doc text); lia.
Qed.

Lemma owner_nested path node before outer :
  well_nested path → path = (node, before) :: outer →
  well_nested (owner_of path) ∧ ∃ owner before' outer', owner_of path = (owner, before') :: outer' ∧ n_start owner ≤ n_start node.
Proof.
  intros Hn ->. unfold owner_of. simpl in Hn. destruct Hn as (Hb & Hp & Ho).
  destruct outer as [|[parent pb] outer]; [split; [done|eauto]|]. destruct (_ && _); [split; [done|eauto]|].
  split; [done|]. eauto 6.
Qed.

(** Code is inserted above the first byte of the item, never inside or below it. *)
Lemma insertion_prefix_above source symbol n :
  insertion_prefix_start source symbol = Done (Ok n) → (n ≤ (s_byte_range symbol).1)%N.
Proof.
  unfold insertion_prefix_start. destruct (_ || _); [done|]. destruct (parse_source_tree source) as [tree|]; [|done].
  destruct (named_descendant_for_byte_range tree _ _) as [path|] eqn:Ed; [|done]. apply tree_well_nested in Ed.
  destruct (is_core_item _ _ path) eqn:Ec; [|done]. destruct path as [|[node before] outer] eqn:Ep; [done|].
  simpl in Ec. rewrite !andb_true_iff, bool_decide_eq_true in Ec. destruct Ec as [[[Es _] _] _].
  destruct (owner_nested _ node before outer Ed eq_refl) as (Hn & owner & before' & outer' & Eo & Hle). rewrite Eo in *.
  destruct (n_error owner); [done|]. rewrite Outcome_bind_Done. intros ([b|] & Hl & H); [|done]. injection H as <-.
  destruct Hn as [Hb _]. pose proof (prefix_loop_le _ _ _ _ _ Hb (le_n _) Hl).
  pose proof (N.Div0.mod_le (N.of_nat b) u32_modulus). unfold as_u32. lia.
Qed.

(** ** What belongs to the item *)

(** A sibling that the walk passes, and one that moves the boundary. *)
Definition passed (source : str) (p : RustNode) : bool :=
  negb (n_error p) && (kind_in ["attribute_item"]%string p ||
    kind_in ["line_comment"; "block_comment"]%string p &&
      match node_text source p with
      | Done text => negb (starts_with (bs "//!") text || starts_with (bs "/*!") text)
      | Panic => false
      end).
Definition moves (source : str) (p : RustNode) : bool :=
  kind_in ["attribute_item"]%string p ||
  match node_text source p with Done text => outer_doc text | Panic => false end.

(** The boundary is the first attribute or outer doc comment of the unbroken run of
    attributes and comments above the item, inner doc comments excluded, or the item's own
    start if the run has none: a plain comment between two of them stays with the item, one
    above the first does not. *)
Theorem boundary_of_run source boundary siblings b :
  prefix_loop source boundary siblings = Done (Ok b) →
  ∃ run rest, siblings = run ++ rest ∧ Forall (λ p, passed source p = true) run ∧
    match rest with p :: _ => passed source p = false | [] => True end ∧
    b = default boundary (n_start <$> list.last (filter (λ p, moves source p = true) run)).
Proof.
  revert boundary. induction siblings as [|p siblings IH]; intros boundary; simpl.
  { intros [= <-]. by exists [], []. }
  destruct (n_error p) eqn:Ee; [done|].
  assert (Hstep : ∀ boundary', passed source p = true → boundary' = (if moves source p then n_start p else boundary) →
    prefix_loop source boundary' siblings = Done (Ok b) →
    ∃ run rest, p :: siblings = run ++ rest ∧ Forall (λ p, passed source p = true) run ∧
      match rest with q :: _ => passed source q = false | [] => True end ∧
      b = default boundary (n_start <$> list.last (filter (λ p, moves source p = true) run))).
  { intros boundary' Hp Eb Hl. destruct (IH _ Hl) as (run & rest & -> & Hr & Hrest & E). exists (p :: run), rest.
    split_and!; [done|by constructor|done|]. rewrite filter_cons, E. clear E. subst boundary'.
    set (l := filter _ run). destruct (moves source p); [rewrite decide_True by done|rewrite decide_False by done; done].
    rewrite last_cons. by destruct (list.last l). }
  assert (Hstop : passed source p = false → boundary = b →
    ∃ run rest, p :: siblings = run ++ rest ∧ Forall (λ p, passed source p = true) run ∧
      match rest with q :: _ => passed source q = false | [] => True end ∧
      b = default boundary (n_start <$> list.last (filter (λ p, moves source p = true) run))).
  { intros Hp ->. by exists [], (p :: siblings). }
  unfold passed, moves in Hstep, Hstop. rewrite Ee in Hstep, Hstop.
  destruct (kind_in ["attribute_item"%string] p); [by apply Hstep|].
  destruct (kind_in ["line_comment"; "block_comment"]%string p); [|intros [= ->]; by apply Hstop].
  rewrite Outcome_bind_Done. intros (text & Et & H). rewrite Et in Hstep, Hstop.
  destruct (starts_with (bs "//!") text || starts_with (bs "/*!") text); [injection H as ->; by apply Hstop|]. by eapply Hstep.
Qed.
End prefix.

(** ** A tree

    An inner doc comment, a plain comment, an attribute and an item. *)
Definition demo_rust : list byte := bs "//! d
// c
#[a]
fn f(){}".

#[local] Program Instance demo_trees : RustTrees := {
  RustTree := unit;
  set_language := Ok tt;
  parser_parse _ := Some tt;
  named_descendant_for_byte_range _ _ _ :=
    Some [(mkRustNode "function_item" 16 24 false,
           [mkRustNode "attribute_item" 11 15 false; mkRustNode "line_comment" 6 10 false; mkRustNode "line_comment" 0 5 false]);
          (mkRustNode "source_file" 0 24 false, [])];
}.
Next Obligation. intros ? ? ? path [= <-]. simpl. repeat constructor. Qed.

(** Code goes above the attribute, below the comments. *)
Example demo_prefix :
  insertion_prefix_start demo_rust (mkSymbol (bs "f") Function 0 0 (16, 24)%N (3, 3)%N (Some (0, 5)%N) None) = Done (Ok 11%N).
Proof. vm_compute. reflexivity. Qed.
