(* ===== verification/Structural.v ===== *)
(** * Structural edits (edit_safety/structural.rs)

    How the text of a file changes when a symbol is replaced, deleted, surrounded or edited
    within: a splice of bytes computed from the symbol's captured ranges, with the line
    ending and the indentation of the file.  Everything here is a pure function of the
    file's bytes; what may panic returns an [Outcome].

    Positions in a file are [nat]; a captured [u32] is an [N], and a position that the code
    casts with [as u32] goes through [as_u32].  The start of a Rust item with its attributes
    is found in a tree-sitter parse ([RustPrefix]). *)

From Stdlib Require Import Lia Strings.Byte.
From stdpp Require Import base gmap sets list strings numbers option.
From S2P Require Import Prelude Slices Text Domain RustPrefix.

#[global] Set Default Goal Selector "!".

Notation str := (list byte).
Notation pos n := (N.to_nat n).

(** ** Core splice *)

Definition apply_splice (content : list byte) (range : N * N) (replacement : list byte) : list byte :=
  let start := Nat.min (pos range.1) (length content) in
  let stop := Nat.min (Nat.max (pos range.2) start) (length content) in
  take start content ++ replacement ++ drop stop content.

(** ** Line endings *)

Inductive LineEnding := Lf | CrLf.

#[global] Instance LineEnding_eq_dec : EqDecision LineEnding.
Proof. solve_decision. Defined.

Definition as_bytes (le : LineEnding) : list byte :=
  match le with Lf => [x0a] | CrLf => [x0d; x0a] end.

Fixpoint count_endings (content : list byte) (crlf lf : nat) : nat * nat :=
  match content with
  | [] => (crlf, lf)
  | b :: rest =>
      if decide (b = x0d) then
        match rest with
        | c :: rest' => if decide (c = x0a) then count_endings rest' (S crlf) lf else count_endings rest crlf lf
        | [] => (crlf, lf)
        end
      else if decide (b = x0a) then count_endings rest crlf (S lf)
      else count_endings rest crlf lf
  end.

Definition detect_line_ending (content : list byte) : LineEnding :=
  let '(crlf, lf) := count_endings content 0 0 in
  if lf <? crlf then CrLf else Lf.

Fixpoint canonical_newlines (text : list byte) : list byte :=
  match text with
  | [] => []
  | b :: rest =>
      if decide (b = x0d) then
        match rest with
        | c :: rest' => if decide (c = x0a) then x0a :: canonical_newlines rest' else x0a :: canonical_newlines rest
        | [] => [x0a]
        end
      else b :: canonical_newlines rest
  end.

Definition expand_newline (b : byte) : list byte := if decide (b = x0a) then [x0d; x0a] else [b].

Definition normalize_line_endings (text : list byte) (target : LineEnding) : list byte :=
  let canonical := canonical_newlines text in
  match target with
  | Lf => canonical
  | CrLf => canonical ≫= expand_newline
  end.

(** ** Indentation *)

Definition line_start_before (prefix : list byte) : nat :=
  match rposition is_newline prefix with Some p => S p | None => 0 end.

Definition detect_indentation (content : list byte) (byte_offset : N) : Outcome (list byte) :=
  prefix ← slice_to content (pos byte_offset);
  let line_start := line_start_before prefix in
  let line := drop line_start content in
  let indent_end := default 0 (position (λ b, negb (is_ascii_whitespace b) || is_newline b) line) in
  mret (take indent_end line).

Fixpoint common_len (a b : list byte) : nat :=
  match a, b with
  | x :: a, y :: b => if decide (x = y) then S (common_len a b) else 0
  | _, _ => 0
  end.

(** The leading white space of a line. *)
Definition leading (line : str) : str := take (length line - length (trim_start line)) line.

Fixpoint common_loop (ls : list str) (common : option str) : Outcome (option str) :=
  match ls with
  | [] => mret common
  | raw :: ls =>
      let line := strip_cr raw in
      if decide (trim line = []) then common_loop ls common
      else
        let ws := leading line in
        common ← match common with
                 | None => mret ws
                 | Some prev => str_prefix prev (common_len prev ws)
                 end;
        if decide (common = []) then mret (Some common) else common_loop ls (Some common)
  end.

Definition common_leading_whitespace (ls : list str) : Outcome str :=
  common ← common_loop ls None; mret (default [] common).

Definition indent_line (base indent : list byte) (raw : str) : list byte :=
  let line := strip_cr raw in
  if decide (line = []) then []
  else indent ++ default line (strip_prefix base line).

Definition apply_indentation (text : str) (indent : list byte) (le : LineEnding) : Outcome (list byte) :=
  let parts := split_bytes is_newline text in
  base ← common_leading_whitespace parts;
  mret (join (as_bytes le) (indent_line base indent <$> parts)).

(** ** Replacement *)

Definition doc_markers : list str := [bs "///"; bs "//!"; bs "/**"; bs "/*!"; bs "#[doc"].

Definition body_starts_with_doc_comment (body : str) : bool :=
  match list_find (λ l, trim l ≠ []) (lines body) with
  | None => false
  | Some (_, first) => existsb (λ m, starts_with m (trim_start first)) doc_markers
  end.

Definition orphan_comment (line : list byte) : bool :=
  let trimmed := trim_start (default [] (from_utf8 line)) in
  existsb (λ m, starts_with m trimmed) [bs "///"; bs "//!"; bs "/**"; bs "* "; bs "# "]
  || bool_decide (trimmed = bs "*/") || bool_decide (trimmed = bs "#").

(** The lines above, from the nearest up: how many of them are comments. *)
Fixpoint comment_run (above : list (list byte)) : nat :=
  match above with
  | [] => 0
  | line :: above => if orphan_comment line then S (comment_run above) else 0
  end.

Definition extend_past_orphaned_docs (content : list byte) (line_start : nat) (sym : SymbolRecord) : nat :=
  if s_doc_byte_range sym then line_start else
  let ls := split_bytes is_newline (take line_start content) in
  let i := match reverse ls with [] :: _ => length ls - 1 | _ => length ls end in
  match reverse (take i ls) with
  | [] => line_start
  | nearest :: above =>
      if forallb is_ascii_whitespace nearest then
        match comment_run above with
        | 0 => line_start
        | S _ as found => sum_list ((λ l : list byte, length l + 1) <$> take (i - 1 - found) ls)
        end
      else line_start
  end.

Definition doc_prefix_after (trimmed : str) (marker_end : nat) : nat :=
  let rest := drop marker_end trimmed in
  marker_end + (length rest - length (trim_start rest)).

Definition same_line_doc_prefix_end (prefix : list byte) : option nat :=
  text ← from_utf8 prefix;
  let trimmed := trim_start text in
  let leading := length text - length trimmed in
  if starts_with (bs "/**") trimmed || starts_with (bs "/*!") trimmed then
    i ← find_str (bs "*/") trimmed; Some (leading + doc_prefix_after trimmed (i + 2))
  else if starts_with (bs "#[doc") trimmed then
    i ← find_str (bs "]") trimmed; Some (leading + doc_prefix_after trimmed (i + 1))
  else None.

Definition docless_replacement_splice_start (content : list byte) (raw_line_start symbol_start : nat) : nat :=
  if decide (symbol_start ≤ raw_line_start ∨ length content < symbol_start) then raw_line_start
  else
    match same_line_doc_prefix_end (drop raw_line_start (take symbol_start content)) with
    | Some e => raw_line_start + e
    | None => raw_line_start
    end.

Definition span_error : str := bs "symbol span is outside the captured file".

Definition replacement_splice_range (content : list byte) (sym : SymbolRecord) (new_body : str) :
    Result (N * N) str :=
  let '(start, stop) := s_byte_range sym in
  if decide (stop < start ∨ N.of_nat (length content) < stop ∨ start < effective_start sym)%N
  then Err span_error
  else
    let docs := body_starts_with_doc_comment new_body in
    let effective := if docs then effective_start sym else start in
    let raw_line_start := line_start_before (take (pos effective) content) in
    let splice_start :=
      if docs then extend_past_orphaned_docs content raw_line_start sym
      else docless_replacement_splice_start content raw_line_start (pos start) in
    Ok (as_u32 splice_start, stop).

Record PreparedReplace := mkPrepared {
  new_content : list byte;
  old_bytes : nat;
  inserted_bytes : nat;
}.

(** The text of an insertion: line endings, then indentation. *)
Definition indented_text (new_code : str) (indent : list byte) (le : LineEnding) : Outcome (list byte) :=
  let normalized := normalize_line_endings new_code le in
  apply_indentation (default new_code (from_utf8 normalized)) indent le.

Definition prepare_replace (content : list byte) (sym : SymbolRecord) (new_body : str) :
    Outcome (Result PreparedReplace str) :=
  let '(start, stop) := s_byte_range sym in
  match replacement_splice_range content sym new_body with
  | Err e => mret (Err e)
  | Ok (splice_start, _) =>
      indent ← detect_indentation content start;
      indented ← indented_text new_body indent (detect_line_ending content);
      mret (Ok (mkPrepared (apply_splice content (splice_start, stop) indented)
                  (pos (u32_sub stop start)) (length indented)))
  end.

(** ** Insertion *)

Definition ends_with_blank (prefix : list byte) (le : LineEnding) : bool :=
  ends_with (as_bytes le ++ as_bytes le) prefix.

Definition build_insert_before_at_position (content : list byte) (sym : SymbolRecord) (new_code : str)
    (le : LineEnding) (line_start : N) (indent : list byte) : Outcome (list byte) :=
  indented ← indented_text new_code indent le;
  separator ← match s_doc_byte_range sym with
    | Some _ => mret (as_bytes le)
    | None =>
        prefix ← slice_to content (pos line_start);
        mret (if ends_with_blank prefix le then as_bytes le else as_bytes le ++ as_bytes le)
    end;
  mret (apply_splice content (line_start, line_start) (indented ++ separator)).

Definition skip_trailing_semicolon (content : list byte) (p : nat) : nat :=
  let rest := drop p content in
  let blanks := default (length rest) (position (λ b, negb (bool_decide (b = x20 ∨ b = x09))) rest) in
  match rest !! blanks with
  | Some x3b => p + blanks + 1
  | _ => p
  end.

Definition insert_after_position (content : list byte) (sym : SymbolRecord) : N :=
  as_u32 (skip_trailing_semicolon content (pos (s_byte_range sym).2)).

Definition build_insert_after (content : list byte) (sym : SymbolRecord) (new_code : str) (le : LineEnding) :
    Outcome (list byte) :=
  indent ← detect_indentation content (s_byte_range sym).1;
  indented ← indented_text new_code indent le;
  let insert_pos := insert_after_position content sym in
  mret (apply_splice content (insert_pos, insert_pos) (as_bytes le ++ as_bytes le ++ indented)).

Section insert_before.
Context {trees : RustTrees}.

Definition insert_before_position (content : list byte) (sym : SymbolRecord) (language : LanguageId) :
    Outcome (Result N str) :=
  sym_start ←
    if decide (language = Rust) then
      match from_utf8 content with
      | None => mret (Err (bs "Cannot determine Rust insertion boundary: source is not UTF-8"))
      | Some source => insertion_prefix_start source sym
      end
    else mret (Ok (effective_start sym));
  mret match sym_start with
  | Err e => Err e
  | Ok sym_start =>
      if decide (length content < pos sym_start)
      then Err (bs "Cannot determine insertion boundary: span is out of bounds")
      else
        let prefix := take (pos sym_start) content in
        let line_start := line_start_before prefix in
        if bool_decide (language = Rust) && negb (forallb is_ascii_whitespace (drop line_start prefix))
        then Err (bs "Cannot insert before a Rust item sharing its line with preceding code")
        else Ok (as_u32 line_start)
  end.

Definition build_insert_before (content : list byte) (sym : SymbolRecord) (new_code : str) (le : LineEnding)
    (language : LanguageId) : Outcome (Result (list byte) str) :=
  position ← insert_before_position content sym language;
  match position with
  | Err e => mret (Err e)
  | Ok position =>
      indent ← detect_indentation content (s_byte_range sym).1;
      out ← build_insert_before_at_position content sym new_code le position indent;
      mret (Ok out)
  end.
End insert_before.

(** ** Deletion *)

(** The attribute lines directly above; the argument is the text before [line_start], so
    each step gives up the line that ends there. *)
Fixpoint extend_past_leading_attributes (fuel : nat) (content : list byte) (start : nat) : nat :=
  match fuel with
  | 0 => start
  | S fuel =>
      if decide (start = 0) then start
      else
        let prev_line_end := start - 1 in
        let prev_line_start := line_start_before (take prev_line_end content) in
        let line := drop prev_line_start (take prev_line_end content) in
        let trimmed := trim (default [] (from_utf8 line)) in
        if starts_with (bs "#[") trimmed
        then extend_past_leading_attributes fuel content prev_line_start
        else start
  end.

(** Past the end of the current line, its newline included. *)
Definition end_of_line (content : list byte) (p : nat) : nat :=
  match position is_newline (drop p content) with
  | Some i => p + i + 1
  | None => Nat.max p (length content)
  end.

(** One more line ending, if one follows. *)
Definition skip_blank_line (content : list byte) (le : LineEnding) (p : nat) : nat :=
  if starts_with (as_bytes le) (drop p content) then p + length (as_bytes le) else p.

Definition delete_source_range (content : list byte) (sym : SymbolRecord) (le : LineEnding) : Outcome (N * N) :=
  prefix ← slice_to content (pos (effective_start sym));
  let line_start := line_start_before prefix in
  let after_attrs := extend_past_leading_attributes line_start content line_start in
  let start := as_u32 (extend_past_orphaned_docs content after_attrs sym) in
  let stop := as_u32 (skip_blank_line content le (end_of_line content (pos (s_byte_range sym).2))) in
  mret (start, stop).

Fixpoint collapse_lf (content : list byte) (consecutive : nat) : list byte :=
  match content with
  | [] => []
  | b :: rest =>
      if decide (b = x0a) then
        if S consecutive <=? 2 then b :: collapse_lf rest (S consecutive) else collapse_lf rest (S consecutive)
      else b :: collapse_lf rest 0
  end.

Fixpoint collapse_crlf (content : list byte) (consecutive : nat) : list byte :=
  match content with
  | [] => []
  | b :: rest =>
      match rest with
      | c :: rest' =>
          if decide (b = x0d ∧ c = x0a) then
            if S consecutive <=? 2 then x0d :: x0a :: collapse_crlf rest' (S consecutive)
            else collapse_crlf rest' (S consecutive)
          else b :: collapse_crlf rest 0
      | [] => [b]
      end
  end.

Definition collapse_blank_lines (content : list byte) (le : LineEnding) : list byte :=
  match le with Lf => collapse_lf content 0 | CrLf => collapse_crlf content 0 end.

Definition build_delete (content : list byte) (sym : SymbolRecord) (le : LineEnding) : Outcome (list byte) :=
  range ← delete_source_range content sym le;
  mret (collapse_blank_lines (apply_splice content range []) le).

(** The ranges that the blank-line cleanup removes, in the coordinates of the original. *)
Definition push_range (removed : list (N * N)) (r : N * N) : list (N * N) :=
  match reverse removed with
  | (s, e) :: rest => if decide (e = r.1) then reverse ((s, r.2) :: rest) else removed ++ [r]
  | [] => [r]
  end.

Definition push_part (main_start main_end : N) (removed : list (N * N)) (part : nat * nat) : list (N * N) :=
  let '(start, stop) := part in
  if decide (stop ≤ start) then removed
  else
    let shift := if decide (pos main_start ≤ start) then pos (u32_sub main_end main_start) else 0 in
    push_range removed (as_u32 (start + shift), as_u32 (stop + shift)).

Definition push_cleanup_range (removed : list (N * N)) (spliced_start spliced_end : nat)
    (main_start main_end : N) : list (N * N) :=
  let boundary := pos main_start in
  foldl (push_part main_start main_end) removed
    [(spliced_start, Nat.min spliced_end boundary); (Nat.max spliced_start boundary, spliced_end)].

Fixpoint cleanup_lf (spliced : list byte) (position consecutive : nat) (range : N * N)
    (removed : list (N * N)) : list (N * N) :=
  match spliced with
  | [] => removed
  | b :: rest =>
      if decide (b = x0a) then
        cleanup_lf rest (S position) (S consecutive) range
          (if 2 <? S consecutive then push_cleanup_range removed position (position + 1) range.1 range.2
           else removed)
      else cleanup_lf rest (S position) 0 range removed
  end.

Fixpoint cleanup_crlf (spliced : list byte) (position consecutive : nat) (range : N * N)
    (removed : list (N * N)) : list (N * N) :=
  match spliced with
  | [] => removed
  | b :: rest =>
      match rest with
      | c :: rest' =>
          if decide (b = x0d ∧ c = x0a) then
            cleanup_crlf rest' (position + 2) (S consecutive) range
              (if 2 <? S consecutive then push_cleanup_range removed position (position + 2) range.1 range.2
               else removed)
          else cleanup_crlf rest (S position) 0 range removed
      | [] => removed
      end
  end.

Definition delete_cleanup_ranges (content : list byte) (sym : SymbolRecord) (le : LineEnding) :
    Outcome (list (N * N)) :=
  range ← delete_source_range content sym le;
  let spliced := apply_splice content range [] in
  mret (match le with Lf => cleanup_lf spliced 0 0 range [] | CrLf => cleanup_crlf spliced 0 0 range [] end).

(** ** Footprints *)

Inductive SpliceFootprint :=
| Bytes (start stop : N)
| Insert (at_ : N).

Definition splice_footprints_overlap (left right : SpliceFootprint) : bool :=
  match left, right with
  | Bytes a b, Bytes c d => (a <? d)%N && (c <? b)%N
  | Insert p, Bytes start stop | Bytes start stop, Insert p => (start <=? p)%N && (p <? stop)%N
  | Insert p, Insert q => bool_decide (p = q)
  end.

Definition u32_saturating_succ (n : N) : N := N.min (n + 1) (u32_modulus - 1).

Definition cleanup_invalidates_splice (cleanup : list (N * N)) (other : SpliceFootprint) : bool :=
  let last_target_byte := match other with Bytes _ stop => stop | Insert p => u32_saturating_succ p end in
  existsb (λ r, r.1 <? last_target_byte)%N cleanup.

(** ** Editing within a symbol *)

Definition replace_all_matches (pat to s : str) : str := replace_at 0 (match_indices pat s) (length pat) to s.
Definition replace_first (pat to s : str) : str := replace_at 0 (take 1 (match_indices pat s)) (length pat) to s.

Inductive EditWithinError :=
| BodyNotUtf8
| SearchNotUtf8
| ReplacementNotUtf8
| TextMissing.

Definition build_edit_within (content : list byte) (sym : SymbolRecord) (old_text new_text : str)
    (replace_all : bool) : Outcome (Result (list byte * nat) EditWithinError) :=
  let '(sym_start, sym_end) := (effective_start sym, (s_byte_range sym).2) in
  upto ← slice_to content (pos sym_end);
  if decide (length upto < pos sym_start) then Panic else
  match from_utf8 (drop (pos sym_start) upto) with
  | None => mret (Err BodyNotUtf8)
  | Some body =>
      let le := detect_line_ending content in
      match from_utf8 (normalize_line_endings old_text le), from_utf8 (normalize_line_endings new_text le) with
      | None, _ => mret (Err SearchNotUtf8)
      | _, None => mret (Err ReplacementNotUtf8)
      | Some needle, Some replacement =>
          let ms := match_indices needle body in
          match ms with
          | [] => mret (Err TextMissing)
          | _ :: _ =>
              let '(new_body, count) :=
                if replace_all then (replace_all_matches needle replacement body, length ms)
                else (replace_first needle replacement body, 1) in
              mret (Ok (apply_splice content (sym_start, sym_end) new_body, count))
          end
      end
  end.

Fixpoint indent_of_first_nonempty (ls : list str) : str :=
  match ls with
  | [] => []
  | line :: ls => if decide (trim_start line = []) then indent_of_first_nonempty ls else leading line
  end.

(** [&line[from..to]] on a string. *)
Definition str_slice (s : str) (from to : nat) : Outcome str :=
  if decide (from ≤ to) then
    if is_char_boundary s from && is_char_boundary s to then mret (drop from (take to s)) else Panic
  else Panic.

Definition reindent_line (old_base file_base line : str) : Outcome str :=
  if decide (trim line = []) then mret []
  else
    match strip_prefix old_base line with
    | Some rest => mret (file_base ++ rest)
    | None =>
        let line_indent := length line - length (trim_start line) in
        let old_indent := length old_base in
        if decide (line_indent < old_indent) then
          let deficit := old_indent - line_indent in
          if decide (deficit < length file_base) then
            base ← str_prefix file_base (length file_base - deficit);
            mret (base ++ trim_start line)
          else mret (trim_start line)
        else
          extra ← str_slice line old_indent line_indent;
          mret (file_base ++ extra ++ trim_start line)
    end.

(** [body_lines[start + i]] for every line of the window, until one differs: past the last
    line it panics. *)
Fixpoint window_hit (body_lines : list str) (old_trimmed : list str) : Outcome bool :=
  match old_trimmed with
  | [] => mret true
  | ot :: old_trimmed =>
      match body_lines with
      | [] => Panic
      | line :: body_lines =>
          if decide (trim_start line = ot) then window_hit body_lines old_trimmed else mret false
      end
  end.

Fixpoint window_matches (starts : list nat) (body_lines old_trimmed : list str) (replace_all : bool) :
    Outcome (list nat) :=
  match starts with
  | [] => mret []
  | start :: starts =>
      hit ← window_hit (drop start body_lines) old_trimmed;
      if hit : bool then
        if replace_all then
          rest ← window_matches starts body_lines old_trimmed replace_all; mret (start :: rest)
        else mret [start]
      else window_matches starts body_lines old_trimmed replace_all
  end.

Definition line_starts (body : str) : list nat :=
  0 :: (S <$> filter (λ i, body !! i = Some x0a) (seq 0 (length body))).

(** [String::replace_range]. *)
Definition replace_range (s : str) (from to : nat) (r : str) : Outcome str :=
  if decide (from ≤ to) then
    if is_char_boundary s from && is_char_boundary s to then mret (take from s ++ r ++ drop to s) else Panic
  else Panic.

Fixpoint reindent_lines (old_base file_base : str) (ls : list str) : Outcome (list str) :=
  match ls with
  | [] => mret []
  | l :: ls => l ← reindent_line old_base file_base l; ls ← reindent_lines old_base file_base ls; mret (l :: ls)
  end.

Definition flexible_step (body : str) (body_lines old_lines new_lines : list str) (result : str) (m : nat) :
    Outcome str :=
  let window := length old_lines in
  let starts := line_starts body in
  let byte_start := nth m starts 0 in
  let byte_end := default (length body) (starts !! (m + window)) in
  let matched_lines := take window (drop m body_lines) in
  let old_base := indent_of_first_nonempty old_lines in
  let file_base := indent_of_first_nonempty matched_lines in
  reindented ← reindent_lines old_base file_base new_lines;
  let replacement := join [x0a] reindented in
  let replacement :=
    if bool_decide (byte_start < byte_end) && bool_decide (result !! (byte_end - 1) = Some x0a)
       && negb (ends_with [x0a] replacement)
    then replacement ++ [x0a] else replacement in
  replace_range result byte_start byte_end replacement.

Fixpoint flexible_fold (body : str) (body_lines old_lines new_lines : list str) (ms : list nat) (result : str) :
    Outcome str :=
  match ms with
  | [] => mret result
  | m :: ms =>
      result ← flexible_step body body_lines old_lines new_lines result m;
      flexible_fold body body_lines old_lines new_lines ms result
  end.

Definition try_whitespace_flexible_replace (body old_text new_text : str) (replace_all : bool) :
    Outcome (option (str * nat)) :=
  let body_lines := lines body in
  let old_lines := lines old_text in
  if forallb (λ l, bool_decide (trim l = [])) old_lines then mret None
  else
    let old_trimmed := trim_start <$> old_lines in
    let last_start := length body_lines - length old_trimmed in
    ms ← window_matches (seq 0 (S last_start)) body_lines old_trimmed replace_all;
    match ms with
    | [] => mret None
    | _ =>
        result ← flexible_fold body body_lines old_lines (lines new_text) (reverse ms) body;
        mret (Some (result, length ms))
    end.

Record WithinSelection := mkWithin {
  new_body : str;
  w_count : nat;
  untargeted_extra : nat;
}.

Inductive WithinSelectionError :=
| InvalidSpan
| InvalidUtf8
| ConflictingTargeting
| OccurrenceOutOfRange (requested : N) (total : nat)
| NotFound.

Definition line_of (content : list byte) (p : nat) : Z :=
  1 + Z.of_nat (length (filter (λ b, b = x0a) (take p content))).

(** [min_by_key]: the first index of the least key. *)
Fixpoint first_least (key : nat → Z) (best : nat) (rest : list nat) : nat :=
  match rest with
  | [] => best
  | i :: rest => first_least key (if (key i <? key best)%Z then i else best) rest
  end.

Definition replace_one (body needle new_text : str) (p : nat) : str :=
  take p body ++ new_text ++ drop (p + length needle) body.

Definition flexible_selection (body needle replacement : str) (replace_all : bool) :
    Outcome (Result WithinSelection WithinSelectionError) :=
  r ← try_whitespace_flexible_replace body needle replacement replace_all;
  mret (match r with Some (b, n) => Ok (mkWithin b n 0) | None => Err NotFound end).

Definition targeted_index (content : list byte) (sym_start : nat) (positions : list nat)
    (occurrence near_line : option N) : Result nat WithinSelectionError :=
  match occurrence with
  | Some n =>
      if decide (n = 0%N ∨ length positions < pos n) then Err (OccurrenceOutOfRange n (length positions))
      else Ok (pos n - 1)
  | None =>
      let target := Z.of_N (default 1%N near_line) in
      let key i := Z.abs (line_of content (sym_start + nth i positions 0) - target) in
      Ok (first_least key 0 (seq 0 (length positions)))
  end.

Definition select_edit_within_body (content : list byte) (sym : SymbolRecord) (old_text new_text : str)
    (replace_all : bool) (occurrence near_line : option N) :
    Outcome (Result WithinSelection WithinSelectionError) :=
  let sym_start := pos (effective_start sym) in
  let sym_end := pos (s_byte_range sym).2 in
  if decide (sym_end < sym_start ∨ length content < sym_end) then mret (Err InvalidSpan) else
  match from_utf8 (drop sym_start (take sym_end content)) with
  | None => mret (Err InvalidUtf8)
  | Some body =>
      let le := detect_line_ending content in
      let needle := default old_text (from_utf8 (normalize_line_endings old_text le)) in
      let replacement := default new_text (from_utf8 (normalize_line_endings new_text le)) in
      let modes := (if replace_all then 1 else 0) + (if occurrence then 1 else 0) + (if near_line then 1 else 0) in
      if decide (1 < modes) then mret (Err ConflictingTargeting) else
      let ms := match_indices needle body in
      if replace_all then
        match ms with
        | [] => flexible_selection body needle replacement true
        | _ => mret (Ok (mkWithin (replace_all_matches needle replacement body) (length ms) 0))
        end
      else if bool_decide (is_Some occurrence ∨ is_Some near_line) then
        match ms with
        | [] => mret (Err NotFound)
        | _ =>
            mret match targeted_index content sym_start ms occurrence near_line with
                 | Err e => Err e
                 | Ok index => Ok (mkWithin (replace_one body needle replacement (nth index ms 0)) 1 0)
                 end
        end
      else
        match ms with
        | [] => flexible_selection body needle replacement false
        | _ => mret (Ok (mkWithin (replace_first needle replacement body) 1 (length ms - 1)))
        end
  end.

(** ** Removing positions

    [keep gone p l] is what remains of [l], whose first byte is at position [p], when the
    positions [gone] are removed. *)

Fixpoint keep (gone : nat → bool) (p : nat) (l : list byte) : list byte :=
  match l with
  | [] => []
  | b :: l => if gone p then keep gone (S p) l else b :: keep gone (S p) l
  end.

Definition in_ranges (rs : list (N * N)) (i : nat) : bool :=
  existsb (λ r, (pos r.1 <=? i) && (i <? pos r.2)) rs.

Lemma keep_app gone p l1 l2 : keep gone p (l1 ++ l2) = keep gone p l1 ++ keep gone (p + length l1) l2.
Proof.
  revert p. induction l1 as [|b l1 IH]; intros p; simpl; [by rewrite Nat.add_0_r|].
  rewrite IH, <-Nat.add_succ_comm. by destruct (gone p).
Qed.

Lemma keep_ext gone gone' p l :
  (∀ i, p ≤ i < p + length l → gone i = gone' i) → keep gone p l = keep gone' p l.
Proof.
  revert p. induction l as [|b l IH]; intros p H; simpl; [done|]. simpl in H.
  rewrite (H p) by lia. rewrite (IH (S p)) by (intros; apply H; lia). done.
Qed.

Lemma keep_false p l : keep (λ _, false) p l = l.
Proof. revert p. induction l as [|b l IH]; intros p; simpl; [done|]. by rewrite IH. Qed.

Lemma keep_true p l : keep (λ _, true) p l = [].
Proof. revert p. induction l as [|b l IH]; intros p; simpl; [done|]. by rewrite IH. Qed.

Lemma keep_shift gone k p l : keep gone (p + k) l = keep (λ i, gone (i + k)) p l.
Proof.
  revert p. induction l as [|b l IH]; intros p; simpl; [done|].
  change (S (p + k)) with (S p + k). by rewrite IH.
Qed.

(** The bytes whose mark is not set. *)
Fixpoint unmarked (marks : list bool) (l : list byte) : list byte :=
  match marks, l with
  | m :: marks, b :: l => if m then unmarked marks l else b :: unmarked marks l
  | _, _ => l
  end.

Lemma unmarked_keep gone p marks l :
  (∀ j, j < length l → marks !! j = Some (gone (p + j))) → unmarked marks l = keep gone p l.
Proof.
  revert p marks. induction l as [|b l IH]; intros p marks H; [by destruct marks|].
  destruct marks as [|m marks]; [specialize (H 0 ltac:(simpl; lia)); done|]. simpl.
  pose proof (H 0 ltac:(simpl; lia)) as H0. rewrite Nat.add_0_r in H0. simpl in H0. injection H0 as ->.
  rewrite (IH (S p)); [done|]. intros j Hj. specialize (H (S j) ltac:(simpl; lia)). simpl in H.
  by rewrite H, <-Nat.add_succ_comm.
Qed.

(** What the collapse removes, as marks. *)
Fixpoint marks_lf (content : list byte) (consecutive : nat) : list bool :=
  match content with
  | [] => []
  | b :: rest =>
      if decide (b = x0a) then (2 <? S consecutive) :: marks_lf rest (S consecutive)
      else false :: marks_lf rest 0
  end.

Fixpoint marks_crlf (content : list byte) (consecutive : nat) : list bool :=
  match content with
  | [] => []
  | b :: rest =>
      match rest with
      | c :: rest' =>
          if decide (b = x0d ∧ c = x0a) then
            (2 <? S consecutive) :: (2 <? S consecutive) :: marks_crlf rest' (S consecutive)
          else false :: marks_crlf rest 0
      | [] => [false]
      end
  end.

(** Induction on the pairs of a list: the scans for [\r\n] step by one or by two. *)
Lemma list_pair_ind (P : list byte → Prop) :
  P [] → (∀ b, P [b]) → (∀ b c l, P l → P (c :: l) → P (b :: c :: l)) → ∀ l, P l.
Proof.
  intros H0 H1 H2. assert (∀ l, P l ∧ ∀ b, P (b :: l)) as H; [|intros l; apply H].
  induction l as [|b l [IH IH']]; split; [done|done|by apply IH'|].
  intros c. apply H2; [done|by apply IH'].
Qed.

Lemma collapse_lf_marks l c : collapse_lf l c = unmarked (marks_lf l c) l.
Proof.
  revert c. induction l as [|b l IH]; intros c; [done|]. cbn [collapse_lf marks_lf].
  case_decide; cbn [unmarked]; [|by rewrite IH]. rewrite IH.
  destruct (Nat.leb_spec (S c) 2), (Nat.ltb_spec 2 (S c)); done || lia.
Qed.

Lemma collapse_crlf_eq b b' l c : collapse_crlf (b :: b' :: l) c =
  if decide (b = x0d ∧ b' = x0a) then
    if S c <=? 2 then x0d :: x0a :: collapse_crlf l (S c) else collapse_crlf l (S c)
  else b :: collapse_crlf (b' :: l) 0.
Proof. done. Qed.

Lemma marks_crlf_eq b b' l c : marks_crlf (b :: b' :: l) c =
  if decide (b = x0d ∧ b' = x0a) then (2 <? S c) :: (2 <? S c) :: marks_crlf l (S c)
  else false :: marks_crlf (b' :: l) 0.
Proof. done. Qed.

Lemma collapse_crlf_marks l c : collapse_crlf l c = unmarked (marks_crlf l c) l.
Proof.
  revert c. induction l as [|b|b b' l IH IH'] using list_pair_ind; intros c; [done|done|].
  rewrite collapse_crlf_eq, marks_crlf_eq. case_decide as E.
  - destruct E as [-> ->]. cbn [unmarked]. rewrite IH.
    destruct (Nat.leb_spec (S c) 2), (Nat.ltb_spec 2 (S c)); done || lia.
  - cbn [unmarked]. by rewrite IH'.
Qed.

Lemma length_marks_lf l c : length (marks_lf l c) = length l.
Proof. revert c. induction l as [|b l IH]; intros c; simpl; [done|]. by case_decide; simpl; rewrite IH. Qed.

Lemma length_marks_crlf l c : length (marks_crlf l c) = length l.
Proof.
  revert c. induction l as [|b|b b' l IH IH'] using list_pair_ind; intros c; [done|done|].
  rewrite marks_crlf_eq. case_decide; cbn [length]; [by rewrite IH|by rewrite IH'].
Qed.

Lemma marks_lf_newline l c j : marks_lf l c !! j = Some true → l !! j = Some x0a.
Proof.
  revert c j. induction l as [|b l IH]; intros c j; [done|]. cbn [marks_lf].
  case_decide as E; destruct j as [|j]; simpl; intros H; simplify_eq; eauto.
Qed.

Lemma marks_crlf_newline l c j :
  marks_crlf l c !! j = Some true → l !! j = Some x0a ∨ l !! j = Some x0d.
Proof.
  revert c j. induction l as [|b|b b' l IH IH'] using list_pair_ind; intros c j; [done|by destruct j|].
  rewrite marks_crlf_eq. case_decide as E; [destruct E as [-> ->]; destruct j as [|[|j]]|destruct j as [|j]];
    intros H; cbn [lookup list_lookup] in *; simplify_eq; eauto.
Qed.

(** ** The announced ranges *)

Definition ranges_ok (rs : list (N * N)) : Prop := Forall (λ r, (r.1 ≤ r.2)%N) rs.

Lemma in_ranges_spec rs i : in_ranges rs i = true ↔ ∃ r, r ∈ rs ∧ pos r.1 ≤ i < pos r.2.
Proof.
  unfold in_ranges. rewrite existsb_exists. split; intros (r & Hr & H); exists r;
    rewrite andb_true_iff, Nat.leb_le, Nat.ltb_lt in *; (split; [by apply list_elem_of_In|done]).
Qed.

Lemma in_ranges_app rs rs' i : in_ranges (rs ++ rs') i = in_ranges rs i || in_ranges rs' i.
Proof. apply existsb_app. Qed.

Lemma push_range_ok rs r : ranges_ok rs → (r.1 ≤ r.2)%N → ranges_ok (push_range rs r).
Proof.
  unfold push_range, ranges_ok. intros Hrs Hr. destruct (reverse rs) as [|[s e] rest] eqn:E; [by constructor|].
  apply (f_equal reverse) in E. rewrite reverse_involutive in E. subst rs. rewrite reverse_cons in *.
  apply Forall_app in Hrs as [Hrest He]. apply Forall_inv in He. simpl in He. case_decide.
  - rewrite ?reverse_cons, Forall_app, Forall_singleton. split; [done|]. simpl. lia.
  - rewrite ?reverse_cons, !Forall_app, !Forall_singleton. done.
Qed.

Lemma in_push_range rs r i :
  ranges_ok rs → (r.1 ≤ r.2)%N → in_ranges (push_range rs r) i = in_ranges rs i || in_ranges [r] i.
Proof.
  unfold push_range, ranges_ok. intros Hrs Hr. destruct (reverse rs) as [|[s e] rest] eqn:E.
  { apply (f_equal reverse) in E. rewrite reverse_involutive in E. by subst rs. }
  apply (f_equal reverse) in E. rewrite reverse_involutive in E. subst rs. rewrite reverse_cons in *.
  apply Forall_app in Hrs as [_ He]. apply Forall_inv in He. simpl in He. rewrite ?reverse_cons. case_decide as Er; [|by rewrite in_ranges_app].
  rewrite !in_ranges_app, <-orb_assoc. f_equal. simpl. subst e.
  destruct (Nat.leb_spec (pos s) i), (Nat.ltb_spec i (pos r.2)), (Nat.ltb_spec i (pos r.1)), (Nat.leb_spec (pos r.1) i);
    simpl; done || lia.
Qed.

Lemma pos_as_u32 n : n < pos u32_modulus → pos (as_u32 n) = n.
Proof. intros. unfold as_u32. rewrite N.mod_small by lia. lia. Qed.

Section cleanup.
Context (content : list byte) (range : N * N).
Hypothesis Hrange : pos range.1 ≤ pos range.2 ≤ length content.
Hypothesis Hlen : length content < pos u32_modulus.

(** The original position of a position after the splice. *)
Definition source_of (j : nat) : nat :=
  if decide (j < pos range.1) then j else j + (pos range.2 - pos range.1).

Lemma source_of_inj j j' : source_of j = source_of j' → j = j'.
Proof. unfold source_of. repeat case_decide; lia. Qed.

Let spliced := take (pos range.1) content ++ drop (pos range.2) content.

Lemma length_spliced : length spliced = length content - (pos range.2 - pos range.1).
Proof. subst spliced. rewrite length_app, length_take, length_drop. lia. Qed.

Lemma main_shift : pos (u32_sub range.2 range.1) = pos range.2 - pos range.1.
Proof.
  unfold u32_sub. replace (range.2 + u32_modulus - range.1)%N with ((range.2 - range.1) + 1 * u32_modulus)%N by lia.
  rewrite N.Div0.mod_add, N.mod_small by lia. lia.
Qed.

Lemma push_part_spec removed a b :
  ranges_ok removed → b ≤ length spliced → b ≤ pos range.1 ∨ pos range.1 ≤ a →
  ranges_ok (push_part range.1 range.2 removed (a, b)) ∧
  ∀ i, in_ranges (push_part range.1 range.2 removed (a, b)) i = true ↔
    in_ranges removed i = true ∨ ∃ j, a ≤ j < b ∧ i = source_of j.
Proof.
  intros Hok Hb Hside. rewrite length_spliced in Hb. unfold push_part. case_decide as Hab.
  { split; [done|]. intros i. split; [auto|]. intros [?|(j & ? & _)]; [done|lia]. }
  rewrite main_shift.
  set (shift := if decide (pos range.1 ≤ a) then pos range.2 - pos range.1 else 0).
  assert (Hsh : ∀ j, a ≤ j < b → source_of j = j + shift).
  { intros j Hj. unfold source_of, shift. repeat case_decide; lia. }
  assert (Hs : b + shift ≤ length content) by (unfold shift; case_decide; lia).
  assert (Hle : ((as_u32 (a + shift), as_u32 (b + shift)).1 ≤ (as_u32 (a + shift), as_u32 (b + shift)).2)%N).
  { simpl. pose proof (pos_as_u32 (a + shift)). pose proof (pos_as_u32 (b + shift)). lia. }
  split; [by apply push_range_ok|]. intros i. rewrite in_push_range by done.
  rewrite orb_true_iff, (in_ranges_spec [_]). apply or_iff_compat_l. split.
  - intros (r & ->%list_elem_of_singleton & Hi). simpl in Hi. rewrite !pos_as_u32 in Hi by lia.
    exists (i - shift). split; [lia|]. rewrite Hsh; lia.
  - intros (j & Hj & ->). eexists. split; [by apply list_elem_of_singleton|]. simpl.
    rewrite !pos_as_u32 by lia. rewrite Hsh by done. lia.
Qed.

Lemma push_cleanup_spec removed a b :
  ranges_ok removed → b ≤ length spliced →
  ranges_ok (push_cleanup_range removed a b range.1 range.2) ∧
  ∀ i, in_ranges (push_cleanup_range removed a b range.1 range.2) i = true ↔
    in_ranges removed i = true ∨ ∃ j, a ≤ j < b ∧ i = source_of j.
Proof.
  intros Hok Hb. unfold push_cleanup_range. cbn [foldl].
  destruct (push_part_spec removed a (Nat.min b (pos range.1))) as [Hok1 H1]; [done|lia|lia|].
  destruct (push_part_spec (push_part range.1 range.2 removed (a, Nat.min b (pos range.1)))
    (Nat.max a (pos range.1)) b) as [Hok2 H2]; [done|done|lia|].
  split; [done|]. intros i. rewrite H2, H1. split.
  - intros [[?|(j & ? & ->)]|(j & ? & ->)]; [by left|right..]; exists j; (split; [lia|done]).
  - intros [?|(j & ? & ->)]; [by left; left|].
    destruct (decide (j < pos range.1)); [left; right|right]; exists j; (split; [lia|done]).
Qed.

(** What the cleanup announces: the marked positions. *)
Definition announces (p : nat) (marks : list bool) (removed out : list (N * N)) : Prop :=
  ranges_ok out ∧ ∀ i, in_ranges out i = true ↔
    in_ranges removed i = true ∨ ∃ j, marks !! j = Some true ∧ i = source_of (p + j).

Lemma announces_cons p m marks removed mid out :
  (∀ i, in_ranges mid i = true ↔ in_ranges removed i = true ∨ m = true ∧ i = source_of p) →
  announces (S p) marks mid out → announces p (m :: marks) removed out.
Proof.
  intros Hm [Hok H]. split; [done|]. intros i. rewrite H, Hm. split.
  - intros [[?|[-> ->]]|(j & Hj & ->)]; [by left|right..].
    + exists 0. by rewrite Nat.add_0_r.
    + exists (S j). by rewrite Nat.add_succ_r.
  - intros [?|([|j] & Hj & ->)]; [by left; left|left; right|right].
    + simpl in Hj. injection Hj as ->. by rewrite Nat.add_0_r.
    + exists j. by rewrite Nat.add_succ_r.
Qed.

Lemma cleanup_lf_announces l p c removed :
  ranges_ok removed → p + length l ≤ length spliced →
  announces p (marks_lf l c) removed (cleanup_lf l p c range removed).
Proof.
  revert p c removed. induction l as [|b l IH]; intros p c removed Hok Hl.
  { split; [done|]. intros i. split; [auto|]. by intros [?|(j & Hj & _)]. }
  simpl in Hl. cbn [cleanup_lf marks_lf]. case_decide as E.
  - destruct (2 <? S c).
    + destruct (push_cleanup_spec removed p (p + 1)) as [Hok' H]; [done|lia|].
      eapply announces_cons; [|apply IH; [done|lia]]. intros i. rewrite H. apply or_iff_compat_l. split.
      * intros (j & Hj & ->). split; [done|]. by replace j with p by lia.
      * intros [_ ->]. exists p. split; [lia|done].
    + eapply announces_cons; [|apply IH; [done|lia]]. intros i. split; [auto|]. by intros [?|[? _]].
  - eapply announces_cons; [|apply IH; [done|lia]]. intros i. split; [auto|]. by intros [?|[? _]].
Qed.

Lemma announces_pair p m marks removed mid out :
  (∀ i, in_ranges mid i = true ↔
    in_ranges removed i = true ∨ m = true ∧ ∃ j, p ≤ j < p + 2 ∧ i = source_of j) →
  announces (p + 2) marks mid out → announces p (m :: m :: marks) removed out.
Proof.
  intros Hm [Hok H]. split; [done|]. intros i. rewrite H, Hm. split.
  - intros [[?|(-> & j & Hj & ->)]|(j & Hj & ->)]; [by left|right..].
    + exists (j - p). split; [|f_equal; lia]. assert (j - p = 0 ∨ j - p = 1) as [->| ->] by lia; done.
    + exists (S (S j)). split; [done|]. f_equal. lia.
  - intros [?|([|[|j]] & Hj & ->)]; [by left; left|left; right|left; right|right].
    + injection Hj as ->. split; [done|]. exists p. split; [lia|]. f_equal. lia.
    + injection Hj as ->. split; [done|]. exists (p + 1). split; [lia|done].
    + exists j. split; [done|]. f_equal. lia.
Qed.

Lemma cleanup_crlf_eq b b' l p c removed : cleanup_crlf (b :: b' :: l) p c range removed =
  if decide (b = x0d ∧ b' = x0a) then
    cleanup_crlf l (p + 2) (S c) range
      (if 2 <? S c then push_cleanup_range removed p (p + 2) range.1 range.2 else removed)
  else cleanup_crlf (b' :: l) (S p) 0 range removed.
Proof. done. Qed.

Lemma cleanup_crlf_announces l p c removed :
  ranges_ok removed → p + length l ≤ length spliced →
  announces p (marks_crlf l c) removed (cleanup_crlf l p c range removed).
Proof.
  revert p c removed.
  induction l as [|b|b b' l IH IH'] using list_pair_ind; intros p c removed Hok Hl.
  - split; [done|]. intros i. split; [auto|]. by intros [?|(j & Hj & _)].
  - split; [done|]. intros i. split; [auto|]. by intros [?|([|j] & Hj & _)].
  - simpl in Hl. rewrite cleanup_crlf_eq, marks_crlf_eq. case_decide as E.
    + destruct (2 <? S c).
      * destruct (push_cleanup_spec removed p (p + 2)) as [Hok' H]; [done|lia|].
        eapply announces_pair; [|apply IH; [done|lia]]. intros i. rewrite H. naive_solver.
      * eapply announces_pair; [|apply IH; [done|lia]]. naive_solver.
    + eapply announces_cons; [|apply IH'; [done|simpl; lia]]. naive_solver.
Qed.

Lemma apply_splice_range r :
  apply_splice content range r = take (pos range.1) content ++ r ++ drop (pos range.2) content.
Proof.
  unfold apply_splice. rewrite (Nat.min_l (pos range.1)), (Nat.max_l (pos range.2)), Nat.min_l by lia. done.
Qed.

(** Removing the marked bytes after the splice is removing the announced ranges and the
    main range from the original. *)
Lemma unmarked_announced marks out :
  length marks = length spliced → announces 0 marks [] out →
  unmarked marks spliced = keep (in_ranges (range :: out)) 0 content.
Proof.
  intros Hm [_ H].
  assert (Hout : ∀ j, j < length spliced → marks !! j = Some (in_ranges out (source_of j))).
  { intros j Hj. rewrite <-Hm in Hj. apply lookup_lt_is_Some in Hj as [b Hb]. rewrite Hb. f_equal.
    apply eq_bool_prop_intro. rewrite !Is_true_true. rewrite H. simpl. split.
    - intros ->. right. by exists j.
    - intros [?|(j' & Hj' & Ej%source_of_inj)]; [done|]. subst j'. congruence. }
  rewrite (unmarked_keep (λ j, in_ranges out (source_of j)) 0 marks spliced) by (intros j Hj; by apply Hout).
  pose proof (take_drop (pos range.1) content) as E1. pose proof (take_drop (pos range.2) content) as E2.
  set (mid := drop (pos range.1) (take (pos range.2) content)).
  assert (E : content = take (pos range.1) content ++ mid ++ drop (pos range.2) content).
  { rewrite <-E2 at 1. rewrite <-(take_drop (pos range.1) (take (pos range.2) content)), take_take, Nat.min_l by lia.
    by rewrite <-app_assoc. }
  transitivity (keep (in_ranges (range :: out)) 0 (take (pos range.1) content ++ mid ++ drop (pos range.2) content));
    [|by rewrite <-E].
  subst spliced. rewrite !keep_app. simpl. rewrite length_take, Nat.min_l by lia.
  f_equal; [|replace (keep (in_ranges (range :: out)) (pos range.1) mid) with (@nil byte)].
  - apply keep_ext. intros i. rewrite length_take. intros Hi. unfold source_of. rewrite decide_True by lia.
    unfold in_ranges. simpl. destruct (Nat.leb_spec (pos range.1) i); [lia|done].
  - simpl. assert (Hmid : length mid = pos range.2 - pos range.1)
      by (subst mid; rewrite length_drop, length_take; lia).
    rewrite Hmid, keep_shift. apply keep_ext. intros i Hi. unfold source_of. rewrite decide_False by lia.
    unfold in_ranges. simpl. destruct (Nat.ltb_spec (i + (pos range.2 - pos range.1)) (pos range.2)); [lia|].
    by rewrite andb_false_r.
  - rewrite <-(keep_true (pos range.1) mid). apply keep_ext. intros i Hi.
    assert (Hmid : length mid = pos range.2 - pos range.1)
      by (subst mid; rewrite length_drop, length_take; lia).
    unfold in_ranges. simpl. destruct (Nat.leb_spec (pos range.1) i), (Nat.ltb_spec i (pos range.2)); simpl; done || lia.
Qed.

Lemma announced_lookup marks out i :
  length marks = length spliced → announces 0 marks [] out → in_ranges out i = true →
  ∃ j, marks !! j = Some true ∧ content !! i = spliced !! j.
Proof.
  intros Hm [_ H] Hi.
  assert (Hl : ∀ j, j < length spliced → content !! source_of j = spliced !! j).
  { intros j' Hj. rewrite length_spliced in Hj. subst spliced. unfold source_of. case_decide.
    - rewrite lookup_app_l by (rewrite length_take; lia). by rewrite lookup_take_lt by lia.
    - rewrite lookup_app_r by (rewrite length_take; lia). rewrite length_take, lookup_drop. f_equal. lia. }
  apply H in Hi as [?|(j & Hj & ->)]; [done|]. exists j. split; [done|].
  apply Hl. rewrite <-Hm. by eapply lookup_lt_Some.
Qed.
End cleanup.

(** ** Bounds of the ranges *)

Lemma rposition_lt f s i : rposition f s = Some i → i < length s.
Proof.
  revert i. induction s as [|b s IH]; intros i; simpl; [done|].
  destruct (rposition f s) as [k|]; [|destruct (f b)]; intros [= <-]; [|lia].
  specialize (IH k eq_refl). lia.
Qed.

Lemma position_lt f s i : position f s = Some i → i < length s.
Proof.
  revert i. induction s as [|b s IH]; intros i; simpl; [done|]. destruct (f b); [intros [= <-]; lia|].
  intros (k & Hk & ->)%fmap_Some. specialize (IH k Hk). lia.
Qed.

Lemma line_start_le prefix : line_start_before prefix ≤ length prefix.
Proof. unfold line_start_before. destruct (rposition _ _) as [i|] eqn:E; [apply rposition_lt in E; lia|lia]. Qed.

Lemma slice_to_Done s n : n ≤ length s → slice_to s n = Done (take n s).
Proof. intros. unfold slice_to. by rewrite decide_True. Qed.

Lemma extend_attributes_le fuel content start : extend_past_leading_attributes fuel content start ≤ start.
Proof.
  revert start. induction fuel as [|fuel IH]; intros start; simpl; [done|]. case_decide; [done|].
  destruct (starts_with _ _); [|done]. etrans; [apply IH|]. etrans; [apply line_start_le|].
  rewrite length_take. lia.
Qed.

Lemma sum_split f s k :
  k < length (split_bytes f s) →
  sum_list ((λ l : list byte, length l + 1) <$> take k (split_bytes f s)) ≤ length s.
Proof.
  unfold fmap. revert k. induction s as [|b s IH]; intros k; simpl.
  - intros Hk. replace k with 0 by lia. done.
  - destruct (f b); simpl.
    + destruct k as [|k]; simpl; [lia|]. intros Hk. specialize (IH k ltac:(lia)). simpl in *. lia.
    + destruct (split_bytes f s) as [|l ls] eqn:E; simpl in *.
      * intros Hk. replace k with 0 by lia. simpl. lia.
      * destruct k as [|k]; simpl; [lia|]. intros Hk. specialize (IH (S k) ltac:(simpl; lia)). simpl in *. lia.
Qed.

Lemma extend_docs_le content line_start sym : extend_past_orphaned_docs content line_start sym ≤ line_start.
Proof.
  unfold extend_past_orphaned_docs. destruct (s_doc_byte_range sym); [done|].
  set (ls := split_bytes is_newline (take line_start content)).
  set (i := match reverse ls with [] :: _ => _ | _ => _ end).
  assert (Hle : i ≤ length ls) by (subst i; destruct (reverse ls) as [|[] ?]; lia).
  destruct (reverse (take i ls)) as [|nearest above] eqn:E; [done|].
  destruct (forallb _ _); [|done]. destruct (comment_run above) as [|found]; [done|].
  assert (Hi : 0 < length (take i ls)).
  { rewrite <-length_reverse, E. simpl. lia. }
  rewrite length_take in Hi. etrans; [apply sum_split|rewrite length_take; lia].
  fold ls. lia.
Qed.

Lemma end_of_line_bounds content p : p ≤ length content → p ≤ end_of_line content p ≤ length content.
Proof.
  intros. unfold end_of_line. destruct (position _ _) as [i|] eqn:E; [|lia].
  apply position_lt in E. rewrite length_drop in E. lia.
Qed.

Lemma skip_blank_bounds content le p : p ≤ length content → p ≤ skip_blank_line content le p ≤ length content.
Proof.
  intros. unfold skip_blank_line. destruct (starts_with _ _) eqn:E; [|lia].
  apply starts_with_true in E as [r E]. apply (f_equal length) in E. rewrite length_app, length_drop in E. lia.
Qed.

(** The symbol is inside the file it was captured from. *)
Definition captured_in (content : list byte) (sym : SymbolRecord) : Prop :=
  (effective_start sym ≤ (s_byte_range sym).2)%N ∧ pos (s_byte_range sym).2 ≤ length content ∧
  length content < pos u32_modulus.

Lemma delete_range_bounds content sym le :
  captured_in content sym → ∃ range, delete_source_range content sym le = Done range ∧
    (range.1 ≤ effective_start sym)%N ∧ ((s_byte_range sym).2 ≤ range.2)%N ∧ pos range.2 ≤ length content.
Proof.
  intros (He & Hs & Hlen). unfold delete_source_range. rewrite slice_to_Done by lia. simpl.
  eexists. split; [reflexivity|]. simpl.
  set (ls := line_start_before _). assert (Hls : ls ≤ pos (effective_start sym)).
  { etrans; [apply line_start_le|]. rewrite length_take. lia. }
  pose proof (extend_attributes_le ls content ls) as Ha.
  pose proof (extend_docs_le content (extend_past_leading_attributes ls content ls) sym) as Hd.
  destruct (end_of_line_bounds content (pos (s_byte_range sym).2) Hs) as [? H].
  destruct (skip_blank_bounds content le _ H) as [??].
  pose proof (pos_as_u32 (extend_past_orphaned_docs content (extend_past_leading_attributes ls content ls) sym)).
  pose proof (pos_as_u32 (skip_blank_line content le (end_of_line content (pos (s_byte_range sym).2)))).
  lia.
Qed.

Lemma delete_announced content sym le :
  captured_in content sym →
  ∃ range cleanup, delete_source_range content sym le = Done range ∧
    delete_cleanup_ranges content sym le = Done cleanup ∧
    build_delete content sym le = Done (keep (in_ranges (range :: cleanup)) 0 content) ∧
    (range.1 ≤ effective_start sym)%N ∧ ((s_byte_range sym).2 ≤ range.2)%N ∧
    ∀ i, in_ranges cleanup i = true → content !! i = Some x0a ∨ content !! i = Some x0d.
Proof.
  intros Hc. destruct (delete_range_bounds content sym le Hc) as (range & E & Hs & He & Hl).
  destruct Hc as (Hse & _ & Hlen). assert (Hr : pos range.1 ≤ pos range.2 ≤ length content) by lia.
  exists range. unfold delete_cleanup_ranges, build_delete. rewrite E. simpl.
  rewrite (apply_splice_range content range) by assumption. simpl.
  eexists. split; [done|]. split; [reflexivity|]. split; [|split; [done|split; [done|]]].
  - f_equal. unfold collapse_blank_lines. destruct le.
    + rewrite collapse_lf_marks. apply (unmarked_announced content range); try assumption; [apply length_marks_lf|].
      apply (cleanup_lf_announces content range); [exact Hr|exact Hlen|apply Forall_nil_2|apply Nat.le_refl].
    + rewrite collapse_crlf_marks. apply (unmarked_announced content range); try assumption; [apply length_marks_crlf|].
      apply (cleanup_crlf_announces content range); [exact Hr|exact Hlen|apply Forall_nil_2|apply Nat.le_refl].
  - intros i Hi. destruct le.
    + eapply (announced_lookup content range) in Hi as (j & Hj & ->); try assumption; [|apply length_marks_lf|].
      * left. by eapply marks_lf_newline.
      * apply (cleanup_lf_announces content range); [exact Hr|exact Hlen|apply Forall_nil_2|apply Nat.le_refl].
    + eapply (announced_lookup content range) in Hi as (j & Hj & ->); try assumption; [|apply length_marks_crlf|].
      * by eapply marks_crlf_newline.
      * apply (cleanup_crlf_announces content range); [exact Hr|exact Hlen|apply Forall_nil_2|apply Nat.le_refl].
Qed.

(** C30: a deletion removes exactly what it announces.  The file that [build_delete] writes
    is the original without the bytes of [delete_source_range] and of
    [delete_cleanup_ranges], both given in positions of the original; the symbol is inside
    the main range, and every byte that the cleanup removes outside it is part of a line
    ending.  It holds for both line endings, also when the cleanup cuts through the seam
    of the splice. *)
Theorem delete_removes_announced_ranges content sym le :
  captured_in content sym →
  ∃ range cleanup, delete_source_range content sym le = Done range ∧
    delete_cleanup_ranges content sym le = Done cleanup ∧
    build_delete content sym le = Done (keep (in_ranges (range :: cleanup)) 0 content) ∧
    (range.1 ≤ effective_start sym)%N ∧ ((s_byte_range sym).2 ≤ range.2)%N ∧
    ∀ i, in_ranges cleanup i = true → content !! i = Some x0a ∨ content !! i = Some x0d.
Proof. apply delete_announced. Qed.

(** ** Line endings *)

Lemma canonical_no_cr t : x0d ∉ canonical_newlines t.
Proof.
  induction t as [|b|b c t IH IH'] using list_pair_ind.
  - apply not_elem_of_nil.
  - simpl. case_decide; simpl; intros ?%list_elem_of_singleton; congruence.
  - change (canonical_newlines (b :: c :: t)) with
      (if decide (b = x0d) then if decide (c = x0a) then x0a :: canonical_newlines t
         else x0a :: canonical_newlines (c :: t) else b :: canonical_newlines (c :: t)).
    repeat case_decide; intros [?|?]%elem_of_cons; congruence || done.
Qed.

Lemma canonical_id t : x0d ∉ t → canonical_newlines t = t.
Proof.
  induction t as [|b t IH]; [done|]. intros [Hb Ht]%not_elem_of_cons. simpl.
  rewrite decide_False by congruence. by rewrite IH.
Qed.

Lemma canonical_expand c : x0d ∉ c → canonical_newlines (c ≫= expand_newline) = c.
Proof.
  induction c as [|b c IH]; [done|]. intros [Hb Hc]%not_elem_of_cons. cbn. unfold expand_newline at 1.
  case_decide as E; simpl.
  - subst. f_equal. by apply IH.
  - rewrite decide_False by congruence. f_equal. by apply IH.
Qed.

Lemma canonical_normalize t le : canonical_newlines (normalize_line_endings t le) = canonical_newlines t.
Proof.
  destruct le; simpl; [apply canonical_id, canonical_no_cr|apply canonical_expand, canonical_no_cr].
Qed.

Lemma canonical_newline t : x0a ∈ t ∨ x0d ∈ t → x0a ∈ canonical_newlines t.
Proof.
  induction t as [|b t IH]; [by intros [?%elem_of_nil|?%elem_of_nil]|]. simpl.
  case_decide as E; [destruct t as [|c t]; [left|case_decide; left]|].
  intros H. destruct (decide (b = x0a)) as [->|]; [left|right]. apply IH.
  destruct H as [[?|?]%elem_of_cons|[?|?]%elem_of_cons]; [congruence|auto|congruence|auto].
Qed.

Definition newlines (c : list byte) : nat := length (filter (λ b, b = x0a) c).

Lemma newlines_cons b c : newlines (b :: c) = (if decide (b = x0a) then 1 else 0) + newlines c.
Proof. unfold newlines, filter. cbn. by case_decide. Qed.

Lemma count_endings_lf c m n : x0d ∉ c → count_endings c m n = (m, n + newlines c).
Proof.
  revert m n. induction c as [|b c IH]; intros m n Hc; [unfold newlines; simpl; by rewrite Nat.add_0_r|].
  apply not_elem_of_cons in Hc as [Hb Hc]. simpl. rewrite decide_False by congruence.
  rewrite newlines_cons. case_decide; rewrite IH by done; [|done]. f_equal. lia.
Qed.

Lemma count_endings_crlf c m n : x0d ∉ c → count_endings (c ≫= expand_newline) m n = (m + newlines c, n).
Proof.
  revert m n. induction c as [|b c IH]; intros m n Hc; [unfold newlines; simpl; by rewrite Nat.add_0_r|].
  apply not_elem_of_cons in Hc as [Hb Hc]. rewrite newlines_cons. cbn. unfold expand_newline at 1.
  case_decide; simpl.
  - rewrite IH by done. f_equal. lia.
  - rewrite decide_False by congruence. rewrite decide_False by done. by rewrite IH.
Qed.

Lemma newlines_positive c : x0a ∈ c → 0 < newlines c.
Proof.
  intros H. unfold newlines. assert (H' : x0a ∈ filter (λ b, b = x0a) c) by by apply list_elem_of_filter.
  destruct (filter _ c); [by apply elem_of_nil in H'|simpl; lia].
Qed.

(** ** UTF-8 is kept *)

Definition is_ascii : byte → bool := in_range 0 127.

Lemma in_range_spec lo hi b : in_range lo hi b = true ↔ (lo ≤ Byte.to_N b ≤ hi)%N.
Proof. unfold in_range. rewrite andb_true_iff, !N.leb_le. done. Qed.

(** A rewriting of ASCII characters, one or two at a time, that leaves the others alone. *)
Definition ascii_rewrite (g : list byte → list byte) : Prop :=
  g [] = [] ∧ (∀ b s, is_ascii b = false → g (b :: s) = b :: g s) ∧
  ∀ b s, is_ascii b = true → ∃ out s', g (b :: s) = out ++ g s' ∧ Forall (λ b, is_ascii b = true) out ∧
    (s' = s ∨ ∃ c, is_ascii c = true ∧ s = c :: s').

Lemma valid_ascii_app out s : Forall (λ b, is_ascii b = true) out → valid_utf8 (out ++ s) = valid_utf8 s.
Proof. induction 1 as [|b out Hb _ IH]; [done|]. cbn [valid_utf8 app]. unfold is_ascii in Hb. by rewrite Hb. Qed.

Lemma continuation_not_ascii b : is_continuation b = true → is_ascii b = false.
Proof.
  unfold is_continuation, is_ascii. rewrite in_range_spec. intros H. apply not_true_iff_false.
  rewrite in_range_spec. lia.
Qed.

(** One character off the front of a valid string. *)
Lemma valid_utf8_char b s :
  valid_utf8 (b :: s) = true →
  is_ascii b = true ∧ valid_utf8 s = true ∨
  ∃ tail s', s = tail ++ s' ∧ Forall (λ c, is_ascii c = false) (b :: tail) ∧ valid_utf8 s' = true ∧
    ∀ s'', valid_utf8 s'' = true → valid_utf8 ((b :: tail) ++ s'') = true.
Proof.
  cbn [valid_utf8]. change (is_ascii b) with (in_range 0 127 b) at 1. destruct (in_range 0 127 b) eqn:Ha; [by left|]. intros H. right.
  assert (Hb : is_ascii b = false) by done.
  assert (Hc : ∀ lo hi c, (128 ≤ lo)%N → in_range lo hi c = true → is_ascii c = false).
  { intros lo hi c Hlo Hc. apply not_true_iff_false. unfold is_ascii. rewrite in_range_spec in *. lia. }
  destruct s as [|b1 s]; [done|]. destruct (in_range 194 223 b) eqn:H2.
  { apply andb_true_iff in H as [H1 Hs]. exists [b1], s. split_and!; [done| |done|].
    - repeat constructor; [done|by apply (Hc 128%N 191%N)].
    - intros s'' Hs''. cbn [valid_utf8 app]. by rewrite Ha, H2, H1. }
  destruct s as [|b2 s]; [done|]. destruct (in_range 224 239 b) eqn:H3.
  { rewrite !andb_true_iff in H. destruct H as [[H1 Hb2] Hs]. exists [b1; b2], s. split_and!; [done| |done|].
    - repeat constructor; [done| |by apply (Hc 128%N 191%N)].
      repeat case_decide; [apply (Hc 160%N 191%N)|apply (Hc 128%N 159%N)|apply (Hc 128%N 191%N)]; done.
    - intros s'' Hs''. cbn [valid_utf8 app]. by rewrite Ha, H2, H3, H1, Hb2. }
  destruct s as [|b3 s]; [done|]. rewrite !andb_true_iff in H. destruct H as [[[[H4 H1] Hb2] Hb3] Hs].
  exists [b1; b2; b3], s. split_and!; [done| |done|].
  - repeat constructor; [done| |by apply (Hc 128%N 191%N)|by apply (Hc 128%N 191%N)].
    repeat case_decide; [apply (Hc 144%N 191%N)|apply (Hc 128%N 143%N)|apply (Hc 128%N 191%N)]; done.
  - intros s'' Hs''. cbn [valid_utf8 app]. by rewrite Ha, H2, H3, H4, H1, Hb2, Hb3.
Qed.

Lemma ascii_rewrite_skip g pre s :
  ascii_rewrite g → Forall (λ b, is_ascii b = false) pre → g (pre ++ s) = pre ++ g s.
Proof.
  intros (_ & Hn & _). induction 1 as [|b pre Hb _ IH]; [done|]. simpl. by rewrite Hn, IH.
Qed.

Lemma ascii_rewrite_valid g s : ascii_rewrite g → valid_utf8 s = true → valid_utf8 (g s) = true.
Proof.
  intros Hg. remember (length s) as n eqn:Hn. revert s Hn.
  induction n as [n IH] using lt_wf_ind; intros s -> Hv. destruct s as [|b s]; [by rewrite (proj1 Hg)|].
  destruct (valid_utf8_char b s Hv) as [[Ha Hs]|(tail & s' & -> & Ht & Hs' & Hback)].
  - destruct Hg as (_ & _ & Hg'). destruct (Hg' b s Ha) as (out & s' & -> & Hout & Hcase).
    rewrite valid_ascii_app by done. destruct Hcase as [->|(c & Hc & ->)].
    + apply (IH (length s)); [simpl; lia|done|done].
    + apply (IH (length s')); [simpl; lia|done|]. cbn [valid_utf8] in Hs. unfold is_ascii in Hc. by rewrite Hc in Hs.
  - change (b :: tail ++ s') with ((b :: tail) ++ s'). rewrite ascii_rewrite_skip by done. apply Hback.
    apply (IH (length s')); [simpl; rewrite length_app; lia|done|done].
Qed.

Lemma canonical_ascii_rewrite : ascii_rewrite canonical_newlines.
Proof.
  split_and!; [done| |].
  - intros b s Hb. simpl. by rewrite decide_False by (intros ->; done).
  - intros b s Hb. simpl. case_decide as E.
    + destruct s as [|c s]; [by exists [x0a], []; auto|]. case_decide as E'.
      * exists [x0a], s. subst. split_and!; [done|by repeat constructor|]. right. by exists x0a.
      * exists [x0a], (c :: s). split_and!; [done|by repeat constructor|by left].
    + exists [b], s. split_and!; [done|by repeat constructor|by left].
Qed.

Lemma expand_ascii_rewrite : ascii_rewrite (λ s, s ≫= expand_newline).
Proof.
  split_and!; [done| |].
  - intros b s Hb. cbn. unfold expand_newline at 1. by rewrite decide_False by (intros ->; done).
  - intros b s Hb. exists (expand_newline b), s. split_and!; [done| |by left].
    unfold expand_newline. case_decide; by repeat constructor.
Qed.

Lemma normalize_valid t le : valid_utf8 t = true → valid_utf8 (normalize_line_endings t le) = true.
Proof.
  intros Hv. pose proof (ascii_rewrite_valid _ _ canonical_ascii_rewrite Hv) as Hc.
  destruct le; [done|]. apply (ascii_rewrite_valid _ _ expand_ascii_rewrite Hc).
Qed.

(** What the normalisation of line endings promises to the edits that call it.  The
    result only depends on the text up to its line endings, so normalising again, or
    coming from a text in the other convention, gives the same bytes; a text with at least
    one line ending is afterwards detected as the target convention; and a UTF-8 text stays
    UTF-8, so the fallback to the raw text is never taken. *)
Theorem normalized_line_endings t le :
  (∀ le', normalize_line_endings (normalize_line_endings t le') le = normalize_line_endings t le) ∧
  (x0a ∈ t ∨ x0d ∈ t → detect_line_ending (normalize_line_endings t le) = le) ∧
  (valid_utf8 t = true → from_utf8 (normalize_line_endings t le) = Some (normalize_line_endings t le)).
Proof.
  split_and!.
  - intros le'. unfold normalize_line_endings at 1 3. by rewrite canonical_normalize.
  - intros Ht%canonical_newline%newlines_positive. unfold detect_line_ending. pose proof (canonical_no_cr t) as Hc.
    destruct le; simpl; [rewrite count_endings_lf by done|rewrite count_endings_crlf by done]; simpl;
      [done|by destruct (newlines (canonical_newlines t)); [lia|]].
  - intros Hv. unfold from_utf8. by rewrite normalize_valid.
Qed.

(** ** Replacement is local *)

Lemma trim_start_le s : length (trim_start s) ≤ length s.
Proof.
  unfold trim_start. destruct (trim_loop_suffix (length s) whitespace_chars s) as [pre E].
  apply (f_equal length) in E. rewrite length_app in E. lia.
Qed.

Lemma same_line_doc_bound prefix e : same_line_doc_prefix_end prefix = Some e → e ≤ length prefix.
Proof.
  unfold same_line_doc_prefix_end, from_utf8. destruct (valid_utf8 prefix); [|done]. simpl.
  pose proof (trim_start_le prefix) as Ht. set (trimmed := trim_start prefix) in *.
  assert (Hafter : ∀ i n, i + n ≤ length trimmed → doc_prefix_after trimmed (i + n) ≤ length trimmed).
  { intros i n Hi. unfold doc_prefix_after. rewrite length_drop. lia. }
  destruct (starts_with _ _ || starts_with _ _); [|destruct (starts_with _ _); [|done]];
    intros (i & Hi%find_str_bound & [= <-])%bind_Some; simpl in Hi.
  - specialize (Hafter i 2 Hi). lia.
  - specialize (Hafter i 1 Hi). lia.
Qed.

Lemma docless_start_bounds content raw start :
  raw ≤ start → raw ≤ docless_replacement_splice_start content raw start ≤ start.
Proof.
  intros Hr. unfold docless_replacement_splice_start. case_decide as H; [lia|].
  destruct (same_line_doc_prefix_end _) as [e|] eqn:E; [|lia].
  apply same_line_doc_bound in E. rewrite length_drop, length_take in E. lia.
Qed.

(** Replacing a symbol touches the symbol and nothing after it, and keeps what it
    should above it.  When [prepare_replace] accepts, the new file is the old one with the
    bytes from some position up to the end of the symbol replaced by the indented body.
    That position is not after the symbol's start; when the new body brings no doc comment
    it is on the line of the symbol, so the docs above survive; when it does, the old docs
    go.  A refusal means that the captured span does not fit the file. *)
Theorem replace_is_local content sym body out :
  length content < pos u32_modulus → prepare_replace content sym body = Done out →
  match out with
  | Ok p => ∃ s text, new_content p = take s content ++ text ++ drop (pos (s_byte_range sym).2) content ∧
      inserted_bytes p = length text ∧ old_bytes p = pos (s_byte_range sym).2 - pos (s_byte_range sym).1 ∧
      s ≤ pos (s_byte_range sym).1 ≤ pos (s_byte_range sym).2 ∧ pos (s_byte_range sym).2 ≤ length content ∧
      if body_starts_with_doc_comment body then s ≤ pos (effective_start sym)
      else line_start_before (take (pos (s_byte_range sym).1) content) ≤ s
  | Err _ => ((s_byte_range sym).2 < (s_byte_range sym).1)%N ∨ length content < pos (s_byte_range sym).2 ∨
      ((s_byte_range sym).1 < effective_start sym)%N
  end.
Proof.
  intros Hlen. unfold prepare_replace, replacement_splice_range. destruct (s_byte_range sym) as [start stop] eqn:Eb.
  simpl. case_decide as Hspan; [intros [= <-]; lia|]. rewrite Outcome_bind_Done. intros (indent & _ & H).
  rewrite Outcome_bind_Done in H. destruct H as (text & _ & [= <-]). simpl.
  set (docs := body_starts_with_doc_comment body).
  set (s := if docs then _ else docless_replacement_splice_start _ _ _).
  assert (Hs : s ≤ pos (if docs then effective_start sym else start) ∧
    if docs then True else line_start_before (take (pos start) content) ≤ s).
  { assert (Hl : ∀ n, line_start_before (take n content) ≤ n).
    { intros n. etrans; [apply line_start_le|]. rewrite length_take. lia. }
    subst s. destruct docs.
    - split; [|done]. etrans; [apply extend_docs_le|apply Hl].
    - pose proof (docless_start_bounds content _ (pos start) (Hl (pos start))). lia. }
  assert (Hp : pos (as_u32 s) = s) by (apply pos_as_u32; destruct docs; lia).
  exists s, text. rewrite (apply_splice_range content (as_u32 s, stop)) by (simpl; rewrite ?Hp; destruct docs; lia).
  assert (Hd : pos (u32_sub stop start) = pos stop - pos start) by (apply (main_shift content (start, stop)); simpl; lia).
  rewrite Hd. simpl. rewrite Hp.
  split_and!; [done|done|done|destruct docs; lia|lia|lia|]. destruct docs; lia.
Qed.

(** ** Matches as pieces

    The matches of a non-empty pattern cut the text into pieces that do not contain it. *)

Fixpoint piece_starts (p n : nat) (ps : list str) : list nat :=
  match ps with
  | [] | [_] => []
  | a :: ps => (p + length a) :: piece_starts (p + length a + n) n ps
  end.

Definition cuts (pat s : str) (ps : list str) : Prop :=
  s = join pat ps ∧ ps ≠ [] ∧ Forall (λ a, find_str pat a = None) ps.

Lemma match_loop_cuts fuel p pat s :
  pat ≠ [] → length s < fuel →
  ∃ ps, cuts pat s ps ∧ match_loop fuel p pat s = piece_starts p (length pat) ps.
Proof.
  intros Hp. revert p s. induction fuel as [|fuel IH]; intros p s Hl; [lia|]. simpl.
  destruct (find_str pat s) as [i|] eqn:E; [|by exists [s]; split; [split_and!; [done|done|by constructor]|]].
  destruct (find_str_Some _ _ _ E) as [[Es En]|[_ ?]]; [|done]. pose proof (find_str_bound _ _ _ E) as Hb.
  destruct (IH (p + i + length pat) (drop (i + length pat) s)) as (ps & (E1 & Hne & Hall) & E2).
  { rewrite length_drop. destruct pat; [done|simpl in *; lia]. }
  exists (take i s :: ps). destruct ps as [|a ps]; [done|]. split; [split_and!|].
  - rewrite Es at 1. rewrite E1. done.
  - done.
  - by constructor.
  - rewrite E2. cbn [piece_starts]. rewrite length_take, Nat.min_l by lia. done.
Qed.

Lemma match_indices_cuts pat s :
  pat ≠ [] → ∃ ps, cuts pat s ps ∧ match_indices pat s = piece_starts 0 (length pat) ps.
Proof.
  intros Hp. unfold match_indices. rewrite decide_False by done. apply match_loop_cuts; [done|lia].
Qed.

Lemma piece_starts_cons p n a b ps :
  piece_starts p n (a :: b :: ps) = (p + length a) :: piece_starts (p + length a + n) n (b :: ps).
Proof. done. Qed.

Lemma length_piece_starts p n ps : length (piece_starts p n ps) = length ps - 1.
Proof.
  revert p. induction ps as [|a [|b ps] IH]; intros p; [done|done|]. rewrite piece_starts_cons.
  cbn [length]. rewrite IH. cbn [length]. lia.
Qed.

Lemma replace_at_cuts pat to pre ps :
  ps ≠ [] → replace_at (length pre) (piece_starts (length pre) (length pat) ps) (length pat) to
    (pre ++ join pat ps) = join to ps.
Proof.
  intros Hne. revert pre. induction ps as [|a [|b ps] IH]; intros pre; [done| |].
  - simpl. by rewrite drop_app_length.
  - rewrite piece_starts_cons, !join_cons2. cbn [replace_at]. rewrite drop_app_length.
    replace (length pre + length a - length pre) with (length a) by lia. rewrite take_app_length. f_equal. f_equal.
    specialize (IH ltac:(done) (pre ++ a ++ pat)). rewrite !length_app, !Nat.add_assoc in IH.
    rewrite <-!app_assoc in IH. exact IH.
Qed.

(** Where the match after the first pieces is. *)
Lemma nth_piece_start p pat ps1 ps2 d :
  ps1 ≠ [] → ps2 ≠ [] →
  nth (length ps1 - 1) (piece_starts p (length pat) (ps1 ++ ps2)) d = p + length (join pat ps1).
Proof.
  intros Hn1 Hn2. revert p. induction ps1 as [|a [|b ps1] IH]; intros p; [done| |].
  - by destruct ps2 as [|c ps2].
  - change ((a :: b :: ps1) ++ ps2) with (a :: b :: (ps1 ++ ps2)). rewrite piece_starts_cons, join_cons2.
    specialize (IH ltac:(done) (p + length a + length pat)).
    change ((b :: ps1) ++ ps2) with (b :: (ps1 ++ ps2)) in IH. cbn [length] in *. rewrite !Nat.sub_succ, Nat.sub_0_r in *.
    cbn [nth]. rewrite IH, !length_app. lia.
Qed.

Lemma replace_one_cuts pat to ps1 ps2 d :
  ps1 ≠ [] → ps2 ≠ [] →
  replace_one (join pat (ps1 ++ ps2)) pat to (nth (length ps1 - 1) (piece_starts 0 (length pat) (ps1 ++ ps2)) d) =
    join pat ps1 ++ to ++ join pat ps2.
Proof.
  intros Hn1 Hn2. rewrite nth_piece_start by done. simpl.
  unfold replace_one. rewrite join_app by done. rewrite take_app_length. f_equal. f_equal.
  by rewrite app_assoc, <-length_app, drop_app_length.
Qed.

Lemma first_least_spec key best rest :
  (first_least key best rest = best ∨ first_least key best rest ∈ rest) ∧
  ∀ i, i = best ∨ i ∈ rest → (key (first_least key best rest) ≤ key i)%Z.
Proof.
  revert best. induction rest as [|j rest IH]; intros best; simpl.
  { split; [by left|]. intros i [->|?%elem_of_nil]; done. }
  destruct (IH (if (key j <? key best)%Z then j else best)) as [H1 H2].
  split.
  - destruct H1 as [->|?]; [|right; by right]. case_match; [right; left|by left].
  - intros i Hi. pose proof (H2 _ (or_introl eq_refl)) as Hb.
    destruct Hi as [->|[->|Hi]%elem_of_cons]; [| |by apply H2; right].
    + destruct (Z.ltb_spec (key j) (key best)); lia.
    + destruct (Z.ltb_spec (key j) (key best)); lia.
Qed.

(** The text of a request, in the file's line endings. *)
Definition requested (content : list byte) (text : str) : str :=
  default text (from_utf8 (normalize_line_endings text (detect_line_ending content))).

Definition symbol_text (content : list byte) (sym : SymbolRecord) : str :=
  drop (pos (effective_start sym)) (take (pos (s_byte_range sym).2) content).

(** Every way of choosing one match: the pieces before it and the pieces after it. *)
Definition chosen (ps ps1 ps2 : list str) : Prop := ps = ps1 ++ ps2 ∧ ps1 ≠ [] ∧ ps2 ≠ [].

Definition match_distance (content : list byte) (sym : SymbolRecord) (needle : str) (line : N) (ps1 : list str) : Z :=
  Z.abs (line_of content (pos (effective_start sym) + length (join needle ps1)) - Z.of_N line).

Lemma chosen_at ps i :
  i < length ps - 1 → chosen ps (take (S i) ps) (drop (S i) ps) ∧ length (take (S i) ps) = S i.
Proof.
  intros Hi. assert (Hl : length (take (S i) ps) = S i) by (rewrite length_take; lia).
  split; [|done]. split_and!; [by rewrite take_drop| |].
  - intros E. by rewrite E in Hl.
  - intros E. apply (f_equal length) in E. rewrite length_drop in E. simpl in E. lia.
Qed.

Lemma replace_first_cuts pat to ps :
  1 < length ps → replace_at 0 (take 1 (piece_starts 0 (length pat) ps)) (length pat) to (join pat ps) =
  replace_one (join pat ps) pat to (nth 0 (piece_starts 0 (length pat) ps) 0).
Proof.
  destruct ps as [|a [|b ps]]; simpl length; [lia|lia|]. intros _. rewrite piece_starts_cons. simpl.
  unfold replace_one. by rewrite Nat.sub_0_r, drop_0.
Qed.

Lemma replace_nth_cuts pat to ps i :
  i < length ps - 1 →
  replace_one (join pat ps) pat to (nth i (piece_starts 0 (length pat) ps) 0) =
  join pat (take (S i) ps) ++ to ++ join pat (drop (S i) ps).
Proof.
  intros Hi. destruct (chosen_at ps i Hi) as [(E & H1 & H2) Hl].
  rewrite E at 1 2. rewrite <-(replace_one_cuts _ _ _ _ 0 H1 H2), Hl. simpl. by rewrite Nat.sub_0_r.
Qed.

(** The match of the least distance. *)
Lemma nearest_match content sym needle line ps :
  0 < length ps - 1 →
  let key i := Z.abs (line_of content (pos (effective_start sym) + nth i (piece_starts 0 (length needle) ps) 0)
                      - Z.of_N line) in
  let i := first_least key 0 (seq 0 (length ps - 1)) in
  i < length ps - 1 ∧ ∀ qs1 qs2, chosen ps qs1 qs2 →
    (match_distance content sym needle line (take (S i) ps) ≤ match_distance content sym needle line qs1)%Z.
Proof.
  intros Hpos key i. destruct (first_least_spec key 0 (seq 0 (length ps - 1))) as [Hin Hmin]. fold i in Hin, Hmin.
  assert (Hi : i < length ps - 1) by (destruct Hin as [->|Hin%elem_of_seq]; lia).
  split; [done|]. intros qs1 qs2 Hq.
  assert (Hkey : ∀ qs1 qs2, chosen ps qs1 qs2 → key (length qs1 - 1) = match_distance content sym needle line qs1).
  { intros ? ? (E & H1 & H2). unfold key, match_distance. rewrite E, nth_piece_start by done. done. }
  destruct (chosen_at ps i Hi) as [Hch Hl]. rewrite <-(Hkey _ _ Hch), <-(Hkey _ _ Hq), Hl.
  simpl. rewrite Nat.sub_0_r. apply Hmin. right. apply elem_of_seq.
  destruct Hq as (-> & H1 & H2). rewrite length_app. destruct qs1, qs2; simpl; done || lia.
Qed.

(** Which occurrences an edit within a symbol replaces, when the searched text is there
    literally.  The matches cut the symbol's text into pieces that do not contain it.
    Replacing all of them joins the pieces with the new text, and counts them; otherwise
    exactly one match is replaced and every other piece and match stays: the n-th when an
    occurrence is given, one whose line is at least as near as that of any other match
    when a line is given, and else the first, with the others reported. *)
Theorem edit_within_replaces content sym old new all occ near sel :
  select_edit_within_body content sym old new all occ near = Done (Ok sel) →
  requested content old ≠ [] →
  match_indices (requested content old) (symbol_text content sym) ≠ [] →
  ∃ ps, cuts (requested content old) (symbol_text content sym) ps ∧
    if all then new_body sel = join (requested content new) ps ∧ w_count sel = length ps - 1
    else ∃ ps1 ps2, chosen ps ps1 ps2 ∧ w_count sel = 1 ∧
      new_body sel = join (requested content old) ps1 ++ requested content new ++ join (requested content old) ps2 ∧
      match occ, near with
      | Some n, _ => length ps1 = pos n
      | None, Some line => ∀ qs1 qs2, chosen ps qs1 qs2 →
          (match_distance content sym (requested content old) line ps1 ≤
           match_distance content sym (requested content old) line qs1)%Z
      | None, None => length ps1 = 1 ∧ untargeted_extra sel = length ps - 2
      end.
Proof.
  intros Hsel Hne Hms. unfold select_edit_within_body in Hsel. case_decide as Hspan; [discriminate Hsel|].
  fold (symbol_text content sym) in Hsel. unfold from_utf8 at 1 in Hsel.
  destruct (valid_utf8 (symbol_text content sym)); [|discriminate Hsel].
  fold (requested content old) (requested content new) in Hsel. case_decide as Hmodes; [discriminate Hsel|].
  destruct (match_indices_cuts _ (symbol_text content sym) Hne) as (ps & Hcuts & Ems).
  pose proof (length_piece_starts 0 (length (requested content old)) ps) as Hlen. rewrite <-Ems in Hlen.
  assert (Hpos : 0 < length ps - 1).
  { rewrite <-Hlen. destruct (match_indices _ _); [done|simpl; lia]. }
  exists ps. split; [done|]. destruct Hcuts as (Etext & Hps & _).
  rewrite Ems, Etext in Hsel.
  destruct (piece_starts 0 (length (requested content old)) ps) as [|m ms] eqn:Est; [by rewrite Ems in Hms|].
  rewrite <-Est in Hsel. destruct all.
  { injection Hsel as <-. simpl. split; [|by rewrite <-Hlen, Ems, <-Est]. unfold replace_all_matches.
    rewrite <-Etext, Ems, Etext, <-Est. apply (replace_at_cuts _ _ []). done. }
  case_bool_decide as Htarget.
  - injection Hsel as Hsel. unfold targeted_index in Hsel. rewrite length_piece_starts in Hsel. destruct occ as [n|].
    + case_decide as Hn; [discriminate Hsel|]. injection Hsel as <-. simpl.
      assert (Hi : pos n - 1 < length ps - 1) by lia. destruct (chosen_at ps _ Hi) as [Hch Hl].
      exists (take (S (pos n - 1)) ps), (drop (S (pos n - 1)) ps).
      split_and!; [apply Hch..|done|by apply replace_nth_cuts|lia].
    + destruct near as [line|]; [|by destruct Htarget as [[]|[]]]. simpl in Hsel. injection Hsel as <-.
      destruct (nearest_match content sym (requested content old) line ps Hpos) as [Hi Hmin].
      set (i := first_least _ _ _) in *. destruct (chosen_at ps i Hi) as [Hch Hl]. simpl.
      exists (take (S i) ps), (drop (S i) ps). split_and!; [apply Hch..|done|by apply replace_nth_cuts|done].
  - injection Hsel as <-. destruct (chosen_at ps 0 Hpos) as [Hch Hl]. simpl.
    exists (take 1 ps), (drop 1 ps). split_and!; [apply Hch..|done| |].
    + rewrite <-replace_nth_cuts by done. unfold replace_first. rewrite <-Etext, Ems, Etext, <-Est.
      apply replace_first_cuts. lia.
    + destruct occ; [by destruct Htarget; left|]. destruct near; [by destruct Htarget; right|].
      split; [done|]. rewrite length_piece_starts. lia.
Qed.

(** ** The check of a batch

    A batch applies its edits from the end of the file to its start with the positions
    captured before any of them. *)

Definition footprint_reach (fp : SpliceFootprint) : nat :=
  match fp with Bytes _ stop => pos stop | Insert p => S (pos p) end.

Lemma keep_prefix gone content n :
  (∀ i, i < n → gone i = false) → n ≤ length content → take n (keep gone 0 content) = take n content.
Proof.
  intros H Hn. rewrite <-(take_drop n content) at 1. rewrite keep_app.
  rewrite (keep_ext gone (λ _, false)) by (intros i; rewrite length_take; intros; apply H; lia).
  rewrite keep_false. apply take_app_length'. rewrite length_take. lia.
Qed.

(** The two checks of a batch protect an edit above a deletion.  When the footprint of
    another edit lies above the range of the deletion and [cleanup_invalidates_splice] does
    not object, the deletion leaves every byte up to the end of that footprint as it was,
    so its captured positions still mean the same text. *)
Theorem cleanup_check_protects content sym le fp range cleanup out :
  captured_in content sym →
  delete_source_range content sym le = Done range → delete_cleanup_ranges content sym le = Done cleanup →
  build_delete content sym le = Done out →
  footprint_reach fp ≤ pos range.1 → cleanup_invalidates_splice cleanup fp = false →
  take (footprint_reach fp) out = take (footprint_reach fp) content.
Proof.
  intros Hc Er Ec Eo Hreach Hinv. pose proof Hc as (_ & _ & Hlen).
  destruct (delete_announced content sym le Hc) as (range' & cleanup' & Er' & Ec' & Eo' & Hs & He & _).
  rewrite Er in Er'. rewrite Ec in Ec'. rewrite Eo in Eo'. simplify_eq. destruct Hc as (Hse & Hend & _).
  apply keep_prefix; [|lia]. intros i Hi. apply not_true_iff_false. rewrite in_ranges_spec.
  intros (r & [->|Hr]%elem_of_cons & Hin); [lia|].
  unfold cleanup_invalidates_splice in Hinv. apply not_true_iff_false in Hinv. apply Hinv. apply existsb_exists.
  exists r. split; [by apply list_elem_of_In|]. apply N.ltb_lt. destruct fp; simpl in *; [lia|].
  unfold u32_saturating_succ. lia.
Qed.

(** ** Divergences *)

Lemma window_hit_past_end body_lines rest :
  rest ≠ [] → window_hit body_lines ((trim_start <$> body_lines) ++ rest) = Panic.
Proof.
  intros Hr. induction body_lines as [|l ls IH]; simpl; [by destruct rest|]. by rewrite decide_True.
Qed.

(** The white-space tolerant search reads past the last line: it panics whenever the lines
    of the symbol are the first lines of the searched text. *)
Theorem window_past_end_panics body old new all rest :
  trim_start <$> lines old = (trim_start <$> lines body) ++ rest → rest ≠ [] →
  forallb (λ l, bool_decide (trim l = [])) (lines old) = false →
  try_whitespace_flexible_replace body old new all = Panic.
Proof.
  intros E Hr Hb. unfold try_whitespace_flexible_replace. rewrite Hb, E.
  replace (length (lines body) - length ((trim_start <$> lines body) ++ rest)) with 0
    by (rewrite length_app, length_fmap; lia).
  cbn [seq window_matches]. rewrite drop_0, window_hit_past_end by done. done.
Qed.

Definition demo_sym (from to : N) : SymbolRecord := mkSymbol (bs "f") Function 0 0 (from, to) (0, 0)%N None None.

(** The windows of a replace-all may overlap; their byte ranges then no longer fit the text. *)
Theorem overlapping_windows_panic :
  try_whitespace_flexible_replace (bs "  a" ++ [x0a] ++ bs "  a" ++ [x0a] ++ bs "  a" ++ [x0a])
    (bs " a" ++ [x0a] ++ bs " a") (bs "Z") true = Panic.
Proof. vm_compute. reflexivity. Qed.

(** Two lines indented with different Unicode spaces share the first bytes of a character. *)
Theorem unicode_indentation_panics :
  valid_utf8 [xe2; x80; x82; x61; x0a; xe2; x80; x83; x62] = true ∧
  apply_indentation [xe2; x80; x82; x61; x0a; xe2; x80; x83; x62] [] Lf = Panic.
Proof. split; vm_compute; reflexivity. Qed.

(** A deletion takes the whole line, also what else is on it. *)
Theorem delete_takes_neighbours :
  build_delete (bs "fn a() {} fn b() {}" ++ [x0a]) (demo_sym 0 9) Lf = Done [].
Proof. vm_compute. reflexivity. Qed.

(** The tolerant replacement joins its lines with a line feed in a file of [\r\n]. *)
Theorem flexible_replacement_mixes_endings :
  let content := bs "  a" ++ [x0d; x0a] ++ bs "  b" ++ [x0d; x0a] in
  detect_line_ending content = CrLf ∧
  select_edit_within_body content (demo_sym 0 10) (bs " a" ++ [x0a] ++ bs " b") (bs "c" ++ [x0a] ++ bs "d") false None None =
    Done (Ok (mkWithin (bs " c" ++ [x0a] ++ bs " d" ++ [x0a]) 1 0)).
Proof. split; vm_compute; reflexivity. Qed.

(** ** Witnesses *)

Definition demo_file : list byte :=
  bs "x" ++ [x0a; x0a; x0a] ++ bs "fn a() {}" ++ [x0a; x0a; x0a] ++ bs "y" ++ [x0a].

Lemma demo_captured : captured_in demo_file (demo_sym 4 13).
Proof.
  split_and!; [vm_compute; discriminate|vm_compute; lia|]. unfold u32_modulus.
  assert (E : length demo_file = 18) by (vm_compute; reflexivity). rewrite E. lia.
Qed.

Lemma delete_removes_announced_ranges_witness :
  ∃ range cleanup, delete_cleanup_ranges demo_file (demo_sym 4 13) Lf = Done cleanup ∧
    build_delete demo_file (demo_sym 4 13) Lf = Done (keep (in_ranges (range :: cleanup)) 0 demo_file) ∧
    keep (in_ranges (range :: cleanup)) 0 demo_file = bs "x" ++ [x0a; x0a] ++ bs "y" ++ [x0a].
Proof.
  destruct (delete_removes_announced_ranges demo_file (demo_sym 4 13) Lf demo_captured)
    as (range & cleanup & Er & Ec & Eo & _).
  exists range, cleanup. split; [exact Ec|]. split; [exact Eo|].
  assert (E : build_delete demo_file (demo_sym 4 13) Lf = Done (bs "x" ++ [x0a; x0a] ++ bs "y" ++ [x0a]))
    by (vm_compute; reflexivity).
  rewrite E in Eo. injection Eo as Eo. symmetry. exact Eo.
Defined.

Lemma cleanup_check_protects_witness :
  ∃ out, build_delete demo_file (demo_sym 4 13) Lf = Done out ∧ take 3 out = take 3 demo_file.
Proof.
  exists (bs "x" ++ [x0a; x0a] ++ bs "y" ++ [x0a]). split; [vm_compute; reflexivity|].
  apply (cleanup_check_protects demo_file (demo_sym 4 13) Lf (Insert 2) (4, 15)%N [(3, 4); (15, 16)]%N).
  - exact demo_captured.
  - vm_compute. reflexivity.
  - vm_compute. reflexivity.
  - vm_compute. reflexivity.
  - vm_compute. lia.
  - vm_compute. reflexivity.
Defined.

Lemma replace_is_local_witness :
  ∃ p, prepare_replace demo_file (demo_sym 4 13) (bs "fn b() {}") = Done (Ok p) ∧
    ∃ s text, new_content p = take s demo_file ++ text ++ drop 13 demo_file ∧ s ≤ 4.
Proof.
  destruct (prepare_replace demo_file (demo_sym 4 13) (bs "fn b() {}")) as [[p|e]|] eqn:E;
    [|vm_compute in E; discriminate E|vm_compute in E; discriminate E].
  exists p. split; [reflexivity|].
  destruct (replace_is_local demo_file (demo_sym 4 13) (bs "fn b() {}") (Ok p) (proj2 (proj2 demo_captured)) E)
    as (s & text & H & _ & _ & (Hs & _) & _).
  exists s, text. split; [exact H|exact Hs].
Defined.

Definition demo_text : list byte := bs "a b a b a".

Lemma edit_within_replaces_witness :
  ∃ sel, select_edit_within_body demo_text (demo_sym 0 9) (bs "a") (bs "c") false (Some 2%N) None = Done (Ok sel) ∧
    new_body sel = bs "a b c b a" ∧
    ∃ ps ps1 ps2, cuts (bs "a") demo_text ps ∧ chosen ps ps1 ps2 ∧ length ps1 = 2.
Proof.
  exists (mkWithin (bs "a b c b a") 1 0). split; [vm_compute; reflexivity|]. split; [reflexivity|].
  destruct (edit_within_replaces demo_text (demo_sym 0 9) (bs "a") (bs "c") false (Some 2%N) None
    (mkWithin (bs "a b c b a") 1 0)) as (ps & Hc & ps1 & ps2 & Hch & _ & _ & Hl).
  - vm_compute. reflexivity.
  - vm_compute. discriminate.
  - vm_compute. discriminate.
  - exists ps, ps1, ps2. split; [exact Hc|]. split; [exact Hch|]. exact Hl.
Defined.

Lemma window_past_end_panics_witness :
  select_edit_within_body (bs "f") (demo_sym 0 1) (bs "f" ++ [x0a] ++ bs "g") (bs "h") false None None = Panic ∧
  try_whitespace_flexible_replace (bs "f") (bs "f" ++ [x0a] ++ bs "g") (bs "h") false = Panic.
Proof.
  split; [vm_compute; reflexivity|].
  apply (window_past_end_panics (bs "f") (bs "f" ++ [x0a] ++ bs "g") (bs "h") false [bs "g"]);
    [vm_compute; reflexivity|discriminate|vm_compute; reflexivity].
Defined.
