(* ===== verification/ConfigFiles.v ===== *)
(** * Configuration files in the index

    Models the branches of [process_file_with_classification] (src/src/parsing/mod.rs) for
    plain text and for configuration languages, which need no grammar.  The theorems are proved
    against [LawfulExtractor], not against one extractor, and compose the parser with the index
    ([LiveIndex]) and with the splices of an edit ([Structural]).  SHA-256 is a parameter. *)

From Stdlib Require Import Lia Strings.Byte.
From stdpp Require Import base gmap list strings numbers option.
From S2P Require Import Prelude Slices Text Domain Classification TextLines ConfigExtract MarkdownExtract TomlExtract LiveIndex Structural.

#[local] Open Scope nat_scope.

Section processing.
  Context (digest_hex : list byte → str).

Definition text_diagnostic : ParseDiagnostic :=
  mkDiagnostic (bs "utf-8") (bs "unsupported text encoding") None None None false.

(** Plain text: no symbols, and an error for another encoding. *)
Definition process_text (relative_path : str) (bytes : list byte) (classification : FileClassification) : FileProcessingResult :=
  let '(outcome, parse_diagnostic) :=
    match decode_searchable_text bytes with
    | Some _ => (Processed, None)
    | None => (OutcomeFailed (summary text_diagnostic), Some text_diagnostic)
    end in
  mkParseResult relative_path Domain.Text classification outcome parse_diagnostic []
    (N.of_nat (length bytes)) (digest_hex bytes) [] [].

(** A configuration language: what its extractor returns, if it has one. *)
Definition process_config (extractor : option (list byte → Outcome ExtractionResult))
    (relative_path : str) (bytes : list byte) (language : LanguageId) (classification : FileClassification) :
    Outcome FileProcessingResult :=
  '(symbols, outcome, parse_diagnostic) ←
    match extractor with
    | Some extract =>
        r ← extract bytes;
        let '(outcome, parse_diagnostic) :=
          match x_outcome r with
          | ExtractOk => (Processed, None)
          | ExtractPartial d => (OutcomePartial (summary d), Some d)
          | ExtractFailed d => (OutcomeFailed (summary d), Some d)
          end in
        Done (x_symbols r, outcome, parse_diagnostic)
    | None => Done ([], Processed, None)
    end;
  Done (mkParseResult relative_path language classification outcome parse_diagnostic symbols
          (N.of_nat (length bytes)) (digest_hex bytes) [] []).

(** ** Indexed symbols can be edited *)

Lemma in_content_captured content s : fits_u32 content → in_content content s → captured_in content s.
Proof.
  unfold in_content, captured_in, fits_u32, effective_start. intros Hf (H1 & H2 & _ & ->). repeat split; lia.
Qed.

Lemma process_config_spec extract `{!LawfulExtractor extract} path bytes language classification :
  fits_u32 bytes →
  ∃ r result, extract bytes = Done r ∧ process_config (Some extract) path bytes language classification = Done result ∧
    pr_symbols result = x_symbols r ∧ pr_references result = [] ∧
    (pr_parse_diagnostic result = None ↔ pr_outcome result = Processed).
Proof.
  intros Hf. destruct (extractor_returns bytes Hf) as [r E]. exists r. unfold process_config. rewrite E. cbn.
  destruct (x_outcome r); cbn; (eexists; split; [done|]; split; [done|]; split; [done|]; split; done).
Qed.

(** A symbol of a configuration file can be edited: for every extractor that keeps the
    interface's promise and every file below 4 GiB, parsing returns, the file enters the index
    with no references and exactly the symbols of the extractor, it is reported as parsed exactly when
    there is no diagnostic, and deleting any of its symbols removes exactly the announced
    ranges of the content that was parsed. *)
Theorem config_symbols_can_be_deleted extract (Hx : LawfulExtractor extract) path bytes language classification le :
  fits_u32 bytes →
  ∃ r result file, extract bytes = Done r ∧
    process_config (Some extract) path bytes language classification = Done result ∧
    file = from_parse_result result bytes ∧ f_symbols file = x_symbols r ∧ f_references file = [] ∧
    (f_parse_status file = FileParsed ↔ f_parse_diagnostic file = None) ∧
    ∀ sym, sym ∈ f_symbols file →
      ∃ range cleanup, delete_source_range (f_content file) sym le = Done range ∧
        delete_cleanup_ranges (f_content file) sym le = Done cleanup ∧
        build_delete (f_content file) sym le = Done (keep (in_ranges (range :: cleanup)) 0 (f_content file)) ∧
        (range.1 ≤ (s_byte_range sym).1)%N ∧ ((s_byte_range sym).2 ≤ range.2)%N.
Proof.
  intros Hf. destruct (process_config_spec extract path bytes language classification Hf) as (r & result & E & Hr & Hs & Href & Hd).
  exists r, result, (from_parse_result result bytes). do 3 (split; [done|]). split; [by rewrite <-Hs|].
  split; [unfold from_parse_result; by rewrite Href|]. split.
  { cbn. rewrite Hd. destruct (pr_outcome result); done. }
  cbn. rewrite Hs. intros sym [k Hk]%list_elem_of_lookup. destruct (extractor_inside bytes r k sym Hf E Hk) as [Hin _].
  destruct (delete_announced bytes sym le) as (range & cleanup & H1 & H2 & H3 & H4 & H5 & _); [by apply in_content_captured|].
  exists range, cleanup. repeat split; try done. unfold effective_start in H4. by rewrite (proj2 (proj2 (proj2 Hin))) in H4.
Qed.
End processing.

Lemma config_symbols_can_be_deleted_witness :
  fits_u32 (bs "A=1") ∧
  ∃ result file, process_config (λ _, []) (Some env_extract) (bs ".env") (bs "A=1") Env (for_code_path (bs ".env")) = Done result ∧
    file = from_parse_result result (bs "A=1") ∧ length (f_symbols file) = 1.
Proof.
  assert (fits_u32 (bs "A=1")) as Hf by (vm_compute; reflexivity). split; [exact Hf|].
  destruct (config_symbols_can_be_deleted (λ _, []) env_extract env_lawful (bs ".env") (bs "A=1") Env (for_code_path (bs ".env")) Lf Hf)
    as (r & result & file & _ & E & -> & _).
  exists result, (from_parse_result result (bs "A=1")). split; [exact E|]. split; [reflexivity|].
  vm_compute in E. injection E as <-. vm_compute. reflexivity.
Defined.
