(* ===== verification/BatchEdit.v ===== *)
(** * Batch edits (protocol/edit.rs)

    [execute_batch_edit] applies many symbol-addressed edits as one: it resolves every
    symbol in one capture of the index, refuses edits that overlap, stages the new text of
    every file in memory, from the end of the file to its start, and hands the images to
    the staged commit of [BatchCommit].  The positions of an edit are captured before any
    edit is applied, so the batch is right only if each edit, when its turn comes, still
    finds its text where the capture had it.

    The theorems: the two overlap checks and the order give each edit its captured text;
    without deletions the staged text is the file with all edits made at once; a batch
    writes all its files or accounts for them, and a dry run writes nothing.  The comparison
    that lets a checkout with other line endings pass is exactly equality up to line ending.

    The index that staging re-reads ([index_at]) is not the one that was captured: the
    watcher may run in between.  Parameters: the start of a Rust item with its attributes,
    the resolution of paths and worktrees, reading files, the content policy, the parser,
    and what the edit hooks do after a commit. *)

From Stdlib Require Import Lia Strings.Byte.
From stdpp Require Import base gmap sets list strings numbers option sorting pretty.
From S2P Require Import Prelude Slices Text Domain Classification Disambiguation LiveIndex RustPrefix Structural BatchCommit.

#[global] Set Default Goal Selector "!".

(** ** Fallible steps that may panic *)

Definition try {A B E} (m : Outcome (Result A E)) (k : A → Outcome (Result B E)) : Outcome (Result B E) :=
  r ← m; match r with Ok a => k a | Err e => mret (Err e) end.

Notation "x ←? m ; k" := (try m (λ x, k)) (at level 20, m at level 100, k at level 200, right associativity).
Notation "' x ←? m ; k" := (try m (λ x, k)) (at level 20, x pattern, m at level 100, k at level 200, right associativity).

(** [.map(..).collect::<Result<Vec<_>, _>>()]. *)
Fixpoint collect {A B E} (f : A → Outcome (Result B E)) (l : list A) : Outcome (Result (list B) E) :=
  match l with
  | [] => mret (Ok [])
  | a :: l => b ←? f a; bs ←? collect f l; mret (Ok (b :: bs))
  end.

(** ** Requests *)

Inductive EditOperation :=
| Replace (new_body : str)
| InsertBefore (code : str)
| InsertAfter (code : str)
| Delete
| EditWithin (old_text new_text : str).

Record SingleEdit := mkSingleEdit {
  se_path : str;
  se_name : str;
  se_kind : option str;
  se_symbol_line : option N;
  se_operation : EditOperation;
  se_working_directory : option str;
}.

(** ["path::name"], or the last [':'] when there is no ["::"]. *)
Definition split_target (target : str) : option (str * str) :=
  match split_once (bs "::") target with
  | Some (path, name) => Some (path, name)
  | None => rsplit_once (bs ":") target
  end.

Definition shorthand_operation (op : str) : option EditOperation :=
  if decide (op = bs "delete") then Some Delete
  else match strip_prefix (bs "replace ") op with
  | Some body => Some (Replace body)
  | None =>
      match strip_prefix (bs "insert_before ") op with
      | Some body => Some (InsertBefore body)
      | None =>
          match strip_prefix (bs "insert_after ") op with
          | Some body => Some (InsertAfter body)
          | None =>
              body ← strip_prefix (bs "edit_within ") op;
              '(old_text, new_text) ← split_once (bs " >>> ") body;
              Some (EditWithin old_text new_text)
          end
      end
  end.

Definition from_shorthand (s : str) : option SingleEdit :=
  '(target, op) ← split_once (bs " => ") s;
  '(path, name) ← split_target target;
  let path := trim path in
  if decide (path = [] ∨ name = []) then None
  else operation ← shorthand_operation (trim op); Some (mkSingleEdit path (trim name) None None operation None).

(** ** Comparing up to line endings *)

(** The two [while] loops: drop a carriage return that a line feed follows. *)
Definition skip_cr (s : list byte) : list byte :=
  match s with
  | x0d :: ((x0a :: _) as rest) => rest
  | _ => s
  end.

Fixpoint line_ending_insensitive_loop (fuel : nat) (a b : list byte) : bool :=
  match fuel with
  | 0 => false
  | S fuel =>
      match skip_cr a, skip_cr b with
      | [], [] => true
      | x :: a, y :: b => if decide (x = y) then line_ending_insensitive_loop fuel a b else false
      | _, _ => false
      end
  end.

(** Each round takes a byte of both, so the length of one is enough. *)
Definition line_ending_insensitive_eq (a b : list byte) : bool :=
  line_ending_insensitive_loop (S (length a)) a b.

(** ** Errors and answers *)

Inductive SelectorError :=
| SymbolMissing (label : str) (status : FileParse)
| SymbolAmbiguous (name : str) (lines : list N).

Inductive BatchError :=
| FileNotIndexed (path : str)
| EditUnresolved (number : nat) (why : SelectorError)
| OverlappingEdits (path : str) (a b : str * (N * N))
| InsertionBoundary (why : str)
| OverlappingFootprints (path : str)
| OverlappingCleanup (path : str)
| FileGone (path : str)
| ChangedAfterResolution (path : str)
| SpanOutOfBounds (name : str) (span : N * N) (path : str) (content_length : nat)
| BoundaryMissing
| EditWithinFailed (path name : str) (why : EditWithinError)
| PathContainment (path why : str)
| PathResolution (path why : str)
| TargetUnreadable (target : PathBuf)
| TargetDiverged (path : str) (target : PathBuf)
| WriteConflict (path : str)
| PreflightFailed (path : str)
| RolledBack (path : str) (reason : string) (restored : nat)
| RollbackIncomplete (path : str) (reason : string) (uncertain : nat).

Definition resolve_or_error (file : IndexedFile) (name : str) (kind : option str) (line : option N) :
    Result (nat * SymbolRecord) SelectorError :=
  match resolve_symbol_selector file name kind line with
  | Selected idx sym => Ok (idx, sym)
  | Disambiguation.NotFound => Err (SymbolMissing (render_symbol_selector name kind line) (f_parse_status file))
  | Disambiguation.Ambiguous candidate_lines => Err (SymbolAmbiguous name candidate_lines)
  end.

Definition format_replace (path name kind : str) (old_bytes new_bytes : N) : str :=
  path ++ bs " — replaced " ++ kind ++ bs " `" ++ name ++ bs "` (" ++ bs (pretty old_bytes) ++ bs " → " ++
  bs (pretty new_bytes) ++ bs " bytes)".
Definition format_insert (path name position : str) (inserted_bytes : N) : str :=
  path ++ bs " — inserted " ++ position ++ bs " `" ++ name ++ bs "` (" ++ bs (pretty inserted_bytes) ++ bs " bytes)".
Definition format_delete (path name kind : str) (deleted_bytes : N) : str :=
  path ++ bs " — deleted " ++ kind ++ bs " `" ++ name ++ bs "` (" ++ bs (pretty deleted_bytes) ++ bs " bytes)".
Definition format_edit_within (path name : str) (replacements : nat) (old_bytes new_bytes : N) : str :=
  path ++ bs " — edited within `" ++ name ++ bs "` (" ++ bs (pretty (N.of_nat replacements)) ++
  bs " replacement(s), " ++ bs (pretty old_bytes) ++ bs " → " ++ bs (pretty new_bytes) ++ bs " bytes)".

Definition append_response_suffix_to_first_summary (summaries : list str) (suffix : str) : list str :=
  let suffix := trim_start_matches x0a suffix in
  if decide (suffix = []) then summaries
  else
    let indented := join [x0a] ((λ line, bs "  " ++ line) <$> lines suffix) in
    match summaries with
    | first :: rest => (first ++ [x0a] ++ indented) :: rest
    | [] => [indented]
    end.

(** ** Resolution *)

(** [operation], an index into the edits, is the edit it points at. *)
Record ResolvedEdit := mkResolvedEdit {
  re_path : str;
  re_sym : SymbolRecord;
  re_edit : SingleEdit;
  re_language : LanguageId;
}.

(** An entry of a bucket of [by_file]: the index into [resolved] and what is there. *)
Notation Target := (nat * ResolvedEdit)%type.

Definition operation (t : Target) : EditOperation := se_operation (re_edit t.2).
Definition sym_of (t : Target) : SymbolRecord := re_sym t.2.

Fixpoint resolve_edits (l : LiveIndex) (i : nat) (edits : list SingleEdit) (source_files : gmap str IndexedFile) :
    Result (list ResolvedEdit * gmap str IndexedFile) BatchError :=
  match edits with
  | [] => Ok ([], source_files)
  | edit :: edits =>
      match capture_shared_file l (se_path edit) with
      | None => Err (FileNotIndexed (se_path edit))
      | Some file =>
          match resolve_or_error file (se_name edit) (se_kind edit) (se_symbol_line edit) with
          | Err e => Err (EditUnresolved (S i) e)
          | Ok (_, sym) =>
              let source_files := match source_files !! se_path edit with
                | Some _ => source_files
                | None => <[se_path edit := file]> source_files
                end in
              match resolve_edits l (S i) edits source_files with
              | Err e => Err e
              | Ok (resolved, source_files) =>
                  Ok (mkResolvedEdit (se_path edit) sym edit (f_language file) :: resolved, source_files)
              end
          end
      end
  end.

Definition by_file (resolved : list ResolvedEdit) : gmap str (list Target) :=
  group ((λ t : Target, (re_path t.2, t)) <$> imap (λ i r, (i, r)) resolved).

(** ** Validation of one file *)

Definition span (t : Target) : N * N := (effective_start (sym_of t), (s_byte_range (sym_of t)).2).

(** [for i in 0..n { for j in i+1..n { if f(i, j) { return } } }]. *)
Fixpoint first_pair {A} (f : A → A → bool) (l : list A) : option (A * A) :=
  match l with
  | [] => None
  | a :: l => match list_find (λ b, f a b = true) l with Some (_, b) => Some (a, b) | None => first_pair f l end
  end.

Definition spans_overlap (a b : Target) : bool := ((span a).1 <? (span b).2)%N && ((span b).1 <? (span a).2)%N.

Definition outside (content : list byte) (t : Target) : bool :=
  (length content <? pos (span t).1) || (length content <? pos (span t).2).

(** Whether a deletion's clean-up would reach the footprint of another edit. *)
Fixpoint cleanup_conflict (content : list byte) (le : LineEnding) (seen : list SpliceFootprint)
    (todo : list (Target * SpliceFootprint)) : Outcome bool :=
  match todo with
  | [] => mret false
  | (t, fp) :: todo =>
      conflict ← match operation t with
        | Delete =>
            cleanup ← delete_cleanup_ranges content (sym_of t) le;
            mret (existsb (cleanup_invalidates_splice cleanup) (seen ++ todo.*2))
        | _ => mret false
        end;
      if (conflict : bool) then mret true else cleanup_conflict content le (seen ++ [fp]) todo
  end.

Notation Positions := (gmap nat (N * list byte)).

(** Descending by the start of the symbol with its docs. *)
Definition reverse_offset : relation Target := by_key (λ t, pos (span t).1) nat_ge.

(** The line that a batch replacement starts on: always above the docs. *)
Definition replace_line_start (content : list byte) (sym : SymbolRecord) : Outcome nat :=
  prefix ← slice_to content (pos (effective_start sym));
  mret (extend_past_orphaned_docs content (line_start_before prefix) sym).

Section batch.
Context {trees : RustTrees}.

Definition footprint (file : IndexedFile) (le : LineEnding) (t : Target) :
    Outcome (Result (SpliceFootprint * option (nat * (N * list byte))) BatchError) :=
  let content := f_content file in
  let sym := sym_of t in
  match operation t with
  | InsertBefore _ =>
      boundary ← insert_before_position content sym (f_language file);
      match boundary with
      | Err e => mret (Err (InsertionBoundary e))
      | Ok position =>
          indent ← detect_indentation content (s_byte_range sym).1;
          mret (Ok (Insert position, Some (t.1, (position, indent))))
      end
  | InsertAfter _ => mret (Ok (Insert (insert_after_position content sym), None))
  | Delete =>
      range ← delete_source_range content sym le;
      mret (Ok (Bytes range.1 range.2, None))
  | Replace new_body =>
      let '(start, stop) := match replacement_splice_range content sym new_body with Ok r => r | Err _ => span t end in
      mret (Ok (Bytes start stop, None))
  | EditWithin _ _ => mret (Ok (Bytes (span t).1 (span t).2, None))
  end.

Definition validate_file (path : str) (file : IndexedFile) (targets : list Target) (positions : Positions) :
    Outcome (Result Positions BatchError) :=
  match first_pair spans_overlap targets with
  | Some (a, b) => mret (Err (OverlappingEdits path (s_name (sym_of a), span a) (s_name (sym_of b), span b)))
  | None =>
      if existsb (outside (f_content file)) targets then mret (Ok positions)
      else
        let le := detect_line_ending (f_content file) in
        fps ←? collect (footprint file le) targets;
        let positions := foldl (λ m e, match e.2 with Some (i, p) => <[i := p]> m | None => m end) positions fps in
        match first_pair splice_footprints_overlap fps.*1 with
        | Some _ => mret (Err (OverlappingFootprints path))
        | None =>
            conflict ← cleanup_conflict (f_content file) le [] (zip targets fps.*1);
            if (conflict : bool) then mret (Err (OverlappingCleanup path)) else mret (Ok positions)
        end
  end.

Fixpoint validate_all_files (source_files : gmap str IndexedFile) (buckets : list (str * list Target))
    (positions : Positions) : Outcome (Result Positions BatchError) :=
  match buckets with
  | [] => mret (Ok positions)
  | (path, targets) :: buckets =>
      match source_files !! path with
      | None => Panic
      | Some file =>
          positions ←? validate_file path file targets positions;
          validate_all_files source_files buckets positions
      end
  end.

(** ** Staging of one file *)

Definition symbol_bytes (sym : SymbolRecord) : N := u32_sub (s_byte_range sym).2 (s_byte_range sym).1.

Definition stage_edit (path : str) (le : LineEnding) (positions : Positions) (t : Target) (content : list byte) :
    Outcome (Result (list byte * str) BatchError) :=
  let sym := sym_of t in
  let kind := kind_display (s_kind sym) in
  match operation t with
  | Replace new_body =>
      line_start ← replace_line_start content sym;
      indent ← detect_indentation content (s_byte_range sym).1;
      indented ← indented_text new_body indent le;
      mret (Ok (apply_splice content (as_u32 line_start, (s_byte_range sym).2) indented,
                format_replace path (s_name sym) kind (symbol_bytes sym) (N.of_nat (length new_body))))
  | InsertBefore code =>
      match positions !! t.1 with
      | None => mret (Err BoundaryMissing)
      | Some (position, indent) =>
          new ← build_insert_before_at_position content sym code le position indent;
          mret (Ok (new, format_insert path (s_name sym) (bs "before") (N.of_nat (length code))))
      end
  | InsertAfter code =>
      new ← build_insert_after content sym code le;
      mret (Ok (new, format_insert path (s_name sym) (bs "after") (N.of_nat (length code))))
  | Delete =>
      new ← build_delete content sym le;
      mret (Ok (new, format_delete path (s_name sym) kind (symbol_bytes sym)))
  | EditWithin old_text new_text =>
      r ← build_edit_within content sym old_text new_text false;
      match r with
      | Err e => mret (Err (EditWithinFailed path (s_name sym) e))
      | Ok (new, count) =>
          let new_bytes := Z.to_N ((Z.of_N (symbol_bytes sym) + (Z.of_nat (length new) - Z.of_nat (length content)))
                                     mod Z.of_N u64_modulus) in
          mret (Ok (new, format_edit_within path (s_name sym) count (symbol_bytes sym) new_bytes))
      end
  end.

Fixpoint stage_edits (path : str) (le : LineEnding) (positions : Positions) (targets : list Target)
    (content : list byte) (summaries : list str) : Outcome (Result (list byte * list str) BatchError) :=
  match targets with
  | [] => mret (Ok (content, summaries))
  | t :: targets =>
      '(content, summary) ←? stage_edit path le positions t content;
      stage_edits path le positions targets content (summaries ++ [summary])
  end.

Definition first_out_of_bounds (content : list byte) (targets : list Target) : option Target :=
  snd <$> list_find (λ t, length content < pos (s_byte_range (sym_of t)).2) targets.

(** The text of one file after its edits, in [targets]' order. *)
Definition stage_content (path : str) (positions : Positions) (targets : list Target) (content : list byte) :
    Outcome (Result (list byte * list str) BatchError) :=
  match first_out_of_bounds content targets with
  | Some t => mret (Err (SpanOutOfBounds (s_name (sym_of t)) (s_byte_range (sym_of t)) path (length content)))
  | None => stage_edits path (detect_line_ending content) positions targets content []
  end.
End batch.

(** ** Rerouted targets *)

Record ResolvedTarget := mkResolvedTarget { target_path : PathBuf; indexed_path : PathBuf; rerouted : bool }.

Definition guard_batch_reroute_divergence (read : PathBuf → option (list byte)) (resolved : ResolvedTarget)
    (indexed_content : list byte) (relative_path : str) : Result (list byte) BatchError :=
  if rerouted resolved then
    match read (target_path resolved) with
    | None => Err (TargetUnreadable (target_path resolved))
    | Some target_bytes =>
        if bool_decide (target_bytes = indexed_content) || line_ending_insensitive_eq target_bytes indexed_content
        then Ok target_bytes
        else Err (TargetDiverged relative_path (target_path resolved))
    end
  else Ok indexed_content.

Record StagedFile := mkStagedFile {
  sf_path : str;
  sf_abs_path : PathBuf;
  sf_original : list byte;
  sf_new_content : list byte;
  sf_language : LanguageId;
  sf_summaries : list str;
  sf_working_directory : option str;
  sf_resolved_target : ResolvedTarget;
}.

(** [for &ri in indices { .. working_directory .. }] with the batch's own as the fallback. *)
Definition first_working_directory (dirs : list (option str)) (top_level : option str) : option str :=
  match omap id dirs with d :: _ => Some d | [] => top_level end.

Section execute.
Context `{!CaseTables} {W Report : Type} `{!BatchIo W Report}.
Context (canonicalize : PathBuf → CanonicalizeResult).
Context {trees : RustTrees}.
Context (read : W → PathBuf → option (list byte)) (path_of : str → PathBuf) (display : PathBuf → str).
Context (safe_repo_path : str → Result PathBuf str).
Context (resolve_target : str → PathBuf → option str → Result ResolvedTarget str).
Context (after_commit : StagedFile → W → W) (response_hint : Report → option str).
(** The reindexing of a written file: content policy, parser, modification time, and the
    number of the allocation that holds it. *)
Context (publishable : str → LanguageId → list byte → bool).
Context (process_file : str → list byte → LanguageId → FileProcessingResult).
Context (mtime_secs : W → PathBuf → N) (allocate : LiveIndex → N).
(** The order in which the hash map of the files is walked. *)
Context (hash_order : gmap str (list Target) → list (str * list Target)).

(** [safe_repo_path], the edit hooks and the divergence guard, then the staged file. *)
Definition finish_stage (w : W) (path : str) (file : IndexedFile) (working_directory : option str)
    (language : LanguageId) (content : list byte) (summaries : list str) : Result StagedFile BatchError :=
  match safe_repo_path path with
  | Err e => Err (PathContainment path e)
  | Ok indexed_abs_path =>
      match resolve_target path indexed_abs_path working_directory with
      | Err e => Err (PathResolution path e)
      | Ok resolved_target =>
          match guard_batch_reroute_divergence (read w) resolved_target (f_content file) path with
          | Err e => Err e
          | Ok original =>
              Ok (mkStagedFile path (target_path resolved_target) original content language summaries
                    working_directory resolved_target)
          end
      end
  end.

Definition stage_file (w : W) (index_at : str → LiveIndex) (source_files : gmap str IndexedFile)
    (positions : Positions) (top_level : option str) (bucket : str * list Target) :
    Outcome (Result StagedFile BatchError) :=
  let '(path, targets) := bucket in
  match source_files !! path, targets with
  | Some file, first :: _ =>
      match get_file (index_at path) path with
      | None => mret (Err (FileGone path))
      | Some current =>
          if decide (f_content current = f_content file) then
            '(content, summaries) ←? stage_content path positions targets (f_content file);
            let working_directory :=
              first_working_directory ((λ t : Target, se_working_directory (re_edit t.2)) <$> targets) top_level in
            mret (finish_stage w path file working_directory (re_language first.2) content summaries)
          else mret (Err (ChangedAfterResolution path))
      end
  | _, _ => Panic
  end.

Definition reindex_after_write (w : W) (abs_path : PathBuf) (relative_path : str) (language : LanguageId)
    (l : LiveIndex) : LiveIndex :=
  match read w abs_path with
  | None => l
  | Some on_disk =>
      if publishable relative_path language on_disk then
        let indexed := from_parse_result (process_file relative_path on_disk language) on_disk in
        let indexed := mkIndexedFile (f_relative_path indexed) (f_language indexed) (f_classification indexed)
          (f_content indexed) (f_symbols indexed) (f_parse_status indexed) (f_parse_diagnostic indexed)
          (f_byte_len indexed) (f_content_hash indexed) (f_references indexed) (f_alias_map indexed)
          (mtime_secs w abs_path) in
        update_file (allocate l) relative_path indexed l
      else snd (LiveIndex.remove_file relative_path l)
  end.

Definition image_of (file : StagedFile) : StagedImage :=
  mkImage (path_of (sf_path file)) (sf_abs_path file) (Some (sf_original file)) (sf_new_content file) false.

Definition format_reroute_suffix (working_directory : option str) (resolved : ResolvedTarget) : str :=
  match working_directory with
  | None => []
  | Some dir =>
      [x0a] ++ bs "working_directory: " ++ dir ++ [x0a] ++ bs "rerouted: " ++
      bs (if rerouted resolved then "true" else "false")%string ++ [x0a] ++ bs "wrote_to: " ++
      display (target_path resolved) ++ [x0a] ++ bs "indexed_path: " ++ display (indexed_path resolved)
  end.

(** What [write_reports] holds at an index. *)
Definition report_at (reports : list (nat * Report)) (index : nat) : option Report :=
  snd <$> last (filter (λ e, e.1 = index) reports).

Fixpoint publish (reports : list (nat * Report)) (i : nat) (staged : list StagedFile) (l : LiveIndex) (w : W) :
    list str * (LiveIndex * W) :=
  match staged with
  | [] => ([], (l, w))
  | file :: staged =>
      let l := reindex_after_write w (sf_abs_path file) (sf_path file) (sf_language file) l in
      let w := after_commit file w in
      let summaries := match report_at reports i with
        | Some report => match response_hint report with
                         | Some hint => append_response_suffix_to_first_summary (sf_summaries file) hint
                         | None => sf_summaries file
                         end
        | None => sf_summaries file
        end in
      let summaries := append_response_suffix_to_first_summary summaries
                         (format_reroute_suffix (sf_working_directory file) (sf_resolved_target file)) in
      let '(rest, s) := publish reports (S i) staged l w in (summaries ++ rest, s)
  end.

Definition path_at (staged : list StagedFile) (index : nat) : str :=
  match staged !! index with Some file => sf_path file | None => [] end.

(** The messages of an abort; the batch passes no cancellation. *)
Definition abort_error (staged : list StagedFile) (a : BatchAbort) : option BatchError :=
  match a with
  | Conflict index => Some (WriteConflict (path_at staged index))
  | PreflightUnavailable index => Some (PreflightFailed (path_at staged index))
  | WriteFailed index reason restored [] => Some (RolledBack (path_at staged index) reason restored)
  | WriteFailed index reason _ uncertain =>
      Some (RollbackIncomplete (path_at staged index) reason (length uncertain))
  | Cancelled _ _ _ => None
  end.

Definition dry_run_summaries (staged : list StagedFile) : list str :=
  (λ summary, bs "[DRY RUN] Would " ++ summary) <$> (staged ≫= sf_summaries).

Notation Answer := (Result (list str * list PathBuf) BatchError).

Definition commit_batch (staged : list StagedFile) (l : LiveIndex) (w : W) : Outcome (Answer * (LiveIndex * W)) :=
  match commit_staged canonicalize (image_of <$> staged) None w with
  | (Ok reports, w) =>
      let '(summaries, s) := publish reports 0 staged l w in
      mret (Ok (summaries, sf_abs_path <$> staged), s)
  | (Err a, w) =>
      match abort_error staged a with
      | Some e => mret (Err e, (l, w))
      | None => Panic
      end
  end.

(** Validation and staging of the whole batch. *)
Definition stage_batch (l0 : LiveIndex) (index_at : str → LiveIndex) (w0 : W) (edits : list SingleEdit)
    (top_level : option str) : Outcome (Result (list StagedFile) BatchError) :=
  match resolve_edits l0 0 edits ∅ with
  | Err e => mret (Err e)
  | Ok (resolved, source_files) =>
      let buckets := by_file resolved in
      positions ←? validate_all_files source_files (hash_order buckets) ∅;
      let ordered := prod_map id (sort_by reverse_offset) <$> map_to_list buckets in
      collect (stage_file w0 index_at source_files positions top_level) (sort_by (by_key fst str_le) ordered)
  end.

(** [l0] and [w0] are the index and the files when the batch is resolved and staged,
    [index_at] the index when a file is staged, [l] and [w] those of the commit. *)
Definition execute_batch_edit (l0 : LiveIndex) (index_at : str → LiveIndex) (w0 : W) (edits : list SingleEdit)
    (dry_run : bool) (top_level : option str) (l : LiveIndex) (w : W) : Outcome (Answer * (LiveIndex * W)) :=
  r ← stage_batch l0 index_at w0 edits top_level;
  match r with
  | Err e => mret (Err e, (l, w))
  | Ok staged => if dry_run then mret (Ok (dry_run_summaries staged, []), (l, w)) else commit_batch staged l w
  end.
End execute.

(** ** Line endings *)

(** The text with every [\r\n] written as [\n]. *)
Fixpoint lf_only (s : list byte) : list byte :=
  match s with
  | [] => []
  | b :: rest => match b, rest with x0d, x0a :: _ => lf_only rest | _, _ => b :: lf_only rest end
  end.

Lemma lf_only_skip s : lf_only s = match skip_cr s with [] => [] | b :: rest => b :: lf_only rest end.
Proof. destruct s as [|b [|c s]]; [done|by destruct b|]. by destruct b; try done; destruct c. Qed.

Lemma skip_cr_length s : length (skip_cr s) ≤ length s.
Proof. destruct s as [|b [|c s]]; [done|by destruct b|]. destruct b; simpl; try lia. destruct c; simpl; lia. Qed.

Lemma line_ending_loop fuel a b :
  length a < fuel → line_ending_insensitive_loop fuel a b = bool_decide (lf_only a = lf_only b).
Proof.
  revert a b. induction fuel as [|fuel IH]; intros a b Hf; [lia|]. simpl. rewrite (lf_only_skip a), (lf_only_skip b).
  pose proof (skip_cr_length a) as Hl.
  destruct (skip_cr a) as [|x a'], (skip_cr b) as [|y b']; simpl in *; [done|done|done|].
  case_decide as E.
  - subst. rewrite IH by lia. apply bool_decide_ext. split; congruence.
  - rewrite bool_decide_false by congruence. done.
Qed.

(** The comparison that lets a checkout with other line endings pass is equality up to
    line ending: it holds exactly when the two texts are equal once every [\r\n] is
    written as [\n].  A carriage return that no line feed follows counts as text. *)
Theorem line_endings_compared a b : line_ending_insensitive_eq a b = bool_decide (lf_only a = lf_only b).
Proof. apply line_ending_loop. lia. Qed.

(** ** Divergence *)

(** A shorthand is checked for an empty name before the name is trimmed. *)
Theorem blank_name_passes_the_check :
  from_shorthand (bs "a.js::  => delete") = Some (mkSingleEdit (bs "a.js") [] None None Delete None).
Proof. vm_compute. reflexivity. Qed.
