(* ===== verification/BatchStaging.v ===== *)
(** * Staging a batch of edits

    Why the reverse order of [execute_batch_edit] is right: the edits of a file are captured
    before any of them is applied, and each is staged on the text that the edits below it
    have left.  The first part shows that what an edit reads lies above its end, so that
    two texts that agree up to there give the same edit; for a deletion this includes the
    clean-up of blank lines, which scans from the start of the file.  The second part
    derives from the checks of [validate_file] that every edit leaves the footprints above
    it alone.  Then the theorems: each edit finds its text, and a batch without deletions
    makes all its edits at once. *)

From Stdlib Require Import Lia Strings.Byte.
From stdpp Require Import base gmap sets list strings numbers option sorting.
From S2P Require Import Prelude Slices Text Domain Classification RustPrefix Structural BatchEdit.

#[global] Set Default Goal Selector "!".

(** ** What an edit reads is above its end

    [agree n c c'] says that two texts have the same first [n] bytes. *)

Definition agree (n : nat) (c c' : list byte) : Prop := take n c' = take n c.

Lemma agree_le m n c c' : agree n c c' → m ≤ n → agree m c c'.
Proof. unfold agree. intros H Hm. replace m with (m `min` n) by lia. by rewrite <-!take_take, H. Qed.

Lemma agree_trans n c c' c'' : agree n c c' → agree n c' c'' → agree n c c''.
Proof. unfold agree. congruence. Qed.

Lemma agree_lookup n c c' i : agree n c c' → i < n → c' !! i = c !! i.
Proof. intros H Hi. rewrite <-(lookup_take_lt c' n i), <-(lookup_take_lt c n i), H by lia. done. Qed.

Lemma agree_length n c c' : agree n c c' → n ≤ length c → n ≤ length c'.
Proof. intros H Hn. apply (f_equal length) in H. rewrite !length_take in H. lia. Qed.

Lemma agree_slice_to n c c' k : agree n c c' → k ≤ n → n ≤ length c → slice_to c' k = slice_to c k.
Proof.
  intros H Hk Hn. pose proof (agree_length n c c' H Hn).
  rewrite !slice_to_Done by lia. f_equal. exact (agree_le k n c c' H Hk).
Qed.

Lemma agree_docs n c c' ls sym :
  agree n c c' → ls ≤ n → extend_past_orphaned_docs c' ls sym = extend_past_orphaned_docs c ls sym.
Proof. intros H Hn. unfold extend_past_orphaned_docs. by rewrite (agree_le ls n c c' H Hn). Qed.

Lemma agree_attributes n c c' fuel s :
  agree n c c' → s ≤ n → extend_past_leading_attributes fuel c' s = extend_past_leading_attributes fuel c s.
Proof.
  intros H. revert s. induction fuel as [|fuel IH]; intros s Hn; simpl; [done|]. case_decide; [done|].
  pose proof (agree_le (s - 1) n c c' H ltac:(lia)) as E. unfold agree in E. rewrite E.
  rewrite IH; [done|]. etrans; [apply line_start_le|]. rewrite length_take. lia.
Qed.

Lemma line_start_take c k : line_start_before (take k c) ≤ k.
Proof. etrans; [apply line_start_le|]. rewrite length_take. lia. Qed.

Lemma agree_replace_start n c c' sym :
  agree n c c' → pos (effective_start sym) ≤ n → n ≤ length c → replace_line_start c' sym = replace_line_start c sym.
Proof.
  intros H He Hn. unfold replace_line_start. rewrite (agree_slice_to n c c') by done.
  rewrite slice_to_Done by lia. simpl. f_equal. apply (agree_docs n); [done|].
  pose proof (line_start_take c (pos (effective_start sym))). lia.
Qed.

Lemma position_agree f s s' j :
  position f s = Some j → agree (S j) s s' → position f s' = Some j.
Proof.
  revert s' j. induction s as [|b s IH]; intros s' j; simpl; [done|]. unfold agree.
  destruct s' as [|b' s']; [by destruct j|]. simpl. destruct (f b) eqn:E.
  - intros [= <-]. intros [= ->]. by rewrite E.
  - intros (k & Hk & ->)%fmap_Some. intros [= -> H]. rewrite E, (IH s' k Hk); done.
Qed.

Lemma position_le f s i b : s !! i = Some b → f b = true → ∃ j, position f s = Some j ∧ j ≤ i.
Proof.
  revert i. induction s as [|x s IH]; intros i; [done|]. simpl. intros Hi Hb. destruct (f x) eqn:E.
  - exists 0. split; [done|lia].
  - destruct i as [|i]; simpl in Hi; [congruence|]. destruct (IH i Hi Hb) as (j & -> & ?). exists (S j). split; [done|lia].
Qed.

Lemma agree_drop n c c' k : agree n c c' → agree (n - k) (drop k c) (drop k c').
Proof. unfold agree. intros H. rewrite !firstn_skipn_comm. destruct (decide (k ≤ n)).
  - replace (k + (n - k)) with n by lia. by rewrite H.
  - rewrite !drop_ge; [done|rewrite length_take; lia..].
Qed.

Lemma agree_indentation n c c' off b :
  agree n c c' → pos off < n → n ≤ length c → c !! pos off = Some b → is_ascii_whitespace b = false →
  detect_indentation c' off = detect_indentation c off.
Proof.
  intros H Ho Hn Hb Hw. unfold detect_indentation. rewrite (agree_slice_to n c c') by (done || lia).
  rewrite slice_to_Done by lia. unfold mbind, Outcome_bind. f_equal.
  set (ls := line_start_before _). assert (Hl : ls ≤ pos off) by apply line_start_take.
  destruct (position_le (λ b, negb (is_ascii_whitespace b) || is_newline b) (drop ls c) (pos off - ls) b)
    as (j & Hj & Hle); [rewrite lookup_drop; by replace (ls + (pos off - ls)) with (pos off) by lia|by rewrite Hw|].
  assert (Ha : agree (S j) (drop ls c) (drop ls c')) by (eapply agree_le; [by apply agree_drop|lia]).
  rewrite Hj, (position_agree _ _ _ j Hj Ha). simpl. exact (agree_le j (S j) _ _ Ha ltac:(lia)).
Qed.

(** The position after a symbol that a byte other than a blank follows. *)
Lemma insert_after_at c sym b :
  c !! pos (s_byte_range sym).2 = Some b → b ≠ x20 → b ≠ x09 → S (pos (s_byte_range sym).2) < pos u32_modulus →
  insert_after_position c sym =
    if decide (b = x3b) then ((s_byte_range sym).2 + 1)%N else (s_byte_range sym).2.
Proof.
  intros Hb H1 H2 Hl. unfold insert_after_position, skip_trailing_semicolon. set (e := pos (s_byte_range sym).2).
  assert (Hd : drop e c = b :: drop (S e) c) by (by apply drop_S).
  rewrite Hd. simpl. rewrite bool_decide_false by naive_solver. simpl. rewrite Nat.add_0_r.
  pose proof (lookup_lt_Some c e b Hb) as Hlt. subst e. set (m := pos _) in *.
  case_decide as E.
  - subst b. apply N2Nat.inj. rewrite pos_as_u32 by lia. lia.
  - replace (match b with x3b => m + 1 | _ => m end) with m by (destruct b; done).
    apply N2Nat.inj. rewrite pos_as_u32 by lia. done.
Qed.

Lemma splice_agree c r t n : n ≤ pos r.1 → n ≤ length c → agree n c (apply_splice c r t).
Proof.
  intros Hr Hn. unfold agree, apply_splice. rewrite take_app_le by (rewrite length_take; lia).
  rewrite take_take. f_equal. lia.
Qed.

(** *** A deletion cleans up from left to right *)

Definition line_boundary (c : list byte) (n : nat) : Prop := n = 0 ∨ c !! (n - 1) = Some x0a.

Lemma line_start_boundary c k : line_boundary c (line_start_before (take k c)).
Proof.
  unfold line_start_before, line_boundary. destruct (rposition is_newline (take k c)) as [i|] eqn:E; [right|by left].
  replace (S i - 1) with i by lia.
  assert (∀ s j, rposition is_newline s = Some j → s !! j = Some x0a) as H.
  { induction s as [|b s IH]; intros j; simpl; [done|]. destruct (rposition is_newline s) as [m|].
    - intros [= <-]. by apply IH.
    - unfold is_newline. case_bool_decide; [|done]. intros [= <-]. by subst. }
  apply H in E. rewrite lookup_take_Some in E. apply E.
Qed.

Lemma attributes_boundary fuel c s : line_boundary c s → line_boundary c (extend_past_leading_attributes fuel c s).
Proof.
  revert s. induction fuel as [|fuel IH]; intros s Hs; simpl; [done|]. case_decide; [done|].
  destruct (starts_with _ _); [|done]. apply IH, line_start_boundary.
Qed.

Lemma split_boundary s k :
  k < length (split_bytes is_newline s) →
  line_boundary s (sum_list ((λ l : list byte, length l + 1) <$> take k (split_bytes is_newline s))).
Proof.
  unfold fmap, line_boundary. revert k. induction s as [|b s IH]; intros k; simpl.
  - intros Hk. replace k with 0 by lia. by left.
  - destruct (is_newline b) eqn:Eb; simpl.
    + destruct k as [|k]; simpl; [by left|]. intros Hk. right.
      destruct (IH k ltac:(lia)) as [E|E].
      * simpl in *. rewrite E. simpl. unfold is_newline in Eb. by apply bool_decide_eq_true in Eb as ->.
      * simpl in *. set (m := sum_list _) in *. replace (S m - 1) with m by lia.
        destruct m as [|m]; [|by replace (S m - 1) with m in E by lia].
        unfold is_newline in Eb. by apply bool_decide_eq_true in Eb as ->.
    + destruct (split_bytes is_newline s) as [|l ls] eqn:E; simpl in *.
      * intros Hk. replace k with 0 by lia. by left.
      * destruct k as [|k]; simpl; [by left|]. intros Hk. right.
        destruct (IH (S k) ltac:(simpl; lia)) as [H|H]; [simpl in H; lia|].
        simpl in H. rewrite Nat.sub_0_r. set (m := length l + 1 + _) in *.
        assert (m ≠ 0) by lia. destruct m as [|m]; [done|]. by replace (S m - 1) with m in H by lia.
Qed.

Lemma docs_boundary c s sym : line_boundary c s → line_boundary c (extend_past_orphaned_docs c s sym).
Proof.
  intros Hs. unfold extend_past_orphaned_docs. destruct (s_doc_byte_range sym); [done|].
  set (ls := split_bytes is_newline (take s c)).
  set (i := match reverse ls with [] :: _ => _ | _ => _ end).
  assert (Hle : i ≤ length ls) by (subst i; destruct (reverse ls) as [|[] ?]; lia).
  destruct (reverse (take i ls)) as [|nearest above] eqn:E; [done|].
  destruct (forallb _ _); [|done]. destruct (comment_run above) as [|found]; [done|].
  assert (Hi : 0 < length (take i ls)) by (rewrite <-length_reverse, E; simpl; lia).
  rewrite length_take in Hi.
  destruct (split_boundary (take s c) (i - 1 - S found)) as [H|H]; [fold ls; lia|by left|right].
  rewrite lookup_take_Some in H. apply H.
Qed.

Lemma marks_lf_app p x k : ∃ k', marks_lf (p ++ x) k = marks_lf p k ++ marks_lf x k'.
Proof.
  revert k. induction p as [|b p IH]; intros k; [by exists k|]. simpl. case_decide.
  - destruct (IH (S k)) as [k' ->]. by exists k'.
  - destruct (IH 0) as [k' ->]. by exists k'.
Qed.

Lemma marks_crlf_app p x k : line_boundary p (length p) → ∃ k', marks_crlf (p ++ x) k = marks_crlf p k ++ marks_crlf x k'.
Proof.
  unfold line_boundary. revert k. induction p as [|b|b b' p IH IH'] using list_pair_ind; intros k Hb; [by exists k| |].
  - destruct Hb as [?|[= ->]]; [done|]. destruct x as [|y x]; [by exists 0|]. exists 0. done.
  - destruct Hb as [?|Hb]; [done|]. simpl in Hb. cbn [app]. rewrite !marks_crlf_eq. case_decide.
    + destruct (IH (S k)) as [k' ->]; [|by exists k'].
      destruct p as [|c p]; [by left|right]. simpl in *. by rewrite Nat.sub_0_r.
    + destruct (IH' 0) as [k' Hk]; [right; simpl; by rewrite Nat.sub_0_r|]. exists k'. cbn [app] in Hk |- *. by rewrite Hk.
Qed.

Definition marks_of (le : LineEnding) (s : list byte) : list bool :=
  match le with Lf => marks_lf s 0 | CrLf => marks_crlf s 0 end.

Lemma collapse_marks le s : collapse_blank_lines s le = unmarked (marks_of le s) s.
Proof. destruct le; simpl; [apply collapse_lf_marks|apply collapse_crlf_marks]. Qed.

Lemma marks_of_prefix le p x y j :
  line_boundary p (length p) → j < length p → marks_of le (p ++ x) !! j = marks_of le (p ++ y) !! j.
Proof.
  intros Hb Hj. destruct le; simpl.
  - destruct (marks_lf_app p x 0) as [k ->], (marks_lf_app p y 0) as [k' ->].
    rewrite !lookup_app_l by (rewrite length_marks_lf; lia). done.
  - destruct (marks_crlf_app p x 0 Hb) as [k ->], (marks_crlf_app p y 0 Hb) as [k' ->].
    rewrite !lookup_app_l by (rewrite length_marks_crlf; lia). done.
Qed.

Lemma unmarked_prefix n marks s :
  n ≤ length s → (∀ j, j < n → marks !! j = Some false) → take n (unmarked marks s) = take n s.
Proof.
  revert marks s. induction n as [|n IH]; intros marks s Hn H; [done|].
  destruct s as [|b s]; simpl in Hn; [lia|]. destruct marks as [|m marks]; [by specialize (H 0 ltac:(lia))|].
  pose proof (H 0 ltac:(lia)) as [= ->]. simpl. f_equal. apply IH; [lia|]. intros j Hj. apply (H (S j)). lia.
Qed.

Lemma cleanup_marks c sym le range cleanup j :
  captured_in c sym → delete_source_range c sym le = Done range → delete_cleanup_ranges c sym le = Done cleanup →
  j < pos range.1 → marks_of le (apply_splice c range []) !! j = Some true → in_ranges cleanup j = true.
Proof.
  intros Hc Er Ec Hj Hm. destruct (delete_range_bounds c sym le Hc) as (range' & Er' & Hs & He & Hl).
  rewrite Er in Er'. injection Er' as <-. destruct Hc as (Hse & _ & Hlen).
  assert (Hr : pos range.1 ≤ pos range.2 ≤ length c) by lia.
  unfold delete_cleanup_ranges in Ec. rewrite Er in Ec. simpl in Ec. injection Ec as <-.
  rewrite (apply_splice_range c range) in Hm |- * by done. simpl in Hm |- *.
  assert (Hsrc : source_of range j = j) by (unfold source_of; by rewrite decide_True).
  assert (Ha : announces range 0 (marks_of le (take (pos range.1) c ++ drop (pos range.2) c)) []
    (match le with Lf => cleanup_lf (take (pos range.1) c ++ drop (pos range.2) c) 0 0 range []
               | CrLf => cleanup_crlf (take (pos range.1) c ++ drop (pos range.2) c) 0 0 range [] end)).
  { destruct le.
    - apply (cleanup_lf_announces c range); [exact Hr|exact Hlen|apply Forall_nil_2|apply Nat.le_refl].
    - apply (cleanup_crlf_announces c range); [exact Hr|exact Hlen|apply Forall_nil_2|apply Nat.le_refl]. }
  apply Ha. right. exists j. split; [done|]. by rewrite Nat.add_0_l, Hsrc.
Qed.

(** A deletion of a text that agrees up to the deleted symbol leaves what the clean-up of
    the captured text leaves. *)
Lemma delete_keeps c c' sym le range cleanup n out :
  captured_in c sym → agree (pos (s_byte_range sym).2) c c' →
  delete_source_range c sym le = Done range → delete_cleanup_ranges c sym le = Done cleanup →
  build_delete c' sym le = Done out → n ≤ pos range.1 → (∀ j, j < n → in_ranges cleanup j = false) →
  agree n c' out.
Proof.
  intros Hc Ha Er Ecl Eo Hn Hcl. pose proof Hc as (Hse & Hend & Hlen).
  destruct (delete_range_bounds c sym le Hc) as (r0 & E0 & Hs & _). rewrite Er in E0. injection E0 as <-.
  unfold build_delete, delete_source_range in Eo.
  rewrite (agree_slice_to _ c c' _ Ha), slice_to_Done in Eo by lia. simpl in Eo. injection Eo as <-.
  set (ls := line_start_before (take (pos (effective_start sym)) c)).
  assert (Hls : ls ≤ pos (effective_start sym)) by apply line_start_take.
  pose proof (extend_attributes_le ls c ls) as Hat.
  rewrite (agree_attributes _ c c' _ _ Ha), (agree_docs _ c c' _ _ Ha) by lia.
  set (s := extend_past_orphaned_docs c (extend_past_leading_attributes ls c ls) sym).
  assert (Es : range.1 = as_u32 s).
  { unfold delete_source_range in Er. rewrite slice_to_Done in Er by lia. simpl in Er. by injection Er as <-. }
  assert (Hsle : s ≤ ls) by (etrans; [apply extend_docs_le|done]).
  assert (Ep : pos range.1 = s) by (rewrite Es; apply pos_as_u32; lia).
  assert (Hb : line_boundary (take s c) (length (take s c))).
  { rewrite length_take, Nat.min_l by lia. destruct (docs_boundary c (extend_past_leading_attributes ls c ls) sym) as [H|H].
    - apply attributes_boundary, line_start_boundary.
    - left. exact H.
    - destruct (decide (s = 0)); [by left|right]. rewrite lookup_take_Some. split; [done|lia]. }
  assert (Hl' : s ≤ length c') by (pose proof (agree_length _ c c' Ha Hend); lia).
  set (stop := as_u32 (skip_blank_line c' le _)).
  assert (Esp : ∃ x, apply_splice c' (as_u32 s, stop) [] = take s c ++ x).
  { unfold apply_splice. simpl. rewrite <-Es, Ep, (Nat.min_l s) by lia.
    rewrite (agree_le s _ c c' Ha) by lia. by eexists. }
  assert (Esc : apply_splice c range [] = take s c ++ drop (pos range.2) c).
  { destruct (delete_range_bounds c sym le Hc) as (r0 & E0 & _ & He & Hl). rewrite Er in E0. injection E0 as <-.
    rewrite (apply_splice_range c range) by lia. by rewrite Ep. }
  unfold agree. rewrite collapse_marks. destruct Esp as [x Esp].
  rewrite unmarked_prefix.
  - rewrite Esp, take_app_le by (rewrite length_take; lia). rewrite take_take.
    rewrite (agree_le n _ c c' Ha) by lia. f_equal. lia.
  - rewrite Esp, length_app, length_take. lia.
  - intros j Hj. rewrite Esp, (marks_of_prefix le _ x (drop (pos range.2) c)) by (done || rewrite length_take; lia).
    rewrite <-Esc. destruct (marks_of le (apply_splice c range []) !! j) as [[|]|] eqn:Em; [|done|].
    + pose proof (cleanup_marks c sym le range cleanup j Hc Er Ecl ltac:(lia) Em) as H. by rewrite Hcl in H.
    + apply lookup_ge_None in Em. rewrite Esc in Em.
      assert (Hm : length (marks_of le (take s c ++ drop (pos range.2) c)) = length (take s c ++ drop (pos range.2) c))
        by (destruct le; [apply length_marks_lf|apply length_marks_crlf]).
      rewrite Hm, length_app, length_take in Em. lia.
Qed.

(** ** The targets of one file *)

Definition fp_range (fp : SpliceFootprint) : nat * nat :=
  match fp with Bytes s e => (pos s, pos e) | Insert p => (pos p, pos p) end.

(** The captured symbol of a target: a non-empty span inside the file that starts at a
    token; nothing blank between an [InsertAfter] target and what follows it; a replacement
    whose checked footprint starts where the splice will. *)
Definition captured_at (c : list byte) (t : Target) : Prop :=
  let '(start, stop) := s_byte_range (sym_of t) in
  captured_in c (sym_of t) ∧ ((span t).1 ≤ start < stop)%N ∧
  (∃ b, c !! pos start = Some b ∧ is_ascii_whitespace b = false) ∧ c !! pos (span t).1 ≠ Some x3b ∧
  match operation t with
  | InsertAfter _ => ∃ b, c !! pos stop = Some b ∧ b ≠ x20 ∧ b ≠ x09
  | Replace body => ∃ n, replace_line_start c (sym_of t) = Done n ∧
      replacement_splice_range c (sym_of t) body = Ok (as_u32 n, stop)
  | _ => True
  end.

Section file.
Context {trees : RustTrees}.

(** The insertion is not below the first byte of the symbol. *)
Lemma insert_before_above content sym language p :
  (effective_start sym ≤ (s_byte_range sym).1)%N → insert_before_position content sym language = Done (Ok p) →
  (p ≤ (s_byte_range sym).1)%N.
Proof.
  intros He. unfold insert_before_position. rewrite Outcome_bind_Done. intros ([n|] & Hs & H); [|done].
  assert (Hn : (n ≤ (s_byte_range sym).1)%N).
  { clear H. case_decide; [|by injection Hs as <-]. destruct (from_utf8 content); [|done]. by eapply insertion_prefix_above. }
  clear Hs. case_decide; [done|]. destruct (_ && _); [done|]. injection H as <-. unfold as_u32.
  pose proof (N.Div0.mod_le (N.of_nat (line_start_before (take (pos n) content))) u32_modulus) as Hm.
  assert (line_start_before (take (pos n) content) ≤ pos n) by apply line_start_take. lia.
Qed.

Context (file : IndexedFile).
Notation c := (f_content file).
Notation le := (detect_line_ending c).

Definition fp_of (t : Target) : SpliceFootprint :=
  match footprint file le t with Done (Ok (fp, _)) => fp | _ => Insert 0 end.

(** An insertion before a symbol lands on a line of its own. *)
Definition own_line (t u : Target) : Prop :=
  match operation t with
  | InsertBefore _ => ((span u).1 ≤ (span t).1)%N → pos (span u).2 < (fp_range (fp_of t)).1
  | _ => True
  end.

Definition protects (t u : Target) : Prop :=
  match operation t with
  | Delete => ∀ cleanup, delete_cleanup_ranges c (sym_of t) le = Done cleanup →
      cleanup_invalidates_splice cleanup (fp_of u) = false
  | _ => True
  end.

Definition compatible (t u : Target) : Prop :=
  spans_overlap t u = false ∧ splice_footprints_overlap (fp_of t) (fp_of u) = false ∧
  protects t u ∧ protects u t.

(** Where the footprint of each operation lies. *)
Lemma fp_shape t e :
  captured_at c t → footprint file le t = Done (Ok e) →
  match operation t with
  | Replace _ => ∃ n, replace_line_start c (sym_of t) = Done n ∧ fp_of t = Bytes (as_u32 n) (span t).2 ∧
      n ≤ pos (span t).1
  | EditWithin _ _ => fp_of t = Bytes (span t).1 (span t).2
  | Delete => ∃ r, delete_source_range c (sym_of t) le = Done r ∧ fp_of t = Bytes r.1 r.2 ∧
      (r.1 ≤ (span t).1)%N ∧ ((span t).2 ≤ r.2)%N
  | InsertBefore _ => ∃ p indent, fp_of t = Insert p ∧ (p < (span t).2)%N ∧ e.2 = Some (t.1, (p, indent)) ∧
      detect_indentation c (s_byte_range (sym_of t)).1 = Done indent
  | InsertAfter _ => ∃ b, c !! pos (span t).2 = Some b ∧ b ≠ x20 ∧ b ≠ x09 ∧
      fp_of t = Insert (insert_after_position c (sym_of t)) ∧
      insert_after_position c (sym_of t) = if decide (b = x3b) then ((span t).2 + 1)%N else (span t).2
  end.
Proof.
  unfold captured_at. destruct (s_byte_range (sym_of t)) as [start stop] eqn:Er.
  intros (Hc & Hs & Ht & Hsemi & Hop) Ef. pose proof Hc as (Hse & Hend & Hlen). rewrite Er in Hend. simpl in Hend.
  unfold fp_of. rewrite Ef. unfold footprint in Ef. unfold span in *. rewrite Er in *. simpl in *.
  destruct (operation t) as [body|code|code| |old new].
  - destruct Hop as (n & Hn & Hr). rewrite Hr in Ef. injection Ef as <-. exists n. split_and!; [done|done|].
    unfold replace_line_start in Hn. rewrite slice_to_Done in Hn by lia. injection Hn as <-.
    etrans; [apply extend_docs_le|apply line_start_take].
  - apply Outcome_bind_Done in Ef as ([p|] & Ep & Ef); [|done].
    destruct (detect_indentation c start) as [indent|] eqn:Ei; [|done]. injection Ef as <-.
    exists p, indent. split_and!; [done| |done|done].
    apply insert_before_above in Ep; rewrite Er in *; simpl in *; lia.
  - injection Ef as <-. destruct Hop as (b & Hb & H1 & H2). exists b. split_and!; [done..|].
    rewrite (insert_after_at c (sym_of t) b); rewrite ?Er; simpl; [done..|].
    apply lookup_lt_Some in Hb. lia.
  - destruct (delete_range_bounds c (sym_of t) le Hc) as (r & Hd & H1 & H2 & H3). rewrite Er in H2. simpl in H2.
    rewrite Hd in Ef. injection Ef as <-. exists r. split_and!; done.
  - by injection Ef as <-.
Qed.

Lemma captured_span t : captured_at c t → ((span t).1 < (span t).2)%N ∧ c !! pos (span t).1 ≠ Some x3b.
Proof.
  unfold captured_at, span. destruct (s_byte_range (sym_of t)) as [start stop]. simpl.
  intros (_ & Hs & _ & Hsemi & _). split; [lia|done].
Qed.

Lemma fp_bounds t e :
  captured_at c t → footprint file le t = Done (Ok e) →
  match fp_of t with
  | Bytes a b => (a < (span t).2)%N ∧ ((span t).2 ≤ b)%N
  | Insert p => (∃ code, operation t = InsertBefore code) ∧ (p < (span t).2)%N ∨
      ((span t).2 ≤ p)%N ∧ (p = (span t).2 ∨ p = ((span t).2 + 1)%N ∧ c !! pos (span t).2 = Some x3b)
  end.
Proof.
  intros Ht Et. pose proof (fp_shape t e Ht Et) as S. unfold captured_at in Ht. unfold span in *.
  destruct (s_byte_range (sym_of t)) as [start stop]. simpl in *. destruct Ht as ((_ & _ & Hlen) & Hs & (x & Hx & _) & _).
  apply lookup_lt_Some in Hx. destruct (operation t) as [body|code|code| |old new].
  - destruct S as (n & _ & -> & Hn). pose proof (pos_as_u32 n). lia.
  - destruct S as (p & indent & -> & Hp & _). left. split; [by eexists|done].
  - destruct S as (b & Hb & _ & _ & -> & ->). right. case_decide; [subst|]; split; lia || auto.
  - destruct S as (r & _ & -> & H1 & H2). lia.
  - rewrite S. lia.
Qed.

(** A target lower in the file ends above the footprint of a higher one. *)
Lemma reach_below t u et eu :
  captured_at c t → captured_at c u →
  footprint file le t = Done (Ok et) → footprint file le u = Done (Ok eu) →
  own_line t u → compatible t u → ((span u).1 ≤ (span t).1)%N →
  footprint_reach (fp_of u) ≤ (fp_range (fp_of t)).1.
Proof.
  intros Ht Hu Et Eu Hown (Hsp & Hfp & _) Hle.
  pose proof (fp_bounds t et Ht Et) as St. pose proof (fp_bounds u eu Hu Eu) as Su.
  apply captured_span in Ht as [Hst Hsemi]. apply captured_span in Hu as [Hsu _].
  unfold own_line in Hown. unfold spans_overlap in Hsp. rewrite andb_false_iff, !N.ltb_ge in Hsp.
  assert (Hup : ((span u).2 ≤ (span t).1)%N) by lia.
  assert (Hsemi' : c !! pos (span u).2 = Some x3b → (span u).2 ≠ (span t).1) by congruence.
  assert (Hu' : match fp_of u with Bytes a _ => a < (span u).2 | Insert p => p ≤ (span t).1 end%N).
  { destruct (fp_of u); [lia|]. destruct Su as [[_ ?]|[_ [->|[-> ?%Hsemi']]]]; lia. }
  destruct (fp_of t) as [a b|p], (fp_of u) as [a' b'|p']; simpl in *.
  - rewrite andb_false_iff, !N.ltb_ge in Hfp. lia.
  - rewrite andb_false_iff, N.leb_gt, N.ltb_ge in Hfp. lia.
  - rewrite andb_false_iff, N.leb_gt, N.ltb_ge in Hfp.
    destruct St as [[[code Ec] Hp]|[St _]]; [rewrite Ec in Hown|]; lia.
  - rewrite bool_decide_eq_false in Hfp. destruct St as [[[code Ec] Hp]|[St _]]; [rewrite Ec in Hown|lia].
    destruct Su as [[_ ?]|[_ [->|[-> _]]]]; lia.
Qed.

(** The clean-up of a deletion that does not reach a footprint leaves the bytes up to it. *)
Lemma cleanup_below cleanup fp j :
  footprint_reach fp < pos u32_modulus → cleanup_invalidates_splice cleanup fp = false → j < footprint_reach fp →
  in_ranges cleanup j = false.
Proof.
  intros Hr H Hj. apply not_true_iff_false. rewrite in_ranges_spec. intros (r & Hin & Hb).
  apply not_true_iff_false in H. apply H. apply existsb_exists. exists r. split; [by apply list_elem_of_In|].
  apply N.ltb_lt. destruct fp; simpl in *; [lia|]. unfold u32_saturating_succ. lia.
Qed.

(** What a step needs from the map of positions. *)
Definition position_known (positions : Positions) (t : Target) : Prop :=
  match operation t with
  | InsertBefore _ => ∃ p indent, fp_of t = Insert p ∧ positions !! t.1 = Some (p, indent) ∧
      detect_indentation c (s_byte_range (sym_of t)).1 = Done indent
  | _ => True
  end.

(** One step of the staging leaves every lower target alone. *)
Lemma stage_keeps path positions t u et c' out s :
  captured_at c t → footprint file le t = Done (Ok et) → position_known positions t →
  agree (footprint_reach (fp_of t)) c c' → protects t u → footprint_reach (fp_of u) ≤ (fp_range (fp_of t)).1 →
  stage_edit path le positions t c' = Done (Ok (out, s)) → agree (footprint_reach (fp_of u)) c' out.
Proof.
  intros Ht Et Hpos Ha Hpro Hu. pose proof (fp_shape t et Ht Et) as S. pose proof (fp_bounds t et Ht Et) as B.
  unfold captured_at in Ht. unfold position_known in Hpos. unfold protects in Hpro. unfold stage_edit, span in *.
  destruct (s_byte_range (sym_of t)) as [start stop] eqn:Er. simpl in *. destruct Ht as (Hc & Hs & (x & Hx & Hw) & _).
  pose proof Hc as (Hse & Hend & Hlen). rewrite Er in Hend. simpl in Hend.
  destruct (operation t) as [body|code|code| |old new].
  - destruct S as (n & Hn & Ef & Hle). rewrite Ef in *. simpl in *.
    rewrite (agree_replace_start _ c c' _ Ha), Hn by lia. simpl.
    rewrite Outcome_bind_Done. intros (indent & _ & H). rewrite Outcome_bind_Done in H. destruct H as (txt & _ & [= <- <-]).
    apply splice_agree; [done|]. pose proof (agree_length _ c c' Ha). pose proof (pos_as_u32 n). lia.
  - destruct Hpos as (p & indent & Ef & -> & _). rewrite Ef in *. simpl in *. destruct S as (p' & _ & [= <-] & Hp & _).
    rewrite Outcome_bind_Done. intros (new & Hn & [= <- <-]). unfold build_insert_before_at_position in Hn.
    rewrite Outcome_bind_Done in Hn. destruct Hn as (txt & _ & Hn). rewrite Outcome_bind_Done in Hn.
    destruct Hn as (sep & _ & [= <-]). apply splice_agree; [done|].
    pose proof (agree_length (pos p) c c' (agree_le (pos p) (S (pos p)) c c' Ha ltac:(lia))). lia.
  - destruct S as (b & Hb & H1 & H2 & Ef & Ep). rewrite Ef in *. simpl in *.
    assert (Hb' : c' !! pos stop = Some b) by (rewrite (agree_lookup _ c c' _ Ha) by (rewrite Ep; case_decide; lia); done).
    rewrite Outcome_bind_Done. intros (new & Hn & [= <- <-]). unfold build_insert_after in Hn.
    rewrite Outcome_bind_Done in Hn. destruct Hn as (indent & _ & Hn). rewrite Outcome_bind_Done in Hn.
    destruct Hn as (txt & _ & [= <-]).
    assert (Hl : S (pos stop) < pos u32_modulus) by (apply lookup_lt_Some in Hb; lia).
    rewrite (insert_after_at c' (sym_of t) b); rewrite ?Er; simpl; [|done..].
    rewrite <-Ep. apply splice_agree; [done|]. apply lookup_lt_Some in Hb'. rewrite Ep in *. case_decide; lia.
  - destruct S as (r & Hd & Ef & H1 & H2). rewrite Ef in *. simpl in *.
    rewrite Outcome_bind_Done. intros (new & Hn & [= <- <-]).
    destruct (delete_announced c (sym_of t) le Hc) as (_ & cleanup & _ & Hcl & _).
    eapply delete_keeps; [done| |done|done|done|done|].
    + eapply agree_le; [done|]. rewrite Er. simpl. lia.
    + intros j Hj. eapply cleanup_below; [|by apply Hpro|done]. lia.
  - rewrite S in *. simpl in *. rewrite Outcome_bind_Done. intros ([[new' count]|e] & Hn & H); [|done]. injection H as <- <-.
    unfold build_edit_within in Hn. rewrite Er in Hn. simpl in Hn.
    pose proof (agree_length _ c c' Ha ltac:(lia)).
    rewrite slice_to_Done in Hn by lia. simpl in Hn. case_decide; [done|].
    repeat (case_match; try done). injection Hn as <- <-.
    apply splice_agree; simpl; lia.
Qed.

(** ** From the checks to the order *)

Lemma first_pair_None {A B} (f : B → B → bool) (g : A → B) l :
  first_pair f (g <$> l) = None → ForallOrdPairs (λ a b, f (g a) (g b) = false) l.
Proof.
  unfold fmap. induction l as [|a l IH]; simpl; [constructor|]. destruct (list_find _ _) as [[]|] eqn:E; [done|].
  intros H. constructor; [|by apply IH]. apply list_find_None in E. change (list_fmap A B g l) with (g <$> l) in E.
  apply Forall_forall. intros b Hb. apply not_true_iff_false. revert E. rewrite Forall_forall. intros E.
  apply E, list_elem_of_fmap. by exists b.
Qed.

Lemma ordpairs_and {A} (P Q : A → A → Prop) l :
  ForallOrdPairs P l → ForallOrdPairs Q l → ForallOrdPairs (λ a b, P a b ∧ Q a b) l.
Proof.
  induction 1 as [|a l Ha Hl IH]; inversion 1; subst; [constructor|]. constructor; [|by apply IH].
  by apply Forall_and.
Qed.

Lemma ordpairs_permutation {A} (P : A → A → Prop) `{!Symmetric P} l l' :
  l ≡ₚ l' → ForallOrdPairs P l → ForallOrdPairs P l'.
Proof.
  induction 1 as [|x l l' Hp IH|x y l|l l' l'' _ IH _ IH']; intros H.
  - done.
  - inversion H; subst. constructor; [by rewrite <-Hp|by apply IH].
  - inversion H as [|? ? Hx H']; subst. inversion H' as [|? ? Hy Hl]; subst. inversion Hx; subst.
    constructor; [constructor; [by symmetry|done]|by constructor].
  - auto.
Qed.

Lemma ordpairs_sorted {A} (P Q : A → A → Prop) l :
  ForallOrdPairs P l → StronglySorted Q l → StronglySorted (λ a b, P a b ∧ Q a b) l.
Proof.
  induction 1 as [|a l Ha Hl IH]; inversion 1; subst; [constructor|]. constructor; [by apply IH|].
  by apply Forall_and.
Qed.

Lemma collect_ok {A B E} (f : A → Outcome (Result B E)) l ys :
  collect f l = Done (Ok ys) → Forall2 (λ x y, f x = Done (Ok y)) l ys.
Proof.
  revert ys. induction l as [|a l IH]; intros ys; simpl; [by intros [= <-]|]. unfold try.
  rewrite Outcome_bind_Done. intros ([b|e] & Hb & H); [|done]. rewrite Outcome_bind_Done in H.
  destruct H as ([bs|e] & Hbs & H); [|done]. injection H as <-. constructor; [done|by apply IH].
Qed.

Lemma footprint_key t e :
  footprint file le t = Done (Ok e) → match e.2 with Some (i, _) => i = t.1 | None => True end.
Proof.
  unfold footprint. destruct (operation t) as [body|code|code| |old new].
  - destruct (replacement_splice_range _ _ _) as [[]|]; [|destruct (span t)]; by intros [= <-].
  - rewrite Outcome_bind_Done. intros ([p|] & _ & H); [|done].
    apply Outcome_bind_Done in H as (i & _ & H). by injection H as <-.
  - by intros [= <-].
  - rewrite Outcome_bind_Done. by intros (i & _ & [= <-]).
  - by intros [= <-].
Qed.

Abbreviation learn := (foldl (λ (m : Positions) (e : SpliceFootprint * option (nat * (N * list byte))),
  match e.2 with Some (i, p) => <[i := p]> m | None => m end)).

Lemma learn_other (m : Positions) ts es i :
  Forall2 (λ (t : Target) e, footprint file le t = Done (Ok e)) ts es → i ∉ ts.*1 →
  learn m es !! i = m !! i.
Proof.
  intros H. revert m. induction H as [|t e ts es He H IH]; intros m; [done|]. simpl.
  rewrite not_elem_of_cons. intros [Hi Hts]. rewrite IH by done. apply footprint_key in He.
  destruct (e.2) as [[k p]|]; [|done]. subst. by rewrite lookup_insert_ne.
Qed.

Lemma learn_known (m : Positions) ts es :
  Forall2 (λ (t : Target) e, footprint file le t = Done (Ok e)) ts es → NoDup ts.*1 →
  Forall (captured_at c) ts → Forall (position_known (learn m es)) ts.
Proof.
  intros H. revert m. induction H as [|t e ts es He H IH]; intros m; [constructor|]. simpl.
  intros [Hi Hnd]%NoDup_cons [Hc Hcs]%Forall_cons. constructor; [|by apply IH].
  pose proof (fp_shape t e Hc He) as S. unfold position_known. destruct (operation t); try done.
  destruct S as (p & indent & Ef & _ & E2 & Ei). exists p, indent. split_and!; [done| |done].
  rewrite (learn_other _ ts) by done. by rewrite E2, lookup_insert_eq.
Qed.

Lemma conflict_free seen ts :
  cleanup_conflict c le seen (zip ts (fp_of <$> ts)) = Done false →
  ForallOrdPairs (λ t u, protects t u ∧ protects u t) ts ∧
  ∀ t cleanup, t ∈ ts → operation t = Delete → delete_cleanup_ranges c (sym_of t) le = Done cleanup →
    Forall (λ fp, cleanup_invalidates_splice cleanup fp = false) seen.
Proof.
  unfold fmap. revert seen. induction ts as [|t ts IH]; intros seen.
  { intros _. split; [constructor|]. intros t cleanup []%elem_of_nil. }
  simpl. rewrite Outcome_bind_Done. intros (b & Hb & H). destruct b; [done|].
  destruct (IH _ H) as [Hpairs Hseen]. clear H.
  assert (Hz : (zip ts (list_fmap _ _ fp_of ts)).*2 = fp_of <$> ts)
    by (apply snd_zip; rewrite length_fmap; done).
  assert (Ht : ∀ cleanup, operation t = Delete → delete_cleanup_ranges c (sym_of t) le = Done cleanup →
    Forall (λ fp, cleanup_invalidates_splice cleanup fp = false) (seen ++ (fp_of <$> ts))).
  { intros cleanup Eop Ecl. rewrite Eop, Ecl in Hb. simpl in Hb. rewrite Hz in Hb. injection Hb as Hb.
    apply Forall_forall. intros fp Hfp. apply not_true_iff_false. intros Ht. apply not_true_iff_false in Hb. apply Hb.
    apply existsb_exists. exists fp. split; [by apply list_elem_of_In|done]. }
  split; [constructor; [|done]|].
  - apply Forall_forall. intros u Hu. split; unfold protects.
    + destruct (operation t) eqn:Eop; try done. intros cleanup Ecl. specialize (Ht cleanup eq_refl Ecl).
      rewrite Forall_forall in Ht. apply Ht, elem_of_app. right. apply list_elem_of_fmap. by exists u.
    + destruct (operation u) eqn:Eop; try done. intros cleanup Ecl. specialize (Hseen u cleanup Hu Eop Ecl).
      apply Forall_app in Hseen as [_ Hseen]. by inversion Hseen.
  - intros u cleanup [->|Hu]%elem_of_cons Eop Ecl.
    + specialize (Ht cleanup Eop Ecl). by apply Forall_app in Ht as [? _].
    + specialize (Hseen u cleanup Hu Eop Ecl). by apply Forall_app in Hseen as [? _].
Qed.

#[local] Instance compatible_symm : Symmetric compatible.
Proof.
  intros t u (H1 & H2 & H3 & H4). unfold compatible, spans_overlap in *. split_and!; try done.
  - by rewrite andb_comm.
  - destruct (fp_of t), (fp_of u); simpl in *; [by rewrite andb_comm|done|done|].
    rewrite bool_decide_eq_false in *. congruence.
Qed.

(** What the capture gives for the targets of a file. *)
Record sound_targets (ts : list Target) : Prop := {
  sound_captured : Forall (captured_at c) ts;
  sound_lines : ∀ t u, t ∈ ts → u ∈ ts → t ≠ u → own_line t u;
  sound_indices : NoDup ts.*1;
}.

Definition foreseen (positions : Positions) (t : Target) : Prop :=
  captured_at c t ∧ position_known positions t ∧ ∃ e, footprint file le t = Done (Ok e).

Lemma captured_inside ts : Forall (captured_at c) ts → existsb (outside c) ts = false.
Proof.
  intros H. apply not_true_iff_false. rewrite existsb_exists. intros (t & Ht%list_elem_of_In & Ho).
  rewrite Forall_forall in H. specialize (H t Ht). unfold captured_at, outside, span in *.
  destruct (s_byte_range (sym_of t)) as [start stop] eqn:Er. destruct H as ((Hse & Hend & _) & Hs & _).
  rewrite Er in Hend. simpl in *. apply orb_true_iff in Ho. rewrite !Nat.ltb_lt in Ho. lia.
Qed.

Lemma validated path ts m0 m :
  sound_targets ts → validate_file path file ts m0 = Done (Ok m) →
  ForallOrdPairs compatible ts ∧ Forall (foreseen m) ts.
Proof.
  intros [Hc _ Hnd]. unfold validate_file. destruct (first_pair spans_overlap ts) as [[]|] eqn:Esp; [done|].
  rewrite captured_inside by done. unfold try. rewrite Outcome_bind_Done. intros ([fps|] & Hf & H); [|done].
  apply collect_ok in Hf.
  assert (Ef : fps.*1 = fp_of <$> ts).
  { clear -Hf. induction Hf as [|t [fp o] ts fps Ht _ IH]; [done|]. rewrite !fmap_cons, IH. f_equal.
    unfold fp_of. by rewrite Ht. }
  rewrite Ef in H. destruct (first_pair splice_footprints_overlap _) eqn:Efp; [done|].
  rewrite Outcome_bind_Done in H. destruct H as ([] & Hcc & H); [done|]. injection H as <-.
  apply conflict_free in Hcc as [Hcc _]. apply first_pair_None in Efp.
  rewrite <-(list_fmap_id ts) in Esp at 1. apply first_pair_None in Esp. split.
  - exact (ordpairs_and _ _ _ Esp (ordpairs_and _ _ _ Efp Hcc)).
  - pose proof (learn_known m0 ts fps Hf Hnd Hc) as Hk. apply Forall_forall. intros t Ht.
    rewrite Forall_forall in Hc, Hk. split_and!; [by apply Hc|by apply Hk|].
    apply list_elem_of_lookup in Ht as [i Hi]. destruct (Forall2_lookup_l _ _ _ _ _ Hf Hi) as (e & _ & He). by exists e.
Qed.

(** [u] comes after [t] in the order of the staging: it lies above it, out of its reach. *)
Definition lower (t u : Target) : Prop :=
  footprint_reach (fp_of u) ≤ (fp_range (fp_of t)).1 ∧ protects t u.

Lemma staging_order path ts m0 m :
  sound_targets ts → validate_file path file ts m0 = Done (Ok m) →
  StronglySorted lower (sort_by reverse_offset ts) ∧ Forall (foreseen m) (sort_by reverse_offset ts).
Proof.
  intros Hs Hv. pose proof (validated path ts m0 m Hs Hv) as [Hp Hf]. destruct Hs as [_ Hl Hnd].
  pose proof (sort_by_Permutation reverse_offset ts) as Eperm.
  split; [|by rewrite Eperm].
  assert (Hsort : StronglySorted reverse_offset (sort_by reverse_offset ts)) by (apply StronglySorted_sort_by; apply _).
  assert (Hnd' : NoDup ts) by (by eapply NoDup_fmap_1).
  symmetry in Eperm. apply (ordpairs_permutation _ _ _ Eperm) in Hp. symmetry in Eperm.
  rewrite <-Eperm in Hnd', Hf. 
  assert (Hl' : ∀ t u, t ∈ sort_by reverse_offset ts → u ∈ sort_by reverse_offset ts → t ≠ u → own_line t u).
  { intros t u Ht Hu. rewrite Eperm in Ht, Hu. by apply Hl. }
  pose proof (ordpairs_sorted _ _ _ Hp Hsort) as H. clear Hp Hsort Hl Hnd Eperm.
  induction H as [|t l H IH Ht]; [constructor|]. apply NoDup_cons in Hnd' as [Hnt Hnd']. apply Forall_cons in Hf as [Hft Hf].
  constructor; [apply IH; [done|done|intros; apply Hl'; set_solver]|].
  rewrite Forall_forall in Ht, Hf |- *. intros u Hu. destruct (Ht u Hu) as [Hc Hr].
  destruct Hft as (Hct & _ & et & Het), (Hf u Hu) as (Hcu & _ & eu & Heu).
  split; [|apply Hc]. eapply reach_below; [done..| |done|].
  - apply Hl'; [set_solver|set_solver|]. intros ->. done.
  - unfold reverse_offset, by_key, nat_ge in Hr. lia.
Qed.

Lemma staged_agree path positions l1 l2 c' ss c'' ss' :
  StronglySorted lower (l1 ++ l2) → Forall (foreseen positions) (l1 ++ l2) →
  (∀ u, u ∈ l1 ++ l2 → agree (footprint_reach (fp_of u)) c c') →
  stage_edits path le positions l1 c' ss = Done (Ok (c'', ss')) →
  ∀ u, u ∈ l2 → agree (footprint_reach (fp_of u)) c c''.
Proof.
  revert c' ss. induction l1 as [|t l1 IH]; intros c' ss Hs Hf Ha; simpl.
  { intros [= <- <-] u Hu. by apply Ha. }
  unfold try. rewrite Outcome_bind_Done. intros ([[new s]|] & Hst & H); [|done].
  apply StronglySorted_inv in Hs as [Hs Ht]. apply Forall_cons in Hf as [(Hct & Hkt & et & Het) Hf].
  eapply IH; [exact Hs|exact Hf| |exact H]. intros u Hu.
  rewrite Forall_forall in Ht. destruct (Ht u Hu) as [Hr Hp].
  eapply agree_trans; [apply Ha; set_solver|].
  eapply stage_keeps; [done|done|done|apply Ha; set_solver|done|done|done].
Qed.

Lemma foreseen_same (m positions : Positions) ts :
  (∀ t, t ∈ ts → positions !! t.1 = m !! t.1) → Forall (foreseen m) ts → Forall (foreseen positions) ts.
Proof.
  intros Hm H. rewrite Forall_forall in H |- *. intros t Ht. destruct (H t Ht) as (Hc & Hk & He).
  split_and!; [done| |done]. unfold position_known in *. by rewrite Hm.
Qed.

(** C15: the checks of a batch and its order give every edit the text it was resolved for.  Let
    [validate_file] accept the targets of a file, and let staging have applied the edits
    that come before a target in the order of the batch.  Then the text that this target
    meets is the captured one up to the end of its footprint, deletions with their clean-up
    of blank lines included, so its captured positions still mean what they meant.  The
    conditions are [sound_targets].  The file is below 4 GiB; a symbol, with its docs, is a
    non-empty range of it, its first byte is not white space and its span does not begin
    with a semicolon.  After an [InsertAfter] target comes a byte, and not a blank or a tab.
    The range that the check computes for a replacement begins on the line that the splice
    begins on.  A target that begins no later than an [InsertBefore] target ends before the
    line on which that inserts.  The targets have distinct indices. *)
Theorem edits_find_their_text path ts m0 m positions l1 t l2 cur summaries :
  sound_targets ts → validate_file path file ts m0 = Done (Ok m) →
  (∀ u, u ∈ ts → positions !! u.1 = m !! u.1) → sort_by reverse_offset ts = l1 ++ t :: l2 →
  stage_edits path le positions l1 c [] = Done (Ok (cur, summaries)) →
  take (footprint_reach (fp_of t)) cur = take (footprint_reach (fp_of t)) c.
Proof.
  intros Hs Hv Hm E Hst. destruct (staging_order path ts m0 m Hs Hv) as [Hl Hf]. apply (foreseen_same m positions) in Hf.
  2: { intros u Hu. apply Hm. by rewrite (sort_by_Permutation reverse_offset ts) in Hu. }
  rewrite E in Hl, Hf. apply (staged_agree path positions l1 (t :: l2) c [] cur summaries); [done..|set_solver].
Qed.

(** ** All edits at once *)

(** The text with every range, given in ascending order, replaced. *)
Fixpoint weave (from : nat) (edits : list (nat * nat * list byte)) : list byte :=
  match edits with
  | [] => drop from c
  | (s, e, text) :: edits => drop from (take s c) ++ text ++ weave e edits
  end.

Definition first_start (edits : list (nat * nat * list byte)) : nat :=
  match edits with [] => length c | (s, _, _) :: _ => s end.

Lemma weave_prefix e edits :
  e ≤ first_start edits → first_start edits ≤ length c → weave 0 edits = take e c ++ weave e edits.
Proof.
  destruct edits as [|[[s e'] text] edits]; simpl; intros He Hl.
  - by rewrite drop_0, take_drop.
  - rewrite drop_0, (app_assoc (take e c)). f_equal.
    rewrite <-(take_drop e (take s c)) at 1. by rewrite take_take, Nat.min_l by lia.
Qed.

(** The text that an edit puts in the place of its footprint, computed from the capture.
    [EditWithin] detects the line ending anew. *)
Definition makes (t : Target) (text : list byte) : Prop :=
  let '(start, stop) := s_byte_range (sym_of t) in
  match operation t with
  | Replace code => ∃ indent, detect_indentation c start = Done indent ∧ indented_text code indent le = Done text
  | InsertBefore code => ∃ indent body separator, detect_indentation c start = Done indent ∧
      indented_text code indent le = Done body ∧ text = body ++ separator ∧
      (separator = as_bytes le ∨ separator = as_bytes le ++ as_bytes le)
  | InsertAfter code => ∃ indent body, detect_indentation c start = Done indent ∧
      indented_text code indent le = Done body ∧ text = as_bytes le ++ as_bytes le ++ body
  | EditWithin old new => ∃ ending, let needle := normalize_line_endings old ending in
      match_indices needle (symbol_text c (sym_of t)) ≠ [] ∧
      text = replace_first needle (normalize_line_endings new ending) (symbol_text c (sym_of t))
  | Delete => False
  end.

Lemma agree_symbol_text n c' sym :
  agree n c c' → pos (s_byte_range sym).2 ≤ n → symbol_text c' sym = symbol_text c sym.
Proof. intros H Hn. unfold symbol_text. by rewrite (agree_le (pos (s_byte_range sym).2) n c c' H Hn). Qed.

Lemma splice_exact c' r text :
  pos r.1 ≤ pos r.2 → pos r.2 ≤ length c' →
  apply_splice c' r text = take (pos r.1) c' ++ text ++ drop (pos r.2) c'.
Proof. intros. unfold apply_splice. rewrite (Nat.min_l (pos r.1)), (Nat.max_l (pos r.2)), Nat.min_l by lia. done. Qed.

(** One step, in positions of the capture. *)
Lemma stage_makes path positions t c' out s :
  foreseen positions t → agree (footprint_reach (fp_of t)) c c' → operation t ≠ Delete →
  stage_edit path le positions t c' = Done (Ok (out, s)) →
  ∃ text, makes t text ∧ out = take (fp_range (fp_of t)).1 c' ++ text ++ drop (fp_range (fp_of t)).2 c'.
Proof.
  intros (Ht & Hpos & et & Et) Ha Hdel. pose proof (fp_shape t et Ht Et) as S.
  unfold captured_at in Ht. unfold position_known in Hpos. unfold stage_edit, makes, span in *.
  destruct (s_byte_range (sym_of t)) as [start stop] eqn:Er. simpl in *. destruct Ht as (Hc & Hs & (x & Hx & Hw) & _).
  pose proof Hc as (Hse & Hend & Hlen). rewrite Er in Hend. simpl in Hend.
  destruct (operation t) as [body|code|code| |old new]; [| | |done|].
  - destruct S as (n & Hn & Ef & Hle). rewrite Ef in *. simpl in *.
    pose proof (agree_length _ c c' Ha Hend). pose proof (pos_as_u32 n).
    rewrite (agree_replace_start _ c c' _ Ha), Hn by lia. simpl.
    rewrite (agree_indentation _ c c' _ x Ha) by (done || lia).
    rewrite Outcome_bind_Done. intros (indent & Hi & Hk). rewrite Outcome_bind_Done in Hk. destruct Hk as (txt & Htxt & [= <- <-]).
    exists txt. split; [by exists indent|]. apply splice_exact; simpl; lia.
  - destruct Hpos as (p & indent & Ef & -> & Hi). rewrite Ef in *. simpl in *. destruct S as (p' & _ & [= <-] & Hp & _).
    pose proof (agree_length (pos p) c c' (agree_le (pos p) (S (pos p)) c c' Ha ltac:(lia)) ltac:(lia)).
    rewrite Outcome_bind_Done. intros (new & Hn & [= <- <-]). unfold build_insert_before_at_position in Hn.
    rewrite Outcome_bind_Done in Hn. destruct Hn as (txt & Htxt & Hn). rewrite Outcome_bind_Done in Hn.
    destruct Hn as (sep & Hsep & [= <-]). exists (txt ++ sep). split; [|apply splice_exact; simpl; lia].
    exists indent, txt, sep. split_and!; [done|done|done|].
    destruct (s_doc_byte_range (sym_of t)).
    { injection Hsep as <-. by left. }
    rewrite slice_to_Done in Hsep by lia. injection Hsep as <-. destruct (ends_with_blank _ _); auto.
  - destruct S as (b & Hb & H1 & H2 & Ef & Ep). rewrite Ef in *. simpl in *.
    assert (Hpp : (stop ≤ insert_after_position c (sym_of t) ≤ stop + 1)%N) by (rewrite Ep; case_decide; lia).
    assert (Hb' : c' !! pos stop = Some b) by (rewrite (agree_lookup _ c c' _ Ha) by lia; done).
    rewrite Outcome_bind_Done. intros (new & Hn & [= <- <-]). unfold build_insert_after in Hn.
    rewrite Er, (agree_indentation (pos stop) c c' _ x (agree_le (pos stop) (S (pos (insert_after_position c (sym_of t)))) c c' Ha ltac:(lia))) in Hn by (simpl; done || lia).
    rewrite Outcome_bind_Done in Hn. destruct Hn as (indent & Hi & Hn). rewrite Outcome_bind_Done in Hn.
    destruct Hn as (txt & Htxt & [= <-]). eexists. split; [by exists indent, txt|].
    apply lookup_lt_Some in Hb, Hb' as Hl'.
    rewrite (insert_after_at c' (sym_of t) b); rewrite ?Er; simpl; [|done|done|done|lia].
    rewrite <-Ep. apply splice_exact; simpl; lia.
  - rewrite S in *. simpl in *. pose proof (agree_length _ c c' Ha Hend).
    rewrite Outcome_bind_Done. intros ([[new' count]|e] & Hn & Hk); [|done]. injection Hk as <- <-.
    unfold build_edit_within in Hn. rewrite Er in Hn. simpl in Hn.
    rewrite slice_to_Done in Hn by lia. simpl in Hn. case_decide; [done|].
    assert (Et' : drop (pos (effective_start (sym_of t))) (take (pos stop) c') = symbol_text c (sym_of t)).
    { rewrite <-(agree_symbol_text (pos stop) c') by (rewrite ?Er; done). unfold symbol_text. by rewrite Er. }
    rewrite Et' in Hn. unfold from_utf8 in Hn. set (ending := detect_line_ending c') in Hn.
    destruct (valid_utf8 (symbol_text _ _)); [|done].
    destruct (valid_utf8 (normalize_line_endings old _)); [|done].
    destruct (valid_utf8 (normalize_line_endings new _)); [|done].
    destruct (match_indices _ _) as [|i ms] eqn:Em; [done|]. injection Hn as <- <-.
    eexists. split; [exists ending; cbv zeta; split; [by rewrite Em|reflexivity]|]. apply splice_exact; simpl; lia.
Qed.

Lemma foreseen_range positions t : foreseen positions t → operation t ≠ Delete →
  let r := fp_range (fp_of t) in r.1 ≤ r.2 ∧ r.2 ≤ length c ∧ r.2 ≤ footprint_reach (fp_of t).
Proof.
  intros (Ht & _ & et & Et) Hd. pose proof (fp_shape t et Ht Et) as S. pose proof (fp_bounds t et Ht Et) as B.
  unfold captured_at, span in *.
  destruct (s_byte_range (sym_of t)) as [start stop] eqn:Er. simpl in *. destruct Ht as ((_ & Hend & _) & Hs & _).
  rewrite Er in Hend. simpl in Hend. destruct (operation t) as [body|code|code| |old new]; [| | |done|].
  - destruct S as (n & _ & Ef & Hn). rewrite Ef in *. simpl. lia.
  - destruct S as (p & _ & -> & ? & _). simpl. lia.
  - destruct S as (b & Hb & _ & _ & -> & ->). apply lookup_lt_Some in Hb. simpl. case_decide; lia.
  - rewrite S. simpl. lia.
Qed.

Definition splice_of (t : Target) (text : list byte) : nat * nat * list byte := (fp_range (fp_of t), text).

Lemma first_start_splice t text made : first_start (splice_of t text :: made) = (fp_range (fp_of t)).1.
Proof. unfold splice_of. simpl. by destruct (fp_range (fp_of t)). Qed.

Lemma weave_step t text made :
  let r := fp_range (fp_of t) in r.1 ≤ r.2 → r.2 ≤ first_start made → first_start made ≤ length c →
  take r.1 (weave 0 made) ++ text ++ drop r.2 (weave 0 made) = weave 0 (splice_of t text :: made).
Proof.
  unfold splice_of. destruct (fp_range (fp_of t)) as [s e]. simpl. intros H1 H2 H3.
  rewrite (weave_prefix e made) by lia. rewrite take_app_le by (rewrite length_take; lia).
  rewrite take_take, Nat.min_l, drop_0 by lia. f_equal. f_equal. rewrite drop_app_ge by (rewrite length_take; lia).
  rewrite length_take, Nat.min_l, Nat.sub_diag by lia. done.
Qed.

Lemma staged_weave path positions ts made ss out ss' :
  StronglySorted lower ts → Forall (foreseen positions) ts → Forall (λ t, operation t ≠ Delete) ts →
  first_start made ≤ length c → Forall (λ t, made = [] ∨ footprint_reach (fp_of t) ≤ first_start made) ts →
  stage_edits path le positions ts (weave 0 made) ss = Done (Ok (out, ss')) →
  ∃ texts, Forall2 makes ts texts ∧ out = weave 0 (reverse (zip_with splice_of ts texts) ++ made).
Proof.
  revert made ss. induction ts as [|t ts IH]; intros made ss Hs Hf Hd Hlen Hr; simpl.
  { intros [= <- <-]. by exists []. }
  unfold try. rewrite Outcome_bind_Done. intros ([[new s]|] & Hst & H); [|done].
  apply StronglySorted_inv in Hs as [Hs Ht]. apply Forall_cons in Hf as [Hft Hf].
  apply Forall_cons in Hd as [Hdt Hd]. apply Forall_cons in Hr as [Hrt Hr].
  destruct (foreseen_range positions t Hft Hdt) as (H1 & H2 & H3).
  assert (Hag : agree (footprint_reach (fp_of t)) c (weave 0 made)).
  { destruct Hrt as [->|Hrt]; [done|]. unfold agree. rewrite (weave_prefix _ made Hrt Hlen).
    apply take_app_length'. rewrite length_take. lia. }
  destruct (stage_makes path positions t _ new s Hft Hag Hdt Hst) as (text & Hm & ->).
  rewrite (weave_step t text made) in H; [|done|destruct Hrt as [->|Hrt]; simpl; lia|done].
  eapply IH in H as (texts & Hts & ->); [|done|done|done|rewrite first_start_splice; lia|].
  2: { eapply Forall_impl; [exact Ht|]. intros u [Hu _]. right. by rewrite first_start_splice. }
  exists (text :: texts). split; [by constructor|]. rewrite reverse_cons, <-app_assoc. done.
Qed.

Lemma staged_at_once path ts m0 m positions out summaries :
  sound_targets ts → Forall (λ t, operation t ≠ Delete) ts →
  validate_file path file ts m0 = Done (Ok m) → (∀ u, u ∈ ts → positions !! u.1 = m !! u.1) →
  stage_edits path le positions (sort_by reverse_offset ts) c [] = Done (Ok (out, summaries)) →
  ∃ texts, Forall2 makes (sort_by reverse_offset ts) texts ∧
    out = weave 0 (reverse (zip_with splice_of (sort_by reverse_offset ts) texts)).
Proof.
  intros Hs Hd Hv Hm Hst. destruct (staging_order path ts m0 m Hs Hv) as [Hl Hf].
  apply (foreseen_same m positions) in Hf.
  2: { intros u Hu. apply Hm. by rewrite (sort_by_Permutation reverse_offset ts) in Hu. }
  rewrite <-(sort_by_Permutation reverse_offset ts) in Hd.
  destruct (staged_weave path positions (sort_by reverse_offset ts) [] [] out summaries) as (texts & H1 & H2);
    [done|done|done|simpl; lia|apply Forall_forall; by left|done|].
  exists texts. by rewrite app_nil_r in H2.
Qed.

(** A batch without deletions makes all its edits at once.  When [validate_file] accepts
    the targets of a file and staging them in the order of the batch succeeds, the staged
    text is the captured one with the footprint of every target replaced by the text that
    its edit computes from the captured file, all in captured positions: no edit sees
    another, and every byte outside the footprints is kept. *)
Theorem batch_edits_at_once path ts m0 m positions out summaries :
  sound_targets ts → Forall (λ t, operation t ≠ Delete) ts →
  validate_file path file ts m0 = Done (Ok m) → (∀ u, u ∈ ts → positions !! u.1 = m !! u.1) →
  stage_edits path le positions (sort_by reverse_offset ts) c [] = Done (Ok (out, summaries)) →
  ∃ texts, Forall2 makes (sort_by reverse_offset ts) texts ∧
    out = weave 0 (reverse (zip_with splice_of (sort_by reverse_offset ts) texts)).
Proof. apply staged_at_once. Qed.

Lemma validate_touches path ts m0 m i :
  validate_file path file ts m0 = Done (Ok m) → i ∉ ts.*1 → m !! i = m0 !! i.
Proof.
  unfold validate_file. destruct (first_pair spans_overlap ts) as [[]|]; [done|].
  destruct (existsb _ _); [by intros [= <-]|]. unfold try. rewrite Outcome_bind_Done. intros ([fps|] & Hf & H) Hi; [|done].
  apply collect_ok in Hf. destruct (first_pair splice_footprints_overlap _); [done|].
  rewrite Outcome_bind_Done in H. destruct H as ([] & _ & H); [done|]. injection H as <-. by eapply learn_other.
Qed.
End file.

(** ** Divergences *)

Definition demo_target (i : nat) (name : string) (from to : N) (doc : option (N * N)) (op : EditOperation) : Target :=
  (i, mkResolvedEdit (bs "m.js") (mkSymbol (bs name) Function 0 0 (from, to) (0, 0)%N doc None)
        (mkSingleEdit (bs "m.js") (bs name) None None op None) JavaScript).

Definition demo_js (content : list byte) : IndexedFile := parsed_file JavaScript content [] [].

(** No Rust item here: any tree will do. *)
#[local] Existing Instance demo_trees.

Definition staged_text (file : IndexedFile) (ts : list Target) : Outcome (Result (list byte) BatchError) :=
  positions ←? validate_file (bs "m.js") file ts ∅;
  '(content, _) ←? stage_content (bs "m.js") positions (sort_by reverse_offset ts) (f_content file);
  mret (Ok content).

(** Two symbols on one line: the insertion before the second goes to the start of the line,
    above the first, and the checks see no overlap.  The first symbol's own edit is then
    staged at its captured position, in the middle of the inserted text. *)
Theorem insertion_shifts_accepted_edit :
  staged_text (demo_js (bs "  aa bb" ++ [x0a]))
    [demo_target 0 "a" 2 4 None (InsertAfter (bs "X")); demo_target 1 "b" 5 7 None (InsertBefore (bs "YYYY"))] =
  Done (Ok (bs "  YY" ++ [x0a; x0a] ++ bs "  XYY" ++ [x0a; x0a] ++ bs "  aa bb" ++ [x0a])).
Proof. vm_compute. reflexivity. Qed.

(** A replacement without docs is checked on the line of the symbol and spliced from the line
    of its docs: a neighbour on that line is accepted as disjoint and destroyed. *)
Theorem replacement_exceeds_checked_footprint :
  staged_text (demo_js (bs "aa /// d" ++ [x0a] ++ bs "bb" ++ [x0a]))
    [demo_target 0 "a" 0 2 None (InsertAfter (bs "X")); demo_target 1 "b" 9 11 (Some (3, 8)%N) (Replace (bs "zz"))] =
  Done (Ok (bs "zz" ++ [x0a; x0a] ++ bs "X" ++ [x0a])).
Proof. vm_compute. reflexivity. Qed.

(** The same request as a single replacement keeps the docs. *)
Theorem batch_replacement_drops_docs :
  let content := bs "/// d" ++ [x0a] ++ bs "bb" ++ [x0a] in
  let sym := mkSymbol (bs "b") Function 0 0 (6, 8)%N (0, 0)%N (Some (0, 5)%N) None in
  prepare_replace content sym (bs "zz") = Done (Ok (mkPrepared (bs "/// d" ++ [x0a] ++ bs "zz" ++ [x0a]) 2 2)) ∧
  staged_text (demo_js content) [demo_target 0 "b" 6 8 (Some (0, 5)%N) (Replace (bs "zz"))] = Done (Ok (bs "zz" ++ [x0a])).
Proof. split; vm_compute; reflexivity. Qed.

(** A checkout with [\r\n] passes the guard of a rerouted target, and is then replaced by text
    staged from the indexed copy: every line ending of the file changes. *)
Theorem checkout_endings_are_replaced :
  let indexed := bs "aa" ++ [x0a] ++ bs "bb" ++ [x0a] in
  let checkout := bs "aa" ++ [x0d; x0a] ++ bs "bb" ++ [x0d; x0a] in
  guard_batch_reroute_divergence (λ _, Some checkout) (mkResolvedTarget [] [] true) indexed (bs "m.js") = Ok checkout ∧
  staged_text (demo_js indexed) [demo_target 0 "a" 0 2 None (EditWithin (bs "aa") (bs "cc"))] =
    Done (Ok (bs "cc" ++ [x0a] ++ bs "bb" ++ [x0a])).
Proof. split; vm_compute; reflexivity. Qed.

(** ** Witnesses *)

Definition demo_content : list byte :=
  bs "aa" ++ [x0a; x0a] ++ bs "bb" ++ [x0a; x0a] ++ bs "cc" ++ [x0a; x0a] ++ bs "dd" ++ [x0a].

Definition demo_edits : list Target :=
  [demo_target 0 "a" 0 2 None (InsertAfter (bs "x")); demo_target 1 "b" 4 6 None (EditWithin (bs "b") (bs "BBB"));
   demo_target 2 "c" 8 10 None (InsertBefore (bs "y")); demo_target 3 "d" 12 14 None (Replace (bs "zz"))].

Definition demo_deleting : list Target :=
  [demo_target 0 "a" 0 2 None (InsertAfter (bs "x")); demo_target 1 "b" 4 6 None (EditWithin (bs "b") (bs "BBB"));
   demo_target 2 "c" 8 10 None Delete; demo_target 3 "d" 12 14 None (Replace (bs "zz"))].

Lemma small_length (content : list byte) : length content < 100 → length content < pos u32_modulus.
Proof. unfold u32_modulus. lia. Qed.

Ltac demo_span :=
  split; [split_and!; [vm_compute; discriminate|vm_compute; lia|apply small_length; vm_compute; lia]|];
  split; [vm_compute; split; [discriminate|reflexivity]|]; split; [eexists; split; vm_compute; reflexivity|];
  split; [vm_compute; discriminate|].

Lemma demo_edits_sound : sound_targets (demo_js demo_content) demo_edits.
Proof.
  split.
  - unfold demo_edits. rewrite !Forall_cons, Forall_nil. split_and!; [..|done]; unfold captured_at, demo_target;
      cbn [sym_of re_sym snd s_byte_range operation re_edit se_operation]; demo_span.
    + eexists. split_and!; [vm_compute; reflexivity|discriminate|discriminate].
    + done.
    + done.
    + eexists. split; vm_compute; reflexivity.
  - intros t u Ht Hu Hne. unfold demo_edits in Ht, Hu.
    repeat (apply elem_of_cons in Ht as [->|Ht]); [..|by apply elem_of_nil in Ht]; try exact I.
    repeat (apply elem_of_cons in Hu as [->|Hu]); [..|by apply elem_of_nil in Hu]; try done; intros Hle;
      first [by vm_compute; lia|by exfalso; apply Hle; vm_compute].
  - apply (bool_decide_unpack _). vm_compute. exact I.
Qed.

Lemma demo_deleting_sound : sound_targets (demo_js demo_content) demo_deleting.
Proof.
  split.
  - unfold demo_deleting. rewrite !Forall_cons, Forall_nil. split_and!; [..|done]; unfold captured_at, demo_target;
      cbn [sym_of re_sym snd s_byte_range operation re_edit se_operation]; demo_span.
    + eexists. split_and!; [vm_compute; reflexivity|discriminate|discriminate].
    + done.
    + done.
    + eexists. split; vm_compute; reflexivity.
  - intros t u Ht _ _. unfold demo_deleting in Ht.
    repeat (apply elem_of_cons in Ht as [->|Ht]); [..|by apply elem_of_nil in Ht]; exact I.
  - apply (bool_decide_unpack _). vm_compute. exact I.
Qed.

Definition accepted (r : Outcome (Result Positions BatchError)) : Positions :=
  match r with Done (Ok m) => m | _ => ∅ end.

(** The positions of a batch and its text after the first [n] edits. *)
Definition demo_positions (ts : list Target) : Positions :=
  accepted (validate_file (bs "m.js") (demo_js demo_content) ts ∅).
Definition demo_staged (ts : list Target) (n : nat) : list byte * list str :=
  match stage_edits (bs "m.js") Lf (demo_positions ts) (take n (sort_by reverse_offset ts)) demo_content [] with
  | Done (Ok r) => r
  | _ => ([], [])
  end.

(** The last symbol is replaced and the third deleted with its clean-up; the second still
    finds its text. *)
Lemma edits_find_their_text_witness :
  (demo_staged demo_deleting 2).1 ≠ demo_content ∧ take 6 (demo_staged demo_deleting 2).1 = take 6 demo_content.
Proof.
  split; [vm_compute; discriminate|].
  apply (edits_find_their_text (demo_js demo_content) (bs "m.js") demo_deleting ∅
    (demo_positions demo_deleting) (demo_positions demo_deleting)
    (take 2 (sort_by reverse_offset demo_deleting)) (demo_target 1 "b" 4 6 None (EditWithin (bs "b") (bs "BBB")))
    [demo_target 0 "a" 0 2 None (InsertAfter (bs "x"))] _ (demo_staged demo_deleting 2).2 demo_deleting_sound).
  - vm_compute. reflexivity.
  - done.
  - vm_compute. reflexivity.
  - vm_compute. reflexivity.
Defined.

Lemma batch_edits_at_once_witness :
  let file := demo_js demo_content in
  ∃ texts, Forall2 (makes file) (sort_by reverse_offset demo_edits) texts ∧
    bs "aa" ++ [x0a; x0a] ++ bs "x" ++ [x0a; x0a] ++ bs "BBBb" ++ [x0a; x0a] ++ bs "y" ++ [x0a] ++ bs "cc" ++
      [x0a; x0a] ++ bs "zz" ++ [x0a] =
    weave file 0 (reverse (zip_with (splice_of file) (sort_by reverse_offset demo_edits) texts)).
Proof.
  apply (batch_edits_at_once (demo_js demo_content) (bs "m.js") demo_edits ∅
    (demo_positions demo_edits) (demo_positions demo_edits) _ (demo_staged demo_edits 4).2 demo_edits_sound).
  - unfold demo_edits. rewrite !Forall_cons, Forall_nil. by split_and!.
  - vm_compute. reflexivity.
  - done.
  - vm_compute. reflexivity.
Defined.
