(* ===== verification/BatchAnswer.v ===== *)
(** * The answer of a batch edit

    From the staging of one file ([BatchStaging]) and the staged commit ([BatchCommit]) to
    the whole of [execute_batch_edit]: what the disk and the index hold after each of its
    answers, on files that nobody else writes ([QuietIo]). *)

From Stdlib Require Import Lia Strings.Byte.
From stdpp Require Import base gmap sets list strings numbers option sorting.
From S2P Require Import Prelude Slices Text Domain Classification LiveIndex RustPrefix Structural BatchCommit BatchEdit BatchStaging.

#[global] Set Default Goal Selector "!".

(** ** The buckets *)

Lemma by_file_entry resolved path ts :
  by_file resolved !! path = Some ts →
  ts = filter (λ t : Target, re_path t.2 = path) (imap (λ i r, (i, r)) resolved).
Proof.
  unfold by_file. rewrite group_lookup. unfold group_of.
  assert (E : snd <$> filter (λ e : str * Target, e.1 = path)
      ((λ t : Target, (re_path t.2, t)) <$> imap (λ i r, (i, r)) resolved) =
    filter (λ t : Target, re_path t.2 = path) (imap (λ i r, (i, r)) resolved)).
  { generalize (imap (λ i r, (i, r)) resolved). intros l. induction l as [|t l IH]; [done|].
    rewrite fmap_cons, !filter_cons. simpl. case_decide; [|done]. rewrite fmap_cons. simpl. by rewrite IH. }
  rewrite E. generalize (filter (λ t : Target, re_path t.2 = path) (imap (λ i r, (i, r)) resolved)).
  intros [|t l]; [done|]. by intros [= <-].
Qed.

Lemma imap_pairs_fst {A} (l : list A) k : (imap (λ i r, (k + i, r)) l).*1 = seq k (length l).
Proof.
  revert k. induction l as [|a l IH]; intros k; [done|]. simpl. f_equal; [lia|]. rewrite <-IH. f_equal.
  apply imap_ext. intros i x _. simpl. f_equal. lia.
Qed.

Lemma by_file_target resolved path ts t :
  by_file resolved !! path = Some ts → t ∈ ts → re_path t.2 = path ∧ resolved !! t.1 = Some t.2.
Proof.
  intros ->%by_file_entry [Hp Hin]%list_elem_of_filter. split; [done|].
  apply elem_of_lookup_imap in Hin as (i & r & -> & Hr). done.
Qed.

Lemma by_file_indices resolved path ts : by_file resolved !! path = Some ts → NoDup ts.*1.
Proof.
  intros ->%by_file_entry. eapply (sublist_NoDup _ (imap (λ i r, (i, r)) resolved).*1).
  - pose proof (imap_pairs_fst resolved 0) as E. simpl in E. rewrite E. apply NoDup_seq.
  - apply fmap_sublist, sublist_filter.
Qed.

Section validation.
Context {trees : RustTrees}.

(** Every bucket was accepted, and its positions are still known at the end. *)
Lemma validate_all_ok source_files resolved buckets m0 m :
  Forall (λ b, by_file resolved !! b.1 = Some b.2) buckets → NoDup buckets.*1 →
  validate_all_files source_files buckets m0 = Done (Ok m) →
  (∀ i, (∀ b, b ∈ buckets → i ∉ b.2.*1) → m !! i = m0 !! i) ∧
  Forall (λ b : str * list Target, ∃ file m1 m2, source_files !! b.1 = Some file ∧
    validate_file b.1 file b.2 m1 = Done (Ok m2) ∧ ∀ t, t ∈ b.2 → m !! t.1 = m2 !! t.1) buckets.
Proof.
  revert m0. induction buckets as [|[path ts] buckets IH]; intros m0; simpl.
  { intros _ _ [= <-]. split; [done|constructor]. }
  intros [Hb Hbs]%Forall_cons [Hn Hnd]%NoDup_cons. destruct (source_files !! path) as [file|] eqn:Ef; [|done].
  unfold try. rewrite Outcome_bind_Done. intros ([m2|] & Hv & H); [|done].
  destruct (IH m2 Hbs Hnd H) as [Hkeep Hall]. split.
  - intros i Hi. rewrite Hkeep by (intros b Hb'; apply Hi; set_solver).
    eapply validate_touches; [exact Hv|]. apply (Hi (path, ts)). set_solver.
  - constructor; [|done]. exists file, m0, m2. split_and!; [done|done|]. intros t Ht. apply Hkeep.
    intros [path' ts'] Hb' Hin. simpl in Hin. rewrite Forall_forall in Hbs. specialize (Hbs _ Hb'). simpl in *.
    apply list_elem_of_fmap in Hin as (t' & Et & Ht').
    destruct (by_file_target _ _ _ _ Hb Ht) as [<- Hr]. destruct (by_file_target _ _ _ _ Hbs Ht') as [Hp' Hr'].
    rewrite Et, Hr' in Hr. injection Hr as Hr. apply Hn, list_elem_of_fmap. exists (path', ts'). split; [|done].
    simpl. by rewrite <-Hp', Hr.
Qed.
End validation.

Section answers.
Context `{!CaseTables} {W Report : Type} `{!BatchIo W Report, !QuietIo W Report}.
Context (canonicalize : PathBuf → CanonicalizeResult).
Context {trees : RustTrees}.
Context (read : W → PathBuf → option (list byte)) (path_of : str → PathBuf) (display : PathBuf → str).
Context (safe_repo_path : str → Result PathBuf str).
Context (resolve_target : str → PathBuf → option str → Result ResolvedTarget str).
Context (after_commit : StagedFile → W → W) (response_hint : Report → option str).
Context (publishable : str → LanguageId → list byte → bool).
Context (process_file : str → list byte → LanguageId → FileProcessingResult).
Context (mtime_secs : W → PathBuf → N) (allocate : LiveIndex → N).
Context (hash_order : gmap str (list Target) → list (str * list Target)).

Abbreviation staging := (stage_batch read safe_repo_path resolve_target hash_order).
Abbreviation run := (execute_batch_edit canonicalize read path_of display safe_repo_path
  resolve_target after_commit response_hint publishable process_file mtime_secs allocate hash_order).
Abbreviation disk_place := (λ f, target (image_of path_of f)).

(** ** What was staged *)

Context (Horder : ∀ m, hash_order m ≡ₚ map_to_list m).

Lemma finish_stage_ok w path file dir language content summaries f :
  finish_stage read safe_repo_path resolve_target w path file dir language content summaries = Ok f →
  sf_path f = path ∧ sf_new_content f = content ∧ sf_summaries f = summaries.
Proof. unfold finish_stage. repeat (case_match; try done). by intros [= <-]. Qed.

(** A staged file comes from an accepted bucket and from the text that was captured, which
    the index still held when the file was staged. *)
Definition staged_from (l0 : LiveIndex) (index_at : str → LiveIndex) (edits : list SingleEdit) (f : StagedFile)
    (file : IndexedFile) (ts : list Target) : Prop :=
  ∃ resolved source_files m1 m2 positions,
    resolve_edits l0 0 edits ∅ = Ok (resolved, source_files) ∧ by_file resolved !! sf_path f = Some ts ∧
    source_files !! sf_path f = Some file ∧
    (f_content <$> get_file (index_at (sf_path f)) (sf_path f)) = Some (f_content file) ∧
    validate_file (sf_path f) file ts m1 = Done (Ok m2) ∧
    (∀ t, t ∈ ts → positions !! t.1 = m2 !! t.1) ∧
    stage_edits (sf_path f) (detect_line_ending (f_content file)) positions (sort_by reverse_offset ts)
      (f_content file) [] = Done (Ok (sf_new_content f, sf_summaries f)).

Lemma stage_file_ok w index_at source_files positions top b f :
  stage_file read safe_repo_path resolve_target w index_at source_files positions top b = Done (Ok f) →
  sf_path f = b.1 ∧ ∃ file, source_files !! b.1 = Some file ∧
    (f_content <$> get_file (index_at b.1) b.1) = Some (f_content file) ∧
    stage_edits b.1 (detect_line_ending (f_content file)) positions b.2 (f_content file) [] =
      Done (Ok (sf_new_content f, sf_summaries f)).
Proof.
  destruct b as [path ts]. unfold stage_file. destruct (source_files !! path) as [file|] eqn:Ef; [|done].
  destruct ts as [|first ts]; [done|]. destruct (get_file (index_at path) path) as [current|] eqn:Eg; [|done].
  case_decide as Ec; [|done]. unfold try. rewrite Outcome_bind_Done. intros ([[content ss]|] & Hst & Hk); [|done].
  injection Hk as Hk. apply finish_stage_ok in Hk as (-> & -> & ->). split; [done|]. exists file. simpl. rewrite Eg. simpl.
  split_and!; [done|by rewrite Ec|]. unfold stage_content in Hst. by destruct (first_out_of_bounds _ _).
Qed.

Lemma stage_batch_ok l0 index_at w0 edits top staged f :
  staging l0 index_at w0 edits top = Done (Ok staged) → f ∈ staged →
  ∃ file ts, staged_from l0 index_at edits f file ts.
Proof.
  unfold stage_batch. destruct (resolve_edits l0 0 edits ∅) as [[resolved sources]|] eqn:Er; [|done].
  unfold try. rewrite Outcome_bind_Done. intros ([positions|] & Hv & Hk) Hf; [|done].
  apply collect_ok in Hk. apply list_elem_of_lookup in Hf as [i Hi].
  destruct (Forall2_lookup_r _ _ _ _ _ Hk Hi) as (b & Hb & Hst). clear Hk Hi.
  apply stage_file_ok in Hst as (Ep & file & Hs & Hg & Hst).
  apply list_elem_of_lookup_2 in Hb. rewrite sort_by_Permutation in Hb.
  apply list_elem_of_fmap in Hb as ([path ts] & -> & Hb). simpl in *. apply elem_of_map_to_list in Hb as Hlk.
  apply (validate_all_ok sources resolved) in Hv as [_ Hall].
  - rewrite Forall_forall in Hall. destruct (Hall (path, ts)) as (file' & m1 & m2 & Hs' & Hv & Hm); [by rewrite Horder|].
    simpl in *. rewrite Hs in Hs'. injection Hs' as <-. exists file, ts. unfold staged_from. rewrite Ep.
    eexists resolved, sources, m1, m2, positions. split_and!; done.
  - apply Forall_forall. intros [p' ts'] Hin. rewrite Horder in Hin. by apply elem_of_map_to_list in Hin.
  - rewrite Horder. apply NoDup_fst_map_to_list.
Qed.

(** ** What the disk holds *)

Context (Hafter : ∀ f w p, view (after_commit f w) p = view w p).
Context (Htarget : ∀ a b : StagedImage, target a = target b → si_absolute a = si_absolute b).

Lemma publish_view reports i staged l w p :
  view (publish read display after_commit response_hint publishable process_file mtime_secs allocate
          reports i staged l w).2.2 p = view w p.
Proof.
  revert i l w. induction staged as [|f staged IH]; intros i l w; [done|]. simpl.
  destruct (publish _ _ _ _ _ _ _ _ _ _ _ _ _) as [rest s] eqn:E. simpl.
  specialize (IH (S i) (reindex_after_write read publishable process_file mtime_secs allocate w (sf_abs_path f) (sf_path f) (sf_language f) l) (after_commit f w)). rewrite E in IH. simpl in IH. by rewrite IH.
Qed.

Lemma batch_edit_spec l0 index_at w0 edits dry_run top l w answer l' w' :
  run l0 index_at w0 edits dry_run top l w = Done (answer, (l', w')) →
  match answer with
  | Ok (_, written) =>
      if dry_run : bool then l' = l ∧ w' = w ∧ written = []
      else ∃ staged, staging l0 index_at w0 edits top = Done (Ok staged) ∧ written = sf_abs_path <$> staged ∧
        (∀ f, f ∈ staged → view w (disk_place f) = Some (sf_original f) ∧
                           view w' (disk_place f) = Some (sf_new_content f)) ∧
        ∀ p, p ∉ disk_place <$> staged → view w' p = view w p
  | Err e => l' = l ∧
      match e with
      | RollbackIncomplete _ _ _ => ∀ p, view w' p ≠ view w p →
          ∃ staged, staging l0 index_at w0 edits top = Done (Ok staged) ∧ p ∈ disk_place <$> staged
      | _ => ∀ p, view w' p = view w p
      end
  end.
Proof.
  unfold execute_batch_edit. rewrite Outcome_bind_Done. intros ([staged|e] & Hst & Hk).
  2: { injection Hk as <- <- <-. split; [done|]. by destruct e. }
  destruct dry_run; [by injection Hk as <- <- <-|]. unfold commit_batch in Hk.
  destruct (commit_staged canonicalize (image_of path_of <$> staged) None w) as [r w1] eqn:Ec.
  apply commit_staged_spec in Ec; [|intros a b _ _; apply Htarget]. destruct r as [reports|a].
  - destruct (publish _ _ _ _ _ _ _ _ _ _ _ _ _) as [ss s] eqn:Ep. injection Hk as <- Hs. destruct Ec as (_ & Hall & Hrest).
    pose proof (publish_view reports 0 staged l w1) as Hv. rewrite Ep in Hv. subst s. simpl in Hv.
    exists staged. split_and!; [done|done| |].
    + intros f Hf. rewrite Hv. apply (Hall (image_of path_of f)). by apply list_elem_of_fmap_2.
    + intros p Hp. rewrite Hv. apply Hrest. by rewrite <-list_fmap_compose.
  - destruct Ec as [Hsame Hacc]. destruct (abort_error staged a) as [e|] eqn:Ea; [|done].
    injection Hk as <- <- <-. split; [done|].
    assert (Hp : ∀ p, view w1 p ≠ view w p → p ∈ disk_place <$> staged).
    { intros p (i & image & _ & Him & <-)%Hacc. apply list_lookup_fmap_Some in Him as (f & -> & Hf).
      apply list_elem_of_fmap. exists f. split; [done|]. by eapply list_elem_of_lookup_2. }
    destruct a as [i|i|? ? u|i reason restored [|u us]]; simpl in Ea; simplify_eq; try by apply Hsame.
    intros p Hne. exists staged. split; [done|]. by apply Hp.
Qed.

(** A batch edit writes all its files or says what it left.  A dry run changes neither
    the disk nor the index.  A batch that answers with written paths has staged them:
    every target held the bytes the batch was staged against, holds its new text now, and no
    other file changed.  A refusal leaves the index as it was; the disk too, unless it
    says that the roll-back is incomplete, and then only targets of the batch may differ. *)
Theorem batch_edit_or_nothing l0 index_at w0 edits dry_run top l w answer l' w' :
  run l0 index_at w0 edits dry_run top l w = Done (answer, (l', w')) →
  match answer with
  | Ok (_, written) =>
      if dry_run : bool then l' = l ∧ w' = w ∧ written = []
      else ∃ staged, staging l0 index_at w0 edits top = Done (Ok staged) ∧ written = sf_abs_path <$> staged ∧
        (∀ f, f ∈ staged → view w (disk_place f) = Some (sf_original f) ∧
                           view w' (disk_place f) = Some (sf_new_content f)) ∧
        ∀ p, p ∉ disk_place <$> staged → view w' p = view w p
  | Err e => l' = l ∧
      match e with
      | RollbackIncomplete _ _ _ => ∀ p, view w' p ≠ view w p →
          ∃ staged, staging l0 index_at w0 edits top = Done (Ok staged) ∧ p ∈ disk_place <$> staged
      | _ => ∀ p, view w' p = view w p
      end
  end.
Proof. apply batch_edit_spec. Qed.

Lemma staged_paths l0 index_at w0 edits top staged resolved source_files :
  staging l0 index_at w0 edits top = Done (Ok staged) → resolve_edits l0 0 edits ∅ = Ok (resolved, source_files) →
  sf_path <$> staged ≡ₚ (map_to_list (by_file resolved)).*1.
Proof.
  intros Hst Er. unfold stage_batch in Hst. rewrite Er in Hst. unfold try in Hst. rewrite Outcome_bind_Done in Hst.
  destruct Hst as ([positions|] & _ & Hc); [|done]. apply collect_ok in Hc.
  trans ((sort_by (by_key fst str_le) (prod_map id (sort_by reverse_offset) <$> map_to_list (by_file resolved))).*1).
  - apply reflexive_eq. induction Hc as [|b f bs fs Hb _ IH]; [done|]. rewrite !fmap_cons, IH. f_equal.
    by apply stage_file_ok in Hb as [-> _].
  - rewrite sort_by_Permutation, <-list_fmap_compose. apply reflexive_eq, list_fmap_ext. by intros i [].
Qed.


(** C14: a batch edit that answers has made exactly the requested edits.  An answer to a call
    that is not a dry run means: every file with a target was staged, its text in the index
    had not changed since the targets were resolved, and the disk now holds that text with
    the footprint of every target replaced by what its edit computes from it, all edits of
    the file at once.  Conditions: no edit is a deletion; while the call runs nobody else
    writes the files ([QuietIo]), the hooks after the commit leave them alone, and different
    paths are different files; and the targets of every file are [sound_targets]: the file is
    below 4 GiB, a symbol with its docs is a non-empty range of it, its first byte is not
    white space and its span does not begin with a semicolon, after an [InsertAfter] target
    comes a byte that is neither a blank nor a tab, the range checked for a replacement begins
    on the line that its splice begins on, and a target that begins no later than an
    [InsertBefore] target ends before the line on which that inserts. *)
Theorem batch_edit_writes l0 index_at w0 edits top l w summaries written l' w' resolved source_files :
  run l0 index_at w0 edits false top l w = Done (Ok (summaries, written), (l', w')) →
  resolve_edits l0 0 edits ∅ = Ok (resolved, source_files) →
  (∀ path ts file, by_file resolved !! path = Some ts → source_files !! path = Some file →
     sound_targets file ts ∧ Forall (λ t, operation t ≠ Delete) ts) →
  ∃ staged, sf_path <$> staged ≡ₚ (map_to_list (by_file resolved)).*1 ∧ written = sf_abs_path <$> staged ∧
    ∀ f, f ∈ staged → ∃ file ts texts,
      by_file resolved !! sf_path f = Some ts ∧ source_files !! sf_path f = Some file ∧
      (f_content <$> get_file (index_at (sf_path f)) (sf_path f)) = Some (f_content file) ∧
      Forall2 (makes file) (sort_by reverse_offset ts) texts ∧
      view w' (disk_place f) =
        Some (weave file 0 (reverse (zip_with (splice_of file) (sort_by reverse_offset ts) texts))).
Proof.
  intros Hrun Er Hsound. apply batch_edit_spec in Hrun as (staged & Hst & Hw & Hf & _). exists staged.
  split_and!; [by eapply staged_paths|done|]. intros f Hin.
  destruct (stage_batch_ok _ _ _ _ _ _ _ Hst Hin) as (file & ts & r' & s' & m1 & m2 & ps & Er' & Hts & Hfile & Hg & Hv & Hm & Hse).
  rewrite Er in Er'. injection Er' as <- <-. destruct (Hsound _ _ _ Hts Hfile) as [Hs Hd].
  destruct (staged_at_once file (sf_path f) ts m1 m2 ps _ _ Hs Hd Hv Hm Hse) as (texts & Hm' & Eo).
  exists file, ts, texts. split_and!; [done..|]. rewrite <-Eo. by apply Hf.
Qed.
End answers.

(** ** Witnesses *)

#[local] Instance demo_lower : CaseTables := lowercase.
#[local] Existing Instance demo_trees.

Definition demo_symbol (name : string) (from to : N) : SymbolRecord :=
  mkSymbol (bs name) Function 0 0 (from, to) (0, 0)%N None None.

Definition demo_source : IndexedFile :=
  parsed_file JavaScript demo_content [demo_symbol "a" 0 2; demo_symbol "b" 4 6; demo_symbol "c" 8 10; demo_symbol "d" 12 14] [].

Definition demo_live : LiveIndex := reloaded [(bs "m.js", mkRow 1 demo_source)] [].

Definition demo_request : list SingleEdit :=
  [mkSingleEdit (bs "m.js") (bs "a") None None (InsertAfter (bs "x")) None;
   mkSingleEdit (bs "m.js") (bs "b") None None (EditWithin (bs "b") (bs "BBB")) None;
   mkSingleEdit (bs "m.js") (bs "c") None None (InsertBefore (bs "y")) None;
   mkSingleEdit (bs "m.js") (bs "d") None None (Replace (bs "zz")) None].

Definition demo_path (p : str) : PathBuf := [String.string_of_list_byte p].
Definition demo_parse (path : str) (content : list byte) (language : LanguageId) : FileProcessingResult :=
  mkParseResult path language (for_code_path path) Processed None [] (N.of_nat (length content)) [] [] [].

(** A disk that takes [n] writes. *)
Definition demo_world (n : nat) : MapWorld := mkWorld {[ demo_path (bs "m.js") := demo_content ]} n.

Definition demo_run (dry_run : bool) (n : nat) :
    Outcome (Result (list str * list PathBuf) BatchError * (LiveIndex * MapWorld)) :=
  execute_batch_edit plain_path (λ w p, mw_files w !! p) demo_path (λ _, []) (λ p, Ok (demo_path p))
    (λ _ abs _, Ok (mkResolvedTarget abs abs false)) (λ _ w, w) (λ _, None) (λ _ _ _, true) demo_parse (λ _ _, 0%N)
    (λ _, 2%N) map_to_list demo_live (λ _, demo_live) (demo_world n) demo_request dry_run None demo_live (demo_world n).

Definition demo_result : list byte :=
  bs "aa" ++ [x0a; x0a] ++ bs "x" ++ [x0a; x0a] ++ bs "BBBb" ++ [x0a; x0a] ++ bs "y" ++ [x0a] ++ bs "cc" ++
  [x0a; x0a] ++ bs "zz" ++ [x0a].

Definition demo_answer (dry_run : bool) (n : nat) : option (Result (list str * list PathBuf) BatchError) :=
  match demo_run dry_run n with Done (r, _) => Some r | Panic => None end.
Definition demo_disk_after (dry_run : bool) (n : nat) : option (list byte) :=
  match demo_run dry_run n with Done (_, (_, w)) => mw_files w !! demo_path (bs "m.js") | Panic => None end.

(** A full disk: the answer is a refusal and the file is as it was. *)
Lemma batch_edit_or_nothing_witness :
  demo_disk_after false 5 = Some demo_result ∧ demo_disk_after true 5 = Some demo_content ∧
  (∃ e l' w', demo_run false 0 = Done (Err e, (l', w')) ∧ l' = demo_live ∧ ∀ p, view w' p = view (demo_world 0) p).
Proof.
  split; [vm_compute; reflexivity|]. split; [vm_compute; reflexivity|].
  destruct (demo_run false 0) as [[[a|e] [l' w']]|] eqn:E.
  - assert (Hx : demo_answer false 0 = Some (Ok a)) by (unfold demo_answer; by rewrite E). vm_compute in Hx. discriminate.
  - assert (He : demo_answer false 0 = Some (Err e)) by (unfold demo_answer; by rewrite E).
    assert (Hr : demo_answer false 0 = Some (Err (RolledBack (bs "m.js") "disk full" 0))) by (vm_compute; reflexivity).
    rewrite He in Hr. injection Hr as Hr.
    exists e, l', w'. split; [done|]. unfold demo_run in E.
    eapply batch_edit_or_nothing in E; [|done|done]. by subst e.
  - assert (Hx : demo_answer false 0 = None) by (unfold demo_answer; by rewrite E). vm_compute in Hx. discriminate.
Defined.

(** What the resolution of the demo gives: one bucket, with the targets of [demo_edits]. *)
Definition demo_resolved : list ResolvedEdit :=
  match resolve_edits demo_live 0 demo_request ∅ with Ok (r, _) => r | Err _ => [] end.
Definition demo_sources : gmap str IndexedFile :=
  match resolve_edits demo_live 0 demo_request ∅ with Ok (_, m) => m | Err _ => ∅ end.

Lemma demo_bucket path ts :
  by_file demo_resolved !! path = Some ts → ts = demo_edits.
Proof.
  intros H%elem_of_map_to_list.
  assert (E : map_to_list (by_file demo_resolved) = [(bs "m.js", demo_edits)]) by (vm_compute; reflexivity).
  rewrite E in H. apply list_elem_of_singleton in H. congruence.
Qed.

Lemma demo_source_file path file : demo_sources !! path = Some file → file = demo_source.
Proof.
  intros H%elem_of_map_to_list.
  assert (E : map_to_list demo_sources = [(bs "m.js", demo_source)]) by (vm_compute; reflexivity).
  rewrite E in H. apply list_elem_of_singleton in H. congruence.
Qed.

Lemma demo_source_sound : sound_targets demo_source demo_edits.
Proof. destruct demo_edits_sound as [H1 H2 H3]. split; [exact H1|exact H2|exact H3]. Qed.

Lemma batch_edit_writes_witness :
  ∃ summaries written l' w' staged, demo_run false 5 = Done (Ok (summaries, written), (l', w')) ∧
    written = sf_abs_path <$> staged ∧
    ∀ f, f ∈ staged → ∃ texts, Forall2 (makes demo_source) (sort_by reverse_offset demo_edits) texts ∧
      view w' (target (image_of demo_path f)) =
        Some (weave demo_source 0 (reverse (zip_with (splice_of demo_source) (sort_by reverse_offset demo_edits) texts))).
Proof.
  destruct (demo_run false 5) as [[[[summaries written]|e] [l' w']]|] eqn:E.
  - exists summaries, written, l', w'. unfold demo_run in E.
    eapply batch_edit_writes in E as (staged & _ & Hw & Hf).
    + exists staged. split; [done|]. split; [exact Hw|]. intros f Hin.
      destruct (Hf f Hin) as (file & ts & texts & ->%demo_bucket & ->%demo_source_file & _ & Hm & Hv). by exists texts.
    + done.
    + done.
    + done.
    + vm_compute. reflexivity.
    + intros path ts file ->%demo_bucket ->%demo_source_file. split; [apply demo_source_sound|].
      unfold demo_edits. rewrite !Forall_cons, Forall_nil. by split_and!.
  - assert (Hx : demo_answer false 5 = Some (Err e)) by (unfold demo_answer; by rewrite E). vm_compute in Hx. discriminate.
  - assert (Hx : demo_answer false 5 = None) by (unfold demo_answer; by rewrite E). vm_compute in Hx. discriminate.
Defined.
