(* ===== verification/Rename.v ===== *)
(** * Renaming a symbol everywhere (edit_safety/rename.rs)

    A rename collects the places that name a symbol: its definition, the references of the
    index, and the qualified paths of a byte scan.  When several definitions share the
    name, a place is written only if its qualifier is the owner of the target and that
    owner is unique; the other places are only shown.  The collected ranges of a file are
    sorted from the end, checked against the text and for overlaps, and spliced in that
    order (index_lifecycle/embed_batch.rs and protocol/edit.rs apply them).

    The theorems: a file is rewritten at exactly the collected ranges that hold the old
    name and nowhere else; what a plan may write when the name is ambiguous.  Two examples
    show places that are written and should not be.

    The walk over the file map is [order], as in [References]. *)

From Stdlib Require Import Lia Strings.Byte.
From stdpp Require Import base gmap sets list strings numbers option sorting pretty.
From S2P Require Import Prelude Slices Text Domain Classification Disambiguation LiveIndex References QualifiedUsages Structural.

#[global] Set Default Goal Selector "!".

Notation range := (N * N)%type.

Record RenamePlanInput := mkRenameInput { rp_path : str; rp_name : str; rp_code_only : bool }.

Record RenamePlan := mkRenamePlan {
  by_file : gmap str (list range);
  uncertain_lines : list str;
  plan_language : LanguageId;
}.

Inductive RenameError :=
| NameEmpty
| SpanStale
| NameNotInBody
| FileDisappeared (path : str)
| OverlappingRanges (path : str) (curr prev : range).

(** ** The ranges of one file *)

(** Descending by start, then by end. *)
Definition range_ge (a b : range) : Prop := (b.1 < a.1)%N ∨ (a.1 = b.1 ∧ (b.2 ≤ a.2)%N).

#[global] Instance range_ge_dec : RelDecision range_ge.
Proof. unfold range_ge. intros a b. apply _. Defined.

Definition holds_name (original : list byte) (old_name : str) (r : range) : bool :=
  (r.1 <? r.2)%N && (pos r.2 <=? length original) && bool_decide (between (pos r.1) (pos r.2) original = old_name).

(** The first pair of neighbours [(prev, curr)] where [curr] ends after [prev] starts. *)
Fixpoint overlap (ranges : list range) : option (range * range) :=
  match ranges with
  | prev :: ((curr :: _) as rest) => if (prev.1 <? curr.2)%N then Some (curr, prev) else overlap rest
  | _ => None
  end.

Definition validate_rename_ranges (ranges : list range) (original : list byte) (old_name file_path : str) :
    Result (list range) RenameError :=
  let ranges := dedup (sort_by range_ge ranges) in
  let ranges := filter (λ r, Is_true (holds_name original old_name r)) ranges in
  match overlap ranges with
  | Some (curr, prev) => Err (OverlappingRanges file_path curr prev)
  | None => Ok ranges
  end.

(** The loop that stages one file. *)
Definition apply_ranges (content : list byte) (ranges : list range) (new_name : str) : list byte :=
  fold_left (λ c r, apply_splice c r new_name) ranges content.

(** ** The plan *)

(** Only files of a language that is not configuration. *)
Definition is_code_path (path : str) : bool :=
  match from_extension (rsplit_last (bs ".") path) with
  | None => false
  | Some lang => negb (is_config_language lang)
  end.

Definition in_scope (input : RenamePlanInput) (path : str) : bool := negb (rp_code_only input) || is_code_path path.

Definition immediate_qualifier (qn : str) : option str :=
  match reverse (name_segments qn) with _ :: q :: _ => Some q | _ => None end.

Definition is_ident_byte (b : byte) : bool :=
  bool_decide (b = x5f) || in_range 48 57 b || in_range 65 90 b || in_range 97 122 b.

Fixpoint take_while (f : byte → bool) (s : list byte) : list byte :=
  match s with b :: s => if f b then b :: take_while f s else [] | [] => [] end.
Fixpoint drop_while (f : byte → bool) (s : list byte) : list byte :=
  match s with b :: s' => if f b then drop_while f s' else s | [] => [] end.

Definition qualifier_before (content : list byte) (leaf_start : N) : option str :=
  let leaf := pos leaf_start in
  if (leaf <? 2) || (length content <? leaf) || negb (bool_decide (content !! (leaf - 2) = Some x3a))
     || negb (bool_decide (content !! (leaf - 1) = Some x3a))
  then None
  else
    let ident := reverse (take_while is_ident_byte (reverse (take (leaf - 2) content))) in
    if decide (ident = []) then None else from_utf8 (drop_while is_continuation ident).

Notation Uncertain := (str * N * str)%type.

Definition content_for (file_contents : list (str * list byte)) (path : str) : list byte :=
  match head (filter (λ e, e.1 = path) file_contents) with Some (_, c) => c | None => [] end.

(** A site that is shown instead of written: its path, line and text. *)
Definition demote (file_contents : list (str * list byte)) (path : str) (start : N) : Outcome Uncertain :=
  let text := from_utf8_lossy (content_for file_contents path) in
  prefix ← str_prefix text (Nat.min (pos start) (length text));
  let line := line_breaks prefix + 1 in
  mret (path, as_u32 line, trim (default [] (lines text !! (line - 1)))).

(** Keep the sites that recover, demote the others in order. *)
Fixpoint partition_sites {A} (keep : A → bool) (site : A → str * N) (file_contents : list (str * list byte))
    (sites : list A) (sink : list Uncertain) : Outcome (list A * list Uncertain) :=
  match sites with
  | [] => mret ([], sink)
  | s :: sites =>
      if keep s then
        '(kept, sink) ← partition_sites keep site file_contents sites sink; mret (s :: kept, sink)
      else
        u ← demote file_contents (site s).1 (site s).2;
        partition_sites keep site file_contents sites (sink ++ [u])
  end.

Definition uncertain_le : relation Uncertain := then_le (λ u, u.1.1) str_le (λ a b, (a.1.2 ≤ b.1.2)%N).

#[global] Instance uncertain_le_dec : RelDecision uncertain_le.
Proof.
  unfold uncertain_le. assert (RelDecision (λ a b : Uncertain, (a.1.2 ≤ b.1.2)%N)) by (intros a b; apply _). apply _.
Defined.

Definition render_uncertain (u : Uncertain) : str :=
  bs "  " ++ u.1.1 ++ bs ":" ++ bs (pretty u.1.2) ++ bs "  " ++ u.2.

(** [by_file.iter_mut()]: which of several failing files is reported depends on the order
    of the map, here that of [map_to_list]. *)
Fixpoint validate_all (l : LiveIndex) (name : str) (entries : list (str * list range)) :
    Result (list (str * list range)) RenameError :=
  match entries with
  | [] => Ok []
  | (path, ranges) :: rest =>
      match capture_shared_file l path with
      | None => Err (FileDisappeared path)
      | Some file =>
          match validate_rename_ranges ranges (f_content file) name path with
          | Err e => Err e
          | Ok ranges =>
              match validate_all l name rest with
              | Err e => Err e
              | Ok rest => Ok ((path, ranges) :: rest)
              end
          end
      end
  end.

Section plan.
Context (order : list (str * Row)) (l : LiveIndex) (file : IndexedFile) (sym : SymbolRecord) (input : RenamePlanInput).

Let name := rp_name input.

Definition def_name_range : Result range RenameError :=
  let '(a, b) := s_byte_range sym in
  if decide (pos a ≤ pos b ∧ pos b ≤ length (f_content file)) then
    match find_str name (between (pos a) (pos b) (f_content file)) with
    | Some name_offset =>
        let abs_start := u32_add a (as_u32 name_offset) in
        Ok (abs_start, u32_add abs_start (as_u32 (length name)))
    | None => Err NameNotInBody
    end
  else Err SpanStale.

Definition target_owner : option str := enclosing_impl_owner (f_symbols file) (s_line_range sym).1.

Notation RefSite := (str * range * option str)%type.

Definition ref_sites : list RefSite :=
  filter (λ s, Is_true (in_scope input s.1.1))
    ((λ pr, (pr.1, r_byte_range pr.2, r_qualified_name pr.2)) <$> find_references_for_name order l name None false).

Definition file_contents : list (str * list byte) :=
  (λ e, (e.1, f_content (row_file e.2))) <$> filter (λ e, Is_true (in_scope input e.1)) order.

(** The scan of a non-empty name never runs out of fuel. *)
Definition scanned : Outcome (list QualifiedUsage) := default Panic (collect_qualified_usages name file_contents).

Definition def_count : nat :=
  length (filter (λ s, s_name s = name) (order ≫= λ e, f_symbols (row_file e.2))).

Definition owners_of_defs : list str :=
  order ≫= λ e, omap (λ s, if decide (s_name s = name)
                           then enclosing_impl_owner (f_symbols (row_file e.2)) (s_line_range s).1 else None)
                     (f_symbols (row_file e.2)).

Definition owner_is_unique : bool :=
  match target_owner with
  | Some owner => length (filter (λ o, o = owner) owners_of_defs) =? 1
  | None => false
  end.

Definition recovers (qualifier : option str) : bool :=
  owner_is_unique && match qualifier, target_owner with Some q, Some owner => bool_decide (q = owner) | _, _ => false end.

Definition ref_recovers (s : RefSite) : bool := recovers (qn ← s.2; immediate_qualifier qn).
Definition scan_recovers (s : str * range) : bool :=
  recovers (qualifier_before (content_for file_contents s.1) s.2.1).

Definition build_rename_plan : Outcome (Result RenamePlan RenameError) :=
  if decide (name = []) then mret (Err NameEmpty)
  else match def_name_range with
  | Err e => mret (Err e)
  | Ok def_range =>
      usages ← scanned;
      let confident := (λ u, (qu_file_path u, qu_byte_range u)) <$> filter (λ u, Is_true (qu_confident u)) usages in
      let uncertain := (λ u, (qu_file_path u, qu_line u, qu_context u)) <$>
                         filter (λ u, ¬ Is_true (qu_confident u)) usages in
      '(refs, confident, uncertain) ←
        (if 2 <=? def_count then
           '(refs, uncertain) ← partition_sites ref_recovers (λ s, (s.1.1, s.1.2.1)) file_contents ref_sites uncertain;
           '(confident, uncertain) ← partition_sites scan_recovers (λ s, (s.1, s.2.1)) file_contents confident uncertain;
           mret (refs, confident, uncertain)
         else mret (ref_sites, confident, uncertain));
      let sites := (rp_path input, def_range) :: ((λ s, s.1) <$> refs) ++ confident in
      match validate_all l name (map_to_list (group sites)) with
      | Err e => mret (Err e)
      | Ok entries =>
          let lines := render_uncertain <$> dedup (sort_by uncertain_le uncertain) in
          mret (Ok (mkRenamePlan (list_to_map entries) lines (f_language file)))
      end
  end.

End plan.

(** ** One file is rewritten exactly *)

(** The ranges lie in the content from its end to its start and each holds the name. *)
Fixpoint descending (old_name : str) (content : list byte) (rs : list range) : Prop :=
  match rs with
  | [] => True
  | r :: rest =>
      (r.1 < r.2)%N ∧ pos r.2 ≤ length content ∧ between (pos r.1) (pos r.2) content = old_name ∧
      descending old_name (take (pos r.1) content) rest
  end.

Lemma apply_splice_app a b r new :
  pos r.2 ≤ length a → (r.1 ≤ r.2)%N → apply_splice (a ++ b) r new = apply_splice a r new ++ b.
Proof.
  intros Ha Hr. unfold apply_splice. rewrite !length_app.
  rewrite !(Nat.min_l (pos r.1)), !Nat.max_l, !Nat.min_l by lia.
  rewrite take_app_le, drop_app_le by lia. by rewrite <-!app_assoc.
Qed.

Lemma descending_bound old content rs : descending old content rs → Forall (λ r, pos r.2 ≤ length content ∧ (r.1 < r.2)%N) rs.
Proof.
  revert content. induction rs as [|r rs IH]; intros content; [done|]. intros (H1 & H2 & _ & H3). constructor; [done|].
  apply IH in H3. eapply Forall_impl; [exact H3|]. simpl. intros q [Hq ?]. rewrite length_take in Hq. split; [lia|done].
Qed.

Lemma apply_splice_length r a new : pos r.2 ≤ length a → (r.1 ≤ r.2)%N →
  apply_splice a r new = take (pos r.1) a ++ new ++ drop (pos r.2) a.
Proof. intros. unfold apply_splice. by rewrite (Nat.min_l (pos r.1)), Nat.max_l, Nat.min_l by lia. Qed.

Lemma apply_ranges_app a b old rs new :
  descending old a rs → apply_ranges (a ++ b) rs new = apply_ranges a rs new ++ b.
Proof.
  revert a b. induction rs as [|r rs IH]; intros a b; [done|]. intros (H1 & H2 & H3 & H4).
  change (apply_ranges (apply_splice (a ++ b) r new) rs new = apply_ranges (apply_splice a r new) rs new ++ b).
  rewrite apply_splice_app by lia. rewrite apply_splice_length by lia. rewrite <-!app_assoc. rewrite !(IH (take (pos r.1) a)) by done. by rewrite <-!app_assoc.
Qed.

Lemma piece_starts_snoc p n ps x :
  ps ≠ [] → ∀ pat, length pat = n → piece_starts p n (ps ++ [x]) = piece_starts p n ps ++ [p + length (join pat ps)].
Proof.
  intros Hne pat Hn. revert p. induction ps as [|a [|b ps] IH]; intros p; [done|done|].
  change ((a :: b :: ps) ++ [x]) with (a :: b :: (ps ++ [x])). rewrite !piece_starts_cons, join_cons2.
  change (b :: ps ++ [x]) with ((b :: ps) ++ [x]). rewrite IH by done. simpl. do 3 f_equal. rewrite !length_app. lia.
Qed.

(** The old text cut at the ranges, and the new text joined over the same pieces. *)
Lemma apply_ranges_join old new content rs :
  descending old content rs →
  ∃ ps, ps ≠ [] ∧ content = join old ps ∧ apply_ranges content rs new = join new ps ∧
    reverse ((λ r, pos r.1) <$> rs) = piece_starts 0 (length old) ps.
Proof.
  revert content. induction rs as [|r rs IH]; intros content.
  { intros _. by exists [content]. }
  intros (H1 & H2 & H3 & H4). destruct (IH _ H4) as (ps & Hne & E1 & E2 & E3).
  exists (ps ++ [drop (pos r.2) content]). split_and!.
  - by destruct ps.
  - rewrite join_app by done. simpl. rewrite <-E1, <-H3. apply between_split. lia.
  - change (apply_ranges (apply_splice content r new) rs new = join new (ps ++ [drop (pos r.2) content])).
    rewrite apply_splice_length by lia. rewrite (apply_ranges_app _ _ old) by done.
    rewrite join_app by done. simpl. by rewrite E2.
  - rewrite fmap_cons, reverse_cons, E3. rewrite (piece_starts_snoc _ _ _ _ Hne old) by done. f_equal. f_equal.
    rewrite <-E1, length_take. lia.
Qed.

Lemma holds_name_spec original old r :
  holds_name original old r = true ↔
  (r.1 < r.2)%N ∧ pos r.2 ≤ length original ∧ between (pos r.1) (pos r.2) original = old.
Proof. unfold holds_name. rewrite !andb_true_iff, N.ltb_lt, Nat.leb_le, bool_decide_eq_true. tauto. Qed.

Lemma between_take i j k (s : list byte) : j ≤ k → between i j (take k s) = between i j s.
Proof.
  intros Hj. unfold between. rewrite <-(take_drop k s) at 2. destruct (decide (j ≤ i)).
  { by replace (j - i) with 0 by lia. }
  destruct (decide (k ≤ length s)).
  - rewrite drop_app_le by (rewrite length_take; lia). rewrite take_app_le; [done|]. rewrite length_drop, length_take. lia.
  - by rewrite (drop_ge s), app_nil_r by lia.
Qed.

Lemma overlap_descending old original rs k :
  Forall (λ r, holds_name original old r = true) rs → overlap rs = None → k ≤ length original →
  match rs with [] => True | r :: _ => pos r.2 ≤ k end → descending old (take k original) rs.
Proof.
  intros Hall. revert k. induction Hall as [|r rs Hr Hall IH]; intros k Ho Hk Hf; [done|].
  apply holds_name_spec in Hr as (H1 & H2 & H3). split_and!; [done|rewrite length_take; lia|by rewrite between_take|].
  rewrite take_take, Nat.min_l by lia. apply IH; [by destruct rs as [|curr rs]; [|simpl in Ho; case_match]|lia|].
  destruct rs as [|curr rs]; [done|]. simpl in Ho. destruct (N.ltb_spec r.1 curr.2); [done|]. lia.
Qed.

Lemma validate_spec ranges original old path rs :
  validate_rename_ranges ranges original old path = Ok rs →
  descending old original rs ∧ ∀ r, r ∈ rs ↔ r ∈ ranges ∧ holds_name original old r = true.
Proof.
  unfold validate_rename_ranges. destruct (overlap _) as [[curr prev]|] eqn:Ho; [done|]. intros [= <-]. split.
  - rewrite <-(firstn_all original) at 1. apply overlap_descending; [|done|done|].
    + apply Forall_forall. intros r [Hr _]%list_elem_of_filter. by apply Is_true_true.
    + set (rs := filter _ _). assert (Hall : Forall (λ r, pos r.2 ≤ length original) rs).
      { apply Forall_forall. intros r [Hr _]%list_elem_of_filter. apply Is_true_true, holds_name_spec in Hr. tauto. }
      destruct rs; [done|]. by apply Forall_inv in Hall.
  - intros r. rewrite list_elem_of_filter, elem_of_dedup, sort_by_Permutation, Is_true_true. tauto.
Qed.

(** A file is rewritten at exactly the collected ranges that hold the old name.  When
    its ranges are accepted, the file is cut there into pieces: the original is the pieces
    joined by the old name, the result is the same pieces joined by the new one, and the
    cuts are the accepted ranges.  A range that does not hold the name is ignored; ranges
    that overlap are refused. *)
Theorem rename_rewrites_exactly ranges original old new path rs :
  validate_rename_ranges ranges original old path = Ok rs →
  (∀ r, r ∈ rs ↔ r ∈ ranges ∧ holds_name original old r = true) ∧
  ∃ ps, original = join old ps ∧ apply_ranges original rs new = join new ps ∧
    reverse ((λ r, pos r.1) <$> rs) = piece_starts 0 (length old) ps.
Proof.
  intros Hv. apply validate_spec in Hv as [Hd Hm]. split; [done|].
  destruct (apply_ranges_join old new original rs Hd) as (ps & _ & H1 & H2 & H3). by exists ps.
Qed.

(** ** What a plan writes *)

Lemma partition_sites_kept {A} (keep : A → bool) site fc sites sink kept sink' :
  partition_sites keep site fc sites sink = Done (kept, sink') → kept = filter (λ s, Is_true (keep s)) sites.
Proof.
  revert sink kept sink'. induction sites as [|s sites IH]; intros sink kept sink'; simpl; [by intros [= <- _]|].
  destruct (keep s) eqn:Ek.
  - rewrite Outcome_bind_Done. intros ([kept1 sink1] & E & [= <- _]). rewrite filter_cons_True by (by rewrite Ek).
    f_equal. by eapply IH.
  - rewrite Outcome_bind_Done. intros (u & _ & E). rewrite filter_cons_False by (rewrite Ek; by intros []). by eapply IH.
Qed.

Lemma validate_all_spec l name entries out path rs :
  validate_all l name entries = Ok out → (path, rs) ∈ out →
  ∃ ranges f, (path, ranges) ∈ entries ∧ capture_shared_file l path = Some f ∧
    validate_rename_ranges ranges (f_content f) name path = Ok rs.
Proof.
  revert out. induction entries as [|[p ranges] entries IH]; intros out; simpl.
  { intros [= <-] ?%elem_of_nil. done. }
  destruct (capture_shared_file l p) as [f|] eqn:Ef; [|done].
  destruct (validate_rename_ranges ranges (f_content f) name p) as [rs1|] eqn:Ev; [|done].
  destruct (validate_all l name entries) as [rest|] eqn:Er; [|done].
  intros [= <-] [[= -> ->]|Hin]%elem_of_cons.
  - exists ranges, f. split_and!; [left|done|done].
  - destruct (IH rest eq_refl Hin) as (ranges' & f' & ? & ? & ?). exists ranges', f'. split_and!; [by right|done|done].
Qed.

Lemma take_while_app f s : ∃ rest, s = take_while f s ++ rest ∧ match rest with [] => True | b :: _ => f b = false end.
Proof.
  induction s as [|b s IH]; simpl; [by exists []|]. destruct (f b) eqn:E; [|by exists (b :: s)].
  destruct IH as (rest & Es & Hr). exists rest. split; [simpl; by f_equal|done].
Qed.

Lemma take_while_all f s : Forall (λ b, f b = true) (take_while f s).
Proof. induction s as [|b s IH]; simpl; [done|]. destruct (f b) eqn:E; by constructor. Qed.

Lemma drop_while_none f s : Forall (λ b, f b = false) s → drop_while f s = s.
Proof. destruct 1 as [|b s Hb _]; [done|]. simpl. by rewrite Hb. Qed.

Lemma ident_byte_ascii b : is_ident_byte b = true → is_continuation b = false.
Proof. destruct b; vm_compute; done. Qed.

(** The qualifier is the maximal run of identifier bytes before [::]. *)
Lemma qualifier_before_text content leaf q :
  qualifier_before content leaf = Some q →
  q ≠ [] ∧ ∃ p, take (pos leaf) content = p ++ q ++ bs "::" ∧
    match last p with Some b => is_ident_byte b = false | None => True end.
Proof.
  unfold qualifier_before. destruct (_ || _) eqn:Eg; [done|].
  rewrite !orb_false_iff, !negb_false_iff, !bool_decide_eq_true in Eg.
  destruct Eg as [[[H2%Nat.ltb_ge Hlen%Nat.ltb_ge] Hc1] Hc2]. 
  destruct (take_while_app is_ident_byte (reverse (take (pos leaf - 2) content))) as (rest & Es & Hrest).
  set (ident := take_while is_ident_byte (reverse (take (pos leaf - 2) content))) in *.
  pose proof (take_while_all is_ident_byte (reverse (take (pos leaf - 2) content))) as Hall. fold ident in Hall.
  case_decide as En; [done|]. rewrite drop_while_none.
  2:{ apply Forall_reverse. eapply Forall_impl; [exact Hall|]. apply ident_byte_ascii. }
  unfold from_utf8. destruct (valid_utf8 (reverse ident)); [|done]. intros [= <-]. split; [done|].
  exists (reverse rest). split; [|by destruct rest; rewrite ?reverse_cons, ?last_snoc].
  rewrite (take_between (pos leaf - 2) (pos leaf)) by lia. rewrite app_assoc. f_equal.
  - apply (f_equal reverse) in Es. by rewrite reverse_involutive, reverse_app in Es.
  - unfold between. replace (pos leaf - (pos leaf - 2)) with 2 by lia.
    rewrite (drop_S _ _ _ Hc1). replace (S (pos leaf - 2)) with (pos leaf - 1) by lia. by rewrite (drop_S _ _ _ Hc2).
Qed.

Section gate.
Context (order : list (str * Row)) (l : LiveIndex) (Ho : order ≡ₚ map_to_list (files l)).
Context (file : IndexedFile) (sym : SymbolRecord) (input : RenamePlanInput).

Lemma content_for_Some path c : content_for (file_contents order input) path = c → c ≠ [] →
  ∃ f, capture_shared_file l path = Some f ∧ f_content f = c.
Proof.
  unfold content_for, file_contents. destruct (head _) as [[p c']|] eqn:E; [|by intros <-]. intros <- _.
  apply head_Some_elem_of, list_elem_of_filter in E as [Ep Hin]. simpl in Ep. subst p.
  apply list_elem_of_fmap in Hin as ([p row] & [= -> ->] & [_ Hin]%list_elem_of_filter).
  exists (row_file row). split; [|done]. unfold capture_shared_file.
  rewrite Ho in Hin. apply elem_of_map_to_list in Hin. by rewrite Hin.
Qed.

(** The owner of the target, when exactly one definition of the name has it. *)
Definition sole_owner (owner : str) : Prop :=
  target_owner file sym = Some owner ∧ length (filter (λ o, o = owner) (owners_of_defs order input)) = 1.

Lemma recovers_spec q : recovers order file sym input q = true → ∃ owner, q = Some owner ∧ sole_owner owner.
Proof.
  unfold recovers, owner_is_unique, sole_owner. rewrite andb_true_iff.
  destruct (target_owner file sym) as [owner|]; [|by intros [? _]].
  intros [Hu%Nat.eqb_eq Hq]. destruct q as [q|]; [|done]. apply bool_decide_eq_true in Hq. subst q. eauto.
Qed.

(** A site that the index gives: a reference found for the name; when the name has several
    definitions its qualifier is the sole owner. *)
Definition by_reference (path : str) (r : range) : Prop :=
  ∃ ref, (path, ref) ∈ find_references_for_name order l (rp_name input) None false ∧ r_byte_range ref = r ∧
    (2 ≤ def_count order input →
      ∃ qn owner, r_qualified_name ref = Some qn ∧ immediate_qualifier qn = Some owner ∧ sole_owner owner).

(** The text before the position ends with the whole identifier [owner] and [::]: no
    identifier byte comes before it, so [MyTarget::] is not qualified by [Target]. *)
Definition qualified_by (content : list byte) (at_ : nat) (owner : str) : Prop :=
  ∃ p, take at_ content = p ++ owner ++ bs "::" ∧
    match last p with Some b => is_ident_byte b = false | None => True end.

(** A site that the scan gives: a confident match; when the name has several definitions
    it is qualified by the sole owner. *)
Definition by_scan (path : str) (r : range) : Prop :=
  (∃ usages u, scanned order input = Done usages ∧ u ∈ usages ∧ qu_confident u = true ∧
    qu_file_path u = path ∧ qu_byte_range u = r) ∧
  (2 ≤ def_count order input →
    ∃ owner f, sole_owner owner ∧ capture_shared_file l path = Some f ∧ qualified_by (f_content f) (pos r.1) owner).

Lemma site_kept_ref s :
  s ∈ ref_sites order l input → (2 ≤ def_count order input → ref_recovers order file sym input s = true) → by_reference s.1.1 s.1.2.
Proof.
  intros [_ ([p ref] & -> & Hin)%list_elem_of_fmap]%list_elem_of_filter Hr. exists ref. split_and!; [done|done|].
  intros Hd. specialize (Hr Hd). apply recovers_spec in Hr as (owner & Eq & Hs). simpl in Eq.
  apply bind_Some in Eq as (qn & ? & ?). eauto.
Qed.

Lemma site_kept_scan s usages :
  scanned order input = Done usages →
  s ∈ (λ u, (qu_file_path u, qu_byte_range u)) <$> filter (λ u, Is_true (qu_confident u)) usages →
  (2 ≤ def_count order input → scan_recovers order file sym input s = true) → by_scan s.1 s.2.
Proof.
  intros Es (u & -> & [Hc Hu]%list_elem_of_filter)%list_elem_of_fmap Hr. simpl in *. split.
  { exists usages, u. split_and!; try done. by apply Is_true_true. }
  intros Hd. specialize (Hr Hd). apply recovers_spec in Hr as (owner & Eq & Hs). simpl in Eq.
  apply qualifier_before_text in Eq as [Hne (p & Et & Hp)].
  destruct (content_for_Some (qu_file_path u) _ eq_refl) as (f & Hf & Ef).
  - intros Ec. rewrite Ec in Et. rewrite take_nil in Et. by destruct p, owner.
  - exists owner, f. split_and!; [done|done|]. exists p. by rewrite Ef.
Qed.

End gate.

(** ** Sites that are written and should not be *)

Definition demo_plan (content : string) (symbols : list SymbolRecord) (refs : list ReferenceRecord) (name : string) :
    Outcome (Result RenamePlan RenameError) :=
  let row := mkRow 1 (parsed_file Rust (bs content) symbols refs) in
  let order := [(bs "a.rs", row)] in
  let l := apply_reload_data (mkReload (list_to_map order) [] (derived_from_files order)) empty_live_index in
  match symbols with
  | sym :: _ => build_rename_plan order l (row_file row) sym (mkRenameInput (bs "a.rs") (bs name) false)
  | [] => Panic
  end.

Definition written (plan : Outcome (Result RenamePlan RenameError)) : option (list range) :=
  match plan with Done (Ok plan) => by_file plan !! bs "a.rs" | _ => None end.

(** The range of the definition is the first place in its text where the bytes of the name
    occur, which may be inside a keyword: renaming [f] rewrites the [f] of [fn]. *)
Theorem definition_name_inside_keyword :
  let content := "fn f() {}"%string in
  written (demo_plan content [mkSymbol (bs "f") Function 0 0 (0, 9)%N (0, 0)%N None None] [] "f") = Some [(0, 1)%N] ∧
  apply_ranges (bs content) [(0, 1)%N] (bs "g") = bs "gn f() {}".
Proof. split; vm_compute; reflexivity. Qed.

(** The scan has no identifier boundary: renaming [Foo] rewrites the end of [MyFoo]. *)
Theorem longer_name_is_rewritten :
  let content := "struct Foo; MyFoo::new()"%string in
  written (demo_plan content [mkSymbol (bs "Foo") Struct 0 0 (0, 11)%N (0, 0)%N None None] [] "Foo") =
    Some [(14, 17)%N; (7, 10)%N] ∧
  apply_ranges (bs content) [(14, 17)%N; (7, 10)%N] (bs "Bar") = bs "struct Bar; MyBar::new()".
Proof. split; vm_compute; reflexivity. Qed.

(** ** Witnesses *)

Lemma rename_rewrites_exactly_witness :
  validate_rename_ranges [(0, 3); (8, 11); (4, 7); (0, 3)]%N (bs "foo bar foo") (bs "foo") (bs "a.rs") = Ok [(8, 11); (0, 3)]%N ∧
  ∃ ps, bs "foo bar foo" = join (bs "foo") ps ∧
    apply_ranges (bs "foo bar foo") [(8, 11); (0, 3)]%N (bs "x") = join (bs "x") ps.
Proof.
  assert (E : validate_rename_ranges [(0, 3); (8, 11); (4, 7); (0, 3)]%N (bs "foo bar foo") (bs "foo") (bs "a.rs") =
    Ok [(8, 11); (0, 3)]%N) by (vm_compute; reflexivity).
  split; [exact E|]. destruct (rename_rewrites_exactly _ _ _ (bs "x") _ _ E) as [_ (ps & H1 & H2 & _)]. by exists ps.
Defined.

Definition two_news : string := "impl A { fn new() {} }
impl B { fn new() {} }
fn m() { A::new(); B::new(); }".

Definition new_of_a : SymbolRecord := mkSymbol (bs "new") Method 1 1 (9, 20)%N (0, 0)%N None None.

Definition two_news_file : IndexedFile :=
  parsed_file Rust (bs two_news)
    [new_of_a; mkSymbol (bs "impl A") Impl 0 0 (0, 22)%N (0, 0)%N None None;
     mkSymbol (bs "impl B") Impl 0 2 (23, 45)%N (1, 1)%N None None;
     mkSymbol (bs "new") Method 1 3 (32, 43)%N (1, 1)%N None None]
    [mkReference (bs "new") (Some (bs "A::new")) Call (58, 61)%N (2, 2)%N None;
     mkReference (bs "new") (Some (bs "B::new")) Call (68, 71)%N (2, 2)%N None].

Definition two_news_order : list (str * Row) := [(bs "a.rs", mkRow 1 two_news_file)].
Definition two_news_index : LiveIndex :=
  apply_reload_data (mkReload (list_to_map two_news_order) [] (derived_from_files two_news_order)) empty_live_index.
Definition rename_new : RenamePlanInput := mkRenameInput (bs "a.rs") (bs "new") false.

